(* ===== verification/_CoqProject ===== *)
-Q . S2P
Prelude.v
Bytes.v
StdPath.v
Utils.v
StoreModel.v
Database.v
StoreWorker.v
Operations.v
OperationLifecycle.v
Paging.v
Uploads.v
UploadLifecycle.v
Purges.v
PurgeLifecycle.v
PathKeys.v
PathCoordinator.v
CoordinatorSafety.v
DiskSpace.v
UuidText.v
Http.v
UploadProtocol.v
Problem.v
InternalNames.v
PathPolicy.v
Recovery.v
Actor.v
ActorSafety.v
Registry.v
Revisions.v
ListingSort.v
Listing.v
RootedOs.v
RootedFs.v
RootedFsSafety.v
ResolvedPaths.v
StageFiles.v
RootedPurge.v
RootedPurgeFacts.v
DirectoryWalk.v
DirectoryWalkFacts.v
ListSnapshots.v
ListApi.v
ListApiFacts.v
ServerHost.v
BrowserApi.v
BrowserApiFacts.v
Delete.v
UploadHost.v
UploadRecords.v
UploadPipeline.v
UploadPrepare.v
UploadTransfer.v
UploadSafety.v
UploadPublication.v
UploadAnswers.v
PurgeWorker.v
PurgeWorkerFacts.v
ActiveFiles.v
Maintenance.v
MaintenanceFacts.v
MaintenanceScan.v
MutationProgress.v
Lifecycle.v
LogText.v
LogWriter.v
StartupHost.v
Download.v
AccessLog.v
WebPages.v
Router.v
RequestHost.v
UploadApi.v
BlockingGate.v
SchemaText.v
DatabaseFile.v
Config.v
Connections.v
Process.v
Dispatch.v
DispatchFacts.v
