(* ===== verification/Prelude.v ===== *)
(** * A verification of the dufs browser file manager

    The program ([src/src], Rust) is an HTTP server that lets a browser manage
    one directory tree: list, download, upload with resumption, move, delete.
    Its hard parts are the ones that have to stay right across concurrency,
    cancellation, crashes and a file system that others change at the same time,
    and they are what this library models:

    - a durable _state store_: an actor thread that owns an SQLite database
      with three tables - idempotent operations, upload sessions, purge jobs -
      and executes commands from all requests one at a time;
    - a _path coordinator_ that grants mutation leases on paths, lexically and
      as the file system resolves them, in arrival order;
    - a _disk-space tracker_ that reserves room for uploads without holding a
      lock across file-system probes;
    - the _rooted file system_: every operation on the tree as descriptor-relative
      system calls that check what they act on;
    - the _requests_: routing, authentication, listing, download, mkdir, move,
      delete and upload, from the headers to the response;
    - the _background work_: the purge of deleted trees, the cleanup of expired
      uploads, and the scan for stale internal files;
    - the _process_: configuration, the opening of the database, listeners,
      logging and shutdown.

    A mutating request passes the dispatcher, takes a path lease, scans the
    persisted paths of the store for obligations in its way, reserves an operation
    record in the store and disk space, works on the rooted file system, and
    records the outcome.  What it leaves behind is finished by the background work
    or, after a crash, by recovery.

    ** Files and the code they model

    Foundations:
    - [Prelude]: results, machine integers, tactics and lemmas used everywhere.
    - [Bytes], [StdPath]: what the code uses of the Rust standard library -
      byte strings, decimal and big-endian numbers, [std::path].
    - [Utils], [UuidText], [Http], [Problem]: [utils.rs], UUIDs, header maps and
      responses, [server/problem.rs] with [app_error.rs].
    - [RootedOs], [StartupHost], [ServerHost], [UploadHost], [RequestHost]: programs
      over a host - see below - with the system calls and services each layer uses.

    State store ([server/state_store.rs] and its directory):
    - [StoreModel]: [model.rs], constants, limits and clock.
    - [Database], [StoreWorker]: the schema as finite maps with their constraints,
      transactions and the worker monad [W] (time, SQLite faults and fresh UUIDs
      come from an environment per call).
    - [Operations], [OperationLifecycle]; [Paging]; [Uploads], [UploadLifecycle];
      [Purges], [PurgeLifecycle]: the statements of each table and its abstract
      life cycle.
    - [Recovery]: [recover_database].
    - [Actor], [ActorSafety]: the commands and the loop of [actor.rs] as a
      transition system.
    - [SchemaText], [DatabaseFile]: opening a database file in [database.rs] -
      guards, private copies, the canonical schema, initialization - and the
      readiness probe of [actor.rs].

    Shared services:
    - [PathKeys], [PathCoordinator], [CoordinatorSafety]:
      [server/path_coordinator.rs] with the admission loop of [server.rs].
    - [DiskSpace]: [server/disk_space.rs].  [BlockingGate]:
      [server/blocking_io.rs].
    - [InternalNames], [PathPolicy], [Revisions]: [server/internal_names.rs],
      [server/path_policy.rs], [server/upload/target.rs].
    - [Registry]: [server/operation_registry.rs] and [server/identity.rs].
    - [MutationProgress]: the boundary between a mutation and its deadline in
      [server/router/request.rs].

    Rooted file system ([server/rooted_fs.rs], [server/storage.rs]):
    - [RootedFs], [RootedFsSafety]: opening, relocation, publication, trash.
    - [ResolvedPaths]: resolution of keys.  [StageFiles]: stages of uploads and the
      readiness probe that writes a file in the root.
    - [RootedPurge], [RootedPurgeFacts]: [rooted_fs/purge.rs].

    Requests:
    - [ListingSort], [Listing], [DirectoryWalk], [DirectoryWalkFacts],
      [ListSnapshots], [ListApi], [ListApiFacts]: [server/listing.rs] and its
      directory.
    - [BrowserApi], [BrowserApiFacts], [UploadApi]: [server/browser_api.rs].
    - [Delete]: [server/delete.rs].  [Download]: [server/download.rs].
    - [UploadProtocol], [UploadRecords], [UploadPrepare], [UploadPipeline], with
      [UploadSafety], [UploadTransfer], [UploadPublication], [UploadAnswers]:
      [server/upload.rs] and its directory.
    - [WebPages]: [server/assets.rs], [server/administrator_web.rs].
    - [Router], [Dispatch], [DispatchFacts]: [server/router.rs],
      [server/router/dispatch.rs]; the whole server on a request.

    Background work and process:
    - [PurgeWorker], [PurgeWorkerFacts]: [server/purge.rs].
    - [Maintenance], [MaintenanceFacts], [MaintenanceScan], [ActiveFiles]:
      [server/maintenance.rs] and the registry of files in use.
    - [Lifecycle]: admission and shutdown in [server.rs]; its [StoreThread] is the
      closing of the state store's thread in [server/state_store.rs], by any number of
      callers at once.
    - [Config]: [args.rs], [auth.rs].
    - [LogText], [LogWriter], [AccessLog]: [logger.rs], [http_logger.rs],
      [request_context.rs].
    - [Connections], [Process]: [main.rs].

    ** How code is modelled

    Definitions keep the names of the code.  Three styles are used, by component:

    - Pure code and the store are functions: state is a record, an operation
      returns the new state, an error is a value of [result].
    - Code whose point is concurrency (the actor, the coordinator, the disk tracker,
      the registry of active files, the mutation boundary, the lifecycle, the
      blocking gate) is a transition system whose steps are its atomic actions;
      theorems quantify over all runs.
    - Code that talks to the kernel, the store, a clock or a client is a program
      ([Prog], [bind], [attempt]) over a host: a class with one function per
      interaction, whose answers are arbitrary and may change at any time.  Every
      interaction is logged with its answer; [spec] relates the result of a program
      to its log for every host and every state of it, so that a theorem about the
      log is a theorem about whatever a hostile or failing environment can do.
      [lifted] embeds the programs of one layer in those of the next.

    Code outside the repository is a parameter: classes with laws
    ([PercentEncoding], [UuidLib], [HttpTypes]), classes of functions ([AdminLib],
    [Foundation], [LogLib]) or section variables (SHA-256, HMAC, base64, the
    serialization of JSON and YAML, the command line as [clap] parsed it).

    ** What the theorems show

    - The store: [actor_keeps_store_valid] and [no_reservation_leaks] over all
      interleavings with cancelled requests, full queues and failing SQLite;
      [operations_refine_lifecycle], [uploads_refine_lifecycle],
      [purges_refine_lifecycle] refine small state machines per key, with
      idempotence ([commit_started_not_restarted]) and recovery
      ([recovery_resolves_crash]); [database_is_trusted_before_it_changes] and
      [canonical_definitions_agree] for the file it lives in;
      [readiness_probe_is_rolled_back].
    - Path leases and admission: [leases_are_exclusive],
      [held_paths_stay_resolved], [first_waiter_acquires],
      [admission_scan_is_exact]; disk space: [reservations_protect_free_space];
      blocking work: [blocking_work_is_bounded].
    - The tree changes only as confirmed: [relocation_is_checked],
      [relocation_commits_what_was_confirmed], [delete_follows_its_intent],
      [upload_publishes_confirmed], [transfer_writes_prefix], and for a whole
      request [content_changes_are_confirmed], [authentication_comes_first],
      [reading_requests_only_look].  What an upload may touch is [own_work]
      ([UploadSafety]): the file at the place its target and identifier determine,
      and the directories on the way to it.
    - Answers are true: [upload_answers_truthfully],
      [requests_are_answered_honestly], [boundary_is_one_way],
      [registry_replays_outcome], [service_errors_do_not_leak].  The router claims
      only what its progress cell shows and forwards what the handlers say.
    - Reading: [directory_walk_is_traversal] on a tree that stands still, and
      [list_request_is_exact] on any: its page is what the records in the log
      ([explores] in [DirectoryWalkFacts]) add up to; [listing_sort_is_stable],
      [served_page_is_authentic],
      [paging_reads_whole_listing], [file_responses_are_framed],
      [body_delivers_the_slice], [paths_stay_in_the_tree].
    - Background work: [purge_removes_only_pinned], [purge_slice_is_bounded],
      [doubtful_purge_is_set_aside], [purge_worker_loses_no_claim],
      [expired_cleanup_is_identity_safe], [scan_removes_only_stale],
      [scan_batch_ends], [uploads_and_cleanups_exclude].
    - The process: [validated_settings_are_sound], [config_is_read_securely],
      [log_file_is_private], [connections_are_bounded],
      [stalled_writes_time_out], [store_closes_last], [shutdown_completes],
      [process_ends_honestly]; logs: [responses_are_logged_once],
      [credentials_are_not_logged], [unescape_sanitize],
      [writer_accounts_for_everything].

    ** Bounds and fuel

    Integers have the width the code gives them where it matters: conversions and
    checked additions are partial, counters wrap or saturate.  Fuel, where a loop is
    not structural, is given by the theorems that need it or chosen so that it
    cannot run out: one more than the rows for the page loops; two passes over the
    request's paths and eight steps for [run_alone]; [2 * max + 3] turns for a purge
    slice and [2 * max + directories + 2] for a batch of the maintenance scan, where
    [max] is its budget of entries; one more than the remaining bytes for the polls
    of a body; the length of a path for its ancestors, since a parent is shorter.
    Loops that run as long as the server does (workers, listeners, the log writer)
    are modelled by their rounds: theorems hold after any number of them.  The
    coordinator and the disk tracker compare 64-bit counters for equality; their
    theorems hold for runs shorter than the counters' range.

    ** Assumptions of the models

    A transaction either commits or leaves the database unchanged.  A mutation
    of the file system under a path lease changes the resolution only of paths
    whose key conflicts with the lease; a symbolic link replaced under its own
    name and traversed under another one is outside this assumption.  Writers
    write within their disk reservations, and nobody else fills the disk.  A
    deadline that has passed stays passed and a cancelled token stays cancelled
    within a batch of the maintenance; [upload_answers_truthfully] claims nothing
    about the state when the clock goes back.  A read returns at most what was asked
    for.  The identifier under which an upload registers its stage is not registered
    by another upload at the same time: the callers hold the lease of the target.
    The admission scan pages through a store that does not change meanwhile, and the
    number of scans at a time is not part of it.  Setting the mode of a file through
    its descriptor and creating the database file are not changes to an existing
    database: they occur only on a file the server has just created.
    [directory_walk_is_traversal] is about a file system that stands still.

    ** Not modelled

    The administration platform (sessions, passwords, tokens), SQLite, hyper and
    tokio are third-party code behind the interfaces above.  The construction of
    the server from its settings and the opening of the shared root are left out:
    they call constructors one after the other.  So are the command-line grammar,
    the password prompt, the installation of the logger, the contents of embedded
    assets and the build script, which have no behaviour of their own to verify,
    and code that exists only for tests. *)

From stdpp Require Import base numbers list gmap strings sorting.
From Stdlib Require Import Ascii.

#[export] Set Default Goal Selector "!".

(** ** Results

    [result E A] is Rust's [Result<A, E>].  [anyhow::Error] is represented by
    the message the source constructs; typed error enums use their own [E]. *)

Inductive result (E A : Type) : Type :=
| Ok (a : A)
| Err (e : E).
Arguments Ok {E A} a.
Arguments Err {E A} e.

#[export] Instance result_ret {E} : MRet (result E) := fun A a => Ok a.
#[export] Instance result_bind {E} : MBind (result E) :=
  fun A B f r => match r with Ok a => f a | Err e => Err e end.
#[export] Instance result_fmap {E} : FMap (result E) :=
  fun A B f r => match r with Ok a => Ok (f a) | Err e => Err e end.

#[export] Instance result_eq_dec {E A} `{EqDecision E, EqDecision A} :
  EqDecision (result E A).
Proof. solve_decision. Defined.

(** [ensure!(condition, message)]. *)
Definition ensure {E} (c : bool) (e : E) : result E unit :=
  if c then Ok tt else Err e.

(** [Option::ok_or] / [ok_or_else]. *)
Definition ok_or {E A} (o : option A) (e : E) : result E A :=
  match o with Some a => Ok a | None => Err e end.

(** [Option<Result<A>>::transpose]. *)
Definition transpose {E A} (o : option (result E A)) : result E (option A) :=
  match o with
  | None => Ok None
  | Some (Ok a) => Ok (Some a)
  | Some (Err e) => Err e
  end.

(** [Iterator<Result<A>>::collect::<Result<Vec<A>>>]. *)
Fixpoint collect {E A} (l : list (result E A)) : result E (list A) :=
  match l with
  | [] => Ok []
  | r :: l' => x ← r; xs ← collect l'; Ok (x :: xs)
  end.

Definition is_ok {E A} (r : result E A) : bool :=
  match r with Ok _ => true | Err _ => false end.

(** ** Machine integers

    Rust integers are kept as [Z] with their width written out at every
    conversion and checked operation. *)

Local Open Scope Z_scope.

Definition u8_max : Z := 255.
Definition u16_max : Z := 65535.
Definition u32_max : Z := 4294967295.
Definition u64_max : Z := 18446744073709551615.
Definition i64_min : Z := -9223372036854775808.
Definition i64_max : Z := 9223372036854775807.

Definition u64_range (z : Z) : Prop := 0 <= z <= u64_max.

Definition in_u16 (z : Z) : bool := (0 <=? z) && (z <=? u16_max).
Definition in_u32 (z : Z) : bool := (0 <=? z) && (z <=? u32_max).
Definition in_u64 (z : Z) : bool := (0 <=? z) && (z <=? u64_max).
Definition in_i64 (z : Z) : bool := (i64_min <=? z) && (z <=? i64_max).

(** [T::try_from(z).ok()]. *)
Definition u16_try_from (z : Z) : option Z := if in_u16 z then Some z else None.
Definition u32_try_from (z : Z) : option Z := if in_u32 z then Some z else None.
Definition u64_try_from (z : Z) : option Z := if in_u64 z then Some z else None.
Definition i64_try_from (z : Z) : option Z := if in_i64 z then Some z else None.

Definition u64_checked_add (a b : Z) : option Z := u64_try_from (a + b).
Definition u64_checked_sub (a b : Z) : option Z := u64_try_from (a - b).
Definition u64_checked_mul (a b : Z) : option Z := u64_try_from (a * b).
Definition i64_checked_add (a b : Z) : option Z := i64_try_from (a + b).
Definition u64_saturating_sub (a b : Z) : Z := Z.max 0 (a - b).
Definition u64_wrapping_add (a b : Z) : Z := (a + b) `mod` (u64_max + 1).

(** [lo..=hi].contains(&z) *)
Definition in_range (lo hi z : Z) : bool := (lo <=? z) && (z <=? hi).

(** ** Tactics *)

(** Split every test of a boolean conjunction or comparison that the code
    performs into its proposition. *)
Ltac bool_prop :=
  repeat match goal with
  | H : (_ && _) = true |- _ => apply andb_true_iff in H; destruct H
  | H : (_ || _) = false |- _ => apply orb_false_iff in H; destruct H
  | H : (_ || _) = true |- _ => apply orb_true_iff in H
  | H : (_ && _) = false |- _ => apply andb_false_iff in H
  | H : negb _ = true |- _ => apply negb_true_iff in H
  | H : negb _ = false |- _ => apply negb_false_iff in H
  | H : (_ <=? _) = true |- _ => apply Z.leb_le in H
  | H : (_ <=? _) = false |- _ => apply Z.leb_gt in H
  | H : (_ <? _) = true |- _ => apply Z.ltb_lt in H
  | H : (_ <? _) = false |- _ => apply Z.ltb_ge in H
  | H : (_ =? _) = true |- _ => apply Z.eqb_eq in H
  | H : (_ =? _) = false |- _ => apply Z.eqb_neq in H
  | H : bool_decide _ = true |- _ => apply bool_decide_eq_true in H
  | H : bool_decide _ = false |- _ => apply bool_decide_eq_false in H
  end.

(** Follow the control flow of a [result] computation that is known to have
    returned: destruct each scrutinee, discard the branches that do not
    match, and name nothing. *)
Ltac result_inv :=
  repeat match goal with
  | H : Ok _ = Ok _ |- _ => injection H as H; try subst
  | H : Err _ = Err _ |- _ => injection H as H; try subst
  | H : Ok _ = Err _ |- _ => discriminate H
  | H : Err _ = Ok _ |- _ => discriminate H
  | H : Some _ = Some _ |- _ => injection H as H; try subst
  | H : Some _ = None |- _ => discriminate H
  | H : None = Some _ |- _ => discriminate H
  | H : (_, _) = (_, _) |- _ => injection H as H; try subst
  end.

(** ** Hint databases *)

Create HintDb dufs discriminated.
Create Rewrite HintDb dufs_rw.

(** ** Generic lemmas *)

Section result_lemmas.
Context {E A B : Type}.

Lemma bind_Ok (r : result E A) (f : A -> result E B) b :
  (r ≫= f) = Ok b <-> exists a, r = Ok a /\ f a = Ok b.
Proof. destruct r; cbn; naive_solver. Qed.

Lemma ensure_Ok (c : bool) (e : E) u : ensure c e = Ok u <-> c = true.
Proof. destruct c, u; cbn; naive_solver. Qed.

Lemma ok_or_Ok (o : option A) (e : E) a : ok_or o e = Ok a <-> o = Some a.
Proof. destruct o; cbn; naive_solver. Qed.

Lemma transpose_Ok_Some (o : option (result E A)) a :
  transpose o = Ok (Some a) <-> o = Some (Ok a).
Proof. destruct o as [[]|]; cbn; naive_solver. Qed.

Lemma transpose_Ok_None (o : option (result E A)) :
  transpose o = Ok None <-> o = None.
Proof. destruct o as [[]|]; cbn; naive_solver. Qed.

Lemma collect_Ok (l : list (result E A)) xs :
  collect l = Ok xs <-> l = Ok <$> xs.
Proof.
  revert xs; induction l as [|r l IH]; intros xs; cbn.
  { destruct xs; cbn; naive_solver. }
  destruct r as [x|e]; cbn; [|destruct xs; cbn; naive_solver].
  destruct (collect l) as [ys|] eqn:Hl; cbn.
  - destruct (IH ys) as [IHy _]. specialize (IHy eq_refl). subst l.
    destruct xs as [|z zs]; cbn; [naive_solver|].
    split; [naive_solver|]. intros [=<- Heq].
    destruct (IH zs) as [_ IHz]. specialize (IHz Heq). naive_solver.
  - destruct xs as [|z zs]; cbn; [naive_solver|].
    split; [naive_solver|]. intros [=<- Heq].
    destruct (IH zs) as [_ IHz]. specialize (IHz Heq). naive_solver.
Qed.
End result_lemmas.

Lemma u64_try_from_Some z x :
  u64_try_from z = Some x <-> x = z /\ 0 <= z <= u64_max.
Proof.
  unfold u64_try_from, in_u64. destruct (0 <=? z) eqn:?, (z <=? u64_max) eqn:?;
    cbn; bool_prop; naive_solver lia.
Qed.

Lemma u32_try_from_Some z x :
  u32_try_from z = Some x <-> x = z /\ 0 <= z <= u32_max.
Proof.
  unfold u32_try_from, in_u32. destruct (0 <=? z) eqn:?, (z <=? u32_max) eqn:?;
    cbn; bool_prop; naive_solver lia.
Qed.

Lemma u16_try_from_Some z x :
  u16_try_from z = Some x <-> x = z /\ 0 <= z <= u16_max.
Proof.
  unfold u16_try_from, in_u16. destruct (0 <=? z) eqn:?, (z <=? u16_max) eqn:?;
    cbn; bool_prop; naive_solver lia.
Qed.

Lemma i64_try_from_Some z x :
  i64_try_from z = Some x <-> x = z /\ i64_min <= z <= i64_max.
Proof.
  unfold i64_try_from, in_i64. destruct (i64_min <=? z) eqn:?, (z <=? i64_max) eqn:?;
    cbn; bool_prop; naive_solver lia.
Qed.

Lemma in_range_true lo hi z : in_range lo hi z = true <-> lo <= z <= hi.
Proof. unfold in_range. rewrite andb_true_iff, !Z.leb_le. lia. Qed.

Lemma in_range_false lo hi z : in_range lo hi z = false <-> z < lo \/ hi < z.
Proof. unfold in_range. rewrite andb_false_iff, !Z.leb_gt. lia. Qed.
