(* ===== verification/Bytes.v ===== *)
(** Byte strings and the parts of Rust's [str] and [u64] that the server uses.
    A Rust [str], [OsStr], [Path] or [Vec<u8>] is a sequence of bytes here. *)

From S2P Require Import Prelude.
From stdpp Require Import base numbers list gmap strings sorting.
From Stdlib Require Import Ascii.

Local Open Scope Z_scope.

Abbreviation bytes := (list ascii).

(** A byte-string literal. *)
Definition bs (s : string) : bytes := String.list_ascii_of_string s.

Definition byte_val (c : ascii) : Z := Z.of_N (N_of_ascii c).
Definition byte_chr (z : Z) : ascii := ascii_of_N (Z.to_N z).

Definition blen (b : bytes) : Z := Z.of_nat (length b).

(** [u8::is_ascii_digit], [(b'a'..=b'f').contains]. *)
Definition is_ascii_digit (c : ascii) : bool := in_range 48 57 (byte_val c).
Definition is_lower_af (c : ascii) : bool := in_range 97 102 (byte_val c).
Definition is_lower_hex (c : ascii) : bool := is_ascii_digit c || is_lower_af c.

Definition beqb (a b : bytes) : bool := bool_decide (a = b).

(** ** [str] operations *)

Fixpoint str_strip_prefix (p s : bytes) : option bytes :=
  match p, s with
  | [], _ => Some s
  | _ :: _, [] => None
  | x :: p', y :: s' => if bool_decide (x = y) then str_strip_prefix p' s' else None
  end.

Definition str_strip_suffix (p s : bytes) : option bytes :=
  r ← str_strip_prefix (reverse p) (reverse s); Some (reverse r).

Definition contains_byte (c : ascii) (s : bytes) : bool := bool_decide (c ∈ s).

(** [str::split(char)]: always at least one piece. *)
Fixpoint split_on (c : ascii) (s : bytes) : list bytes :=
  match s with
  | [] => [[]]
  | x :: s' =>
      if bool_decide (x = c) then [] :: split_on c s'
      else match split_on c s' with
           | [] => [[x]]
           | w :: ws => (x :: w) :: ws
           end
  end.

(** [str::split_once(char)]. *)
Fixpoint split_once (c : ascii) (s : bytes) : option (bytes * bytes) :=
  match s with
  | [] => None
  | x :: s' =>
      if bool_decide (x = c) then Some ([], s')
      else '(a, b) ← split_once c s'; Some (x :: a, b)
  end.

(** [[T]::join]. *)
Fixpoint join_with (sep : bytes) (l : list bytes) : bytes :=
  match l with
  | [] => []
  | [x] => x
  | x :: l' => x ++ sep ++ join_with sep l'
  end.

(** [str::trim_matches(char)]. *)
Fixpoint trim_start_byte (c : ascii) (s : bytes) : bytes :=
  match s with
  | x :: s' => if bool_decide (x = c) then trim_start_byte c s' else s
  | [] => []
  end.
Definition trim_matches_byte (c : ascii) (s : bytes) : bytes :=
  reverse (trim_start_byte c (reverse (trim_start_byte c s))).

Definition to_ascii_lowercase (c : ascii) : ascii :=
  if in_range 65 90 (byte_val c) then byte_chr (byte_val c + 32) else c.
Definition eq_ignore_ascii_case (a b : bytes) : bool :=
  beqb (map to_ascii_lowercase a) (map to_ascii_lowercase b).

(** The UTF-8 encodings of the characters with the Unicode property
    [White_Space], which [str::trim] removes. *)
Definition utf8 (l : list Z) : bytes := byte_chr <$> l.
Definition white_space : list bytes :=
  utf8 <$> ([ [9]; [10]; [11]; [12]; [13]; [32]; [194;133]; [194;160];
      [225;154;128]; [226;128;128]; [226;128;129]; [226;128;130];
      [226;128;131]; [226;128;132]; [226;128;133]; [226;128;134];
      [226;128;135]; [226;128;136]; [226;128;137]; [226;128;138];
      [226;128;168]; [226;128;169]; [226;128;175]; [226;129;159];
      [227;128;128] ] : list (list Z)).

Fixpoint strip_any (ps : list bytes) (s : bytes) : option bytes :=
  match ps with
  | [] => None
  | p :: ps' => match str_strip_prefix p s with
                | Some r => Some r
                | None => strip_any ps' s
                end
  end.
Fixpoint trim_start_any (fuel : nat) (ps : list bytes) (s : bytes) : bytes :=
  match fuel with
  | O => s
  | S fuel' => match strip_any ps s with
               | Some r => trim_start_any fuel' ps r
               | None => s
               end
  end.
(** [str::trim]; each round removes at least one byte, so the length is
    enough fuel. *)
Definition trim (s : bytes) : bytes :=
  let s1 := trim_start_any (length s) white_space s in
  reverse (trim_start_any (length s1) (reverse <$> white_space) (reverse s1)).

(** [str::chars().count()]: the bytes that do not continue a character. *)
Definition chars_count (s : bytes) : Z :=
  blen (filter (λ c, Z.land (byte_val c) 192 ≠ 128) s).

(** ** Decimal integers *)

Fixpoint dec_value (acc : Z) (s : bytes) : option Z :=
  match s with
  | [] => Some acc
  | c :: s' => if is_ascii_digit c then dec_value (acc * 10 + (byte_val c - 48)) s'
               else None
  end.

Definition plus_byte : ascii := byte_chr 43.
Definition zero_byte : ascii := byte_chr 48.
Definition slash : ascii := byte_chr 47.
Definition nul_byte : ascii := byte_chr 0.

(** [str::parse::<u64>]: an optional [+], then at least one digit. *)
Definition u64_parse (s : bytes) : option Z :=
  match s with
  | [] => None
  | c :: s' =>
      let digits := if bool_decide (c = plus_byte) then s' else s in
      match digits with
      | [] => None
      | _ => z ← dec_value 0 digits; u64_try_from z
      end
  end.

Fixpoint dec_rev (fuel : nat) (z : Z) : bytes :=
  match fuel with
  | O => []
  | S fuel' => byte_chr (48 + z `mod` 10) ::
               (if z <? 10 then [] else dec_rev fuel' (z / 10))
  end.
(** [u64::to_string]: a 64-bit value has at most twenty digits. *)
Definition u64_to_string (z : Z) : bytes := reverse (dec_rev 20 z).

(** ** Fixed-width big-endian integers *)

Fixpoint be_bytes (n : nat) (z : Z) : bytes :=
  match n with
  | O => []
  | S n' => be_bytes n' (z / 256) ++ [byte_chr (z `mod` 256)]
  end.
Definition u64_to_be_bytes (z : Z) : bytes := be_bytes 8 z.
Definition be_value (b : bytes) : Z := foldl (λ acc c, acc * 256 + byte_val c) 0 b.
(** [<[u8; N]>::try_from(Vec<u8>)]. *)
Definition array_try_from (n : Z) (b : bytes) : option bytes :=
  if blen b =? n then Some b else None.

(** ** Byte order: [memcmp] as used by [OsStr], SQLite BLOBs and [[u8; N]] *)

Fixpoint bytes_cmp (a b : bytes) : comparison :=
  match a, b with
  | [], [] => Eq
  | [], _ :: _ => Lt
  | _ :: _, [] => Gt
  | x :: a', y :: b' =>
      match Z.compare (byte_val x) (byte_val y) with
      | Eq => bytes_cmp a' b'
      | c => c
      end
  end.
Definition bytes_ltb (a b : bytes) : bool :=
  match bytes_cmp a b with Lt => true | _ => false end.

(** ** Facts about bytes and strings *)

Lemma byte_val_range c : 0 <= byte_val c < 256.
Proof.
  unfold byte_val. pose proof (N_ascii_bounded c). lia.
Qed.

Lemma byte_val_chr z : 0 <= z < 256 -> byte_val (byte_chr z) = z.
Proof.
  intros Hz. unfold byte_val, byte_chr. rewrite N_ascii_embedding; lia.
Qed.

Lemma byte_chr_val c : byte_chr (byte_val c) = c.
Proof.
  unfold byte_val, byte_chr. rewrite N2Z.id. apply ascii_N_embedding.
Qed.

#[export] Instance byte_val_inj : Inj (=) (=) byte_val.
Proof. intros a b H. rewrite <- (byte_chr_val a), <- (byte_chr_val b). by rewrite H. Qed.

Lemma beqb_true a b : beqb a b = true <-> a = b.
Proof. unfold beqb. apply bool_decide_eq_true. Qed.

Lemma beqb_refl a : beqb a a = true.
Proof. by apply beqb_true. Qed.

Lemma beqb_false a b : beqb a b = false <-> a <> b.
Proof. unfold beqb. apply bool_decide_eq_false. Qed.

Lemma str_strip_prefix_Some p s r : str_strip_prefix p s = Some r <-> s = p ++ r.
Proof.
  revert s. induction p as [|x p IH]; intros s; cbn.
  { naive_solver. }
  destruct s as [|y s]; [naive_solver|].
  case_bool_decide; subst; [|naive_solver].
  rewrite IH. naive_solver.
Qed.

Lemma str_strip_suffix_Some p s r : str_strip_suffix p s = Some r <-> s = r ++ p.
Proof.
  unfold str_strip_suffix. split.
  - intros (q & Hq & [=<-])%bind_Some. apply str_strip_prefix_Some in Hq.
    rewrite <- (reverse_involutive s), Hq, reverse_app.
    by rewrite reverse_involutive.
  - intros ->. rewrite reverse_app.
    assert (str_strip_prefix (reverse p) (reverse p ++ reverse r) = Some (reverse r)) as ->
      by by apply str_strip_prefix_Some.
    cbn. by rewrite reverse_involutive.
Qed.

Lemma split_on_not_nil c s : split_on c s <> [].
Proof.
  destruct s as [|x s]; cbn; [done|]. case_bool_decide; [done|].
  by destruct (split_on c s).
Qed.

Lemma split_on_no_sep c s : c ∉ s -> split_on c s = [s].
Proof.
  induction s as [|x s IH]; cbn; [done|]. intros Hc.
  rewrite bool_decide_eq_false_2 by (intros ->; apply Hc; left).
  rewrite IH; [done|]. intros ?; apply Hc; by right.
Qed.

Lemma split_on_app_sep c s t :
  split_on c (s ++ c :: t) = split_on c s ++ split_on c t.
Proof.
  induction s as [|x s IH]; cbn.
  { by rewrite bool_decide_eq_true_2. }
  case_bool_decide; [by rewrite IH|]. rewrite IH.
  pose proof (split_on_not_nil c s).
  by destruct (split_on c s).
Qed.

Lemma split_on_no_sep_piece c s w : w ∈ split_on c s -> c ∉ w.
Proof.
  revert w. induction s as [|x s IH]; cbn; intros w.
  { rewrite list_elem_of_singleton. intros ->. apply not_elem_of_nil. }
  case_bool_decide as Hx.
  - intros [->|Hw]%elem_of_cons; [apply not_elem_of_nil|by apply IH].
  - destruct (split_on c s) as [|v vs] eqn:Hs.
    { rewrite list_elem_of_singleton. intros ->. set_solver. }
    intros [->|Hw]%elem_of_cons.
    + specialize (IH v ltac:(left)). set_solver.
    + apply IH. by right.
Qed.

Lemma join_split c s : join_with [c] (split_on c s) = s.
Proof.
  induction s as [|x s IH]; [done|]. cbn [split_on].
  pose proof (split_on_not_nil c s) as Hne.
  case_bool_decide as Hx.
  - subst x. cbn. destruct (split_on c s); [done|]. by rewrite IH.
  - destruct (split_on c s) as [|v vs]; [done|]. cbn in *.
    destruct vs; cbn in *; by rewrite IH.
Qed.

Lemma split_join c ws :
  ws <> [] -> Forall (λ w, c ∉ w) ws -> split_on c (join_with [c] ws) = ws.
Proof.
  intros Hne Hws. induction Hws as [|w ws Hw Hws IH]; [done|].
  destruct ws as [|v vs]; [by apply split_on_no_sep|].
  assert (join_with [c] (w :: v :: vs) = w ++ c :: join_with [c] (v :: vs)) as -> by done.
  rewrite split_on_app_sep, (split_on_no_sep c w) by done.
  by rewrite IH.
Qed.

Lemma split_once_Some c s a b :
  split_once c s = Some (a, b) <-> s = a ++ c :: b /\ c ∉ a.
Proof.
  revert a. induction s as [|x s IH]; intros a; cbn.
  { split; [done|]. intros [H _]. by destruct a. }
  case_bool_decide as Hx.
  - subst x. split.
    + intros [=<- <-]. split; [done|apply not_elem_of_nil].
    + intros [H Ha]. destruct a as [|y a]; cbn in H.
      * naive_solver.
      * injection H as <- _. exfalso. apply Ha. left.
  - split.
    + intros ([a' b'] & Hs & [=<- <-])%bind_Some.
      apply IH in Hs as [-> Ha]. split; [done|]. set_solver.
    + intros [H Ha]. destruct a as [|y a]; cbn in H; injection H as <- Hs; [done|].
      destruct (IH a) as [_ IH2]. rewrite IH2; [done|]. split; [done|set_solver].
Qed.

(** ** Byte order *)

Lemma bytes_cmp_eq a b : bytes_cmp a b = Eq <-> a = b.
Proof.
  revert b. induction a as [|x a IH]; intros [|y b]; cbn; [naive_solver..|].
  destruct (Z.compare_spec (byte_val x) (byte_val y)) as [Hv|Hv|Hv].
  - apply (inj byte_val) in Hv as ->. rewrite IH. naive_solver.
  - split; [done|]. intros [=<- _]. lia.
  - split; [done|]. intros [=<- _]. lia.
Qed.

Lemma bytes_cmp_antisym a b : bytes_cmp b a = CompOpp (bytes_cmp a b).
Proof.
  revert b. induction a as [|x a IH]; intros [|y b]; cbn; [done..|].
  rewrite Z.compare_antisym. destruct (byte_val x ?= byte_val y); cbn; auto.
Qed.

Lemma bytes_cmp_lt_trans a b c :
  bytes_cmp a b = Lt -> bytes_cmp b c = Lt -> bytes_cmp a c = Lt.
Proof.
  revert b c. induction a as [|x a IH]; intros [|y b] [|z c]; cbn; try done.
  destruct (Z.compare_spec (byte_val x) (byte_val y)),
    (Z.compare_spec (byte_val y) (byte_val z)),
    (Z.compare_spec (byte_val x) (byte_val z)); try done; try lia; eauto.
Qed.

(** ** Decimal round trip *)

Lemma dec_digit_byte d : 0 <= d < 10 -> is_ascii_digit (byte_chr (48 + d)) = true.
Proof.
  intros. unfold is_ascii_digit. rewrite byte_val_chr by lia. apply in_range_true. lia.
Qed.

Lemma dec_value_app acc a b :
  dec_value acc (a ++ b) = z ← dec_value acc a; dec_value z b.
Proof.
  revert acc. induction a as [|c a IH]; intros acc; cbn; [done|].
  destruct (is_ascii_digit c); [apply IH|done].
Qed.

Lemma dec_value_dec_rev fuel z :
  0 <= z < 10 ^ Z.of_nat fuel -> fuel <> O ->
  dec_value 0 (reverse (dec_rev fuel z)) = Some z.
Proof.
  revert z. induction fuel as [|fuel IH]; intros z Hz Hf; [done|]. clear Hf.
  cbn [dec_rev]. rewrite reverse_cons, dec_value_app.
  pose proof (Z.mod_pos_bound z 10 ltac:(lia)) as Hm.
  pose proof (Z.div_mod z 10 ltac:(lia)) as Hd.
  assert (dec_value 0 (reverse (if z <? 10 then [] else dec_rev fuel (z / 10)))
          = Some (z / 10)) as ->.
  { destruct (z <? 10) eqn:Hlt; bool_prop.
    - cbn. f_equal. symmetry. apply Z.div_small. lia.
    - rewrite Nat2Z.inj_succ, Z.pow_succ_r in Hz by lia. apply IH.
      + split; [apply Z.div_pos; lia|]. apply Z.div_lt_upper_bound; lia.
      + intros ->. cbn in Hz. lia. }
  cbn [mbind option_bind dec_value]. rewrite dec_digit_byte by lia.
  rewrite byte_val_chr by lia. cbn. f_equal. lia.
Qed.

Lemma dec_value_u64_to_string z :
  0 <= z <= u64_max -> dec_value 0 (u64_to_string z) = Some z.
Proof.
  intros Hz. unfold u64_to_string. apply dec_value_dec_rev; [|done].
  unfold u64_max in Hz. change (10 ^ Z.of_nat 20) with 100000000000000000000. lia.
Qed.

Lemma dec_value_nonneg acc s z :
  0 <= acc -> dec_value acc s = Some z -> acc <= z.
Proof.
  revert acc. induction s as [|c s IH]; intros acc Ha; cbn.
  { intros [=->]. lia. }
  destruct (is_ascii_digit c) eqn:Hc; [|done].
  unfold is_ascii_digit in Hc. apply in_range_true in Hc.
  intros H. apply IH in H; lia.
Qed.

Lemma forallb_Forall_true {A} (f : A -> bool) l :
  forallb f l = true <-> Forall (λ x, f x = true) l.
Proof.
  induction l as [|x l IH]; cbn; [naive_solver|].
  rewrite andb_true_iff, IH, Forall_cons. done.
Qed.

(** A digit string without a superfluous leading zero. *)
Definition canonical_decimal (s : bytes) : bool :=
  match s with
  | [] => false
  | c :: s' => forallb is_ascii_digit s &&
               (negb (bool_decide (c = zero_byte)) || bool_decide (s' = []))
  end.

Lemma dec_rev_canonical fuel s z :
  canonical_decimal s = true -> dec_value 0 s = Some z ->
  z < 10 ^ Z.of_nat fuel -> fuel <> O -> dec_rev fuel z = reverse s.
Proof.
  revert fuel z. induction s as [|c s IH] using rev_ind; intros fuel z; [done|].
  intros Hcan Hval Hz Hf. destruct fuel as [|fuel]; [done|]. clear Hf.
  rewrite dec_value_app in Hval. apply bind_Some in Hval as (z' & Hz' & Hval).
  cbn in Hval. destruct (is_ascii_digit c) eqn:Hc; [|done]. injection Hval as Hval.
  pose proof Hc as Hr. unfold is_ascii_digit in Hr. apply in_range_true in Hr.
  pose proof (dec_value_nonneg 0 s z' ltac:(lia) Hz').
  assert (Hmod : z `mod` 10 = byte_val c - 48).
  { symmetry. apply (Z.mod_unique_pos _ _ z'); lia. }
  assert (Hdiv : z / 10 = z').
  { symmetry. apply (Z.div_unique_pos _ _ _ (byte_val c - 48)); lia. }
  cbn [dec_rev]. rewrite reverse_snoc, Hmod, Hdiv.
  replace (48 + (byte_val c - 48)) with (byte_val c) by lia. rewrite byte_chr_val.
  f_equal. destruct s as [|x s].
  - cbn in Hz'. injection Hz' as <-. destruct (z <? 10) eqn:Hlt; [done|bool_prop; lia].
  - cbn in Hcan. rewrite forallb_app in Hcan. bool_prop.
    assert (Hx : x <> zero_byte).
    { match goal with H : _ \/ _ |- _ => destruct H as [H|H] end; bool_prop; [done|].
      by destruct s. }
    assert (1 <= z').
    { cbn in Hz'. match goal with H : is_ascii_digit x = true |- _ =>
        rewrite H in Hz'; unfold is_ascii_digit in H; apply in_range_true in H end.
      apply dec_value_nonneg in Hz'; [|lia].
      assert (byte_val x <> 48); [|lia]. intros E. apply Hx.
      apply (inj byte_val). by rewrite E. }
    destruct (z <? 10) eqn:Hlt; bool_prop; [lia|].
    apply IH; [|done| |].
    + cbn. apply andb_true_iff. split; [apply andb_true_iff; by split|].
      by rewrite bool_decide_eq_false_2.
    + rewrite Nat2Z.inj_succ, Z.pow_succ_r in Hz by lia. lia.
    + intros ->. cbn in Hz. lia.
Qed.

Lemma u64_to_string_canonical s z :
  canonical_decimal s = true -> dec_value 0 s = Some z -> z <= u64_max ->
  s = u64_to_string z.
Proof.
  intros Hc Hv Hz. unfold u64_to_string.
  rewrite (dec_rev_canonical 20 s z) by (try done; unfold u64_max in Hz;
    change (10 ^ Z.of_nat 20) with 100000000000000000000; lia).
  by rewrite reverse_involutive.
Qed.

Lemma dec_rev_digits fuel z :
  0 <= z -> Forall (λ c, is_ascii_digit c = true) (dec_rev fuel z).
Proof.
  revert z. induction fuel as [|fuel IH]; intros z Hz; cbn; [done|].
  constructor.
  { apply dec_digit_byte. apply Z.mod_pos_bound. lia. }
  destruct (z <? 10); [done|]. apply IH. apply Z.div_pos; lia.
Qed.

Lemma dec_rev_last fuel z :
  0 < z < 10 ^ Z.of_nat fuel -> fuel <> O ->
  exists c, last (dec_rev fuel z) = Some c /\ c <> zero_byte.
Proof.
  revert z. induction fuel as [|fuel IH]; intros z Hz Hf; [done|]. clear Hf.
  cbn [dec_rev]. destruct (z <? 10) eqn:Hlt; bool_prop.
  - eexists. split; [done|]. rewrite Z.mod_small by lia.
    intros E. apply (f_equal byte_val) in E. unfold zero_byte in E.
    rewrite !byte_val_chr in E; lia.
  - destruct (IH (z / 10)) as (c & Hc & Hne).
    + rewrite Nat2Z.inj_succ, Z.pow_succ_r in Hz by lia.
      split; [apply Z.div_str_pos; lia|]. apply Z.div_lt_upper_bound; lia.
    + intros ->. cbn in Hz. lia.
    + exists c. split; [|done]. by rewrite last_cons, Hc.
Qed.

Lemma canonical_u64_to_string z :
  0 <= z <= u64_max -> canonical_decimal (u64_to_string z) = true.
Proof.
  intros Hz. unfold u64_to_string.
  assert (Hd : Forall (λ c, is_ascii_digit c = true) (reverse (dec_rev 20 z))).
  { apply Forall_reverse, dec_rev_digits. lia. }
  destruct (decide (z = 0)) as [->|Hne]; [done|].
  destruct (dec_rev_last 20 z) as (c & Hc & Hc0); [|done|].
  { unfold u64_max in Hz. change (10 ^ Z.of_nat 20) with 100000000000000000000. lia. }
  apply last_Some in Hc as [l Hl]. rewrite Hl, reverse_snoc in *. cbn [canonical_decimal].
  apply andb_true_iff. split.
  - by apply forallb_Forall_true.
  - by rewrite (bool_decide_eq_false_2 _ Hc0).
Qed.

(** ** Big-endian round trips *)

Lemma be_value_app a c : be_value (a ++ [c]) = be_value a * 256 + byte_val c.
Proof. unfold be_value. by rewrite foldl_app. Qed.

Lemma be_bytes_length n z : length (be_bytes n z) = n.
Proof.
  revert z. induction n as [|n IH]; intros z; cbn [be_bytes]; [done|].
  rewrite length_app, IH. cbn. lia.
Qed.

Lemma be_value_bytes n z : 0 <= z < 256 ^ Z.of_nat n -> be_value (be_bytes n z) = z.
Proof.
  revert z. induction n as [|n IH]; intros z Hz.
  { cbn in *. lia. }
  cbn [be_bytes]. rewrite be_value_app.
  rewrite Nat2Z.inj_succ, Z.pow_succ_r in Hz by lia.
  rewrite IH by (split; [apply Z.div_pos; lia|apply Z.div_lt_upper_bound; lia]).
  pose proof (Z.mod_pos_bound z 256 ltac:(lia)). rewrite byte_val_chr by lia.
  pose proof (Z.div_mod z 256 ltac:(lia)). lia.
Qed.

Lemma be_value_range b : 0 <= be_value b < 256 ^ blen b.
Proof.
  unfold blen. induction b as [|c b IH] using rev_ind; [cbn; lia|].
  rewrite be_value_app, length_app. cbn [length].
  rewrite Nat2Z.inj_add, Z.pow_add_r by lia. cbn [Z.of_nat]. 
  pose proof (byte_val_range c). change (256 ^ Z.of_nat 1) with 256. nia.
Qed.

Lemma be_bytes_value b : be_bytes (length b) (be_value b) = b.
Proof.
  induction b as [|c b IH] using rev_ind; [done|].
  rewrite length_app. cbn [length]. rewrite Nat.add_1_r. cbn [be_bytes].
  rewrite be_value_app. pose proof (byte_val_range c).
  rewrite <- (Z.div_unique_pos (be_value b * 256 + byte_val c) 256 (be_value b) (byte_val c)) by lia.
  rewrite <- (Z.mod_unique_pos (be_value b * 256 + byte_val c) 256 (be_value b) (byte_val c)) by lia.
  by rewrite IH, byte_chr_val.
Qed.

Lemma u64_be_roundtrip z : 0 <= z <= u64_max -> be_value (u64_to_be_bytes z) = z.
Proof.
  intros. apply be_value_bytes. change (256 ^ Z.of_nat 8) with 18446744073709551616.
  unfold u64_max in *. lia.
Qed.

Lemma u64_to_be_bytes_length z : blen (u64_to_be_bytes z) = 8.
Proof. unfold blen, u64_to_be_bytes. by rewrite be_bytes_length. Qed.

Lemma u64_to_string_digits z :
  0 <= z -> Forall (λ c, is_ascii_digit c = true) (u64_to_string z).
Proof. intros. by apply Forall_reverse, dec_rev_digits. Qed.

Lemma u64_to_string_not_nil z : u64_to_string z <> [].
Proof.
  unfold u64_to_string. intros H. apply (f_equal length) in H.
  by rewrite length_reverse in H.
Qed.

Lemma u64_parse_to_string z : 0 <= z <= u64_max -> u64_parse (u64_to_string z) = Some z.
Proof.
  intros Hz. pose proof (u64_to_string_digits z ltac:(lia)) as Hd.
  pose proof (dec_value_u64_to_string z Hz) as Hv. unfold u64_parse.
  destruct (u64_to_string z) as [|c s] eqn:Hs; [by apply u64_to_string_not_nil in Hs|].
  apply Forall_cons in Hd as [Hc _].
  rewrite bool_decide_eq_false_2 by (intros ->; discriminate Hc).
  rewrite Hv. cbn. by apply u64_try_from_Some.
Qed.

Lemma be8_value b : blen b = 8 -> u64_to_be_bytes (be_value b) = b.
Proof.
  intros H. unfold u64_to_be_bytes. pose proof (be_bytes_value b) as Hb.
  unfold blen in H. by replace (length b) with 8%nat in Hb by lia.
Qed.

Lemma be8_range b : blen b = 8 -> u64_range (be_value b).
Proof.
  intros H. pose proof (be_value_range b) as Hb. rewrite H in Hb.
  change (256 ^ 8) with 18446744073709551616 in Hb. unfold u64_range, u64_max. lia.
Qed.
