(* ===== verification/StdPath.v ===== *)
(** [std::path] on Unix, as far as the server uses it: components, equality,
    ordering, [starts_with], [push], [strip_prefix], [parent] and [file_name].  Equality,
    ordering and [starts_with] go through [components], as in the Rust
    standard library, so two byte-wise different paths can be equal. *)

From S2P Require Import Prelude Bytes.
From stdpp Require Import base numbers list strings sorting.
From Stdlib Require Import Ascii.

Local Open Scope Z_scope.

(** ** [std::path] on Unix *)

Inductive component := RootDir | CurDir | ParentDir | Normal (name : bytes).

#[export] Instance component_eq_dec : EqDecision component.
Proof. solve_decision. Defined.

Definition dot : bytes := bs ".".
Definition dotdot : bytes := bs "..".

Definition has_root (p : bytes) : bool :=
  match p with c :: _ => bool_decide (c = slash) | [] => false end.

(** A piece between separators; [.] survives only as the first piece of a
    relative path. *)
Definition piece_component (first : bool) (w : bytes) : option component :=
  if beqb w [] then None
  else if beqb w dot then (if first then Some CurDir else None)
  else if beqb w dotdot then Some ParentDir
  else Some (Normal w).

Definition body_pieces (p : bytes) : list bytes :=
  if has_root p then split_on slash (tail p) else split_on slash p.

Definition pieces_components (rooted : bool) (ws : list bytes) : list component :=
  match ws with
  | [] => []
  | w :: ws' => omap id (piece_component (negb rooted) w ::
                         (piece_component false <$> ws'))
  end.

(** [Path::components]. *)
Definition components (p : bytes) : list component :=
  (if has_root p then [RootDir] else []) ++
  pieces_components (has_root p) (body_pieces p).

Definition component_bytes (c : component) : bytes :=
  match c with
  | RootDir => [slash]
  | CurDir => dot
  | ParentDir => dotdot
  | Normal n => n
  end.

(** [PathBuf::push] and [Path::join]. *)
Definition path_push (p q : bytes) : bytes :=
  if has_root q then q
  else match last p with
       | Some c => if bool_decide (c = slash) then p ++ q else p ++ slash :: q
       | None => q
       end.

(** [Path::eq] and [Path::starts_with] compare components. *)
Definition path_eqb (p q : bytes) : bool :=
  bool_decide (components p = components q).

Fixpoint components_prefix (l k : list component) : bool :=
  match l, k with
  | [], _ => true
  | _ :: _, [] => false
  | x :: l', y :: k' => bool_decide (x = y) && components_prefix l' k'
  end.
(** [p.starts_with(base)]. *)
Definition path_starts_with (p base : bytes) : bool :=
  components_prefix (components base) (components p).

(** [Path::cmp]: [Component]'s derived order, lexicographically. *)
Definition component_rank (c : component) : Z :=
  match c with RootDir => 1 | CurDir => 2 | ParentDir => 3 | Normal _ => 4 end.
Definition component_cmp (a b : component) : comparison :=
  match a, b with
  | Normal x, Normal y => bytes_cmp x y
  | _, _ => Z.compare (component_rank a) (component_rank b)
  end.
Fixpoint components_cmp (l k : list component) : comparison :=
  match l, k with
  | [], [] => Eq
  | [], _ :: _ => Lt
  | _ :: _, [] => Gt
  | x :: l', y :: k' => match component_cmp x y with
                        | Eq => components_cmp l' k'
                        | c => c
                        end
  end.
Definition path_leb (p q : bytes) : bool :=
  match components_cmp (components p) (components q) with Gt => false | _ => true end.

(** [Path::file_name]. *)
Definition path_file_name (p : bytes) : option bytes :=
  match last (components p) with
  | Some (Normal n) => Some n
  | _ => None
  end.

(** The pieces left after dropping trailing pieces that are no component. *)
Fixpoint drop_skipped (rooted : bool) (rev_ws : list bytes) : list bytes :=
  match rev_ws with
  | [] => []
  | w :: ws' =>
      match piece_component (negb rooted && bool_decide (ws' = [])) w with
      | None => drop_skipped rooted ws'
      | Some _ => rev_ws
      end
  end.

(** [Path::parent]: the slice before the last component, without its
    trailing separators. *)
Definition path_parent (p : bytes) : option bytes :=
  let rooted := has_root p in
  match drop_skipped rooted (reverse (body_pieces p)) with
  | [] => None
  | _ :: ws =>
      let kept := reverse (drop_skipped rooted ws) in
      Some ((if rooted then [slash] else []) ++ join_with [slash] kept)
  end.

(** The pieces after the first [n] components. *)
Fixpoint skip_components (first : bool) (n : nat) (ws : list bytes) : list bytes :=
  match ws with
  | [] => []
  | w :: ws' =>
      match piece_component first w, n with
      | None, _ => skip_components false n ws'
      | Some _, O => ws
      | Some _, S n => skip_components false n ws'
      end
  end.

(** [Path::strip_prefix]. *)
Definition path_strip_prefix (p base : bytes) : option bytes :=
  if path_starts_with p base then
    let rooted := has_root p in
    let n := length (components base) in
    let keep_root := rooted && Nat.eqb n 0 in
    let n := if rooted then Nat.pred n else n in
    let kept := reverse (drop_skipped true (reverse (skip_components (negb rooted) n (body_pieces p)))) in
    Some ((if keep_root then [slash] else []) ++ join_with [slash] kept)
  else None.

Fixpoint insert_path (p : bytes) (l : list bytes) : list bytes :=
  match l with
  | [] => [p]
  | q :: l' => if path_leb p q then p :: l else q :: insert_path p l'
  end.
(** [Vec<PathBuf>::sort]: stable, so any stable sort by [Path::cmp] agrees. *)
Definition sort_paths (l : list bytes) : list bytes := foldr insert_path [] l.
(** [Vec<PathBuf>::dedup]: drop an element equal to the one kept before it. *)
Fixpoint dedup_from (p : bytes) (l : list bytes) : list bytes :=
  match l with
  | [] => [p]
  | q :: l' => if path_eqb p q then dedup_from p l' else p :: dedup_from q l'
  end.
Definition dedup_paths (l : list bytes) : list bytes :=
  match l with [] => [] | p :: l' => dedup_from p l' end.

(** ** Facts *)

Lemma components_prefix_spec l k : components_prefix l k = true <-> l `prefix_of` k.
Proof.
  revert k. induction l as [|x l IH]; intros k; cbn.
  { split; [intros _; apply prefix_nil|done]. }
  destruct k as [|y k].
  { split; [done|]. intros H%prefix_nil_inv. done. }
  rewrite andb_true_iff, IH, bool_decide_eq_true. split.
  - intros [-> H]. by apply prefix_cons.
  - intros H. split; [by apply prefix_cons_inv_1 in H|by apply prefix_cons_inv_2 in H].
Qed.

Lemma path_starts_with_spec p base :
  path_starts_with p base = true <-> components base `prefix_of` components p.
Proof. apply components_prefix_spec. Qed.

Lemma path_eqb_spec p q : path_eqb p q = true <-> components p = components q.
Proof. apply bool_decide_eq_true. Qed.

Lemma path_eqb_refl p : path_eqb p p = true.
Proof. by apply path_eqb_spec. Qed.

(** A piece that [push] appends as exactly one component. *)
Definition plain_piece (w : bytes) : Prop := w <> [] /\ w <> dot /\ slash ∉ w.

Definition tail_component (c : component) : Prop :=
  match c with
  | ParentDir => True
  | Normal n => plain_piece n /\ n <> dotdot
  | _ => False
  end.

Lemma piece_component_plain b w :
  plain_piece w ->
  piece_component b w = Some (if beqb w dotdot then ParentDir else Normal w).
Proof.
  intros (Hne & Hd & _). unfold piece_component.
  rewrite (proj2 (beqb_false _ _) Hne), (proj2 (beqb_false _ _) Hd).
  by destruct (beqb w dotdot).
Qed.

Lemma pieces_components_snoc rooted ws w c :
  ws <> [] -> piece_component false w = Some c ->
  pieces_components rooted (ws ++ [w]) = pieces_components rooted ws ++ [c].
Proof.
  intros Hws Hc. destruct ws as [|v ws]; [done|]. cbn.
  rewrite fmap_app. cbn. rewrite Hc.
  destruct (piece_component (negb rooted) v); cbn; rewrite omap_app; done.
Qed.

Lemma pieces_components_skip rooted ws w :
  ws <> [] -> piece_component false w = None ->
  pieces_components rooted (ws ++ [w]) = pieces_components rooted ws.
Proof.
  intros Hws Hc. destruct ws as [|v ws]; [done|]. cbn.
  rewrite fmap_app. cbn. rewrite Hc.
  destruct (piece_component (negb rooted) v); cbn; rewrite omap_app; cbn; by rewrite app_nil_r.
Qed.

Lemma has_root_app p q : p <> [] -> has_root (p ++ q) = has_root p.
Proof. by destruct p. Qed.

Lemma body_pieces_not_nil p : body_pieces p <> [].
Proof. unfold body_pieces. destruct (has_root p); apply split_on_not_nil. Qed.

Lemma body_pieces_app_sep p w :
  p <> [] -> slash ∉ w -> p <> [slash] ->
  body_pieces (p ++ slash :: w) = body_pieces p ++ [w].
Proof.
  intros Hp Hw Hs. unfold body_pieces. rewrite has_root_app by done.
  destruct p as [|x p]; [done|]. cbn [has_root tail app].
  pose proof (split_on_no_sep slash w Hw) as Hsw.
  case_bool_decide; [by rewrite split_on_app_sep, Hsw|].
  change (x :: p ++ slash :: w) with ((x :: p) ++ slash :: w).
  by rewrite split_on_app_sep, Hsw.
Qed.

Lemma no_slash_not_rooted w : slash ∉ w -> has_root w = false.
Proof.
  intros Hw. destruct w as [|c w]; [done|]. cbn.
  apply bool_decide_eq_false. intros ->. apply Hw. left.
Qed.

Lemma components_plain w :
  plain_piece w -> components w = [if beqb w dotdot then ParentDir else Normal w].
Proof.
  intros Hw. pose proof Hw as (_ & _ & Hs). unfold components, body_pieces.
  rewrite (no_slash_not_rooted _ Hs), (split_on_no_sep _ _ Hs). cbn.
  by rewrite (piece_component_plain _ _ Hw).
Qed.

Lemma components_app_sep p w :
  p <> [] -> p <> [slash] -> plain_piece w ->
  components (p ++ slash :: w) =
    components p ++ [if beqb w dotdot then ParentDir else Normal w].
Proof.
  intros Hp Hs Hw. unfold components.
  rewrite has_root_app, body_pieces_app_sep by (done || apply Hw).
  rewrite (pieces_components_snoc _ _ _ _ (body_pieces_not_nil p)
             (piece_component_plain _ _ Hw)).
  by rewrite app_assoc.
Qed.

Lemma components_trailing_sep p :
  p <> [] -> p <> [slash] -> components (p ++ [slash]) = components p.
Proof.
  intros Hp Hs. unfold components.
  rewrite has_root_app, (body_pieces_app_sep p []) by (done || apply not_elem_of_nil).
  by rewrite (pieces_components_skip _ _ _ (body_pieces_not_nil p)).
Qed.

Lemma components_root_piece w :
  plain_piece w ->
  components (slash :: w) = [RootDir; if beqb w dotdot then ParentDir else Normal w].
Proof.
  intros Hw. pose proof Hw as (_ & _ & Hs). unfold components, body_pieces.
  cbn [has_root tail]. rewrite bool_decide_eq_true_2 by done.
  rewrite (split_on_no_sep _ _ Hs). cbn. by rewrite (piece_component_plain _ _ Hw).
Qed.

(** Pushing a plain piece appends exactly one component. *)
Lemma components_push p w :
  plain_piece w ->
  components (path_push p w) =
    components p ++ [if beqb w dotdot then ParentDir else Normal w].
Proof.
  intros Hw. unfold path_push. rewrite (no_slash_not_rooted w) by apply Hw.
  destruct (last p) as [c|] eqn:Hl.
  2:{ apply last_None in Hl as ->. by rewrite components_plain. }
  apply last_Some in Hl as [q ->]. case_bool_decide as Hc.
  - subst c. rewrite <- app_assoc. cbn [app].
    destruct (decide (q = [])) as [->|Hq].
    { change ([] ++ slash :: w) with (slash :: w). by rewrite components_root_piece. }
    destruct (decide (q = [slash])) as [->|Hq2].
    + change ([slash] ++ slash :: w) with ([slash; slash] ++ w).
      unfold components, body_pieces. cbn [app has_root tail].
      rewrite !(bool_decide_eq_true_2 (slash = slash)) by done.
      change (slash :: w) with ([] ++ slash :: w). rewrite split_on_app_sep.
      rewrite (split_on_no_sep slash w) by apply Hw. cbn.
      by rewrite (piece_component_plain _ _ Hw).
    + by rewrite components_app_sep, components_trailing_sep.
  - rewrite components_app_sep; [done|by destruct q| |done].
    intros E. destruct q as [|? []]; cbn in E; naive_solver.
Qed.

Lemma components_push_tail p c :
  tail_component c -> components (path_push p (component_bytes c)) = components p ++ [c].
Proof.
  destruct c as [| | |n]; try done; cbn [component_bytes].
  - intros _. rewrite components_push; [done|]. repeat split; [done..|].
    intros H. by repeat (apply elem_of_cons in H as [H|H]; [done|]); apply elem_of_nil in H.
  - intros [Hp Hd]. rewrite components_push by done.
    by rewrite (proj2 (beqb_false n dotdot) Hd).
Qed.

Lemma components_push_tails p cs :
  Forall tail_component cs ->
  components (foldl path_push p (component_bytes <$> cs)) = components p ++ cs.
Proof.
  intros H. revert p. induction H as [|c cs Hc Hcs IH]; intros p; cbn.
  { by rewrite app_nil_r. }
  rewrite IH, components_push_tail by done. by rewrite <- app_assoc.
Qed.

Lemma piece_component_tail w c :
  slash ∉ w -> piece_component false w = Some c -> tail_component c.
Proof.
  intros Hs. unfold piece_component.
  destruct (beqb w []) eqn:H1; [done|]. destruct (beqb w dot) eqn:H2; [done|].
  apply beqb_false in H1, H2.
  destruct (beqb w dotdot) eqn:H3; intros [=<-]; [done|].
  apply beqb_false in H3. cbn. by repeat split.
Qed.

Lemma tail_components_of_pieces ws :
  Forall (λ w, slash ∉ w) ws ->
  Forall tail_component (omap id (piece_component false <$> ws)).
Proof.
  induction 1 as [|w ws Hw Hws IH]; cbn; [done|].
  destruct (piece_component false w) eqn:Hp; cbn; [|done].
  constructor; [by eapply piece_component_tail|done].
Qed.

Lemma body_pieces_no_slash p : Forall (λ w, slash ∉ w) (body_pieces p).
Proof.
  apply Forall_forall. unfold body_pieces. intros w.
  destruct (has_root p); apply split_on_no_sep_piece.
Qed.

(** The shape of every component list: a root or a leading [.], then plain
    names and [..]. *)
Lemma components_shape p :
  exists hd tl, components p = hd ++ tl /\ Forall tail_component tl /\
    (hd = [] \/ hd = [RootDir] \/ hd = [CurDir]).
Proof.
  unfold components. pose proof (body_pieces_no_slash p) as Hs.
  pose proof (body_pieces_not_nil p). destruct (body_pieces p) as [|w ws]; [done|].
  apply Forall_cons in Hs as [Hw Hws].
  pose proof (tail_components_of_pieces ws Hws) as Ht.
  destruct (has_root p); cbn.
  - destruct (piece_component false w) as [c|] eqn:Hc; cbn.
    + exists [RootDir], (c :: omap id (piece_component false <$> ws)). split; [done|].
      split; [|auto]. constructor; [by eapply piece_component_tail|done].
    + exists [RootDir], (omap id (piece_component false <$> ws)). auto.
  - destruct (piece_component true w) as [c|] eqn:Hc; cbn.
    + unfold piece_component in Hc. destruct (beqb w []) eqn:H1; [done|].
      destruct (beqb w dot) eqn:H2; [injection Hc as <-; eexists [CurDir], _; by auto|].
      assert (piece_component false w = Some c) as Hc'
        by (unfold piece_component; by rewrite H1, H2).
      eexists [], (c :: _). split; [done|]. split; [|auto].
      constructor; [by eapply piece_component_tail|done].
    + eexists [], _. auto.
Qed.

(** Re-pushing the components of a path keeps them. *)
Lemma components_rebuild p :
  components (foldl path_push [] (component_bytes <$> components p)) = components p.
Proof.
  destruct (components_shape p) as (hd & tl & -> & Ht & Hh).
  rewrite fmap_app, foldl_app, components_push_tails by done. f_equal.
  by destruct Hh as [->|[->| ->]].
Qed.

(** ** [parent] and [strip_prefix] *)

(** Pieces that begin a path without a root. *)
Definition leading (ws : list bytes) : Prop := match ws with w :: _ => w <> [] | [] => True end.

Lemma pieces_components_nil rooted : pieces_components rooted [[]] = [].
Proof. done. Qed.

Lemma components_rooted_join ws :
  Forall (λ w, slash ∉ w) ws ->
  components (slash :: join_with [slash] ws) = RootDir :: pieces_components true ws.
Proof.
  intros Hws. unfold components, body_pieces. cbn [has_root tail]. rewrite bool_decide_eq_true_2 by done. cbn [app].
  f_equal. destruct ws as [|w ws]; [done|]. by rewrite split_join.
Qed.

Lemma components_join ws :
  Forall (λ w, slash ∉ w) ws -> leading ws -> components (join_with [slash] ws) = pieces_components false ws.
Proof.
  intros Hws Hl. destruct ws as [|w ws]; [done|]. cbn in Hl.
  assert (has_root (join_with [slash] (w :: ws)) = false) as Hr.
  { destruct w as [|c w]; [done|]. apply Forall_cons in Hws as [Hw _].
    assert (c <> slash) by (intros ->; apply Hw; left). destruct ws; cbn; by apply bool_decide_eq_false. }
  unfold components, body_pieces. rewrite Hr. cbn [app]. by rewrite split_join.
Qed.

Lemma body_pieces_leading p : has_root p = false -> p <> [] -> leading (body_pieces p).
Proof.
  intros Hr Hp. unfold body_pieces. rewrite Hr. destruct p as [|c p]; [done|]. cbn in Hr |- *. rewrite Hr.
  by case_match.
Qed.

Lemma components_not_nil p : p <> [] -> components p <> [].
Proof.
  intros Hp. unfold components. destruct (has_root p) eqn:Hr; [done|]. pose proof (body_pieces_leading p Hr Hp) as Hl.
  pose proof (body_pieces_not_nil p). destruct (body_pieces p) as [|w ws]; [done|]. cbn in Hl |- *. unfold piece_component.
  rewrite (proj2 (beqb_false _ _) Hl). by destruct (beqb w dot), (beqb w dotdot).
Qed.

Lemma drop_skipped_suffix rooted ws : exists d, ws = d ++ drop_skipped rooted ws.
Proof.
  induction ws as [|w ws [d IH]]; [by exists []|]. cbn. destruct (piece_component _ w); [by exists []|].
  exists (w :: d). by rewrite <-app_comm_cons, <-IH.
Qed.

Lemma reverse_empty {A} (l : list A) : reverse l = [] -> l = [].
Proof. intros E. by rewrite <-(reverse_involutive l), E. Qed.

Lemma drop_trailing rooted ws :
  pieces_components rooted (reverse (drop_skipped rooted (reverse ws))) = pieces_components rooted ws.
Proof.
  induction ws as [|w ws IH] using rev_ind; [done|]. rewrite reverse_snoc. cbn [drop_skipped].
  destruct (piece_component _ w) as [c|] eqn:Ew; [by rewrite reverse_cons, reverse_involutive|].
  rewrite IH. destruct (decide (ws = [])) as [->|Hne]; [cbn in *; rewrite andb_true_r in Ew; by rewrite Ew|].
  rewrite pieces_components_skip; [done..|].
  rewrite bool_decide_eq_false_2, andb_false_r in Ew; [done|]. intros E. apply Hne. by apply reverse_empty.
Qed.

Lemma kept_prefix rooted ws : exists d, ws = reverse (drop_skipped rooted (reverse ws)) ++ d.
Proof.
  destruct (drop_skipped_suffix rooted (reverse ws)) as [d E]. exists (reverse d).
  rewrite <-reverse_app, <-E. by rewrite reverse_involutive.
Qed.

Lemma path_parent_components p q : path_parent p = Some q -> exists c, components p = components q ++ [c].
Proof.
  unfold path_parent. set (rooted := has_root p). set (ws := body_pieces p).
  pose proof (drop_trailing rooted ws) as Hp. destruct (kept_prefix rooted ws) as [d1 Hd1].
  destruct (drop_skipped rooted (reverse ws)) as [|w rest] eqn:Ed; [done|]. intros [= <-].
  assert (is_Some (piece_component (negb rooted && bool_decide (rest = [])) w)) as [c Hc].
  { clear -Ed. remember (reverse ws) as l eqn:El. clear El. induction l as [|v l IH]; [done|]. cbn in Ed.
    destruct (piece_component _ v) eqn:Ev; [|by apply IH]. injection Ed as <- <-. rewrite Ev. eauto. }
  exists c. set (kept := reverse (drop_skipped rooted rest)).
  rewrite reverse_cons in Hp, Hd1. pose proof (drop_trailing rooted (reverse rest)) as Hk. rewrite reverse_involutive in Hk.
  fold kept in Hk.
  assert (pieces_components rooted ws = pieces_components rooted kept ++ [c]) as Hws.
  { rewrite <-Hp, Hk. destruct (decide (rest = [])) as [->|Hne].
    - cbn in Hc |- *. rewrite andb_true_r in Hc. by rewrite Hc.
    - rewrite bool_decide_eq_false_2, andb_false_r in Hc by done. apply pieces_components_snoc; [|done].
      intros E. apply Hne. by apply reverse_empty. }
  assert (exists d, ws = kept ++ d) as [d Hd].
  { destruct (kept_prefix rooted (reverse rest)) as [d2 Hd2]. rewrite reverse_involutive in Hd2. fold kept in Hd2.
    rewrite Hd1. exists (d2 ++ [w] ++ d1). rewrite Hd2 at 1. by rewrite <-!app_assoc. }
  pose proof (body_pieces_no_slash p) as Hs. fold ws in Hs. rewrite Hd in Hs. apply Forall_app in Hs as [Hs _].
  unfold components at 1. fold rooted ws. rewrite Hws. destruct rooted eqn:Hr; cbn [app].
  - by rewrite components_rooted_join.
  - rewrite components_join; [done|done|]. destruct kept as [|k kept']; [done|].
    assert (p <> []) by (intros ->; cbn in *; by simplify_eq).
    pose proof (body_pieces_leading p Hr ltac:(done)) as Hl. fold ws in Hl. by rewrite Hd in Hl.
Qed.

Lemma skip_components_spec first n ws :
  (first = true -> n <> O) ->
  pieces_components true (skip_components first n ws) = drop n (pieces_components (negb first) ws) /\
  (forall v vs, skip_components first n ws = v :: vs -> is_Some (piece_component false v)) /\
  exists d, ws = d ++ skip_components first n ws.
Proof.
  revert first n. induction ws as [|w ws IH]; intros first n Hn; cbn [skip_components].
  { split; [by destruct n|]. split; [done|]. by exists []. }
  assert (pieces_components (negb first) (w :: ws) =
    match piece_component first w with Some c => c :: pieces_components true ws | None => pieces_components true ws end) as E.
  { cbn. rewrite negb_involutive. destruct (piece_component first w); cbn; destruct ws; done. }
  rewrite E. destruct (piece_component first w) as [c|] eqn:Ew.
  - destruct n as [|n].
    + destruct first; [by specialize (Hn eq_refl)|]. split; [by rewrite <-E|]. split; [|by exists []].
      intros v vs [= <- _]. by rewrite Ew.
    + destruct (IH false n) as (H1 & H2 & d & Hd); [done|]. split; [exact H1|]. split; [exact H2|].
      exists (w :: d). cbn. by rewrite <-Hd.
  - destruct (IH false n) as (H1 & H2 & d & Hd); [done|]. split; [exact H1|]. split; [exact H2|].
    exists (w :: d). cbn. by rewrite <-Hd.
Qed.

Lemma proper_pieces ws :
  (forall v vs, ws = v :: vs -> is_Some (piece_component false v)) ->
  pieces_components false ws = pieces_components true ws /\ leading ws.
Proof.
  intros Hw. destruct ws as [|v vs]; [done|]. destruct (Hw _ _ eq_refl) as [c Hc]. cbn. rewrite Hc.
  unfold piece_component in *. destruct (beqb v []) eqn:E; [done|]. destruct (beqb v dot); [done|]. rewrite Hc.
  split; [done|]. by apply beqb_false.
Qed.

Lemma kept_head rooted ws v vs : reverse (drop_skipped rooted (reverse ws)) = v :: vs -> exists vs', ws = v :: vs'.
Proof. intros E. destruct (kept_prefix rooted ws) as [d Hd]. rewrite E in Hd. by exists (vs ++ d). Qed.

Lemma drop_trailing_first ws :
  reverse (drop_skipped true (reverse ws)) = [] \/
  pieces_components false (reverse (drop_skipped true (reverse ws))) = pieces_components false ws.
Proof.
  induction ws as [|w ws IH] using rev_ind; [by left|]. rewrite reverse_snoc. cbn [drop_skipped negb andb].
  destruct (piece_component false w) as [c|] eqn:Ew; [right; by rewrite reverse_cons, reverse_involutive|].
  destruct IH as [->|IH]; [by left|]. destruct (decide (ws = [])) as [->|Hne]; [by left|].
  right. by rewrite IH, pieces_components_skip.
Qed.

(** What is left of a path after a prefix, unless nothing is. *)
Lemma path_strip_prefix_components p base rel :
  path_strip_prefix p base = Some rel -> rel <> [] -> components p = components base ++ components rel.
Proof.
  unfold path_strip_prefix. destruct (path_starts_with p base) eqn:Hpre; [|done]. cbv zeta.
  apply path_starts_with_spec in Hpre as [k Hk]. intros [= <-]. intros Hne.
  assert (components base ++ drop (length (components base)) (components p) = components p) as Hsplit
    by by rewrite Hk, drop_app_length.
  rewrite <-Hsplit at 1. f_equal. clear Hsplit.
  pose proof (body_pieces_no_slash p) as Hs. set (ws := body_pieces p) in *. set (n := length (components base)) in *.
  unfold components. fold ws. destruct (has_root p) eqn:Hr; cbn [negb andb app] in Hne |- *.
  - set (m := Nat.pred n) in *.
    destruct (skip_components_spec false m ws) as (H1 & H2 & d & Hd); [done|]. cbn [negb] in H1.
    set (kept := reverse (drop_skipped true (reverse (skip_components false m ws)))) in *.
    assert (pieces_components true kept = drop m (pieces_components true ws)) as Hkept by (unfold kept; by rewrite drop_trailing).
    assert (Forall (λ w, slash ∉ w) kept) as Hks.
    { destruct (kept_prefix true (skip_components false m ws)) as [d' Hd']. fold kept in Hd'.
      rewrite Hd, Hd', !Forall_app in Hs. tauto. }
    destruct n as [|n'] eqn:En; cbn [Nat.eqb app].
    + change ([slash] ++ join_with [slash] kept) with (slash :: join_with [slash] kept).
      unfold components, body_pieces. fold (components (slash :: join_with [slash] kept)).
      pose proof (components_rooted_join kept Hks) as E. unfold components, body_pieces in E. rewrite E, Hkept. done.
    + destruct (proper_pieces kept) as [E1 E2].
      { intros v vs E. destruct (kept_head _ _ _ _ E) as [vs' E']. by eapply H2. }
      pose proof (components_join kept Hks E2) as E. unfold components in E. rewrite E, E1, Hkept. done.
  - destruct (decide (n = O)) as [E0|Hn].
    + rewrite E0 in Hne |- *. rewrite drop_0.
      assert (p <> []) as Hp by (intros ->; done).
      pose proof (body_pieces_leading p Hr Hp) as Hl. fold ws in Hl.
      assert (skip_components true 0 ws = ws) as Hskip.
      { pose proof (body_pieces_not_nil p) as Hnn. fold ws in Hnn. destruct ws as [|w ws']; [done|]. cbn in Hl |- *.
        unfold piece_component. rewrite (proj2 (beqb_false _ _) Hl). by repeat case_match. }
      rewrite Hskip in *. destruct (drop_trailing_first ws) as [E|E]; [rewrite E in Hne; done|].
      set (kept := reverse (drop_skipped true (reverse ws))) in *.
      destruct (kept_prefix true ws) as [d Hd]. fold kept in Hd.
      assert (Forall (λ w, slash ∉ w) kept) as Hks by (rewrite Hd, Forall_app in Hs; tauto).
      assert (leading kept) as Hlk by (destruct kept; [done|]; by rewrite Hd in Hl).
      pose proof (components_join kept Hks Hlk) as Ej. unfold components in Ej. by rewrite Ej, E.
    + destruct (skip_components_spec true n ws) as (H1 & H2 & d & Hd); [done|]. cbn [negb] in H1.
      set (kept := reverse (drop_skipped true (reverse (skip_components true n ws)))) in *.
      assert (pieces_components true kept = drop n (pieces_components false ws)) as Hkept by (unfold kept; by rewrite drop_trailing).
      assert (Forall (λ w, slash ∉ w) kept) as Hks.
      { destruct (kept_prefix true (skip_components true n ws)) as [d' Hd']. fold kept in Hd'.
        rewrite Hd, Hd', !Forall_app in Hs. tauto. }
      destruct (proper_pieces kept) as [E1 E2].
      { intros v vs E. destruct (kept_head _ _ _ _ E) as [vs' E']. by eapply H2. }
      pose proof (components_join kept Hks E2) as E. unfold components in E. by rewrite E, E1, Hkept.
Qed.

Lemma path_parent_none p : path_parent p = None -> components p = [] \/ components p = [RootDir].
Proof.
  unfold path_parent. pose proof (drop_trailing (has_root p) (body_pieces p)) as Hp.
  destruct (drop_skipped _ _); [|done]. intros _. unfold components. rewrite <-Hp. destruct (has_root p); auto.
Qed.

(** The names of a path that has nothing but names. *)
Definition is_name (c : component) : Prop := exists n, c = Normal n.

Lemma names_are_tails p : Forall is_name (components p) -> Forall tail_component (components p).
Proof.
  destruct (components_shape p) as (hd & tl & -> & Ht & Hh). rewrite !Forall_app. intros [Hn _]. split; [|done].
  destruct Hh as [->|[->| ->]]; [done|..]; apply Forall_cons in Hn as [[n [=]] _].
Qed.

Lemma components_push_name p n : tail_component (Normal n) -> components (path_push p n) = components p ++ [Normal n].
Proof. apply (components_push_tail p (Normal n)). Qed.

Lemma file_name_last p n : path_file_name p = Some n -> last (components p) = Some (Normal n).
Proof. unfold path_file_name. destruct (last (components p)) as [[]|]; by intros [= ->]. Qed.

(** A named path is its parent and its name. *)
Lemma parent_and_name p n :
  path_file_name p = Some n -> Forall is_name (components p) ->
  components p = components (default [] (path_parent p)) ++ [Normal n].
Proof.
  intros Hn%file_name_last Hp. destruct (path_parent p) as [q|] eqn:Eq; cbn [default].
  - destruct (path_parent_components p q Eq) as [c Hc]. rewrite Hc, last_snoc in Hn. injection Hn as ->. done.
  - destruct (path_parent_none p Eq) as [E|E]; rewrite E in Hn; [done|]. by injection Hn as ?.
Qed.

Lemma pieces_components_app rooted ws ws' :
  ws <> [] -> pieces_components rooted (ws ++ ws') = pieces_components rooted ws ++ pieces_components true ws'.
Proof.
  intros Hne. induction ws' as [|w ws' IH] using rev_ind; [by rewrite !app_nil_r|]. rewrite app_assoc.
  destruct (piece_component false w) as [c|] eqn:Ew.
  - rewrite (pieces_components_snoc _ _ _ c), IH, <-app_assoc by (done || by destruct ws). f_equal.
    destruct ws'; [cbn; by rewrite Ew|]. by rewrite (pieces_components_snoc _ _ _ c).
  - rewrite pieces_components_skip, IH by (done || by destruct ws). f_equal.
    destruct ws'; [cbn; by rewrite Ew|]. by rewrite pieces_components_skip.
Qed.

(** Pushing a path of names appends its names. *)
Lemma components_push_names_path p q :
  q <> [] -> Forall is_name (components q) -> components (path_push p q) = components p ++ components q.
Proof.
  intros Hq Hn. assert (has_root q = false) as Hr.
  { destruct (has_root q) eqn:E; [|done]. unfold components in Hn. rewrite E in Hn. by apply Forall_cons in Hn as [[? [=]] _]. }
  pose proof (body_pieces_leading q Hr Hq) as Hl. pose proof (body_pieces_not_nil q) as Hnn.
  assert (components q = pieces_components true (body_pieces q)) as Eq.
  { unfold components in Hn |- *. rewrite Hr in *. cbn [app] in *. destruct (body_pieces q) as [|w ws]; [done|]. cbn in *.
    unfold piece_component in *. rewrite (proj2 (beqb_false _ _) Hl) in *. destruct (beqb w dot); [|done].
    by apply Forall_cons in Hn as [[? [=]] _]. }
  assert (forall p', p' <> [] -> p' <> [slash] -> components (p' ++ slash :: q) = components p' ++ components q) as Hjoin.
  { intros p' Hp Hs. rewrite Eq. unfold components. rewrite has_root_app by done. rewrite <-app_assoc. f_equal.
    rewrite <-pieces_components_app by apply body_pieces_not_nil. f_equal. unfold body_pieces. rewrite has_root_app, Hr by done.
    destruct p' as [|x p']; [done|]. cbn [has_root tail app].
    case_bool_decide; [by rewrite split_on_app_sep|].
    change (x :: p' ++ slash :: q) with ((x :: p') ++ slash :: q). by rewrite split_on_app_sep. }
  assert (components (slash :: q) = RootDir :: components q) as Hroot.
  { rewrite Eq. unfold components, body_pieces. cbn [has_root tail]. rewrite bool_decide_eq_true_2, Hr by done. done. }
  unfold path_push. rewrite Hr. destruct (last p) as [c|] eqn:El; [|apply last_None in El as ->; reflexivity].
  case_bool_decide as Hc; subst.
  - apply last_Some in El as [p' ->]. rewrite <-app_assoc. cbn [app].
    destruct (decide (p' = [])) as [->|Hp]; [exact Hroot|]. destruct (decide (p' = [slash])) as [->|Hs].
    + change ([slash] ++ slash :: q) with (slash :: slash :: q). rewrite Eq. unfold components, body_pieces. cbn [has_root tail app].
      rewrite !bool_decide_eq_true_2, Hr by done. cbn [split_on]. rewrite !bool_decide_eq_true_2 by done.
      by destruct (split_on slash q).
    + rewrite Hjoin, components_trailing_sep by done. done.
  - apply Hjoin; [by intros ->|]. intros ->. by injection El as <-.
Qed.
