(* ===== verification/Utils.v ===== *)
(** [src/src/utils.rs]: hexadecimal codec, URI component codec and the HTTP
    [Range] parser.  Percent encoding itself is the [percent-encoding] crate
    and enters as the class [PercentEncoding]. *)

From S2P Require Import Prelude Bytes StdPath.
From stdpp Require Import base numbers list strings.
From Stdlib Require Import Ascii.

Local Open Scope Z_scope.

(** ** Hexadecimal codec *)

Definition DIGITS : bytes := bs "0123456789abcdef".

Definition hex_digit (n : Z) : ascii := nth (Z.to_nat n) DIGITS nul_byte.

Fixpoint encode_hex (b : bytes) : bytes :=
  match b with
  | [] => []
  | c :: b' => hex_digit (Z.shiftr (byte_val c) 4) ::
               hex_digit (Z.land (byte_val c) 15) :: encode_hex b'
  end.

Definition hex_nibble (c : ascii) : option Z :=
  let v := byte_val c in
  if in_range 48 57 v then Some (v - 48)
  else if in_range 97 102 v then Some (v - 97 + 10)
  else if in_range 65 70 v then Some (v - 65 + 10)
  else None.

(** The loop over byte pairs zipped with the output slots; the slots written
    before a malformed pair keep their new value. *)
Fixpoint decode_pairs (input output : bytes) : bool * bytes :=
  match input, output with
  | x :: y :: input', _ :: output' =>
      match hex_nibble x with
      | None => (false, output)
      | Some high =>
          match hex_nibble y with
          | None => (false, output)
          | Some low =>
              let '(ok, rest) := decode_pairs input' output' in
              (ok, byte_chr (Z.lor (Z.shiftl high 4) low) :: rest)
          end
      end
  | _, _ => (true, output)
  end.

Definition decode_hex_to_slice (input output : bytes) : bool * bytes :=
  if negb (blen input =? Z.min u64_max (blen output * 2)) then (false, output)
  else decode_pairs input output.

(** ** URI components *)

(** What the server calls of the [percent-encoding] crate:
    [utf8_percent_encode] with everything but the RFC 3986 unreserved
    characters escaped, and [percent_decode]. *)
Class PercentEncoding := {
  utf8_percent_encode : bytes -> bytes;
  percent_decode : bytes -> bytes
}.

(** The documented behaviour the code relies on. *)
Class PercentEncodingLaws `{PercentEncoding} : Prop := {
  percent_decode_nil : percent_decode [] = [];
  percent_decode_slash s : percent_decode (slash :: s) = slash :: percent_decode s;
  percent_decode_encode s t :
    percent_decode (utf8_percent_encode s ++ t) = s ++ percent_decode t
}.

(** [str::from_utf8]: the well-formed byte sequences of the Unicode standard. *)
Definition utf8_cont (c : ascii) : bool := in_range 128 191 (byte_val c).
Fixpoint utf8_valid (fuel : nat) (s : bytes) : bool :=
  match fuel, s with
  | _, [] => true
  | O, _ => false
  | S fuel', c :: s1 =>
      let v := byte_val c in
      if v <? 128 then utf8_valid fuel' s1
      else if in_range 194 223 v then
        match s1 with
        | c1 :: s2 => utf8_cont c1 && utf8_valid fuel' s2
        | _ => false
        end
      else if in_range 224 239 v then
        match s1 with
        | c1 :: c2 :: s3 =>
            in_range (if v =? 224 then 160 else 128) (if v =? 237 then 159 else 191)
              (byte_val c1) && utf8_cont c2 && utf8_valid fuel' s3
        | _ => false
        end
      else if in_range 240 244 v then
        match s1 with
        | c1 :: c2 :: c3 :: s4 =>
            in_range (if v =? 240 then 144 else 128) (if v =? 244 then 143 else 191)
              (byte_val c1) && utf8_cont c2 && utf8_cont c3 && utf8_valid fuel' s4
        | _ => false
        end
      else false
  end.
Definition is_utf8 (s : bytes) : bool := utf8_valid (length s) s.

Section uri.
Context `{PercentEncoding}.

Definition encode_uri (v : bytes) : bytes :=
  join_with [slash] (utf8_percent_encode <$> split_on slash v).

Definition decode_uri (v : bytes) : option bytes :=
  let d := percent_decode v in if is_utf8 d then Some d else None.
End uri.

(** [Path::file_name] as a string, empty when there is none. *)
Definition get_file_name (path : bytes) : bytes :=
  match path_file_name path with
  | Some n => if is_utf8 n then n else []
  | None => []
  end.

Definition try_get_file_name (path : bytes) : result string bytes :=
  match path_file_name path with
  | Some n => if is_utf8 n then Ok n else Err "Failed to get file name"
  | None => Err "Failed to get file name"
  end.

(** ** HTTP [Range] *)

Inductive ParsedRange :=
| Ignore
| Satisfiable (start end_ : Z)
| Unsatisfiable.

Definition equals_byte : ascii := byte_chr 61.
Definition comma_byte : ascii := byte_chr 44.
Definition minus_byte : ascii := byte_chr 45.

Definition parse_range (range : bytes) (size : Z) : ParsedRange :=
  match split_once equals_byte range with
  | None => Unsatisfiable
  | Some (unit_, range) =>
    if negb (eq_ignore_ascii_case unit_ (bs "bytes")) then Ignore
    else if contains_byte comma_byte range then Unsatisfiable
    else match split_once minus_byte (trim range) with
    | None => Unsatisfiable
    | Some (start, end_) =>
      if beqb start [] then
        match u64_parse end_ with
        | None => Unsatisfiable
        | Some length =>
          if (length =? 0) || (size =? 0) then Unsatisfiable
          else let length := Z.min length size in
               Satisfiable (size - length) (size - 1)
        end
      else match u64_parse start with
      | None => Unsatisfiable
      | Some start =>
        if size <=? start then Unsatisfiable
        else if beqb end_ [] then Satisfiable start (size - 1)
        else match u64_parse end_ with
        | None => Unsatisfiable
        | Some end_ =>
          if end_ <? start then Unsatisfiable
          else Satisfiable start (Z.min end_ (size - 1))
        end
      end
    end
  end.

(** ** Facts about the hexadecimal codec *)

Lemma byte_nibbles c :
  0 <= Z.shiftr (byte_val c) 4 < 16 /\ 0 <= Z.land (byte_val c) 15 < 16 /\
  Z.lor (Z.shiftl (Z.shiftr (byte_val c) 4) 4) (Z.land (byte_val c) 15) = byte_val c.
Proof.
  pose proof (byte_val_range c). rewrite Z.shiftr_div_pow2 by lia.
  change 15 with (Z.ones 4). rewrite Z.land_ones by lia.
  change (2 ^ 4) with 16.
  pose proof (Z.mod_pos_bound (byte_val c) 16 ltac:(lia)).
  pose proof (Z.div_mod (byte_val c) 16 ltac:(lia)).
  split; [lia|]. split; [lia|].
  destruct c as [[] [] [] [] [] [] [] []]; vm_compute; reflexivity.
Qed.

Lemma nibble_cases (P : Z -> Prop) :
  Forall P (seqZ 0 16) -> forall n, 0 <= n < 16 -> P n.
Proof. intros H n Hn. rewrite Forall_forall in H. apply H, elem_of_seqZ. lia. Qed.

Lemma hex_nibble_digit n : 0 <= n < 16 -> hex_nibble (hex_digit n) = Some n.
Proof. revert n. apply nibble_cases. by repeat constructor. Qed.

Lemma hex_digit_lower n : 0 <= n < 16 -> is_lower_hex (hex_digit n) = true.
Proof. revert n. apply nibble_cases. by repeat constructor. Qed.

Lemma hex_digit_nibble c n :
  is_lower_hex c = true -> hex_nibble c = Some n -> hex_digit n = c /\ 0 <= n < 16.
Proof.
  intros Hc Hn. destruct c as [[] [] [] [] [] [] [] []]; vm_compute in Hc;
    try discriminate Hc; vm_compute in Hn; injection Hn as <-;
    (split; [vm_compute; reflexivity|lia]).
Qed.

Lemma hex_nibble_lower c : is_lower_hex c = true -> exists n, hex_nibble c = Some n.
Proof.
  unfold is_lower_hex, is_ascii_digit, is_lower_af, hex_nibble.
  destruct (in_range 48 57 (byte_val c)); [eauto|]. cbn.
  destruct (in_range 97 102 (byte_val c)); [eauto|done].
Qed.

Lemma nibbles_byte h l :
  0 <= h < 16 -> 0 <= l < 16 ->
  0 <= Z.lor (Z.shiftl h 4) l < 256 /\
  Z.shiftr (Z.lor (Z.shiftl h 4) l) 4 = h /\ Z.land (Z.lor (Z.shiftl h 4) l) 15 = l.
Proof.
  intros Hh Hl. revert h Hh.
  apply (nibble_cases (λ h, 0 <= Z.lor (Z.shiftl h 4) l < 256 /\
    Z.shiftr (Z.lor (Z.shiftl h 4) l) 4 = h /\ Z.land (Z.lor (Z.shiftl h 4) l) 15 = l)).
  revert l Hl. apply nibble_cases.
  repeat constructor; vm_compute; first [reflexivity|discriminate].
Qed.

Lemma encode_hex_length b : length (encode_hex b) = (2 * length b)%nat.
Proof. induction b; cbn [encode_hex length]; lia. Qed.

Lemma encode_hex_lower b : Forall (λ c, is_lower_hex c = true) (encode_hex b).
Proof.
  induction b as [|c b IH]; cbn [encode_hex]; [done|].
  destruct (byte_nibbles c) as (Hh & Hl & _).
  constructor; [by apply hex_digit_lower|]. constructor; [by apply hex_digit_lower|done].
Qed.

Lemma decode_pairs_encode b out :
  length out = length b -> decode_pairs (encode_hex b) out = (true, b).
Proof.
  revert out. induction b as [|c b IH]; intros [|o out]; cbn [length]; try lia; [done|].
  intros Hlen. cbn [encode_hex decode_pairs].
  destruct (byte_nibbles c) as (Hh & Hl & Hc).
  rewrite !hex_nibble_digit by done. rewrite IH by lia.
  by rewrite Hc, byte_chr_val.
Qed.

Lemma decode_hex_encode b out :
  length out = length b -> blen b < 2 ^ 62 ->
  decode_hex_to_slice (encode_hex b) out = (true, b).
Proof.
  intros Hlen Hb. unfold decode_hex_to_slice, blen in *.
  rewrite encode_hex_length, Hlen. unfold u64_max.
  rewrite Z.min_r by lia.
  replace (_ =? _) with true by (symmetry; apply Z.eqb_eq; lia).
  by apply decode_pairs_encode.
Qed.

(** Encoding the bytes decoded from lowercase digits gives the digits back. *)
Lemma encode_decode_pairs input out res :
  length input = (2 * length out)%nat ->
  Forall (λ c, is_lower_hex c = true) input ->
  decode_pairs input out = (true, res) -> encode_hex res = input.
Proof.
  revert input res. induction out as [|o out IH]; intros input res Hlen Hlow.
  { destruct input; [|cbn in Hlen; lia]. by intros [=<-]. }
  destruct input as [|x [|y input]]; cbn in Hlen; try lia.
  apply Forall_cons in Hlow as [Hx Hlow]. apply Forall_cons in Hlow as [Hy Hlow].
  cbn [decode_pairs].
  destruct (hex_nibble x) as [h|] eqn:Hh; [|done].
  destruct (hex_nibble y) as [l|] eqn:Hl; [|done].
  destruct (decode_pairs input out) as [ok rest] eqn:Hd.
  intros [= -> <-]. destruct (hex_digit_nibble x h Hx Hh) as [Ex Hhr].
  destruct (hex_digit_nibble y l Hy Hl) as [Ey Hlr]. cbn [encode_hex].
  rewrite (IH input rest) by (done || lia).
  destruct (nibbles_byte h l Hhr Hlr) as (Hb & Eh & El).
  rewrite byte_val_chr by lia. by rewrite Eh, El, Ex, Ey.
Qed.

Lemma decode_pairs_lower input out :
  length input = (2 * length out)%nat ->
  Forall (λ c, is_lower_hex c = true) input ->
  exists res, decode_pairs input out = (true, res) /\ length res = length out.
Proof.
  revert input. induction out as [|o out IH]; intros input Hlen Hlow.
  { destruct input; [|cbn in Hlen; lia]. by exists []. }
  destruct input as [|x [|y input]]; cbn in Hlen; try lia.
  apply Forall_cons in Hlow as [Hx Hlow]. apply Forall_cons in Hlow as [Hy Hlow].
  destruct (hex_nibble_lower x Hx) as [h Hh], (hex_nibble_lower y Hy) as [l Hl].
  destruct (IH input) as (res & Hres & Hlr); [lia|done|].
  cbn [decode_pairs]. rewrite Hh, Hl, Hres. eexists. split; [done|]. cbn. lia.
Qed.

(** ** Facts about URIs *)

Section uri_facts.
Context `{PercentEncodingLaws}.

Lemma percent_decode_join ws :
  percent_decode (join_with [slash] (utf8_percent_encode <$> ws)) = join_with [slash] ws.
Proof.
  induction ws as [|w ws IH]; [apply percent_decode_nil|].
  destruct ws as [|v ws].
  - cbn. rewrite <- (app_nil_r (utf8_percent_encode w)), percent_decode_encode.
    by rewrite percent_decode_nil, app_nil_r.
  - assert (join_with [slash] (utf8_percent_encode <$> w :: v :: ws) =
      utf8_percent_encode w ++ slash :: join_with [slash] (utf8_percent_encode <$> v :: ws))
      as -> by done.
    rewrite percent_decode_encode, percent_decode_slash, IH. done.
Qed.

Lemma percent_decode_encode_uri v : percent_decode (encode_uri v) = v.
Proof. unfold encode_uri. by rewrite percent_decode_join, join_split. Qed.
End uri_facts.

(** URI component encoding round trips: decoding [encode_uri v] gives back
    exactly [v] for every valid UTF-8 string. *)
Lemma uri_encoding_roundtrip `{PercentEncodingLaws} v :
  decode_uri (encode_uri v) = if is_utf8 v then Some v else None.
Proof. unfold decode_uri. by rewrite percent_decode_encode_uri. Qed.

(** A concrete percent codec that satisfies the laws. *)
Module PctModel.
Definition percent : ascii := byte_chr 37.
Definition upper_digit (n : Z) : ascii := nth (Z.to_nat n) (bs "0123456789ABCDEF") nul_byte.
Definition unreserved (c : ascii) : bool :=
  let v := byte_val c in
  in_range 48 57 v || in_range 65 90 v || in_range 97 122 v ||
  (v =? 45) || (v =? 46) || (v =? 95) || (v =? 126).
Definition enc_byte (c : ascii) : bytes :=
  if unreserved c then [c]
  else [percent; upper_digit (Z.shiftr (byte_val c) 4); upper_digit (Z.land (byte_val c) 15)].
Fixpoint enc (s : bytes) : bytes :=
  match s with [] => [] | c :: s' => enc_byte c ++ enc s' end.
Fixpoint dec (s : bytes) : bytes :=
  match s with
  | [] => []
  | c :: s1 =>
      if bool_decide (c = percent) then
        match s1 with
        | x :: y :: s3 =>
            match hex_nibble x, hex_nibble y with
            | Some h, Some l => byte_chr (Z.lor (Z.shiftl h 4) l) :: dec s3
            | _, _ => c :: dec s1
            end
        | _ => c :: dec s1
        end
      else c :: dec s1
  end.

Lemma upper_nibble n : 0 <= n < 16 -> hex_nibble (upper_digit n) = Some n.
Proof. revert n. apply nibble_cases. by repeat constructor. Qed.

Lemma dec_enc_byte c t : dec (enc_byte c ++ t) = c :: dec t.
Proof.
  unfold enc_byte. destruct (unreserved c) eqn:Hu.
  - cbn [dec app]. rewrite bool_decide_eq_false_2; [done|]. intros ->. discriminate Hu.
  - destruct (byte_nibbles c) as (Hh & Hl & Hc).
    assert (Hd : forall x y s, dec (percent :: x :: y :: s) =
      match hex_nibble x, hex_nibble y with
      | Some h, Some l => byte_chr (Z.lor (Z.shiftl h 4) l) :: dec s
      | _, _ => percent :: dec (x :: y :: s) end) by reflexivity.
    change ([percent; ?x; ?y] ++ t) with (percent :: x :: y :: t) || cbn [app].
    rewrite Hd, !upper_nibble by done. by rewrite Hc, byte_chr_val.
Qed.

#[export] Instance pct : PercentEncoding :=
  {| utf8_percent_encode := enc; percent_decode := dec |}.

#[export] Instance pct_laws : PercentEncodingLaws.
Proof.
  split; [done|done|]. cbn. intros s t. induction s as [|c s IH]; [done|].
  cbn [enc]. by rewrite <- app_assoc, dec_enc_byte, IH.
Qed.
End PctModel.

(** ** Facts about ranges *)

(** The [Range] parser never returns an interval outside the resource: a
    satisfiable result is a non-empty, in-bounds, ordered interval. *)
Theorem parse_range_in_bounds range size start end_ :
  0 <= size -> parse_range range size = Satisfiable start end_ ->
  0 <= start /\ start <= end_ /\ end_ < size.
Proof.
  intros Hsize. unfold parse_range.
  destruct (split_once _ range) as [[u r]|]; [|done].
  destruct (negb _); [done|]. destruct (contains_byte _ _); [done|].
  destruct (split_once _ (trim r)) as [[s e]|]; [|done].
  assert (Hpos : forall x z, u64_parse x = Some z -> 0 <= z).
  { intros x z Hx. unfold u64_parse in Hx. destruct x as [|c x]; [done|].
    destruct (if bool_decide _ then _ else _) as [|d ds]; [done|].
    apply bind_Some in Hx as (? & _ & Hx). apply u64_try_from_Some in Hx. lia. }
  destruct (beqb s []).
  - destruct (u64_parse e) as [n|] eqn:Hn; [|done]. apply Hpos in Hn.
    destruct (_ || _) eqn:H0; [done|]. bool_prop. intros [=<- <-]. lia.
  - destruct (u64_parse s) as [n|] eqn:Hn; [|done]. apply Hpos in Hn.
    destruct (size <=? n) eqn:?; [done|]. bool_prop.
    destruct (beqb e []); [intros [=<- <-]; lia|].
    destruct (u64_parse e) as [m|]; [|done].
    destruct (m <? n) eqn:?; [done|]. bool_prop. intros [=<- <-]. lia.
Qed.

Lemma parse_range_in_bounds_witness :
  0 <= 500 /\ 0 <= 200 /\ 200 <= 499 /\ 499 < 500.
Proof.
  split; [lia|].
  apply (parse_range_in_bounds (bs "bytes=-300") 500 200 499); [lia|vm_compute; reflexivity].
Defined.

(** The strings between which a [Range] value is written: digits and [-]. *)
Definition range_byte (c : ascii) : bool := is_ascii_digit c || bool_decide (c = minus_byte).

Lemma strip_any_None ps c s :
  forallb (λ p, match p with x :: _ => negb (range_byte x) | [] => false end) ps = true ->
  range_byte c = true -> strip_any ps (c :: s) = None.
Proof.
  intros Hps Hc. induction ps as [|p ps IH]; [done|]. cbn in Hps. bool_prop.
  cbn [strip_any]. destruct p as [|x p]; [done|]. bool_prop. cbn [str_strip_prefix].
  rewrite bool_decide_eq_false_2 by congruence. by apply IH.
Qed.

Lemma trim_start_any_id fuel ps c s :
  forallb (λ p, match p with x :: _ => negb (range_byte x) | [] => false end) ps = true ->
  range_byte c = true -> trim_start_any fuel ps (c :: s) = c :: s.
Proof. intros. destruct fuel; cbn [trim_start_any]; [done|]. by rewrite strip_any_None. Qed.

Lemma trim_range_bytes s :
  Forall (λ c, range_byte c = true) s -> trim s = s.
Proof.
  intros Hs. unfold trim.
  destruct s as [|c s]; [done|]. pose proof Hs as Hs2.
  apply Forall_cons in Hs2 as [Hc _].
  rewrite trim_start_any_id by (vm_compute; reflexivity) || done.
  apply Forall_reverse in Hs.
  destruct (reverse (c :: s)) as [|d r] eqn:Hr.
  { apply (f_equal length) in Hr. rewrite length_reverse in Hr. done. }
  apply Forall_cons in Hs as [Hd _].
  rewrite trim_start_any_id by (vm_compute; reflexivity) || done.
  rewrite <- Hr. apply reverse_involutive.
Qed.

Lemma digits_range_bytes s :
  Forall (λ c, is_ascii_digit c = true) s -> Forall (λ c, range_byte c = true) s.
Proof.
  intros Hs. apply (Forall_impl _ _ _ Hs). intros c Hc. unfold range_byte. by rewrite Hc.
Qed.

Lemma digits_not_elem (x : ascii) s :
  is_ascii_digit x = false -> Forall (λ c, is_ascii_digit c = true) s -> x ∉ s.
Proof.
  intros Hx Hs Hin. rewrite Forall_forall in Hs. apply Hs in Hin. congruence.
Qed.

Lemma range_bytes_no_comma s :
  Forall (λ c, range_byte c = true) s -> contains_byte comma_byte s = false.
Proof.
  intros Hs. apply bool_decide_eq_false. intros Hin. rewrite Forall_forall in Hs.
  apply Hs in Hin. discriminate Hin.
Qed.

(** After the unit, a [Range] of two digit strings reaches the arithmetic
    part of the parser unchanged. *)
Lemma parse_range_split s e size :
  Forall (λ c, is_ascii_digit c = true) s -> Forall (λ c, is_ascii_digit c = true) e ->
  parse_range (bs "bytes=" ++ s ++ minus_byte :: e) size =
    if beqb s [] then
      match u64_parse e with
      | None => Unsatisfiable
      | Some n => if (n =? 0) || (size =? 0) then Unsatisfiable
                  else Satisfiable (size - Z.min n size) (size - 1)
      end
    else match u64_parse s with
    | None => Unsatisfiable
    | Some a => if size <=? a then Unsatisfiable
                else if beqb e [] then Satisfiable a (size - 1)
                else match u64_parse e with
                | None => Unsatisfiable
                | Some b => if b <? a then Unsatisfiable
                            else Satisfiable a (Z.min b (size - 1))
                end
    end.
Proof.
  intros Hs He. unfold parse_range.
  assert (Hr : Forall (λ c, range_byte c = true) (s ++ minus_byte :: e)).
  { apply Forall_app. split; [by apply digits_range_bytes|].
    constructor; [done|by apply digits_range_bytes]. }
  assert (split_once equals_byte (bs "bytes=" ++ s ++ minus_byte :: e) =
    Some (bs "bytes", s ++ minus_byte :: e)) as ->.
  { apply split_once_Some. split; [done|].
    apply (bool_decide_unpack _). vm_compute. exact I. }
  rewrite (range_bytes_no_comma _ Hr), (trim_range_bytes _ Hr).
  assert (split_once minus_byte (s ++ minus_byte :: e) = Some (s, e)) as ->.
  { apply split_once_Some. split; [done|]. by apply digits_not_elem. }
  reflexivity.
Qed.

(** The three single-range forms of RFC 9110 mean what they say.  For
    every resource size and every pair of 64-bit positions, [a-b] selects the
    bytes from [a] to the smaller of [b] and the last byte, [a-] the bytes
    from [a] on, [-n] the last [n] bytes; a range that selects nothing is
    unsatisfiable. *)
Theorem parse_range_forms size a b :
  0 <= size -> 0 <= a <= u64_max -> 0 <= b <= u64_max ->
  parse_range (bs "bytes=" ++ u64_to_string a ++ minus_byte :: u64_to_string b) size =
    (if (size <=? a) || (b <? a) then Unsatisfiable
     else Satisfiable a (Z.min b (size - 1))) /\
  parse_range (bs "bytes=" ++ u64_to_string a ++ minus_byte :: []) size =
    (if size <=? a then Unsatisfiable else Satisfiable a (size - 1)) /\
  parse_range (bs "bytes=" ++ [] ++ minus_byte :: u64_to_string b) size =
    (if (b =? 0) || (size =? 0) then Unsatisfiable
     else Satisfiable (size - Z.min b size) (size - 1)).
Proof.
  intros Hsize Ha Hb.
  assert (beqb (u64_to_string a) [] = false) as Ea
    by apply beqb_false, u64_to_string_not_nil.
  assert (beqb (u64_to_string b) [] = false) as Eb
    by apply beqb_false, u64_to_string_not_nil.
  pose proof (u64_to_string_digits a ltac:(lia)). pose proof (u64_to_string_digits b ltac:(lia)).
  split; [|split].
  - rewrite parse_range_split, Ea, Eb, !u64_parse_to_string by done.
    destruct (size <=? a); [done|]. by destruct (b <? a).
  - rewrite parse_range_split, Ea, u64_parse_to_string by done. done.
  - rewrite parse_range_split, u64_parse_to_string by done. done.
Qed.

Lemma parse_range_forms_witness :
  parse_range (bs "bytes=0-499") 500 = Satisfiable 0 499 /\
  parse_range (bs "bytes=0-") 500 = Satisfiable 0 499 /\
  parse_range (bs "bytes=-499") 500 = Satisfiable 1 499.
Proof.
  exact (parse_range_forms 500 0 499 ltac:(lia) ltac:(unfold u64_max; lia)
           ltac:(unfold u64_max; lia)).
Defined.
