(* ===== verification/StoreModel.v ===== *)
(** [src/src/server/state_store/model.rs] and the constants, limits and clock
    of [src/src/server/state_store.rs]: the data the durable state store keeps
    and the validation each value passes before it is stored. *)

From S2P Require Import Prelude Bytes StdPath.
From stdpp Require Import base numbers list gmap strings sorting.
From Stdlib Require Import Ascii.

Local Open Scope Z_scope.

(** [try_into().map_err(...)]. *)
Definition fixed_bytes (n : Z) (b : bytes) (e : string) : result string bytes :=
  ok_or (array_try_from n b) e.

(** ** Constants *)

Definition UPLOAD_SESSION_CAPACITY : Z := 16384.
Definition UPLOAD_SESSION_PER_OWNER_CAPACITY : Z := 4096.
Definition PURGE_JOB_CAPACITY : Z := 4096.
Definition PURGE_JOB_PER_OWNER_CAPACITY : Z := 1024.

Definition OPERATION_RESERVED : Z := 0.
Definition OPERATION_COMMIT_STARTED : Z := 1.
Definition OPERATION_COMPLETED : Z := 2.

Definition UPLOAD_RUNNING : Z := 0.
Definition UPLOAD_COMMIT_STARTED : Z := 1.
Definition UPLOAD_COMMITTED : Z := 2.
Definition UPLOAD_REJECTED : Z := 3.
Definition UPLOAD_UNKNOWN : Z := 4.
Definition UPLOAD_AWAITING_CONFIRMATION : Z := 5.

Definition PURGE_PREPARED : Z := 0.
Definition PURGE_READY : Z := 1.
Definition PURGE_CLAIMED : Z := 2.

Definition UNKNOWN_STATUS : Z := 500.
Definition UNKNOWN_CODE : bytes := bs "outcome_uncertain".
Definition MAX_ERROR_CODE_CHARS : Z := 128.

(** ** Keys

    [OperationKey], [UploadSessionKey] and [PurgeJobKey] have the same fields:
    a 32-byte owner digest and a 16-byte identifier. *)

Record StoreKey := mkStoreKey { key_owner : bytes; key_id : bytes }.

#[export] Instance StoreKey_eq_dec : EqDecision StoreKey.
Proof. solve_decision. Defined.
#[export] Instance StoreKey_countable : Countable StoreKey.
Proof.
  refine (inj_countable' (λ k, (key_owner k, key_id k)) (λ p, mkStoreKey p.1 p.2) _).
  by intros [].
Defined.

Abbreviation OperationKey := StoreKey (only parsing).
Abbreviation UploadSessionKey := StoreKey (only parsing).
Abbreviation PurgeJobKey := StoreKey (only parsing).

(** [[u8; 32]] and [[u8; 16]]. *)
Definition key_wf (k : StoreKey) : Prop := blen (key_owner k) = 32 /\ blen (key_id k) = 16.

(** ** Terminal outcomes *)

Inductive StoredTerminalState := TSucceeded | TFailed | TUnknown.

#[export] Instance StoredTerminalState_eq_dec : EqDecision StoredTerminalState.
Proof. solve_decision. Defined.

(** [state as i64]. *)
Definition terminal_as_i64 (s : StoredTerminalState) : Z :=
  match s with TSucceeded => 0 | TFailed => 1 | TUnknown => 2 end.

Definition terminal_from_database (value : Z) : result string StoredTerminalState :=
  if value =? 0 then Ok TSucceeded
  else if value =? 1 then Ok TFailed
  else if value =? 2 then Ok TUnknown
  else Err "Invalid terminal operation state in the state database".

Record StoredOutcome := mkOutcome {
  so_status : Z;
  so_state : StoredTerminalState;
  so_code : option bytes
}.

#[export] Instance StoredOutcome_eq_dec : EqDecision StoredOutcome.
Proof. solve_decision. Defined.

Definition validate_outcome (o : StoredOutcome) : result string unit :=
  _ ← ensure (in_range 100 599 (so_status o))
        "Stored operation status must be a valid HTTP status"%string;
  _ ← match so_state o with
      | TSucceeded =>
          _ ← ensure (in_range 200 299 (so_status o))
                "A succeeded operation must have a successful HTTP status"%string;
          ensure (bool_decide (so_code o = None))
            "A succeeded operation cannot have an error code"%string
      | TFailed | TUnknown =>
          _ ← ensure (negb (in_range 200 299 (so_status o)))
                "A failed or unknown operation cannot have a successful HTTP status"%string;
          ensure (negb (bool_decide (so_code o = None)))
            "A failed or unknown operation must have an error code"%string
      end;
  match so_code o with
  | Some code => ensure (in_range 1 MAX_ERROR_CODE_CHARS (chars_count code))
                   "Stored operation error code is empty or too long"%string
  | None => Ok tt
  end.

Inductive StoreBegin :=
| BStarted (lease : bytes)
| BRunning
| BReplay (o : StoredOutcome)
| BConflict
| BFull.

Inductive StoreStatus :=
| SRunning
| SCompleted (o : StoredOutcome)
| SNotFound.

(** ** Upload sessions *)

Record StoredFileIdentity := mkIdentity { fi_device : Z; fi_inode : Z }.

#[export] Instance StoredFileIdentity_eq_dec : EqDecision StoredFileIdentity.
Proof. solve_decision. Defined.

Inductive StoredUploadState :=
| URunning | UCommitStarted | UCommitted | URejected | UUnknown | UAwaitingConfirmation.

#[export] Instance StoredUploadState_eq_dec : EqDecision StoredUploadState.
Proof. solve_decision. Defined.

Definition upload_as_i64 (s : StoredUploadState) : Z :=
  match s with
  | URunning => UPLOAD_RUNNING
  | UCommitStarted => UPLOAD_COMMIT_STARTED
  | UCommitted => UPLOAD_COMMITTED
  | URejected => UPLOAD_REJECTED
  | UUnknown => UPLOAD_UNKNOWN
  | UAwaitingConfirmation => UPLOAD_AWAITING_CONFIRMATION
  end.

Definition upload_from_database (value : Z) : result string StoredUploadState :=
  if value =? UPLOAD_RUNNING then Ok URunning
  else if value =? UPLOAD_COMMIT_STARTED then Ok UCommitStarted
  else if value =? UPLOAD_COMMITTED then Ok UCommitted
  else if value =? UPLOAD_REJECTED then Ok URejected
  else if value =? UPLOAD_UNKNOWN then Ok UUnknown
  else if value =? UPLOAD_AWAITING_CONFIRMATION then Ok UAwaitingConfirmation
  else Err "Invalid upload session state in the state database".

Definition is_terminal (s : StoredUploadState) : bool :=
  match s with UCommitted | URejected | UUnknown => true | _ => false end.

Record StoredUploadSession := mkUpload {
  us_key : UploadSessionKey;
  us_target_path : bytes;
  us_stage_path : bytes;
  us_upload_length : Z;
  us_durable_offset : Z;
  us_state : StoredUploadState;
  us_stage_identity : option StoredFileIdentity;
  us_target_revision : option bytes
}.

(** The derived [PartialEq]: [PathBuf] fields compare by components. *)
Definition upload_session_eqb (a b : StoredUploadSession) : bool :=
  bool_decide (us_key a = us_key b) &&
  path_eqb (us_target_path a) (us_target_path b) &&
  path_eqb (us_stage_path a) (us_stage_path b) &&
  (us_upload_length a =? us_upload_length b) &&
  (us_durable_offset a =? us_durable_offset b) &&
  bool_decide (us_state a = us_state b) &&
  bool_decide (us_stage_identity a = us_stage_identity b) &&
  bool_decide (us_target_revision a = us_target_revision b).

Record ExpiredUploadSession := mkExpired {
  eu_session : StoredUploadSession;
  eu_expires_at_ms : Z
}.

Definition expired_session_eqb (a b : ExpiredUploadSession) : bool :=
  upload_session_eqb (eu_session a) (eu_session b) &&
  (eu_expires_at_ms a =? eu_expires_at_ms b).

Inductive RejectUploadSession :=
| RejNotFound
| RejBindingConflict
| RejStateConflict (s : StoredUploadSession)
| RejRejected (s : StoredUploadSession).

Definition validate_stored_path (path : bytes) : result string unit :=
  _ ← ensure (negb (beqb path [])) "path cannot be empty"%string;
  _ ← ensure (blen path <=? 65536) "path is too long for the state database"%string;
  ensure (negb (contains_byte nul_byte path)) "path contains a NUL byte"%string.

(** The states [matches!] lists for the full-durability check. *)
Definition requires_full_offset (s : StoredUploadState) : bool :=
  match s with UCommitStarted | UCommitted | UAwaitingConfirmation => true | _ => false end.

Definition validate_upload (s : StoredUploadSession) : result string unit :=
  _ ← validate_stored_path (us_target_path s);
  _ ← validate_stored_path (us_stage_path s);
  _ ← ensure (negb (path_eqb (us_target_path s) (us_stage_path s)))
        "Upload target and stage paths must differ"%string;
  _ ← ensure (us_durable_offset s <=? us_upload_length s)
        "Upload durable offset exceeds its declared length"%string;
  _ ← ensure (us_upload_length s <=? i64_max)
        "Upload length cannot be represented by SQLite"%string;
  _ ← ensure (us_durable_offset s <=? i64_max)
        "Upload offset cannot be represented by SQLite"%string;
  if requires_full_offset (us_state s) then
    ensure (us_durable_offset s =? us_upload_length s)
      "A committing or committed upload must be fully durable"%string
  else Ok tt.

Inductive StoreUploadSession := UInserted | UUpdated | UUnchanged | UConflict | UFull.

(** ** Purge jobs *)

Inductive StoredPurgeState := PPrepared | PReady | PClaimed.

#[export] Instance StoredPurgeState_eq_dec : EqDecision StoredPurgeState.
Proof. solve_decision. Defined.

Definition purge_as_i64 (s : StoredPurgeState) : Z :=
  match s with PPrepared => PURGE_PREPARED | PReady => PURGE_READY | PClaimed => PURGE_CLAIMED end.

Definition purge_from_database (value : Z) : result string StoredPurgeState :=
  if value =? PURGE_PREPARED then Ok PPrepared
  else if value =? PURGE_READY then Ok PReady
  else if value =? PURGE_CLAIMED then Ok PClaimed
  else Err "Invalid purge job state in the state database".

Record StoredPurgeJob := mkPurge {
  pj_key : PurgeJobKey;
  pj_target_path : bytes;
  pj_trash_path : bytes;
  pj_source_identity : StoredFileIdentity;
  pj_trash_revision : option bytes;
  pj_is_directory : bool;
  pj_state : StoredPurgeState;
  pj_attempts : Z
}.

Definition validate_new_purge (j : StoredPurgeJob) : result string unit :=
  _ ← validate_stored_path (pj_target_path j);
  _ ← validate_stored_path (pj_trash_path j);
  _ ← ensure (negb (path_eqb (pj_target_path j) (pj_trash_path j)))
        "Purge target and trash paths must differ"%string;
  _ ← ensure (bool_decide (pj_state j = PPrepared))
        "A new purge job must start in the prepared state"%string;
  _ ← ensure (bool_decide (pj_trash_revision j = None))
        "A new purge job cannot have a trash revision"%string;
  ensure (pj_attempts j =? 0) "A new purge job cannot have attempts"%string.

Inductive StorePurgeJob := JInserted | JExisting | JConflict | JFull.

Record StatePathCursor := mkCursor {
  pc_kind : Z; pc_owner : bytes; pc_id : bytes; pc_slot : Z
}.

Record StateBlockingPath := mkBlocking {
  bp_path : bytes;
  bp_allows_exact_replacement : bool
}.

Record StatePathPage := mkPage {
  pg_paths : list StateBlockingPath;
  pg_next : option StatePathCursor
}.

(** ** Limits *)

Record RepositoryLimits := mkRepositoryLimits {
  rl_upload_capacity : Z;
  rl_upload_per_owner : Z;
  rl_purge_capacity : Z;
  rl_purge_per_owner : Z
}.

Definition REPOSITORY_LIMITS : RepositoryLimits :=
  {| rl_upload_capacity := UPLOAD_SESSION_CAPACITY;
     rl_upload_per_owner := UPLOAD_SESSION_PER_OWNER_CAPACITY;
     rl_purge_capacity := PURGE_JOB_CAPACITY;
     rl_purge_per_owner := PURGE_JOB_PER_OWNER_CAPACITY |}.

Record Limits := mkLimits {
  capacity : Z;
  per_owner : Z;
  ttl_ms : Z;
  upload_ttl_ms : Z;
  upload_capacity : Z;
  upload_per_owner : Z;
  purge_capacity : Z;
  purge_per_owner : Z
}.

(** A [Duration] is a number of nanoseconds; [as_millis] truncates. *)
Definition as_millis (d : Z) : Z := d / 1000000.

Definition duration_ms (duration : Z) : result string Z :=
  ok_or (i64_try_from (as_millis duration)) "duration is too large"%string.

Definition query_limit (limit : Z) : result string Z :=
  _ ← ensure (0 <? limit) "State store query limit must be positive"%string;
  ok_or (i64_try_from limit) "State store query limit is too large"%string.

Definition validate_limits (capacity per_owner ttl upload_ttl : Z)
    (repository : RepositoryLimits) : result string Limits :=
  _ ← ensure (0 <? capacity) "State store capacity must be positive"%string;
  _ ← ensure (in_range 1 capacity per_owner)
        "Per-owner state store capacity must be positive and no greater than global capacity"%string;
  capacity' ← ok_or (i64_try_from capacity) "State store capacity is too large"%string;
  per_owner' ← ok_or (i64_try_from per_owner) "Per-owner state store capacity is too large"%string;
  ttl_ms' ← ok_or (i64_try_from (as_millis ttl)) "State store result TTL is too large"%string;
  upload_ttl_ms' ← duration_ms upload_ttl;
  _ ← ensure ((0 <? rl_upload_capacity repository) &&
              in_range 1 (rl_upload_capacity repository) (rl_upload_per_owner repository))
        "Upload session capacities are invalid"%string;
  _ ← ensure ((0 <? rl_purge_capacity repository) &&
              in_range 1 (rl_purge_capacity repository) (rl_purge_per_owner repository))
        "Purge job capacities are invalid"%string;
  uc ← ok_or (i64_try_from (rl_upload_capacity repository)) "Upload session capacity is too large"%string;
  uo ← ok_or (i64_try_from (rl_upload_per_owner repository)) "Per-owner upload session capacity is too large"%string;
  pc ← ok_or (i64_try_from (rl_purge_capacity repository)) "Purge job capacity is too large"%string;
  po ← ok_or (i64_try_from (rl_purge_per_owner repository)) "Per-owner purge job capacity is too large"%string;
  Ok {| capacity := capacity'; per_owner := per_owner'; ttl_ms := ttl_ms';
        upload_ttl_ms := upload_ttl_ms'; upload_capacity := uc; upload_per_owner := uo;
        purge_capacity := pc; purge_per_owner := po |}.

(** ** The store clock *)

Record StoreClock := mkClock {
  wall_anchor_ms : Z;
  monotonic_anchor : Z;
  last_ms : Z
}.

(** [SystemTime] is the signed distance from the epoch in nanoseconds. *)
Definition system_time_ms (wall : Z) : result string Z :=
  if wall <? 0 then Err "The system clock is before the Unix epoch"%string
  else ok_or (i64_try_from (as_millis wall))
         "The system clock cannot be represented in milliseconds"%string.

Definition clock_new (wall instant : Z) : result string StoreClock :=
  wall_anchor ← system_time_ms wall;
  Ok {| wall_anchor_ms := wall_anchor; monotonic_anchor := instant; last_ms := wall_anchor |}.

Definition clock_observe (c : StoreClock) (wall_now_ms : option Z) (monotonic_now : Z)
    : result string (Z * StoreClock) :=
  elapsed ← ok_or (if monotonic_now <? monotonic_anchor c then None
                   else Some (monotonic_now - monotonic_anchor c))
              "The monotonic clock moved backwards"%string;
  elapsed_ms ← ok_or (i64_try_from (as_millis elapsed))
                 "The monotonic clock cannot be represented in milliseconds"%string;
  candidate ← ok_or (i64_checked_add (wall_anchor_ms c) elapsed_ms)
                "The state store clock overflowed"%string;
  let '(anchor, mono, candidate) :=
    match wall_now_ms with
    | Some w => if candidate <? w then (w, monotonic_now, w)
                else (wall_anchor_ms c, monotonic_anchor c, candidate)
    | None => (wall_anchor_ms c, monotonic_anchor c, candidate)
    end in
  let candidate := Z.max candidate (last_ms c) in
  Ok (candidate, {| wall_anchor_ms := anchor; monotonic_anchor := mono; last_ms := candidate |}).

(** [.ok()]. *)
Definition result_ok {E A} (r : result E A) : option A :=
  match r with Ok a => Some a | Err _ => None end.

Definition clock_now_ms (c : StoreClock) (wall instant : Z) : result string (Z * StoreClock) :=
  clock_observe c (result_ok (system_time_ms wall)) instant.

Definition expiration_time (now ttl : Z) : result string Z :=
  ok_or (i64_checked_add now ttl) "Operation expiration time overflowed"%string.

(** ** Facts about validation *)

(** What a validated outcome is. *)
Definition outcome_wf (o : StoredOutcome) : Prop :=
  100 <= so_status o <= 599 /\
  match so_state o with
  | TSucceeded => 200 <= so_status o <= 299 /\ so_code o = None
  | TFailed | TUnknown =>
      ~ (200 <= so_status o <= 299) /\
      exists code, so_code o = Some code /\ 1 <= chars_count code <= MAX_ERROR_CODE_CHARS
  end.

Lemma validate_outcome_Ok o : validate_outcome o = Ok tt <-> outcome_wf o.
Proof.
  unfold validate_outcome, outcome_wf. destruct o as [st s code]; cbn.
  destruct (in_range 100 599 st) eqn:H1;
    [apply in_range_true in H1|apply in_range_false in H1; cbn; split; [done|lia]].
  cbn. destruct s; cbn.
  - destruct (in_range 200 299 st) eqn:H2;
      [apply in_range_true in H2|apply in_range_false in H2; cbn; split; [done|lia]].
    destruct code; cbn; naive_solver.
  - destruct (in_range 200 299 st) eqn:H2;
      [apply in_range_true in H2; cbn; split; [done|lia]|apply in_range_false in H2].
    destruct code as [c|]; cbn; [|split; [done|intros (_ & _ & ? & [=] & _)]].
    rewrite ensure_Ok, in_range_true. split; [|intros (_ & _ & ? & [=<-] & ?); done].
    intros ?. split; [lia|]. split; [lia|]. eauto.
  - destruct (in_range 200 299 st) eqn:H2;
      [apply in_range_true in H2; cbn; split; [done|lia]|apply in_range_false in H2].
    destruct code as [c|]; cbn; [|split; [done|intros (_ & _ & ? & [=] & _)]].
    rewrite ensure_Ok, in_range_true. split; [|intros (_ & _ & ? & [=<-] & ?); done].
    intros ?. split; [lia|]. split; [lia|]. eauto.
Qed.

Definition stored_path_wf (p : bytes) : Prop :=
  p <> [] /\ blen p <= 65536 /\ nul_byte ∉ p.

Lemma validate_stored_path_Ok p : validate_stored_path p = Ok tt <-> stored_path_wf p.
Proof.
  unfold validate_stored_path, stored_path_wf, contains_byte.
  destruct (beqb p []) eqn:H1; cbn.
  { apply beqb_true in H1. naive_solver. }
  apply beqb_false in H1. destruct (blen p <=? 65536) eqn:H2; cbn; bool_prop.
  - case_bool_decide; cbn; naive_solver.
  - split; [done|]. intros (_ & ? & _). lia.
Qed.

(** What a validated upload session is. *)
Definition upload_wf (s : StoredUploadSession) : Prop :=
  stored_path_wf (us_target_path s) /\ stored_path_wf (us_stage_path s) /\
  components (us_target_path s) <> components (us_stage_path s) /\
  us_durable_offset s <= us_upload_length s <= i64_max /\
  (requires_full_offset (us_state s) = true -> us_durable_offset s = us_upload_length s).

Lemma validate_upload_Ok s : validate_upload s = Ok tt <-> upload_wf s.
Proof.
  unfold validate_upload, upload_wf. rewrite <- !validate_stored_path_Ok.
  destruct (validate_stored_path (us_target_path s)) as [[]|]; cbn; [|naive_solver].
  destruct (validate_stored_path (us_stage_path s)) as [[]|]; cbn; [|naive_solver].
  destruct (path_eqb _ _) eqn:He; cbn.
  { apply path_eqb_spec in He. naive_solver. }
  assert (components (us_target_path s) <> components (us_stage_path s)) as Hne.
  { intros H%path_eqb_spec. congruence. }
  destruct (us_durable_offset s <=? us_upload_length s) eqn:H1; cbn; bool_prop;
    [|split; [done|lia]].
  destruct (us_upload_length s <=? i64_max) eqn:H2; cbn; bool_prop; [|split; [done|lia]].
  destruct (us_durable_offset s <=? i64_max) eqn:H3; cbn; bool_prop; [|split; [done|lia]].
  destruct (requires_full_offset (us_state s)); [|naive_solver].
  rewrite ensure_Ok, Z.eqb_eq. naive_solver.
Qed.

Lemma fixed_bytes_Ok n b e x : fixed_bytes n b e = Ok x <-> x = b /\ blen b = n.
Proof.
  unfold fixed_bytes, array_try_from. destruct (blen b =? n) eqn:H; bool_prop; cbn; naive_solver.
Qed.

Lemma fixed_bytes_id n b e : blen b = n -> fixed_bytes n b e = Ok b.
Proof. intros. by apply fixed_bytes_Ok. Qed.

Lemma terminal_database_roundtrip s : terminal_from_database (terminal_as_i64 s) = Ok s.
Proof. by destruct s. Qed.

Lemma upload_state_database_roundtrip s : upload_from_database (upload_as_i64 s) = Ok s.
Proof. by destruct s. Qed.

Lemma upload_from_database_Ok v s : upload_from_database v = Ok s -> v = upload_as_i64 s.
Proof.
  unfold upload_from_database.
  repeat (case_match; [bool_prop; intros [=<-]; done|]). done.
Qed.

Lemma purge_from_database_Ok v s : purge_from_database v = Ok s -> v = purge_as_i64 s.
Proof.
  unfold purge_from_database.
  repeat (case_match; [bool_prop; intros [=<-]; done|]). done.
Qed.

Lemma purge_state_database_roundtrip s : purge_from_database (purge_as_i64 s) = Ok s.
Proof. by destruct s. Qed.

(** ** Facts about the clock *)

Lemma clock_observe_Ok c wall mono n c' :
  clock_observe c wall mono = Ok (n, c') ->
  monotonic_anchor c <= mono /\
  n = Z.max (last_ms c) (Z.max (wall_anchor_ms c + as_millis (mono - monotonic_anchor c))
                           (default i64_min wall `max` i64_min)) /\
  last_ms c' = n.
Proof.
  unfold clock_observe.
  intros (el & Hel%ok_or_Ok & H)%bind_Ok.
  destruct (mono <? monotonic_anchor c) eqn:Hlt; [done|]. bool_prop. injection Hel as <-.
  apply bind_Ok in H as (ems & Hems%ok_or_Ok & H). apply i64_try_from_Some in Hems as [-> _].
  apply bind_Ok in H as (cand & Hc%ok_or_Ok & H). apply i64_try_from_Some in Hc as [-> Hc].
  split; [done|].
  destruct wall as [w|]; cbn [default].
  - destruct (_ <? w) eqn:Hw in H; bool_prop; injection H as <- <-; cbn [last_ms];
      (split; [|done]); unfold id; lia.
  - injection H as <- <-. cbn [last_ms]. split; [|done]. lia.
Qed.

(** The times a store hands out for a sequence of clock readings; a failing
    reading yields none. *)
Fixpoint clock_readings (c : StoreClock) (obs : list (option Z * Z)) : list Z :=
  match obs with
  | [] => []
  | (wall, mono) :: obs' =>
      match clock_observe c wall mono with
      | Ok (n, c') => n :: clock_readings c' obs'
      | Err _ => clock_readings c obs'
      end
  end.

(** Store time never runs backwards: whatever the wall clock does
    between readings (steps back, jumps ahead, is unreadable), the times
    handed out are non-decreasing and never before the clock's last value, so
    an expiry computed from an earlier time stays in the past once it is. *)
Theorem store_clock_monotone c obs :
  Sorted Z.le (last_ms c :: clock_readings c obs).
Proof.
  revert c. induction obs as [|[wall mono] obs IH]; intros c; cbn.
  { repeat constructor. }
  destruct (clock_observe c wall mono) as [[n c']|] eqn:Ho; [|apply IH].
  apply clock_observe_Ok in Ho as (_ & Hn & Hl). specialize (IH c'). rewrite Hl in IH.
  constructor; [done|]. constructor. lia.
Qed.
