(* ===== verification/Database.v ===== *)
(** The tables of [src/src/server/state_store/database.rs] ([CURRENT_SCHEMA])
    and the meaning of the SQL statements the store executes.  A table with a
    primary key is a finite map from key to row.  CHECK constraints are
    evaluated in SQL's three-valued logic and reject a row only when they are
    false.  A statement that violates a constraint is an error, and an error
    inside a transaction leaves the database as it was. *)

From S2P Require Import Prelude Bytes StdPath StoreModel.
From stdpp Require Import base numbers list gmap strings sorting.
From Stdlib Require Import Ascii.

Local Open Scope Z_scope.

(** ** Three-valued logic *)

Abbreviation sql_bool := (option bool).

Definition sql_and (a b : sql_bool) : sql_bool :=
  match a, b with
  | Some false, _ | _, Some false => Some false
  | Some true, Some true => Some true
  | _, _ => None
  end.
Definition sql_or (a b : sql_bool) : sql_bool :=
  match a, b with
  | Some true, _ | _, Some true => Some true
  | Some false, Some false => Some false
  | _, _ => None
  end.
Definition sql_not (a : sql_bool) : sql_bool := negb <$> a.
Definition is_null {A} (o : option A) : sql_bool :=
  Some (match o with None => true | Some _ => false end).
Definition is_not_null {A} (o : option A) : sql_bool := sql_not (is_null o).
Definition sql_in (l : list Z) (v : option Z) : sql_bool := (λ z, bool_decide (z ∈ l)) <$> v.
Definition sql_between (v : option Z) (lo hi : Z) : sql_bool := in_range lo hi <$> v.
(** A CHECK constraint is violated only by a false result. *)
Definition check_passes (c : sql_bool) : bool :=
  match c with Some false => false | _ => true end.

(** [length(text)] counts characters before the first NUL. *)
Fixpoint before_nul (s : bytes) : bytes :=
  match s with
  | [] => []
  | c :: s' => if bool_decide (c = nul_byte) then [] else c :: before_nul s'
  end.
Definition sql_text_length (s : bytes) : Z := chars_count (before_nul s).

(** ** Rows *)

Record OperationRow := mkOperationRow {
  or_fingerprint : bytes;
  or_lease_token : bytes;
  or_state : Z;
  or_terminal_state : option Z;
  or_http_status : option Z;
  or_error_code : option bytes;
  or_created_at_ms : Z;
  or_updated_at_ms : Z;
  or_expires_at_ms : option Z
}.

Record UploadRow := mkUploadRow {
  ur_target_path : bytes;
  ur_stage_path : bytes;
  ur_upload_length : Z;
  ur_durable_offset : Z;
  ur_state : Z;
  ur_stage_device_be : option bytes;
  ur_stage_inode_be : option bytes;
  ur_target_revision : option bytes;
  ur_updated_at_ms : Z;
  ur_expires_at_ms : Z
}.

Record PurgeRow := mkPurgeRow {
  pr_target_path : bytes;
  pr_trash_path : bytes;
  pr_source_device_be : bytes;
  pr_source_inode_be : bytes;
  pr_trash_revision : option bytes;
  pr_is_directory : Z;
  pr_state : Z;
  pr_attempts : Z;
  pr_next_attempt_at_ms : Z;
  pr_created_at_ms : Z;
  pr_updated_at_ms : Z
}.

Record Database := mkDatabase {
  operations : gmap StoreKey OperationRow;
  upload_sessions : gmap StoreKey UploadRow;
  purge_jobs : gmap StoreKey PurgeRow
}.

Definition empty_database : Database :=
  {| operations := ∅; upload_sessions := ∅; purge_jobs := ∅ |}.

Definition set_operations (db : Database) t : Database :=
  {| operations := t; upload_sessions := upload_sessions db; purge_jobs := purge_jobs db |}.
Definition set_upload_sessions (db : Database) t : Database :=
  {| operations := operations db; upload_sessions := t; purge_jobs := purge_jobs db |}.
Definition set_purge_jobs (db : Database) t : Database :=
  {| operations := operations db; upload_sessions := upload_sessions db; purge_jobs := t |}.

(** ** CHECK constraints *)

Definition opt_len (n : Z) (o : option bytes) : bool :=
  match o with None => true | Some b => blen b =? n end.

Definition operation_check (k : StoreKey) (r : OperationRow) : bool :=
  (blen (key_owner k) =? 32) && (blen (key_id k) =? 16) &&
  (blen (or_fingerprint r) =? 32) && (blen (or_lease_token r) =? 16) &&
  check_passes (sql_in [0; 1; 2] (Some (or_state r))) &&
  check_passes (sql_in [0; 1; 2] (or_terminal_state r)) &&
  check_passes (sql_or (is_null (or_error_code r))
    (sql_between (sql_text_length <$> or_error_code r) 1 128)) &&
  check_passes
    (sql_or
      (sql_and (sql_in [0; 1] (Some (or_state r)))
        (sql_and (is_null (or_terminal_state r))
          (sql_and (is_null (or_http_status r))
            (sql_and (is_null (or_error_code r)) (is_null (or_expires_at_ms r))))))
      (sql_and (Some (or_state r =? 2))
        (sql_and (is_not_null (or_terminal_state r))
          (sql_and (sql_between (or_http_status r) 100 599)
            (sql_and (is_not_null (or_expires_at_ms r))
              (sql_or
                (sql_and (sql_in [0] (or_terminal_state r))
                  (sql_and (sql_between (or_http_status r) 200 299)
                    (is_null (or_error_code r))))
                (sql_and (sql_in [1; 2] (or_terminal_state r))
                  (sql_and (sql_not (sql_between (or_http_status r) 200 299))
                    (is_not_null (or_error_code r)))))))))).

Definition upload_check (k : StoreKey) (r : UploadRow) : bool :=
  (blen (key_owner k) =? 32) && (blen (key_id k) =? 16) &&
  in_range 1 65536 (blen (ur_target_path r)) &&
  in_range 1 65536 (blen (ur_stage_path r)) &&
  (0 <=? ur_upload_length r) && (0 <=? ur_durable_offset r) &&
  in_range 0 5 (ur_state r) &&
  opt_len 8 (ur_stage_device_be r) && opt_len 8 (ur_stage_inode_be r) &&
  opt_len 32 (ur_target_revision r) &&
  negb (beqb (ur_target_path r) (ur_stage_path r)) &&
  (ur_durable_offset r <=? ur_upload_length r) &&
  bool_decide (is_null (ur_stage_device_be r) = is_null (ur_stage_inode_be r)) &&
  (negb (ur_state r =? 2) || (ur_durable_offset r =? ur_upload_length r)) &&
  (negb (ur_state r =? 1) || (ur_durable_offset r =? ur_upload_length r)) &&
  (negb (ur_state r =? 5) || (ur_durable_offset r =? ur_upload_length r)).

Definition purge_check (k : StoreKey) (r : PurgeRow) : bool :=
  (blen (key_owner k) =? 32) && (blen (key_id k) =? 16) &&
  in_range 1 65536 (blen (pr_target_path r)) &&
  in_range 1 65536 (blen (pr_trash_path r)) &&
  (blen (pr_source_device_be r) =? 8) && (blen (pr_source_inode_be r) =? 8) &&
  opt_len 32 (pr_trash_revision r) &&
  in_range 0 1 (pr_is_directory r) && in_range 0 2 (pr_state r) &&
  in_range 0 u32_max (pr_attempts r) &&
  negb (beqb (pr_target_path r) (pr_trash_path r)).

(** ** Statements *)

Section table.
Context {R : Type} (check : StoreKey -> R -> bool).
Implicit Types (m : gmap StoreKey R) (P : StoreKey -> R -> bool).

Definition sql_count P m : Z := Z.of_nat (size (filter (λ kr, P kr.1 kr.2 = true) m)).

Definition sql_exists P m : bool := negb (sql_count P m =? 0).

(** [UPDATE t SET f WHERE P]: the number of changed rows and the table. *)
Definition sql_update P (f : R -> R) m : result string (Z * gmap StoreKey R) :=
  if bool_decide (map_Forall (λ k r, P k r = true -> check k (f r) = true) m) then
    Ok (sql_count P m, map_imap (λ k r, Some (if P k r then f r else r)) m)
  else Err "CHECK constraint failed"%string.

(** [DELETE FROM t WHERE P]. *)
Definition sql_delete P m : Z * gmap StoreKey R :=
  (sql_count P m, filter (λ kr, P kr.1 kr.2 = false) m).

(** [INSERT INTO t VALUES (k, r)]. *)
Definition sql_insert (k : StoreKey) (r : R) m : result string (gmap StoreKey R) :=
  match m !! k with
  | Some _ => Err "UNIQUE constraint failed"%string
  | None => if check k r then Ok (<[k := r]> m) else Err "CHECK constraint failed"%string
  end.
End table.

(** [WHERE owner_digest = ? AND id = ?]. *)
Definition key_is (k k' : StoreKey) : bool := bool_decide (k = k').
Definition owner_is (owner : bytes) (k : StoreKey) : bool := beqb (key_owner k) owner.

(** ** Facts about statements *)

Section table_facts.
Context {R : Type} (check : StoreKey -> R -> bool).
Implicit Types (m : gmap StoreKey R) (P : StoreKey -> R -> bool).

Lemma sql_update_Ok P f m n m' :
  sql_update check P f m = Ok (n, m') ->
  n = sql_count P m /\
  (forall k, m' !! k = (λ r, if P k r then f r else r) <$> m !! k) /\
  (forall k r, m !! k = Some r -> P k r = true -> check k (f r) = true).
Proof.
  unfold sql_update. case_bool_decide as Hall; [|done]. intros [= <- <-].
  split; [done|]. split; [|exact Hall].
  intros k. rewrite map_lookup_imap. by destruct (m !! k).
Qed.

Lemma sql_update_succeeds P f m :
  (forall k r, m !! k = Some r -> P k r = true -> check k (f r) = true) ->
  exists m', sql_update check P f m = Ok (sql_count P m, m').
Proof.
  intros H. unfold sql_update. rewrite bool_decide_eq_true_2 by exact H. eauto.
Qed.

Lemma lookup_sql_delete P m k :
  (sql_delete P m).2 !! k =
    match m !! k with Some r => if P k r then None else Some r | None => None end.
Proof.
  cbn. destruct (m !! k) as [r|] eqn:Hk.
  - destruct (P k r) eqn:HP.
    + apply map_lookup_filter_None. right. intros r' Hr' HP'. cbn in HP'. congruence.
    + apply map_lookup_filter_Some. auto.
  - apply map_lookup_filter_None. auto.
Qed.

Lemma sql_insert_Ok k r m m' :
  sql_insert check k r m = Ok m' -> m !! k = None /\ check k r = true /\ m' = <[k:=r]> m.
Proof.
  unfold sql_insert. destruct (m !! k); [done|]. destruct (check k r); [|done].
  by intros [=<-].
Qed.

(** Counting rows by a condition on the key only depends on the key set. *)
Lemma sql_count_key (p : StoreKey -> bool) m :
  sql_count (λ k _, p k) m = Z.of_nat (size (filter (λ k, p k = true) (dom m))).
Proof.
  unfold sql_count. f_equal. rewrite <- size_dom. f_equal.
  apply dom_filter_L. intros k. rewrite elem_of_filter, elem_of_dom. split.
  - intros [Hp [r Hr]]. exists r. auto.
  - intros (r & Hr & Hp). split; [done|eauto].
Qed.

Lemma dom_sql_update P f m n m' :
  sql_update check P f m = Ok (n, m') -> dom m' = dom m.
Proof.
  intros (_ & Hl & _)%sql_update_Ok. apply set_eq. intros k.
  rewrite !elem_of_dom, Hl. by rewrite fmap_is_Some.
Qed.

Lemma dom_sql_delete P m : dom (sql_delete P m).2 ⊆ dom m.
Proof. cbn. apply dom_filter_subseteq. Qed.

Lemma sql_count_le P Q m :
  (forall k r, m !! k = Some r -> P k r = true -> Q k r = true) ->
  sql_count P m <= sql_count Q m.
Proof.
  intros H. unfold sql_count. apply inj_le. apply map_subseteq_size.
  apply map_subseteq_spec. intros k r (Hk & HP)%map_lookup_filter_Some.
  apply map_lookup_filter_Some. cbn in *. eauto.
Qed.

(** A statement that names one key touches at most that row. *)
Lemma sql_count_one k0 (q : R -> bool) m :
  sql_count (λ k r, key_is k k0 && q r) m =
    match m !! k0 with Some r => if q r then 1 else 0 | None => 0 end.
Proof.
  unfold sql_count.
  destruct (m !! k0) as [r|] eqn:Hk; [destruct (q r) eqn:Hq|].
  - assert (filter (λ kr, key_is kr.1 k0 && q kr.2 = true) m = {[k0 := r]}) as ->.
    { apply map_eq. intros k. destruct (decide (k = k0)) as [->|Hne].
      - rewrite lookup_singleton_eq. apply map_lookup_filter_Some. split; [done|].
        cbn. unfold key_is. by rewrite Hq, bool_decide_eq_true_2.
      - rewrite lookup_singleton_ne by done. apply map_lookup_filter_None. right.
        intros r' _. cbn. unfold key_is. by rewrite bool_decide_eq_false_2. }
    by rewrite map_size_singleton.
  - apply (f_equal Z.of_nat (y := 0%nat)). apply map_size_empty_iff.
    apply map_empty_filter. intros k r' Hr'. cbn.
    unfold key_is. case_bool_decide; subst; cbn; congruence.
  - apply (f_equal Z.of_nat (y := 0%nat)). apply map_size_empty_iff.
    apply map_empty_filter. intros k r' Hr'. cbn.
    unfold key_is. case_bool_decide; subst; cbn; congruence.
Qed.

(** [UPDATE ... WHERE key = k0 AND q]. *)
Lemma sql_update_one k0 (q : R -> bool) f m n m' :
  sql_update check (λ k r, key_is k k0 && q r) f m = Ok (n, m') ->
  match m !! k0 with
  | Some r => if q r then n = 1 /\ m' = <[k0 := f r]> m /\ check k0 (f r) = true
              else n = 0 /\ m' = m
  | None => n = 0 /\ m' = m
  end.
Proof.
  intros (-> & Hl & Hc)%sql_update_Ok. rewrite sql_count_one.
  assert (forall k, k <> k0 -> m' !! k = m !! k) as Hne.
  { intros k Hk. rewrite Hl. unfold key_is. rewrite bool_decide_eq_false_2 by done.
    by destruct (m !! k). }
  pose proof (Hl k0) as H0. unfold key_is in H0. rewrite bool_decide_eq_true_2 in H0 by done.
  destruct (m !! k0) as [r|] eqn:Hk; cbn in H0; [destruct (q r) eqn:Hq|].
  - split_and!; [done| |apply Hc; [done|]; unfold key_is; by rewrite bool_decide_eq_true_2, Hq].
    apply map_eq. intros k. destruct (decide (k = k0)) as [->|Hk'];
      [by rewrite lookup_insert_eq|rewrite lookup_insert_ne by done; by apply Hne].
  - split; [done|]. apply map_eq. intros k.
    destruct (decide (k = k0)) as [->|Hk']; [congruence|by apply Hne].
  - split; [done|]. apply map_eq. intros k.
    destruct (decide (k = k0)) as [->|Hk']; [congruence|by apply Hne].
Qed.

Lemma sql_update_one_runs k0 (q : R -> bool) f m r :
  m !! k0 = Some r -> q r = true -> check k0 (f r) = true ->
  sql_update check (λ k r, key_is k k0 && q r) f m = Ok (1, <[k0 := f r]> m).
Proof.
  intros Hk Hq Hc.
  destruct (sql_update_succeeds (λ k r, key_is k k0 && q r) f m) as [m' Hu].
  { intros k r' Hr' [He _]%andb_true_iff. unfold key_is in He. bool_prop. subst. by simplify_eq. }
  rewrite Hu. apply sql_update_one in Hu. rewrite Hk, Hq in Hu. destruct Hu as (-> & -> & _). done.
Qed.

(** [DELETE ... WHERE key = k0 AND q]. *)
Lemma sql_delete_one k0 (q : R -> bool) m :
  sql_delete (λ k r, key_is k k0 && q r) m =
    match m !! k0 with
    | Some r => if q r then (1, delete k0 m) else (0, m)
    | None => (0, m)
    end.
Proof.
  unfold sql_delete. rewrite sql_count_one.
  assert (forall t, (forall k, t !! k = match m !! k with
      | Some r => if key_is k k0 && q r then None else Some r | None => None end) ->
    filter (λ kr, key_is kr.1 k0 && q kr.2 = false) m = t) as Hf.
  { intros t Ht. apply map_eq. intros k. rewrite Ht.
    exact (lookup_sql_delete (λ k r, key_is k k0 && q r) m k). }
  destruct (m !! k0) as [r|] eqn:Hk; [destruct (q r) eqn:Hq|]; f_equal; apply Hf; intros k;
    unfold key_is; case_bool_decide; subst; cbn.
  - by rewrite lookup_delete_eq, Hk, Hq.
  - rewrite lookup_delete_ne by done. by destruct (m !! k).
  - by rewrite Hk, Hq.
  - by destruct (m !! k).
  - by rewrite Hk.
  - by destruct (m !! k).
Qed.

Lemma sql_delete_ext P Q m : (forall k r, P k r = Q k r) -> sql_delete P m = sql_delete Q m.
Proof.
  intros H. unfold sql_delete, sql_count. f_equal.
  - f_equal. f_equal. apply map_filter_ext. intros k r _. cbn. by rewrite H.
  - apply map_filter_ext. intros k r _. cbn. by rewrite H.
Qed.

(** [DELETE ... WHERE key = k0]. *)
Lemma sql_delete_key k0 m :
  sql_delete (λ k _, key_is k k0) m =
    match m !! k0 with Some _ => (1, delete k0 m) | None => (0, m) end.
Proof.
  rewrite (sql_delete_ext _ (λ k _, key_is k k0 && true)) by (intros; by rewrite andb_true_r).
  rewrite (sql_delete_one k0 (λ _, true)). done.
Qed.
End table_facts.

Lemma sql_count_subset {R} (p : StoreKey -> bool) (m m' : gmap StoreKey R) :
  dom m' ⊆ dom m -> sql_count (λ k _, p k) m' <= sql_count (λ k _, p k) m.
Proof.
  intros H. rewrite !sql_count_key. apply inj_le, subseteq_size. set_solver.
Qed.

Lemma sql_count_insert {R} (p : StoreKey -> bool) k r (m : gmap StoreKey R) :
  m !! k = None ->
  sql_count (λ k _, p k) (<[k:=r]> m) = sql_count (λ k _, p k) m + (if p k then 1 else 0).
Proof.
  intros Hk. rewrite !sql_count_key, dom_insert_L, filter_union_L by apply _.
  apply not_elem_of_dom in Hk. rewrite filter_singleton_L by apply _.
  destruct (p k) eqn:Hp.
  - rewrite decide_True, size_union, size_singleton by (done || set_solver). lia.
  - rewrite decide_False, union_empty_l_L by congruence. lia.
Qed.

Lemma dom_fmap_update {R} (m m' : gmap StoreKey R) (g : StoreKey -> R -> R) :
  (forall k, m' !! k = g k <$> m !! k) -> dom m' = dom m.
Proof.
  intros H. apply set_eq. intros k. rewrite !elem_of_dom, H. by rewrite fmap_is_Some.
Qed.

Lemma sql_exists_false {R} (P : StoreKey -> R -> bool) m :
  sql_exists P m = false -> forall k r, m !! k = Some r -> P k r = false.
Proof.
  unfold sql_exists, sql_count. intros H. bool_prop.
  assert (size (filter (λ kr, P kr.1 kr.2 = true) m) = 0%nat) as Hs by lia.
  apply map_size_empty_iff in Hs. intros k r Hk. destruct (P k r) eqn:HP; [|done].
  assert (filter (λ kr, P kr.1 kr.2 = true) m !! k = Some r) as Hf
    by (by apply map_lookup_filter_Some).
  by rewrite Hs, lookup_empty in Hf.
Qed.

Lemma sql_exists_true {R} (P : StoreKey -> R -> bool) m k r :
  m !! k = Some r -> P k r = true -> sql_exists P m = true.
Proof.
  intros Hk HP. destruct (sql_exists P m) eqn:H; [done|].
  by rewrite (sql_exists_false _ _ H k r Hk) in HP.
Qed.

Lemma sql_exists_true_inv {R} (P : StoreKey -> R -> bool) (m : gmap StoreKey R) :
  sql_exists P m = true -> exists k r, m !! k = Some r /\ P k r = true.
Proof.
  unfold sql_exists, sql_count. intros H. bool_prop.
  destruct (map_choose (filter (λ kr, P kr.1 kr.2 = true) m)) as (k & r & Hk).
  - intros He. by rewrite He, map_size_empty in H.
  - apply map_lookup_filter_Some in Hk. eauto.
Qed.

(** ** Capacities *)

(** The global and the per-owner row count are within their limits. *)
Definition within {R} (cap per : Z) (m : gmap StoreKey R) : Prop :=
  sql_count (λ _ _, true) m <= cap /\
  forall owner, sql_count (λ k _, owner_is owner k) m <= per.

Lemma within_subset {R} cap per (m m' : gmap StoreKey R) :
  dom m' ⊆ dom m -> within cap per m -> within cap per m'.
Proof.
  intros Hd [Hg Ho]. split.
  - pose proof (sql_count_subset (λ _, true) m m' Hd). cbn in *. lia.
  - intros owner. pose proof (sql_count_subset (owner_is owner) m m' Hd).
    specialize (Ho owner). cbn in *. lia.
Qed.

Lemma within_insert {R} cap per k r (m : gmap StoreKey R) :
  m !! k = None -> within cap per m ->
  sql_count (λ _ _, true) m < cap ->
  sql_count (λ k' _, owner_is (key_owner k) k') m < per ->
  within cap per (<[k := r]> m).
Proof.
  intros Hk [Hg Ho] Hg' Ho'. split.
  - pose proof (sql_count_insert (λ _, true) k r m Hk). cbn in *. lia.
  - intros owner. pose proof (sql_count_insert (owner_is owner) k r m Hk) as Hi. cbn in Hi.
    rewrite Hi. destruct (owner_is owner k) eqn:Hown; [|specialize (Ho owner); lia].
    unfold owner_is in Hown. apply beqb_true in Hown. subst owner. lia.
Qed.

Lemma within_update {R} cap per k r (m : gmap StoreKey R) :
  is_Some (m !! k) -> within cap per m -> within cap per (<[k := r]> m).
Proof.
  intros Hk. apply within_subset. rewrite dom_insert_L.
  apply elem_of_dom in Hk. set_solver.
Qed.
