(* ===== verification/StoreWorker.v ===== *)
(** The state actor's worker ([StoreWorker] of [src/src/server/state_store.rs]):
    the database connection, the clock and the limits its operations share,
    and the state-and-error monad they run in.

    Every operation receives an [Env]: the readings of the two system clocks,
    the identifier [Uuid::new_v4] returns, and whether SQLite fails.  A failed
    statement, like an [Err] computed inside a transaction, drops the
    transaction, which rolls it back; the clock keeps what it observed. *)

From S2P Require Import Prelude Bytes StdPath StoreModel Database.
From stdpp Require Import base numbers list gmap strings.

Local Open Scope Z_scope.

Record Env := mkEnv {
  env_wall : Z;
  env_instant : Z;
  env_uuid : bytes;
  env_sql_fault : bool
}.

Record StoreWorker := mkWorker {
  connection : Database;
  clock : StoreClock;
  limits : Limits;
  deferred_abandons : list (OperationKey * bytes)
}.

Definition set_connection (w : StoreWorker) (db : Database) : StoreWorker :=
  {| connection := db; clock := clock w; limits := limits w;
     deferred_abandons := deferred_abandons w |}.
Definition set_clock (w : StoreWorker) (c : StoreClock) : StoreWorker :=
  {| connection := connection w; clock := c; limits := limits w;
     deferred_abandons := deferred_abandons w |}.
Definition set_deferred (w : StoreWorker) d : StoreWorker :=
  {| connection := connection w; clock := clock w; limits := limits w;
     deferred_abandons := d |}.

(** ** The monad of worker operations *)

Definition W (A : Type) : Type := StoreWorker -> result string A * StoreWorker.

#[export] Instance W_ret : MRet W := fun A a w => (Ok a, w).
#[export] Instance W_bind : MBind W := fun A B f m w =>
  match m w with
  | (Ok a, w') => f a w'
  | (Err e, w') => (Err e, w')
  end.

Definition w_lift {A} (r : result string A) : W A := fun w => (r, w).
Definition w_limits : W Limits := fun w => (Ok (limits w), w).

Definition sqlite_error : string := "SQLite statement failed".

(** [StoreWorker::now_ms]. *)
Definition now_ms (e : Env) : W Z := fun w =>
  match clock_now_ms (clock w) (env_wall e) (env_instant e) with
  | Ok (n, c) => (Ok n, set_clock w c)
  | Err err => (Err err, w)
  end.

(** [transaction_with_behavior(Immediate)], the statements of [f], and
    [commit]; any error rolls back.  A statement outside a transaction
    commits by itself and is the same. *)
Definition transaction {A} (e : Env) (f : Database -> result string (A * Database)) : W A :=
  fun w =>
    if env_sql_fault e then (Err sqlite_error, w)
    else match f (connection w) with
         | Ok (a, db) => (Ok a, set_connection w db)
         | Err err => (Err err, w)
         end.

(** A read outside a transaction. *)
Definition query {A} (e : Env) (f : Database -> result string A) : W A :=
  fun w => if env_sql_fault e then (Err sqlite_error, w) else (f (connection w), w).

(** ** Facts *)

Section monad_facts.
Context {A B : Type}.

Lemma W_bind_Ok (m : W A) (f : A -> W B) w b w' :
  (m ≫= f) w = (Ok b, w') ->
  exists a w1, m w = (Ok a, w1) /\ f a w1 = (Ok b, w').
Proof. cbv [mbind W_bind]. destruct (m w) as [[a|e] w1]; [eauto|done]. Qed.

Lemma transaction_Ok e (f : Database -> result string (A * Database)) w a w' :
  transaction e f w = (Ok a, w') ->
  exists db, f (connection w) = Ok (a, db) /\ w' = set_connection w db.
Proof.
  unfold transaction. destruct (env_sql_fault e); [done|].
  destruct (f (connection w)) as [[x db]|]; [|done]. intros [= -> <-]. eauto.
Qed.

Lemma transaction_cases e (f : Database -> result string (A * Database)) w r w' :
  transaction e f w = (r, w') ->
  (exists a db, r = Ok a /\ f (connection w) = Ok (a, db) /\ w' = set_connection w db) \/
  (exists err, r = Err err /\ w' = w).
Proof.
  unfold transaction. destruct (env_sql_fault e); [intros [= <- <-]; eauto|].
  destruct (f (connection w)) as [[x db]|]; intros [= <- <-]; eauto 10.
Qed.
End monad_facts.

Lemma now_ms_cases e w r w' :
  now_ms e w = (r, w') ->
  connection w' = connection w /\ limits w' = limits w /\
  deferred_abandons w' = deferred_abandons w /\
  last_ms (clock w) <= last_ms (clock w') /\
  (forall n, r = Ok n -> n = last_ms (clock w')).
Proof.
  unfold now_ms, clock_now_ms.
  destruct (clock_observe _ _ _) as [[n c]|] eqn:Ho; intros [= <- <-]; cbn.
  - apply clock_observe_Ok in Ho as (_ & Hn & Hl). repeat split; [lia|].
    intros n' [=<-]. done.
  - repeat split; [lia|]. done.
Qed.

(** The fields a worker operation leaves alone. *)
Definition same_frame (w w' : StoreWorker) : Prop :=
  limits w' = limits w /\ deferred_abandons w' = deferred_abandons w /\
  last_ms (clock w) <= last_ms (clock w').

#[export] Instance same_frame_preorder : PreOrder same_frame.
Proof.
  split; [by intros w; repeat split|].
  intros w1 w2 w3 (? & ? & ?) (? & ? & ?). repeat split; [congruence..|lia].
Qed.

(** The common shape of the methods: read the clock, compute an expiry or
    nothing, then run one transaction. *)
Lemma timed_transaction {A B} e (g : Limits -> Z -> result string B)
    (f : Limits -> Z -> B -> Database -> result string (A * Database)) w r w' :
  (now ← now_ms e; lim ← w_limits; x ← w_lift (g lim now); transaction e (f lim now x)) w
    = (r, w') ->
  (connection w' = connection w /\ same_frame w w' /\ exists err, r = Err err) \/
  (exists x a db, r = Ok a /\ g (limits w) (last_ms (clock w')) = Ok x /\
     f (limits w) (last_ms (clock w')) x (connection w) = Ok (a, db) /\
     connection w' = db /\ same_frame w w').
Proof.
  cbv [mbind W_bind w_limits w_lift]. destruct (now_ms e w) as [[n|err] w1] eqn:Hn.
  - apply now_ms_cases in Hn as (Hc & Hl & Hd & Hm & Hv). specialize (Hv n eq_refl).
    destruct (g (limits w1) n) as [x|err] eqn:Hg.
    + intros [(a & db & -> & Hf & ->)|(err & -> & ->)]%transaction_cases.
      * right. exists x, a, db. rewrite Hc, Hl in *. subst n. by repeat split.
      * left. split; [done|]. split; [by repeat split|eauto].
    + intros [= <- <-]. left. split; [done|]. split; [by repeat split|eauto].
  - apply now_ms_cases in Hn as (Hc & Hl & Hd & Hm & _). intros [= <- <-].
    left. split; [done|]. split; [by repeat split|eauto].
Qed.

(** [timed_transaction] for a method without the intermediate computation. *)
Lemma timed_transaction_plain {A} e
    (f : Limits -> Z -> Database -> result string (A * Database)) w r w' :
  (now ← now_ms e; lim ← w_limits; transaction e (f lim now)) w = (r, w') ->
  (connection w' = connection w /\ same_frame w w' /\ exists err, r = Err err) \/
  (exists a db, r = Ok a /\ f (limits w) (last_ms (clock w')) (connection w) = Ok (a, db) /\
     connection w' = db /\ same_frame w w').
Proof.
  intros H.
  destruct (timed_transaction e (λ _ _, Ok tt) (λ lim now _, f lim now) w r w') as
    [?|(x & a & db & -> & _ & ?)]; [|auto|eauto].
  revert H. cbv [mbind W_bind w_limits w_lift]. by destruct (now_ms e w) as [[] ?].
Qed.

(** The same for a method that does not read the limits. *)
Lemma timed_transaction_nolim {A} e (f : Z -> Database -> result string (A * Database)) w r w' :
  (now ← now_ms e; transaction e (f now)) w = (r, w') ->
  (connection w' = connection w /\ same_frame w w' /\ exists err, r = Err err) \/
  (exists a db, r = Ok a /\ f (last_ms (clock w')) (connection w) = Ok (a, db) /\
     connection w' = db /\ same_frame w w').
Proof.
  intros H. apply (timed_transaction_plain e (λ _, f)).
  revert H. cbv [mbind W_bind w_limits]. by destruct (now_ms e w) as [[] ?].
Qed.

(** ** Runs that do not fail *)

(** Neither SQLite nor the clock fails. *)
Definition env_ok (e : Env) (w : StoreWorker) : Prop :=
  env_sql_fault e = false /\ exists n c, clock_now_ms (clock w) (env_wall e) (env_instant e) = Ok (n, c).

(** The time an environment shows a worker, when [env_ok]. *)
Definition env_now (e : Env) (w : StoreWorker) : Z :=
  match clock_now_ms (clock w) (env_wall e) (env_instant e) with
  | Ok (n, _) => n
  | Err _ => 0
  end.

Lemma now_ms_ok e w :
  env_ok e w -> exists w1, now_ms e w = (Ok (env_now e w), w1) /\
    connection w1 = connection w /\ limits w1 = limits w /\ last_ms (clock w1) = env_now e w.
Proof.
  intros [_ (n & c & Hc)]. unfold now_ms, env_now. rewrite Hc. eexists. split; [done|].
  unfold clock_now_ms in Hc. apply clock_observe_Ok in Hc as (_ & _ & Hl). done.
Qed.

Lemma timed_run {A B} e (g : Limits -> Z -> result string B)
    (f : Limits -> Z -> B -> Database -> result string (A * Database)) w x a db :
  env_ok e w -> g (limits w) (env_now e w) = Ok x ->
  f (limits w) (env_now e w) x (connection w) = Ok (a, db) ->
  exists w', (now ← now_ms e; lim ← w_limits; x ← w_lift (g lim now); transaction e (f lim now x)) w
    = (Ok a, w') /\ connection w' = db /\ last_ms (clock w') = env_now e w /\ limits w' = limits w.
Proof.
  intros He Hg Hf. destruct (now_ms_ok e w He) as (w1 & Hn & Hc & Hl & Ht).
  cbv [mbind W_bind w_limits w_lift]. rewrite Hn, Hl, Hg. unfold transaction.
  rewrite (proj1 He), Hc, Hf. eexists. repeat split; done.
Qed.

Lemma timed_run_plain {A} e (f : Limits -> Z -> Database -> result string (A * Database)) w a db :
  env_ok e w -> f (limits w) (env_now e w) (connection w) = Ok (a, db) ->
  exists w', (now ← now_ms e; lim ← w_limits; transaction e (f lim now)) w = (Ok a, w') /\
    connection w' = db /\ last_ms (clock w') = env_now e w /\ limits w' = limits w.
Proof.
  intros He Hf.
  destruct (timed_run e (λ _ _, Ok tt) (λ lim now _, f lim now) w tt a db He eq_refl Hf)
    as (w' & H & ?).
  exists w'. split; [|done]. revert H. cbv [mbind W_bind w_limits w_lift].
  by destruct (now_ms e w) as [[] ?].
Qed.

Lemma timed_run_nolim {A} e (f : Z -> Database -> result string (A * Database)) w a db :
  env_ok e w -> f (env_now e w) (connection w) = Ok (a, db) ->
  exists w', (now ← now_ms e; transaction e (f now)) w = (Ok a, w') /\
    connection w' = db /\ last_ms (clock w') = env_now e w /\ limits w' = limits w.
Proof.
  intros He Hf. destruct (timed_run_plain e (λ _, f) w a db He Hf) as (w' & H & ?).
  exists w'. split; [|done]. revert H. cbv [mbind W_bind w_limits].
  by destruct (now_ms e w) as [[] ?].
Qed.

Lemma query_keeps {A} e (f : Database -> result string A) w r w' :
  query e f w = (r, w') -> w' = w.
Proof. unfold query. destruct (env_sql_fault e); by intros [= _ <-]. Qed.

Lemma now_ms_frame e w r w' :
  now_ms e w = (r, w') -> connection w' = connection w /\ same_frame w w'.
Proof.
  intros H. apply now_ms_cases in H as (? & ? & ? & ? & _). by repeat split.
Qed.

(** ** A concrete store, for the examples *)

Definition demo_limits : Limits :=
  {| capacity := 2; per_owner := 1; ttl_ms := 900000; upload_ttl_ms := 1000;
     upload_capacity := 2; upload_per_owner := 1; purge_capacity := 2; purge_per_owner := 1 |}.
Definition demo_worker : StoreWorker :=
  {| connection := empty_database; clock := mkClock 1000 0 1000; limits := demo_limits;
     deferred_abandons := [] |}.
(** [demo_env t] shows the store clock at [t] milliseconds past its anchor. *)
Definition demo_lease : bytes := bs "lease-0123456789".
Definition demo_env (t : Z) : Env :=
  {| env_wall := 0; env_instant := t * 1000000; env_uuid := demo_lease; env_sql_fault := false |}.
Definition demo_key : StoreKey :=
  mkStoreKey (bs "owner-digest-of-thirty-two-bytes") (bs "operation-id-16b").
