(* ===== verification/Operations.v ===== *)
(** [src/src/server/state_store/operation.rs]: durable idempotency records of
    mutating requests.  One definition per [StoreWorker] method; the invariant
    of the [operations] table; and the life cycle of a record. *)

From S2P Require Import Prelude Bytes StdPath StoreModel Database StoreWorker.
From stdpp Require Import base numbers list gmap strings sorting.
From Stdlib Require Import Ascii.

Local Open Scope Z_scope.

(** ** Operations *)

(** [operation.state as i64]-typed columns as [load_operation] returns them. *)
Record LoadedOperation := mkLoadedOperation {
  lo_fingerprint : bytes;
  lo_state : Z;
  lo_terminal_state : option Z;
  lo_http_status : option Z;
  lo_code : option bytes
}.

Definition into_outcome (o : LoadedOperation) : result string StoredOutcome :=
  state ← ok_or (lo_terminal_state o) "Completed operation is missing its terminal state"%string;
  status ← ok_or (lo_http_status o) "Completed operation is missing its HTTP status"%string;
  status ← ok_or (u16_try_from status) "Completed operation contains an invalid HTTP status"%string;
  state ← terminal_from_database state;
  let outcome := {| so_status := status; so_state := state; so_code := lo_code o |} in
  _ ← validate_outcome outcome;
  Ok outcome.

Definition load_operation (db : Database) (key : OperationKey)
    : result string (option LoadedOperation) :=
  transpose ((λ r,
    fp ← ok_or (array_try_from 32 (or_fingerprint r)) "Operation fingerprint has an invalid length"%string;
    Ok {| lo_fingerprint := fp; lo_state := or_state r;
          lo_terminal_state := or_terminal_state r; lo_http_status := or_http_status r;
          lo_code := or_error_code r |}) <$> operations db !! key).

(** [DELETE FROM operations WHERE state = COMPLETED AND expires_at_ms <= now]. *)
Definition expired_row (now : Z) (_ : StoreKey) (r : OperationRow) : bool :=
  (or_state r =? OPERATION_COMPLETED) &&
  match or_expires_at_ms r with Some t => t <=? now | None => false end.

Definition purge_expired (db : Database) (now : Z) : Database :=
  set_operations db (sql_delete (expired_row now) (operations db)).2.

Definition reserved_row (fingerprint lease : bytes) (now : Z) : OperationRow :=
  {| or_fingerprint := fingerprint; or_lease_token := lease;
     or_state := OPERATION_RESERVED; or_terminal_state := None; or_http_status := None;
     or_error_code := None; or_created_at_ms := now; or_updated_at_ms := now;
     or_expires_at_ms := None |}.

(** The statements of [begin_operation]'s transaction. *)
Definition begin_body (key : OperationKey) (fingerprint lease : bytes) (lim : Limits) (now : Z)
    (db : Database) : result string (StoreBegin * Database) :=
  let db := purge_expired db now in
  existing ← load_operation db key;
  match existing with
  | Some existing =>
      res ← (if negb (beqb (lo_fingerprint existing) fingerprint) then Ok BConflict
             else if (lo_state existing =? OPERATION_RESERVED) ||
                     (lo_state existing =? OPERATION_COMMIT_STARTED) then Ok BRunning
             else if lo_state existing =? OPERATION_COMPLETED then
               o ← into_outcome existing; Ok (BReplay o)
             else Err "Invalid operation state in the state database"%string);
      Ok (res, db)
  | None =>
      let global_count := sql_count (λ _ _, true) (operations db) in
      let owner_count := sql_count (λ k _, owner_is (key_owner key) k) (operations db) in
      if (capacity lim <=? global_count) || (per_owner lim <=? owner_count) then
        Ok (BFull, db)
      else
        t ← sql_insert operation_check key (reserved_row fingerprint lease now) (operations db);
        Ok (BStarted lease, set_operations db t)
  end.

Definition begin_operation (e : Env) (key : OperationKey) (fingerprint : bytes) : W StoreBegin :=
  now ← now_ms e;
  lim ← w_limits;
  transaction e (begin_body key fingerprint (env_uuid e) lim now).

Definition status_body (key : OperationKey) (now : Z) (db : Database)
    : result string (StoreStatus * Database) :=
  let db := purge_expired db now in
  existing ← load_operation db key;
  res ← match existing with
        | Some operation =>
            if (lo_state operation =? OPERATION_RESERVED) ||
               (lo_state operation =? OPERATION_COMMIT_STARTED) then Ok SRunning
            else if lo_state operation =? OPERATION_COMPLETED then
              o ← into_outcome operation; Ok (SCompleted o)
            else Err "Invalid operation state in the state database"%string
        | None => Ok SNotFound
        end;
  Ok (res, db).

Definition operation_status (e : Env) (key : OperationKey) : W StoreStatus :=
  now ← now_ms e;
  transaction e (status_body key now).

Definition with_state (s now : Z) (r : OperationRow) : OperationRow :=
  {| or_fingerprint := or_fingerprint r; or_lease_token := or_lease_token r;
     or_state := s; or_terminal_state := or_terminal_state r;
     or_http_status := or_http_status r; or_error_code := or_error_code r;
     or_created_at_ms := or_created_at_ms r; or_updated_at_ms := now;
     or_expires_at_ms := or_expires_at_ms r |}.

Definition with_outcome (o : StoredOutcome) (now expires_at : Z) (r : OperationRow) : OperationRow :=
  {| or_fingerprint := or_fingerprint r; or_lease_token := or_lease_token r;
     or_state := OPERATION_COMPLETED;
     or_terminal_state := Some (terminal_as_i64 (so_state o));
     or_http_status := Some (so_status o); or_error_code := so_code o;
     or_created_at_ms := or_created_at_ms r; or_updated_at_ms := now;
     or_expires_at_ms := Some expires_at |}.

(** [StoredTerminalState::Unknown], [UNKNOWN_STATUS], [UNKNOWN_CODE]. *)
Definition uncertain_outcome : StoredOutcome :=
  {| so_status := UNKNOWN_STATUS; so_state := TUnknown; so_code := Some UNKNOWN_CODE |}.

(** The row the key and the lease token select, in one of the states. *)
Definition leased (key : OperationKey) (lease : bytes) (states : list Z)
    (k : StoreKey) (r : OperationRow) : bool :=
  key_is k key && (beqb (or_lease_token r) lease && bool_decide (or_state r ∈ states)).

Definition mark_body (key : OperationKey) (lease : bytes) (now : Z) (db : Database)
    : result string (bool * Database) :=
  '(changed, t) ← sql_update operation_check (leased key lease [OPERATION_RESERVED])
                    (with_state OPERATION_COMMIT_STARTED now) (operations db);
  Ok (changed =? 1, set_operations db t).

Definition mark_operation_commit_started (e : Env) (key : OperationKey) (lease : bytes) : W bool :=
  now ← now_ms e;
  transaction e (mark_body key lease now).

Definition complete_body (key : OperationKey) (lease : bytes) (outcome : StoredOutcome)
    (now expires_at : Z) (db : Database) : result string (bool * Database) :=
  '(changed, t) ← sql_update operation_check
                    (leased key lease [OPERATION_RESERVED; OPERATION_COMMIT_STARTED])
                    (with_outcome outcome now expires_at) (operations db);
  Ok (changed =? 1, set_operations db t).

Definition complete_operation (e : Env) (key : OperationKey) (lease : bytes)
    (outcome : StoredOutcome) : W bool :=
  now ← now_ms e;
  lim ← w_limits;
  expires_at ← w_lift (expiration_time now (ttl_ms lim));
  transaction e (complete_body key lease outcome now expires_at).

Definition abandon_body (key : OperationKey) (lease : bytes) (now expires_at : Z)
    (db : Database) : result string (unit * Database) :=
  let '(removed, t) := sql_delete (leased key lease [OPERATION_RESERVED]) (operations db) in
  let db := set_operations db t in
  if removed =? 0 then
    '(_, t) ← sql_update operation_check (leased key lease [OPERATION_COMMIT_STARTED])
                (with_outcome uncertain_outcome now expires_at) (operations db);
    Ok (tt, set_operations db t)
  else Ok (tt, db).

Definition abandon_operation (e : Env) (key : OperationKey) (lease : bytes) : W unit :=
  now ← now_ms e;
  lim ← w_limits;
  expires_at ← w_lift (expiration_time now (ttl_ms lim));
  transaction e (abandon_body key lease now expires_at).

(** ** The table invariant *)

(** The outcome a completed row stores. *)
Definition row_has_outcome (r : OperationRow) (o : StoredOutcome) : Prop :=
  or_terminal_state r = Some (terminal_as_i64 (so_state o)) /\
  or_http_status r = Some (so_status o) /\ or_error_code r = so_code o.

(** A row is open (reserved or committing, no outcome columns) or completed
    with a valid outcome and an expiry. *)
Definition operation_row_wf (k : StoreKey) (r : OperationRow) : Prop :=
  key_wf k /\ blen (or_fingerprint r) = 32 /\ blen (or_lease_token r) = 16 /\
  (((or_state r = OPERATION_RESERVED \/ or_state r = OPERATION_COMMIT_STARTED) /\
    or_terminal_state r = None /\ or_http_status r = None /\
    or_error_code r = None /\ or_expires_at_ms r = None) \/
   (or_state r = OPERATION_COMPLETED /\
    exists o t, row_has_outcome r o /\ outcome_wf o /\ or_expires_at_ms r = Some t)).

Definition operations_inv (lim : Limits) (db : Database) : Prop :=
  map_Forall operation_row_wf (operations db) /\
  sql_count (λ _ _, true) (operations db) <= capacity lim /\
  (forall owner, sql_count (λ k _, owner_is owner k) (operations db) <= per_owner lim).

(** ** What a call does to the table

    Each method has one of six effects on the [operations] table, at the
    store time [now]. *)

Definition purged (now : Z) (m : gmap StoreKey OperationRow) : gmap StoreKey OperationRow :=
  (sql_delete (expired_row now) m).2.

Inductive op_effect (lim : Limits) (now : Z)
  : gmap StoreKey OperationRow -> gmap StoreKey OperationRow -> Prop :=
| eff_none m : op_effect lim now m m
| eff_purge m : op_effect lim now m (purged now m)
| eff_reserve m key fp lease :
    purged now m !! key = None ->
    operation_check key (reserved_row fp lease now) = true ->
    sql_count (λ _ _, true) (purged now m) < capacity lim ->
    sql_count (λ k _, owner_is (key_owner key) k) (purged now m) < per_owner lim ->
    op_effect lim now m (<[key := reserved_row fp lease now]> (purged now m))
| eff_start m m' key lease :
    (forall k, m' !! k = (λ r, if leased key lease [OPERATION_RESERVED] k r
                               then with_state OPERATION_COMMIT_STARTED now r else r) <$> m !! k) ->
    op_effect lim now m m'
| eff_finish m m' key lease states o :
    states ⊆ [OPERATION_RESERVED; OPERATION_COMMIT_STARTED] -> outcome_wf o ->
    (forall k, m' !! k = (λ r, if leased key lease states k r
                               then with_outcome o now (now + ttl_ms lim) r else r) <$> m !! k) ->
    op_effect lim now m m'
| eff_release m key lease :
    op_effect lim now m (sql_delete (leased key lease [OPERATION_RESERVED]) m).2.

(** One call of the operation interface.  [StateStore::complete_operation]
    validates the outcome before the command is sent. *)
Inductive op_step : StoreWorker -> StoreWorker -> Prop :=
| step_begin e key fp w r w' : begin_operation e key fp w = (r, w') -> op_step w w'
| step_status e key w r w' : operation_status e key w = (r, w') -> op_step w w'
| step_mark e key lease w r w' :
    mark_operation_commit_started e key lease w = (r, w') -> op_step w w'
| step_complete e key lease o w r w' :
    validate_outcome o = Ok tt -> complete_operation e key lease o w = (r, w') -> op_step w w'
| step_abandon e key lease w r w' : abandon_operation e key lease w = (r, w') -> op_step w w'.

(** The other tables, the limits and the deferred queue are untouched and the
    clock moves forward. *)
Definition op_frame (w w' : StoreWorker) : Prop :=
  same_frame w w' /\ upload_sessions (connection w') = upload_sessions (connection w) /\
  purge_jobs (connection w') = purge_jobs (connection w).

Definition op_result (w w' : StoreWorker) : Prop :=
  op_frame w w' /\
  op_effect (limits w) (last_ms (clock w')) (operations (connection w)) (operations (connection w')).

Lemma op_result_none w w' :
  connection w' = connection w -> same_frame w w' -> op_result w w'.
Proof. intros Hc Hf. split; [|rewrite Hc; constructor]. unfold op_frame. by rewrite Hc. Qed.

Lemma uncertain_outcome_wf : outcome_wf uncertain_outcome.
Proof. apply validate_outcome_Ok. vm_compute. reflexivity. Qed.

Lemma begin_effect e key fp w r w' : begin_operation e key fp w = (r, w') -> op_result w w'.
Proof.
  intros H. apply (timed_transaction_plain e (begin_body key fp (env_uuid e))) in H
    as [(Hc & Hf & _)|(a & db & -> & H & Hdb & Hf)]; [by apply op_result_none|].
  unfold op_result, op_frame. rewrite Hdb. set (now := last_ms (clock w')) in *.
  apply bind_Ok in H as ([ex|] & Hload & H).
  - apply bind_Ok in H as (b & _ & [=_ <-]). split; [done|]. apply eff_purge.
  - cbv zeta in H. destruct (_ || _) eqn:Hfull; [injection H as _ <-; split; [done|apply eff_purge]|].
    bool_prop. apply bind_Ok in H as (t & Ht & [=_ <-]).
    apply sql_insert_Ok in Ht as (Hk & Hck & ->). split; [done|].
    by apply eff_reserve.
Qed.

Lemma status_effect e key w r w' : operation_status e key w = (r, w') -> op_result w w'.
Proof.
  intros H. apply (timed_transaction_nolim e (status_body key)) in H
    as [(Hc & Hf & _)|(a & db & -> & H & Hdb & Hf)]; [by apply op_result_none|].
  unfold op_result, op_frame. rewrite Hdb.
  apply bind_Ok in H as (ex & _ & H). apply bind_Ok in H as (b & _ & [=_ <-]).
  split; [done|apply eff_purge].
Qed.

Lemma mark_effect e key lease w r w' :
  mark_operation_commit_started e key lease w = (r, w') -> op_result w w'.
Proof.
  intros H. apply (timed_transaction_nolim e (mark_body key lease)) in H
    as [(Hc & Hf & _)|(a & db & -> & H & Hdb & Hf)]; [by apply op_result_none|].
  unfold op_result, op_frame. rewrite Hdb.
  apply bind_Ok in H as ([n t] & Ht & [=_ <-]).
  apply sql_update_Ok in Ht as (_ & Hl & _).
  split; [done|by apply (eff_start _ _ _ _ key lease)].
Qed.

Lemma complete_effect e key lease o w r w' :
  validate_outcome o = Ok tt -> complete_operation e key lease o w = (r, w') -> op_result w w'.
Proof.
  intros Hv%validate_outcome_Ok H. apply (timed_transaction e _ (λ _ now x, complete_body key lease o now x)) in H
    as [(Hc & Hf & _)|(x & a & db & -> & Hx & H & Hdb & Hf)]; [by apply op_result_none|].
  unfold op_result, op_frame. rewrite Hdb.
  apply ok_or_Ok in Hx. apply i64_try_from_Some in Hx as [-> _].
  apply bind_Ok in H as ([n t] & Ht & [=_ <-]).
  apply sql_update_Ok in Ht as (_ & Hl & _).
  split; [done|].
  by apply (eff_finish _ _ _ _ key lease [OPERATION_RESERVED; OPERATION_COMMIT_STARTED] o).
Qed.

Lemma abandon_effect e key lease w r w' :
  abandon_operation e key lease w = (r, w') -> op_result w w'.
Proof.
  intros H. apply (timed_transaction e _ (λ _ now x, abandon_body key lease now x)) in H
    as [(Hc & Hf & _)|(x & a & db & -> & Hx & H & Hdb & Hf)]; [by apply op_result_none|].
  unfold op_result, op_frame. rewrite Hdb.
  apply ok_or_Ok in Hx. apply i64_try_from_Some in Hx as [-> _].
  unfold abandon_body in H. cbn [sql_delete] in H. destruct (_ =? 0) eqn:Hrm in H; bool_prop.
  2:{ injection H as _ <-. split; [done|]. apply eff_release. }
  apply bind_Ok in H as ([n t] & Ht & [=_ <-]).
  apply sql_update_Ok in Ht as (_ & Hl & _). split; [done|].
  apply (eff_finish _ _ _ _ key lease [OPERATION_COMMIT_STARTED] uncertain_outcome).
  - intros s Hs. by right.
  - apply uncertain_outcome_wf.
  - intros k. cbn [operations set_operations] in *. rewrite (Hl k).
    change (filter _ _) with (sql_delete (leased key lease [OPERATION_RESERVED])
      (operations (connection w))).2.
    rewrite lookup_sql_delete. destruct (operations (connection w) !! k) as [row|] eqn:Hk; [|done].
    destruct (leased key lease [OPERATION_RESERVED] k row) eqn:Hr; [|done].
    exfalso. unfold leased in Hr, Hrm. rewrite sql_count_one in Hrm. unfold key_is in Hr.
    bool_prop. subst k. rewrite Hk in Hrm. 
    rewrite (proj2 (andb_true_iff _ _)) in Hrm; [done|].
    split; [done|by apply bool_decide_eq_true].
Qed.

Lemma op_step_result w w' : op_step w w' -> op_result w w'.
Proof.
  destruct 1; eauto using begin_effect, status_effect, mark_effect, complete_effect, abandon_effect.
Qed.

(** ** The invariant is preserved *)

Lemma reserved_row_wf key fp lease now :
  operation_check key (reserved_row fp lease now) = true ->
  operation_row_wf key (reserved_row fp lease now).
Proof.
  intros H. unfold operation_check in H. cbn [reserved_row or_fingerprint or_lease_token] in H.
  bool_prop. unfold operation_row_wf, key_wf. cbn. repeat split; try done.
  left. repeat split; auto.
Qed.

Lemma leased_true key lease states k r :
  leased key lease states k r = true <->
  k = key /\ or_lease_token r = lease /\ or_state r ∈ states.
Proof.
  unfold leased, key_is. rewrite !andb_true_iff, !bool_decide_eq_true, beqb_true. naive_solver.
Qed.

Lemma with_state_wf key now r :
  operation_row_wf key r -> or_state r = OPERATION_RESERVED ->
  operation_row_wf key (with_state OPERATION_COMMIT_STARTED now r).
Proof.
  intros (Hk & Hf & Hl & [(Hs & Hr)|(Hs & _)]) Hres; [|rewrite Hres in Hs; discriminate Hs].
  unfold operation_row_wf; cbn. repeat split; try apply Hk; try done. left. auto.
Qed.

Lemma with_outcome_wf key o now t r :
  operation_row_wf key r -> outcome_wf o -> operation_row_wf key (with_outcome o now t r).
Proof.
  intros (Hk & Hf & Hl & _) Ho. unfold operation_row_wf; cbn.
  repeat split; try apply Hk; try done. right. split; [done|].
  exists o, t. split; [by repeat split|]. by split.
Qed.

Lemma effect_wf lim now m m' :
  op_effect lim now m m' -> map_Forall operation_row_wf m -> map_Forall operation_row_wf m'.
Proof.
  assert (Hdel : forall P m, map_Forall operation_row_wf m ->
    map_Forall operation_row_wf (sql_delete P m).2).
  { intros P t Ht k r Hk. rewrite lookup_sql_delete in Hk.
    destruct (t !! k) eqn:Hl; [|done]. case_match; [done|]. injection Hk as <-. eauto. }
  destruct 1 as [m|m|m key fp lease Hk Hc _ _|m m' key lease Hl|m m' key lease st o Hst Ho Hl|m key lease];
    intros Hm; [done|by apply Hdel| | | |by apply Hdel].
  - apply map_Forall_insert_2; [by apply reserved_row_wf|by apply Hdel].
  - intros k r Hk. rewrite Hl in Hk. apply fmap_Some in Hk as (r0 & Hr0 & ->).
    destruct (leased _ _ _ _ r0) eqn:Hle; [|eauto].
    apply leased_true in Hle as (-> & _ & Hs%list_elem_of_singleton).
    apply with_state_wf; eauto.
  - intros k r Hk. rewrite Hl in Hk. apply fmap_Some in Hk as (r0 & Hr0 & ->).
    destruct (leased _ _ _ _ r0) eqn:Hle; [|eauto]. apply with_outcome_wf; eauto.
Qed.

(** Adding one key adds at most one row to every count. *)
Lemma effect_count lim now m m' (p : StoreKey -> bool) bound :
  op_effect lim now m m' ->
  sql_count (λ k _, p k) m <= bound ->
  (forall key, p key = true ->
     sql_count (λ _ _, true) (purged now m) < capacity lim ->
     sql_count (λ k _, owner_is (key_owner key) k) (purged now m) < per_owner lim ->
     sql_count (λ k _, p k) (purged now m) < bound) ->
  sql_count (λ k _, p k) m' <= bound.
Proof.
  destruct 1 as [m|m|m key fp lease Hk Hc Hg Ho|m m' key lease Hl|m m' key lease st o Hst Ho Hl|m key lease];
    intros Hm Hlt.
  - done.
  - pose proof (sql_count_subset p m (purged now m) (dom_sql_delete _ m)). lia.
  - pose proof (sql_count_subset p m (purged now m) (dom_sql_delete _ m)).
    rewrite sql_count_insert by done. destruct (p key) eqn:Hp; [|lia].
    specialize (Hlt key Hp Hg Ho). lia.
  - rewrite sql_count_key, (dom_fmap_update m m' _ Hl), <- sql_count_key. done.
  - rewrite sql_count_key, (dom_fmap_update m m' _ Hl), <- sql_count_key. done.
  - pose proof (sql_count_subset p m _ (dom_sql_delete (leased key lease [OPERATION_RESERVED]) m)).
    cbn in *. lia.
Qed.

Lemma effect_inv lim now db db' :
  op_effect lim now (operations db) (operations db') ->
  operations_inv lim db -> operations_inv lim db'.
Proof.
  intros He (Hwf & Hg & Ho). split; [by eapply effect_wf|]. split.
  - by eapply (effect_count lim now _ _ (λ _, true)).
  - intros owner. eapply (effect_count lim now _ _ (owner_is owner)); [done|apply Ho|].
    intros key Hkey _ Hlt. unfold owner_is in Hkey. apply beqb_true in Hkey. by subst.
Qed.

Lemma op_steps_frame w w' : rtc op_step w w' -> op_frame w w'.
Proof.
  induction 1 as [w|w1 w2 w3 H _ IH]; [by repeat split|].
  destruct (op_step_result _ _ H) as [(? & Hu & Hp) _]. destruct IH as (? & Hu' & Hp').
  split; [by etrans|]. split; congruence.
Qed.

Lemma op_steps_inv w w' :
  rtc op_step w w' -> operations_inv (limits w) (connection w) ->
  operations_inv (limits w') (connection w').
Proof.
  induction 1 as [w|w1 w2 w3 H _ IH]; [done|]. intros Hinv. apply IH.
  destruct (op_step_result _ _ H) as [((Hlim & _) & _) He]. rewrite Hlim.
  by eapply effect_inv.
Qed.

Lemma operations_inv_empty lim :
  0 <= capacity lim -> 0 <= per_owner lim -> operations_inv lim empty_database.
Proof.
  intros Hc Hp. split; [apply map_Forall_empty|]. split; [done|]. intros owner. done.
Qed.

(** Every reachable [operations] table is well formed and within its
    limits.  Starting from an empty store with non-negative limits, any
    sequence of calls - including failing ones - keeps every row either open
    with no outcome columns or completed with a valid outcome and an expiry,
    and never exceeds the global or the per-owner capacity. *)
Theorem operations_table_invariant w w' :
  operations (connection w) = ∅ -> 0 <= capacity (limits w) -> 0 <= per_owner (limits w) ->
  rtc op_step w w' -> operations_inv (limits w') (connection w').
Proof.
  intros He Hc Hp Hsteps. apply (op_steps_inv _ _ Hsteps).
  destruct (operations_inv_empty (limits w) Hc Hp) as (H1 & H2 & H3).
  unfold operations_inv. rewrite He. done.
Qed.

(** ** A concrete store *)

Definition demo_fp : bytes := bs "fingerprint-of-thirty-two-bytes!".
Definition demo_success : StoredOutcome :=
  {| so_status := 201; so_state := TSucceeded; so_code := None |}.

(** The demo store after a reservation, and after the commit started. *)
Definition demo_reserved : StoreWorker := (begin_operation (demo_env 0) demo_key demo_fp demo_worker).2.
Definition demo_committing : StoreWorker :=
  (mark_operation_commit_started (demo_env 1) demo_key demo_lease demo_reserved).2.
Definition demo_done : StoreWorker :=
  (complete_operation (demo_env 2) demo_key demo_lease demo_success demo_committing).2.

Lemma demo_steps : rtc op_step demo_worker demo_done.
Proof.
  eapply rtc_l; [eapply (step_begin (demo_env 0) demo_key demo_fp), surjective_pairing|].
  eapply rtc_l; [eapply (step_mark (demo_env 1) demo_key demo_lease), surjective_pairing|].
  apply rtc_once. eapply (step_complete (demo_env 2) demo_key demo_lease demo_success);
    [vm_compute; reflexivity|apply surjective_pairing].
Qed.

Lemma operations_table_invariant_witness :
  rtc op_step demo_worker demo_done /\ size (operations (connection demo_done)) = 1%nat /\
  operations_inv (limits demo_done) (connection demo_done).
Proof.
  split; [exact demo_steps|]. split; [vm_compute; reflexivity|].
  apply (operations_table_invariant demo_worker demo_done); [reflexivity|cbn; lia|cbn; lia|].
  exact demo_steps.
Defined.
