(* ===== verification/OperationLifecycle.v ===== *)
(** The life cycle of an idempotency record: an abstract state machine per
    operation key, the proof that every call of [Operations] refines it, and
    what the machine guarantees to callers - exactly-once reservation, lease
    fencing, replay of the recorded outcome, and the meaning of abandoning. *)

From S2P Require Import Prelude Bytes StdPath StoreModel Database StoreWorker Operations.
From stdpp Require Import base numbers list gmap strings sorting.
From Stdlib Require Import Ascii.

Local Open Scope Z_scope.

(** ** The abstract machine *)

Inductive OpState :=
| Absent
| Reserved (fp lease : bytes)
| Committing (fp lease : bytes)
| Done (fp lease : bytes) (o : StoredOutcome) (expires_at : Z).

Inductive spec_step (now ttl : Z) : OpState -> OpState -> Prop :=
| sp_reserve fp lease : spec_step now ttl Absent (Reserved fp lease)
| sp_start fp lease : spec_step now ttl (Reserved fp lease) (Committing fp lease)
| sp_release fp lease : spec_step now ttl (Reserved fp lease) Absent
| sp_finish_early fp lease o :
    outcome_wf o -> spec_step now ttl (Reserved fp lease) (Done fp lease o (now + ttl))
| sp_finish fp lease o :
    outcome_wf o -> spec_step now ttl (Committing fp lease) (Done fp lease o (now + ttl))
| sp_expire fp lease o t : t <= now -> spec_step now ttl (Done fp lease o t) Absent.

(** The abstract state of a row. *)
Definition row_outcome (r : OperationRow) : StoredOutcome :=
  {| so_status := default 0 (or_http_status r);
     so_state := match or_terminal_state r with
                 | Some 0 => TSucceeded | Some 1 => TFailed | _ => TUnknown end;
     so_code := or_error_code r |}.

Definition row_view (r : OperationRow) : OpState :=
  if or_state r =? OPERATION_RESERVED then Reserved (or_fingerprint r) (or_lease_token r)
  else if or_state r =? OPERATION_COMMIT_STARTED then Committing (or_fingerprint r) (or_lease_token r)
  else Done (or_fingerprint r) (or_lease_token r) (row_outcome r) (default 0 (or_expires_at_ms r)).

Definition table_view (m : gmap StoreKey OperationRow) (k : StoreKey) : OpState :=
  match m !! k with Some r => row_view r | None => Absent end.

Definition op_view (w : StoreWorker) (k : StoreKey) : OpState :=
  table_view (operations (connection w)) k.

Lemma row_outcome_eq r o : row_has_outcome r o -> row_outcome r = o.
Proof.
  intros (H1 & H2 & H3). unfold row_outcome. rewrite H1, H2, H3. by destruct o as [? [] ?].
Qed.

Lemma with_outcome_view o now t r :
  row_view (with_outcome o now t r) = Done (or_fingerprint r) (or_lease_token r) o t.
Proof.
  unfold row_view. cbn. f_equal. apply row_outcome_eq. by repeat split.
Qed.

(** ** Refinement *)

Lemma purged_view now ttl m k :
  map_Forall operation_row_wf m -> rtc (spec_step now ttl) (table_view m k) (table_view (purged now m) k).
Proof.
  intros Hwf. unfold table_view, purged. rewrite lookup_sql_delete.
  destruct (m !! k) as [r|] eqn:Hk; [|done]. destruct (expired_row now k r) eqn:He; [|done].
  unfold expired_row in He. bool_prop. apply rtc_once. unfold row_view.
  match goal with H : or_state r = _ |- _ => rewrite H end. cbn.
  destruct (or_expires_at_ms r) as [t|]; [|done]. bool_prop. by apply sp_expire.
Qed.

Lemma effect_refines lim now m m' k :
  op_effect lim now m m' -> map_Forall operation_row_wf m ->
  rtc (spec_step now (ttl_ms lim)) (table_view m k) (table_view m' k).
Proof.
  destruct 1 as [m|m|m key fp lease Hk Hc Hg Ho|m m' key lease Hl|m m' key lease st o Hst Ho Hl|m key lease];
    intros Hwf; [done|by apply purged_view| | | |].
  - etrans; [by apply purged_view|]. unfold table_view at 1 2.
    destruct (decide (key = k)) as [->|Hne]; [|by rewrite lookup_insert_ne].
    rewrite Hk, lookup_insert_eq. apply rtc_once. apply sp_reserve.
  - unfold table_view. rewrite Hl. destruct (m !! k) as [r|] eqn:Hr; [|done]. cbn.
    destruct (leased _ _ _ k r) eqn:Hle; [|done].
    apply leased_true in Hle as (_ & _ & Hs%list_elem_of_singleton).
    apply rtc_once. unfold row_view. rewrite Hs. apply sp_start.
  - unfold table_view. rewrite Hl. destruct (m !! k) as [r|] eqn:Hr; [|done]. cbn.
    destruct (leased _ _ _ k r) eqn:Hle; [|done].
    apply leased_true in Hle as (_ & _ & Hs%Hst).
    rewrite with_outcome_view. apply rtc_once. unfold row_view.
    apply elem_of_cons in Hs as [-> | ->%list_elem_of_singleton]; cbn;
      [by apply sp_finish_early|by apply sp_finish].
  - unfold table_view. rewrite lookup_sql_delete. destruct (m !! k) as [r|] eqn:Hr; [|done].
    destruct (leased _ _ _ k r) eqn:Hle; [|done].
    apply leased_true in Hle as (_ & _ & Hs%list_elem_of_singleton).
    apply rtc_once. unfold row_view. rewrite Hs. apply sp_release.
Qed.

(** C23: the durable table refines the abstract life cycle: every call, for
    every key, takes the key's state along allowed transitions only
    (reserve, start commit, finish with a valid outcome, release a
    reservation that did not start to commit, expire a finished record whose
    time has come), and to the same state when the call fails. *)
Theorem operations_refine_lifecycle w w' k :
  op_step w w' -> operations_inv (limits w) (connection w) ->
  rtc (spec_step (last_ms (clock w')) (ttl_ms (limits w))) (op_view w k) (op_view w' k).
Proof.
  intros H (Hwf & _). destruct (op_step_result _ _ H) as [_ He]. by eapply effect_refines.
Qed.

(** ** Protection of a commit *)

(** A key is protected until [t]: its record is committing, or finished and
    not expired before [t]. *)
Definition protected_until (t : Z) (s : OpState) : Prop :=
  match s with
  | Committing _ _ => True
  | Done _ _ _ exp => t <= exp
  | _ => False
  end.

Lemma spec_steps_protected now ttl t s s' :
  rtc (spec_step now ttl) s s' -> now < t -> t <= now + ttl ->
  protected_until t s -> protected_until t s'.
Proof.
  intros Hs Hnow Ht. induction Hs as [s|s1 s2 s3 H _ IH]; [done|].
  intros Hp. apply IH. destruct H; cbn in *; lia || done.
Qed.

Lemma op_steps_protected w w' k t :
  rtc op_step w w' -> operations_inv (limits w) (connection w) ->
  t <= last_ms (clock w) + ttl_ms (limits w) ->
  last_ms (clock w') < t ->
  protected_until t (op_view w k) -> protected_until t (op_view w' k).
Proof.
  induction 1 as [w|w1 w2 w3 H Hrest IH]; [done|]. intros Hinv Ht Hlt Hp.
  pose proof (op_steps_frame _ _ Hrest) as ((_ & _ & Hm3) & _ & _).
  pose proof (op_step_result _ _ H) as [((Hlim & _ & Hm2) & _) He].
  apply IH; [| |done|].
  - rewrite Hlim. by eapply effect_inv.
  - rewrite Hlim. lia.
  - eapply spec_steps_protected; [by eapply effect_refines, Hinv|lia|lia|done].
Qed.

Lemma begin_started_view e key fp w lease w' :
  begin_operation e key fp w = (Ok (BStarted lease), w') ->
  purged (last_ms (clock w')) (operations (connection w)) !! key = None.
Proof.
  intros H. apply (timed_transaction_plain e (begin_body key fp (env_uuid e))) in H
    as [(_ & _ & ? & [=])|(a & db & [=<-] & H & _ & _)].
  apply bind_Ok in H as ([ex|] & Hload & H).
  - apply bind_Ok in H as (b & Hb & [=-> _]).
    destruct (negb _) in Hb; [done|]. destruct (_ || _) in Hb; [done|].
    destruct (_ =? _) in Hb; [|done]. by apply bind_Ok in Hb as (? & _ & [=]).
  - apply transpose_Ok_None in Hload. by apply fmap_None in Hload.
Qed.

(** An operation that started to commit is never started a second time
    before its result has been kept for the full retention time.  From the
    moment a key's record is in the commit-started state, however calls and
    failures interleave, a later [begin_operation] for the key can answer
    [Started] only once the store clock has advanced by the result TTL. *)
Theorem commit_started_not_restarted w w1 k e fp lease w2 fp0 lease0 :
  operations_inv (limits w) (connection w) ->
  op_view w k = Committing fp0 lease0 ->
  rtc op_step w w1 ->
  begin_operation e k fp w1 = (Ok (BStarted lease), w2) ->
  last_ms (clock w) + ttl_ms (limits w) <= last_ms (clock w2).
Proof.
  intros Hinv Hv Hsteps Hb. set (t := last_ms (clock w) + ttl_ms (limits w)).
  destruct (Z.le_gt_cases t (last_ms (clock w2))) as [|Hlt]; [done|exfalso].
  pose proof (begin_effect _ _ _ _ _ _ Hb) as [((_ & _ & Hmono) & _) _].
  assert (protected_until t (op_view w1 k)) as Hp.
  { eapply op_steps_protected; [done..|lia|lia|]. by rewrite Hv. }
  apply begin_started_view in Hb. revert Hp Hb. unfold op_view, table_view, purged.
  rewrite lookup_sql_delete. destruct (operations (connection w1) !! k) as [r|]; [|done].
  unfold row_view, expired_row.
  destruct (or_state r =? OPERATION_RESERVED) eqn:H0; [done|].
  destruct (or_state r =? OPERATION_COMMIT_STARTED) eqn:H1.
  - bool_prop. intros _. rewrite H1. done.
  - cbn. intros Hp. destruct (or_state r =? OPERATION_COMPLETED); [|done].
    destruct (or_expires_at_ms r) as [x|]; [|done]. cbn in *.
    destruct (x <=? _) eqn:?; [bool_prop; lia|done].
Qed.

(** ** Functional behaviour of the calls *)

(** The record a call at time [now] sees: expired results are gone. *)
Definition live_view (w : StoreWorker) (now : Z) (k : StoreKey) : OpState :=
  table_view (purged now (operations (connection w))) k.

Lemma live_view_eq w now k :
  operations_inv (limits w) (connection w) ->
  live_view w now k = match op_view w k with
                      | Done fp l o t => if t <=? now then Absent else Done fp l o t
                      | s => s
                      end.
Proof.
  intros (Hwf & _). unfold live_view, op_view, table_view, purged. rewrite lookup_sql_delete.
  destruct (operations (connection w) !! k) as [r|] eqn:Hk; [|done].
  destruct (Hwf k r Hk) as (_ & _ & _ & [(Hs & _ & _ & _ & Hn)|(Hs & o & t & Ho & _ & Ht)]).
  - assert (expired_row now k r = false) as ->.
    { unfold expired_row. by destruct Hs as [-> | ->]. }
    unfold row_view. by destruct Hs as [-> | ->].
  - assert (expired_row now k r = (t <=? now)) as ->.
    { unfold expired_row. by rewrite Hs, Ht. }
    unfold row_view. rewrite Hs, Ht. cbn. destruct (t <=? now); [done|].
    by rewrite Hs, Ht.
Qed.

Lemma load_operation_live now db k :
  map_Forall operation_row_wf (operations db) ->
  load_operation (purge_expired db now) k =
    Ok ((λ r, {| lo_fingerprint := or_fingerprint r; lo_state := or_state r;
                 lo_terminal_state := or_terminal_state r; lo_http_status := or_http_status r;
                 lo_code := or_error_code r |}) <$> purged now (operations db) !! k).
Proof.
  intros Hwf. unfold load_operation.
  change (operations (purge_expired db now)) with (purged now (operations db)).
  destruct (purged now (operations db) !! k) as [r|] eqn:Hk; [|done]. cbn.
  unfold purged in Hk. rewrite lookup_sql_delete in Hk.
  destruct (operations db !! k) as [r'|] eqn:Hk'; [|done]. case_match; [done|].
  injection Hk as ->. destruct (Hwf k r Hk') as (_ & Hf & _). unfold array_try_from.
  by rewrite (proj2 (Z.eqb_eq _ _) Hf).
Qed.

Lemma into_outcome_row r o :
  row_has_outcome r o -> outcome_wf o ->
  into_outcome {| lo_fingerprint := or_fingerprint r; lo_state := or_state r;
                  lo_terminal_state := or_terminal_state r; lo_http_status := or_http_status r;
                  lo_code := or_error_code r |} = Ok o.
Proof.
  intros (H1 & H2 & H3) Ho. unfold into_outcome. cbn [lo_terminal_state lo_http_status lo_code].
  rewrite H1, H2, H3. cbn [ok_or mbind result_bind].
  assert (u16_try_from (so_status o) = Some (so_status o)) as ->.
  { apply u16_try_from_Some. split; [done|]. destruct Ho as [Ho _]. unfold u16_max. lia. }
  cbn [ok_or]. rewrite terminal_database_roundtrip. cbn [mbind result_bind]. cbv zeta.
  assert (mkOutcome (so_status o) (so_state o) (so_code o) = o) as -> by by destruct o.
  by rewrite (proj2 (validate_outcome_Ok o) Ho).
Qed.

(** What [begin_operation] answers for a live record. *)
Definition begin_answer (fp : bytes) (s : OpState) : option StoreBegin :=
  match s with
  | Absent => None
  | Reserved fp' _ | Committing fp' _ => Some (if beqb fp' fp then BRunning else BConflict)
  | Done fp' _ o _ => Some (if beqb fp' fp then BReplay o else BConflict)
  end.

Lemma live_row w now k :
  operations_inv (limits w) (connection w) ->
  match purged now (operations (connection w)) !! k with
  | Some r => live_view w now k = row_view r /\ operation_row_wf k r
  | None => live_view w now k = Absent
  end.
Proof.
  intros (Hwf & _). unfold live_view, table_view.
  destruct (purged now _ !! k) as [r|] eqn:Hk; [|done]. split; [done|].
  unfold purged in Hk. rewrite lookup_sql_delete in Hk.
  destruct (operations (connection w) !! k) as [r'|] eqn:Hk'; [|done]. case_match; [done|].
  injection Hk as ->. by apply Hwf.
Qed.

Lemma reserved_row_check key fp lease now :
  key_wf key -> blen fp = 32 -> blen lease = 16 ->
  operation_check key (reserved_row fp lease now) = true.
Proof.
  intros [Ho Hi] Hf Hl. unfold operation_check. cbn [reserved_row or_fingerprint or_lease_token].
  by rewrite Ho, Hi, Hf, Hl.
Qed.

Lemma begin_body_runs w now key fp lease :
  operations_inv (limits w) (connection w) ->
  key_wf key -> blen fp = 32 -> blen lease = 16 ->
  exists b db, begin_body key fp lease (limits w) now (connection w) = Ok (b, db) /\
    match begin_answer fp (live_view w now key) with
    | Some answer => b = answer /\ table_view (operations db) key = live_view w now key
    | None => (b = BStarted lease /\ table_view (operations db) key = Reserved fp lease) \/
              (b = BFull /\ table_view (operations db) key = Absent)
    end.
Proof.
  intros Hinv Hkey Hfp Hlease. pose proof (live_row w now key Hinv) as Hlive.
  unfold begin_body. rewrite load_operation_live by apply Hinv.
  change (operations (purge_expired (connection w) now))
    with (purged now (operations (connection w))).
  change (table_view (purged now (operations (connection w))) key) with (live_view w now key).
  destruct (purged now (operations (connection w)) !! key) as [r|] eqn:Hr; cbn [fmap option_fmap option_map mbind result_bind].
  - destruct Hlive as [Hv (_ & _ & _ & Hwf)]. cbn [lo_fingerprint lo_state].
    enough (exists b, begin_answer fp (row_view r) = Some b /\
      (if negb (beqb (or_fingerprint r) fp) then Ok BConflict
       else if (or_state r =? OPERATION_RESERVED) || (or_state r =? OPERATION_COMMIT_STARTED)
       then Ok BRunning
       else if or_state r =? OPERATION_COMPLETED then
         o ← into_outcome {| lo_fingerprint := or_fingerprint r; lo_state := or_state r;
               lo_terminal_state := or_terminal_state r; lo_http_status := or_http_status r;
               lo_code := or_error_code r |}; Ok (BReplay o)
       else Err "Invalid operation state in the state database"%string) = Ok b) as (b & Hans & Hb).
    { rewrite Hb. exists b. eexists. split; [done|]. rewrite Hv, Hans. split; [done|exact Hv]. }
    unfold row_view. destruct Hwf as [(Hs & _)|(Hs & o & t & Ho & Howf & _)].
    + destruct Hs as [-> | ->]; cbn; destruct (beqb (or_fingerprint r) fp); eauto.
    + rewrite (into_outcome_row r o Ho Howf), (row_outcome_eq r o Ho), Hs. cbn.
      destruct (beqb (or_fingerprint r) fp); eauto.
  - rewrite Hlive. cbn [begin_answer].
    destruct (_ || _); [eexists _, _; split; [done|]; right; split; [done|]; exact Hlive|].
    unfold sql_insert. rewrite Hr, reserved_row_check by done. cbn.
    eexists _, _. split; [done|]. left. split; [done|].
    unfold table_view. cbn [operations set_operations]. by rewrite lookup_insert_eq.
Qed.

Lemma begin_run e w key fp :
  operations_inv (limits w) (connection w) -> env_ok e w ->
  key_wf key -> blen fp = 32 -> blen (env_uuid e) = 16 ->
  exists b w', begin_operation e key fp w = (Ok b, w') /\
    match begin_answer fp (live_view w (env_now e w) key) with
    | Some answer => b = answer /\ op_view w' key = live_view w (env_now e w) key
    | None => (b = BStarted (env_uuid e) /\ op_view w' key = Reserved fp (env_uuid e)) \/
              (b = BFull /\ op_view w' key = Absent)
    end.
Proof.
  intros Hinv He Hkey Hfp Huuid.
  destruct (begin_body_runs w (env_now e w) key fp (env_uuid e)) as (b & db & Hrun & Hres);
    [done..|].
  destruct (timed_run_plain e (begin_body key fp (env_uuid e)) w b db He Hrun)
    as (w' & Hw & Hdb & _). exists b, w'. split; [exact Hw|].
  unfold op_view. by rewrite Hdb.
Qed.

(** [begin_operation] decides by the live record of the key, totally: a
    record of another request is a conflict, an open one is running, a
    finished one replays the recorded outcome, and without a record the key is
    reserved under the fresh lease unless the global or the owner's capacity
    is exhausted.  Whenever the clock and SQLite work, it returns one of
    these. *)
Theorem begin_operation_decides e w key fp :
  operations_inv (limits w) (connection w) -> env_ok e w ->
  key_wf key -> blen fp = 32 -> blen (env_uuid e) = 16 ->
  exists b w', begin_operation e key fp w = (Ok b, w') /\
    match live_view w (env_now e w) key with
    | Absent =>
        let m := purged (env_now e w) (operations (connection w)) in
        if (capacity (limits w) <=? sql_count (λ _ _, true) m) ||
           (per_owner (limits w) <=? sql_count (λ k _, owner_is (key_owner key) k) m)
        then b = BFull /\ op_view w' key = Absent
        else b = BStarted (env_uuid e) /\ op_view w' key = Reserved fp (env_uuid e)
    | Reserved fp' _ | Committing fp' _ => b = if beqb fp' fp then BRunning else BConflict
    | Done fp' _ o _ => b = if beqb fp' fp then BReplay o else BConflict
    end.
Proof.
  intros Hinv He Hkey Hfp Huuid. destruct (begin_run e w key fp) as (b & w' & Hb & Hres); [done..|].
  exists b, w'. split; [done|].
  destruct (live_view w (env_now e w) key) eqn:Hlive; cbn in Hres; try apply Hres.
  pose proof (live_row w (env_now e w) key Hinv) as Hrow. rewrite Hlive in Hrow.
  destruct (purged _ _ !! key) as [r|] eqn:Hr.
  { destruct Hrow as [Hrow _]. unfold row_view in Hrow. by repeat case_match. }
  destruct (now_ms_ok e w He) as (w1 & Hn & Hc & Hl & _). revert Hb.
  unfold begin_operation. cbv [mbind W_bind w_limits]. rewrite Hn, Hl. unfold transaction.
  rewrite (proj1 He), Hc. unfold begin_body. rewrite load_operation_live by apply Hinv.
  rewrite Hr. cbn [fmap option_fmap option_map mbind result_bind]. cbv zeta.
  change (operations (purge_expired (connection w) (env_now e w)))
    with (purged (env_now e w) (operations (connection w))).
  destruct (_ || _); [intros [= <- <-]; naive_solver|].
  unfold sql_insert. rewrite Hr, reserved_row_check by done. cbn. intros [= <- <-]. naive_solver.
Qed.

(** ** Results are replayed until they expire *)

Lemma spec_steps_done now ttl fp l o t s' :
  rtc (spec_step now ttl) (Done fp l o t) s' -> now < t -> s' = Done fp l o t.
Proof.
  intros Hs Hlt. remember (Done fp l o t) as s eqn:E.
  induction Hs as [s|s1 s2 s3 H _ IH]; [done|].
  subst s1. inversion H; subst. lia.
Qed.

Lemma op_steps_done w w' k fp l o t :
  rtc op_step w w' -> operations_inv (limits w) (connection w) ->
  op_view w k = Done fp l o t -> last_ms (clock w') < t -> op_view w' k = Done fp l o t.
Proof.
  induction 1 as [w|w1 w2 w3 H Hrest IH]; [done|]. intros Hinv Hv Hlt.
  pose proof (op_steps_frame _ _ Hrest) as ((_ & _ & Hm3) & _ & _).
  pose proof (op_step_result _ _ H) as [((Hlim & _ & Hm2) & _) He].
  apply IH; [rewrite Hlim; by eapply effect_inv| |done].
  eapply spec_steps_done; [|instantiate (1 := last_ms (clock w2)); lia].
  instantiate (1 := ttl_ms (limits w1)). rewrite <- Hv. eapply effect_refines; [done|apply Hinv].
Qed.

Lemma complete_true_view e k l o w w1 :
  operations_inv (limits w) (connection w) -> complete_operation e k l o w = (Ok true, w1) ->
  exists fp, op_view w1 k = Done fp l o (last_ms (clock w1) + ttl_ms (limits w1)) /\
    (op_view w k = Reserved fp l \/ op_view w k = Committing fp l).
Proof.
  intros [Hwf _] H.
  apply (timed_transaction e _ (λ _ now x, complete_body k l o now x)) in H
    as [(_ & _ & ? & [=])|(x & a & db & [=<-] & Hx & H & Hdb & (Hlim & _))].
  apply ok_or_Ok in Hx. apply i64_try_from_Some in Hx as [-> _].
  apply bind_Ok in H as ([n t] & Ht & [=Hn <-]). apply Z.eqb_eq in Hn as ->.
  apply sql_update_Ok in Ht as (Hcount & Hl & _). unfold op_view. rewrite Hdb, Hlim.
  unfold leased in Hcount. rewrite sql_count_one in Hcount.
  destruct (operations (connection w) !! k) as [r|] eqn:Hr; [|done].
  destruct (beqb _ _ && _) eqn:Hle; [|done].
  exists (or_fingerprint r). unfold table_view. cbn [operations set_operations]. rewrite Hl, Hr.
  cbn [fmap option_fmap option_map]. unfold leased, key_is. rewrite Hle, bool_decide_eq_true_2 by done.
  cbn [andb]. rewrite with_outcome_view. bool_prop.
  match goal with H : beqb _ _ = true |- _ => apply beqb_true in H end.
  split; [by subst l|]. unfold row_view.
  match goal with H : _ ∈ _ |- _ =>
    apply elem_of_cons in H as [-> | ->%list_elem_of_singleton] end; subst l; auto.
Qed.

Lemma view_present_key_wf w k :
  operations_inv (limits w) (connection w) -> op_view w k <> Absent -> key_wf k.
Proof.
  intros [Hwf _]. unfold op_view, table_view.
  destruct (operations (connection w) !! k) as [r|] eqn:Hr; [|done]. intros _. apply (Hwf k r Hr).
Qed.

Lemma completed_replays e k l o w w1 w2 e2 :
  operations_inv (limits w) (connection w) -> validate_outcome o = Ok tt ->
  complete_operation e k l o w = (Ok true, w1) ->
  rtc op_step w1 w2 -> env_ok e2 w2 -> blen (env_uuid e2) = 16 ->
  env_now e2 w2 < last_ms (clock w1) + ttl_ms (limits w1) ->
  exists fp0, (op_view w k = Reserved fp0 l \/ op_view w k = Committing fp0 l) /\
    forall fp, blen fp = 32 ->
      exists w3, begin_operation e2 k fp w2 =
        (Ok (if beqb fp0 fp then BReplay o else BConflict), w3).
Proof.
  intros Hinv Hv Hc Hsteps Henv Huuid Hnow.
  destruct (complete_true_view e k l o w w1 Hinv Hc) as (fp0 & Hdone & Hbefore).
  exists fp0. split; [done|]. intros fp Hfp.
  pose proof (complete_effect _ _ _ _ _ _ _ Hv Hc) as [((Hlim1 & _ & _) & _) He1].
  assert (Hinv1 : operations_inv (limits w1) (connection w1))
    by (rewrite Hlim1; by eapply effect_inv).
  pose proof (op_steps_inv _ _ Hsteps Hinv1) as Hinv2.
  destruct (now_ms_ok e2 w2 Henv) as (w2' & Hn & _ & _ & Hlast).
  apply now_ms_cases in Hn as (_ & _ & _ & Hmono & _).
  assert (Hv2 : op_view w2 k = Done fp0 l o (last_ms (clock w1) + ttl_ms (limits w1))).
  { eapply op_steps_done; [done..|lia]. }
  destruct (begin_run e2 w2 k fp Hinv2 Henv) as (b & w3 & Hb & Hans);
    [eapply view_present_key_wf; [exact Hinv2|by rewrite Hv2]|done|done|].
  rewrite live_view_eq, Hv2 in Hans by done.
  destruct (_ <=? _) eqn:Hexp in Hans; bool_prop; [lia|]. cbn in Hans.
  destruct Hans as [-> _]. eauto.
Qed.

(** A recorded result is replayed.  Once [complete_operation] has
    reported success for a key, every later [begin_operation] before the
    result expires answers with exactly that outcome for the same request
    fingerprint and with a conflict for any other one - whatever other calls
    happened in between, for any key. *)
Theorem completed_outcome_is_replayed e k l o w w1 w2 e2 :
  operations_inv (limits w) (connection w) -> validate_outcome o = Ok tt ->
  complete_operation e k l o w = (Ok true, w1) ->
  rtc op_step w1 w2 -> env_ok e2 w2 -> blen (env_uuid e2) = 16 ->
  env_now e2 w2 < last_ms (clock w1) + ttl_ms (limits w1) ->
  exists fp0, (op_view w k = Reserved fp0 l \/ op_view w k = Committing fp0 l) /\
    forall fp, blen fp = 32 ->
      exists w3, begin_operation e2 k fp w2 =
        (Ok (if beqb fp0 fp then BReplay o else BConflict), w3).
Proof. apply completed_replays. Qed.

(** ** Lease fencing and abandonment *)

Definition view_lease (s : OpState) : option bytes :=
  match s with
  | Absent => None
  | Reserved _ l | Committing _ l | Done _ l _ _ => Some l
  end.

Lemma leased_other_lease w k l states k' r :
  view_lease (op_view w k) <> Some l -> operations (connection w) !! k' = Some r ->
  leased k l states k' r = false.
Proof.
  intros Hv Hr. destruct (leased k l states k' r) eqn:Hle; [|done].
  apply leased_true in Hle as (-> & <- & _). exfalso. apply Hv.
  unfold op_view, table_view. rewrite Hr. unfold row_view. by repeat case_match.
Qed.

Lemma sql_update_none {R} check (P : StoreKey -> R -> bool) f (m : gmap StoreKey R) n m' :
  (forall k r, m !! k = Some r -> P k r = false) ->
  sql_update check P f m = Ok (n, m') -> n = 0 /\ m' = m.
Proof.
  intros HP (Hn & Hl & _)%sql_update_Ok. split.
  - subst n. unfold sql_count. apply (f_equal Z.of_nat (y := 0%nat)).
    apply map_size_empty_iff, map_empty_filter. intros k r Hr. cbn. rewrite (HP k r Hr). done.
  - apply map_eq. intros k. rewrite Hl. destruct (m !! k) eqn:Hk; [|done]. cbn.
    by rewrite (HP _ _ Hk).
Qed.

Lemma sql_delete_none {R} (P : StoreKey -> R -> bool) (m : gmap StoreKey R) :
  (forall k r, m !! k = Some r -> P k r = false) -> (sql_delete P m).2 = m.
Proof.
  intros HP. apply map_eq. intros k. rewrite lookup_sql_delete.
  destruct (m !! k) eqn:Hk; [|done]. by rewrite (HP _ _ Hk).
Qed.

Lemma set_operations_same db : set_operations db (operations db) = db.
Proof. by destruct db. Qed.

(** Lease fencing.  A caller that does not hold the current lease of a
    key - a request whose reservation was abandoned or replaced - cannot move
    the record: starting the commit and completing both report failure, and
    together with abandoning they leave the database exactly as it was. *)
Theorem stale_lease_is_fenced e k l o w :
  view_lease (op_view w k) <> Some l ->
  (forall r w', mark_operation_commit_started e k l w = (r, w') ->
     r <> Ok true /\ connection w' = connection w) /\
  (forall r w', complete_operation e k l o w = (r, w') ->
     r <> Ok true /\ connection w' = connection w) /\
  (forall r w', abandon_operation e k l w = (r, w') -> connection w' = connection w).
Proof.
  intros Hv. split; [|split].
  - intros r w' H. apply (timed_transaction_nolim e (mark_body k l)) in H
      as [(Hc & _ & ? & ->)|(a & db & -> & H & -> & _)]; [done|].
    apply bind_Ok in H as ([n t] & Ht & [=<- <-]).
    apply sql_update_none in Ht as [-> ->]; [|intros; by eapply leased_other_lease].
    split; [done|apply set_operations_same].
  - intros r w' H. apply (timed_transaction e _ (λ _ now x, complete_body k l o now x)) in H
      as [(Hc & _ & ? & ->)|(x & a & db & -> & _ & H & -> & _)]; [done|].
    apply bind_Ok in H as ([n t] & Ht & [=<- <-]).
    apply sql_update_none in Ht as [-> ->]; [|intros; by eapply leased_other_lease].
    split; [done|apply set_operations_same].
  - intros r w' H. apply (timed_transaction e _ (λ _ now x, abandon_body k l now x)) in H
      as [(Hc & _ & ? & ->)|(x & a & db & -> & _ & H & -> & _)]; [done|].
    unfold abandon_body in H. rewrite (surjective_pairing (sql_delete _ _)) in H.
    rewrite sql_delete_none, set_operations_same in H by (intros; by eapply leased_other_lease).
    destruct (_ =? 0) in H; [|by injection H as _ <-].
    apply bind_Ok in H as ([n t] & Ht & [=_ <-]).
    apply sql_update_none in Ht as [-> ->]; [|intros; by eapply leased_other_lease].
    apply set_operations_same.
Qed.

(** The table after an update that names one key and one row there. *)
Lemma leased_row w k fp l s states :
  op_view w k = s -> (s = Reserved fp l /\ OPERATION_RESERVED ∈ states) \/
                     (s = Committing fp l /\ OPERATION_COMMIT_STARTED ∈ states) ->
  exists r, operations (connection w) !! k = Some r /\ or_fingerprint r = fp /\
    or_lease_token r = l /\ row_view r = s /\ leased k l states k r = true.
Proof.
  unfold op_view, table_view. destruct (operations (connection w) !! k) as [r|]; [|naive_solver].
  intros Hv Hs. exists r. split; [done|]. unfold row_view in Hv.
  destruct (or_state r =? OPERATION_RESERVED) eqn:H0; bool_prop.
  - destruct Hs as [[-> Hin]|[-> _]]; [|done]. injection Hv as <- <-.
    repeat split; [unfold row_view; by rewrite H0|]. apply leased_true. by rewrite H0.
  - destruct (or_state r =? OPERATION_COMMIT_STARTED) eqn:H1; bool_prop.
    + destruct Hs as [[-> _]|[-> Hin]]; [done|]. injection Hv as <- <-.
      repeat split; [unfold row_view; by rewrite H1|]. apply leased_true. by rewrite H1.
    + destruct Hs as [[-> _]|[-> _]]; done.
Qed.

Lemma with_state_check k r now :
  operation_row_wf k r -> or_state r = OPERATION_RESERVED ->
  operation_check k (with_state OPERATION_COMMIT_STARTED now r) = true.
Proof.
  intros ([Ho Hi] & Hf & Hl & [(_ & Ht & Hh & Hc & Hx)|(Hs & _)]) H0;
    [|rewrite H0 in Hs; discriminate Hs].
  unfold operation_check, with_state. cbn. by rewrite Ho, Hi, Hf, Hl, Ht, Hh, Hc, Hx.
Qed.

(** An error code SQLite measures as the server does: no NUL character. *)
Definition nul_free_outcome (o : StoredOutcome) : Prop :=
  match so_code o with Some c => nul_byte ∉ c | None => True end.

Lemma before_nul_id s : nul_byte ∉ s -> before_nul s = s.
Proof.
  induction s as [|c s IH]; [done|]. intros H. cbn.
  rewrite bool_decide_eq_false_2 by set_solver. rewrite IH; set_solver.
Qed.

Lemma with_outcome_check k o now t r :
  operation_row_wf k r -> outcome_wf o -> nul_free_outcome o ->
  operation_check k (with_outcome o now t r) = true.
Proof.
  intros ([Ho Hi] & Hf & Hl & _) [Hst Hcase] Hnul.
  unfold operation_check, with_outcome. cbn. rewrite Ho, Hi, Hf, Hl. cbn [andb Z.eqb].
  rewrite (proj2 (in_range_true 100 599 (so_status o)) Hst).
  assert (Hcode : forall c, so_code o = Some c -> 1 <= chars_count c <= MAX_ERROR_CODE_CHARS ->
    in_range 1 128 (sql_text_length c) = true).
  { intros c Hc Hlen. unfold nul_free_outcome in Hnul. rewrite Hc in Hnul.
    unfold sql_text_length. rewrite before_nul_id by done. by apply in_range_true. }
  destruct (so_state o); cbn.
  - destruct Hcase as [H2 ->]. by rewrite (proj2 (in_range_true _ _ _) H2).
  - destruct Hcase as [H2 (c & Hc & Hlen)]. rewrite Hc. cbn. rewrite (Hcode c Hc Hlen).
    by rewrite (proj2 (in_range_false 200 299 (so_status o))) by lia.
  - destruct Hcase as [H2 (c & Hc & Hlen)]. rewrite Hc. cbn. rewrite (Hcode c Hc Hlen).
    by rewrite (proj2 (in_range_false 200 299 (so_status o))) by lia.
Qed.

Definition abandon_spec (l : bytes) (expires_at : Z) (s : OpState) : OpState :=
  match s with
  | Reserved fp l' => if beqb l' l then Absent else s
  | Committing fp l' => if beqb l' l then Done fp l' uncertain_outcome expires_at else s
  | _ => s
  end.

Lemma uncertain_nul_free : nul_free_outcome uncertain_outcome.
Proof. apply (bool_decide_unpack (nul_byte ∉ UNKNOWN_CODE)). vm_compute. exact I. Qed.

Lemma abandon_body_runs k l now t db :
  map_Forall operation_row_wf (operations db) ->
  exists db', abandon_body k l now t db = Ok (tt, db') /\
    table_view (operations db') k = abandon_spec l t (table_view (operations db) k) /\
    (forall k', k' <> k -> operations db' !! k' = operations db !! k').
Proof.
  intros Hwf. set (m := operations db).
  assert (Hdel : forall k', (sql_delete (leased k l [OPERATION_RESERVED]) m).2 !! k' =
    match m !! k' with
    | Some r => if leased k l [OPERATION_RESERVED] k' r then None else Some r
    | None => None end) by (intros; apply lookup_sql_delete).
  assert (Hother : forall states k' r, k' <> k -> leased k l states k' r = false).
  { intros states k' r Hne. unfold leased, key_is. by rewrite bool_decide_eq_false_2. }
  unfold abandon_body. fold m. rewrite (surjective_pairing (sql_delete _ m)). cbn [operations set_operations].
  set (n := (sql_delete (leased k l [OPERATION_RESERVED]) m).1).
  assert (Hn : n = match m !! k with Some r => if beqb (or_lease_token r) l && bool_decide (or_state r ∈ [OPERATION_RESERVED]) then 1 else 0 | None => 0 end).
  { subst n. cbn [sql_delete fst]. unfold leased. apply sql_count_one. }
  destruct (n =? 0) eqn:Hn0; bool_prop.
  - assert (Hsame : (sql_delete (leased k l [OPERATION_RESERVED]) m).2 = m).
    { apply sql_delete_none. intros k' r Hr. destruct (decide (k' = k)) as [->|]; [|by apply Hother].
      unfold leased, key_is. rewrite bool_decide_eq_true_2 by done. cbn [andb].
      rewrite Hr in Hn. by destruct (_ && _); [lia|]. }
    rewrite Hsame.
    destruct (sql_update_succeeds operation_check (leased k l [OPERATION_COMMIT_STARTED])
      (with_outcome uncertain_outcome now t) m) as [m' Hm'].
    { intros k' r Hr _. apply with_outcome_check;
        [by apply Hwf|apply uncertain_outcome_wf|apply uncertain_nul_free]. }
    rewrite Hm'. cbn. eexists. split; [done|]. cbn [operations set_operations].
    apply sql_update_Ok in Hm' as (_ & Hl & _). split.
    + unfold table_view. rewrite Hl. destruct (m !! k) as [r|] eqn:Hr; [|done].
      rewrite ?Hr in Hn. cbn. destruct (leased k l _ k r) eqn:Hle.
      * rewrite with_outcome_view. apply leased_true in Hle as (_ & <- & Hs%list_elem_of_singleton).
        unfold row_view. rewrite Hs. cbn. by rewrite beqb_refl.
      * unfold leased, key_is in Hle. rewrite bool_decide_eq_true_2 in Hle by done. cbn [andb] in Hle.
        unfold row_view. destruct (or_state r =? OPERATION_RESERVED) eqn:H0; bool_prop; cbn [abandon_spec].
        { destruct (beqb (or_lease_token r) l) eqn:Hbl; [|done].
          rewrite H0, bool_decide_eq_true_2, Hn0 in Hn by set_solver. discriminate Hn. }
        destruct (or_state r =? OPERATION_COMMIT_STARTED) eqn:H1; bool_prop; cbn [abandon_spec]; [|done].
        destruct (beqb (or_lease_token r) l) eqn:Hbl; [|done].
        rewrite H1, bool_decide_eq_true_2 in Hle by set_solver. by destruct Hle.
    + intros k' Hne. rewrite Hl. destruct (m !! k') eqn:Hr; [|done]. cbn. by rewrite Hother.
  - eexists. split; [done|]. cbn [operations set_operations]. split.
    + unfold table_view. rewrite Hdel. destruct (m !! k) as [r|] eqn:Hr; [|done]. rewrite ?Hr in Hn.
      unfold leased, key_is. rewrite bool_decide_eq_true_2 by done. cbn [andb].
      destruct (_ && _) eqn:Hb in Hn; [|done]. rewrite Hb. bool_prop.
      match goal with H : _ ∈ _ |- _ => apply list_elem_of_singleton in H as Hs end.
      unfold row_view. rewrite Hs. cbn. by match goal with H : beqb _ _ = true |- _ => rewrite H end.
    + intros k' Hne. rewrite Hdel. destruct (m !! k') as [r|] eqn:Hr; [|done].
      by rewrite Hother.
Qed.

(** Abandoning a lease resolves it, always: whenever the clock and SQLite
    work, a reservation that never started to commit disappears (the same
    request may be tried again), one that did is recorded as an uncertain
    outcome kept for the result TTL, and nothing else changes - not for
    another lease of the key, and not for any other key. *)
Theorem abandon_resolves_lease e k l w :
  operations_inv (limits w) (connection w) -> env_ok e w ->
  i64_min <= env_now e w + ttl_ms (limits w) <= i64_max ->
  exists w', abandon_operation e k l w = (Ok tt, w') /\
    op_view w' k = abandon_spec l (env_now e w + ttl_ms (limits w)) (op_view w k) /\
    (forall k', k' <> k -> op_view w' k' = op_view w k').
Proof.
  intros [Hwf _] He Ht.
  destruct (abandon_body_runs k l (env_now e w) (env_now e w + ttl_ms (limits w)) (connection w) Hwf)
    as (db' & Hrun & Hk & Hother).
  destruct (timed_run e (λ lim now, expiration_time now (ttl_ms lim))
    (λ _ now x, abandon_body k l now x) w (env_now e w + ttl_ms (limits w)) tt db')
    as (w' & Hw & Hdb & _); [done| |done|].
  { unfold expiration_time. apply ok_or_Ok, i64_try_from_Some. done. }
  exists w'. split; [exact Hw|]. unfold op_view, table_view in *. rewrite Hdb.
  split; [done|]. intros k' Hne. by rewrite Hother.
Qed.

(** The holder of a lease makes progress: whenever the clock and SQLite
    work, starting the commit of a reservation succeeds and moves the record,
    and completing an open record with a valid outcome (whose code contains no
    NUL) succeeds and records exactly that outcome for the result TTL. *)
Theorem lease_holder_progresses e k fp l o w :
  operations_inv (limits w) (connection w) -> env_ok e w ->
  (op_view w k = Reserved fp l ->
     exists w', mark_operation_commit_started e k l w = (Ok true, w') /\
       op_view w' k = Committing fp l) /\
  (op_view w k = Reserved fp l \/ op_view w k = Committing fp l ->
     validate_outcome o = Ok tt -> nul_free_outcome o ->
     i64_min <= env_now e w + ttl_ms (limits w) <= i64_max ->
     exists w', complete_operation e k l o w = (Ok true, w') /\
       op_view w' k = Done fp l o (env_now e w + ttl_ms (limits w))).
Proof.
  intros [Hwf _] He. split.
  - intros Hv. destruct (leased_row w k fp l _ [OPERATION_RESERVED] Hv) as (r & Hr & Hf & Hl & Hrv & Hle);
      [left; split; [done|left]|].
    destruct (sql_update_succeeds operation_check (leased k l [OPERATION_RESERVED])
      (with_state OPERATION_COMMIT_STARTED (env_now e w)) (operations (connection w))) as [m' Hm'].
    { intros k' r' Hr' (-> & _ & Hs%list_elem_of_singleton)%leased_true.
      apply with_state_check; [by apply Hwf|done]. }
    assert (Hcount : sql_count (leased k l [OPERATION_RESERVED]) (operations (connection w)) = 1).
    { unfold leased. rewrite sql_count_one, Hr. apply leased_true in Hle as (_ & -> & Hs).
      by rewrite beqb_refl, bool_decide_eq_true_2. }
    destruct (timed_run_nolim e (mark_body k l) w true
      (set_operations (connection w) m') He) as (w' & Hw & Hdb & _).
    { unfold mark_body. rewrite Hm', Hcount. done. }
    exists w'. split; [exact Hw|]. unfold op_view, table_view. rewrite Hdb. cbn [operations set_operations].
    apply sql_update_Ok in Hm' as (_ & -> & _). rewrite Hr. cbn [fmap option_fmap option_map].
    rewrite Hle. unfold row_view. cbn. by rewrite Hf, Hl.
  - intros Hv Ho%validate_outcome_Ok Hnul Ht.
    destruct (leased_row w k fp l _ [OPERATION_RESERVED; OPERATION_COMMIT_STARTED] eq_refl)
      as (r & Hr & Hf & Hl & Hrv & Hle).
    { destruct Hv as [-> | ->]; [left|right]; (split; [done|]); set_solver. }
    set (t := env_now e w + ttl_ms (limits w)) in *.
    destruct (sql_update_succeeds operation_check
      (leased k l [OPERATION_RESERVED; OPERATION_COMMIT_STARTED])
      (with_outcome o (env_now e w) t) (operations (connection w))) as [m' Hm'].
    { intros k' r' Hr' _. by apply with_outcome_check; [apply Hwf|..]. }
    assert (Hcount : sql_count (leased k l [OPERATION_RESERVED; OPERATION_COMMIT_STARTED])
      (operations (connection w)) = 1).
    { unfold leased. rewrite sql_count_one, Hr. apply leased_true in Hle as (_ & -> & Hs).
      by rewrite beqb_refl, bool_decide_eq_true_2. }
    destruct (timed_run e (λ lim now, expiration_time now (ttl_ms lim))
      (λ _ now x, complete_body k l o now x) w t true (set_operations (connection w) m') He)
      as (w' & Hw & Hdb & _).
    { unfold expiration_time. apply ok_or_Ok, i64_try_from_Some. done. }
    { unfold complete_body. rewrite Hm', Hcount. done. }
    exists w'. split; [exact Hw|]. unfold op_view, table_view. rewrite Hdb. cbn [operations set_operations].
    apply sql_update_Ok in Hm' as (_ & -> & _). rewrite Hr. cbn [fmap option_fmap option_map].
    rewrite Hle, with_outcome_view. by rewrite Hf, Hl.
Qed.

(** ** Witnesses on the demo store *)

Lemma demo_worker_inv : operations_inv (limits demo_worker) (connection demo_worker).
Proof. apply operations_inv_empty; cbn; lia. Qed.

Lemma demo_reserved_inv : operations_inv (limits demo_reserved) (connection demo_reserved).
Proof.
  apply (op_steps_inv demo_worker); [|apply demo_worker_inv].
  eapply rtc_once, (step_begin (demo_env 0) demo_key demo_fp), surjective_pairing.
Qed.

Lemma demo_committing_inv : operations_inv (limits demo_committing) (connection demo_committing).
Proof.
  apply (op_steps_inv demo_reserved); [|apply demo_reserved_inv].
  eapply rtc_once, (step_mark (demo_env 1) demo_key demo_lease), surjective_pairing.
Qed.

Lemma operations_refine_lifecycle_witness :
  rtc (spec_step 1001 900000) (Reserved demo_fp demo_lease) (Committing demo_fp demo_lease).
Proof.
  exact (operations_refine_lifecycle demo_reserved demo_committing demo_key
    (step_mark (demo_env 1) demo_key demo_lease demo_reserved _ _ (surjective_pairing _))
    demo_reserved_inv).
Defined.

(** The demo key after its result expired, and the reservation made then. *)
Definition demo_expired : StoreWorker :=
  (begin_operation (demo_env 900002) demo_key demo_fp demo_done).2.

Lemma commit_started_not_restarted_witness :
  begin_operation (demo_env 900002) demo_key demo_fp demo_done = (Ok (BStarted demo_lease), demo_expired) /\
  901001 <= 901002.
Proof.
  split; [vm_compute; reflexivity|].
  apply (commit_started_not_restarted demo_committing demo_done demo_key (demo_env 900002)
    demo_fp demo_lease demo_expired demo_fp demo_lease demo_committing_inv);
    [vm_compute; reflexivity| |vm_compute; reflexivity].
  eapply rtc_once, (step_complete (demo_env 2) demo_key demo_lease demo_success);
    [vm_compute; reflexivity|apply surjective_pairing].
Defined.

Lemma begin_operation_decides_witness :
  exists b w', begin_operation (demo_env 3) demo_key demo_fp demo_worker = (Ok b, w') /\
    b = BStarted demo_lease /\ op_view w' demo_key = Reserved demo_fp demo_lease.
Proof.
  exact (begin_operation_decides (demo_env 3) demo_worker demo_key demo_fp demo_worker_inv
    (conj eq_refl (ex_intro _ 1003 (ex_intro _ (mkClock 1000 0 1003) eq_refl)))
    (conj eq_refl eq_refl) eq_refl eq_refl).
Defined.

Lemma completed_outcome_is_replayed_witness :
  exists w3, begin_operation (demo_env 3) demo_key demo_fp demo_done = (Ok (BReplay demo_success), w3).
Proof.
  destruct (completed_outcome_is_replayed (demo_env 2) demo_key demo_lease demo_success
    demo_committing demo_done demo_done (demo_env 3)) as (fp0 & Hv & H);
    [exact demo_committing_inv|vm_compute; reflexivity|vm_compute; reflexivity|apply rtc_refl| | | |].
  - split; [reflexivity|]. eexists _, _. vm_compute. reflexivity.
  - vm_compute. reflexivity.
  - vm_compute. reflexivity.
  - assert (fp0 = demo_fp) as -> by (vm_compute in Hv; by destruct Hv as [Hv|Hv]; inversion Hv).
    destruct (H demo_fp eq_refl) as [w3 H3]. exists w3. rewrite beqb_refl in H3. exact H3.
Defined.

Lemma stale_lease_is_fenced_witness :
  connection (abandon_operation (demo_env 3) demo_key demo_fp demo_committing).2
    = connection demo_committing.
Proof.
  destruct (stale_lease_is_fenced (demo_env 3) demo_key demo_fp demo_success demo_committing)
    as (_ & _ & H); [vm_compute; discriminate|].
  exact (H _ _ (surjective_pairing _)).
Defined.

Lemma abandon_resolves_lease_witness :
  exists w', abandon_operation (demo_env 3) demo_key demo_lease demo_committing = (Ok tt, w') /\
    op_view w' demo_key = Done demo_fp demo_lease uncertain_outcome 901003.
Proof.
  destruct (abandon_resolves_lease (demo_env 3) demo_key demo_lease demo_committing)
    as (w' & Hw & Hv & _); [exact demo_committing_inv| | |exists w'; split; [exact Hw|exact Hv]].
  - split; [reflexivity|]. eexists _, _. vm_compute. reflexivity.
  - vm_compute. split; discriminate.
Defined.

Lemma lease_holder_progresses_witness :
  exists w', mark_operation_commit_started (demo_env 1) demo_key demo_lease demo_reserved = (Ok true, w') /\
    op_view w' demo_key = Committing demo_fp demo_lease.
Proof.
  destruct (lease_holder_progresses (demo_env 1) demo_key demo_fp demo_lease demo_success demo_reserved)
    as [H _]; [exact demo_reserved_inv| |apply H; vm_compute; reflexivity].
  split; [reflexivity|]. eexists _, _. vm_compute. reflexivity.
Defined.
