(* ===== verification/Paging.v ===== *)
(** [ORDER BY ... LIMIT] queries and keyset pagination, shared by the listing
    statements of [src/src/server/state_store/upload.rs] and
    [src/src/server/state_store/purge.rs].  Orders are three-way comparisons;
    SQLite compares BLOB columns as [memcmp] and a column list from left to
    right. *)

From S2P Require Import Prelude Bytes StdPath StoreModel.
From stdpp Require Import base numbers list sets sorting.

Local Open Scope Z_scope.

(** ** Orders *)

(** A three-way comparison that decides a total order. *)
Class TotalCompare {K : Type} (cmp : K -> K -> comparison) : Prop := {
  compare_same a b : cmp a b = Eq <-> a = b;
  compare_flip a b : cmp b a = CompOpp (cmp a b);
  compare_chain a b c : cmp a b = Lt -> cmp b c = Lt -> cmp a c = Lt
}.

(** The order of a list of columns, most significant first. *)
Definition lex_cmp {A B} (ca : A -> A -> comparison) (cb : B -> B -> comparison)
    (x y : A * B) : comparison :=
  match ca x.1 y.1 with
  | Eq => cb x.2 y.2
  | other => other
  end.

#[export] Instance bytes_total : TotalCompare bytes_cmp.
Proof.
  split; [exact bytes_cmp_eq|exact bytes_cmp_antisym|exact bytes_cmp_lt_trans].
Qed.

#[export] Instance Z_total : TotalCompare Z.compare.
Proof.
  split; [exact Z.compare_eq_iff|intros a b; apply Z.compare_antisym|].
  intros a b c. rewrite !Z.compare_lt_iff. lia.
Qed.

#[export] Instance lex_total {A B} ca cb :
  @TotalCompare A ca -> @TotalCompare B cb -> TotalCompare (lex_cmp ca cb).
Proof.
  intros Ha Hb. unfold lex_cmp. split.
  - intros [a1 b1] [a2 b2]; cbn. destruct (ca a1 a2) eqn:E.
    + apply compare_same in E as ->. rewrite compare_same. naive_solver.
    + split; [done|]. intros [= -> _]. by rewrite (proj2 (compare_same a2 a2) eq_refl) in E.
    + split; [done|]. intros [= -> _]. by rewrite (proj2 (compare_same a2 a2) eq_refl) in E.
  - intros [a1 b1] [a2 b2]; cbn. rewrite (compare_flip a1 a2).
    destruct (ca a1 a2); cbn; [apply compare_flip|done..].
  - intros [a1 b1] [a2 b2] [a3 b3]; cbn.
    destruct (ca a1 a2) eqn:E1, (ca a2 a3) eqn:E2; try done.
    + apply compare_same in E1 as ->. rewrite E2. apply compare_chain.
    + apply compare_same in E1 as ->. by rewrite E2.
    + apply compare_same in E2 as <-. by rewrite E1.
    + intros _ _. by rewrite (compare_chain _ _ _ E1 E2).
Qed.

(** [ORDER BY owner_digest, upload_id]. *)
Definition key_columns (k : StoreKey) : bytes * bytes := (key_owner k, key_id k).
Definition key_cmp (a b : StoreKey) : comparison :=
  lex_cmp bytes_cmp bytes_cmp (key_columns a) (key_columns b).

#[export] Instance key_total : TotalCompare key_cmp.
Proof.
  split.
  - intros [o1 i1] [o2 i2]. unfold key_cmp. rewrite compare_same. cbv. naive_solver.
  - intros a b. unfold key_cmp. apply compare_flip.
  - intros a b c. unfold key_cmp. apply compare_chain.
Qed.

(** ** Queries *)

Section query.
Context {A K : Type} (cmp : K -> K -> comparison) (key : A -> K).

Definition row_le (x y : A) : Prop := cmp (key x) (key y) <> Gt.
Definition row_lt (x y : A) : Prop := cmp (key x) (key y) = Lt.
#[global] Instance row_le_dec x y : Decision (row_le x y).
Proof. unfold row_le. solve_decision. Defined.

(** [ORDER BY key]. *)
Definition order_by (rows : list A) : list A := merge_sort row_le rows.

(** The keyset condition [key > after]. *)
Definition is_after (after : option K) (x : A) : bool :=
  match after with
  | None => true
  | Some k => match cmp k (key x) with Lt => true | _ => false end
  end.

(** [LIMIT limit]: a negative limit is no limit. *)
Definition limited (limit : Z) (rows : list A) : list A :=
  if limit <? 0 then rows else take (Z.to_nat limit) rows.

(** [WHERE key > after ORDER BY key LIMIT limit]. *)
Definition page (after : option K) (limit : Z) (rows : list A) : list A :=
  limited limit (order_by (filter (λ x, is_after after x = true) rows)).

(** Follow the pages until one is short. *)
Fixpoint walk (fuel : nat) (after : option K) (limit : Z) (rows : list A) : list A :=
  match fuel with
  | O => []
  | S fuel =>
      let p := page after limit rows in
      p ++ match last p with
           | Some x => if Z.of_nat (length p) =? limit then walk fuel (Some (key x)) limit rows else []
           | None => []
           end
  end.
End query.

(** ** Facts *)

Section facts.
Context {A K : Type} (cmp : K -> K -> comparison) `{!TotalCompare cmp} (key : A -> K).
Abbreviation le := (row_le cmp key).
Abbreviation lt := (row_lt cmp key).

Lemma compare_refl k : cmp k k = Eq.
Proof. by apply compare_same. Qed.

#[local] Instance row_le_total : Total le.
Proof.
  intros x y. unfold row_le. rewrite (compare_flip (key x) (key y)).
  destruct (cmp (key x) (key y)); naive_solver.
Qed.
#[local] Instance row_le_trans : Transitive le.
Proof.
  intros x y z. unfold row_le.
  destruct (cmp (key x) (key y)) eqn:E1; [|destruct (cmp (key y) (key z)) eqn:E2|naive_solver].
  - apply compare_same in E1 as ->. done.
  - apply compare_same in E2 as <-. by rewrite E1.
  - by rewrite (compare_chain _ _ _ E1 E2).
  - done.
Qed.
#[local] Instance row_lt_antisymm : AntiSymm (=) lt.
Proof. intros x y Hx Hy. unfold row_lt in *. rewrite compare_flip, Hx in Hy. done. Qed.

Lemma order_by_perm rows : order_by cmp key rows ≡ₚ rows.
Proof. apply merge_sort_Permutation. Qed.

Lemma order_by_sorted rows : StronglySorted le (order_by cmp key rows).
Proof. apply StronglySorted_merge_sort; apply _. Qed.

(** With distinct keys the result is strictly increasing. *)
Lemma strict_sorted l : NoDup (key <$> l) -> StronglySorted le l -> StronglySorted lt l.
Proof.
  induction l as [|x l IH]; cbn; [constructor|].
  rewrite NoDup_cons. intros [Hx Hnd] [Hs Hle]%StronglySorted_inv.
  constructor; [by apply IH|]. rewrite Forall_forall in Hle |- *. intros y Hy.
  specialize (Hle y Hy). unfold row_le, row_lt in *.
  destruct (cmp (key x) (key y)) eqn:E; [|done..].
  apply compare_same in E. destruct Hx. rewrite E. by apply list_elem_of_fmap_2.
Qed.

Lemma order_by_strict rows : NoDup (key <$> rows) -> StronglySorted lt (order_by cmp key rows).
Proof.
  intros Hnd. apply strict_sorted; [|apply order_by_sorted].
  by rewrite (order_by_perm rows).
Qed.

(** Sorting is determined by the set of rows. *)
Lemma order_by_unique l rows :
  NoDup (key <$> rows) -> l ≡ₚ rows -> StronglySorted lt l -> order_by cmp key rows = l.
Proof.
  intros Hnd Hp Hs. eapply (StronglySorted_unique lt); [by apply order_by_strict|done|].
  rewrite order_by_perm. by symmetry.
Qed.

Lemma filter_NoDup_key (P : A -> bool) rows :
  NoDup (key <$> rows) -> NoDup (key <$> filter (λ x, P x = true) rows).
Proof.
  induction rows as [|x rows IH]; [done|]. rewrite fmap_cons, NoDup_cons. intros [Hx Hnd].
  rewrite filter_cons. destruct (decide (P x = true)); [|by apply IH].
  rewrite fmap_cons, NoDup_cons. split; [|by apply IH].
  intros (y & Hy & [_ Hin]%list_elem_of_filter)%list_elem_of_fmap.
  apply Hx. rewrite Hy. by apply list_elem_of_fmap_2.
Qed.

Lemma strongly_sorted_filter (P : A -> bool) l :
  StronglySorted lt l -> StronglySorted lt (filter (λ x, P x = true) l).
Proof.
  induction 1 as [|x l Hs IH Hx]; [constructor|]. rewrite filter_cons.
  destruct (decide (P x = true)); [|done]. constructor; [done|].
  rewrite Forall_forall in Hx |- *. intros y [_ Hy]%list_elem_of_filter. eauto.
Qed.

(** A condition can be applied before or after sorting. *)
Lemma order_by_filter (P : A -> bool) rows :
  NoDup (key <$> rows) ->
  order_by cmp key (filter (λ x, P x = true) rows) =
    filter (λ x, P x = true) (order_by cmp key rows).
Proof.
  intros Hnd. apply order_by_unique; [by apply filter_NoDup_key| |].
  - by rewrite (order_by_perm rows).
  - by apply strongly_sorted_filter, order_by_strict.
Qed.

(** The rows after the last row of a prefix are the rest. *)
Lemma after_prefix l1 x l2 :
  StronglySorted lt (l1 ++ x :: l2) ->
  filter (λ y, is_after cmp key (Some (key x)) y = true) (l1 ++ x :: l2) = l2.
Proof.
  induction l1 as [|y l1 IH]; cbn [app]; intros [Hs Hx]%StronglySorted_inv;
    rewrite filter_cons; cbn [is_after].
  - rewrite compare_refl. destruct (decide _); [done|].
    clear -Hx. induction Hx as [|y l2 Hy _ IH]; [done|].
    rewrite filter_cons. unfold row_lt in Hy. cbn [is_after]. rewrite Hy.
    destruct (decide _); [by f_equal|done].
  - assert (lt y x) as Hy.
    { rewrite Forall_forall in Hx. apply Hx. set_solver. }
    unfold row_lt in Hy. rewrite compare_flip, Hy. cbn.
    destruct (decide _); [done|]. by apply IH.
Qed.

Lemma is_after_trans after k x :
  is_after cmp key after x = true -> cmp (key x) k = Lt ->
  forall y, key y = k -> is_after cmp key after y = true.
Proof.
  intros Hx Hk y <-. destruct after as [a|]; [|done]. cbn in *.
  destruct (cmp a (key x)) eqn:E; [done| |done]. by rewrite (compare_chain _ _ _ E Hk).
Qed.

Definition remaining (after : option K) (rows : list A) : list A :=
  filter (λ x, is_after cmp key after x = true) (order_by cmp key rows).

Lemma remaining_resume after rows l1 x l2 :
  NoDup (key <$> rows) -> remaining after rows = l1 ++ x :: l2 ->
  remaining (Some (key x)) rows = l2.
Proof.
  intros Hnd Hr. pose proof (order_by_strict rows Hnd) as Hs.
  rewrite <- (after_prefix l1 x l2) by (rewrite <- Hr; by apply strongly_sorted_filter).
  rewrite <- Hr. unfold remaining. rewrite list_filter_filter. apply list_filter_iff.
  assert (is_after cmp key after x = true) as Hx.
  { assert (x ∈ remaining after rows) as [? _]%list_elem_of_filter; [rewrite Hr; set_solver|done]. }
  intros y. split; [|naive_solver]. intros Hy. split; [done|].
  apply (is_after_trans _ (key y) _ Hx); [|done].
  cbn in Hy. by destruct (cmp (key x) (key y)).
Qed.

Lemma page_remaining after limit rows :
  NoDup (key <$> rows) -> 0 <= limit ->
  page cmp key after limit rows = take (Z.to_nat limit) (remaining after rows).
Proof.
  intros Hnd Hl. unfold page, limited, remaining.
  rewrite (proj2 (Z.ltb_ge _ _) Hl). by rewrite order_by_filter.
Qed.

(** Following the pages visits every remaining row once, in order. *)
Lemma walk_remaining fuel after limit rows :
  NoDup (key <$> rows) -> 0 < limit -> (length (remaining after rows) < fuel)%nat ->
  walk cmp key fuel after limit rows = remaining after rows.
Proof.
  intros Hnd Hlim. revert after. induction fuel as [|fuel IH]; intros after Hf; [lia|].
  cbn [walk]. rewrite page_remaining by (done || lia).
  set (r := remaining after rows) in *.
  destruct (last (take (Z.to_nat limit) r)) as [x|] eqn:Hlast.
  - apply last_Some in Hlast as [l1 Hl1].
    assert (r = l1 ++ x :: drop (Z.to_nat limit) r) as Hr.
    { rewrite <- (take_drop (Z.to_nat limit) r) at 1. rewrite Hl1, <- app_assoc. done. }
    assert (length (take (Z.to_nat limit) r) = S (length l1)) as Hlen.
    { rewrite Hl1, length_app. cbn. lia. }
    destruct (Z.eqb_spec (Z.of_nat (length (take (Z.to_nat limit) r))) limit) as [Heq|Hne].
    + rewrite (IH (Some (key x))).
      * rewrite (remaining_resume after rows l1 x _ Hnd Hr). apply take_drop.
      * rewrite (remaining_resume after rows l1 x _ Hnd Hr), length_drop.
        rewrite length_take in Hlen. lia.
    + rewrite app_nil_r. apply take_ge. rewrite length_take in Hne. lia.
  - apply last_None in Hlast. rewrite Hlast. cbn.
    destruct r as [|y r'] eqn:Er; [done|]. exfalso.
    destruct (Z.to_nat limit) eqn:En; [lia|done].
Qed.

Lemma remaining_None rows : remaining None rows = order_by cmp key rows.
Proof.
  unfold remaining. cbn [is_after]. generalize (order_by cmp key rows).
  intros l. induction l as [|x l IH]; [done|]. rewrite filter_cons.
  destruct (decide _); [by f_equal|done].
Qed.

Lemma remaining_None_perm rows : remaining None rows ≡ₚ rows.
Proof. rewrite remaining_None. apply order_by_perm. Qed.

Lemma walk_complete fuel limit rows :
  NoDup (key <$> rows) -> 0 < limit -> (length rows < fuel)%nat ->
  walk cmp key fuel None limit rows = order_by cmp key rows.
Proof.
  intros Hnd Hlim Hf.
  rewrite walk_remaining; [apply remaining_None|done|done|].
  by rewrite (Permutation_length (remaining_None_perm rows)).
Qed.

(** [ORDER BY key LIMIT 1] yields a least row, if there is one. *)
Lemma order_by_head rows x l :
  order_by cmp key rows = x :: l -> x ∈ rows /\ Forall (le x) rows.
Proof.
  intros H. pose proof (order_by_sorted rows) as Hs. rewrite H in Hs.
  apply StronglySorted_inv in Hs as [_ Hx].
  assert (x :: l ≡ₚ rows) as Hp by (rewrite <- H; apply order_by_perm).
  split; [rewrite <- Hp; set_solver|]. rewrite <- Hp. constructor; [|done].
  unfold row_le. by rewrite compare_refl.
Qed.
End facts.
