(* ===== verification/Uploads.v ===== *)
(** Upload sessions of the durable state store:
    [src/src/server/state_store/upload.rs].  The row codec, the queries, the
    merge that guards every update, and the worker's methods. *)

From S2P Require Import Prelude Bytes StdPath StoreModel Database StoreWorker Paging.
From stdpp Require Import base numbers list gmap strings sorting.
From Stdlib Require Import Ascii.

Local Open Scope Z_scope.

(** ** Rows *)

Definition decode_upload_row (k : StoreKey) (row : UploadRow) : result string StoredUploadSession :=
  stage_identity ←
    match ur_stage_device_be row, ur_stage_inode_be row with
    | None, None => Ok None
    | Some device, Some inode =>
        device ← fixed_bytes 8 device "Upload stage device has an invalid length";
        inode ← fixed_bytes 8 inode "Upload stage inode has an invalid length";
        Ok (Some (mkIdentity (be_value device) (be_value inode)))
    | _, _ => Err "Upload stage identity is incomplete"%string
    end;
  owner ← fixed_bytes 32 (key_owner k) "Upload owner digest has an invalid length";
  id ← fixed_bytes 16 (key_id k) "Upload id has an invalid length";
  upload_length ← ok_or (u64_try_from (ur_upload_length row))
                    "Upload length in the state database is negative"%string;
  durable_offset ← ok_or (u64_try_from (ur_durable_offset row))
                     "Upload offset in the state database is negative"%string;
  state ← upload_from_database (ur_state row);
  target_revision ← transpose ((λ revision,
      fixed_bytes 32 revision "Upload target revision has an invalid length")
      <$> ur_target_revision row);
  let session :=
    {| us_key := mkStoreKey owner id;
       us_target_path := ur_target_path row; us_stage_path := ur_stage_path row;
       us_upload_length := upload_length; us_durable_offset := durable_offset;
       us_state := state; us_stage_identity := stage_identity;
       us_target_revision := target_revision |} in
  _ ← validate_upload session;
  Ok session.

(** The parameters of the [INSERT] of [save_upload_session]. *)
Definition encode_upload_row (s : StoredUploadSession) (now expires_at : Z) : result string UploadRow :=
  upload_length ← ok_or (i64_try_from (us_upload_length s)) "out of range integral type conversion"%string;
  durable_offset ← ok_or (i64_try_from (us_durable_offset s)) "out of range integral type conversion"%string;
  Ok {| ur_target_path := us_target_path s; ur_stage_path := us_stage_path s;
        ur_upload_length := upload_length; ur_durable_offset := durable_offset;
        ur_state := upload_as_i64 (us_state s);
        ur_stage_device_be := (λ i, u64_to_be_bytes (fi_device i)) <$> us_stage_identity s;
        ur_stage_inode_be := (λ i, u64_to_be_bytes (fi_inode i)) <$> us_stage_identity s;
        ur_target_revision := us_target_revision s;
        ur_updated_at_ms := now; ur_expires_at_ms := expires_at |}.

(** ** Queries *)

Definition load_upload_session (db : Database) (key : UploadSessionKey)
    : result string (option StoredUploadSession) :=
  transpose (decode_upload_row key <$> upload_sessions db !! key).

Definition decode_expired_upload_row (k : StoreKey) (row : UploadRow)
    : result string ExpiredUploadSession :=
  session ← decode_upload_row k row;
  Ok {| eu_session := session; eu_expires_at_ms := ur_expires_at_ms row |}.

Definition load_expired_upload_session (db : Database) (key : UploadSessionKey)
    : result string (option ExpiredUploadSession) :=
  transpose (decode_expired_upload_row key <$> upload_sessions db !! key).

(** [query_upload_sessions] on the two statements of [upload_sessions_page]. *)
Definition query_upload_sessions (after : option UploadSessionKey) (limit : Z) (db : Database)
    : result string (list StoredUploadSession) :=
  collect ((λ kr, decode_upload_row kr.1 kr.2) <$>
    page key_cmp fst after limit (map_to_list (upload_sessions db))).

Definition expired_upload (now : Z) (kr : StoreKey * UploadRow) : bool :=
  (ur_expires_at_ms kr.2 <=? now) && negb (ur_state kr.2 =? UPLOAD_COMMIT_STARTED).

(** [query_expired_upload_sessions] on the two statements of [expired_upload_sessions]. *)
Definition query_expired_upload_sessions (now : Z) (after : option UploadSessionKey) (limit : Z)
    (db : Database) : result string (list ExpiredUploadSession) :=
  collect ((λ kr, decode_expired_upload_row kr.1 kr.2) <$>
    page key_cmp fst after limit
      (filter (λ kr, expired_upload now kr = true) (map_to_list (upload_sessions db)))).

(** ** The merge that guards an update *)

Definition identity_lost (existing proposed : option StoredFileIdentity) : bool :=
  match existing, proposed with
  | Some a, Some b => negb (bool_decide (a = b))
  | Some _, None => true
  | None, _ => false
  end.

(** The [matches!] of [merge_upload_session]. *)
Definition upload_transition (from to : StoredUploadState) : bool :=
  match from, to with
  | URunning, (UCommitStarted | URejected | UUnknown) => true
  | UCommitStarted, (UCommitted | URejected | UUnknown | UAwaitingConfirmation) => true
  | UAwaitingConfirmation, (UCommitStarted | URejected) => true
  | _, _ => false
  end.

Definition merge_upload_session (existing proposed : StoredUploadSession)
    : option StoredUploadSession :=
  if negb (bool_decide (us_key existing = us_key proposed)) ||
     (negb (path_eqb (us_target_path existing) (us_target_path proposed)) ||
     (negb (path_eqb (us_stage_path existing) (us_stage_path proposed)) ||
     (negb (us_upload_length existing =? us_upload_length proposed) ||
     ((us_durable_offset proposed <? us_durable_offset existing) ||
      identity_lost (us_stage_identity existing) (us_stage_identity proposed)))))
  then None
  else
    let same_state := bool_decide (us_state existing = us_state proposed) in
    let transition_allowed :=
      if same_state then
        negb (is_terminal (us_state existing)) ||
        ((us_durable_offset existing =? us_durable_offset proposed) &&
         bool_decide (us_stage_identity existing = us_stage_identity proposed))
      else upload_transition (us_state existing) (us_state proposed) in
    let revision_change_allowed :=
      bool_decide (us_target_revision existing = us_target_revision proposed) ||
      ((same_state && negb (is_terminal (us_state existing))) ||
       bool_decide (us_state existing = UAwaitingConfirmation)) in
    if negb transition_allowed || negb revision_change_allowed then None
    else Some proposed.

(** ** Saving a session *)

(** The rows [save_upload_session] deletes first: expired terminal sessions,
    a rejected one only when no stage file is recorded. *)
Definition forgotten_upload (now : Z) (_ : StoreKey) (r : UploadRow) : bool :=
  (ur_expires_at_ms r <=? now) &&
  (bool_decide (ur_state r ∈ [UPLOAD_COMMITTED; UPLOAD_UNKNOWN]) ||
   ((ur_state r =? UPLOAD_REJECTED) &&
    (bool_decide (ur_stage_device_be r = None) && bool_decide (ur_stage_inode_be r = None)))).

Definition active_state (s : Z) : bool :=
  bool_decide (s ∈ [UPLOAD_RUNNING; UPLOAD_COMMIT_STARTED; UPLOAD_AWAITING_CONFIRMATION]).

(** An active session of another key that uses the stage path. *)
Definition stage_taken (proposed : StoredUploadSession) (k : StoreKey) (r : UploadRow) : bool :=
  beqb (ur_stage_path r) (us_stage_path proposed) &&
  (active_state (ur_state r) && negb (key_is k (us_key proposed))).

(** The row [ON CONFLICT ... DO UPDATE SET] writes: the binding columns of the
    old row and the progress columns of the excluded one. *)
Definition upsert_row (old new : UploadRow) : UploadRow :=
  {| ur_target_path := ur_target_path old; ur_stage_path := ur_stage_path old;
     ur_upload_length := ur_upload_length old; ur_durable_offset := ur_durable_offset new;
     ur_state := ur_state new; ur_stage_device_be := ur_stage_device_be new;
     ur_stage_inode_be := ur_stage_inode_be new; ur_target_revision := ur_target_revision new;
     ur_updated_at_ms := ur_updated_at_ms new; ur_expires_at_ms := ur_expires_at_ms new |}.

(** The constraints hold of the inserted row before the conflict on the key is
    looked at, and of the updated one. *)
Definition upload_upsert (k : StoreKey) (row : UploadRow) (m : gmap StoreKey UploadRow)
    : result string (gmap StoreKey UploadRow) :=
  let row' := match m !! k with Some old => upsert_row old row | None => row end in
  if upload_check k row && upload_check k row' then Ok (<[k := row']> m)
  else Err "CHECK constraint failed"%string.

Definition forget_uploads (now : Z) (db : Database) : Database :=
  set_upload_sessions db (sql_delete (forgotten_upload now) (upload_sessions db)).2.

(** Write the merged session. *)
Definition write_upload (result : StoreUploadSession) (stored : StoredUploadSession)
    (now expires_at : Z) (db : Database) : Prelude.result string (StoreUploadSession * Database) :=
  row ← encode_upload_row stored now expires_at;
  t ← upload_upsert (us_key stored) row (upload_sessions db);
  Ok (result, set_upload_sessions db t).

Definition save_body (proposed : StoredUploadSession) (lim : Limits) (now expires_at : Z)
    (db : Database) : result string (StoreUploadSession * Database) :=
  let db := forget_uploads now db in
  existing ← load_upload_session db (us_key proposed);
  if negb (is_terminal (us_state proposed)) &&
     sql_exists (stage_taken proposed) (upload_sessions db)
  then Ok (UConflict, db)
  else
    match existing with
    | None =>
        let global_count := sql_count (λ _ _, true) (upload_sessions db) in
        let owner_count := sql_count (λ k _, owner_is (key_owner (us_key proposed)) k)
                             (upload_sessions db) in
        if (upload_capacity lim <=? global_count) || (upload_per_owner lim <=? owner_count)
        then Ok (UFull, db)
        else write_upload UInserted proposed now expires_at db
    | Some existing =>
        match merge_upload_session existing proposed with
        | Some stored =>
            write_upload (if upload_session_eqb stored existing then UUnchanged else UUpdated)
              stored now expires_at db
        | None => Ok (UConflict, db)
        end
    end.

Definition save_upload_session (e : Env) (proposed : StoredUploadSession) (ttl : Z)
    : W StoreUploadSession :=
  now ← now_ms e;
  lim ← w_limits;
  expires_at ← w_lift (expiration_time now ttl);
  transaction e (save_body proposed lim now expires_at).

(** ** Listing *)

Definition upload_sessions_page (e : Env) (after : option UploadSessionKey) (limit : Z)
    : W (list StoredUploadSession) :=
  _ ← w_lift (ensure (0 <? limit) "Upload startup page limit must be positive"%string);
  _ ← match after with
      | None =>
          lim ← w_limits;
          count ← query e (λ db, Ok (sql_count (λ _ _, true) (upload_sessions db)));
          w_lift (ensure (count <=? upload_capacity lim)
                    "Upload session table exceeds its configured capacity"%string)
      | Some _ => mret tt
      end;
  query e (query_upload_sessions after limit).

Definition expired_upload_sessions (e : Env) (after : option UploadSessionKey) (limit : Z)
    : W (list ExpiredUploadSession) :=
  now ← now_ms e;
  query e (query_expired_upload_sessions now after limit).

(** [load(...)?.as_ref() == Some(expected)]. *)
Definition is_expected {A} (eqb : A -> A -> bool) (loaded : option A) (expected : A) : bool :=
  match loaded with Some a => eqb a expected | None => false end.

Definition expired_upload_session_matches (e : Env) (expected : ExpiredUploadSession) : W bool :=
  now ← now_ms e;
  if now <? eu_expires_at_ms expected then mret false
  else query e (λ db,
         loaded ← load_expired_upload_session db (us_key (eu_session expected));
         Ok (is_expected expired_session_eqb loaded expected)).

(** ** Rejecting a session that awaits confirmation *)

(** The checks [reject_upload_session] makes, before and inside the
    transaction: an answer, or the session to reject. *)
Definition reject_checks (loaded : option StoredUploadSession) (target_path stage_path : bytes)
    : RejectUploadSession + StoredUploadSession :=
  match loaded with
  | None => inl RejNotFound
  | Some session =>
      if negb (path_eqb (us_target_path session) target_path) ||
         negb (path_eqb (us_stage_path session) stage_path)
      then inl RejBindingConflict
      else if bool_decide (us_state session = URejected) then inl (RejRejected session)
      else if negb (bool_decide (us_state session = UAwaitingConfirmation))
      then inl (RejStateConflict session)
      else inr session
  end.

Definition with_upload_state (s now expires_at : Z) (r : UploadRow) : UploadRow :=
  {| ur_target_path := ur_target_path r; ur_stage_path := ur_stage_path r;
     ur_upload_length := ur_upload_length r; ur_durable_offset := ur_durable_offset r;
     ur_state := s; ur_stage_device_be := ur_stage_device_be r;
     ur_stage_inode_be := ur_stage_inode_be r; ur_target_revision := ur_target_revision r;
     ur_updated_at_ms := now; ur_expires_at_ms := expires_at |}.

Definition as_rejected (s : StoredUploadSession) : StoredUploadSession :=
  {| us_key := us_key s; us_target_path := us_target_path s; us_stage_path := us_stage_path s;
     us_upload_length := us_upload_length s; us_durable_offset := us_durable_offset s;
     us_state := URejected; us_stage_identity := us_stage_identity s;
     us_target_revision := us_target_revision s |}.

Definition reject_body (key : UploadSessionKey) (target_path stage_path : bytes)
    (now expires_at : Z) (db : Database) : result string (RejectUploadSession * Database) :=
  loaded ← load_upload_session db key;
  match reject_checks loaded target_path stage_path with
  | inl answer => Ok (answer, db)
  | inr session =>
      '(updated, t) ← sql_update upload_check
          (λ k r, key_is k key && (ur_state r =? UPLOAD_AWAITING_CONFIRMATION))
          (with_upload_state UPLOAD_REJECTED now expires_at) (upload_sessions db);
      _ ← ensure (updated =? 1) "Upload rejection lost its locked session row"%string;
      Ok (RejRejected (as_rejected session), set_upload_sessions db t)
  end.

Definition reject_upload_session (e : Env) (key : UploadSessionKey)
    (target_path stage_path : bytes) (ttl : Z) : W RejectUploadSession :=
  loaded ← query e (λ db, load_upload_session db key);
  match reject_checks loaded target_path stage_path with
  | inl answer => mret answer
  | inr _ =>
      now ← now_ms e;
      lim ← w_limits;
      expires_at ← w_lift (expiration_time now ttl);
      transaction e (reject_body key target_path stage_path now expires_at)
  end.

(** ** Removing *)

Definition remove_body (expected : StoredUploadSession) (db : Database)
    : result string (bool * Database) :=
  loaded ← load_upload_session db (us_key expected);
  if negb (is_expected upload_session_eqb loaded expected) then Ok (false, db)
  else
    let '(removed, t) := sql_delete (λ k _, key_is k (us_key expected)) (upload_sessions db) in
    _ ← ensure (removed =? 1) "Upload removal lost its locked session row"%string;
    Ok (true, set_upload_sessions db t).

Definition remove_upload_session_if_matches (e : Env) (expected : StoredUploadSession) : W bool :=
  transaction e (remove_body expected).

Definition remove_expired_body (expected : ExpiredUploadSession) (now : Z) (db : Database)
    : result string (bool * Database) :=
  if now <? eu_expires_at_ms expected then Ok (false, db)
  else
    loaded ← load_expired_upload_session db (us_key (eu_session expected));
    if negb (is_expected expired_session_eqb loaded expected) then Ok (false, db)
    else
      let '(removed, t) := sql_delete (λ k r, key_is k (us_key (eu_session expected)) &&
                               ((ur_expires_at_ms r =? eu_expires_at_ms expected) &&
                                (ur_expires_at_ms r <=? now))) (upload_sessions db) in
      Ok (removed =? 1, set_upload_sessions db t).

Definition remove_expired_upload_session_if_matches (e : Env) (expected : ExpiredUploadSession)
    : W bool :=
  now ← now_ms e;
  transaction e (remove_expired_body expected now).

(** ** Startup validation

    [UploadRecordStore::validate_stage_layouts] of [src/src/server/upload/record.rs]
    walks every session through [upload_sessions_page] before the server
    starts.  The check of one session reads the file system and is a
    parameter. *)

Definition STARTUP_RECONCILIATION_PAGE_SIZE : Z := 16.

Section startup.
Context (validate_stage_layout : StoredUploadSession -> result string unit).

Fixpoint validate_sessions (l : list StoredUploadSession) : result string unit :=
  match l with
  | [] => Ok tt
  | s :: l => _ ← validate_stage_layout s; validate_sessions l
  end.

Fixpoint validate_stage_layouts (fuel : nat) (e : Env) (after : option UploadSessionKey)
    : W (option unit) :=
  match fuel with
  | O => mret None
  | S fuel =>
      sessions ← upload_sessions_page e after STARTUP_RECONCILIATION_PAGE_SIZE;
      match last sessions with
      | None => mret (Some tt)
      | Some session =>
          _ ← w_lift (validate_sessions sessions);
          validate_stage_layouts fuel e (Some (us_key session))
      end
  end.
End startup.
