(* ===== verification/UploadLifecycle.v ===== *)
(** Properties of upload sessions ([Uploads]): the row codec is a bijection,
    the table keeps its invariant under every sequence of calls, sessions move
    along the upload state machine, and the queries page through all of them. *)

From S2P Require Import Prelude Bytes StdPath StoreModel Database StoreWorker Paging Uploads.
From stdpp Require Import base numbers list gmap strings sorting.

Local Open Scope Z_scope.

(** ** The row codec *)

(** What the field types of [StoredUploadSession] say. *)
Definition upload_typed (s : StoredUploadSession) : Prop :=
  key_wf (us_key s) /\ 0 <= us_upload_length s /\ 0 <= us_durable_offset s /\
  (forall i, us_stage_identity s = Some i -> u64_range (fi_device i) /\ u64_range (fi_inode i)) /\
  (forall r, us_target_revision s = Some r -> blen r = 32).

Lemma encode_upload_runs s now t :
  upload_typed s -> upload_wf s -> exists row, encode_upload_row s now t = Ok row.
Proof.
  intros (_ & H0 & H1 & _) (_ & _ & _ & H2 & _). unfold encode_upload_row.
  assert (i64_try_from (us_upload_length s) = Some (us_upload_length s)) as ->.
  { apply i64_try_from_Some. unfold i64_min. lia. }
  assert (i64_try_from (us_durable_offset s) = Some (us_durable_offset s)) as ->.
  { apply i64_try_from_Some. unfold i64_min. lia. }
  cbn. eauto.
Qed.

Lemma encode_upload_fields s now t row :
  encode_upload_row s now t = Ok row ->
  ur_target_path row = us_target_path s /\ ur_stage_path row = us_stage_path s /\
  ur_upload_length row = us_upload_length s /\ ur_durable_offset row = us_durable_offset s /\
  ur_state row = upload_as_i64 (us_state s) /\
  ur_stage_device_be row = (λ i, u64_to_be_bytes (fi_device i)) <$> us_stage_identity s /\
  ur_stage_inode_be row = (λ i, u64_to_be_bytes (fi_inode i)) <$> us_stage_identity s /\
  ur_target_revision row = us_target_revision s /\
  ur_updated_at_ms row = now /\ ur_expires_at_ms row = t.
Proof.
  intros (l & Hl%ok_or_Ok & (o & Ho%ok_or_Ok & [= <-])%bind_Ok)%bind_Ok.
  apply i64_try_from_Some in Hl as [-> _]. apply i64_try_from_Some in Ho as [-> _].
  by repeat split.
Qed.

(** A row that carries the columns of a valid session decodes to it. *)
Lemma decode_upload_columns k row s :
  us_key s = k -> upload_typed s -> upload_wf s ->
  ur_target_path row = us_target_path s -> ur_stage_path row = us_stage_path s ->
  ur_upload_length row = us_upload_length s -> ur_durable_offset row = us_durable_offset s ->
  ur_state row = upload_as_i64 (us_state s) ->
  ur_stage_device_be row = (λ i, u64_to_be_bytes (fi_device i)) <$> us_stage_identity s ->
  ur_stage_inode_be row = (λ i, u64_to_be_bytes (fi_inode i)) <$> us_stage_identity s ->
  ur_target_revision row = us_target_revision s ->
  decode_upload_row k row = Ok s.
Proof.
  unfold decode_upload_row.
  intros Hk ((Hko & Hki) & Hl & Ho & Hid & Hrev) Hwf -> -> -> -> -> -> -> ->. subst k.
  assert (forall z, 0 <= z <= i64_max -> u64_try_from z = Some z) as Hu.
  { intros z Hz. apply u64_try_from_Some. unfold i64_max, u64_max in *. lia. }
  assert (us_durable_offset s <= us_upload_length s <= i64_max) as Hlen by apply Hwf.
  assert (forall (o : option StoredFileIdentity), o = us_stage_identity s ->
    match (λ i, u64_to_be_bytes (fi_device i)) <$> o, (λ i, u64_to_be_bytes (fi_inode i)) <$> o with
    | None, None => Ok None
    | Some device, Some inode =>
        device ← fixed_bytes 8 device "Upload stage device has an invalid length";
        inode ← fixed_bytes 8 inode "Upload stage inode has an invalid length";
        Ok (Some (mkIdentity (be_value device) (be_value inode)))
    | _, _ => Err "Upload stage identity is incomplete"%string
    end = Ok o) as Hident.
  { intros [i|] Hi; [|done]. destruct (Hid i) as [Hd Hn]; [done|].
    cbn [fmap option_fmap option_map].
    rewrite !fixed_bytes_id by apply u64_to_be_bytes_length. cbn [mbind result_bind].
    rewrite !u64_be_roundtrip by done. by destruct i. }
  rewrite Hident by done. cbn [mbind result_bind].
  rewrite !fixed_bytes_id by done. cbn [mbind result_bind].
  rewrite !Hu by lia. cbn [mbind result_bind ok_or].
  rewrite upload_state_database_roundtrip. cbn [mbind result_bind].
  assert (transpose ((λ revision, fixed_bytes 32 revision
      "Upload target revision has an invalid length") <$> us_target_revision s)
      = Ok (us_target_revision s)) as ->.
  { destruct (us_target_revision s) as [r|] eqn:Hr; [|done]. cbn.
    by rewrite fixed_bytes_id by (by apply Hrev). }
  cbn [mbind result_bind].
  assert (forall x, x = s -> (_ ← validate_upload x; Ok x) = Ok s) as Hv.
  { intros x ->. by rewrite (proj2 (validate_upload_Ok s) Hwf). }
  apply Hv. by destruct s as [[]].
Qed.

(** What a decoded row says, column by column. *)
Lemma decode_upload_Ok k row s :
  decode_upload_row k row = Ok s ->
  us_key s = k /\ upload_typed s /\ upload_wf s /\
  encode_upload_row s (ur_updated_at_ms row) (ur_expires_at_ms row) = Ok row.
Proof.
  unfold decode_upload_row. intros (ident & Hid & H)%bind_Ok.
  apply bind_Ok in H as (o & [-> Ho]%fixed_bytes_Ok & H).
  apply bind_Ok in H as (i & [-> Hi]%fixed_bytes_Ok & H).
  apply bind_Ok in H as (l & [-> Hl]%ok_or_Ok%u64_try_from_Some & H).
  apply bind_Ok in H as (d & [-> Hd]%ok_or_Ok%u64_try_from_Some & H).
  apply bind_Ok in H as (st & Hst%upload_from_database_Ok & H).
  apply bind_Ok in H as (rev & Hrev & H).
  apply bind_Ok in H as ([] & Hv%validate_upload_Ok & [= <-]).
  assert (ur_target_revision row = rev /\ (forall r, rev = Some r -> blen r = 32)) as [Hr1 Hr2].
  { destruct rev as [r|].
    - apply transpose_Ok_Some in Hrev. destruct (ur_target_revision row) as [b|]; [|done].
      injection Hrev as [-> ?]%fixed_bytes_Ok. naive_solver.
    - apply transpose_Ok_None in Hrev. by destruct (ur_target_revision row). }
  assert (ur_stage_device_be row = (λ i, u64_to_be_bytes (fi_device i)) <$> ident /\
    ur_stage_inode_be row = (λ i, u64_to_be_bytes (fi_inode i)) <$> ident /\
    (forall i, ident = Some i -> u64_range (fi_device i) /\ u64_range (fi_inode i))) as (Hi1 & Hi2 & Hi3).
  { destruct (ur_stage_device_be row) as [dev|], (ur_stage_inode_be row) as [ino|]; try done.
    - apply bind_Ok in Hid as (? & [-> Hdl]%fixed_bytes_Ok & Hid).
      apply bind_Ok in Hid as (? & [-> Hil]%fixed_bytes_Ok & [= <-]).
      cbn [fmap option_fmap option_map fi_device fi_inode].
      rewrite !be8_value by done. split_and!; [done|done|]. intros i' [= <-].
      split; by apply be8_range.
    - injection Hid as <-. done. }
  destruct Hv as (V1 & V2 & V3 & V4 & V5). cbn in V1, V2, V3, V4, V5.
  split; [by destruct k|]. split;
    [refine (conj (conj Ho Hi) (conj _ (conj _ (conj Hi3 Hr2)))); cbn; lia|].
  split; [exact (conj V1 (conj V2 (conj V3 (conj V4 V5))))|].
  unfold encode_upload_row.
  cbn [us_target_path us_stage_path us_upload_length us_durable_offset us_state
    us_stage_identity us_target_revision].
  assert (forall z, 0 <= z <= i64_max -> i64_try_from z = Some z) as Hu.
  { intros z Hz. apply i64_try_from_Some. unfold i64_min. lia. }
  rewrite !Hu by lia. cbn [mbind result_bind ok_or].
  rewrite <- Hi1, <- Hi2, <- Hst, <- Hr1. by destruct row.
Qed.

Lemma decode_encode_upload s now t row :
  upload_typed s -> upload_wf s -> encode_upload_row s now t = Ok row ->
  decode_upload_row (us_key s) row = Ok s.
Proof.
  intros Ht Hwf H%encode_upload_fields. destruct_and! H. by apply decode_upload_columns.
Qed.

(** A decodable row satisfies the table's constraints. *)
Lemma decode_upload_check k row s : decode_upload_row k row = Ok s -> upload_check k row = true.
Proof.
  intros (Hk & ((Hko & Hki) & Hl & Ho & Hid & Hrev) & Hwf & He%encode_upload_fields)%decode_upload_Ok.
  unfold upload_check. destruct He as (-> & -> & E1 & E2 & E3 & E4 & E5 & E6 & _ & _). subst k.
  destruct Hwf as ((Ht1 & Ht2 & _) & (Hs1 & Hs2 & _) & Hne & Hlen & Hfull).
  rewrite E1, E2, E3, E4, E5, E6, Hko, Hki.
  assert (forall p : bytes, p <> [] -> blen p <= 65536 -> in_range 1 65536 (blen p) = true) as Hp.
  { intros p Hp ?. apply in_range_true. destruct p; [done|]. unfold blen in *. cbn in *. lia. }
  rewrite !Hp by done.
  assert (beqb (us_target_path s) (us_stage_path s) = false) as ->.
  { apply beqb_false. intros Heq. by rewrite Heq in Hne. }
  assert (in_range 0 5 (upload_as_i64 (us_state s)) = true) as -> by (by destruct (us_state s)).
  assert (opt_len 32 (us_target_revision s) = true) as ->.
  { destruct (us_target_revision s); [|done]. cbn. apply Z.eqb_eq. by apply Hrev. }
  assert ((0 <=? us_upload_length s) = true) as -> by lia.
  assert ((0 <=? us_durable_offset s) = true) as -> by lia.
  assert ((us_durable_offset s <=? us_upload_length s) = true) as -> by lia.
  assert (forall o : option StoredFileIdentity,
    opt_len 8 ((λ i, u64_to_be_bytes (fi_device i)) <$> o) &&
    opt_len 8 ((λ i, u64_to_be_bytes (fi_inode i)) <$> o) = true /\
    is_null ((λ i, u64_to_be_bytes (fi_device i)) <$> o) =
    is_null ((λ i, u64_to_be_bytes (fi_inode i)) <$> o)) as Hopt.
  { intros [i|]; [|done].
    cbn [fmap option_fmap option_map opt_len]. by rewrite !u64_to_be_bytes_length. }
  destruct (Hopt (us_stage_identity s)) as [[-> ->]%andb_true_iff Hnull].
  rewrite (bool_decide_eq_true_2 _ Hnull). cbn.
  destruct (us_state s); cbn in *; rewrite ?orb_true_r; cbn; try done;
    specialize (Hfull eq_refl); by rewrite Hfull, Z.eqb_refl.
Qed.

(** ** The merge *)

(** The session the table holds after [existing] was merged with [proposed]:
    the binding columns are never rewritten. *)
Definition rebind (existing proposed : StoredUploadSession) : StoredUploadSession :=
  {| us_key := us_key existing; us_target_path := us_target_path existing;
     us_stage_path := us_stage_path existing; us_upload_length := us_upload_length existing;
     us_durable_offset := us_durable_offset proposed; us_state := us_state proposed;
     us_stage_identity := us_stage_identity proposed;
     us_target_revision := us_target_revision proposed |}.

(** The transitions of the upload state machine, and the fields they keep. *)
Definition upload_advances (a b : StoredUploadSession) : Prop :=
  us_key b = us_key a /\ us_target_path b = us_target_path a /\
  us_stage_path b = us_stage_path a /\ us_upload_length b = us_upload_length a /\
  us_durable_offset a <= us_durable_offset b <= us_upload_length b /\
  (us_stage_identity a = None \/ us_stage_identity b = us_stage_identity a) /\
  (us_state a = us_state b \/ upload_transition (us_state a) (us_state b) = true) /\
  (is_terminal (us_state a) = true -> b = a) /\
  (us_target_revision a <> us_target_revision b ->
   (us_state a = us_state b /\ is_terminal (us_state a) = false) \/
   us_state a = UAwaitingConfirmation).

Lemma identity_lost_false a b : identity_lost a b = false -> a = None \/ b = a.
Proof.
  destruct a as [i|], b as [j|]; cbn; try naive_solver.
  case_bool_decide; cbn; naive_solver.
Qed.

Lemma merge_upload_spec existing proposed stored :
  upload_wf existing -> upload_wf proposed ->
  merge_upload_session existing proposed = Some stored ->
  stored = proposed /\ us_key proposed = us_key existing /\
  components (us_target_path existing) = components (us_target_path proposed) /\
  components (us_stage_path existing) = components (us_stage_path proposed) /\
  us_upload_length proposed = us_upload_length existing /\
  upload_advances existing (rebind existing proposed).
Proof.
  intros _ (_ & _ & _ & Hlen & _). unfold merge_upload_session. destruct (_ || _) eqn:Hbind; [done|].
  repeat match goal with H : (_ || _) = false |- _ => apply orb_false_iff in H as [? H] end.
  bool_prop.
  repeat match goal with H : path_eqb _ _ = true |- _ => apply path_eqb_spec in H end.
  pose proof (identity_lost_false _ _ Hbind) as Hident.
  cbv zeta. destruct (_ || _) eqn:Hdec; [done|]. intros [= <-]. bool_prop.
  split_and!; try done.
  assert (upload_transition (us_state existing) (us_state proposed) = true ->
    is_terminal (us_state existing) = false) as Hnt by (destruct (us_state existing), (us_state proposed); done).
  unfold upload_advances, rebind; cbn.
  destruct (bool_decide (us_state existing = us_state proposed)) eqn:Hst; bool_prop.
  - split_and!; [done..|lia|lia|done|auto| |].
    + intros Hterm.
      assert (us_state existing <> UAwaitingConfirmation) by (by destruct (us_state existing)).
      rewrite Hterm in *. destruct existing, proposed; cbn in *.
      repeat case_bool_decide; (destruct H4 as [?|H4]; [done|]); bool_prop; try done; naive_solver.
    + intros Hrev. destruct (is_terminal _); cbn in *; [|auto].
      repeat case_bool_decide; naive_solver.
  - split_and!; [done..|lia|lia|done|auto| |].
    + intros Hterm. by rewrite Hnt in Hterm.
    + intros Hrev. cbn in *. repeat case_bool_decide; naive_solver.
Qed.

(** ** What a call does to the table *)

Abbreviation Uploads := (gmap StoreKey UploadRow).

Definition kept (now : Z) (m : Uploads) : Uploads := (sql_delete (forgotten_upload now) m).2.

(** [removed] names the session an explicit removal deletes. *)
Inductive up_effect (lim : Limits) (now : Z) : option StoreKey -> Uploads -> Uploads -> Prop :=
| up_none l m : up_effect lim now l m m
| up_forget l m : up_effect lim now l m (kept now m)
| up_insert l m s row t :
    upload_typed s -> upload_wf s -> encode_upload_row s now t = Ok row ->
    (is_terminal (us_state s) = false ->
     forall k r, kept now m !! k = Some r -> stage_taken s k r = false) ->
    kept now m !! us_key s = None ->
    sql_count (λ _ _, true) (kept now m) < upload_capacity lim ->
    sql_count (λ k _, owner_is (key_owner (us_key s)) k) (kept now m) < upload_per_owner lim ->
    up_effect lim now l m (<[us_key s := row]> (kept now m))
| up_merge l m s row t old existing :
    upload_typed s -> upload_wf s -> encode_upload_row s now t = Ok row ->
    kept now m !! us_key s = Some old -> decode_upload_row (us_key s) old = Ok existing ->
    merge_upload_session existing s = Some s ->
    up_effect lim now l m (<[us_key s := upsert_row old row]> (kept now m))
| up_reject l m k r s t :
    m !! k = Some r -> decode_upload_row k r = Ok s -> us_state s = UAwaitingConfirmation ->
    up_effect lim now l m (<[k := with_upload_state UPLOAD_REJECTED now t r]> m)
| up_remove m k : up_effect lim now (Some k) m (delete k m).

(** One call of the upload interface; [l] is the key of an explicit removal.
    [StateStore::save_upload_session] validates the session before the command
    is sent. *)
Inductive up_step : option StoreKey -> StoreWorker -> StoreWorker -> Prop :=
| up_step_save e s ttl w r w' :
    upload_typed s -> validate_upload s = Ok tt ->
    save_upload_session e s ttl w = (r, w') -> up_step None w w'
| up_step_page e after limit w r w' :
    upload_sessions_page e after limit w = (r, w') -> up_step None w w'
| up_step_expired e after limit w r w' :
    expired_upload_sessions e after limit w = (r, w') -> up_step None w w'
| up_step_matches e x w r w' :
    expired_upload_session_matches e x w = (r, w') -> up_step None w w'
| up_step_reject e k tp sp ttl w r w' :
    reject_upload_session e k tp sp ttl w = (r, w') -> up_step None w w'
| up_step_remove e s w r w' :
    remove_upload_session_if_matches e s w = (r, w') -> up_step (Some (us_key s)) w w'
| up_step_remove_expired e x w r w' :
    remove_expired_upload_session_if_matches e x w = (r, w') ->
    up_step (Some (us_key (eu_session x))) w w'.

Definition up_frame (w w' : StoreWorker) : Prop :=
  same_frame w w' /\ operations (connection w') = operations (connection w) /\
  purge_jobs (connection w') = purge_jobs (connection w).

Definition up_result (l : option StoreKey) (w w' : StoreWorker) : Prop :=
  up_frame w w' /\
  up_effect (limits w) (last_ms (clock w')) l (upload_sessions (connection w))
    (upload_sessions (connection w')).

Lemma up_result_none l w w' :
  connection w' = connection w -> same_frame w w' -> up_result l w w'.
Proof. intros Hc Hf. split; [|rewrite Hc; constructor]. unfold up_frame. by rewrite Hc. Qed.

Lemma load_upload_Some db k s :
  load_upload_session db k = Ok (Some s) <->
  exists r, upload_sessions db !! k = Some r /\ decode_upload_row k r = Ok s.
Proof.
  unfold load_upload_session. rewrite transpose_Ok_Some, fmap_Some.
  split; intros (r & ? & ?); eauto.
Qed.

Lemma load_upload_None db k :
  load_upload_session db k = Ok None <-> upload_sessions db !! k = None.
Proof. unfold load_upload_session. by rewrite transpose_Ok_None, fmap_None. Qed.

Lemma write_upload_Ok res s now t db a db' :
  write_upload res s now t db = Ok (a, db') ->
  exists row, encode_upload_row s now t = Ok row /\ a = res /\
    db' = set_upload_sessions db
      (<[us_key s := match upload_sessions db !! us_key s with
                     | Some old => upsert_row old row | None => row end]> (upload_sessions db)).
Proof.
  intros (row & Hr & (m & Hm & [= <- <-])%bind_Ok)%bind_Ok. exists row.
  unfold upload_upsert in Hm. destruct (_ && _); [|done]. injection Hm as <-. done.
Qed.

Lemma merge_upload_id a b s : merge_upload_session a b = Some s -> s = b.
Proof. unfold merge_upload_session. repeat case_match; congruence. Qed.

Lemma save_effect e s ttl w r w' :
  upload_typed s -> validate_upload s = Ok tt ->
  save_upload_session e s ttl w = (r, w') -> up_result None w w'.
Proof.
  intros Ht Hwf%validate_upload_Ok H.
  apply (timed_transaction e (λ _ now, expiration_time now ttl) (save_body s)) in H
    as [(Hc & Hf & _)|(t & a & db & -> & _ & H & Hdb & Hf)]; [by apply up_result_none|].
  unfold up_result, up_frame. rewrite Hdb. set (now := last_ms (clock w')) in *.
  apply bind_Ok in H as (ex & Hload & H). destruct (_ && _) eqn:Hstage.
  { injection H as _ <-. split; [done|apply up_forget]. }
  destruct ex as [ex|].
  - apply load_upload_Some in Hload as (old & Hold & Hdec).
    destruct (merge_upload_session ex s) as [s'|] eqn:Hm;
      [|injection H as _ <-; split; [done|apply up_forget]].
    pose proof (merge_upload_id _ _ _ Hm) as ->.
    apply write_upload_Ok in H as (row & Hrow & _ & ->). rewrite Hold.
    split; [done|]. by eapply up_merge.
  - apply load_upload_None in Hload. cbv zeta in H.
    destruct (_ || _) eqn:Hfull; [injection H as _ <-; split; [done|apply up_forget]|].
    apply write_upload_Ok in H as (row & Hrow & _ & ->). rewrite Hload. bool_prop.
    split; [done|]. eapply up_insert; try done.
    intros Hterm. rewrite Hterm in Hstage. apply sql_exists_false. by destruct Hstage.
Qed.

Lemma page_keeps e after limit w r w' : upload_sessions_page e after limit w = (r, w') -> w' = w.
Proof.
  unfold upload_sessions_page. cbv [mbind W_bind w_lift w_limits mret W_ret].
  destruct (ensure _ _); [|by intros [= _ <-]].
  destruct after; [apply query_keeps|].
  destruct (query e _ w) as [[c|err] w1] eqn:Hq; apply query_keeps in Hq as ->;
    [|by intros [= _ <-]].
  destruct (ensure _ _); [apply query_keeps|by intros [= _ <-]].
Qed.

Lemma expired_keeps e after limit w r w' :
  expired_upload_sessions e after limit w = (r, w') ->
  connection w' = connection w /\ same_frame w w'.
Proof.
  unfold expired_upload_sessions. cbv [mbind W_bind].
  destruct (now_ms e w) as [[n|err] w1] eqn:Hn; apply now_ms_frame in Hn;
    [|by intros [= _ <-]]. by intros ->%query_keeps.
Qed.

Lemma matches_keeps e x w r w' :
  expired_upload_session_matches e x w = (r, w') ->
  connection w' = connection w /\ same_frame w w'.
Proof.
  unfold expired_upload_session_matches. cbv [mbind W_bind mret W_ret].
  destruct (now_ms e w) as [[n|err] w1] eqn:Hn; apply now_ms_frame in Hn;
    [|by intros [= _ <-]].
  destruct (_ <? _); [by intros [= _ <-]|by intros ->%query_keeps].
Qed.

Lemma reject_checks_inr loaded tp sp s :
  reject_checks loaded tp sp = inr s ->
  loaded = Some s /\ us_state s = UAwaitingConfirmation /\
  components (us_target_path s) = components tp /\ components (us_stage_path s) = components sp.
Proof.
  unfold reject_checks. destruct loaded as [x|]; [|done].
  destruct (_ || _) eqn:Hb; [done|]. case_bool_decide; [done|]. case_bool_decide; [|done].
  intros [= <-]. bool_prop. rewrite !path_eqb_spec in *. done.
Qed.

Lemma awaiting_state k r s :
  decode_upload_row k r = Ok s -> us_state s = UAwaitingConfirmation ->
  (ur_state r =? UPLOAD_AWAITING_CONFIRMATION) = true.
Proof.
  intros (_ & _ & _ & He%encode_upload_fields)%decode_upload_Ok Hs.
  destruct_and! He. apply Z.eqb_eq. rewrite Hs in *. done.
Qed.

Lemma reject_body_effect lim k tp sp now t db a db' :
  reject_body k tp sp now t db = Ok (a, db') ->
  up_effect lim now None (upload_sessions db) (upload_sessions db') /\
  operations db' = operations db /\ purge_jobs db' = purge_jobs db.
Proof.
  intros (loaded & Hload & H)%bind_Ok.
  destruct (reject_checks loaded tp sp) as [ans|s] eqn:Hc.
  { injection H as _ <-. split; [constructor|done]. }
  apply reject_checks_inr in Hc as (-> & Hst & _).
  apply load_upload_Some in Hload as (r & Hr & Hdec).
  apply bind_Ok in H as ([n m'] & Hu & H). apply bind_Ok in H as (_ & _ & [= _ <-]).
  apply (sql_update_one upload_check k (λ r, ur_state r =? UPLOAD_AWAITING_CONFIRMATION)) in Hu.
  rewrite Hr, (awaiting_state _ _ _ Hdec Hst) in Hu. destruct Hu as (_ & -> & _).
  split; [by eapply up_reject|done].
Qed.

Lemma reject_effect e k tp sp ttl w r w' :
  reject_upload_session e k tp sp ttl w = (r, w') -> up_result None w w'.
Proof.
  unfold reject_upload_session. cbv [mbind W_bind mret W_ret].
  destruct (query e _ w) as [[loaded|err] w1] eqn:Hq; apply query_keeps in Hq as ->;
    [|intros [= _ <-]; by apply up_result_none].
  destruct (reject_checks loaded tp sp); [intros [= _ <-]; by apply up_result_none|].
  intros H. apply (timed_transaction e (λ _ now, expiration_time now ttl)
      (λ _ now t, reject_body k tp sp now t)) in H
    as [(Hc & Hf & _)|(t & a & db & -> & _ & H & Hdb & Hf)]; [by apply up_result_none|].
  unfold up_result, up_frame. rewrite Hdb.
  apply (reject_body_effect (limits w)) in H as (? & ? & ?). done.
Qed.

Lemma remove_effect e s w r w' :
  remove_upload_session_if_matches e s w = (r, w') -> up_result (Some (us_key s)) w w'.
Proof.
  intros [(a & db & -> & H & ->)|(err & _ & ->)]%transaction_cases; [|by apply up_result_none].
  unfold up_result, up_frame. cbn [connection set_connection]. unfold remove_body in H.
  apply bind_Ok in H as (loaded & _ & H). destruct (negb _); [injection H as _ <-; by split; [|constructor]|].
  rewrite sql_delete_key in H. destruct (_ !! _); [|done].
  apply bind_Ok in H as (_ & _ & [= _ <-]). split; [done|]. apply up_remove.
Qed.

Lemma remove_expired_effect e x w r w' :
  remove_expired_upload_session_if_matches e x w = (r, w') ->
  up_result (Some (us_key (eu_session x))) w w'.
Proof.
  intros H. apply (timed_transaction_nolim e (remove_expired_body x)) in H
    as [(Hc & Hf & _)|(a & db & -> & H & Hdb & Hf)]; [by apply up_result_none|].
  unfold up_result, up_frame. rewrite Hdb. unfold remove_expired_body in H.
  destruct (_ <? _); [injection H as _ <-; by split; [|constructor]|].
  apply bind_Ok in H as (loaded & _ & H). destruct (negb _); [injection H as _ <-; by split; [|constructor]|].
  rewrite (sql_delete_one (us_key (eu_session x)) (λ r, (ur_expires_at_ms r =? eu_expires_at_ms x) &&
    (ur_expires_at_ms r <=? last_ms (clock w')))) in H.
  destruct (_ !! _) as [row|]; [destruct (_ && _)|]; injection H as _ <-;
    (split; [done|constructor]).
Qed.

Lemma up_step_result l w w' : up_step l w w' -> up_result l w w'.
Proof.
  destruct 1 as [? ? ? ? ? ? ? ? H|? ? ? ? ? ? H|? ? ? ? ? ? H|? ? ? ? ? H|? ? ? ? ? ? ? ? H|? ? ? ? ? H|? ? ? ? ? H].
  - by eapply save_effect.
  - apply page_keeps in H as ->. by apply up_result_none.
  - apply expired_keeps in H as []. by apply up_result_none.
  - apply matches_keeps in H as []. by apply up_result_none.
  - by eapply reject_effect.
  - by eapply remove_effect.
  - by eapply remove_expired_effect.
Qed.

(** ** The invariant *)

Definition uploads_inv (lim : Limits) (m : Uploads) : Prop :=
  (forall k r, m !! k = Some r -> exists s, decode_upload_row k r = Ok s) /\
  within (upload_capacity lim) (upload_per_owner lim) m /\
  (forall k1 r1 k2 r2, m !! k1 = Some r1 -> m !! k2 = Some r2 ->
     active_state (ur_state r1) = true -> active_state (ur_state r2) = true ->
     ur_stage_path r1 = ur_stage_path r2 -> k1 = k2).

Lemma kept_Some now m k r :
  kept now m !! k = Some r <-> m !! k = Some r /\ forgotten_upload now k r = false.
Proof.
  unfold kept. rewrite lookup_sql_delete. destruct (m !! k) as [r'|]; [|naive_solver].
  destruct (forgotten_upload now k r') eqn:Hf; naive_solver congruence.
Qed.

Lemma active_decoded k r s :
  decode_upload_row k r = Ok s -> active_state (ur_state r) = negb (is_terminal (us_state s)).
Proof.
  intros (_ & _ & _ & (_ & _ & _ & _ & -> & _)%encode_upload_fields)%decode_upload_Ok.
  by destruct (us_state s).
Qed.

Lemma decode_key k r s : decode_upload_row k r = Ok s -> us_key s = k.
Proof. by intros (? & _)%decode_upload_Ok. Qed.

Lemma decode_merged k old row existing s now t :
  decode_upload_row k old = Ok existing -> us_key s = k ->
  upload_typed s -> upload_wf s -> encode_upload_row s now t = Ok row ->
  merge_upload_session existing s = Some s ->
  decode_upload_row k (upsert_row old row) = Ok (rebind existing s) /\
  upload_advances existing (rebind existing s).
Proof.
  intros Hdec Hk Hty Hwf Henc Hm.
  apply decode_upload_Ok in Hdec as (Hke & (Hkw & Hl & Ho & _) & Hwe & Hee%encode_upload_fields).
  apply merge_upload_spec in Hm as (_ & _ & _ & _ & Hlen & Hadv); [|done..].
  split; [|done]. apply encode_upload_fields in Henc.
  destruct Hwe as (V1 & V2 & V3 & V4 & _). destruct Hwf as (_ & _ & _ & W4 & W5).
  destruct Hty as (_ & _ & To & Ti & Tr).
  destruct_and! Hee. destruct_and! Henc.
  apply decode_upload_columns; cbn; try done.
  unfold upload_wf; cbn. split_and!; try done; [lia|lia|]. intros Hf. rewrite W5 by done. lia.
Qed.

Lemma decode_rejected k r s now t :
  decode_upload_row k r = Ok s -> us_state s = UAwaitingConfirmation ->
  decode_upload_row k (with_upload_state UPLOAD_REJECTED now t r) = Ok (as_rejected s) /\
  upload_advances s (as_rejected s).
Proof.
  intros (Hk & Hty & Hwf & He%encode_upload_fields)%decode_upload_Ok Hst.
  destruct_and! He. destruct Hwf as (V1 & V2 & V3 & V4 & _).
  split; [apply decode_upload_columns; try done|].
  unfold upload_advances. rewrite Hst. cbn. split_and!; try done; try lia; auto.
Qed.

Lemma kept_inv lim now m : uploads_inv lim m -> uploads_inv lim (kept now m).
Proof.
  intros (Hv & Hw & Hu). split_and!.
  - intros k r [Hk _]%kept_Some. eauto.
  - eapply within_subset; [apply dom_sql_delete|done].
  - intros k1 r1 k2 r2 [H1 _]%kept_Some [H2 _]%kept_Some. eauto.
Qed.

Lemma insert_stage_unique (m : Uploads) k row :
  (forall k1 r1 k2 r2, m !! k1 = Some r1 -> m !! k2 = Some r2 ->
     active_state (ur_state r1) = true -> active_state (ur_state r2) = true ->
     ur_stage_path r1 = ur_stage_path r2 -> k1 = k2) ->
  (active_state (ur_state row) = true -> forall k' r', k' <> k -> m !! k' = Some r' ->
     active_state (ur_state r') = true -> ur_stage_path r' <> ur_stage_path row) ->
  forall k1 r1 k2 r2, <[k := row]> m !! k1 = Some r1 -> <[k := row]> m !! k2 = Some r2 ->
     active_state (ur_state r1) = true -> active_state (ur_state r2) = true ->
     ur_stage_path r1 = ur_stage_path r2 -> k1 = k2.
Proof.
  intros Hu Hrow k1 r1 k2 r2.
  destruct (decide (k1 = k)) as [->|H1], (decide (k2 = k)) as [->|H2];
    rewrite ?lookup_insert_eq, ?lookup_insert_ne by done; try done.
  - intros [= <-] Hk2 Ha1 Ha2 Hp. by destruct (Hrow Ha1 k2 r2 H2 Hk2 Ha2).
  - intros Hk1 [= <-] Ha1 Ha2 Hp. by destruct (Hrow Ha2 k1 r1 H1 Hk1 Ha1).
  - apply Hu.
Qed.

(** Replacing a session by one it can advance to keeps the table valid. *)
Lemma advance_inv lim (m : Uploads) k r a row b :
  uploads_inv lim m -> m !! k = Some r -> decode_upload_row k r = Ok a ->
  decode_upload_row k row = Ok b -> upload_advances a b ->
  uploads_inv lim (<[k := row]> m).
Proof.
  intros (Hv & Hw & Hu) Hk Ha Hb (_ & _ & Hs & _ & _ & _ & Ht & Hterm & _). split_and!.
  - intros k' r'. destruct (decide (k' = k)) as [->|Hne];
      rewrite ?lookup_insert_eq, ?lookup_insert_ne by done; [|apply Hv].
    intros [= <-]. eauto.
  - apply within_update; [by rewrite Hk|done].
  - apply insert_stage_unique; [done|]. rewrite (active_decoded _ _ _ Hb).
    intros Hact k' r' Hne Hk' Hact' Hpath. apply Hne.
    apply (Hu k' r' k r); try done.
    + rewrite (active_decoded _ _ _ Ha). destruct (is_terminal (us_state a)) eqn:Hta; [|done].
      specialize (Hterm eq_refl). subst b. by rewrite Hta in Hact.
    + apply decode_upload_Ok in Ha as (_ & _ & _ & Ha%encode_upload_fields).
      apply decode_upload_Ok in Hb as (_ & _ & _ & Hb%encode_upload_fields).
      destruct_and! Ha. destruct_and! Hb. congruence.
Qed.

Lemma delete_inv lim (m : Uploads) k : uploads_inv lim m -> uploads_inv lim (delete k m).
Proof.
  intros (Hv & Hw & Hu). split_and!.
  - intros k' r [_ Hk]%lookup_delete_Some. eauto.
  - eapply within_subset; [|done]. rewrite dom_delete_L. set_solver.
  - intros k1 r1 k2 r2 [_ H1]%lookup_delete_Some [_ H2]%lookup_delete_Some. eauto.
Qed.

Lemma up_effect_inv lim now l m m' :
  up_effect lim now l m m' -> uploads_inv lim m -> uploads_inv lim m'.
Proof.
  destruct 1 as [l m|l m|l m s row t Hty Hwf Henc Hst Hk Hg Ho
    |l m s row t old ex Hty Hwf Henc Hk Hdec Hm|l m k r s t Hk Hdec Hst|m k]; intros Hinv.
  - done.
  - by apply kept_inv.
  - apply (kept_inv lim now) in Hinv as (Hv & Hw & Hu).
    pose proof (decode_encode_upload _ _ _ _ Hty Hwf Henc) as Hdec. split_and!.
    + intros k' r'. destruct (decide (k' = us_key s)) as [->|Hne];
        rewrite ?lookup_insert_eq, ?lookup_insert_ne by done; [|apply Hv].
      intros [= <-]. eauto.
    + by apply within_insert.
    + apply insert_stage_unique; [done|]. rewrite (active_decoded _ _ _ Hdec).
      intros Hact k' r' Hne Hk' Hact' Hpath. apply negb_true_iff in Hact.
      specialize (Hst Hact k' r' Hk'). unfold stage_taken, key_is in Hst.
      apply encode_upload_fields in Henc as (_ & Hsp & _).
      rewrite Hact', bool_decide_eq_false_2, Hpath, Hsp, beqb_refl in Hst by done. done.
  - apply (kept_inv lim now) in Hinv.
    destruct (decode_merged _ _ _ _ _ _ _ Hdec eq_refl Hty Hwf Henc Hm) as [Hd Ha].
    by eapply advance_inv.
  - destruct (decode_rejected k r s now t Hdec Hst) as [Hd Ha]. by eapply advance_inv.
  - by apply delete_inv.
Qed.

Definition up_any (w w' : StoreWorker) : Prop := exists l, up_step l w w'.

Lemma up_steps_inv w w' :
  rtc up_any w w' -> uploads_inv (limits w) (upload_sessions (connection w)) ->
  uploads_inv (limits w') (upload_sessions (connection w')).
Proof.
  induction 1 as [w|w1 w2 w3 [l H] _ IH]; [done|]. intros Hinv. apply IH.
  destruct (up_step_result _ _ _ H) as [((Hlim & _) & _) He]. rewrite Hlim.
  by eapply up_effect_inv.
Qed.

Lemma uploads_inv_empty lim :
  0 <= upload_capacity lim -> 0 <= upload_per_owner lim -> uploads_inv lim ∅.
Proof. intros Hc Hp. by split_and!. Qed.

(** Every reachable [upload_sessions] table is valid.  From an empty table
    with non-negative limits, any sequence of calls - saves, rejections,
    removals, listings, failing ones included - keeps every row decodable
    (hence validated and within every CHECK constraint), the global and the
    per-owner capacity respected, and every stage path used by at most one
    active session. *)
Theorem uploads_table_invariant w w' :
  upload_sessions (connection w) = ∅ ->
  0 <= upload_capacity (limits w) -> 0 <= upload_per_owner (limits w) ->
  rtc up_any w w' -> uploads_inv (limits w') (upload_sessions (connection w')).
Proof.
  intros He Hc Hp Hsteps. apply (up_steps_inv _ _ Hsteps). rewrite He. by apply uploads_inv_empty.
Qed.

(** ** Refinement of the upload state machine *)

(** The session a reader of the table sees. *)
Definition session_at (m : Uploads) (k : StoreKey) : option StoredUploadSession :=
  match m !! k with
  | Some r => result_ok (decode_upload_row k r)
  | None => None
  end.
Definition upload_view (w : StoreWorker) : StoreKey -> option StoredUploadSession :=
  session_at (upload_sessions (connection w)).

(** What the store promises about one session that nobody removes: it is
    created valid, only advances, and is forgotten only when it is terminal
    and, if rejected, owns no stage file. *)
Inductive upload_spec : option StoredUploadSession -> option StoredUploadSession -> Prop :=
| spec_create s : upload_wf s -> upload_spec None (Some s)
| spec_advance a b : upload_advances a b -> upload_spec (Some a) (Some b)
| spec_forget a :
    is_terminal (us_state a) = true ->
    (us_state a = URejected -> us_stage_identity a = None) ->
    upload_spec (Some a) None.

(** Calls that do not remove the session [k]. *)
Definition up_keeping (k : StoreKey) (w w' : StoreWorker) : Prop :=
  exists l, l <> Some k /\ up_step l w w'.

Lemma session_at_insert m k k' r :
  session_at (<[k := r]> m) k' =
    if decide (k' = k) then result_ok (decode_upload_row k r) else session_at m k'.
Proof.
  unfold session_at. destruct (decide (k' = k)) as [->|Hne].
  - by rewrite lookup_insert_eq.
  - by rewrite lookup_insert_ne.
Qed.

Lemma session_at_Some m k s :
  session_at m k = Some s <-> exists r, m !! k = Some r /\ decode_upload_row k r = Ok s.
Proof.
  unfold session_at. destruct (m !! k) as [r|]; [|naive_solver].
  destruct (decode_upload_row k r) eqn:Hd; cbn; naive_solver congruence.
Qed.

Lemma forgotten_terminal now k r s :
  decode_upload_row k r = Ok s -> forgotten_upload now k r = true ->
  is_terminal (us_state s) = true /\ (us_state s = URejected -> us_stage_identity s = None).
Proof.
  intros (_ & _ & _ & (_ & _ & _ & _ & E1 & E2 & E3 & _)%encode_upload_fields)%decode_upload_Ok.
  unfold forgotten_upload. rewrite E1, E2, E3. intros [_ Hf]%andb_true_iff.
  destruct (us_state s); cbn in Hf; try done.
  split; [done|]. intros _. by destruct (us_stage_identity s).
Qed.

Lemma kept_view now (m : Uploads) k :
  (forall r, m !! k = Some r -> exists s, decode_upload_row k r = Ok s) ->
  rtc upload_spec (session_at m k) (session_at (kept now m) k).
Proof.
  intros Hv. unfold session_at, kept. rewrite lookup_sql_delete.
  destruct (m !! k) as [r|] eqn:Hk; [|done].
  destruct (Hv r eq_refl) as [s Hs]. rewrite Hs. cbn.
  destruct (forgotten_upload now k r) eqn:Hf; [|rewrite Hs; done].
  apply rtc_once. destruct (forgotten_terminal _ _ _ _ Hs Hf). by constructor.
Qed.

Lemma up_effect_refines lim now l m m' k :
  uploads_inv lim m -> l <> Some k -> up_effect lim now l m m' ->
  rtc upload_spec (session_at m k) (session_at m' k).
Proof.
  intros (Hv & _ & _) Hl He. pose proof (kept_view now m k (Hv k)) as Hkept.
  destruct He as [l m|l m|l m s row t Hty Hwf Henc Hst Hk Hg Ho
    |l m s row t old ex Hty Hwf Henc Hk Hdec Hm|l m k0 r s t Hk Hdec Hst|m k0].
  - done.
  - done.
  - rewrite session_at_insert. destruct (decide _) as [->|]; [|done].
    rewrite (decode_encode_upload _ _ _ _ Hty Hwf Henc). eapply rtc_r; [done|].
    unfold session_at at 1. rewrite Hk. by constructor.
  - rewrite session_at_insert. destruct (decide _) as [->|]; [|done].
    destruct (decode_merged _ _ _ _ _ _ _ Hdec eq_refl Hty Hwf Henc Hm) as [-> Ha].
    eapply rtc_r; [done|]. unfold session_at at 1. rewrite Hk, Hdec. by constructor.
  - rewrite session_at_insert. destruct (decide _) as [->|]; [|done].
    destruct (decode_rejected k0 r s now t Hdec Hst) as [-> Ha].
    unfold session_at. rewrite Hk, Hdec. apply rtc_once. by constructor.
  - unfold session_at. rewrite lookup_delete_ne by congruence. done.
Qed.

(** C22: upload sessions follow the upload state machine.  While nobody
    removes the session [k], whatever calls are made on it and on other
    sessions, its stored value moves only along [upload_spec]: the target and
    stage binding and the length never change, the durable offset never
    decreases, a recorded stage identity is never replaced, the state follows
    Running -> CommitStarted -> Committed with the documented exits, a terminal
    session is frozen, and only a terminal session without a stage file to
    clean up is ever forgotten. *)
Theorem uploads_refine_lifecycle w w' k :
  uploads_inv (limits w) (upload_sessions (connection w)) -> rtc (up_keeping k) w w' ->
  rtc upload_spec (upload_view w k) (upload_view w' k).
Proof.
  intros Hinv Hs. revert Hinv. induction Hs as [w|w1 w2 w3 (l & Hl & H) _ IH]; [done|].
  intros Hinv. destruct (up_step_result _ _ _ H) as [((Hlim & _) & _) He].
  etrans; [by eapply up_effect_refines|]. apply IH. rewrite Hlim. by eapply up_effect_inv.
Qed.

(** ** What a save answers *)

Lemma upsert_runs k row s m now t :
  us_key s = k -> upload_typed s -> upload_wf s -> encode_upload_row s now t = Ok row ->
  (forall old ex, m !! k = Some old -> decode_upload_row k old = Ok ex ->
     merge_upload_session ex s = Some s) ->
  (forall old, m !! k = Some old -> exists ex, decode_upload_row k old = Ok ex) ->
  upload_upsert k row m =
    Ok (<[k := match m !! k with Some old => upsert_row old row | None => row end]> m).
Proof.
  intros Hk Hty Hwf Henc Hm Hv. unfold upload_upsert.
  assert (upload_check k row = true) as ->.
  { subst k. by eapply decode_upload_check, decode_encode_upload. }
  destruct (m !! k) as [old|] eqn:Hold; cbn.
  - destruct (Hv old eq_refl) as [ex Hex]. specialize (Hm old ex eq_refl Hex).
    destruct (decode_merged _ _ _ _ _ _ _ Hex Hk Hty Hwf Henc Hm) as [Hd _].
    by rewrite (decode_upload_check _ _ _ Hd).
  - subst k. by rewrite (decode_upload_check _ _ _ (decode_encode_upload _ _ _ _ Hty Hwf Henc)).
Qed.

(** The outcome of a save, given the table without the forgotten rows and the
    table it leaves. *)
Definition save_outcome (lim : Limits) (t : Uploads) (s : StoredUploadSession)
    (a : StoreUploadSession) (t' : Uploads) : Prop :=
  (forall k, k <> us_key s -> t' !! k = t !! k) /\
  match a with
  | UInserted =>
      session_at t (us_key s) = None /\ session_at t' (us_key s) = Some s
  | UUpdated | UUnchanged =>
      exists ex, session_at t (us_key s) = Some ex /\
        session_at t' (us_key s) = Some (rebind ex s) /\
        upload_session_eqb (rebind ex s) s = true /\
        upload_session_eqb s ex = (match a with UUnchanged => true | _ => false end)
  | UConflict =>
      t' = t /\
      ((exists k r, k <> us_key s /\ t !! k = Some r /\ active_state (ur_state r) = true /\
          ur_stage_path r = us_stage_path s) \/
       (exists ex, session_at t (us_key s) = Some ex /\ merge_upload_session ex s = None))
  | UFull =>
      t' = t /\ session_at t (us_key s) = None /\
      (upload_capacity lim <= sql_count (λ _ _, true) t \/
       upload_per_owner lim <= sql_count (λ k _, owner_is (key_owner (us_key s)) k) t)
  end.

Lemma rebind_equiv ex s :
  upload_wf ex -> upload_wf s -> merge_upload_session ex s = Some s ->
  upload_session_eqb (rebind ex s) s = true.
Proof.
  intros He Hs Hm. apply merge_upload_spec in Hm as (_ & Hk & Ht & Hp & Hl & _); [|done..].
  unfold upload_session_eqb, rebind; cbn. rewrite !bool_decide_eq_true_2, !Z.eqb_refl by done.
  rewrite (proj2 (path_eqb_spec _ _) Ht), (proj2 (path_eqb_spec _ _) Hp), Hl, Z.eqb_refl. done.
Qed.

Lemma load_session_at db k :
  (forall r, upload_sessions db !! k = Some r -> exists s, decode_upload_row k r = Ok s) ->
  load_upload_session db k = Ok (session_at (upload_sessions db) k).
Proof.
  intros Hv. unfold load_upload_session, session_at.
  destruct (upload_sessions db !! k) as [r|]; [|done].
  destruct (Hv r eq_refl) as [s Hs]. cbn [fmap option_fmap option_map]. by rewrite Hs.
Qed.

Lemma write_upload_runs a s now t db :
  upload_typed s -> upload_wf s ->
  (forall old ex, upload_sessions db !! us_key s = Some old ->
     decode_upload_row (us_key s) old = Ok ex -> merge_upload_session ex s = Some s) ->
  (forall old, upload_sessions db !! us_key s = Some old ->
     exists ex, decode_upload_row (us_key s) old = Ok ex) ->
  exists db', write_upload a s now t db = Ok (a, db') /\
    (forall k, k <> us_key s -> upload_sessions db' !! k = upload_sessions db !! k) /\
    session_at (upload_sessions db') (us_key s) =
      Some (match session_at (upload_sessions db) (us_key s) with
            | Some ex => rebind ex s | None => s end).
Proof.
  intros Hty Hwf Hm Hv. destruct (encode_upload_runs s now t Hty Hwf) as [row Hrow].
  unfold write_upload. rewrite Hrow. cbn [mbind result_bind].
  rewrite (upsert_runs _ row s _ now t) by done. cbn [mbind result_bind].
  eexists. split; [done|]. cbn [upload_sessions set_upload_sessions].
  split; [intros k Hk; by rewrite lookup_insert_ne|].
  rewrite session_at_insert, decide_True by done.
  unfold session_at. destruct (upload_sessions db !! us_key s) as [old|] eqn:Hold.
  - destruct (Hv old eq_refl) as [ex Hex]. rewrite Hex. cbn [result_ok].
    destruct (decode_merged _ _ _ _ _ _ _ Hex eq_refl Hty Hwf Hrow) as [-> _]; [by eapply Hm|done].
  - by rewrite (decode_encode_upload _ _ _ _ Hty Hwf Hrow).
Qed.

Lemma save_body_runs s lim now t db :
  upload_typed s -> upload_wf s -> uploads_inv lim (upload_sessions db) ->
  exists a db', save_body s lim now t db = Ok (a, db') /\
    save_outcome lim (kept now (upload_sessions db)) s a (upload_sessions db').
Proof.
  intros Hty Hwf Hinv. apply (kept_inv lim now) in Hinv as (Hv & _ & _).
  unfold save_body. cbv zeta. set (db1 := forget_uploads now db) in *.
  change (kept now (upload_sessions db)) with (upload_sessions db1) in *.
  rewrite load_session_at by apply Hv. cbn [mbind result_bind].
  destruct (_ && _) eqn:Hst.
  { bool_prop. apply sql_exists_true_inv in H0 as (k & r & Hk & Ht).
    unfold stage_taken, key_is in Ht. bool_prop. apply beqb_true in H0.
    do 2 eexists. split; [done|]. split; [done|]. split; [done|]. left. eauto 10. }
  destruct (session_at (upload_sessions db1) (us_key s)) as [ex|] eqn:Hat.
  - destruct (proj1 (session_at_Some _ _ _) Hat) as (old & Hold & Hex).
    destruct (merge_upload_session ex s) as [s'|] eqn:Hm.
    + pose proof (merge_upload_id _ _ _ Hm) as ->.
      edestruct write_upload_runs as (db' & Hw & Hne & Hat'); [done|done| |by apply Hv|].
      { intros o x Ho Hx. assert (o = old) as -> by congruence. congruence. }
      rewrite Hw. do 2 eexists. split; [done|]. split; [done|]. rewrite Hat in Hat'.
      assert (upload_wf ex) as Hwe by apply (decode_upload_Ok _ _ _ Hex).
      pose proof (rebind_equiv ex s Hwe Hwf Hm).
      destruct (upload_session_eqb s ex) eqn:Heq; eauto.
    + do 2 eexists. split; [done|]. split; [done|]. split; [done|]. right. eauto.
  - assert (upload_sessions db1 !! us_key s = None) as Hnone.
    { destruct (_ !! _) as [r|] eqn:Hr; [|done]. destruct (Hv _ _ Hr) as [x Hx].
      unfold session_at in Hat. by rewrite Hr, Hx in Hat. }
    destruct (_ || _) eqn:Hfull.
    + do 2 eexists. split; [done|]. split; [done|]. split_and!; [done..|].
      apply orb_true_iff in Hfull as [?|?]; bool_prop; auto.
    + edestruct write_upload_runs as (db' & Hw & Hne & Hat'); [done|done| |by apply Hv|].
      { intros o x Ho. by rewrite Hnone in Ho. }
      rewrite Hw. do 2 eexists. split; [done|]. split; [done|]. by rewrite Hat in Hat'.
Qed.

(** What [save_upload_session] does, on every branch.  On a valid table
    and with working clocks and database it never fails: it answers Inserted
    for a new session and Updated or Unchanged for an allowed transition - and
    then the session read back is the saved one, up to the spelling of the
    bound paths - Conflict when another active session uses the stage file or
    the transition is not allowed, and Full at capacity; in the last two cases
    nothing but expired terminal rows changes, and no other session is ever
    touched. *)
Theorem save_upload_session_decides e s ttl w t :
  env_ok e w -> expiration_time (env_now e w) ttl = Ok t ->
  upload_typed s -> validate_upload s = Ok tt ->
  uploads_inv (limits w) (upload_sessions (connection w)) ->
  exists a w', save_upload_session e s ttl w = (Ok a, w') /\
    save_outcome (limits w) (kept (env_now e w) (upload_sessions (connection w))) s a
      (upload_sessions (connection w')).
Proof.
  intros He Ht Hty Hwf%validate_upload_Ok Hinv.
  destruct (save_body_runs s (limits w) (env_now e w) t (connection w) Hty Hwf Hinv)
    as (a & db' & Hrun & Hout).
  destruct (timed_run e (λ _ now, expiration_time now ttl) (save_body s) w t a db' He Ht Hrun)
    as (w' & Hw & <- & _ & _).
  exists a, w'. split; [exact Hw|done].
Qed.

(** ** Round trip of the row codec *)

(** The row codec loses nothing.  Every valid session is written to a row
    that satisfies the table's constraints and reads back as the same session;
    and every row that reads back at all is exactly the row its session is
    written to, so no two sessions share a row and no row hides data. *)
Theorem upload_row_roundtrip s now t :
  upload_typed s -> validate_upload s = Ok tt ->
  (exists row, encode_upload_row s now t = Ok row /\ upload_check (us_key s) row = true /\
     decode_upload_row (us_key s) row = Ok s) /\
  (forall k row s', decode_upload_row k row = Ok s' ->
     us_key s' = k /\ validate_upload s' = Ok tt /\
     encode_upload_row s' (ur_updated_at_ms row) (ur_expires_at_ms row) = Ok row).
Proof.
  intros Hty Hwf%validate_upload_Ok. split.
  - destruct (encode_upload_runs s now t Hty Hwf) as [row Hrow]. exists row.
    pose proof (decode_encode_upload _ _ _ _ Hty Hwf Hrow) as Hd.
    split_and!; [done|by eapply decode_upload_check|done].
  - intros k row s' (? & _ & ? & ?)%decode_upload_Ok. by rewrite validate_upload_Ok.
Qed.

(** ** Removal *)

Lemma load_expired_runs db k :
  (forall r, upload_sessions db !! k = Some r -> exists s, decode_upload_row k r = Ok s) ->
  load_expired_upload_session db k = Ok (
    match upload_sessions db !! k with
    | Some r => (λ s, mkExpired s (ur_expires_at_ms r)) <$> session_at (upload_sessions db) k
    | None => None
    end).
Proof.
  intros Hv. unfold load_expired_upload_session, session_at, decode_expired_upload_row.
  destruct (upload_sessions db !! k) as [r|]; [|done].
  destruct (Hv r eq_refl) as [s Hs]. cbn [fmap option_fmap option_map]. by rewrite Hs.
Qed.

(** The condition under which each removal may delete the row. *)
Definition holds_expected (m : Uploads) (s : StoredUploadSession) : bool :=
  is_expected upload_session_eqb (session_at m (us_key s)) s.
Definition holds_expired (m : Uploads) (x : ExpiredUploadSession) (now : Z) : bool :=
  (eu_expires_at_ms x <=? now) && holds_expected m (eu_session x) &&
  match m !! us_key (eu_session x) with
  | Some r => ur_expires_at_ms r =? eu_expires_at_ms x
  | None => false
  end.

Lemma remove_body_runs s db :
  (forall k r, upload_sessions db !! k = Some r -> exists s, decode_upload_row k r = Ok s) ->
  remove_body s db = Ok (holds_expected (upload_sessions db) s,
    if holds_expected (upload_sessions db) s
    then set_upload_sessions db (delete (us_key s) (upload_sessions db)) else db).
Proof.
  intros Hv. unfold remove_body, holds_expected. rewrite load_session_at by apply Hv.
  cbn [mbind result_bind]. destruct (is_expected _ _ _) eqn:He; cbn [negb]; [|done].
  rewrite sql_delete_key. unfold session_at in He.
  by destruct (upload_sessions db !! us_key s).
Qed.

Lemma remove_expired_body_runs x now db :
  (forall k r, upload_sessions db !! k = Some r -> exists s, decode_upload_row k r = Ok s) ->
  exists db', remove_expired_body x now db = Ok (holds_expired (upload_sessions db) x now, db') /\
    upload_sessions db' = if holds_expired (upload_sessions db) x now
      then delete (us_key (eu_session x)) (upload_sessions db) else upload_sessions db.
Proof.
  intros Hv. unfold remove_expired_body, holds_expired, holds_expected.
  rewrite load_expired_runs by apply Hv. cbn [mbind result_bind].
  destruct (now <? eu_expires_at_ms x) eqn:Hnow; bool_prop.
  { rewrite (proj2 (Z.leb_gt _ _)) by lia. cbn. eauto. }
  rewrite (proj2 (Z.leb_le _ _)) by lia. cbn [andb].
  set (k := us_key (eu_session x)) in *.
  rewrite (sql_delete_one k (λ r, (ur_expires_at_ms r =? eu_expires_at_ms x) &&
    (ur_expires_at_ms r <=? now))).
  unfold session_at. destruct (upload_sessions db !! k) as [r|] eqn:Hr; [|cbn; eauto].
  destruct (Hv _ _ Hr) as [s Hs]. rewrite Hs. cbn. unfold expired_session_eqb. cbn.
  destruct (upload_session_eqb s (eu_session x)); cbn; [|eauto].
  destruct (ur_expires_at_ms r =? eu_expires_at_ms x) eqn:Hx; cbn; [|eauto].
  bool_prop. rewrite (proj2 (Z.leb_le _ _)) by lia. cbn. eauto.
Qed.

(** Removal is a compare-and-delete.  On a valid table
    [remove_upload_session_if_matches] deletes the row exactly when it still
    holds the expected session, and [remove_expired_upload_session_if_matches]
    only when in addition the row still carries the observed expiry and that
    expiry has passed, so a session that was renewed or advanced since it was
    listed survives; otherwise nothing changes. *)
Theorem upload_removal_is_fenced e s x w :
  env_ok e w -> uploads_inv (limits w) (upload_sessions (connection w)) ->
  let m := upload_sessions (connection w) in
  (exists w', remove_upload_session_if_matches e s w = (Ok (holds_expected m s), w') /\
     upload_sessions (connection w') = if holds_expected m s then delete (us_key s) m else m) /\
  (exists w', remove_expired_upload_session_if_matches e x w
       = (Ok (holds_expired m x (env_now e w)), w') /\
     upload_sessions (connection w') =
       if holds_expired m x (env_now e w) then delete (us_key (eu_session x)) m else m).
Proof.
  intros He (Hv & _ & _) m. split.
  - unfold remove_upload_session_if_matches, transaction.
    rewrite (proj1 He), (remove_body_runs s (connection w)) by apply Hv.
    eexists. split; [done|]. unfold m. by destruct (holds_expected _ s).
  - destruct (remove_expired_body_runs x (env_now e w) (connection w) Hv) as (db' & Hrun & Hdb).
    destruct (timed_run_nolim e (remove_expired_body x) w _ db' He Hrun) as (w' & Hw & Hc & _).
    exists w'. split; [exact Hw|]. by rewrite Hc.
Qed.

(** ** Rejection *)

(** What [reject_upload_session] does, on every branch.  It answers
    NotFound, BindingConflict, Rejected (again) or StateConflict from the
    stored session without changing anything, and turns a session that awaits
    confirmation, bound to the same target and stage, into the rejected one,
    keeping everything else it records. *)
Theorem reject_upload_session_decides e k tp sp ttl w t :
  env_ok e w -> expiration_time (env_now e w) ttl = Ok t ->
  uploads_inv (limits w) (upload_sessions (connection w)) ->
  match reject_checks (upload_view w k) tp sp with
  | inl answer => reject_upload_session e k tp sp ttl w = (Ok answer, w)
  | inr s =>
      exists w', reject_upload_session e k tp sp ttl w = (Ok (RejRejected (as_rejected s)), w') /\
        forall k', upload_view w' k' = if decide (k' = k) then Some (as_rejected s)
                                       else upload_view w k'
  end.
Proof.
  intros He Ht (Hv & _ & _). unfold upload_view.
  pose proof (load_session_at (connection w) k (Hv k)) as Hload.
  unfold reject_upload_session.
  destruct (reject_checks (session_at (upload_sessions (connection w)) k) tp sp) as [ans|s] eqn:Hc.
  { cbv [mbind W_bind mret W_ret query]. by rewrite (proj1 He), Hload, Hc. }
  pose proof (reject_checks_inr _ _ _ _ Hc) as (Hat & Hst & _).
  apply session_at_Some in Hat as (r & Hr & Hdec).
  destruct (decode_rejected k r s (env_now e w) t Hdec Hst) as [Hd _].
  assert (reject_body k tp sp (env_now e w) t (connection w) = Ok (RejRejected (as_rejected s),
    set_upload_sessions (connection w)
      (<[k := with_upload_state UPLOAD_REJECTED (env_now e w) t r]> (upload_sessions (connection w)))))
    as Hrun.
  { unfold reject_body. rewrite Hload. cbn [mbind result_bind]. rewrite Hc.
    rewrite (sql_update_one_runs upload_check k (λ r, ur_state r =? UPLOAD_AWAITING_CONFIRMATION) _ _ r);
      [done|done|by eapply awaiting_state|by eapply decode_upload_check]. }
  destruct (timed_run e (λ _ now, expiration_time now ttl)
    (λ _ now t, reject_body k tp sp now t) w t _ _ He Ht Hrun) as (w' & Hw & Hdb & _).
  exists w'. split.
  - revert Hw. cbv [mbind W_bind mret W_ret query]. rewrite (proj1 He), Hload, Hc. done.
  - intros k'. rewrite Hdb. cbn. rewrite session_at_insert, Hd. done.
Qed.

(** ** Startup validation *)

Definition sessions_of (rows : list (StoreKey * UploadRow)) : list StoredUploadSession :=
  omap (λ kr, result_ok (decode_upload_row kr.1 kr.2)) rows.

Lemma collect_sessions rows :
  Forall (λ kr, exists s, decode_upload_row kr.1 kr.2 = Ok s) rows ->
  collect ((λ kr, decode_upload_row kr.1 kr.2) <$> rows) = Ok (sessions_of rows).
Proof.
  intros H. apply collect_Ok. induction H as [|[k r] rows [s Hs] _ IH]; [done|].
  unfold sessions_of in *. rewrite fmap_cons, IH. cbn in *. by rewrite Hs.
Qed.

Lemma sessions_of_snoc rows k r s :
  decode_upload_row k r = Ok s -> sessions_of (rows ++ [(k, r)]) = sessions_of rows ++ [s].
Proof.
  intros Hs. induction rows as [|[k' r'] rows IH]; unfold sessions_of in *; cbn.
  - cbn in Hs. by rewrite Hs.
  - destruct (decode_upload_row k' r'); cbn; [by f_equal|done].
Qed.

Lemma page_runs e after limit w :
  env_sql_fault e = false -> 0 < limit ->
  uploads_inv (limits w) (upload_sessions (connection w)) ->
  upload_sessions_page e after limit w = (Ok (sessions_of (take (Z.to_nat limit)
    (remaining key_cmp fst after (map_to_list (upload_sessions (connection w)))))), w).
Proof.
  intros He Hl (Hv & (Hg & _) & _). unfold upload_sessions_page, query.
  cbv [mbind W_bind w_lift w_limits mret W_ret]. rewrite He, (proj2 (Z.ltb_lt _ _) Hl). cbn [ensure].
  assert (query_upload_sessions after limit (connection w) = Ok (sessions_of (take (Z.to_nat limit)
    (remaining key_cmp fst after (map_to_list (upload_sessions (connection w))))))) as Hq.
  { unfold query_upload_sessions. rewrite page_remaining by (apply _ || apply NoDup_fst_map_to_list || lia).
    apply collect_sessions. apply Forall_take, Forall_forall.
    intros [k r] [_ Hin]%list_elem_of_filter. cbn. apply (Hv k).
    apply elem_of_map_to_list. by rewrite order_by_perm in Hin. }
  destruct after; [by rewrite Hq|]. rewrite (proj2 (Z.leb_le _ _) Hg). cbn [ensure]. by rewrite Hq.
Qed.

Lemma validate_sessions_Ok f l :
  validate_sessions f l = Ok tt <-> Forall (λ s, f s = Ok tt) l.
Proof.
  induction l as [|s l IH]; cbn; [split; [constructor|done]|].
  rewrite Forall_cons, <- IH. destruct (f s) as [[]|]; cbn; naive_solver.
Qed.

Lemma sessions_of_nil rows :
  Forall (λ kr, exists s, decode_upload_row kr.1 kr.2 = Ok s) rows ->
  sessions_of rows = [] -> rows = [].
Proof.
  intros [|[k r] rows' [s Hs] _]; [done|]. unfold sessions_of. cbn in *. by rewrite Hs.
Qed.

Lemma sessions_of_app l1 l2 : sessions_of (l1 ++ l2) = sessions_of l1 ++ sessions_of l2.
Proof. apply omap_app. Qed.

Lemma validate_loop f e w fuel after :
  env_sql_fault e = false -> uploads_inv (limits w) (upload_sessions (connection w)) ->
  let rest := remaining key_cmp fst after (map_to_list (upload_sessions (connection w))) in
  (length rest < fuel)%nat ->
  exists r, validate_stage_layouts f fuel e after w = (r, w) /\ r <> Ok None /\
    (r = Ok (Some tt) <-> Forall (λ s, f s = Ok tt) (sessions_of rest)).
Proof.
  intros He Hinv. revert after. induction fuel as [|fuel IH]; intros after rest Hf; [lia|].
  assert (Forall (λ kr, exists s, decode_upload_row kr.1 kr.2 = Ok s) rest) as Hvalid.
  { apply Forall_forall. intros [k r] [_ Hin]%list_elem_of_filter. cbn.
    apply (proj1 Hinv k), elem_of_map_to_list. by rewrite order_by_perm in Hin. }
  cbn [validate_stage_layouts]. cbv [mbind W_bind w_lift mret W_ret].
  rewrite page_runs by done. fold rest. set (p := take (Z.to_nat _) rest).
  assert (rest = p ++ drop (Z.to_nat STARTUP_RECONCILIATION_PAGE_SIZE) rest) as Hsplit
    by (symmetry; apply take_drop).
  destruct (last p) as [[k r]|] eqn:Hlast.
  - apply last_Some in Hlast as [p' Hp].
    assert (exists s, decode_upload_row k r = Ok s) as [s Hs].
    { rewrite Hsplit, Hp, !Forall_app, Forall_singleton in Hvalid. by destruct Hvalid as [[_ ?] _]. }
    assert (last (sessions_of p) = Some s) as ->.
    { rewrite Hp, (sessions_of_snoc _ _ _ _ Hs). apply last_snoc. }
    rewrite (decode_key _ _ _ Hs).
    assert (remaining key_cmp fst (Some k) (map_to_list (upload_sessions (connection w)))
      = drop (Z.to_nat STARTUP_RECONCILIATION_PAGE_SIZE) rest) as Hrest.
    { apply (remaining_resume key_cmp fst after _ p' (k, r)); [apply NoDup_fst_map_to_list|].
      fold rest. rewrite Hsplit at 1. by rewrite Hp, <- app_assoc. }
    destruct (IH (Some k)) as (res & Hrun & Hnn & Hiff).
    { rewrite Hrest, length_drop. change (Z.to_nat STARTUP_RECONCILIATION_PAGE_SIZE) with 16%nat.
      assert (length rest <> 0%nat); [|lia].
      intros Hz%nil_length_inv. rewrite Hz in Hsplit. by destruct p'; rewrite Hp in Hsplit. }
    rewrite Hrest in Hiff.
    assert (Forall (λ s, f s = Ok tt) (sessions_of rest) <->
      validate_sessions f (sessions_of p) = Ok tt /\ res = Ok (Some tt)) as Hall.
    { rewrite Hsplit, sessions_of_app, Forall_app, validate_sessions_Ok, Hiff. done. }
    destruct (validate_sessions f (sessions_of p)) as [[]|err].
    + exists res. split; [exact Hrun|]. split; [done|]. rewrite Hall. naive_solver.
    + exists (Err err). rewrite Hall. naive_solver.
  - apply last_None in Hlast. rewrite Hlast in *. cbn [sessions_of omap list_omap last].
    exists (Ok (Some tt)). split_and!; [done..|]. split; [|done]. intros _.
    assert (rest = []) as ->; [|constructor].
    destruct rest as [|x rest'] eqn:Er; [done|]. done.
Qed.

(** Startup validation terminates and misses nothing.  Paging through the
    store sixteen sessions at a time, [validate_stage_layouts] runs to the end
    (with fuel one more than the number of sessions) and succeeds exactly when
    every stored session passes the layout check: no page boundary skips or
    repeats a session. *)
Theorem startup_validates_every_session f e w fuel :
  env_sql_fault e = false -> uploads_inv (limits w) (upload_sessions (connection w)) ->
  (size (upload_sessions (connection w)) < fuel)%nat ->
  exists r, validate_stage_layouts f fuel e None w = (r, w) /\ r <> Ok None /\
    (r = Ok (Some tt) <-> forall k s, upload_view w k = Some s -> f s = Ok tt).
Proof.
  intros He Hinv Hf.
  set (rows := map_to_list (upload_sessions (connection w))).
  assert (remaining key_cmp fst None rows ≡ₚ rows) as Hperm by apply remaining_None_perm.
  destruct (validate_loop f e w fuel None He Hinv) as (r & Hr & Hn & Hiff).
  { fold rows. rewrite Hperm. unfold rows. by rewrite length_map_to_list. }
  exists r. split_and!; [done..|]. rewrite Hiff. fold rows. unfold sessions_of. rewrite Hperm.
  fold (sessions_of rows). rewrite Forall_forall. unfold sessions_of, rows. split.
  - intros H k s (row & Hk & Hd)%session_at_Some. apply H, list_elem_of_omap.
    exists (k, row). split; [by apply elem_of_map_to_list|]. cbn. by rewrite Hd.
  - intros H s ([k row] & Hin%elem_of_map_to_list & Hd)%list_elem_of_omap.
    apply (H k), session_at_Some. exists row. split; [done|]. cbn in Hd.
    destruct (decode_upload_row k row); [by injection Hd as <-|done].
Qed.

(** ** Concrete sessions *)

Definition demo_upload (offset : Z) (state : StoredUploadState) : StoredUploadSession :=
  {| us_key := demo_key; us_target_path := bs "docs/report.bin";
     us_stage_path := bs "docs/.stage"; us_upload_length := 10; us_durable_offset := offset;
     us_state := state; us_stage_identity := Some (mkIdentity 2049 77);
     us_target_revision := None |}.

Definition demo_save (t offset : Z) (state : StoredUploadState) (w : StoreWorker) : StoreWorker :=
  (save_upload_session (demo_env t) (demo_upload offset state) 1000 w).2.

Definition demo_running : StoreWorker := demo_save 0 4 URunning demo_worker.
Definition demo_starting : StoreWorker := demo_save 1 10 UCommitStarted demo_running.
Definition demo_awaiting : StoreWorker := demo_save 2 10 UAwaitingConfirmation demo_starting.

Lemma demo_upload_typed offset state : 0 <= offset -> upload_typed (demo_upload offset state).
Proof.
  intros H. split_and!; cbn; try done; try lia.
  intros i [= <-]. cbn. unfold u64_range, u64_max. lia.
Qed.

Lemma demo_save_step t offset state w :
  0 <= offset -> validate_upload (demo_upload offset state) = Ok tt ->
  up_step None w (demo_save t offset state w).
Proof.
  intros H0 Hv. eapply up_step_save; [by apply demo_upload_typed|done|]. apply surjective_pairing.
Qed.

Lemma demo_upload_steps k :
  rtc (up_keeping k) demo_worker demo_awaiting /\ rtc up_any demo_worker demo_awaiting.
Proof.
  assert (up_step None demo_worker demo_running /\ up_step None demo_running demo_starting /\
    up_step None demo_starting demo_awaiting) as (H1 & H2 & H3).
  { split_and!; apply demo_save_step; first [lia|vm_compute; reflexivity]. }
  unfold up_keeping, up_any. split.
  - eapply rtc_l; [by exists None|]. eapply rtc_l; [by exists None|]. apply rtc_once. by exists None.
  - eapply rtc_l; [by exists None|]. eapply rtc_l; [by exists None|]. apply rtc_once. by exists None.
Qed.

Lemma demo_uploads_inv : uploads_inv (limits demo_awaiting) (upload_sessions (connection demo_awaiting)).
Proof.
  apply (up_steps_inv demo_worker demo_awaiting); [apply (demo_upload_steps demo_key)|].
  by apply uploads_inv_empty.
Qed.

Lemma uploads_table_invariant_witness :
  rtc up_any demo_worker demo_awaiting /\ size (upload_sessions (connection demo_awaiting)) = 1%nat /\
  uploads_inv (limits demo_awaiting) (upload_sessions (connection demo_awaiting)).
Proof.
  split; [apply (demo_upload_steps demo_key)|]. split; [vm_compute; reflexivity|].
  apply (uploads_table_invariant demo_worker demo_awaiting);
    [reflexivity|cbn; lia|cbn; lia|apply (demo_upload_steps demo_key)].
Defined.

Lemma uploads_refine_lifecycle_witness :
  rtc (up_keeping demo_key) demo_worker demo_awaiting /\
  rtc upload_spec (upload_view demo_worker demo_key) (upload_view demo_awaiting demo_key) /\
  upload_view demo_awaiting demo_key = Some (demo_upload 10 UAwaitingConfirmation).
Proof.
  split; [apply demo_upload_steps|]. split; [|vm_compute; reflexivity].
  apply (uploads_refine_lifecycle demo_worker demo_awaiting demo_key); [|apply demo_upload_steps].
  apply uploads_inv_empty; cbn; lia.
Defined.

Lemma save_upload_session_decides_witness :
  exists a w', save_upload_session (demo_env 3) (demo_upload 10 UCommitStarted) 1000 demo_awaiting
    = (Ok a, w') /\
    save_outcome (limits demo_awaiting) (kept (env_now (demo_env 3) demo_awaiting)
      (upload_sessions (connection demo_awaiting))) (demo_upload 10 UCommitStarted) a
      (upload_sessions (connection w')).
Proof.
  apply (save_upload_session_decides (demo_env 3) (demo_upload 10 UCommitStarted) 1000 demo_awaiting 2003).
  - split; [reflexivity|]. do 2 eexists. vm_compute. reflexivity.
  - vm_compute. reflexivity.
  - apply demo_upload_typed. lia.
  - vm_compute. reflexivity.
  - exact demo_uploads_inv.
Defined.

Lemma upload_row_roundtrip_witness :
  (exists row, encode_upload_row (demo_upload 4 URunning) 1 2 = Ok row /\
     upload_check demo_key row = true /\
     decode_upload_row demo_key row = Ok (demo_upload 4 URunning)).
Proof.
  apply (upload_row_roundtrip (demo_upload 4 URunning) 1 2);
    [apply demo_upload_typed; lia|vm_compute; reflexivity].
Defined.

Lemma upload_removal_is_fenced_witness :
  (exists w', remove_upload_session_if_matches (demo_env 5) (demo_upload 4 URunning) demo_awaiting
     = (Ok false, w')) /\
  (exists w', remove_expired_upload_session_if_matches (demo_env 5000)
     (mkExpired (demo_upload 10 UAwaitingConfirmation) 2002) demo_awaiting = (Ok true, w') /\
     upload_sessions (connection w') = ∅).
Proof.
  split.
  - destruct (upload_removal_is_fenced (demo_env 5) (demo_upload 4 URunning)
      (mkExpired (demo_upload 10 UAwaitingConfirmation) 2002) demo_awaiting) as [(w' & H & _) _].
    + split; [reflexivity|]. do 2 eexists. vm_compute. reflexivity.
    + exact demo_uploads_inv.
    + exists w'. exact H.
  - destruct (upload_removal_is_fenced (demo_env 5000) (demo_upload 4 URunning)
      (mkExpired (demo_upload 10 UAwaitingConfirmation) 2002) demo_awaiting) as [_ (w' & H & Ht)].
    + split; [reflexivity|]. do 2 eexists. vm_compute. reflexivity.
    + exact demo_uploads_inv.
    + exists w'. split; [exact H|]. rewrite Ht. vm_compute. reflexivity.
Defined.

Lemma reject_upload_session_decides_witness :
  exists w', reject_upload_session (demo_env 4) demo_key (bs "docs/report.bin") (bs "docs//.stage")
    1000 demo_awaiting = (Ok (RejRejected (demo_upload 10 URejected)), w') /\
    upload_view w' demo_key = Some (demo_upload 10 URejected).
Proof.
  assert (reject_checks (upload_view demo_awaiting demo_key) (bs "docs/report.bin")
    (bs "docs//.stage") = inr (demo_upload 10 UAwaitingConfirmation)) as Hc
    by (vm_compute; reflexivity).
  assert (env_ok (demo_env 4) demo_awaiting) as He
    by (split; [reflexivity|]; do 2 eexists; vm_compute; reflexivity).
  assert (expiration_time (env_now (demo_env 4) demo_awaiting) 1000 = Ok 2004) as Ht
    by (vm_compute; reflexivity).
  pose proof (reject_upload_session_decides (demo_env 4) demo_key (bs "docs/report.bin")
    (bs "docs//.stage") 1000 demo_awaiting 2004 He Ht demo_uploads_inv) as H.
  rewrite Hc in H. destruct H as (w' & H & Hv).
  exists w'. split; [exact H|]. rewrite Hv, decide_True by reflexivity. reflexivity.
Defined.

Definition demo_layout_check (s : StoredUploadSession) : result string unit :=
  ensure (us_upload_length s =? 10) "length"%string.

Lemma startup_validates_every_session_witness :
  exists r, validate_stage_layouts demo_layout_check 2 (demo_env 3) None demo_awaiting
      = (r, demo_awaiting) /\ r <> Ok None /\
    (r = Ok (Some tt) <-> forall k s, upload_view demo_awaiting k = Some s ->
       demo_layout_check s = Ok tt).
Proof.
  assert (size (upload_sessions (connection demo_awaiting)) < 2)%nat as Hsize
    by (apply Nat.ltb_lt; vm_compute; reflexivity).
  exact (startup_validates_every_session demo_layout_check (demo_env 3) demo_awaiting 2
    eq_refl demo_uploads_inv Hsize).
Defined.
