(* ===== verification/Purges.v ===== *)
(** Purge jobs of the durable state store and the paths the store keeps bound:
    [src/src/server/state_store/purge.rs]. *)

From S2P Require Import Prelude Bytes StdPath StoreModel Database StoreWorker Paging Uploads.
From stdpp Require Import base numbers list gmap strings sorting.

Local Open Scope Z_scope.

(** ** Rows *)

Definition purge_key_from_database (owner id : bytes) : result string PurgeJobKey :=
  owner ← fixed_bytes 32 owner "Purge owner digest has an invalid length";
  id ← fixed_bytes 16 id "Purge job id has an invalid length";
  Ok (mkStoreKey owner id).

Definition decode_purge_row (k : StoreKey) (row : PurgeRow) : result string StoredPurgeJob :=
  _ ← ensure (bool_decide (pr_is_directory row ∈ [0; 1])) "Purge directory flag is invalid"%string;
  key ← purge_key_from_database (key_owner k) (key_id k);
  device ← fixed_bytes 8 (pr_source_device_be row) "Purge source device has an invalid length";
  inode ← fixed_bytes 8 (pr_source_inode_be row) "Purge source inode has an invalid length";
  trash_revision ← transpose ((λ revision,
      fixed_bytes 32 revision "Purge trash revision has an invalid length")
      <$> pr_trash_revision row);
  state ← purge_from_database (pr_state row);
  attempts ← ok_or (u32_try_from (pr_attempts row))
               "Purge attempts in the state database are invalid"%string;
  let job :=
    {| pj_key := key; pj_target_path := pr_target_path row; pj_trash_path := pr_trash_path row;
       pj_source_identity := mkIdentity (be_value device) (be_value inode);
       pj_trash_revision := trash_revision; pj_is_directory := pr_is_directory row =? 1;
       pj_state := state; pj_attempts := attempts |} in
  _ ← validate_stored_path (pj_target_path job);
  _ ← validate_stored_path (pj_trash_path job);
  _ ← ensure (negb (path_eqb (pj_target_path job) (pj_trash_path job)))
        "Purge target and trash paths must differ"%string;
  Ok job.

Definition load_purge_job (db : Database) (key : PurgeJobKey)
    : result string (option StoredPurgeJob) :=
  transpose (decode_purge_row key <$> purge_jobs db !! key).

(** [ORDER BY created_at_ms, owner_digest, job_id]. *)
Definition created_key (kr : StoreKey * PurgeRow) : Z * StoreKey := (pr_created_at_ms kr.2, kr.1).
Definition created_cmp : Z * StoreKey -> Z * StoreKey -> comparison := lex_cmp Z.compare key_cmp.

Definition query_purge_jobs (P : PurgeRow -> bool) (limit : Z) (db : Database)
    : result string (list StoredPurgeJob) :=
  collect ((λ kr, decode_purge_row kr.1 kr.2) <$>
    page created_cmp created_key None limit
      (filter (λ kr, P kr.2 = true) (map_to_list (purge_jobs db)))).

(** ** Preparing a job *)

(** [INSERT INTO purge_jobs]: the primary key and [trash_path UNIQUE]. *)
Definition purge_insert (k : StoreKey) (row : PurgeRow) (m : gmap StoreKey PurgeRow)
    : result string (gmap StoreKey PurgeRow) :=
  if sql_exists (λ _ r, beqb (pr_trash_path r) (pr_trash_path row)) m
  then Err "UNIQUE constraint failed"%string
  else sql_insert purge_check k row m.

Definition prepared_row (job : StoredPurgeJob) (now : Z) : PurgeRow :=
  {| pr_target_path := pj_target_path job; pr_trash_path := pj_trash_path job;
     pr_source_device_be := u64_to_be_bytes (fi_device (pj_source_identity job));
     pr_source_inode_be := u64_to_be_bytes (fi_inode (pj_source_identity job));
     pr_trash_revision := None; pr_is_directory := if pj_is_directory job then 1 else 0;
     pr_state := PURGE_PREPARED; pr_attempts := 0; pr_next_attempt_at_ms := now;
     pr_created_at_ms := now; pr_updated_at_ms := now |}.

Definition same_purge (existing proposed : StoredPurgeJob) : bool :=
  path_eqb (pj_target_path existing) (pj_target_path proposed) &&
  (path_eqb (pj_trash_path existing) (pj_trash_path proposed) &&
  (bool_decide (pj_source_identity existing = pj_source_identity proposed) &&
   bool_decide (pj_is_directory existing = pj_is_directory proposed))).

Definition prepare_body (proposed : StoredPurgeJob) (lim : Limits) (now : Z) (db : Database)
    : result string (StorePurgeJob * Database) :=
  existing ← load_purge_job db (pj_key proposed);
  match existing with
  | Some existing => Ok (if same_purge existing proposed then JExisting else JConflict, db)
  | None =>
      if sql_exists (λ _ r, beqb (pr_trash_path r) (pj_trash_path proposed)) (purge_jobs db)
      then Ok (JConflict, db)
      else
        let global_count := sql_count (λ _ _, true) (purge_jobs db) in
        let owner_count := sql_count (λ k _, owner_is (key_owner (pj_key proposed)) k)
                             (purge_jobs db) in
        if (purge_capacity lim <=? global_count) || (purge_per_owner lim <=? owner_count)
        then Ok (JFull, db)
        else
          t ← purge_insert (pj_key proposed) (prepared_row proposed now) (purge_jobs db);
          Ok (JInserted, set_purge_jobs db t)
  end.

Definition prepare_purge_job (e : Env) (proposed : StoredPurgeJob) : W StorePurgeJob :=
  now ← now_ms e;
  lim ← w_limits;
  transaction e (prepare_body proposed lim now).

(** ** Listing *)

Definition prepared_purge_jobs (e : Env) (limit : Z) : W (list StoredPurgeJob) :=
  query e (query_purge_jobs (λ r, pr_state r =? PURGE_PREPARED) limit).

Definition list_purge_jobs (e : Env) (limit : Z) : W (list StoredPurgeJob) :=
  query e (query_purge_jobs (λ _, true) limit).

Definition state_path_is_bound (e : Env) (path : bytes) : W bool :=
  query e (λ db, Ok (
    sql_exists (λ _ r, beqb (ur_stage_path r) path && active_state (ur_state r))
      (upload_sessions db) ||
    sql_exists (λ _ r, beqb (pr_trash_path r) path) (purge_jobs db))).

(** ** Moving a job *)

Definition purge_at (key : PurgeJobKey) (state : Z) (k : StoreKey) (r : PurgeRow) : bool :=
  key_is k key && (pr_state r =? state).

Definition with_ready (revision : bytes) (now : Z) (r : PurgeRow) : PurgeRow :=
  {| pr_target_path := pr_target_path r; pr_trash_path := pr_trash_path r;
     pr_source_device_be := pr_source_device_be r; pr_source_inode_be := pr_source_inode_be r;
     pr_trash_revision := Some revision; pr_is_directory := pr_is_directory r;
     pr_state := PURGE_READY; pr_attempts := pr_attempts r; pr_next_attempt_at_ms := now;
     pr_created_at_ms := pr_created_at_ms r; pr_updated_at_ms := now |}.

Definition with_claimed (now : Z) (r : PurgeRow) : PurgeRow :=
  {| pr_target_path := pr_target_path r; pr_trash_path := pr_trash_path r;
     pr_source_device_be := pr_source_device_be r; pr_source_inode_be := pr_source_inode_be r;
     pr_trash_revision := pr_trash_revision r; pr_is_directory := pr_is_directory r;
     pr_state := PURGE_CLAIMED; pr_attempts := pr_attempts r;
     pr_next_attempt_at_ms := pr_next_attempt_at_ms r;
     pr_created_at_ms := pr_created_at_ms r; pr_updated_at_ms := now |}.

Definition with_retry (next_attempt now : Z) (r : PurgeRow) : PurgeRow :=
  {| pr_target_path := pr_target_path r; pr_trash_path := pr_trash_path r;
     pr_source_device_be := pr_source_device_be r; pr_source_inode_be := pr_source_inode_be r;
     pr_trash_revision := pr_trash_revision r; pr_is_directory := pr_is_directory r;
     pr_state := PURGE_READY; pr_attempts := Z.min (pr_attempts r + 1) 4294967295;
     pr_next_attempt_at_ms := next_attempt;
     pr_created_at_ms := pr_created_at_ms r; pr_updated_at_ms := now |}.

(** [UPDATE purge_jobs SET f WHERE key AND state = from]. *)
Definition move_purge (key : PurgeJobKey) (from : Z) (f : PurgeRow -> PurgeRow) (db : Database)
    : result string (Z * Database) :=
  '(changed, t) ← sql_update purge_check (purge_at key from) f (purge_jobs db);
  Ok (changed, set_purge_jobs db t).

Definition mark_purge_job_ready (e : Env) (key : PurgeJobKey) (trash_revision : bytes) : W bool :=
  now ← now_ms e;
  changed ← transaction e (move_purge key PURGE_PREPARED (with_ready trash_revision now));
  if changed =? 1 then mret true
  else query e (λ db,
         job ← load_purge_job db key;
         Ok (match job with
             | Some job => negb (bool_decide (pj_state job = PPrepared)) &&
                           bool_decide (pj_trash_revision job = Some trash_revision)
             | None => false
             end)).

(** [ORDER BY next_attempt_at_ms, created_at_ms, owner_digest, job_id]. *)
Definition due_key (kr : StoreKey * PurgeRow) : Z * (Z * StoreKey) :=
  (pr_next_attempt_at_ms kr.2, created_key kr).
Definition due_cmp : Z * (Z * StoreKey) -> Z * (Z * StoreKey) -> comparison :=
  lex_cmp Z.compare created_cmp.

Definition is_due (now : Z) (kr : StoreKey * PurgeRow) : bool :=
  (pr_state kr.2 =? PURGE_READY) && (pr_next_attempt_at_ms kr.2 <=? now).

(** [... ORDER BY ... LIMIT 1] with [optional]. *)
Definition select_due (now : Z) (db : Database) : option (StoreKey * PurgeRow) :=
  head (page due_cmp due_key None 1
    (filter (λ kr, is_due now kr = true) (map_to_list (purge_jobs db)))).

Definition claim_body (now : Z) (db : Database) : result string (option StoredPurgeJob * Database) :=
  key ← transpose ((λ kr, purge_key_from_database (key_owner kr.1) (key_id kr.1))
          <$> select_due now db);
  match key with
  | None => Ok (None, db)
  | Some key =>
      '(changed, db) ← move_purge key PURGE_READY (with_claimed now) db;
      _ ← ensure (changed =? 1) "A selected purge job could not be claimed"%string;
      loaded ← load_purge_job db key;
      job ← ok_or loaded "A claimed purge job disappeared"%string;
      Ok (Some job, db)
  end.

Definition claim_due_purge_job (e : Env) : W (option StoredPurgeJob) :=
  now ← now_ms e;
  transaction e (claim_body now).

Definition retry_body (key : PurgeJobKey) (now next_attempt : Z) (db : Database)
    : result string (bool * Database) :=
  '(changed, db) ← move_purge key PURGE_CLAIMED (with_retry next_attempt now) db;
  Ok (changed =? 1, db).

Definition retry_purge_job (e : Env) (key : PurgeJobKey) (delay_ms : Z) : W bool :=
  now ← now_ms e;
  lim ← w_limits;
  next_attempt ← w_lift (expiration_time now delay_ms);
  transaction e (retry_body key now next_attempt).

Definition complete_purge_job (e : Env) (key : PurgeJobKey) : W bool :=
  transaction e (λ db,
    let '(removed, t) := sql_delete (purge_at key PURGE_CLAIMED) (purge_jobs db) in
    Ok (removed =? 1, set_purge_jobs db t)).

Definition remove_purge_job (e : Env) (key : PurgeJobKey) : W bool :=
  transaction e (λ db,
    let '(removed, t) := sql_delete (λ k _, key_is k key) (purge_jobs db) in
    Ok (removed =? 1, set_purge_jobs db t)).

(** ** Paths the store keeps bound *)

Record StatePathDatabaseRow := mkStatePath {
  sp_kind : Z; sp_owner : bytes; sp_id : bytes; sp_slot : Z;
  sp_path : bytes; sp_allows_exact_replacement : Z
}.

Definition decode_state_path_row (row : StatePathDatabaseRow)
    : result string (StatePathCursor * StateBlockingPath) :=
  _ ← ensure (bool_decide (sp_kind row ∈ [0; 1])) "State path kind is invalid"%string;
  _ ← ensure (bool_decide (sp_slot row ∈ [0; 1])) "State path slot is invalid"%string;
  _ ← ensure (bool_decide (sp_allows_exact_replacement row ∈ [0; 1]))
        "State path replacement policy is invalid"%string;
  _ ← validate_stored_path (sp_path row);
  owner ← fixed_bytes 32 (sp_owner row) "State path owner digest has an invalid length";
  id ← fixed_bytes 16 (sp_id row) "State path id has an invalid length";
  Ok ({| pc_kind := sp_kind row; pc_owner := owner; pc_id := id; pc_slot := sp_slot row |},
      {| bp_path := sp_path row;
         bp_allows_exact_replacement := negb (sp_allows_exact_replacement row =? 0) |}).

(** The common table expression [state_paths]. *)
Definition upload_state_paths (kr : StoreKey * UploadRow) : list StatePathDatabaseRow :=
  if active_state (ur_state kr.2) then
    [ mkStatePath 0 (key_owner kr.1) (key_id kr.1) 0 (ur_target_path kr.2)
        (if ur_state kr.2 =? UPLOAD_RUNNING then 1 else 0);
      mkStatePath 0 (key_owner kr.1) (key_id kr.1) 1 (ur_stage_path kr.2) 0 ]
  else [].
Definition purge_state_paths (kr : StoreKey * PurgeRow) : list StatePathDatabaseRow :=
  (if pr_state kr.2 =? PURGE_PREPARED then
     [mkStatePath 1 (key_owner kr.1) (key_id kr.1) 0 (pr_target_path kr.2) 0] else []) ++
  [mkStatePath 1 (key_owner kr.1) (key_id kr.1) 1 (pr_trash_path kr.2) 0].
Definition state_paths (db : Database) : list StatePathDatabaseRow :=
  (map_to_list (upload_sessions db) ≫= upload_state_paths) ++
  (map_to_list (purge_jobs db) ≫= purge_state_paths).

(** [(kind, owner_digest, item_id, slot)]. *)
Definition state_key (row : StatePathDatabaseRow) : Z * (bytes * (bytes * Z)) :=
  (sp_kind row, (sp_owner row, (sp_id row, sp_slot row))).
Definition cursor_key (c : StatePathCursor) : Z * (bytes * (bytes * Z)) :=
  (pc_kind c, (pc_owner c, (pc_id c, pc_slot c))).
Definition state_cmp : Z * (bytes * (bytes * Z)) -> Z * (bytes * (bytes * Z)) -> comparison :=
  lex_cmp Z.compare (lex_cmp bytes_cmp (lex_cmp bytes_cmp Z.compare)).

Definition query_state_blocking_paths (db : Database) (after : option StatePathCursor) (limit : Z)
    : result string StatePathPage :=
  decoded ← collect (decode_state_path_row <$>
    page state_cmp state_key (cursor_key <$> after) limit (state_paths db));
  n ← ok_or (u64_try_from limit) "out of range integral type conversion"%string;
  Ok {| pg_paths := snd <$> decoded;
        pg_next := if Z.of_nat (length decoded) =? n then fst <$> last decoded else None |}.

Definition state_blocking_paths (e : Env) (after : option StatePathCursor) (limit : Z)
    : W StatePathPage :=
  query e (λ db, query_state_blocking_paths db after limit).

(** ** The admission scan

    The loop of [Server::has_persisted_path_conflict] and
    [Server::has_persisted_path_descendant] ([src/src/server.rs]): page through
    the bound paths until one conflicts.  [page_conflicts] is the scanner's
    test of one page, which updates the scanner.  The result is [None] when the
    fuel runs out. *)

Definition STATE_PATH_ADMISSION_PAGE_SIZE : Z := 256.

Section scan.
Context {Scanner : Type} (page_conflicts : Scanner -> list StateBlockingPath -> bool * Scanner).

Fixpoint persisted_path_scan (fuel : nat) (e : Env) (scanner : Scanner)
    (after : option StatePathCursor) : W (option bool) :=
  match fuel with
  | O => mret None
  | S fuel =>
      limit ← w_lift (query_limit STATE_PATH_ADMISSION_PAGE_SIZE);
      page ← state_blocking_paths e after limit;
      let '(conflict, scanner) := page_conflicts scanner (pg_paths page) in
      if conflict then mret (Some true)
      else match pg_next page with
           | None => mret (Some false)
           | Some next => persisted_path_scan fuel e scanner (Some next)
           end
  end.
End scan.
