(* ===== verification/PurgeLifecycle.v ===== *)
(** Properties of purge jobs ([Purges]): the table invariant, the purge state
    machine, the fair choice of the next job, and the completeness of the
    scan of bound paths. *)

From S2P Require Import Prelude Bytes StdPath StoreModel Database StoreWorker Paging Uploads UploadLifecycle Purges.
From stdpp Require Import base numbers list gmap strings sorting.

Local Open Scope Z_scope.

(** ** Rows *)

Abbreviation PurgeTable := (gmap StoreKey PurgeRow).

(** What the field types of [StoredPurgeJob] say. *)
Definition purge_typed (j : StoredPurgeJob) : Prop :=
  key_wf (pj_key j) /\ u64_range (fi_device (pj_source_identity j)) /\
  u64_range (fi_inode (pj_source_identity j)).

Definition set_progress (j : StoredPurgeJob) (st : StoredPurgeState) (rev : option bytes) (n : Z)
    : StoredPurgeJob :=
  {| pj_key := pj_key j; pj_target_path := pj_target_path j; pj_trash_path := pj_trash_path j;
     pj_source_identity := pj_source_identity j; pj_trash_revision := rev;
     pj_is_directory := pj_is_directory j; pj_state := st; pj_attempts := n |}.

Lemma set_progress_id j : set_progress j (pj_state j) (pj_trash_revision j) (pj_attempts j) = j.
Proof. by destruct j. Qed.

(** A row decodes when its columns are those of a job. *)
Record purge_columns (k : StoreKey) (row : PurgeRow) (j : StoredPurgeJob) : Prop := {
  col_key : pj_key j = k;
  col_key_wf : key_wf k;
  col_target : pr_target_path row = pj_target_path j;
  col_trash : pr_trash_path row = pj_trash_path j;
  col_target_wf : stored_path_wf (pj_target_path j);
  col_trash_wf : stored_path_wf (pj_trash_path j);
  col_differ : components (pj_target_path j) <> components (pj_trash_path j);
  col_device : pr_source_device_be row = u64_to_be_bytes (fi_device (pj_source_identity j));
  col_inode : pr_source_inode_be row = u64_to_be_bytes (fi_inode (pj_source_identity j));
  col_device_range : u64_range (fi_device (pj_source_identity j));
  col_inode_range : u64_range (fi_inode (pj_source_identity j));
  col_revision : pr_trash_revision row = pj_trash_revision j;
  col_revision_len : forall r, pj_trash_revision j = Some r -> blen r = 32;
  col_directory : pr_is_directory row = if pj_is_directory j then 1 else 0;
  col_state : pr_state row = purge_as_i64 (pj_state j);
  col_attempts : pr_attempts row = pj_attempts j;
  col_attempts_range : 0 <= pj_attempts j <= u32_max
}.

Lemma decode_purge_iff k row j : decode_purge_row k row = Ok j <-> purge_columns k row j.
Proof.
  unfold decode_purge_row, purge_key_from_database. split.
  - intros ([] & Hdir & H)%bind_Ok.
    apply bind_Ok in H as (key & (o & [-> Ho]%fixed_bytes_Ok & (i & [-> Hi]%fixed_bytes_Ok & [= <-])%bind_Ok)%bind_Ok & H).
    apply bind_Ok in H as (d & [-> Hd]%fixed_bytes_Ok & H).
    apply bind_Ok in H as (n & [-> Hn]%fixed_bytes_Ok & H).
    apply bind_Ok in H as (rev & Hrev & H).
    apply bind_Ok in H as (st & Hst%purge_from_database_Ok & H).
    apply bind_Ok in H as (a & [-> Ha]%ok_or_Ok%u32_try_from_Some & H).
    apply bind_Ok in H as ([] & Ht%validate_stored_path_Ok & H).
    apply bind_Ok in H as ([] & Hp%validate_stored_path_Ok & H).
    apply bind_Ok in H as ([] & Hne%ensure_Ok & [= <-]).
    assert (pr_trash_revision row = rev /\ (forall r, rev = Some r -> blen r = 32)) as [Hr1 Hr2].
    { destruct rev as [r|].
      - apply transpose_Ok_Some in Hrev. destruct (pr_trash_revision row) as [b|]; [|done].
        injection Hrev as [-> ?]%fixed_bytes_Ok. naive_solver.
      - apply transpose_Ok_None in Hrev. by destruct (pr_trash_revision row). }
    cbn in Ht, Hp, Hne. apply negb_true_iff in Hne.
    constructor; cbn [pj_key pj_target_path pj_trash_path pj_source_identity pj_trash_revision
      pj_is_directory pj_state pj_attempts fi_device fi_inode]; try done.
    + by destruct k.
    + intros Heq%path_eqb_spec. congruence.
    + by rewrite be8_value.
    + by rewrite be8_value.
    + by apply be8_range.
    + by apply be8_range.
    + apply ensure_Ok in Hdir. bool_prop. destruct (Z.eqb_spec (pr_is_directory row) 1); [done|].
      set_solver.
  - intros []. destruct col_key_wf0 as [Ho Hi].
    rewrite col_target0, col_trash0, col_device0, col_inode0, col_revision0, col_directory0,
      col_state0, col_attempts0.
    assert (ensure (bool_decide ((if pj_is_directory j then 1 else 0) ∈ [0; 1]))
      "Purge directory flag is invalid"%string = Ok tt) as -> by (by destruct (pj_is_directory j)).
    cbn [mbind result_bind]. rewrite !fixed_bytes_id by (done || apply u64_to_be_bytes_length).
    cbn [mbind result_bind].
    assert (transpose ((λ revision, fixed_bytes 32 revision "Purge trash revision has an invalid length")
      <$> pj_trash_revision j) = Ok (pj_trash_revision j)) as ->.
    { destruct (pj_trash_revision j) as [r|] eqn:Hr; [|done]. cbn.
      by rewrite fixed_bytes_id by (by apply col_revision_len0). }
    cbn [mbind result_bind]. rewrite purge_state_database_roundtrip. cbn [mbind result_bind].
    rewrite (proj2 (u32_try_from_Some _ _) (conj eq_refl col_attempts_range0)).
    cbn [mbind result_bind ok_or pj_target_path pj_trash_path].
    rewrite (proj2 (validate_stored_path_Ok _) col_target_wf0). cbn [mbind result_bind].
    rewrite (proj2 (validate_stored_path_Ok _) col_trash_wf0). cbn [mbind result_bind].
    assert (path_eqb (pj_target_path j) (pj_trash_path j) = false) as ->.
    { destruct (path_eqb _ _) eqn:He; [|done]. by apply path_eqb_spec in He. }
    cbn [negb ensure mbind result_bind]. rewrite !u64_be_roundtrip by done. subst k.
    destruct j as [[] ? ? [] ? [] ? ?]; done.
Qed.

(** A decodable row satisfies the constraints. *)
Lemma decode_purge_check k row j : decode_purge_row k row = Ok j -> purge_check k row = true.
Proof.
  intros []%decode_purge_iff. destruct col_key_wf0 as [Ho Hi].
  unfold purge_check.
  rewrite col_target0, col_trash0, col_device0, col_inode0, col_revision0, col_directory0,
    col_state0, col_attempts0, Ho, Hi, !u64_to_be_bytes_length.
  assert (forall p : bytes, stored_path_wf p -> in_range 1 65536 (blen p) = true) as Hp.
  { intros p (Hp & ? & _). apply in_range_true. destruct p; [done|]. unfold blen in *. cbn in *. lia. }
  rewrite !Hp by done.
  assert (opt_len 32 (pj_trash_revision j) = true) as ->.
  { destruct (pj_trash_revision j); [|done]. cbn. apply Z.eqb_eq. by apply col_revision_len0. }
  assert (in_range 0 u32_max (pj_attempts j) = true) as -> by (by apply in_range_true).
  assert (beqb (pj_target_path j) (pj_trash_path j) = false) as ->.
  { apply beqb_false. intros Heq. by rewrite Heq in col_differ0. }
  by destruct (pj_is_directory j), (pj_state j).
Qed.

(** Changing only the progress columns. *)
Lemma decode_purge_progress k row row' j st rev n :
  decode_purge_row k row = Ok j ->
  pr_target_path row' = pr_target_path row -> pr_trash_path row' = pr_trash_path row ->
  pr_source_device_be row' = pr_source_device_be row ->
  pr_source_inode_be row' = pr_source_inode_be row ->
  pr_is_directory row' = pr_is_directory row ->
  pr_state row' = purge_as_i64 st -> pr_trash_revision row' = rev -> pr_attempts row' = n ->
  (forall r, rev = Some r -> blen r = 32) -> 0 <= n <= u32_max ->
  decode_purge_row k row' = Ok (set_progress j st rev n).
Proof.
  rewrite !decode_purge_iff. intros [] ? ? ? ? ? ? ? ? ? ?.
  constructor; cbn [set_progress pj_key pj_target_path pj_trash_path pj_source_identity pj_trash_revision
    pj_is_directory pj_state pj_attempts]; first [congruence|done].
Qed.

(** ** What a call does to the table *)

(** Which job a call gives up or removes. *)
Inductive pu_label := PuOther | PuRelease (k : StoreKey) | PuRemove (k : StoreKey).

Inductive pu_effect (lim : Limits) (now : Z) : pu_label -> PurgeTable -> PurgeTable -> Prop :=
| pu_none l m : pu_effect lim now l m m
| pu_prepare l m j :
    purge_typed j -> validate_new_purge j = Ok tt -> m !! pj_key j = None ->
    (forall k r, m !! k = Some r -> pr_trash_path r <> pj_trash_path j) ->
    sql_count (λ _ _, true) m < purge_capacity lim ->
    sql_count (λ k _, owner_is (key_owner (pj_key j)) k) m < purge_per_owner lim ->
    pu_effect lim now l m (<[pj_key j := prepared_row j now]> m)
| pu_ready l m k r rev :
    m !! k = Some r -> pr_state r = PURGE_PREPARED -> blen rev = 32 ->
    pu_effect lim now l m (<[k := with_ready rev now r]> m)
| pu_claim l m k r :
    m !! k = Some r -> pr_state r = PURGE_READY ->
    pu_effect lim now l m (<[k := with_claimed now r]> m)
| pu_retry m k r next :
    m !! k = Some r -> pr_state r = PURGE_CLAIMED ->
    pu_effect lim now (PuRelease k) m (<[k := with_retry next now r]> m)
| pu_complete m k r :
    m !! k = Some r -> pr_state r = PURGE_CLAIMED -> pu_effect lim now (PuRelease k) m (delete k m)
| pu_remove m k : pu_effect lim now (PuRemove k) m (delete k m).

(** One call of the purge interface, labelled with the job it gives up or
    removes.
    [StateStore::prepare_purge_job] validates the job before the command is
    sent. *)
Inductive pu_step : pu_label -> StoreWorker -> StoreWorker -> Prop :=
| pu_step_prepare e j w r w' :
    purge_typed j -> validate_new_purge j = Ok tt ->
    prepare_purge_job e j w = (r, w') -> pu_step PuOther w w'
| pu_step_prepared e limit w r w' : prepared_purge_jobs e limit w = (r, w') -> pu_step PuOther w w'
| pu_step_list e limit w r w' : list_purge_jobs e limit w = (r, w') -> pu_step PuOther w w'
| pu_step_bound e path w r w' : state_path_is_bound e path w = (r, w') -> pu_step PuOther w w'
| pu_step_paths e after limit w r w' :
    state_blocking_paths e after limit w = (r, w') -> pu_step PuOther w w'
| pu_step_ready e k rev w r w' :
    blen rev = 32 -> mark_purge_job_ready e k rev w = (r, w') -> pu_step PuOther w w'
| pu_step_claim e w r w' : claim_due_purge_job e w = (r, w') -> pu_step PuOther w w'
| pu_step_retry e k delay w r w' : retry_purge_job e k delay w = (r, w') -> pu_step (PuRelease k) w w'
| pu_step_complete e k w r w' : complete_purge_job e k w = (r, w') -> pu_step (PuRelease k) w w'
| pu_step_remove e k w r w' : remove_purge_job e k w = (r, w') -> pu_step (PuRemove k) w w'.

Definition pu_frame (w w' : StoreWorker) : Prop :=
  same_frame w w' /\ operations (connection w') = operations (connection w) /\
  upload_sessions (connection w') = upload_sessions (connection w).

Definition pu_result (l : pu_label) (w w' : StoreWorker) : Prop :=
  pu_frame w w' /\
  pu_effect (limits w) (last_ms (clock w')) l (purge_jobs (connection w)) (purge_jobs (connection w')).

Lemma pu_result_none l w w' :
  connection w' = connection w -> same_frame w w' -> pu_result l w w'.
Proof. intros Hc Hf. split; [|rewrite Hc; constructor]. unfold pu_frame. by rewrite Hc. Qed.

(** A conditional move of one job. *)
Lemma move_purge_Ok k from f db n db' :
  move_purge k from f db = Ok (n, db') ->
  operations db' = operations db /\ upload_sessions db' = upload_sessions db /\
  ((n = 0 /\ db' = db) \/
   exists r, n = 1 /\ purge_jobs db !! k = Some r /\ pr_state r = from /\
     purge_jobs db' = <[k := f r]> (purge_jobs db)).
Proof.
  intros ([c t] & Hu & [= -> <-])%bind_Ok.
  apply (sql_update_one purge_check k (λ r, pr_state r =? from)) in Hu.
  assert (forall db : Database, set_purge_jobs db (purge_jobs db) = db) as Hid by (by intros []).
  split_and!; [done..|].
  destruct (purge_jobs db !! k) as [r|]; [destruct (pr_state r =? from) eqn:Hs|].
  - destruct Hu as (-> & -> & _). bool_prop. right. eauto.
  - destruct Hu as [-> ->]. left. by rewrite Hid.
  - destruct Hu as [-> ->]. left. by rewrite Hid.
Qed.

Lemma load_purge_Some db k j :
  load_purge_job db k = Ok (Some j) <->
  exists r, purge_jobs db !! k = Some r /\ decode_purge_row k r = Ok j.
Proof.
  unfold load_purge_job. rewrite transpose_Ok_Some, fmap_Some. split; intros (r & ? & ?); eauto.
Qed.

Lemma load_purge_None db k : load_purge_job db k = Ok None <-> purge_jobs db !! k = None.
Proof. unfold load_purge_job. by rewrite transpose_Ok_None, fmap_None. Qed.

Lemma prepare_effect e j w r w' :
  purge_typed j -> validate_new_purge j = Ok tt ->
  prepare_purge_job e j w = (r, w') -> pu_result PuOther w w'.
Proof.
  intros Hty Hv H. apply (timed_transaction_plain e (prepare_body j)) in H
    as [(Hc & Hf & _)|(a & db & -> & H & Hdb & Hf)]; [by apply pu_result_none|].
  unfold pu_result, pu_frame. rewrite Hdb.
  apply bind_Ok in H as ([ex|] & Hload & H); [injection H as _ <-; by split; [|constructor]|].
  apply load_purge_None in Hload. destruct (sql_exists _ _) eqn:Hex;
    [injection H as _ <-; by split; [|constructor]|].
  cbv zeta in H. destruct (_ || _) eqn:Hfull; [injection H as _ <-; by split; [|constructor]|].
  apply bind_Ok in H as (t & Ht & [= _ <-]). unfold purge_insert in Ht.
  destruct (sql_exists _ _) eqn:Hex2 in Ht; [done|]. apply sql_insert_Ok in Ht as (Hk & _ & ->).
  bool_prop. split; [done|]. apply pu_prepare; try done.
  intros k row Hrow Heq. pose proof (sql_exists_false _ _ Hex k row Hrow) as Hb. cbn in Hb.
  by rewrite Heq, beqb_refl in Hb.
Qed.

Lemma ready_effect e k rev w r w' :
  blen rev = 32 -> mark_purge_job_ready e k rev w = (r, w') -> pu_result PuOther w w'.
Proof.
  intros Hrev. unfold mark_purge_job_ready. intros H.
  cbv [mbind W_bind mret W_ret] in H.
  destruct (now_ms e w) as [[now|err] w1] eqn:Hn.
  2: { injection H as _ <-. apply now_ms_frame in Hn as []. by apply pu_result_none. }
  pose proof (now_ms_cases _ _ _ _ Hn) as (Hc & Hlim & _ & _ & Hnow). specialize (Hnow now eq_refl).
  pose proof (now_ms_frame _ _ _ _ Hn) as [_ Hf].
  destruct (transaction e _ w1) as [res w2] eqn:Ht.
  apply transaction_cases in Ht as [(n & db & -> & Hm & ->)|(err & -> & ->)].
  2: { injection H as _ <-. by apply pu_result_none. }
  apply move_purge_Ok in Hm as (Ho & Hu & Hcase).
  assert (w' = set_connection w1 db) as ->.
  { destruct (n =? 1); [by injection H|by apply query_keeps in H]. }
  rewrite Hc in *. unfold pu_result, pu_frame. cbn [connection clock set_connection].
  split; [done|]. rewrite <- Hnow.
  destruct Hcase as [[_ ->]|(row & _ & Hk & Hs & ->)]; [constructor|]. by apply pu_ready.
Qed.

Lemma claim_body_effect lim now db a db' :
  claim_body now db = Ok (a, db') ->
  operations db' = operations db /\ upload_sessions db' = upload_sessions db /\
  pu_effect lim now PuOther (purge_jobs db) (purge_jobs db').
Proof.
  intros ([key|] & _ & H)%bind_Ok; [|injection H as _ <-; split_and!; [done..|constructor]].
  apply bind_Ok in H as ([n db1] & Hm & H). apply bind_Ok in H as ([] & Hn%ensure_Ok & H).
  apply bind_Ok in H as (loaded & _ & H). apply bind_Ok in H as (job & _ & [= _ <-]).
  apply move_purge_Ok in Hm as (Ho & Hu & [[-> _]|(r & _ & Hk & Hs & ->)]); [done|].
  split_and!; [done..|]. by apply pu_claim.
Qed.

Lemma claim_effect e w r w' : claim_due_purge_job e w = (r, w') -> pu_result PuOther w w'.
Proof.
  intros H. apply (timed_transaction_nolim e claim_body) in H
    as [(Hc & Hf & _)|(a & db & -> & H & Hdb & Hf)]; [by apply pu_result_none|].
  unfold pu_result, pu_frame. rewrite Hdb.
  apply (claim_body_effect (limits w)) in H as (? & ? & ?). done.
Qed.

Lemma retry_effect e k delay w r w' : retry_purge_job e k delay w = (r, w') -> pu_result (PuRelease k) w w'.
Proof.
  intros H. apply (timed_transaction e (λ _ now, expiration_time now delay)
      (λ _ now next, retry_body k now next)) in H
    as [(Hc & Hf & _)|(next & a & db & -> & _ & H & Hdb & Hf)]; [by apply pu_result_none|].
  unfold pu_result, pu_frame. rewrite Hdb. apply bind_Ok in H as ([n db1] & Hm & [= _ <-]).
  apply move_purge_Ok in Hm as (Ho & Hu & [[_ ->]|(row & _ & Hk & Hs & ->)]);
    (split; [done|]); [constructor|by apply pu_retry].
Qed.

Lemma complete_purge_effect e k w r w' : complete_purge_job e k w = (r, w') -> pu_result (PuRelease k) w w'.
Proof.
  intros [(a & db & -> & H & ->)|(err & _ & ->)]%transaction_cases; [|by apply pu_result_none].
  unfold pu_result, pu_frame. cbn [connection set_connection]. unfold purge_at in H.
  rewrite (sql_delete_one k (λ r, pr_state r =? PURGE_CLAIMED)) in H.
  destruct (purge_jobs (connection w) !! k) as [row|] eqn:Hk; [destruct (_ =? _) eqn:Hs|];
    injection H as _ <-; (split; [done|]); [|constructor..].
  bool_prop. by eapply pu_complete.
Qed.

Lemma remove_purge_effect e k w r w' : remove_purge_job e k w = (r, w') -> pu_result (PuRemove k) w w'.
Proof.
  intros [(a & db & -> & H & ->)|(err & _ & ->)]%transaction_cases; [|by apply pu_result_none].
  unfold pu_result, pu_frame. cbn [connection set_connection].
  rewrite sql_delete_key in H.
  destruct (_ !! _); injection H as _ <-; (split; [done|]); constructor.
Qed.

Lemma pu_step_result l w w' : pu_step l w w' -> pu_result l w w'.
Proof.
  destruct 1.
  - by eapply prepare_effect.
  - apply query_keeps in H as ->. by apply pu_result_none.
  - apply query_keeps in H as ->. by apply pu_result_none.
  - apply query_keeps in H as ->. by apply pu_result_none.
  - apply query_keeps in H as ->. by apply pu_result_none.
  - by eapply ready_effect.
  - by eapply claim_effect.
  - by eapply retry_effect.
  - by eapply complete_purge_effect.
  - by eapply remove_purge_effect.
Qed.

(** ** The invariant *)

Definition purge_row_valid (k : StoreKey) (r : PurgeRow) : Prop :=
  exists j, decode_purge_row k r = Ok j /\ (pj_state j = PPrepared <-> pj_trash_revision j = None).

Definition purges_inv (lim : Limits) (m : PurgeTable) : Prop :=
  (forall k r, m !! k = Some r -> purge_row_valid k r) /\
  within (purge_capacity lim) (purge_per_owner lim) m /\
  (forall k1 r1 k2 r2, m !! k1 = Some r1 -> m !! k2 = Some r2 ->
     pr_trash_path r1 = pr_trash_path r2 -> k1 = k2).

Lemma prepared_decodes j now :
  purge_typed j -> validate_new_purge j = Ok tt ->
  decode_purge_row (pj_key j) (prepared_row j now) = Ok j /\
  pj_state j = PPrepared /\ pj_trash_revision j = None /\ pj_attempts j = 0.
Proof.
  intros (Hk & Hd & Hi) H. unfold validate_new_purge in H.
  apply bind_Ok in H as ([] & Ht%validate_stored_path_Ok & H).
  apply bind_Ok in H as ([] & Hp%validate_stored_path_Ok & H).
  apply bind_Ok in H as ([] & Hne%ensure_Ok & H).
  apply bind_Ok in H as ([] & Hst%ensure_Ok & H).
  apply bind_Ok in H as ([] & Hrev%ensure_Ok & H). apply ensure_Ok in H. bool_prop.
  split_and!; [|done..]. apply decode_purge_iff. constructor; try done.
  - intros Heq%path_eqb_spec. congruence.
  - intros r. by rewrite Hrev.
  - cbn. by rewrite Hst.
  - cbn. rewrite H. unfold u32_max. lia.
Qed.

(** The three moves on the decoded job. *)
Lemma ready_decodes k r j rev now :
  decode_purge_row k r = Ok j -> blen rev = 32 ->
  decode_purge_row k (with_ready rev now r) = Ok (set_progress j PReady (Some rev) (pj_attempts j)).
Proof.
  intros Hd Hr. pose proof Hd as []%decode_purge_iff.
  eapply decode_purge_progress; try done. by intros ? [= <-].
Qed.

Lemma claimed_decodes k r j now :
  decode_purge_row k r = Ok j ->
  decode_purge_row k (with_claimed now r) =
    Ok (set_progress j PClaimed (pj_trash_revision j) (pj_attempts j)).
Proof. intros Hd. pose proof Hd as []%decode_purge_iff. by eapply decode_purge_progress. Qed.

Lemma retry_decodes k r j next now :
  decode_purge_row k r = Ok j ->
  decode_purge_row k (with_retry next now r) =
    Ok (set_progress j PReady (pj_trash_revision j) (Z.min (pj_attempts j + 1) u32_max)).
Proof.
  intros Hd. pose proof Hd as []%decode_purge_iff.
  eapply decode_purge_progress; try done; cbn; [by rewrite col_attempts0|unfold u32_max in *; lia].
Qed.

Lemma decoded_state k r j : decode_purge_row k r = Ok j -> pr_state r = purge_as_i64 (pj_state j).
Proof. by intros []%decode_purge_iff. Qed.

Lemma purge_state_inj s s' : purge_as_i64 s = purge_as_i64 s' -> s = s'.
Proof. by destruct s, s'. Qed.

Lemma update_purges_inv lim (m : PurgeTable) k r row :
  purges_inv lim m -> m !! k = Some r -> purge_row_valid k row ->
  pr_trash_path row = pr_trash_path r -> purges_inv lim (<[k := row]> m).
Proof.
  intros (Hv & Hw & Hu) Hk Hrow Htr. split_and!.
  - intros k' r'. destruct (decide (k' = k)) as [->|];
      rewrite ?lookup_insert_eq, ?lookup_insert_ne by done; [by intros [= <-]|apply Hv].
  - apply within_update; [by rewrite Hk|done].
  - intros k1 r1 k2 r2.
    destruct (decide (k1 = k)) as [->|], (decide (k2 = k)) as [->|];
      rewrite ?lookup_insert_eq, ?lookup_insert_ne by done; try done; [| |apply Hu].
    + intros [= <-] H2 Heq. eapply Hu; [done..|congruence].
    + intros H1 [= <-] Heq. eapply Hu; [done..|congruence].
Qed.

Lemma delete_purges_inv lim (m : PurgeTable) k : purges_inv lim m -> purges_inv lim (delete k m).
Proof.
  intros (Hv & Hw & Hu). split_and!.
  - intros k' r [_ Hk]%lookup_delete_Some. eauto.
  - eapply within_subset; [|done]. rewrite dom_delete_L. set_solver.
  - intros k1 r1 k2 r2 [_ H1]%lookup_delete_Some [_ H2]%lookup_delete_Some. eauto.
Qed.

Lemma pu_effect_inv lim now l m m' :
  pu_effect lim now l m m' -> purges_inv lim m -> purges_inv lim m'.
Proof.
  destruct 1 as [l m|l m j Hty Hval Hk Htr Hg Ho|l m k r rev Hk Hs Hrev|l m k r Hk Hs|m k r next Hk Hs
    |m k r Hk Hs|m k]; intros Hinv.
  - done.
  - destruct Hinv as (Hv & Hw & Hu).
    destruct (prepared_decodes j now Hty Hval) as (Hd & Hst & Hrev & _). split_and!.
    + intros k' r'. destruct (decide (k' = pj_key j)) as [->|];
        rewrite ?lookup_insert_eq, ?lookup_insert_ne by done; [|apply Hv].
      intros [= <-]. exists j. by rewrite Hst, Hrev.
    + by apply within_insert.
    + intros k1 r1 k2 r2.
      destruct (decide (k1 = pj_key j)) as [->|], (decide (k2 = pj_key j)) as [->|];
        rewrite ?lookup_insert_eq, ?lookup_insert_ne by done; try done; [| |apply Hu].
      * intros [= <-] H2 Heq. by destruct (Htr k2 r2 H2).
      * intros H1 [= <-] Heq. by destruct (Htr k1 r1 H1).
  - destruct (proj1 Hinv k r Hk) as (j & Hd & _).
    eapply update_purges_inv; [done..| |done]. eexists.
    split; [by apply ready_decodes|done].
  - destruct (proj1 Hinv k r Hk) as (j & Hd & Hiff).
    assert (pj_state j = PReady) as Hj by (apply purge_state_inj; by rewrite <- (decoded_state _ _ _ Hd)).
    eapply update_purges_inv; [done..| |done]. eexists. split; [by apply claimed_decodes|].
    cbn. rewrite <- Hiff, Hj. done.
  - destruct (proj1 Hinv k r Hk) as (j & Hd & Hiff).
    assert (pj_state j = PClaimed) as Hj by (apply purge_state_inj; by rewrite <- (decoded_state _ _ _ Hd)).
    eapply update_purges_inv; [done..| |done]. eexists. split; [by apply retry_decodes|].
    cbn. rewrite <- Hiff, Hj. done.
  - by apply delete_purges_inv.
  - by apply delete_purges_inv.
Qed.

Definition pu_any (w w' : StoreWorker) : Prop := exists l, pu_step l w w'.

Lemma pu_steps_inv w w' :
  rtc pu_any w w' -> purges_inv (limits w) (purge_jobs (connection w)) ->
  purges_inv (limits w') (purge_jobs (connection w')).
Proof.
  induction 1 as [w|w1 w2 w3 [l H] _ IH]; [done|]. intros Hinv. apply IH.
  destruct (pu_step_result _ _ _ H) as [((Hlim & _) & _) He]. rewrite Hlim.
  by eapply pu_effect_inv.
Qed.

Lemma purges_inv_empty lim :
  0 <= purge_capacity lim -> 0 <= purge_per_owner lim -> purges_inv lim ∅.
Proof. intros Hc Hp. by split_and!. Qed.

(** Every reachable [purge_jobs] table is valid.  Whatever calls are made
    from an empty table, every job decodes, has a recorded trash revision
    exactly when it is past the Prepared state (so a worker never deletes a
    trash entry whose content was not observed), stays within the attempt
    counter's 32 bits, no two jobs share a trash path, and the capacities
    hold. *)
Theorem purges_table_invariant w w' :
  purge_jobs (connection w) = ∅ ->
  0 <= purge_capacity (limits w) -> 0 <= purge_per_owner (limits w) ->
  rtc pu_any w w' -> purges_inv (limits w') (purge_jobs (connection w')).
Proof.
  intros He Hc Hp Hsteps. apply (pu_steps_inv _ _ Hsteps). rewrite He. by apply purges_inv_empty.
Qed.

(** ** Refinement of the purge state machine *)

Definition purge_at_key (m : PurgeTable) (k : StoreKey) : option StoredPurgeJob :=
  match m !! k with
  | Some r => result_ok (decode_purge_row k r)
  | None => None
  end.
Definition purge_view (w : StoreWorker) : StoreKey -> option StoredPurgeJob :=
  purge_at_key (purge_jobs (connection w)).

Inductive purge_spec : option StoredPurgeJob -> option StoredPurgeJob -> Prop :=
| ps_prepare j :
    pj_state j = PPrepared -> pj_trash_revision j = None -> pj_attempts j = 0 ->
    purge_spec None (Some j)
| ps_ready j rev :
    pj_state j = PPrepared ->
    purge_spec (Some j) (Some (set_progress j PReady (Some rev) (pj_attempts j)))
| ps_claim j :
    pj_state j = PReady ->
    purge_spec (Some j) (Some (set_progress j PClaimed (pj_trash_revision j) (pj_attempts j)))
| ps_retry j :
    pj_state j = PClaimed ->
    purge_spec (Some j)
      (Some (set_progress j PReady (pj_trash_revision j) (Z.min (pj_attempts j + 1) u32_max)))
| ps_complete j : pj_state j = PClaimed -> purge_spec (Some j) None.

(** Calls that do not remove the job [k]. *)
Definition pu_keeping (k : StoreKey) (w w' : StoreWorker) : Prop :=
  exists l, l <> PuRemove k /\ pu_step l w w'.

Lemma purge_at_insert m k k' r :
  purge_at_key (<[k := r]> m) k' =
    if decide (k' = k) then result_ok (decode_purge_row k r) else purge_at_key m k'.
Proof.
  unfold purge_at_key. destruct (decide (k' = k)) as [->|].
  - by rewrite lookup_insert_eq.
  - by rewrite lookup_insert_ne.
Qed.

Lemma purge_at_delete m k k' :
  purge_at_key (delete k m) k' = if decide (k' = k) then None else purge_at_key m k'.
Proof.
  unfold purge_at_key. destruct (decide (k' = k)) as [->|].
  - by rewrite lookup_delete_eq.
  - by rewrite lookup_delete_ne.
Qed.

Lemma purge_at_Some m k j :
  purge_at_key m k = Some j <-> exists r, m !! k = Some r /\ decode_purge_row k r = Ok j.
Proof.
  unfold purge_at_key. destruct (m !! k) as [r|]; [|naive_solver].
  destruct (decode_purge_row k r) eqn:Hd; cbn; naive_solver congruence.
Qed.

(** A row in a state is a job in that state. *)
Lemma row_job lim m k r st :
  purges_inv lim m -> m !! k = Some r -> pr_state r = purge_as_i64 st ->
  exists j, decode_purge_row k r = Ok j /\ pj_state j = st /\ purge_at_key m k = Some j.
Proof.
  intros (Hv & _ & _) Hk Hs. destruct (Hv k r Hk) as (j & Hd & _). exists j.
  split_and!; [done| |apply purge_at_Some; eauto].
  apply purge_state_inj. by rewrite <- (decoded_state _ _ _ Hd).
Qed.

Lemma pu_effect_refines lim now l m m' k :
  purges_inv lim m -> l <> PuRemove k -> pu_effect lim now l m m' ->
  rtc purge_spec (purge_at_key m k) (purge_at_key m' k).
Proof.
  intros Hinv Hl He.
  destruct He as [l m|l m j Hty Hval Hk Htr Hg Ho|l m k0 r rev Hk Hs Hrev|l m k0 r Hk Hs
    |m k0 r next Hk Hs|m k0 r Hk Hs|m k0]; rewrite ?purge_at_insert, ?purge_at_delete; [done|..];
    (destruct (decide _) as [->|]; [|done]).
  - destruct (prepared_decodes j now Hty Hval) as (Hd & Hst & Hr & Ha).
    apply rtc_once. unfold purge_at_key at 1. rewrite Hk, Hd. by constructor.
  - destruct (row_job _ _ _ _ PPrepared Hinv Hk Hs) as (j & Hd & Hj & ->).
    rewrite (ready_decodes _ _ _ _ _ Hd Hrev). apply rtc_once. by constructor.
  - destruct (row_job _ _ _ _ PReady Hinv Hk Hs) as (j & Hd & Hj & ->).
    rewrite (claimed_decodes _ _ _ _ Hd). apply rtc_once. by constructor.
  - destruct (row_job _ _ _ _ PClaimed Hinv Hk Hs) as (j & Hd & Hj & ->).
    rewrite (retry_decodes _ _ _ _ _ Hd). apply rtc_once. by constructor.
  - destruct (row_job _ _ _ _ PClaimed Hinv Hk Hs) as (j & Hd & Hj & ->).
    apply rtc_once. by constructor.
  - congruence.
Qed.

(** Purge jobs follow the purge state machine.  While nobody removes job
    [k], its stored value moves only Prepared -> Ready <-> Claimed -> gone: its
    paths, source identity and kind never change, Ready is entered from
    Prepared only with an observed trash revision, only a claimed job is
    retried (counting the attempt, saturating at the 32-bit maximum) or
    completed. *)
Theorem purges_refine_lifecycle w w' k :
  purges_inv (limits w) (purge_jobs (connection w)) -> rtc (pu_keeping k) w w' ->
  rtc purge_spec (purge_view w k) (purge_view w' k).
Proof.
  intros Hinv Hs. revert Hinv. induction Hs as [w|w1 w2 w3 (l & Hl & H) _ IH]; [done|].
  intros Hinv. destruct (pu_step_result _ _ _ H) as [((Hlim & _) & _) He].
  etrans; [by eapply pu_effect_refines|]. apply IH. rewrite Hlim. by eapply pu_effect_inv.
Qed.

(** ** Claiming *)

#[export] Instance created_total : TotalCompare created_cmp.
Proof. unfold created_cmp. apply _. Qed.
#[export] Instance due_total : TotalCompare due_cmp.
Proof. unfold due_cmp. apply _. Qed.

(** [(k, r)] is a due job and no due job comes before it. *)
Definition next_due (m : PurgeTable) (now : Z) (k : StoreKey) (r : PurgeRow) : Prop :=
  m !! k = Some r /\ is_due now (k, r) = true /\
  forall k' r', m !! k' = Some r' -> is_due now (k', r') = true ->
    due_cmp (due_key (k, r)) (due_key (k', r')) <> Gt.

Lemma select_due_spec now db :
  match select_due now db with
  | Some (k, r) => next_due (purge_jobs db) now k r
  | None => forall k r, purge_jobs db !! k = Some r -> is_due now (k, r) = false
  end.
Proof.
  unfold select_due, page, limited. cbn [is_after]. change (1 <? 0) with false. cbv iota.
  change (Z.to_nat 1) with 1%nat.
  set (rows := filter _ (filter (λ kr, is_due now kr = true) (map_to_list (purge_jobs db)))).
  assert (forall k r, (k, r) ∈ rows <-> purge_jobs db !! k = Some r /\ is_due now (k, r) = true) as Hin.
  { intros k r. unfold rows. rewrite !list_elem_of_filter, elem_of_map_to_list. naive_solver. }
  destruct (order_by due_cmp due_key rows) as [|[k r] l] eqn:Ho; cbn [take head].
  - intros k r Hk. destruct (is_due now (k, r)) eqn:Hd; [|done].
    assert ((k, r) ∈ rows) as He by (by apply Hin).
    rewrite <- (order_by_perm due_cmp due_key rows), Ho in He. by apply not_elem_of_nil in He.
  - apply order_by_head in Ho as [Hk Hle]; [|apply _]. apply Hin in Hk as [Hk Hd].
    split_and!; [done..|]. intros k' r' Hk' Hd'. rewrite Forall_forall in Hle.
    apply (Hle (k', r')). by apply Hin.
Qed.

Lemma purge_key_id k : key_wf k -> purge_key_from_database (key_owner k) (key_id k) = Ok k.
Proof.
  intros [Ho Hi]. unfold purge_key_from_database. rewrite !fixed_bytes_id by done. by destruct k.
Qed.

Definition claim_outcome (m : PurgeTable) (now : Z) (a : option StoredPurgeJob) (m' : PurgeTable)
    : Prop :=
  match a with
  | None => m' = m /\ forall k r, m !! k = Some r -> is_due now (k, r) = false
  | Some j' =>
      exists k r j, next_due m now k r /\ purge_at_key m k = Some j /\
        j' = set_progress j PClaimed (pj_trash_revision j) (pj_attempts j) /\
        pj_trash_revision j <> None /\
        forall k', purge_at_key m' k' = if decide (k' = k) then Some j' else purge_at_key m k'
  end.

Lemma claim_body_runs lim now db :
  purges_inv lim (purge_jobs db) ->
  exists a db', claim_body now db = Ok (a, db') /\
    claim_outcome (purge_jobs db) now a (purge_jobs db').
Proof.
  intros Hinv. unfold claim_body. pose proof (select_due_spec now db) as Hsel.
  destruct (select_due now db) as [[k r]|]; cbn [fmap option_fmap option_map transpose].
  2: { do 2 eexists. split; [done|]. by split. }
  destruct Hsel as (Hk & Hd & Hmin). pose proof Hd as [Hs Hn]%andb_true_iff. cbn in Hs, Hn. bool_prop.
  destruct (row_job _ _ _ _ PReady Hinv Hk Hs) as (j & Hdec & Hj & Hat).
  pose proof (claimed_decodes _ _ _ now Hdec) as Hdec'.
  assert (key_wf k) as Hkw by (by destruct (proj1 (decode_purge_iff _ _ _) Hdec)).
  cbn [fst]. rewrite (purge_key_id k Hkw). cbn [mbind result_bind].
  unfold move_purge, purge_at.
  rewrite (sql_update_one_runs purge_check k (λ r, pr_state r =? PURGE_READY) _ _ r);
    [|done|by apply Z.eqb_eq|by eapply decode_purge_check].
  cbn [mbind result_bind]. change (1 =? 1) with true. cbn [ensure mbind result_bind].
  assert (load_purge_job (set_purge_jobs db (<[k := with_claimed now r]> (purge_jobs db))) k =
    Ok (Some (set_progress j PClaimed (pj_trash_revision j) (pj_attempts j)))) as ->.
  { apply load_purge_Some. eexists. split; [cbn; by rewrite lookup_insert_eq|done]. }
  do 2 eexists. split; [done|]. exists k, r, j. split_and!; [done..| |].
  - destruct (proj1 Hinv k r Hk) as (j2 & Hd2 & Hiff). assert (j2 = j) as -> by congruence.
    rewrite <- Hiff, Hj. done.
  - intros k'. cbn. by rewrite purge_at_insert, Hdec'.
Qed.

Lemma claim_runs e w :
  env_ok e w -> purges_inv (limits w) (purge_jobs (connection w)) ->
  exists a w', claim_due_purge_job e w = (Ok a, w') /\
    claim_outcome (purge_jobs (connection w)) (env_now e w) a (purge_jobs (connection w')) /\
    purges_inv (limits w') (purge_jobs (connection w')).
Proof.
  intros He Hinv.
  destruct (claim_body_runs (limits w) (env_now e w) (connection w) Hinv) as (a & db' & Hrun & Hout).
  destruct (timed_run_nolim e claim_body w a db' He Hrun) as (w' & Hw & Hc & _ & Hlim).
  exists a, w'. split; [exact Hw|]. rewrite Hc, Hlim. split; [done|].
  eapply pu_effect_inv; [|done].
  by destruct (claim_body_effect (limits w) _ _ _ _ Hrun) as (_ & _ & ?).
Qed.

(** The claimed job is the one stored under its key. *)
Lemma claim_outcome_stored m now j m' :
  claim_outcome m now (Some j) m' ->
  purge_at_key m' (pj_key j) = Some j /\ pj_state j = PClaimed /\
  exists r, m !! pj_key j = Some r /\ pr_state r = PURGE_READY.
Proof.
  intros (k & r & j0 & (Hk & Hd & _) & Hj0 & -> & _ & Hview).
  apply purge_at_Some in Hj0 as (r0 & Hr0 & Hd0). assert (r0 = r) as -> by congruence.
  pose proof (proj1 (decode_purge_iff _ _ _) Hd0) as []. cbn. rewrite col_key0.
  apply andb_true_iff in Hd as [Hs _]. cbn in Hs. bool_prop.
  rewrite Hview, decide_True by done. eauto.
Qed.

(** Calls that neither give up nor remove the job [k]. *)
Definition pu_holding (k : StoreKey) (w w' : StoreWorker) : Prop :=
  exists l, l <> PuRelease k /\ l <> PuRemove k /\ pu_step l w w'.

Lemma pu_effect_holding lim now l m m' k j :
  purges_inv lim m -> l <> PuRelease k -> l <> PuRemove k -> pu_effect lim now l m m' ->
  purge_at_key m k = Some j -> pj_state j = PClaimed -> purge_at_key m' k = Some j.
Proof.
  intros Hinv Hl1 Hl2 He Hj Hst.
  pose proof (proj1 (purge_at_Some _ _ _) Hj) as (r0 & Hr0 & Hd0).
  assert (pr_state r0 = PURGE_CLAIMED) as Hs0 by (by rewrite (decoded_state _ _ _ Hd0), Hst).
  destruct He as [l m|l m j' Hty Hval Hk Htr Hg Ho|l m k0 r rev Hk Hs Hrev|l m k0 r Hk Hs
    |m k0 r next Hk Hs|m k0 r Hk Hs|m k0]; rewrite ?purge_at_insert, ?purge_at_delete; [done|..];
    (destruct (decide _) as [->|]; [|done]);
    unfold PURGE_PREPARED, PURGE_READY, PURGE_CLAIMED in *; congruence.
Qed.

Lemma pu_holding_keeps k j w w' :
  rtc (pu_holding k) w w' -> purges_inv (limits w) (purge_jobs (connection w)) ->
  purge_view w k = Some j -> pj_state j = PClaimed ->
  purges_inv (limits w') (purge_jobs (connection w')) /\ purge_view w' k = Some j.
Proof.
  induction 1 as [w|wa wb wc (l & Hl1 & Hl2 & H) _ IH]; [done|]. intros Hinv Hv Hst.
  destruct (pu_step_result _ _ _ H) as [((Hlim & _) & _) He].
  apply IH; [rewrite Hlim; by eapply pu_effect_inv|by eapply pu_effect_holding|done].
Qed.

(** [claim_due_purge_job] takes the oldest due job, and only due ones.  On
    a valid table it never fails; it answers nothing exactly when no Ready job
    has reached its next attempt, and otherwise the first due job by next
    attempt, creation time and key - whose trash revision is known - which is
    then Claimed while every other job is untouched. *)
Theorem claim_takes_first_due e w :
  env_ok e w -> purges_inv (limits w) (purge_jobs (connection w)) ->
  exists a w', claim_due_purge_job e w = (Ok a, w') /\
    claim_outcome (purge_jobs (connection w)) (env_now e w) a (purge_jobs (connection w')).
Proof. intros He Hinv. destruct (claim_runs e w He Hinv) as (a & w' & ? & ? & _). eauto. Qed.

(** A claimed job has one worker.  After [claim_due_purge_job] handed out
    job [k], no later claim hands it out again until its holder retries,
    completes or removes it, however many other calls and claims happen in
    between. *)
Theorem claim_is_exclusive e w j w1 w2 e2 a w3 :
  purges_inv (limits w) (purge_jobs (connection w)) ->
  env_ok e w -> claim_due_purge_job e w = (Ok (Some j), w1) ->
  rtc (pu_holding (pj_key j)) w1 w2 ->
  env_ok e2 w2 -> claim_due_purge_job e2 w2 = (Ok a, w3) ->
  forall j', a = Some j' -> pj_key j' <> pj_key j.
Proof.
  intros Hinv He Hc Hsteps He2 Hc2 j' ->.
  destruct (claim_runs e w He Hinv) as (a1 & w1' & H1 & Hout & Hinv1).
  rewrite Hc in H1. injection H1 as <- <-.
  apply claim_outcome_stored in Hout as (Hat & Hst & _).
  destruct (pu_holding_keeps _ j _ _ Hsteps Hinv1 Hat Hst) as [Hinv2 Hat2].
  destruct (claim_runs e2 w2 He2 Hinv2) as (a2 & w3' & H2 & Hout2 & _).
  rewrite Hc2 in H2. injection H2 as <- <-.
  apply claim_outcome_stored in Hout2 as (_ & _ & r & Hr & Hs). intros Heq. rewrite Heq in Hr.
  apply purge_at_Some in Hat2 as (r' & Hr' & Hd'). assert (r' = r) as -> by congruence.
  apply decoded_state in Hd'. rewrite Hst, Hs in Hd'. done.
Qed.

(** ** The scan of bound paths *)

#[export] Instance state_total : TotalCompare state_cmp.
Proof. unfold state_cmp. apply _. Qed.

(** The paths the durable state protects: both paths of an active upload (its
    target may be replaced exactly while it is Running), the target of a
    prepared purge and the trash entry of every purge. *)
Inductive blocking_path (w : StoreWorker) : StateBlockingPath -> Prop :=
| bp_upload_target k s :
    upload_view w k = Some s -> is_terminal (us_state s) = false ->
    blocking_path w (mkBlocking (us_target_path s) (bool_decide (us_state s = URunning)))
| bp_upload_stage k s :
    upload_view w k = Some s -> is_terminal (us_state s) = false ->
    blocking_path w (mkBlocking (us_stage_path s) false)
| bp_purge_target k j :
    purge_view w k = Some j -> pj_state j = PPrepared ->
    blocking_path w (mkBlocking (pj_target_path j) false)
| bp_purge_trash k j :
    purge_view w k = Some j -> blocking_path w (mkBlocking (pj_trash_path j) false).

Definition path_of (row : StatePathDatabaseRow) : StateBlockingPath :=
  mkBlocking (sp_path row) (negb (sp_allows_exact_replacement row =? 0)).
Definition cursor_of (row : StatePathDatabaseRow) : StatePathCursor :=
  mkCursor (sp_kind row) (sp_owner row) (sp_id row) (sp_slot row).

Definition store_inv (w : StoreWorker) : Prop :=
  uploads_inv (limits w) (upload_sessions (connection w)) /\
  purges_inv (limits w) (purge_jobs (connection w)).

Lemma upload_row_facts k r s :
  decode_upload_row k r = Ok s ->
  key_wf k /\ ur_target_path r = us_target_path s /\ ur_stage_path r = us_stage_path s /\
  stored_path_wf (us_target_path s) /\ stored_path_wf (us_stage_path s) /\
  active_state (ur_state r) = negb (is_terminal (us_state s)) /\
  (ur_state r =? UPLOAD_RUNNING) = bool_decide (us_state s = URunning).
Proof.
  intros Hd. pose proof (active_decoded _ _ _ Hd) as Ha.
  apply decode_upload_Ok in Hd as (<- & (Hk & _) & (Ht & Hp & _) & He%encode_upload_fields).
  destruct He as (E1 & E2 & _ & _ & E3 & _). split_and!; try done.
  rewrite E3. by destruct (us_state s).
Qed.

Lemma decode_state_row row :
  sp_kind row ∈ [0; 1] -> sp_slot row ∈ [0; 1] -> sp_allows_exact_replacement row ∈ [0; 1] ->
  stored_path_wf (sp_path row) -> key_wf (mkStoreKey (sp_owner row) (sp_id row)) ->
  decode_state_path_row row = Ok (cursor_of row, path_of row).
Proof.
  intros Hk Hs Ha Hp [Ho Hi]. unfold decode_state_path_row. cbn in Ho, Hi.
  rewrite !bool_decide_eq_true_2 by done. cbn [ensure mbind result_bind].
  rewrite (proj2 (validate_stored_path_Ok _) Hp). cbn [mbind result_bind].
  by rewrite !fixed_bytes_id.
Qed.

(** Close the side conditions of [decode_state_row] on a literal row. *)
Ltac state_row :=
  apply decode_state_row; cbn;
  [..|done|done]; try case_bool_decide; rewrite !elem_of_cons, elem_of_nil; tauto.

Lemma state_paths_valid w row :
  store_inv w -> row ∈ state_paths (connection w) ->
  decode_state_path_row row = Ok (cursor_of row, path_of row) /\ blocking_path w (path_of row).
Proof.
  intros [(Hu & _ & _) (Hp & _ & _)].
  unfold state_paths. rewrite elem_of_app, !list_elem_of_bind.
  intros [([k r] & Hin & Hr%elem_of_map_to_list)|([k r] & Hin & Hr%elem_of_map_to_list)].
  - destruct (Hu k r Hr) as [s Hd].
    pose proof (upload_row_facts _ _ _ Hd) as ([Ho Hi] & E1 & E2 & W1 & W2 & Ha & Hrun).
    unfold upload_state_paths in Hin. cbn [fst snd] in Hin. rewrite Ha, Hrun, E1, E2 in Hin.
    destruct (is_terminal (us_state s)) eqn:Hterm; cbn [negb] in Hin; [set_solver|].
    assert (upload_view w k = Some s) as Hv by (apply session_at_Some; eauto).
    rewrite !elem_of_cons, elem_of_nil in Hin.
    destruct Hin as [->|[->|[]]]; (split; [state_row|]).
    + unfold path_of. cbn. rewrite bool_decide_decide. destruct (decide _) as [Hs|Hs]; cbn.
      * pose proof (bp_upload_target w k s Hv Hterm) as H. by rewrite bool_decide_eq_true_2 in H.
      * pose proof (bp_upload_target w k s Hv Hterm) as H. by rewrite bool_decide_eq_false_2 in H.
    + by eapply bp_upload_stage.
  - destruct (Hp k r Hr) as (j & Hd & _). pose proof (proj1 (decode_purge_iff _ _ _) Hd) as [].
    assert (purge_view w k = Some j) as Hv by (apply purge_at_Some; eauto).
    unfold purge_state_paths in Hin. cbn [fst snd] in Hin.
    rewrite col_target0, col_trash0, elem_of_app in Hin.
    destruct Hin as [Hin|Hin].
    1: destruct (pr_state r =? PURGE_PREPARED) eqn:Hs; [|set_solver].
    all: apply list_elem_of_singleton in Hin as ->; (split; [state_row|]).
    + eapply bp_purge_target; [done|]. apply purge_state_inj. bool_prop. by rewrite <- col_state0.
    + by eapply bp_purge_trash.
Qed.

Lemma state_paths_complete w b :
  store_inv w -> blocking_path w b -> exists row, row ∈ state_paths (connection w) /\ path_of row = b.
Proof.
  intros _ Hb. unfold state_paths. setoid_rewrite elem_of_app. setoid_rewrite list_elem_of_bind.
  destruct Hb as [k s Hv Ht|k s Hv Ht|k j Hv Hst|k j Hv].
  - apply session_at_Some in Hv as (r & Hr & Hd).
    pose proof (upload_row_facts _ _ _ Hd) as (_ & E1 & E2 & _ & _ & Ha & Hrun).
    exists (mkStatePath 0 (key_owner k) (key_id k) 0 (us_target_path s)
      (if bool_decide (us_state s = URunning) then 1 else 0)). split.
    + left. exists (k, r). rewrite elem_of_map_to_list. split; [|done].
      unfold upload_state_paths. cbn. rewrite Ha, Ht, Hrun, E1. cbn. set_solver.
    + unfold path_of. cbn. by case_bool_decide.
  - apply session_at_Some in Hv as (r & Hr & Hd).
    pose proof (upload_row_facts _ _ _ Hd) as (_ & E1 & E2 & _ & _ & Ha & Hrun).
    exists (mkStatePath 0 (key_owner k) (key_id k) 1 (us_stage_path s) 0). split; [|done].
    left. exists (k, r). rewrite elem_of_map_to_list. split; [|done].
    unfold upload_state_paths. cbn. rewrite Ha, Ht, E2. cbn. set_solver.
  - apply purge_at_Some in Hv as (r & Hr & Hd). pose proof (proj1 (decode_purge_iff _ _ _) Hd) as [].
    exists (mkStatePath 1 (key_owner k) (key_id k) 0 (pj_target_path j) 0). split; [|done].
    right. exists (k, r). rewrite elem_of_map_to_list. split; [|done].
    unfold purge_state_paths. cbn. rewrite col_state0, Hst, col_target0. cbn. set_solver.
  - apply purge_at_Some in Hv as (r & Hr & Hd). pose proof (proj1 (decode_purge_iff _ _ _) Hd) as [].
    exists (mkStatePath 1 (key_owner k) (key_id k) 1 (pj_trash_path j) 0). split; [|done].
    right. exists (k, r). rewrite elem_of_map_to_list. split; [|done].
    unfold purge_state_paths. cbn. rewrite col_trash0. apply elem_of_app. right. set_solver.
Qed.

Lemma state_key_upload k r x :
  x ∈ upload_state_paths (k, r) ->
  sp_kind x = 0 /\ mkStoreKey (sp_owner x) (sp_id x) = k.
Proof.
  unfold upload_state_paths. cbn. destruct (active_state _); [|set_solver].
  rewrite !elem_of_cons, elem_of_nil. destruct k. naive_solver.
Qed.

Lemma state_key_purge k r x :
  x ∈ purge_state_paths (k, r) ->
  sp_kind x = 1 /\ mkStoreKey (sp_owner x) (sp_id x) = k.
Proof.
  unfold purge_state_paths. cbn. rewrite elem_of_app, list_elem_of_singleton.
  destruct (_ =? _); rewrite ?list_elem_of_singleton, ?elem_of_nil; destruct k; naive_solver.
Qed.

Lemma NoDup_bind_keys {R} (f : StoreKey * R -> list StatePathDatabaseRow) (l : list (StoreKey * R)) :
  NoDup l.*1 ->
  (forall k r x, x ∈ f (k, r) -> mkStoreKey (sp_owner x) (sp_id x) = k) ->
  (forall kr, NoDup (state_key <$> f kr)) ->
  NoDup (state_key <$> (l ≫= f)).
Proof.
  intros Hnd Hkey Hf. induction l as [|[k r] l IH]; [constructor|].
  rewrite fmap_cons, NoDup_cons in Hnd. destruct Hnd as [Hk Hnd].
  rewrite bind_cons, fmap_app. apply NoDup_app. split_and!; [apply Hf| |by apply IH].
  intros key (x & -> & Hx)%list_elem_of_fmap (y & Heq & Hy)%list_elem_of_fmap.
  apply list_elem_of_bind in Hy as ([k' r'] & Hy & Hin).
  apply Hk. apply list_elem_of_fmap. exists (k', r'). split; [|done]. cbn.
  rewrite <- (Hkey _ _ _ Hx), <- (Hkey _ _ _ Hy).
  injection Heq as _ -> -> _. done.
Qed.

Lemma state_paths_NoDup db : NoDup (state_key <$> state_paths db).
Proof.
  unfold state_paths. rewrite fmap_app. apply NoDup_app. split_and!.
  - apply NoDup_bind_keys; [apply NoDup_fst_map_to_list|by intros k r x []%state_key_upload|].
    intros [k r]. unfold upload_state_paths. cbn. destruct (active_state _); [|constructor].
    cbn. rewrite NoDup_cons, list_elem_of_singleton. split; [done|apply NoDup_singleton].
  - intros key (x & -> & Hx)%list_elem_of_fmap (y & Heq & Hy)%list_elem_of_fmap.
    apply list_elem_of_bind in Hx as ([k r] & [Hx _]%state_key_upload & _).
    apply list_elem_of_bind in Hy as ([k' r'] & [Hy _]%state_key_purge & _).
    injection Heq as Hkind _ _ _. congruence.
  - apply NoDup_bind_keys; [apply NoDup_fst_map_to_list|by intros k r x []%state_key_purge|].
    intros [k r]. unfold purge_state_paths. cbn. destruct (_ =? _); cbn; [|apply NoDup_singleton].
    rewrite NoDup_cons, list_elem_of_singleton. split; [done|apply NoDup_singleton].
Qed.

Lemma collect_state_rows w rows :
  store_inv w -> (forall row, row ∈ rows -> row ∈ state_paths (connection w)) ->
  collect (decode_state_path_row <$> rows) = Ok ((λ row, (cursor_of row, path_of row)) <$> rows).
Proof.
  intros Hinv Hin. apply collect_Ok. rewrite <- list_fmap_compose.
  apply list_fmap_ext. intros i row Hrow. apply list_elem_of_lookup_2 in Hrow.
  by destruct (state_paths_valid w row Hinv (Hin _ Hrow)).
Qed.

Lemma blocking_page_runs e w after :
  env_sql_fault e = false -> store_inv w ->
  let p := take (Z.to_nat STATE_PATH_ADMISSION_PAGE_SIZE)
    (remaining state_cmp state_key (cursor_key <$> after) (state_paths (connection w))) in
  state_blocking_paths e after STATE_PATH_ADMISSION_PAGE_SIZE w =
    (Ok {| pg_paths := path_of <$> p;
           pg_next := if Z.of_nat (length p) =? STATE_PATH_ADMISSION_PAGE_SIZE
                      then cursor_of <$> last p else None |}, w).
Proof.
  intros He Hinv p. unfold state_blocking_paths, query, query_state_blocking_paths. rewrite He.
  rewrite page_remaining by (apply _ || apply state_paths_NoDup || done). fold p.
  rewrite (collect_state_rows w p Hinv).
  - change (u64_try_from STATE_PATH_ADMISSION_PAGE_SIZE) with (Some STATE_PATH_ADMISSION_PAGE_SIZE).
    cbn [mbind result_bind ok_or]. rewrite length_fmap, <- list_fmap_compose, fmap_last.
    by destruct (_ =? _), (last p).
  - intros row Hrow. unfold p in Hrow. apply (subseteq_take _ _ _) in Hrow.
    apply list_elem_of_filter in Hrow as [_ Hi]. by rewrite order_by_perm in Hi.
Qed.

Section scan_facts.
Context {Scanner : Type} (page_conflicts : Scanner -> list StateBlockingPath -> bool * Scanner).
Context (conflicts : StateBlockingPath -> bool).
Context (valid : Scanner -> Prop).
Context (page_conflicts_spec :
  forall scanner paths, valid scanner ->
    (page_conflicts scanner paths).1 = existsb conflicts paths /\
    valid (page_conflicts scanner paths).2).

Lemma scan_loop e w fuel scanner after :
  env_sql_fault e = false -> store_inv w -> valid scanner ->
  let rest := remaining state_cmp state_key (cursor_key <$> after) (state_paths (connection w)) in
  (length rest < fuel)%nat ->
  persisted_path_scan page_conflicts fuel e scanner after w =
    (Ok (Some (existsb (λ row, conflicts (path_of row)) rest)), w).
Proof.
  intros He Hinv. revert scanner after.
  induction fuel as [|fuel IH]; intros scanner after Hv rest Hf; [lia|].
  cbn [persisted_path_scan]. cbv [mbind W_bind w_lift mret W_ret].
  change (query_limit STATE_PATH_ADMISSION_PAGE_SIZE) with (Ok (E := string) STATE_PATH_ADMISSION_PAGE_SIZE).
  cbv iota beta. rewrite blocking_page_runs by done. fold rest. cbn [pg_paths pg_next].
  set (n := Z.to_nat STATE_PATH_ADMISSION_PAGE_SIZE). set (p := take n rest).
  destruct (page_conflicts_spec scanner (path_of <$> p) Hv) as [Hpc Hv'].
  destruct (page_conflicts scanner (path_of <$> p)) as [c scanner']. cbn in Hpc, Hv'. subst c.
  assert (existsb conflicts (path_of <$> p) = existsb (λ row, conflicts (path_of row)) p) as ->.
  { generalize p. intros l. induction l as [|x l IHl]; [done|]. cbn. by f_equal. }
  rewrite <- (take_drop n rest) at 1. fold p. rewrite existsb_app.
  destruct (existsb _ p); [done|]. cbn [orb].
  destruct (Z.eqb_spec (Z.of_nat (length p)) STATE_PATH_ADMISSION_PAGE_SIZE) as [Hlen|Hlen].
  - destruct (last p) as [x|] eqn:Hlast; [|apply last_None in Hlast; by rewrite Hlast in Hlen].
    cbn [fmap option_fmap option_map]. apply last_Some in Hlast as [p' Hp].
    assert (remaining state_cmp state_key (cursor_key <$> Some (cursor_of x)) (state_paths (connection w))
      = drop n rest) as Hrest.
    { apply (remaining_resume state_cmp state_key (cursor_key <$> after) _ p' x);
        [apply state_paths_NoDup|]. fold rest. rewrite <- (take_drop n rest) at 1. fold p.
      by rewrite Hp, <- app_assoc. }
    rewrite IH; [by rewrite Hrest|done|]. rewrite Hrest, length_drop.
    assert (length p <= length rest)%nat by (unfold p; rewrite length_take; lia).
    rewrite Hp, length_app in *. cbn in *. subst n. unfold STATE_PATH_ADMISSION_PAGE_SIZE in *. lia.
  - assert (drop n rest = []) as ->; [|done]. apply drop_ge. unfold p in Hlen.
    rewrite length_take in Hlen. subst n. unfold STATE_PATH_ADMISSION_PAGE_SIZE in *. lia.
Qed.
End scan_facts.

(** The admission scan terminates and misses no bound path, whatever the
    scanner's test of one path: no path is lost at a page boundary and none
    that is no longer protected is tested. *)
Lemma persisted_path_scan_exact {Scanner} page_conflicts conflicts (valid : Scanner -> Prop) scanner e w fuel :
  (forall s paths, valid s -> (page_conflicts s paths).1 = existsb conflicts paths /\
    valid (page_conflicts s paths).2) ->
  env_sql_fault e = false -> store_inv w -> valid scanner ->
  (length (state_paths (connection w)) < fuel)%nat ->
  exists found, persisted_path_scan page_conflicts fuel e scanner None w = (Ok (Some found), w) /\
    (found = true <-> exists b, blocking_path w b /\ conflicts b = true).
Proof.
  intros Hpc He Hinv Hv Hf.
  assert (remaining state_cmp state_key None (state_paths (connection w)) ≡ₚ
    state_paths (connection w)) as Hperm by apply remaining_None_perm.
  eexists. split.
  - apply (scan_loop page_conflicts conflicts valid Hpc e w fuel scanner None He Hinv Hv).
    cbn [fmap option_fmap option_map]. by rewrite Hperm.
  - cbn [fmap option_fmap option_map]. rewrite existsb_exists. split.
    + intros (row & Hin%list_elem_of_In & Hc). rewrite Hperm in Hin.
      exists (path_of row). split; [|done]. by apply state_paths_valid.
    + intros (b & Hb & Hc). destruct (state_paths_complete w b Hinv Hb) as (row & Hin & <-).
      exists row. split; [|done]. apply list_elem_of_In. by rewrite Hperm.
Qed.

(** ** A concrete job *)

Definition demo_job : StoredPurgeJob :=
  {| pj_key := demo_key; pj_target_path := bs "docs/old.txt"; pj_trash_path := bs ".trash/1";
     pj_source_identity := mkIdentity 2049 78; pj_trash_revision := None;
     pj_is_directory := false; pj_state := PPrepared; pj_attempts := 0 |}.
Definition demo_revision : bytes := bs "revision-of-thirty-two-bytes----".

Definition demo_prepared : StoreWorker := (prepare_purge_job (demo_env 0) demo_job demo_worker).2.
Definition demo_ready : StoreWorker :=
  (mark_purge_job_ready (demo_env 1) demo_key demo_revision demo_prepared).2.
Definition demo_claimed : StoreWorker := (claim_due_purge_job (demo_env 2) demo_ready).2.
Definition demo_claimed_job : StoredPurgeJob :=
  set_progress demo_job PClaimed (Some demo_revision) 0.

Lemma demo_env_ok t w n c :
  clock_now_ms (clock w) 0 (t * 1000000) = Ok (n, c) -> env_ok (demo_env t) w.
Proof. intros H. split; [done|]. by exists n, c. Qed.

Lemma demo_purge_steps :
  pu_step PuOther demo_worker demo_prepared /\ pu_step PuOther demo_prepared demo_ready /\
  pu_step PuOther demo_ready demo_claimed.
Proof.
  split_and!.
  - eapply (pu_step_prepare (demo_env 0) demo_job);
      [|vm_compute; reflexivity|apply surjective_pairing].
    split_and!; cbn; unfold u64_range, u64_max; done || lia.
  - eapply (pu_step_ready (demo_env 1) demo_key demo_revision);
      [vm_compute; reflexivity|apply surjective_pairing].
  - eapply (pu_step_claim (demo_env 2)). apply surjective_pairing.
Qed.

Lemma demo_purge_runs :
  rtc pu_any demo_worker demo_ready /\ rtc pu_any demo_worker demo_claimed /\
  rtc (pu_keeping demo_key) demo_worker demo_claimed.
Proof.
  destruct demo_purge_steps as (H1 & H2 & H3). unfold pu_any, pu_keeping. split_and!.
  - eapply rtc_l; [by exists PuOther|]. apply rtc_once. by exists PuOther.
  - eapply rtc_l; [by exists PuOther|]. eapply rtc_l; [by exists PuOther|].
    apply rtc_once. by exists PuOther.
  - eapply rtc_l; [by exists PuOther|]. eapply rtc_l; [by exists PuOther|].
    apply rtc_once. by exists PuOther.
Qed.

Lemma demo_ready_inv : purges_inv (limits demo_ready) (purge_jobs (connection demo_ready)).
Proof.
  apply (pu_steps_inv demo_worker demo_ready); [apply demo_purge_runs|].
  by apply purges_inv_empty.
Qed.

Lemma purges_table_invariant_witness :
  rtc pu_any demo_worker demo_claimed /\ size (purge_jobs (connection demo_claimed)) = 1%nat /\
  purges_inv (limits demo_claimed) (purge_jobs (connection demo_claimed)).
Proof.
  split; [apply demo_purge_runs|]. split; [vm_compute; reflexivity|].
  apply (purges_table_invariant demo_worker demo_claimed);
    [reflexivity|cbn; lia|cbn; lia|apply demo_purge_runs].
Defined.

Lemma purges_refine_lifecycle_witness :
  rtc purge_spec (purge_view demo_worker demo_key) (purge_view demo_claimed demo_key) /\
  purge_view demo_claimed demo_key = Some demo_claimed_job.
Proof.
  split; [|vm_compute; reflexivity].
  apply (purges_refine_lifecycle demo_worker demo_claimed demo_key); [|apply demo_purge_runs].
  apply purges_inv_empty; cbn; lia.
Defined.

Lemma claim_takes_first_due_witness :
  exists a w', claim_due_purge_job (demo_env 2) demo_ready = (Ok a, w') /\
    claim_outcome (purge_jobs (connection demo_ready)) (env_now (demo_env 2) demo_ready) a
      (purge_jobs (connection w')).
Proof.
  assert (env_ok (demo_env 2) demo_ready) as He
    by (eapply demo_env_ok; vm_compute; reflexivity).
  exact (claim_takes_first_due (demo_env 2) demo_ready He demo_ready_inv).
Defined.

Lemma claim_is_exclusive_witness :
  claim_due_purge_job (demo_env 2) demo_ready = (Ok (Some demo_claimed_job), demo_claimed) /\
  forall a w3, claim_due_purge_job (demo_env 900) demo_claimed = (Ok a, w3) ->
    forall j', a = Some j' -> pj_key j' <> demo_key.
Proof.
  assert (claim_due_purge_job (demo_env 2) demo_ready = (Ok (Some demo_claimed_job), demo_claimed))
    as Hc by (vm_compute; reflexivity).
  split; [exact Hc|]. intros a w3 H.
  assert (env_ok (demo_env 2) demo_ready) as He by (eapply demo_env_ok; vm_compute; reflexivity).
  assert (env_ok (demo_env 900) demo_claimed) as He2 by (eapply demo_env_ok; vm_compute; reflexivity).
  exact (claim_is_exclusive (demo_env 2) demo_ready demo_claimed_job demo_claimed demo_claimed
    (demo_env 900) a w3 demo_ready_inv He Hc (rtc_refl _ _) He2 H).
Defined.

Lemma demo_ready_store_inv : store_inv demo_ready.
Proof.
  split; [|exact demo_ready_inv].
  assert (upload_sessions (connection demo_ready) = ∅) as -> by (vm_compute; reflexivity).
  assert (limits demo_ready = demo_limits) as -> by (vm_compute; reflexivity).
  apply uploads_inv_empty; cbn; lia.
Qed.
