(* ===== verification/PathKeys.v ===== *)
(** Path keys and their conflicts ([src/src/server/path_coordinator.rs]:
    [LeaseKey], [normalize_key], the conflict predicates and
    [StatePathScanner]) with the parts of [src/src/server/rooted_fs.rs] that
    produce them ([ResolvedPathKey], [decode_relative_path],
    [conservative_path_key]).

    Resolving a path against the filesystem is a parameter of the scanner: it
    is [openat2] and [statat] of the operating system.  The admission scan of
    [Server::has_persisted_path_conflict] and [has_persisted_path_descendant]
    is the loop of [Purges.v] run with this scanner. *)

From S2P Require Import Prelude Bytes StdPath StoreModel Database StoreWorker Paging Uploads UploadLifecycle Purges PurgeLifecycle.
From stdpp Require Import base numbers list gmap strings.

Local Open Scope Z_scope.

(** ** Keys *)

Record FileIdentity := mkFile { fi_device : Z; fi_inode : Z }.

#[export] Instance FileIdentity_eq_dec : EqDecision FileIdentity.
Proof. solve_decision. Defined.

Record ResolvedPathKey := mkResolved {
  resolved_parent : FileIdentity;
  unresolved_tail : list bytes;
  ancestor_directories : list FileIdentity;
  target_directory : option FileIdentity
}.

#[export] Instance ResolvedPathKey_eq_dec : EqDecision ResolvedPathKey.
Proof. solve_decision. Defined.

Record LeaseKey := mkLease { lexical : bytes; resolved : ResolvedPathKey }.

Definition normalize_key (path : bytes) : bytes :=
  foldl path_push [] (component_bytes <$> components path).

(** ** Conflicts *)

Definition anchored_tail_is_prefix (left right : ResolvedPathKey) : bool :=
  bool_decide (resolved_parent left = resolved_parent right) &&
  bool_decide (length (unresolved_tail left) <= length (unresolved_tail right))%nat &&
  forallb (λ '(l, r), beqb l r) (zip (unresolved_tail left) (unresolved_tail right)).

(** [identity.is_some_and(|identity| directories.contains(&identity))]. *)
Definition directory_within (identity : option FileIdentity) (directories : list FileIdentity) : bool :=
  match identity with Some i => bool_decide (i ∈ directories) | None => false end.

Definition resolved_paths_conflict (left right : ResolvedPathKey) : bool :=
  anchored_tail_is_prefix left right || anchored_tail_is_prefix right left ||
  directory_within (target_directory left) (ancestor_directories right) ||
  directory_within (target_directory right) (ancestor_directories left).

Definition resolved_path_strictly_contains (ancestor descendant : ResolvedPathKey) : bool :=
  (bool_decide (length (unresolved_tail ancestor) < length (unresolved_tail descendant))%nat &&
   anchored_tail_is_prefix ancestor descendant) ||
  directory_within (target_directory ancestor) (ancestor_directories descendant).

(** [left.starts_with(right) || right.starts_with(left)]. *)
Definition lexical_overlap (left right : bytes) : bool :=
  path_starts_with left right || path_starts_with right left.

Definition path_keys_conflict (left right : LeaseKey) : bool :=
  path_starts_with (lexical left) (lexical right) || path_starts_with (lexical right) (lexical left) ||
  resolved_paths_conflict (resolved left) (resolved right).

Definition paths_conflict (left right : list LeaseKey) : bool :=
  existsb (λ left_path, existsb (λ right_path, path_keys_conflict left_path right_path) right) left.

Definition path_strictly_contains (ancestor descendant : LeaseKey) : bool :=
  (negb (path_eqb (lexical ancestor) (lexical descendant)) &&
   path_starts_with (lexical descendant) (lexical ancestor)) ||
  resolved_path_strictly_contains (resolved ancestor) (resolved descendant).

Definition paths_identify_same_entry (left right : LeaseKey) : bool :=
  path_eqb (lexical left) (lexical right) ||
  (bool_decide (resolved_parent (resolved left) = resolved_parent (resolved right)) &&
   bool_decide (unresolved_tail (resolved left) = unresolved_tail (resolved right))).

(** ** The rooted filesystem's share *)

Section rooted.
(** [RootedFs]: the path it was opened at and the identity of that directory. *)
Context (root_path : bytes) (root_identity : FileIdentity).

Definition is_normal (c : component) : bool := match c with Normal _ => true | _ => false end.

(** A NUL is refused because no Unix path holds one. *)
Definition decode_relative_path (encoded : bytes) : option bytes :=
  if beqb encoded [] || existsb (λ c, bool_decide (c = Ascii.zero)) encoded then None
  else if existsb (λ c, negb (is_normal c)) (components encoded) then None
  else Some (path_push root_path encoded).

Definition resolve_state_path (relative : bytes) : option bytes := decode_relative_path relative.

Definition conservative_path_key : ResolvedPathKey :=
  {| resolved_parent := root_identity; unresolved_tail := [];
     ancestor_directories := [root_identity]; target_directory := Some root_identity |}.

(** ** The scanner of persisted paths *)

Inductive StatePathScanRelation := SymmetricConflict | StrictDescendant.

Record StatePathScanner := mkScanner {
  sources : list bytes;
  resolved_sources : option (list LeaseKey);
  relation : StatePathScanRelation
}.

Definition state_path_conflict_scanner (paths : list bytes) : StatePathScanner :=
  {| sources := normalize_key <$> paths; resolved_sources := None; relation := SymmetricConflict |}.

Definition state_path_descendant_scanner (ancestor : bytes) : StatePathScanner :=
  {| sources := [normalize_key ancestor]; resolved_sources := None; relation := StrictDescendant |}.

(** [RootedFs::resolved_path_key_blocking]; [None] is an I/O error. *)
Context (resolved_path_key : bytes -> option ResolvedPathKey).

(** [resolved_path_keys_for_state_scan]: one error fails the batch. *)
Definition resolved_path_keys_for_state_scan (paths : list bytes) : option (list ResolvedPathKey) :=
  mapM resolved_path_key paths.

Definition candidate_conflicts (rel : StatePathScanRelation) (sources : list LeaseKey)
    (candidate : LeaseKey) (allows_exact_replacement : bool) : bool :=
  match rel with
  | SymmetricConflict => existsb (λ source, path_keys_conflict source candidate) sources
  | StrictDescendant =>
      match sources with
      | ancestor :: _ =>
          if paths_identify_same_entry ancestor candidate then negb allows_exact_replacement
          else path_strictly_contains ancestor candidate
      | [] => false
      end
  end.

(** The relation's final match over the candidates of a page. *)
Definition page_relation (rel : StatePathScanRelation) (sources : list LeaseKey)
    (candidates : list (LeaseKey * bool)) : bool :=
  match rel with
  | SymmetricConflict =>
      existsb (λ source, existsb (λ c, path_keys_conflict source c.1) candidates) sources
  | StrictDescendant => existsb (λ c, candidate_conflicts rel sources c.1 c.2) candidates
  end.

Definition page_conflicts (scanner : StatePathScanner) (state_paths : list StateBlockingPath)
    : bool * StatePathScanner :=
  if bool_decide (state_paths = []) then (false, scanner)
  else
    match mapM (λ b, lex ← resolve_state_path (bp_path b);
                     Some (normalize_key lex, bp_allows_exact_replacement b)) state_paths with
    | None => (true, scanner)
    | Some candidates =>
        let batch_sources := match resolved_sources scanner with
                             | None => sources scanner | Some _ => [] end in
        match resolved_path_keys_for_state_scan (batch_sources ++ candidates.*1) with
        | None => (true, scanner)
        | Some keys =>
            let source_keys :=
              match resolved_sources scanner with
              | Some keys => keys
              | None => zip_with mkLease (sources scanner) (take (length (sources scanner)) keys)
              end in
            let candidate_keys := zip
              (zip_with mkLease candidates.*1 (drop (length batch_sources) keys)) candidates.*2 in
            (page_relation (relation scanner) source_keys candidate_keys,
             {| sources := sources scanner; resolved_sources := Some source_keys;
                relation := relation scanner |})
        end
    end.
End rooted.

(** ** Facts about conflicts *)

Lemma anchored_tail_is_prefix_spec l r :
  anchored_tail_is_prefix l r = true <->
  resolved_parent l = resolved_parent r /\ unresolved_tail l `prefix_of` unresolved_tail r.
Proof.
  unfold anchored_tail_is_prefix. rewrite !andb_true_iff, !bool_decide_eq_true.
  assert (forall a b : list bytes,
    ((length a <= length b)%nat /\ forallb (λ '(l, r), beqb l r) (zip a b) = true) <-> a `prefix_of` b) as H.
  { induction a as [|x a IH]; intros b; cbn.
    { split; [intros _; apply prefix_nil|]. split; [lia|done]. }
    destruct b as [|y b]; cbn.
    { split; [intros [? _]; lia|]. intros E%prefix_nil_inv. done. }
    rewrite andb_true_iff, beqb_true. split.
    - intros (Hl & -> & Hf). apply prefix_cons, IH. split; [lia|done].
    - intros Hp. pose proof (prefix_cons_inv_1 _ _ _ _ Hp) as ->.
      apply prefix_cons_inv_2, IH in Hp as [? ?]. split; [lia|done]. }
  rewrite <- H. tauto.
Qed.

Lemma resolved_paths_conflict_sym l r :
  resolved_paths_conflict l r = resolved_paths_conflict r l.
Proof.
  unfold resolved_paths_conflict.
  destruct (anchored_tail_is_prefix l r), (anchored_tail_is_prefix r l),
    (directory_within (target_directory l) _), (directory_within (target_directory r) _); done.
Qed.

Lemma path_keys_conflict_sym l r : path_keys_conflict l r = path_keys_conflict r l.
Proof.
  unfold path_keys_conflict. rewrite (resolved_paths_conflict_sym (resolved r)).
  by destruct (path_starts_with _ _), (path_starts_with _ _).
Qed.

Lemma existsb_true {A} (f : A -> bool) l :
  existsb f l = true <-> exists x, x ∈ l /\ f x = true.
Proof. rewrite existsb_exists. by setoid_rewrite list_elem_of_In. Qed.

Lemma paths_conflict_true l r :
  paths_conflict l r = true <->
  exists x y, x ∈ l /\ y ∈ r /\ path_keys_conflict x y = true.
Proof.
  unfold paths_conflict. rewrite existsb_true. split.
  - intros (x & Hx & (y & Hy & Hc)%existsb_true). naive_solver.
  - intros (x & y & Hx & Hy & Hc). exists x. split; [done|]. apply existsb_true. naive_solver.
Qed.

Lemma paths_conflict_sym l r : paths_conflict l r = paths_conflict r l.
Proof.
  apply eq_bool_prop_intro. rewrite !Is_true_true, !paths_conflict_true.
  setoid_rewrite path_keys_conflict_sym at 2. naive_solver.
Qed.

(** Whoever holds the conservative key shares nothing with a key of this root. *)
Lemma conservative_key_conflicts root p k :
  root ∈ ancestor_directories (resolved k) ->
  path_keys_conflict (mkLease p (conservative_path_key root)) k = true.
Proof.
  intros H. unfold path_keys_conflict, resolved_paths_conflict, directory_within. cbn.
  rewrite (bool_decide_eq_true_2 _ H). by rewrite ?orb_true_r.
Qed.

(** Normalising changes the spelling only. *)
Lemma components_normalize_key p : components (normalize_key p) = components p.
Proof. apply components_rebuild. Qed.

(** ** Facts about the scanner *)

Section scanner_facts.
Context (root_path : bytes) (root_identity : FileIdentity).
Context (resolved_path_key : bytes -> option ResolvedPathKey).

(** What one persisted path means for a scan: it blocks the request when it
    cannot be decoded or resolved, when a source cannot be resolved, or when
    the keys are related. *)
Definition state_path_blocks (rel : StatePathScanRelation) (srcs : list bytes)
    (b : StateBlockingPath) : bool :=
  match resolve_state_path root_path (bp_path b) with
  | None => true
  | Some path =>
      match mapM resolved_path_key srcs, resolved_path_key (normalize_key path) with
      | Some ks, Some k =>
          candidate_conflicts rel (zip_with mkLease srcs ks) (mkLease (normalize_key path) k)
            (bp_allows_exact_replacement b)
      | _, _ => true
      end
  end.

Definition scanner_valid (rel : StatePathScanRelation) (srcs : list bytes) (s : StatePathScanner)
    : Prop :=
  sources s = srcs /\ relation s = rel /\
  match resolved_sources s with
  | None => True
  | Some keys => exists ks, mapM resolved_path_key srcs = Some ks /\ keys = zip_with mkLease srcs ks
  end.

Lemma page_relation_exists rel srcs cs :
  page_relation rel srcs cs = existsb (λ c, candidate_conflicts rel srcs c.1 c.2) cs.
Proof.
  destruct rel; [|done]. cbn. apply eq_bool_prop_intro. rewrite !Is_true_true, !existsb_true.
  setoid_rewrite existsb_true. naive_solver.
Qed.

Lemma mapM_None_exists {A B} (f : A -> option B) l :
  mapM f l = None -> exists x, x ∈ l /\ f x = None.
Proof.
  intros H%mapM_None. apply Exists_exists in H as (x & ? & ?). eauto.
Qed.

Lemma existsb_ext {A} (f g : A -> bool) l :
  (forall x, x ∈ l -> f x = g x) -> existsb f l = existsb g l.
Proof.
  induction l as [|x l IH]; intros H; [done|]. cbn. f_equal; [apply H; set_solver|].
  apply IH. intros y Hy. apply H. set_solver.
Qed.

(** The candidates of a page, tested one by one. *)
Lemma page_candidates rel srcs ks cs bs keys :
  mapM resolved_path_key srcs = Some ks ->
  mapM (λ b, lex ← resolve_state_path root_path (bp_path b);
             Some (normalize_key lex, bp_allows_exact_replacement b)) bs = Some cs ->
  mapM resolved_path_key cs.*1 = Some keys ->
  existsb (λ c, candidate_conflicts rel (zip_with mkLease srcs ks) c.1 c.2)
    (zip (zip_with mkLease cs.*1 keys) cs.*2) = existsb (state_path_blocks rel srcs) bs.
Proof.
  intros Hs Hc Hk. apply mapM_Some in Hc, Hk. revert keys Hk.
  induction Hc as [|b c bs cs Hb _ IH]; cbn; intros keys Hk.
  { by inversion Hk. }
  inversion Hk as [|? k ? keys' Hk1 Hk2]; subst. cbn. f_equal; [|by apply IH].
  unfold state_path_blocks.
  destruct (resolve_state_path root_path (bp_path b)) as [path|]; cbn in Hb; [|done].
  injection Hb as <-. cbn in *. by rewrite Hs, Hk1.
Qed.

Lemma zip_with_take {A B C} (f : A -> B -> C) l k : zip_with f l (take (length l) k) = zip_with f l k.
Proof. revert k. induction l as [|x l IH]; intros [|y k]; cbn; [done..|]. by f_equal. Qed.

Lemma mapM_app {A B} (f : A -> option B) l k :
  mapM f (l ++ k) = xs ← mapM f l; ys ← mapM f k; Some (xs ++ ys).
Proof.
  induction l as [|x l IH]; cbn; [by destruct (mapM f k)|].
  destruct (f x); cbn; [|done]. rewrite IH. by destruct (mapM f l), (mapM f k).
Qed.

(** Sources that cannot be resolved make every path blocking. *)
Lemma unresolved_sources_block rel srcs b bs :
  mapM resolved_path_key srcs = None -> b ∈ bs -> existsb (state_path_blocks rel srcs) bs = true.
Proof.
  intros HN Hb. apply existsb_true. exists b. split; [done|]. unfold state_path_blocks.
  rewrite HN. by destruct (resolve_state_path root_path (bp_path b)).
Qed.

Lemma unresolved_candidate_blocks rel srcs cs bs :
  mapM (λ b, lex ← resolve_state_path root_path (bp_path b);
             Some (normalize_key lex, bp_allows_exact_replacement b)) bs = Some cs ->
  mapM resolved_path_key cs.*1 = None -> existsb (state_path_blocks rel srcs) bs = true.
Proof.
  intros Hc HN. apply mapM_None_exists in HN as (p & Hp & HN).
  apply list_elem_of_fmap in Hp as (c & -> & Hin).
  apply mapM_Some in Hc. apply list_elem_of_lookup in Hin as [i Hi].
  destruct (Forall2_lookup_r _ _ _ _ _ Hc Hi) as (b & Hb%list_elem_of_lookup_2 & Hbc).
  apply existsb_true. exists b. split; [done|]. unfold state_path_blocks.
  destruct (resolve_state_path root_path (bp_path b)) as [path|]; cbn in Hbc; [|done].
  injection Hbc as <-. cbn in HN. rewrite HN. by destruct (mapM resolved_path_key srcs).
Qed.

Lemma page_conflicts_exact rel srcs s bs :
  scanner_valid rel srcs s ->
  (page_conflicts root_path resolved_path_key s bs).1 = existsb (state_path_blocks rel srcs) bs /\
  scanner_valid rel srcs (page_conflicts root_path resolved_path_key s bs).2.
Proof.
  intros Hv. pose proof Hv as (<- & <- & Hr). unfold page_conflicts.
  destruct bs as [|b0 bs0] eqn:Hbs; [done|]. rewrite bool_decide_eq_false_2 by done. rewrite <- Hbs.
  assert (b0 ∈ bs) as Hb0 by (subst; set_solver). clear Hbs.
  destruct (mapM _ bs) as [cs|] eqn:Hcs.
  2:{ split; [|done]. symmetry. apply existsb_true. apply mapM_None_exists in Hcs as (b & Hb & HN).
      exists b. split; [done|]. unfold state_path_blocks.
      by destruct (resolve_state_path root_path (bp_path b)). }
  unfold resolved_path_keys_for_state_scan. rewrite mapM_app.
  destruct (resolved_sources s) as [skeys|] eqn:Hs.
  - destruct Hr as (ks & Hks & ->). cbn [mapM mbind option_bind mret option_ret].
    destruct (mapM resolved_path_key cs.*1) as [keys|] eqn:Hk; cbn.
    + rewrite page_relation_exists, (page_candidates _ _ _ _ bs) by done.
      split; [done|]. split; [done|]. split; [done|]. cbn. by eauto.
    + split; [|done]. by erewrite unresolved_candidate_blocks.
  - destruct (mapM resolved_path_key (sources s)) as [ks|] eqn:Hks; cbn.
    2:{ split; [|done]. by erewrite unresolved_sources_block. }
    destruct (mapM resolved_path_key cs.*1) as [keys|] eqn:Hk; cbn.
    2:{ split; [|done]. by erewrite unresolved_candidate_blocks. }
    assert (length (sources s) = length ks) as Hl by by eapply length_mapM.
    rewrite Hl, take_app_length, drop_app_length, page_relation_exists,
      (page_candidates _ _ _ _ bs) by done.
      split; [done|]. split; [done|]. split; [done|]. cbn. by eauto.
Qed.

(** C35: the check that admits a MOVE, DELETE or PUT looks at every durable
    filesystem obligation exactly once and decides exactly.  Paging through the
    store ends, leaves it unchanged, and answers that the request is blocked
    precisely when some path the store protects - both paths of an active
    upload, the target of a prepared purge, the trash entry of any purge -
    cannot be decoded or resolved, or stands in the scan's relation to a
    source: related in either direction for MOVE and DELETE; strictly below
    the replaced entry, or that entry itself without permission to replace it,
    for PUT.  Caching the resolved sources after the first non-empty page
    changes nothing. *)
Theorem admission_scan_is_exact rel srcs e w fuel scanner :
  scanner = state_path_conflict_scanner srcs /\ rel = SymmetricConflict \/
    (exists p, srcs = [p] /\ scanner = state_path_descendant_scanner p /\ rel = StrictDescendant) ->
  env_sql_fault e = false -> store_inv w -> (length (state_paths (connection w)) < fuel)%nat ->
  exists blocked,
    persisted_path_scan (page_conflicts root_path resolved_path_key) fuel e scanner None w
      = (Ok (Some blocked), w) /\
    (blocked = true <-> exists b, blocking_path w b /\
       state_path_blocks rel (normalize_key <$> srcs) b = true).
Proof.
  intros Hsc He Hinv Hf.
  apply (persisted_path_scan_exact _ _ (scanner_valid rel (normalize_key <$> srcs)));
    [intros; by apply page_conflicts_exact|done..| |done].
  by destruct Hsc as [[-> ->]|(p & -> & -> & ->)].
Qed.
End scanner_facts.

(** A file system in which every path resolves below the root directory. *)
Definition demo_root : FileIdentity := mkFile 2049 2.
Definition demo_resolve (p : bytes) : option ResolvedPathKey :=
  Some (mkResolved demo_root [p] [demo_root] None).

Lemma admission_scan_is_exact_witness :
  exists blocked,
    persisted_path_scan (page_conflicts (bs "/srv") demo_resolve) 3 (demo_env 3)
      (state_path_conflict_scanner [bs "/srv/.trash"]) None demo_ready
      = (Ok (Some blocked), demo_ready) /\
    (blocked = true <-> exists b, blocking_path demo_ready b /\
       state_path_blocks (bs "/srv") demo_resolve SymmetricConflict
         (normalize_key <$> [bs "/srv/.trash"]) b = true).
Proof.
  assert (length (state_paths (connection demo_ready)) < 3)%nat as Hlen
    by (apply Nat.ltb_lt; vm_compute; reflexivity).
  exact (admission_scan_is_exact (bs "/srv") demo_resolve SymmetricConflict [bs "/srv/.trash"]
    (demo_env 3) demo_ready 3 (state_path_conflict_scanner [bs "/srv/.trash"])
    (or_introl (conj eq_refl eq_refl)) eq_refl demo_ready_store_inv Hlen).
Defined.
