(* ===== verification/PathCoordinator.v ===== *)
(** The path coordinator ([src/src/server/path_coordinator.rs]): mutation
    leases on paths, granted in order to the requests that wait for them.

    Requests are tasks that run [acquire_inner] concurrently; each transition
    below is one atomic action of one task: an access under the locks it takes,
    an atomic load, or one path resolution.  [try_acquire] holds the lease map's
    lock throughout and the epoch changes only under that lock, so it is one
    action.  The filesystem is a world that the holders of leases change;
    resolving a path reads it, or fails. *)

From S2P Require Import Prelude Bytes StdPath PathKeys.
From stdpp Require Import base numbers list gmap strings.

Local Open Scope Z_scope.

(** ** State *)

Inductive WaiterState :=
| Resolving (lexical_paths : list bytes)
| Resolved (paths : list LeaseKey).

(** [version] counts the notifications of the [watch] channel [changes]. *)
Record CoordinatorInner := mkInner {
  leases : gmap Z (list LeaseKey);
  waiters : gmap Z WaiterState;
  next_id : Z;
  next_waiter_id : Z;
  lease_epoch : Z;
  version : Z
}.

Definition new_coordinator : CoordinatorInner :=
  {| leases := ∅; waiters := ∅; next_id := 1; next_waiter_id := 1; lease_epoch := 0; version := 0 |}.

Definition set_waiters (c : CoordinatorInner) (w : gmap Z WaiterState) : CoordinatorInner :=
  {| leases := leases c; waiters := w; next_id := next_id c; next_waiter_id := next_waiter_id c;
     lease_epoch := lease_epoch c; version := version c |}.

(** [changes.send_modify]: every receiver sees a new version. *)
Definition notify (c : CoordinatorInner) : CoordinatorInner :=
  {| leases := leases c; waiters := waiters c; next_id := next_id c;
     next_waiter_id := next_waiter_id c; lease_epoch := lease_epoch c; version := version c + 1 |}.

(** ** Waiters *)

Definition waiter_conflicts (waiter : WaiterState) (requested : list LeaseKey) : bool :=
  match waiter with
  | Resolving lexical_paths =>
      existsb (λ left, existsb (λ right,
        path_starts_with left (lexical right) || path_starts_with (lexical right) left) requested)
        lexical_paths
  | Resolved paths => paths_conflict paths requested
  end.

Definition waiter_lexically_conflicts (waiter : WaiterState) (requested : list bytes) : bool :=
  match waiter with
  | Resolving lexical_paths =>
      existsb (λ left, existsb (λ right,
        path_starts_with left right || path_starts_with right left) requested) lexical_paths
  | Resolved paths =>
      existsb (λ left, existsb (λ right,
        path_starts_with (lexical left) right || path_starts_with right (lexical left)) requested) paths
  end.

(** [waiters.range(..id).any(|(_, earlier)| test(earlier))]. *)
Definition any_earlier (id : Z) (test : WaiterState -> bool) (w : gmap Z WaiterState) : bool :=
  existsb (λ '(j, earlier), (j <? id) && test earlier) (map_to_list w).

(** [WaiterRegistration::new]. *)
Definition register_waiter (c : CoordinatorInner) (lexical_paths : list bytes)
    : Z * CoordinatorInner :=
  let id := next_waiter_id c in
  (id, {| leases := leases c; waiters := <[id := Resolving lexical_paths]> (waiters c);
          next_id := next_id c; next_waiter_id := u64_wrapping_add id 1;
          lease_epoch := lease_epoch c; version := version c |}).

Definition mark_resolving_if_eligible (c : CoordinatorInner) (id : Z) (lexical_paths : list bytes)
    (previous_paths : option (list LeaseKey)) : bool * CoordinatorInner :=
  if any_earlier id (λ earlier,
       match previous_paths with
       | None => waiter_lexically_conflicts earlier lexical_paths
       | Some paths => waiter_conflicts earlier paths
       end) (waiters c)
  then (false, c)
  else (true, set_waiters c (match waiters c !! id with
                             | Some _ => <[id := Resolving lexical_paths]> (waiters c)
                             | None => waiters c
                             end)).

(** [Drop for WaiterRegistration], armed. *)
Definition drop_registration (c : CoordinatorInner) (id : Z) : CoordinatorInner :=
  match waiters c !! id with
  | Some _ => notify (set_waiters c (delete id (waiters c)))
  | None => c
  end.

(** [Drop for PathLease]. *)
Definition drop_lease (c : CoordinatorInner) (id : Z) : CoordinatorInner :=
  match leases c !! id with
  | Some _ =>
      notify {| leases := delete id (leases c); waiters := waiters c; next_id := next_id c;
                next_waiter_id := next_waiter_id c;
                lease_epoch := u64_wrapping_add (lease_epoch c) 1; version := version c |}
  | None => c
  end.

(** ** [try_acquire] *)

Inductive AcquireAttempt := Acquired (lease : Z) | Blocked | Stale.

Definition is_resolving (w : WaiterState) : bool :=
  match w with Resolving _ => true | Resolved _ => false end.

Definition try_acquire (c : CoordinatorInner) (requested : list LeaseKey)
    (expected_epoch waiter_id : Z) : AcquireAttempt * CoordinatorInner :=
  if negb (lease_epoch c =? expected_epoch) then (Stale, c)
  else
    match waiters c !! waiter_id with
    | None => (Stale, c)
    | Some waiter =>
        let became_resolved := is_resolving waiter in
        let c := set_waiters c (<[waiter_id := Resolved requested]> (waiters c)) in
        let blocked :=
          existsb (λ '(_, held), paths_conflict held requested) (map_to_list (leases c)) ||
          any_earlier waiter_id (λ earlier, waiter_conflicts earlier requested) (waiters c) in
        if blocked then (Blocked, if became_resolved then notify c else c)
        else
          let id := next_id c in
          (Acquired id,
           notify {| leases := <[id := requested]> (leases c);
                     waiters := delete waiter_id (waiters c);
                     next_id := u64_wrapping_add id 1; next_waiter_id := next_waiter_id c;
                     lease_epoch := lease_epoch c; version := version c |})
    end.

(** ** Tasks: the control points of [acquire_inner] *)

Inductive Point :=
(** the loop head: [changes.borrow_and_update()] *)
| AtHead
(** [lease_epoch.load] and the test whether the keys are of this epoch *)
| AtEpoch
(** [mark_resolving_if_eligible] with the loaded epoch *)
| AtMark (expected_epoch : Z)
(** resolving: the paths left and the keys made so far *)
| AtResolve (expected_epoch : Z) (todo : list bytes) (done : list LeaseKey)
(** [try_acquire] *)
| AtTry (expected_epoch : Z)
(** [changes.changed().await] *)
| AtWait.

Record Task := mkTask {
  tk_paths : list bytes;
  tk_resolved : option (Z * list LeaseKey);
  (** the version [changes] last showed this receiver *)
  tk_seen : Z;
  tk_point : Point
}.

Definition at_point (t : Task) (p : Point) : Task :=
  {| tk_paths := tk_paths t; tk_resolved := tk_resolved t; tk_seen := tk_seen t; tk_point := p |}.

(** The paths a request registers: normalised, sorted, without duplicates. *)
Definition lexical_paths_of (paths : list bytes) : list bytes :=
  dedup_paths (sort_paths (normalize_key <$> paths)).

Definition new_task (lexical_paths : list bytes) : Task :=
  {| tk_paths := lexical_paths; tk_resolved := None; tk_seen := 0; tk_point := AtHead |}.

Section system.
(** The filesystem, and [RootedFs::resolved_path_key] on it. *)
Context {World : Type} (resolved_path_key : World -> bytes -> option ResolvedPathKey).
Context (root_identity : FileIdentity).

Record System := mkSystem {
  sys_inner : CoordinatorInner;
  sys_tasks : gmap Z Task;
  sys_world : World
}.

(** The key of a path: the conservative one when resolution fails. *)
Definition key_or_conservative (r : option ResolvedPathKey) : ResolvedPathKey :=
  match r with Some k => k | None => conservative_path_key root_identity end.

(** One action of task [id]: the task after it ([None] once it has its lease)
    and the coordinator.  [failed]: the resolution of this action fails for a
    reason of its own.  [None]: the task sleeps. *)
Definition task_action (failed : bool) (w : World) (c : CoordinatorInner) (id : Z) (t : Task)
    : option (option Task * CoordinatorInner) :=
  match tk_point t with
  | AtHead =>
      Some (Some {| tk_paths := tk_paths t; tk_resolved := tk_resolved t;
                    tk_seen := version c; tk_point := AtEpoch |}, c)
  | AtEpoch =>
      let expected_epoch := lease_epoch c in
      let current := match tk_resolved t with
                     | Some (epoch, _) => epoch =? expected_epoch
                     | None => false
                     end in
      Some (Some (at_point t (if current then AtTry expected_epoch else AtMark expected_epoch)), c)
  | AtMark expected_epoch =>
      let '(eligible, c) := mark_resolving_if_eligible c id (tk_paths t) (snd <$> tk_resolved t) in
      Some (Some (at_point t (if eligible then AtResolve expected_epoch (tk_paths t) [] else AtWait)), c)
  | AtResolve expected_epoch (lexical :: todo) keys =>
      let resolved := if failed then None else resolved_path_key w lexical in
      Some (Some (at_point t (AtResolve expected_epoch todo
              (keys ++ [mkLease lexical (key_or_conservative resolved)]))), c)
  | AtResolve expected_epoch [] keys =>
      Some (Some {| tk_paths := tk_paths t; tk_resolved := Some (expected_epoch, keys);
                    tk_seen := tk_seen t; tk_point := AtTry expected_epoch |}, c)
  | AtTry expected_epoch =>
      match tk_resolved t with
      | Some (_, keys) =>
          match try_acquire c keys expected_epoch id with
          | (Acquired _, c) => Some (None, c)
          | (Stale, c) => Some (Some (at_point t AtHead), c)
          | (Blocked, c) => Some (Some (at_point t AtWait), c)
          end
      | None => None
      end
  | AtWait =>
      if tk_seen t =? version c then None
      else Some (Some {| tk_paths := tk_paths t; tk_resolved := tk_resolved t;
                         tk_seen := version c; tk_point := AtHead |}, c)
  end.

Definition set_task (ts : gmap Z Task) (id : Z) (t : option Task) : gmap Z Task :=
  match t with Some t => <[id := t]> ts | None => delete id ts end.

(** The await points of [acquire_inner], where its future can be dropped. *)
Definition cancellable_at (p : Point) : bool :=
  match p with AtResolve _ _ _ | AtWait => true | _ => false end.

(** The label is the lease under which the step changed the filesystem. *)
Inductive coord_step : option Z -> System -> System -> Prop :=
| step_register c ts w paths id c' :
    register_waiter c (lexical_paths_of paths) = (id, c') ->
    coord_step None (mkSystem c ts w) (mkSystem c' (<[id := new_task (lexical_paths_of paths)]> ts) w)
| step_run failed c ts w id t t' c' :
    ts !! id = Some t -> task_action failed w c id t = Some (t', c') ->
    coord_step None (mkSystem c ts w) (mkSystem c' (set_task ts id t') w)
| step_cancel_wait c ts w id t :
    ts !! id = Some t -> cancellable_at (tk_point t) = true ->
    coord_step None (mkSystem c ts w) (mkSystem (drop_registration c id) (delete id ts) w)
| step_release c ts w id keys :
    leases c !! id = Some keys ->
    coord_step None (mkSystem c ts w) (mkSystem (drop_lease c id) ts w)
(** A mutation of the filesystem under a lease.  It may change the resolution
    only of paths whose present key conflicts with the lease: the entries the
    lease names, what lies below them, and their aliases. *)
| step_mutate c ts w w' id keys :
    leases c !! id = Some keys ->
    (forall p, resolved_path_key w' p = resolved_path_key w p \/
       paths_conflict keys [mkLease p (key_or_conservative (resolved_path_key w p))] = true) ->
    coord_step (Some id) (mkSystem c ts w) (mkSystem c ts w').

Definition any_step (s s' : System) : Prop := exists m, coord_step m s s'.
(** Whatever the others do. *)
Definition others_step (id : Z) (s s' : System) : Prop :=
  exists m, m <> Some id /\ coord_step m s s'.

Definition init_system (w : World) : System := mkSystem new_coordinator ∅ w.

(** Reachable in fewer steps than a [u64] counter has values. *)
Definition reachable (n : nat) (s : System) : Prop :=
  exists w, nsteps any_step n (init_system w) s /\ Z.of_nat n < u64_max.

(** Task [id] alone, until it has its lease. *)
Fixpoint run_alone (fuel : nat) (w : World) (c : CoordinatorInner) (id : Z) (t : Task)
    : option CoordinatorInner :=
  match fuel with
  | O => None
  | S fuel =>
      match task_action false w c id t with
      | Some (None, c) => Some c
      | Some (Some t, c) => run_alone fuel w c id t
      | None => None
      end
  end.
End system.
Arguments mkSystem {World}.
Arguments sys_inner {World}.
Arguments sys_tasks {World}.
Arguments sys_world {World}.
