(* ===== verification/CoordinatorSafety.v ===== *)
(** What the path coordinator guarantees: leases exclude each other, the paths
    of a lease keep the meaning they had when it was granted, requests are
    served in order, and no request sleeps through its turn. *)

From S2P Require Import Prelude Bytes StdPath PathKeys PathCoordinator.
From stdpp Require Import base numbers list gmap strings.

Local Open Scope Z_scope.

(** ** Facts about the operations *)

Lemma any_earlier_true id test w :
  any_earlier id test w = true <-> exists j s, w !! j = Some s /\ j < id /\ test s = true.
Proof.
  unfold any_earlier. rewrite existsb_true. split.
  - intros ([j s] & Hin & Hb). apply elem_of_map_to_list in Hin. bool_prop. eauto 6.
  - intros (j & s & Hl & Hj & Ht). exists (j, s). split; [by apply elem_of_map_to_list|].
    by rewrite (proj2 (Z.ltb_lt _ _) Hj), Ht.
Qed.

Lemma any_earlier_false id test w :
  any_earlier id test w = false <-> forall j s, w !! j = Some s -> j < id -> test s = false.
Proof.
  rewrite <- not_true_iff_false, any_earlier_true. split.
  - intros H j s Hl Hj. apply not_true_is_false. intros Ht. apply H. eauto 6.
  - intros H (j & s & Hl & Hj & Ht). by rewrite (H j s) in Ht.
Qed.

Lemma lease_conflict_false (m : gmap Z (list LeaseKey)) keys :
  existsb (λ '(_, held), paths_conflict held keys) (map_to_list m) = false <->
  forall id held, m !! id = Some held -> paths_conflict held keys = false.
Proof.
  rewrite <- not_true_iff_false, existsb_true. split.
  - intros H id held Hl. apply not_true_is_false. intros Hc. apply H.
    exists (id, held). by rewrite elem_of_map_to_list.
  - intros H ([id held] & Hin%elem_of_map_to_list & Hc). by rewrite (H id held) in Hc.
Qed.

Lemma paths_conflict_one keys k :
  paths_conflict keys [k] = true <-> exists x, x ∈ keys /\ path_keys_conflict x k = true.
Proof.
  rewrite paths_conflict_true. setoid_rewrite list_elem_of_singleton. naive_solver.
Qed.

Lemma paths_conflict_in keys keys' k :
  paths_conflict keys [k] = true -> k ∈ keys' -> paths_conflict keys keys' = true.
Proof. rewrite paths_conflict_one, paths_conflict_true. naive_solver. Qed.

(** The answers of [try_acquire]. *)
Lemma try_acquire_stale c keys e id c' :
  try_acquire c keys e id = (Stale, c') -> c' = c.
Proof.
  unfold try_acquire. destruct (negb _); [naive_solver|].
  destruct (waiters c !! id); [|naive_solver]. by destruct (_ || _).
Qed.

Lemma try_acquire_blocked c keys e id c' :
  try_acquire c keys e id = (Blocked, c') ->
  is_Some (waiters c !! id) /\
  ((exists i held, leases c !! i = Some held /\ paths_conflict held keys = true) \/
   exists j s, waiters c !! j = Some s /\ j < id) /\
  exists v, version c <= v /\
  c' = {| leases := leases c; waiters := <[id := Resolved keys]> (waiters c); next_id := next_id c;
          next_waiter_id := next_waiter_id c; lease_epoch := lease_epoch c; version := v |}.
Proof.
  unfold try_acquire. destruct (negb _); [naive_solver|].
  destruct (waiters c !! id) as [wt|]; [|naive_solver].
  destruct (_ || _) eqn:Hb; [|naive_solver]. intros [=<-]. split; [done|]. split.
  - cbn in Hb. apply orb_true_iff in Hb as [Hb|Hb].
    + left. apply existsb_true in Hb as ([i held] & Hin%elem_of_map_to_list & Hc). eauto.
    + right. apply any_earlier_true in Hb as (j & s & Hl & Hj & _).
      rewrite lookup_insert_ne in Hl by lia. eauto.
  - destruct (is_resolving wt).
    + exists (version c + 1). split; [lia|done].
    + exists (version c). split; [lia|done].
Qed.

Lemma try_acquire_acquired c keys e id lease c' :
  try_acquire c keys e id = (Acquired lease, c') <->
  lease_epoch c = e /\ is_Some (waiters c !! id) /\ lease = next_id c /\
  (forall i held, leases c !! i = Some held -> paths_conflict held keys = false) /\
  (forall j s, waiters c !! j = Some s -> j < id -> waiter_conflicts s keys = false) /\
  c' = {| leases := <[lease := keys]> (leases c); waiters := delete id (waiters c);
          next_id := u64_wrapping_add lease 1; next_waiter_id := next_waiter_id c;
          lease_epoch := lease_epoch c; version := version c + 1 |}.
Proof.
  unfold try_acquire. destruct (Z.eqb_spec (lease_epoch c) e) as [He|He]; cbn; [|naive_solver].
  destruct (waiters c !! id) as [wt|] eqn:Hw; [|split; [naive_solver|by intros (_ & [? ?] & _)]].
  set (L := existsb _ _). set (E := any_earlier _ _ _).
  assert (L = false <-> forall i held, leases c !! i = Some held -> paths_conflict held keys = false)
    as HL by apply lease_conflict_false.
  assert (E = false <-> forall j s, waiters c !! j = Some s -> j < id -> waiter_conflicts s keys = false)
    as HE.
  { subst E. rewrite any_earlier_false. split; intros H j s Hl Hj; apply (H j s); [|done| |done].
    - by rewrite lookup_insert_ne by lia.
    - by rewrite lookup_insert_ne in Hl by lia. }
  destruct (L || E) eqn:HLE.
  - apply orb_true_iff in HLE. split; [naive_solver|].
    intros (_ & _ & _ & H1%(proj2 HL) & H2%(proj2 HE) & _). destruct HLE; congruence.
  - apply orb_false_iff in HLE as [HL0 HE0]. pose proof (proj1 HL HL0). pose proof (proj1 HE HE0).
    rewrite delete_insert_eq. split; [naive_solver|]. by intros (_ & _ & -> & _ & _ & ->).
Qed.

(** ** The invariant *)

Section invariant.
Context {World : Type} (resolved_path_key : World -> bytes -> option ResolvedPathKey).
Context (root_identity : FileIdentity).
Abbreviation System := (@System World).
Abbreviation key_of := (key_or_conservative root_identity).

(** A key that still says where its path leads, or claims the whole tree. *)
Definition key_current (w : World) (k : LeaseKey) : Prop :=
  resolved k = conservative_path_key root_identity \/
  resolved_path_key w (lexical k) = Some (resolved k).

(** A key that is current unless a lease holder in its way changed it. *)
Definition key_fresh (c : CoordinatorInner) (w : World) (k : LeaseKey) : Prop :=
  key_current w k \/ exists id held, leases c !! id = Some held /\ paths_conflict held [k] = true.

Definition keys_for (paths : list bytes) (keys : list LeaseKey) : Prop := lexical <$> keys = paths.

Definition waiter_for (paths : list bytes) (s : WaiterState) : Prop :=
  match s with Resolving l => l = paths | Resolved keys => keys_for paths keys end.

(** Keys made under epoch [e]. *)
Definition keys_ok (c : CoordinatorInner) (w : World) (e : Z) (keys : list LeaseKey) : Prop :=
  e <= lease_epoch c /\ (e = lease_epoch c -> Forall (key_fresh c w) keys).

Definition task_ok (c : CoordinatorInner) (w : World) (t : Task) : Prop :=
  match tk_resolved t with
  | Some (e, keys) => keys_for (tk_paths t) keys /\ keys_ok c w e keys
  | None => True
  end /\
  match tk_point t with
  | AtMark e => e <= lease_epoch c
  | AtResolve e todo keys => (lexical <$> keys) ++ todo = tk_paths t /\ keys_ok c w e keys
  | AtTry e => exists keys, tk_resolved t = Some (e, keys)
  | _ => True
  end.

(** Why a task that has seen the last notification sleeps: a lease is in its
    way, or an earlier waiter is. *)
Definition in_the_way (c : CoordinatorInner) (id : Z) (t : Task) : Prop :=
  (exists e keys i held, tk_resolved t = Some (e, keys) /\ leases c !! i = Some held /\
     paths_conflict held keys = true) \/
  exists j s, waiters c !! j = Some s /\ j < id.

Definition sleeper_ok (c : CoordinatorInner) (id : Z) (t : Task) : Prop :=
  tk_seen t <= version c /\
  (tk_point t = AtWait -> tk_seen t = version c -> in_the_way c id t).

Record coord_inv (n : Z) (s : System) : Prop := {
  inv_next_id : 1 <= next_id (sys_inner s) <= n + 1;
  inv_next_waiter : 1 <= next_waiter_id (sys_inner s) <= n + 1;
  inv_epoch : 0 <= lease_epoch (sys_inner s) <= n;
  inv_version : 0 <= version (sys_inner s);
  inv_lease_ids : forall id, is_Some (leases (sys_inner s) !! id) -> id < next_id (sys_inner s);
  inv_waiter_ids : forall id, is_Some (waiters (sys_inner s) !! id) -> id < next_waiter_id (sys_inner s);
  inv_waiters : forall id, is_Some (waiters (sys_inner s) !! id) -> is_Some (sys_tasks s !! id);
  inv_tasks : forall id t, sys_tasks s !! id = Some t ->
    (exists st, waiters (sys_inner s) !! id = Some st /\ waiter_for (tk_paths t) st) /\
    task_ok (sys_inner s) (sys_world s) t /\ sleeper_ok (sys_inner s) id t;
  inv_exclusive : forall i j ki kj, i <> j ->
    leases (sys_inner s) !! i = Some ki -> leases (sys_inner s) !! j = Some kj ->
    paths_conflict ki kj = false
}.

(** ** How a step affects the other tasks *)

Definition keys_survive (c c' : CoordinatorInner) (w w' : World) : Prop :=
  lease_epoch c < lease_epoch c' \/
  (lease_epoch c = lease_epoch c' /\ forall k, key_fresh c w k -> key_fresh c' w' k).

Definition sleep_survives (c c' : CoordinatorInner) : Prop :=
  version c < version c' \/
  (version c = version c' /\ leases c = leases c' /\
   forall j, is_Some (waiters c !! j) -> is_Some (waiters c' !! j)).

Lemma keys_ok_mono c c' w w' e keys :
  keys_survive c c' w w' -> keys_ok c w e keys -> keys_ok c' w' e keys.
Proof.
  intros [Hlt|[He Hk]] [Hle Hf]; split; [lia|lia|lia|].
  intros ->. eapply Forall_impl; [apply Hf; lia|done].
Qed.

Lemma task_ok_mono c c' w w' t :
  keys_survive c c' w w' -> task_ok c w t -> task_ok c' w' t.
Proof.
  intros Hs [Hr Hp]. split.
  - destruct (tk_resolved t) as [[e keys]|]; [|done]. destruct Hr. split; [done|].
    by eapply keys_ok_mono.
  - destruct (tk_point t); try done.
    + destruct Hs; lia.
    + destruct Hp. split; [done|]. by eapply keys_ok_mono.
Qed.

Lemma sleeper_ok_mono c c' id t : sleep_survives c c' -> sleeper_ok c id t -> sleeper_ok c' id t.
Proof.
  intros [Hlt|(Hv & Hl & Hw)] [Hle Hs]; split; [lia|lia|lia|].
  intros Hp Hseen. rewrite <- Hv in Hseen. destruct (Hs Hp Hseen) as [H|(j & s & Hj & Hlt)].
  - left. by rewrite <- Hl.
  - right. destruct (Hw j) as [s' ?]; eauto.
Qed.

Lemma keys_survive_leases c c' w :
  lease_epoch c = lease_epoch c' -> leases c ⊆ leases c' -> keys_survive c c' w w.
Proof.
  intros He Hl. right. split; [done|]. intros k [Hc|(id & held & Hh & Hp)]; [by left|].
  right. exists id, held. split; [|done]. by eapply lookup_weaken.
Qed.

#[local] Hint Resolve keys_survive_leases task_ok_mono sleeper_ok_mono : dufs.

(** A mutation only changes keys that conflict with the mutator's lease. *)
Lemma keys_survive_mutation c w w' id keys :
  leases c !! id = Some keys ->
  (forall p, resolved_path_key w' p = resolved_path_key w p \/
     paths_conflict keys [mkLease p (key_of (resolved_path_key w p))] = true) ->
  keys_survive c c w w'.
Proof.
  intros Hl Hm. right. split; [done|]. intros k [[Hc|Hc]|Hh]; [by left; left| |by right].
  destruct (Hm (lexical k)) as [E|E].
  - left. right. by rewrite E.
  - right. exists id, keys. split; [done|]. rewrite Hc in E. by destruct k.
Qed.

(** ** What one action does *)

Inductive action_effect (c : CoordinatorInner) (w : World) (id : Z) (t : Task)
    : option Task -> CoordinatorInner -> Prop :=
| effect_local t' :
    tk_paths t' = tk_paths t -> task_ok c w t' -> sleeper_ok c id t' ->
    action_effect c w id t (Some t') c
| effect_mark e :
    e <= lease_epoch c ->
    action_effect c w id t (Some (at_point t (AtResolve e (tk_paths t) [])))
      (set_waiters c (<[id := Resolving (tk_paths t)]> (waiters c)))
| effect_blocked e keys c' :
    tk_resolved t = Some (e, keys) -> try_acquire c keys e id = (Blocked, c') ->
    action_effect c w id t (Some (at_point t AtWait)) c'
| effect_acquired e keys lease c' :
    tk_resolved t = Some (e, keys) -> try_acquire c keys e id = (Acquired lease, c') ->
    action_effect c w id t None c'.

Lemma resolve_step_fresh (failed : bool) c w p :
  key_fresh c w (mkLease p (key_of (if failed then None else resolved_path_key w p))).
Proof.
  left. destruct failed; cbn; [by left|]. destruct (resolved_path_key w p) eqn:E; [by right|by left].
Qed.

Lemma task_action_effect failed c w id t t' c' :
  is_Some (waiters c !! id) -> task_ok c w t -> sleeper_ok c id t ->
  task_action resolved_path_key root_identity failed w c id t = Some (t', c') ->
  action_effect c w id t t' c'.
Proof.
  intros [st Hst] [Hr Hp] [Hle Hs]. unfold task_action.
  destruct (tk_point t) as [| |e|e [|p todo] keys|e|] eqn:Hpt.
  - intros [=<- <-]. apply effect_local; [done|by split|]. split; cbn; [lia|done].
  - intros [=<- <-]. apply effect_local; [done| |].
    + split; [done|]. cbn. destruct (tk_resolved t) as [[e keys]|]; [|cbn; lia].
      destruct (Z.eqb_spec e (lease_epoch c)) as [->|]; [by eauto|cbn; lia].
    + split; [done|]. cbn. by destruct (match tk_resolved t with Some _ => _ | None => _ end).
  - unfold mark_resolving_if_eligible. destruct (any_earlier _ _ _) eqn:He; intros [=<- <-].
    + apply effect_local; [done|by split|]. split; [done|]. intros _ _. right.
      apply any_earlier_true in He as (j & s & ? & ? & _). eauto.
    + rewrite Hst. by apply effect_mark.
  - intros [=<- <-]. destruct Hp as [Hk Hok]. rewrite app_nil_r in Hk.
    apply effect_local; [done| |by split]. split; [by split|]. cbn. by eauto.
  - intros [=<- <-]. destruct Hp as [Hk [Hle' Hok]]. apply effect_local; [done| |by split].
    split; [done|]. cbn. split; [rewrite fmap_app, <- app_assoc; by apply Hk|].
    split; [done|]. intros E. apply Forall_app. split; [by apply Hok|].
    constructor; [apply resolve_step_fresh|done].
  - destruct Hp as [keys Hk]. rewrite Hk. destruct (try_acquire c keys e id) as [a c1] eqn:Ht.
    destruct a as [lease| |]; intros [=<- <-].
    + by eapply effect_acquired.
    + by eapply effect_blocked.
    + apply try_acquire_stale in Ht as ->. apply effect_local; [done|by split|by split].
  - destruct (Z.eqb_spec (tk_seen t) (version c)); intros [=<- <-].
    apply effect_local; [done|by split|]. split; cbn; [lia|done].
Qed.

Lemma u64_wrapping_succ z : 0 <= z < u64_max -> u64_wrapping_add z 1 = z + 1.
Proof. intros H. unfold u64_wrapping_add. rewrite Z.mod_small; lia. Qed.

(** ** Preservation *)

Lemma inv_register n c ts w paths id c' :
  Z.of_nat (S n) < u64_max -> coord_inv (Z.of_nat n) (mkSystem c ts w) ->
  register_waiter c paths = (id, c') ->
  coord_inv (Z.of_nat (S n)) (mkSystem c' (<[id := new_task paths]> ts) w).
Proof.
  intros Hn [H1 H2 H3 H4 H5 H6 H7 H8 H9] [= <- <-]. cbn in *.
  constructor; cbn; try lia; try done.
  - rewrite u64_wrapping_succ by lia. lia.
  - rewrite u64_wrapping_succ by lia. intros id [<-|[_ Hid]]%lookup_insert_is_Some; [lia|].
    apply H6 in Hid. lia.
  - intros id [<-|[Hne Hid]]%lookup_insert_is_Some; apply lookup_insert_is_Some; [by left|].
    right. split; [done|by apply H7].
  - intros id t [[-> <-]|[Hne Ht]]%lookup_insert_Some.
    + split; [exists (Resolving paths); by rewrite lookup_insert_eq|]. split; [by split|]. by split; cbn.
    + rewrite lookup_insert_ne by done. destruct (H8 id t Ht) as (Hw & Hok & Hs).
      split; [done|]. split.
      * eauto with dufs.
      * eapply sleeper_ok_mono; [|exact Hs]. right. split; [done|]. split; [done|]. cbn.
        intros j Hj. apply lookup_insert_is_Some. destruct (decide (next_waiter_id c = j)); auto.
Qed.

Lemma inv_cancel n c ts w id :
  coord_inv (Z.of_nat n) (mkSystem c ts w) -> is_Some (ts !! id) ->
  coord_inv (Z.of_nat (S n)) (mkSystem (drop_registration c id) (delete id ts) w).
Proof.
  intros [H1 H2 H3 H4 H5 H6 H7 H8 H9] [t0 Ht0]. cbn in *.
  destruct (H8 id t0 Ht0) as ((st & Hst & _) & _). unfold drop_registration. rewrite Hst.
  constructor; cbn; try lia; try done.
  - intros j [_ Hj]%lookup_delete_is_Some. by apply H6.
  - intros j [Hne Hj]%lookup_delete_is_Some. apply lookup_delete_is_Some. auto.
  - intros j t [Hne Ht]%lookup_delete_Some. rewrite lookup_delete_ne by done.
    destruct (H8 j t Ht) as (Hw & Hok & Hs). split; [done|]. split.
    + eauto with dufs.
    + eapply sleeper_ok_mono; [|exact Hs]. left. cbn. lia.
Qed.

Lemma inv_release n c ts w id keys :
  Z.of_nat (S n) < u64_max -> coord_inv (Z.of_nat n) (mkSystem c ts w) -> leases c !! id = Some keys ->
  coord_inv (Z.of_nat (S n)) (mkSystem (drop_lease c id) ts w).
Proof.
  intros Hn [H1 H2 H3 H4 H5 H6 H7 H8 H9] Hl. cbn in *. unfold drop_lease. rewrite Hl.
  assert (u64_wrapping_add (lease_epoch c) 1 = lease_epoch c + 1) as He
    by (apply u64_wrapping_succ; lia).
  constructor; cbn; rewrite ?He; try lia; try done.
  - intros j [_ Hj]%lookup_delete_is_Some. by apply H5.
  - intros j t Ht. destruct (H8 j t Ht) as (Hw & Hok & Hs). split; [done|]. split.
    + eapply task_ok_mono; [|exact Hok]. left. cbn. lia.
    + eapply sleeper_ok_mono; [|exact Hs]. left. cbn. lia.
  - intros i j ki kj Hne [_ Hi]%lookup_delete_Some [_ Hj]%lookup_delete_Some. by eapply H9.
Qed.

Lemma inv_mutate n c ts w w' id keys :
  coord_inv (Z.of_nat n) (mkSystem c ts w) -> leases c !! id = Some keys ->
  (forall p, resolved_path_key w' p = resolved_path_key w p \/
     paths_conflict keys [mkLease p (key_of (resolved_path_key w p))] = true) ->
  coord_inv (Z.of_nat (S n)) (mkSystem c ts w').
Proof.
  intros [H1 H2 H3 H4 H5 H6 H7 H8 H9] Hl Hm. cbn in *. constructor; cbn; try lia; try done.
  intros j t Ht. destruct (H8 j t Ht) as (Hw & Hok & Hs). split; [done|]. split; [|done].
  eapply task_ok_mono; [|exact Hok]. by eapply keys_survive_mutation.
Qed.

(** A step of task [id] that keeps leases, epoch and the other waiters. *)
Lemma inv_keep n c c' ts w id t t' st :
  coord_inv (Z.of_nat n) (mkSystem c ts w) -> ts !! id = Some t ->
  leases c' = leases c -> lease_epoch c' = lease_epoch c -> next_id c' = next_id c ->
  next_waiter_id c' = next_waiter_id c -> version c <= version c' ->
  waiters c' = <[id := st]> (waiters c) -> waiter_for (tk_paths t') st ->
  task_ok c' w t' -> sleeper_ok c' id t' ->
  coord_inv (Z.of_nat (S n)) (mkSystem c' (<[id := t']> ts) w).
Proof.
  intros [H1 H2 H3 H4 H5 H6 H7 H8 H9] Ht El Ee En Ew Hv Hw' Hst Hok Hs. cbn in *.
  assert (is_Some (waiters c !! id)) as Hid by (destruct (H8 id t Ht) as ((? & -> & _) & _); done).
  constructor; cbn; rewrite ?El, ?Ee, ?En, ?Ew, ?Hw'; try lia; try done.
  - intros j [<-|[_ Hj]]%lookup_insert_is_Some; by apply H6.
  - intros j [<-|[Hne Hj]]%lookup_insert_is_Some; apply lookup_insert_is_Some; auto.
  - intros j tj [[<- <-]|[Hne Htj]]%lookup_insert_Some.
    { rewrite lookup_insert_eq. split; [by exists st|by split]. }
    rewrite lookup_insert_ne by done. destruct (H8 j tj Htj) as (Hwj & Hokj & Hsj).
    split; [done|]. split.
    + eapply task_ok_mono; [|exact Hokj]. apply keys_survive_leases; [done|by rewrite El].
    + eapply sleeper_ok_mono; [|exact Hsj].
      destruct (decide (version c = version c')) as [Ev|]; [|left; lia]. right.
      split; [done|]. split; [done|]. intros i Hi. rewrite Hw'. apply lookup_insert_is_Some.
      destruct (decide (id = i)); auto.
Qed.

Lemma inv_acquired n c ts w id t e keys lease c' :
  Z.of_nat (S n) < u64_max -> coord_inv (Z.of_nat n) (mkSystem c ts w) -> ts !! id = Some t ->
  try_acquire c keys e id = (Acquired lease, c') ->
  coord_inv (Z.of_nat (S n)) (mkSystem c' (delete id ts) w).
Proof.
  intros Hn [H1 H2 H3 H4 H5 H6 H7 H8 H9] Ht. cbn in *.
  intros (He & Hid & -> & Hfree & _ & ->)%try_acquire_acquired.
  assert (leases c !! next_id c = None) as Hnew.
  { destruct (leases c !! next_id c) eqn:E; [|done]. apply mk_is_Some, H5 in E. lia. }
  constructor; cbn; rewrite ?u64_wrapping_succ by lia; try lia; try done.
  - intros j [<-|[_ Hj]]%lookup_insert_is_Some; [lia|]. apply H5 in Hj. lia.
  - intros j [_ Hj]%lookup_delete_is_Some. by apply H6.
  - intros j [Hne Hj]%lookup_delete_is_Some. apply lookup_delete_is_Some. auto.
  - intros j tj [Hne Htj]%lookup_delete_Some. rewrite lookup_delete_ne by done.
    destruct (H8 j tj Htj) as (Hw & Hok & Hs). split; [done|]. split.
    + eapply task_ok_mono; [|exact Hok]. apply keys_survive_leases; [done|]. cbn.
      by apply insert_subseteq.
    + eapply sleeper_ok_mono; [|exact Hs]. left. cbn. lia.
  - intros i j ki kj Hne [[<- <-]|[_ Hi]]%lookup_insert_Some [[<- <-]|[_ Hj]]%lookup_insert_Some.
    + done.
    + rewrite paths_conflict_sym. by eapply Hfree.
    + by eapply Hfree.
    + by eapply H9.
Qed.

Lemma inv_run n failed c ts w id t t' c' :
  Z.of_nat (S n) < u64_max -> coord_inv (Z.of_nat n) (mkSystem c ts w) -> ts !! id = Some t ->
  task_action resolved_path_key root_identity failed w c id t = Some (t', c') ->
  coord_inv (Z.of_nat (S n)) (mkSystem c' (set_task ts id t') w).
Proof.
  intros Hn Hinv Ht Ha.
  destruct (inv_tasks _ _ Hinv id t Ht) as ((st & Hst & Hfor) & Hok & Hs). cbn in *.
  assert (is_Some (waiters c !! id)) as Hid by eauto.
  destruct (task_action_effect _ _ _ _ _ _ _ Hid Hok Hs Ha) as [t' Hp Hok' Hs'|e He|e keys c' Hr Hb|e keys lease c' Hr Hb]; cbn.
  - eapply (inv_keep n c c _ _ _ t _ st); try done; [by rewrite insert_id|by rewrite Hp].
  - eapply (inv_keep n c _ _ _ _ t _ (Resolving (tk_paths t))); try done.
    + destruct Hok as [Hr _]. split; [done|]. cbn. split; [done|]. by split.
    + destruct Hs. by split.
  - apply try_acquire_blocked in Hb as (_ & Hway & v & Hv & ->). destruct Hok as [Hkeys Hpt].
    eapply (inv_keep n c _ _ _ _ t _ (Resolved keys)); try done; cbn.
    + rewrite Hr in Hkeys. apply Hkeys.
    + destruct Hs as [Hle _]. split; [cbn; lia|]. intros _ _.
      destruct Hway as [(i & held & ? & ?)|(j & s & Hj & ?)].
      * left. cbn. by eauto 10.
      * right. cbn. exists j, s. split; [|done]. by rewrite lookup_insert_ne by lia.
  - by eapply inv_acquired.
Qed.

Lemma coord_inv_step n m s s' :
  Z.of_nat (S n) < u64_max -> coord_inv (Z.of_nat n) s ->
  coord_step resolved_path_key root_identity m s s' -> coord_inv (Z.of_nat (S n)) s'.
Proof.
  intros Hn Hinv Hstep. destruct Hstep.
  - by eapply inv_register.
  - by eapply inv_run.
  - eapply inv_cancel; eauto.
  - by eapply inv_release.
  - by eapply inv_mutate.
Qed.

Lemma coord_inv_init w : coord_inv 0 (init_system w).
Proof.
  constructor; cbn; try lia; try set_solver.
  all: intros *; rewrite lookup_empty; intros H; by inversion H.
Qed.

Lemma coord_inv_reachable n s :
  reachable resolved_path_key root_identity n s -> coord_inv (Z.of_nat n) s.
Proof.
  intros (w & Hn & Hb). remember (init_system w) as s0 eqn:E0.
  assert (forall k, nsteps (any_step resolved_path_key root_identity) n s0 s ->
    Z.of_nat (n + k) < u64_max -> coord_inv (Z.of_nat k) s0 -> coord_inv (Z.of_nat (n + k)) s) as H.
  { clear Hn Hb E0. revert s0. induction n as [|n IH]; intros s0 k Hs Hb Hi.
    - by inversion Hs; subst.
    - inversion Hs as [|? ? s1 ? [m Hm] Hrest]; subst.
      replace (S n + k)%nat with (n + S k)%nat in * by lia.
      eapply IH; [done|done|]. eapply coord_inv_step; [lia|done|done]. }
  specialize (H 0%nat Hn). rewrite Nat.add_0_r in H. apply H; [done|]. subst. apply coord_inv_init.
Qed.

(** ** Grants *)

Lemma grant_inv n c ts w id t failed c' :
  coord_inv (Z.of_nat n) (mkSystem c ts w) -> ts !! id = Some t ->
  task_action resolved_path_key root_identity failed w c id t = Some (None, c') ->
  exists e keys, tk_resolved t = Some (e, keys) /\ keys_for (tk_paths t) keys /\
    try_acquire c keys e id = (Acquired (next_id c), c') /\ Forall (key_current w) keys.
Proof.
  intros Hinv Ht Ha. destruct (inv_tasks _ _ Hinv id t Ht) as ((st & Hst & _) & Hok & Hs).
  cbn in *. assert (is_Some (waiters c !! id)) as Hid by eauto.
  pose proof (task_action_effect _ _ _ _ _ _ _ Hid Hok Hs Ha) as He.
  inversion He as [| | |e keys lease ? Hr Hacq]; subst. exists e, keys.
  destruct Hok as [Hkeys _]. rewrite Hr in Hkeys. destruct Hkeys as [Hfor [_ Hfresh]].
  pose proof Hacq as (He' & _ & -> & Hfree & _ & _)%try_acquire_acquired.
  split; [done|]. split; [done|]. split; [done|]. specialize (Hfresh (eq_sym He')).
  apply Forall_forall. intros k Hk. rewrite Forall_forall in Hfresh.
  destruct (Hfresh k Hk) as [?|(i & held & Hheld & Hc)]; [done|].
  pose proof (paths_conflict_in _ _ _ Hc Hk) as Hc'. by rewrite (Hfree _ _ Hheld) in Hc'.
Qed.

(** Keys of this root. *)
Definition rooted_key (k : LeaseKey) : Prop := root_identity ∈ ancestor_directories (resolved k).

Section rooted.
(** A resolved ancestry starts at the anchored root. *)
Context (ancestry_rooted : forall w p k,
  resolved_path_key w p = Some k -> root_identity ∈ ancestor_directories k).

Lemma current_rooted w k : key_current w k -> rooted_key k.
Proof.
  unfold rooted_key. intros [->|H]; [cbn; set_solver|]. by eapply ancestry_rooted.
Qed.

Definition leases_rooted (s : System) : Prop :=
  forall id keys, leases (sys_inner s) !! id = Some keys -> Forall rooted_key keys.

Lemma leases_rooted_step n m s s' :
  coord_inv (Z.of_nat n) s -> leases_rooted s ->
  coord_step resolved_path_key root_identity m s s' -> leases_rooted s'.
Proof.
  intros Hinv Hr Hstep. destruct Hstep as [c ts w paths id c' Hreg|failed c ts w id t t' c' Ht Ha
    |c ts w id t Ht _|c ts w id keys Hl|c ts w w' id keys Hl Hm]; intros i ks; cbn; try apply Hr.
  - injection Hreg as <- <-. apply Hr.
  - destruct (inv_tasks _ _ Hinv id t Ht) as ((st & Hst & _) & Hok & Hs). cbn in *.
    assert (is_Some (waiters c !! id)) as Hid by eauto.
    destruct (task_action_effect _ _ _ _ _ _ _ Hid Hok Hs Ha) as [|e He|e keys c' Hre Hb|e keys lease c' Hre Hb];
      try apply Hr.
    + apply try_acquire_blocked in Hb as (_ & _ & v & _ & ->). apply Hr.
    + destruct (grant_inv _ _ _ _ _ _ _ _ Hinv Ht Ha) as (e' & keys' & Hre' & _ & Hacq & Hcur).
      apply try_acquire_acquired in Hacq as (_ & _ & _ & _ & _ & ->). cbn.
      intros [[<- <-]|[_ Hi]]%lookup_insert_Some; [|by eapply Hr].
      eapply Forall_impl; [exact Hcur|]. intros k. apply current_rooted.
  - unfold drop_registration. destruct (waiters c !! id); apply Hr.
  - unfold drop_lease. rewrite Hl. cbn. intros [_ Hi]%lookup_delete_Some. by eapply Hr.
Qed.

Lemma leases_rooted_reachable n s :
  reachable resolved_path_key root_identity n s -> leases_rooted s.
Proof.
  revert s. induction n as [|n IH]; intros s (w & Hn & Hb).
  - inversion Hn; subst. intros id keys. cbn. by rewrite lookup_empty.
  - apply nsteps_inv_r in Hn as (s1 & Hn & [m Hm]).
    assert (reachable resolved_path_key root_identity n s1) as Hr1 by (exists w; split; [done|lia]).
    eapply leases_rooted_step; [by eapply coord_inv_reachable|by apply IH|exact Hm].
Qed.

(** No key of the one list names, contains or lies below what a key of the
    other names, and none claims the whole tree. *)
Definition keys_apart (ki kj : list LeaseKey) : Prop :=
  forall p q, p ∈ ki -> q ∈ kj ->
    ~ components (lexical p) `prefix_of` components (lexical q) /\
    resolved_paths_conflict (resolved p) (resolved q) = false /\
    resolved p <> conservative_path_key root_identity.

(** C2: no two mutation leases overlap.  In every state the coordinator can
    reach, of two leases held at once no path of one equals, contains or lies
    below a path of the other - neither as written nor as the filesystem
    resolves them, through whatever aliases - and a lease whose path could not
    be resolved is held alone. *)
Theorem leases_are_exclusive n s i j ki kj :
  reachable resolved_path_key root_identity n s -> i <> j ->
  leases (sys_inner s) !! i = Some ki -> leases (sys_inner s) !! j = Some kj -> keys_apart ki kj.
Proof.
  intros Hr Hne Hi Hj p q Hp Hq.
  pose proof (inv_exclusive _ _ (coord_inv_reachable _ _ Hr) i j ki kj Hne Hi Hj) as Hc.
  assert (path_keys_conflict p q = false) as Hpq.
  { apply not_true_is_false. intros E. apply not_true_iff_false in Hc. apply Hc.
    apply paths_conflict_true. eauto. }
  pose proof Hpq as Hpq'. unfold path_keys_conflict in Hpq'. bool_prop. split; [|split; [done|]].
  - intros Hpre%path_starts_with_spec. congruence.
  - intros E. pose proof (leases_rooted_reachable n s Hr j kj Hj) as Hroot.
    rewrite Forall_forall in Hroot. specialize (Hroot q Hq).
    destruct p as [lp rp]. cbn in E. subst rp. by rewrite conservative_key_conflicts in Hpq.
Qed.
End rooted.

(** ** The paths of a lease keep their meaning *)

Lemma others_keep_keys n lease keys m s s' :
  Z.of_nat (S n) < u64_max -> coord_inv (Z.of_nat n) s -> m <> Some lease ->
  coord_step resolved_path_key root_identity m s s' -> lease < next_id (sys_inner s) ->
  (forall keys', leases (sys_inner s) !! lease = Some keys' ->
     keys' = keys /\ Forall (key_current (sys_world s)) keys) ->
  lease < next_id (sys_inner s') /\
  (forall keys', leases (sys_inner s') !! lease = Some keys' ->
     keys' = keys /\ Forall (key_current (sys_world s')) keys).
Proof.
  intros Hn Hinv Hm Hstep Hlt Hk.
  destruct Hstep as [c ts w paths id c' Hreg|failed c ts w id t t' c' Ht Ha
    |c ts w id t Ht _|c ts w id ks Hl|c ts w w' id ks Hl Hmut]; cbn in *.
  - by injection Hreg as <- <-.
  - destruct (inv_tasks _ _ Hinv id t Ht) as ((st & Hst & _) & Hok & Hs). cbn in *.
    assert (is_Some (waiters c !! id)) as Hid by eauto.
    destruct (task_action_effect _ _ _ _ _ _ _ Hid Hok Hs Ha) as [| |e kk c' Hre Hb|e kk l c' Hre Hb];
      try done.
    + by apply try_acquire_blocked in Hb as (_ & _ & v & _ & ->).
    + apply try_acquire_acquired in Hb as (_ & _ & -> & _ & _ & ->). cbn.
      pose proof (inv_next_id _ _ Hinv) as Hb. cbn in Hb. rewrite u64_wrapping_succ by lia.
      split; [lia|]. intros keys'. rewrite lookup_insert_ne by lia. apply Hk.
  - unfold drop_registration. by destruct (waiters c !! id).
  - unfold drop_lease. rewrite Hl. cbn. split; [done|]. intros keys' [_ Hi]%lookup_delete_Some. by apply Hk.
  - split; [done|]. intros keys' Hl'. destruct (Hk _ Hl') as [-> Hcur]. split; [done|].
    apply Forall_forall. intros k Hin. rewrite Forall_forall in Hcur.
    destruct (Hcur k Hin) as [?|Hc]; [by left|]. right.
    destruct (Hmut (lexical k)) as [->|E]; [done|]. rewrite Hc in E. cbn in E.
    assert (mkLease (lexical k) (resolved k) = k) as Ek by by destruct k. rewrite Ek in E.
    pose proof (paths_conflict_in _ _ _ E Hin) as E'.
    assert (id <> lease) as Hne by congruence.
    by rewrite (inv_exclusive _ _ Hinv id lease ks keys Hne Hl Hl') in E'.
Qed.

Lemma others_keep_run k n lease keys s s' :
  Z.of_nat (n + k) < u64_max -> coord_inv (Z.of_nat n) s ->
  nsteps (others_step resolved_path_key root_identity lease) k s s' ->
  lease < next_id (sys_inner s) ->
  (forall keys', leases (sys_inner s) !! lease = Some keys' ->
     keys' = keys /\ Forall (key_current (sys_world s)) keys) ->
  forall keys', leases (sys_inner s') !! lease = Some keys' ->
    keys' = keys /\ Forall (key_current (sys_world s')) keys.
Proof.
  revert n s. induction k as [|k IH]; intros n s Hb Hinv Hk Hlt Hkeys.
  - by inversion Hk; subst.
  - inversion Hk as [|? ? s2 ? (m & Hm & Hstep) Hrest]; subst.
    assert (coord_inv (Z.of_nat (S n)) s2) as Hinv2 by (eapply coord_inv_step; [lia|done..]).
    destruct (others_keep_keys n lease keys m s s2) as [Hlt2 Hkeys2]; [lia|done..|].
    eapply (IH (S n)); [lia|done..].
Qed.

(** A lease protects what its paths mean.  When a request is granted its
    lease, every key of it says where its path leads at that moment, although
    the paths were resolved one after the other while other requests were
    changing the tree; and whatever the other requests then do - register,
    resolve, give up, acquire, release, change the filesystem under their own
    leases - the paths of the lease keep leading there until its holder
    changes or releases them. *)
Theorem held_paths_stay_resolved n s id t failed c' k s' :
  reachable resolved_path_key root_identity n s -> sys_tasks s !! id = Some t ->
  task_action resolved_path_key root_identity failed (sys_world s) (sys_inner s) id t
    = Some (None, c') ->
  nsteps (others_step resolved_path_key root_identity (next_id (sys_inner s))) k
    (mkSystem c' (delete id (sys_tasks s)) (sys_world s)) s' ->
  Z.of_nat (S n + k) < u64_max ->
  exists keys, leases c' !! next_id (sys_inner s) = Some keys /\ lexical <$> keys = tk_paths t /\
    forall keys', leases (sys_inner s') !! next_id (sys_inner s) = Some keys' ->
      keys' = keys /\ Forall (key_current (sys_world s')) keys.
Proof.
  intros Hr Ht Ha Hk Hb. destruct s as [c ts w]. cbn in *.
  pose proof (coord_inv_reachable _ _ Hr) as Hinv.
  destruct (grant_inv _ _ _ _ _ _ _ _ Hinv Ht Ha) as (e & keys & _ & Hfor & Hacq & Hcur).
  assert (coord_inv (Z.of_nat (S n)) (mkSystem c' (delete id ts) w)) as Hinv1
    by (eapply inv_acquired; [lia|done..]).
  apply try_acquire_acquired in Hacq as (_ & _ & _ & _ & _ & Hc').
  assert (leases c' !! next_id c = Some keys) as Hl by (rewrite Hc'; apply lookup_insert_eq).
  assert (next_id c < next_id c') as Hlt by by apply (inv_lease_ids _ _ Hinv1); cbn; rewrite Hl.
  exists keys. split; [done|]. split; [done|].
  assert (forall keys', leases c' !! next_id c = Some keys' ->
    keys' = keys /\ Forall (key_current w) keys) as Hkeys by (intros ? E; by simplify_eq).
  by eapply (others_keep_run k (S n) (next_id c) keys (mkSystem c' (delete id ts) w)).
Qed.

(** ** Order *)

Definition paths_apart (ps qs : list bytes) : Prop :=
  forall p q, p ∈ ps -> q ∈ qs -> lexical_overlap p q = false.

(** Requests for overlapping paths are served in the order in which they
    arrived.  When a request is granted its lease, no path of an earlier
    request that is still waiting equals, contains or lies below one of its
    paths. *)
Theorem no_overtaking n s i ti j tj failed c' :
  reachable resolved_path_key root_identity n s ->
  sys_tasks s !! i = Some ti -> sys_tasks s !! j = Some tj -> j < i ->
  task_action resolved_path_key root_identity failed (sys_world s) (sys_inner s) i ti
    = Some (None, c') ->
  paths_apart (tk_paths tj) (tk_paths ti).
Proof.
  intros Hr Hi Hj Hlt Ha p q Hp Hq. destruct s as [c ts w]. cbn in *.
  pose proof (coord_inv_reachable _ _ Hr) as Hinv.
  destruct (grant_inv _ _ _ _ _ _ _ _ Hinv Hi Ha) as (e & keys & _ & Hfor & Hacq & _).
  apply try_acquire_acquired in Hacq as (_ & _ & _ & _ & Hearlier & _).
  destruct (inv_tasks _ _ Hinv j tj Hj) as ((st & Hst & Hst') & _). cbn in Hst.
  specialize (Hearlier j st Hst Hlt). apply not_true_iff_false in Hearlier.
  apply not_true_is_false. intros Ho. apply Hearlier.
  unfold keys_for in Hfor. rewrite <- Hfor in Hq. apply list_elem_of_fmap in Hq as (kq & -> & Hkq).
  destruct st as [l|ks]; cbn in *; subst.
  - apply existsb_true. exists p. split; [done|]. apply existsb_true. by exists kq.
  - unfold keys_for in Hst'. rewrite <- Hst' in Hp. apply list_elem_of_fmap in Hp as (kp & -> & Hkp).
    apply paths_conflict_true. exists kp, kq. split; [done|]. split; [done|].
    unfold path_keys_conflict. unfold lexical_overlap in Ho. by rewrite Ho.
Qed.

(** ** Progress *)

Abbreviation run := (run_alone resolved_path_key root_identity).

(** The first waiter, and no lease. *)
Definition front (c : CoordinatorInner) (id : Z) : Prop :=
  leases c = ∅ /\ is_Some (waiters c !! id) /\ forall j s, waiters c !! j = Some s -> id <= j.

(** It has its lease, on its own paths. *)
Definition granted (paths : list bytes) (r : option CoordinatorInner) : Prop :=
  exists c lease keys, r = Some c /\ leases c = {[lease := keys]} /\ lexical <$> keys = paths.

Lemma front_no_earlier c id test : front c id -> any_earlier id test (waiters c) = false.
Proof. intros (_ & _ & H). apply any_earlier_false. intros j s Hj Hlt. apply H in Hj. lia. Qed.

Lemma front_mark c id paths :
  front c id -> front (set_waiters c (<[id := Resolving paths]> (waiters c))) id.
Proof.
  intros (Hl & Hw & Hm). split; [done|]. cbn. rewrite lookup_insert_eq. split; [done|].
  intros j s [[<- _]|[_ Hj]]%lookup_insert_Some; [lia|by eapply Hm].
Qed.

Lemma run_try f w c id t e keys :
  front c id -> tk_point t = AtTry e -> tk_resolved t = Some (e, keys) -> lease_epoch c = e ->
  lexical <$> keys = tk_paths t -> granted (tk_paths t) (run (S f) w c id t).
Proof.
  intros (Hl & Hw & Hm) Hp Hr He Hk. cbn. unfold task_action. rewrite Hp, Hr.
  assert (exists c', try_acquire c keys e id = (Acquired (next_id c), c')) as [c' Hc'].
  { eexists. apply try_acquire_acquired. split; [done|]. split; [done|]. split; [done|].
    split; [intros i held Hh; by rewrite Hl, lookup_empty in Hh|].
    split; [|reflexivity]. intros j s Hj Hlt. apply Hm in Hj. lia. }
  rewrite Hc'. apply try_acquire_acquired in Hc' as (_ & _ & _ & _ & _ & ->).
  eexists _, (next_id c), keys. split; [done|]. cbn. by rewrite Hl.
Qed.

(** Resolution, in the current epoch. *)
Lemma run_resolve todo : forall f w c id t e done,
  front c id -> tk_point t = AtResolve e todo done -> lease_epoch c = e ->
  (lexical <$> done) ++ todo = tk_paths t ->
  granted (tk_paths t) (run (length todo + 2 + f)%nat w c id t).
Proof.
  induction todo as [|p todo IH]; intros f w c id t e keys Hf Hp He Hk; cbn [length Nat.add run_alone].
  - unfold task_action at 1. rewrite Hp. rewrite app_nil_r in Hk.
    by eapply (run_try f w c id (mkTask (tk_paths t) (Some (e, keys)) (tk_seen t) (AtTry e))).
  - unfold task_action at 1. rewrite Hp. set (t' := at_point t _).
    change (tk_paths t) with (tk_paths t'). eapply IH; [done|reflexivity|done|].
    cbn. rewrite fmap_app, <- app_assoc. by apply Hk.
Qed.

Lemma run_epoch f w c id t :
  front c id -> tk_point t = AtEpoch -> task_ok c w t ->
  granted (tk_paths t) (run (length (tk_paths t) + 4 + f)%nat w c id t).
Proof.
  intros Hf Hp [Hr _].
  replace (length (tk_paths t) + 4 + f)%nat with (S (S (length (tk_paths t) + 2 + f))) by lia.
  cbn [run_alone]. unfold task_action at 1. rewrite Hp.
  destruct (match tk_resolved t with Some (epoch, _) => _ | None => _ end) eqn:Hcur.
  - destruct (tk_resolved t) as [[e keys]|] eqn:Hres; [|done]. apply Z.eqb_eq in Hcur.
    eapply (run_try _ w c id (at_point t (AtTry (lease_epoch c)))); cbn; [done|done| |done|apply Hr].
    by rewrite Hres, Hcur.
  - cbn [task_action tk_point at_point]. unfold mark_resolving_if_eligible.
    rewrite front_no_earlier by done. pose proof Hf as (_ & [st Hst] & _). rewrite Hst.
    eapply (run_resolve (tk_paths t) f w _ id (at_point t (AtResolve (lease_epoch c) (tk_paths t) [])));
      [by apply front_mark|reflexivity|done|done].
Qed.

Lemma run_head f w c id t :
  front c id -> tk_point t = AtHead -> task_ok c w t ->
  granted (tk_paths t) (run (length (tk_paths t) + 5 + f)%nat w c id t).
Proof.
  intros Hf Hp [Hr _].
  replace (length (tk_paths t) + 5 + f)%nat with (S (length (tk_paths t) + 4 + f)) by lia.
  cbn [run_alone]. unfold task_action at 1. rewrite Hp.
  by apply (run_epoch f w c id (mkTask (tk_paths t) (tk_resolved t) (version c) AtEpoch)).
Qed.

(** Keys of an earlier epoch are refused and made again. *)
Lemma run_stale f w c id t e keys :
  front c id -> tk_point t = AtTry e -> tk_resolved t = Some (e, keys) -> e < lease_epoch c ->
  lexical <$> keys = tk_paths t ->
  granted (tk_paths t) (run (length (tk_paths t) + 6 + f)%nat w c id t).
Proof.
  intros Hf Hp Hr He Hk.
  replace (length (tk_paths t) + 6 + f)%nat with (S (length (tk_paths t) + 5 + f)) by lia.
  cbn [run_alone]. unfold task_action at 1. rewrite Hp, Hr. unfold try_acquire.
  destruct (Z.eqb_spec (lease_epoch c) e); [lia|]. cbn [negb].
  apply (run_head f w c id (at_point t AtHead)); [done|done|]. split; [|done].
  cbn. rewrite Hr. split; [done|]. split; lia.
Qed.

Lemma run_resolving todo : forall f w c id t e done,
  front c id -> tk_point t = AtResolve e todo done -> e <= lease_epoch c ->
  (lexical <$> done) ++ todo = tk_paths t ->
  granted (tk_paths t) (run (length todo + length (tk_paths t) + 7 + f)%nat w c id t).
Proof.
  induction todo as [|p todo IH]; intros f w c id t e keys Hf Hp He Hk; cbn [length Nat.add].
  - replace (length (tk_paths t) + 7 + f)%nat with (S (length (tk_paths t) + 6 + f)) by lia.
    cbn [run_alone]. unfold task_action at 1. rewrite Hp. rewrite app_nil_r in Hk.
    set (t' := mkTask (tk_paths t) (Some (e, keys)) (tk_seen t) (AtTry e)).
    destruct (decide (e = lease_epoch c)) as [->|Hne].
    + replace (length (tk_paths t) + 6 + f)%nat with (S (length (tk_paths t) + 5 + f)) by lia.
      by eapply (run_try _ w c id t').
    + eapply (run_stale f w c id t'); [done|done|done|lia|done].
  - cbn [run_alone]. unfold task_action at 1. rewrite Hp. set (t' := at_point t _).
    change (tk_paths t) with (tk_paths t'). eapply IH; [done|reflexivity|done|].
    cbn. rewrite fmap_app, <- app_assoc. by apply Hk.
Qed.

(** From any point. *)
Lemma run_front w c id t :
  front c id -> task_ok c w t -> sleeper_ok c id t ->
  granted (tk_paths t) (run (2 * length (tk_paths t) + 8)%nat w c id t).
Proof.
  intros Hf Hok Hs. pose proof Hok as [Hr Hpt]. set (len := length (tk_paths t)).
  destruct (tk_point t) as [| |e|e todo keys|e|] eqn:Hp.
  - replace (2 * len + 8)%nat with (len + 5 + (len + 3))%nat by lia. by apply run_head.
  - replace (2 * len + 8)%nat with (len + 4 + (len + 4))%nat by lia. by apply run_epoch.
  - replace (2 * len + 8)%nat with (S (len + len + 7 + 0))%nat by lia.
    cbn [run_alone]. unfold task_action at 1. rewrite Hp. unfold mark_resolving_if_eligible.
    rewrite front_no_earlier by done. pose proof Hf as (_ & [st Hst] & _). rewrite Hst.
    eapply (run_resolving (tk_paths t) 0 w _ id (at_point t (AtResolve e (tk_paths t) [])));
      [by apply front_mark|done|done|done].
  - destruct Hpt as [Hk [He _]].
    assert (length todo <= len)%nat by (subst len; rewrite <- Hk, length_app; lia).
    replace (2 * len + 8)%nat with (length todo + len + 7 + (len - length todo + 1))%nat by lia.
    by eapply run_resolving.
  - destruct Hpt as [keys Hk]. rewrite Hk in Hr. destruct Hr as [Hfor [He _]].
    destruct (decide (e = lease_epoch c)) as [->|Hne].
    + replace (2 * len + 8)%nat with (S (2 * len + 7)) by lia. by eapply run_try.
    + replace (2 * len + 8)%nat with (len + 6 + (len + 2))%nat by lia.
      eapply run_stale; [done|done|done|lia|done].
  - destruct Hs as [Hle Hs]. destruct (Z.eqb_spec (tk_seen t) (version c)) as [E|E].
    + destruct Hf as (Hl & _ & Hm). destruct (Hs Hp E) as [(? & ? & i & held & _ & Hh & _)|(j & s & Hj & Hlt)].
      * by rewrite Hl, lookup_empty in Hh.
      * apply Hm in Hj. lia.
    + replace (2 * len + 8)%nat with (S (len + 5 + (len + 2))) by lia. cbn [run_alone].
      unfold task_action at 1. rewrite Hp, (proj2 (Z.eqb_neq _ _) E).
      by apply (run_head (len + 2) w c id (mkTask (tk_paths t) (tk_resolved t) (version c) AtHead)).
Qed.

(** C25: no request sleeps through its turn.  In every state the coordinator can
    reach, the request that has waited longest can take a step unless a lease
    held by somebody else conflicts with its paths; and when no lease is held
    it obtains its own within [2 * paths + 8] of its own steps, whatever point
    it was at and however often its keys had gone stale before. *)
Theorem first_waiter_acquires n s id t :
  reachable resolved_path_key root_identity n s -> sys_tasks s !! id = Some t ->
  (forall j, is_Some (sys_tasks s !! j) -> id <= j) ->
  (task_action resolved_path_key root_identity false (sys_world s) (sys_inner s) id t = None ->
   exists e keys i held, tk_resolved t = Some (e, keys) /\
     leases (sys_inner s) !! i = Some held /\ paths_conflict held keys = true) /\
  (leases (sys_inner s) = ∅ ->
   granted (tk_paths t)
     (run_alone resolved_path_key root_identity (2 * length (tk_paths t) + 8)
        (sys_world s) (sys_inner s) id t)).
Proof.
  intros Hr Ht Hfirst. pose proof (coord_inv_reachable _ _ Hr) as Hinv.
  destruct (inv_tasks _ _ Hinv id t Ht) as ((st & Hst & _) & Hok & Hs).
  assert (forall j sj, waiters (sys_inner s) !! j = Some sj -> id <= j) as Hmin.
  { intros j sj Hj. apply Hfirst, (inv_waiters _ _ Hinv). by rewrite Hj. }
  split; [|intros Hl; apply run_front; [|done..]; by repeat split; eauto].
  destruct Hok as [_ Hpt]. destruct Hs as [_ Hs]. unfold task_action.
  destruct (tk_point t) as [| |e|e [|p todo] keys|e|] eqn:Hp; try done.
  - by destruct (mark_resolving_if_eligible _ _ _ _) as [[] ?].
  - destruct Hpt as [keys ->]. by destruct (try_acquire _ _ _ _) as [[] ?].
  - destruct (Z.eqb_spec (tk_seen t) (version (sys_inner s))) as [E|]; [|done]. intros _.
    destruct (Hs eq_refl E) as [H|(j & sj & Hj & Hlt)]; [done|]. apply Hmin in Hj. lia.
Qed.
End invariant.

(** ** A concrete run

    The world is a switch; the directory [/srv/a] exists while it is on.  Two
    requests ask for [/srv/a/x] and for [/srv/b]. *)

Section script.
Context {World : Type} (resolved_path_key : World -> bytes -> option ResolvedPathKey).
Context (root_identity : FileIdentity).

Inductive event := Register (paths : list bytes) | Run (id : Z).

Definition play_event (s : System) (ev : event) : option (@System World) :=
  match ev with
  | Register paths =>
      let '(id, c) := register_waiter (sys_inner s) (lexical_paths_of paths) in
      Some (mkSystem c (<[id := new_task (lexical_paths_of paths)]> (sys_tasks s)) (sys_world s))
  | Run id =>
      t ← sys_tasks s !! id;
      '(t', c) ← task_action resolved_path_key root_identity false (sys_world s) (sys_inner s) id t;
      Some (mkSystem c (set_task (sys_tasks s) id t') (sys_world s))
  end.

Fixpoint play (evs : list event) (s : System) : option System :=
  match evs with [] => Some s | ev :: evs => s' ← play_event s ev; play evs s' end.

Lemma play_event_step s ev s' :
  play_event s ev = Some s' -> coord_step resolved_path_key root_identity None s s'.
Proof.
  destruct s as [c ts w], ev as [paths|id]; cbn [play_event sys_inner sys_tasks sys_world].
  - destruct (register_waiter _ _) as [id c'] eqn:E. intros [=<-]. by apply step_register.
  - destruct (ts !! id) as [t|] eqn:Ht; cbn; [|done].
    destruct (task_action _ _ _ _ _ _ _) as [[t' c']|] eqn:E; cbn; [|done].
    intros [=<-]. by eapply step_run.
Qed.

Lemma play_steps (R : System -> System -> Prop) evs s s' :
  (forall s s', coord_step resolved_path_key root_identity None s s' -> R s s') ->
  play evs s = Some s' -> nsteps R (length evs) s s'.
Proof.
  intros HR. revert s. induction evs as [|ev evs IH]; intros s; cbn; [intros [=<-]; constructor|].
  destruct (play_event s ev) as [s1|] eqn:E; cbn; [|done]. intros Hs.
  econstructor; [by eapply HR, play_event_step|by apply IH].
Qed.
End script.

Definition demo_a : FileIdentity := mkFile 2049 3.
Definition demo_tree (on : bool) (p : bytes) : option ResolvedPathKey :=
  if beqb p (bs "/srv/a/x") then
    Some (if on then mkResolved demo_a [bs "x"] [demo_root; demo_a] None
          else mkResolved demo_root [bs "a"; bs "x"] [demo_root] None)
  else Some (mkResolved demo_root [p] [demo_root] None).

Lemma demo_tree_rooted w p k : demo_tree w p = Some k -> demo_root ∈ ancestor_directories k.
Proof. unfold demo_tree. destruct (beqb p _), w; intros [=<-]; cbn; set_solver. Qed.

Definition demo_asks : list event := [Register [bs "/srv/a/x"]; Register [bs "/srv/b/"]].
Definition demo_turn (id : Z) : list event := replicate 5 (Run id).
Definition demo_system (evs : list event) : @System bool :=
  default (init_system true) (play demo_tree demo_root evs (init_system true)).

Lemma demo_reachable evs s :
  play demo_tree demo_root evs (init_system true) = Some s -> Z.of_nat (length evs) < u64_max ->
  reachable demo_tree demo_root (length evs) s.
Proof. intros Hs Hb. exists true. split; [|done]. eapply play_steps; [|done]. by exists None. Qed.

(** Before the first grant, before the second, and after both. *)
Definition demo_one : list event := demo_asks ++ demo_turn 1.
Definition demo_two : list event := demo_one ++ [Run 1] ++ demo_turn 2.
Definition demo_both : list event := demo_two ++ [Run 2].

Definition demo_after_one : System := demo_system demo_one.
Definition demo_after_two : System := demo_system demo_two.
Definition demo_after_both : System := demo_system demo_both.
Definition demo_task (s : @System bool) (id : Z) : Task := default (new_task []) (sys_tasks s !! id).
Definition demo_granted (s : @System bool) (id : Z) : CoordinatorInner :=
  match task_action demo_tree demo_root false (sys_world s) (sys_inner s) id (demo_task s id) with
  | Some (None, c) => c | _ => new_coordinator end.

Lemma demo_one_reachable : reachable demo_tree demo_root 7 demo_after_one.
Proof. apply (demo_reachable demo_one); vm_compute; reflexivity. Qed.
Lemma demo_two_reachable : reachable demo_tree demo_root 13 demo_after_two.
Proof. apply (demo_reachable demo_two); vm_compute; reflexivity. Qed.
Lemma demo_both_reachable : reachable demo_tree demo_root 14 demo_after_both.
Proof. apply (demo_reachable demo_both); vm_compute; reflexivity. Qed.

Definition demo_key1 : LeaseKey :=
  mkLease (bs "/srv/a/x") (mkResolved demo_a [bs "x"] [demo_root; demo_a] None).
Definition demo_key2 : LeaseKey :=
  mkLease (bs "/srv/b") (mkResolved demo_root [bs "/srv/b"] [demo_root] None).

Lemma leases_are_exclusive_witness : keys_apart demo_root [demo_key1] [demo_key2].
Proof.
  assert (leases (sys_inner demo_after_both) !! 1 = Some [demo_key1]) as H1 by (vm_compute; reflexivity).
  assert (leases (sys_inner demo_after_both) !! 2 = Some [demo_key2]) as H2 by (vm_compute; reflexivity).
  assert (1 <> 2) as Hne by lia.
  exact (leases_are_exclusive demo_tree demo_root demo_tree_rooted 14 demo_after_both 1 2
    [demo_key1] [demo_key2] demo_both_reachable Hne H1 H2).
Defined.

Lemma held_paths_stay_resolved_witness :
  exists keys, leases (demo_granted demo_after_one 1) !! 1 = Some keys /\
    lexical <$> keys = [bs "/srv/a/x"] /\
    forall keys', leases (sys_inner demo_after_both) !! 1 = Some keys' ->
      keys' = keys /\ Forall (key_current demo_tree demo_root true) keys.
Proof.
  assert (sys_tasks demo_after_one !! 1 = Some (demo_task demo_after_one 1)) as Ht
    by (vm_compute; reflexivity).
  assert (task_action demo_tree demo_root false (sys_world demo_after_one) (sys_inner demo_after_one) 1
    (demo_task demo_after_one 1) = Some (None, demo_granted demo_after_one 1)) as Ha
    by (vm_compute; reflexivity).
  assert (nsteps (others_step demo_tree demo_root (next_id (sys_inner demo_after_one))) 6
    (mkSystem (demo_granted demo_after_one 1) (delete 1 (sys_tasks demo_after_one))
       (sys_world demo_after_one)) demo_after_both) as Hk.
  { refine (play_steps demo_tree demo_root _ (demo_turn 2 ++ [Run 2]) _ _ _ _);
      [intros s s' Hs; exists None; split; [discriminate|exact Hs]|vm_compute; reflexivity]. }
  assert (Z.of_nat (8 + 6) < u64_max) as Hb by (vm_compute; reflexivity).
  exact (held_paths_stay_resolved demo_tree demo_root 7 demo_after_one 1 (demo_task demo_after_one 1)
    false (demo_granted demo_after_one 1) 6 demo_after_both demo_one_reachable Ht Ha Hk Hb).
Defined.

Definition demo_waiting : System := demo_system (demo_asks ++ demo_turn 2).

Lemma no_overtaking_witness : paths_apart [bs "/srv/a/x"] [bs "/srv/b"].
Proof.
  assert (reachable demo_tree demo_root 7 demo_waiting) as Hr
    by (apply (demo_reachable (demo_asks ++ demo_turn 2)); vm_compute; reflexivity).
  assert (sys_tasks demo_waiting !! 2 = Some (demo_task demo_waiting 2)) as Hi by (vm_compute; reflexivity).
  assert (sys_tasks demo_waiting !! 1 = Some (demo_task demo_waiting 1)) as Hj by (vm_compute; reflexivity).
  assert (1 < 2) as Hlt by lia.
  assert (task_action demo_tree demo_root false (sys_world demo_waiting) (sys_inner demo_waiting) 2
    (demo_task demo_waiting 2) = Some (None, demo_granted demo_waiting 2)) as Ha
    by (vm_compute; reflexivity).
  exact (no_overtaking demo_tree demo_root 7 demo_waiting 2 (demo_task demo_waiting 2) 1
    (demo_task demo_waiting 1) false (demo_granted demo_waiting 2) Hr Hi Hj Hlt Ha).
Defined.

Lemma first_waiter_acquires_witness :
  granted [bs "/srv/a/x"]
    (run_alone demo_tree demo_root 10 true (sys_inner demo_after_one) 1 (demo_task demo_after_one 1)).
Proof.
  assert (sys_tasks demo_after_one !! 1 = Some (demo_task demo_after_one 1)) as Ht
    by (vm_compute; reflexivity).
  assert (forall j, is_Some (sys_tasks demo_after_one !! j) -> 1 <= j) as Hmin.
  { intros j Hj. assert (dom (sys_tasks demo_after_one) = {[1; 2]}) as Hd by (vm_compute; reflexivity).
    apply elem_of_dom in Hj. rewrite Hd in Hj. clear - Hj.
    apply elem_of_union in Hj as [->%elem_of_singleton| ->%elem_of_singleton]; lia. }
  assert (leases (sys_inner demo_after_one) = ∅) as Hl by (vm_compute; reflexivity).
  exact (proj2 (first_waiter_acquires demo_tree demo_root 7 demo_after_one 1 (demo_task demo_after_one 1)
    demo_one_reachable Ht Hmin) Hl).
Defined.
