(* ===== verification/DiskSpace.v ===== *)
(** Disk-space reservations ([src/src/server/disk_space.rs]).

    The tracker's two maps are the state behind its mutex; reservations are
    held by uploads, which write bytes and then [consume] them.  Probing the
    filesystem happens outside the mutex, between two critical sections that
    compare the device's revision, so a reservation is a small state machine
    interleaved with everything else.  What the filesystem reports as available
    is part of the state. *)

From S2P Require Import Prelude.
From stdpp Require Import base numbers functions list gmap.

Local Open Scope Z_scope.

Definition MAX_CAPACITY_SNAPSHOT_RETRIES : nat := 8.
Definition RESERVATION_RELEASE_BATCH_BYTES : Z := 1048576.

(** ** The tracker *)

Record DiskSpaceState := mkDisk { reserved : gmap Z Z; revisions : gmap Z Z }.

Record DiskSpaceReservation := mkReservation {
  device : Z;
  remaining : Z;
  pending_release : Z
}.

(** [map.get(&device).copied().unwrap_or_default()]. *)
Definition get_or_zero (m : gmap Z Z) (device : Z) : Z := default 0 (m !! device).

Definition bump_revision (s : DiskSpaceState) (device : Z) : DiskSpaceState :=
  {| reserved := reserved s;
     revisions := <[device := u64_wrapping_add (get_or_zero (revisions s) device) 1]> (revisions s) |}.

Definition space_budget_fits (available already_reserved requested minimum_free : Z) : bool :=
  match u64_checked_add minimum_free already_reserved with
  | Some required =>
      match u64_checked_add required requested with
      | Some required => required <=? available
      | None => false
      end
  | None => false
  end.

(** The answer of [reserve_locked]: [Panic] is the failed [expect]. *)
Inductive Reserved := Denied | Granted (r : DiskSpaceReservation) | Panic.

Definition reserve_locked (s : DiskSpaceState) (device available requested minimum_free : Z)
    : Reserved * DiskSpaceState :=
  let already := get_or_zero (reserved s) device in
  if negb (space_budget_fits available already requested minimum_free) then (Denied, s)
  else if 0 <? requested then
    match u64_checked_add already requested with
    | Some total =>
        (Granted (mkReservation device requested 0),
         bump_revision {| reserved := <[device := total]> (reserved s); revisions := revisions s |} device)
    | None => (Panic, s)
    end
  else (Granted (mkReservation device requested 0), s).

Definition release (s : DiskSpaceState) (device bytes : Z) : DiskSpaceState :=
  if bytes =? 0 then s
  else
    let after := match reserved s !! device with
                 | Some r =>
                     let r := u64_saturating_sub r bytes in
                     if r =? 0 then delete device (reserved s) else <[device := r]> (reserved s)
                 | None => reserved s
                 end in
    bump_revision {| reserved := after; revisions := revisions s |} device.

Definition flush_pending_release (s : DiskSpaceState) (r : DiskSpaceReservation)
    : DiskSpaceReservation * DiskSpaceState :=
  (mkReservation (device r) (remaining r) 0, release s (device r) (pending_release r)).

(** [None] is the failed [expect]. *)
Definition consume (s : DiskSpaceState) (r : DiskSpaceReservation) (bytes : Z)
    : option (DiskSpaceReservation * DiskSpaceState) :=
  let consumed := Z.min bytes (remaining r) in
  match u64_checked_add (pending_release r) consumed with
  | None => None
  | Some pending =>
      let r := mkReservation (device r) (remaining r - consumed) pending in
      Some (if RESERVATION_RELEASE_BATCH_BYTES <=? pending then flush_pending_release s r else (r, s))
  end.

(** [Drop for DiskSpaceReservation]. *)
Definition drop_reservation (s : DiskSpaceState) (r : DiskSpaceReservation) : option DiskSpaceState :=
  match u64_checked_add (remaining r) (pending_release r) with
  | None => None
  | Some tracked => Some (release s (device r) tracked)
  end.

Definition available_bytes (available_blocks fragment_size : Z) : option Z :=
  u64_checked_mul available_blocks fragment_size.

Definition round_up (value unit : Z) : option Z :=
  if value =? 0 then Some 0
  else u ← u64_checked_sub unit 1; v ← u64_checked_add value u; Some (v `div` unit * unit).

Definition allocation_budget (logical_bytes allocation_unit metadata_bytes : Z) : option Z :=
  l ← round_up logical_bytes allocation_unit;
  m ← round_up metadata_bytes allocation_unit;
  u64_checked_add l m.

(** ** The loop of [reserve_on_device] and of
    [reserved_space_is_available_on_device] *)

Inductive Goal :=
(** reserve this many bytes *)
| ToReserve (requested : Z)
(** verify that the protected space is there *)
| ToVerify.

Inductive Progress :=
(** read the revision *)
| AtObserve
(** probe the filesystem *)
| AtProbe (observed_revision : Z)
(** compare the revision and decide *)
| AtDecide (observed_revision available : Z).

Record Attempt := mkAttempt {
  at_device : Z;
  at_goal : Goal;
  (** iterations left *)
  at_left : nat;
  at_progress : Progress
}.

Inductive Outcome :=
| Retry (a : Attempt)
(** [ErrorKind::WouldBlock] *)
| Unstable
| Answer (r : Reserved)
| Verified (available : bool).

(** The second critical section of one iteration. *)
Definition decide_attempt (minimum_free : Z) (s : DiskSpaceState) (a : Attempt) (observed available : Z)
    : Outcome * DiskSpaceState :=
  if negb (get_or_zero (revisions s) (at_device a) =? observed) then
    (match at_left a with
     | S (S k) => Retry (mkAttempt (at_device a) (at_goal a) (S k) AtObserve)
     | _ => Unstable
     end, s)
  else
    match at_goal a with
    | ToReserve requested =>
        let '(r, s) := reserve_locked s (at_device a) available requested minimum_free in (Answer r, s)
    | ToVerify =>
        (Verified match u64_checked_add minimum_free (get_or_zero (reserved s) (at_device a)) with
                  | Some required => required <=? available
                  | None => false
                  end, s)
    end.

(** ** The system *)

(** A reservation in use, with the bytes written and not yet consumed. *)
Record Writer := mkWriter { wr_reservation : DiskSpaceReservation; wr_written : Z }.

Record DiskSystem := mkDiskSystem {
  tracker : DiskSpaceState;
  writers : list Writer;
  attempts : list Attempt;
  (** what [available_space] reports for a device *)
  free : Z -> Z
}.

Definition init_disk (f : Z -> Z) : DiskSystem := mkDiskSystem (mkDisk ∅ ∅) [] [] f.

Section system.
Context (minimum_free : Z).

Inductive disk_step : DiskSystem -> DiskSystem -> Prop :=
(** a request enters the loop *)
| step_start s ws as_ f dev goal :
    match goal with ToReserve n => u64_range n | ToVerify => True end ->
    disk_step (mkDiskSystem s ws as_ f)
      (mkDiskSystem s ws (mkAttempt dev goal MAX_CAPACITY_SNAPSHOT_RETRIES AtObserve :: as_) f)
| step_observe s ws l r f dev goal k :
    disk_step (mkDiskSystem s ws (l ++ mkAttempt dev goal k AtObserve :: r) f)
      (mkDiskSystem s ws (l ++ mkAttempt dev goal k (AtProbe (get_or_zero (revisions s) dev)) :: r) f)
| step_probe s ws l r f dev goal k rev :
    u64_range (f dev) ->
    disk_step (mkDiskSystem s ws (l ++ mkAttempt dev goal k (AtProbe rev) :: r) f)
      (mkDiskSystem s ws (l ++ mkAttempt dev goal k (AtDecide rev (f dev)) :: r) f)
| step_probe_error s ws l r f dev goal k rev :
    disk_step (mkDiskSystem s ws (l ++ mkAttempt dev goal k (AtProbe rev) :: r) f)
      (mkDiskSystem s ws (l ++ r) f)
| step_retry s ws l r f dev goal k rev av a s' :
    decide_attempt minimum_free s (mkAttempt dev goal k (AtDecide rev av)) rev av = (Retry a, s') ->
    disk_step (mkDiskSystem s ws (l ++ mkAttempt dev goal k (AtDecide rev av) :: r) f)
      (mkDiskSystem s' ws (l ++ a :: r) f)
| step_grant s ws l r f dev goal k rev av res s' :
    decide_attempt minimum_free s (mkAttempt dev goal k (AtDecide rev av)) rev av
      = (Answer (Granted res), s') ->
    disk_step (mkDiskSystem s ws (l ++ mkAttempt dev goal k (AtDecide rev av) :: r) f)
      (mkDiskSystem s' (mkWriter res 0 :: ws) (l ++ r) f)
| step_refuse s ws l r f dev goal k rev av o s' :
    decide_attempt minimum_free s (mkAttempt dev goal k (AtDecide rev av)) rev av = (o, s') ->
    match o with Unstable | Answer Denied | Verified _ => True | _ => False end ->
    disk_step (mkDiskSystem s ws (l ++ mkAttempt dev goal k (AtDecide rev av) :: r) f)
      (mkDiskSystem s' ws (l ++ r) f)
(** a writer writes within its reservation *)
| step_write s l r as_ f res w bytes :
    0 <= bytes -> w + bytes <= remaining res ->
    disk_step (mkDiskSystem s (l ++ mkWriter res w :: r) as_ f)
      (mkDiskSystem s (l ++ mkWriter res (w + bytes) :: r) as_
         (<[device res := f (device res) - bytes]> f))
(** and consumes what it has written *)
| step_consume s l r as_ f res w bytes res' s' :
    0 <= bytes <= w -> consume s res bytes = Some (res', s') ->
    disk_step (mkDiskSystem s (l ++ mkWriter res w :: r) as_ f)
      (mkDiskSystem s' (l ++ mkWriter res' (w - bytes) :: r) as_ f)
| step_flush s l r as_ f res w res' s' :
    flush_pending_release s res = (res', s') ->
    disk_step (mkDiskSystem s (l ++ mkWriter res w :: r) as_ f)
      (mkDiskSystem s' (l ++ mkWriter res' w :: r) as_ f)
| step_drop s l r as_ f res w s' :
    drop_reservation s res = Some s' ->
    disk_step (mkDiskSystem s (l ++ mkWriter res w :: r) as_ f) (mkDiskSystem s' (l ++ r) as_ f)
(** files are removed *)
| step_free s ws as_ f dev bytes :
    0 <= bytes ->
    disk_step (mkDiskSystem s ws as_ f) (mkDiskSystem s ws as_ (<[dev := f dev + bytes]> f)).

(** Reachable in fewer steps than a revision has values. *)
Definition disk_reachable (n : nat) (s : DiskSystem) : Prop :=
  exists f, nsteps disk_step n (init_disk f) s /\ Z.of_nat n < u64_max.
End system.

(** ** Sums over the writers of a device *)

Definition on_device (dev : Z) (g : Writer -> Z) (w : Writer) : Z :=
  if device (wr_reservation w) =? dev then g w else 0.
Fixpoint total (dev : Z) (g : Writer -> Z) (ws : list Writer) : Z :=
  match ws with [] => 0 | w :: ws => on_device dev g w + total dev g ws end.

(** Bytes the tracker still accounts for. *)
Definition tracked (w : Writer) : Z :=
  remaining (wr_reservation w) + pending_release (wr_reservation w).
(** Bytes the writer has yet to write. *)
Definition unwritten (w : Writer) : Z := remaining (wr_reservation w) - wr_written w.

Lemma total_app dev g l r : total dev g (l ++ r) = total dev g l + total dev g r.
Proof. induction l as [|w l IH]; cbn; [done|]. rewrite IH. lia. Qed.

Lemma total_middle dev g l w r :
  total dev g (l ++ w :: r) = on_device dev g w + total dev g (l ++ r).
Proof. rewrite !total_app. cbn. lia. Qed.

Definition writer_ok (w : Writer) : Prop :=
  0 <= wr_written w <= remaining (wr_reservation w) /\ 0 <= pending_release (wr_reservation w) /\
  tracked w <= u64_max.

Lemma unwritten_le_tracked dev ws :
  Forall writer_ok ws -> 0 <= total dev unwritten ws <= total dev tracked ws.
Proof.
  induction 1 as [|w ws (H1 & H2 & _) _ IH]; cbn; [lia|].
  assert (0 <= on_device dev unwritten w <= on_device dev tracked w); [|lia].
  unfold on_device, unwritten, tracked. destruct (_ =? _); lia.
Qed.

(** ** The operations on the maps *)

Lemma get_insert m d d' x : get_or_zero (<[d := x]> m) d' = if d =? d' then x else get_or_zero m d'.
Proof.
  unfold get_or_zero. destruct (Z.eqb_spec d d') as [->|Hne].
  - by rewrite lookup_insert_eq.
  - by rewrite lookup_insert_ne.
Qed.

Lemma get_delete m d d' : get_or_zero (delete d m) d' = if d =? d' then 0 else get_or_zero m d'.
Proof.
  unfold get_or_zero. destruct (Z.eqb_spec d d') as [->|Hne].
  - by rewrite lookup_delete_eq.
  - by rewrite lookup_delete_ne.
Qed.

#[export] Hint Rewrite get_insert get_delete : dufs_rw.

(** A device without bytes has no bucket. *)
Definition no_empty_bucket (s : DiskSpaceState) : Prop := forall d, reserved s !! d <> Some 0.

Lemma release_reserved s dev bytes d :
  0 <= bytes <= get_or_zero (reserved s) dev ->
  get_or_zero (reserved (release s dev bytes)) d =
    if dev =? d then get_or_zero (reserved s) d - bytes else get_or_zero (reserved s) d.
Proof.
  intros Hb. unfold release. destruct (Z.eqb_spec bytes 0) as [->|Hne].
  { destruct (dev =? d); lia. }
  cbn. destruct (reserved s !! dev) as [r|] eqn:Hr.
  - unfold u64_saturating_sub. assert (get_or_zero (reserved s) dev = r) as Hg
      by (unfold get_or_zero; by rewrite Hr).
    destruct (Z.eqb_spec (Z.max 0 (r - bytes)) 0); autorewrite with dufs_rw;
      destruct (Z.eqb_spec dev d) as [->|]; lia.
  - unfold get_or_zero in Hb. rewrite Hr in Hb. cbn in Hb. lia.
Qed.

Lemma release_no_empty s dev bytes : no_empty_bucket s -> no_empty_bucket (release s dev bytes).
Proof.
  intros H d. unfold release. destruct (bytes =? 0); [apply H|]. cbn.
  destruct (reserved s !! dev) as [r|] eqn:Hr; [|apply H].
  destruct (Z.eqb_spec (u64_saturating_sub r bytes) 0) as [E|E].
  - intros [_ Hd]%lookup_delete_Some. by apply (H d).
  - intros [[_ Hd]|[_ Hd]]%lookup_insert_Some; [done|by apply (H d)].
Qed.

(** Revisions: a change of the reserved bytes of a device advances its
    revision, and no operation moves one back. *)
Definition advances (s s' : DiskSpaceState) : Prop := forall d,
  get_or_zero (revisions s) d < get_or_zero (revisions s') d \/
  (get_or_zero (revisions s') d = get_or_zero (revisions s) d /\
   get_or_zero (reserved s') d = get_or_zero (reserved s) d).

Definition revisions_below (n : Z) (s : DiskSpaceState) : Prop :=
  forall d, 0 <= get_or_zero (revisions s) d <= n.

Lemma bump_revision_get s dev d n :
  revisions_below n s -> n < u64_max ->
  get_or_zero (revisions (bump_revision s dev)) d =
    get_or_zero (revisions s) d + (if dev =? d then 1 else 0).
Proof.
  intros Hr Hn. cbn. rewrite get_insert. destruct (Z.eqb_spec dev d) as [->|]; [|lia].
  specialize (Hr d). unfold u64_wrapping_add. rewrite Z.mod_small; lia.
Qed.

Lemma release_advances n s dev bytes :
  revisions_below n s -> n < u64_max -> 0 <= bytes <= get_or_zero (reserved s) dev ->
  advances s (release s dev bytes) /\ revisions_below (n + 1) (release s dev bytes).
Proof.
  intros Hr Hn Hb. unfold release. destruct (Z.eqb_spec bytes 0) as [->|Hne].
  { split; [by right|]. intros d. specialize (Hr d). lia. }
  set (s1 := mkDisk _ (revisions s)). assert (revisions_below n s1) as Hr1 by done.
  split; intros d; rewrite (bump_revision_get s1 dev d n) by done;
    specialize (Hr d); cbn [s1 revisions] in *; destruct (Z.eqb_spec dev d) as [->|Hd]; try lia.
  right. split; [lia|]. subst s1. cbn. destruct (reserved s !! dev) as [r|]; [|done].
  destruct (_ =? 0); autorewrite with dufs_rw; by rewrite (proj2 (Z.eqb_neq _ _) Hd).
Qed.

Lemma space_budget_fits_true available already requested minimum :
  0 <= available <= u64_max -> 0 <= already -> 0 <= requested -> 0 <= minimum ->
  space_budget_fits available already requested minimum = true <->
  minimum + already + requested <= available.
Proof.
  intros Ha Hr Hq Hm. unfold space_budget_fits, u64_checked_add.
  destruct (u64_try_from (minimum + already)) as [x|] eqn:E1.
  - apply u64_try_from_Some in E1 as [-> ?].
    destruct (u64_try_from (minimum + already + requested)) as [y|] eqn:E2.
    + apply u64_try_from_Some in E2 as [-> ?]. by rewrite Z.leb_le.
    + split; [done|]. intros Hle. exfalso. unfold u64_try_from, in_u64 in E2.
      rewrite (proj2 (Z.leb_le 0 _)), (proj2 (Z.leb_le _ u64_max)) in E2 by lia. done.
  - split; [done|]. intros Hle. exfalso. unfold u64_try_from, in_u64 in E1.
    rewrite (proj2 (Z.leb_le 0 _)), (proj2 (Z.leb_le _ u64_max)) in E1 by lia. done.
Qed.

Lemma u64_checked_add_ok a b : 0 <= a + b <= u64_max -> u64_checked_add a b = Some (a + b).
Proof. intros H. unfold u64_checked_add. by apply u64_try_from_Some. Qed.

(** ** The invariant *)

Section safety.
Context (minimum_free : Z) (minimum_range : u64_range minimum_free).

(** What is left of a device once every reservation has been written. *)
Definition headroom (f : Z -> Z) (ws : list Writer) (dev : Z) : Z := f dev - total dev unwritten ws.

Definition attempt_ok (s : DiskSpaceState) (h : Z -> Z) (a : Attempt) : Prop :=
  match at_goal a with ToReserve n => u64_range n | ToVerify => True end /\
  match at_progress a with
  | AtObserve => True
  | AtProbe r => r <= get_or_zero (revisions s) (at_device a)
  | AtDecide r available =>
      r <= get_or_zero (revisions s) (at_device a) /\ u64_range available /\
      (r = get_or_zero (revisions s) (at_device a) ->
       available - get_or_zero (reserved s) (at_device a) <= h (at_device a))
  end.

Record disk_inv (n : Z) (d : DiskSystem) : Prop := {
  di_revisions : revisions_below n (tracker d);
  di_buckets : no_empty_bucket (tracker d);
  di_writers : Forall writer_ok (writers d);
  di_accounts : forall dev, get_or_zero (reserved (tracker d)) dev = total dev tracked (writers d);
  di_attempts : Forall (attempt_ok (tracker d) (headroom (free d) (writers d))) (attempts d);
  di_room : forall w, w ∈ writers d ->
    minimum_free <= headroom (free d) (writers d) (device (wr_reservation w))
}.

(** What a step must do to keep the attempts under way valid. *)
Definition view_survives (s s' : DiskSpaceState) (h h' : Z -> Z) : Prop := forall d,
  get_or_zero (revisions s) d < get_or_zero (revisions s') d \/
  (get_or_zero (revisions s') d = get_or_zero (revisions s) d /\
   get_or_zero (reserved s') d = get_or_zero (reserved s) d /\ h d <= h' d).

Lemma attempt_ok_mono s s' h h' a : view_survives s s' h h' -> attempt_ok s h a -> attempt_ok s' h' a.
Proof.
  intros Hv [Hg Hp]. split; [done|]. destruct (at_progress a) as [|r|r av]; [done| |];
    destruct (Hv (at_device a)) as [Hlt|(Hr & Hres & Hh)]; try lia.
  - destruct Hp as (? & ? & ?). split; [lia|]. split; [done|]. lia.
  - destruct Hp as (? & ? & Hd). split; [lia|]. split; [done|]. intros E.
    rewrite Hr in E. specialize (Hd E). lia.
Qed.

Lemma attempts_mono s s' h h' as_ :
  view_survives s s' h h' -> Forall (attempt_ok s h) as_ -> Forall (attempt_ok s' h') as_.
Proof. intros Hv. rewrite !Forall_forall. intros H a Ha. eapply attempt_ok_mono; [done|by apply H]. Qed.

Lemma view_refl s h : view_survives s s h h.
Proof. intros d. right. split; [done|]. split; [done|lia]. Qed.

Lemma view_of_advances s s' h h' : advances s s' -> (forall d, h d <= h' d) -> view_survives s s' h h'.
Proof. intros Ha Hh d. destruct (Ha d) as [?|[? ?]]; [by left|right]. specialize (Hh d). lia. Qed.

#[local] Hint Resolve release_no_empty view_of_advances view_refl : dufs.

Lemma di_total_range n d dev : disk_inv n d -> 0 <= total dev unwritten (writers d) <= total dev tracked (writers d).
Proof. intros H. apply unwritten_le_tracked, (di_writers _ _ H). Qed.

(** A step that only moves an attempt. *)
Lemma inv_attempts n s ws as_ as' f :
  disk_inv n (mkDiskSystem s ws as_ f) ->
  Forall (attempt_ok s (headroom f ws)) as' -> disk_inv (n + 1) (mkDiskSystem s ws as' f).
Proof.
  intros [H1 H2 H3 H4 H5 H6] Ha. cbn in *. constructor; cbn; try done.
  intros d. specialize (H1 d). lia.
Qed.

Lemma decide_retry s a rev av a' s' :
  decide_attempt minimum_free s a rev av = (Retry a', s') ->
  s' = s /\ at_device a' = at_device a /\ at_goal a' = at_goal a /\ at_progress a' = AtObserve.
Proof.
  unfold decide_attempt. destruct (negb _).
  - destruct (at_left a) as [|[|k]]; intros [=]; by subst.
  - destruct (at_goal a); [|done]. by destruct (reserve_locked _ _ _ _ _).
Qed.

(** Which answers leave the tracker alone. *)
Lemma decide_refuse s a rev av o s' :
  decide_attempt minimum_free s a rev av = (o, s') ->
  match o with Unstable | Answer Denied | Verified _ => True | _ => False end -> s' = s.
Proof.
  unfold decide_attempt. destruct (negb _); [by intros [=]|].
  destruct (at_goal a) as [req|]; [|by intros [=]]. unfold reserve_locked.
  destruct (negb _); [by intros [=]|]. destruct (0 <? req); [|intros [=]; by subst].
  destruct (u64_checked_add _ _); intros [=]; by subst.
Qed.

(** A grant: the snapshot was stable and had room for the request. *)
Lemma decide_grant n s ws l r f dev goal k rev av res s' :
  n < u64_max -> disk_inv n (mkDiskSystem s ws (l ++ mkAttempt dev goal k (AtDecide rev av) :: r) f) ->
  decide_attempt minimum_free s (mkAttempt dev goal k (AtDecide rev av)) rev av = (Answer (Granted res), s') ->
  exists req, u64_range req /\ res = mkReservation dev req 0 /\
    minimum_free + req <= headroom f ws dev /\
    minimum_free + total dev tracked ws + req <= u64_max /\
    (forall d, get_or_zero (reserved s') d = get_or_zero (reserved s) d + if dev =? d then req else 0) /\
    revisions_below (n + 1) s' /\ no_empty_bucket s' /\
    view_survives s s' (headroom f ws) (λ d, headroom f ws d - if dev =? d then req else 0).
Proof.
  intros Hn Hinv. pose proof (di_attempts _ _ Hinv) as Hat. cbn in Hat.
  apply Forall_app in Hat as [_ Hat]. apply Forall_cons in Hat as [[Hgoal (Hrev & Hav & Hsnap)] _]. cbn in *.
  unfold decide_attempt. cbn. destruct (Z.eqb_spec (get_or_zero (revisions s) dev) rev) as [E|]; cbn; [|by destruct k as [|[|k]]].
  destruct goal as [req|]; [|done]. unfold reserve_locked.
  pose proof (di_accounts _ _ Hinv dev) as Hacc. cbn in Hacc.
  pose proof (di_total_range _ _ dev Hinv) as Hrange. cbn in Hrange.
  specialize (Hsnap (eq_sym E)). pose proof (di_revisions _ _ Hinv) as Hbelow. cbn in Hbelow.
  pose proof (di_buckets _ _ Hinv) as Hbuck. cbn in Hbuck.
  unfold u64_range in *. destruct (space_budget_fits _ _ _ _) eqn:Hfit; cbn; [|done].
  apply space_budget_fits_true in Hfit; [|lia..].
  destruct (Z.ltb_spec 0 req) as [Hpos|Hzero].
  - rewrite u64_checked_add_ok by lia. intros [=<- <-]. exists req.
    set (s1 := mkDisk _ (revisions s)). assert (revisions_below n s1) as Hb1 by done.
    assert (forall d, get_or_zero (revisions (bump_revision s1 dev)) d =
      get_or_zero (revisions s) d + if dev =? d then 1 else 0) as Hbump
      by (intros d; by rewrite (bump_revision_get s1 dev d n)).
    split; [lia|]. split; [done|]. split; [lia|]. split; [lia|]. split.
    { intros d. cbn. rewrite get_insert. destruct (Z.eqb_spec dev d) as [->|]; lia. }
    split; [|split].
    + intros d. rewrite Hbump. specialize (Hbelow d). destruct (dev =? d); lia.
    + intros d. cbn. intros [[_ Hd]|[_ Hd]]%lookup_insert_Some; [lia|by apply (Hbuck d)].
    + intros d. rewrite Hbump. cbn. rewrite get_insert.
      destruct (Z.eqb_spec dev d); [left; lia|right]. split; [lia|]. split; [done|lia].
  - assert (req = 0) as -> by lia. intros [=<- <-]. exists 0.
    split; [lia|]. split; [done|]. split; [lia|]. split; [lia|].
    split; [intros d; destruct (dev =? d); lia|].
    split; [intros d; specialize (Hbelow d); lia|]. split; [done|].
    intros d. right. split; [done|]. split; [done|]. destruct (dev =? d); lia.
Qed.

(** A step of one writer that releases [bytes] of what it tracks. *)
Lemma inv_writer n s l r as_ f res w res' w' bytes :
  n < u64_max -> disk_inv n (mkDiskSystem s (l ++ mkWriter res w :: r) as_ f) ->
  device res' = device res -> writer_ok (mkWriter res' w') -> 0 <= bytes ->
  tracked (mkWriter res' w') + bytes = tracked (mkWriter res w) ->
  unwritten (mkWriter res' w') = unwritten (mkWriter res w) ->
  disk_inv (n + 1) (mkDiskSystem (release s (device res) bytes) (l ++ mkWriter res' w' :: r) as_ f).
Proof.
  intros Hn [H1 H2 H3 H4 H5 H6] Hdev Hok Hb Htr Hun. cbn in *.
  assert (Forall writer_ok (l ++ r)) as Hrest
    by (apply Forall_app in H3 as [? H3]; apply Forall_cons in H3 as [? ?]; by apply Forall_app).
  assert (forall d g, total d g (l ++ mkWriter res' w' :: r) =
    total d g (l ++ mkWriter res w :: r) +
    if device res =? d then g (mkWriter res' w') - g (mkWriter res w) else 0) as Htot.
  { intros d g. rewrite !total_middle. unfold on_device. cbn. rewrite Hdev. destruct (_ =? _); lia. }
  assert (forall d, headroom f (l ++ mkWriter res' w' :: r) d = headroom f (l ++ mkWriter res w :: r) d)
    as Hhead.
  { intros d. unfold headroom. rewrite Htot, Hun. destruct (_ =? _); lia. }
  pose proof (unwritten_le_tracked (device res) (l ++ r) Hrest) as Hle.
  assert (0 <= tracked (mkWriter res' w')) as Htr0
    by (destruct Hok as (? & ? & _); unfold tracked; cbn in *; lia).
  assert (0 <= bytes <= get_or_zero (reserved s) (device res)) as Hbytes.
  { rewrite H4, total_middle. unfold on_device. cbn. rewrite Z.eqb_refl. lia. }
  destruct (release_advances n s (device res) bytes H1 Hn Hbytes) as [Hadv Hbelow].
  constructor; cbn; try done.
  - auto with dufs.
  - apply Forall_app in Hrest as [? ?]. apply Forall_app. split; [done|]. by constructor.
  - intros d. rewrite release_reserved, Htot, H4 by done. destruct (_ =? _); lia.
  - eapply attempts_mono; [|exact H5]. apply view_of_advances; [done|]. intros d. rewrite Hhead. lia.
  - intros x Hx. rewrite Hhead. apply elem_of_app in Hx as [Hx|[->|Hx]%elem_of_cons].
    + apply H6. set_solver.
    + cbn. rewrite Hdev. apply (H6 (mkWriter res w)). set_solver.
    + apply H6. set_solver.
Qed.

Lemma inv_drop n s l r as_ f res w s' :
  n < u64_max -> disk_inv n (mkDiskSystem s (l ++ mkWriter res w :: r) as_ f) ->
  drop_reservation s res = Some s' -> disk_inv (n + 1) (mkDiskSystem s' (l ++ r) as_ f).
Proof.
  intros Hn [H1 H2 H3 H4 H5 H6]. cbn in *. unfold drop_reservation.
  pose proof H3 as H3'. apply Forall_app in H3' as [Hl Hr]. apply Forall_cons in Hr as [Hok Hr].
  assert (Forall writer_ok (l ++ r)) as Hrest by by apply Forall_app.
  destruct Hok as ((Hw0 & Hw) & Hp & Htr). unfold tracked in Htr. cbn in *.
  rewrite u64_checked_add_ok by lia. intros [=<-].
  pose proof (unwritten_le_tracked (device res) (l ++ r) Hrest) as Hle.
  assert (0 <= remaining res + pending_release res <= get_or_zero (reserved s) (device res)) as Hbytes.
  { rewrite H4, total_middle. unfold on_device, tracked at 1. cbn. rewrite Z.eqb_refl. lia. }
  destruct (release_advances n s (device res) _ H1 Hn Hbytes) as [Hadv Hbelow].
  assert (forall d, headroom f (l ++ mkWriter res w :: r) d <= headroom f (l ++ r) d) as Hhead.
  { intros d. unfold headroom. rewrite total_middle. unfold on_device, unwritten at 1. cbn.
    destruct (_ =? _); lia. }
  constructor; cbn; try done.
  - auto with dufs.
  - intros d. rewrite release_reserved, H4, total_middle by done. unfold on_device, tracked at 1. cbn.
    destruct (_ =? _); lia.
  - eapply attempts_mono; [|exact H5]. auto with dufs.
  - intros x Hx. etransitivity; [|apply Hhead]. apply H6. set_solver.
Qed.

Lemma consume_spec s res w bytes :
  writer_ok (mkWriter res w) -> 0 <= bytes <= w ->
  exists released, 0 <= released <= pending_release res + bytes /\
    consume s res bytes = Some (mkReservation (device res) (remaining res - bytes)
      (pending_release res + bytes - released), release s (device res) released).
Proof.
  intros ((Hw0 & Hw) & Hp & Htr) Hb. unfold tracked in Htr. cbn in *. unfold consume.
  rewrite Z.min_l by lia. rewrite u64_checked_add_ok by lia.
  destruct (_ <=? _).
  - exists (pending_release res + bytes). split; [lia|]. unfold flush_pending_release. cbn.
    by rewrite Z.sub_diag.
  - exists 0. split; [lia|]. unfold release. cbn. by rewrite Z.sub_0_r.
Qed.

Lemma inv_write n s l r as_ f res w bytes :
  disk_inv n (mkDiskSystem s (l ++ mkWriter res w :: r) as_ f) -> 0 <= bytes ->
  w + bytes <= remaining res ->
  disk_inv (n + 1) (mkDiskSystem s (l ++ mkWriter res (w + bytes) :: r) as_
    (<[device res := f (device res) - bytes]> f)).
Proof.
  intros [H1 H2 H3 H4 H5 H6] Hb Hw. cbn in *.
  assert (forall d, headroom (<[device res := f (device res) - bytes]> f)
    (l ++ mkWriter res (w + bytes) :: r) d = headroom f (l ++ mkWriter res w :: r) d) as Hhead.
  { intros d. unfold headroom. rewrite !total_middle. unfold on_device, unwritten at 1 3. cbn.
    destruct (Z.eqb_spec (device res) d) as [<-|Hd];
      [rewrite fn_lookup_insert; lia|rewrite fn_lookup_insert_ne by done; lia]. }
  constructor; cbn; try done.
  - intros d. specialize (H1 d). lia.
  - apply Forall_app in H3 as [? H3]. apply Forall_cons in H3 as [Hok ?]. apply Forall_app.
    split; [done|]. constructor; [|done]. destruct Hok as ((? & ?) & ? & ?). unfold writer_ok, tracked in *.
    cbn in *. lia.
  - intros d. rewrite H4, !total_middle. done.
  - eapply attempts_mono; [|exact H5]. intros d. right. rewrite Hhead. split; [done|]. split; [done|lia].
  - intros x Hx. rewrite Hhead. apply elem_of_app in Hx as [Hx|[->|Hx]%elem_of_cons].
    + apply H6. set_solver.
    + apply (H6 (mkWriter res w)). set_solver.
    + apply H6. set_solver.
Qed.

Lemma inv_grant n s ws l r f dev goal k rev av res s' :
  n < u64_max -> disk_inv n (mkDiskSystem s ws (l ++ mkAttempt dev goal k (AtDecide rev av) :: r) f) ->
  decide_attempt minimum_free s (mkAttempt dev goal k (AtDecide rev av)) rev av
    = (Answer (Granted res), s') ->
  disk_inv (n + 1) (mkDiskSystem s' (mkWriter res 0 :: ws) (l ++ r) f).
Proof.
  intros Hn Hinv Hd. destruct (decide_grant _ _ _ _ _ _ _ _ _ _ _ _ _ Hn Hinv Hd)
    as (req & Hreq & -> & Hroom & Htot & Hres & Hbelow & Hbuck & Hview).
  destruct Hinv as [H1 H2 H3 H4 H5 H6]. cbn in *. unfold u64_range in *.
  pose proof (unwritten_le_tracked dev ws H3) as Hle.
  assert (forall d, headroom f (mkWriter (mkReservation dev req 0) 0 :: ws) d =
    headroom f ws d - if dev =? d then req else 0) as Hhead.
  { intros d. unfold headroom. cbn. unfold on_device, unwritten at 1. cbn. destruct (dev =? d); lia. }
  constructor; cbn; try done.
  - constructor; [|done]. unfold writer_ok, tracked. cbn. lia.
  - intros d. rewrite Hres, H4. unfold on_device, tracked at 2. cbn. destruct (dev =? d); lia.
  - apply Forall_app in H5 as [Hl Hr]. apply Forall_cons in Hr as [_ Hr].
    apply Forall_app; split; (eapply attempts_mono; [|done]); intros d; rewrite Hhead; apply Hview.
  - intros x Hx. rewrite Hhead. apply elem_of_cons in Hx as [->|Hx].
    + cbn. rewrite Z.eqb_refl. lia.
    + destruct (Z.eqb_spec dev (device (wr_reservation x))) as [<-|]; [lia|].
      specialize (H6 x Hx). lia.
Qed.

Lemma disk_inv_step n d d' :
  n < u64_max -> disk_inv n d -> disk_step minimum_free d d' -> disk_inv (n + 1) d'.
Proof.
  intros Hn Hinv Hstep.
  destruct Hstep as [s ws as_ f dev goal Hg|s ws l r f dev goal k|s ws l r f dev goal k rev Hf
    |s ws l r f dev goal k rev|s ws l r f dev goal k rev av a s' Hd|s ws l r f dev goal k rev av res s' Hd
    |s ws l r f dev goal k rev av o s' Hd Ho|s l r as_ f res w bytes H0 Hle
    |s l r as_ f res w bytes res' s' Hb Hc|s l r as_ f res w res' s' Hfl|s l r as_ f res w s' Hdr
    |s ws as_ f dev bytes Hb];
    pose proof (di_attempts _ _ Hinv) as Hat; cbn in Hat.
  - eapply inv_attempts; [done|]. constructor; [by split|done].
  - eapply inv_attempts; [done|]. apply Forall_app in Hat as [? Hat].
    apply Forall_cons in Hat as [[? _] ?]. apply Forall_app. split; [done|]. constructor; [|done].
    split; [done|]. cbn. lia.
  - eapply inv_attempts; [done|]. apply Forall_app in Hat as [? Hat].
    apply Forall_cons in Hat as [[? Hp] ?]. apply Forall_app. split; [done|]. constructor; [|done].
    split; [done|]. cbn in *. split; [done|]. split; [done|]. intros _.
    rewrite (di_accounts _ _ Hinv). unfold headroom. pose proof (di_total_range _ _ dev Hinv). cbn in *. lia.
  - eapply inv_attempts; [done|]. apply Forall_app in Hat as [? Hat].
    apply Forall_cons in Hat as [_ ?]. by apply Forall_app.
  - apply decide_retry in Hd as (-> & ? & Hgoal & Hp). eapply inv_attempts; [done|].
    apply Forall_app in Hat as [? Hat]. apply Forall_cons in Hat as [[? _] ?]. apply Forall_app.
    split; [done|]. constructor; [|done]. split; [by rewrite Hgoal|by rewrite Hp].
  - by eapply inv_grant.
  - apply decide_refuse in Hd as ->; [|done]. eapply inv_attempts; [done|].
    apply Forall_app in Hat as [? Hat]. apply Forall_cons in Hat as [_ ?]. by apply Forall_app.
  - by apply inv_write.
  - pose proof (di_writers _ _ Hinv) as Hws. cbn in Hws. apply Forall_app in Hws as [_ Hws].
    apply Forall_cons in Hws as [Hok _].
    destruct (consume_spec s res w bytes Hok Hb) as (rel & Hrel & E). rewrite E in Hc.
    injection Hc as <- <-. destruct Hok as ((? & ?) & ? & ?). unfold tracked in *. cbn in *.
    eapply inv_writer; [done|done|done| |lia| |]; unfold writer_ok, tracked, unwritten; cbn; lia.
  - pose proof (di_writers _ _ Hinv) as Hws. cbn in Hws. apply Forall_app in Hws as [_ Hws].
    apply Forall_cons in Hws as [((? & ?) & ? & ?) _]. injection Hfl as <- <-. unfold tracked in *. cbn in *.
    eapply inv_writer; [done|done|done| |lia| |]; unfold writer_ok, tracked, unwritten; cbn; lia.
  - by eapply inv_drop.
  - destruct Hinv as [H1 H2 H3 H4 H5 H6]. cbn in *.
    assert (forall d, headroom f ws d <= headroom (<[dev := f dev + bytes]> f) ws d) as Hhead.
    { intros d. unfold headroom. destruct (decide (dev = d)) as [<-|];
        [rewrite fn_lookup_insert; lia|rewrite fn_lookup_insert_ne by done; lia]. }
    constructor; cbn; try done.
    + intros d. specialize (H1 d). lia.
    + eapply attempts_mono; [|exact H5]. intros d. right. auto.
    + intros x Hx. etransitivity; [|apply Hhead]. by apply H6.
Qed.

Lemma disk_inv_reachable n d : disk_reachable minimum_free n d -> disk_inv (Z.of_nat n) d.
Proof.
  revert d. induction n as [|n IH]; intros d (f & Hn & Hb).
  - inversion Hn; subst. constructor; cbn; try done; try set_solver.
    all: intros x; unfold get_or_zero; rewrite lookup_empty; cbn; [lia|done..].
  - apply nsteps_inv_r in Hn as (d1 & Hn & Hs).
    replace (Z.of_nat (S n)) with (Z.of_nat n + 1) by lia.
    eapply disk_inv_step; [lia| |exact Hs]. apply IH. exists f. split; [done|lia].
Qed.

(** C28: a granted reservation can be written in full without touching the
    protected free space.  In every interleaving of requests, writers and
    removals, as long as a reservation on a device is alive, what the device
    has free covers the configured minimum and everything its reservations
    have still to write - although the free space was read outside the lock,
    and consumed bytes stay tracked until a batch of them is released.  A
    verification that answers yes means the same for its device. *)
Theorem reservations_protect_free_space n d :
  disk_reachable minimum_free n d ->
  (forall w, w ∈ writers d ->
     minimum_free + total (device (wr_reservation w)) unwritten (writers d)
       <= free d (device (wr_reservation w))) /\
  (forall dev k rev av s', mkAttempt dev ToVerify k (AtDecide rev av) ∈ attempts d ->
     decide_attempt minimum_free (tracker d) (mkAttempt dev ToVerify k (AtDecide rev av)) rev av
       = (Verified true, s') ->
     minimum_free + total dev unwritten (writers d) <= free d dev).
Proof.
  intros Hr. pose proof (disk_inv_reachable n d Hr) as Hinv. split.
  - intros w Hw. pose proof (di_room _ _ Hinv w Hw). unfold headroom in *. lia.
  - intros dev k rev av s' Hin. pose proof (di_attempts _ _ Hinv) as Hat.
    rewrite Forall_forall in Hat. destruct (Hat _ Hin) as (_ & _ & Hav & Hsnap). cbn in *.
    unfold decide_attempt. cbn. destruct (Z.eqb_spec (get_or_zero (revisions (tracker d)) dev) rev) as [E|];
      cbn; [|by destruct k as [|[|k]]].
    specialize (Hsnap (eq_sym E)). unfold headroom in Hsnap.
    destruct (u64_checked_add _ _) as [x|] eqn:Ex; [|done]. intros [=Hle%Z.leb_le _].
    apply u64_try_from_Some in Ex as [-> _]. lia.
Qed.

(** The tracker's accounts are exact.  A device's reserved bytes are those
    its live reservations hold and have not released, with no bucket left
    behind when there are none; and none of the checked additions of the
    reservation code can fail: reserving, consuming what has been written and
    dropping always return. *)
Theorem reservation_accounting_is_exact n d :
  disk_reachable minimum_free n d -> Z.of_nat (S n) < u64_max ->
  (forall dev, reserved (tracker d) !! dev =
     if total dev tracked (writers d) =? 0 then None else Some (total dev tracked (writers d))) /\
  (forall w, w ∈ writers d ->
     (forall bytes, 0 <= bytes <= wr_written w -> is_Some (consume (tracker d) (wr_reservation w) bytes)) /\
     is_Some (drop_reservation (tracker d) (wr_reservation w))) /\
  (forall a rev av s', a ∈ attempts d -> at_progress a = AtDecide rev av ->
     decide_attempt minimum_free (tracker d) a rev av <> (Answer Panic, s')).
Proof.
  intros Hr Hn. pose proof (disk_inv_reachable n d Hr) as Hinv. split; [|split].
  - intros dev. rewrite <- (di_accounts _ _ Hinv). unfold get_or_zero.
    destruct (reserved (tracker d) !! dev) as [x|] eqn:E; cbn; [|done].
    destruct (Z.eqb_spec x 0) as [->|]; [|done]. by apply (di_buckets _ _ Hinv) in E.
  - intros [res w] Hw. pose proof (di_writers _ _ Hinv) as Hws. rewrite Forall_forall in Hws.
    specialize (Hws _ Hw). split.
    + cbn [wr_reservation wr_written]. intros bytes Hb.
      destruct (consume_spec (tracker d) res w bytes Hws Hb) as (? & _ & ->). done.
    + destruct Hws as ((? & ?) & ? & ?). unfold tracked, drop_reservation in *. cbn in *.
      by rewrite u64_checked_add_ok by lia.
  - intros [dev goal k p] rev av s' Hin Hp. cbn in Hp. subst p. unfold decide_attempt. cbn.
    destruct (negb _); [by destruct k as [|[|k]]|]. destruct goal as [req|]; [|done].
    unfold reserve_locked. pose proof (di_attempts _ _ Hinv) as Hat. rewrite Forall_forall in Hat.
    destruct (Hat _ Hin) as (Hreq & _ & Hav & _). cbn in *.
    pose proof (di_accounts _ _ Hinv dev) as Hacc.
    pose proof (di_total_range _ _ dev Hinv) as Hrange. unfold u64_range in *.
    destruct (space_budget_fits _ _ _ _) eqn:Hfit; cbn; [|done].
    apply space_budget_fits_true in Hfit; [|lia..]. destruct (0 <? req); [|done].
    by rewrite u64_checked_add_ok by lia.
Qed.
End safety.

(** ** A concrete upload: 500 bytes reserved on a device with 10000 free and a
    minimum of 1000, 200 of them written *)

Definition demo_free : Z -> Z := λ _, 10000.
Definition demo_tracker : DiskSpaceState := mkDisk {[7 := 500]} {[7 := 1]}.
Definition demo_disk : DiskSystem :=
  mkDiskSystem demo_tracker [mkWriter (mkReservation 7 500 0) 200] [] (<[7 := 9800]> demo_free).

Lemma demo_disk_reachable : disk_reachable 1000 5 demo_disk.
Proof.
  exists demo_free. split; [|vm_compute; reflexivity].
  eapply nsteps_l; [apply (step_start _ _ _ _ _ 7 (ToReserve 500)); vm_compute; by split|].
  eapply nsteps_l; [apply (step_observe _ _ _ [] [])|].
  eapply nsteps_l; [apply (step_probe _ _ _ [] []); vm_compute; by split|].
  eapply nsteps_l; [apply (step_grant _ _ _ [] [] _ _ _ _ _ _ (mkReservation 7 500 0) demo_tracker);
    vm_compute; reflexivity|].
  eapply nsteps_l; [apply (step_write _ _ [] [] _ _ _ _ 200); vm_compute; intros [=]|].
  apply nsteps_O.
Qed.

Lemma reservations_protect_free_space_witness : 1000 + 300 <= 9800.
Proof.
  assert (u64_range 1000) as Hm by (vm_compute; by split).
  exact (proj1 (reservations_protect_free_space 1000 Hm 5 demo_disk demo_disk_reachable) (mkWriter (mkReservation 7 500 0) 200) (list_elem_of_here _ _)).
Defined.

Lemma reservation_accounting_is_exact_witness :
  reserved demo_tracker !! 7 = Some 500 /\
  is_Some (consume demo_tracker (mkReservation 7 500 0) 200) /\
  is_Some (drop_reservation demo_tracker (mkReservation 7 500 0)).
Proof.
  assert (u64_range 1000) as Hm by (vm_compute; by split).
  assert (Z.of_nat 6 < u64_max) as Hn by (vm_compute; reflexivity).
  destruct (reservation_accounting_is_exact 1000 Hm 5 demo_disk demo_disk_reachable Hn) as (H1 & H2 & _).
  split; [exact (H1 7)|].
  destruct (H2 (mkWriter (mkReservation 7 500 0) 200) (list_elem_of_here _ _)) as [Hc Hd].
  split; [apply Hc; cbn; lia|exact Hd].
Defined.
