(* ===== verification/UuidText.v ===== *)
(** UUIDs as text: the interface to the [uuid] crate that the upload protocol
    and the internal names share, and an implementation of it. *)

From S2P Require Import Prelude Bytes Utils.
From stdpp Require Import base numbers list strings.
From Stdlib Require Import Ascii.

Local Open Scope Z_scope.

(** [Uuid::parse_str] and [Uuid::to_string]; a UUID is its 16 bytes. *)
Class UuidLib := {
  uuid_parse_str : bytes -> option bytes;
  uuid_to_string : bytes -> bytes
}.

(** The lowercase hyphenated form of a UUID. *)
Definition uuid_byte_ok (index : nat) (byte : ascii) : bool :=
  if existsb (Nat.eqb index) [8; 13; 18; 23]%nat then bool_decide (byte = minus_byte)
  else is_ascii_digit byte || is_lower_af byte.
Definition uuid_text_ok (value : bytes) : bool :=
  (blen value =? 36) && forallb (λ '(i, c), uuid_byte_ok i c) (imap pair value).

Class UuidLaws `{UuidLib} := {
  uuid_text id : blen id = 16 -> uuid_text_ok (uuid_to_string id) = true;
  uuid_roundtrip id : blen id = 16 -> uuid_parse_str (uuid_to_string id) = Some id;
  uuid_parse_length s id : uuid_parse_str s = Some id -> blen id = 16
}.

(** ** An implementation: hexadecimal digits with four hyphens *)

Definition hyphenate (h : bytes) : bytes :=
  take 8 h ++ minus_byte :: take 4 (drop 8 h) ++ minus_byte :: take 4 (drop 12 h) ++
  minus_byte :: take 4 (drop 16 h) ++ minus_byte :: drop 20 h.

Definition hex_uuid : UuidLib := {|
  uuid_parse_str := λ v,
    match decode_hex_to_slice (List.filter (λ c, negb (bool_decide (c = minus_byte))) v)
            (replicate 16 nul_byte) with
    | (true, id) => if blen id =? 16 then Some id else None
    | (false, _) => None
    end;
  uuid_to_string := λ id, hyphenate (encode_hex id)
|}.

Abbreviation drop_hyphens := (List.filter (λ c, negb (bool_decide (c = minus_byte)))).

Lemma drop_hyphens_hex h : Forall (λ c, is_lower_hex c = true) h -> drop_hyphens h = h.
Proof.
  induction 1 as [|c h Hc _ IH]; cbn [List.filter]; [done|].
  rewrite bool_decide_eq_false_2; [cbn [negb]; by rewrite IH|]. intros ->. by vm_compute in Hc.
Qed.

Lemma drop_hyphens_cut l k :
  Forall (λ c, is_lower_hex c = true) l -> drop_hyphens (l ++ minus_byte :: k) = l ++ drop_hyphens k.
Proof.
  intros Hl. rewrite List.filter_app. cbn [List.filter]. rewrite bool_decide_eq_true_2 by done.
  cbn [negb]. by rewrite drop_hyphens_hex.
Qed.

Lemma drop_hyphens_hyphenate h :
  Forall (λ c, is_lower_hex c = true) h -> drop_hyphens (hyphenate h) = h.
Proof.
  intros Hf. unfold hyphenate.
  rewrite !drop_hyphens_cut, drop_hyphens_hex by (repeat first [apply Forall_take|apply Forall_drop]; done).
  assert (forall n k, take k (drop n h) ++ drop (n + k) h = drop n h) as E
    by (intros n k; by rewrite <- drop_drop, take_drop).
  rewrite (E 16%nat 4%nat : _ ++ drop 20 h = _), (E 12%nat 4%nat : _ ++ drop 16 h = _), (E 8%nat 4%nat : _ ++ drop 12 h = _).
  apply take_drop.
Qed.

(** The digits of a UUID, one by one. *)
Lemma hyphenate_hex h :
  length h = 32%nat -> Forall (λ c, is_lower_hex c = true) h -> uuid_text_ok (hyphenate h) = true.
Proof.
  intros Hlen Hf. do 32 (destruct h as [|? h]; [done|]). destruct h; [|done].
  repeat match goal with H : Forall _ (_ :: _) |- _ => apply Forall_cons in H as [? H] end.
  unfold uuid_text_ok. apply andb_true_iff. split; [done|].
  cbn -[is_ascii_digit is_lower_af minus_byte bool_decide].
  repeat match goal with H : is_lower_hex ?c = true |- _ =>
    unfold is_lower_hex in H; rewrite H; clear H end.
  by rewrite !bool_decide_eq_true_2.
Qed.

Lemma hex_uuid_laws : @UuidLaws hex_uuid.
Proof.
  constructor.
  - intros id Hid. cbn. apply hyphenate_hex; [|apply encode_hex_lower].
    rewrite encode_hex_length. unfold blen in Hid. lia.
  - intros id Hid. cbn. assert (length id = 16)%nat as Hlen by (unfold blen in Hid; lia).
    rewrite drop_hyphens_hyphenate by apply encode_hex_lower.
    rewrite decode_hex_encode; [by rewrite Hid|done|lia].
  - intros s id. cbn -[decode_hex_to_slice].
    destruct (decode_hex_to_slice _ _) as [[] r]; [|done].
    destruct (Z.eqb_spec (blen r) 16); [by intros [=<-]|done].
Qed.
