(* ===== verification/Http.v ===== *)
(** HTTP messages as the handlers see them: the interface to the [http] and
    [hyper] crates, responses, and the values of [serde] structs.

    [http::HeaderMap] and the table of reason phrases are the interface
    [HttpTypes]; the class [HttpTypesLaws] states what is relied on of their
    documentation.  A body that the code serializes with [serde_json] is kept as
    the value that is serialized: fields in order, absent where the struct says
    [skip_serializing_if]. *)

From S2P Require Import Prelude Bytes.
From stdpp Require Import base numbers list strings.
From Stdlib Require Import Ascii.

Local Open Scope Z_scope.

(** ** The HTTP types *)

Class HttpTypes := {
  HeaderMap : Type;
  (** [HeaderMap::new] *)
  no_headers : HeaderMap;
  (** [HeaderMap::get_all]: the values of a header, in order *)
  get_all : HeaderMap -> bytes -> list bytes;
  (** [HeaderMap::insert]: set a header, dropping its earlier values *)
  insert_header : HeaderMap -> bytes -> bytes -> HeaderMap;
  (** [HeaderMap::remove] *)
  remove_header : HeaderMap -> bytes -> HeaderMap;
  (** [HeaderValue::to_str] *)
  to_str : bytes -> option bytes;
  (** [HeaderValue::from_str] *)
  from_str : bytes -> option bytes;
  (** [StatusCode::canonical_reason] *)
  canonical_reason : Z -> option bytes
}.

(** A byte every header value may hold. *)
Definition is_visible_ascii (c : ascii) : bool := in_range 32 126 (byte_val c).

Class HttpTypesLaws `{HttpTypes} := {
  get_all_empty k : get_all no_headers k = [];
  get_all_insert m k v : get_all (insert_header m k v) k = [v];
  get_all_insert_ne m k k' v : k <> k' -> get_all (insert_header m k v) k' = get_all m k';
  get_all_remove m k : get_all (remove_header m k) k = [];
  get_all_remove_ne m k k' : k <> k' -> get_all (remove_header m k) k' = get_all m k';
  to_str_visible v : forallb is_visible_ascii v = true -> to_str v = Some v;
  to_str_id v s : to_str v = Some s -> s = v;
  from_str_visible s : forallb is_visible_ascii s = true -> from_str s = Some s
}.

(** ** An implementation of the interface: headers as a list of pairs *)

Definition pair_named (name : bytes) (kv : bytes * bytes) : bool := beqb kv.1 name.

Definition list_http : HttpTypes := {|
  HeaderMap := list (bytes * bytes);
  no_headers := [];
  get_all := λ m k, snd <$> List.filter (pair_named k) m;
  insert_header := λ m k v, (k, v) :: List.filter (λ kv, negb (pair_named k kv)) m;
  remove_header := λ m k, List.filter (λ kv, negb (pair_named k kv)) m;
  to_str := λ v, if forallb is_visible_ascii v then Some v else None;
  from_str := λ v, if forallb is_visible_ascii v then Some v else None;
  canonical_reason := λ s, if s =? 503 then Some (bs "Service Unavailable") else None
|}.

Lemma pairs_removed (m : list (bytes * bytes)) k :
  snd <$> List.filter (pair_named k) (List.filter (λ kv, negb (pair_named k kv)) m) = [].
Proof.
  induction m as [|kv m IH]; cbn; [done|]. destruct (pair_named k kv) eqn:E; cbn; [done|]. by rewrite E.
Qed.

Lemma pairs_kept (m : list (bytes * bytes)) k k' : k <> k' ->
  List.filter (pair_named k') (List.filter (λ kv, negb (pair_named k kv)) m) =
  List.filter (pair_named k') m.
Proof.
  intros Hne. induction m as [|kv m IH]; cbn; [done|]. unfold pair_named in *.
  destruct (beqb kv.1 k) eqn:E; cbn; [|by destruct (beqb kv.1 k'); rewrite IH].
  apply beqb_true in E as ->. by rewrite (proj2 (beqb_false k k') Hne).
Qed.

Lemma list_http_laws : @HttpTypesLaws list_http.
Proof.
  constructor; cbn.
  - done.
  - intros m k v. unfold pair_named at 1. cbn. rewrite beqb_refl. cbn. f_equal. apply pairs_removed.
  - intros m k k' v Hne. unfold pair_named at 1. cbn.
    rewrite (proj2 (beqb_false k k') Hne). f_equal. by apply pairs_kept.
  - intros m k. apply pairs_removed.
  - intros m k k' Hne. f_equal. by apply pairs_kept.
  - intros v Hv. by rewrite Hv.
  - intros v s. destruct (forallb _ _); [by intros [=]|done].
  - intros s Hs. by rewrite Hs.
Qed.

(** ** Serialized values *)

Inductive Json :=
| JNull
| JBool (b : bool)
| JNumber (n : Z)
| JString (s : bytes)
| JArray (l : list Json)
| JObject (fields : list (string * Json)).

(** A field with [skip_serializing_if = "Option::is_none"]. *)
Definition optional {A} (f : A -> Json) (name : string) (v : option A) : list (string * Json) :=
  match v with Some a => [(name, f a)] | None => [] end.

(** The value of a field of an object. *)
Definition json_field (name : string) (j : Json) : option Json :=
  match j with
  | JObject fields => snd <$> List.find (λ kv, bool_decide (kv.1 = name)) fields
  | _ => None
  end.

(** ** How a handler can fail

    [Failed] is an [Err] with its message, [Panic] a reached [unreachable!] or
    failed [expect]. *)

Inductive Failure := Panic | Failed (message : bytes).

(** [Result::expect]. *)
Definition expect {E A} (r : result E A) : result Failure A :=
  match r with Ok a => Ok a | Err _ => Err Panic end.

(** [?] on a [Result] with an error message. *)
Definition try {A} (r : result bytes A) : result Failure A :=
  match r with Ok a => Ok a | Err m => Err (Failed m) end.

(** ** Responses *)

(** What the handlers put in a body; [FileBody] streams part of an open file. *)
Inductive Body :=
| EmptyBody
| JsonBody (value : Json)
| BytesBody (b : bytes)
| FileBody (offset remaining : Z).

Section response.
Context `{HttpTypes}.

Record Response := mkResponse {
  res_status : Z;
  res_headers : HeaderMap;
  res_body : Body
}.

(** [Response::default()]. *)
Definition default_response : Response := mkResponse 200 no_headers EmptyBody.

Definition with_status (res : Response) (status : Z) : Response :=
  mkResponse status (res_headers res) (res_body res).
Definition with_headers (res : Response) (headers : HeaderMap) : Response :=
  mkResponse (res_status res) headers (res_body res).
Definition with_header (res : Response) (name value : bytes) : Response :=
  with_headers res (insert_header (res_headers res) name value).
Definition with_body (res : Response) (body : Body) : Response :=
  mkResponse (res_status res) (res_headers res) body.

(** The values of a header of a response. *)
Definition header (res : Response) (name : bytes) : list bytes := get_all (res_headers res) name.

(** [StatusCode::is_success] and [StatusCode::from_u16]. *)
Definition is_success (status : Z) : bool := in_range 200 299 status.
Definition status_from_u16 (status : Z) : option Z :=
  if in_range 100 999 status then Some status else None.
End response.
