(* ===== verification/UploadProtocol.v ===== *)
(** The upload protocol on the wire ([src/src/server/upload/protocol.rs]:
    the header parsers, [TargetRevision], [UploadOverwritePolicy] and
    [apply_upload_record_headers]; [src/src/server/protocol.rs]: the public
    upload states).

    [http::HeaderMap] is the interface [HttpTypes] of [Http]. *)

From S2P Require Import Prelude Bytes Utils UuidText Http.
From stdpp Require Import base numbers list strings.
From Stdlib Require Import Ascii.

Local Open Scope Z_scope.

(** ** Names *)

Definition UPLOAD_ID_HEADER : bytes := bs "x-dufs-upload-id".
Definition UPLOAD_LENGTH_HEADER : bytes := bs "x-dufs-upload-length".
Definition UPLOAD_OFFSET_HEADER : bytes := bs "x-dufs-upload-offset".
Definition UPLOAD_OVERWRITE_HEADER : bytes := bs "x-dufs-upload-overwrite".
Definition TARGET_REVISION_HEADER : bytes := bs "x-dufs-target-revision".
Definition OPERATION_STATE_HEADER : bytes := bs "x-dufs-operation-state".

Inductive UploadPublicState :=
| Running | AwaitingConfirmation | Committed | Rejected | NotSeen | NotStarted | Unknown.

Definition wire_name (s : UploadPublicState) : bytes :=
  match s with
  | Running => bs "running"
  | AwaitingConfirmation => bs "awaiting-confirmation"
  | Committed => bs "committed"
  | Rejected => bs "rejected"
  | NotSeen => bs "not-seen"
  | NotStarted => bs "not-started"
  | Unknown => bs "unknown"
  end.

(** ** Target revisions *)

(** [TargetRevision]: 32 bytes. *)
Definition revision_encode (revision : bytes) : bytes := encode_hex revision.

Definition revision_parse (value : bytes) : option bytes :=
  if (blen value =? 64) && forallb (λ byte, is_ascii_digit byte || is_lower_af byte) value then
    match decode_hex_to_slice value (replicate 32 nul_byte) with
    | (true, revision) => Some revision
    | (false, _) => None
    end
  else None.

Inductive UploadOverwritePolicy := NoReplace | IfUnchanged (revision : bytes).

Inductive UploadOverwriteParseError :=
| EUploadOverwrite (detail : bytes)
| ETargetRevision (detail : bytes).

Inductive UploadMode := Fresh | Resume (offset : Z).

Definition policy_revision (p : UploadOverwritePolicy) : option bytes :=
  match p with NoReplace => None | IfUnchanged revision => Some revision end.
Definition mode_offset (m : UploadMode) : option Z :=
  match m with Fresh => None | Resume offset => Some offset end.

(** ** Parsers *)

Section parsers.
Context `{UuidLib} `{HttpTypes}.

Definition unique_upload_header (headers : HeaderMap) (name : bytes) : result bytes (option bytes) :=
  match get_all headers name with
  | [] => Ok None
  | [first] => Ok (Some first)
  | _ :: _ :: _ => Err (bs "Duplicate " ++ name ++ bs " header")
  end.

Definition invalid (name : bytes) : bytes := bs "Invalid " ++ name ++ bs " header".

Definition parse_upload_id (headers : HeaderMap) : result bytes (option bytes) :=
  value ← unique_upload_header headers UPLOAD_ID_HEADER;
  match value with
  | None => Ok None
  | Some value =>
      value ← ok_or (to_str value) (invalid UPLOAD_ID_HEADER);
      if negb (blen value =? 36) || negb (forallb (λ '(i, c), uuid_byte_ok i c) (imap pair value))
      then Err (invalid UPLOAD_ID_HEADER ++ bs ": expected a lowercase canonical UUID")
      else id ← ok_or (uuid_parse_str value) (invalid UPLOAD_ID_HEADER); Ok (Some id)
  end.

Definition parse_canonical_u64 (value name : bytes) : result bytes Z :=
  value ← ok_or (to_str value) (invalid name);
  if bool_decide (value = []) || negb (forallb is_ascii_digit value) ||
     ((1 <? blen value) && bool_decide (head value = Some zero_byte))
  then Err (invalid name ++ bs ": expected canonical unsigned decimal digits")
  else ok_or (u64_parse value) (invalid name).

Definition parse_upload_number (headers : HeaderMap) (name : bytes) : result bytes (option Z) :=
  value ← unique_upload_header headers name;
  match value with
  | None => Ok None
  | Some value => n ← parse_canonical_u64 value name; Ok (Some n)
  end.
Definition parse_upload_length (headers : HeaderMap) : result bytes (option Z) :=
  parse_upload_number headers UPLOAD_LENGTH_HEADER.
Definition parse_upload_offset (headers : HeaderMap) : result bytes (option Z) :=
  parse_upload_number headers UPLOAD_OFFSET_HEADER.

(** [map_err]. *)
Definition or_error {A} (f : bytes -> UploadOverwriteParseError) (r : result bytes A)
    : result UploadOverwriteParseError A :=
  match r with Ok a => Ok a | Err e => Err (f e) end.

Definition parse_upload_overwrite (headers : HeaderMap)
    : result UploadOverwriteParseError UploadOverwritePolicy :=
  overwrite ← or_error EUploadOverwrite (unique_upload_header headers UPLOAD_OVERWRITE_HEADER);
  revision ← or_error ETargetRevision (unique_upload_header headers TARGET_REVISION_HEADER);
  if match overwrite with None => true | Some v => beqb v (bs "false") end then
    match revision with
    | Some _ => Err (ETargetRevision
        (bs "The " ++ TARGET_REVISION_HEADER ++ bs " header requires " ++ UPLOAD_OVERWRITE_HEADER ++ bs ": true"))
    | None => Ok NoReplace
    end
  else if match overwrite with None => false | Some v => beqb v (bs "true") end then
    revision ← ok_or revision (ETargetRevision
      (bs "The " ++ TARGET_REVISION_HEADER ++ bs " header is required when " ++ UPLOAD_OVERWRITE_HEADER
        ++ bs " is true"));
    revision ← ok_or (value ← to_str revision; revision_parse value) (ETargetRevision
      (invalid TARGET_REVISION_HEADER ++ bs ": expected 64 lowercase hexadecimal characters"));
    Ok (IfUnchanged revision)
  else Err (EUploadOverwrite (invalid UPLOAD_OVERWRITE_HEADER ++ bs ": expected true or false")).

(** [HeaderValue::from_str(..)?]. *)
Definition set_header (headers : HeaderMap) (name value : bytes) : result bytes HeaderMap :=
  value ← ok_or (from_str value) (bs "failed to parse header value");
  Ok (insert_header headers name value).

Definition apply_upload_record_headers (headers : HeaderMap) (upload_id : bytes)
    (upload_length upload_offset : option Z) (state : UploadPublicState) : result bytes HeaderMap :=
  headers ← set_header headers UPLOAD_ID_HEADER (uuid_to_string upload_id);
  let headers := insert_header headers OPERATION_STATE_HEADER (wire_name state) in
  headers ← match upload_length with
            | Some n => set_header headers UPLOAD_LENGTH_HEADER (u64_to_string n)
            | None => Ok headers
            end;
  match upload_offset with
  | Some n => set_header headers UPLOAD_OFFSET_HEADER (u64_to_string n)
  | None => Ok headers
  end.
End parsers.

(** ** Revisions *)

Lemma revision_parse_spec value r :
  revision_parse value = Some r <-> blen r = 32 /\ value = revision_encode r.
Proof.
  unfold revision_parse, revision_encode. split.
  - destruct (_ && _) eqn:Hc; [|done]. apply andb_true_iff in Hc as [Hl Hf]. apply Z.eqb_eq in Hl.
    apply forallb_Forall_true in Hf. unfold decode_hex_to_slice.
    assert (length value = 64)%nat as Hlen by (unfold blen in Hl; lia).
    replace (blen value =? _) with true by (rewrite Hl; reflexivity). cbn [negb].
    destruct (decode_pairs_lower value (replicate 32 nul_byte)) as (res & Hres & Hrl);
      [by rewrite length_replicate|done|].
    rewrite Hres. intros [=<-]. rewrite length_replicate in Hrl. split; [unfold blen; lia|].
    symmetry. eapply encode_decode_pairs; [|done|exact Hres]. by rewrite length_replicate.
  - intros [Hr ->]. assert (length r = 32)%nat as Hlen by (unfold blen in Hr; lia).
    assert (blen (encode_hex r) = 64) as -> by (unfold blen; rewrite encode_hex_length; lia).
    change (λ byte, is_ascii_digit byte || is_lower_af byte) with is_lower_hex.
    rewrite (proj2 (forallb_Forall_true _ _) (encode_hex_lower r)). cbn [Z.eqb Pos.eqb andb].
    rewrite decode_hex_encode; [done|by rewrite length_replicate|lia].
Qed.

(** ** Numbers *)

Lemma u64_parse_canonical v n :
  canonical_decimal v = true -> u64_parse v = Some n -> u64_range n /\ v = u64_to_string n.
Proof.
  intros Hc. destruct v as [|c v]; [done|]. unfold u64_parse.
  assert (c <> plus_byte) as Hp.
  { intros ->. cbn in Hc. unfold is_ascii_digit in Hc. by vm_compute in Hc. }
  rewrite bool_decide_eq_false_2 by done.
  destruct (dec_value 0 (c :: v)) as [z|] eqn:Hv; cbn [mbind option_bind]; [|done].
  intros [-> Hz]%u64_try_from_Some. split; [done|]. eapply u64_to_string_canonical; [done..|lia].
Qed.

(** The test of [parse_canonical_u64] is that of a canonical decimal. *)
Lemma canonical_test v :
  bool_decide (v = []) || negb (forallb is_ascii_digit v) ||
    ((1 <? blen v) && bool_decide (head v = Some zero_byte)) = negb (canonical_decimal v).
Proof.
  destruct v as [|c v]; [done|]. unfold canonical_decimal. rewrite bool_decide_eq_false_2 by done.
  cbn [orb]. destruct (forallb is_ascii_digit (c :: v)); [|done]. cbn [negb orb andb head].
  rewrite negb_orb, negb_involutive. rewrite andb_comm. f_equal.
  - by apply bool_decide_ext; split; [intros [=]|intros ->].
  - unfold blen. destruct v as [|d v].
    + done.
    + rewrite bool_decide_eq_false_2 by done. cbn [negb]. apply Z.ltb_lt. cbn. lia.
Qed.

Section facts.
Context `{HttpTypes}.

Lemma parse_canonical_u64_Ok v name n :
  parse_canonical_u64 v name = Ok n <-> to_str v = Some (u64_to_string n) /\ u64_range n.
Proof.
  unfold parse_canonical_u64. rewrite bind_Ok. setoid_rewrite ok_or_Ok. split.
  - intros (s & Hs & H0). rewrite canonical_test in H0.
    destruct (canonical_decimal s) eqn:Hc; cbn in H0; [|done]. apply ok_or_Ok in H0.
    by destruct (u64_parse_canonical s n Hc H0) as [? ->].
  - intros [Hs Hr]. eexists. split; [exact Hs|]. rewrite canonical_test.
    rewrite canonical_u64_to_string by apply Hr. cbn [negb].
    by rewrite u64_parse_to_string by apply Hr.
Qed.

Lemma unique_upload_header_Ok headers name o :
  unique_upload_header headers name = Ok o <-> get_all headers name = option_list o.
Proof.
  unfold unique_upload_header.
  destruct (get_all headers name) as [|v [|v' vs]], o; cbn; naive_solver.
Qed.

Lemma parse_upload_number_Ok headers name n :
  parse_upload_number headers name = Ok (Some n) <->
  exists v, get_all headers name = [v] /\ to_str v = Some (u64_to_string n) /\ u64_range n.
Proof.
  unfold parse_upload_number. rewrite bind_Ok. setoid_rewrite unique_upload_header_Ok. split.
  - intros ([v|] & Hv & H0); [|done]. apply bind_Ok in H0 as (m & Hm & [=->]).
    apply parse_canonical_u64_Ok in Hm. eauto.
  - intros (v & Hv & Hs). exists (Some v). split; [done|]. apply bind_Ok. exists n.
    split; [by apply parse_canonical_u64_Ok|done].
Qed.

(** The length and offset of an upload are read from exactly one header
    value each, in exactly one spelling.  A number is accepted if and only if
    the header occurs once and its text is the canonical decimal of a 64-bit
    value: no sign, no leading zero, no space, no second value; an absent
    header is the only way to have none. *)
Theorem upload_numbers_are_canonical headers n :
  (parse_upload_length headers = Ok (Some n) <->
     exists v, get_all headers UPLOAD_LENGTH_HEADER = [v] /\
       to_str v = Some (u64_to_string n) /\ u64_range n) /\
  (parse_upload_offset headers = Ok (Some n) <->
     exists v, get_all headers UPLOAD_OFFSET_HEADER = [v] /\
       to_str v = Some (u64_to_string n) /\ u64_range n) /\
  (parse_upload_length headers = Ok None <-> get_all headers UPLOAD_LENGTH_HEADER = []) /\
  (parse_upload_offset headers = Ok None <-> get_all headers UPLOAD_OFFSET_HEADER = []).
Proof.
  assert (forall name, parse_upload_number headers name = Ok None <-> get_all headers name = []) as Hnone.
  { intros name. unfold parse_upload_number. rewrite bind_Ok. setoid_rewrite unique_upload_header_Ok.
    split; [|intros Hg; by exists None]. intros ([v|] & Hv & H0); [|done].
    by apply bind_Ok in H0 as (m & _ & [=]). }
  repeat split; first [apply parse_upload_number_Ok|apply Hnone].
Qed.

(** Close a case of the header table by comparing the values. *)
Ltac header_cases :=
  split; [|intros ?]; split; intros ?;
  repeat match goal with
  | H : _ /\ _ |- _ => destruct H
  | H : _ \/ _ |- _ => destruct H
  | H : exists _, _ |- _ => destruct H
  end; try discriminate; simplify_eq; eauto.

(** An upload replaces an existing entry only on an explicit and complete
    request.  The policy read from the headers allows replacement exactly when
    [x-dufs-upload-overwrite] occurs once with the value [true] and
    [x-dufs-target-revision] occurs once and spells, in lowercase hexadecimal,
    the revision the policy carries; it forbids replacement exactly when the
    first is absent or [false] and no revision is given; everything else is
    refused. *)
Theorem overwrite_policy_is_explicit headers :
  (parse_upload_overwrite headers = Ok NoReplace <->
     (get_all headers UPLOAD_OVERWRITE_HEADER = [] \/
      get_all headers UPLOAD_OVERWRITE_HEADER = [bs "false"]) /\
     get_all headers TARGET_REVISION_HEADER = []) /\
  (forall revision, parse_upload_overwrite headers = Ok (IfUnchanged revision) <->
     get_all headers UPLOAD_OVERWRITE_HEADER = [bs "true"] /\ blen revision = 32 /\
     exists v, get_all headers TARGET_REVISION_HEADER = [v] /\
       to_str v = Some (revision_encode revision)).
Proof.
  unfold parse_upload_overwrite, unique_upload_header.
  destruct (get_all headers UPLOAD_OVERWRITE_HEADER) as [|o [|o' os]],
    (get_all headers TARGET_REVISION_HEADER) as [|r [|r' rs]];
    cbn [mbind result_bind or_error ok_or]; try by header_cases.
  - destruct (beqb o (bs "false")) eqn:Ef; [apply beqb_true in Ef as ->; by header_cases|].
    apply beqb_false in Ef. destruct (beqb o (bs "true")); by header_cases.
  - destruct (beqb o (bs "false")) eqn:Ef; [apply beqb_true in Ef as ->; by header_cases|].
    apply beqb_false in Ef. destruct (beqb o (bs "true")) eqn:Et;
      [apply beqb_true in Et as ->|apply beqb_false in Et; by header_cases].
    destruct (to_str r) as [s|] eqn:Es; cbn [mbind option_bind ok_or]; [|by header_cases].
    destruct (revision_parse s) as [r0|] eqn:Er; cbn [ok_or].
    + pose proof Er as [Hl ->]%revision_parse_spec. cbn [mbind result_bind]. header_cases.
      match goal with E : revision_encode ?a = revision_encode _, L : blen ?a = 32 |- _ =>
        rewrite <- E, (proj2 (revision_parse_spec _ a) (conj L eq_refl)) in Er end.
      by injection Er as ->.
    + cbn [mbind result_bind]. header_cases.
      match goal with L : blen ?a = 32 |- _ =>
        by rewrite (proj2 (revision_parse_spec _ a) (conj L eq_refl)) in Er end.
Qed.
End facts.

(** ** Printing and parsing back *)

Lemma digits_visible s : forallb is_ascii_digit s = true -> forallb is_visible_ascii s = true.
Proof.
  rewrite !forallb_forall. intros H c Hc. specialize (H c Hc).
  unfold is_ascii_digit, is_visible_ascii in *. rewrite in_range_true in *. lia.
Qed.

Lemma u64_to_string_visible n : u64_range n -> forallb is_visible_ascii (u64_to_string n) = true.
Proof.
  intros Hn. apply digits_visible. pose proof (canonical_u64_to_string n Hn) as Hc.
  destruct (u64_to_string n) as [|c s]; [done|]. by apply andb_true_iff in Hc as [? _].
Qed.

Lemma uuid_text_visible s : uuid_text_ok s = true -> forallb is_visible_ascii s = true.
Proof.
  unfold uuid_text_ok. intros [_ H]%andb_true_iff. rewrite forallb_forall in *.
  intros c Hc%list_elem_of_In. apply list_elem_of_lookup in Hc as [i Hi].
  assert (uuid_byte_ok i c = true) as Hok.
  { apply (H (i, c)), list_elem_of_In, list_elem_of_lookup. exists i.
    by rewrite list_lookup_imap, Hi. }
  unfold uuid_byte_ok in Hok. unfold is_visible_ascii. rewrite in_range_true.
  destruct (existsb _ _).
  - apply bool_decide_eq_true in Hok as ->. vm_compute. split; congruence.
  - unfold is_ascii_digit, is_lower_af in Hok. apply orb_true_iff in Hok.
    rewrite !in_range_true in Hok. lia.
Qed.

Section roundtrip.
Context `{UuidLaws} `{HttpTypesLaws}.

Lemma set_header_visible h name v :
  forallb is_visible_ascii v = true -> set_header h name v = Ok (insert_header h name v).
Proof. intros Hv. unfold set_header. by rewrite from_str_visible. Qed.

Definition number_in_range (o : option Z) : Prop :=
  match o with Some n => u64_range n | None => True end.

Lemma set_number h name o :
  number_in_range o -> get_all h name = [] ->
  exists h', match o with
    | Some n => set_header h name (u64_to_string n)
    | None => Ok h
    end = Ok h' /\
    get_all h' name = option_list (u64_to_string <$> o) /\
    forall k, k <> name -> get_all h' k = get_all h k.
Proof.
  destruct o as [n|]; cbn [number_in_range]; intros Hn Hh.
  - rewrite set_header_visible by by apply u64_to_string_visible. eexists. split; [done|].
    split; [apply get_all_insert|]. intros k Hk. by apply get_all_insert_ne.
  - by exists h.
Qed.

Lemma parse_number_back h name o :
  number_in_range o -> get_all h name = option_list (u64_to_string <$> o) ->
  parse_upload_number h name = Ok o.
Proof.
  destruct o as [n|]; cbn; intros Hn Hk.
  - apply parse_upload_number_Ok. eexists. split; [exact Hk|]. split; [|done].
    by apply to_str_visible, u64_to_string_visible.
  - unfold parse_upload_number, unique_upload_header. by rewrite Hk.
Qed.

Lemma parse_id_back h id :
  blen id = 16 -> get_all h UPLOAD_ID_HEADER = [uuid_to_string id] ->
  parse_upload_id h = Ok (Some id).
Proof.
  intros Hid Hh. pose proof (uuid_text id Hid) as Hu.
  unfold parse_upload_id, unique_upload_header. rewrite Hh. cbn [mbind result_bind].
  rewrite to_str_visible by by apply uuid_text_visible. cbn [mbind result_bind ok_or].
  unfold uuid_text_ok in Hu. apply andb_true_iff in Hu as [-> ->]. cbn [negb orb].
  by rewrite uuid_roundtrip.
Qed.

(** What the server says about an upload, the protocol reads back.  Writing
    the record headers of an upload never fails; the identifier, the length and
    the offset parsed from them are the ones written - an absent number is
    reported as absent when the message did not carry one before - and the
    state header carries the state's wire name once. *)
Theorem upload_record_headers_roundtrip headers id len off state :
  blen id = 16 -> number_in_range len ->
  number_in_range off ->
  get_all headers UPLOAD_LENGTH_HEADER = [] -> get_all headers UPLOAD_OFFSET_HEADER = [] ->
  exists headers', apply_upload_record_headers headers id len off state = Ok headers' /\
    parse_upload_id headers' = Ok (Some id) /\
    parse_upload_length headers' = Ok len /\ parse_upload_offset headers' = Ok off /\
    get_all headers' OPERATION_STATE_HEADER = [wire_name state].
Proof.
  intros Hid Hlen Hoff HL HO. pose proof (uuid_text id Hid) as Hu.
  unfold apply_upload_record_headers. rewrite set_header_visible by by apply uuid_text_visible.
  cbn [mbind result_bind].
  set (h1 := insert_header (insert_header headers UPLOAD_ID_HEADER _) OPERATION_STATE_HEADER _).
  destruct (set_number h1 UPLOAD_LENGTH_HEADER len) as (h2 & -> & Hl2 & Hk2); [done| |].
  { subst h1. by rewrite !get_all_insert_ne. }
  cbn [mbind result_bind].
  destruct (set_number h2 UPLOAD_OFFSET_HEADER off) as (h3 & -> & Hl3 & Hk3); [done| |].
  { rewrite Hk2 by done. subst h1. by rewrite !get_all_insert_ne. }
  exists h3. split; [done|]. split; [|split; [|split]].
  - apply parse_id_back; [done|]. rewrite Hk3, Hk2 by done. subst h1.
    by rewrite get_all_insert_ne, get_all_insert.
  - apply parse_number_back; [done|]. by rewrite Hk3.
  - by apply parse_number_back.
  - rewrite Hk3, Hk2 by done. subst h1. apply get_all_insert.
Qed.
End roundtrip.

Lemma upload_record_headers_roundtrip_witness :
  exists headers', @apply_upload_record_headers hex_uuid list_http [] (be_bytes 16 77) (Some 1000) (Some 250) Running
      = Ok headers' /\
    @parse_upload_id hex_uuid list_http headers' = Ok (Some (be_bytes 16 77)) /\
    @parse_upload_length list_http headers' = Ok (Some 1000) /\
    @parse_upload_offset list_http headers' = Ok (Some 250) /\
    @get_all list_http headers' OPERATION_STATE_HEADER = [bs "running"].
Proof.
  assert (blen (be_bytes 16 77) = 16) as Hid by (vm_compute; reflexivity).
  assert (u64_range 1000) as Hl by (vm_compute; split; discriminate).
  assert (u64_range 250) as Ho by (vm_compute; split; discriminate).
  exact (@upload_record_headers_roundtrip hex_uuid hex_uuid_laws list_http list_http_laws [] (be_bytes 16 77) (Some 1000)
    (Some 250) Running Hid Hl Ho eq_refl eq_refl).
Defined.
