(* ===== verification/Problem.v ===== *)
(** Public errors: the catalogue of error codes, the advice a client is given,
    the problem documents and their rendering ([src/src/server/problem.rs]); the
    public states of operations ([src/src/server/protocol.rs]); and the mapping
    of failures at the service boundary ([src/src/app_error.rs]). *)

From S2P Require Import Prelude Bytes UuidText Http UploadProtocol.
From stdpp Require Import base numbers list strings.
From Stdlib Require Import Ascii.

Local Open Scope Z_scope.

(** ** The catalogue of error codes *)

Module ErrorCode.

(** The associated constants of [ErrorCode], which production code can only
    select from. *)
Inductive ErrorCode :=
| API_ENDPOINT_NOT_FOUND
| DELETE_NOT_COMMITTED
| DELETE_STATE_CONFLICT
| DELETE_TARGET_CHANGED
| DESTINATION_CHANGED
| DESTINATION_EXISTS
| DESTINATION_DIRECTORY_NOT_FOUND
| DESTINATION_NOT_DIRECTORY
| DIRECTORY_ACCESS_FORBIDDEN
| DIRECTORY_CHANGED
| DIRECTORY_DEPTH_LIMIT
| DIRECTORY_ENTRY_LIMIT
| DIRECTORY_INTO_ITSELF
| DIRECTORY_MEMORY_LIMIT
| DIRECTORY_OPERATION_FAILED
| DIRECTORY_OPERATION_LIMIT
| DIRECTORY_OPERATION_TIMEOUT
| DIRECTORY_OVERWRITE_FORBIDDEN
| DIRECTORY_SORT_LIMIT
| DIRECTORY_SYMLINK_LOOP
| FILESYSTEM_TIMEOUT
| INSUFFICIENT_STORAGE
| INTERNAL_ERROR
| INVALID_DESTINATION_PATH
| INVALID_DESTINATION_REVISION
| INVALID_JOB_ID
| INVALID_JSON
| INVALID_LIST_CURSOR
| INVALID_LIST_LIMIT
| INVALID_LIST_PATH
| INVALID_MOVE_PATH
| INVALID_OPERATION_ID
| INVALID_PATH
| INVALID_RENAME_NAME
| INVALID_RENAME_PATH
| INVALID_REQUEST
| INVALID_REQUEST_BODY
| INVALID_SOURCE_PATH
| INVALID_SOURCE_REVISION
| INVALID_UPLOAD_ID
| INVALID_UPLOAD_LENGTH
| INVALID_UPLOAD_OFFSET
| INVALID_UPLOAD_OVERWRITE
| INVALID_TARGET_REVISION
| JOB_NOT_FOUND
| JOB_STORE_UNAVAILABLE
| LIST_CURSOR_UNAVAILABLE
| LIST_PATH_NOT_DIRECTORY
| LIST_PATH_NOT_FOUND
| LIST_SNAPSHOT_LIMIT
| METHOD_NOT_ALLOWED
| MKDIR_STATE_CONFLICT
| MKDIR_STATE_UNAVAILABLE
| MOVE_STATE_CONFLICT
| MOVE_STATE_UNAVAILABLE
| OPERATION_ID_CONFLICT
| OPERATION_IN_PROGRESS
| OPERATION_NOT_COMMITTED
| OPERATION_REGISTRY_FULL
| OPERATION_RESULT_UNKNOWN
| OPERATION_STORE_UNAVAILABLE
| OUTCOME_UNCERTAIN
| PATH_WAIT_CONCURRENCY_LIMIT
| PATH_EXISTS
| PURGE_BACKLOG_FULL
| PURGE_STATE_UNAVAILABLE
| REQUEST_BODY_TOO_LARGE
| REQUEST_CONFLICT
| REQUEST_FORBIDDEN
| REQUEST_NOT_FOUND
| REQUEST_TIMEOUT
| SOURCE_CHANGED
| SOURCE_REVISION_REQUIRED
| DESTINATION_REVISION_REQUIRED
| RENAME_STATE_CONFLICT
| RENAME_STATE_UNAVAILABLE
| ROOT_DELETE_FORBIDDEN
| SEARCH_QUERY_TOO_LONG
| SEARCH_RESULT_LIMIT
| SERVER_STOPPING
| SOURCE_EQUALS_DESTINATION
| SOURCE_NOT_FOUND
| TARGET_NOT_FOUND
| UNSUPPORTED_FILENAME
| UNSUPPORTED_MEDIA_TYPE
| UPLOAD_BODY_EXCEEDS_REMAINING_LENGTH
| UPLOAD_CHECKPOINT_PERSIST_FAILED
| UPLOAD_COMMITTED_LENGTH_MISMATCH
| UPLOAD_CONCURRENCY_LIMIT
| UPLOAD_ID_REJECTED
| UPLOAD_IDLE_TIMEOUT
| UPLOAD_IN_PROGRESS
| UPLOAD_INSUFFICIENT_STORAGE
| UPLOAD_LENGTH_CHANGED
| UPLOAD_LENGTH_MISMATCH
| UPLOAD_METADATA_PRESERVATION_REFUSED
| UPLOAD_NOT_PUBLISHED
| UPLOAD_OFFSET_CHANGED
| UPLOAD_OUTCOME_UNKNOWN
| UPLOAD_PATH_WAIT_TIMEOUT
| UPLOAD_PRECOMMIT_FAILED
| UPLOAD_PREFLIGHT_CONCURRENCY_LIMIT
| UPLOAD_PUBLICATION_DURABILITY_UNKNOWN
| UPLOAD_PUBLICATION_OUTCOME_UNKNOWN
| UPLOAD_RESULT_UNKNOWN
| UPLOAD_SESSION_CONFLICT
| UPLOAD_SESSION_NOT_FOUND
| UPLOAD_SESSION_STORE_FULL
| UPLOAD_SIZE_LIMIT_EXCEEDED
| UPLOAD_STAGE_CONFLICT
| UPLOAD_STAGE_INVALID
| UPLOAD_STATE_CONFLICT
| UPLOAD_STATE_UNAVAILABLE
| UPLOAD_TARGET_CHANGED
| UPLOAD_TARGET_INSPECTION_TIMEOUT
| UPLOAD_TARGET_NOT_FOUND
| UPLOAD_TERMINAL_RECORD_FAILED.

Definition as_str (c : ErrorCode) : bytes :=
  match c with
  | API_ENDPOINT_NOT_FOUND => bs "api_endpoint_not_found"
  | DELETE_NOT_COMMITTED => bs "delete_not_committed"
  | DELETE_STATE_CONFLICT => bs "delete_state_conflict"
  | DELETE_TARGET_CHANGED => bs "delete_target_changed"
  | DESTINATION_CHANGED => bs "destination_changed"
  | DESTINATION_EXISTS => bs "destination_exists"
  | DESTINATION_DIRECTORY_NOT_FOUND => bs "destination_directory_not_found"
  | DESTINATION_NOT_DIRECTORY => bs "destination_not_directory"
  | DIRECTORY_ACCESS_FORBIDDEN => bs "directory_access_forbidden"
  | DIRECTORY_CHANGED => bs "directory_changed"
  | DIRECTORY_DEPTH_LIMIT => bs "directory_depth_limit"
  | DIRECTORY_ENTRY_LIMIT => bs "directory_entry_limit"
  | DIRECTORY_INTO_ITSELF => bs "directory_into_itself"
  | DIRECTORY_MEMORY_LIMIT => bs "directory_memory_limit"
  | DIRECTORY_OPERATION_FAILED => bs "directory_operation_failed"
  | DIRECTORY_OPERATION_LIMIT => bs "directory_operation_limit"
  | DIRECTORY_OPERATION_TIMEOUT => bs "directory_operation_timeout"
  | DIRECTORY_OVERWRITE_FORBIDDEN => bs "directory_overwrite_forbidden"
  | DIRECTORY_SORT_LIMIT => bs "directory_sort_limit"
  | DIRECTORY_SYMLINK_LOOP => bs "directory_symlink_loop"
  | FILESYSTEM_TIMEOUT => bs "filesystem_timeout"
  | INSUFFICIENT_STORAGE => bs "insufficient_storage"
  | INTERNAL_ERROR => bs "internal_error"
  | INVALID_DESTINATION_PATH => bs "invalid_destination_path"
  | INVALID_DESTINATION_REVISION => bs "invalid_destination_revision"
  | INVALID_JOB_ID => bs "invalid_job_id"
  | INVALID_JSON => bs "invalid_json"
  | INVALID_LIST_CURSOR => bs "invalid_list_cursor"
  | INVALID_LIST_LIMIT => bs "invalid_list_limit"
  | INVALID_LIST_PATH => bs "invalid_list_path"
  | INVALID_MOVE_PATH => bs "invalid_move_path"
  | INVALID_OPERATION_ID => bs "invalid_operation_id"
  | INVALID_PATH => bs "invalid_path"
  | INVALID_RENAME_NAME => bs "invalid_rename_name"
  | INVALID_RENAME_PATH => bs "invalid_rename_path"
  | INVALID_REQUEST => bs "invalid_request"
  | INVALID_REQUEST_BODY => bs "invalid_request_body"
  | INVALID_SOURCE_PATH => bs "invalid_source_path"
  | INVALID_SOURCE_REVISION => bs "invalid_source_revision"
  | INVALID_UPLOAD_ID => bs "invalid_upload_id"
  | INVALID_UPLOAD_LENGTH => bs "invalid_upload_length"
  | INVALID_UPLOAD_OFFSET => bs "invalid_upload_offset"
  | INVALID_UPLOAD_OVERWRITE => bs "invalid_upload_overwrite"
  | INVALID_TARGET_REVISION => bs "invalid_target_revision"
  | JOB_NOT_FOUND => bs "job_not_found"
  | JOB_STORE_UNAVAILABLE => bs "job_store_unavailable"
  | LIST_CURSOR_UNAVAILABLE => bs "list_cursor_unavailable"
  | LIST_PATH_NOT_DIRECTORY => bs "list_path_not_directory"
  | LIST_PATH_NOT_FOUND => bs "list_path_not_found"
  | LIST_SNAPSHOT_LIMIT => bs "list_snapshot_limit"
  | METHOD_NOT_ALLOWED => bs "method_not_allowed"
  | MKDIR_STATE_CONFLICT => bs "mkdir_state_conflict"
  | MKDIR_STATE_UNAVAILABLE => bs "mkdir_state_unavailable"
  | MOVE_STATE_CONFLICT => bs "move_state_conflict"
  | MOVE_STATE_UNAVAILABLE => bs "move_state_unavailable"
  | OPERATION_ID_CONFLICT => bs "operation_id_conflict"
  | OPERATION_IN_PROGRESS => bs "operation_in_progress"
  | OPERATION_NOT_COMMITTED => bs "operation_not_committed"
  | OPERATION_REGISTRY_FULL => bs "operation_registry_full"
  | OPERATION_RESULT_UNKNOWN => bs "operation_result_unknown"
  | OPERATION_STORE_UNAVAILABLE => bs "operation_store_unavailable"
  | OUTCOME_UNCERTAIN => bs "outcome_uncertain"
  | PATH_WAIT_CONCURRENCY_LIMIT => bs "path_wait_concurrency_limit"
  | PATH_EXISTS => bs "path_exists"
  | PURGE_BACKLOG_FULL => bs "purge_backlog_full"
  | PURGE_STATE_UNAVAILABLE => bs "purge_state_unavailable"
  | REQUEST_BODY_TOO_LARGE => bs "request_body_too_large"
  | REQUEST_CONFLICT => bs "request_conflict"
  | REQUEST_FORBIDDEN => bs "request_forbidden"
  | REQUEST_NOT_FOUND => bs "request_not_found"
  | REQUEST_TIMEOUT => bs "request_timeout"
  | SOURCE_CHANGED => bs "source_changed"
  | SOURCE_REVISION_REQUIRED => bs "source_revision_required"
  | DESTINATION_REVISION_REQUIRED => bs "destination_revision_required"
  | RENAME_STATE_CONFLICT => bs "rename_state_conflict"
  | RENAME_STATE_UNAVAILABLE => bs "rename_state_unavailable"
  | ROOT_DELETE_FORBIDDEN => bs "root_delete_forbidden"
  | SEARCH_QUERY_TOO_LONG => bs "search_query_too_long"
  | SEARCH_RESULT_LIMIT => bs "search_result_limit"
  | SERVER_STOPPING => bs "server_stopping"
  | SOURCE_EQUALS_DESTINATION => bs "source_equals_destination"
  | SOURCE_NOT_FOUND => bs "source_not_found"
  | TARGET_NOT_FOUND => bs "target_not_found"
  | UNSUPPORTED_FILENAME => bs "unsupported_filename"
  | UNSUPPORTED_MEDIA_TYPE => bs "unsupported_media_type"
  | UPLOAD_BODY_EXCEEDS_REMAINING_LENGTH => bs "upload_body_exceeds_remaining_length"
  | UPLOAD_CHECKPOINT_PERSIST_FAILED => bs "upload_checkpoint_persist_failed"
  | UPLOAD_COMMITTED_LENGTH_MISMATCH => bs "upload_committed_length_mismatch"
  | UPLOAD_CONCURRENCY_LIMIT => bs "upload_concurrency_limit"
  | UPLOAD_ID_REJECTED => bs "upload_id_rejected"
  | UPLOAD_IDLE_TIMEOUT => bs "upload_idle_timeout"
  | UPLOAD_IN_PROGRESS => bs "upload_in_progress"
  | UPLOAD_INSUFFICIENT_STORAGE => bs "upload_insufficient_storage"
  | UPLOAD_LENGTH_CHANGED => bs "upload_length_changed"
  | UPLOAD_LENGTH_MISMATCH => bs "upload_length_mismatch"
  | UPLOAD_METADATA_PRESERVATION_REFUSED => bs "upload_metadata_preservation_refused"
  | UPLOAD_NOT_PUBLISHED => bs "upload_not_published"
  | UPLOAD_OFFSET_CHANGED => bs "upload_offset_changed"
  | UPLOAD_OUTCOME_UNKNOWN => bs "upload_outcome_unknown"
  | UPLOAD_PATH_WAIT_TIMEOUT => bs "upload_path_wait_timeout"
  | UPLOAD_PRECOMMIT_FAILED => bs "upload_precommit_failed"
  | UPLOAD_PREFLIGHT_CONCURRENCY_LIMIT => bs "upload_preflight_concurrency_limit"
  | UPLOAD_PUBLICATION_DURABILITY_UNKNOWN => bs "upload_publication_durability_unknown"
  | UPLOAD_PUBLICATION_OUTCOME_UNKNOWN => bs "upload_publication_outcome_unknown"
  | UPLOAD_RESULT_UNKNOWN => bs "upload_result_unknown"
  | UPLOAD_SESSION_CONFLICT => bs "upload_session_conflict"
  | UPLOAD_SESSION_NOT_FOUND => bs "upload_session_not_found"
  | UPLOAD_SESSION_STORE_FULL => bs "upload_session_store_full"
  | UPLOAD_SIZE_LIMIT_EXCEEDED => bs "upload_size_limit_exceeded"
  | UPLOAD_STAGE_CONFLICT => bs "upload_stage_conflict"
  | UPLOAD_STAGE_INVALID => bs "upload_stage_invalid"
  | UPLOAD_STATE_CONFLICT => bs "upload_state_conflict"
  | UPLOAD_STATE_UNAVAILABLE => bs "upload_state_unavailable"
  | UPLOAD_TARGET_CHANGED => bs "upload_target_changed"
  | UPLOAD_TARGET_INSPECTION_TIMEOUT => bs "upload_target_inspection_timeout"
  | UPLOAD_TARGET_NOT_FOUND => bs "upload_target_not_found"
  | UPLOAD_TERMINAL_RECORD_FAILED => bs "upload_terminal_record_failed"
  end.

Definition ALL : list ErrorCode :=
  [API_ENDPOINT_NOT_FOUND; DELETE_NOT_COMMITTED; DELETE_STATE_CONFLICT;
   DELETE_TARGET_CHANGED; DESTINATION_CHANGED; DESTINATION_EXISTS;
   DESTINATION_DIRECTORY_NOT_FOUND; DESTINATION_NOT_DIRECTORY; DIRECTORY_ACCESS_FORBIDDEN;
   DIRECTORY_CHANGED; DIRECTORY_DEPTH_LIMIT; DIRECTORY_ENTRY_LIMIT;
   DIRECTORY_INTO_ITSELF; DIRECTORY_MEMORY_LIMIT; DIRECTORY_OPERATION_FAILED;
   DIRECTORY_OPERATION_LIMIT; DIRECTORY_OPERATION_TIMEOUT; DIRECTORY_OVERWRITE_FORBIDDEN;
   DIRECTORY_SORT_LIMIT; DIRECTORY_SYMLINK_LOOP; FILESYSTEM_TIMEOUT;
   INSUFFICIENT_STORAGE; INTERNAL_ERROR; INVALID_DESTINATION_PATH;
   INVALID_DESTINATION_REVISION; INVALID_JOB_ID; INVALID_JSON;
   INVALID_LIST_CURSOR; INVALID_LIST_LIMIT; INVALID_LIST_PATH;
   INVALID_MOVE_PATH; INVALID_OPERATION_ID; INVALID_PATH;
   INVALID_RENAME_NAME; INVALID_RENAME_PATH; INVALID_REQUEST;
   INVALID_REQUEST_BODY; INVALID_SOURCE_PATH; INVALID_SOURCE_REVISION;
   INVALID_UPLOAD_ID; INVALID_UPLOAD_LENGTH; INVALID_UPLOAD_OFFSET;
   INVALID_UPLOAD_OVERWRITE; INVALID_TARGET_REVISION; JOB_NOT_FOUND;
   JOB_STORE_UNAVAILABLE; LIST_CURSOR_UNAVAILABLE; LIST_PATH_NOT_DIRECTORY;
   LIST_PATH_NOT_FOUND; LIST_SNAPSHOT_LIMIT; METHOD_NOT_ALLOWED;
   MKDIR_STATE_CONFLICT; MKDIR_STATE_UNAVAILABLE; MOVE_STATE_CONFLICT;
   MOVE_STATE_UNAVAILABLE; OPERATION_ID_CONFLICT; OPERATION_IN_PROGRESS;
   OPERATION_NOT_COMMITTED; OPERATION_REGISTRY_FULL; OPERATION_RESULT_UNKNOWN;
   OPERATION_STORE_UNAVAILABLE; OUTCOME_UNCERTAIN; PATH_WAIT_CONCURRENCY_LIMIT;
   PATH_EXISTS; PURGE_BACKLOG_FULL; PURGE_STATE_UNAVAILABLE;
   REQUEST_BODY_TOO_LARGE; REQUEST_CONFLICT; REQUEST_FORBIDDEN;
   REQUEST_NOT_FOUND; REQUEST_TIMEOUT; SOURCE_CHANGED;
   SOURCE_REVISION_REQUIRED; DESTINATION_REVISION_REQUIRED; RENAME_STATE_CONFLICT;
   RENAME_STATE_UNAVAILABLE; ROOT_DELETE_FORBIDDEN; SEARCH_QUERY_TOO_LONG;
   SEARCH_RESULT_LIMIT; SERVER_STOPPING; SOURCE_EQUALS_DESTINATION;
   SOURCE_NOT_FOUND; TARGET_NOT_FOUND; UNSUPPORTED_FILENAME;
   UNSUPPORTED_MEDIA_TYPE; UPLOAD_BODY_EXCEEDS_REMAINING_LENGTH; UPLOAD_CHECKPOINT_PERSIST_FAILED;
   UPLOAD_COMMITTED_LENGTH_MISMATCH; UPLOAD_CONCURRENCY_LIMIT; UPLOAD_ID_REJECTED;
   UPLOAD_IDLE_TIMEOUT; UPLOAD_IN_PROGRESS; UPLOAD_INSUFFICIENT_STORAGE;
   UPLOAD_LENGTH_CHANGED; UPLOAD_LENGTH_MISMATCH; UPLOAD_METADATA_PRESERVATION_REFUSED;
   UPLOAD_NOT_PUBLISHED; UPLOAD_OFFSET_CHANGED; UPLOAD_OUTCOME_UNKNOWN;
   UPLOAD_PATH_WAIT_TIMEOUT; UPLOAD_PRECOMMIT_FAILED; UPLOAD_PREFLIGHT_CONCURRENCY_LIMIT;
   UPLOAD_PUBLICATION_DURABILITY_UNKNOWN; UPLOAD_PUBLICATION_OUTCOME_UNKNOWN; UPLOAD_RESULT_UNKNOWN;
   UPLOAD_SESSION_CONFLICT; UPLOAD_SESSION_NOT_FOUND; UPLOAD_SESSION_STORE_FULL;
   UPLOAD_SIZE_LIMIT_EXCEEDED; UPLOAD_STAGE_CONFLICT; UPLOAD_STAGE_INVALID;
   UPLOAD_STATE_CONFLICT; UPLOAD_STATE_UNAVAILABLE; UPLOAD_TARGET_CHANGED;
   UPLOAD_TARGET_INSPECTION_TIMEOUT; UPLOAD_TARGET_NOT_FOUND; UPLOAD_TERMINAL_RECORD_FAILED].

Definition is_code_start (c : ascii) : bool := in_range 97 122 (byte_val c).
Definition is_code_byte (c : ascii) : bool :=
  in_range 97 122 (byte_val c) || in_range 48 57 (byte_val c) || (byte_val c =? 95).

(** The assertions of [ErrorCode::checked]. *)
Definition checked (value : bytes) : option bytes :=
  match value with
  | [] => None
  | first :: rest =>
      if (blen value <=? 64) && is_code_start first && forallb is_code_byte rest
      then Some value else None
  end.

End ErrorCode.
Import ErrorCode.

(** ** Public states of operations *)

Inductive OperationPublicState := OpRunning | OpSucceeded | OpFailed | OpRejected | OpUnknown.

#[export] Instance OperationPublicState_eq_dec : EqDecision OperationPublicState.
Proof. solve_decision. Defined.

Definition operation_wire_name (s : OperationPublicState) : bytes :=
  match s with
  | OpRunning => bs "running"
  | OpSucceeded => bs "succeeded"
  | OpFailed => bs "failed"
  | OpRejected => bs "rejected"
  | OpUnknown => bs "unknown"
  end.

(** ** Recovery advice *)

Inductive RecoveryAdvice :=
| NoAdvice
| Retry
| RetryAfterSeconds (seconds : Z)
| RetryWithNewId
| ResumeUpload
| QueryJob
| QueryUpload
| QueryUploadAfterSeconds (seconds : Z)
| RefreshTarget.

Definition advice_wire_name (a : RecoveryAdvice) : option bytes :=
  match a with
  | NoAdvice => None
  | Retry | RetryAfterSeconds _ => Some (bs "retry")
  | RetryWithNewId => Some (bs "retry_with_new_id")
  | ResumeUpload => Some (bs "resume_upload")
  | QueryJob => Some (bs "query_job")
  | QueryUpload | QueryUploadAfterSeconds _ => Some (bs "query_upload")
  | RefreshTarget => Some (bs "refresh_target")
  end.

Definition retry_after_seconds (a : RecoveryAdvice) : option Z :=
  match a with
  | RetryAfterSeconds seconds | QueryUploadAfterSeconds seconds => Some seconds
  | _ => None
  end.

(** ** Errors and their context *)

Record OperationProblemContext := mkOperationContext {
  oc_operation_id : bytes;
  oc_state : OperationPublicState;
  oc_http_status : option Z
}.

Record UploadProblemContext := mkUploadContext {
  uc_upload_id : bytes;
  uc_state : UploadPublicState;
  uc_upload_length : option Z;
  uc_upload_offset : option Z
}.

(** [source] is the diagnostic text, never published. *)
Record ApiError := mkApiError {
  ae_status : Z;
  ae_code : ErrorCode;
  ae_detail : bytes;
  ae_source : option bytes;
  ae_recovery : RecoveryAdvice;
  ae_operation : option OperationProblemContext;
  ae_upload : option UploadProblemContext
}.

Definition new_api_error (status : Z) (code : ErrorCode) (detail : bytes) : ApiError :=
  mkApiError status code detail None NoAdvice None None.

Definition with_recovery (e : ApiError) (recovery : RecoveryAdvice) : ApiError :=
  mkApiError (ae_status e) (ae_code e) (ae_detail e) (ae_source e) recovery
    (ae_operation e) (ae_upload e).

Definition with_operation (e : ApiError) (operation : OperationProblemContext) : ApiError :=
  mkApiError (ae_status e) (ae_code e) (ae_detail e) (ae_source e) (ae_recovery e)
    (Some operation) None.

Definition with_upload (e : ApiError) (upload : UploadProblemContext) : ApiError :=
  mkApiError (ae_status e) (ae_code e) (ae_detail e) (ae_source e) (ae_recovery e)
    None (Some upload).

(** [Display for ApiError]: for logs. *)
Definition display_api_error (e : ApiError) : bytes :=
  match ae_source e with Some source => source | None => ae_detail e end.

(** ** The problem document *)

Record ProblemDetails := mkProblem {
  pd_type : bytes;
  pd_title : bytes;
  pd_status : Z;
  pd_detail : bytes;
  pd_code : ErrorCode;
  pd_recovery : option bytes;
  pd_retry_after : option Z;
  pd_operation_id : option bytes;
  pd_upload_id : option bytes;
  pd_state : option bytes;
  pd_upload_state : option bytes;
  pd_http_status : option Z;
  pd_upload_length : option Z;
  pd_upload_offset : option Z
}.

(** The derived [Serialize]. *)
Definition problem_json (p : ProblemDetails) : Json :=
  JObject
    ([("type"%string, JString (pd_type p));
      ("title"%string, JString (pd_title p));
      ("status"%string, JNumber (pd_status p));
      ("detail"%string, JString (pd_detail p));
      ("code"%string, JString (as_str (pd_code p)))] ++
     optional JString "recovery" (pd_recovery p) ++
     optional JNumber "retry_after" (pd_retry_after p) ++
     optional JString "operation_id" (pd_operation_id p) ++
     optional JString "upload_id" (pd_upload_id p) ++
     optional JString "state" (pd_state p) ++
     optional JString "upload_state" (pd_upload_state p) ++
     optional JNumber "http_status" (pd_http_status p) ++
     optional JNumber "upload_length" (pd_upload_length p) ++
     optional JNumber "upload_offset" (pd_upload_offset p)).

Definition CONTENT_TYPE : bytes := bs "content-type".
Definition RETRY_AFTER : bytes := bs "retry-after".

Section render.
Context `{HttpTypes}.

(** [ProblemDetails::from]; [None] is the panic on two contexts. *)
Definition problem_from (e : ApiError) : option ProblemDetails :=
  let document operation_id upload_id state upload_state http_status upload_length upload_offset :=
    mkProblem (bs "urn:dufs:problem:" ++ as_str (ae_code e))
      (default (bs "Request Failed") (canonical_reason (ae_status e)))
      (ae_status e) (ae_detail e) (ae_code e)
      (advice_wire_name (ae_recovery e)) (retry_after_seconds (ae_recovery e))
      operation_id upload_id state upload_state http_status upload_length upload_offset in
  match ae_operation e, ae_upload e with
  | Some o, None =>
      Some (document (Some (oc_operation_id o)) None (Some (operation_wire_name (oc_state o))) None
              (oc_http_status o) None None)
  | None, Some u =>
      Some (document None (Some (uc_upload_id u)) None (Some (wire_name (uc_state u)))
              None (uc_upload_length u) (uc_upload_offset u))
  | None, None => Some (document None None None None None None None)
  | Some _, Some _ => None
  end.

Definition render_problem (res : Response) (e : ApiError) : result Failure Response :=
  output ← ok_or (problem_from e) Panic;
  let res := with_status res (ae_status e) in
  let res := with_header res CONTENT_TYPE (bs "application/problem+json") in
  headers ← match retry_after_seconds (ae_recovery e) with
            | Some seconds => try (set_header (res_headers res) RETRY_AFTER (u64_to_string seconds))
            | None => Ok (remove_header (res_headers res) RETRY_AFTER)
            end;
  Ok (with_body (with_headers res headers) (JsonBody (problem_json output))).
End render.

(** ** Failures at the service boundary *)

(** The kinds of [std::io::Error] that are told apart. *)
Inductive IoErrorKind :=
| NotFound | NotADirectory | PermissionDenied | AlreadyExists | InvalidInput | InvalidData
| TimedOut | StorageFull | QuotaExceeded | UnexpectedEof
| OtherKind (name : bytes).

#[export] Instance IoErrorKind_eq_dec : EqDecision IoErrorKind.
Proof. solve_decision. Defined.

Definition kind_debug (kind : IoErrorKind) : bytes :=
  match kind with
  | NotFound => bs "NotFound" | NotADirectory => bs "NotADirectory"
  | PermissionDenied => bs "PermissionDenied" | AlreadyExists => bs "AlreadyExists"
  | InvalidInput => bs "InvalidInput" | InvalidData => bs "InvalidData"
  | TimedOut => bs "TimedOut" | StorageFull => bs "StorageFull"
  | QuotaExceeded => bs "QuotaExceeded" | UnexpectedEof => bs "UnexpectedEof"
  | OtherKind name => name
  end.

(** A [std::io::Error]: its kind, its [raw_os_error] and its text. *)
Record IoError := mkIoError {
  io_kind : IoErrorKind;
  io_raw_os_error : option Z;
  io_text : bytes
}.

(** [std::io::Error::new] and [other]. *)
Definition io_new (kind : IoErrorKind) (text : bytes) : IoError := mkIoError kind None text.
Definition io_other (text : bytes) : IoError := io_new (OtherKind (bs "Other")) text.

(** One error of an [anyhow] chain: its text, and its kind if it is a
    [std::io::Error]. *)
Record Cause := mkCause { cause_text : bytes; cause_io : option IoErrorKind }.

Record AppError := mkAppError {
  app_status : Z;
  app_public_message : bytes;
  app_source : option (list Cause)
}.

Definition app_public (status : Z) (message : bytes) : AppError := mkAppError status message None.

Definition app_internal (source : list Cause) : AppError :=
  mkAppError 500 (bs "Internal Server Error") (Some source).

(** The first [std::io::Error] of the chain. *)
Fixpoint find_io (chain : list Cause) : option IoErrorKind :=
  match chain with
  | [] => None
  | c :: chain => match cause_io c with Some k => Some k | None => find_io chain end
  end.

Definition from_anyhow (source : list Cause) : AppError :=
  match find_io source with
  | None => app_internal source
  | Some (NotFound | NotADirectory) => mkAppError 404 (bs "Not Found") (Some source)
  | Some PermissionDenied => mkAppError 403 (bs "Forbidden") (Some source)
  | Some AlreadyExists => mkAppError 409 (bs "Conflict") (Some source)
  | Some InvalidInput => mkAppError 400 (bs "Invalid request") (Some source)
  | Some TimedOut => mkAppError 504 (bs "Filesystem operation timed out") (Some source)
  | Some (StorageFull | QuotaExceeded) => mkAppError 507 (bs "Insufficient storage") (Some source)
  | Some _ => app_internal source
  end.

(** ** Facts *)

Lemma checked_Some value v :
  checked value = Some v <->
  v = value /\ 1 <= blen value <= 64 /\
  (exists first, head value = Some first /\ is_code_start first = true) /\
  Forall (λ c, is_code_byte c = true) value.
Proof.
  unfold checked. destruct value as [|first rest]; [cbn; naive_solver lia|].
  assert (Hs : is_code_start first = true -> is_code_byte first = true).
  { unfold is_code_start, is_code_byte. by intros ->. }
  destruct (blen (first :: rest) <=? 64) eqn:El, (is_code_start first) eqn:Ef,
    (forallb is_code_byte rest) eqn:Er; cbn [andb].
  2-8: split; [done|]; intros (_ & Hl & (f & Hf & Hfs) & Hall); cbn in Hf; injection Hf as <-;
    inversion Hall as [|? ? ? Hrest]; subst; apply (forallb_Forall_true is_code_byte) in Hrest;
    bool_prop; congruence || lia.
  apply Z.leb_le in El. apply forallb_Forall_true in Er. split; [|intros (-> & _); done].
  intros [= <-]. split; [done|]. split; [unfold blen in *; cbn in *; lia|].
  split; [by eexists|]. constructor; [by apply Hs|done].
Qed.

Lemma ALL_complete c : c ∈ ALL.
Proof. destruct c; unfold ALL; repeat (apply list_elem_of_here || apply list_elem_of_further). Qed.

(** The code of a wire name. *)
Definition from_wire (s : bytes) : option ErrorCode := List.find (λ c, beqb (as_str c) s) ALL.

Lemma from_wire_as_str c : from_wire (as_str c) = Some c.
Proof. destruct c; vm_compute; reflexivity. Qed.

#[export] Instance as_str_inj : Inj (=) (=) as_str.
Proof. intros a b H. pose proof (from_wire_as_str a) as Ha. rewrite H, from_wire_as_str in Ha. congruence. Qed.

Lemma codes_checked c : checked (as_str c) = Some (as_str c).
Proof. destruct c; vm_compute; reflexivity. Qed.

#[export] Instance ErrorCode_eq_dec : EqDecision ErrorCode.
Proof.
  intros a b. destruct (decide (as_str a = as_str b)) as [H|H]; [left; by apply as_str_inj|right].
  by intros ->.
Defined.

(** The errors the code can build: [ApiError] has no other constructors. *)
Inductive built : ApiError -> Prop :=
| built_new status code detail : built (new_api_error status code detail)
| built_recovery e a : built e -> built (with_recovery e a)
| built_operation e c : built e -> built (with_operation e c)
| built_upload e c : built e -> built (with_upload e c).

#[export] Hint Constructors built : dufs.

Lemma built_one_context e : built e -> ae_operation e = None \/ ae_upload e = None.
Proof. induction 1; cbn; auto. Qed.

(** An error with its diagnostic replaced. *)
Definition with_diagnostic (e : ApiError) (source : option bytes) : ApiError :=
  mkApiError (ae_status e) (ae_code e) (ae_detail e) source (ae_recovery e) (ae_operation e) (ae_upload e).

Lemma problem_fields p :
  json_field "status" (problem_json p) = Some (JNumber (pd_status p)) /\
  json_field "code" (problem_json p) = Some (JString (as_str (pd_code p))) /\
  json_field "detail" (problem_json p) = Some (JString (pd_detail p)) /\
  json_field "recovery" (problem_json p) = JString <$> pd_recovery p /\
  json_field "retry_after" (problem_json p) = JNumber <$> pd_retry_after p /\
  json_field "operation_id" (problem_json p) = JString <$> pd_operation_id p /\
  json_field "upload_id" (problem_json p) = JString <$> pd_upload_id p.
Proof.
  destruct p as [ty ti st de co re ra oi ui s us hs ul uo]. unfold problem_json. cbn [pd_type pd_title
    pd_status pd_detail pd_code pd_recovery pd_retry_after pd_operation_id pd_upload_id pd_state
    pd_upload_state pd_http_status pd_upload_length pd_upload_offset].
  split_and!; [reflexivity..| | | |].
  all: destruct re; try reflexivity; destruct ra; try reflexivity; destruct oi; try reflexivity;
    destruct ui; try reflexivity; destruct s, us, hs, ul, uo; reflexivity.
Qed.

Section rendering.
Context `{HttpTypesLaws}.

Lemma set_retry_after h o :
  (forall s, o = Some s -> u64_range s) ->
  exists h', match o with
    | Some seconds => try (set_header h RETRY_AFTER (u64_to_string seconds))
    | None => Ok (remove_header h RETRY_AFTER)
    end = Ok h' /\
    get_all h' RETRY_AFTER = option_list (u64_to_string <$> o) /\
    forall k, k <> RETRY_AFTER -> get_all h' k = get_all h k.
Proof.
  intros Ho. destruct o as [s|].
  - unfold set_header. rewrite from_str_visible by (apply u64_to_string_visible; auto).
    eexists. split; [done|]. split; [apply get_all_insert|]. intros k Hk. by apply get_all_insert_ne.
  - eexists. split; [done|]. split; [apply get_all_remove|]. intros k Hk. by apply get_all_remove_ne.
Qed.

Lemma render_problem_ok res e :
  built e ->
  (forall s, retry_after_seconds (ae_recovery e) = Some s -> u64_range s) ->
  exists res' document,
    render_problem res e = Ok res' /\
    res_status res' = ae_status e /\
    header res' CONTENT_TYPE = [bs "application/problem+json"] /\
    header res' RETRY_AFTER = option_list (u64_to_string <$> retry_after_seconds (ae_recovery e)) /\
    (forall k, k <> CONTENT_TYPE -> k <> RETRY_AFTER -> header res' k = header res k) /\
    res_body res' = JsonBody document /\
    json_field "status" document = Some (JNumber (ae_status e)) /\
    json_field "code" document = Some (JString (as_str (ae_code e))) /\
    json_field "detail" document = Some (JString (ae_detail e)) /\
    json_field "recovery" document = JString <$> advice_wire_name (ae_recovery e) /\
    json_field "retry_after" document = JNumber <$> retry_after_seconds (ae_recovery e) /\
    (json_field "operation_id" document = None \/ json_field "upload_id" document = None) /\
    (forall source, render_problem res (with_diagnostic e source) = Ok res').
Proof.
  intros Hb Hs.
  assert (Hd : exists p, problem_from e = Some p /\ pd_status p = ae_status e /\
    pd_code p = ae_code e /\ pd_detail p = ae_detail e /\
    pd_recovery p = advice_wire_name (ae_recovery e) /\
    pd_retry_after p = retry_after_seconds (ae_recovery e) /\
    (pd_operation_id p = None \/ pd_upload_id p = None)).
  { unfold problem_from. destruct (built_one_context e Hb) as [Ho|Hu].
    - rewrite Ho. destruct (ae_upload e); eexists; (split; [done|]); cbn; auto 10.
    - rewrite Hu. destruct (ae_operation e); eexists; (split; [done|]); cbn; auto 10. }
  destruct Hd as (p & Hp & H1 & H2 & H3 & H4 & H5 & H6).
  assert (Hdiag : forall source, render_problem res (with_diagnostic e source) = render_problem res e) by done.
  setoid_rewrite Hdiag. unfold render_problem. rewrite Hp. cbn [ok_or mbind result_bind].
  destruct (set_retry_after (res_headers (with_header (with_status res (ae_status e)) CONTENT_TYPE
    (bs "application/problem+json"))) (retry_after_seconds (ae_recovery e)) Hs) as (h & -> & Hr & Hk).
  eexists _, (problem_json p). split; [done|].
  destruct (problem_fields p) as (F1 & F2 & F3 & F4 & F5 & F6 & F7). unfold header.
  cbn [res_status res_headers res_body with_body with_headers with_header with_status] in *.
  split; [done|]. split; [rewrite Hk by done; apply get_all_insert|]. split; [done|].
  split; [intros k Hk1 Hk2; rewrite Hk by done; by apply get_all_insert_ne|].
  split; [done|]. rewrite F1, F2, F3, F4, F5, F6, F7, H1, H2, H3, H4, H5.
  split_and!; [done..| |done]. by destruct H6 as [->| ->]; [left|right].
Qed.
(** Every error the code can build is rendered: the status is the error's,
    the document carries its code, detail and, together with the Retry-After
    header, its advice; at most one of an operation and an upload is described;
    other headers stay; and nothing of the diagnostic source is published. *)
Theorem problems_are_rendered res e :
  built e ->
  (forall s, retry_after_seconds (ae_recovery e) = Some s -> u64_range s) ->
  exists res' document,
    render_problem res e = Ok res' /\
    res_status res' = ae_status e /\
    header res' CONTENT_TYPE = [bs "application/problem+json"] /\
    header res' RETRY_AFTER = option_list (u64_to_string <$> retry_after_seconds (ae_recovery e)) /\
    (forall k, k <> CONTENT_TYPE -> k <> RETRY_AFTER -> header res' k = header res k) /\
    res_body res' = JsonBody document /\
    json_field "status" document = Some (JNumber (ae_status e)) /\
    json_field "code" document = Some (JString (as_str (ae_code e))) /\
    json_field "detail" document = Some (JString (ae_detail e)) /\
    json_field "recovery" document = JString <$> advice_wire_name (ae_recovery e) /\
    json_field "retry_after" document = JNumber <$> retry_after_seconds (ae_recovery e) /\
    (json_field "operation_id" document = None \/ json_field "upload_id" document = None) /\
    (forall source, render_problem res (with_diagnostic e source) = Ok res').
Proof. apply render_problem_ok. Qed.
End rendering.

Lemma problems_are_rendered_witness :
  let e := with_operation
    (with_recovery (new_api_error 503 OPERATION_REGISTRY_FULL (bs "Operation registry is temporarily full"))
       (RetryAfterSeconds 1))
    (mkOperationContext (bs "00112233-4455-6677-8899-aabbccddeeff") OpRejected None) in
  exists res' document,
    @render_problem list_http (@default_response list_http) e = Ok res' /\
    @header list_http res' RETRY_AFTER = [bs "1"] /\ res_body res' = JsonBody document /\
    json_field "code" document = Some (JString (bs "operation_registry_full")).
Proof.
  intros e.
  destruct (@problems_are_rendered list_http list_http_laws (@default_response list_http) e)
    as (res' & document & H1 & _ & _ & H2 & _ & H3 & _ & H4 & _).
  - unfold e. auto with dufs.
  - intros s [= <-]. vm_compute. split; discriminate.
  - exists res', document. split; [exact H1|]. split; [exact H2|]. split; [exact H3|exact H4].
Defined.

(** What a failed request tells its client depends only on the kind of the
    first I/O error of the chain: not-found kinds are 404, a refused access 403,
    and so on, and everything else is 500; the message is one of eight fixed
    texts, whatever the chain says, and the whole chain is kept for the log. *)
Theorem service_errors_do_not_leak source source' :
  find_io source = find_io source' ->
  app_status (from_anyhow source) = app_status (from_anyhow source') /\
  app_public_message (from_anyhow source) = app_public_message (from_anyhow source') /\
  app_source (from_anyhow source) = Some source /\
  (400 <= app_status (from_anyhow source) <= 599) /\
  (app_status (from_anyhow source) = 404 <->
     find_io source = Some NotFound \/ find_io source = Some NotADirectory) /\
  (app_status (from_anyhow source) = 507 <->
     find_io source = Some StorageFull \/ find_io source = Some QuotaExceeded).
Proof.
  intros Heq. unfold from_anyhow. rewrite <-Heq.
  destruct (find_io source) as [[]|]; cbn; naive_solver lia.
Qed.

Lemma service_errors_do_not_leak_witness :
  let chain := [mkCause (bs "listing /srv/private") None; mkCause (bs "No such file") (Some NotFound)] in
  let other := [mkCause (bs "x") (Some NotFound)] in
  app_public_message (from_anyhow chain) = app_public_message (from_anyhow other) /\
  app_status (from_anyhow chain) = 404.
Proof.
  intros chain other. destruct (service_errors_do_not_leak chain other eq_refl) as (_ & H & _ & _ & H' & _).
  split; [exact H|]. apply H'. left. reflexivity.
Defined.
