(* ===== verification/InternalNames.v ===== *)
(** The names of the server's own entries inside the shared tree
    ([src/src/server/internal_names.rs]): upload stages, readiness probes,
    deletion trash and quarantine.

    SHA-256 and [OsStr::to_string_lossy] are parameters: the theorems need of
    the first only that a digest has 32 bytes and of the second nothing. *)

From S2P Require Import Prelude Bytes StdPath Utils UuidText.
From stdpp Require Import base numbers list strings.
From Stdlib Require Import Ascii.

Local Open Scope Z_scope.

Definition UPLOAD_TEMP_PREFIX : bytes := bs ".dufs-upload-".
Definition UPLOAD_TEMP_SUFFIX : bytes := bs ".part".
Definition UPLOAD_STAGE_DIRECTORY : bytes := bs ".dufs-upload-stages".
Definition READINESS_PREFIX : bytes := bs ".dufs-readiness-".
Definition READINESS_SUFFIX : bytes := bs ".probe".
Definition DELETE_TRASH_PREFIX : bytes := bs ".dufs-upload-delete-".
Definition DELETE_TRASH_SUFFIX : bytes := bs ".trash".
Definition QUARANTINE_PREFIX : bytes := bs ".dufs-quarantine-".
Definition QUARANTINE_SUFFIX : bytes := bs ".hold".

(** [str::get(a..b)]: [None] out of range or inside a character. *)
Definition is_char_boundary (s : bytes) (n : nat) : bool :=
  match s !! n with
  | Some c => negb (in_range 128 191 (byte_val c))
  | None => Nat.eqb n (length s)
  end.
Definition str_get (s : bytes) (a b : nat) : option bytes :=
  if is_char_boundary s a && is_char_boundary s b && (a <=? b)%nat
  then Some (take (b - a) (drop a s)) else None.

Inductive InternalEntryName := StageDirectory | Readiness | DeleteTrash | Quarantine.

#[export] Instance InternalEntryName_eq_dec : EqDecision InternalEntryName.
Proof. solve_decision. Defined.

Section names.
Context `{UuidLib}.

Definition upload_stage_name (target_tag upload_id : bytes) : bytes :=
  UPLOAD_TEMP_PREFIX ++ target_tag ++ [minus_byte] ++ uuid_to_string upload_id ++ UPLOAD_TEMP_SUFFIX.
Definition upload_readiness_probe_name (upload_id : bytes) : bytes :=
  READINESS_PREFIX ++ uuid_to_string upload_id ++ READINESS_SUFFIX.
Definition delete_trash_name (trash_id : bytes) : bytes :=
  DELETE_TRASH_PREFIX ++ uuid_to_string trash_id ++ DELETE_TRASH_SUFFIX.
Definition quarantine_name (quarantine_id : bytes) : bytes :=
  QUARANTINE_PREFIX ++ uuid_to_string quarantine_id ++ QUARANTINE_SUFFIX.

Definition is_canonical_uuid (value : bytes) : bool :=
  match uuid_parse_str value with
  | Some uuid => beqb (uuid_to_string uuid) value
  | None => false
  end.

(** [strip_prefix], [strip_suffix] and a test of what is between. *)
Definition is_enclosed (prefix suffix : bytes) (test : bytes -> bool) (file_name : bytes) : bool :=
  match str_strip_prefix prefix file_name with
  | Some value => match str_strip_suffix suffix value with
                  | Some value => test value
                  | None => false
                  end
  | None => false
  end.

Definition is_readiness_name : bytes -> bool :=
  is_enclosed READINESS_PREFIX READINESS_SUFFIX is_canonical_uuid.
Definition is_delete_trash_name : bytes -> bool :=
  is_enclosed DELETE_TRASH_PREFIX DELETE_TRASH_SUFFIX is_canonical_uuid.
Definition is_quarantine_name : bytes -> bool :=
  is_enclosed QUARANTINE_PREFIX QUARANTINE_SUFFIX is_canonical_uuid.

Definition stage_value_ok (value : bytes) : bool :=
  match str_get value 0 64 with
  | None => false
  | Some target_tag =>
      if negb (forallb (λ byte, is_ascii_digit byte || is_lower_af byte) target_tag) then false
      else match str_get value 64 65 with
           | Some sep => beqb sep [minus_byte]
           | None => false
           end &&
           match str_get value 65 (length value) with
           | Some uuid => is_canonical_uuid uuid
           | None => false
           end
  end.
Definition is_upload_stage_name : bytes -> bool :=
  is_enclosed UPLOAD_TEMP_PREFIX UPLOAD_TEMP_SUFFIX stage_value_ok.

Definition classify_internal_name (file_name : bytes) : option InternalEntryName :=
  if beqb file_name UPLOAD_STAGE_DIRECTORY then Some StageDirectory
  else if is_quarantine_name file_name then Some Quarantine
  else if is_delete_trash_name file_name then Some DeleteTrash
  else if is_readiness_name file_name then Some Readiness
  else None.

Definition is_internal_name (file_name : bytes) : bool :=
  match classify_internal_name file_name with Some _ => true | None => false end.

Definition upload_stage_directory (path : bytes) : option bytes :=
  directory ← path_parent path;
  name ← path_file_name directory;
  if is_utf8 name && beqb name UPLOAD_STAGE_DIRECTORY then Some directory else None.

Section stages.
Context (sha256 : bytes -> bytes) (to_string_lossy : bytes -> bytes).

Definition upload_temp_path (path upload_id : bytes) : result string bytes :=
  parent ← ok_or (path_parent path) "Upload target has no parent directory"%string;
  file_name ← ok_or (path_file_name path) "Upload target has no file name"%string;
  let target_tag := encode_hex (sha256 (to_string_lossy file_name)) in
  Ok (path_push (path_push parent UPLOAD_STAGE_DIRECTORY) (upload_stage_name target_tag upload_id)).

Definition is_upload_temp_path (target upload_id stage : bytes) : result string bool :=
  path ← upload_temp_path target upload_id;
  Ok (path_eqb path stage).
End stages.
End names.

(** ** Facts *)

Section facts.
Context `{UuidLaws}.

Lemma is_canonical_uuid_spec s :
  is_canonical_uuid s = true <-> exists id, blen id = 16 /\ s = uuid_to_string id.
Proof.
  unfold is_canonical_uuid. split.
  - destruct (uuid_parse_str s) as [id|] eqn:E; [|done]. intros Hs%beqb_true. exists id.
    split; [by eapply uuid_parse_length|done].
  - intros (id & Hid & ->). rewrite uuid_roundtrip by done. apply beqb_refl.
Qed.

Lemma is_enclosed_spec p q test s :
  is_enclosed p q test s = true <-> exists v, s = p ++ v ++ q /\ test v = true.
Proof.
  unfold is_enclosed. split.
  - destruct (str_strip_prefix p s) as [v|] eqn:Ep; [|done].
    destruct (str_strip_suffix q v) as [u|] eqn:Eq; [|done].
    apply str_strip_prefix_Some in Ep. apply str_strip_suffix_Some in Eq. intros Ht. subst. eauto.
  - intros (v & -> & Ht).
    rewrite (proj2 (str_strip_prefix_Some p (p ++ v ++ q) (v ++ q))) by done.
    by rewrite (proj2 (str_strip_suffix_Some q (v ++ q) v)).
Qed.

Lemma enclosed_uuid_spec p q s :
  is_enclosed p q is_canonical_uuid s = true <->
  exists id, blen id = 16 /\ s = p ++ uuid_to_string id ++ q.
Proof.
  rewrite is_enclosed_spec. setoid_rewrite is_canonical_uuid_spec. naive_solver.
Qed.

Lemma uuid_length id : blen id = 16 -> length (uuid_to_string id) = 36%nat.
Proof.
  intros Hid. pose proof (uuid_text id Hid) as Ht. unfold uuid_text_ok in Ht.
  apply andb_true_iff in Ht as [Hl%Z.eqb_eq _]. unfold blen in Hl. lia.
Qed.

Lemma uuid_inj id id' : blen id = 16 -> blen id' = 16 -> uuid_to_string id = uuid_to_string id' -> id = id'.
Proof.
  intros H1 H2 E. pose proof (uuid_roundtrip id H1) as E1. rewrite E, uuid_roundtrip in E1 by done.
  by injection E1.
Qed.

(** ** Stage names *)

Lemma is_char_boundary_le s n : is_char_boundary s n = true -> (n <= length s)%nat.
Proof.
  unfold is_char_boundary. destruct (s !! n) eqn:E.
  - intros _. apply lookup_lt_Some in E. lia.
  - intros H1%Nat.eqb_eq. lia.
Qed.

(** No byte of a canonical UUID or of a lowercase hexadecimal tag continues a
    character. *)
Lemma is_char_boundary_ascii s n c : s !! n = Some c -> byte_val c < 128 -> is_char_boundary s n = true.
Proof.
  intros Hs Hc. unfold is_char_boundary. rewrite Hs. apply negb_true_iff, in_range_false. by left.
Qed.

Lemma lower_hex_ascii c : is_lower_hex c = true -> byte_val c < 128.
Proof.
  unfold is_lower_hex, is_ascii_digit, is_lower_af. rewrite orb_true_iff, !in_range_true. lia.
Qed.

Lemma uuid_head id : blen id = 16 -> exists c u, uuid_to_string id = c :: u /\ byte_val c < 128.
Proof.
  intros Hid. pose proof (uuid_text id Hid) as Ht. pose proof (uuid_length id Hid) as Hl.
  destruct (uuid_to_string id) as [|c u]; [done|]. exists c, u. split; [done|].
  unfold uuid_text_ok in Ht. apply andb_true_iff in Ht as [_ Ht]. cbn in Ht.
  apply andb_true_iff in Ht as [Ht _]. apply lower_hex_ascii, Ht.
Qed.

Lemma str_get_Some s a b r :
  str_get s a b = Some r <->
  is_char_boundary s a = true /\ is_char_boundary s b = true /\ (a <= b)%nat /\ r = take (b - a) (drop a s).
Proof.
  unfold str_get. destruct (is_char_boundary s a), (is_char_boundary s b), (Nat.leb_spec a b); cbn; naive_solver lia.
Qed.

Lemma stage_value_spec v :
  stage_value_ok v = true <->
  exists tag id, length tag = 64%nat /\ Forall (λ c, is_lower_hex c = true) tag /\ blen id = 16 /\
    v = tag ++ [minus_byte] ++ uuid_to_string id.
Proof.
  unfold stage_value_ok. split.
  - destruct (str_get v 0 64) as [tag|] eqn:E1; [|done].
    destruct (forallb _ tag) eqn:Hf; cbn [negb]; [|done]. intros [H2 H3]%andb_true_iff.
    destruct (str_get v 64 65) as [sep|] eqn:E2; [|done]. apply beqb_true in H2 as ->.
    destruct (str_get v 65 (length v)) as [u|] eqn:E3; [|done].
    apply str_get_Some in E1 as (_ & B64 & _ & ->). apply str_get_Some in E2 as (_ & B65 & _ & E2).
    apply str_get_Some in E3 as (_ & _ & _ & ->). apply is_canonical_uuid_spec in H3 as (id & Hid & Hu).
    apply is_char_boundary_le in B64, B65. exists (take 64 v), id. cbn [Nat.sub] in *. rewrite drop_0 in *.
    split; [rewrite length_take; lia|]. split; [by apply forallb_Forall_true in Hf|]. split; [done|].
    rewrite <- Hu. rewrite (take_ge (drop 65 v)) by (rewrite length_drop; lia).
    change (65 - 64)%nat with 1%nat in E2.
    rewrite E2. change 65%nat with (64 + 1)%nat. rewrite <- drop_drop, take_drop. by rewrite take_drop.
  - intros (tag & id & Hl & Hf & Hid & ->). destruct (uuid_head id Hid) as (c & u & Hu & Hc).
    set (v := tag ++ [minus_byte] ++ uuid_to_string id).
    assert (is_char_boundary v 0 = true) as B0.
    { destruct tag as [|t0 tag]; [done|]. apply Forall_cons in Hf as [Ht0 _].
      by apply (is_char_boundary_ascii v 0 t0), lower_hex_ascii. }
    assert (is_char_boundary v 64 = true) as B64.
    { apply (is_char_boundary_ascii v 64 minus_byte); [|vm_compute; reflexivity].
      unfold v. by rewrite lookup_app_r, Hl by lia. }
    assert (is_char_boundary v 65 = true) as B65.
    { apply (is_char_boundary_ascii v 65 c); [|done].
      unfold v. rewrite lookup_app_r, Hl by lia. cbn. by rewrite Hu. }
    assert (is_char_boundary v (length v) = true) as Bn.
    { unfold is_char_boundary. rewrite (proj2 (lookup_ge_None v (length v))) by lia. by apply Nat.eqb_eq. }
    assert (length v = 101%nat) as Hlen by (unfold v; by rewrite !length_app, Hl, (uuid_length id Hid)).
    rewrite (proj2 (str_get_Some v 0 64 tag)).
    2:{ repeat split; [done..|lia|]. unfold v. by rewrite drop_0, take_app_length'. }
    rewrite (proj2 (forallb_Forall_true is_lower_hex tag) Hf : forallb (λ byte, _) tag = true). cbn [negb].
    rewrite (proj2 (str_get_Some v 64 65 [minus_byte])).
    2:{ repeat split; [done..|lia|]. unfold v. by rewrite drop_app_length'. }
    rewrite (proj2 (str_get_Some v 65 (length v) (uuid_to_string id))).
    2:{ repeat split; [done..|lia|]. rewrite Hlen. unfold v. rewrite app_assoc, drop_app_length'
          by (rewrite length_app, Hl; done). by rewrite take_ge by (rewrite (uuid_length id Hid); done). }
    rewrite beqb_refl. apply is_canonical_uuid_spec. eauto.
Qed.

(** ** The internal names *)

(** At most one test succeeds. *)
Lemma internal_names_disjoint s :
  (s = UPLOAD_STAGE_DIRECTORY ->
     is_quarantine_name s = false /\ is_delete_trash_name s = false /\ is_readiness_name s = false) /\
  (is_delete_trash_name s = true -> is_quarantine_name s = false) /\
  (is_readiness_name s = true -> is_quarantine_name s = false /\ is_delete_trash_name s = false).
Proof.
  split; [intros ->; done|]. split; intros (id & _ & ->)%enclosed_uuid_spec; done.
Qed.

Lemma stage_name_spec s :
  is_upload_stage_name s = true <-> exists tag id, length tag = 64%nat /\
     Forall (λ c, is_lower_hex c = true) tag /\ blen id = 16 /\ s = upload_stage_name tag id.
Proof.
  unfold is_upload_stage_name, upload_stage_name. rewrite is_enclosed_spec.
  setoid_rewrite stage_value_spec. split.
  - intros (v & -> & tag & id & ? & ? & ? & ->). exists tag, id. by rewrite <- !app_assoc.
  - intros (tag & id & ? & ? & ? & ->). exists (tag ++ [minus_byte] ++ uuid_to_string id).
    rewrite <- !app_assoc. eauto 8.
Qed.

Lemma enclosed_inj p q id id' :
  blen id = 16 -> blen id' = 16 -> p ++ uuid_to_string id ++ q = p ++ uuid_to_string id' ++ q -> id = id'.
Proof. intros H1 H2 E%app_inv_head%app_inv_tail. by apply uuid_inj. Qed.

(** The server recognises exactly its own names.  A file name is classified
    as the stage directory, a quarantine entry, a trash entry or a readiness
    probe if and only if it is the name the server generates for that purpose,
    so the four kinds are disjoint and a user's file is never taken for one;
    a name is a stage name exactly when it was generated from a 64-digit target
    tag and an upload id; and no two identifiers share a name. *)
Theorem internal_names_are_exact s :
  (classify_internal_name s = Some StageDirectory <-> s = UPLOAD_STAGE_DIRECTORY) /\
  (classify_internal_name s = Some Quarantine <-> exists id, blen id = 16 /\ s = quarantine_name id) /\
  (classify_internal_name s = Some DeleteTrash <-> exists id, blen id = 16 /\ s = delete_trash_name id) /\
  (classify_internal_name s = Some Readiness <->
     exists id, blen id = 16 /\ s = upload_readiness_probe_name id) /\
  (is_upload_stage_name s = true <-> exists tag id, length tag = 64%nat /\
     Forall (λ c, is_lower_hex c = true) tag /\ blen id = 16 /\ s = upload_stage_name tag id) /\
  (forall id id', blen id = 16 -> blen id' = 16 ->
     (quarantine_name id = quarantine_name id' \/ delete_trash_name id = delete_trash_name id' \/
      upload_readiness_probe_name id = upload_readiness_probe_name id') -> id = id').
Proof.
  destruct (internal_names_disjoint s) as (D1 & D2 & D3).
  pose proof (enclosed_uuid_spec QUARANTINE_PREFIX QUARANTINE_SUFFIX s) as Hq.
  pose proof (enclosed_uuid_spec DELETE_TRASH_PREFIX DELETE_TRASH_SUFFIX s) as Hd.
  pose proof (enclosed_uuid_spec READINESS_PREFIX READINESS_SUFFIX s) as Hr.
  unfold quarantine_name, delete_trash_name, upload_readiness_probe_name.
  rewrite <- Hq, <- Hd, <- Hr. fold (is_quarantine_name s) (is_delete_trash_name s) (is_readiness_name s).
  rewrite stage_name_spec. clear Hq Hd Hr. rewrite <- (beqb_true s UPLOAD_STAGE_DIRECTORY) in *.
  unfold classify_internal_name. revert D1 D2 D3.
  generalize (beqb s UPLOAD_STAGE_DIRECTORY) (is_quarantine_name s) (is_delete_trash_name s)
    (is_readiness_name s). intros b q d r D1 D2 D3.
  split; [|split; [|split; [|split; [|split]]]].
  1-4: destruct b, q, d, r; clear - D1 D2 D3; naive_solver.
  - done.
  - intros id id' Hid Hid' [E|[E|E]]; by apply enclosed_inj in E.
Qed.
End facts.

Lemma internal_names_are_exact_witness :
  @classify_internal_name hex_uuid
    (bs ".dufs-upload-delete-00000000-0000-0000-0000-00000000004d.trash") = Some DeleteTrash.
Proof.
  destruct (@internal_names_are_exact hex_uuid hex_uuid_laws
    (bs ".dufs-upload-delete-00000000-0000-0000-0000-00000000004d.trash")) as (_ & _ & [_ H] & _).
  apply H. exists (be_bytes 16 77). split; vm_compute; reflexivity.
Defined.
