(* ===== verification/PathPolicy.v ===== *)
(** The lexical path policy ([src/src/server/path_policy.rs]): which request
    paths and JSON targets are accepted, and where in the shared tree they
    lead.  Route components are valid UTF-8, so [to_string_lossy] on them is the
    identity. *)

From S2P Require Import Prelude Bytes StdPath Utils UuidText InternalNames.
From stdpp Require Import base numbers list sets strings.
From Stdlib Require Import Ascii.

Local Open Scope Z_scope.

Definition BROWSER_COMPONENT_BYTES_LIMIT : Z := 255.
Definition BROWSER_RELATIVE_PATH_BYTES_LIMIT : Z := 4095.

Record PathPolicy := mkPolicy { root : bytes; assets_component : bytes }.

Definition new_policy (root assets_prefix : bytes) : PathPolicy :=
  {| root := root; assets_component := default assets_prefix (str_strip_suffix [slash] assets_prefix) |}.

Definition is_reserved_component (p : PathPolicy) (component : bytes) : bool :=
  beqb component (bs "__dufs__") || beqb component (assets_component p).

Section policy.
Context `{UuidLib} `{PercentEncoding}.

(** One component of a route. *)
Definition route_part (c : component) : option bytes :=
  match c with
  | Normal value =>
      if (BROWSER_COMPONENT_BYTES_LIMIT <? blen value) || is_internal_name value then None else Some value
  | _ => None
  end.

Definition parse_route (p : PathPolicy) (raw_path : bytes) : option bytes :=
  path ← decode_uri raw_path;
  if contains_byte nul_byte path then None
  else
    parts ← mapM route_part (components (trim_matches_byte slash path));
    let normalized := join_with [slash] parts in
    if BROWSER_RELATIVE_PATH_BYTES_LIMIT <? blen normalized then None
    else if match head (split_on slash normalized) with
            | Some component => is_reserved_component p component
            | None => false
            end && negb (beqb raw_path (slash :: encode_uri normalized))
    then None
    else Some normalized.

(** The loop of [parse_browser_target]; [first] is [index == 0]. *)
Fixpoint push_target (p : PathPolicy) (first : bool) (resolved : bytes) (parts : list bytes)
    : option bytes :=
  match parts with
  | [] => Some resolved
  | component :: parts =>
      if beqb component [] || beqb component dot || beqb component dotdot ||
         (BROWSER_COMPONENT_BYTES_LIMIT <? blen component) || is_internal_name component ||
         (first && is_reserved_component p component)
      then None
      else push_target p false (path_push resolved component) parts
  end.

Definition parse_browser_target (p : PathPolicy) (value : bytes) : option bytes :=
  relative ← str_strip_prefix [slash] value;
  if beqb relative [] || (BROWSER_RELATIVE_PATH_BYTES_LIMIT <? blen relative) ||
     contains_byte nul_byte relative
  then None
  else push_target p true (root p) (split_on slash relative).

Definition parse_list_target (p : PathPolicy) (value : bytes) : option bytes :=
  if beqb value [slash] then Some (root p) else parse_browser_target p value.

Definition resolve_route (p : PathPolicy) (path : bytes) : bytes :=
  if beqb path [] then root p else path_push (root p) path.

Definition is_managed_root (p : PathPolicy) (path : bytes) : bool := path_eqb path (root p).
End policy.

(** ** What an accepted path looks like *)

Section facts.
Context `{UuidLib}.

(** A name a user may address: an ordinary component that is not one of the
    server's own. *)
Definition ordinary (n : bytes) : Prop :=
  plain_piece n /\ n <> dotdot /\ (nul_byte ∉ n) /\
  blen n <= BROWSER_COMPONENT_BYTES_LIMIT /\ is_internal_name n = false.

Definition target_ok (p : PathPolicy) (names : list bytes) : Prop :=
  match names with
  | [] => False
  | n :: _ => Forall ordinary names /\ is_reserved_component p n = false
  end.

(** What [push] puts between a path and a relative one. *)
Definition separator (p : bytes) : bytes :=
  match last p with Some c => if bool_decide (c = slash) then [] else [slash] | None => [] end.

Lemma push_relative p q : has_root q = false -> path_push p q = p ++ separator p ++ q.
Proof.
  intros Hr. unfold path_push, separator. rewrite Hr.
  destruct (last p) as [c|] eqn:Hl; [by case_bool_decide|]. apply last_None in Hl as ->. done.
Qed.

Lemma plain_not_rooted n q : plain_piece n -> has_root (n ++ q) = false.
Proof.
  intros (Hne & _ & Hs). destruct n as [|c n]; [done|]. apply bool_decide_eq_false.
  intros ->. apply Hs. by apply list_elem_of_here.
Qed.

Lemma plain_separator p n : plain_piece n -> separator (p ++ n) = [slash].
Proof.
  intros (Hne & _ & Hs). unfold separator. destruct (last n) as [c|] eqn:Hl.
  - rewrite last_app, Hl. rewrite bool_decide_eq_false_2; [done|]. intros ->.
    apply Hs. apply last_Some in Hl as [l ->]. apply elem_of_app. right. by apply list_elem_of_here.
  - by apply last_None in Hl.
Qed.

(** Pushing names one by one is pushing their path. *)
Lemma push_names p n names :
  Forall plain_piece (n :: names) ->
  foldl path_push p (n :: names) = path_push p (join_with [slash] (n :: names)).
Proof.
  revert p n. induction names as [|m names IH]; intros p n Hf; [done|].
  apply Forall_cons in Hf as [Hn Hf]. pose proof Hf as [Hm _]%Forall_cons.
  change (foldl path_push p (n :: m :: names)) with (foldl path_push (path_push p n) (m :: names)).
  rewrite IH by done.
  change (join_with [slash] (n :: m :: names)) with (n ++ [slash] ++ join_with [slash] (m :: names)).
  assert (exists q, join_with [slash] (m :: names) = m ++ q) as [q ->].
  { destruct names; [exists []; by rewrite app_nil_r|by eexists]. }
  rewrite (push_relative p (n ++ _)) by by apply plain_not_rooted.
  rewrite (push_relative p n) by (rewrite <- (app_nil_r n); by apply plain_not_rooted).
  rewrite (push_relative _ (m ++ q)) by by apply plain_not_rooted.
  rewrite (app_assoc p (separator p) n), plain_separator by done. by rewrite <- !app_assoc.
Qed.

Lemma components_push_names p names :
  Forall (λ n, plain_piece n /\ n <> dotdot) names ->
  components (foldl path_push p names) = components p ++ (Normal <$> names).
Proof.
  intros Hf. rewrite <- components_push_tails.
  - by rewrite <- list_fmap_compose, list_fmap_id.
  - apply Forall_fmap. eapply Forall_impl; [exact Hf|done].
Qed.

Lemma ordinary_plain names :
  Forall ordinary names -> Forall (λ n, plain_piece n /\ n <> dotdot) names /\ Forall plain_piece names.
Proof.
  intros H1. split; (eapply Forall_impl; [exact H1|]); intros n (Hp & Hd & _); [exact (conj Hp Hd)|exact Hp].
Qed.

(** ** Targets *)

Lemma push_target_spec p first resolved parts q :
  Forall (λ w, (slash ∉ w) /\ (nul_byte ∉ w)) parts ->
  push_target p first resolved parts = Some q <->
  Forall ordinary parts /\ q = foldl path_push resolved parts /\
  (first = true -> forall n, head parts = Some n -> is_reserved_component p n = false).
Proof.
  intros Hf. revert first resolved. induction Hf as [|w parts [Hs Hn] _ IH]; intros first resolved;
    cbn [push_target foldl head].
  { split; [intros [=->]; by repeat split|]. by intros (_ & -> & _). }
  destruct (_ || _) eqn:Hb.
  - split; [done|]. intros (Ho & _ & Hr). exfalso.
    apply Forall_cons in Ho as [((? & ? & _) & ? & _ & Hl & Hi) _].
    rewrite Hi, (proj2 (beqb_false w []) ltac:(done)), (proj2 (beqb_false w dot) ltac:(done)),
      (proj2 (beqb_false w dotdot) ltac:(done)) in Hb.
    rewrite (proj2 (Z.ltb_ge _ _) Hl) in Hb. cbn in Hb. apply andb_true_iff in Hb as [-> Hb].
    by rewrite (Hr eq_refl w eq_refl) in Hb.
  - bool_prop. repeat match goal with H : beqb _ _ = false |- _ => apply beqb_false in H end.
    rewrite IH. split.
    + intros (Ho & -> & _). split; [|split; [done|]].
      * constructor; [|done]. by repeat split.
      * intros -> n [=<-]. by match goal with H : true = false \/ _ |- _ => destruct H end.
    + intros (Ho & -> & _). apply Forall_cons in Ho as [_ Ho]. by repeat split.
Qed.

Lemma join_elem (x c : ascii) ws w : w ∈ ws -> x ∈ w -> x ∈ join_with [c] ws.
Proof.
  induction ws as [|v ws IH]; [by intros ?%elem_of_nil|]. intros [->|Hw]%elem_of_cons Hx.
  - destruct ws; [done|]. apply elem_of_app. by left.
  - destruct ws as [|u ws]; [by apply elem_of_nil in Hw|].
    change (x ∈ v ++ [c] ++ join_with [c] (u :: ws)). rewrite !elem_of_app. by auto.
Qed.

Lemma split_elem (x c : ascii) s w : w ∈ split_on c s -> x ∈ w -> x ∈ s.
Proof. intros Hw Hx. rewrite <- (join_split c s). by eapply join_elem. Qed.

Lemma join_elem_inv (x c : ascii) ws : x ∈ join_with [c] ws -> x = c \/ exists w, w ∈ ws /\ x ∈ w.
Proof.
  induction ws as [|v ws IH]; [by intros ?%elem_of_nil|]. destruct ws as [|u ws].
  - intros Hx. right. exists v. split; [apply list_elem_of_here|done].
  - change (join_with [c] (v :: u :: ws)) with (v ++ [c] ++ join_with [c] (u :: ws)).
    rewrite !elem_of_app. intros [Hx|[->%list_elem_of_singleton|[?|(w & Hw & Hx)]%IH]]; [|by left|by left|].
    + right. exists v. split; [apply list_elem_of_here|done].
    + right. exists w. split; [by apply list_elem_of_further|done].
Qed.

Lemma ordinary_no_sep names : Forall ordinary names -> Forall (λ w, slash ∉ w) names.
Proof. intros H1. eapply Forall_impl; [exact H1|]. by intros n ((_ & _ & ?) & _). Qed.

Lemma ordinary_join_no_nul names : Forall ordinary names -> nul_byte ∉ join_with [slash] names.
Proof.
  intros H1 [?|(w & Hw & Hx)]%join_elem_inv; [done|]. rewrite Forall_forall in H1.
  by destruct (H1 w Hw) as (_ & _ & ? & _).
Qed.

Lemma parse_browser_target_spec p v q :
  parse_browser_target p v = Some q <->
  exists names, v = slash :: join_with [slash] names /\ target_ok p names /\
    blen (join_with [slash] names) <= BROWSER_RELATIVE_PATH_BYTES_LIMIT /\
    q = foldl path_push (root p) names.
Proof.
  unfold parse_browser_target. split.
  - destruct (str_strip_prefix [slash] v) as [relative|] eqn:Hv; cbn [mbind option_bind]; [|done].
    apply str_strip_prefix_Some in Hv as ->. destruct (_ || _) eqn:Hb; [done|]. bool_prop.
    assert (Forall (λ w, (slash ∉ w) /\ (nul_byte ∉ w)) (split_on slash relative)) as Hf.
    { apply Forall_forall. intros w Hw. split; [by eapply split_on_no_sep_piece|].
      intros Hx. unfold contains_byte in *. bool_prop.
      match goal with Hn : nul_byte ∉ _ |- _ => apply Hn end. by eapply split_elem. }
    rewrite (push_target_spec _ _ _ _ _ Hf). intros (Ho & -> & Hr).
    exists (split_on slash relative). rewrite join_split. repeat split; [|done].
    destruct (split_on slash relative) as [|n names] eqn:Es; [by apply split_on_not_nil in Es|].
    split; [done|]. by apply Hr.
  - intros (names & -> & Hok & Hlen & ->). destruct names as [|n names]; [done|].
    destruct Hok as [Ho Hr]. set (j := join_with [slash] (n :: names)) in *.
    cbn [str_strip_prefix]. rewrite bool_decide_eq_true_2 by done. cbn [mbind option_bind].
    assert (split_on slash j = n :: names) as Hsp
      by (apply split_join; [done|by apply ordinary_no_sep]).
    assert (beqb j [] = false) as ->.
    { apply beqb_false. intros E. rewrite E in Hsp. injection Hsp as <- _.
      apply Forall_cons in Ho as [((? & _) & _) _]. done. }
    rewrite (proj2 (Z.ltb_ge _ _) Hlen).
    assert (contains_byte nul_byte j = false) as ->
      by (apply bool_decide_eq_false; by apply ordinary_join_no_nul).
    cbn [orb]. rewrite Hsp. apply push_target_spec.
    + eapply Forall_impl; [exact Ho|]. by intros w ((_ & _ & ?) & _ & ? & _).
    + split; [done|]. split; [done|]. by intros _ ? [=<-].
Qed.

(** ** Routes *)

Lemma components_elem n x s : Normal n ∈ components s -> x ∈ n -> x ∈ s.
Proof.
  assert (forall b w, piece_component b w = Some (Normal n) -> w = n) as Hp.
  { intros b w. unfold piece_component.
    destruct (beqb w []); [done|]. destruct (beqb w dot); [by destruct b|].
    destruct (beqb w dotdot); [done|]. by intros [=->]. }
  assert (forall rooted ws, Normal n ∈ pieces_components rooted ws -> n ∈ ws) as Hin.
  { intros rooted [|w ws]; cbn; [by intros ?%elem_of_nil|]. intros Hn.
    assert (Normal n ∈ option_list (piece_component (negb rooted) w) ++
      omap id (piece_component false <$> ws)) as Hn' by (by destruct (piece_component (negb rooted) w)).
    apply elem_of_app in Hn' as [Hn'|Hn'].
    - destruct (piece_component (negb rooted) w) eqn:E; [|by apply elem_of_nil in Hn'].
      apply list_elem_of_singleton in Hn'. subst. apply Hp in E as ->. apply list_elem_of_here.
    - apply list_elem_of_omap in Hn' as (o & Ho & E). cbn in E. subst o.
      apply list_elem_of_fmap in Ho as (u & E & Hu). symmetry in E. apply Hp in E as ->.
      by apply list_elem_of_further. }
  unfold components, body_pieces. intros [Hn|Hn]%elem_of_app Hx.
  - destruct (has_root s); [apply list_elem_of_singleton in Hn; done|by apply elem_of_nil in Hn].
  - apply Hin in Hn. destruct s as [|c s]; cbn [has_root tail] in Hn.
    + by eapply split_elem.
    + case_bool_decide; [apply list_elem_of_further|]; by eapply split_elem.
Qed.

Lemma trim_elem x c s : x ∈ trim_matches_byte c s -> x ∈ s.
Proof.
  assert (forall l, x ∈ trim_start_byte c l -> x ∈ l) as Hs.
  { induction l as [|y l IH]; cbn; [done|]. case_bool_decide; [|done]. intros Hx.
    apply list_elem_of_further. by apply IH. }
  unfold trim_matches_byte. by intros Hx%elem_of_reverse%Hs%elem_of_reverse%Hs.
Qed.

Lemma route_part_Some c n :
  route_part c = Some n -> c = Normal n /\ blen n <= BROWSER_COMPONENT_BYTES_LIMIT /\
    is_internal_name n = false.
Proof.
  destruct c as [| | |v]; cbn; try done. destruct (_ || _) eqn:Hb; [done|]. intros [=<-].
  by bool_prop.
Qed.

Lemma route_parts_Some cs parts :
  mapM route_part cs = Some parts -> cs = Normal <$> parts /\
  Forall (λ n, blen n <= BROWSER_COMPONENT_BYTES_LIMIT /\ is_internal_name n = false) parts.
Proof.
  intros Hm%mapM_Some. induction Hm as [|c n cs parts Hc _ [-> IH]]; [done|].
  apply route_part_Some in Hc as (-> & Hn). split; [done|]. by constructor.
Qed.

Lemma route_parts_ordinary s parts :
  nul_byte ∉ s -> mapM route_part (components s) = Some parts -> Forall ordinary parts.
Proof.
  intros Hs Hm. apply route_parts_Some in Hm as [Hc Hok].
  destruct (components_shape s) as (hd & tl & E & Ht & Hh).
  assert (hd = []) as ->.
  { rewrite Hc in E. destruct Hh as [->|[->| ->]]; [done|..]; destruct parts; cbn in E; naive_solver. }
  cbn in E. rewrite Forall_forall in Hok. rewrite Forall_forall in Ht. apply Forall_forall. intros n Hn.
  assert (Normal n ∈ components s) as Hin by (rewrite Hc; by apply list_elem_of_fmap_2).
  destruct (Hok n Hn) as [? ?]. rewrite E in Hin. destruct (Ht _ Hin) as [? ?].
  rewrite <- E in Hin. split; [done|]. split; [done|]. split; [|by split].
  intros Hx. apply Hs. by eapply components_elem.
Qed.

Lemma resolve_route_names p names :
  Forall ordinary names ->
  components (resolve_route p (join_with [slash] names)) = components (root p) ++ (Normal <$> names).
Proof.
  intros Ho. destruct (ordinary_plain names Ho) as [Hpd Hp]. unfold resolve_route.
  destruct names as [|n names]; [change (join_with [slash] []) with (@nil ascii); by rewrite beqb_refl, app_nil_r|].
  assert (beqb (join_with [slash] (n :: names)) [] = false) as ->.
  { apply beqb_false. apply Forall_cons in Hp as [(Hne & _) _]. destruct names; [done|].
    by destruct n. }
  rewrite <- push_names by done. by apply components_push_names.
Qed.

Lemma components_names names :
  Forall ordinary names -> components (join_with [slash] names) = Normal <$> names.
Proof.
  intros Ho. destruct (ordinary_plain names Ho) as [Hpd Hp]. destruct names as [|n names]; [done|].
  pose proof (components_push_names [] (n :: names) Hpd) as E. rewrite push_names in E by done.
  rewrite push_relative in E; [exact E|]. pose proof Hp as [Hn _]%Forall_cons.
  destruct names; [rewrite <- (app_nil_r n); by apply plain_not_rooted|by apply plain_not_rooted].
Qed.

Lemma route_parts_names names :
  Forall ordinary names -> mapM route_part (Normal <$> names) = Some names.
Proof.
  induction 1 as [|n names (_ & _ & _ & Hl & Hi) _ IH]; [done|].
  change (mapM route_part (Normal <$> n :: names)) with
    (x ← route_part (Normal n); k ← mapM route_part (Normal <$> names); mret (x :: k)).
  rewrite IH. cbn [route_part]. by rewrite Hi, (proj2 (Z.ltb_ge _ _) Hl).
Qed.

(** A path of ordinary names neither starts nor ends with a slash. *)
Lemma names_head names : Forall plain_piece names -> head (join_with [slash] names) <> Some slash.
Proof.
  intros Hp. destruct names as [|n names]; [done|]. apply Forall_cons in Hp as [(Hne & _ & Hs) _].
  destruct n as [|c n]; [done|]. intros E. apply Hs.
  assert (c = slash) as -> by (destruct names; by injection E). apply list_elem_of_here.
Qed.

Lemma names_last names : Forall plain_piece names -> last (join_with [slash] names) <> Some slash.
Proof.
  induction 1 as [|n names (Hne & _ & Hs) Hf IH]; [done|].
  assert (last n <> Some slash) as Hn.
  { intros [l ->]%last_Some. apply Hs, elem_of_app. right. apply list_elem_of_here. }
  destruct names as [|m names]; [done|].
  change (join_with [slash] (n :: m :: names)) with (n ++ [slash] ++ join_with [slash] (m :: names)).
  rewrite !last_app. destruct (last (join_with [slash] (m :: names))) eqn:E; [done|].
  apply last_None in E. exfalso. apply Forall_cons in Hf as [(Hm & _) _].
  destruct m; [done|]. by destruct names.
Qed.

Lemma trim_names names :
  Forall ordinary names ->
  trim_matches_byte slash (slash :: join_with [slash] names) = join_with [slash] names.
Proof.
  intros Ho. destruct (ordinary_plain names Ho) as [_ Hp]. unfold trim_matches_byte.
  cbn [trim_start_byte]. rewrite bool_decide_eq_true_2 by done.
  assert (forall s, head s <> Some slash -> trim_start_byte slash s = s) as Hid.
  { intros [|c s] Hh; [done|]. cbn. rewrite bool_decide_eq_false_2; [done|]. by intros ->. }
  rewrite (Hid (join_with [slash] names)) by by apply names_head.
  rewrite Hid; [apply reverse_involutive|]. rewrite head_reverse. by apply names_last.
Qed.

(** ** The policy *)

Context `{PercentEncodingLaws}.

Lemma parse_route_sound p raw r :
  parse_route p raw = Some r ->
  exists names, r = join_with [slash] names /\ Forall ordinary names /\
    blen r <= BROWSER_RELATIVE_PATH_BYTES_LIMIT /\
    (forall n, head names = Some n -> is_reserved_component p n = true -> raw = slash :: encode_uri r).
Proof.
  unfold parse_route. destruct (decode_uri raw) as [path|]; cbn [mbind option_bind]; [|done].
  unfold contains_byte. case_bool_decide as Hnul; [done|].
  destruct (mapM route_part _) as [parts|] eqn:Hm; cbn [mbind option_bind]; [|done].
  assert (Forall ordinary parts) as Ho.
  { eapply route_parts_ordinary; [|exact Hm]. by intros Hx%trim_elem. }
  destruct (_ <? _) eqn:Hlen; [done|]. destruct (_ && _) eqn:Hres; [done|]. intros [=<-].
  exists parts. bool_prop. repeat split; [done..|]. intros n Hn Hr. destruct parts as [|m parts]; [done|].
  injection Hn as ->. rewrite split_join in Hres by (done || by apply ordinary_no_sep).
  cbn [head] in Hres. rewrite Hr in Hres. destruct Hres as [?|Hraw]; [done|].
  apply negb_false_iff, beqb_true in Hraw. done.
Qed.

Lemma parse_route_complete p names :
  Forall ordinary names -> blen (join_with [slash] names) <= BROWSER_RELATIVE_PATH_BYTES_LIMIT ->
  is_utf8 (slash :: join_with [slash] names) = true ->
  parse_route p (slash :: encode_uri (join_with [slash] names)) = Some (join_with [slash] names).
Proof.
  intros Ho Hlen Hu. unfold parse_route, decode_uri.
  rewrite percent_decode_slash, percent_decode_encode_uri, Hu. cbn [mbind option_bind].
  assert (contains_byte nul_byte (slash :: join_with [slash] names) = false) as ->.
  { apply bool_decide_eq_false. intros [E|Hx]%elem_of_cons; [done|]. by apply ordinary_join_no_nul in Hx. }
  rewrite trim_names, components_names, route_parts_names by done. cbn [mbind option_bind].
  rewrite (proj2 (Z.ltb_ge _ _) Hlen). by rewrite beqb_refl, andb_false_r.
Qed.

(** C34: no request path leaves the shared tree or reaches the server's own
    entries.  A mutation target is accepted exactly when it is a slash-separated
    list of ordinary names - none empty, [.] or [..], none with a NUL, none
    longer than 255 bytes, none internal - that is not too long and does not
    start with a reserved component, and it denotes precisely those names below
    the root.  A route denotes such a list below the root as well, and one in
    the reserved namespace is accepted only in its canonical spelling; every
    list of ordinary names that fits has a route. *)
Theorem paths_stay_in_the_tree p :
  (forall v q, parse_browser_target p v = Some q <->
     exists names, v = slash :: join_with [slash] names /\ target_ok p names /\
       blen (join_with [slash] names) <= BROWSER_RELATIVE_PATH_BYTES_LIMIT /\
       q = foldl path_push (root p) names) /\
  (forall names, target_ok p names ->
     components (foldl path_push (root p) names) = components (root p) ++ (Normal <$> names)) /\
  (forall raw r, parse_route p raw = Some r ->
     exists names, r = join_with [slash] names /\ Forall ordinary names /\
       components (resolve_route p r) = components (root p) ++ (Normal <$> names) /\
       (forall n, head names = Some n -> is_reserved_component p n = true ->
          raw = slash :: encode_uri r)) /\
  (forall names, Forall ordinary names ->
     blen (join_with [slash] names) <= BROWSER_RELATIVE_PATH_BYTES_LIMIT ->
     is_utf8 (slash :: join_with [slash] names) = true ->
     parse_route p (slash :: encode_uri (join_with [slash] names)) = Some (join_with [slash] names)).
Proof.
  split; [apply parse_browser_target_spec|]. split; [|split; [|apply parse_route_complete]].
  - intros [|n names] Hok; [done|]. apply components_push_names. by apply ordinary_plain, Hok.
  - intros raw r (names & -> & Ho & _ & Hr)%parse_route_sound. exists names.
    split; [done|]. split; [done|]. split; [by apply resolve_route_names|done].
Qed.
End facts.

Lemma paths_stay_in_the_tree_witness :
  let p := new_policy (bs "/srv/share") (bs "__assets__/") in
  @parse_browser_target hex_uuid p (bs "/docs/a.txt") = Some (bs "/srv/share/docs/a.txt") /\
  (exists names, bs "docs" = join_with [slash] names /\ Forall (@ordinary hex_uuid) names /\
     components (resolve_route p (bs "docs")) = components (bs "/srv/share") ++ (Normal <$> names) /\
     (forall n, head names = Some n -> is_reserved_component p n = true ->
        bs "/docs/" = slash :: @encode_uri PctModel.pct (bs "docs"))).
Proof.
  pose proof (@paths_stay_in_the_tree hex_uuid PctModel.pct PctModel.pct_laws
    (new_policy (bs "/srv/share") (bs "__assets__/"))) as (_ & _ & H & _).
  split; [vm_compute; reflexivity|].
  exact (H (bs "/docs/") (bs "docs") ltac:(vm_compute; reflexivity)).
Defined.
