(* ===== verification/Recovery.v ===== *)
(** Crash recovery of the durable state store: [recover_database] of
    [src/src/server/state_store/database.rs], which the actor runs on the
    opened database before it accepts commands. *)

From S2P Require Import Prelude Bytes StdPath StoreModel Database StoreWorker Operations OperationLifecycle Paging Uploads UploadLifecycle Purges PurgeLifecycle.
From stdpp Require Import base numbers list gmap strings.

Local Open Scope Z_scope.

(** ** The statements *)

Definition with_expiry (t : Z) (r : OperationRow) : OperationRow :=
  {| or_fingerprint := or_fingerprint r; or_lease_token := or_lease_token r;
     or_state := or_state r; or_terminal_state := or_terminal_state r;
     or_http_status := or_http_status r; or_error_code := or_error_code r;
     or_created_at_ms := or_created_at_ms r; or_updated_at_ms := or_updated_at_ms r;
     or_expires_at_ms := Some t |}.

(** [state = COMPLETED AND expires_at_ms > t]. *)
Definition expires_after (t : Z) (_ : StoreKey) (r : OperationRow) : bool :=
  (or_state r =? OPERATION_COMPLETED) &&
  match or_expires_at_ms r with Some t' => t <? t' | None => false end.

Definition with_upload_expiry (t : Z) (r : UploadRow) : UploadRow :=
  {| ur_target_path := ur_target_path r; ur_stage_path := ur_stage_path r;
     ur_upload_length := ur_upload_length r; ur_durable_offset := ur_durable_offset r;
     ur_state := ur_state r; ur_stage_device_be := ur_stage_device_be r;
     ur_stage_inode_be := ur_stage_inode_be r; ur_target_revision := ur_target_revision r;
     ur_updated_at_ms := ur_updated_at_ms r; ur_expires_at_ms := t |}.

(** [SET next_attempt_at_ms = now, updated_at_ms = now], with a state. *)
Definition with_attempt (s now : Z) (r : PurgeRow) : PurgeRow :=
  {| pr_target_path := pr_target_path r; pr_trash_path := pr_trash_path r;
     pr_source_device_be := pr_source_device_be r; pr_source_inode_be := pr_source_inode_be r;
     pr_trash_revision := pr_trash_revision r; pr_is_directory := pr_is_directory r;
     pr_state := s; pr_attempts := pr_attempts r; pr_next_attempt_at_ms := now;
     pr_created_at_ms := pr_created_at_ms r; pr_updated_at_ms := now |}.

(** The statements on [operations], on [upload_sessions] and on [purge_jobs]. *)
Definition recover_operations (now operation_expires_at : Z) (db : Database)
    : result string Database :=
  let db := purge_expired db now in
  let db := set_operations db
    (sql_delete (λ _ r, or_state r =? OPERATION_RESERVED) (operations db)).2 in
  '(_, t) ← sql_update operation_check (λ _ r, or_state r =? OPERATION_COMMIT_STARTED)
              (with_outcome uncertain_outcome now operation_expires_at) (operations db);
  let db := set_operations db t in
  '(_, t) ← sql_update operation_check (expires_after operation_expires_at)
              (with_expiry operation_expires_at) (operations db);
  Ok (set_operations db t).

Definition recover_uploads (now upload_expires_at : Z) (db : Database) : result string Database :=
  '(_, t) ← sql_update upload_check (λ _ r, ur_state r =? UPLOAD_COMMIT_STARTED)
              (with_upload_state UPLOAD_UNKNOWN now upload_expires_at) (upload_sessions db);
  let db := set_upload_sessions db t in
  '(_, t) ← sql_update upload_check (λ _ r, upload_expires_at <? ur_expires_at_ms r)
              (with_upload_expiry upload_expires_at) (upload_sessions db);
  Ok (set_upload_sessions db t).

Definition recover_purges (now : Z) (db : Database) : result string Database :=
  '(_, t) ← sql_update purge_check (λ _ r, pr_state r =? PURGE_CLAIMED)
              (with_attempt PURGE_READY now) (purge_jobs db);
  let db := set_purge_jobs db t in
  '(_, t) ← sql_update purge_check
              (λ _ r, (pr_state r =? PURGE_READY) && (now <? pr_next_attempt_at_ms r))
              (with_attempt PURGE_READY now) (purge_jobs db);
  Ok (set_purge_jobs db t).

(** One transaction: an error leaves the database as it was. *)
Definition recover_database (db : Database) (operation_ttl_ms upload_ttl_ms now : Z)
    : result string Database :=
  operation_expires_at ← expiration_time now operation_ttl_ms;
  upload_expires_at ← expiration_time now upload_ttl_ms;
  db ← recover_operations now operation_expires_at db;
  db ← recover_uploads now upload_expires_at db;
  recover_purges now db.

(** ** What recovery does to a row *)

Definition recover_operation_row (now t : Z) (k : StoreKey) (r : OperationRow) : option OperationRow :=
  if expired_row now k r then None
  else if or_state r =? OPERATION_RESERVED then None
  else
    let r := if or_state r =? OPERATION_COMMIT_STARTED
             then with_outcome uncertain_outcome now t r else r in
    Some (if expires_after t k r then with_expiry t r else r).

Definition recover_upload_row (now t : Z) (r : UploadRow) : UploadRow :=
  let r := if ur_state r =? UPLOAD_COMMIT_STARTED
           then with_upload_state UPLOAD_UNKNOWN now t r else r in
  if t <? ur_expires_at_ms r then with_upload_expiry t r else r.

Definition recover_purge_row (now : Z) (r : PurgeRow) : PurgeRow :=
  let r := if pr_state r =? PURGE_CLAIMED then with_attempt PURGE_READY now r else r in
  if (pr_state r =? PURGE_READY) && (now <? pr_next_attempt_at_ms r)
  then with_attempt PURGE_READY now r else r.

(** The CHECK constraints of the schema hold of every operation row; SQLite
    enforces them on every write. *)
Definition operations_checked (m : gmap StoreKey OperationRow) : Prop :=
  map_Forall (λ k r, operation_check k r = true) m.

Lemma with_expiry_check k t r :
  is_Some (or_expires_at_ms r) -> operation_check k r = true ->
  operation_check k (with_expiry t r) = true.
Proof.
  intros [t' Ht]. unfold operation_check. cbn. rewrite Ht. done.
Qed.

Lemma sql_update_map {R} check (P : StoreKey -> R -> bool) f (m : gmap StoreKey R) :
  (forall k r, m !! k = Some r -> P k r = true -> check k (f r) = true) ->
  exists n m', sql_update check P f m = Ok (n, m') /\
    forall k, m' !! k = (λ r, if P k r then f r else r) <$> m !! k.
Proof.
  intros H. destruct (sql_update_succeeds check P f m H) as [m' Hm].
  pose proof (sql_update_Ok _ _ _ _ _ _ Hm) as (_ & Hl & _). eauto.
Qed.

Definition recovered (now t ut : Z) (db db' : Database) : Prop :=
  (forall k, operations db' !! k = operations db !! k ≫= recover_operation_row now t k) /\
  (forall k, upload_sessions db' !! k = recover_upload_row now ut <$> upload_sessions db !! k) /\
  (forall k, purge_jobs db' !! k = recover_purge_row now <$> purge_jobs db !! k).

(** The decoded values recovery leaves. *)
Definition recovered_upload (s : StoredUploadSession) : StoredUploadSession :=
  {| us_key := us_key s; us_target_path := us_target_path s; us_stage_path := us_stage_path s;
     us_upload_length := us_upload_length s; us_durable_offset := us_durable_offset s;
     us_state := match us_state s with UCommitStarted => UUnknown | st => st end;
     us_stage_identity := us_stage_identity s; us_target_revision := us_target_revision s |}.

Definition recovered_purge (j : StoredPurgeJob) : StoredPurgeJob :=
  set_progress j (match pj_state j with PClaimed => PReady | st => st end)
    (pj_trash_revision j) (pj_attempts j).

Lemma decode_unknown k r s now t :
  decode_upload_row k r = Ok s -> ur_state r = UPLOAD_COMMIT_STARTED ->
  decode_upload_row k (with_upload_state UPLOAD_UNKNOWN now t r) = Ok (recovered_upload s).
Proof.
  intros (Hk & Hty & Hwf & He%encode_upload_fields)%decode_upload_Ok Hst.
  destruct He as (E1 & E2 & E3 & E4 & E5 & E6 & E7 & E8 & _ & _).
  destruct Hwf as (V1 & V2 & V3 & V4 & _).
  assert (us_state s = UCommitStarted) as Hs by (rewrite E5 in Hst; by destruct (us_state s)).
  apply decode_upload_columns; try done; cbn; rewrite ?Hs; try done.
  unfold upload_wf. cbn. rewrite Hs. split_and!; done || lia.
Qed.

Lemma recover_upload_decodes k r s now t :
  decode_upload_row k r = Ok s ->
  decode_upload_row k (recover_upload_row now t r) = Ok (recovered_upload s).
Proof.
  intros Hd. unfold recover_upload_row.
  assert (forall row, decode_upload_row k (if t <? ur_expires_at_ms row then with_upload_expiry t row else row)
    = decode_upload_row k row) as -> by (intros row; by case_match).
  destruct (ur_state r =? UPLOAD_COMMIT_STARTED) eqn:Hs; bool_prop; [by apply decode_unknown|].
  rewrite Hd. f_equal. unfold recovered_upload.
  pose proof Hd as (_ & _ & _ & (_ & _ & _ & _ & E & _)%encode_upload_fields)%decode_upload_Ok.
  destruct s as [? ? ? ? ? st ? ?]. cbn in *. by destruct st.
Qed.

Lemma attempt_decodes k r j s st now :
  decode_purge_row k r = Ok j -> s = purge_as_i64 st ->
  decode_purge_row k (with_attempt s now r) =
    Ok (set_progress j st (pj_trash_revision j) (pj_attempts j)).
Proof.
  intros Hd ->. pose proof Hd as []%decode_purge_iff. by eapply decode_purge_progress.
Qed.

Lemma recover_purge_decodes k r j now :
  decode_purge_row k r = Ok j ->
  decode_purge_row k (recover_purge_row now r) = Ok (recovered_purge j).
Proof.
  intros Hd. pose proof (decoded_state _ _ _ Hd) as Hs. unfold recover_purge_row, recovered_purge.
  destruct (pr_state r =? PURGE_CLAIMED) eqn:Hc; bool_prop.
  - assert (pj_state j = PClaimed) as -> by (apply purge_state_inj; by rewrite <- Hs).
    cbn [pr_state with_attempt pr_next_attempt_at_ms]. rewrite Z.ltb_irrefl, andb_false_r.
    by apply attempt_decodes.
  - assert (pj_state j <> PClaimed) as Hne by (intros Hj; by rewrite Hs, Hj in Hc).
    destruct (_ && _) eqn:Hb.
    + bool_prop. assert (pj_state j = PReady) as -> by (apply purge_state_inj; by rewrite <- Hs).
      by apply attempt_decodes.
    + rewrite Hd. f_equal. destruct j as [? ? ? ? ? ? st ?]. cbn in *. by destruct st.
Qed.

Lemma recover_operations_runs db lim now t :
  operations_inv lim db -> operations_checked (operations db) ->
  exists m, recover_operations now t db = Ok (set_operations db m) /\
    forall k, m !! k = operations db !! k ≫= recover_operation_row now t k.
Proof.
  intros (Hop & _) Hchk. unfold recover_operations. cbv zeta.
  set (m1 := (sql_delete (λ _ r, or_state r =? OPERATION_RESERVED) (operations (purge_expired db now))).2).
  assert (forall k, m1 !! k = operations db !! k ≫= λ r, if expired_row now k r then None
    else if or_state r =? OPERATION_RESERVED then None else Some r) as Hm1.
  { intros k. unfold m1. rewrite lookup_sql_delete. cbn [operations purge_expired set_operations].
    rewrite lookup_sql_delete. destruct (operations db !! k) as [r|]; [cbn|done].
    by destruct (expired_row now k r). }
  assert (forall k r, m1 !! k = Some r -> operations db !! k = Some r) as Hsub.
  { intros k r Hk. rewrite Hm1 in Hk. destruct (operations db !! k) as [r'|]; [cbn in Hk|done].
    by repeat case_match. }
  assert (forall k r, m1 !! k = Some r -> operation_check k (with_outcome uncertain_outcome now t r) = true)
    as Hunc.
  { intros k r Hk. apply with_outcome_check;
      [by apply Hop, Hsub|apply uncertain_outcome_wf|apply uncertain_nul_free]. }
  destruct (sql_update_map operation_check (λ _ r, or_state r =? OPERATION_COMMIT_STARTED)
    (with_outcome uncertain_outcome now t) m1) as (n2 & m2 & Hrun2 & Hm2); [by eauto|].
  change (operations (set_operations (purge_expired db now) m1)) with m1. rewrite Hrun2.
  cbn [mbind result_bind].
  destruct (sql_update_map operation_check (expires_after t) (with_expiry t) m2) as (n3 & m3 & Hrun3 & Hm3).
  { intros k r Hk He. rewrite Hm2 in Hk. destruct (m1 !! k) as [r0|] eqn:H0; [|done].
    injection Hk as <-. apply with_expiry_check.
    - unfold expires_after in He. bool_prop. case_match; [eauto|done].
    - destruct (_ =? _); [by apply Hunc|by apply Hchk, Hsub]. }
  cbn [operations set_operations]. rewrite Hrun3. cbn [mbind result_bind].
  exists m3. split; [done|]. intros k.
  rewrite Hm3, Hm2, Hm1. destruct (operations db !! k) as [r|]; [cbn|done].
  unfold recover_operation_row. by destruct (expired_row now k r), (or_state r =? OPERATION_RESERVED).
Qed.

Lemma recover_uploads_runs db lim now ut :
  uploads_inv lim (upload_sessions db) ->
  exists m, recover_uploads now ut db = Ok (set_upload_sessions db m) /\
    forall k, m !! k = recover_upload_row now ut <$> upload_sessions db !! k.
Proof.
  intros (Hup & _). unfold recover_uploads.
  destruct (sql_update_map upload_check (λ _ r, ur_state r =? UPLOAD_COMMIT_STARTED)
    (with_upload_state UPLOAD_UNKNOWN now ut) (upload_sessions db)) as (n4 & m4 & Hrun4 & Hm4).
  { intros k r Hk Hs. bool_prop. destruct (Hup k r Hk) as [s Hd].
    by eapply decode_upload_check, decode_unknown. }
  rewrite Hrun4. cbn [mbind result_bind].
  destruct (sql_update_map upload_check (λ _ r, ut <? ur_expires_at_ms r)
    (with_upload_expiry ut) m4) as (n5 & m5 & Hrun5 & Hm5).
  { intros k r Hk _. rewrite Hm4 in Hk. destruct (upload_sessions db !! k) as [r0|] eqn:H0; [|done].
    injection Hk as <-. destruct (Hup k r0 H0) as [s Hd].
    destruct (ur_state r0 =? UPLOAD_COMMIT_STARTED) eqn:Hs; bool_prop.
    - apply (decode_upload_check k _ (recovered_upload s)). exact (decode_unknown k r0 s now ut Hd Hs).
    - apply (decode_upload_check k _ s). exact Hd. }
  cbn [upload_sessions set_upload_sessions]. rewrite Hrun5. cbn [mbind result_bind].
  exists m5. split; [done|]. intros k. rewrite Hm5, Hm4. by destruct (upload_sessions db !! k).
Qed.

Lemma recover_purges_runs db lim now :
  purges_inv lim (purge_jobs db) ->
  exists m, recover_purges now db = Ok (set_purge_jobs db m) /\
    forall k, m !! k = recover_purge_row now <$> purge_jobs db !! k.
Proof.
  intros (Hpu & _). unfold recover_purges.
  destruct (sql_update_map purge_check (λ _ r, pr_state r =? PURGE_CLAIMED)
    (with_attempt PURGE_READY now) (purge_jobs db)) as (n6 & m6 & Hrun6 & Hm6).
  { intros k r Hk _. destruct (Hpu k r Hk) as (j & Hd & _).
    eapply decode_purge_check. by apply (attempt_decodes k r j _ PReady). }
  rewrite Hrun6. cbn [mbind result_bind].
  destruct (sql_update_map purge_check
    (λ _ r, (pr_state r =? PURGE_READY) && (now <? pr_next_attempt_at_ms r))
    (with_attempt PURGE_READY now) m6) as (n7 & m7 & Hrun7 & Hm7).
  { intros k r Hk _. rewrite Hm6 in Hk. destruct (purge_jobs db !! k) as [r0|] eqn:H0; [|done].
    injection Hk as <-. destruct (Hpu k r0 H0) as (j & Hd & _).
    destruct (pr_state r0 =? PURGE_CLAIMED).
    - eapply decode_purge_check, (attempt_decodes k _ _ _ PReady); [|done].
      by apply (attempt_decodes k r0 j _ PReady).
    - eapply decode_purge_check. by apply (attempt_decodes k r0 j _ PReady). }
  cbn [purge_jobs set_purge_jobs]. rewrite Hrun7. cbn [mbind result_bind].
  exists m7. split; [done|]. intros k. rewrite Hm7, Hm6. by destruct (purge_jobs db !! k).
Qed.

Lemma recover_runs db lim ottl uttl now t ut :
  operations_inv lim db -> operations_checked (operations db) ->
  uploads_inv lim (upload_sessions db) -> purges_inv lim (purge_jobs db) ->
  expiration_time now ottl = Ok t -> expiration_time now uttl = Ok ut ->
  exists db', recover_database db ottl uttl now = Ok db' /\ recovered now t ut db db'.
Proof.
  intros Hop Hchk Hup Hpu Ht Hut. unfold recover_database. rewrite Ht, Hut. cbn [mbind result_bind].
  destruct (recover_operations_runs db lim now t Hop Hchk) as (m1 & -> & H1).
  cbn [mbind result_bind].
  destruct (recover_uploads_runs (set_operations db m1) lim now ut Hup) as (m2 & -> & H2).
  cbn [mbind result_bind].
  destruct (recover_purges_runs (set_upload_sessions (set_operations db m1) m2) lim now Hpu)
    as (m3 & -> & H3).
  eexists. split; [done|]. by split_and!.
Qed.

(** ** The state after recovery *)

(** What recovery leaves of an operation. *)
Definition recovered_op (now t : Z) (s : OpState) : OpState :=
  match s with
  | Absent | Reserved _ _ => Absent
  | Committing fp l => Done fp l uncertain_outcome t
  | Done fp l o t' => if t' <=? now then Absent else Done fp l o (Z.min t' t)
  end.

Lemma recovered_op_view lim now t db db' k :
  operations_inv lim db ->
  (forall k, operations db' !! k = operations db !! k ≫= recover_operation_row now t k) ->
  table_view (operations db') k = recovered_op now t (table_view (operations db) k).
Proof.
  intros (Hop & _) H. unfold table_view. rewrite H.
  destruct (operations db !! k) as [r|] eqn:Hk; [cbn|done].
  destruct (Hop k r Hk) as (_ & _ & _ & [(Hs & _ & _ & _ & Hx)|(Hs & o & t' & Ho & _ & Hx)]).
  - unfold recover_operation_row, expired_row. rewrite Hx, andb_false_r.
    destruct Hs as [Hs|Hs]; rewrite Hs; cbn; [unfold row_view; by rewrite Hs|].
    unfold expires_after. cbn. rewrite Z.ltb_irrefl. rewrite with_outcome_view.
    unfold row_view. by rewrite Hs.
  - unfold recover_operation_row, expired_row. rewrite Hx, Hs. cbn.
    unfold row_view at 2. rewrite Hs, Hx. cbn. destruct (t' <=? now) eqn:Hle; [done|].
    unfold expires_after. rewrite Hs, Hx. cbn. destruct (t <? t') eqn:Hlt; bool_prop.
    + unfold row_view. cbn. rewrite Hs. cbn. f_equal. lia.
    + unfold row_view. rewrite Hs, Hx. cbn. f_equal. lia.
Qed.

Lemma recover_row_wf now t k r r' :
  operation_row_wf k r -> recover_operation_row now t k r = Some r' -> operation_row_wf k r'.
Proof.
  intros Hwf. unfold recover_operation_row. destruct (expired_row now k r); [done|].
  destruct (or_state r =? OPERATION_RESERVED) eqn:H0; [done|]. intros [= <-].
  assert (operation_row_wf k (if or_state r =? OPERATION_COMMIT_STARTED
    then with_outcome uncertain_outcome now t r else r)) as Hwf1.
  { destruct (or_state r =? OPERATION_COMMIT_STARTED); [|done].
    apply with_outcome_wf; [done|apply uncertain_outcome_wf]. }
  set (r1 := if _ =? _ then _ else _) in *. destruct (expires_after t k r1) eqn:He; [|done].
  destruct Hwf1 as (Hk & Hf & Hl & Hcase). split_and!; [done..|]. right.
  unfold expires_after in He. bool_prop.
  destruct Hcase as [(Hs & _ & _ & _ & Hx)|(Hs & o & t' & Ho & Hwo & Hx)]; [by rewrite Hx in *|].
  split; [done|]. exists o, t. by split_and!.
Qed.

(** Recovery keeps the three table invariants. *)
Lemma recovered_inv lim now t ut db db' :
  operations_inv lim db -> uploads_inv lim (upload_sessions db) -> purges_inv lim (purge_jobs db) ->
  recovered now t ut db db' ->
  operations_inv lim db' /\ uploads_inv lim (upload_sessions db') /\
  purges_inv lim (purge_jobs db').
Proof.
  intros (Hop & Hg & Ho) (Hup & Hwu & Huq) (Hpu & Hwp & Hpq) (H1 & H2 & H3).
  assert (forall k r', purge_jobs db' !! k = Some r' -> exists r j, purge_jobs db !! k = Some r /\
    decode_purge_row k r = Ok j /\ (pj_state j = PPrepared <-> pj_trash_revision j = None) /\
    decode_purge_row k r' = Ok (recovered_purge j) /\ pr_trash_path r' = pr_trash_path r) as Hp.
  { intros k r' Hr. rewrite H3 in Hr. destruct (purge_jobs db !! k) as [r|] eqn:Hk; [|done].
    injection Hr as <-. destruct (Hpu k r Hk) as (j & Hd & Hiff). exists r, j.
    split_and!; [done..|by apply recover_purge_decodes|].
    unfold recover_purge_row. by repeat case_match. }
  assert (forall k r', upload_sessions db' !! k = Some r' -> exists r s, upload_sessions db !! k = Some r /\
    decode_upload_row k r = Ok s /\ decode_upload_row k r' = Ok (recovered_upload s) /\
    ur_stage_path r' = ur_stage_path r) as Hu.
  { intros k r' Hr. rewrite H2 in Hr. destruct (upload_sessions db !! k) as [r|] eqn:Hk; [|done].
    injection Hr as <-. destruct (Hup k r Hk) as (s & Hd). exists r, s.
    split_and!; [done..|by apply recover_upload_decodes|].
    unfold recover_upload_row. by repeat case_match. }
  unfold operations_inv, uploads_inv, purges_inv. split_and!.
  - intros k r Hk. rewrite H1 in Hk. destruct (operations db !! k) as [r0|] eqn:H0; [|done].
    cbn in Hk. eapply recover_row_wf; [by apply Hop|done].
  - etrans; [|exact Hg]. apply (sql_count_subset (λ _, true)). intros k.
    rewrite !elem_of_dom, H1. intros [? ?]. by destruct (operations db !! k).
  - intros owner. etrans; [|apply Ho]. apply (sql_count_subset (owner_is owner)). intros k.
    rewrite !elem_of_dom, H1. intros [? ?]. by destruct (operations db !! k).
  - intros k r (_ & s & _ & _ & ? & _)%Hu. eauto.
  - eapply within_subset; [|done]. by rewrite (dom_fmap_update _ _ (λ _, recover_upload_row now ut) H2).
  - intros k1 r1 k2 r2 (q1 & s1 & Hq1 & Hd1 & He1 & Hp1)%Hu (q2 & s2 & Hq2 & Hd2 & He2 & Hp2)%Hu.
    rewrite (active_decoded _ _ _ He1), (active_decoded _ _ _ He2). intros Ha1 Ha2 Hpath.
    apply (Huq k1 q1 k2 q2); [done..| | |congruence].
    + rewrite (active_decoded _ _ _ Hd1). cbn in Ha1. by destruct (us_state s1).
    + rewrite (active_decoded _ _ _ Hd2). cbn in Ha2. by destruct (us_state s2).
  - intros k r (_ & j & _ & _ & Hiff & Hd & _)%Hp. exists (recovered_purge j). split; [done|].
    cbn. rewrite <- Hiff. by destruct (pj_state j).
  - eapply within_subset; [|done]. by rewrite (dom_fmap_update _ _ (λ _, recover_purge_row now) H3).
  - intros k1 r1 k2 r2 (q1 & _ & Hq1 & _ & _ & _ & Hp1)%Hp (q2 & _ & Hq2 & _ & _ & _ & Hp2)%Hp Heq.
    apply (Hpq k1 q1 k2 q2); [done..|congruence].
Qed.

Lemma recover_row_check now t k r r' :
  operation_row_wf k r -> operation_check k r = true ->
  recover_operation_row now t k r = Some r' -> operation_check k r' = true.
Proof.
  intros Hwf Hc. unfold recover_operation_row. destruct (expired_row now k r); [done|].
  destruct (or_state r =? OPERATION_RESERVED); [done|]. intros [= <-].
  assert (operation_check k (if or_state r =? OPERATION_COMMIT_STARTED
    then with_outcome uncertain_outcome now t r else r) = true) as Hc1.
  { destruct (or_state r =? OPERATION_COMMIT_STARTED); [|done].
    apply with_outcome_check; [done|apply uncertain_outcome_wf|apply uncertain_nul_free]. }
  set (r1 := if _ =? _ then _ else _) in *. destruct (expires_after t k r1) eqn:He; [|done].
  apply with_expiry_check; [|done]. unfold expires_after in He. bool_prop. case_match; [eauto|done].
Qed.

Lemma recovered_views lim now t ut db db' k :
  operations_inv lim db -> uploads_inv lim (upload_sessions db) -> purges_inv lim (purge_jobs db) ->
  recovered now t ut db db' ->
  table_view (operations db') k = recovered_op now t (table_view (operations db) k) /\
  session_at (upload_sessions db') k = recovered_upload <$> session_at (upload_sessions db) k /\
  purge_at_key (purge_jobs db') k = recovered_purge <$> purge_at_key (purge_jobs db) k.
Proof.
  intros Hop (Hup & _) (Hpu & _) (H1 & H2 & H3). split_and!; [by eapply recovered_op_view|..].
  - unfold session_at. rewrite H2. destruct (upload_sessions db !! k) as [r|] eqn:Hk; [|done].
    destruct (Hup k r Hk) as [s Hd]. cbn [fmap option_fmap option_map].
    by rewrite Hd, (recover_upload_decodes _ _ _ _ _ Hd).
  - unfold purge_at_key. rewrite H3. destruct (purge_jobs db !! k) as [r|] eqn:Hk; [|done].
    destruct (Hpu k r Hk) as (j & Hd & _). cbn [fmap option_fmap option_map].
    by rewrite Hd, (recover_purge_decodes _ _ _ _ Hd).
Qed.

(** C24: recovery succeeds on every database the store can leave behind and
    resolves whatever the crash interrupted: a reservation is released, an
    operation whose commit had started becomes the uncertain outcome, a
    finished result survives with its expiry cut to one lifetime from now, an
    upload that was committing becomes Unknown with its offset and identity
    kept, a claimed purge becomes Ready again, everything else is unchanged,
    and the invariants of the three tables hold again. *)
Theorem recovery_resolves_crash db lim ottl uttl now t ut :
  operations_inv lim db -> operations_checked (operations db) ->
  uploads_inv lim (upload_sessions db) -> purges_inv lim (purge_jobs db) ->
  expiration_time now ottl = Ok t -> expiration_time now uttl = Ok ut ->
  exists db', recover_database db ottl uttl now = Ok db' /\
    (operations_inv lim db' /\ uploads_inv lim (upload_sessions db') /\
     purges_inv lim (purge_jobs db')) /\
    forall k,
      table_view (operations db') k = recovered_op now t (table_view (operations db) k) /\
      session_at (upload_sessions db') k = recovered_upload <$> session_at (upload_sessions db) k /\
      purge_at_key (purge_jobs db') k = recovered_purge <$> purge_at_key (purge_jobs db) k.
Proof.
  intros Hop Hchk Hup Hpu Ht Hut.
  destruct (recover_runs db lim ottl uttl now t ut Hop Hchk Hup Hpu Ht Hut) as (db' & Hrun & Hrec).
  exists db'. split; [done|]. split; [by eapply recovered_inv|].
  intros k. by eapply recovered_views.
Qed.

(** A crash between the start of a commit and its recorded result never
    leads to the operation being run again: after recovery, a retry of the
    same request is answered with the uncertain outcome, not with a new lease,
    until that record expires. *)
Theorem crashed_commit_is_not_rerun db lim ottl uttl now t ut db' k fp l w e :
  operations_inv lim db -> operations_checked (operations db) ->
  uploads_inv lim (upload_sessions db) -> purges_inv lim (purge_jobs db) ->
  expiration_time now ottl = Ok t -> expiration_time now uttl = Ok ut ->
  table_view (operations db) k = Committing fp l ->
  recover_database db ottl uttl now = Ok db' ->
  connection w = db' -> limits w = lim -> env_ok e w -> blen (env_uuid e) = 16 -> env_now e w < t ->
  exists w', begin_operation e k fp w = (Ok (BReplay uncertain_outcome), w').
Proof.
  intros Hop Hchk Hup Hpu Ht Hut Hv Hrun Hw Hlim He Huuid Hnow.
  destruct (recover_runs db lim ottl uttl now t ut Hop Hchk Hup Hpu Ht Hut) as (db2 & Hrun2 & Hrec).
  rewrite Hrun in Hrun2. injection Hrun2 as <-.
  destruct (recovered_inv _ _ _ _ _ _ Hop Hup Hpu Hrec) as (Hop' & _).
  destruct (recovered_views _ _ _ _ _ _ k Hop Hup Hpu Hrec) as (Hv' & _).
  rewrite Hv in Hv'. cbn in Hv'. subst lim. rewrite <- Hw in Hop', Hv'.
  assert (key_wf k /\ blen fp = 32) as [Hk Hfp].
  { unfold table_view in Hv. destruct (operations db !! k) as [r|] eqn:Hr; [|done].
    destruct Hop as (Hop & _). destruct (Hop k r Hr) as (? & Hf & _). split; [done|].
    unfold row_view in Hv. repeat case_match; by simplify_eq. }
  destruct (begin_run e w k fp Hop' He Hk Hfp Huuid) as (b & w' & Hb & Hres).
  rewrite live_view_eq in Hres by done. unfold op_view in Hres. rewrite Hv' in Hres.
  rewrite (proj2 (Z.leb_gt _ _) Hnow) in Hres. cbn in Hres. rewrite beqb_refl in Hres.
  destruct Hres as [-> _]. eauto.
Qed.

Lemma recover_operation_twice now t k r r' :
  now < t -> recover_operation_row now t k r = Some r' -> recover_operation_row now t k r' = Some r'.
Proof.
  intros Hlt. unfold recover_operation_row. destruct (expired_row now k r) eqn:He; [done|].
  destruct (or_state r =? OPERATION_RESERVED) eqn:Hs0; [done|]. intros [= <-].
  destruct (or_state r =? OPERATION_COMMIT_STARTED) eqn:Hs1.
  - unfold expires_after at 1. cbn. rewrite Z.ltb_irrefl. unfold expired_row, expires_after. cbn.
    rewrite (proj2 (Z.leb_gt _ _) Hlt), Z.ltb_irrefl. done.
  - destruct (expires_after t k r) eqn:Hx.
    + unfold expires_after in Hx. bool_prop. unfold expired_row. cbn. rewrite H. cbn.
      rewrite (proj2 (Z.leb_gt _ _) Hlt). unfold expires_after. cbn. by rewrite Z.ltb_irrefl, andb_false_r.
    + by rewrite He, Hs0, Hs1, Hx.
Qed.

Lemma recover_upload_twice now t r :
  recover_upload_row now t (recover_upload_row now t r) = recover_upload_row now t r.
Proof.
  unfold recover_upload_row. destruct (ur_state r =? UPLOAD_COMMIT_STARTED) eqn:Hs.
  - cbn. rewrite Z.ltb_irrefl. cbn. by rewrite Z.ltb_irrefl.
  - destruct (t <? ur_expires_at_ms r) eqn:Ht; cbn; rewrite ?Hs, ?Z.ltb_irrefl, ?Ht; done.
Qed.

Lemma recover_purge_twice now r :
  recover_purge_row now (recover_purge_row now r) = recover_purge_row now r.
Proof.
  unfold recover_purge_row.
  destruct (pr_state r =? PURGE_CLAIMED) eqn:Hs;
    [|destruct ((pr_state r =? PURGE_READY) && (now <? pr_next_attempt_at_ms r)) eqn:Hb];
    cbn; rewrite ?Z.ltb_irrefl; cbn; rewrite ?Z.ltb_irrefl, ?Hs, ?Hb; done.
Qed.

(** Recovery is idempotent: running it again at the same time, as a
    restart loop does, changes nothing. *)
Theorem recovery_idempotent db lim ottl uttl now t ut db' :
  operations_inv lim db -> operations_checked (operations db) ->
  uploads_inv lim (upload_sessions db) -> purges_inv lim (purge_jobs db) ->
  expiration_time now ottl = Ok t -> expiration_time now uttl = Ok ut -> 0 < ottl ->
  recover_database db ottl uttl now = Ok db' ->
  recover_database db' ottl uttl now = Ok db'.
Proof.
  intros Hop Hchk Hup Hpu Ht Hut Hpos Hrun.
  destruct (recover_runs db lim ottl uttl now t ut Hop Hchk Hup Hpu Ht Hut) as (db2 & Hrun2 & Hrec).
  rewrite Hrun in Hrun2. injection Hrun2 as <-.
  destruct (recovered_inv _ _ _ _ _ _ Hop Hup Hpu Hrec) as (Hop' & Hup' & Hpu').
  destruct Hrec as (H1 & H2 & H3).
  assert (operations_checked (operations db')) as Hchk'.
  { intros k r Hk. rewrite H1 in Hk. destruct (operations db !! k) as [r0|] eqn:H0; [|done].
    eapply recover_row_check; [by apply Hop|by apply Hchk|done]. }
  destruct (recover_runs db' lim ottl uttl now t ut Hop' Hchk' Hup' Hpu' Ht Hut)
    as (db2 & Hrun2 & (G1 & G2 & G3)).
  rewrite Hrun2. f_equal.
  assert (t = now + ottl) as ->.
  { unfold expiration_time, i64_checked_add in Ht. apply ok_or_Ok in Ht.
    by apply i64_try_from_Some in Ht as [-> _]. }
  destruct db2 as [o2 u2 p2], db' as [o1 u1 p1]. cbn in *. f_equal; apply map_eq; intros k.
  - rewrite G1. destruct (o1 !! k) as [r|] eqn:Hr; [cbn|done]. rewrite H1 in Hr.
    destruct (operations db !! k) as [r0|]; [cbn in Hr|done].
    apply (recover_operation_twice _ _ _ r0); [lia|done].
  - rewrite G2. destruct (u1 !! k) as [r|] eqn:Hr; [cbn|done]. rewrite H2 in Hr.
    destruct (upload_sessions db !! k) as [r0|]; [|done]. injection Hr as <-.
    by rewrite recover_upload_twice.
  - rewrite G3. destruct (p1 !! k) as [r|] eqn:Hr; [cbn|done]. rewrite H3 in Hr.
    destruct (purge_jobs db !! k) as [r0|]; [|done]. injection Hr as <-.
    by rewrite recover_purge_twice.
Qed.

(** ** A crashed store *)

(** An operation was committing, an upload was committing and a purge was
    claimed when the process died. *)
Definition crashed : Database :=
  {| operations := operations (connection demo_committing);
     upload_sessions := upload_sessions (connection demo_starting);
     purge_jobs := purge_jobs (connection demo_claimed) |}.

Definition restarted : StoreWorker :=
  {| connection := match recover_database crashed 900000 1000 5000 with Ok db => db | Err _ => crashed end;
     clock := mkClock 5000 0 5000; limits := demo_limits; deferred_abandons := [] |}.

Lemma crashed_valid :
  operations_inv demo_limits crashed /\ operations_checked (operations crashed) /\
  uploads_inv demo_limits (upload_sessions crashed) /\ purges_inv demo_limits (purge_jobs crashed).
Proof.
  split_and!.
  - exact demo_committing_inv.
  - apply map_Forall_to_list. vm_compute. repeat constructor.
  - apply (up_steps_inv demo_worker demo_starting);
      [|apply uploads_inv_empty; cbn; lia].
    eapply rtc_l; [exists None; apply (demo_save_step 0 4 URunning); [lia|vm_compute; reflexivity]|].
    apply rtc_once. exists None. apply (demo_save_step 1 10 UCommitStarted); [lia|vm_compute; reflexivity].
  - apply (pu_steps_inv demo_worker demo_claimed); [apply demo_purge_runs|].
    apply purges_inv_empty; cbn; lia.
Qed.

Lemma crashed_recovers : recover_database crashed 900000 1000 5000 = Ok (connection restarted).
Proof. vm_cast_no_check (eq_refl (Ok (E := string) (connection restarted))). Qed.

Lemma crashed_commit_view : table_view (operations crashed) demo_key = Committing demo_fp demo_lease.
Proof. vm_compute. reflexivity. Qed.

Lemma restarted_env : env_ok (demo_env 10) restarted /\ env_now (demo_env 10) restarted < 905000.
Proof.
  split; [eapply demo_env_ok; vm_compute; reflexivity|apply Z.ltb_lt; vm_compute; reflexivity].
Qed.

Lemma recovery_resolves_crash_witness :
  exists db', recover_database crashed 900000 1000 5000 = Ok db' /\
    table_view (operations db') demo_key = Done demo_fp demo_lease uncertain_outcome 905000 /\
    purge_at_key (purge_jobs db') demo_key = Some (set_progress demo_job PReady (Some demo_revision) 0).
Proof.
  destruct crashed_valid as (H1 & H2 & H3 & H4).
  destruct (recovery_resolves_crash crashed demo_limits 900000 1000 5000 905000 6000 H1 H2 H3 H4)
    as (db' & Hrun & _ & Hviews); [reflexivity|reflexivity|].
  exists db'. destruct (Hviews demo_key) as (Hv1 & _ & Hv3). split; [exact Hrun|].
  rewrite Hv1, Hv3. split; vm_compute; reflexivity.
Defined.

Lemma crashed_commit_is_not_rerun_witness :
  exists w', begin_operation (demo_env 10) demo_key demo_fp restarted
    = (Ok (BReplay uncertain_outcome), w').
Proof.
  destruct crashed_valid as (H1 & H2 & H3 & H4).
  destruct restarted_env as [He Hn].
  exact (crashed_commit_is_not_rerun crashed demo_limits 900000 1000 5000 905000 6000
    (connection restarted) demo_key demo_fp demo_lease restarted (demo_env 10)
    H1 H2 H3 H4 eq_refl eq_refl crashed_commit_view crashed_recovers eq_refl eq_refl He eq_refl Hn).
Defined.

Lemma recovery_idempotent_witness :
  recover_database (connection restarted) 900000 1000 5000 = Ok (connection restarted).
Proof.
  destruct crashed_valid as (H1 & H2 & H3 & H4).
  exact (recovery_idempotent crashed demo_limits 900000 1000 5000 905000 6000 (connection restarted)
    H1 H2 H3 H4 eq_refl eq_refl ltac:(lia) crashed_recovers).
Defined.
