(* ===== verification/Actor.v ===== *)
(** The state-store actor: the command interface and its channels
    ([src/src/server/state_store.rs]: [Command], [ControlCommand],
    [ActorChannels], [BeginEnvelope], the methods of [StateStore]) and the
    loop that executes the commands ([src/src/server/state_store/actor.rs]).

    The actor is a transition system.  Its clients put commands on a bounded
    queue and abandonments on a control queue, which they follow with a wake
    command; the worker alternates between one deferred abandonment, the
    pending controls and one command.  Time, SQLite failures, full queues and
    cancelled requests are the nondeterminism of the transitions. *)

From S2P Require Import Prelude Bytes StdPath StoreModel Database StoreWorker Operations OperationLifecycle Paging Uploads UploadLifecycle Purges PurgeLifecycle.
From stdpp Require Import base numbers list gmap strings.

Local Open Scope Z_scope.

(** ** Commands *)

Definition COMMAND_QUEUE_CAPACITY : Z := 256.

Inductive Command :=
| CWake
| CProbeReadiness
| CBegin (key : OperationKey) (fingerprint : bytes)
| CStatus (key : OperationKey)
| CMarkCommitStarted (key : OperationKey) (lease : bytes)
| CComplete (key : OperationKey) (lease : bytes) (outcome : StoredOutcome)
| CSaveUploadSession (session : StoredUploadSession) (ttl_ms : Z)
| CLoadUploadSession (key : UploadSessionKey)
| CListUploadSessionsPageBlocking (after : option UploadSessionKey) (limit : Z)
| CListUploadSessionsPage (after : option UploadSessionKey) (limit : Z)
| CRejectUploadSession (key : UploadSessionKey) (target_path stage_path : bytes) (ttl_ms : Z)
| CListExpiredUploadSessions (after : option UploadSessionKey) (limit : Z)
| CMatchExpiredUploadSession (expected : ExpiredUploadSession)
| CRemoveUploadSessionIfMatches (expected : StoredUploadSession)
| CRemoveExpiredUploadSessionIfMatches (expected : ExpiredUploadSession)
| CPreparePurgeJob (job : StoredPurgeJob)
| CLoadPurgeJob (key : PurgeJobKey)
| CListPreparedPurgeJobs (limit : Z)
| CListPurgeJobs (limit : Z)
| CIsStatePathBoundBlocking (path : bytes)
| CListStateBlockingPaths (after : option StatePathCursor) (limit : Z)
| CMarkPurgeJobReady (key : PurgeJobKey) (trash_revision : bytes)
| CClaimDuePurgeJob
| CRetryPurgeJob (key : PurgeJobKey) (delay_ms : Z)
| CCompletePurgeJob (key : PurgeJobKey)
| CRemovePurgeJob (key : PurgeJobKey).

Inductive ControlCommand :=
| Abandon (key : OperationKey) (lease : bytes)
| Shutdown.

(** ** The client side: what each method of [StateStore] sends

    A method validates its arguments and either fails without sending or
    sends one command.  A [Duration] is in nanoseconds. *)

Module StateStore.
Definition begin_operation (key : OperationKey) (fingerprint : bytes) : result string Command :=
  Ok (CBegin key fingerprint).
Definition operation_status (key : OperationKey) : result string Command := Ok (CStatus key).
Definition mark_operation_commit_started (key : OperationKey) (lease : bytes)
    : result string Command := Ok (CMarkCommitStarted key lease).
Definition complete_operation (key : OperationKey) (lease : bytes) (outcome : StoredOutcome)
    : result string Command :=
  _ ← validate_outcome outcome;
  Ok (CComplete key lease outcome).
Definition save_upload_session (session : StoredUploadSession) (ttl : Z) : result string Command :=
  _ ← validate_upload session;
  ttl_ms ← duration_ms ttl;
  Ok (CSaveUploadSession session ttl_ms).
Definition upload_session (key : UploadSessionKey) : result string Command :=
  Ok (CLoadUploadSession key).
Definition upload_sessions_page_blocking (after : option UploadSessionKey) (limit : Z)
    : result string Command :=
  _ ← ensure (in_range 1 64 limit) "Upload startup page size must be between 1 and 64"%string;
  limit ← ok_or (i64_try_from limit) "Upload startup page size is too large"%string;
  Ok (CListUploadSessionsPageBlocking after limit).
Definition upload_sessions_page (after : option UploadSessionKey) (limit : Z)
    : result string Command :=
  _ ← ensure (in_range 1 64 limit) "Upload snapshot page size must be between 1 and 64"%string;
  limit ← ok_or (i64_try_from limit) "Upload snapshot page size is too large"%string;
  Ok (CListUploadSessionsPage after limit).
Definition reject_upload_session (key : UploadSessionKey) (target_path stage_path : bytes) (ttl : Z)
    : result string Command :=
  _ ← validate_stored_path target_path;
  _ ← validate_stored_path stage_path;
  ttl_ms ← duration_ms ttl;
  Ok (CRejectUploadSession key target_path stage_path ttl_ms).
Definition expired_upload_sessions_page (after : option UploadSessionKey) (limit : Z)
    : result string Command :=
  limit ← query_limit limit;
  Ok (CListExpiredUploadSessions after limit).
Definition expired_upload_session_matches (expected : ExpiredUploadSession) : result string Command :=
  _ ← validate_upload (eu_session expected);
  Ok (CMatchExpiredUploadSession expected).
Definition remove_upload_session_if_matches (expected : StoredUploadSession) : result string Command :=
  _ ← validate_upload expected;
  Ok (CRemoveUploadSessionIfMatches expected).
Definition remove_expired_upload_session_if_matches (expected : ExpiredUploadSession)
    : result string Command :=
  _ ← validate_upload (eu_session expected);
  Ok (CRemoveExpiredUploadSessionIfMatches expected).
Definition prepare_purge_job (job : StoredPurgeJob) : result string Command :=
  _ ← validate_new_purge job;
  Ok (CPreparePurgeJob job).
Definition purge_job (key : PurgeJobKey) : result string Command := Ok (CLoadPurgeJob key).
Definition prepared_purge_jobs (limit : Z) : result string Command :=
  limit ← query_limit limit;
  Ok (CListPreparedPurgeJobs limit).
Definition purge_jobs (limit : Z) : result string Command :=
  limit ← query_limit limit;
  Ok (CListPurgeJobs limit).
Definition state_path_is_bound_blocking (path : bytes) : result string Command :=
  _ ← validate_stored_path path;
  Ok (CIsStatePathBoundBlocking path).
Definition state_blocking_paths (after : option StatePathCursor) (limit : Z)
    : result string Command :=
  limit ← query_limit limit;
  Ok (CListStateBlockingPaths after limit).
Definition mark_purge_job_ready (key : PurgeJobKey) (trash_revision : bytes)
    : result string Command := Ok (CMarkPurgeJobReady key trash_revision).
Definition claim_due_purge_job : result string Command := Ok CClaimDuePurgeJob.
Definition retry_purge_job (key : PurgeJobKey) (delay : Z) : result string Command :=
  delay_ms ← duration_ms delay;
  Ok (CRetryPurgeJob key delay_ms).
Definition complete_purge_job (key : PurgeJobKey) : result string Command := Ok (CCompletePurgeJob key).
Definition remove_purge_job (key : PurgeJobKey) : result string Command := Ok (CRemovePurgeJob key).
Definition probe_readiness : result string Command := Ok CProbeReadiness.
End StateStore.

(** ** The worker side *)

(** [deferred_abandons] holds each pair once. *)
Definition defer_abandon (w : StoreWorker) (key : OperationKey) (lease : bytes) : StoreWorker :=
  if bool_decide ((key, lease) ∈ deferred_abandons w) then w
  else set_deferred w (deferred_abandons w ++ [(key, lease)]).

Definition retry_one_deferred_abandon (e : Env) (w : StoreWorker) : StoreWorker :=
  match deferred_abandons w with
  | [] => w
  | (key, lease) :: rest =>
      match abandon_operation e key lease (set_deferred w rest) with
      | (Ok _, w) => w
      | (Err _, w) => set_deferred w (deferred_abandons w ++ [(key, lease)])
      end
  end.

(** The [Abandon] arm of [process_controls], and the cleanup of a reservation
    that could not be delivered. *)
Definition abandon_or_defer (e : Env) (key : OperationKey) (lease : bytes) (w : StoreWorker)
    : StoreWorker :=
  match abandon_operation e key lease w with
  | (Ok _, w) => w
  | (Err _, w) => defer_abandon w key lease
  end.

(** [BeginEnvelope::reservation]. *)
Definition reservation (b : StoreBegin) : option bytes :=
  match b with BStarted lease => Some lease | _ => None end.

(** The [Begin] arm.  [closed]: the reply channel was closed before execution;
    [sent]: the reply was delivered to the channel.  The second component is
    the armed envelope now in the channel. *)
Definition run_begin (closed sent : bool) (e e' : Env) (key : OperationKey) (fingerprint : bytes)
    (w : StoreWorker) : StoreWorker * option (OperationKey * bytes) :=
  if closed then (w, None)
  else
    match begin_operation e key fingerprint w with
    | (Ok begin, w) =>
        match reservation begin with
        | Some lease =>
            if sent then (w, Some (key, lease))
            else (abandon_or_defer e' key lease w, None)
        | None => (w, None)
        end
    | (Err _, w) => (w, None)
    end.

(** The commands skipped when their reply channel is already closed. *)
Definition cancellable (c : Command) : bool :=
  match c with
  | CProbeReadiness | CBegin _ _ | CStatus _ | CLoadUploadSession _
  | CListUploadSessionsPage _ _ | CListExpiredUploadSessions _ _ | CMatchExpiredUploadSession _
  | CLoadPurgeJob _ | CListPreparedPurgeJobs _ | CListPurgeJobs _
  | CListStateBlockingPaths _ _ => true
  | _ => false
  end.

Inductive Reply :=
| RNone
| RProbe (r : result string unit)
| RStatus (r : result string StoreStatus)
| RBool (r : result string bool)
| RSaveUpload (r : result string StoreUploadSession)
| RUpload (r : result string (option StoredUploadSession))
| RUploads (r : result string (list StoredUploadSession))
| RReject (r : result string RejectUploadSession)
| RExpired (r : result string (list ExpiredUploadSession))
| RPrepare (r : result string StorePurgeJob)
| RPurge (r : result string (option StoredPurgeJob))
| RPurges (r : result string (list StoredPurgeJob))
| RPaths (r : result string StatePathPage).

Definition reply_with {A} (f : result string A -> Reply) (m : W A) (w : StoreWorker)
    : Reply * StoreWorker := let '(r, w) := m w in (f r, w).

Section execute.
(** The readiness probe reads product metadata that is not part of the three
    tables, and rolls its write back. *)
Context (probe_readiness : Env -> result string unit).

(** The other arms of [run]: the answer and the worker. *)
Definition execute (e : Env) (c : Command) (w : StoreWorker) : Reply * StoreWorker :=
  match c with
  | CWake | CBegin _ _ => (RNone, w)
  | CProbeReadiness => (RProbe (probe_readiness e), w)
  | CStatus key => reply_with RStatus (operation_status e key) w
  | CMarkCommitStarted key lease => reply_with RBool (mark_operation_commit_started e key lease) w
  | CComplete key lease outcome => reply_with RBool (complete_operation e key lease outcome) w
  | CSaveUploadSession session ttl_ms => reply_with RSaveUpload (save_upload_session e session ttl_ms) w
  | CLoadUploadSession key => reply_with RUpload (query e (λ db, load_upload_session db key)) w
  | CListUploadSessionsPageBlocking after limit | CListUploadSessionsPage after limit =>
      reply_with RUploads (upload_sessions_page e after limit) w
  | CRejectUploadSession key tp sp ttl_ms => reply_with RReject (reject_upload_session e key tp sp ttl_ms) w
  | CListExpiredUploadSessions after limit => reply_with RExpired (expired_upload_sessions e after limit) w
  | CMatchExpiredUploadSession expected => reply_with RBool (expired_upload_session_matches e expected) w
  | CRemoveUploadSessionIfMatches expected =>
      reply_with RBool (remove_upload_session_if_matches e expected) w
  | CRemoveExpiredUploadSessionIfMatches expected =>
      reply_with RBool (remove_expired_upload_session_if_matches e expected) w
  | CPreparePurgeJob job => reply_with RPrepare (prepare_purge_job e job) w
  | CLoadPurgeJob key => reply_with RPurge (query e (λ db, load_purge_job db key)) w
  | CListPreparedPurgeJobs limit => reply_with RPurges (prepared_purge_jobs e limit) w
  | CListPurgeJobs limit => reply_with RPurges (list_purge_jobs e limit) w
  | CIsStatePathBoundBlocking path => reply_with RBool (state_path_is_bound e path) w
  | CListStateBlockingPaths after limit => reply_with RPaths (state_blocking_paths e after limit) w
  | CMarkPurgeJobReady key revision => reply_with RBool (mark_purge_job_ready e key revision) w
  | CClaimDuePurgeJob => reply_with RPurge (claim_due_purge_job e) w
  | CRetryPurgeJob key delay_ms => reply_with RBool (retry_purge_job e key delay_ms) w
  | CCompletePurgeJob key => reply_with RBool (complete_purge_job e key) w
  | CRemovePurgeJob key => reply_with RBool (remove_purge_job e key) w
  end.

(** One received command: its reply (for [Begin], the delivered envelope) and
    the worker. *)
Definition run_command (closed sent : bool) (e e' : Env) (c : Command) (w : StoreWorker)
    : StoreWorker * option (OperationKey * bytes) :=
  match c with
  | CBegin key fingerprint => run_begin closed sent e e' key fingerprint w
  | _ => if closed && cancellable c then (w, None) else ((execute e c w).2, None)
  end.

(** ** The actor *)

Inductive Phase := PhRetry | PhControls | PhCommand | PhStopped.

Record Actor := mkActor {
  act_worker : StoreWorker;
  act_commands : list Command;
  act_controls : list ControlCommand;
  act_phase : Phase;
  (** controls sent whose wake is still to be sent *)
  act_wakes : nat;
  (** armed envelopes in reply channels *)
  act_inflight : list (OperationKey * bytes);
  (** leases whose requests hold them *)
  act_held : list (OperationKey * bytes)
}.

(** Rust's array types of a command's fields. *)
Definition command_typed (c : Command) : Prop :=
  match c with
  | CSaveUploadSession s _ => upload_typed s
  | CPreparePurgeJob j => purge_typed j
  | CMarkPurgeJobReady _ rev => blen rev = 32
  | _ => True
  end.

(** The commands the methods of [StateStore] send. *)
Inductive sendable : Command -> Prop :=
| send_begin k fp c : StateStore.begin_operation k fp = Ok c -> sendable c
| send_status k c : StateStore.operation_status k = Ok c -> sendable c
| send_mark k l c : StateStore.mark_operation_commit_started k l = Ok c -> sendable c
| send_complete k l o c : StateStore.complete_operation k l o = Ok c -> sendable c
| send_save s ttl c : StateStore.save_upload_session s ttl = Ok c -> sendable c
| send_load k c : StateStore.upload_session k = Ok c -> sendable c
| send_page_blocking a n c : StateStore.upload_sessions_page_blocking a n = Ok c -> sendable c
| send_page a n c : StateStore.upload_sessions_page a n = Ok c -> sendable c
| send_reject k tp sp ttl c : StateStore.reject_upload_session k tp sp ttl = Ok c -> sendable c
| send_expired a n c : StateStore.expired_upload_sessions_page a n = Ok c -> sendable c
| send_matches x c : StateStore.expired_upload_session_matches x = Ok c -> sendable c
| send_remove s c : StateStore.remove_upload_session_if_matches s = Ok c -> sendable c
| send_remove_expired x c : StateStore.remove_expired_upload_session_if_matches x = Ok c -> sendable c
| send_prepare j c : StateStore.prepare_purge_job j = Ok c -> sendable c
| send_load_purge k c : StateStore.purge_job k = Ok c -> sendable c
| send_prepared n c : StateStore.prepared_purge_jobs n = Ok c -> sendable c
| send_purges n c : StateStore.purge_jobs n = Ok c -> sendable c
| send_bound p c : StateStore.state_path_is_bound_blocking p = Ok c -> sendable c
| send_paths a n c : StateStore.state_blocking_paths a n = Ok c -> sendable c
| send_ready k rev c : StateStore.mark_purge_job_ready k rev = Ok c -> sendable c
| send_claim c : StateStore.claim_due_purge_job = Ok c -> sendable c
| send_retry k d c : StateStore.retry_purge_job k d = Ok c -> sendable c
| send_complete_purge k c : StateStore.complete_purge_job k = Ok c -> sendable c
| send_remove_purge k c : StateStore.remove_purge_job k = Ok c -> sendable c
| send_probe c : StateStore.probe_readiness = Ok c -> sendable c.

(** [try_send]: the queue after it, whether or not there was room. *)
Definition try_send (c : Command) (q : list Command) : list Command :=
  if Z.of_nat (length q) <? COMMAND_QUEUE_CAPACITY then q ++ [c] else q.

Inductive actor_step : Actor -> Actor -> Prop :=
(** clients *)
| step_send w q ctl ph n fl held c :
    sendable c -> command_typed c ->
    actor_step (mkActor w q ctl ph n fl held) (mkActor w (try_send c q) ctl ph n fl held)
| step_receive w q ctl ph n fl1 fl2 held kl :
    actor_step (mkActor w q ctl ph n (fl1 ++ kl :: fl2) held)
               (mkActor w q ctl ph n (fl1 ++ fl2) (kl :: held))
| step_cancel w q ctl ph n fl1 fl2 held k l :
    ph <> PhStopped ->
    actor_step (mkActor w q ctl ph n (fl1 ++ (k, l) :: fl2) held)
               (mkActor w q (ctl ++ [Abandon k l]) ph (S n) (fl1 ++ fl2) held)
| step_abandon w q ctl ph n fl h1 h2 k l :
    ph <> PhStopped ->
    actor_step (mkActor w q ctl ph n fl (h1 ++ (k, l) :: h2))
               (mkActor w q (ctl ++ [Abandon k l]) ph (S n) fl (h1 ++ h2))
| step_close w q ctl ph n fl held :
    ph <> PhStopped ->
    actor_step (mkActor w q ctl ph n fl held) (mkActor w q (ctl ++ [Shutdown]) ph (S n) fl held)
| step_wake w q ctl ph n fl held :
    actor_step (mkActor w q ctl ph (S n) fl held) (mkActor w (try_send CWake q) ctl ph n fl held)
(** the worker *)
| step_retry e w q ctl n fl held :
    actor_step (mkActor w q ctl PhRetry n fl held)
               (mkActor (retry_one_deferred_abandon e w) q ctl PhControls n fl held)
| step_control e w q ctl n fl held k l :
    actor_step (mkActor w q (Abandon k l :: ctl) PhControls n fl held)
               (mkActor (abandon_or_defer e k l w) q ctl PhControls n fl held)
| step_shutdown w q ctl n fl held :
    actor_step (mkActor w q (Shutdown :: ctl) PhControls n fl held)
               (mkActor w q ctl PhStopped n fl held)
| step_controls_done w q n fl held :
    actor_step (mkActor w q [] PhControls n fl held) (mkActor w q [] PhCommand n fl held)
| step_command closed sent e e' c w q ctl n fl held w' env :
    run_command closed sent e e' c w = (w', env) ->
    actor_step (mkActor w (c :: q) ctl PhCommand n fl held)
               (mkActor w' q ctl PhRetry n (fl ++ option_list env) held).
End execute.
