(* ===== verification/ActorSafety.v ===== *)
(** Properties of the state-store actor ([Actor]): it keeps the three tables
    valid, no reservation is ever left without somebody responsible for it, no
    control waits for a command that does not come, and deferred
    abandonments drain. *)

From S2P Require Import Prelude Bytes StdPath StoreModel Database StoreWorker Operations OperationLifecycle Paging Uploads UploadLifecycle Purges PurgeLifecycle Actor.
From stdpp Require Import base numbers list gmap strings relations.

Local Open Scope Z_scope.

(** ** Open leases *)

Definition row_open (r : OperationRow) : bool :=
  (or_state r =? OPERATION_RESERVED) || (or_state r =? OPERATION_COMMIT_STARTED).

(** The record of [k] is reserved or committing under lease [l]. *)
Definition lease_open (m : gmap StoreKey OperationRow) (k : StoreKey) (l : bytes) : Prop :=
  exists r, m !! k = Some r /\ row_open r = true /\ or_lease_token r = l.

(** A change of the table that opens no lease. *)
Definition quiet (m m' : gmap StoreKey OperationRow) : Prop :=
  forall k l, lease_open m' k l -> lease_open m k l.

#[export] Instance quiet_preorder : PreOrder quiet.
Proof. split; [by intros m k l|]. intros m1 m2 m3 H1 H2 k l H. by apply H1, H2. Qed.

Lemma quiet_delete P m : quiet m (sql_delete P m).2.
Proof.
  intros k l (r & Hk & Ho). rewrite lookup_sql_delete in Hk.
  destruct (m !! k) as [r'|] eqn:Hr; [|done]. destruct (P k r'); [done|].
  injection Hk as ->. by exists r.
Qed.

Lemma quiet_update check P f m n m' :
  (forall r, row_open (f r) = true -> or_lease_token (f r) = or_lease_token r) ->
  (forall k r, P k r = true -> row_open (f r) = true -> row_open r = true) ->
  sql_update check P f m = Ok (n, m') -> quiet m m'.
Proof.
  intros Hl Ho (_ & Hm & _)%sql_update_Ok k l (r & Hk & Hopen & Hlease).
  rewrite Hm in Hk. destruct (m !! k) as [r'|] eqn:Hr; [|done]. injection Hk as <-.
  exists r'. split; [done|]. destruct (P k r') eqn:HP; [|done].
  split; [by eapply Ho|]. by rewrite <- Hl.
Qed.

Lemma quiet_start k l now m n m' :
  sql_update operation_check (leased k l [OPERATION_RESERVED])
    (with_state OPERATION_COMMIT_STARTED now) m = Ok (n, m') -> quiet m m'.
Proof.
  apply quiet_update; [done|]. intros k' r Hle _.
  apply leased_true in Hle as (_ & _ & Hs%list_elem_of_singleton). unfold row_open. by rewrite Hs.
Qed.

Lemma quiet_finish P o now t m n m' :
  sql_update operation_check P (with_outcome o now t) m = Ok (n, m') -> quiet m m'.
Proof. by apply quiet_update. Qed.

Definition ops (w : StoreWorker) := operations (connection w).

Lemma status_quiet e k w r w' : operation_status e k w = (r, w') -> quiet (ops w) (ops w').
Proof.
  intros H. apply (timed_transaction_nolim e (status_body k)) in H
    as [(Hc & _)|(a & db & -> & H & Hdb & _)]; unfold ops; [by rewrite Hc|]. rewrite Hdb.
  apply bind_Ok in H as (ex & _ & H). apply bind_Ok in H as (s & _ & [= _ <-]). apply quiet_delete.
Qed.

Lemma mark_quiet e k l w r w' :
  mark_operation_commit_started e k l w = (r, w') -> quiet (ops w) (ops w').
Proof.
  intros H. apply (timed_transaction_nolim e (mark_body k l)) in H
    as [(Hc & _)|(a & db & -> & H & Hdb & _)]; unfold ops; [by rewrite Hc|]. rewrite Hdb.
  apply bind_Ok in H as ([n t] & Ht & [= _ <-]). by eapply quiet_start.
Qed.

Lemma complete_quiet e k l o w r w' :
  complete_operation e k l o w = (r, w') -> quiet (ops w) (ops w').
Proof.
  intros H. apply (timed_transaction e _ (λ _ now x, complete_body k l o now x)) in H
    as [(Hc & _)|(x & a & db & -> & _ & H & Hdb & _)]; unfold ops; [by rewrite Hc|]. rewrite Hdb.
  apply bind_Ok in H as ([n t] & Ht & [= _ <-]). by eapply quiet_finish.
Qed.

(** A successful abandonment closes its lease and opens none. *)
Lemma abandon_closes e k l w r w' :
  abandon_operation e k l w = (r, w') ->
  quiet (ops w) (ops w') /\ (forall u, r = Ok u -> ~ lease_open (ops w') k l).
Proof.
  intros H. apply (timed_transaction e _ (λ _ now x, abandon_body k l now x)) in H
    as [(Hc & _ & err & ->)|(x & a & db & -> & _ & H & Hdb & _)]; unfold ops.
  { rewrite Hc. split; [done|]. by intros u [=]. }
  rewrite Hdb. unfold abandon_body in H.
  rewrite (surjective_pairing (sql_delete _ _)) in H. cbn [operations set_operations] in H.
  set (m := operations (connection w)) in *.
  pose proof (quiet_delete (leased k l [OPERATION_RESERVED]) m) as Hq.
  unfold leased in H, Hq. rewrite sql_delete_one in H, Hq.
  destruct (m !! k) as [r0|] eqn:Hk.
  2: { cbn in H. destruct (sql_update _ _ _ m) as [[n t]|] eqn:Hu; [|done].
       injection H as _ <-. cbn. split; [by eapply quiet_finish|].
       intros u _ (r1 & Hr1 & _). apply sql_update_Ok in Hu as (_ & Hm & _).
       by rewrite Hm, Hk in Hr1. }
  destruct (beqb (or_lease_token r0) l && _) eqn:Hb; cbn in H.
  { injection H as _ <-. cbn. split; [done|]. intros u _ (r1 & Hr1 & _).
    by rewrite lookup_delete_eq in Hr1. }
  destruct (sql_update _ _ _ m) as [[n t]|] eqn:Hu; [|done]. injection H as _ <-. cbn.
  split; [by eapply quiet_finish|]. intros u _ (r1 & Hr1 & Hopen & Hlease).
  apply sql_update_Ok in Hu as (_ & Hm & _). rewrite Hm, Hk in Hr1. cbn in Hr1.
  unfold key_is in Hr1. rewrite bool_decide_eq_true_2 in Hr1 by done. cbn [andb] in Hr1.
  destruct (beqb (or_lease_token r0) l && bool_decide (or_state r0 ∈ [OPERATION_COMMIT_STARTED]))
    eqn:Hb2; injection Hr1 as <-; [done|].
  rewrite Hlease, beqb_refl in Hb, Hb2. cbn in Hb, Hb2. bool_prop.
  unfold row_open in Hopen. bool_prop. destruct Hopen; bool_prop; set_solver.
Qed.

Lemma begin_opens e k fp w r w' :
  begin_operation e k fp w = (r, w') ->
  forall k' l, lease_open (ops w') k' l ->
    lease_open (ops w) k' l \/ (k' = k /\ r = Ok (BStarted l)).
Proof.
  intros H k' l. apply (timed_transaction_plain e (begin_body k fp (env_uuid e))) in H
    as [(Hc & _ & _)|(a & db & -> & H & Hdb & _)]; unfold ops; [rewrite Hc; auto|]. rewrite Hdb.
  set (now := last_ms (clock w')) in *.
  pose proof (quiet_delete (expired_row now) (operations (connection w))) as Hq.
  apply bind_Ok in H as ([ex|] & Hload & H).
  - apply bind_Ok in H as (b & _ & [= _ <-]). intros Ho. left. by apply Hq.
  - cbv zeta in H. destruct (_ || _); [injection H as _ <-; intros Ho; left; by apply Hq|].
    apply bind_Ok in H as (t & Ht & [= <- <-]). apply sql_insert_Ok in Ht as (Hk & _ & ->).
    intros (r1 & Hr1 & Hopen & Hl). cbn in Hr1. destruct (decide (k' = k)) as [->|Hne].
    + rewrite lookup_insert_eq in Hr1. injection Hr1 as <-. cbn in Hl. subst l. auto.
    + rewrite lookup_insert_ne in Hr1 by done. left. apply Hq. by exists r1.
Qed.

(** ** One command *)

Definition valid_store (w : StoreWorker) : Prop :=
  operations_inv (limits w) (connection w) /\
  uploads_inv (limits w) (upload_sessions (connection w)) /\
  purges_inv (limits w) (purge_jobs (connection w)).

(** A command the queue may hold. *)
Definition command_ok (c : Command) : Prop := (c = CWake \/ sendable c) /\ command_typed c.

(** What a worker call may do: one step of one of the three interfaces. *)
Inductive store_step : StoreWorker -> StoreWorker -> Prop :=
| st_op w w' : op_step w w' -> store_step w w'
| st_up l w w' : up_step l w w' -> store_step w w'
| st_pu l w w' : pu_step l w w' -> store_step w w'
| st_none w : store_step w w.

Lemma store_step_valid w w' : store_step w w' -> valid_store w -> valid_store w'.
Proof.
  intros Hs (Ho & Hu & Hp). destruct Hs as [w w' H|l w w' H|l w w' H|w]; [..|done].
  - destruct (op_step_result _ _ H) as [((Hlim & _) & Hup & Hpu) He].
    unfold valid_store. rewrite Hlim, Hup, Hpu. split_and!; [|done..]. by eapply effect_inv.
  - destruct (up_step_result _ _ _ H) as [((Hlim & _) & Hop & Hpu) He].
    unfold valid_store, operations_inv in *. rewrite Hlim, Hop, Hpu.
    split_and!; [apply Ho..| |done]. by eapply up_effect_inv.
  - destruct (pu_step_result _ _ _ H) as [((Hlim & _) & Hop & Hup) He].
    unfold valid_store, operations_inv in *. rewrite Hlim, Hop, Hup.
    split_and!; [apply Ho..|done|]. by eapply pu_effect_inv.
Qed.

Lemma store_step_frame w w' :
  store_step w w' -> limits w' = limits w /\ deferred_abandons w' = deferred_abandons w.
Proof.
  destruct 1 as [w w' H|l w w' H|l w w' H|w]; [..|done].
  - by destruct (op_step_result _ _ H) as [((? & ? & _) & _) _].
  - by destruct (up_step_result _ _ _ H) as [((? & ? & _) & _) _].
  - by destruct (pu_step_result _ _ _ H) as [((? & ? & _) & _) _].
Qed.

Section actor.
Context (probe_readiness : Env -> result string unit).
Abbreviation execute := (execute probe_readiness).
Abbreviation run_command := (run_command probe_readiness).
Abbreviation actor_step := (actor_step probe_readiness).

(** The upload and purge tables of the source and the target agree on the
    operations. *)
Lemma up_step_quiet l w w' : up_step l w w' -> quiet (ops w) (ops w').
Proof. intros [(_ & Hop & _) _]%up_step_result. unfold ops. by rewrite Hop. Qed.
Lemma pu_step_quiet l w w' : pu_step l w w' -> quiet (ops w) (ops w').
Proof. intros [(_ & Hop & _) _]%pu_step_result. unfold ops. by rewrite Hop. Qed.

(** The validation a sendable command passed. *)
Definition validated (c : Command) : Prop :=
  match c with
  | CComplete _ _ o => validate_outcome o = Ok tt
  | CSaveUploadSession s _ => validate_upload s = Ok tt
  | CPreparePurgeJob j => validate_new_purge j = Ok tt
  | _ => True
  end.

Lemma sendable_validated c : sendable c -> validated c.
Proof.
  destruct 1 as [? ? ? H|? ? H|? ? ? H|? ? ? ? H|? ? ? H|? ? H|? ? ? H|? ? ? H|? ? ? ? ? H|? ? ? H
    |? ? H|? ? H|? ? H|? ? H|? ? H|? ? H|? ? H|? ? H|? ? ? H|? ? ? H|? H|? ? ? H|? ? H|? ? H|? H];
    cbv beta delta [
    StateStore.begin_operation StateStore.operation_status
    StateStore.mark_operation_commit_started StateStore.complete_operation
    StateStore.save_upload_session StateStore.upload_session
    StateStore.upload_sessions_page_blocking StateStore.upload_sessions_page
    StateStore.reject_upload_session StateStore.expired_upload_sessions_page
    StateStore.expired_upload_session_matches StateStore.remove_upload_session_if_matches
    StateStore.remove_expired_upload_session_if_matches StateStore.prepare_purge_job
    StateStore.purge_job StateStore.prepared_purge_jobs StateStore.purge_jobs
    StateStore.state_path_is_bound_blocking StateStore.state_blocking_paths
    StateStore.mark_purge_job_ready StateStore.claim_due_purge_job StateStore.retry_purge_job
    StateStore.complete_purge_job StateStore.remove_purge_job StateStore.probe_readiness] in H;
    repeat (apply bind_Ok in H as (? & ? & H)); injection H as <-;
    repeat match goal with u : unit |- _ => destruct u end; done.
Qed.

Lemma execute_step e c w :
  validated c -> command_typed c ->
  store_step w (execute e c w).2 /\ quiet (ops w) (ops (execute e c w).2).
Proof.
  intros Hv Ht.
  assert (forall l w', up_step l w w' -> store_step w w' /\ quiet (ops w) (ops w')) as Hup
    by (intros l w' H; split; [by eapply st_up|by eapply up_step_quiet]).
  assert (forall l w', pu_step l w w' -> store_step w w' /\ quiet (ops w) (ops w')) as Hpu
    by (intros l w' H; split; [by eapply st_pu|by eapply pu_step_quiet]).
  destruct c; cbn [Actor.execute snd]; unfold reply_with;
    try (match goal with |- context [let '(_, _) := ?m w in _] => destruct (m w) as [r w'] eqn:Hm end;
         cbn [snd]);
    try (split; [apply st_none|done]).
  - split; [apply st_op; by eapply step_status|by eapply status_quiet].
  - split; [apply st_op; by eapply step_mark|by eapply mark_quiet].
  - split; [apply st_op; by eapply step_complete|by eapply complete_quiet].
  - eapply Hup. by eapply up_step_save.
  - apply query_keeps in Hm as ->. split; [apply st_none|done].
  - eapply Hup. by eapply up_step_page.
  - eapply Hup. by eapply up_step_page.
  - eapply Hup. by eapply up_step_reject.
  - eapply Hup. by eapply up_step_expired.
  - eapply Hup. by eapply up_step_matches.
  - eapply Hup. by eapply up_step_remove.
  - eapply Hup. by eapply up_step_remove_expired.
  - eapply Hpu. by eapply pu_step_prepare.
  - apply query_keeps in Hm as ->. split; [apply st_none|done].
  - eapply Hpu. by eapply pu_step_prepared.
  - eapply Hpu. by eapply pu_step_list.
  - eapply Hpu. by eapply pu_step_bound.
  - eapply Hpu. by eapply pu_step_paths.
  - eapply Hpu. by eapply pu_step_ready.
  - eapply Hpu. by eapply pu_step_claim.
  - eapply Hpu. by eapply pu_step_retry.
  - eapply Hpu. by eapply pu_step_complete.
  - eapply Hpu. by eapply pu_step_remove.
Qed.

(** ** The worker's own transitions *)

Lemma valid_store_set_deferred w d : valid_store (set_deferred w d) <-> valid_store w.
Proof. done. Qed.

Lemma abandon_step e k l w r w' :
  abandon_operation e k l w = (r, w') ->
  store_step w w' /\ quiet (ops w) (ops w') /\ (forall u, r = Ok u -> ~ lease_open (ops w') k l).
Proof.
  intros H. split; [apply st_op; by eapply Operations.step_abandon|]. by eapply abandon_closes.
Qed.

(** Abandoning keeps the store valid, and the lease is closed or deferred. *)
Lemma abandon_or_defer_spec e k l w w' :
  abandon_or_defer e k l w = w' -> valid_store w ->
  valid_store w' /\ quiet (ops w) (ops w') /\
  (forall kl, kl ∈ deferred_abandons w -> kl ∈ deferred_abandons w') /\
  ((k, l) ∈ deferred_abandons w' \/ ~ lease_open (ops w') k l).
Proof.
  unfold abandon_or_defer. destruct (abandon_operation e k l w) as [[u|err] w1] eqn:Ha;
    intros <- Hv; apply abandon_step in Ha as (Hs & Hq & Hc);
    destruct (store_step_frame _ _ Hs) as [_ Hd]; pose proof (store_step_valid _ _ Hs Hv) as Hv1.
  - split_and!; [done..|by rewrite Hd|]. right. by eapply Hc.
  - unfold defer_abandon. case_bool_decide as Hin.
    + split_and!; [done..|by rewrite Hd|auto].
    + split_and!; [done..| |].
      * intros kl Hkl. cbn. rewrite Hd, elem_of_app. auto.
      * left. cbn. set_solver.
Qed.

Lemma retry_spec e w :
  valid_store w ->
  valid_store (retry_one_deferred_abandon e w) /\
  quiet (ops w) (ops (retry_one_deferred_abandon e w)) /\
  (forall k l, (k, l) ∈ deferred_abandons w ->
     (k, l) ∈ deferred_abandons (retry_one_deferred_abandon e w) \/
     ~ lease_open (ops (retry_one_deferred_abandon e w)) k l).
Proof.
  intros Hv. unfold retry_one_deferred_abandon.
  destruct (deferred_abandons w) as [|[k l] rest] eqn:Hd; [split_and!; [done..|set_solver]|].
  destruct (abandon_operation e k l (set_deferred w rest)) as [[u|err] w1] eqn:Ha;
    apply abandon_step in Ha as (Hs & Hq & Hc);
    destruct (store_step_frame _ _ Hs) as [_ Hd1]; cbn in Hd1;
    pose proof (store_step_valid _ _ Hs Hv) as Hv1.
  - split_and!; [done..|]. intros k' l' [[= -> ->]|Hin]%elem_of_cons.
    + right. by eapply Hc.
    + left. by rewrite Hd1.
  - split_and!; [done..|]. intros k' l' Hin. left. cbn. rewrite Hd1. set_solver.
Qed.

(** ** The actor's invariant *)

(** Somebody is responsible for ending lease [l] of [k]: the request that
    received it, the envelope on its way there, a queued abandonment, or a
    deferred one. *)
Definition covered (a : Actor) (k : StoreKey) (l : bytes) : Prop :=
  (k, l) ∈ act_inflight a \/ (k, l) ∈ act_held a \/
  Abandon k l ∈ act_controls a \/ (k, l) ∈ deferred_abandons (act_worker a).

Definition woken (a : Actor) : Prop :=
  act_phase a = PhCommand -> act_controls a <> [] -> act_commands a <> [] \/ (0 < act_wakes a)%nat.

Definition actor_inv (a : Actor) : Prop :=
  valid_store (act_worker a) /\ Forall command_ok (act_commands a) /\
  (forall k l, lease_open (ops (act_worker a)) k l -> covered a k l) /\ woken a.

Lemma try_send_ok c q : command_ok c -> Forall command_ok q -> Forall command_ok (try_send c q).
Proof.
  intros Hc Hq. unfold try_send. destruct (_ <? _); [|done]. apply Forall_app. auto.
Qed.

Lemma try_send_not_nil c q : try_send c q <> [].
Proof.
  unfold try_send. destruct (_ <? _) eqn:H; [by destruct q|]. intros ->. done.
Qed.

Lemma run_begin_spec closed sent e e' k fp w w' env :
  run_begin closed sent e e' k fp w = (w', env) -> valid_store w ->
  valid_store w' /\
  (forall kl, kl ∈ deferred_abandons w -> kl ∈ deferred_abandons w') /\
  (forall k' l, lease_open (ops w') k' l ->
     lease_open (ops w) k' l \/ env = Some (k', l) \/ (k', l) ∈ deferred_abandons w').
Proof.
  unfold run_begin. destruct closed; [intros [= <- <-]; auto|].
  destruct (begin_operation e k fp w) as [res w1] eqn:Hb. intros H Hv.
  assert (store_step w w1) as Hs by (apply st_op; by eapply step_begin).
  pose proof (store_step_valid _ _ Hs Hv) as Hv1. destruct (store_step_frame _ _ Hs) as [_ Hd].
  pose proof (begin_opens _ _ _ _ _ _ Hb) as Hopen.
  destruct res as [b|err]; [destruct b as [lease| |o| |]; cbn in H|]; [destruct sent|..];
    [| |injection H as <- <-; split_and!; [done|by rewrite Hd|]; intros k' l Hl;
          destruct (Hopen k' l Hl) as [?|[_ [=]]]; auto..].
  - injection H as <- <-. split_and!; [done|by rewrite Hd|]. intros k' l Hl.
    destruct (Hopen k' l Hl) as [?|[-> [= ->]]]; auto.
  - injection H as Hw <-. destruct (abandon_or_defer_spec _ _ _ _ _ Hw Hv1) as (Hv2 & Hq & Hk & Hc).
    split_and!; [done|intros kl; rewrite <- Hd; apply Hk|]. intros k' l Hl.
    destruct (Hopen k' l (Hq _ _ Hl)) as [?|[-> [= ->]]]; [auto|]. destruct Hc; [auto|done].
Qed.

Lemma run_command_spec closed sent e e' c w w' env :
  command_ok c -> run_command closed sent e e' c w = (w', env) -> valid_store w ->
  valid_store w' /\
  (forall kl, kl ∈ deferred_abandons w -> kl ∈ deferred_abandons w') /\
  (forall k' l, lease_open (ops w') k' l ->
     lease_open (ops w) k' l \/ env = Some (k', l) \/ (k', l) ∈ deferred_abandons w').
Proof.
  intros [Hsend Hty] H Hv.
  assert ((exists k fp, c = CBegin k fp) \/ forall k fp, c <> CBegin k fp) as [(k & fp & ->)|Hnb]
    by (destruct c; eauto).
  { by eapply run_begin_spec. }
  assert (validated c) as Hval by (destruct Hsend as [->|?]; [done|by apply sendable_validated]).
  assert (w' = w \/ w' = (execute e c w).2) as Hw.
  { destruct c; try (by edestruct Hnb); cbn in H; try (destruct closed; cbn in H);
      injection H as <- <-; auto. }
  destruct Hw as [->| ->]; [by split_and!; auto|].
  destruct (execute_step e c w Hval Hty) as [Hs Hq]. destruct (store_step_frame _ _ Hs) as [_ Hd].
  split_and!; [by eapply store_step_valid|by rewrite Hd|auto].
Qed.

Lemma actor_step_inv a a' : actor_step a a' -> actor_inv a -> actor_inv a'.
Proof.
  destruct 1 as [w q ctl ph n fl held c Hsend Hty|w q ctl ph n fl1 fl2 held kl
    |w q ctl ph n fl1 fl2 held k l Hph|w q ctl ph n fl h1 h2 k l Hph|w q ctl ph n fl held Hph
    |w q ctl ph n fl held|e w q ctl n fl held|e w q ctl n fl held k l|w q ctl n fl held
    |w q n fl held|closed sent e e' c w q ctl n fl held w' env Hrun];
    intros (Hv & Hq & Hcov & Hwake); unfold actor_inv, covered, woken in *; cbn in *.
  - split_and!; [done|by apply try_send_ok; [split; auto|]|done|].
    intros _ _. left. apply try_send_not_nil.
  - split_and!; [done..| |done]. intros k l Hl. specialize (Hcov k l Hl). set_solver.
  - split_and!; [done..| |intros _ _; right; lia]. intros k' l' Hl. specialize (Hcov k' l' Hl).
    rewrite elem_of_app, elem_of_cons in Hcov. rewrite !elem_of_app, list_elem_of_singleton.
    destruct Hcov as [[?|[[= -> ->]|?]]|?]; tauto.
  - split_and!; [done..| |intros _ _; right; lia]. intros k' l' Hl. specialize (Hcov k' l' Hl).
    rewrite elem_of_app, elem_of_cons in Hcov. rewrite !elem_of_app, list_elem_of_singleton.
    destruct Hcov as [?|[[?|[[= -> ->]|?]]|?]]; tauto.
  - split_and!; [done..| |intros _ _; right; lia]. intros k' l' Hl. specialize (Hcov k' l' Hl).
    set_solver.
  - split_and!; [done| |done|]; [apply try_send_ok; [split; [auto|done]|done]|].
    intros _ _. left. apply try_send_not_nil.
  - destruct (retry_spec e w Hv) as (Hv' & Hqu & Hd). split_and!; [done..| |done].
    intros k l Hl. destruct (Hcov k l (Hqu _ _ Hl)) as [?|[?|[?|Hin]]]; auto.
    destruct (Hd k l Hin); auto. done.
  - destruct (abandon_or_defer_spec e k l w _ eq_refl Hv) as (Hv' & Hqu & Hd & Hc).
    split_and!; [done..| |done].
    intros k' l' Hl. destruct (Hcov k' l' (Hqu _ _ Hl)) as [?|[?|[[[= -> ->]|?]%elem_of_cons|Hin]]]; auto.
    destruct Hc; [auto|done].
  - split_and!; [done..| |done]. intros k l Hl. specialize (Hcov k l Hl). set_solver.
  - split_and!; [done..|]. done.
  - apply Forall_cons in Hq as [Hc Hq].
    destruct (run_command_spec _ _ _ _ _ _ _ _ Hc Hrun Hv) as (Hv' & Hd & Hopen).
    split_and!; [done..| |done]. intros k l Hl. rewrite elem_of_app.
    destruct (Hopen k l Hl) as [Hold|[->|?]]; [|cbn; set_solver|auto].
    destruct (Hcov k l Hold) as [?|[?|[?|Hin]]]; auto.
Qed.

Lemma actor_steps_inv a a' : rtc actor_step a a' -> actor_inv a -> actor_inv a'.
Proof. induction 1; [done|]. intros. by eapply IHrtc, actor_step_inv. Qed.
End actor.

(** A freshly opened actor: recovery left no open lease. *)
Definition started (a : Actor) : Prop :=
  valid_store (act_worker a) /\ (forall k l, ~ lease_open (ops (act_worker a)) k l) /\
  act_commands a = [] /\ act_controls a = [] /\ act_phase a = PhRetry.

Lemma started_inv a : started a -> actor_inv a.
Proof.
  intros (Hv & Hno & Hq & Hc & Hp). split_and!; [done| | |].
  - rewrite Hq. constructor.
  - intros k l Hl. by destruct (Hno k l).
  - intros Hph. congruence.
Qed.

(** C1: the actor keeps the durable state valid.  Whatever its clients send
    through the store's interface - in any order and interleaving, with
    cancelled requests, full queues, clock failures and SQLite errors - the
    operation, upload and purge tables satisfy their invariants after every
    step. *)
Theorem actor_keeps_store_valid probe a a' :
  started a -> rtc (actor_step probe) a a' -> valid_store (act_worker a').
Proof.
  intros Hs Hr. by destruct (actor_steps_inv probe a a' Hr (started_inv a Hs)).
Qed.

(** No reservation leaks.  At every moment, each operation record that is
    reserved or committing belongs to a request that holds its lease, to an
    undelivered reply whose drop abandons it, to a queued abandonment, or to a
    deferred one: there is no reachable state in which a lease blocks its key
    and nobody will ever resolve it. *)
Theorem no_reservation_leaks probe a a' k l :
  started a -> rtc (actor_step probe) a a' -> lease_open (ops (act_worker a')) k l ->
  covered a' k l.
Proof.
  intros Hs Hr. destruct (actor_steps_inv probe a a' Hr (started_inv a Hs)) as (_ & _ & Hc & _).
  apply Hc.
Qed.

(** No control is stuck behind an idle worker.  Whenever the worker is
    about to wait for a command while controls are pending, a command is
    already queued or the sender that queued the control is about to queue its
    wake: the worker never sleeps on an unprocessed abandonment or shutdown. *)
Theorem no_lost_wakeup probe a a' :
  started a -> rtc (actor_step probe) a a' ->
  act_phase a' = PhCommand -> act_controls a' <> [] ->
  act_commands a' <> [] \/ (0 < act_wakes a')%nat.
Proof.
  intros Hs Hr. by destruct (actor_steps_inv probe a a' Hr (started_inv a Hs)) as (_ & _ & _ & Hw).
Qed.

(** ** Deferred abandonments drain *)

(** One retry at a moment when the clock and SQLite work. *)
Definition working_retry (w w' : StoreWorker) : Prop :=
  exists e, env_ok e w /\ i64_min <= env_now e w + ttl_ms (limits w) <= i64_max /\
    retry_one_deferred_abandon e w = w'.

Lemma abandon_succeeds e k l w :
  operations_inv (limits w) (connection w) -> env_ok e w ->
  i64_min <= env_now e w + ttl_ms (limits w) <= i64_max ->
  exists w', abandon_operation e k l w = (Ok tt, w').
Proof.
  intros [Hwf _] He Ht.
  destruct (abandon_body_runs k l (env_now e w) (env_now e w + ttl_ms (limits w)) (connection w) Hwf)
    as (db' & Hrun & _).
  destruct (timed_run e (λ lim now, expiration_time now (ttl_ms lim))
    (λ _ now x, abandon_body k l now x) w (env_now e w + ttl_ms (limits w)) tt db')
    as (w' & Hw & _); [done| |done|by exists w'].
  unfold expiration_time. by apply ok_or_Ok, i64_try_from_Some.
Qed.

Lemma working_retry_pops w w' k l rest :
  valid_store w -> deferred_abandons w = (k, l) :: rest -> working_retry w w' ->
  valid_store w' /\ deferred_abandons w' = rest /\ quiet (ops w) (ops w') /\
  ~ lease_open (ops w') k l.
Proof.
  intros Hv Hd (e & He & Ht & <-). unfold retry_one_deferred_abandon. rewrite Hd.
  destruct (abandon_succeeds e k l (set_deferred w rest)) as [w1 Hw1]; [apply Hv|done|done|].
  rewrite Hw1. apply abandon_step in Hw1 as (Hs & Hq & Hc).
  destruct (store_step_frame _ _ Hs) as [_ Hd1].
  split_and!; [by eapply store_step_valid|by rewrite Hd1|done|by eapply Hc].
Qed.

Lemma working_retries_quiet n w w' :
  valid_store w -> n = length (deferred_abandons w) -> nsteps working_retry n w w' ->
  quiet (ops w) (ops w').
Proof.
  intros Hv Hn Hs. revert Hv Hn. induction Hs as [w|n w1 w2 w3 H1 _ IH]; intros Hv Hn; [done|].
  destruct (deferred_abandons w1) as [|[k l] rest] eqn:Hd; [done|].
  destruct (working_retry_pops w1 w2 k l rest Hv Hd H1) as (Hv2 & Hd2 & Hq & _).
  etrans; [exact Hq|]. apply IH; [done|]. rewrite Hd2. cbn in Hn. lia.
Qed.

(** Deferred cleanup finishes.  Each working turn of the actor resolves
    the oldest deferred abandonment, so after as many working turns as there
    are deferred pairs the queue is empty and every one of those leases is
    closed: its record is gone or carries the uncertain outcome. *)
Theorem deferred_abandons_drain w w' :
  valid_store w -> nsteps working_retry (length (deferred_abandons w)) w w' ->
  deferred_abandons w' = [] /\
  forall k l, (k, l) ∈ deferred_abandons w -> ~ lease_open (ops w') k l.
Proof.
  intros Hv Hs. remember (length (deferred_abandons w)) as n eqn:Hn. revert Hv Hn.
  induction Hs as [w|n w1 w2 w3 H1 Hs IH]; intros Hv Hn.
  - symmetry in Hn. apply nil_length_inv in Hn. rewrite Hn. split; [done|set_solver].
  - destruct (deferred_abandons w1) as [|[k l] rest] eqn:Hd; [done|].
    destruct (working_retry_pops w1 w2 k l rest Hv Hd H1) as (Hv2 & Hd2 & _ & Hc).
    cbn in Hn. assert (n = length (deferred_abandons w2)) as Hn2 by (rewrite Hd2; lia).
    destruct (IH Hv2 Hn2) as [Hempty Hclosed]. split; [done|].
    intros k' l' [[= -> ->]|Hin]%elem_of_cons; [|apply Hclosed; by rewrite Hd2].
    intros Ho. by apply Hc, (working_retries_quiet n w2 w3).
Qed.

(** ** A concrete run *)

Definition demo_probe (_ : Env) : result string unit := Ok tt.
Definition demo_actor : Actor := mkActor demo_worker [] [] PhRetry 0 [] [].
(** A begin was executed and its reply is on its way. *)
Definition demo_actor_begun : Actor :=
  mkActor demo_reserved [] [] PhRetry 0 [(demo_key, demo_lease)] [].
(** The worker is about to wait while a shutdown is pending. *)
Definition demo_actor_closing : Actor := mkActor demo_worker [CBegin demo_key demo_fp] [Shutdown] PhCommand 1 [] [].

Lemma demo_started : started demo_actor.
Proof.
  split; [|split; [|done]].
  - split; [|split]; [apply operations_inv_empty|apply uploads_inv_empty|apply purges_inv_empty]; cbn; lia.
  - intros k l (r & Hr & _). cbn in Hr. by rewrite lookup_empty in Hr.
Qed.

Lemma demo_begin_runs :
  run_command demo_probe false true (demo_env 0) (demo_env 0) (CBegin demo_key demo_fp) demo_worker
    = (demo_reserved, Some (demo_key, demo_lease)).
Proof. vm_compute. reflexivity. Qed.

Lemma demo_actor_ready :
  rtc (actor_step demo_probe) demo_actor
    (mkActor demo_worker [CBegin demo_key demo_fp] [] PhCommand 0 [] []).
Proof.
  eapply rtc_l; [apply (step_send demo_probe demo_worker [] [] PhRetry 0 [] [] (CBegin demo_key demo_fp));
    [by eapply send_begin|done]|].
  eapply rtc_l; [apply (step_retry demo_probe (demo_env 0))|].
  eapply rtc_l; [apply (step_controls_done demo_probe)|]. reflexivity.
Qed.

Lemma demo_actor_runs :
  rtc (actor_step demo_probe) demo_actor demo_actor_begun /\
  rtc (actor_step demo_probe) demo_actor demo_actor_closing.
Proof.
  split; (eapply rtc_r; [exact demo_actor_ready|]).
  - apply (step_command demo_probe false true (demo_env 0) (demo_env 0) (CBegin demo_key demo_fp)
      demo_worker [] [] 0 [] [] _ _ demo_begin_runs).
  - by apply (step_close demo_probe).
Qed.

Lemma demo_begun_valid : valid_store demo_reserved.
Proof.
  exact (proj1 (actor_steps_inv demo_probe demo_actor demo_actor_begun (proj1 demo_actor_runs)
    (started_inv _ demo_started))).
Qed.

Lemma actor_keeps_store_valid_witness : valid_store (act_worker demo_actor_begun).
Proof.
  exact (actor_keeps_store_valid demo_probe demo_actor demo_actor_begun demo_started
    (proj1 demo_actor_runs)).
Defined.

Lemma demo_lease_open : lease_open (ops demo_reserved) demo_key demo_lease.
Proof. eexists. split; [vm_compute; reflexivity|]. split; reflexivity. Qed.

Lemma no_reservation_leaks_witness : covered demo_actor_begun demo_key demo_lease.
Proof.
  exact (no_reservation_leaks demo_probe demo_actor demo_actor_begun demo_key demo_lease demo_started
    (proj1 demo_actor_runs) demo_lease_open).
Defined.

Lemma no_lost_wakeup_witness :
  act_commands demo_actor_closing <> [] \/ (0 < act_wakes demo_actor_closing)%nat.
Proof.
  apply (no_lost_wakeup demo_probe demo_actor demo_actor_closing demo_started (proj2 demo_actor_runs));
    [reflexivity|discriminate].
Defined.

Definition demo_deferred : StoreWorker := set_deferred demo_reserved [(demo_key, demo_lease)].

Lemma deferred_abandons_drain_witness :
  lease_open (ops demo_deferred) demo_key demo_lease /\
  exists w', nsteps working_retry 1 demo_deferred w' /\ deferred_abandons w' = [] /\
    ~ lease_open (ops w') demo_key demo_lease.
Proof.
  split; [exact demo_lease_open|].
  exists (retry_one_deferred_abandon (demo_env 9) demo_deferred).
  assert (working_retry demo_deferred (retry_one_deferred_abandon (demo_env 9) demo_deferred)) as Hr.
  { exists (demo_env 9). split; [split; [reflexivity|]; do 2 eexists; vm_compute; reflexivity|].
    split; [|reflexivity]. change (limits demo_deferred) with (limits demo_reserved).
    split; apply Z.leb_le; vm_compute; reflexivity. }
  assert (nsteps working_retry 1 demo_deferred (retry_one_deferred_abandon (demo_env 9) demo_deferred))
    as Hn by (by apply nsteps_once).
  split; [exact Hn|].
  destruct (deferred_abandons_drain demo_deferred (retry_one_deferred_abandon (demo_env 9) demo_deferred)
    demo_begun_valid Hn) as [He Hc].
  split; [exact He|]. apply Hc. apply list_elem_of_singleton. reflexivity.
Defined.
