(* ===== verification/Registry.v ===== *)
(** The operation registry ([src/src/server/operation_registry.rs]): owners and
    request fingerprints, the outcomes of tracked operations and their stored
    form, the guard that owns a reservation, and the responses that describe an
    operation; with the owner digests of [src/src/server/identity.rs].

    The registry is a client of the state store.  A call to the store is
    refused before it is queued, executed and answered, or executed with its
    answer lost. *)

From S2P Require Import Prelude Bytes Utils UuidText Http UploadProtocol Problem StoreModel Database StoreWorker Operations OperationLifecycle.
From stdpp Require Import base numbers list gmap strings.
From Stdlib Require Import Ascii.
Import ErrorCode.

Local Open Scope Z_scope.

(** ** Tracked errors *)

Inductive TrackedOperationError :=
| InvalidJson
| InvalidPath
| PathExists
| InvalidSourcePath
| InvalidDestinationPath
| SourceEqualsDestination
| InvalidMovePath
| InvalidRenameName
| InvalidRenamePath
| SourceNotFound
| SourceRevisionRequired
| InvalidSourceRevision
| SourceChanged
| DirectoryIntoItself
| DestinationExists
| DestinationRevisionRequired
| InvalidDestinationRevision
| DestinationChanged
| DestinationDirectoryNotFound
| DestinationNotDirectory
| DirectoryOverwriteForbidden
| MkdirStateConflict
| MoveStateConflict
| RenameStateConflict
| TargetNotFound
| DeleteStateConflict
| PurgeBacklogFull
| PurgeStateUnavailable
| DeleteTargetChanged
| DeleteNotCommitted
| OutcomeUncertain.

#[export] Instance TrackedOperationError_eq_dec : EqDecision TrackedOperationError.
Proof. solve_decision. Defined.

(** [TrackedOperationError::code]. *)
Definition tracked_code (e : TrackedOperationError) : ErrorCode :=
  match e with
  | InvalidJson => INVALID_JSON
  | InvalidPath => INVALID_PATH
  | PathExists => PATH_EXISTS
  | InvalidSourcePath => INVALID_SOURCE_PATH
  | InvalidDestinationPath => INVALID_DESTINATION_PATH
  | SourceEqualsDestination => SOURCE_EQUALS_DESTINATION
  | InvalidMovePath => INVALID_MOVE_PATH
  | InvalidRenameName => INVALID_RENAME_NAME
  | InvalidRenamePath => INVALID_RENAME_PATH
  | SourceNotFound => SOURCE_NOT_FOUND
  | SourceRevisionRequired => SOURCE_REVISION_REQUIRED
  | InvalidSourceRevision => INVALID_SOURCE_REVISION
  | SourceChanged => SOURCE_CHANGED
  | DirectoryIntoItself => DIRECTORY_INTO_ITSELF
  | DestinationExists => DESTINATION_EXISTS
  | DestinationRevisionRequired => DESTINATION_REVISION_REQUIRED
  | InvalidDestinationRevision => INVALID_DESTINATION_REVISION
  | DestinationChanged => DESTINATION_CHANGED
  | DestinationDirectoryNotFound => DESTINATION_DIRECTORY_NOT_FOUND
  | DestinationNotDirectory => DESTINATION_NOT_DIRECTORY
  | DirectoryOverwriteForbidden => DIRECTORY_OVERWRITE_FORBIDDEN
  | MkdirStateConflict => MKDIR_STATE_CONFLICT
  | MoveStateConflict => MOVE_STATE_CONFLICT
  | RenameStateConflict => RENAME_STATE_CONFLICT
  | TargetNotFound => TARGET_NOT_FOUND
  | DeleteStateConflict => DELETE_STATE_CONFLICT
  | PurgeBacklogFull => PURGE_BACKLOG_FULL
  | PurgeStateUnavailable => PURGE_STATE_UNAVAILABLE
  | DeleteTargetChanged => DELETE_TARGET_CHANGED
  | DeleteNotCommitted => DELETE_NOT_COMMITTED
  | OutcomeUncertain => OUTCOME_UNCERTAIN
  end.

(** [TrackedOperationError::from_wire_name]: the arms in order. *)
Definition wire_arms : list (bytes * TrackedOperationError) :=
  [(bs "invalid_json", InvalidJson);
   (bs "invalid_path", InvalidPath);
   (bs "path_exists", PathExists);
   (bs "invalid_source_path", InvalidSourcePath);
   (bs "invalid_destination_path", InvalidDestinationPath);
   (bs "source_equals_destination", SourceEqualsDestination);
   (bs "invalid_move_path", InvalidMovePath);
   (bs "invalid_rename_name", InvalidRenameName);
   (bs "invalid_rename_path", InvalidRenamePath);
   (bs "source_not_found", SourceNotFound);
   (bs "source_revision_required", SourceRevisionRequired);
   (bs "invalid_source_revision", InvalidSourceRevision);
   (bs "source_changed", SourceChanged);
   (bs "directory_into_itself", DirectoryIntoItself);
   (bs "destination_exists", DestinationExists);
   (bs "destination_revision_required", DestinationRevisionRequired);
   (bs "invalid_destination_revision", InvalidDestinationRevision);
   (bs "destination_changed", DestinationChanged);
   (bs "destination_directory_not_found", DestinationDirectoryNotFound);
   (bs "destination_not_directory", DestinationNotDirectory);
   (bs "directory_overwrite_forbidden", DirectoryOverwriteForbidden);
   (bs "mkdir_state_conflict", MkdirStateConflict);
   (bs "move_state_conflict", MoveStateConflict);
   (bs "rename_state_conflict", RenameStateConflict);
   (bs "target_not_found", TargetNotFound);
   (bs "delete_state_conflict", DeleteStateConflict);
   (bs "purge_backlog_full", PurgeBacklogFull);
   (bs "purge_state_unavailable", PurgeStateUnavailable);
   (bs "delete_target_changed", DeleteTargetChanged);
   (bs "delete_not_committed", DeleteNotCommitted);
   (bs "outcome_uncertain", OutcomeUncertain)].

Definition from_wire_name (value : bytes) : option TrackedOperationError :=
  snd <$> List.find (λ arm, beqb arm.1 value) wire_arms.

(** [TrackedOperationError::detail]. *)
Definition tracked_detail (e : TrackedOperationError) : bytes :=
  match e with
  | InvalidJson => bs "Invalid JSON request"
  | InvalidPath => bs "Invalid path"
  | PathExists => bs "Path already exists"
  | InvalidSourcePath => bs "Invalid source path"
  | InvalidDestinationPath => bs "Invalid destination path"
  | SourceEqualsDestination => bs "Source and destination must differ"
  | InvalidMovePath => bs "Invalid move path"
  | InvalidRenameName => bs "Rename name must be one valid path segment"
  | InvalidRenamePath => bs "Invalid rename path"
  | SourceNotFound => bs "Source not found"
  | SourceRevisionRequired => bs "Source revision is required"
  | InvalidSourceRevision => bs "Source revision is invalid"
  | SourceChanged => bs "Source changed after it was listed"
  | DirectoryIntoItself => bs "A directory cannot be moved into itself"
  | DestinationExists => bs "Destination already exists"
  | DestinationRevisionRequired => bs "Destination revision is required for overwrite"
  | InvalidDestinationRevision => bs "Destination revision is invalid"
  | DestinationChanged => bs "Destination changed after overwrite confirmation"
  | DestinationDirectoryNotFound => bs "Destination directory not found"
  | DestinationNotDirectory => bs "Destination path is not a directory"
  | DirectoryOverwriteForbidden => bs "Directories cannot be overwritten"
  | MkdirStateConflict => bs "Directory path conflicts with an active upload or pending delete"
  | MoveStateConflict => bs "Source or destination conflicts with an active upload or pending delete"
  | RenameStateConflict => bs "Rename source or destination conflicts with an active upload or pending delete"
  | TargetNotFound => bs "Target not found"
  | DeleteStateConflict => bs "Target conflicts with an active upload or pending delete"
  | PurgeBacklogFull => bs "Delete backlog is temporarily full"
  | PurgeStateUnavailable => bs "Delete state storage is temporarily unavailable"
  | DeleteTargetChanged => bs "Delete target changed before commit"
  | DeleteNotCommitted => bs "Delete was not committed; refresh the target before retrying"
  | OutcomeUncertain => bs "Operation outcome is uncertain; inspect the target before trying again"
  end.

(** [TrackedOperationError::recovery]. *)
Definition tracked_recovery (e : TrackedOperationError) : RecoveryAdvice :=
  match e with
  | OutcomeUncertain => QueryJob
  | _ => NoAdvice
  end.

(** ** Owners and fingerprints *)

Section digests.
Context (sha256 : bytes -> bytes).

(** [OwnerId]: the 32 bytes of the digest. *)
Definition domain_separated (domain owner : bytes) : bytes := sha256 (domain ++ owner).

Definition PERSISTENT_DOMAIN : bytes := bs "dufs-durable-owner-v1" ++ [nul_byte].
Definition SNAPSHOT_DOMAIN : bytes := bs "dufs-list-snapshot-owner-v1" ++ [nul_byte].

Definition owner_persistent (owner : bytes) : bytes := domain_separated PERSISTENT_DOMAIN owner.
Definition owner_listing_snapshot (owner : bytes) : bytes := domain_separated SNAPSHOT_DOMAIN owner.

(** What [OperationFingerprint::new] feeds to the digest: every part after its
    length.  [len as u64] keeps the low 64 bits. *)
Definition fingerprint_input (parts : list bytes) : bytes :=
  parts ≫= λ part, u64_to_be_bytes (blen part `mod` 2 ^ 64) ++ part.

Definition fingerprint (parts : list bytes) : bytes := sha256 (fingerprint_input parts).

Definition operation_key (owner id : bytes) : OperationKey := mkStoreKey (owner_persistent owner) id.
End digests.

(** ** Outcomes *)

Record OperationOutcome := mkOperationOutcome {
  oo_status : Z;
  oo_state : OperationPublicState;
  oo_error : option TrackedOperationError
}.

#[export] Instance OperationOutcome_eq_dec : EqDecision OperationOutcome.
Proof. solve_decision. Defined.

Definition success (status : Z) : OperationOutcome := mkOperationOutcome status OpSucceeded None.
Definition failure (status : Z) (error : TrackedOperationError) : OperationOutcome :=
  mkOperationOutcome status OpFailed (Some error).
Definition uncertain : OperationOutcome := mkOperationOutcome 500 OpUnknown (Some OutcomeUncertain).

(** [into_stored]; a state that is not terminal panics. *)
Definition into_stored (o : OperationOutcome) : result Failure StoredOutcome :=
  state ← match oo_state o with
          | OpSucceeded => Ok TSucceeded
          | OpFailed => Ok TFailed
          | OpUnknown => Ok TUnknown
          | OpRunning | OpRejected => Err Panic
          end;
  Ok (mkOutcome (oo_status o) state ((λ e, as_str (tracked_code e)) <$> oo_error o)).

Definition from_stored (o : StoredOutcome) : result bytes OperationOutcome :=
  status ← ok_or (status_from_u16 (so_status o)) (bs "operation store contains an invalid HTTP status");
  let state := match so_state o with
               | TSucceeded => OpSucceeded
               | TFailed => OpFailed
               | TUnknown => OpUnknown
               end in
  error ← match so_code o with
          | None =>
              if decide (state = OpSucceeded) then Ok None
              else Err (bs "operation store contains an incomplete terminal outcome")
          | Some code =>
              if decide (state = OpSucceeded)
              then Err (bs "operation store contains an incomplete terminal outcome")
              else
                match from_wire_name code with
                | Some error => Ok (Some error)
                | None => Err (bs "operation store contains an unknown terminal error")
                end
          end;
  if bool_decide (state = OpSucceeded) && negb (is_success status)
  then Err (bs "operation store contains a non-success status for a success outcome")
  else if negb (bool_decide (state = OpSucceeded)) && is_success status
  then Err (bs "operation store contains a success status for an error outcome")
  else Ok (mkOperationOutcome status state error).

(** ** The registry on the state store *)

Record OperationGuard := mkGuard { og_key : OperationKey; og_lease : bytes; og_completed : bool }.

Inductive BeginOperation :=
| BeginStarted (guard : OperationGuard)
| BeginRunning
| BeginReplay (outcome : OperationOutcome)
| BeginConflict
| BeginFull
| BeginUnavailable.

Inductive OperationStatus :=
| StatusRunning
| StatusCompleted (outcome : OperationOutcome)
| StatusNotFound
| StatusUnavailable.

(** What becomes of a command: the queue refuses it ([StateStoreDispatchError]),
    the actor executes and answers it, or executes it and dies before it
    answers. *)
Inductive StateStoreDispatchError := QueueFull | Unavailable.

Inductive Delivery :=
| Refused (error : StateStoreDispatchError)
| Answered (e : Env)
| Unanswered (e : Env).

Inductive StoreError := DispatchError (error : StateStoreDispatchError) | CallFailed (message : string).

(** A [StateStore] method: [send], then [receive]. *)
Definition call {A} (d : Delivery) (method : Env -> W A) (w : StoreWorker)
    : result StoreError A * StoreWorker :=
  match d with
  | Refused error => (Err (DispatchError error), w)
  | Answered e =>
      match method e w with
      | (Ok a, w) => (Ok a, w)
      | (Err m, w) => (Err (CallFailed m), w)
      end
  | Unanswered e =>
      (Err (CallFailed "The state store thread exited before replying"), (method e w).2)
  end.

Definition begin (d : Delivery) (key : OperationKey) (fp : bytes) (w : StoreWorker)
    : result bytes BeginOperation * StoreWorker :=
  match call d (λ e, begin_operation e key fp) w with
  | (Err (DispatchError _), w) => (Ok BeginUnavailable, w)
  | (Err (CallFailed m), w) => (Err (bs m), w)
  | (Ok stored, w) =>
      (match stored with
       | BStarted lease => Ok (BeginStarted (mkGuard key lease false))
       | BRunning => Ok BeginRunning
       | BReplay outcome => outcome ← from_stored outcome; Ok (BeginReplay outcome)
       | BConflict => Ok BeginConflict
       | BFull => Ok BeginFull
       end, w)
  end.

Definition status (d : Delivery) (key : OperationKey) (w : StoreWorker)
    : result bytes OperationStatus * StoreWorker :=
  match call d (λ e, operation_status e key) w with
  | (Err _, w) => (Ok StatusUnavailable, w)
  | (Ok stored, w) =>
      (match stored with
       | SRunning => Ok StatusRunning
       | SCompleted outcome => outcome ← from_stored outcome; Ok (StatusCompleted outcome)
       | SNotFound => Ok StatusNotFound
       end, w)
  end.

Definition store_error (e : StoreError) : bytes :=
  match e with
  | DispatchError QueueFull => bs "The state store command queue is full"
  | DispatchError Unavailable => bs "The state store is unavailable"
  | CallFailed m => bs m
  end.

(** [OperationGuard::mark_commit_started]. *)
Definition mark_commit_started (d : Delivery) (g : OperationGuard) (w : StoreWorker)
    : result bytes unit * StoreWorker :=
  if og_completed g then (Ok tt, w)
  else
    match call d (λ e, mark_operation_commit_started e (og_key g) (og_lease g)) w with
    | (Err e, w) => (Err (store_error e), w)
    | (Ok true, w) => (Ok tt, w)
    | (Ok false, w) => (Err (bs "operation reservation was lost before commit"), w)
    end.

(** [Drop for OperationGuard]: the lease to abandon, if any. *)
Definition drop_guard (g : OperationGuard) : option (OperationKey * bytes) :=
  if og_completed g then None else Some (og_key g, og_lease g).

(** [OperationGuard::complete]: consumes the guard; the last component is the
    abandonment its destructor sends. *)
Definition complete (d : Delivery) (g : OperationGuard) (outcome : OperationOutcome) (w : StoreWorker)
    : result Failure unit * StoreWorker * option (OperationKey * bytes) :=
  match into_stored outcome with
  | Err e => (Err e, w, drop_guard g)
  | Ok stored =>
      let validated :=
        match validate_outcome stored with
        | Err m => (Err (CallFailed m), w)
        | Ok _ => call d (λ e, complete_operation e (og_key g) (og_lease g) stored) w
        end in
      match validated with
      | (Err e, w) => (Err (Failed (store_error e)), w, drop_guard g)
      | (Ok false, w) =>
          (Err (Failed (bs "operation reservation was lost before completion")), w, drop_guard g)
      | (Ok true, w) => (Ok tt, w, drop_guard (mkGuard (og_key g) (og_lease g) true))
      end
  end.

(** ** Requests and responses *)

Definition OPERATION_ID_HEADER : bytes := bs "x-dufs-operation-id".
Definition OPERATION_REPLAYED_HEADER : bytes := bs "x-dufs-operation-replayed".

Section wire.
Context `{UuidLib} `{HttpTypes}.

Definition parse_canonical_operation_id (value : bytes) : option bytes :=
  id ← uuid_parse_str value;
  if beqb (uuid_to_string id) value then Some id else None.

Definition parse_operation_id (headers : HeaderMap) : result bytes (option bytes) :=
  match get_all headers OPERATION_ID_HEADER with
  | [] => Ok None
  | [value] =>
      value ← ok_or (to_str value) (bs "The x-dufs-operation-id header must be a canonical UUID");
      id ← ok_or (parse_canonical_operation_id value)
             (bs "The x-dufs-operation-id header must be a canonical UUID");
      Ok (Some id)
  | _ => Err (bs "The x-dufs-operation-id header must appear exactly once")
  end.

Definition set_operation_headers (res : Response) (id : bytes) (state : OperationPublicState)
    : result Failure Response :=
  value ← ok_or (from_str (uuid_to_string id)) Panic;
  let res := with_header res OPERATION_ID_HEADER value in
  Ok (with_header res OPERATION_STATE_HEADER (operation_wire_name state)).

Definition set_json_body (res : Response) (body : Json) : Response :=
  with_body (with_header res CONTENT_TYPE (bs "application/json")) (JsonBody body).

(** The problem of an operation: code, status, advice and what is known of its
    result. *)
Definition operation_problem (status : Z) (code : ErrorCode) (detail : bytes)
    (recovery : RecoveryAdvice) (id : bytes) (state : OperationPublicState)
    (http_status : option Z) : ApiError :=
  with_operation (with_recovery (new_api_error status code detail) recovery)
    (mkOperationContext (uuid_to_string id) state http_status).

Definition apply_operation_outcome (res : Response) (id : bytes) (outcome : OperationOutcome)
    (replayed : bool) : result Failure Response :=
  res ← set_operation_headers res id (oo_state outcome);
  let res := if replayed then with_header res OPERATION_REPLAYED_HEADER (bs "true") else res in
  match oo_error outcome with
  | Some error =>
      render_problem res
        (operation_problem (oo_status outcome) (tracked_code error) (tracked_detail error)
           (tracked_recovery error) id (oo_state outcome) (Some (oo_status outcome)))
  | None => Ok (with_status res (oo_status outcome))
  end.

Definition apply_running (res : Response) (id : bytes) : result Failure Response :=
  let res := with_status res 202 in
  res ← set_operation_headers res id OpRunning;
  let res := with_header res RETRY_AFTER (bs "1") in
  Ok (set_json_body res
        (JObject [("operation_id"%string, JString (uuid_to_string id));
                  ("state"%string, JString (operation_wire_name OpRunning));
                  ("code"%string, JString (as_str OPERATION_IN_PROGRESS));
                  ("detail"%string, JString (bs "Operation is still running"))])).

Definition apply_conflict (res : Response) (id : bytes) : result Failure Response :=
  res ← set_operation_headers res id OpRejected;
  render_problem res
    (operation_problem 409 OPERATION_ID_CONFLICT
       (bs "Operation ID was already used for a different request") NoAdvice id OpRejected None).

Definition apply_registry_full (res : Response) (id : bytes) : result Failure Response :=
  res ← set_operation_headers res id OpRejected;
  render_problem res
    (operation_problem 503 OPERATION_REGISTRY_FULL (bs "Operation registry is temporarily full")
       (RetryAfterSeconds 1) id OpRejected None).

Definition apply_registry_unavailable (res : Response) (id : bytes) : result Failure Response :=
  res ← set_operation_headers res id OpRejected;
  render_problem res
    (operation_problem 503 OPERATION_STORE_UNAVAILABLE
       (bs "Operation state store is temporarily unavailable") (RetryAfterSeconds 1) id OpRejected None).

Definition job_body (id : bytes) (state : OperationPublicState) (http_status : option Z)
    (error : option TrackedOperationError) : Json :=
  JObject ([("job_id"%string, JString (uuid_to_string id));
            ("state"%string, JString (operation_wire_name state))] ++
           optional JNumber "http_status" http_status ++
           optional (λ e, JString (as_str (tracked_code e))) "code" error ++
           optional (λ e, JString (tracked_detail e)) "detail" error).

Definition apply_status (res : Response) (id : bytes) (s : OperationStatus)
    : result Failure Response :=
  match s with
  | StatusRunning =>
      res ← set_operation_headers (with_status res 200) id OpRunning;
      Ok (set_json_body res (job_body id OpRunning None None))
  | StatusCompleted outcome =>
      res ← set_operation_headers (with_status res 200) id (oo_state outcome);
      Ok (set_json_body res
            (job_body id (oo_state outcome) (Some (oo_status outcome)) (oo_error outcome)))
  | StatusNotFound =>
      res ← set_operation_headers res id OpUnknown;
      render_problem res
        (operation_problem 404 JOB_NOT_FOUND (bs "Job not found") RefreshTarget id OpUnknown None)
  | StatusUnavailable =>
      res ← set_operation_headers res id OpUnknown;
      render_problem res
        (operation_problem 503 JOB_STORE_UNAVAILABLE
           (bs "Job state store is temporarily unavailable") (RetryAfterSeconds 1) id OpUnknown None)
  end.

Definition apply_invalid_id (res : Response) (message : bytes) : result Failure Response :=
  render_problem res (new_api_error 400 INVALID_OPERATION_ID message).

Definition apply_invalid_job_id (res : Response) (detail : bytes) : result Failure Response :=
  render_problem res (new_api_error 400 INVALID_JOB_ID detail).

Definition apply_unknown (res : Response) (id : bytes) (status : Z) (code : ErrorCode)
    (message : bytes) : result Failure Response :=
  res ← set_operation_headers res id OpUnknown;
  render_problem res (operation_problem status code message QueryJob id OpUnknown None).
End wire.

(** ** Facts *)

#[local] Arguments from_wire_name : simpl never.
#[local] Arguments is_success : simpl never.

Lemma from_wire_name_code e : from_wire_name (as_str (tracked_code e)) = Some e.
Proof. destruct e; vm_compute; reflexivity. Qed.

Lemma from_wire_name_Some value e : from_wire_name value = Some e <-> value = as_str (tracked_code e).
Proof.
  split; [|intros ->; apply from_wire_name_code]. unfold from_wire_name.
  destruct (List.find _ _) as [[v e']|] eqn:Hf; [|done]. cbn. intros [= ->].
  apply List.find_some in Hf as [Hin Hv]. apply beqb_true in Hv. cbn [fst] in Hv. subst v.
  assert (Hall : forallb (λ arm, beqb arm.1 (as_str (tracked_code arm.2))) wire_arms = true)
    by (vm_compute; reflexivity).
  rewrite forallb_forall in Hall. apply Hall in Hin. by apply beqb_true in Hin.
Qed.

(** The outcomes the constructors build from their documented arguments. *)
Definition outcome_ok (o : OperationOutcome) : Prop :=
  100 <= oo_status o <= 599 /\
  match oo_state o with
  | OpSucceeded => is_success (oo_status o) = true /\ oo_error o = None
  | OpFailed | OpUnknown => is_success (oo_status o) = false /\ exists e, oo_error o = Some e
  | OpRunning | OpRejected => False
  end.

Lemma success_ok status : is_success status = true -> outcome_ok (success status).
Proof. unfold outcome_ok, is_success. intros H. split; [|done]. apply in_range_true in H. cbn. lia. Qed.

Lemma failure_ok status error :
  100 <= status <= 599 -> is_success status = false -> outcome_ok (failure status error).
Proof. intros Hr Hs. split; [done|]. cbn. eauto. Qed.

Lemma uncertain_ok : outcome_ok uncertain.
Proof. split; [cbn; lia|]. cbn. eauto. Qed.

Lemma tracked_code_length e : 1 <= chars_count (as_str (tracked_code e)) <= MAX_ERROR_CODE_CHARS.
Proof. destruct e; vm_compute; split; discriminate. Qed.

Lemma into_stored_ok o : outcome_ok o -> exists s, into_stored o = Ok s /\ outcome_wf s.
Proof.
  intros [Hr Hs]. unfold into_stored. destruct o as [st [] err]; cbn in *; try done.
  - destruct Hs as [Hs ->]. eexists. split; [done|]. split; [done|]. cbn.
    unfold is_success in Hs. apply in_range_true in Hs. done.
  - destruct Hs as [Hs [e ->]]. eexists. split; [done|]. split; [done|]. cbn.
    unfold is_success in Hs. apply in_range_false in Hs. split; [lia|].
    eexists. split; [done|]. apply tracked_code_length.
  - destruct Hs as [Hs [e ->]]. eexists. split; [done|]. split; [done|]. cbn.
    unfold is_success in Hs. apply in_range_false in Hs. split; [lia|].
    eexists. split; [done|]. apply tracked_code_length.
Qed.

Lemma from_into_stored o s : outcome_ok o -> into_stored o = Ok s -> from_stored s = Ok o.
Proof.
  intros [Hr Hs] H. unfold into_stored in H. unfold from_stored.
  destruct o as [st [] err]; cbn in *; try done; injection H as <-; cbn.
  all: unfold status_from_u16;
    replace (in_range 100 999 st) with true by (symmetry; apply in_range_true; lia); cbn.
  - destruct Hs as [Hs ->]. cbn. by rewrite Hs.
  - destruct Hs as [Hs [e ->]]. cbn. rewrite from_wire_name_code. cbn. by rewrite Hs.
  - destruct Hs as [Hs [e ->]]. cbn. rewrite from_wire_name_code. cbn. by rewrite Hs.
Qed.

Lemma into_from_stored o s : from_stored s = Ok o -> into_stored o = Ok s.
Proof.
  unfold from_stored. destruct s as [st ts code]. cbn.
  unfold status_from_u16. destruct (in_range 100 999 st); cbn; [|done].
  destruct ts, code as [c|]; cbn; try done.
  all: try (destruct (from_wire_name c) as [e|] eqn:Hc; cbn; [|done]).
  all: destruct (is_success st); cbn; try done; intros [= <-]; cbn; try done.
  all: apply from_wire_name_Some in Hc as ->; done.
Qed.

(** An outcome survives the store: what is recorded for a tracked operation
    is accepted by the store and read back as the same outcome, and an outcome
    that can be read was recorded in exactly that form, so no stored row is
    presented as a different result. *)
Theorem outcome_store_roundtrip o :
  (outcome_ok o -> exists s,
     into_stored o = Ok s /\ validate_outcome s = Ok tt /\ from_stored s = Ok o) /\
  (forall s, from_stored s = Ok o -> into_stored o = Ok s).
Proof.
  split; [|intros s; apply into_from_stored].
  intros Ho. destruct (into_stored_ok o Ho) as (s & Hs & Hwf). exists s.
  split; [done|]. split; [by apply validate_outcome_Ok|by apply from_into_stored].
Qed.

(** ** What [begin] answers is true of the store *)

Definition view_fingerprint (s : OpState) : option bytes :=
  match s with
  | Absent => None
  | Reserved fp _ | Committing fp _ | Done fp _ _ _ => Some fp
  end.

Lemma begin_answered e key fp w b w' :
  operations_inv (limits w) (connection w) -> key_wf key -> blen fp = 32 -> blen (env_uuid e) = 16 ->
  begin_operation e key fp w = (Ok b, w') ->
  match b with
  | BStarted lease => op_view w' key = Reserved fp lease
  | BFull => op_view w' key = Absent
  | BRunning => exists lease, op_view w' key = Reserved fp lease \/ op_view w' key = Committing fp lease
  | BReplay o => exists lease t, op_view w' key = Done fp lease o t
  | BConflict => exists fp', fp' <> fp /\ view_fingerprint (op_view w' key) = Some fp'
  end.
Proof.
  intros Hinv Hkey Hfp Huuid H. unfold op_view.
  apply (timed_transaction_plain e (begin_body key fp (env_uuid e))) in H
    as [(_ & _ & ? & [=])|(a & db & [= <-] & H & Hdb & _)].
  destruct (begin_body_runs w (last_ms (clock w')) key fp (env_uuid e)) as (b' & db' & Hrun & Hres);
    [done..|].
  rewrite H in Hrun. injection Hrun as <- <-. rewrite Hdb.
  destruct (live_view w (last_ms (clock w')) key) as [|fp' l|fp' l|fp' l o t] eqn:Hl; cbn in Hres.
  - destruct Hres as [[-> ->]|[-> ->]]; done.
  - destruct Hres as [-> ->]. destruct (beqb fp' fp) eqn:E; [apply beqb_true in E as ->; eauto|].
    apply beqb_false in E. eauto.
  - destruct Hres as [-> ->]. destruct (beqb fp' fp) eqn:E; [apply beqb_true in E as ->; eauto|].
    apply beqb_false in E. eauto.
  - destruct Hres as [-> ->]. destruct (beqb fp' fp) eqn:E; [apply beqb_true in E as ->; eauto|].
    apply beqb_false in E. eauto.
Qed.

(** The answer of [begin] is true of the store, whatever happened to the
    command.  [Started] comes with the guard of the reservation that was just
    made; the three rejections made none: an unavailable store was not touched,
    a full one holds nothing for the key, and a conflict is with another
    request's record; [Running] and [Replay] are about this very request. *)
Theorem begin_answers_truly d key fp w r w' :
  operations_inv (limits w) (connection w) -> key_wf key -> blen fp = 32 ->
  (forall e, d = Answered e -> blen (env_uuid e) = 16) ->
  begin d key fp w = (Ok r, w') ->
  match r with
  | BeginStarted g =>
      og_key g = key /\ og_completed g = false /\ op_view w' key = Reserved fp (og_lease g)
  | BeginUnavailable => w' = w
  | BeginFull => op_view w' key = Absent
  | BeginConflict => exists fp', fp' <> fp /\ view_fingerprint (op_view w' key) = Some fp'
  | BeginRunning => exists lease, op_view w' key = Reserved fp lease \/ op_view w' key = Committing fp lease
  | BeginReplay o =>
      exists lease s t, op_view w' key = Done fp lease s t /\ from_stored s = Ok o
  end.
Proof.
  intros Hinv Hkey Hfp Hu H. unfold begin, call in H.
  destruct d as [err|e|e]; [by injection H as <- <-| |done].
  destruct (begin_operation e key fp w) as [[b|m] w1] eqn:Hb; [|done].
  pose proof (begin_answered e key fp w b w1 Hinv Hkey Hfp (Hu e eq_refl) Hb) as Hv.
  destruct b as [lease| |o| |]; cbn in H.
  - by injection H as <- <-.
  - by injection H as <- <-.
  - destruct (from_stored o) as [o'|] eqn:Ho; cbn in H; [|done]. injection H as <- <-.
    destruct Hv as (l & t & Hv). eauto 10.
  - by injection H as <- <-.
  - by injection H as <- <-.
Qed.

(** A finished request is answered once and for all.  When [complete] has
    reported success for an outcome, its guard abandons nothing, and every later
    [begin] of the same operation identifier before the result expires returns
    exactly this outcome to the same request and a conflict to any other -
    whatever else happened to the store in between. *)
Theorem registry_replays_outcome e g o w w1 abandoned w2 e2 :
  operations_inv (limits w) (connection w) -> outcome_ok o ->
  complete (Answered e) g o w = (Ok tt, w1, abandoned) ->
  rtc op_step w1 w2 -> env_ok e2 w2 -> blen (env_uuid e2) = 16 ->
  env_now e2 w2 < last_ms (clock w1) + ttl_ms (limits w1) ->
  abandoned = None /\
  exists fp0, view_fingerprint (op_view w (og_key g)) = Some fp0 /\
    forall fp, blen fp = 32 ->
      exists w3, begin (Answered e2) (og_key g) fp w2 =
        (Ok (if beqb fp0 fp then BeginReplay o else BeginConflict), w3).
Proof.
  intros Hinv Ho Hc Hsteps Henv Huuid Hnow. unfold complete in Hc.
  destruct (into_stored_ok o Ho) as (s & Hs & Hwf). rewrite Hs in Hc.
  pose proof (proj2 (validate_outcome_Ok s) Hwf) as Hval. rewrite Hval in Hc. unfold call in Hc.
  destruct (complete_operation e (og_key g) (og_lease g) s w) as [[[]|m] w'] eqn:Hco; [|done..].
  injection Hc as <- <-. split; [done|].
  destruct (completed_replays e (og_key g) (og_lease g) s w w' w2 e2) as (fp0 & Hfp0 & Hrep); [done..|].
  exists fp0. split; [by destruct Hfp0 as [-> | ->]|]. intros fp Hfp.
  destruct (Hrep fp Hfp) as (w3 & Hb). exists w3. unfold begin, call. rewrite Hb.
  destruct (beqb fp0 fp); [|done]. by rewrite (from_into_stored o s Ho Hs).
Qed.

(** ** Fingerprints and owners *)

(** Two different inputs with the same digest. *)
Definition collision (sha256 : bytes -> bytes) : Prop := exists a b, a <> b /\ sha256 a = sha256 b.

Lemma digest_eq sha256 a b : sha256 a = sha256 b -> a = b \/ collision sha256.
Proof. intros H. destruct (decide (a = b)) as [|Hne]; [by left|right]. by exists a, b. Qed.

Definition short (part : bytes) : Prop := blen part < 2 ^ 64.

Lemma fingerprint_input_cons a p :
  fingerprint_input (a :: p) = u64_to_be_bytes (blen a `mod` 2 ^ 64) ++ a ++ fingerprint_input p.
Proof. unfold fingerprint_input. by rewrite bind_cons, <-app_assoc. Qed.

Lemma fingerprint_input_cons_length a p : (8 <= length (fingerprint_input (a :: p)))%nat.
Proof.
  rewrite fingerprint_input_cons, length_app. unfold u64_to_be_bytes. rewrite be_bytes_length. lia.
Qed.

Lemma fingerprint_input_inj p q :
  Forall short p -> Forall short q -> fingerprint_input p = fingerprint_input q -> p = q.
Proof.
  revert q. induction p as [|a p IH]; intros [|b q] Hp Hq H; [done| | |].
  - pose proof (fingerprint_input_cons_length b q) as Hl. rewrite <-H in Hl. cbn in Hl. lia.
  - pose proof (fingerprint_input_cons_length a p) as Hl. rewrite H in Hl. cbn in Hl. lia.
  - inversion Hp as [|? ? Ha Hp']; subst. inversion Hq as [|? ? Hb Hq']; subst.
    unfold short in *. assert (0 <= blen a /\ 0 <= blen b) as [Ha0 Hb0] by (unfold blen; lia).
    rewrite !fingerprint_input_cons, !Z.mod_small in H by lia.
    apply app_inj_1 in H as [Hlen H]; [|unfold u64_to_be_bytes; by rewrite !be_bytes_length].
    apply (f_equal be_value) in Hlen. rewrite !u64_be_roundtrip in Hlen by (unfold u64_max; lia).
    apply app_inj_1 in H as [-> H]; [|unfold blen in Hlen; lia]. f_equal. by apply IH.
Qed.

(** Up to a SHA-256 collision, a fingerprint identifies the request it was
    made of - the number, the boundaries and the contents of its parts - and an
    owner digest identifies its account, while the durable and the listing
    digests of two accounts never coincide, not even of the same one. *)
Theorem fingerprints_identify_requests sha256 p q owner owner' :
  Forall short p -> Forall short q ->
  (fingerprint sha256 p = fingerprint sha256 q -> p = q \/ collision sha256) /\
  (owner_persistent sha256 owner = owner_persistent sha256 owner' ->
     owner = owner' \/ collision sha256) /\
  (owner_listing_snapshot sha256 owner = owner_listing_snapshot sha256 owner' ->
     owner = owner' \/ collision sha256) /\
  (owner_persistent sha256 owner = owner_listing_snapshot sha256 owner' -> collision sha256).
Proof.
  intros Hp Hq. split_and!.
  - intros [H|H]%(digest_eq sha256); [left; by apply fingerprint_input_inj|by right].
  - intros [H|H]%(digest_eq sha256); [left; by apply app_inv_head in H|by right].
  - intros [H|H]%(digest_eq sha256); [left; by apply app_inv_head in H|by right].
  - intros [H|H]%(digest_eq sha256); [done|done].
Qed.

(** ** Responses *)

Section responses.
Context `{UuidLaws} `{HttpTypesLaws}.

(** The response names the operation and its state in its headers. *)
Definition identifies (res : Response) (id : bytes) (state : OperationPublicState) : Prop :=
  parse_operation_id (res_headers res) = Ok (Some id) /\
  header res OPERATION_STATE_HEADER = [operation_wire_name state].

Lemma identifies_headers res id state :
  blen id = 16 -> get_all (res_headers res) OPERATION_ID_HEADER = [uuid_to_string id] ->
  get_all (res_headers res) OPERATION_STATE_HEADER = [operation_wire_name state] ->
  identifies res id state.
Proof.
  intros Hid Hh Hs. split; [|done]. unfold parse_operation_id. rewrite Hh.
  rewrite to_str_visible by by apply uuid_text_visible, uuid_text. cbn.
  unfold parse_canonical_operation_id. rewrite uuid_roundtrip by done. cbn. by rewrite beqb_refl.
Qed.

Lemma set_operation_headers_ok res id state : blen id = 16 ->
  exists res', set_operation_headers res id state = Ok res' /\
    res_status res' = res_status res /\ res_body res' = res_body res /\
    header res' OPERATION_ID_HEADER = [uuid_to_string id] /\
    header res' OPERATION_STATE_HEADER = [operation_wire_name state].
Proof.
  intros Hid. unfold set_operation_headers.
  rewrite from_str_visible by by apply uuid_text_visible, uuid_text. cbn.
  eexists. split; [done|]. split; [done|]. split; [done|]. unfold header. cbn. split.
  - by rewrite get_all_insert_ne, get_all_insert by done.
  - apply get_all_insert.
Qed.

Lemma render_identifies res id state e :
  blen id = 16 -> header res OPERATION_ID_HEADER = [uuid_to_string id] ->
  header res OPERATION_STATE_HEADER = [operation_wire_name state] ->
  built e -> (forall s, retry_after_seconds (ae_recovery e) = Some s -> u64_range s) ->
  exists res', render_problem res e = Ok res' /\ res_status res' = ae_status e /\ identifies res' id state.
Proof.
  intros Hid Hi Ho He Hs.
  destruct (render_problem_ok res e He Hs) as (res' & document & Hr & Hst & _ & _ & Hk & _).
  exists res'. split; [done|]. split; [done|]. unfold header in *.
  apply identifies_headers; [done|by rewrite Hk|by rewrite Hk].
Qed.

Lemma operation_problem_built status code detail recovery id state http :
  built (operation_problem status code detail recovery id state http).
Proof. unfold operation_problem. auto with dufs. Qed.

(** A problem about an operation, after its headers. *)
Lemma problem_response res id state status code detail recovery http :
  blen id = 16 -> (forall s, retry_after_seconds recovery = Some s -> u64_range s) ->
  exists res', (res ← set_operation_headers res id state;
                render_problem res (operation_problem status code detail recovery id state http)) = Ok res' /\
    res_status res' = status /\ identifies res' id state.
Proof.
  intros Hid Hs. destruct (set_operation_headers_ok res id state Hid) as (r & -> & _ & _ & Hi & Ho).
  cbn [mbind result_bind]. apply (render_identifies r); [done..|apply operation_problem_built|done].
Qed.

Lemma retry_one s : retry_after_seconds (RetryAfterSeconds 1) = Some s -> u64_range s.
Proof. intros [= <-]. vm_compute. split; discriminate. Qed.

Lemma tracked_no_retry e s : retry_after_seconds (tracked_recovery e) = Some s -> u64_range s.
Proof. by destruct e. Qed.

Lemma json_identifies res id state body :
  blen id = 16 -> header res OPERATION_ID_HEADER = [uuid_to_string id] ->
  header res OPERATION_STATE_HEADER = [operation_wire_name state] ->
  identifies (set_json_body res body) id state.
Proof.
  intros Hid Hi Ho. unfold header in *.
  apply identifies_headers; [done|cbn; by rewrite get_all_insert_ne|cbn; by rewrite get_all_insert_ne].
Qed.

(** The response [begin]'s answer is turned into when the operation does not
    start. *)
Definition apply_begin (res : Response) (id : bytes) (b : BeginOperation) : option (result Failure Response) :=
  match b with
  | BeginStarted _ => None
  | BeginRunning => Some (apply_running res id)
  | BeginReplay outcome => Some (apply_operation_outcome res id outcome true)
  | BeginConflict => Some (apply_conflict res id)
  | BeginFull => Some (apply_registry_full res id)
  | BeginUnavailable => Some (apply_registry_unavailable res id)
  end.

(** What a client learns of an operation from the state header. *)
Definition begin_public (b : BeginOperation) : OperationPublicState * Z :=
  match b with
  | BeginStarted _ | BeginRunning => (OpRunning, 202)
  | BeginReplay outcome => (oo_state outcome, oo_status outcome)
  | BeginConflict => (OpRejected, 409)
  | BeginFull | BeginUnavailable => (OpRejected, 503)
  end.

Lemma apply_operation_outcome_ok res id o replayed : blen id = 16 ->
  exists res', apply_operation_outcome res id o replayed = Ok res' /\
    res_status res' = oo_status o /\ identifies res' id (oo_state o).
Proof.
  intros Hid. unfold apply_operation_outcome.
  destruct (set_operation_headers_ok res id (oo_state o) Hid) as (r & -> & _ & _ & Hi & Ho).
  cbn [mbind result_bind].
  set (r' := if replayed then _ else r).
  assert (Hi' : header r' OPERATION_ID_HEADER = [uuid_to_string id]).
  { unfold r', header in *. destruct replayed; [|done]. cbn. by rewrite get_all_insert_ne. }
  assert (Ho' : header r' OPERATION_STATE_HEADER = [operation_wire_name (oo_state o)]).
  { unfold r', header in *. destruct replayed; [|done]. cbn. by rewrite get_all_insert_ne. }
  destruct (oo_error o) as [e|].
  - apply render_identifies; [done..|apply operation_problem_built|apply tracked_no_retry].
  - eexists. split; [done|]. split; [done|]. by apply identifies_headers.
Qed.

(** Every request that does not start an operation is answered: no response
    panics or fails, and its headers, read back by the parser of requests, name
    the operation, its public state and the status.  The state is [rejected]
    exactly when [begin] made no reservation for this request and knows of no
    result; a lookup of a job is answered the same way. *)
Theorem operation_responses_identify res id :
  blen id = 16 ->
  (forall b, match apply_begin res id b with
     | None => exists g, b = BeginStarted g
     | Some r => exists res', r = Ok res' /\ res_status res' = (begin_public b).2 /\
         identifies res' id (begin_public b).1
     end) /\
  (forall s, exists res' state, apply_status res id s = Ok res' /\ identifies res' id state /\
     match s with
     | StatusRunning => state = OpRunning /\ res_status res' = 200
     | StatusCompleted o => state = oo_state o /\ res_status res' = 200
     | StatusNotFound => state = OpUnknown /\ res_status res' = 404
     | StatusUnavailable => state = OpUnknown /\ res_status res' = 503
     end).
Proof.
  intros Hid. split.
  - intros [g| |o| | |]; cbn.
    + by exists g.
    + unfold apply_running.
      destruct (set_operation_headers_ok (with_status res 202) id OpRunning Hid)
        as (r & -> & Hst & _ & Hi & Ho). cbn [mbind result_bind]. unfold header in *.
      eexists. split; [done|]. split; [done|].
      apply json_identifies; unfold header; [done|cbn; by rewrite get_all_insert_ne|].
      cbn. by rewrite get_all_insert_ne.
    + by apply apply_operation_outcome_ok.
    + by apply problem_response.
    + apply problem_response; [done|apply retry_one].
    + apply problem_response; [done|apply retry_one].
  - intros [|o| |]; cbn [apply_status].
    + destruct (set_operation_headers_ok (with_status res 200) id OpRunning Hid)
        as (r & -> & Hst & _ & Hi & Ho). eexists _, OpRunning. split; [done|].
      split; [by apply json_identifies|done].
    + destruct (set_operation_headers_ok (with_status res 200) id (oo_state o) Hid)
        as (r & -> & Hst & _ & Hi & Ho). eexists _, (oo_state o). split; [done|].
      split; [by apply json_identifies|done].
    + destruct (problem_response res id OpUnknown 404 JOB_NOT_FOUND (bs "Job not found") RefreshTarget None)
        as (r & Hr & Hs & Hi); [done..|]. exists r, OpUnknown. done.
    + destruct (problem_response res id OpUnknown 503 JOB_STORE_UNAVAILABLE
        (bs "Job state store is temporarily unavailable") (RetryAfterSeconds 1) None)
        as (r & Hr & Hs & Hi); [done|apply retry_one|]. exists r, OpUnknown. done.
Qed.
End responses.

(** ** Instances *)

Lemma outcome_store_roundtrip_witness :
  outcome_ok (failure 409 DestinationExists) /\
  exists s, into_stored (failure 409 DestinationExists) = Ok s /\ from_stored s = Ok (failure 409 DestinationExists).
Proof.
  assert (outcome_ok (failure 409 DestinationExists)) as Ho by (apply failure_ok; [lia|reflexivity]).
  split; [exact Ho|].
  destruct (outcome_store_roundtrip (failure 409 DestinationExists)) as [H _].
  destruct (H Ho) as (s & Hs & _ & Hf). exists s. split; [exact Hs|exact Hf].
Defined.

Lemma begin_answers_truly_witness :
  op_view demo_reserved demo_key = Reserved demo_fp demo_lease.
Proof.
  destruct (begin_answers_truly (Answered (demo_env 0)) demo_key demo_fp demo_worker
    (BeginStarted (mkGuard demo_key demo_lease false)) demo_reserved) as (_ & _ & H).
  - exact demo_worker_inv.
  - vm_compute. split; reflexivity.
  - vm_compute. reflexivity.
  - intros e [= <-]. vm_compute. reflexivity.
  - vm_cast_no_check (eq_refl (Ok (E := bytes) (BeginStarted (mkGuard demo_key demo_lease false)), demo_reserved)).
  - exact H.
Defined.

Definition demo_guard : OperationGuard := mkGuard demo_key demo_lease false.
Definition demo_completed : StoreWorker := (complete (Answered (demo_env 2)) demo_guard (success 204) demo_committing).1.2.

Lemma registry_replays_outcome_witness :
  exists w3, begin (Answered (demo_env 3)) demo_key demo_fp demo_completed =
    (Ok (BeginReplay (success 204)), w3).
Proof.
  destruct (registry_replays_outcome (demo_env 2) demo_guard (success 204) demo_committing demo_completed
    None demo_completed (demo_env 3)) as (_ & fp0 & Hfp & H).
  - exact demo_committing_inv.
  - apply success_ok. reflexivity.
  - vm_cast_no_check (eq_refl (Ok (E := Failure) tt, demo_completed, @None (OperationKey * bytes))).
  - apply rtc_refl.
  - split; [reflexivity|]. eexists _, _. vm_compute. reflexivity.
  - vm_compute. reflexivity.
  - vm_compute. reflexivity.
  - destruct (H demo_fp eq_refl) as (w3 & Hw). exists w3. assert (fp0 = demo_fp) as -> by (vm_compute in Hfp; injection Hfp as <-; reflexivity).
    exact Hw.
Defined.

Lemma fingerprints_identify_requests_witness :
  fingerprint id [bs "DELETE"; bs "a"] <> fingerprint id [bs "DELETEa"; bs ""].
Proof.
  intros H. destruct (fingerprints_identify_requests id [bs "DELETE"; bs "a"] [bs "DELETEa"; bs ""] [] [])
    as (H1 & _); [repeat constructor..|].
  destruct (H1 H) as [H2|(a & b & Hne & Hab)]; [discriminate H2|exact (Hne Hab)].
Defined.

Lemma operation_responses_identify_witness :
  exists res', @apply_registry_full hex_uuid list_http (@default_response list_http) (be_bytes 16 5) = Ok res' /\
    @parse_operation_id hex_uuid list_http (res_headers res') = Ok (Some (be_bytes 16 5)).
Proof.
  destruct (@operation_responses_identify hex_uuid hex_uuid_laws list_http list_http_laws
    (@default_response list_http) (be_bytes 16 5)) as [H _]; [reflexivity|].
  destruct (H BeginFull) as (res' & Hr & _ & (Hp & _)). exists res'. split; [exact Hr|exact Hp].
Defined.
