(* ===== verification/Revisions.v ===== *)
(** Identities of filesystem objects and the opaque revisions derived from them
    ([src/src/server/rooted_fs.rs]: [ReplacementTargetIdentity] and
    [DeleteIdentity]; [src/src/server/upload/target.rs]: [target_revision]).

    A client that asks for a replacement, a move or a deletion quotes the
    revision it saw; the server recomputes it from the object's current
    identity.  SHA-256 is a parameter. *)

From S2P Require Import Prelude Bytes StdPath Http UploadProtocol Problem Registry.
From stdpp Require Import base numbers list strings.
From Stdlib Require Import Ascii.

Local Open Scope Z_scope.

(** ** What [statat] returns *)

Record Stat := mkStat {
  st_dev : Z;
  st_ino : Z;
  st_mode : Z;
  st_nlink : Z;
  st_size : Z;
  st_uid : Z;
  st_gid : Z;
  st_mtime : Z;
  st_mtime_nsec : Z;
  st_ctime : Z;
  st_ctime_nsec : Z
}.

Inductive FileType :=
| RegularFile | Directory | Symlink | BlockDevice | CharacterDevice | Fifo | Socket | UnknownType.

#[export] Instance FileType_eq_dec : EqDecision FileType.
Proof. solve_decision. Defined.

(** [FileType::from_raw_mode]: the format bits of a Linux mode. *)
Definition from_raw_mode (mode : Z) : FileType :=
  let format := Z.land mode 61440 in
  if format =? 32768 then RegularFile
  else if format =? 16384 then Directory
  else if format =? 40960 then Symlink
  else if format =? 4096 then Fifo
  else if format =? 49152 then Socket
  else if format =? 8192 then CharacterDevice
  else if format =? 24576 then BlockDevice
  else UnknownType.

(** ** Identities *)

Record ExistingReplacementTarget := mkExisting {
  et_device : Z;
  et_inode : Z;
  et_file_type : FileType;
  et_links : Z;
  et_size : Z;
  et_uid : Z;
  et_gid : Z;
  et_mode : Z;
  et_modified_seconds : Z;
  et_modified_nanoseconds : Z;
  et_changed_seconds : Z;
  et_changed_nanoseconds : Z
}.

#[export] Instance ExistingReplacementTarget_eq_dec : EqDecision ExistingReplacementTarget.
Proof. solve_decision. Defined.

Inductive ReplacementTargetIdentity := Missing | Existing (target : ExistingReplacementTarget).

#[export] Instance ReplacementTargetIdentity_eq_dec : EqDecision ReplacementTargetIdentity.
Proof. solve_decision. Defined.

Record DeleteIdentity := mkDeleteIdentity {
  di_device : Z;
  di_inode : Z;
  di_is_directory : bool
}.

#[export] Instance DeleteIdentity_eq_dec : EqDecision DeleteIdentity.
Proof. solve_decision. Defined.

Definition replacement_target_identity (stat : Stat) : ExistingReplacementTarget :=
  mkExisting (st_dev stat) (st_ino stat) (from_raw_mode (st_mode stat)) (st_nlink stat)
    (st_size stat) (st_uid stat) (st_gid stat) (st_mode stat) (st_mtime stat) (st_mtime_nsec stat)
    (st_ctime stat) (st_ctime_nsec stat).

Definition delete_identity_from_stat (stat : Stat) : DeleteIdentity :=
  mkDeleteIdentity (st_dev stat) (st_ino stat) (bool_decide (from_raw_mode (st_mode stat) = Directory)).

Definition identity_exists (i : ReplacementTargetIdentity) : bool :=
  match i with Missing => false | Existing _ => true end.

Definition delete_identity (i : ReplacementTargetIdentity) : option DeleteIdentity :=
  match i with
  | Missing => None
  | Existing t =>
      Some (mkDeleteIdentity (et_device t) (et_inode t) (bool_decide (et_file_type t = Directory)))
  end.

Definition is_replaceable (i : ReplacementTargetIdentity) : bool :=
  match i with
  | Missing => true
  | Existing t =>
      match et_file_type t with
      | Symlink => true
      | RegularFile => (et_links t =? 1) && (Z.land (et_mode t) 3072 =? 0)
      | _ => false
      end
  end.

(** ** Revisions *)

Definition file_type_revision_tag (t : FileType) : bytes :=
  [byte_chr (match t with
             | RegularFile => 1
             | Directory => 2
             | Symlink => 3
             | BlockDevice => 4
             | CharacterDevice => 5
             | Fifo => 6
             | Socket => 7
             | UnknownType => 255
             end)].

(** [i64::to_be_bytes]: two's complement. *)
Definition i64_to_be_bytes (z : Z) : bytes := be_bytes 8 (z `mod` 2 ^ 64).
Definition u32_to_be_bytes (z : Z) : bytes := be_bytes 4 z.

(** The bytes [update_revision_digest] adds to the digest. *)
Definition update_revision_digest (i : ReplacementTargetIdentity) : bytes :=
  match i with
  | Missing => [byte_chr 0]
  | Existing t =>
      [byte_chr 1] ++ u64_to_be_bytes (et_device t) ++ u64_to_be_bytes (et_inode t) ++
      file_type_revision_tag (et_file_type t) ++ u64_to_be_bytes (et_links t) ++
      i64_to_be_bytes (et_size t) ++ u32_to_be_bytes (et_uid t) ++ u32_to_be_bytes (et_gid t) ++
      u32_to_be_bytes (et_mode t) ++ i64_to_be_bytes (et_modified_seconds t) ++
      u64_to_be_bytes (et_modified_nanoseconds t) ++ i64_to_be_bytes (et_changed_seconds t) ++
      u64_to_be_bytes (et_changed_nanoseconds t)
  end.

Definition REVISION_DOMAIN : bytes := bs "dufs-upload-target-revision-v1" ++ [nul_byte].
Definition PURGE_DOMAIN : bytes := bs "dufs-purge-trash-revision-v1" ++ [nul_byte].

Section digests.
Context (sha256 : bytes -> bytes).

Definition purge_revision (i : ReplacementTargetIdentity) : bytes :=
  sha256 (PURGE_DOMAIN ++ update_revision_digest i).

(** [path_bytes.len() as u64] keeps the low 64 bits. *)
Definition revision_input (owner_id path : bytes) (i : ReplacementTargetIdentity) : bytes :=
  REVISION_DOMAIN ++ owner_id ++ u64_to_be_bytes (blen path `mod` 2 ^ 64) ++ path ++
  update_revision_digest i.

Definition target_revision (owner_id canonical_relative_path : bytes) (i : ReplacementTargetIdentity)
    : option bytes :=
  if identity_exists i then Some (sha256 (revision_input owner_id canonical_relative_path i)) else None.

Record UploadTargetInspection := mkInspection {
  ti_exists : bool;
  ti_replaceable : bool;
  ti_revision : option bytes
}.

Definition inspect_target_identity (owner_id canonical_relative_path : bytes)
    (i : ReplacementTargetIdentity) : UploadTargetInspection :=
  mkInspection (identity_exists i) (is_replaceable i)
    (target_revision owner_id canonical_relative_path i).
End digests.

Definition TARGET_REPLACEABLE_HEADER : bytes := bs "x-dufs-target-replaceable".

Definition apply_target_inspection_headers `{HttpTypes} (res : Response)
    (inspection : UploadTargetInspection) : result Failure Response :=
  headers ← match ti_revision inspection with
            | Some revision =>
                try (set_header (res_headers res) TARGET_REVISION_HEADER (revision_encode revision))
            | None => Ok (remove_header (res_headers res) TARGET_REVISION_HEADER)
            end;
  Ok (with_header (with_headers res headers) TARGET_REPLACEABLE_HEADER
        (if ti_replaceable inspection then bs "true" else bs "false")).

(** ** A failed rename into the trash *)

(** The result of a system call that may report an error. *)
Inductive CheckedTrashMove (entry : Type) :=
| Moved (trash : entry)
| TargetChanged
| NotMoved (error : IoError)
| DurabilityUnknown (error : IoError).
Arguments Moved {entry}.
Arguments TargetChanged {entry}.
Arguments NotMoved {entry}.
Arguments DurabilityUnknown {entry}.

(** The two names as [delete_identity_at] sees them after the failure. *)
Definition classify_failed_checked_trash_rename {entry}
    (source trash : result IoError (option DeleteIdentity)) (expected : DeleteIdentity)
    (rename_error : IoError) : CheckedTrashMove entry :=
  if match source with Ok (Some identity) => bool_decide (identity = expected) | _ => false end &&
     match trash with Ok identity => negb (bool_decide (identity = Some expected)) | Err _ => false end
  then NotMoved rename_error
  else DurabilityUnknown rename_error.

(** ** Facts *)

(** The ranges of the fields of a stat structure. *)
Definition stat_range (t : ExistingReplacementTarget) : Prop :=
  u64_range (et_device t) /\ u64_range (et_inode t) /\ u64_range (et_links t) /\
  in_i64 (et_size t) = true /\ in_u32 (et_uid t) = true /\ in_u32 (et_gid t) = true /\
  in_u32 (et_mode t) = true /\ in_i64 (et_modified_seconds t) = true /\
  u64_range (et_modified_nanoseconds t) /\ in_i64 (et_changed_seconds t) = true /\
  u64_range (et_changed_nanoseconds t).

Definition identity_range (i : ReplacementTargetIdentity) : Prop :=
  match i with Missing => True | Existing t => stat_range t end.

Lemma be_bytes_inj n a b :
  0 <= a < 256 ^ Z.of_nat n -> 0 <= b < 256 ^ Z.of_nat n -> be_bytes n a = be_bytes n b -> a = b.
Proof. intros Ha Hb H. apply (f_equal be_value) in H. by rewrite !be_value_bytes in H. Qed.

Lemma u64_be_inj a b : u64_range a -> u64_range b -> u64_to_be_bytes a = u64_to_be_bytes b -> a = b.
Proof.
  unfold u64_range, u64_max. intros Ha Hb. apply be_bytes_inj; change (256 ^ Z.of_nat 8) with (2 ^ 64); lia.
Qed.

Lemma i64_be_inj a b :
  in_i64 a = true -> in_i64 b = true -> i64_to_be_bytes a = i64_to_be_bytes b -> a = b.
Proof.
  unfold in_i64, i64_min, i64_max, i64_to_be_bytes. intros Ha Hb H. bool_prop.
  apply be_bytes_inj in H; [|change (256 ^ Z.of_nat 8) with (2 ^ 64); apply Z.mod_pos_bound; lia..].
  change (2 ^ 64) with 18446744073709551616 in H.
  pose proof (Z.div_mod a 18446744073709551616 ltac:(lia)).
  pose proof (Z.div_mod b 18446744073709551616 ltac:(lia)). lia.
Qed.

Lemma u32_be_inj a b :
  in_u32 a = true -> in_u32 b = true -> u32_to_be_bytes a = u32_to_be_bytes b -> a = b.
Proof.
  unfold in_u32, u32_max. intros Ha Hb. bool_prop.
  apply be_bytes_inj; change (256 ^ Z.of_nat 4) with 4294967296; lia.
Qed.

Lemma file_type_tag_inj a b : file_type_revision_tag a = file_type_revision_tag b -> a = b.
Proof. destruct a, b; try done; intros H; vm_compute in H; discriminate H. Qed.

(** Peel equal fixed-width fields off two concatenations. *)
Ltac peel H :=
  let Hh := fresh "Hf" in
  apply app_inj_1 in H as [Hh H];
    [|unfold u64_to_be_bytes, i64_to_be_bytes, u32_to_be_bytes, file_type_revision_tag;
      rewrite ?be_bytes_length; reflexivity].

Lemma revision_digest_inj i j :
  identity_range i -> identity_range j ->
  update_revision_digest i = update_revision_digest j -> i = j.
Proof.
  destruct i as [|s], j as [|t]; cbn [identity_range]; intros Hs Ht H; [done|discriminate H|discriminate H|].
  unfold update_revision_digest in H.
  destruct Hs as (S1 & S2 & S3 & S4 & S5 & S6 & S7 & S8 & S9 & S10 & S11).
  destruct Ht as (T1 & T2 & T3 & T4 & T5 & T6 & T7 & T8 & T9 & T10 & T11).
  do 12 peel H.
  apply u64_be_inj in Hf0, Hf1, Hf3, Hf9, H; [|done..].
  apply i64_be_inj in Hf4, Hf8, Hf10; [|done..].
  apply u32_be_inj in Hf5, Hf6, Hf7; [|done..]. apply file_type_tag_inj in Hf2.
  destruct s, t. cbn in *. congruence.
Qed.

(** Up to a SHA-256 collision a revision identifies the owner, the path and
    every attribute of the object it was derived from, so a request that quotes
    it acts on the object its client saw, and it cannot be carried over to
    another account or another name; the revision of a trash entry likewise.  A
    missing object has none. *)
Theorem revisions_identify_targets sha256 owner path i owner' path' i' :
  blen owner = 32 -> blen owner' = 32 -> short path -> short path' ->
  identity_range i -> identity_range i' ->
  (target_revision sha256 owner path i = None <-> i = Missing) /\
  (i <> Missing -> target_revision sha256 owner path i = target_revision sha256 owner' path' i' ->
     (owner = owner' /\ path = path' /\ i = i') \/ collision sha256) /\
  (purge_revision sha256 i = purge_revision sha256 i' -> i = i' \/ collision sha256).
Proof.
  intros Ho Ho' Hp Hp' Hi Hi'. split_and!.
  - unfold target_revision. by destruct i.
  - intros Hne. unfold target_revision. destruct i as [|t]; [done|]. destruct i' as [|t']; [done|].
    cbn [identity_exists]. intros [= H]. apply digest_eq in H as [H|H]; [left|by right].
    unfold revision_input in H. apply app_inv_head in H.
    apply app_inj_1 in H as [-> H]; [|unfold blen in *; lia].
    unfold short in *. assert (0 <= blen path /\ 0 <= blen path') as [? ?] by (unfold blen; lia).
    rewrite !Z.mod_small in H by lia. peel H.
    apply u64_be_inj in Hf; [|unfold u64_range, u64_max; lia..].
    apply app_inj_1 in H as [-> H]; [|unfold blen in Hf; lia].
    apply revision_digest_inj in H; [|done..]. by split_and!.
  - unfold purge_revision. intros [H|H]%(digest_eq sha256); [left|by right].
    apply app_inv_head in H. by apply revision_digest_inj.
Qed.

(** After a failed rename into the trash the server claims that nothing
    moved exactly when the source name still holds the expected object and the
    trash name was read and does not; every other finding is reported as an
    unknown outcome. *)
Theorem failed_rename_is_classified entry source trash expected error :
  classify_failed_checked_trash_rename (entry := entry) source trash expected error =
    NotMoved error <->
  source = Ok (Some expected) /\ exists found, trash = Ok found /\ found <> Some expected.
Proof.
  unfold classify_failed_checked_trash_rename. split.
  - destruct source as [[s|]|]; cbn; try done. case_bool_decide; cbn; [|done].
    destruct trash as [f|]; [|done]. case_bool_decide; cbn; [done|]. subst. eauto.
  - intros (-> & found & -> & Hne). rewrite bool_decide_eq_true_2 by done.
    by rewrite bool_decide_eq_false_2.
Qed.

Definition demo_target : ExistingReplacementTarget :=
  mkExisting 64769 1234 RegularFile 1 10 1000 1000 33188 1700000000 5 1700000001 6.

Lemma revisions_identify_targets_witness :
  target_revision id (bs "fingerprint-of-thirty-two-bytes!") (bs "a/b") (Existing demo_target) <>
  target_revision id (bs "fingerprint-of-thirty-two-bytes!") (bs "a/c") (Existing demo_target).
Proof.
  destruct (revisions_identify_targets id (bs "fingerprint-of-thirty-two-bytes!") (bs "a/b")
    (Existing demo_target) (bs "fingerprint-of-thirty-two-bytes!") (bs "a/c") (Existing demo_target))
    as (_ & H & _);
    [reflexivity|reflexivity|reflexivity|reflexivity
    |repeat split; discriminate|repeat split; discriminate|].
  intros Heq. destruct (H ltac:(discriminate) Heq) as [(_ & Hp & _)|(a & b & Hne & Hab)];
    [discriminate Hp|exact (Hne Hab)].
Defined.
