(* ===== verification/ListingSort.v ===== *)
(** The interruptible stable sort of directory listings,
    [stable_sort_by_interruptible] of [src/src/server/listing.rs]: a bottom-up
    merge sort of an array of indices, followed by an in-place permutation of
    the values along its cycles.  Every bounded unit of work polls whether the
    request is still wanted, and memory for the two index arrays may be refused.

    The loops take fuel.  Running out of it, or indexing outside an array, is a
    result of its own ([Diverged], [Panicked]), so that the theorems can say it
    does not happen.  A Rust slice has at most [isize::MAX] elements, so the
    saturating additions and multiplications of the source are exact and
    positions are natural numbers. *)

From S2P Require Import Prelude.
From stdpp Require Import base numbers list sets sorting.

(** ** Results of the sort *)

(** [InterruptibleSortFailure], and the two ways a loop could go wrong. *)
Inductive SortStop := Interrupted | Allocation | Panicked | Diverged.

#[export] Instance SortStop_eq_dec : EqDecision SortStop.
Proof. solve_decision. Defined.

Definition INTERRUPT_CHECK_INTERVAL : nat := 256.

(** [work_since_check] and how often [active] has been asked. *)
Record Ticks := mkTicks { work_since_check : nat; polls : nat }.

(** Indexing a vector or slice. *)
Definition index_at {A} (l : list A) (i : nat) : result SortStop A :=
  ok_or (l !! i) Panicked.

(** [l[i] = x]. *)
Definition store_at {A} (l : list A) (i : nat) (x : A) : result SortStop (list A) :=
  _ ← index_at l i; Ok (<[i := x]> l).

(** [slice.swap(i, j)]. *)
Definition swap_at {A} (l : list A) (i j : nat) : result SortStop (list A) :=
  a ← index_at l i; b ← index_at l j; Ok (<[i := b]> (<[j := a]> l)).

Section sort.
Context {T : Type} (compare : T -> T -> comparison).
(** The answer of the [n]-th call of [active]. *)
Context (active : nat -> bool).

(** The step counter at the head of every loop body. *)
Definition tick (t : Ticks) : result SortStop Ticks :=
  let work := S (work_since_check t) in
  if INTERRUPT_CHECK_INTERVAL <=? work then
    if active (polls t) then Ok (mkTicks 0 (S (polls t))) else Err Interrupted
  else Ok (mkTicks work (polls t)).

(** [for index in 0..len { ...; current.push(index); }] *)
Fixpoint fill_indices (todo : list nat) (current : list nat) (t : Ticks)
    : result SortStop (list nat * Ticks) :=
  match todo with
  | [] => Ok (current, t)
  | index :: todo => t ← tick t; fill_indices todo (current ++ [index]) t
  end.

(** Which run the next index comes from. *)
Definition take_left (values : list T) (current : list nat) (left middle right end_ : nat)
    : result SortStop bool :=
  if right =? end_ then Ok true
  else if left <? middle then
    l ← index_at current left; r ← index_at current right;
    x ← index_at values l; y ← index_at values r;
    Ok (match compare x y with Gt => false | _ => true end)
  else Ok false.

(** [while left < middle || right < end] *)
Fixpoint merge_run (fuel : nat) (values : list T) (current : list nat)
    (left middle right end_ : nat) (next : list nat) (t : Ticks)
    : result SortStop (list nat * Ticks) :=
  if (left <? middle) || (right <? end_) then
    match fuel with
    | O => Err Diverged
    | S fuel =>
        t ← tick t;
        from_left ← take_left values current left middle right end_;
        if (from_left : bool) then
          x ← index_at current left;
          merge_run fuel values current (S left) middle right end_ (next ++ [x]) t
        else
          x ← index_at current right;
          merge_run fuel values current left middle (S right) end_ (next ++ [x]) t
    end
  else Ok (next, t).

(** [while start < len] *)
Fixpoint merge_pass (fuel : nat) (values : list T) (current : list nat)
    (width len start : nat) (next : list nat) (t : Ticks)
    : result SortStop (list nat * Ticks) :=
  if start <? len then
    match fuel with
    | O => Err Diverged
    | S fuel =>
        let middle := Nat.min (start + width) len in
        let end_ := Nat.min (start + width * 2) len in
        '(next, t) ← merge_run (end_ - start) values current start middle middle end_ next t;
        merge_pass fuel values current width len end_ next t
    end
  else Ok (next, t).

(** [while width < len] *)
Fixpoint sort_passes (fuel : nat) (values : list T) (current : list nat)
    (width len : nat) (t : Ticks) : result SortStop (list nat * Ticks) :=
  if width <? len then
    match fuel with
    | O => Err Diverged
    | S fuel =>
        '(next, t) ← merge_pass len values current width len 0 [] t;
        sort_passes fuel values next (width * 2) len t
    end
  else Ok (current, t).

(** [for (new_position, &old_position) in current.iter().enumerate()] *)
Fixpoint invert_order (new_position : nat) (current next : list nat) (t : Ticks)
    : result SortStop (list nat * Ticks) :=
  match current with
  | [] => Ok (next, t)
  | old_position :: current =>
      t ← tick t;
      next ← store_at next old_position new_position;
      invert_order (S new_position) current next t
  end.

(** [while next[position] != position]: the values as they are when the loop
    stops, and how it stops. *)
Fixpoint follow_cycle (fuel : nat) (position : nat) (values : list T) (next : list nat)
    (t : Ticks) : result SortStop (list nat * Ticks) * list T :=
  match index_at next position with
  | Err e => (Err e, values)
  | Ok destination =>
      if destination =? position then (Ok (next, t), values)
      else
        match fuel with
        | O => (Err Diverged, values)
        | S fuel =>
            match tick t with
            | Err e => (Err e, values)
            | Ok t =>
                match swap_at values position destination, swap_at next position destination with
                | Ok values, Ok next => follow_cycle fuel position values next t
                | Err e, _ => (Err e, values)
                | Ok values, Err e => (Err e, values)
                end
            end
        end
  end.

(** [for position in 0..len] *)
Fixpoint apply_order (positions : list nat) (values : list T) (next : list nat) (t : Ticks)
    : result SortStop Ticks * list T :=
  match positions with
  | [] => (Ok t, values)
  | position :: positions =>
      match follow_cycle (length next) position values next t with
      | (Err e, values) => (Err e, values)
      | (Ok (next, t), values) => apply_order positions values next t
      end
  end.

(** The whole routine; [room] and [room'] say whether the two index arrays can
    be allocated.  The second component is the slice the caller sees. *)
Definition stable_sort_by_interruptible (room room' : bool) (values : list T)
    : result SortStop unit * list T :=
  if negb (active 0) then (Err Interrupted, values)
  else
    let len := length values in
    if len <? 2 then (Ok tt, values)
    else if negb room then (Err Allocation, values)
    else
      match fill_indices (seq 0 len) [] (mkTicks 0 1) with
      | Err e => (Err e, values)
      | Ok (current, t) =>
          if negb room' then (Err Allocation, values)
          else
            match sort_passes len values current 1 len t with
            | Err e => (Err e, values)
            | Ok (current, t) =>
                match invert_order 0 current (replicate len 0) t with
                | Err e => (Err e, values)
                | Ok (next, t) =>
                    match apply_order (seq 0 len) values next t with
                    | (Err e, values) => (Err e, values)
                    | (Ok t, values) =>
                        if active (polls t) then (Ok tt, values) else (Err Interrupted, values)
                    end
                end
            end
      end.

End sort.

(** ** The reference: insertion sort that puts a value before its equals *)

Fixpoint insert_before_equals {T} (compare : T -> T -> comparison) (x : T) (l : list T) : list T :=
  match l with
  | [] => [x]
  | y :: l' =>
      match compare x y with
      | Gt => y :: insert_before_equals compare x l'
      | _ => x :: l
      end
  end.

Definition stable_sort {T} (compare : T -> T -> comparison) (l : list T) : list T :=
  foldr (insert_before_equals compare) [] l.

Example sort_runs :
  stable_sort_by_interruptible (λ a b : nat * nat, Nat.compare a.1 b.1) (λ _, true) true true
    [(3,0); (1,0); (2,0); (3,1); (1,1)] =
  (Ok tt, [(1,0); (1,1); (2,0); (3,0); (3,1)]).
Proof. reflexivity. Qed.

(** ** Orders *)

(** What the sort needs of a comparison: it is a total preorder. *)
Class TotalPreorder {T : Type} (compare : T -> T -> comparison) : Prop := {
  preorder_flip x y : compare y x = CompOpp (compare x y);
  preorder_trans x y z : compare x y <> Gt -> compare y z <> Gt -> compare x z <> Gt
}.

Section order_facts.
Context {T : Type} {compare : T -> T -> comparison} `{!TotalPreorder compare}.

Lemma preorder_refl x : compare x x = Eq.
Proof. pose proof (preorder_flip x x) as H. by destruct (compare x x). Qed.

Lemma preorder_lt_le x y z : compare x y = Lt -> compare y z <> Gt -> compare x z = Lt.
Proof.
  intros Hxy Hyz. destruct (compare x z) eqn:E; [|done|].
  - exfalso. apply (preorder_trans y z x Hyz); rewrite preorder_flip; [by rewrite E|by rewrite Hxy].
  - exfalso. by apply (preorder_trans x y z); [rewrite Hxy| |].
Qed.

Lemma preorder_le_lt x y z : compare x y <> Gt -> compare y z = Lt -> compare x z = Lt.
Proof.
  intros Hxy Hyz. destruct (compare x z) eqn:E; [|done|].
  - exfalso. apply (preorder_trans z x y); [rewrite preorder_flip; by rewrite E|done|].
    rewrite preorder_flip. by rewrite Hyz.
  - exfalso. by apply (preorder_trans x y z); [|rewrite Hyz|].
Qed.

Lemma preorder_eq_eq x y z : compare x y = Eq -> compare y z = Eq -> compare x z = Eq.
Proof.
  intros Hxy Hyz. destruct (compare x z) eqn:E; [done| |].
  - exfalso. assert (compare y x <> Gt) by (rewrite preorder_flip; by rewrite Hxy).
    by rewrite (preorder_le_lt y x z) in Hyz.
  - exfalso. by apply (preorder_trans x y z); [rewrite Hxy|rewrite Hyz|].
Qed.
End order_facts.

(** Reversing a comparison keeps it a total preorder. *)
#[export] Instance preorder_reverse {T} (compare : T -> T -> comparison) :
  TotalPreorder compare -> TotalPreorder (λ x y, CompOpp (compare x y)).
Proof.
  intros H. split.
  - intros x y. by rewrite (preorder_flip x y).
  - intros x y z Hxy Hyz. rewrite <-preorder_flip in *. by apply (preorder_trans z y x).
Qed.

(** A comparison of keys is one of the things that carry them. *)
Lemma preorder_on {A B} (f : A -> B) (compare : B -> B -> comparison) :
  TotalPreorder compare -> TotalPreorder (λ x y, compare (f x) (f y)).
Proof.
  intros H. split; intros; [apply preorder_flip|by eapply preorder_trans].
Qed.

Lemma preorder_nat : TotalPreorder Nat.compare.
Proof.
  split; [intros; apply Nat.compare_antisym|].
  intros x y z. rewrite !Nat.compare_gt_iff. lia.
Qed.

(** [Ordering::then_with]. *)
Definition then_with (a b : comparison) : comparison :=
  match a with Eq => b | _ => a end.

#[export] Instance preorder_then {T} (c d : T -> T -> comparison) :
  TotalPreorder c -> TotalPreorder d -> TotalPreorder (λ x y, then_with (c x y) (d x y)).
Proof.
  intros Hc Hd. split.
  - intros x y. rewrite (preorder_flip (compare := c) x y), (preorder_flip (compare := d) x y).
    by destruct (c x y).
  - intros x y z. destruct (c x y) eqn:Exy; cbn; [| |done]; destruct (c y z) eqn:Eyz; cbn.
    + rewrite (preorder_eq_eq (compare := c) x y z) by done. apply (preorder_trans (compare := d)).
    + rewrite (preorder_le_lt (compare := c) x y z); [done|by rewrite Exy|done].
    + done.
    + rewrite (preorder_lt_le (compare := c) x y z); [done|done|by rewrite Eyz].
    + rewrite (preorder_lt_le (compare := c) x y z); [done|done|by rewrite Eyz].
    + done.
Qed.

(** ** Slices of a list *)

Section slices.
Context {A : Type}.
Implicit Types l : list A.

Definition slice (a b : nat) (l : list A) : list A := take (b - a) (drop a l).

Lemma slice_empty a b l : b <= a -> slice a b l = [].
Proof. intros H. unfold slice. by replace (b - a) with 0 by lia. Qed.

Lemma slice_step a b l : a < b -> b <= length l ->
  exists x, l !! a = Some x /\ slice a b l = x :: slice (S a) b l.
Proof.
  intros Hab Hb. destruct (lookup_lt_is_Some_2 l a) as [x Hx]; [lia|].
  exists x. split; [done|]. unfold slice. rewrite (drop_S l x a Hx).
  by replace (b - a) with (S (b - S a)) by lia.
Qed.

Lemma slice_length a b l : a <= b -> b <= length l -> length (slice a b l) = b - a.
Proof. intros. unfold slice. rewrite length_take, length_drop. lia. Qed.

Lemma slice_app_l a b l k : b <= length l -> slice a b (l ++ k) = slice a b l.
Proof.
  intros Hb. unfold slice. destruct (decide (a <= b)).
  - rewrite drop_app_le by lia. rewrite take_app_le; [done|]. rewrite length_drop. lia.
  - by replace (b - a) with 0 by lia.
Qed.

Lemma slice_app_r l k : slice (length l) (length l + length k) (l ++ k) = k.
Proof.
  unfold slice. rewrite drop_app_length.
  replace (length l + length k - length l) with (length k) by lia. by apply take_ge.
Qed.

Lemma slice_all n l : length l = n -> slice 0 n l = l.
Proof. intros <-. unfold slice. rewrite drop_0. apply take_ge. lia. Qed.

Lemma elem_of_slice a b l x : x ∈ slice a b l -> x ∈ l.
Proof.
  unfold slice. intros Hx. apply list_elem_of_lookup in Hx as [i Hi].
  apply lookup_take_Some in Hi as [Hi _]. rewrite lookup_drop in Hi.
  by apply list_elem_of_lookup_2 in Hi.
Qed.
End slices.

(** ** The merge passes order the indices *)

Section merging.
Context {T : Type} (compare : T -> T -> comparison) (active : nat -> bool).
Context (values : list T).

(** A computation that yields a value satisfying [P] or was asked to stop. *)
Definition unless_stopped {A} (r : result SortStop A) (P : A -> Prop) : Prop :=
  match r with
  | Ok a => P a
  | Err e => e = Interrupted /\ exists n, active n = false
  end.

Lemma unless_stopped_bind {A B} (r : result SortStop A) (f : A -> result SortStop B) P Q :
  unless_stopped r P -> (forall a, P a -> unless_stopped (f a) Q) -> unless_stopped (r ≫= f) Q.
Proof. destruct r; cbn; [intros H Hf; by apply Hf|done]. Qed.

Lemma tick_stops t : unless_stopped (tick active t) (λ _, True).
Proof.
  unfold tick. destruct (_ <=? _); cbn; [|done]. destruct (active (polls t)) eqn:E; cbn; [done|].
  split; [done|]. by exists (polls t).
Qed.

Lemma fill_indices_spec todo current t :
  unless_stopped (fill_indices active todo current t) (λ r, r.1 = current ++ todo).
Proof.
  revert current t. induction todo as [|i todo IH]; intros current t; cbn [fill_indices].
  { cbn. by rewrite app_nil_r. }
  apply unless_stopped_bind with (λ _, True); [apply tick_stops|]. intros t' _.
  specialize (IH (current ++ [i]) t'). by rewrite <-app_assoc in IH.
Qed.

(** Indices compare as the values they stand for, ties by position. *)
Definition index_compare (i j : nat) : comparison :=
  match values !! i, values !! j with
  | Some x, Some y => compare x y
  | _, _ => Eq
  end.

Definition goes_left (i j : nat) : Prop := index_compare i j <> Gt.

#[local] Instance goes_left_dec i j : Decision (goes_left i j).
Proof. unfold goes_left. apply _. Defined.

Definition before (i j : nat) : Prop :=
  i < length values /\ j < length values /\
  (index_compare i j = Lt \/ index_compare i j = Eq /\ i < j).

Definition valid (l : list nat) : Prop := Forall (λ i, i < length values) l.

Lemma valid_elem l : valid l <-> forall i, i ∈ l -> i < length values.
Proof. apply Forall_forall. Qed.

Lemma take_left_spec current left middle right end_ i j :
  valid current -> current !! left = Some i -> current !! right = Some j ->
  left < middle -> right < end_ ->
  take_left compare values current left middle right end_ = Ok (bool_decide (goes_left i j)).
Proof.
  intros Hv Hi Hj Hl Hr. unfold take_left.
  rewrite (proj2 (Nat.eqb_neq right end_)), (proj2 (Nat.ltb_lt left middle)) by lia.
  pose proof (Forall_lookup_1 _ _ _ _ Hv Hi) as Hix.
  pose proof (Forall_lookup_1 _ _ _ _ Hv Hj) as Hjx.
  apply lookup_lt_is_Some_2 in Hix as [x Hx]. apply lookup_lt_is_Some_2 in Hjx as [y Hy].
  unfold index_at. rewrite Hi, Hj. cbn. rewrite Hx, Hy. cbn. f_equal.
  assert (Hc : index_compare i j = compare x y) by (unfold index_compare; by rewrite Hx, Hy).
  case_bool_decide as Hg; unfold goes_left in Hg; rewrite Hc in Hg; destruct (compare x y); naive_solver.
Qed.

Lemma merge_run_spec fuel current left middle right end_ next t :
  valid current -> left <= middle -> middle <= length current ->
  right <= end_ -> end_ <= length current ->
  (middle - left) + (end_ - right) <= fuel ->
  unless_stopped (merge_run compare active fuel values current left middle right end_ next t)
    (λ r, r.1 = next ++ list_merge goes_left (slice left middle current) (slice right end_ current)).
Proof.
  revert left right next t.
  induction fuel as [|fuel IH]; intros left right next t Hv Hl Hm Hr He Hf; cbn [merge_run].
  all: destruct (left <? middle) eqn:El, (right <? end_) eqn:Er; cbn [orb];
    rewrite ?Nat.ltb_lt, ?Nat.ltb_ge in El; rewrite ?Nat.ltb_lt, ?Nat.ltb_ge in Er.
  all: try lia.
  all: try (cbn; rewrite (slice_empty left), (slice_empty right) by lia; cbn; by rewrite app_nil_r).
  all: apply unless_stopped_bind with (λ _, True); [apply tick_stops|]; intros t' _.
  - destruct (slice_step left middle current) as (i & Hi & Sl); [lia..|].
    destruct (slice_step right end_ current) as (j & Hj & Sr); [lia..|].
    rewrite (take_left_spec current left middle right end_ i j) by done.
    cbn [mbind result_bind]. rewrite Sl, Sr, list_merge_cons, <-Sl, <-Sr.
    case_bool_decide as Hd; [rewrite decide_True by done|rewrite decide_False by done].
    + unfold index_at at 1. rewrite Hi. cbn [ok_or mbind result_bind].
      specialize (IH (S left) right (next ++ [i]) t'). rewrite <-app_assoc in IH. apply IH; lia || done.
    + unfold index_at at 1. rewrite Hj. cbn [ok_or mbind result_bind].
      specialize (IH left (S right) (next ++ [j]) t'). rewrite <-app_assoc in IH. apply IH; lia || done.
  - destruct (slice_step left middle current) as (i & Hi & Sl); [lia..|].
    unfold take_left. replace (right =? end_) with true by (symmetry; apply Nat.eqb_eq; lia).
    cbn [mbind result_bind]. unfold index_at at 1. rewrite Hi. cbn [ok_or mbind result_bind].
    specialize (IH (S left) right (next ++ [i]) t'). rewrite <-app_assoc in IH.
    rewrite Sl, (slice_empty right) in * by lia. rewrite list_merge_nil_r in *. apply IH; lia || done.
  - destruct (slice_step right end_ current) as (j & Hj & Sr); [lia..|].
    unfold take_left. replace (right =? end_) with false by (symmetry; apply Nat.eqb_neq; lia).
    replace (left <? middle) with false by (symmetry; apply Nat.ltb_ge; lia).
    cbn [mbind result_bind]. unfold index_at at 1. rewrite Hj. cbn [ok_or mbind result_bind].
    specialize (IH left (S right) (next ++ [j]) t'). rewrite <-app_assoc in IH.
    rewrite Sr, (slice_empty left) in * by lia. rewrite list_merge_nil_l in *. apply IH; lia || done.
Qed.

Context `{!TotalPreorder compare}.

Lemma before_total i j : i < length values -> j < length values -> i < j ->
  if decide (goes_left i j) then before i j else before j i.
Proof.
  intros Hi Hj Hij.
  assert (Hf : index_compare j i = CompOpp (index_compare i j)).
  { unfold index_compare.
    destruct (lookup_lt_is_Some_2 _ _ Hi) as [x Hx], (lookup_lt_is_Some_2 _ _ Hj) as [y Hy].
    rewrite Hx, Hy. apply preorder_flip. }
  unfold before. rewrite Hf. destruct (decide (goes_left i j)) as [Hg|Hg];
    unfold goes_left in Hg; destruct (index_compare i j); naive_solver.
Qed.

#[local] Instance before_trans : Transitive before.
Proof.
  intros i j k (Hi & Hj & Hij) (_ & Hk & Hjk). split; [done|]. split; [done|].
  unfold index_compare in *.
  destruct (lookup_lt_is_Some_2 _ _ Hi) as [x Hx], (lookup_lt_is_Some_2 _ _ Hj) as [y Hy],
    (lookup_lt_is_Some_2 _ _ Hk) as [z Hz].
  rewrite Hx, Hy, Hz in *.
  destruct Hij as [Hij|[Hij Lij]], Hjk as [Hjk|[Hjk Ljk]].
  - left. apply (preorder_lt_le x y z); [done|by rewrite Hjk].
  - left. apply (preorder_lt_le x y z); [done|by rewrite Hjk].
  - left. apply (preorder_le_lt x y z); [by rewrite Hij|done].
  - right. split; [by apply (preorder_eq_eq x y z)|lia].
Qed.

#[local] Instance before_antisymm : AntiSymm (=) before.
Proof.
  intros i j (Hi & Hj & Hij) (_ & _ & Hji). exfalso. unfold index_compare in *.
  destruct (lookup_lt_is_Some_2 _ _ Hi) as [x Hx], (lookup_lt_is_Some_2 _ _ Hj) as [y Hy].
  rewrite Hx, Hy, (preorder_flip x y) in *. destruct (compare x y); naive_solver lia.
Qed.

(** Merging two ordered runs, the first of which holds the smaller positions. *)
Lemma merge_sorted l k :
  valid (l ++ k) -> (forall i j, i ∈ l -> j ∈ k -> i < j) ->
  StronglySorted before l -> StronglySorted before k ->
  StronglySorted before (list_merge goes_left l k).
Proof.
  revert k. induction l as [|i l IHl]; intros k Hv Hlt Hl Hk.
  { by rewrite list_merge_nil_l. }
  induction k as [|j k IHk]; [by rewrite list_merge_nil_r|].
  rewrite list_merge_cons.
  assert (Hi : i < length values) by (eapply valid_elem; [exact Hv|set_solver]).
  assert (Hj : j < length values) by (eapply valid_elem; [exact Hv|set_solver]).
  pose proof (before_total i j Hi Hj ltac:(apply Hlt; set_solver)) as Hd.
  inversion Hl as [|? ? Hl' Fl]; subst. inversion Hk as [|? ? Hk' Fk]; subst.
  destruct (decide (goes_left i j)).
  - constructor.
    + apply IHl; [|set_solver|done..]. by inversion Hv.
    + rewrite merge_Permutation. apply Forall_app. split; [done|]. constructor; [done|].
      eapply Forall_impl; [exact Fk|]. intros m Hm. cbn in Hm. by trans j.
  - constructor.
    + apply IHk; [|set_solver|done].
      apply valid_elem. intros m Hm. eapply valid_elem; [exact Hv|set_solver].
    + rewrite merge_Permutation. apply Forall_app. split; [|done]. constructor; [done|].
      eapply Forall_impl; [exact Fl|]. intros m Hm. cbn in Hm. by trans i.
Qed.

(** Positions [a, b) hold exactly the indices of that range, in order. *)
Definition block (current : list nat) (a b : nat) : Prop :=
  slice a b current ≡ₚ seq a (b - a) /\ StronglySorted before (slice a b current).

(** Every run of the given width is a block. *)
Definition runs (width : nat) (current : list nat) : Prop :=
  length current = length values /\ valid current /\
  forall k, k * width < length values ->
    block current (k * width) (Nat.min (k * width + width) (length values)).

Lemma block_app_l current more a b : b <= length current ->
  block (current ++ more) a b <-> block current a b.
Proof. intros H. unfold block. by rewrite slice_app_l. Qed.

Lemma runs_one : runs 1 (seq 0 (length values)).
Proof.
  split; [by rewrite length_seq|]. split.
  { apply valid_elem. intros i. rewrite elem_of_seq. lia. }
  intros k Hk. rewrite Nat.mul_1_r in *.
  replace (Nat.min (k + 1) (length values)) with (S k) by lia.
  destruct (slice_step k (S k) (seq 0 (length values))) as (x & Hx & Hs);
    [lia|rewrite length_seq; lia|].
  apply lookup_seq in Hx as [-> _]. unfold block. rewrite Hs, slice_empty by lia.
  replace (S k - k) with 1 by lia. split; [done|]. repeat constructor.
Qed.

(** Two neighbouring runs are merged into one of twice the width. *)
Lemma merge_block current width k :
  0 < width -> runs width current -> k * (width * 2) < length values ->
  let start := k * (width * 2) in
  let middle := Nat.min (start + width) (length values) in
  let end_ := Nat.min (start + width * 2) (length values) in
  let merged := list_merge goes_left (slice start middle current) (slice middle end_ current) in
  merged ≡ₚ seq start (end_ - start) /\ StronglySorted before merged /\
  valid merged /\ length merged = end_ - start.
Proof.
  intros Hw (Hlen & Hv & Hruns) Hk start middle end_ merged.
  assert (Hl : block current start middle).
  { specialize (Hruns (2 * k)). replace (2 * k * width) with start in Hruns by (unfold start; lia).
    apply Hruns. unfold start. lia. }
  assert (Hr : block current middle end_).
  { destruct (decide (start + width < length values)) as [Hlt|Hge].
    - specialize (Hruns (2 * k + 1)).
      replace ((2 * k + 1) * width) with (start + width) in Hruns by (unfold start; lia).
      unfold middle. rewrite Nat.min_l by lia. unfold end_.
      replace (start + width * 2) with (start + width + width) by lia. apply Hruns. lia.
    - unfold block. rewrite slice_empty by lia.
      replace (end_ - middle) with 0 by lia. split; [done|constructor]. }
  destruct Hl as [Pl Sl], Hr as [Pr Sr].
  assert (Hm : merged ≡ₚ seq start (end_ - start)).
  { unfold merged. rewrite merge_Permutation, Pl, Pr.
    replace (end_ - start) with ((middle - start) + (end_ - middle)) by lia.
    rewrite seq_app. by replace (start + (middle - start)) with middle by lia. }
  assert (Hvm : valid merged).
  { apply valid_elem. intros i. rewrite Hm, elem_of_seq. lia. }
  split; [done|]. split; [|split; [done|by rewrite Hm, length_seq]].
  apply merge_sorted; [|intros i j; rewrite Pl, Pr, !elem_of_seq; lia|done..].
  unfold valid. by rewrite <-merge_Permutation.
Qed.

Lemma merge_pass_spec fuel current width k next t :
  0 < width -> runs width current ->
  length next = Nat.min (k * (width * 2)) (length values) -> valid next ->
  (forall j, j < k -> j * (width * 2) < length values ->
     block next (j * (width * 2)) (Nat.min (j * (width * 2) + width * 2) (length values))) ->
  length values - length next <= fuel ->
  unless_stopped
    (merge_pass compare active fuel values current width (length values) (length next) next t)
    (λ r, runs (width * 2) r.1).
Proof.
  revert k next t. induction fuel as [|fuel IH]; intros k next t Hw Hruns Hlen Hv Hb Hf;
    cbn [merge_pass]; destruct (length next <? length values) eqn:E;
    rewrite ?Nat.ltb_lt, ?Nat.ltb_ge in E; try lia.
  1, 3: (cbn; split; [lia|]; split; [done|]; intros j Hj; apply Hb; [nia|done]).
  assert (Hk : k * (width * 2) < length values) by lia.
  rewrite Nat.min_l in Hlen by lia.
  pose proof (merge_block current width k Hw Hruns Hk) as (Hp & Hs & Hvm & Hlm).
  destruct Hruns as (Hcl & Hcv & Hrun). rewrite <-Hlen in *.
  set (merged := list_merge _ _ _) in *.
  eapply unless_stopped_bind.
  { apply merge_run_spec; [done|lia..]. }
  intros [next' t']. cbn [fst]. intros ->. fold merged.
  replace (Nat.min (length next + width * 2) (length values)) with (length (next ++ merged))
    by (rewrite length_app; lia).
  apply (IH (S k)); [done|by split|rewrite length_app; lia| | |rewrite length_app; lia].
  - by apply Forall_app.
  - intros j Hj Hjl. destruct (decide (j = k)) as [->|Hne].
    + rewrite <-Hlen. unfold block.
      replace (Nat.min (length next + width * 2) (length values))
        with (length next + length merged) by lia.
      rewrite slice_app_r. by replace (length next + length merged - length next)
        with (Nat.min (length next + width * 2) (length values) - length next) by lia.
    + rewrite block_app_l by nia. apply Hb; [lia|done].
Qed.

(** One run that covers everything is the sorted order. *)
Lemma runs_done width current :
  0 < width -> length values <= width -> runs width current ->
  current ≡ₚ seq 0 (length values) /\ StronglySorted before current.
Proof.
  intros Hw Hle (Hlen & _ & Hb). destruct (decide (length values = 0)) as [H0|H0].
  { rewrite H0 in *. apply nil_length_inv in Hlen as ->. split; [done|]. apply SSorted_nil. }
  specialize (Hb 0). unfold block in Hb. rewrite Nat.mul_0_l, Nat.add_0_l, Nat.min_r in Hb by lia.
  rewrite slice_all, Nat.sub_0_r in Hb by done. apply Hb. lia.
Qed.

Lemma sort_passes_spec fuel current width t :
  0 < width -> length values <= width + fuel -> runs width current ->
  unless_stopped (sort_passes compare active fuel values current width (length values) t)
    (λ r, r.1 ≡ₚ seq 0 (length values) /\ StronglySorted before r.1).
Proof.
  revert current width t. induction fuel as [|fuel IH]; intros current width t Hw Hf Hruns;
    cbn [sort_passes]; destruct (width <? length values) eqn:E;
    rewrite ?Nat.ltb_lt, ?Nat.ltb_ge in E; try lia.
  1, 3: (cbn; by apply (runs_done width)).
  eapply unless_stopped_bind.
  { apply (merge_pass_spec _ _ width 0 [] t); [done|done|by rewrite Nat.min_l by lia|constructor|lia|cbn; lia]. }
  intros [next t']. cbn [fst]. intros Hr. apply IH; [lia|lia|done].
Qed.

(** The values an index list selects. *)
Definition reads (order : list nat) (l : list T) : Prop :=
  Forall2 (λ i x, values !! i = Some x) order l.

Lemma reads_unique order l k : reads order l -> reads order k -> l = k.
Proof.
  intros H. revert k. induction H as [|i x order l Hx H IH]; intros k Hk; inversion Hk; subst; [done|].
  f_equal; [congruence|by apply IH].
Qed.

Lemma insert_reads i x order l :
  values !! i = Some x -> valid order -> (forall j, j ∈ order -> i < j) ->
  StronglySorted before order -> reads order l ->
  exists order', order' ≡ₚ i :: order /\ StronglySorted before order' /\
    reads order' (insert_before_equals compare x l).
Proof.
  intros Hx Hv Hlt Hs Hr. revert Hv Hlt Hs.
  induction Hr as [|j y order l Hy Hr IH]; intros Hv Hlt Hs; cbn [insert_before_equals].
  { exists [i]. split; [done|]. split; [repeat constructor|by repeat constructor]. }
  assert (Hi : i < length values) by (apply lookup_lt_Some in Hx; done).
  assert (Hj : j < length values) by (apply lookup_lt_Some in Hy; done).
  pose proof (before_total i j Hi Hj ltac:(apply Hlt; set_solver)) as Hd.
  assert (Hc : index_compare i j = compare x y) by (unfold index_compare; by rewrite Hx, Hy).
  inversion Hs as [|? ? Hs' Hf]; subst. inversion Hv as [|? ? _ Hv']; subst.
  destruct (decide (goes_left i j)) as [Hg|Hg]; unfold goes_left in Hg; rewrite Hc in Hg.
  - exists (i :: j :: order). split; [done|]. split.
    + constructor; [done|]. constructor; [done|]. eapply Forall_impl; [exact Hf|].
      intros m Hm. cbn in Hm. by trans j.
    + destruct (compare x y) eqn:E; [by repeat constructor..|done].
  - destruct IH as (order' & Hp & Hs'' & Hr'); [done|set_solver|done|].
    exists (j :: order'). split; [rewrite Hp; apply Permutation_swap|]. split.
    + constructor; [done|]. rewrite Hp. by constructor.
    + destruct (compare x y); try (exfalso; by apply Hg); by constructor.
Qed.

(** The reference sort reads the values in the order the indices have. *)
Lemma stable_sort_reads suffix prefix : values = prefix ++ suffix ->
  exists order, order ≡ₚ seq (length prefix) (length suffix) /\
    StronglySorted before order /\ reads order (stable_sort compare suffix).
Proof.
  revert prefix. induction suffix as [|x suffix IH]; intros prefix Heq.
  { exists []. split; [done|]. split; [apply SSorted_nil|constructor]. }
  destruct (IH (prefix ++ [x])) as (order & Hp & Hs & Hr); [by rewrite <-app_assoc|].
  rewrite length_app in Hp. cbn in Hp. rewrite Nat.add_1_r in Hp.
  destruct (insert_reads (length prefix) x order (stable_sort compare suffix))
    as (order' & Hp' & Hs' & Hr'); [| | |done|done|].
  - rewrite Heq. by apply list_lookup_middle.
  - apply valid_elem. intros i. rewrite Hp, elem_of_seq. rewrite Heq, length_app. cbn. lia.
  - intros j. rewrite Hp, elem_of_seq. lia.
  - exists order'. split; [by rewrite Hp', Hp|]. by split.
Qed.

Lemma sorted_order_reads order l :
  order ≡ₚ seq 0 (length values) -> StronglySorted before order -> reads order l ->
  l = stable_sort compare values.
Proof.
  intros Hp Hs Hr. destruct (stable_sort_reads values []) as (order' & Hp' & Hs' & Hr'); [done|].
  assert (order = order') as -> by (apply (StronglySorted_unique before); [done..|by rewrite Hp, Hp']).
  by apply (reads_unique order').
Qed.

End merging.

(** ** The cycles put the values in that order *)

Section permuting.
Context {T : Type} (active : nat -> bool).

Lemma store_at_ok {A} (l : list A) i x : i < length l -> store_at l i x = Ok (<[i := x]> l).
Proof. intros H. unfold store_at, index_at. by destruct (lookup_lt_is_Some_2 l i H) as [y ->]. Qed.

Lemma swap_at_ok {A} (l : list A) i j : i < length l -> j < length l ->
  exists l', swap_at l i j = Ok l' /\ length l' = length l /\
    l' !! i = l !! j /\ l' !! j = l !! i /\ forall m, m <> i -> m <> j -> l' !! m = l !! m.
Proof.
  intros Hi Hj. unfold swap_at, index_at.
  destruct (lookup_lt_is_Some_2 l i Hi) as [a Ha], (lookup_lt_is_Some_2 l j Hj) as [b Hb].
  rewrite Ha, Hb. cbn. eexists. split; [done|]. rewrite !length_insert. split; [done|].
  split; [rewrite list_lookup_insert_eq; [done|by rewrite length_insert]|]. split.
  - destruct (decide (i = j)) as [->|Hne].
    + rewrite list_lookup_insert_eq by (by rewrite length_insert). congruence.
    + rewrite list_lookup_insert_ne, list_lookup_insert_eq by done. done.
  - intros m Hmi Hmj. by rewrite !list_lookup_insert_ne by done.
Qed.

(** Every position is the image of exactly one. *)
Definition shuffle (next : list nat) : Prop :=
  NoDup next /\ Forall (λ d, d < length next) next.

(** The value at [p] belongs at [next[p]]. *)
Definition linked (out values : list T) (next : list nat) : Prop :=
  length values = length out /\ length next = length out /\
  forall p d, next !! p = Some d -> out !! d = values !! p.

Lemma invert_order_spec new current next t :
  NoDup current -> Forall (λ i, i < length next) current ->
  unless_stopped active (invert_order active new current next t)
    (λ r, length r.1 = length next /\
      (forall i x, current !! i = Some x -> r.1 !! x = Some (new + i)) /\
      (forall x, x ∉ current -> r.1 !! x = next !! x)).
Proof.
  revert new next t. induction current as [|x current IH]; intros new next t Hnd Hf; cbn [invert_order].
  { cbn. split; [done|]. split; [|done]. intros i x Hx. by rewrite lookup_nil in Hx. }
  inversion Hnd as [|? ? Hx Hnd']; subst. inversion Hf as [|? ? Hxl Hf']; subst.
  apply unless_stopped_bind with (λ _, True); [apply tick_stops|]. intros t' _.
  rewrite store_at_ok by done. cbn [mbind result_bind].
  specialize (IH (S new) (<[x := new]> next) t' Hnd'). rewrite length_insert in IH.
  specialize (IH Hf'). destruct (invert_order _ _ _ _ _) as [[r t'']|e]; cbn in *; [|done].
  destruct IH as (Hlen & Hin & Hout). split; [done|]. split.
  - intros [|i] y Hy; cbn in Hy.
    + injection Hy as <-. rewrite Hout by done.
      rewrite list_lookup_insert_eq by done. f_equal. lia.
    + rewrite (Hin i y Hy). f_equal. lia.
  - intros y Hy. rewrite elem_of_cons in Hy. rewrite Hout by tauto.
    apply list_lookup_insert_ne. naive_solver.
Qed.

Lemma linked_Permutation out values next :
  shuffle next -> linked out values next -> values ≡ₚ out.
Proof.
  intros [Hnd Hf] (Hlv & Hln & Hl). apply Permutation_inj. split; [done|].
  exists (λ p, default p (next !! p)). split.
  - intros p q Hpq. destruct (next !! p) as [d|] eqn:Ep, (next !! q) as [d'|] eqn:Eq; cbn in Hpq.
    + subst d'. by apply (NoDup_lookup next p q d).
    + pose proof (Forall_lookup_1 _ _ _ _ Hf Ep). apply lookup_ge_None in Eq. cbn in *. lia.
    + pose proof (Forall_lookup_1 _ _ _ _ Hf Eq). apply lookup_ge_None in Ep. cbn in *. lia.
    + done.
  - intros p. destruct (next !! p) as [d|] eqn:Ep; cbn; [symmetry; by apply Hl|].
    apply lookup_ge_None in Ep. rewrite !lookup_ge_None_2 by lia. done.
Qed.

(** Swapping values and destinations together keeps what belongs where. *)
Lemma linked_swap out values next p d values' next' :
  linked out values next ->
  length values' = length values -> length next' = length next ->
  values' !! p = values !! d -> values' !! d = values !! p ->
  next' !! p = next !! d -> next' !! d = next !! p ->
  (forall m, m <> p -> m <> d -> values' !! m = values !! m /\ next' !! m = next !! m) ->
  linked out values' next'.
Proof.
  intros (Hlv & Hln & Hl) Hv Hn Vp Vd Np Nd Hm. split; [congruence|]. split; [congruence|].
  intros q e Hq. destruct (decide (q = p)) as [->|Hqp]; [rewrite Vp; apply Hl; congruence|].
  destruct (decide (q = d)) as [->|Hqd]; [rewrite Vd; apply Hl; congruence|].
  destruct (Hm q Hqp Hqd) as [-> Hq']. apply Hl. congruence.
Qed.

Lemma shuffle_swap next p d next' :
  shuffle next -> length next' = length next ->
  next' !! p = next !! d -> next' !! d = next !! p ->
  (forall m, m <> p -> m <> d -> next' !! m = next !! m) -> shuffle next'.
Proof.
  intros [Hnd Hf] Hlen Hp Hd Hm.
  set (f := λ q, if decide (q = p) then d else if decide (q = d) then p else q).
  assert (Hf' : forall q, next' !! q = next !! f q).
  { intros q. unfold f. destruct (decide (q = p)) as [->|]; [done|].
    destruct (decide (q = d)) as [->|]; [done|]. by apply Hm. }
  assert (Hinj : Inj (=) (=) f) by (intros a b; unfold f; repeat case_decide; naive_solver).
  assert (Hperm : next' ≡ₚ next) by (apply Permutation_inj; eauto).
  split; rewrite Hperm; [done|by rewrite Hlen].
Qed.

(** The positions whose value is not in place yet. *)
Definition misplaced (next : list nat) : list nat :=
  filter (λ p, next !! p <> Some p) (seq 0 (length next)).

Lemma misplaced_decreases next next' p d :
  next !! p = Some d -> d <> p -> d < length next -> next !! d <> Some d ->
  length next' = length next -> next' !! d = Some d ->
  (forall m, m <> p -> m <> d -> next' !! m = next !! m) ->
  length (misplaced next') < length (misplaced next).
Proof.
  intros Hp Hne Hd Hdd Hlen Hd' Hm.
  assert (Hnd : NoDup (d :: misplaced next')).
  { constructor; [|apply NoDup_filter, NoDup_seq]. unfold misplaced.
    rewrite list_elem_of_filter. naive_solver. }
  assert (Hsub : d :: misplaced next' ⊆+ misplaced next).
  { apply NoDup_submseteq; [done|]. intros q Hq. unfold misplaced in *.
    rewrite elem_of_cons in Hq. rewrite list_elem_of_filter in *. rewrite elem_of_seq in *.
    destruct Hq as [->|[Hq1 Hq2]]; [split; [done|lia]|].
    split; [|lia]. destruct (decide (q = p)) as [->|]; [naive_solver|].
    destruct (decide (q = d)) as [->|]; [done|]. by rewrite <-Hm. }
  apply submseteq_length in Hsub. cbn in Hsub. lia.
Qed.

(** The loop at one position: it stops early only when asked to, it ends with
    the position in place, and it leaves the places before it alone. *)
Lemma follow_cycle_spec fuel position out values next t :
  shuffle next -> linked out values next -> position < length next ->
  length (misplaced next) <= fuel ->
  let r := follow_cycle active fuel position values next t in
  r.2 ≡ₚ out /\
  unless_stopped active r.1 (λ nt, shuffle nt.1 /\ linked out r.2 nt.1 /\
    nt.1 !! position = Some position /\
    forall m, next !! m = Some m -> nt.1 !! m = Some m).
Proof.
  revert values next t.
  induction fuel as [|fuel IH]; intros values next t Hs Hl Hp Hf; cbn [follow_cycle].
  all: destruct (lookup_lt_is_Some_2 next position Hp) as [d Hd]; unfold index_at; rewrite Hd;
    cbn [ok_or]; destruct (Nat.eqb_spec d position) as [->|Hne];
    [cbn; split; [by apply (linked_Permutation _ _ next)|done]|].
  - exfalso. assert (position ∈ misplaced next) as Hin.
    { unfold misplaced. rewrite list_elem_of_filter, elem_of_seq. split; [congruence|lia]. }
    apply list_elem_of_lookup in Hin as [i Hi]. apply lookup_lt_Some in Hi. lia.
  - pose proof (tick_stops active t) as Ht. destruct (tick active t) as [t'|e]; cbn in Ht.
    2:{ cbn. split; [by apply (linked_Permutation _ _ next)|done]. }
    pose proof (Forall_lookup_1 _ _ _ _ (proj2 Hs) Hd) as Hdl. cbn in Hdl.
    pose proof Hl as (Hlv & Hln & _).
    destruct (swap_at_ok values position d) as (v' & -> & Lv & V1 & V2 & V3); [lia..|].
    destruct (swap_at_ok next position d) as (n' & -> & Ln & N1 & N2 & N3); [lia..|].
    assert (Hdd : next !! d <> Some d).
    { intros Hd'. apply Hne. symmetry. by apply (NoDup_lookup next position d d); [apply Hs| |]. }
    destruct (IH v' n' t') as [Hperm Hrest].
    { by apply (shuffle_swap next position d). }
    { apply (linked_swap out values next position d); [done..|]. intros m ??. split; auto. }
    { lia. }
    { enough (length (misplaced n') < length (misplaced next)) by lia.
      apply (misplaced_decreases _ _ position d); [done..|congruence|done]. }
    split; [done|]. destruct (follow_cycle _ _ _ _ _ _) as [[[n'' t'']|e] v'']; cbn in *; [|done].
    destruct Hrest as (? & ? & ? & Hfix). split_and!; [done..|]. intros m Hm. apply Hfix.
    destruct (decide (m = position)) as [->|]; [congruence|].
    destruct (decide (m = d)) as [->|]; [done|]. by rewrite N3.
Qed.

Lemma apply_order_spec positions out values next t :
  shuffle next -> linked out values next ->
  Forall (λ p, p < length next) positions ->
  (forall p, p < length next -> p ∈ positions \/ next !! p = Some p) ->
  let r := apply_order active positions values next t in
  r.2 ≡ₚ out /\ unless_stopped active r.1 (λ _, r.2 = out).
Proof.
  revert values next t.
  induction positions as [|p positions IH]; intros values next t Hs Hl Hf Hall; cbn [apply_order].
  { cbn. split; [by apply (linked_Permutation _ _ next)|]. apply list_eq. intros q.
    destruct Hl as (Hlv & Hln & Hl). destruct (decide (q < length next)) as [Hq|Hq].
    - destruct (Hall q Hq) as [?|Hqq]; [set_solver|]. symmetry. by apply Hl.
    - rewrite !lookup_ge_None_2 by lia. done. }
  inversion Hf as [|? ? Hp Hf']; subst.
  destruct (follow_cycle_spec (length next) p out values next t) as [Hperm Hrest]; [done..| |].
  { unfold misplaced. etrans; [apply length_filter|]. by rewrite length_seq. }
  destruct (follow_cycle _ _ _ _ _ _) as [[[n' t']|e] v']; cbn in *; [|by split].
  destruct Hrest as (Hs' & Hl' & Hpp & Hfix).
  assert (Hlen : length n' = length next) by (destruct Hl as (?&?&?), Hl' as (?&?&?); congruence).
  apply IH; [done|done|by rewrite Hlen|]. rewrite Hlen. intros q Hq.
  destruct (Hall q Hq) as [[->|Hin]%elem_of_cons|Hqq]; auto.
Qed.

End permuting.

(** ** The whole routine *)

Section correctness.
Context {T : Type} (compare : T -> T -> comparison) `{!TotalPreorder compare}.

(** The reference deserves its name: a permutation, ascending, and values that
    compare equal keep their order. *)
Lemma insert_before_equals_perm x l : insert_before_equals compare x l ≡ₚ x :: l.
Proof.
  induction l as [|y l IH]; cbn; [done|]. destruct (compare x y); [done..|].
  rewrite IH. apply Permutation_swap.
Qed.

Lemma stable_sort_perm l : stable_sort compare l ≡ₚ l.
Proof. induction l as [|x l IH]; cbn; [done|]. by rewrite insert_before_equals_perm, IH. Qed.

Lemma insert_before_equals_sorted x l :
  StronglySorted (λ a b, compare a b <> Gt) l ->
  StronglySorted (λ a b, compare a b <> Gt) (insert_before_equals compare x l).
Proof.
  induction 1 as [|y l Hs IH Hf]; cbn; [repeat constructor|].
  destruct (compare x y) eqn:E.
  1, 2: constructor; [by constructor|]; constructor; [by rewrite E|];
    eapply Forall_impl; [exact Hf|]; intros z Hz; apply (preorder_trans x y z); [by rewrite E|done].
  constructor; [done|]. rewrite insert_before_equals_perm. constructor; [|done].
  rewrite preorder_flip, E. done.
Qed.

Lemma stable_sort_sorted l : StronglySorted (λ a b, compare a b <> Gt) (stable_sort compare l).
Proof. induction l as [|x l IH]; cbn; [constructor|]. by apply insert_before_equals_sorted. Qed.

Lemma insert_before_equals_filter x z l :
  filter (λ y, compare z y = Eq) (insert_before_equals compare x l) =
  filter (λ y, compare z y = Eq) (x :: l).
Proof.
  induction l as [|y l IH]; [done|]. cbn [insert_before_equals].
  destruct (compare x y) eqn:E; [done..|]. rewrite filter_cons, IH, !filter_cons.
  repeat case_decide; try done. exfalso.
  assert (compare x y = Eq); [|congruence].
  apply (preorder_eq_eq x z y); [|done]. rewrite preorder_flip. by rewrite H0.
Qed.

Lemma stable_sort_stable z l :
  filter (λ y, compare z y = Eq) (stable_sort compare l) = filter (λ y, compare z y = Eq) l.
Proof.
  induction l as [|x l IH]; cbn [stable_sort foldr]; [done|].
  rewrite insert_before_equals_filter, !filter_cons. fold (stable_sort compare l).
  by case_decide; rewrite IH.
Qed.

(** The order found by the merges, as the inverse the cycles start from. *)
Lemma inverse_is_linked (values : list T) order next (l : list T) :
  order ≡ₚ seq 0 (length values) -> length next = length values ->
  (forall i x, order !! i = Some x -> next !! x = Some i) ->
  reads values order l -> shuffle next /\ linked l values next.
Proof.
  intros Hp Hlen Hinv Hr.
  assert (Hlo : length order = length values) by (by rewrite Hp, length_seq).
  assert (Hll : length l = length values) by (apply Forall2_length in Hr; congruence).
  assert (Hback : forall x i, next !! x = Some i -> order !! i = Some x).
  { intros x i Hx. assert (x ∈ order) as Hin.
    { rewrite Hp, elem_of_seq. apply lookup_lt_Some in Hx. lia. }
    apply list_elem_of_lookup in Hin as [j Hj]. rewrite (Hinv j x Hj) in Hx. congruence. }
  split.
  - split.
    + apply NoDup_alt. intros x y i Hx Hy. apply Hback in Hx, Hy. congruence.
    + apply Forall_lookup. intros x i Hx. apply Hback in Hx. apply lookup_lt_Some in Hx. lia.
  - split; [done|]. split; [congruence|]. intros x i Hx. apply Hback in Hx.
    destruct (lookup_lt_is_Some_2 l i) as [v Hv]; [apply lookup_lt_Some in Hx; lia|].
    rewrite Hv. symmetry. by apply (Forall2_lookup_lr _ _ _ _ _ _ Hr Hx Hv).
Qed.

Lemma order_reads (values : list T) order : order ≡ₚ seq 0 (length values) -> exists l, reads values order l.
Proof.
  intros Hp. assert (Hv : valid values order).
  { apply valid_elem. intros i. rewrite Hp, elem_of_seq. lia. }
  clear Hp. induction Hv as [|i order Hi _ [l IH]]; [by exists []; constructor|].
  destruct (lookup_lt_is_Some_2 values i Hi) as [x Hx]. exists (x :: l). by constructor.
Qed.

Lemma short_sorted l : length l < 2 -> stable_sort compare l = l.
Proof. destruct l as [|x [|y l]]; cbn; [done..|lia]. Qed.

Lemma sort_result active room room' (values : list T) :
  match stable_sort_by_interruptible compare active room room' values with
  | (Ok _, sorted) => sorted = stable_sort compare values
  | (Err e, remaining) =>
      remaining ≡ₚ values /\
      (e = Interrupted /\ (exists n, active n = false) \/
       e = Allocation /\ (room = false \/ room' = false))
  end.
Proof.
  unfold stable_sort_by_interruptible. destruct (active 0) eqn:E0; cbn [negb]; [|eauto 10].
  destruct (length values <? 2) eqn:E2; [rewrite Nat.ltb_lt in E2; by rewrite short_sorted|].
  destruct room; cbn [negb]; [|eauto].
  pose proof (fill_indices_spec active (seq 0 (length values)) [] (mkTicks 0 1)) as Hfill.
  destruct (fill_indices _ _ _ _) as [[order t]|e]; cbn in Hfill; [subst order|naive_solver].
  destruct room'; cbn [negb]; [|eauto].
  pose proof (sort_passes_spec compare active values (length values) _ 1 t ltac:(lia) ltac:(lia)
    (runs_one compare values)) as Hsort.
  destruct (sort_passes _ _ _ _ _ _ _ _) as [[order t2]|e]; cbn in Hsort; [|naive_solver].
  destruct Hsort as [Hp Hs].
  pose proof (invert_order_spec active 0 order (replicate (length values) 0) t2) as Hinv.
  rewrite length_replicate in Hinv.
  destruct (invert_order _ _ _ _ _) as [[next t3]|e]; cbn in Hinv; [|destruct Hinv; [| |naive_solver]].
  2: by rewrite Hp; apply NoDup_seq.
  2: by rewrite Hp; apply Forall_forall; intros i; rewrite elem_of_seq; lia.
  destruct Hinv as (Hlen & Hlook & _); [rewrite Hp; apply NoDup_seq| |].
  { rewrite Hp. apply Forall_forall. intros i. rewrite elem_of_seq. lia. }
  destruct (order_reads values order Hp) as [l Hl].
  destruct (inverse_is_linked values order next l Hp Hlen Hlook Hl) as [Hsh Hlk].
  rewrite (sorted_order_reads compare active values order l Hp Hs Hl) in *.
  destruct (apply_order_spec active (seq 0 (length values)) _ values next t3 Hsh Hlk) as [Hperm Hdone].
  { apply Forall_forall. intros i. rewrite elem_of_seq. lia. }
  { intros i Hi. left. rewrite elem_of_seq. lia. }
  destruct (apply_order _ _ _ _ _) as [[t4|e] final]; cbn in *; rewrite stable_sort_perm in Hperm.
  - destruct (active (polls t4)) eqn:E4; [done|]. eauto 10.
  - split; [done|]. tauto.
Qed.

(** C30: The interruptible sort returns exactly what a stable insertion sort
    returns; when it stops early the slice still holds the same values, and it
    stops only because it was asked to or because memory was refused.  In
    particular its loops terminate and never index out of bounds. *)
Theorem listing_sort_is_stable active room room' (values : list T) :
  match stable_sort_by_interruptible compare active room room' values with
  | (Ok _, sorted) => sorted = stable_sort compare values
  | (Err e, remaining) =>
      remaining ≡ₚ values /\
      (e = Interrupted /\ (exists n, active n = false) \/
       e = Allocation /\ (room = false \/ room' = false))
  end.
Proof. apply sort_result. Qed.

End correctness.

Lemma listing_sort_is_stable_witness :
  stable_sort (λ a b : nat * nat, Nat.compare a.1 b.1) [(3,0); (1,0); (2,0); (3,1); (1,1)] =
    [(1,0); (1,1); (2,0); (3,0); (3,1)] /\
  match stable_sort_by_interruptible (λ a b : nat * nat, Nat.compare a.1 b.1) (λ _, true) true true
          [(3,0); (1,0); (2,0); (3,1); (1,1)] with
  | (Ok _, sorted) => sorted = stable_sort (λ a b, Nat.compare a.1 b.1) [(3,0); (1,0); (2,0); (3,1); (1,1)]
  | (Err e, remaining) =>
      remaining ≡ₚ [(3,0); (1,0); (2,0); (3,1); (1,1)] /\
      (e = Interrupted /\ (exists n : nat, true = false) \/ e = Allocation /\ (true = false \/ true = false))
  end.
Proof.
  split; [reflexivity|]. pose proof (preorder_on (fst : nat * nat -> nat) _ preorder_nat).
  apply (listing_sort_is_stable (λ a b : nat * nat, Nat.compare a.1 b.1) (λ _, true) true true).
Defined.
