(* ===== verification/Listing.v ===== *)
(** Directory listings ([src/src/server/listing.rs]): the catalogue of failures,
    listed items and their orders, the search filter, the memory budgets of
    collected results, and the spelling of paths in diagnostics.

    Sizes of Rust types ([std::mem::size_of]), the capacities an allocator
    returns, [str::to_lowercase] and the crate [alphanumeric_sort] are
    parameters. *)

From S2P Require Import Prelude Bytes StdPath Utils UuidText Http UploadProtocol Problem InternalNames Revisions ListingSort.
From stdpp Require Import base numbers list strings sets sorting.
From Stdlib Require Import Ascii.
Import ErrorCode.

Local Open Scope Z_scope.

(** ** Saturating arithmetic of [usize] *)

Definition usize_max : Z := u64_max.
Definition sat_add (a b : Z) : Z := Z.min (a + b) usize_max.
Definition sat_mul (a b : Z) : Z := Z.min (a * b) usize_max.
Definition sat_sub (a b : Z) : Z := Z.max (a - b) 0.

(** ** Failures *)

Inductive ListingProblem :=
| UnsupportedFilename
| DirectoryAccessForbidden
| DirectoryChanged
| DirectoryOperationTimeout
| DirectoryOperationFailed
| ServerStopping
| DirectorySymlinkLoop
| DirectoryListingEntryLimit
| DirectoryWalkEntryLimit
| DirectoryDepthLimit
| DirectoryMemoryLimit
| SearchResultLimit
| ListSnapshotLimit
| ListSnapshotAllocationFailed
| DirectorySortLimit.

#[export] Instance ListingProblem_eq_dec : EqDecision ListingProblem.
Proof. solve_decision. Defined.

(** [ListingProblem::status]. *)
Definition problem_status (p : ListingProblem) : Z :=
  match p with
  | UnsupportedFilename | DirectoryChanged | DirectorySymlinkLoop => 409
  | DirectoryAccessForbidden => 403
  | DirectoryOperationTimeout => 504
  | DirectoryOperationFailed => 500
  | ServerStopping => 503
  | DirectoryListingEntryLimit | DirectoryWalkEntryLimit | DirectoryDepthLimit
  | DirectoryMemoryLimit | SearchResultLimit | ListSnapshotLimit
  | ListSnapshotAllocationFailed | DirectorySortLimit => 413
  end.

(** [ListingProblem::public_message]. *)
Definition public_message (p : ListingProblem) : bytes :=
  match p with
  | UnsupportedFilename =>
      bs "The folder contains an unsupported non-UTF-8 name. Rename it on Linux."
  | DirectoryAccessForbidden => bs "Forbidden"
  | DirectoryChanged => bs "The folder changed during traversal. Try again."
  | DirectoryOperationTimeout => bs "Directory operation timed out"
  | DirectoryOperationFailed => bs "Directory operation failed"
  | ServerStopping => bs "Server is stopping"
  | DirectorySymlinkLoop => bs "Directory symlink loop detected"
  | DirectoryListingEntryLimit => bs "Directory listing exceeded its entry limit"
  | DirectoryWalkEntryLimit => bs "Directory operation exceeded its entry limit"
  | DirectoryDepthLimit => bs "Directory traversal exceeded its depth limit"
  | DirectoryMemoryLimit => bs "Directory traversal exceeds the memory limit"
  | SearchResultLimit => bs "Search results exceed the memory limit"
  | ListSnapshotLimit | ListSnapshotAllocationFailed =>
      bs "Directory listing exceeds the snapshot capacity"
  | DirectorySortLimit => bs "Directory sorting exceeds the memory limit"
  end.

(** [ListingProblem::code]. *)
Definition problem_code (p : ListingProblem) : ErrorCode :=
  match p with
  | UnsupportedFilename => UNSUPPORTED_FILENAME
  | DirectoryAccessForbidden => DIRECTORY_ACCESS_FORBIDDEN
  | DirectoryChanged => DIRECTORY_CHANGED
  | DirectoryOperationTimeout => DIRECTORY_OPERATION_TIMEOUT
  | ServerStopping => SERVER_STOPPING
  | DirectorySymlinkLoop => DIRECTORY_SYMLINK_LOOP
  | DirectoryListingEntryLimit | DirectoryWalkEntryLimit => DIRECTORY_ENTRY_LIMIT
  | DirectoryDepthLimit => DIRECTORY_DEPTH_LIMIT
  | DirectoryMemoryLimit => DIRECTORY_MEMORY_LIMIT
  | SearchResultLimit => SEARCH_RESULT_LIMIT
  | ListSnapshotLimit | ListSnapshotAllocationFailed => LIST_SNAPSHOT_LIMIT
  | DirectorySortLimit => DIRECTORY_SORT_LIMIT
  | DirectoryOperationFailed => DIRECTORY_OPERATION_FAILED
  end.

(** [ListingProblem::recovery]. *)
Definition problem_recovery (p : ListingProblem) : RecoveryAdvice :=
  match p with
  | UnsupportedFilename | DirectoryChanged | DirectorySymlinkLoop => RefreshTarget
  | DirectoryOperationTimeout => Retry
  | ServerStopping => RetryAfterSeconds 1
  | _ => NoAdvice
  end.

(** ** Paths in diagnostics *)

Definition byte_hex (c : ascii) : bytes := encode_hex [c].

Definition escape_byte (c : ascii) : bytes :=
  let b := byte_val c in
  if b =? 47 then [c]
  else if b =? 92 then bs "\\"
  else if b =? 34 then [byte_chr 92; byte_chr 34]
  else if in_range 32 126 b then [c]
  else bs "\x" ++ byte_hex c.

Definition escape_path_bytes (b : bytes) : bytes := b ≫= escape_byte.

Definition safe_relative_path (path serve_root : bytes) : bytes :=
  match path_strip_prefix path serve_root with
  | None => bs "<outside-root>"
  | Some [] => bs "."
  | Some relative => escape_path_bytes relative
  end.

(** ** Errors *)

Record ListingError := mkListingError {
  le_operation : bytes;
  le_relative_path : bytes;
  le_reason : bytes;
  le_problem : ListingProblem
}.

Definition unsupported_name (operation path root : bytes) : ListingError :=
  mkListingError operation (safe_relative_path path root)
    (bs "unsupported_filename_encoding") UnsupportedFilename.

Definition listing_io_problem (kind : IoErrorKind) : ListingProblem :=
  match kind with
  | PermissionDenied => DirectoryAccessForbidden
  | InvalidData => UnsupportedFilename
  | NotFound | NotADirectory => DirectoryChanged
  | TimedOut => DirectoryOperationTimeout
  | _ => DirectoryOperationFailed
  end.

Definition listing_io (operation path root : bytes) (error : IoError) : ListingError :=
  mkListingError operation (safe_relative_path path root)
    (bs "io_kind=" ++ kind_debug (io_kind error) ++ bs " raw_os_error=" ++
       match io_raw_os_error error with Some code => u64_to_string code | None => bs "-" end)
    (listing_io_problem (io_kind error)).

Definition listing_cancelled (operation path root : bytes) : ListingError :=
  mkListingError operation (safe_relative_path path root) (bs "server_stopping") ServerStopping.

Definition symlink_loop (operation path root : bytes) : ListingError :=
  mkListingError operation (safe_relative_path path root) (bs "ancestor_symlink_loop")
    DirectorySymlinkLoop.

Definition listing_limit (operation path root reason : bytes) (problem : ListingProblem)
    : ListingError :=
  mkListingError operation (safe_relative_path path root) reason problem.

Definition listing_invariant (operation path root : bytes) : ListingError :=
  mkListingError operation (safe_relative_path path root) (bs "path_outside_expected_base")
    DirectoryOperationFailed.

Definition strict_file_name (path operation serve_root : bytes) : result ListingError bytes :=
  match path_file_name path with
  | Some name =>
      if is_utf8 name && negb (beqb name []) then Ok name
      else Err (unsupported_name operation path serve_root)
  | None => Err (unsupported_name operation path serve_root)
  end.

Definition strict_relative_path (path base_path operation serve_root : bytes)
    : result ListingError bytes :=
  relative ← ok_or (path_strip_prefix path base_path) (listing_invariant operation path serve_root);
  if is_utf8 relative then Ok relative else Err (unsupported_name operation path serve_root).

Section respond.
Context `{HttpTypes}.

Definition respond_list_api_problem (res : Response) (status : Z) (code : ErrorCode)
    (detail : bytes) (recovery : RecoveryAdvice) : result Failure Response :=
  render_problem res (with_recovery (new_api_error status code detail) recovery).

Definition respond_list_api_listing_error (res : Response) (error : ListingError)
    : result Failure Response :=
  respond_list_api_problem res (problem_status (le_problem error)) (problem_code (le_problem error))
    (public_message (le_problem error)) (problem_recovery (le_problem error)).
End respond.

(** ** Listed items *)

Inductive PathType := Dir | SymlinkDir | File | SymlinkFile.

#[export] Instance PathType_eq_dec : EqDecision PathType.
Proof. solve_decision. Defined.

Definition path_type_value (t : PathType) : Z :=
  match t with Dir | SymlinkDir => 0 | File | SymlinkFile => 1 end.

Definition path_type_cmp (a b : PathType) : comparison :=
  Z.compare (path_type_value a) (path_type_value b).

Record PathItem := mkPathItem {
  pi_path_type : PathType;
  pi_sort_name : bytes;
  pi_name : bytes;
  pi_mtime : Z;
  pi_size : Z;
  pi_revision : bytes
}.

#[export] Instance PathItem_eq_dec : EqDecision PathItem.
Proof. solve_decision. Defined.

(** [alphanumeric_sort::compare_str] and [str::to_lowercase]. *)
Class TextOrder := {
  compare_str : bytes -> bytes -> comparison;
  to_lowercase : bytes -> bytes
}.

Definition is_ascii (s : bytes) : bool := forallb (λ c, byte_val c <? 128) s.

Class TextOrderLaws `{TextOrder} : Prop := {
  compare_str_preorder :: TotalPreorder compare_str;
  (** lowercasing is ASCII lowercasing on ASCII text *)
  to_lowercase_ascii s : is_ascii s = true -> to_lowercase s = map to_ascii_lowercase s
}.

Section items.
Context `{TextOrder}.

Definition sort_by_name (a b : PathItem) : comparison :=
  then_with (path_type_cmp (pi_path_type a) (pi_path_type b))
    (then_with (compare_str (pi_sort_name a) (pi_sort_name b))
       (bytes_cmp (pi_name a) (pi_name b))).

Definition sort_by_mtime (a b : PathItem) : comparison :=
  then_with (path_type_cmp (pi_path_type a) (pi_path_type b))
    (then_with (Z.compare (pi_mtime a) (pi_mtime b)) (sort_by_name a b)).

Definition sort_by_size (a b : PathItem) : comparison :=
  then_with (path_type_cmp (pi_path_type a) (pi_path_type b))
    (then_with (Z.compare (pi_size a) (pi_size b)) (sort_by_name a b)).

Definition compare_path_items (sort order : bytes) (left right : PathItem) : comparison :=
  let ordering :=
    if beqb sort (bs "mtime") then sort_by_mtime left right
    else if beqb sort (bs "size") then sort_by_size left right
    else sort_by_name left right in
  if beqb order (bs "desc") then CompOpp ordering else ordering.

(** [str::contains]. *)
Fixpoint str_contains (value query : bytes) : bool :=
  bool_decide (is_Some (str_strip_prefix query value)) ||
  match value with [] => false | _ :: value => str_contains value query end.

(** [value.windows(n)]: every [n] consecutive bytes, in order. *)
Fixpoint windows (n : nat) (value : bytes) : list bytes :=
  match value with
  | [] => []
  | _ :: value' => if (n <=? length value)%nat then take n value :: windows n value' else []
  end.

Definition case_folded_contains (value folded_query : bytes) : bool :=
  if is_ascii value && is_ascii folded_query then
    beqb folded_query [] ||
    existsb (λ window, eq_ignore_ascii_case window folded_query)
      (windows (length folded_query) value)
  else str_contains (to_lowercase value) folded_query.
End items.

(** What [std::fs::Metadata] tells of an entry. *)
Record Metadata := mkMetadata {
  md_is_dir : bool;
  md_len : Z;
  (** milliseconds since the epoch of [modified], else of [created] *)
  md_timestamp : option Z;
  md_dev : Z;
  md_ino : Z;
  md_mtime : Z * Z;
  md_ctime : Z * Z;
  md_is_file : bool;
  md_nlink : Z
}.

(** One visited entry of the rooted filesystem. *)
Record RootedDirEntry := mkEntry {
  de_path : bytes;
  de_file_name : bytes;
  de_metadata : Metadata;
  de_is_symlink : bool;
  de_revision_identity : ReplacementTargetIdentity
}.

Section entries.
Context `{TextOrder} (sha256 : bytes -> bytes).

Definition entry_path_type (is_symlink is_dir : bool) : PathType :=
  match is_symlink, is_dir with
  | true, true => SymlinkDir
  | false, true => Dir
  | true, false => SymlinkFile
  | false, false => File
  end.

(** The failed [expect] of the last line is [None]. *)
Definition pathitem_from_rooted_entry (entry : RootedDirEntry)
    (base_path serve_path revision_owner : bytes) : option (result ListingError PathItem) :=
  let fields :=
    _ ← strict_file_name (de_path entry) (bs "pathitem_filename") serve_path;
    let is_dir := md_is_dir (de_metadata entry) in
    let mtime := default 0 (md_timestamp (de_metadata entry)) in
    let size := if is_dir then 0 else md_len (de_metadata entry) in
    name ← strict_relative_path (de_path entry) base_path (bs "pathitem_relative_path") serve_path;
    revision_path ← ok_or (path_strip_prefix (de_path entry) serve_path)
      (listing_invariant (bs "pathitem_revision_path") (de_path entry) serve_path);
    Ok (mkPathItem (entry_path_type (de_is_symlink entry) is_dir) (to_lowercase name) name mtime size,
        revision_path) in
  match fields with
  | Err e => Some (Err e)
  | Ok (item, revision_path) =>
      revision ← target_revision sha256 revision_owner revision_path (de_revision_identity entry);
      Some (Ok (item revision))
  end.
End entries.

(** ** Snapshots of a directory's identity *)

Record DirectorySnapshot := mkSnapshot {
  ds_device : Z;
  ds_inode : Z;
  ds_mtime : Z * Z;
  ds_ctime : Z * Z
}.

#[export] Instance DirectorySnapshot_eq_dec : EqDecision DirectorySnapshot.
Proof. solve_decision. Defined.

Definition snapshot_from_metadata (m : Metadata) : DirectorySnapshot :=
  mkSnapshot (md_dev m) (md_ino m) (md_mtime m) (md_ctime m).

Definition directory_snapshot_after_walk (metadata : result IoError Metadata) (path serve_root : bytes)
    : result ListingError DirectorySnapshot :=
  match metadata with
  | Err error => Err (listing_io (bs "list_snapshot_after") path serve_root error)
  | Ok metadata =>
      if md_is_dir metadata then Ok (snapshot_from_metadata metadata)
      else Err (listing_limit (bs "list_snapshot_after") path serve_root
                  (bs "directory_replaced_by_non_directory") DirectoryChanged)
  end.

(** ** Bounded vectors *)

(** A vector: its elements and its capacity. *)
Record BoundedVec (A : Type) := mkVec { vec_items : list A; vec_capacity : Z }.
Arguments mkVec {A}.
Arguments vec_items {A}.
Arguments vec_capacity {A}.

Definition vec_len {A} (v : BoundedVec A) : Z := Z.of_nat (length (vec_items v)).
Definition vec_new {A} : BoundedVec A := mkVec [] 0.
(** [push] when there is room. *)
Definition vec_push {A} (v : BoundedVec A) (x : A) : BoundedVec A :=
  mkVec (vec_items v ++ [x]) (vec_capacity v).

Inductive BoundedReserveError := ReserveBudget | ReserveAllocation.

(** An allocator: the capacity it gives when at least so many elements are
    asked for; [None] refuses. *)
Definition Allocator := Z -> option Z.

Definition try_reserve_bounded_vec_slot {A} (item_bytes : Z) (alloc : Allocator) (values : BoundedVec A)
    (non_vector_bytes maximum_bytes : Z) : result BoundedReserveError (BoundedVec A) :=
  if (vec_len values <? vec_capacity values) || (item_bytes =? 0) then Ok values
  else
    let old_allocation := sat_mul (vec_capacity values) item_bytes in
    let available_for_new := sat_sub maximum_bytes (sat_add non_vector_bytes old_allocation) in
    let maximum_new_capacity := available_for_new / item_bytes in
    let required_capacity := sat_add (vec_len values) 1 in
    if maximum_new_capacity <? required_capacity then Err ReserveBudget
    else
      let preferred_capacity :=
        if vec_capacity values =? 0 then Z.max required_capacity 4
        else Z.max (sat_mul (vec_capacity values) 2) required_capacity in
      let requested_capacity := Z.min preferred_capacity maximum_new_capacity in
      match alloc (vec_len values + sat_sub requested_capacity (vec_len values)) with
      | None => Err ReserveAllocation
      | Some capacity =>
          if maximum_new_capacity <? capacity then Err ReserveBudget
          else Ok (mkVec (vec_items values) capacity)
      end.

Definition collection_allocation_bytes (size_of_vec capacity item_size heap_bytes : Z) : Z :=
  sat_add (sat_add size_of_vec (sat_mul capacity item_size)) heap_bytes.

(** ** The orders are total preorders *)

#[export] Instance bytes_cmp_preorder : TotalPreorder bytes_cmp.
Proof.
  split; [intros x y; apply bytes_cmp_antisym|]. intros x y z Hxy Hyz.
  destruct (bytes_cmp x y) eqn:E1; [apply bytes_cmp_eq in E1 as ->; done| |done].
  destruct (bytes_cmp y z) eqn:E2; [apply bytes_cmp_eq in E2 as ->; by rewrite E1| |done].
  by rewrite (bytes_cmp_lt_trans x y z).
Qed.

#[export] Instance Z_compare_preorder : TotalPreorder Z.compare.
Proof.
  split; [intros x y; apply Z.compare_antisym|]. intros x y z.
  rewrite !Z.compare_ngt_iff. lia.
Qed.

Section order_facts.
Context `{TextOrderLaws}.

#[export] Instance compare_path_items_preorder sort order :
  TotalPreorder (compare_path_items sort order).
Proof.
  assert (Ht : TotalPreorder (λ a b, path_type_cmp (pi_path_type a) (pi_path_type b)))
    by apply (preorder_on (λ a, path_type_value (pi_path_type a)) Z.compare), _.
  assert (Hn : TotalPreorder sort_by_name).
  { apply preorder_then; [exact Ht|]. apply preorder_then.
    - apply (preorder_on pi_sort_name compare_str), _.
    - apply (preorder_on pi_name bytes_cmp), _. }
  assert (Hm : TotalPreorder sort_by_mtime).
  { apply preorder_then; [exact Ht|]. apply preorder_then; [|exact Hn].
    apply (preorder_on pi_mtime Z.compare), _. }
  assert (Hs : TotalPreorder sort_by_size).
  { apply preorder_then; [exact Ht|]. apply preorder_then; [|exact Hn].
    apply (preorder_on pi_size Z.compare), _. }
  unfold compare_path_items. destruct (beqb order _); [apply preorder_reverse|];
    (destruct (beqb sort (bs "mtime")); [done|destruct (beqb sort (bs "size")); done]).
Qed.

(** Items of different kinds are ordered by kind, whatever the column. *)
Lemma kinds_first sort order a b :
  path_type_value (pi_path_type a) <> path_type_value (pi_path_type b) ->
  compare_path_items sort order a b =
    (if beqb order (bs "desc") then CompOpp else (λ c, c))
      (path_type_cmp (pi_path_type a) (pi_path_type b)).
Proof.
  intros Hne. assert (Hc : path_type_cmp (pi_path_type a) (pi_path_type b) <> Eq).
  { unfold path_type_cmp. by rewrite Z.compare_eq_iff. }
  unfold compare_path_items, sort_by_mtime, sort_by_size, sort_by_name.
  destruct (path_type_cmp _ _); [done|..]; cbn [then_with];
    destruct (beqb sort (bs "mtime")), (beqb sort (bs "size")), (beqb order (bs "desc")); done.
Qed.

(** ** The search filter *)

Definition lower_ascii (s : bytes) : Prop := map to_ascii_lowercase s = s.

Lemma strip_prefix_take query value :
  is_Some (str_strip_prefix query value) <-> take (length query) value = query.
Proof.
  split.
  - intros [r Hr]. apply str_strip_prefix_Some in Hr as ->. by rewrite take_app_length.
  - intros Ht. exists (drop (length query) value). apply str_strip_prefix_Some.
    by rewrite <-Ht at 1; rewrite take_drop.
Qed.

Lemma windows_contains query value :
  lower_ascii query -> query <> [] ->
  existsb (λ window, eq_ignore_ascii_case window query) (windows (length query) value) =
  str_contains (map to_ascii_lowercase value) query.
Proof.
  intros Hq Hne. induction value as [|c value IH].
  { cbn. rewrite bool_decide_eq_false_2; [done|]. rewrite strip_prefix_take, take_nil. congruence. }
  cbn [windows str_contains map]. rewrite <-IH. clear IH.
  destruct (length query <=? length (c :: value))%nat eqn:E.
  - cbn [existsb]. f_equal. unfold eq_ignore_ascii_case. rewrite Hq.
    apply bool_decide_ext. change (to_ascii_lowercase c :: map to_ascii_lowercase value)
      with (map to_ascii_lowercase (c :: value)).
    rewrite strip_prefix_take, firstn_map. done.
  - apply Nat.leb_gt in E. cbn [existsb].
    rewrite bool_decide_eq_false_2.
    + cbn. symmetry. apply not_true_is_false. intros Hex. apply existsb_exists in Hex as (w & Hw & _).
      destruct value as [|d value]; [done|]. cbn [windows] in Hw.
      rewrite (proj2 (Nat.leb_gt _ _)) in Hw by (cbn in *; lia). done.
    + rewrite strip_prefix_take. intros Ht. apply (f_equal length) in Ht.
      rewrite length_take in Ht. cbn in *. rewrite length_map in Ht. lia.
Qed.

(** The allocation-free search filter answers exactly as lowering the name
    and looking for the lowered query, for every query in lower case. *)
Theorem case_folded_contains_is_reference value query :
  (is_ascii query = true -> lower_ascii query) ->
  case_folded_contains value query = str_contains (to_lowercase value) query.
Proof.
  intros Hq. unfold case_folded_contains.
  destruct (is_ascii value) eqn:Ev, (is_ascii query) eqn:Eq; cbn [andb]; try done.
  rewrite to_lowercase_ascii by done. destruct (decide (query = [])) as [->|Hne].
  - rewrite beqb_refl. cbn [orb]. destruct value; cbn [str_contains map];
      rewrite bool_decide_eq_true_2 by (by eexists); done.
  - rewrite (proj2 (beqb_false query [])) by done. cbn [orb]. apply windows_contains; auto.
Qed.
End order_facts.

(** ** Memory budgets *)

Definition alloc_ok (alloc : Allocator) : Prop :=
  forall n c, alloc n = Some c -> n <= c.

(** The arithmetic of growing a full vector of [cap] elements. *)
Lemma growth_room item cap other maximum :
  0 < item -> 0 <= cap -> 0 <= other -> 0 <= maximum <= usize_max -> cap * item <= usize_max ->
  let most := sat_sub maximum (sat_add other (sat_mul cap item)) / item in
  (most < sat_add cap 1 -> maximum < other + cap * item + (cap + 1) * item) /\
  (sat_add cap 1 <= most ->
     sat_add cap 1 = cap + 1 /\ forall c, c <= most -> other + cap * item + c * item <= maximum).
Proof.
  intros Hi Hcap Ho Hm Hold most.
  assert (Hsm : sat_mul cap item = cap * item) by (unfold sat_mul; lia).
  assert (Hle : cap <= cap * item) by nia.
  set (available := sat_sub maximum (sat_add other (sat_mul cap item))).
  assert (Hav : available = Z.max 0 (maximum - (other + cap * item)))
    by (unfold available, sat_sub, sat_add; rewrite Hsm; lia).
  pose proof (Z.mul_div_le available item Hi) as Hdiv.
  pose proof (Z.mul_succ_div_gt available item Hi) as Hdiv'.
  change (available / item) with most in *. clearbody most available. clear Hsm.
  assert (Hmax : 1 <= usize_max) by (unfold usize_max, u64_max; lia).
  unfold sat_add. split.
  - intros Hlt. assert (most + 1 <= cap + 1) by lia.
    assert (item * Z.succ most <= (cap + 1) * item) by nia. lia.
  - intros Hge. assert (1 <= most) by lia. assert (item <= available) by nia.
    assert (Heq : available = maximum - (other + cap * item)) by lia. split; [lia|].
    intros c Hc. assert (c * item <= item * most) by nia. lia.
Qed.

(** Reserving a slot keeps the peak within the budget: when the vector had
    to grow, the old and the new allocation together with everything else still
    fit, there is room for one more element, and the elements are unchanged; a
    refused reservation is refused because even the smallest growth would not
    fit, or because the allocator failed or gave more than asked. *)
Theorem bounded_reserve_fits {A} item_bytes alloc (values : BoundedVec A) other maximum :
  0 < item_bytes -> 0 <= other -> 0 <= maximum <= usize_max -> alloc_ok alloc ->
  vec_len values <= vec_capacity values -> vec_capacity values * item_bytes <= usize_max ->
  match try_reserve_bounded_vec_slot item_bytes alloc values other maximum with
  | Ok values' =>
      vec_items values' = vec_items values /\ vec_len values' < vec_capacity values' /\
      (values' = values \/
       other + vec_capacity values * item_bytes + vec_capacity values' * item_bytes <= maximum)
  | Err ReserveBudget =>
      vec_len values = vec_capacity values /\
      (maximum < other + vec_capacity values * item_bytes + (vec_len values + 1) * item_bytes \/
       exists n c, alloc n = Some c /\ n < c)
  | Err ReserveAllocation => vec_len values = vec_capacity values /\ exists n, alloc n = None
  end.
Proof.
  intros Hi Ho Hm Ha Hlen Hcap. unfold try_reserve_bounded_vec_slot.
  destruct (vec_len values <? vec_capacity values) eqn:El; cbn [orb]; bool_prop; [auto|].
  rewrite (proj2 (Z.eqb_neq item_bytes 0)) by lia. cbv zeta.
  assert (Heq : vec_len values = vec_capacity values) by lia.
  assert (H0 : 0 <= vec_len values) by (unfold vec_len; lia).
  destruct (growth_room item_bytes (vec_capacity values) other maximum) as [Hno Hyes];
    [done|lia|done..|]. rewrite !Heq.
  set (most := sat_sub _ _ / item_bytes) in *. clearbody most.
  destruct (most <? sat_add (vec_capacity values) 1) eqn:Em; bool_prop; [auto|].
  destruct (Hyes Em) as [Hreq Hfit]. rewrite Hreq in *. set (preferred := if _ =? 0 then _ else _).
  assert (Hpref : vec_capacity values + 1 <= preferred) by (unfold preferred; destruct (_ =? 0); lia).
  clearbody preferred.
  replace (vec_capacity values + sat_sub (Z.min preferred most) (vec_capacity values))
    with (Z.min preferred most) by (unfold sat_sub; lia).
  destruct (alloc (Z.min preferred most)) as [c|] eqn:Ec; [|split; [done|by eexists]].
  pose proof (Ha _ _ Ec) as Hc. destruct (most <? c) eqn:Ecm; bool_prop.
  - split; [done|]. right. exists (Z.min preferred most), c. split; [done|lia].
  - split; [done|]. split; [|right; by apply Hfit].
    change (vec_len values < c). lia.
Qed.

Definition demo_alloc : Allocator := λ n, Some n.

Lemma demo_alloc_ok : alloc_ok demo_alloc.
Proof. intros n c H. injection H as ->. apply Z.le_refl. Qed.

Lemma bounded_reserve_fits_witness :
  try_reserve_bounded_vec_slot 8 demo_alloc (mkVec [1; 2] 2) 100 200 = Ok (mkVec [1; 2] 4) /\
  100 + 2 * 8 + 4 * 8 <= 200.
Proof.
  assert (H := @bounded_reserve_fits Z 8 demo_alloc (mkVec [1; 2] 2) 100 200 eq_refl
    ltac:(discriminate) ltac:(split; discriminate) demo_alloc_ok ltac:(vm_compute; discriminate)
    ltac:(vm_compute; discriminate)).
  split; [reflexivity|]. destruct H as (_ & _ & [H|H]); [discriminate H|exact H].
Defined.

(** ** Diagnostics *)

Lemma escape_byte_visible c : Forall (λ d, is_visible_ascii d = true) (escape_byte c).
Proof.
  unfold escape_byte. destruct (byte_val c =? 47) eqn:E1; bool_prop.
  { constructor; [|done]. unfold is_visible_ascii. apply in_range_true. lia. }
  destruct (byte_val c =? 92); [by repeat constructor|].
  destruct (byte_val c =? 34); [by repeat constructor|].
  destruct (in_range 32 126 (byte_val c)) eqn:E; [by constructor|].
  apply Forall_app. split; [by repeat constructor|].
  unfold byte_hex. eapply Forall_impl; [apply encode_hex_lower|].
  intros d Hd. cbn in Hd. unfold is_lower_hex, is_ascii_digit, is_lower_af in Hd.
  unfold is_visible_ascii. apply orb_true_iff in Hd. rewrite !in_range_true in *. lia.
Qed.

(** Reading an escaped path back. *)
Fixpoint unescape (s : bytes) : bytes :=
  match s with
  | [] => []
  | c :: r =>
      if byte_val c =? 92 then
        match r with
        | d :: r' =>
            if byte_val d =? 120 then
              match r' with
              | h :: l :: r'' =>
                  match hex_nibble h, hex_nibble l with
                  | Some a, Some b => byte_chr (a * 16 + b) :: unescape r''
                  | _, _ => []
                  end
              | _ => []
              end
            else d :: unescape r'
        | [] => []
        end
      else c :: unescape r
  end.

Lemma unescape_byte c r : unescape (escape_byte c ++ r) = c :: unescape r.
Proof. destruct c as [[] [] [] [] [] [] [] []]; reflexivity. Qed.

Lemma unescape_escape b : unescape (escape_path_bytes b) = b.
Proof.
  induction b as [|c b IH]; [done|]. unfold escape_path_bytes. rewrite bind_cons.
  rewrite unescape_byte. by f_equal.
Qed.

(** A path in a diagnostic is printable ASCII, whatever bytes the file system
    holds, and can be read back: different relative paths never look the same. *)
Theorem escaped_paths_are_unambiguous b :
  Forall (λ d, is_visible_ascii d = true) (escape_path_bytes b) /\
  unescape (escape_path_bytes b) = b.
Proof.
  split; [|apply unescape_escape]. unfold escape_path_bytes.
  induction b as [|c b IH]; [constructor|]. rewrite bind_cons. apply Forall_app.
  split; [apply escape_byte_visible|done].
Qed.

(** ** An instance of the text interface *)

Definition ascii_text : TextOrder := {|
  compare_str := bytes_cmp;
  to_lowercase := map to_ascii_lowercase
|}.

Lemma ascii_text_laws : @TextOrderLaws ascii_text.
Proof. split; [apply bytes_cmp_preorder|done]. Qed.

Lemma case_folded_contains_is_reference_witness :
  @case_folded_contains ascii_text (bs "Report.PDF") (bs "pdf") =
    str_contains (@to_lowercase ascii_text (bs "Report.PDF")) (bs "pdf").
Proof.
  apply (@case_folded_contains_is_reference ascii_text ascii_text_laws). intros _. reflexivity.
Defined.
