(* ===== verification/RootedOs.v ===== *)
(** The system calls of the rooted file system
    ([src/src/server/rooted_fs.rs], [src/src/server/rooted_fs/purge.rs]).

    The kernel is a parameter: a state of its own and, for each call the server
    makes, a function from that state to an answer and a next state.  Nothing is
    assumed of the answers, so other processes may change the tree between any
    two calls.  Every call is recorded with its answer in a log, in the order of
    execution; what the server does to the file system is read off that log. *)

From S2P Require Import Prelude Bytes Problem Revisions Listing.
From stdpp Require Import base numbers list strings.

Local Open Scope Z_scope.

(** ** Errors *)

(** A Linux error number. *)
Abbreviation Errno := Z (only parsing).
Definition PERM : Errno := 1.
Definition NOENT : Errno := 2.
Definition ACCES : Errno := 13.
Definition EXIST : Errno := 17.
Definition XDEV : Errno := 18.
Definition NOTDIR : Errno := 20.
Definition INVAL : Errno := 22.
Definition NOSPC : Errno := 28.
Definition NOTEMPTY : Errno := 39.
Definition LOOP : Errno := 40.
Definition TIMEDOUT : Errno := 110.
Definition DQUOT : Errno := 122.

(** ** Calls *)

Abbreviation Fd := Z (only parsing).

Inductive OFlag :=
| RDONLY | RDWR | PATH | DIRECTORY | NOFOLLOW | CLOEXEC | CREATE | EXCL | NONBLOCK.

(** How a path is resolved: by [openat], or by [openat2] under the given flags. *)
Inductive Resolve := Plain | BeneathRoot | NoXdev.

(** A record of [readdir]. *)
Record Dirent := mkDirent { dr_name : bytes; dr_offset : Z }.

Inductive SysCall :=
| Openat (dir : Fd) (path : bytes) (flags : list OFlag) (mode : Z) (resolve : Resolve)
    (answer : result Errno Fd)
| Dup (fd : Fd) (answer : result Errno Fd)
| Fstat (fd : Fd) (answer : result Errno Stat)
| FileMetadata (fd : Fd) (answer : result IoError Metadata)
| Statat (dir : Fd) (name : bytes) (answer : result Errno Stat)
| Mkdirat (dir : Fd) (name : bytes) (mode : Z) (answer : result Errno unit)
| Unlinkat (dir : Fd) (name : bytes) (removedir : bool) (answer : result Errno unit)
| Renameat (from : Fd) (name : bytes) (to : Fd) (new_name : bytes) (noreplace : bool)
    (answer : result Errno unit)
| Fsync (fd : Fd) (answer : result Errno unit)
| Fchmod (fd : Fd) (mode : Z) (answer : result Errno unit)
| ReadDir (fd : Fd) (cursor : Z) (answer : result Errno (list (result Errno Dirent)))
| Interrupted_ (answer : bool)
| Deadline (answer : bool)
| NewUuid (answer : bytes)
| FileWrite (fd : Fd) (data : bytes) (answer : result IoError unit)
| FileFlush (fd : Fd) (answer : result IoError unit)
| FileSetLen (fd : Fd) (len : Z) (answer : result IoError unit)
| FileSeek (fd : Fd) (position : Z) (answer : result IoError unit)
| Fchown (fd : Fd) (uid gid : Z) (answer : result Errno unit)
| ListXattr (fd : Fd) (answer : result Errno bytes)
| XattrSize (fd : Fd) (name : bytes) (answer : result Errno Z)
| GetXattr (fd : Fd) (name : bytes) (size : Z) (answer : result Errno bytes)
| SetXattr (fd : Fd) (name value : bytes) (answer : result Errno unit)
| RemoveXattr (fd : Fd) (name : bytes) (answer : result Errno unit).

(** The kernel, the clock, and the text of its errors. *)
Class Os (Env : Type) := {
  os_openat : Fd -> bytes -> list OFlag -> Z -> Resolve -> Env -> result Errno Fd * Env;
  os_dup : Fd -> Env -> result Errno Fd * Env;
  os_fstat : Fd -> Env -> result Errno Stat * Env;
  os_file_metadata : Fd -> Env -> result IoError Metadata * Env;
  (** [statat] with [SYMLINK_NOFOLLOW] *)
  os_statat : Fd -> bytes -> Env -> result Errno Stat * Env;
  os_mkdirat : Fd -> bytes -> Z -> Env -> result Errno unit * Env;
  os_unlinkat : Fd -> bytes -> bool -> Env -> result Errno unit * Env;
  os_renameat : Fd -> bytes -> Fd -> bytes -> bool -> Env -> result Errno unit * Env;
  os_fsync : Fd -> Env -> result Errno unit * Env;
  os_fchmod : Fd -> Z -> Env -> result Errno unit * Env;
  (** the records after the cursor, up to the end of the directory *)
  os_read_dir : Fd -> Z -> Env -> result Errno (list (result Errno Dirent)) * Env;
  (** whether the request is cancelled or the server is stopping *)
  os_interrupted : Env -> bool * Env;
  (** whether the time budget is used up *)
  os_deadline : Env -> bool * Env;
  (** [Uuid::new_v4] *)
  os_new_uuid : Env -> bytes * Env;
  os_strerror : Errno -> bytes;
  (** [Path::display] *)
  os_path_display : bytes -> bytes;
  os_kind_name : Errno -> bytes
}.

(** The calls on an open file: the [tokio] file of an upload, and the
    attributes of a replaced target. *)
Class FileOs (Env : Type) := {
  (** [write_all] *)
  os_write : Fd -> bytes -> Env -> result IoError unit * Env;
  (** waits for the writes already handed over *)
  os_flush : Fd -> Env -> result IoError unit * Env;
  os_set_len : Fd -> Z -> Env -> result IoError unit * Env;
  (** [SeekFrom::Start] *)
  os_seek : Fd -> Z -> Env -> result IoError unit * Env;
  os_fchown : Fd -> Z -> Z -> Env -> result Errno unit * Env;
  (** the bytes written to a buffer of 64 KiB *)
  os_list_xattr : Fd -> Env -> result Errno bytes * Env;
  (** with an empty buffer *)
  os_xattr_size : Fd -> bytes -> Env -> result Errno Z * Env;
  os_get_xattr : Fd -> bytes -> Z -> Env -> result Errno bytes * Env;
  os_set_xattr : Fd -> bytes -> bytes -> Env -> result Errno unit * Env;
  os_remove_xattr : Fd -> bytes -> Env -> result Errno unit * Env;
  os_euid : Z
}.

Record World (Ev Env : Type) := mkWorld { w_env : Env; w_log : list Ev }.
Arguments mkWorld {Ev Env}.
Arguments w_env {Ev Env}.
Arguments w_log {Ev Env}.

(** ** Programs *)

(** A program over a log of events [Ev]; what drives the environment is a
    parameter. *)
Definition Prog (Ev Env A : Type) : Type := World Ev Env -> A * World Ev Env.
(** A program that makes system calls. *)
Abbreviation Sys := (Prog SysCall).
(** [std::io::Result]. *)
Abbreviation Io Env A := (Sys Env (result IoError A)).

Section monad.
Context {Ev Env : Type}.
Local Abbreviation Sys := (Prog Ev Env).

Definition ret {A} (a : A) : Sys A := λ w, (a, w).
Definition bind {A B} (m : Sys A) (k : A -> Sys B) : Sys B := λ w, let '(a, w) := m w in k a w.
Definition ok {E A} (a : A) : Sys (result E A) := ret (Ok a).
Definition fail {E A} (e : E) : Sys (result E A) := ret (Err e).
(** The operator [?]. *)
Definition bind_ok {E A B} (m : Sys (result E A)) (k : A -> Sys (result E B)) : Sys (result E B) :=
  bind m (λ r, match r with Ok a => k a | Err e => fail e end).

Definition syscall {A} (run : Env -> A * Env) (event : A -> Ev) : Sys A :=
  λ w, let '(a, env) := run (w_env w) in (a, mkWorld env (w_log w ++ [event a])).
End monad.

Declare Scope os_scope.
Delimit Scope os_scope with os.
Notation "'do' x <- m ; k" := (bind m (λ x, k))
  (at level 100, x pattern, m at level 100, k at level 200, right associativity) : os_scope.
Notation "'attempt' x <- m ; k" := (bind_ok m (λ x, k))
  (at level 100, x pattern, m at level 100, k at level 200, right associativity) : os_scope.
#[global] Open Scope os_scope.

Section calls.
Context {Env : Type} `{Os Env}.

(** [std::sys::decode_error_kind], as far as the server tells kinds apart. *)
Definition errno_kind (e : Errno) : IoErrorKind :=
  if (e =? PERM) || (e =? ACCES) then PermissionDenied
  else if e =? NOENT then NotFound
  else if e =? EXIST then AlreadyExists
  else if e =? NOTDIR then NotADirectory
  else if e =? INVAL then InvalidInput
  else if e =? NOSPC then StorageFull
  else if e =? TIMEDOUT then TimedOut
  else if e =? DQUOT then QuotaExceeded
  else OtherKind (os_kind_name e).

(** [std::io::Error::from(errno)]. *)
Definition errno_io (e : Errno) : IoError := mkIoError (errno_kind e) (Some e) (os_strerror e).

(** [.map_err(std::io::Error::from)]. *)
Definition io_of {A} (m : Sys Env (result Errno A)) : Io Env A :=
  do r <- m; ret (match r with Ok a => Ok a | Err e => Err (errno_io e) end).

Definition sys_openat dir path flags mode resolve : Sys Env (result Errno Fd) :=
  syscall (os_openat dir path flags mode resolve) (Openat dir path flags mode resolve).
Definition sys_dup fd : Sys Env (result Errno Fd) := syscall (os_dup fd) (Dup fd).
Definition sys_fstat fd : Sys Env (result Errno Stat) := syscall (os_fstat fd) (Fstat fd).
Definition sys_file_metadata fd : Io Env Metadata := syscall (os_file_metadata fd) (FileMetadata fd).
Definition sys_statat dir name : Sys Env (result Errno Stat) :=
  syscall (os_statat dir name) (Statat dir name).
Definition sys_mkdirat dir name mode : Sys Env (result Errno unit) :=
  syscall (os_mkdirat dir name mode) (Mkdirat dir name mode).
Definition sys_unlinkat dir name removedir : Sys Env (result Errno unit) :=
  syscall (os_unlinkat dir name removedir) (Unlinkat dir name removedir).
Definition sys_renameat from name to new_name noreplace : Sys Env (result Errno unit) :=
  syscall (os_renameat from name to new_name noreplace) (Renameat from name to new_name noreplace).
Definition sys_fsync fd : Sys Env (result Errno unit) := syscall (os_fsync fd) (Fsync fd).
Definition sys_fchmod fd mode : Sys Env (result Errno unit) :=
  syscall (os_fchmod fd mode) (Fchmod fd mode).
Definition sys_read_dir fd cursor : Sys Env (result Errno (list (result Errno Dirent))) :=
  syscall (os_read_dir fd cursor) (ReadDir fd cursor).
Definition sys_interrupted : Sys Env bool := syscall os_interrupted Interrupted_.
Definition sys_deadline : Sys Env bool := syscall os_deadline Deadline.
Definition sys_new_uuid : Sys Env bytes := syscall os_new_uuid NewUuid.
End calls.

Section file_calls.
Context {Env : Type} `{FileOs Env}.

Definition sys_write fd data : Io Env unit := syscall (os_write fd data) (FileWrite fd data).
Definition sys_flush fd : Io Env unit := syscall (os_flush fd) (FileFlush fd).
Definition sys_set_len fd len : Io Env unit := syscall (os_set_len fd len) (FileSetLen fd len).
Definition sys_seek fd position : Io Env unit := syscall (os_seek fd position) (FileSeek fd position).
Definition sys_fchown fd uid gid : Sys Env (result Errno unit) := syscall (os_fchown fd uid gid) (Fchown fd uid gid).
Definition sys_list_xattr fd : Sys Env (result Errno bytes) := syscall (os_list_xattr fd) (ListXattr fd).
Definition sys_xattr_size fd name : Sys Env (result Errno Z) := syscall (os_xattr_size fd name) (XattrSize fd name).
Definition sys_get_xattr fd name size : Sys Env (result Errno bytes) :=
  syscall (os_get_xattr fd name size) (GetXattr fd name size).
Definition sys_set_xattr fd name value : Sys Env (result Errno unit) :=
  syscall (os_set_xattr fd name value) (SetXattr fd name value).
Definition sys_remove_xattr fd name : Sys Env (result Errno unit) :=
  syscall (os_remove_xattr fd name) (RemoveXattr fd name).
End file_calls.

(** ** What a program does *)

(** Calls that change a directory or a file. *)
Definition mutates (c : SysCall) : bool :=
  match c with
  | Mkdirat _ _ _ _ | Unlinkat _ _ _ _ | Renameat _ _ _ _ _ _ | Fchmod _ _ _ => true
  | FileWrite _ _ _ | FileSetLen _ _ _ | Fchown _ _ _ _ | SetXattr _ _ _ _ | RemoveXattr _ _ _ => true
  | Openat _ _ flags _ _ _ => existsb (λ f, match f with CREATE => true | _ => false end) flags
  | _ => false
  end.

Definition is_rename (c : SysCall) : bool :=
  match c with Renameat _ _ _ _ _ _ => true | _ => false end.

(** The directory entry this call moved. *)
Definition renamed (c : SysCall) : bool :=
  match c with Renameat _ _ _ _ _ (Ok _) => true | _ => false end.

(** Calls that only look. *)
Definition reads (c : SysCall) : Prop := mutates c = false.

Section effects.
Context {Ev Env : Type}.
Local Abbreviation Sys := (Prog Ev).

(** Whatever the kernel answers, [m] returns a result and makes calls that
    together satisfy [Q]. *)
Definition spec {A} (m : Sys Env A) (Q : A -> list Ev -> Prop) : Prop :=
  forall w, exists calls, w_log (m w).2 = w_log w ++ calls /\ Q (m w).1 calls.

Lemma spec_ret {A} (a : A) Q : Q a [] -> spec (ret a) Q.
Proof. intros HQ w. exists []. by rewrite app_nil_r. Qed.

Lemma spec_weaken {A} (m : Sys Env A) (P Q : A -> list Ev -> Prop) :
  spec m P -> (forall a c, P a c -> Q a c) -> spec m Q.
Proof. intros Hm HPQ w. destruct (Hm w) as (c & H1 & H2). exists c. auto. Qed.

Lemma spec_bind {A B} (m : Sys Env A) (k : A -> Sys Env B) P Q :
  spec m P -> (forall a c, P a c -> spec (k a) (λ b c', Q b (c ++ c'))) -> spec (bind m k) Q.
Proof.
  intros Hm Hk w. unfold bind. destruct (Hm w) as (c1 & H1 & F1). destruct (m w) as [a w1]. cbn in H1, F1.
  destruct (Hk a c1 F1 w1) as (c2 & H2 & F2). exists (c1 ++ c2). rewrite H2, H1, app_assoc. done.
Qed.

Lemma spec_bind_ok {E A B} (m : Sys Env (result E A)) (k : A -> Sys Env (result E B)) P Q :
  spec m P ->
  (forall a c, P (Ok a) c -> spec (k a) (λ b c', Q b (c ++ c'))) ->
  (forall e c, P (Err e) c -> Q (Err e) c) ->
  spec (bind_ok m k) Q.
Proof.
  intros Hm Hk He. eapply spec_bind; [exact Hm|]. intros [a|e] c Hc; [by apply Hk|].
  apply spec_ret. rewrite app_nil_r. auto.
Qed.

Lemma spec_call {A} (run : Env -> A * Env) (event : A -> Ev) Q :
  (forall a, Q a [event a]) -> spec (syscall run event) Q.
Proof.
  intros HQ w. unfold syscall. destruct (run (w_env w)) as [a env]. exists [event a]. cbn. auto.
Qed.

Lemma spec_bind_call {A B} (run : Env -> A * Env) (event : A -> Ev) (k : A -> Sys Env B) Q :
  (forall a, spec (k a) (λ b c, Q b (event a :: c))) -> spec (bind (syscall run event) k) Q.
Proof.
  intros Hk. eapply spec_bind; [apply (spec_call _ _ (λ a c, c = [event a])); done|].
  intros a c ->. apply Hk.
Qed.

(** The laws of the monad, on specifications. *)
Lemma spec_bind_ret {A B} (a : A) (k : A -> Sys Env B) Q : spec (k a) Q -> spec (bind (ret a) k) Q.
Proof. done. Qed.

Lemma spec_bind_assoc {A B C} (m : Sys Env A) (k : A -> Sys Env B) (k' : B -> Sys Env C) Q :
  spec (bind m (λ a, bind (k a) k')) Q -> spec (bind (bind m k) k') Q.
Proof. intros Hm w. specialize (Hm w). unfold bind in *. by destruct (m w). Qed.

Lemma spec_attempt_ret {E A B} (r : result E A) (k : A -> Sys Env (result E B)) Q :
  (forall a, r = Ok a -> spec (k a) Q) -> (forall e, r = Err e -> Q (Err e) []) ->
  spec (bind_ok (ret r) k) Q.
Proof.
  intros Hk He w. unfold bind_ok, bind, ret. destruct r as [a|e]; [by apply Hk|].
  exists []. rewrite app_nil_r. split; [done|]. by apply He.
Qed.

Lemma spec_and {A} (m : Sys Env A) (P Q : A -> list Ev -> Prop) :
  spec m P -> spec m Q -> spec m (λ a c, P a c /\ Q a c).
Proof.
  intros HP HQ w. destruct (HP w) as (c & Hc & ?). destruct (HQ w) as (c' & Hc' & ?).
  rewrite Hc in Hc'. apply app_inv_head in Hc' as <-. by exists c.
Qed.

(** Every call [m] makes satisfies [P]. *)
Definition emits (P : Ev -> Prop) {A} (m : Sys Env A) : Prop := spec m (λ _, Forall P).

Lemma emits_ret P {A} (a : A) : emits P (ret a).
Proof. apply spec_ret. constructor. Qed.

Lemma emits_bind P {A B} (m : Sys Env A) (k : A -> Sys Env B) :
  emits P m -> (forall a, emits P (k a)) -> emits P (bind m k).
Proof.
  intros Hm Hk. eapply spec_bind; [exact Hm|]. intros a c Hc. eapply spec_weaken; [apply Hk|].
  intros b c' Hc'. by apply Forall_app.
Qed.

Lemma emits_bind_ok P {E A B} (m : Sys Env (result E A)) (k : A -> Sys Env (result E B)) :
  emits P m -> (forall a, emits P (k a)) -> emits P (bind_ok m k).
Proof. intros Hm Hk. apply emits_bind; [done|]. intros [a|e]; [apply Hk|apply emits_ret]. Qed.

Lemma emits_call P {A} (run : Env -> A * Env) (event : A -> Ev) :
  (forall a, P (event a)) -> emits P (syscall run event).
Proof. intros HP. apply spec_call. intros a. by constructor. Qed.

Lemma emits_impl (P Q : Ev -> Prop) {A} (m : Sys Env A) :
  (forall c, P c -> Q c) -> emits P m -> emits Q m.
Proof.
  intros HPQ Hm. eapply spec_weaken; [exact Hm|]. intros a c Hc.
  apply (Forall_impl _ _ _ Hc). exact HPQ.
Qed.
End effects.

Section io_effects.
Context {Env : Type} `{Os Env}.

(** [io_of] of one call, followed by [?]. *)
Lemma spec_attempt_call {A B} (run : Env -> result Errno A * Env) (event : result Errno A -> SysCall)
    (k : A -> Io Env B) Q :
  (forall a, spec (k a) (λ b c, Q b (event (Ok a) :: c))) ->
  (forall e, Q (Err (errno_io e)) [event (Err e)]) ->
  spec (bind_ok (io_of (syscall run event)) k) Q.
Proof.
  intros Hk He. eapply (spec_bind_ok _ _ (λ r c, match r with
    | Ok a => c = [event (Ok a)] | Err x => exists e, x = errno_io e /\ c = [event (Err e)] end)).
  - apply spec_bind_call. intros [a|e]; apply spec_ret; cbn; eauto.
  - intros a c ->. apply Hk.
  - intros e c (e' & -> & ->). apply He.
Qed.

Lemma emits_io_of P {A} (m : Sys Env (result Errno A)) : emits P m -> emits P (io_of m).
Proof. intros Hm. apply emits_bind; [done|]. intros r. apply emits_ret. Qed.
End io_effects.

(** ** Parts of a larger program *)

Section lifting.
Context {Env Part Ev : Type} (wrap : Part -> Ev).

(** The events of [m], each logged as an event of the larger program. *)
Definition lifted {A} (m : Prog Part Env A) : Prog Ev Env A := λ w,
  let '(a, k) := m (mkWorld (w_env w) []) in (a, mkWorld (w_env k) (w_log w ++ map wrap (w_log k))).

Lemma spec_lifted {A} (m : Prog Part Env A) Q :
  spec m Q -> spec (lifted m) (λ a events, exists calls, events = map wrap calls /\ Q a calls).
Proof.
  intros Hm w. unfold lifted. destruct (Hm (mkWorld (w_env w) [])) as (c & Hc & HQ).
  destruct (m (mkWorld (w_env w) [])) as [a k]. cbn in *. exists (map wrap c). subst. eauto.
Qed.

Lemma spec_bind_lifted {A B} (m : Prog Part Env A) (k : A -> Prog Ev Env B) P Q :
  spec m P ->
  (forall a calls, P a calls -> spec (k a) (λ b events, Q b (map wrap calls ++ events))) ->
  spec (bind (lifted m) k) Q.
Proof.
  intros Hm Hk. eapply spec_bind; [by apply spec_lifted|]. intros a events (calls & -> & HP). by apply Hk.
Qed.

Lemma emits_lifted (P : Ev -> Prop) {A} (m : Prog Part Env A) :
  emits (λ e, P (wrap e)) m -> emits P (lifted m).
Proof.
  intros Hm. eapply spec_weaken; [by apply spec_lifted|]. cbn beta. intros a events (l & -> & Hl).
  by apply Forall_map.
Qed.
End lifting.

(** Code of the rooted file system that runs callbacks of its caller is shared by
    programs with different events: [within] logs its system calls in the
    caller's log. *)
Class Within (Ev Env : Type) := within : forall {A : Type}, Sys Env A -> Prog Ev Env A.
#[export] Instance within_sys Env : Within SysCall Env := λ A m, m.

Create HintDb emits discriminated.

(** Walks through a program, call by call. *)
Ltac emits_step :=
  intros; cbv beta zeta;
  match goal with
  | |- emits _ (ok _) => apply emits_ret
  | |- emits _ (fail _) => apply emits_ret
  | |- emits _ (ret _) => apply emits_ret
  | |- emits _ (bind _ _) => apply emits_bind
  | |- emits _ (bind_ok _ _) => apply emits_bind_ok
  | |- emits _ (io_of _) => apply emits_io_of
  | |- emits _ (syscall _ _) => apply emits_call; intros; try reflexivity
  | |- emits _ (match ?x with _ => _ end) => destruct x
  end.
Ltac emits_auto := repeat (emits_step || solve [eauto with emits nocore]).

(** Symbolic execution of a program against its specification: after it the
    goals are the paths through the program, each with its explicit calls. *)
Ltac spec_step :=
  intros; cbv beta zeta;
  match goal with
  | |- spec (ok _) _ => apply spec_ret
  | |- spec (fail _) _ => apply spec_ret
  | |- spec (ret _) _ => apply spec_ret
  | |- spec (bind_ok (io_of (syscall _ _)) _) _ => apply spec_attempt_call
  | |- spec (bind (syscall _ _) _) _ => apply spec_bind_call
  | |- spec (bind_ok (ok _) _) _ => apply spec_attempt_ret; [intros ? [= <-]|intros ? [=]]
  | |- spec (bind_ok (fail _) _) _ => apply spec_attempt_ret; [intros ? [=]|intros ? [= <-]]
  | |- spec (bind_ok (ret _) _) _ => apply spec_attempt_ret
  | |- spec (match ?x with _ => _ end) _ => destruct x eqn:?
  | |- spec (bind_ok (match ?x with _ => _ end) _) _ => destruct x eqn:?
  end.
