(* ===== verification/RootedFs.v ===== *)
(** The rooted file system ([src/src/server/rooted_fs.rs]): every path is
    resolved beneath one root directory handle, parents are opened before their
    entries are touched, missing ancestors are created and rolled back, and
    renames are checked against the identities the caller observed.

    The blocking closures are modelled; the gate that runs them may refuse
    ([gate]), and the mutex around the creation of ancestors is not modelled. *)

From S2P Require Import Prelude Bytes StdPath Utils UuidText InternalNames Problem Revisions Listing PathKeys RootedOs.
From stdpp Require Import base numbers list strings.

Local Open Scope Z_scope.

Record RootedFs := mkRooted {
  rf_root : Fd;
  rf_root_identity : FileIdentity;
  rf_root_path : bytes
}.

Record CreatedAncestor := mkCreated { ca_path : bytes; ca_identity : FileIdentity }.

Record OpenedParent := mkParent {
  op_fd : Fd;
  op_name : bytes;
  op_created_ancestors : list CreatedAncestor
}.

Inductive ReplaceAndSyncOutcome :=
| Published
| Rejected
| NotPublished (error : IoError)
| PublishedDurabilityUnknown (error : IoError).

Inductive CheckedRelocationOutcome :=
| Relocated | SourceChanged | DestinationChanged | DestinationExists | SameFile.

Inductive CheckedMissingRename :=
| Renamed
| MissingDestinationExists
| PublishedIdentityUnknown (error : IoError).

Inductive PreparedCheckedReplace :=
| PreparedRenamed (source destination : OpenedParent) (same_parent : bool)
| PreparedRejected
| PreparedIdentityUnknown (error : IoError).

Record RootedEntryKey := mkEntryKey { ek_parent : FileIdentity; ek_name : bytes }.

(** [maintenance_marker]. *)
Definition maintenance_marker (key : RootedEntryKey) : RootedEntryKey :=
  mkEntryKey (ek_parent key) (ek_name key ++ [nul_byte] ++ bs "dufs-maintenance").

(** A directory on the stack of a purge. *)
Record PurgeDirectory := mkPurgeDirectory {
  pd_name : bytes;
  pd_cursor : Z;
  pd_identity : DeleteIdentity;
  pd_revision_identity : ExistingReplacementTarget;
  pd_pending_anchor : option Fd
}.

Record PurgeResume := mkResume { pr_directory : Fd; pr_depth : nat }.

Record TrashEntry := mkTrash {
  te_parent : Fd;
  te_name : bytes;
  te_is_dir : bool;
  te_identity : DeleteIdentity;
  te_root_anchor : Fd;
  te_trash_revision : bytes;
  te_purge_stack : list PurgeDirectory;
  te_purge_resume : option PurgeResume;
  te_pending_unlink : option PurgeDirectory
}.

(** [TrashEntry::new]. *)
Definition trash_new (parent : Fd) (name : bytes) (entry : DeleteIdentity) (root_anchor : Fd)
    (trash_revision : bytes) : TrashEntry :=
  mkTrash parent name (di_is_directory entry) entry root_anchor trash_revision [] None None.

(** [match] on a call, where the kinds of an I/O error choose the arm. *)
Definition missing_kind (e : IoError) : bool :=
  match io_kind e with NotFound | NotADirectory => true | _ => false end.
Definition missing_errno (e : Errno) : bool := (e =? NOENT) || (e =? NOTDIR).

Definition stat_identity (s : Stat) : FileIdentity := mkFile (st_dev s) (st_ino s).

Section rooted.
Context {Env : Type} `{Os Env} `{UuidLib} (sha256 : bytes -> bytes) (fs : RootedFs).

(** ** Paths *)

Definition relative_path (path : bytes) : result IoError bytes :=
  match path_strip_prefix path (rf_root_path fs) with
  | None =>
      Err (io_new PermissionDenied
             (bs "path `" ++ os_path_display path ++ bs "` is outside rooted filesystem `" ++
              os_path_display (rf_root_path fs) ++ bs "`"))
  | Some relative =>
      if beqb relative [] || negb (forallb is_normal (components relative))
      then Err (io_new InvalidInput (bs "path must name a non-root entry"))
      else Ok relative
  end.

Definition relative_path_or_dot (path : bytes) : result IoError bytes :=
  match path_strip_prefix path (rf_root_path fs) with
  | None => Err (io_new PermissionDenied (bs "path is outside the rooted filesystem"))
  | Some relative =>
      if beqb relative [] then Ok dot
      else if negb (forallb is_normal (components relative))
      then Err (io_new InvalidInput (bs "path contains a non-normal component"))
      else Ok relative
  end.

(** [path_from_components]. *)
Definition path_from_components (names : list bytes) : bytes := foldl path_push [] names.

Definition unresolved_path_error (e : IoError) : bool :=
  match io_kind e with NotFound | NotADirectory | PermissionDenied => true | _ => false end.

(** ** Opening *)

Definition open_directory_from_root (relative : bytes) : Io Env Fd :=
  io_of (sys_openat (rf_root fs) (if beqb relative [] then dot else relative)
    [RDONLY; DIRECTORY; CLOEXEC] 0 BeneathRoot).

Definition metadata_blocking (path : bytes) : Io Env Metadata :=
  attempt relative <- ret (relative_path_or_dot path);
  attempt fd <- io_of (sys_openat (rf_root fs) relative [PATH; CLOEXEC] 0 BeneathRoot);
  sys_file_metadata fd.

Definition metadata_nofollow (path : bytes) : Io Env Metadata :=
  attempt relative <- ret (relative_path_or_dot path);
  attempt fd <- io_of (sys_openat (rf_root fs) relative [PATH; NOFOLLOW; CLOEXEC] 0 BeneathRoot);
  sys_file_metadata fd.

Definition open_existing (path : bytes) (flags : list OFlag) : Io Env Fd :=
  attempt relative <- ret (relative_path path);
  io_of (sys_openat (rf_root fs) relative flags 0 BeneathRoot).

Definition open_read (path : bytes) : Io Env Fd := open_existing path [RDONLY; NONBLOCK; CLOEXEC].
Definition open_write (path : bytes) : Io Env Fd := open_existing path [RDWR; NOFOLLOW; CLOEXEC].

(** One missing ancestor: create it, make it durable, record its identity and
    open it.  [rollback] undoes the ancestors created so far. *)
Definition create_ancestor (rollback : list CreatedAncestor -> Io Env unit)
    (current : Fd) (prefix component : bytes) (created : list CreatedAncestor)
    : Io Env (Fd * list CreatedAncestor) :=
  do made <- sys_mkdirat current component 511;
  attempt created_here <-
    (match made with
     | Ok _ =>
         do synced <- sys_fsync current;
         match synced with
         | Ok _ => ok true
         | Err error =>
             do _ <- sys_unlinkat current component true;
             do _ <- rollback created;
             fail (errno_io error)
         end
     | Err e =>
         if e =? EXIST then
           do synced <- sys_fsync current;
           match synced with
           | Ok _ => ok false
           | Err error => do _ <- rollback created; fail (errno_io error)
           end
         else do _ <- rollback created; fail (errno_io e)
     end);
  attempt created_identity <-
    (if created_here : bool then
       do found <- sys_statat current component;
       match found with
       | Ok metadata =>
           if bool_decide (from_raw_mode (st_mode metadata) = Directory)
           then ok (Some (stat_identity metadata))
           else
             do _ <- sys_unlinkat current component true;
             do _ <- rollback created;
             fail (io_new InvalidData (bs "newly created ancestor changed type"))
       | Err error =>
           do _ <- sys_unlinkat current component true;
           do _ <- rollback created;
           fail (errno_io error)
       end
     else ok None);
  do opened <- open_directory_from_root prefix;
  match opened with
  | Ok next =>
      ok (next,
          match created_identity with
          | Some file => created ++ [mkCreated (path_push (rf_root_path fs) prefix) file]
          | None => created
          end)
  | Err error =>
      do _ <-
        (if created_here : bool then
           do parent <- open_directory_from_root (default [] (path_parent prefix));
           match parent with
           | Ok parent =>
               do _ <- sys_unlinkat parent component true;
               do _ <- sys_fsync parent;
               ret tt
           | Err _ => ret tt
           end
         else ret tt);
      do _ <- rollback created;
      fail error
  end.

(** [for component in relative_parent.components()]. *)
Fixpoint open_ancestors (rollback : list CreatedAncestor -> Io Env unit) (create_ancestors : bool)
    (todo : list component) (current : Fd) (prefix : bytes) (created : list CreatedAncestor)
    : Io Env (Fd * list CreatedAncestor) :=
  match todo with
  | [] => ok (current, created)
  | Normal component :: todo =>
      let prefix := path_push prefix component in
      do opened <- open_directory_from_root prefix;
      match opened with
      | Ok next => open_ancestors rollback create_ancestors todo next prefix created
      | Err err =>
          if bool_decide (io_kind err = NotFound) && create_ancestors then
            attempt (current, created) <- create_ancestor rollback current prefix component created;
            open_ancestors rollback create_ancestors todo current prefix created
          else
            do _ <- rollback created;
            fail err
      end
  | _ :: _ => fail (io_new InvalidInput (bs "path contains a non-normal component"))
  end.

Definition open_parent_with (rollback : list CreatedAncestor -> Io Env unit) (path : bytes)
    (create_ancestors : bool) : Io Env OpenedParent :=
  attempt relative <- ret (relative_path path);
  attempt name <- ret (ok_or (path_file_name relative) (io_other (bs "the shared root has no parent entry")));
  let relative_parent := default [] (path_parent relative) in
  attempt current <- io_of (sys_dup (rf_root fs));
  attempt (current, created) <-
    open_ancestors rollback create_ancestors (components relative_parent) current [] [];
  ok (mkParent current name created).

(** [open_parent_blocking(path, false)]: nothing is created, so what it would
    roll back is empty. *)
Definition open_parent_existing (path : bytes) : Io Env OpenedParent :=
  open_parent_with (λ _, ok tt) path false.

(** [for ancestor in created.iter().rev()]. *)
Fixpoint rollback_loop (todo : list CreatedAncestor) : Io Env unit :=
  match todo with
  | [] => ok tt
  | ancestor :: todo =>
      do opened <- open_parent_existing (ca_path ancestor);
      match opened with
      | Err error => if missing_kind error then rollback_loop todo else fail error
      | Ok parent =>
          do found <- sys_statat (op_fd parent) (op_name parent);
          match found with
          | Err e => if e =? NOENT then rollback_loop todo else fail (errno_io e)
          | Ok current =>
              if negb (bool_decide (from_raw_mode (st_mode current) = Directory)) ||
                 negb (bool_decide (stat_identity current = ca_identity ancestor))
              then ok tt
              else
                do removed <- sys_unlinkat (op_fd parent) (op_name parent) true;
                match removed with
                | Ok _ => attempt _ <- io_of (sys_fsync (op_fd parent)); rollback_loop todo
                | Err e =>
                    if e =? NOENT then rollback_loop todo
                    else if (e =? NOTEMPTY) || (e =? EXIST) then ok tt
                    else fail (errno_io e)
                end
          end
      end
  end.

Definition rollback_created_ancestors_blocking (created : list CreatedAncestor) : Io Env unit :=
  rollback_loop (reverse created).

Definition open_parent_blocking (path : bytes) (create_ancestors : bool) : Io Env OpenedParent :=
  open_parent_with rollback_created_ancestors_blocking path create_ancestors.

(** [open_nearest_existing_parent]. *)
Fixpoint nearest_parent (todo : list component) (current : Fd) (prefix : bytes) : Io Env Fd :=
  match todo with
  | [] => ok current
  | Normal component :: todo =>
      let prefix := path_push prefix component in
      do opened <- open_directory_from_root prefix;
      match opened with
      | Ok next => nearest_parent todo next prefix
      | Err error => if unresolved_path_error error then ok current else fail error
      end
  | _ :: _ => fail (io_new InvalidInput (bs "path contains a non-normal component"))
  end.

Definition open_nearest_existing_parent (path : bytes) : Io Env Fd :=
  attempt relative <- ret (relative_path path);
  let relative_parent := default [] (path_parent relative) in
  attempt current <- io_of (sys_dup (rf_root fs));
  nearest_parent (components relative_parent) current [].

(** [create_directory]. *)
Definition create_directory (path : bytes) : Io Env bool :=
  attempt parent <- open_parent_blocking path true;
  do made <- sys_mkdirat (op_fd parent) (op_name parent) 511;
  match made with
  | Err error =>
      do _ <- rollback_created_ancestors_blocking (op_created_ancestors parent);
      fail (errno_io error)
  | Ok _ =>
      attempt _ <- io_of (sys_fsync (op_fd parent));
      ok (negb (bool_decide (op_created_ancestors parent = [])))
  end.

Definition entry_key_blocking (path : bytes) : Io Env RootedEntryKey :=
  attempt parent <- open_parent_blocking path false;
  attempt parent_file <- io_of (sys_dup (op_fd parent));
  attempt metadata <- sys_file_metadata parent_file;
  ok (mkEntryKey (mkFile (md_dev metadata) (md_ino metadata)) (op_name parent)).

Definition sync_parent (path : bytes) : Io Env unit :=
  attempt parent <- open_parent_blocking path false;
  io_of (sys_fsync (op_fd parent)).

(** [remove_entry_blocking(path, false)]: its only caller never passes a
    directory. *)
Definition remove_file_entry_blocking (path : bytes) : Io Env bool :=
  do opened <- open_parent_blocking path false;
  match opened with
  | Err error => if bool_decide (io_kind error = NotFound) then ok false else fail error
  | Ok parent =>
      do removed <- sys_unlinkat (op_fd parent) (op_name parent) false;
      match removed with
      | Ok _ => ok true
      | Err e => if e =? NOENT then ok false else fail (errno_io e)
      end
  end.

(** ** Identities of entries *)

Definition existing_of (s : Stat) : ReplacementTargetIdentity :=
  Existing (replacement_target_identity s).

Definition replacement_identity_blocking (path : bytes) : Io Env ReplacementTargetIdentity :=
  do opened <- open_parent_blocking path false;
  match opened with
  | Err error => if bool_decide (io_kind error = NotFound) then ok Missing else fail error
  | Ok parent =>
      do found <- sys_statat (op_fd parent) (op_name parent);
      match found with
      | Ok stat => ok (existing_of stat)
      | Err e => if e =? NOENT then ok Missing else fail (errno_io e)
      end
  end.

(** [RootedFs::delete_identity]. *)
Definition read_delete_identity (path : bytes) : Io Env DeleteIdentity :=
  attempt parent <- open_parent_blocking path false;
  attempt metadata <- io_of (sys_statat (op_fd parent) (op_name parent));
  ok (delete_identity_from_stat metadata).

Definition delete_identity_at (parent : Fd) (name : bytes) : Io Env (option DeleteIdentity) :=
  do found <- sys_statat parent name;
  match found with
  | Ok metadata => ok (Some (delete_identity_from_stat metadata))
  | Err e => if e =? NOENT then ok None else fail (errno_io e)
  end.

Definition opened_directories_match (first second : Fd) : Io Env bool :=
  attempt first <- io_of (sys_fstat first);
  attempt second <- io_of (sys_fstat second);
  ok ((st_dev first =? st_dev second) && (st_ino first =? st_ino second)).

Definition sync_renamed_parents (source destination : Fd) (same_parent : bool) : Io Env unit :=
  attempt _ <- io_of (sys_fsync source);
  if same_parent then ok tt
  else attempt _ <- io_of (sys_fsync destination); ok tt.

(** ** Checked renames *)

Definition rename_missing_and_verify (source_parent : Fd) (source_name : bytes) (source_anchor : Fd)
    (destination_parent : Fd) (destination_name : bytes) : Io Env CheckedMissingRename :=
  do moved <- sys_renameat source_parent source_name destination_parent destination_name true;
  match moved with
  | Err e => if e =? EXIST then ok MissingDestinationExists else fail (errno_io e)
  | Ok _ =>
      do anchored <- sys_fstat source_anchor;
      match anchored with
      | Err error =>
          ok (PublishedIdentityUnknown (io_new InvalidData
            (bs "renamed source anchor could not be verified: " ++ os_strerror error)))
      | Ok anchored =>
          do named <- sys_statat destination_parent destination_name;
          match named with
          | Err error =>
              ok (PublishedIdentityUnknown (io_new InvalidData
                (bs "renamed destination could not be verified: " ++ os_strerror error)))
          | Ok named =>
              if bool_decide (replacement_target_identity anchored = replacement_target_identity named)
              then ok Renamed
              else ok (PublishedIdentityUnknown (io_new InvalidData
                (bs "renamed destination no longer matches the pinned source identity")))
          end
      end
  end.

(** The destination is expected to exist: a check, then a plain rename. *)
Definition relocate_over (source destination : OpenedParent) (same_parent : bool) (source_stat : Stat)
    (current_destination : ReplacementTargetIdentity) (destination_identity : ExistingReplacementTarget)
    : Io Env CheckedRelocationOutcome :=
  if negb (bool_decide (current_destination = Existing destination_identity)) then ok DestinationChanged
  else if (st_dev source_stat =? et_device destination_identity) &&
          (st_ino source_stat =? et_inode destination_identity)
  then ok SameFile
  else
    attempt _ <- io_of (sys_renameat (op_fd source) (op_name source) (op_fd destination)
                          (op_name destination) false);
    attempt _ <- sync_renamed_parents (op_fd source) (op_fd destination) same_parent;
    ok Relocated.

(** The destination is expected to be absent. *)
Definition relocate_missing (source destination : OpenedParent) (same_parent : bool)
    (current_destination expected_source : ReplacementTargetIdentity) (destination_changed : bool)
    : Io Env CheckedRelocationOutcome :=
  let occupied := if destination_changed then DestinationChanged else DestinationExists in
  if negb (bool_decide (current_destination = Missing)) then ok occupied
  else
    do anchor <- sys_openat (op_fd source) (op_name source) [PATH; NOFOLLOW; CLOEXEC] 0 Plain;
    match anchor with
    | Err e => if missing_errno e then ok SourceChanged else fail (errno_io e)
    | Ok source_anchor =>
        attempt anchored_source <- io_of (sys_fstat source_anchor);
        if negb (bool_decide (existing_of anchored_source = expected_source)) then ok SourceChanged
        else
          attempt moved <- rename_missing_and_verify (op_fd source) (op_name source) source_anchor
                             (op_fd destination) (op_name destination);
          match moved with
          | Renamed =>
              attempt _ <- sync_renamed_parents (op_fd source) (op_fd destination) same_parent;
              ok Relocated
          | MissingDestinationExists => ok occupied
          | PublishedIdentityUnknown error =>
              do _ <- sync_renamed_parents (op_fd source) (op_fd destination) same_parent;
              fail error
          end
    end.

Definition rename_if_unchanged (source destination : bytes)
    (expected_source : ReplacementTargetIdentity)
    (expected_destination : option ReplacementTargetIdentity) : Io Env CheckedRelocationOutcome :=
  do opened <- open_parent_blocking source false;
  match opened with
  | Err error => if missing_kind error then ok SourceChanged else fail error
  | Ok source =>
      do opened <- open_parent_blocking destination false;
      match opened with
      | Err error => if missing_kind error then ok DestinationChanged else fail error
      | Ok destination =>
          attempt same_parent <- opened_directories_match (op_fd source) (op_fd destination);
          do found <- sys_statat (op_fd source) (op_name source);
          match found with
          | Err e => if missing_errno e then ok SourceChanged else fail (errno_io e)
          | Ok source_stat =>
              if negb (bool_decide (existing_of source_stat = expected_source)) then ok SourceChanged
              else
                do found <- sys_statat (op_fd destination) (op_name destination);
                attempt current_destination <-
                  (match found with
                   | Ok destination_stat => ok (existing_of destination_stat)
                   | Err e => if missing_errno e then ok Missing else fail (errno_io e)
                   end);
                match expected_destination with
                | Some (Existing destination_identity) =>
                    relocate_over source destination same_parent source_stat current_destination
                      destination_identity
                | _ =>
                    relocate_missing source destination same_parent current_destination expected_source
                      (match expected_destination with Some _ => true | None => false end)
                end
          end
      end
  end.

(** ** Publishing a staged upload *)

(** The closure [prepared]: everything up to and including the rename. *)
Definition prepare_replace (source destination : bytes) (opened_source : Fd)
    (expected_destination : ReplacementTargetIdentity) : Io Env PreparedCheckedReplace :=
  attempt source <- open_parent_blocking source false;
  attempt destination <- open_parent_blocking destination false;
  attempt same_parent <- opened_directories_match (op_fd source) (op_fd destination);
  attempt opened_source_stat <- io_of (sys_fstat opened_source);
  do found <- sys_statat (op_fd source) (op_name source);
  match found with
  | Err e => if e =? NOENT then ok PreparedRejected else fail (errno_io e)
  | Ok named_source_stat =>
      let opened_source_identity := replacement_target_identity opened_source_stat in
      let named_source_identity := replacement_target_identity named_source_stat in
      if negb (bool_decide (opened_source_identity = named_source_identity)) ||
         negb (bool_decide (et_file_type opened_source_identity = RegularFile)) ||
         negb (et_links opened_source_identity =? 1)
      then ok PreparedRejected
      else
        do found <- sys_statat (op_fd destination) (op_name destination);
        attempt current_destination <-
          (match found with
           | Ok stat => ok (Some (replacement_target_identity stat))
           | Err e => if e =? NOENT then ok None else fail (errno_io e)
           end);
        match expected_destination with
        | Missing =>
            match current_destination with
            | Some _ => ok PreparedRejected
            | None =>
                attempt moved <- rename_missing_and_verify (op_fd source) (op_name source) opened_source
                                   (op_fd destination) (op_name destination);
                match moved with
                | Renamed => ok (PreparedRenamed source destination same_parent)
                | MissingDestinationExists => ok PreparedRejected
                | PublishedIdentityUnknown error =>
                    do _ <- sync_renamed_parents (op_fd source) (op_fd destination) same_parent;
                    ok (PreparedIdentityUnknown error)
                end
            end
        | Existing expected =>
            if negb (bool_decide (current_destination = Some expected)) then ok PreparedRejected
            else
              attempt _ <- io_of (sys_renameat (op_fd source) (op_name source) (op_fd destination)
                                    (op_name destination) false);
              ok (PreparedRenamed source destination same_parent)
        end
  end.

Definition replace_and_sync (source destination : bytes) (opened_source : Fd)
    (expected_destination : ReplacementTargetIdentity) : Sys Env ReplaceAndSyncOutcome :=
  do prepared <- prepare_replace source destination opened_source expected_destination;
  match prepared with
  | Ok (PreparedRenamed source destination same_parent) =>
      do synced <- sync_renamed_parents (op_fd source) (op_fd destination) same_parent;
      ret (match synced with Ok _ => Published | Err error => PublishedDurabilityUnknown error end)
  | Ok PreparedRejected => ret Rejected
  | Ok (PreparedIdentityUnknown error) => ret (PublishedDurabilityUnknown error)
  | Err error => ret (NotPublished error)
  end.

(** [gate]: the answer of [blocking_io_gate().run]; a task that failed to join
    may have run. *)
Definition rename_replace_if_unchanged (gate : result IoError unit) (source : bytes) (source_file : Fd)
    (destination : bytes) (expected_destination : ReplacementTargetIdentity)
    : Sys Env ReplaceAndSyncOutcome :=
  do opened <- sys_dup source_file;
  match opened with
  | Err error => ret (NotPublished (errno_io error))
  | Ok opened_source =>
      do outcome <- replace_and_sync source destination opened_source expected_destination;
      ret (match gate with Ok _ => outcome | Err error => PublishedDurabilityUnknown error end)
  end.

(** ** Trash *)

Definition trash_path_for_id (path trash_id : bytes) : result IoError bytes :=
  _ ← relative_path path;
  parent ← ok_or (path_parent path) (io_new InvalidInput (bs "trash target has no parent directory"));
  Ok (path_push parent (delete_trash_name trash_id)).

(** Everything after the rename: the entry must still be the pinned one, and the
    directory is made durable. *)
Definition verify_trash (parent : Fd) (name : bytes) (root_anchor : Fd) (expected : DeleteIdentity)
    : Sys Env (CheckedTrashMove TrashEntry) :=
  let unknown text := ret (DurabilityUnknown (io_new InvalidData text)) in
  do anchored <- sys_fstat root_anchor;
  match anchored with
  | Err error =>
      do _ <- sys_fsync parent;
      unknown (bs "renamed trash anchor could not be verified at the commit boundary: " ++ os_strerror error)
  | Ok anchored_metadata =>
      do moved <- sys_statat parent name;
      match moved with
      | Err error =>
          do _ <- sys_fsync parent;
          unknown (bs "renamed trash entry could not be verified at the commit boundary: " ++ os_strerror error)
      | Ok moved_metadata =>
          let moved_identity := delete_identity_from_stat moved_metadata in
          if negb (bool_decide (moved_identity = expected)) then
            do _ <- sys_fsync parent;
            unknown (bs "renamed trash entry identity changed at the commit boundary")
          else if negb (bool_decide (existing_of moved_metadata = existing_of anchored_metadata)) then
            do _ <- sys_fsync parent;
            unknown (bs "renamed trash entry no longer matches its pinned commit identity")
          else
            let trash_revision := purge_revision sha256 (existing_of anchored_metadata) in
            do synced <- sys_fsync parent;
            match synced with
            | Err error => ret (DurabilityUnknown (errno_io error))
            | Ok _ => ret (Moved (trash_new parent name moved_identity root_anchor trash_revision))
            end
      end
  end.

Definition classify_failed_trash_rename (parent : Fd) (source_name trash_name : bytes)
    (expected : DeleteIdentity) (rename_error : IoError) : Sys Env (CheckedTrashMove TrashEntry) :=
  do source <- delete_identity_at parent source_name;
  do trash <- delete_identity_at parent trash_name;
  ret (classify_failed_checked_trash_rename source trash expected rename_error).

(** The commit: a rename that never replaces. *)
Definition commit_trash (parent : OpenedParent) (name : bytes) (root_anchor : Fd)
    (expected : DeleteIdentity) : Sys Env (CheckedTrashMove TrashEntry) :=
  do moved <- sys_renameat (op_fd parent) (op_name parent) (op_fd parent) name true;
  match moved with
  | Err error =>
      classify_failed_trash_rename (op_fd parent) (op_name parent) name expected (errno_io error)
  | Ok _ => verify_trash (op_fd parent) name root_anchor expected
  end.

(** Pin the entry, then compare the pinned, the named and the expected ones. *)
Definition pin_and_move (parent : OpenedParent) (name : bytes) (actual : ReplacementTargetIdentity)
    (expected : DeleteIdentity) : Sys Env (CheckedTrashMove TrashEntry) :=
  do anchor <- sys_openat (op_fd parent) (op_name parent) [PATH; NOFOLLOW; CLOEXEC] 0 Plain;
  match anchor with
  | Err e => ret (if missing_errno e then TargetChanged else NotMoved (errno_io e))
  | Ok root_anchor =>
      do opened <- sys_fstat root_anchor;
      match opened with
      | Err error => ret (NotMoved (errno_io error))
      | Ok opened =>
          do named <- sys_statat (op_fd parent) (op_name parent);
          match named with
          | Err e => ret (if missing_errno e then TargetChanged else NotMoved (errno_io e))
          | Ok named =>
              if negb (bool_decide (existing_of opened = actual)) ||
                 negb (bool_decide (existing_of named = existing_of opened))
              then ret TargetChanged
              else commit_trash parent name root_anchor expected
          end
      end
  end.

Definition checked_trash_move (path name : bytes) (expected : DeleteIdentity)
    (expected_revision_identity : option ReplacementTargetIdentity)
    : Sys Env (CheckedTrashMove TrashEntry) :=
  do opened <- open_parent_blocking path false;
  match opened with
  | Err error => ret (if missing_kind error then TargetChanged else NotMoved error)
  | Ok parent =>
      do found <- sys_statat (op_fd parent) (op_name parent);
      match found with
      | Err e => ret (if missing_errno e then TargetChanged else NotMoved (errno_io e))
      | Ok metadata =>
          if negb (bool_decide (delete_identity_from_stat metadata = expected)) ||
             match expected_revision_identity with
             | Some expected => negb (bool_decide (expected = existing_of metadata))
             | None => false
             end
          then ret TargetChanged
          else pin_and_move parent name (existing_of metadata) expected
      end
  end.

(** A trash path always has a file name; [None] is the failed [expect]. *)
Definition move_to_trash_with_expected_identity_outcome (gate : result IoError unit)
    (path trash_id : bytes) (expected : DeleteIdentity)
    (expected_revision_identity : option ReplacementTargetIdentity)
    : Sys Env (option (CheckedTrashMove TrashEntry)) :=
  match trash_path_for_id path trash_id with
  | Err error => ret (Some (NotMoved error))
  | Ok trash_path =>
      match path_file_name trash_path with
      | None => ret None
      | Some name =>
          do outcome <- checked_trash_move path name expected expected_revision_identity;
          ret (Some (match gate with Ok _ => outcome | Err error => DurabilityUnknown error end))
      end
  end.

(** [for _ in 0..16] of [quarantine_internal_trash]. *)
Fixpoint quarantine_attempts (attempts : nat) (parent : OpenedParent) (parent_path : bytes)
    : Io Env (option bytes) :=
  match attempts with
  | O => fail (io_new AlreadyExists (bs "failed to allocate a unique quarantine name"))
  | S attempts =>
      do fresh <- sys_new_uuid;
      let name := quarantine_name fresh in
      do moved <- sys_renameat (op_fd parent) (op_name parent) (op_fd parent) name true;
      match moved with
      | Ok _ =>
          attempt _ <- io_of (sys_fsync (op_fd parent));
          ok (Some (path_push parent_path name))
      | Err e =>
          if e =? EXIST then quarantine_attempts attempts parent parent_path
          else if missing_errno e then ok None
          else fail (errno_io e)
      end
  end.

Definition quarantine_internal_trash (path : bytes) : Io Env (option bytes) :=
  let file_name := name ← path_file_name path; if is_utf8 name then Some name else None in
  if negb (bool_decide ((file_name ≫= classify_internal_name) = Some DeleteTrash)) then
    fail (io_new InvalidInput (bs "only a canonical internal trash entry can be quarantined"))
  else
    attempt parent_path <-
      ret (ok_or (path_parent path)
             (io_new InvalidInput (bs "internal trash entry has no parent directory")));
    attempt parent <- open_parent_blocking path false;
    quarantine_attempts 16 parent parent_path.

Definition capture_entry_for_purge_with_type_blocking (path : bytes) (expected_directory : option bool)
    (expected_revision : option bytes) : Io Env (option TrashEntry) :=
  do opened <- open_parent_blocking path false;
  match opened with
  | Err error => if missing_kind error then ok None else fail error
  | Ok parent =>
      do anchor <- sys_openat (op_fd parent) (op_name parent) [PATH; NOFOLLOW; CLOEXEC] 0 Plain;
      match anchor with
      | Err e => if e =? NOENT then ok None else fail (errno_io e)
      | Ok root_anchor =>
          attempt opened_metadata <- io_of (sys_fstat root_anchor);
          do named <- sys_statat (op_fd parent) (op_name parent);
          match named with
          | Err e => if e =? NOENT then ok None else fail (errno_io e)
          | Ok named_metadata =>
              if negb (bool_decide (existing_of opened_metadata = existing_of named_metadata)) then
                fail (io_new InvalidData (bs "purge candidate identity changed while pinning it"))
              else
                let entry_identity := delete_identity_from_stat opened_metadata in
                if match expected_directory with
                   | Some expected => negb (Bool.eqb (di_is_directory entry_identity) expected)
                   | None => false
                   end
                then fail (io_new InvalidData
                       (bs "purge candidate changed type during maintenance discovery"))
                else
                  let trash_revision := purge_revision sha256 (existing_of opened_metadata) in
                  if match expected_revision with
                     | Some expected => negb (beqb trash_revision expected)
                     | None => false
                     end
                  then fail (io_new InvalidData
                         (bs "purge candidate revision does not match the durable trash revision"))
                  else ok (Some (trash_new (op_fd parent) (op_name parent) entry_identity root_anchor
                                   trash_revision))
          end
      end
  end.

Definition capture_entry_for_purge (path : bytes) (expected_directory : bool)
    : Io Env (option TrashEntry) :=
  capture_entry_for_purge_with_type_blocking path (Some expected_directory) None.

Definition capture_entry_for_purge_with_revision (path : bytes) (expected_directory : bool)
    (expected_revision : bytes) : Io Env (option TrashEntry) :=
  capture_entry_for_purge_with_type_blocking path (Some expected_directory) (Some expected_revision).
End rooted.
