(* ===== verification/RootedFsSafety.v ===== *)
(** What the checked operations of the rooted file system do to the tree,
    whatever the kernel answers and whatever other processes do in between. *)

From S2P Require Import Prelude Bytes StdPath Utils UuidText InternalNames Problem Revisions Listing PathKeys RootedOs RootedFs.
From stdpp Require Import base numbers list strings sets.

Local Open Scope Z_scope.

Section safety.
Context {Env : Type} `{Os Env} `{UuidLib} (sha256 : bytes -> bytes) (fs : RootedFs).

Lemma open_directory_reads relative : emits reads (open_directory_from_root fs relative).
Proof. unfold open_directory_from_root, sys_openat. emits_auto. Qed.
#[local] Hint Resolve open_directory_reads : emits.

Lemma open_ancestors_reads todo rollback current prefix :
  emits reads (rollback []) ->
  emits reads (open_ancestors fs rollback false todo current prefix []).
Proof.
  intros Hr. revert current prefix. induction todo as [|c todo IH]; intros current prefix;
    cbn [open_ancestors]; [apply emits_ret|]. destruct c; try apply emits_ret.
  apply emits_bind; [auto with emits|]. intros [next|err]; [apply IH|].
  rewrite andb_false_r. apply emits_bind; [done|]. intros ?. apply emits_ret.
Qed.

(** Without [create_ancestors] opening a parent changes nothing. *)
Lemma open_parent_reads path : emits reads (open_parent_blocking fs path false).
Proof.
  unfold open_parent_blocking, open_parent_with, sys_dup. emits_auto.
  apply open_ancestors_reads. apply emits_ret.
Qed.
#[local] Hint Resolve open_parent_reads : emits.

Lemma metadata_reads path : emits reads (metadata_blocking fs path).
Proof. unfold metadata_blocking, sys_openat, sys_file_metadata. emits_auto. Qed.
Lemma metadata_nofollow_reads path : emits reads (metadata_nofollow fs path).
Proof. unfold metadata_nofollow, sys_openat, sys_file_metadata. emits_auto. Qed.
Lemma replacement_identity_reads path : emits reads (replacement_identity_blocking fs path).
Proof. unfold replacement_identity_blocking, sys_statat. emits_auto. Qed.

(** ** Observations in a log *)

(** A directory entry was seen to be [identity]. *)
Definition observed (calls : list SysCall) (dir : Fd) (name : bytes)
    (seen : ReplacementTargetIdentity) : Prop :=
  match seen with
  | Existing t => exists st, Statat dir name (Ok st) ∈ calls /\ replacement_target_identity st = t
  | Missing => exists e, Statat dir name (Err e) ∈ calls /\ missing_errno e = true
  end.

(** Two handles were seen to be the same directory. *)
Definition same_directory (calls : list SysCall) (a b : Fd) : Prop :=
  exists s1 s2, Fstat a (Ok s1) ∈ calls /\ Fstat b (Ok s2) ∈ calls /\ stat_identity s1 = stat_identity s2.

(** Both ends of a rename reached the disk. *)
Definition durable (before after : list SysCall) (from to : Fd) : Prop :=
  Fsync from (Ok tt) ∈ after /\ (Fsync to (Ok tt) ∈ after \/ same_directory before from to).

(** The new name was seen to hold the object an open handle pins. *)
Definition verified (calls : list SysCall) (anchor dir : Fd) (name : bytes) : Prop :=
  exists s1 s2, Fstat anchor (Ok s1) ∈ calls /\ Statat dir name (Ok s2) ∈ calls /\
    replacement_target_identity s1 = replacement_target_identity s2.

Lemma match_spec first second :
  spec (opened_directories_match first second) (λ r calls,
    Forall reads calls /\ (r = Ok true -> same_directory calls first second)).
Proof.
  unfold opened_directories_match, sys_fstat. repeat spec_step; (split; [by repeat constructor|]); try done.
  intros [= E]. apply andb_true_iff in E as [E1 E2]. bool_prop.
  exists a, a0. split; [set_solver|]. split; [set_solver|]. unfold stat_identity. congruence.
Qed.

Lemma sync_spec source destination same :
  spec (sync_renamed_parents source destination same) (λ r calls,
    Forall reads calls /\
    (r = Ok tt -> Fsync source (Ok tt) ∈ calls /\ (same = false -> Fsync destination (Ok tt) ∈ calls))).
Proof.
  unfold sync_renamed_parents, sys_fsync. repeat spec_step; (split; [by repeat constructor|]); try done;
    repeat match goal with x : () |- _ => destruct x end; set_solver.
Qed.

(** ** Relocation *)

(** What [rename_missing_and_verify] does: one rename that cannot replace. *)
Lemma rename_missing_spec from name anchor to new_name :
  spec (rename_missing_and_verify from name anchor to new_name) (λ r calls,
    exists answer after,
      calls = Renameat from name to new_name true answer :: after /\ Forall reads after /\
      (r = Ok Renamed -> answer = Ok tt /\ verified after anchor to new_name) /\
      (r = Ok MissingDestinationExists -> answer = Err EXIST) /\
      (forall e, r = Ok (PublishedIdentityUnknown e) -> answer = Ok tt) /\
      (forall e, r = Err e -> exists code, answer = Err code)).
Proof.
  unfold rename_missing_and_verify, sys_renameat, sys_fstat, sys_statat. repeat spec_step;
    do 2 eexists; (split; [reflexivity|]); (split; [by repeat constructor|]);
    repeat match goal with x : () |- _ => destruct x end; bool_prop; split_and!; try done;
    try (intros; subst; eauto; done).
  intros _. split; [done|]. do 2 eexists. split_and!; [| |eassumption]; set_solver.
Qed.

(** The calls of a relocation from the point where both entries are known. *)
Definition relocation_tail (source destination : OpenedParent) (same_parent noreplace : bool)
    (r : result IoError CheckedRelocationOutcome) (calls : list SysCall) : Prop :=
  (Forall reads calls /\ r <> Ok Relocated) \/
  exists before after answer,
    calls = before ++ Renameat (op_fd source) (op_name source) (op_fd destination)
              (op_name destination) noreplace answer :: after /\
    Forall reads before /\ Forall reads after /\
    (r = Ok Relocated ->
      answer = Ok tt /\ Fsync (op_fd source) (Ok tt) ∈ after /\
      (same_parent = false -> Fsync (op_fd destination) (Ok tt) ∈ after) /\
      (noreplace = true -> exists anchor, verified after anchor (op_fd destination) (op_name destination))) /\
    (forall o, r = Ok o -> o <> Relocated -> answer <> Ok tt).

Lemma relocate_over_spec source destination same_parent source_stat current d :
  spec (relocate_over source destination same_parent source_stat current d) (λ r calls,
    (Forall reads calls /\ r <> Ok Relocated) \/
    (current = Existing d /\ relocation_tail source destination same_parent false r calls)).
Proof.
  unfold relocate_over, sys_renameat. spec_step; [by apply spec_ret; left|].
  spec_step; [by apply spec_ret; left|]. bool_prop. apply spec_attempt_call; cycle 1.
  { intros e. right. split; [done|]. right. exists [], [], (Err e). by split_and!. }
  intros []. eapply spec_bind_ok; [apply sync_spec| |].
  - intros [] c [Hc Hs]. apply spec_ret. right. split; [done|]. right.
    destruct (Hs eq_refl) as [S1 S2]. exists [], (c ++ []), (Ok tt). rewrite app_nil_r. split_and!; try done.
    by intros o [= <-].
  - intros e c [Hc _]. right. split; [done|]. right. by exists [], c, (Ok tt).
Qed.

Lemma verified_app calls more anchor dir name :
  verified calls anchor dir name -> verified (calls ++ more) anchor dir name.
Proof. intros (s1 & s2 & ? & ? & ?). exists s1, s2. rewrite !elem_of_app. auto. Qed.

Lemma relocate_missing_spec source destination same_parent current expected changed :
  spec (relocate_missing source destination same_parent current expected changed) (λ r calls,
    (Forall reads calls /\ r <> Ok Relocated) \/
    (current = Missing /\ relocation_tail source destination same_parent true r calls)).
Proof.
  unfold relocate_missing, sys_openat, sys_fstat. spec_step.
  { apply spec_ret. left. by destruct changed. }
  bool_prop. apply spec_bind_call. intros [anchor|e].
  2: { spec_step; apply spec_ret; left; split; try done; by repeat constructor. }
  apply spec_attempt_call; [|intros e; left; split; [by repeat constructor|done]].
  intros st. spec_step; [apply spec_ret; left; split; [by repeat constructor|done]|].
  eapply spec_bind_ok; [apply rename_missing_spec| |].
  - intros moved c (answer & after & -> & Hreads & H1 & H2 & H3 & _). destruct moved as [| |error].
    + destruct (H1 eq_refl) as [-> Hv]. eapply spec_bind_ok; [apply sync_spec| |].
      * intros [] c [Hc Hs]. apply spec_ret. right. split; [done|]. right.
        destruct (Hs eq_refl) as [S1 S2].
        eexists [_; _], (after ++ c ++ []), (Ok tt). split; [by rewrite ?app_nil_r|].
        split; [by repeat constructor|]. rewrite app_nil_r. split; [by apply Forall_app|].
        split; [|by intros o [= <-]]. intros _. split_and!; [done|set_solver|set_solver|].
        intros _. exists anchor. by apply verified_app.
      * intros e c [Hc _]. right. split; [done|]. right.
        eexists [_; _], (after ++ c), (Ok tt). split; [done|]. split; [by repeat constructor|].
        split; [by apply Forall_app|]. done.
    + rewrite (H2 eq_refl). apply spec_ret. right. split; [done|]. right.
      eexists [_; _], (after ++ []), (Err EXIST). split; [done|]. split; [by repeat constructor|].
      rewrite app_nil_r. split; [done|]. by destruct changed.
    + rewrite (H3 _ eq_refl). eapply spec_bind; [apply sync_spec|]. intros r c [Hc _].
      apply spec_ret. right. split; [done|]. right. eexists [_; _], (after ++ c ++ []), (Ok tt).
      split; [done|]. split; [by repeat constructor|]. rewrite app_nil_r. by split; [apply Forall_app|].
  - intros e c (answer & after & -> & Hreads & _ & _ & _ & H4). right. split; [done|]. right.
    destruct (H4 _ eq_refl) as [code ->]. eexists [_; _], after, (Err code).
    split; [done|]. split; [by repeat constructor|]. done.
Qed.

Lemma observed_app calls more dir name seen :
  observed calls dir name seen -> observed (calls ++ more) dir name seen.
Proof. destruct seen; cbn; intros (x & ? & ?); exists x; rewrite !elem_of_app; auto. Qed.

Lemma same_directory_app calls more a b : same_directory calls a b -> same_directory (calls ++ more) a b.
Proof. intros (s1 & s2 & ? & ? & ?). exists s1, s2. rewrite !elem_of_app. auto. Qed.

(** The contract of a relocation. *)
Definition checked_relocation (expected_source : ReplacementTargetIdentity)
    (expected_destination : option ReplacementTargetIdentity)
    (r : result IoError CheckedRelocationOutcome) (calls : list SysCall) : Prop :=
  (Forall reads calls /\ r <> Ok Relocated) \/
  exists before after from name to new_name noreplace answer,
    calls = before ++ Renameat from name to new_name noreplace answer :: after /\
    Forall reads before /\ Forall reads after /\
    observed before from name expected_source /\
    (if noreplace : bool
     then observed before to new_name Missing /\ forall d, expected_destination <> Some (Existing d)
     else exists d, expected_destination = Some (Existing d) /\ observed before to new_name (Existing d)) /\
    (r = Ok Relocated ->
      answer = Ok tt /\ durable before after from to /\
      (noreplace = true -> exists anchor, verified after anchor to new_name)) /\
    (forall o, r = Ok o -> o <> Relocated -> answer <> Ok tt).

Lemma relocation_closes expected_source expected_destination before src dst same (noreplace : bool) r calls :
  Forall reads before -> observed before (op_fd src) (op_name src) expected_source ->
  (same = true -> same_directory before (op_fd src) (op_fd dst)) ->
  (if noreplace
   then observed before (op_fd dst) (op_name dst) Missing /\
        forall d, expected_destination <> Some (Existing d)
   else exists d, expected_destination = Some (Existing d) /\
        observed before (op_fd dst) (op_name dst) (Existing d)) ->
  relocation_tail src dst same noreplace r calls ->
  checked_relocation expected_source expected_destination r (before ++ calls).
Proof.
  intros Hb Hsrc Hsame Hdst [[Hc Hr]|(mid & after & answer & -> & Hm & Ha & Hok & Hno)].
  { left. by rewrite Forall_app. }
  right. exists (before ++ mid), after, (op_fd src), (op_name src), (op_fd dst), (op_name dst), noreplace, answer.
  split; [by rewrite <-app_assoc|]. split; [by apply Forall_app|]. split; [done|].
  split; [by apply observed_app|]. split.
  { destruct noreplace; [destruct Hdst as [? ?]; split; [by apply observed_app|done]|].
    destruct Hdst as (d & ? & ?). exists d. split; [done|]. by apply observed_app. }
  split; [|done]. intros Hrel. destruct (Hok Hrel) as (-> & F1 & F2 & Hv).
  split; [done|]. split; [|done]. split; [done|]. destruct same; [right|by left; apply F2].
  by apply same_directory_app, Hsame.
Qed.

Lemma rename_if_unchanged_spec source destination expected_source expected_destination :
  spec (rename_if_unchanged fs source destination expected_source expected_destination)
    (checked_relocation expected_source expected_destination).
Proof.
  unfold rename_if_unchanged, sys_statat.
  eapply spec_bind; [apply open_parent_reads|]. intros [src|error] c1 R1.
  2: { spec_step; apply spec_ret; left; by rewrite app_nil_r. }
  eapply spec_bind; [apply open_parent_reads|]. intros [dst|error] c2 R2.
  2: { spec_step; apply spec_ret; left; rewrite app_nil_r; (split; [by apply Forall_app|done]). }
  eapply spec_bind_ok; [apply match_spec| |].
  2: { intros e c [R _]. left. split; [|done]. by rewrite !Forall_app. }
  intros same c3 [R3 Hsame]. apply spec_bind_call. intros [st|e].
  2: { spec_step; apply spec_ret; left; (split; [|done]); rewrite !Forall_app; by repeat constructor. }
  spec_step.
  { apply spec_ret. left. split; [|done]. rewrite !Forall_app. by repeat constructor. }
  bool_prop. apply spec_bind_call. intros found.
  set (before := c1 ++ c2 ++ c3 ++ [Statat (op_fd src) (op_name src) (Ok st);
    Statat (op_fd dst) (op_name dst) found]).
  assert (Rb : Forall reads before) by (unfold before; rewrite !Forall_app; by repeat constructor).
  apply (spec_weaken _ (λ r c, checked_relocation expected_source expected_destination r (before ++ c)));
    [|intros r c; unfold before; by rewrite <-!app_assoc].
  assert (Hsrc : observed before (op_fd src) (op_name src) expected_source).
  { subst expected_source. exists st. split; [|done]. unfold before. rewrite !elem_of_app. do 3 right. left. }
  assert (Hd : same = true -> same_directory before (op_fd src) (op_fd dst)).
  { intros ->. destruct (Hsame eq_refl) as (x & y & Hx & Hy & Hxy). exists x, y. unfold before.
    rewrite !elem_of_app. auto 10. }
  assert (Hfail : forall e, found = Err e -> missing_errno e = true -> observed before (op_fd dst) (op_name dst) Missing).
  { intros e -> He. exists e. split; [|done]. unfold before. rewrite !elem_of_app. do 3 right. right. left. }
  assert (Hsome : forall s, found = Ok s -> observed before (op_fd dst) (op_name dst) (existing_of s)).
  { intros s ->. exists s. split; [|done]. unfold before. rewrite !elem_of_app. do 3 right. right. left. }
  clearbody before. clear Hsame R1 R2 R3.
  apply (spec_bind_ok _ _ (λ current c, c = [] /\ forall s, current = Ok s ->
    observed before (op_fd dst) (op_name dst) s)).
  { spec_step; [|spec_step]; apply spec_ret; (split; [done|]); intros x [= <-]; eauto. }
  2: { intros e c [-> _]. left. by rewrite app_nil_r. }
  intros current c [-> Hcur]. specialize (Hcur current eq_refl).
  destruct expected_destination as [[|d]|].
  - eapply spec_weaken; [apply relocate_missing_spec|]. intros r c [[Hc Hr]|[-> Ht]].
    + left. by rewrite Forall_app.
    + eapply relocation_closes; [done|done|done| |exact Ht]. by split.
  - eapply spec_weaken; [apply relocate_over_spec|]. intros r c [[Hc Hr]|[-> Ht]].
    + left. by rewrite Forall_app.
    + eapply relocation_closes; [done|done|done| |exact Ht]. by exists d.
  - eapply spec_weaken; [apply relocate_missing_spec|]. intros r c [[Hc Hr]|[-> Ht]].
    + left. by rewrite Forall_app.
    + eapply relocation_closes; [done|done|done| |exact Ht]. by split.
Qed.

(** A relocation moves at most one directory entry, and only after it has
    seen the source to be the expected object.  It overwrites nothing but an
    object the caller named and that was still there: every other rename is one
    the kernel refuses to let replace, issued after the destination was seen to
    be missing.  It reports success only when the rename succeeded, both
    directories reached the disk and, for a missing destination, the new name
    was seen to hold the pinned source; and any other definite answer means that
    no entry moved. *)
Theorem relocation_is_checked source destination expected_source expected_destination :
  spec (rename_if_unchanged fs source destination expected_source expected_destination)
    (checked_relocation expected_source expected_destination).
Proof. apply rename_if_unchanged_spec. Qed.

(** ** Publication *)

(** The contract of [rename_replace_if_unchanged] up to its last step. *)
Definition publication (opened_source : Fd) (expected : ReplacementTargetIdentity)
    (outcome : ReplaceAndSyncOutcome) (calls : list SysCall) : Prop :=
  (Forall reads calls /\ (outcome = Rejected \/ exists e, outcome = NotPublished e)) \/
  exists before after from name to new_name answer st,
    calls = before ++ Renameat from name to new_name (bool_decide (expected = Missing)) answer :: after /\
    Forall reads before /\ Forall reads after /\
    Fstat opened_source (Ok st) ∈ before /\
    observed before from name (existing_of st) /\
    from_raw_mode (st_mode st) = RegularFile /\ st_nlink st = 1 /\
    observed before to new_name expected /\
    match outcome with
    | Published =>
        answer = Ok tt /\ durable before after from to /\
        (expected = Missing -> verified after opened_source to new_name)
    | Rejected | NotPublished _ => answer <> Ok tt
    | PublishedDurabilityUnknown _ => answer = Ok tt
    end.

(** What is known when the rename is issued. *)
Record publishable (opened_source : Fd) (expected : ReplacementTargetIdentity) (before : list SysCall)
    (src dst : OpenedParent) (same : bool) (st : Stat) : Prop := {
  pub_reads : Forall reads before;
  pub_pinned : Fstat opened_source (Ok st) ∈ before;
  pub_source : observed before (op_fd src) (op_name src) (existing_of st);
  pub_regular : from_raw_mode (st_mode st) = RegularFile;
  pub_links : st_nlink st = 1;
  pub_destination : observed before (op_fd dst) (op_name dst) expected;
  pub_same : same = true -> same_directory before (op_fd src) (op_fd dst)
}.

Definition prepared_contract (opened_source : Fd) (expected : ReplacementTargetIdentity)
    (r : result IoError PreparedCheckedReplace) (calls : list SysCall) : Prop :=
  (Forall reads calls /\ (r = Ok PreparedRejected \/ exists e, r = Err e)) \/
  exists before after answer src dst same st,
    calls = before ++ Renameat (op_fd src) (op_name src) (op_fd dst) (op_name dst)
              (bool_decide (expected = Missing)) answer :: after /\ Forall reads after /\
    publishable opened_source expected before src dst same st /\
    match r with
    | Ok (PreparedRenamed s d b) => s = src /\ d = dst /\ b = same /\ answer = Ok tt /\
        (expected = Missing -> verified after opened_source (op_fd dst) (op_name dst))
    | Ok PreparedRejected | Err _ => answer <> Ok tt
    | Ok (PreparedIdentityUnknown _) => answer = Ok tt
    end.

Definition current_identity (current : option ExistingReplacementTarget) : ReplacementTargetIdentity :=
  match current with Some t => Existing t | None => Missing end.

(** The two ways to rename, once everything has been checked. *)
Lemma publish_rename opened_source expected before src dst same st current :
  publishable opened_source (current_identity current) before src dst same st ->
  spec (match expected with
        | Missing =>
            match current with
            | Some _ => ok PreparedRejected
            | None =>
                attempt moved <- rename_missing_and_verify (op_fd src) (op_name src) opened_source
                                   (op_fd dst) (op_name dst);
                match moved with
                | Renamed => ok (PreparedRenamed src dst same)
                | MissingDestinationExists => ok PreparedRejected
                | PublishedIdentityUnknown error =>
                    do _ <- sync_renamed_parents (op_fd src) (op_fd dst) same;
                    ok (PreparedIdentityUnknown error)
                end
            end
        | Existing expected =>
            if negb (bool_decide (current = Some expected)) then ok PreparedRejected
            else
              attempt _ <- io_of (sys_renameat (op_fd src) (op_name src) (op_fd dst) (op_name dst) false);
              ok (PreparedRenamed src dst same)
        end)
    (λ r c, prepared_contract opened_source expected r (before ++ c)).
Proof.
  intros Hp. pose proof (pub_reads _ _ _ _ _ _ _ Hp) as Hb.
  assert (Hnone : forall c, Forall reads c ->
    prepared_contract opened_source expected (Ok PreparedRejected) (before ++ c))
    by (intros c Hc; left; split; [by apply Forall_app|auto]).
  destruct expected as [|d].
  - destruct current as [t|]; [by apply spec_ret, Hnone|].
    eapply spec_bind_ok; [apply rename_missing_spec| |].
    + intros moved c (answer & after & -> & Ha & H1 & H2 & H3 & _). destruct moved as [| |error].
      * destruct (H1 eq_refl) as [-> Hv]. apply spec_ret. rewrite app_nil_r. right.
        by exists before, after, (Ok tt), src, dst, same, st.
      * rewrite (H2 eq_refl). apply spec_ret. rewrite app_nil_r. right.
        by exists before, after, (Err EXIST), src, dst, same, st.
      * rewrite (H3 _ eq_refl). eapply spec_bind; [apply sync_spec|]. intros r c [Hc _].
        apply spec_ret. rewrite app_nil_r. right.
        exists before, (after ++ c), (Ok tt), src, dst, same, st. split_and!; try done. by apply Forall_app.
    + intros e c (answer & after & -> & Ha & _ & _ & _ & H4). destruct (H4 _ eq_refl) as [code ->].
      right. by exists before, after, (Err code), src, dst, same, st.
  - spec_step; [by apply spec_ret, Hnone|]. bool_prop. subst current. unfold sys_renameat. apply spec_attempt_call.
    + intros []. apply spec_ret. right. by exists before, [], (Ok tt), src, dst, same, st.
    + intros e. right. by exists before, [], (Err e), src, dst, same, st.
Qed.

Lemma prepare_replace_spec source destination opened_source expected :
  spec (prepare_replace fs source destination opened_source expected)
    (prepared_contract opened_source expected).
Proof.
  assert (Hstop : forall c (r : result IoError PreparedCheckedReplace), Forall reads c ->
    r = Ok PreparedRejected \/ (exists e, r = Err e) -> prepared_contract opened_source expected r c)
    by (intros; by left).
  unfold prepare_replace, sys_statat, sys_fstat.
  eapply spec_bind_ok; [apply open_parent_reads| |intros; apply Hstop; eauto]. intros src c1 R1. cbn in R1.
  eapply spec_bind_ok; [apply open_parent_reads| |].
  2: { intros e c R. apply Hstop; [by apply Forall_app|eauto]. }
  intros dst c2 R2. cbn in R2. eapply spec_bind_ok; [apply match_spec| |].
  2: { intros e c [R _]. apply Hstop; [by rewrite !Forall_app|eauto]. }
  intros same c3 [R3 Hsame]. apply spec_attempt_call.
  2: { intros e. apply Hstop; [rewrite !Forall_app; by repeat constructor|eauto]. }
  intros st. apply spec_bind_call. intros [named|e].
  2: { spec_step; apply spec_ret; (apply Hstop; [rewrite !Forall_app; by repeat constructor|eauto]). }
  spec_step; [apply spec_ret; apply Hstop; [rewrite !Forall_app; by repeat constructor|eauto]|].
  rewrite !orb_false_iff, !negb_false_iff, !bool_decide_eq_true in Heqb. destruct Heqb as [[Hid Hreg] Hlink].
  apply Z.eqb_eq in Hlink. apply spec_bind_call. intros found.
  set (before := c1 ++ c2 ++ c3 ++ [Fstat opened_source (Ok st);
    Statat (op_fd src) (op_name src) (Ok named); Statat (op_fd dst) (op_name dst) found]).
  apply (spec_weaken _ (λ r c, prepared_contract opened_source expected r (before ++ c)));
    [|intros r c; unfold before; by rewrite <-!app_assoc].
  assert (Rb : Forall reads before) by (unfold before; rewrite !Forall_app; by repeat constructor).
  assert (Hin : forall c, c ∈ [Fstat opened_source (Ok st); Statat (op_fd src) (op_name src) (Ok named);
    Statat (op_fd dst) (op_name dst) found] -> c ∈ before)
    by (intros c Hc; unfold before; rewrite !elem_of_app; auto).
  assert (Hd : same = true -> same_directory before (op_fd src) (op_fd dst)).
  { intros ->. destruct (Hsame eq_refl) as (x & y & Hx & Hy & Hxy). exists x, y. unfold before.
    rewrite !elem_of_app. auto 10. }
  clearbody before. clear Hsame R1 R2 R3.
  apply (spec_bind_ok _ _ (λ r c, c = [] /\ forall current, r = Ok current ->
    observed before (op_fd dst) (op_name dst) (current_identity current))).
  { destruct found as [s|e]; [|destruct (e =? NOENT) eqn:He]; apply spec_ret; (split; [done|]);
      intros current [= <-].
    - exists s. split; [apply Hin; set_solver|done].
    - exists e. split; [apply Hin; set_solver|]. unfold missing_errno. by rewrite He. }
  2: { intros e c [-> _]. apply Hstop; [by rewrite app_nil_r|eauto]. }
  intros current c [-> Hcur]. specialize (Hcur _ eq_refl). apply (publish_rename _ _ _ _ _ _ st).
  constructor; try done.
  - apply Hin. set_solver.
  - exists named. split; [apply Hin; set_solver|congruence].
Qed.

Lemma replace_and_sync_spec source destination opened_source expected :
  spec (replace_and_sync fs source destination opened_source expected)
    (publication opened_source expected).
Proof.
  unfold replace_and_sync. eapply spec_bind; [apply prepare_replace_spec|].
  intros r c [[Hc Hr]|(before & after & answer & src & dst & same & st & -> & Ha & Hp & Hm)].
  { destruct Hr as [->|[e ->]]; apply spec_ret; left; rewrite app_nil_r; eauto. }
  assert (Hclose : forall outcome c,
    Forall reads c ->
    match outcome with
    | Published => answer = Ok tt /\ durable before (after ++ c) (op_fd src) (op_fd dst) /\
        (expected = Missing -> verified after opened_source (op_fd dst) (op_name dst))
    | Rejected | NotPublished _ => answer <> Ok tt
    | PublishedDurabilityUnknown _ => answer = Ok tt
    end ->
    publication opened_source expected outcome
      ((before ++ Renameat (op_fd src) (op_name src) (op_fd dst) (op_name dst)
         (bool_decide (expected = Missing)) answer :: after) ++ c)).
  { intros outcome c Hc Ho. right. destruct Hp as [P1 P2 P3 P4 P5 P6 P7].
    exists before, (after ++ c), (op_fd src), (op_name src), (op_fd dst), (op_name dst), answer, st.
    rewrite <-app_assoc. split_and!; try done; [by apply Forall_app|].
    destruct outcome; try done. destruct Ho as (-> & ? & Hv). split_and!; try done.
    intros ?. by apply verified_app, Hv. }
  destruct r as [[s d b| |error]|error]; try by apply spec_ret, Hclose.
  destruct Hm as (-> & -> & -> & -> & Hv). eapply spec_bind; [apply sync_spec|].
  intros [[]|e] c [Hc Hs]; apply spec_ret; rewrite app_nil_r; apply Hclose; try done.
  split; [done|]. split; [|done]. destruct (Hs eq_refl) as [S1 S2]. split; [set_solver|].
  destruct same; [right; by apply (pub_same _ _ _ _ _ _ _ Hp)|left; set_solver].
Qed.

(** Publishing an upload renames at most one entry, after the staged name
    was seen to be the very regular, singly linked file the server has open and
    the target was seen to be as the upload expected it; a target expected to be
    missing is never replaced.  [Published] means that the rename succeeded and
    both directories reached the disk, [Rejected] and [NotPublished] that no
    entry moved, and an unknown durability that one did. *)
Theorem publication_is_checked source destination opened_source expected :
  spec (replace_and_sync fs source destination opened_source expected)
    (publication opened_source expected).
Proof. apply replace_and_sync_spec. Qed.

(** ** Moving to the trash *)

(** The entry [old] was seen to be the object to delete, twice by name and once
    through a handle that pins it. *)
Definition pinned (before : list SysCall) (parent : Fd) (old : bytes) (anchor : Fd)
    (expected : DeleteIdentity) (revision : option ReplacementTargetIdentity) : Prop :=
  exists st, Openat parent old [PATH; NOFOLLOW; CLOEXEC] 0 Plain (Ok anchor) ∈ before /\
    observed before parent old (existing_of st) /\ verified before anchor parent old /\
    delete_identity_from_stat st = expected /\
    (forall seen, revision = Some seen -> seen = existing_of st).

Definition trash_outcome (name : bytes) (parent : Fd) (old : bytes) (anchor : Fd)
    (expected : DeleteIdentity) (outcome : CheckedTrashMove TrashEntry) (answer : result Errno unit)
    (after : list SysCall) : Prop :=
  match outcome with
  | Moved e =>
      answer = Ok tt /\ Fsync parent (Ok tt) ∈ after /\ verified after anchor parent name /\
      te_parent e = parent /\ te_name e = name /\ te_root_anchor e = anchor /\ te_identity e = expected /\
      exists st, Statat parent name (Ok st) ∈ after /\ delete_identity_from_stat st = expected /\
        te_trash_revision e = purge_revision sha256 (existing_of st)
  | TargetChanged => False
  | NotMoved _ =>
      answer <> Ok tt /\
      exists st, Statat parent old (Ok st) ∈ after /\ delete_identity_from_stat st = expected
  | DurabilityUnknown _ => True
  end.

(** The contract of a checked move to the trash name [name]. *)
Definition trash_contract (name : bytes) (expected : DeleteIdentity)
    (revision : option ReplacementTargetIdentity) (outcome : CheckedTrashMove TrashEntry)
    (calls : list SysCall) : Prop :=
  (Forall reads calls /\ (outcome = TargetChanged \/ exists e, outcome = NotMoved e)) \/
  exists before after parent old anchor answer,
    calls = before ++ Renameat parent old parent name true answer :: after /\
    Forall reads before /\ Forall reads after /\
    pinned before parent old anchor expected revision /\
    trash_outcome name parent old anchor expected outcome answer after.

Lemma verify_trash_spec parent name anchor expected :
  spec (verify_trash sha256 parent name anchor expected) (λ outcome calls,
    Forall reads calls /\ forall old, trash_outcome name parent old anchor expected outcome (Ok tt) calls).
Proof.
  unfold verify_trash, sys_fstat, sys_statat, sys_fsync. repeat spec_step;
    (split; [by repeat constructor|]); intros old; cbn; try done.
  repeat match goal with x : () |- _ => destruct x end. bool_prop.
  subst. rename a0 into anchored, a2 into moved.
  assert (Heq : replacement_target_identity anchored = replacement_target_identity moved)
    by (unfold existing_of in *; congruence).
  split_and!; try done; [set_solver|exists anchored, moved; split_and!; [set_solver..|done]|].
  exists moved. split_and!; [set_solver|done|]. congruence.
Qed.

Lemma classify_trash_spec parent old name anchor expected e code :
  spec (classify_failed_trash_rename parent old name expected e) (λ outcome calls,
    Forall reads calls /\ trash_outcome name parent old anchor expected outcome (Err code) calls).
Proof.
  unfold classify_failed_trash_rename, delete_identity_at, sys_statat.
  eapply (spec_bind _ _ (λ r c, Forall reads c /\ forall x, r = Ok (Some x) ->
    exists st, Statat parent old (Ok st) ∈ c /\ delete_identity_from_stat st = x)).
  { repeat spec_step; (split; [by repeat constructor|]); intros x [= <-]. eexists. split; [left|done]. }
  intros r c [Hc Hr]. eapply (spec_bind _ _ (λ _ c, Forall reads c)).
  { repeat spec_step; by repeat constructor. }
  intros t c' Hc'. apply spec_ret. rewrite app_nil_r. split; [by apply Forall_app|].
  destruct (classify_failed_checked_trash_rename r t expected e) as [x| |x|x] eqn:E; try done.
  1, 2: unfold classify_failed_checked_trash_rename in E; by destruct (_ && _).
  assert (x = e) as -> by (unfold classify_failed_checked_trash_rename in E; destruct (_ && _); congruence).
  split; [done|]. unfold classify_failed_checked_trash_rename in E.
  destruct r as [[i|]|]; cbn in E; try done. case_bool_decide; [|done]. subst i.
  destruct (Hr _ eq_refl) as (st & ? & ?). exists st. split; [set_solver|done].
Qed.

Lemma commit_trash_spec parent name anchor expected :
  spec (commit_trash sha256 parent name anchor expected) (λ outcome calls,
    exists answer after,
      calls = Renameat (op_fd parent) (op_name parent) (op_fd parent) name true answer :: after /\
      Forall reads after /\
      trash_outcome name (op_fd parent) (op_name parent) anchor expected outcome answer after).
Proof.
  unfold commit_trash, sys_renameat. apply spec_bind_call. intros [[]|e].
  - eapply spec_weaken; [apply verify_trash_spec|]. intros r c [Hc Ho]. by exists (Ok tt), c.
  - eapply spec_weaken; [apply (classify_trash_spec _ _ _ anchor _ _ e)|].
    intros r c [Hc Ho]. by exists (Err e), c.
Qed.

Lemma checked_trash_move_spec path name expected revision :
  spec (checked_trash_move sha256 fs path name expected revision)
    (trash_contract name expected revision).
Proof.
  assert (Hstop : forall c (o : CheckedTrashMove TrashEntry), Forall reads c ->
    o = TargetChanged \/ (exists e, o = NotMoved e) -> trash_contract name expected revision o c)
    by (intros; by left).
  unfold checked_trash_move, pin_and_move, sys_statat, sys_openat, sys_fstat.
  eapply spec_bind; [apply open_parent_reads|]. intros [parent|error] c1 R1.
  2: { apply spec_ret, Hstop; [by rewrite app_nil_r|]. destruct (missing_kind error); eauto. }
  apply spec_bind_call. intros [st|e].
  2: { apply spec_ret, Hstop; [rewrite Forall_app; by repeat constructor|].
       destruct (missing_errno e); eauto. }
  spec_step; [apply spec_ret, Hstop; [rewrite Forall_app; by repeat constructor|auto]|].
  apply orb_false_iff in Heqb as [Hid Hrev]. bool_prop.
  apply spec_bind_call. intros [anchor|e].
  2: { apply spec_ret, Hstop; [rewrite Forall_app; by repeat constructor|].
       destruct (missing_errno e); eauto. }
  apply spec_bind_call. intros [opened|e].
  2: { apply spec_ret, Hstop; [rewrite Forall_app; by repeat constructor|eauto]. }
  apply spec_bind_call. intros [named|e].
  2: { apply spec_ret, Hstop; [rewrite Forall_app; by repeat constructor|].
       destruct (missing_errno e); eauto. }
  spec_step; [apply spec_ret, Hstop; [rewrite Forall_app; by repeat constructor|auto]|].
  rewrite orb_false_iff, !negb_false_iff, !bool_decide_eq_true in Heqb. destruct Heqb as [E1 E2].
  eapply spec_weaken; [apply (commit_trash_spec parent name anchor)|].
  intros outcome c (answer & after & -> & Ha & Ho). right.
  eexists (c1 ++ [_; _; _; _]), after, (op_fd parent), (op_name parent), anchor, answer.
  split; [by rewrite <-app_assoc|]. split; [rewrite Forall_app; by repeat constructor|].
  split; [done|]. split; [|done]. exists st. split_and!.
  - rewrite elem_of_app. right. right. left.
  - exists st. split; [|done]. rewrite elem_of_app. right. left.
  - exists opened, named. rewrite !elem_of_app. split_and!; [right; set_solver..|].
    unfold existing_of in *. congruence.
  - done.
  - intros seen ->. by bool_prop.
Qed.

(** Moving an entry to the trash renames it at most once, never over another
    entry, and only after the name and a pinned handle were both seen to be the
    object to delete.  [Moved] means that the rename succeeded, the trash name
    was seen to hold the pinned object and the directory reached the disk; the
    two answers on which the caller forgets its durable intent, [TargetChanged]
    and [NotMoved], mean that nothing moved. *)
Theorem trash_move_is_checked path name expected revision :
  spec (checked_trash_move sha256 fs path name expected revision)
    (trash_contract name expected revision).
Proof. apply checked_trash_move_spec. Qed.
End safety.

(** ** Places *)

(** Where a handle was opened: by a path from the root, by the name of an entry of
    another handle, or as a copy.  A place is the path that was used; symbolic links
    in it are the kernel's affair. *)
Section places.
Context {Env : Type} `{Os Env} (fs : RootedFs).

Definition place (path : bytes) : option (list component) :=
  match relative_path fs path with Ok relative => Some (components relative) | Err _ => None end.

Inductive opened_at (h : list SysCall) : Fd -> list component -> Prop :=
| at_root : opened_at h (rf_root fs) []
| at_dot flags mode fd : Openat (rf_root fs) dot flags mode BeneathRoot (Ok fd) ∈ h -> opened_at h fd []
| at_path relative flags mode fd :
    Openat (rf_root fs) relative flags mode BeneathRoot (Ok fd) ∈ h -> opened_at h fd (components relative)
| at_entry dir p name flags mode fd :
    opened_at h dir p -> Openat dir name flags mode Plain (Ok fd) ∈ h -> opened_at h fd (p ++ [Normal name])
| at_copy fd p copy : opened_at h fd p -> Dup fd (Ok copy) ∈ h -> opened_at h copy p.

Lemma opened_at_mono h h' fd p : h ⊆ h' -> opened_at h fd p -> opened_at h' fd p.
Proof.
  intros Hs. induction 1 as [|flags mode fd Hin|relative flags mode fd Hin|dir p name flags mode fd _ IH Hin|fd p copy _ IH Hin].
  - constructor.
  - eapply at_dot, Hs, Hin.
  - eapply at_path, Hs, Hin.
  - eapply at_entry; [exact IH|]. apply Hs, Hin.
  - eapply at_copy; [exact IH|]. apply Hs, Hin.
Qed.

Lemma relative_path_components path relative :
  relative_path fs path = Ok relative ->
  Forall is_name (components relative) /\ components path = components (rf_root_path fs) ++ components relative.
Proof.
  unfold relative_path. destruct (path_strip_prefix path (rf_root_path fs)) as [rel|] eqn:E; [|done].
  destruct (beqb rel [] || negb (forallb is_normal (components rel))) eqn:Hb; [done|]. intros [= <-].
  apply orb_false_iff in Hb as [Hne Hn%negb_false_iff]. split.
  - apply Forall_forall. intros c Hc. rewrite forallb_forall in Hn.
    specialize (Hn c ltac:(by apply list_elem_of_In)). destruct c; [done..|]. by eexists.
  - apply path_strip_prefix_components; [done|]. by apply beqb_false.
Qed.

Lemma place_components path p :
  place path = Some p -> Forall is_name p /\ components path = components (rf_root_path fs) ++ p.
Proof.
  unfold place. destruct (relative_path fs path) as [rel|] eqn:E; [|done]. intros [= <-]. by apply relative_path_components.
Qed.

Lemma place_not_root path p : place path = Some p -> p <> [].
Proof.
  unfold place, relative_path. destruct (path_strip_prefix path (rf_root_path fs)) as [rel|]; [|done].
  destruct (beqb rel []) eqn:E; [done|]. cbn. destruct (forallb is_normal (components rel)); [|done]. intros [= <-].
  by apply components_not_nil, beqb_false.
Qed.

Lemma place_unique path path' p p' :
  place path = Some p -> place path' = Some p' -> components path = components path' -> p = p'.
Proof.
  intros [_ H1]%place_components [_ H2]%place_components E. rewrite H1, H2 in E. by apply app_inv_head in E.
Qed.

Lemma opened_at_app h l fd p : opened_at h fd p -> opened_at (h ++ l) fd p.
Proof. apply opened_at_mono. set_solver. Qed.
Lemma opened_at_after h l fd p : opened_at l fd p -> opened_at (h ++ l) fd p.
Proof. apply opened_at_mono. set_solver. Qed.

(** The entry [name] of the handle [dir] is the one at [path]. *)
Definition entry_at (h : list SysCall) (dir : Fd) (name path : bytes) : Prop :=
  exists p, place path = Some (p ++ [Normal name]) /\ opened_at h dir p.

Lemma entry_at_mono h h' dir name path : h ⊆ h' -> entry_at h dir name path -> entry_at h' dir name path.
Proof. intros Hs (p & Hp & Ha). exists p. split; [done|]. by eapply opened_at_mono. Qed.

(** *** Opening directories *)

Lemma open_directory_at relative :
  spec (open_directory_from_root fs relative : Io Env _) (λ r l,
    Forall reads l /\ forall fd, r = Ok fd -> opened_at l fd (components relative)).
Proof.
  unfold open_directory_from_root, sys_openat.
  apply spec_bind_call. intros [fd|e]; apply spec_ret; (split; [by repeat constructor|]); [|done].
  intros ? [= <-]. destruct (beqb relative []) eqn:E; [apply beqb_true in E as ->; eapply at_dot|eapply at_path]; by left.
Qed.

Lemma push_not_empty p n : n <> [] -> path_push p n <> [].
Proof. unfold path_push. intros Hn. destruct (has_root n); [done|]. destruct (last p) as [c|] eqn:El; [|done]. destruct p; [done|]. by case_match. Qed.

Lemma open_ancestors_at rollback todo current prefix h :
  emits reads (rollback []) -> Forall is_name todo -> Forall tail_component todo ->
  opened_at h current (components prefix) ->
  spec (open_ancestors fs rollback false todo current prefix [] : Io Env _) (λ r l,
    Forall reads l /\ forall fd created, r = Ok (fd, created) ->
      created = [] /\ opened_at (h ++ l) fd (components prefix ++ todo)).
Proof.
  intros Hr Hn. revert current prefix h. induction Hn as [|c todo [n ->] Hn IH]; intros current prefix h Ht Ha;
    cbn [open_ancestors].
  { apply spec_ret. rewrite !app_nil_r. split; [constructor|]. by intros ? ? [= <- <-]. }
  apply Forall_cons in Ht as [Hc Ht].
  eapply spec_bind; [apply open_directory_at|]. intros [next|e] l [Hl Hat].
  - eapply spec_weaken; [apply (IH next (path_push prefix n) (h ++ l) Ht)|].
    + apply opened_at_after. by apply Hat.
    + intros r l' [Hl' Hok]. split; [by apply Forall_app|]. intros fd created E.
      destruct (Hok _ _ E) as [-> Ho]. split; [done|]. rewrite app_assoc.
      rewrite components_push_name, <-(app_assoc (components prefix)) in Ho by done. exact Ho.
  - rewrite andb_false_r. eapply spec_bind; [exact Hr|]. intros ? l' Hl'. apply spec_ret.
    split; [|done]. rewrite app_nil_r. by apply Forall_app.
Qed.

Lemma open_parent_with_at rollback path :
  emits reads (rollback []) ->
  spec (open_parent_with fs rollback path false : Io Env _) (λ r l,
    Forall reads l /\ forall parent, r = Ok parent -> entry_at l (op_fd parent) (op_name parent) path).
Proof.
  intros Hr. unfold open_parent_with, sys_dup. apply spec_attempt_ret; [intros relative Hrel|by split].
  apply spec_attempt_ret; [intros name Hn|by split].
  assert (path_file_name relative = Some name) as Hname by (destruct (path_file_name relative); cbn in Hn; congruence).
  destruct (relative_path_components _ _ Hrel) as [Hnames _].
  pose proof (parent_and_name _ _ Hname Hnames) as Hsplit.
  assert (Forall is_name (components (default [] (path_parent relative)))) as Hpn
    by (rewrite Hsplit, Forall_app in Hnames; tauto).
  apply spec_attempt_call; [intros current|by intros e; split; [repeat constructor|]].
  eapply spec_bind_ok.
  - apply (open_ancestors_at rollback _ current [] [Dup (rf_root fs) (Ok current)]); [done|done|by apply names_are_tails|].
    eapply at_copy; [apply at_root|by left].
  - intros [fd created] l [Hl Hok]. apply spec_ret. rewrite app_nil_r. split; [by constructor|]. intros parent [= <-]. cbn.
    destruct (Hok _ _ eq_refl) as [_ Ho]. exists (components (default [] (path_parent relative))).
    split; [|exact Ho]. unfold place. by rewrite Hrel, Hsplit.
  - intros e l [Hl _]. split; [by constructor|done].
Qed.

Lemma open_parent_at path :
  spec (open_parent_blocking fs path false : Io Env _) (λ r l,
    Forall reads l /\ forall parent, r = Ok parent -> entry_at l (op_fd parent) (op_name parent) path).
Proof. apply open_parent_with_at. apply emits_ret. Qed.

Lemma open_parent_existing_at path :
  spec (open_parent_existing fs path : Io Env _) (λ r l,
    Forall reads l /\ forall parent, r = Ok parent -> entry_at l (op_fd parent) (op_name parent) path).
Proof. apply open_parent_with_at. apply emits_ret. Qed.

(** *** Captured entries *)

(** The entry was captured at [path]: the name it had there was opened to pin it. *)
Definition captured (path : bytes) (te : TrashEntry) (l : list SysCall) : Prop :=
  entry_at l (te_parent te) (te_name te) path /\
  Openat (te_parent te) (te_name te) [PATH; NOFOLLOW; CLOEXEC] 0 Plain (Ok (te_root_anchor te)) ∈ l.

Lemma capture_at sha256 path directory :
  spec (capture_entry_for_purge sha256 fs path directory : Io Env _) (λ r l,
    Forall reads l /\ forall te, r = Ok (Some te) -> captured path te l /\ te_is_dir te = directory).
Proof.
  unfold capture_entry_for_purge, capture_entry_for_purge_with_type_blocking, sys_openat, sys_fstat, sys_statat.
  eapply spec_bind; [apply open_parent_at|]. intros [parent|error] c [Hc Hp].
  2: { destruct (missing_kind error); apply spec_ret; by rewrite app_nil_r. }
  specialize (Hp _ eq_refl).
  assert (Hk : forall c', Forall reads c' -> Forall reads (c ++ c')) by (intros; by apply Forall_app).
  apply spec_bind_call. intros [anchor|e]; [|destruct (e =? NOENT); apply spec_ret; (split; [|done]); apply Hk; by repeat constructor].
  apply spec_attempt_call; [intros opened|intros e; (split; [|done]); apply Hk; by repeat constructor].
  apply spec_bind_call. intros [named|e];
    [|destruct (e =? NOENT); apply spec_ret; (split; [|done]); apply Hk; by repeat constructor].
  destruct (negb _); [apply spec_ret; (split; [|done]); apply Hk; by repeat constructor|].
  destruct (negb (Bool.eqb _ _)) eqn:Hdir; [apply spec_ret; (split; [|done]); apply Hk; by repeat constructor|].
  apply spec_ret. split; [apply Hk; by repeat constructor|]. intros te [= <-]. split; [split|].
  - eapply entry_at_mono; [|exact Hp]. set_solver.
  - cbn. set_solver.
  - by apply negb_false_iff, Bool.eqb_prop in Hdir.
Qed.
End places.
