(* ===== verification/ResolvedPaths.v ===== *)
(** Resolved path keys ([resolved_path_key_blocking] of
    [src/src/server/rooted_fs.rs]): where a path leads now, as the identity of
    the deepest existing directory on its way, that directory's physical
    ancestry, and the names that remain. *)

From S2P Require Import Prelude Bytes StdPath Problem Revisions Listing PathKeys RootedOs RootedFs.
From stdpp Require Import base numbers list strings sets.

Local Open Scope Z_scope.

Definition MAX_DIRECTORY_ANCESTORS : nat := 4096.

Section resolve.
Context {Env : Type} `{Os Env} (fs : RootedFs).

Definition open_resolved_path_prefix (relative : bytes) : Io Env Fd := open_directory_from_root fs relative.

(** [while resolved_len + 1 < unresolved_len]; the interval at least halves. *)
Fixpoint search_prefix (fuel : nat) (names : list bytes) (resolved_len unresolved_len : nat)
    (resolved_parent : Fd) : Io Env (option (Fd * nat)) :=
  if (resolved_len + 1 <? unresolved_len)%nat then
    match fuel with
    | O => ok None
    | S fuel =>
        let candidate_len := (resolved_len + (unresolved_len - resolved_len) / 2)%nat in
        do opened <- open_resolved_path_prefix (path_from_components (take candidate_len names));
        match opened with
        | Ok directory => search_prefix fuel names candidate_len unresolved_len directory
        | Err error =>
            if unresolved_path_error error
            then search_prefix fuel names resolved_len candidate_len resolved_parent
            else fail error
        end
    end
  else ok (Some (resolved_parent, resolved_len)).

(** [None] would be a search that does not end. *)
Definition resolve_deepest_parent_prefix (names : list bytes) : Io Env (option (Fd * nat)) :=
  match names with
  | [] => attempt root <- io_of (sys_dup (rf_root fs)); ok (Some (root, 0%nat))
  | _ =>
      do opened <- open_resolved_path_prefix (path_from_components names);
      match opened with
      | Ok directory => ok (Some (directory, length names))
      | Err error =>
          if unresolved_path_error error then
            attempt root <- io_of (sys_dup (rf_root fs));
            search_prefix (length names) names 0 (length names) root
          else fail error
      end
  end.

(** [for _ in 0..MAX_DIRECTORY_ANCESTORS]; [reversed] is the vector reversed. *)
Fixpoint ancestry_loop (rounds : nat) (current : Fd) (found : list FileIdentity)
    : Io Env (list FileIdentity) :=
  match rounds with
  | O => fail (io_new InvalidData (bs "resolved directory ancestry exceeds the safety limit"))
  | S rounds =>
      attempt stat <- io_of (sys_fstat current);
      let found := stat_identity stat :: found in
      if bool_decide (stat_identity stat = rf_root_identity fs) then ok found
      else
        attempt parent <-
          io_of (sys_openat current dotdot [PATH; DIRECTORY; NOFOLLOW; CLOEXEC] 0 Plain);
        attempt parent_stat <- io_of (sys_fstat parent);
        if (st_dev parent_stat =? st_dev stat) && (st_ino parent_stat =? st_ino stat) then
          fail (io_new PermissionDenied
            (bs "resolved directory ancestry does not reach the shared root"))
        else ancestry_loop rounds parent found
  end.

Definition directory_ancestry_from_root (directory : Fd) : Io Env (list FileIdentity) :=
  attempt current <- io_of (sys_dup directory);
  ancestry_loop MAX_DIRECTORY_ANCESTORS current [].

(** The names of the components; a component that is no name is an error. *)
Fixpoint component_names (l : list component) : result IoError (list bytes) :=
  match l with
  | [] => Ok []
  | Normal value :: l => names ← component_names l; Ok (value :: names)
  | _ :: _ => Err (io_new InvalidInput (bs "path contains a non-normal component"))
  end.

(** The directory the final name is, if the parent resolved completely. *)
Definition target_directory_of (resolved_parent : Fd) (final_name : bytes)
    : Io Env (option FileIdentity) :=
  do found <- sys_statat resolved_parent final_name;
  match found with
  | Ok stat =>
      if bool_decide (from_raw_mode (st_mode stat) = Directory) then
        attempt directory <- io_of (sys_openat resolved_parent final_name
                                      [PATH; DIRECTORY; NOFOLLOW; CLOEXEC] 0 Plain);
        attempt metadata <- sys_file_metadata directory;
        ok (Some (mkFile (md_dev metadata) (md_ino metadata)))
      else ok None
  | Err e => if e =? NOENT then ok None else fail (errno_io e)
  end.

(** [None] is a failed [expect]. *)
Definition resolved_path_key_blocking (path : bytes) : Io Env (option ResolvedPathKey) :=
  attempt relative <- ret (relative_path fs path);
  attempt names <- ret (component_names (components relative));
  attempt final_name <- ret (ok_or (last names) (io_other (bs "the shared root has no entry key")));
  let parent_components := take (length names - 1) names in
  attempt resolved <- resolve_deepest_parent_prefix parent_components;
  match resolved with
  | None => ok None
  | Some (resolved_parent, resolved_components) =>
      let resolving_directories := Nat.eqb resolved_components (length parent_components) in
      let unresolved_tail := drop resolved_components names in
      attempt ancestor_directories <- directory_ancestry_from_root resolved_parent;
      match last ancestor_directories with
      | None => ok None
      | Some resolved_parent_identity =>
          attempt target_directory <-
            (if resolving_directories then target_directory_of resolved_parent final_name else ok None);
          ok (Some (mkResolved resolved_parent_identity unresolved_tail ancestor_directories target_directory))
      end
  end.
End resolve.

(** ** The search for the deepest prefix *)

Section search_facts.
Context {Env : Type} `{Os Env} (fs : RootedFs).

Definition is_open (c : SysCall) : bool := match c with Openat _ _ _ _ _ _ => true | _ => false end.
Definition probes (calls : list SysCall) : nat := length (List.filter is_open calls).

Lemma probes_app a b : probes (a ++ b) = (probes a + probes b)%nat.
Proof. unfold probes. by rewrite List.filter_app, length_app. Qed.

Lemma open_prefix_spec relative :
  spec (open_resolved_path_prefix fs relative) (λ r calls, exists answer,
    calls = [Openat (rf_root fs) (if beqb relative [] then dot else relative)
               [RDONLY; DIRECTORY; CLOEXEC] 0 BeneathRoot answer] /\
    r = match answer with Ok fd => Ok fd | Err e => Err (errno_io e) end).
Proof.
  unfold open_resolved_path_prefix, open_directory_from_root, sys_openat, io_of.
  apply spec_bind_call. intros a. apply spec_ret. by exists a.
Qed.

(** The midpoint of an interval of length at least two. *)
Lemma midpoint lo hi : (lo + 1 < hi)%nat ->
  (lo < lo + (hi - lo) / 2 < hi)%nat /\
  forall k, (hi - lo <= 2 ^ S k)%nat ->
    (lo + (hi - lo) / 2 - lo <= 2 ^ k)%nat /\ (hi - (lo + (hi - lo) / 2) <= 2 ^ k)%nat.
Proof.
  intros Hlt. pose proof (Nat.div_mod (hi - lo) 2 ltac:(lia)) as Hd.
  pose proof (Nat.mod_upper_bound (hi - lo) 2 ltac:(lia)) as Hm.
  split; [lia|]. intros k Hk. rewrite Nat.pow_succ_r' in Hk. lia.
Qed.

(** The search always ends, after logarithmically many probes. *)
Lemma search_prefix_spec fuel names lo hi parent k :
  (lo < hi)%nat -> (hi - lo <= S fuel)%nat -> (hi - lo <= 2 ^ k)%nat ->
  spec (search_prefix fs fuel names lo hi parent) (λ r calls,
    (probes calls <= k)%nat /\
    match r with Ok (Some (_, len)) => (lo <= len < hi)%nat | Ok None => False | Err _ => True end).
Proof.
  revert lo hi parent k. induction fuel as [|fuel IH]; intros lo hi parent k Hlt Hf Hk;
    cbn [search_prefix]; destruct (Nat.ltb_spec (lo + 1) hi) as [Hgap|Hgap].
  - lia.
  - apply spec_ret. unfold probes. cbn. lia.
  - destruct (midpoint lo hi Hgap) as [Hmid Hhalf].
    destruct k as [|k]; [cbn in Hk; lia|]. destruct (Hhalf k Hk) as [Hl Hr].
    eapply spec_bind; [apply open_prefix_spec|].
    intros r calls (answer & -> & ->). destruct answer as [fd|e].
    + eapply spec_weaken; [apply (IH _ _ _ k); lia|]. intros r c [Hp Hc]. rewrite probes_app.
      unfold probes at 1. cbn. split; [lia|]. destruct r as [[[? ?]|]|]; try done. lia.
    + spec_step.
      * eapply spec_weaken; [apply (IH _ _ _ k); lia|]. intros r c [Hp Hc]. rewrite probes_app.
        unfold probes at 1. cbn. split; [lia|]. destruct r as [[[? ?]|]|]; try done. lia.
      * apply spec_ret. unfold probes. cbn. lia.
  - apply spec_ret. unfold probes. cbn. lia.
Qed.

Lemma resolve_deepest_spec names :
  spec (resolve_deepest_parent_prefix fs names) (λ r calls,
    (probes calls <= 1 + Nat.log2_up (length names))%nat /\
    match r with Ok (Some (_, len)) => (len <= length names)%nat | Ok None => False | Err _ => True end).
Proof.
  unfold resolve_deepest_parent_prefix, sys_dup. destruct names as [|n names].
  { apply spec_attempt_call; [intros a; apply spec_ret; cbn; lia|cbn; lia]. }
  eapply spec_bind; [apply open_prefix_spec|]. intros r calls (answer & -> & ->). destruct answer as [fd|e].
  { apply spec_ret. unfold probes. cbn. lia. }
  spec_step; [|apply spec_ret; unfold probes; cbn; lia].
  apply spec_attempt_call; [|intros ?; unfold probes; cbn; lia]. intros root.
  eapply spec_weaken; [apply (search_prefix_spec _ _ _ _ _ (Nat.log2_up (length (n :: names))))|].
  - cbn. lia.
  - lia.
  - rewrite Nat.sub_0_r. destruct names as [|m names]; [cbn; lia|].
    apply Nat.log2_up_spec. cbn. lia.
  - intros r c [Hp Hr]. split; [unfold probes in *; cbn [app List.filter is_open length] in *; lia|].
    destruct r as [[[? ?]|]|]; try done. lia.
Qed.

Lemma ancestry_spec rounds current found :
  spec (ancestry_loop fs rounds current found) (λ r calls,
    match r with
    | Ok l => exists k, l = k ++ found /\ head l = Some (rf_root_identity fs) /\
        (0 < length k <= rounds)%nat /\
        exists st, Fstat current (Ok st) ∈ calls /\ last k = Some (stat_identity st)
    | Err _ => True
    end).
Proof.
  revert current found. induction rounds as [|rounds IH]; intros current found; cbn [ancestry_loop];
    [by apply spec_ret|]. unfold sys_fstat at 1. apply spec_attempt_call; [|done]. intros st.
  spec_step.
  - bool_prop. apply spec_ret. exists [stat_identity st]. cbn. split_and!; [done|by f_equal|lia|lia|].
    exists st. split; [set_solver|done].
  - unfold sys_openat. apply spec_attempt_call; [|done]. intros parent. unfold sys_fstat at 1.
    apply spec_attempt_call; [|done]. intros pst. spec_step; [by apply spec_ret|].
    eapply spec_weaken; [apply IH|]. intros [l|e] c Hr; [|done].
    destruct Hr as (k & -> & Hhd & Hk & st' & Hst' & Hlast).
    exists (k ++ [stat_identity st]). split; [by rewrite <-app_assoc|]. split; [done|].
    rewrite length_app. cbn [length]. split; [lia|]. exists st. split; [set_solver|].
    by rewrite last_snoc.
Qed.

Lemma directory_ancestry_spec directory :
  spec (directory_ancestry_from_root fs directory) (λ r _,
    match r with
    | Ok l => head l = Some (rf_root_identity fs) /\ (0 < length l <= MAX_DIRECTORY_ANCESTORS)%nat
    | Err _ => True
    end).
Proof.
  unfold directory_ancestry_from_root, sys_dup. apply spec_attempt_call; [|done]. intros current.
  eapply spec_weaken; [apply ancestry_spec|]. intros [l|e] c Hr; [|done].
  destruct Hr as (k & -> & Hhd & Hk & _). by rewrite app_nil_r in *.
Qed.

Lemma component_names_ok l names : component_names l = Ok names -> l = Normal <$> names.
Proof.
  revert names. induction l as [|[| | |n] l IH]; intros names; cbn; try done; [by intros [= <-]|].
  destruct (component_names l) as [k|] eqn:E; cbn; [|done]. intros [= <-]. cbn. f_equal. by apply IH.
Qed.

Lemma target_directory_spec parent name :
  spec (target_directory_of parent name) (λ r calls, True).
Proof.
  unfold target_directory_of, sys_statat, sys_openat. repeat spec_step; try done.
  intros. eapply spec_bind_ok; [by apply (spec_call _ _ (λ _ _, True))| |done]. intros. by apply spec_ret.
Qed.

(** Whatever the file system does meanwhile, resolving a path ends with an
    error or with a key whose ancestry starts at the shared root, ends at the
    directory the remaining names are relative to, and has at most 4096 levels;
    the remaining names are a non-empty suffix of the path's, and they are the
    final name alone whenever a target directory is recorded. *)
Theorem resolved_key_is_anchored path :
  spec (resolved_path_key_blocking fs path) (λ r calls,
    match r with
    | Err _ => True
    | Ok None => False
    | Ok (Some key) =>
        exists relative names k,
          relative_path fs path = Ok relative /\ components relative = Normal <$> names /\
          unresolved_tail key = drop k names /\ (k < length names)%nat /\
          head (ancestor_directories key) = Some (rf_root_identity fs) /\
          last (ancestor_directories key) = Some (resolved_parent key) /\
          (length (ancestor_directories key) <= MAX_DIRECTORY_ANCESTORS)%nat /\
          (target_directory key <> None -> exists name, unresolved_tail key = [name])
    end).
Proof.
  unfold resolved_path_key_blocking. apply spec_attempt_ret; [|done]. intros relative Hrel.
  apply spec_attempt_ret; [|done]. intros names Hnames%component_names_ok.
  apply spec_attempt_ret; [|done]. intros final_name Hfinal.
  assert (Hne : names <> []) by (intros ->; done).
  assert (Hlen : (0 < length names)%nat) by (destruct names; cbn; [done|lia]).
  eapply spec_bind_ok; [apply resolve_deepest_spec| |done]. intros [[parent len]|] c [Hp Hlen']; [|done].
  rewrite length_take in Hlen'. eapply spec_bind_ok; [apply directory_ancestry_spec| |done].
  intros l c' [Hhd Hl]. destruct (last l) as [parent_identity|] eqn:Hlast.
  2: { apply last_None in Hlast. subst l. cbn in Hl. lia. }
  assert (Hdone : forall target,
    (target <> None -> Nat.eqb len (length (take (length names - 1) names)) = true) ->
    exists relative0 names0 k,
      relative_path fs path = Ok relative0 /\ components relative0 = Normal <$> names0 /\
      unresolved_tail (mkResolved parent_identity (drop len names) l target) = drop k names0 /\
      (k < length names0)%nat /\ head l = Some (rf_root_identity fs) /\
      last l = Some parent_identity /\ (length l <= MAX_DIRECTORY_ANCESTORS)%nat /\
      (target <> None -> exists name, drop len names = [name])).
  { intros target Ht. exists relative, names, len. split_and!; try done; try lia.
    intros Hn. specialize (Ht Hn). rewrite Nat.eqb_eq, length_take in Ht.
    assert (length (drop len names) = 1%nat) as H1' by (rewrite length_drop; lia).
    destruct (drop len names) as [|x [|? ?]]; cbn in H1'; try lia. by exists x. }
  eapply (spec_bind_ok _ _ (λ r _, match r with
    | Ok target => target <> None -> Nat.eqb len (length (take (length names - 1) names)) = true
    | Err _ => True end)); [| |done].
  - destruct (Nat.eqb _ _) eqn:E; [|by apply spec_ret].
    eapply spec_weaken; [apply target_directory_spec|]. by intros [t|e] _ _.
  - intros target c'' Ht. apply spec_ret. by apply Hdone.
Qed.
End search_facts.

(** ** The search on a file system that stands still *)

(** The linear search: the largest [k] up to [n] that opens, or zero. *)
Fixpoint deepest (opens : nat -> bool) (n : nat) : nat :=
  match n with
  | O => 0
  | S m => if opens n then n else deepest opens m
  end.

Lemma deepest_unique opens n k :
  (k <= n)%nat -> (k = 0%nat \/ opens k = true) ->
  (forall j, (k < j <= n)%nat -> opens j = false) -> deepest opens n = k.
Proof.
  intros Hk Ho Habove. induction n as [|n IH]; cbn; [lia|].
  destruct (decide (k = S n)) as [->|Hne].
  - destruct Ho as [Ho| ->]; [lia|done].
  - rewrite Habove by lia. apply IH; [lia|]. intros j Hj. apply Habove. lia.
Qed.

Section standing_still.
Context {Env : Type} `{Os Env} (fs : RootedFs) (names : list bytes).
(** The answer to opening a directory, and the copy of the root handle. *)
Context (answer : bytes -> result Errno Fd) (root_copy : Fd).

Definition prefix_answer (k : nat) : result Errno Fd :=
  let p := path_from_components (take k names) in answer (if beqb p [] then dot else p).
Definition prefix_opens (k : nat) : bool :=
  match prefix_answer k with Ok _ => true | Err _ => false end.

(** The kernel gives those answers whenever it is asked. *)
Class StandsStill : Prop := {
  still_open p env :
    (os_openat (rf_root fs) p [RDONLY; DIRECTORY; CLOEXEC] 0 BeneathRoot env).1 = answer p;
  still_dup env : (os_dup (rf_root fs) env).1 = Ok root_copy;
  (** a directory opens only if those on the way to it do *)
  still_mono j k : (0 < j <= k)%nat -> (k <= length names)%nat -> prefix_opens k = true -> prefix_opens j = true;
  (** what does not open is missing or may not be entered *)
  still_errors k e : prefix_answer k = Err e -> unresolved_path_error (errno_io e) = true
}.

Definition prefix_fd (k : nat) : Fd :=
  if Nat.eqb k 0 then root_copy else match prefix_answer k with Ok fd => fd | Err _ => root_copy end.

Context `{!StandsStill}.

Lemma open_prefix_still k w :
  (open_resolved_path_prefix fs (path_from_components (take k names)) w).1 =
  match prefix_answer k with Ok fd => Ok fd | Err e => Err (errno_io e) end.
Proof.
  unfold open_resolved_path_prefix, open_directory_from_root, io_of, bind, sys_openat, syscall, prefix_answer.
  cbv zeta. set (p := if beqb _ _ then _ else _). pose proof (still_open p (w_env w)) as Ho.
  destruct (os_openat _ _ _ _ _ _) as [a env]. cbn in *. by subst a.
Qed.

Lemma search_still fuel lo hi w :
  (lo < hi <= length names)%nat -> (hi - lo <= S fuel)%nat ->
  (lo = 0%nat \/ prefix_opens lo = true) -> prefix_opens hi = false ->
  (search_prefix fs fuel names lo hi (prefix_fd lo) w).1 =
  let k := deepest prefix_opens (length names) in Ok (Some (prefix_fd k, k)).
Proof.
  revert lo hi w. induction fuel as [|fuel IH]; intros lo hi w Hlt Hf Hlo Hhi;
    cbn [search_prefix]; destruct (Nat.ltb_spec (lo + 1) hi) as [Hgap|Hgap].
  1: lia.
  2: destruct (midpoint lo hi Hgap) as [Hmid _]; set (mid := (lo + (hi - lo) / 2)%nat) in *;
     pose proof (open_prefix_still mid w) as Ho; unfold bind;
     destruct (open_resolved_path_prefix _ _ w) as [r w']; cbn in Ho; subst r;
     destruct (prefix_answer mid) as [fd|e] eqn:Ea.
  2: { replace fd with (prefix_fd mid); [apply IH; [lia|lia| |done]|].
       - right. unfold prefix_opens. by rewrite Ea.
       - unfold prefix_fd. rewrite Ea. destruct (Nat.eqb_spec mid 0); [lia|done]. }
  2: { rewrite (still_errors mid e Ea). apply IH; [lia|lia|done|]. unfold prefix_opens. by rewrite Ea. }
  all: cbn; rewrite (deepest_unique _ (length names) lo); [done|lia|done|];
    intros j Hj; destruct (prefix_opens j) eqn:Ej; [|done];
    (enough (prefix_opens hi = true) by congruence); apply (still_mono hi j); [lia|lia|done].
Qed.

(** On a file system that stands still, and whose missing or forbidden
    directories are the only ones that do not open, the binary search returns
    exactly what a linear search from the full path upwards returns: the longest
    prefix that opens, with its handle (the root's own when none does). *)
Theorem deepest_prefix_is_found w :
  (resolve_deepest_parent_prefix fs names w).1 =
  let k := deepest prefix_opens (length names) in Ok (Some (prefix_fd k, k)).
Proof.
  unfold resolve_deepest_parent_prefix. destruct (decide (names = [])) as [Hn|Hn].
  - rewrite Hn. unfold sys_dup, io_of, bind_ok, bind, syscall. pose proof (still_dup (w_env w)) as Hd.
    destruct (os_dup _ _) as [a env]. cbn in *. by subst a.
  - destruct names as [|n rest] eqn:En; [done|]. rewrite <-En in *. rewrite En at 1. cbv zeta. rewrite <-?En.
    pose proof (open_prefix_still (length names) w) as Ho. rewrite take_ge in Ho by lia.
    unfold bind at 1. destruct (open_resolved_path_prefix _ _ w) as [r w1]. cbn in Ho. subst r.
    destruct (prefix_answer (length names)) as [fd|e] eqn:Ea.
    + rewrite (deepest_unique _ (length names) (length names)); [|lia| |lia].
      * cbn. unfold prefix_fd. rewrite Ea. 
        destruct (Nat.eqb_spec (length names) 0) as [E|E]; [rewrite En in E; cbn in E; lia|done].
      * right. unfold prefix_opens. by rewrite Ea.
    + rewrite (still_errors _ e Ea). unfold sys_dup, io_of, bind_ok, bind, syscall.
      pose proof (still_dup (w_env w1)) as Hd. destruct (os_dup _ _) as [a env]. cbn in Hd. subst a. cbn [ret].
      apply (search_still (length names) 0 (length names)); [rewrite En; cbn; lia|lia|by left|].
      unfold prefix_opens. by rewrite Ea.
Qed.
End standing_still.

(** ** A kernel with the directories [a] and [a/b] *)

Definition demo_answer (p : bytes) : result Errno Fd :=
  if beqb p (bs "a") then Ok 10 else if beqb p (bs "a/b") then Ok 11 else Err NOENT.

#[local] Instance demo_os : Os unit := {|
  os_openat _ p _ _ _ env := (demo_answer p, env);
  os_dup _ env := (Ok 9, env);
  os_fstat _ env := (Err NOENT, env);
  os_file_metadata _ env := (Err (io_other []), env);
  os_statat _ _ env := (Err NOENT, env);
  os_mkdirat _ _ _ env := (Err PERM, env);
  os_unlinkat _ _ _ env := (Err PERM, env);
  os_renameat _ _ _ _ _ env := (Err PERM, env);
  os_fsync _ env := (Ok tt, env);
  os_fchmod _ _ env := (Err PERM, env);
  os_read_dir _ _ env := (Ok [], env);
  os_interrupted env := (false, env);
  os_deadline env := (false, env);
  os_new_uuid env := ([], env);
  os_strerror _ := [];
  os_path_display p := p;
  os_kind_name _ := []
|}.

Definition demo_fs : RootedFs := mkRooted 3 (mkFile 1 2) (bs "/srv").
Definition demo_names : list bytes := [bs "a"; bs "b"; bs "c"; bs "d"].

#[local] Instance demo_still : StandsStill demo_fs demo_names demo_answer 9.
Proof.
  constructor; try done.
  - intros j k Hjk Hk. cbn in Hk.
    do 5 (destruct k as [|k]; [do 5 (destruct j as [|j]; [try lia; by vm_compute|]); lia|]). lia.
  - intros k e. unfold prefix_answer, demo_answer. repeat case_match; by intros [= <-].
Qed.

Lemma deepest_prefix_is_found_witness :
  (resolve_deepest_parent_prefix demo_fs demo_names (mkWorld tt [])).1 = Ok (Some (11, 2%nat)).
Proof.
  exact (deepest_prefix_is_found demo_fs demo_names demo_answer 9 (mkWorld tt [])).
Defined.
