(* ===== verification/StageFiles.v ===== *)
(** The private files behind an upload ([src/src/server/rooted_fs.rs],
    [src/src/server/storage.rs]): the owner-only staging directory and the stage
    in it, the attributes of the file an upload replaces, and the durable
    publication of a stage. *)

From S2P Require Import Prelude Bytes StdPath Utils StoreModel UuidText InternalNames Problem Revisions Listing PathKeys RootedOs RootedFs.
From stdpp Require Import base numbers list strings.
From Stdlib Require Import Ascii.

Local Open Scope Z_scope.

Definition XATTR_LIST_LIMIT : Z := 64 * 1024.
Definition XATTR_VALUE_LIMIT : Z := 64 * 1024.
Definition XATTR_TOTAL_LIMIT : Z := 1024 * 1024.
Definition XATTR_COUNT_LIMIT : Z := 1024.

Definition Unsupported : IoErrorKind := OtherKind (bs "Unsupported").
Definition OutOfMemory : IoErrorKind := OtherKind (bs "OutOfMemory").

Record PreservedFileMetadata := mkPreserved {
  pm_uid : Z;
  pm_gid : Z;
  pm_mode : Z;
  pm_xattrs : list (bytes * bytes)
}.

Record ReplacementTarget := mkTarget {
  rt_identity : ReplacementTargetIdentity;
  rt_metadata : option PreservedFileMetadata
}.

Inductive PrivateUploadStageValidation := StageMissing | StagePresent | IdentityMismatch.

Inductive ExpectedUploadStage := ExpectedMissing | ExpectedMatch (file : Fd) | ExpectedMismatch.

Definition is_privileged_xattr (name : bytes) : bool :=
  match str_strip_prefix (bs "security.") name with
  | Some _ => true
  | None => match str_strip_prefix (bs "trusted.") name with Some _ => true | None => false end
  end.

Definition is_posix_access_acl (name : bytes) : bool := beqb name (bs "system.posix_acl_access").

(** [split_inclusive(|byte| byte == 0)]: each piece keeps its terminator. *)
Fixpoint split_inclusive (separator : ascii) (s piece : bytes) : list bytes :=
  match s with
  | [] => if beqb piece [] then [] else [piece]
  | c :: s =>
      if bool_decide (c = separator) then (piece ++ [c]) :: split_inclusive separator s []
      else split_inclusive separator s (piece ++ [c])
  end.

Section stages.
Context {Env : Type} `{Os Env} `{FileOs Env} `{UuidLib} (fs : RootedFs).

(** The bytes of a vector of [count] attributes, as the allocator gave it. *)
Context (attributes_bytes : Z -> option Z).

(** ** Extended attributes *)

Definition invalid_xattrs {A} (text : bytes) : Io Env A := fail (io_new InvalidData text).

Fixpoint read_xattr_values (file : Fd) (names : list bytes) (total : Z) (attributes : list (bytes * bytes))
    : Io Env (list (bytes * bytes)) :=
  match names with
  | [] => ok attributes
  | raw_name :: names =>
      match last raw_name with
      | None => read_xattr_values file names total attributes
      | Some terminator =>
          if negb (bool_decide (terminator = nul_byte))
          then invalid_xattrs (bs "filesystem returned an unterminated extended-attribute name")
          else
            let name := take (length raw_name - 1) raw_name in
            attempt value_len <- io_of (sys_xattr_size file name);
            if XATTR_VALUE_LIMIT <? value_len
            then invalid_xattrs (bs "target extended-attribute value exceeds the preservation budget")
            else
              let entry_bytes := Z.min (blen raw_name + value_len) usize_max in
              let total := total + entry_bytes in
              if usize_max <? total then invalid_xattrs (bs "extended-attribute size overflow")
              else if XATTR_TOTAL_LIMIT <? total
              then invalid_xattrs (bs "target extended attributes exceed the preservation budget")
              else
                attempt value <- io_of (sys_get_xattr file name value_len);
                read_xattr_values file names total (attributes ++ [(name, take (Z.to_nat value_len) value)])
      end
  end.

Definition read_all_xattrs (file : Fd) : Io Env (list (bytes * bytes)) :=
  attempt names <- io_of (sys_list_xattr file);
  let name_count := Z.of_nat (length (filter (λ c, c = nul_byte) names)) in
  if XATTR_COUNT_LIMIT <? name_count
  then invalid_xattrs (bs "target has too many extended attributes to preserve")
  else
    match attributes_bytes name_count with
    | None => fail (io_new OutOfMemory (bs "unable to allocate the extended-attribute index"))
    | Some total => read_xattr_values file (split_inclusive nul_byte names []) total []
    end.

Definition set_all_xattrs (file : Fd) : list (bytes * bytes) -> Io Env unit :=
  fix go xattrs :=
    match xattrs with
    | [] => ok tt
    | (name, value) :: xattrs => attempt _ <- io_of (sys_set_xattr file name value); go xattrs
    end.

Definition remove_other_xattrs (file : Fd) (preserved : list (bytes * bytes)) : list (bytes * bytes) -> Io Env unit :=
  fix go present :=
    match present with
    | [] => ok tt
    | (name, _) :: present =>
        if existsb (λ p, beqb p.1 name) preserved then go present
        else attempt _ <- io_of (sys_remove_xattr file name); go present
    end.

Definition apply_file_metadata (file : Fd) (metadata : PreservedFileMetadata) : Io Env unit :=
  attempt current <- io_of (sys_fstat file);
  attempt _ <-
    (if negb (st_uid current =? pm_uid metadata) || negb (st_gid current =? pm_gid metadata)
     then io_of (sys_fchown file (pm_uid metadata) (pm_gid metadata))
     else ok tt);
  attempt present <- read_all_xattrs file;
  attempt _ <- remove_other_xattrs file (pm_xattrs metadata) present;
  attempt _ <- set_all_xattrs file
    (List.filter (λ p, negb (is_posix_access_acl p.1)) (pm_xattrs metadata));
  attempt _ <-
    (match List.find (λ p, is_posix_access_acl p.1) (pm_xattrs metadata) with
     | Some (name, value) => io_of (sys_set_xattr file name value)
     | None => ok tt
     end);
  io_of (sys_fchmod file (Z.land (pm_mode metadata) 4095)).

Definition apply_replacement_metadata (file : Fd) (metadata : PreservedFileMetadata) : Io Env unit :=
  attempt fd <- io_of (sys_dup file);
  apply_file_metadata fd metadata.

(** What is kept of the file an upload replaces. *)
Definition replacement_metadata (path : bytes) : Io Env ReplacementTarget :=
  attempt relative <- ret (relative_path fs path);
  attempt inspected <- replacement_identity_blocking fs path;
  match inspected with
  | Missing => ok (mkTarget Missing None)
  | Existing found =>
      match et_file_type found with
      | Symlink => ok (mkTarget (Existing found) None)
      | RegularFile =>
          if negb (Z.land (et_mode found) 3072 =? 0)
          then fail (io_new Unsupported (bs
            "refusing to preserve set-user-ID or set-group-ID mode bits while replacing a file"))
          else
            do opened <- sys_openat (rf_root fs) relative [RDONLY; NONBLOCK; NOFOLLOW; CLOEXEC] 0 BeneathRoot;
            match opened with
            | Err e =>
                fail (io_new InvalidData (bs "target changed while preserving metadata: " ++ os_strerror e))
            | Ok fd =>
                attempt opened <- io_of (sys_fstat fd);
                if negb (bool_decide (replacement_target_identity opened = found))
                then fail (io_new InvalidData (bs "target changed while preserving metadata"))
                else if negb (et_links found =? 1)
                then fail (io_new Unsupported (bs
                  "refusing to replace a hard-linked file because inode identity cannot be preserved"))
                else
                  attempt xattrs <- read_all_xattrs fd;
                  if existsb (λ p, is_privileged_xattr p.1) xattrs
                  then fail (io_new Unsupported (bs
                    "refusing to preserve a privileged extended attribute while replacing a file"))
                  else
                    attempt captured <- io_of (sys_fstat fd);
                    if negb (bool_decide (replacement_target_identity captured = found))
                    then fail (io_new InvalidData (bs "target changed while preserving metadata"))
                    else
                      ok (mkTarget (Existing found)
                        (Some (mkPreserved (st_uid captured) (st_gid captured) (st_mode captured) xattrs)))
            end
      | _ => fail (io_new Unsupported (bs "refusing to replace a non-regular filesystem object"))
      end
  end.

(** ** The staging directory *)

Definition validated_upload_stage_path (path : bytes) : result IoError (bytes * bytes) :=
  _ ← relative_path fs path;
  directory ← ok_or (upload_stage_directory path)
    (io_new InvalidInput (bs "upload stage is not inside the reserved private directory"));
  name ← ok_or (path_file_name path) (io_new InvalidInput (bs "upload stage has no file name"));
  if negb (is_utf8 name && is_upload_stage_name name)
  then Err (io_new InvalidInput (bs "upload stage file name is not canonical"))
  else Ok (directory, name).

Definition stat_is (kind : FileType) (s : Stat) : bool := bool_decide (from_raw_mode (st_mode s) = kind).
Definition permissions (s : Stat) : Z := Z.land (st_mode s) 4095.

Definition open_upload_stage_directory_at (parent : Fd) (name : bytes) (repair_mode : bool) : Io Env Fd :=
  attempt directory <- io_of (sys_openat parent name [RDONLY; DIRECTORY; NOFOLLOW; CLOEXEC] 0 Plain);
  attempt parent_stat <- io_of (sys_fstat parent);
  attempt opened <- io_of (sys_fstat directory);
  if negb (stat_is Directory parent_stat) || negb (stat_is Directory opened) ||
     negb (st_uid opened =? os_euid) || negb (st_dev opened =? st_dev parent_stat)
  then fail (io_new InvalidData (bs
    "upload staging directory is not an euid-owned directory on the target parent's filesystem"))
  else
    attempt opened <-
      (if repair_mode && negb (permissions opened =? 448) then
         attempt _ <- io_of (sys_fchmod directory 448);
         attempt _ <- io_of (sys_fsync directory);
         io_of (sys_fstat directory)
       else ok opened);
    attempt named <- io_of (sys_statat parent name);
    if negb (stat_is Directory opened) || negb (st_uid opened =? os_euid) ||
       negb (st_dev opened =? st_dev parent_stat) || negb (permissions opened =? 448) ||
       negb (st_dev named =? st_dev opened) || negb (st_ino named =? st_ino opened) ||
       negb (stat_is Directory named)
    then fail (io_new InvalidData (bs "upload staging directory failed its private identity check"))
    else ok directory.

Definition open_private_upload_stage_directory_at (parent : Fd) (name : bytes) : Io Env Fd :=
  open_upload_stage_directory_at parent name false.

(** [let _ = unlinkat(parent, name, REMOVEDIR); let _ = fsync(parent)]. *)
Definition undo_directory (created : bool) (parent : Fd) (name : bytes) : Sys Env unit :=
  if created then
    do _ <- sys_unlinkat parent name true;
    do _ <- sys_fsync parent;
    ret tt
  else ret tt.

Definition ensure_private_upload_stage_directory_at (parent : Fd) (name : bytes)
    : Io Env (Fd * option FileIdentity) :=
  do made <- sys_mkdirat parent name 448;
  attempt created <-
    ret (match made with
         | Ok _ => Ok true
         | Err e => if e =? EXIST then Ok false else Err (errno_io e)
         end);
  do result <- open_upload_stage_directory_at parent name true;
  match result with
  | Err error => do _ <- undo_directory created parent name; fail error
  | Ok directory =>
      do found <- sys_fstat directory;
      match found with
      | Err error => do _ <- undo_directory created parent name; fail (errno_io error)
      | Ok stat =>
          if created then
            do synced <- sys_fsync directory;
            do synced <- (match synced with Ok _ => sys_fsync parent | Err e => ret (Err e) end);
            match synced with
            | Err error => do _ <- undo_directory true parent name; fail (errno_io error)
            | Ok _ => ok (directory, Some (stat_identity stat))
            end
          else ok (directory, None)
      end
  end.

(** The new stage is private: the closure [prepare_result]. *)
Definition prepare_stage (fd : Fd) : Io Env unit :=
  attempt _ <- io_of (sys_fchmod fd 384);
  attempt stat <- io_of (sys_fstat fd);
  if negb (stat_is RegularFile stat) || negb (st_nlink stat =? 1) || negb (st_uid stat =? os_euid) ||
     negb (permissions stat =? 384)
  then fail (io_new InvalidData (bs "new upload stage is not a private single-link regular file"))
  else ok tt.

Definition create_private_upload_stage (path : bytes) : Io Env (Fd * list CreatedAncestor) :=
  attempt (stage_directory_path, stage_name) <- ret (validated_upload_stage_path path);
  attempt parent <- open_parent_blocking fs stage_directory_path true;
  do ensured <- ensure_private_upload_stage_directory_at (op_fd parent) (op_name parent);
  match ensured with
  | Err error =>
      do _ <- rollback_created_ancestors_blocking fs (op_created_ancestors parent);
      fail error
  | Ok (stage_directory, created_directory) =>
      let created_ancestors :=
        match created_directory with
        | Some file => op_created_ancestors parent ++ [mkCreated stage_directory_path file]
        | None => op_created_ancestors parent
        end in
      do opened <- sys_openat stage_directory stage_name [RDWR; CREATE; EXCL; NOFOLLOW; CLOEXEC] 384 Plain;
      match opened with
      | Err error =>
          do _ <- rollback_created_ancestors_blocking fs created_ancestors;
          fail (errno_io error)
      | Ok fd =>
          do prepared <- prepare_stage fd;
          match prepared with
          | Err error =>
              do _ <- sys_unlinkat stage_directory stage_name false;
              do _ <- sys_fsync stage_directory;
              do _ <- rollback_created_ancestors_blocking fs created_ancestors;
              fail error
          | Ok _ => ok (fd, created_ancestors)
          end
      end
  end.

Definition remove_empty_upload_stage_directory_blocking (directory_path : bytes) : Io Env bool :=
  attempt _ <- ret (relative_path fs directory_path);
  if negb (match path_file_name directory_path with
           | Some name => is_utf8 name && bool_decide (classify_internal_name name = Some StageDirectory)
           | None => false
           end)
  then fail (io_new InvalidInput (bs "upload staging directory path is not canonical"))
  else
    do opened <- open_parent_blocking fs directory_path false;
    match opened with
    | Err error => if missing_kind error then ok false else fail error
    | Ok parent =>
        do directory <- open_private_upload_stage_directory_at (op_fd parent) (op_name parent);
        match directory with
        | Err error => if bool_decide (io_kind error = NotFound) then ok false else fail error
        | Ok directory =>
            attempt opened <- io_of (sys_fstat directory);
            attempt named <- io_of (sys_statat (op_fd parent) (op_name parent));
            if negb (st_dev opened =? st_dev named) || negb (st_ino opened =? st_ino named)
            then fail (io_new InvalidData (bs "upload staging directory identity changed before cleanup"))
            else
              do removed <- sys_unlinkat (op_fd parent) (op_name parent) true;
              match removed with
              | Ok _ => attempt _ <- io_of (sys_fsync (op_fd parent)); ok true
              | Err e =>
                  if (e =? NOENT) || (e =? NOTEMPTY) || (e =? EXIST) then ok false else fail (errno_io e)
              end
        end
    end.

Definition remove_empty_upload_stage_directory (stage_path : bytes) : Io Env bool :=
  attempt (directory_path, _) <- ret (validated_upload_stage_path stage_path);
  remove_empty_upload_stage_directory_blocking directory_path.

(** ** A persisted stage *)

Definition is_private_stage (s : Stat) : bool := stat_is RegularFile s && (st_nlink s =? 1).
Definition is_stored (s : Stat) (expected : StoredFileIdentity) : bool :=
  (st_dev s =? StoreModel.fi_device expected) && (st_ino s =? StoreModel.fi_inode expected).

Definition verify_named_upload_stage (parent : Fd) (name : bytes) (file : Fd) (expected : StoredFileIdentity)
    : Io Env unit :=
  attempt opened <- io_of (sys_fstat file);
  attempt named <- io_of (sys_statat parent name);
  if negb (is_private_stage opened) || negb (is_stored opened expected) ||
     negb (st_dev named =? st_dev opened) || negb (st_ino named =? st_ino opened) ||
     negb (is_private_stage named)
  then fail (io_new InvalidData (bs "upload stage descriptor no longer matches its durable rooted name"))
  else ok tt.

Definition open_expected_upload_stage_at (parent : Fd) (name : bytes) (expected : StoredFileIdentity)
    : Io Env ExpectedUploadStage :=
  do named <- sys_statat parent name;
  match named with
  | Err e => if e =? NOENT then ok ExpectedMissing else fail (errno_io e)
  | Ok named =>
      if negb (is_private_stage named) || negb (is_stored named expected) then ok ExpectedMismatch
      else
        do opened <- sys_openat parent name [PATH; NOFOLLOW; CLOEXEC] 0 Plain;
        match opened with
        | Err e => if missing_errno e then ok ExpectedMismatch else fail (errno_io e)
        | Ok file =>
            do verified <- verify_named_upload_stage parent name file expected;
            match verified with
            | Ok _ => ok (ExpectedMatch file)
            | Err error => if bool_decide (io_kind error = InvalidData) then ok ExpectedMismatch else fail error
            end
        end
  end.

Definition validate_private_upload_stage (path : bytes) (expected : option StoredFileIdentity)
    : Io Env PrivateUploadStageValidation :=
  attempt (directory_path, stage_name) <- ret (validated_upload_stage_path path);
  do opened <- open_parent_blocking fs directory_path false;
  match opened with
  | Err error => if missing_kind error then ok StageMissing else fail error
  | Ok parent =>
      do directory <- open_private_upload_stage_directory_at (op_fd parent) (op_name parent);
      match directory with
      | Err error => if bool_decide (io_kind error = NotFound) then ok StageMissing else fail error
      | Ok directory =>
          match expected with
          | None =>
              do found <- sys_statat directory stage_name;
              match found with
              | Ok _ => ok IdentityMismatch
              | Err e => if e =? NOENT then ok StageMissing else fail (errno_io e)
              end
          | Some expected =>
              attempt stage <- open_expected_upload_stage_at directory stage_name expected;
              ok (match stage with
                  | ExpectedMatch _ => StagePresent
                  | ExpectedMissing => StageMissing
                  | ExpectedMismatch => IdentityMismatch
                  end)
          end
      end
  end.

(** ** The readiness probe *)

Definition READINESS_PROBE : bytes := bs "dufs-readiness-v1".

(** [sync_data] of the probe is the call that makes a file durable. *)
Definition probe_writable : Io Env unit :=
  do fresh <- sys_new_uuid;
  let name := upload_readiness_probe_name fresh in
  attempt file <- io_of (sys_openat (rf_root fs) name [RDWR; CREATE; EXCL; NOFOLLOW; CLOEXEC] 384 Plain);
  do write_result <- (attempt _ <- sys_write file READINESS_PROBE; io_of (sys_fsync file));
  do remove_result <- io_of (sys_unlinkat (rf_root fs) name false);
  attempt _ <- ret write_result;
  attempt _ <- ret remove_result;
  io_of (sys_fsync (rf_root fs)).

(** ** Publication ([storage.rs]) *)

Definition sync_file_to_storage (file : Fd) : Io Env unit :=
  attempt file <- io_of (sys_dup file);
  io_of (sys_fsync file).

Inductive CommitStagedFileOutcome :=
| StagedPublished
| StagedRejected (file : Fd)
| StagedNotPublished (error : IoError)
| StagedDurabilityUnknown (error : IoError).

(** [gate]: the answer of the blocking pool to the rename. *)
Definition commit_staged_file (gate : result IoError unit) (file : Fd) (source destination : bytes)
    (expected_destination : ReplacementTargetIdentity) : Sys Env CommitStagedFileOutcome :=
  do synced <- sync_file_to_storage file;
  match synced with
  | Err error => ret (StagedNotPublished error)
  | Ok _ =>
      do outcome <- rename_replace_if_unchanged fs gate source file destination expected_destination;
      ret (match outcome with
           | Published => StagedPublished
           | Rejected => StagedRejected file
           | NotPublished error => StagedNotPublished error
           | PublishedDurabilityUnknown error => StagedDurabilityUnknown error
           end)
  end.
End stages.
