(* ===== verification/RootedPurge.v ===== *)
(** Purging a trash entry in bounded slices
    ([src/src/server/rooted_fs/purge.rs]): a depth-first removal with an
    explicit, resumable stack.  Nothing is unlinked under the name at which it
    was found: the entry is first renamed to a fresh quarantine name and that
    name is compared with an open handle.

    Fields that exist only under [cfg(test)] are left out.  An open directory is
    its handle with the records still to be read. *)

From S2P Require Import Prelude Bytes StdPath Utils UuidText InternalNames Problem Revisions Listing PathKeys RootedOs RootedFs.
From stdpp Require Import base numbers list strings sets.

Local Open Scope Z_scope.

Definition MAX_PURGE_STACK_DEPTH : nat := 2048.

(** ** Programs on a trash entry *)

Section purge_monad.
Context {Env : Type}.

Definition Purge (A : Type) : Type := TrashEntry -> Sys Env (result IoError A * TrashEntry).

Definition pret {A} (a : A) : Purge A := λ te, ret (Ok a, te).
Definition pfail {A} (e : IoError) : Purge A := λ te, ret (Err e, te).
(** The operator [?]; what happened to the entry stays. *)
Definition pbind {A B} (m : Purge A) (k : A -> Purge B) : Purge B := λ te,
  do (r, te) <- m te;
  match r with Ok a => k a te | Err e => ret (Err e, te) end.
(** A call that does not touch the entry; its failures may be inspected. *)
Definition plift {A} (m : Sys Env A) : Purge A := λ te, do a <- m; ret (Ok a, te).
Definition pio {A} (m : Io Env A) : Purge A := λ te, do r <- m; ret (r, te).
Definition pget : Purge TrashEntry := λ te, ret (Ok te, te).
Definition pset (f : TrashEntry -> TrashEntry) : Purge unit := λ te, ret (Ok tt, f te).
End purge_monad.
Arguments Purge : clear implicits.

Notation "'step' x <- m ; k" := (pbind m (λ x, k))
  (at level 100, x pattern, m at level 100, k at level 200, right associativity) : os_scope.

Definition set_name (name : bytes) (te : TrashEntry) : TrashEntry :=
  mkTrash (te_parent te) name (te_is_dir te) (te_identity te) (te_root_anchor te) (te_trash_revision te)
    (te_purge_stack te) (te_purge_resume te) (te_pending_unlink te).
Definition set_stack (stack : list PurgeDirectory) (te : TrashEntry) : TrashEntry :=
  mkTrash (te_parent te) (te_name te) (te_is_dir te) (te_identity te) (te_root_anchor te)
    (te_trash_revision te) stack (te_purge_resume te) (te_pending_unlink te).
Definition set_resume (resume : option PurgeResume) (te : TrashEntry) : TrashEntry :=
  mkTrash (te_parent te) (te_name te) (te_is_dir te) (te_identity te) (te_root_anchor te)
    (te_trash_revision te) (te_purge_stack te) resume (te_pending_unlink te).
Definition set_pending (pending : option PurgeDirectory) (te : TrashEntry) : TrashEntry :=
  mkTrash (te_parent te) (te_name te) (te_is_dir te) (te_identity te) (te_root_anchor te)
    (te_trash_revision te) (te_purge_stack te) (te_purge_resume te) pending.

(** All frames but the last. *)
Definition without_last (stack : list PurgeDirectory) : list PurgeDirectory := take (length stack - 1) stack.

Record OpenDir := mkDir { od_fd : Fd; od_entries : list (result Errno Dirent) }.

Inductive NextEntry :=
| PausedRead
| EndOfDirectory
| FoundEntry (name : bytes) (next_cursor : Z) (rest : list (result Errno Dirent)).

(** One round of the loop of a slice: the slice ends ([true]: the entry is
    gone), or goes on in a directory with a number of entries examined. *)
Inductive SliceRound := SliceEnds (complete : bool) | SliceGoesOn (directory : OpenDir) (examined : Z).

Inductive TrashPurgeProgress := Complete | Pending (entry : TrashEntry).
Record TrashPurgeError := mkTrashPurgeError { tpe_entry : TrashEntry; tpe_source : IoError }.

Section purge.
(** [room n]: whether a stack of [n] frames can grow. *)
Context {Env : Type} `{Os Env} `{UuidLib} (sha256 : bytes -> bytes) (room : nat -> bool).

Definition invalid {A} (text : bytes) : Purge Env A := pfail (io_new InvalidData text).
Definition invalid_unless (b : bool) (text : bytes) : Purge Env unit := if b then pret tt else invalid text.

Definition is_quarantine_entry_name (name : bytes) : bool :=
  is_utf8 name && bool_decide (classify_internal_name name = Some Quarantine).

Definition isolated_validation_error (description action : bytes) (source : Errno) : IoError :=
  io_new InvalidData (description ++ bs " " ++ action ++ bs " after isolation: " ++ os_strerror source).
Definition isolated_removal_error (description : bytes) (source : IoError) : IoError :=
  io_new InvalidData (bs "isolated " ++ description ++ bs " could not be removed safely: " ++ io_text source).

(** The second component is the name afterwards: once the rename has happened,
    it is the quarantine name, also when the check fails. *)
Fixpoint isolate (attempts : nat) (parent : Fd) (name : bytes) (anchor : Fd) (description : bytes)
    : Sys Env (result IoError bool * bytes) :=
  match attempts with
  | O => ret (Err (io_new AlreadyExists
           (bs "failed to allocate a unique isolated name for " ++ description)), name)
  | S attempts =>
      do fresh <- sys_new_uuid;
      let isolated := quarantine_name fresh in
      do moved <- sys_renameat parent name parent isolated true;
      match moved with
      | Err e =>
          if e =? EXIST then isolate attempts parent name anchor description
          else if e =? NOENT then ret (Ok false, name)
          else ret (Err (errno_io e), name)
      | Ok _ =>
          do anchored <- sys_fstat anchor;
          match anchored with
          | Err e =>
              ret (Err (isolated_validation_error description (bs "pinned identity could not be read") e), isolated)
          | Ok anchored =>
              do named <- sys_statat parent isolated;
              match named with
              | Err e =>
                  ret (Err (isolated_validation_error description
                              (bs "isolated identity could not be read") e), isolated)
              | Ok named =>
                  if bool_decide (replacement_target_identity anchored = replacement_target_identity named)
                  then ret (Ok true, isolated)
                  else ret (Err (io_new InvalidData (description ++
                              bs " changed while entering quarantine before removal")), isolated)
              end
          end
      end
  end.

Definition isolate_anchored_entry_for_unlink (parent : Fd) (name : bytes) (anchor : Fd) (description : bytes)
    : Sys Env (result IoError bool * bytes) := isolate 16 parent name anchor description.

(** [cancellation.is_cancelled() || examined >= max_entries || now >= deadline]. *)
Definition should_pause (examined max_entries : Z) : Sys Env bool :=
  do cancelled <- sys_interrupted;
  if cancelled : bool then ret true
  else if max_entries <=? examined then ret true
  else sys_deadline.

(** ** A file *)

(** [self.name] after isolation. *)
Definition isolate_self (description : bytes) : Purge Env bool := λ te,
  do (r, name) <- isolate_anchored_entry_for_unlink (te_parent te) (te_name te) (te_root_anchor te) description;
  ret (r, set_name name te).

(** [unlinkat] of an isolated entry; [removedir] reports a directory that is no
    longer empty. *)
Definition unlink_isolated (parent : Fd) (name : bytes) (removedir : bool) (description : bytes)
    : Purge Env unit :=
  step removed <- plift (sys_unlinkat parent name removedir);
  match removed with
  | Ok _ => pret tt
  | Err e =>
      if e =? NOENT then pret tt
      else if removedir && ((e =? NOTEMPTY) || (e =? EXIST))
      then invalid (bs "isolated " ++ description ++ bs " gained entries before removal")
      else pfail (isolated_removal_error description (errno_io e))
  end.

(** [fsync(&self.parent)?; return Ok(true)]. *)
Definition sync_and_finish : Purge Env bool :=
  step te <- pget; step _ <- pio (io_of (sys_fsync (te_parent te))); pret true.

(** The end of the purge of a file, and of a directory. *)
Definition remove_self (removedir : bool) (description : bytes) : Purge Env bool :=
  step isolated <- isolate_self description;
  if negb isolated then sync_and_finish
  else
    step te <- pget;
    step _ <- unlink_isolated (te_parent te) (te_name te) removedir description;
    sync_and_finish.

Definition purge_file : Purge Env bool :=
  step te <- pget;
  step cancelled <- plift sys_interrupted;
  if cancelled : bool then pret false
  else
    step late <- plift sys_deadline;
    if late : bool then pret false
    else
      step anchored <- pio (io_of (sys_fstat (te_root_anchor te)));
      let anchored_identity := replacement_target_identity anchored in
      step _ <- invalid_unless (beqb (purge_revision sha256 (Existing anchored_identity)) (te_trash_revision te))
        (bs "trash file revision changed after durable purge capture");
      step named <- plift (sys_statat (te_parent te) (te_name te));
      match named with
      | Ok metadata =>
          if negb (bool_decide (replacement_target_identity metadata = anchored_identity))
          then invalid (bs "trash file identity changed before purge")
          else
            remove_self false (bs "trash file")
      | Err e =>
          if e =? NOENT then sync_and_finish
          else
            step again <- plift (sys_statat (te_parent te) (te_name te));
            match again with
            | Ok metadata =>
                if negb (bool_decide (replacement_target_identity metadata = anchored_identity))
                then invalid (bs "trash directory identity changed while opening it")
                else pfail (errno_io e)
            | Err _ => pfail (errno_io e)
            end
      end.

(** ** The stack *)

Definition reserve_purge_directory_slot : Purge Env unit :=
  step te <- pget;
  if (MAX_PURGE_STACK_DEPTH <=? length (te_purge_stack te))%nat
  then invalid (bs "trash directory depth exceeds the purge stack limit")
  else if room (length (te_purge_stack te)) then pret tt
  else pfail (io_new (OtherKind (bs "OutOfMemory")) (bs "out of memory")).

Definition update_purge_directory_revision (directory : Fd) (depth : nat) : Purge Env unit :=
  step metadata <- pio (io_of (sys_fstat directory));
  match depth with
  | O => invalid (bs "purge directory depth cannot be zero")
  | S index =>
      step te <- pget;
      match te_purge_stack te !! index with
      | None => invalid (bs "purge directory depth exceeds the retained stack")
      | Some frame =>
          if negb (bool_decide (delete_identity_from_stat metadata = pd_identity frame))
          then invalid (bs "active trash directory no longer matches its purge frame")
          else pset (set_stack (<[index := mkPurgeDirectory (pd_name frame) (pd_cursor frame)
                 (pd_identity frame) (replacement_target_identity metadata) (pd_pending_anchor frame)]>
                 (te_purge_stack te)))
      end
  end.

Definition retain_purge_directory (directory : Fd) (depth : nat) : Purge Env unit :=
  step copy <- pio (io_of (sys_dup directory));
  pset (set_resume (Some (mkResume copy depth))).

Definition remember_purge_directory (directory : Fd) (depth : nat) : Purge Env unit :=
  step _ <- update_purge_directory_revision directory depth;
  retain_purge_directory directory depth.

(** [remember_purge_directory(directory, self.purge_stack.len())?]. *)
Definition remember_current (directory : Fd) : Purge Env unit :=
  step te <- pget; remember_purge_directory directory (length (te_purge_stack te)).

Definition open_flags : list OFlag := [RDONLY; DIRECTORY; NOFOLLOW; CLOEXEC].

(** [while depth < target_depth] of [open_current_purge_directory]: one handle
    deeper per round, [frames] being the rest of the stack.  The counter is
    [examined]; [None] is a pause. *)
Fixpoint descend_stack (frames : list PurgeDirectory) (current : Fd) (depth : nat) (examined max_entries : Z)
    : Purge Env (option (Fd * Z)) :=
  match frames with
  | [] => pret (Some (current, examined))
  | frame :: frames =>
      step pause <- plift (should_pause examined max_entries);
      if pause : bool then
        step _ <- pset (set_resume (Some (mkResume current depth))); pret None
      else
        step opened <- plift (sys_openat current (pd_name frame) open_flags 0 NoXdev);
        match opened with
        | Ok next =>
            step opened_stat <- pio (io_of (sys_fstat next));
            step named <- plift (sys_statat current (pd_name frame));
            match named with
            | Err e =>
                if e =? NOENT then invalid (bs "trash child directory disappeared after resumed open")
                else pfail (errno_io e)
            | Ok named =>
                step _ <- invalid_unless
                  (bool_decide (replacement_target_identity opened_stat = pd_revision_identity frame) &&
                   bool_decide (replacement_target_identity named = pd_revision_identity frame))
                  (bs "trash child directory identity changed before resumed purge");
                descend_stack frames next (S depth) (examined + 1) max_entries
            end
        | Err e =>
            step named <- plift (sys_statat current (pd_name frame));
            if match named with
               | Ok metadata => negb (bool_decide (replacement_target_identity metadata = pd_revision_identity frame))
               | Err _ => false
               end
            then invalid (bs "trash child directory identity changed before resumed purge")
            else
              step _ <- pset (set_resume (Some (mkResume current depth)));
              pfail (errno_io e)
        end
  end.

(** Stands for an index out of range or a failed [expect]. *)
Definition purge_panic : IoError := io_other (bs "panic").

(** [Some(resume) if (1..=target_depth).contains(&resume.depth)]. *)
Definition resume_within (resume : option PurgeResume) (target_depth : nat) : option PurgeResume :=
  match resume with
  | Some resume =>
      if ((1 <=? pr_depth resume) && (pr_depth resume <=? target_depth))%nat then Some resume else None
  | None => None
  end.

(** [sys_read_dir] is [Dir::new], [seek] and the reads; with a cursor its
    failure is that of [seek]. *)
Definition open_current_purge_directory (examined max_entries : Z) : Purge Env (option (OpenDir * Z)) :=
  step te <- pget;
  let target_depth := length (te_purge_stack te) in
  step _ <- pset (set_resume None);
  step (current, depth) <-
    (match resume_within (te_purge_resume te) target_depth with
     | Some resume => pret (pr_directory resume, pr_depth resume)
     | None =>
         match te_purge_stack te with
         | [] => pfail purge_panic
         | root_frame :: _ =>
             step root <- pio (io_of (sys_openat (te_parent te) (pd_name root_frame) open_flags 0 NoXdev));
             step stat <- pio (io_of (sys_fstat root));
             step _ <- invalid_unless
               (bool_decide (replacement_target_identity stat = pd_revision_identity root_frame))
               (bs "trash directory identity changed before resumed purge");
             pret (root, 1%nat)
         end
     end);
  step stat <- pio (io_of (sys_fstat current));
  match te_purge_stack te !! pred depth with
  | None => pfail purge_panic
  | Some frame =>
      step _ <- invalid_unless (bool_decide (replacement_target_identity stat = pd_revision_identity frame))
        (bs "retained trash directory identity changed before resumed purge");
      step reached <- descend_stack (drop depth (te_purge_stack te)) current depth examined max_entries;
      match reached with
      | None => pret None
      | Some (current, examined) =>
          match last (te_purge_stack te) with
          | None => pfail purge_panic
          | Some frame =>
              step read <- plift (sys_read_dir current (pd_cursor frame));
              match read with
              | Ok entries => pret (Some (mkDir current entries, examined))
              | Err e =>
                  step _ <- (if pd_cursor frame =? 0 then pret tt
                             else remember_purge_directory current target_depth);
                  pfail (errno_io e)
              end
          end
      end
  end.

(** [self.purge_stack.last_mut().expect(..).cursor = next_cursor]. *)
Definition advance_cursor (next_cursor : Z) : Purge Env unit :=
  step te <- pget;
  match last (te_purge_stack te) with
  | None => pfail purge_panic
  | Some f =>
      pset (set_stack (without_last (te_purge_stack te) ++
        [mkPurgeDirectory (pd_name f) next_cursor (pd_identity f) (pd_revision_identity f)
           (pd_pending_anchor f)]))
  end.

Definition push_frame (name : bytes) (entry : DeleteIdentity) (revision : ExistingReplacementTarget)
    : Purge Env unit :=
  step te <- pget;
  pset (set_stack (te_purge_stack te ++ [mkPurgeDirectory name 0 entry revision None])).

(** ** The rounds of a slice *)

(** A completed child directory, removed from its parent [parent]. *)
Definition remove_pending (completed : PurgeDirectory) (parent : Fd) : Purge Env unit :=
  match pd_pending_anchor completed with
  | None => invalid (bs "pending trash child has no retained identity anchor")
  | Some pending_anchor =>
      step anchored <- pio (io_of (sys_fstat pending_anchor));
      let anchored_revision := replacement_target_identity anchored in
      step _ <- invalid_unless (bool_decide (anchored_revision = pd_revision_identity completed))
        (bs "pending trash child revision changed before unlink");
      step named <- plift (sys_statat parent (pd_name completed));
      match named with
      | Err e => if e =? NOENT then pret tt else pfail (errno_io e)
      | Ok metadata =>
          step _ <- invalid_unless (bool_decide (replacement_target_identity metadata = anchored_revision))
            (bs "trash child directory identity changed before purge");
          step (r, name) <- plift (isolate_anchored_entry_for_unlink parent (pd_name completed)
            pending_anchor (bs "trash child directory"));
          step isolated <- pio (ret r);
          if negb isolated then pret tt
          else step _ <- unlink_isolated parent name true (bs "trash child directory"); pret tt
      end
  end.

(** The root directory, once its last entry is gone. *)
Definition remove_root (completed : PurgeDirectory) : Purge Env bool :=
  step te <- pget;
  step anchored <- pio (io_of (sys_fstat (te_root_anchor te)));
  let anchored_revision := replacement_target_identity anchored in
  step _ <- invalid_unless (bool_decide (anchored_revision = pd_revision_identity completed))
    (bs "trash root directory revision changed before unlink");
  step named <- plift (sys_statat (te_parent te) (te_name te));
  match named with
  | Err e =>
      if e =? NOENT then sync_and_finish
      else pfail (errno_io e)
  | Ok metadata =>
      step _ <- invalid_unless (bool_decide (replacement_target_identity metadata = anchored_revision))
        (bs "trash root directory identity changed before purge");
      remove_self true (bs "trash root directory")
  end.

(** [let Some(entry) = next else]. *)
Definition end_of_directory (directory : Fd) (examined max_entries : Z) : Purge Env SliceRound :=
  step te <- pget;
  let completed_depth := length (te_purge_stack te) in
  step _ <- update_purge_directory_revision directory completed_depth;
  step pending_anchor <-
    (if (1 <? completed_depth)%nat
     then step copy <- pio (io_of (sys_dup directory)); pret (Some copy)
     else pret None);
  step te <- pget;
  match last (te_purge_stack te) with
  | None => pfail purge_panic
  | Some completed =>
      let rest := without_last (te_purge_stack te) in
      step _ <- pset (set_stack rest);
      match rest with
      | _ :: _ =>
          step _ <- pset (set_pending (Some (mkPurgeDirectory (pd_name completed) (pd_cursor completed)
            (pd_identity completed) (pd_revision_identity completed) pending_anchor)));
          step reopened <- open_current_purge_directory examined max_entries;
          match reopened with
          | None => pret (SliceEnds false)
          | Some (directory, examined) => pret (SliceGoesOn directory examined)
          end
      | [] => step complete <- remove_root completed; pret (SliceEnds complete)
      end
  end.

(** [directory.read()], passing over [.] and [..]; the loop of the slice checks
    its budget before each further read. *)
Fixpoint next_entry (entries : list (result Errno Dirent)) (directory : Fd) (examined max_entries : Z)
    : Purge Env NextEntry :=
  match entries with
  | [] => pret EndOfDirectory
  | Err e :: _ => step _ <- remember_current directory; pfail (errno_io e)
  | Ok entry :: rest =>
      if beqb (dr_name entry) (bs ".") || beqb (dr_name entry) (bs "..")
      then
        step _ <- advance_cursor (dr_offset entry);
        step pause <- plift (should_pause examined max_entries);
        if pause : bool then step _ <- remember_current directory; pret PausedRead
        else next_entry rest directory examined max_entries
      else pret (FoundEntry (dr_name entry) (dr_offset entry) rest)
  end.

(** A child directory; [Some] when it is entered. *)
Definition enter_child (directory : Fd) (name : bytes) (next_cursor : Z) (metadata : Stat)
    : Purge Env (option OpenDir) :=
  step _ <- reserve_purge_directory_slot;
  let child_identity := delete_identity_from_stat metadata in
  let child_revision_identity := replacement_target_identity metadata in
  step opened <- plift (sys_openat directory name open_flags 0 NoXdev);
  match opened with
  | Err e =>
      if e =? NOENT then step _ <- advance_cursor next_cursor; pret None
      else
        step current <- plift (sys_statat directory name);
        if match current with
           | Ok current => negb (bool_decide (delete_identity_from_stat current = child_identity))
           | Err _ => false
           end
        then invalid (bs "trash child directory identity changed while opening it")
        else step _ <- remember_current directory; pfail (errno_io e)
  | Ok child =>
      step opened_metadata <- pio (io_of (sys_fstat child));
      step named <- plift (sys_statat directory name);
      match named with
      | Err e =>
          if e =? NOENT then invalid (bs "trash child directory disappeared after it was opened")
          else pfail (errno_io e)
      | Ok named_metadata =>
          step _ <- invalid_unless
            (bool_decide (replacement_target_identity opened_metadata = child_revision_identity) &&
             bool_decide (replacement_target_identity named_metadata = child_revision_identity))
            (bs "trash child directory identity changed while opening it");
          step read <- plift (sys_read_dir child 0);
          match read with
          | Err e => step _ <- remember_current directory; pfail (errno_io e)
          | Ok entries =>
              step _ <- advance_cursor next_cursor;
              step te <- pget;
              step _ <- update_purge_directory_revision directory (length (te_purge_stack te));
              step _ <- push_frame name child_identity child_revision_identity;
              pret (Some (mkDir child entries))
          end
      end
  end.

(** A child that is not a directory. *)
Definition remove_child (directory : Fd) (name : bytes) (next_cursor : Z) (metadata : Stat) : Purge Env unit :=
  step opened <- plift (sys_openat directory name [PATH; NOFOLLOW; CLOEXEC] 0 Plain);
  match opened with
  | Err e => if e =? NOENT then advance_cursor next_cursor else pfail (errno_io e)
  | Ok child_anchor =>
      step opened_metadata <- pio (io_of (sys_fstat child_anchor));
      step named <- plift (sys_statat directory name);
      match named with
      | Err e => if e =? NOENT then advance_cursor next_cursor else pfail (errno_io e)
      | Ok named_metadata =>
          let discovered_identity := replacement_target_identity metadata in
          step _ <- invalid_unless
            (bool_decide (replacement_target_identity opened_metadata = discovered_identity) &&
             bool_decide (replacement_target_identity named_metadata = discovered_identity))
            (bs "trash child identity changed before purge");
          step (r, name) <- plift (isolate_anchored_entry_for_unlink directory name child_anchor
            (bs "trash child entry"));
          step isolated <- pio (ret r);
          if negb isolated then advance_cursor next_cursor
          else
            step _ <- unlink_isolated directory name false (bs "trash child entry");
            advance_cursor next_cursor
      end
  end.

(** One entry of the open directory; [examined] counts it already. *)
Definition purge_child (directory : OpenDir) (name : bytes) (next_cursor : Z) (examined : Z)
    : Purge Env SliceRound :=
  let fd := od_fd directory in
  step found <- plift (sys_statat fd name);
  match found with
  | Err e =>
      if e =? NOENT
      then step _ <- advance_cursor next_cursor; pret (SliceGoesOn directory examined)
      else step _ <- remember_current fd; pfail (errno_io e)
  | Ok metadata =>
      match from_raw_mode (st_mode metadata) with
      | Directory =>
          step child <- enter_child fd name next_cursor metadata;
          pret (SliceGoesOn (match child with Some child => child | None => directory end) examined)
      | _ =>
          step _ <- remove_child fd name next_cursor metadata;
          pret (SliceGoesOn directory examined)
      end
  end.

Definition slice_round (directory : OpenDir) (examined max_entries : Z) : Purge Env SliceRound :=
  step pause <- plift (should_pause examined max_entries);
  if pause : bool then step _ <- remember_current (od_fd directory); pret (SliceEnds false)
  else
    step te <- pget;
    match te_pending_unlink te with
    | Some completed =>
        step _ <- pset (set_pending None);
        step _ <- remove_pending completed (od_fd directory);
        pret (SliceGoesOn directory (examined + 1))
    | None =>
        step next <- next_entry (od_entries directory) (od_fd directory) examined max_entries;
        match next with
        | PausedRead => pret (SliceEnds false)
        | EndOfDirectory => end_of_directory (od_fd directory) examined max_entries
        | FoundEntry name next_cursor rest =>
            if is_quarantine_entry_name name
            then invalid (bs "trash tree contains an isolated entry from an interrupted purge")
            else purge_child (mkDir (od_fd directory) rest) name next_cursor (examined + 1)
        end
    end.

(** [None]: the fuel is used up. *)
Fixpoint slice_loop (fuel : nat) (directory : OpenDir) (examined max_entries : Z) : Purge Env (option bool) :=
  match fuel with
  | O => pret None
  | S fuel =>
      step round <- slice_round directory examined max_entries;
      match round with
      | SliceEnds complete => pret (Some complete)
      | SliceGoesOn directory examined => slice_loop fuel directory examined max_entries
      end
  end.

(** An entry examined costs two rounds at most. *)
Definition slice_fuel (max_entries : Z) : nat := Z.to_nat (2 * max_entries + 3).

(** ** A slice *)

(** The first slice of a directory opens it; [inl] is an answer. *)
Definition open_purge_root : Purge Env (bool + OpenDir) :=
  step te <- pget;
  step cancelled <- plift sys_interrupted;
  if cancelled : bool then pret (inl false)
  else
    step late <- plift sys_deadline;
    if late : bool then pret (inl false)
    else
      step opened <- plift (sys_openat (te_parent te) (te_name te) open_flags 0 NoXdev);
      match opened with
      | Err e =>
          if e =? NOENT then step complete <- sync_and_finish; pret (inl complete)
          else
            step named <- plift (sys_statat (te_parent te) (te_name te));
            match named with
            | Ok metadata =>
                if negb (bool_decide (delete_identity_from_stat metadata = te_identity te))
                then invalid (bs "trash directory identity changed while opening it")
                else pfail (errno_io e)
            | Err gone =>
                if gone =? NOENT
                then step complete <- sync_and_finish; pret (inl complete)
                else pfail (errno_io e)
            end
      | Ok directory =>
          step opened_metadata <- pio (io_of (sys_fstat directory));
          let opened_revision_identity := replacement_target_identity opened_metadata in
          step anchored <- pio (io_of (sys_fstat (te_root_anchor te)));
          let anchored_revision_identity := replacement_target_identity anchored in
          step _ <- invalid_unless
            (beqb (purge_revision sha256 (Existing anchored_revision_identity)) (te_trash_revision te))
            (bs "trash directory revision changed after durable purge capture");
          step _ <- invalid_unless (bool_decide (opened_revision_identity = anchored_revision_identity))
            (bs "trash directory identity changed before purge");
          step entries <- pio (io_of (sys_read_dir directory 0));
          step _ <- reserve_purge_directory_slot;
          step _ <- push_frame (te_name te) (te_identity te) opened_revision_identity;
          pret (inr (mkDir directory entries))
      end.

Definition purge_slice_blocking (max_entries : Z) : Purge Env (option bool) :=
  step te <- pget;
  if negb (te_is_dir te) then step complete <- purge_file; pret (Some complete)
  else
    match te_purge_stack te with
    | [] =>
        step opened <- open_purge_root;
        match opened with
        | inl answer => pret (Some answer)
        | inr directory => slice_loop (slice_fuel max_entries) directory 0 max_entries
        end
    | _ :: _ =>
        step reopened <- open_current_purge_directory 0 max_entries;
        match reopened with
        | None => pret (Some false)
        | Some (directory, examined) => slice_loop (slice_fuel max_entries) directory examined max_entries
        end
    end.

Fixpoint quarantine_root (attempts : nat) : Purge Env unit :=
  match attempts with
  | O => pfail (io_new AlreadyExists
           (bs "failed to allocate a unique quarantine name for ambiguous purge root"))
  | S attempts =>
      step te <- pget;
      step fresh <- plift sys_new_uuid;
      let quarantine := quarantine_name fresh in
      step moved <- plift (sys_renameat (te_parent te) (te_name te) (te_parent te) quarantine true);
      match moved with
      | Ok _ =>
          step _ <- pset (set_name quarantine);
          step _ <- (match te_purge_stack te with
                     | root :: frames =>
                         if beqb (pd_name root) (te_name te)
                         then pset (set_stack (mkPurgeDirectory quarantine (pd_cursor root) (pd_identity root)
                                (pd_revision_identity root) (pd_pending_anchor root) :: frames))
                         else pret tt
                     | [] => pret tt
                     end);
          pio (io_of (sys_fsync (te_parent te)))
      | Err e =>
          if e =? EXIST then quarantine_root attempts
          else if e =? NOENT then pio (io_of (sys_fsync (te_parent te)))
          else pfail (errno_io e)
      end
  end.

Definition quarantine_after_identity_error_blocking : Purge Env unit :=
  step te <- pget;
  if is_quarantine_entry_name (te_name te) then pio (io_of (sys_fsync (te_parent te)))
  else quarantine_root 16.

(** The closure run on the blocking pool. *)
Definition slice_worker (max_entries : Z) : Purge Env (option bool) := λ te,
  do (r, te) <- purge_slice_blocking (Z.max max_entries 1) te;
  match r with
  | Err e =>
      if bool_decide (io_kind e = InvalidData)
      then (step _ <- quarantine_after_identity_error_blocking; pfail e) te
      else ret (r, te)
  | Ok _ => ret (r, te)
  end.

(** [gate]: why the blocking pool did not take the job, if it did not. *)
Definition purge_slice (gate : option IoError) (te : TrashEntry) (max_entries : Z)
    : Sys Env (result TrashPurgeError TrashPurgeProgress) :=
  match gate with
  | Some e => fail (mkTrashPurgeError te e)
  | None =>
      do (r, te) <- slice_worker max_entries te;
      ret (match r with
           | Ok (Some true) => Ok Complete
           | Ok _ => Ok (Pending te)
           | Err source => Err (mkTrashPurgeError te source)
           end)
  end.
End purge.
