(* ===== verification/RootedPurgeFacts.v ===== *)
(** What a purge slice does to the tree, whatever the kernel answers: it removes
    only what it has set aside and checked, it ends within its budget, and an
    entry whose identity is in doubt leaves the trash. *)

From S2P Require Import Prelude Bytes StdPath Utils UuidText InternalNames Problem Revisions Listing PathKeys RootedOs RootedFs RootedPurge.
From stdpp Require Import base numbers list strings sets.

Local Open Scope Z_scope.

(** ** Logs *)

Section logs.
Context `{UuidLib}.

(** Every change of the tree is a rename to a fresh quarantine name, in the same
    directory and never over another entry, or the removal of such a name right
    after it was seen to be the object an open handle pins. *)
Inductive tidy : list SysCall -> Prop :=
| tidy_nil : tidy []
| tidy_read c l : reads c -> tidy l -> tidy (c :: l)
| tidy_rename dir name id answer l :
    tidy l -> tidy (Renameat dir name dir (quarantine_name id) true answer :: l)
| tidy_unlink dir name id anchor pinned named removedir answer l :
    replacement_target_identity pinned = replacement_target_identity named ->
    tidy l ->
    tidy (Renameat dir name dir (quarantine_name id) true (Ok tt) ::
          Fstat anchor (Ok pinned) :: Statat dir (quarantine_name id) (Ok named) ::
          Unlinkat dir (quarantine_name id) removedir answer :: l).

Definition is_unlink (c : SysCall) : bool := match c with Unlinkat _ _ _ _ => true | _ => false end.
Definition unlinks (l : list SysCall) : Z := Z.of_nat (length (filter (λ c, is_unlink c = true) l)).

(** The last call made [fd] durable. *)
Definition synced (fd : Fd) (l : list SysCall) : Prop := exists before, l = before ++ [Fsync fd (Ok tt)].

Lemma tidy_app l l' : tidy l -> tidy l' -> tidy (l ++ l').
Proof. induction 1; intros Hl'; cbn [app]; eauto using tidy. Qed.

Lemma tidy_reads l : Forall reads l -> tidy l.
Proof. induction 1; eauto using tidy. Qed.

Lemma unlinks_app l l' : unlinks (l ++ l') = unlinks l + unlinks l'.
Proof. unfold unlinks. rewrite filter_app, length_app. lia. Qed.

Lemma unlinks_cons c l : unlinks (c :: l) = (if is_unlink c then 1 else 0) + unlinks l.
Proof. unfold unlinks. rewrite filter_cons. destruct (is_unlink c); cbn [length]; case_decide; cbn [length]; try done; lia. Qed.

Lemma unlinks_reads l : Forall reads l -> unlinks l = 0.
Proof. induction 1 as [|c l Hc _ IH]; [done|]. rewrite unlinks_cons, IH. by destruct c. Qed.

Lemma synced_app fd l l' : synced fd l' -> synced fd (l ++ l').
Proof. intros [before ->]. exists (l ++ before). by rewrite app_assoc. Qed.

Lemma synced_one fd : synced fd [Fsync fd (Ok tt)].
Proof. by exists []. Qed.
End logs.

Create HintDb purge discriminated.
#[export] Hint Resolve tidy_app tidy_reads synced_app synced_one : purge.

(** ** Programs on an entry *)

Section pspec.
Context {Env : Type} `{Os Env}.

Definition pspec {A} (m : Purge Env A) (te : TrashEntry)
    (Q : result IoError A -> TrashEntry -> list SysCall -> Prop) : Prop :=
  spec (m te) (λ p calls, Q p.1 p.2 calls).

Lemma pspec_ret {A} (a : A) te Q : Q (Ok a) te [] -> pspec (pret a) te Q.
Proof. exact (spec_ret (Ok a, te) (λ p c, Q p.1 p.2 c)). Qed.

Lemma pspec_fail {A} e te Q : Q (Err e : result _ A) te [] -> pspec (pfail e) te Q.
Proof. exact (spec_ret (Err e, te) (λ p c, Q p.1 p.2 c)). Qed.

Lemma pspec_weaken {A} (m : Purge Env A) te (P Q : _ -> _ -> _ -> Prop) :
  pspec m te P -> (forall r te' c, P r te' c -> Q r te' c) -> pspec m te Q.
Proof. intros Hm HPQ. eapply spec_weaken; [exact Hm|]. eauto. Qed.

Lemma pspec_bind {A B} (m : Purge Env A) (k : A -> Purge Env B) te P Q :
  pspec m te P ->
  (forall a te' c, P (Ok a) te' c -> pspec (k a) te' (λ r te'' c', Q r te'' (c ++ c'))) ->
  (forall e te' c, P (Err e) te' c -> Q (Err e) te' c) ->
  pspec (pbind m k) te Q.
Proof.
  intros Hm Hk He. unfold pspec, pbind. eapply spec_bind; [exact Hm|].
  intros [[a|e] te'] c Hc; [by apply Hk|]. apply spec_ret. rewrite app_nil_r. by apply He.
Qed.

Lemma pspec_bind_get {B} (k : TrashEntry -> Purge Env B) te Q : pspec (k te) te Q -> pspec (pbind pget k) te Q.
Proof. done. Qed.

Lemma pspec_bind_set {B} f (k : unit -> Purge Env B) te Q :
  pspec (k tt) (f te) Q -> pspec (pbind (pset f) k) te Q.
Proof. done. Qed.

Lemma pspec_set f te (Q : result IoError unit -> _ -> _ -> Prop) : Q (Ok tt) (f te) [] -> pspec (pset f) te Q.
Proof. exact (spec_ret (Ok tt, f te) (λ p c, Q p.1 p.2 c)). Qed.

Lemma pspec_bind_lift {A B} (m : Sys Env A) (k : A -> Purge Env B) te P Q :
  spec m P -> (forall a c, P a c -> pspec (k a) te (λ r te' c', Q r te' (c ++ c'))) ->
  pspec (pbind (plift m) k) te Q.
Proof.
  intros Hm Hk. eapply (pspec_bind _ _ _ (λ r te' c, te' = te /\ exists a, r = Ok a /\ P a c)).
  - unfold pspec, plift. eapply spec_bind; [exact Hm|]. intros a c Hc. apply spec_ret.
    rewrite app_nil_r. eauto.
  - intros a te' c (-> & a' & [= <-] & Hc). by apply Hk.
  - intros e te' c (_ & a' & [=] & _).
Qed.

Lemma pspec_bind_call {A B} (run : Env -> A * Env) (event : A -> SysCall) (k : A -> Purge Env B) te Q :
  (forall a, pspec (k a) te (λ r te' c, Q r te' (event a :: c))) ->
  pspec (pbind (plift (syscall run event)) k) te Q.
Proof.
  intros Hk. eapply pspec_bind_lift; [apply (spec_call _ _ (λ a c, c = [event a])); done|].
  intros a c ->. apply Hk.
Qed.

Lemma pspec_io_call {A} (run : Env -> result Errno A * Env) (event : result Errno A -> SysCall) te Q :
  (forall a, Q (Ok a) te [event (Ok a)]) -> (forall e, Q (Err (errno_io e)) te [event (Err e)]) ->
  pspec (pio (io_of (syscall run event))) te Q.
Proof.
  intros Ha He w. unfold pio, io_of, bind, syscall, ret. destruct (run (w_env w)) as [[a|e] env];
    cbn; eauto.
Qed.

Lemma pspec_bind_io_call {A B} (run : Env -> result Errno A * Env) (event : result Errno A -> SysCall)
    (k : A -> Purge Env B) te Q :
  (forall a, pspec (k a) te (λ r te' c, Q r te' (event (Ok a) :: c))) ->
  (forall e, Q (Err (errno_io e)) te [event (Err e)]) ->
  pspec (pbind (pio (io_of (syscall run event))) k) te Q.
Proof.
  intros Hk He. eapply (pspec_bind _ _ _ (λ r te' c, te' = te /\ match r with
    | Ok a => c = [event (Ok a)] | Err x => exists e, x = errno_io e /\ c = [event (Err e)] end)).
  - apply pspec_io_call; eauto.
  - intros a te' c [-> ->]. apply Hk.
  - intros e te' c [-> (e' & -> & ->)]. apply He.
Qed.

Lemma pspec_bind_result {A B} (r : result IoError A) (k : A -> Purge Env B) te Q :
  (forall a, r = Ok a -> pspec (k a) te Q) -> (forall e, r = Err e -> Q (Err e) te []) ->
  pspec (pbind (pio (ret r)) k) te Q.
Proof.
  intros Hk He w. unfold pbind, pio, bind, ret. destruct r as [a|e]; [by apply Hk|].
  exists []. rewrite app_nil_r. cbn. auto.
Qed.

Lemma pspec_bind_unless {B} b text (k : unit -> Purge Env B) te Q :
  (b = true -> pspec (k tt) te Q) -> Q (Err (io_new InvalidData text)) te [] ->
  pspec (pbind (invalid_unless b text) k) te Q.
Proof.
  intros Hk He. unfold invalid_unless. destruct b; [by apply Hk|].
  intros w. exists []. rewrite app_nil_r. done.
Qed.

(** *** Programs that only look at the tree *)

(** What such a program leaves alone in the entry. *)
Definition same (te te' : TrashEntry) : Prop :=
  te_parent te' = te_parent te /\ te_name te' = te_name te /\ te_root_anchor te' = te_root_anchor te /\
  te_pending_unlink te' = te_pending_unlink te.

Definition quiet {A} (m : Purge Env A) : Prop :=
  forall te, pspec m te (λ _ te' c, Forall reads c /\ same te te').

Lemma quiet_ret {A} (a : A) : quiet (pret a).
Proof. intros te. by apply pspec_ret. Qed.
Lemma quiet_fail {A} e : quiet (pfail e : Purge Env A).
Proof. intros te. by apply pspec_fail. Qed.
Lemma quiet_get : quiet pget.
Proof. intros te w. exists []. by rewrite app_nil_r. Qed.
Lemma quiet_set f : (forall te, same te (f te)) -> quiet (pset f).
Proof. intros Hf te. apply pspec_set. by split. Qed.
Lemma quiet_bind {A B} (m : Purge Env A) (k : A -> Purge Env B) :
  quiet m -> (forall a, quiet (k a)) -> quiet (pbind m k).
Proof.
  intros Hm Hk te. eapply pspec_bind; [apply Hm| |done]. intros a te' c [Hc (E1 & E2 & E3 & E4)].
  eapply pspec_weaken; [apply Hk|]. intros r te'' c' [Hc' (F1 & F2 & F3 & F4)].
  split; [by apply Forall_app|]. unfold same. split_and!; congruence.
Qed.
Lemma quiet_call {A} (run : Env -> A * Env) event :
  (forall a, reads (event a)) -> quiet (plift (syscall run event)).
Proof.
  intros He te w. unfold plift, bind, syscall, ret. destruct (run (w_env w)) as [a env].
  exists [event a]. cbn. split; [done|]. split; [by constructor|done].
Qed.
Lemma quiet_io_call {A} (run : Env -> result Errno A * Env) event :
  (forall a, reads (event a)) -> quiet (pio (io_of (syscall run event))).
Proof. intros He te. by apply pspec_io_call; intros; (split; [constructor|]). Qed.
Lemma quiet_invalid {A} text : quiet (invalid text : Purge Env A).
Proof. apply quiet_fail. Qed.
Lemma quiet_unless b text : quiet (invalid_unless b text : Purge Env unit).
Proof. unfold invalid_unless. destruct b; [apply quiet_ret|apply quiet_fail]. Qed.
End pspec.

(** Walks through a program that only looks. *)
Ltac quiet_step :=
  intros; cbv beta zeta;
  match goal with
  | |- quiet (pbind _ _) => apply quiet_bind
  | |- quiet (pret _) => apply quiet_ret
  | |- quiet (pfail _) => apply quiet_fail
  | |- quiet (invalid _) => apply quiet_invalid
  | |- quiet (invalid_unless _ _) => apply quiet_unless
  | |- quiet pget => apply quiet_get
  | |- quiet (pset _) => apply quiet_set; done
  | |- quiet (plift (syscall _ _)) => apply quiet_call; done
  | |- quiet (pio (io_of (syscall _ _))) => apply quiet_io_call; done
  | |- quiet (match ?x with _ => _ end) => destruct x
  end.
Ltac quiet_auto := repeat (quiet_step || solve [eauto with purge nocore]).


(** ** The parts of a slice *)

Section parts.
Context {Env : Type} `{Os Env} `{UuidLib} (sha256 : bytes -> bytes) (room : nat -> bool).

(** A statement about the result alone. *)
Definition yields {A} (m : Purge Env A) (R : result IoError A -> Prop) : Prop := forall te w, R (m te w).1.1.

Lemma yields_bind {A B} (m : Purge Env A) (k : A -> Purge Env B) R :
  (forall a, yields (k a) R) -> (forall e, R (Err e)) -> yields (pbind m k) R.
Proof.
  intros Hk He te w. unfold pbind, bind. destruct (m te w) as [[[a|e] te'] w']; [apply Hk|apply He].
Qed.

Lemma pspec_yields {A} (m : Purge Env A) te Q R :
  pspec m te Q -> yields m R -> pspec m te (λ r te' c, Q r te' c /\ R r).
Proof. intros Hm HR w. destruct (Hm w) as (c & Hc & HQ). exists c. split; [done|]. split; [done|apply HR]. Qed.

Lemma should_pause_spec examined max_entries :
  spec (should_pause examined max_entries) (λ b c, Forall reads c /\ (b = false -> examined < max_entries)).
Proof.
  unfold should_pause, sys_interrupted, sys_deadline. apply spec_bind_call. intros [].
  - apply spec_ret. by repeat constructor.
  - destruct (Z.leb_spec max_entries examined); [by apply spec_ret; repeat constructor|].
    apply spec_call. intros b. by repeat constructor.
Qed.

Lemma should_pause_quiet examined max_entries : quiet (plift (should_pause examined max_entries)).
Proof.
  intros te. unfold pspec, plift. eapply spec_bind; [apply should_pause_spec|]. intros b c [Hc _].
  apply spec_ret. rewrite app_nil_r. done.
Qed.
#[local] Hint Resolve should_pause_quiet : purge.

Lemma update_quiet directory depth : quiet (update_purge_directory_revision directory depth).
Proof. unfold update_purge_directory_revision, sys_fstat. quiet_auto. Qed.
#[local] Hint Resolve update_quiet : purge.

Lemma remember_quiet directory depth : quiet (remember_purge_directory directory depth).
Proof. unfold remember_purge_directory, retain_purge_directory, sys_dup. quiet_auto. Qed.
#[local] Hint Resolve remember_quiet : purge.

Lemma remember_current_quiet directory : quiet (remember_current directory).
Proof. unfold remember_current. quiet_auto. Qed.
#[local] Hint Resolve remember_current_quiet : purge.

Lemma advance_quiet cursor : quiet (advance_cursor cursor : Purge Env unit).
Proof. unfold advance_cursor. quiet_auto. Qed.
#[local] Hint Resolve advance_quiet : purge.

Lemma push_quiet name entry revision : quiet (push_frame name entry revision : Purge Env unit).
Proof. unfold push_frame. quiet_auto. Qed.
#[local] Hint Resolve push_quiet : purge.

Lemma reserve_quiet : quiet (reserve_purge_directory_slot room : Purge Env unit).
Proof. unfold reserve_purge_directory_slot. quiet_auto. Qed.
#[local] Hint Resolve reserve_quiet : purge.

Lemma descend_quiet frames current depth examined max_entries :
  quiet (descend_stack frames current depth examined max_entries).
Proof.
  revert current depth examined. induction frames as [|f frames IH]; intros; cbn [descend_stack];
    unfold sys_openat, sys_fstat, sys_statat; quiet_auto.
Qed.
#[local] Hint Resolve descend_quiet : purge.

Lemma open_current_quiet examined max_entries : quiet (open_current_purge_directory examined max_entries).
Proof. unfold open_current_purge_directory, sys_openat, sys_fstat, sys_read_dir. quiet_auto. Qed.
#[local] Hint Resolve open_current_quiet : purge.

Lemma next_entry_quiet entries directory examined max_entries :
  quiet (next_entry entries directory examined max_entries).
Proof.
  induction entries as [|[entry|e] entries IH]; cbn [next_entry]; quiet_auto.
Qed.
#[local] Hint Resolve next_entry_quiet : purge.

Lemma enter_child_quiet directory name cursor metadata :
  quiet (enter_child room directory name cursor metadata).
Proof. unfold enter_child, sys_openat, sys_statat, sys_fstat, sys_read_dir. quiet_auto. Qed.


(** The handles the stack is walked with are counted. *)
Lemma descend_counts frames current depth examined max_entries :
  yields (descend_stack frames current depth examined max_entries)
    (λ r, forall fd examined', r = Ok (Some (fd, examined')) -> examined <= examined').
Proof.
  revert current depth examined. induction frames as [|f frames IH]; intros; cbn [descend_stack].
  { intros te w fd ex' [= <- <-]. lia. }
  apply yields_bind; [|done]. intros []; [by apply yields_bind|].
  apply yields_bind; [|done]. intros [next|e].
  - apply yields_bind; [|done]. intros st. apply yields_bind; [|done]. intros [named|e].
    + apply yields_bind; [|done]. intros _ te w fd ex' E. apply IH in E. lia.
    + by destruct (e =? NOENT).
  - apply yields_bind; [|done]. intros named. destruct (match named with Ok _ => _ | Err _ => _ end); [done|].
    by apply yields_bind.
Qed.

Lemma open_current_counts examined max_entries :
  yields (open_current_purge_directory examined max_entries)
    (λ r, forall d examined', r = Ok (Some (d, examined')) -> examined <= examined').
Proof.
  unfold open_current_purge_directory. do 2 (apply yields_bind; [intros ?|done]).
  apply yields_bind; [|done]. intros [current depth]. apply yields_bind; [|done]. intros stat.
  destruct (te_purge_stack a !! pred depth) as [frame|]; [|done].
  apply yields_bind; [|done]. intros _ te w d ex'. unfold pbind, bind.
  pose proof (descend_counts (drop depth (te_purge_stack a)) current depth examined max_entries te w) as Hd.
  destruct (descend_stack _ _ _ _ _ te w) as [[[[[fd ex1]|]|e] te'] w']; try done. cbn in Hd.
  specialize (Hd fd ex1 eq_refl). destruct (last (te_purge_stack a)) as [f|]; [|done].
  intros E. enough (ex' = ex1) as -> by done. revert E. generalize te' w'.
  change (yields (step read <- plift (sys_read_dir fd (pd_cursor f));
    match read with
    | Ok entries => pret (Some (mkDir fd entries, ex1))
    | Err e => step _ <- (if pd_cursor f =? 0 then pret tt
         else remember_purge_directory fd (length (te_purge_stack a))); pfail (errno_io e)
    end) (λ r, r = Ok (Some (d, ex')) -> ex' = ex1)).
  apply yields_bind; [|done]. intros [entries|e]; [by intros ? ? [= _ ->]|].
  by apply yields_bind.
Qed.

(** *** Setting aside and removing *)

(** [dir] was seen to hold, under the quarantine name [name], what a handle pins. *)
Definition ready (dir : Fd) (name : bytes) (c : list SysCall) : Prop :=
  exists before old id anchor pinned named,
    c = before ++ [Renameat dir old dir (quarantine_name id) true (Ok tt);
                   Fstat anchor (Ok pinned); Statat dir (quarantine_name id) (Ok named)] /\
    tidy before /\ name = quarantine_name id /\
    replacement_target_identity pinned = replacement_target_identity named.

Lemma ready_unlink dir name removedir answer c l :
  ready dir name c -> tidy l -> tidy (c ++ Unlinkat dir name removedir answer :: l).
Proof.
  intros (before & old & id & anchor & s1 & s2 & -> & Hb & -> & E) Hl. rewrite <- app_assoc.
  apply tidy_app; [done|]. by apply tidy_unlink.
Qed.

Lemma ready_app dir name c l : tidy l -> ready dir name c -> ready dir name (l ++ c).
Proof.
  intros Hl (before & old & id & anchor & s1 & s2 & -> & Hb & -> & E). exists (l ++ before), old, id, anchor, s1, s2.
  rewrite app_assoc. eauto with purge.
Qed.

Lemma isolate_spec attempts parent name anchor description :
  spec (isolate attempts parent name anchor description) (λ p c,
    tidy c /\ unlinks c = 0 /\ (p.1 = Ok true -> ready parent p.2 c)).
Proof.
  induction attempts as [|n IH]; cbn [isolate]; [apply spec_ret; by split_and!; [constructor| |]|].
  unfold sys_new_uuid, sys_renameat, sys_fstat, sys_statat. apply spec_bind_call. intros id.
  apply spec_bind_call. intros [[]|e].
  - assert (forall c, Forall reads c -> let l := NewUuid id :: Renameat parent name parent (quarantine_name id)
      true (Ok tt) :: c in tidy l /\ unlinks l = 0) as Hl.
    { intros c Hc. cbn zeta. rewrite !unlinks_cons, (unlinks_reads c Hc). by split; [repeat constructor; auto with purge|]. }
    repeat spec_step; match goal with |- tidy (_ :: _ :: ?c) /\ _ =>
      destruct (Hl c) as [??]; [by repeat constructor|] end; split_and!; try done.
    intros _. bool_prop. by exists [NewUuid id], name, id, anchor, a0, a2; split_and!; [|repeat constructor| |].
  - repeat spec_step.
    { eapply spec_weaken; [apply IH|]. intros p c (Hc & Hu & Hr). rewrite !unlinks_cons. split_and!.
      - by repeat constructor.
      - by rewrite Hu.
      - intros E. apply (ready_app parent _ c [_; _]); [by repeat constructor|auto]. }
    all: by split_and!; [repeat constructor| |].
Qed.

Lemma unlink_isolated_spec parent name removedir description te :
  pspec (unlink_isolated parent name removedir description) te (λ _ te' c,
    te' = te /\ exists answer, c = [Unlinkat parent name removedir answer]).
Proof.
  unfold unlink_isolated, sys_unlinkat. apply pspec_bind_call. intros [[]|e].
  - apply pspec_ret. eauto.
  - destruct (e =? NOENT); [apply pspec_ret; eauto|].
    destruct (_ && _); apply pspec_fail; eauto.
Qed.

(** At most [n] removals, each of an entry that was set aside and checked. *)
Definition removes (n : Z) (te te' : TrashEntry) (c : list SysCall) : Prop :=
  tidy c /\ unlinks c <= n /\ same te te'.

Lemma removes_reads n te te' c c' : Forall reads c -> removes n te te' c' -> removes n te te' (c ++ c').
Proof.
  intros Hc (Ht & Hu & Hs). split_and!; [auto with purge| |done].
  rewrite unlinks_app, (unlinks_reads c Hc). lia.
Qed.

Lemma removes_read n te te' e c : reads e -> removes n te te' c -> removes n te te' (e :: c).
Proof. intros He. apply (removes_reads n te te' [e]). by constructor. Qed.

Lemma removes_quiet n te te' c : 0 <= n -> Forall reads c -> same te te' -> removes n te te' c.
Proof. intros Hn Hc Hs. split_and!; [auto with purge| |done]. by rewrite (unlinks_reads c Hc). Qed.

Lemma same_trans te te1 te2 : same te te1 -> same te1 te2 -> same te te2.
Proof. intros (?&?&?&?) (?&?&?&?). unfold same. split_and!; congruence. Qed.

Lemma removes_app n m te te1 te2 c c' :
  removes n te te1 c -> removes m te1 te2 c' -> removes (n + m) te te2 (c ++ c').
Proof.
  intros (Ht & Hu & Hs) (Ht' & Hu' & Hs'). split_and!; [auto with purge| |eauto using same_trans].
  rewrite unlinks_app. lia.
Qed.

(** A quiet program, as a part of one that removes. *)
Lemma quiet_removes {A} (m : Purge Env A) n te :
  0 <= n -> quiet m -> pspec m te (λ _ te' c, removes n te te' c).
Proof. intros Hn Hm. eapply pspec_weaken; [apply Hm|]. intros r te' c [??]. by apply removes_quiet. Qed.

(** Setting an entry aside, then removing it and doing [k]. *)
Lemma isolate_unlink_spec {A} parent name anchor description removedir te (gone k : Purge Env A) :
  quiet gone -> quiet k ->
  pspec (step (r, name) <- plift (isolate_anchored_entry_for_unlink parent name anchor description);
         step isolated <- pio (ret r);
         if negb isolated then gone
         else step _ <- unlink_isolated parent name removedir description; k) te
    (λ _ te' c, removes 1 te te' c).
Proof.
  intros Hg Hk. eapply pspec_bind_lift; [apply isolate_spec|]. intros [r name'] c (Ht & Hu & Hr). cbn [fst snd] in Hr.
  assert (removes 0 te te c) as Hc by (split_and!; [done|lia|done]).
  apply pspec_bind_result; [intros [] ->|intros e ->; rewrite app_nil_r]; cbn [negb].
  - eapply pspec_bind; [apply unlink_isolated_spec| |].
    + intros [] te1 c1 [-> [answer ->]]. eapply pspec_weaken; [apply Hk|]. intros r te2 c2 [Hc2 Hs].
      split_and!; [|rewrite unlinks_app, unlinks_app, (unlinks_reads c2 Hc2), Hu; by cbn|done].
      cbn [app]. apply ready_unlink; auto with purge.
    + intros e te1 c1 [-> [answer ->]]. split_and!; [apply ready_unlink; [auto|constructor]| |done].
      by rewrite unlinks_app, Hu.
  - eapply pspec_weaken; [apply Hg|]. intros r te2 c2 [Hc2 Hs].
    apply (removes_app 0 1 te te); [done|]. by apply removes_quiet.
  - destruct Hc as (?&?&?). split_and!; [done|lia|done].
Qed.
End parts.

(** Symbolic execution, call by call. *)
Ltac pstep :=
  intros; cbv beta zeta;
  match goal with
  | |- pspec (pbind pget _) _ _ => apply pspec_bind_get
  | |- pspec (pbind (pset _) _) _ _ => apply pspec_bind_set
  | |- pspec (pbind (plift (syscall _ _)) _) _ _ => apply pspec_bind_call
  | |- pspec (pbind (pio (io_of (syscall _ _))) _) _ _ => apply pspec_bind_io_call
  | |- pspec (pio (io_of (syscall _ _))) _ _ => apply pspec_io_call
  | |- pspec (pbind (invalid_unless _ _) _) _ _ => apply pspec_bind_unless
  | |- pspec (pret _) _ _ => apply pspec_ret
  | |- pspec (pfail _) _ _ => apply pspec_fail
  | |- pspec (invalid _) _ _ => apply pspec_fail
  | |- pspec (match ?x with _ => _ end) _ _ => destruct x eqn:?
  end.

Section rounds.
Context {Env : Type} `{Os Env} `{UuidLib} (sha256 : bytes -> bytes) (room : nat -> bool).

#[local] Hint Resolve update_quiet remember_quiet remember_current_quiet advance_quiet push_quiet
  reserve_quiet descend_quiet open_current_quiet next_entry_quiet enter_child_quiet : purge.

Ltac quietly := (intros; apply removes_quiet; [lia|by repeat constructor|done]).

Lemma remove_pending_spec completed parent te :
  pspec (remove_pending completed parent : Purge Env unit) te (λ _ te' c, removes 1 te te' c).
Proof.
  unfold remove_pending, sys_fstat, sys_statat. repeat pstep; try quietly. intros _.
  eapply pspec_weaken; [apply isolate_unlink_spec; quiet_auto|].
  intros r te' c Hc. by repeat (apply removes_read; [done|]).
Qed.

Lemma remove_child_spec directory name cursor metadata te :
  pspec (remove_child directory name cursor metadata : Purge Env unit) te (λ _ te' c, removes 1 te te' c).
Proof.
  unfold remove_child, sys_openat, sys_fstat, sys_statat.
  assert (forall l, Forall reads l -> pspec (advance_cursor cursor : Purge Env unit) te
    (λ _ te' c, removes 1 te te' (l ++ c))) as Hadv.
  { intros l Hl. eapply pspec_weaken; [apply advance_quiet|]. intros r te' c [??].
    apply removes_reads; [done|]. by apply removes_quiet. }
  repeat pstep; try quietly.
  - intros _. eapply pspec_weaken; [apply isolate_unlink_spec; quiet_auto|].
    intros r te' c Hc. by repeat (apply removes_read; [done|]).
  - apply (Hadv [_; _; _]). by repeat constructor.
  - apply (Hadv [_]). by repeat constructor.
Qed.

(** The end of a purge: at most one removal, and success is durable. *)
Definition finishes (te : TrashEntry) (r : result IoError bool) (te' : TrashEntry) (c : list SysCall) : Prop :=
  tidy c /\ unlinks c <= 1 /\ te_parent te' = te_parent te /\ (r = Ok true -> synced (te_parent te) c).

Lemma finishes_reads te r te' c c' : Forall reads c -> finishes te r te' c' -> finishes te r te' (c ++ c').
Proof.
  intros Hc (Ht & Hu & Hp & Hr). split_and!; [auto with purge| |done|auto with purge].
  rewrite unlinks_app, (unlinks_reads c Hc). lia.
Qed.

Lemma finishes_read te r te' e c : reads e -> finishes te r te' c -> finishes te r te' (e :: c).
Proof. intros He. apply (finishes_reads te r te' [e]). by constructor. Qed.

Lemma finishes_quiet te r te' c :
  Forall reads c -> te_parent te' = te_parent te -> r <> Ok true -> finishes te r te' c.
Proof. intros Hc Hp Hr. split_and!; [auto with purge| |done|done]. by rewrite (unlinks_reads c Hc). Qed.

Lemma sync_spec' te : pspec sync_and_finish te (λ r te' c, finishes te r te' c /\ Forall reads c).
Proof.
  unfold sync_and_finish, sys_fsync. apply pspec_bind_get. apply pspec_bind_io_call.
  - intros []. apply pspec_ret. split; [|by repeat constructor]. split_and!; try done; [by repeat constructor|].
    auto with purge.
  - intros e. split; [apply finishes_quiet; by repeat constructor|by repeat constructor].
Qed.

Lemma sync_finishes te : pspec sync_and_finish te (finishes te).
Proof. eapply pspec_weaken; [apply sync_spec'|]. by intros r te' c [??]. Qed.

Lemma remove_self_spec removedir description te :
  pspec (remove_self removedir description) te (finishes te).
Proof.
  unfold remove_self, isolate_self.
  eapply (pspec_bind _ _ _ (λ r te' c, tidy c /\ unlinks c = 0 /\ te_parent te' = te_parent te /\
    (r = Ok true -> ready (te_parent te') (te_name te') c))).
  - unfold pspec. eapply spec_bind; [apply isolate_spec|]. intros [r name] c (Ht & Hu & Hr).
    apply spec_ret. rewrite app_nil_r. by split_and!.
  - intros [] te1 c (Ht & Hu & Hp & Hr); cbn [negb].
    + apply pspec_bind_get. eapply pspec_bind; [apply unlink_isolated_spec| |].
      * intros [] te2 c2 [-> [answer ->]]. eapply pspec_weaken; [apply sync_spec'|].
        intros r te2 c2 [(Ht2 & Hu2 & Hp2 & Hr2) Hc2]. rewrite Hp in Hr2. cbn [app]. split_and!.
        -- apply ready_unlink; auto.
        -- rewrite unlinks_app, unlinks_cons, (unlinks_reads c2 Hc2). cbn. lia.
        -- congruence.
        -- intros E. apply synced_app. apply (synced_app _ [_]). auto.
      * intros e te2 c2 [-> [answer ->]]. split_and!; [apply ready_unlink; [auto|constructor]| |done|done].
        rewrite unlinks_app, Hu. by cbn.
    + eapply pspec_weaken; [apply sync_spec'|]. intros r te2 c2 [(Ht2 & Hu2 & Hp2 & Hr2) Hc2].
      split_and!; [auto with purge|rewrite unlinks_app; lia|congruence|].
      rewrite Hp in Hr2. auto with purge.
  - intros e te1 c (Ht & Hu & Hp & Hr). split_and!; [done|lia|done|done].
Qed.

(** Cuts the calls made so far off a goal about what follows. *)
Ltac after_reads :=
  intros; eapply pspec_weaken; [apply remove_self_spec || apply sync_finishes|];
  intros; repeat (apply finishes_read; [done|]); done.

Lemma purge_file_spec te : pspec (purge_file sha256) te (finishes te).
Proof.
  unfold purge_file, sys_interrupted, sys_deadline, sys_fstat, sys_statat.
  repeat pstep; try after_reads; intros; apply finishes_quiet; try done; by repeat constructor.
Qed.

Lemma remove_root_spec completed te : pspec (remove_root completed) te (finishes te).
Proof.
  unfold remove_root, sys_fstat, sys_statat.
  repeat pstep; try after_reads; intros; apply finishes_quiet; try done; by repeat constructor.
Qed.

(** *** The loop *)

(** What is left of the budget. *)
Definition left_over (examined max_entries : Z) : Z := Z.max 0 (max_entries - examined).

(** Decreases with every round that goes on. *)
Definition measure (te : TrashEntry) (examined max_entries : Z) : Z :=
  2 * left_over examined max_entries + (match te_pending_unlink te with Some _ => 0 | None => 1 end).

Definition round_ok (te : TrashEntry) (examined max_entries : Z) (r : result IoError SliceRound)
    (te' : TrashEntry) (c : list SysCall) : Prop :=
  tidy c /\ te_parent te' = te_parent te /\
  match r with
  | Ok (SliceGoesOn _ examined') =>
      unlinks c + left_over examined' max_entries <= left_over examined max_entries /\
      measure te' examined' max_entries < measure te examined max_entries
  | _ =>
      unlinks c <= left_over examined max_entries /\ (r = Ok (SliceEnds true) -> synced (te_parent te) c)
  end.

Lemma round_ok_reads te examined max_entries r te' c c' :
  Forall reads c -> round_ok te examined max_entries r te' c' ->
  round_ok te examined max_entries r te' (c ++ c').
Proof.
  intros Hc (Ht & Hp & Hr). split_and!; [auto with purge|done|].
  rewrite unlinks_app, (unlinks_reads c Hc). destruct r as [[[]|]|]; naive_solver (auto with purge).
Qed.

(** A quiet stop. *)
Lemma round_ok_stop te examined max_entries r te' c :
  Forall reads c -> same te te' -> (r = Ok (SliceEnds false) \/ exists e, r = Err e) ->
  round_ok te examined max_entries r te' c.
Proof.
  intros Hc Hs Hr. split_and!; [auto with purge|apply Hs|]. rewrite (unlinks_reads c Hc). unfold left_over.
  destruct Hr as [->|[e ->]]; (split; [lia|done]).
Qed.

(** A round that examined one entry, and started without a pending one. *)
Lemma round_ok_one te examined max_entries r te' c :
  examined < max_entries -> te_pending_unlink te = None -> removes 1 te te' c ->
  (exists d, r = Ok (SliceGoesOn d (examined + 1))) \/ (exists e, r = Err e) ->
  round_ok te examined max_entries r te' c.
Proof.
  intros Hlt Hn (Ht & Hu & Hp & _ & _ & Hs) Hr. unfold round_ok, measure, left_over. rewrite Hs, Hn.
  destruct Hr as [[d ->]|[e ->]]; split_and!; try done; lia.
Qed.

Lemma end_of_directory_spec directory examined max_entries te :
  examined < max_entries -> te_pending_unlink te = None ->
  pspec (end_of_directory directory examined max_entries) te (round_ok te examined max_entries).
Proof.
  intros Hlt Hn. unfold end_of_directory. apply pspec_bind_get.
  eapply pspec_bind; [apply update_quiet| |intros; apply round_ok_stop; naive_solver].
  intros _ te1 c1 [Hc1 Hs1].
  eapply (pspec_bind _ _ _ (λ _ te' c, Forall reads c /\ same te1 te')).
  { unfold sys_dup. revert te1 Hs1. enough (quiet (if (1 <? length (te_purge_stack te))%nat
      then step copy <- pio (io_of (syscall (os_dup directory) (Dup directory))); pret (Some copy)
      else (pret None : Purge Env _))) as Hq by (intros; apply Hq). quiet_auto. }
  2: { intros e te2 c2 [Hc2 Hs2]. apply round_ok_stop; [by apply Forall_app|eauto using same_trans|eauto]. }
  intros anchor te2 c2 [Hc2 Hs2]. apply pspec_bind_get.
  assert (same te te2) as Hs by eauto using same_trans.
  destruct (last (te_purge_stack te2)) as [completed|].
  2: { apply pspec_fail. rewrite app_nil_r. apply round_ok_stop; [by apply Forall_app|done|eauto]. }
  apply pspec_bind_set. destruct (without_last (te_purge_stack te2)) as [|f rest] eqn:Er.
  - eapply pspec_bind; [apply remove_root_spec| |].
    + intros b te3 c3 (Ht & Hu & Hp & Hr). apply pspec_ret. rewrite app_nil_r, app_assoc.
      apply round_ok_reads; [by apply Forall_app|]. cbn in Hp, Hr. destruct Hs as [Hs _]. rewrite Hs in *.
      unfold round_ok, left_over. split_and!; [done..|lia|]. intros [= ->]. auto.
    + intros e te3 c3 (Ht & Hu & Hp & Hr). rewrite app_assoc. apply round_ok_reads; [by apply Forall_app|].
      cbn in Hp, Hr. destruct Hs as [Hs _]. rewrite Hs in *. unfold round_ok, left_over. split_and!; [done..|lia|done].
  - apply pspec_bind_set. eapply pspec_bind.
    { apply pspec_yields; [apply open_current_quiet|apply open_current_counts]. }
    + intros [[d ex']|] te3 c3 [[Hc3 Hs3] Hy]; apply pspec_ret; rewrite app_nil_r, app_assoc;
        (apply round_ok_reads; [by apply Forall_app|]); destruct Hs3 as (Hp & _ & _ & Hpend), Hs as [Hs _];
        cbn in Hp, Hpend; rewrite Hs in Hp.
      * specialize (Hy d ex' eq_refl). unfold round_ok, measure, left_over.
        rewrite (unlinks_reads c3 Hc3), Hpend, Hn. split_and!; [auto with purge|done|lia|lia].
      * unfold round_ok, left_over. rewrite (unlinks_reads c3 Hc3). split_and!; [auto with purge|done|lia|done].
    + intros e te3 c3 [[Hc3 Hs3] Hy]. rewrite app_assoc. apply round_ok_reads; [by apply Forall_app|].
      destruct Hs3 as (Hp & _), Hs as [Hs _]. cbn in Hp. rewrite Hs in Hp.
      unfold round_ok, left_over. rewrite (unlinks_reads c3 Hc3). split_and!; [auto with purge|done|lia|done].
Qed.

Lemma purge_child_spec directory name cursor examined max_entries te :
  examined < max_entries -> te_pending_unlink te = None ->
  pspec (purge_child room directory name cursor (examined + 1)) te (round_ok te examined max_entries).
Proof.
  intros Hlt Hn. unfold purge_child, sys_statat. apply pspec_bind_call.
  assert (forall A (m : Purge Env A) (k : A -> OpenDir) call, reads call ->
    pspec m te (λ _ te' c, removes 1 te te' c) ->
    pspec (step a <- m; pret (SliceGoesOn (k a) (examined + 1))) te
      (λ r te' c, round_ok te examined max_entries r te' (call :: c))) as Hstep.
  { intros A m k call Hcall Hm. eapply pspec_bind; [exact Hm| |].
    - intros a te' c Hc. apply pspec_ret. rewrite app_nil_r. apply round_ok_one; eauto using removes_read.
    - intros e te' c Hc. apply round_ok_one; eauto using removes_read. }
  intros [metadata|e].
  - destruct (from_raw_mode _); try (apply (Hstep _ _ (λ _, directory)); [done|]; apply remove_child_spec).
    apply (Hstep _ _ (λ child, match child with Some child => child | None => directory end)); [done|].
    apply quiet_removes; [lia|]. apply enter_child_quiet.
  - destruct (e =? NOENT).
    + apply (Hstep _ _ (λ _, directory)); [done|]. apply quiet_removes; [lia|]. apply advance_quiet.
    + eapply pspec_bind; [apply remember_current_quiet| |].
      * intros _ te' c [Hc Hs]. apply pspec_fail. rewrite app_nil_r. apply round_ok_stop; [by constructor|done|eauto].
      * intros e' te' c [Hc Hs]. apply round_ok_stop; [by constructor|done|eauto].
Qed.

Lemma slice_round_spec directory examined max_entries te :
  pspec (slice_round room directory examined max_entries) te (round_ok te examined max_entries).
Proof.
  unfold slice_round. eapply pspec_bind_lift; [apply should_pause_spec|]. intros [] c [Hc Hlt].
  { eapply pspec_bind; [apply remember_current_quiet| |].
    - intros _ te' c' [Hc' Hs]. apply pspec_ret. rewrite app_nil_r. apply round_ok_stop; [by apply Forall_app|done|auto].
    - intros e te' c' [Hc' Hs]. apply round_ok_stop; [by apply Forall_app|done|eauto]. }
  specialize (Hlt eq_refl). apply pspec_bind_get.
  destruct (te_pending_unlink te) as [completed|] eqn:Hp.
  - apply pspec_bind_set. eapply pspec_bind; [apply remove_pending_spec| |].
    + intros _ te' c' (Ht & Hu & H1 & _ & _ & Hs). apply pspec_ret. rewrite app_nil_r.
      apply round_ok_reads; [done|]. unfold round_ok, measure, left_over. rewrite Hs, Hp. cbn.
      split_and!; [done..|lia|lia].
    + intros e te' c' (Ht & Hu & H1 & _ & _ & Hs). apply round_ok_reads; [done|].
      unfold round_ok, left_over. split_and!; [done..|lia|done].
  - eapply pspec_bind; [apply next_entry_quiet| |].
    + intros next te' c' [Hc' Hs].
      assert (forall r te'' c'', round_ok te' examined max_entries r te'' c'' ->
        round_ok te examined max_entries r te'' (c ++ c' ++ c'')) as Hround.
      { intros r te'' c'' Hok. rewrite app_assoc. apply round_ok_reads; [by apply Forall_app|].
        destruct Hs as (E1 & _ & _ & E4). unfold round_ok, measure in *. by rewrite E1, E4 in Hok. }
      assert (te_pending_unlink te' = None) as Hp' by (destruct Hs as (_ & _ & _ & ->); done).
      destruct next as [| |name cursor rest].
      * apply pspec_ret. apply Hround, round_ok_stop; [done|done|auto].
      * eapply pspec_weaken; [by apply end_of_directory_spec|exact Hround].
      * destruct (is_quarantine_entry_name name).
        -- apply pspec_fail. apply Hround, round_ok_stop; [done|done|eauto].
        -- eapply pspec_weaken; [by apply purge_child_spec|exact Hround].
    + intros e te' c' [Hc' Hs]. apply round_ok_reads; [done|]. apply round_ok_stop; eauto.
Qed.
End rounds.

(** ** Slices *)

Section slices.
Context {Env : Type} `{Os Env} `{UuidLib} (sha256 : bytes -> bytes) (room : nat -> bool).

(** A slice that may examine [n] more entries. *)
Definition slice_ok (te : TrashEntry) (n : Z) (r : result IoError (option bool)) (te' : TrashEntry)
    (c : list SysCall) : Prop :=
  tidy c /\ te_parent te' = te_parent te /\ unlinks c <= n /\ r <> Ok None /\
  (r = Ok (Some true) -> synced (te_parent te) c).

Lemma slice_ok_reads te n r te1 te' c c' :
  Forall reads c -> te_parent te1 = te_parent te -> slice_ok te1 n r te' c' -> slice_ok te n r te' (c ++ c').
Proof.
  intros Hc E (Ht & Hp & Hu & Hn & Hr). rewrite E in *. split_and!; [auto with purge|done| |done|auto with purge].
  rewrite unlinks_app, (unlinks_reads c Hc). lia.
Qed.

Lemma slice_ok_stop te n r te' c :
  Forall reads c -> te_parent te' = te_parent te -> 0 <= n -> r <> Ok None -> r <> Ok (Some true) ->
  slice_ok te n r te' c.
Proof. intros Hc E Hn H1 H2. split_and!; [auto with purge|done|by rewrite (unlinks_reads c Hc)|done|done]. Qed.

Lemma slice_loop_spec fuel directory examined max_entries te :
  measure te examined max_entries < Z.of_nat fuel ->
  pspec (slice_loop room fuel directory examined max_entries) te
    (slice_ok te (left_over examined max_entries)).
Proof.
  revert directory examined te. induction fuel as [|fuel IH]; intros directory examined te Hf; cbn [slice_loop].
  { unfold measure, left_over in Hf. destruct (te_pending_unlink te); lia. }
  eapply pspec_bind; [apply slice_round_spec| |].
  - intros [b|d' ex'] te' c (Ht & Hp & Hr).
    + destruct Hr as [Hu Hr]. apply pspec_ret. rewrite app_nil_r. split_and!; [done..|]. intros [= ->]. auto.
    + destruct Hr as [Hu Hm]. eapply pspec_weaken; [apply IH; lia|].
      intros r te'' c' (Ht' & Hp' & Hu' & Hn & Hr'). rewrite Hp in *. split_and!; [auto with purge|done| |done|auto with purge].
      rewrite unlinks_app. lia.
  - intros e te' c (Ht & Hp & Hu & Hr). split_and!; done.
Qed.

Lemma slice_loop_enough directory examined max_entries te :
  0 <= examined -> 0 <= max_entries ->
  pspec (slice_loop room (slice_fuel max_entries) directory examined max_entries) te (slice_ok te max_entries).
Proof.
  intros He Hm. eapply pspec_weaken; [apply slice_loop_spec|].
  - unfold measure, left_over, slice_fuel. destruct (te_pending_unlink te); lia.
  - intros r te' c (?&?&Hu&?&?). split_and!; try done. unfold left_over in Hu. lia.
Qed.

(** Opening the directory of the entry. *)
Lemma open_purge_root_spec te :
  pspec (open_purge_root sha256 room) te (λ r te' c,
    Forall reads c /\ te_parent te' = te_parent te /\ (r = Ok (inl true) -> synced (te_parent te) c)).
Proof.
  unfold open_purge_root, sys_interrupted, sys_deadline, sys_openat, sys_statat, sys_fstat, sys_read_dir.
  assert (forall l, Forall reads l -> pspec (step complete <- sync_and_finish; pret (inl complete : bool + OpenDir)) te
    (λ r te' c, Forall reads (l ++ c) /\ te_parent te' = te_parent te /\
       (r = Ok (inl true) -> synced (te_parent te) (l ++ c)))) as Hsync.
  { intros l Hl. eapply pspec_bind; [apply sync_spec'| |].
    - intros b te' c [(_ & _ & Hp & Hr) Hc]. apply pspec_ret. rewrite app_nil_r. split_and!; [by apply Forall_app|done|].
      intros [= ->]. auto with purge.
    - intros e te' c [(_ & _ & Hp & Hr) Hc]. split_and!; [by apply Forall_app|done|done]. }
  repeat pstep; try (intros; split_and!; [by repeat constructor|done|done]).
  - intros entries. eapply pspec_weaken.
    { apply (pspec_yields _ _ (λ _ te' c, Forall reads c /\ same te te') (λ r, r <> Ok (inl true))).
      - enough (quiet (step _ <- reserve_purge_directory_slot room;
          step _ <- push_frame (te_name te) (te_identity te) (replacement_target_identity a3);
          pret (inr (mkDir a2 entries) : bool + OpenDir))) as Hq by apply Hq.
        apply quiet_bind; [apply reserve_quiet|intros _]. apply quiet_bind; [apply push_quiet|intros _]. apply quiet_ret.
      - by repeat (apply yields_bind; [intros _|done]). }
    intros r te' c [[Hc [Hs _]] Hr]. split_and!; [by repeat constructor|done|done].
  - apply (Hsync [_; _; _]). by repeat constructor.
  - apply (Hsync [_; _; _; _]). by repeat constructor.
Qed.

Lemma purge_slice_blocking_spec max_entries te :
  0 <= max_entries -> 1 <= max_entries ->
  pspec (purge_slice_blocking sha256 room max_entries) te (slice_ok te max_entries).
Proof.
  intros Hm H1. unfold purge_slice_blocking. apply pspec_bind_get. destruct (negb (te_is_dir te)).
  { eapply pspec_bind; [apply purge_file_spec| |].
    - intros b te' c (Ht & Hu & Hp & Hr). apply pspec_ret. rewrite app_nil_r. split_and!; [done..|lia|done|].
      intros [= ->]. auto.
    - intros e te' c (Ht & Hu & Hp & Hr). split_and!; [done..|lia|done|done]. }
  destruct (te_purge_stack te) as [|f rest].
  - eapply pspec_bind; [apply open_purge_root_spec| |].
    + intros [answer|d] te' c (Hc & Hp & Hr).
      * apply pspec_ret. rewrite app_nil_r. split_and!; [auto with purge|done| |done|intros [= ->]; auto].
        rewrite (unlinks_reads c Hc). lia.
      * eapply pspec_weaken; [by apply slice_loop_enough|]. intros r te'' c'. by apply slice_ok_reads.
    + intros e te' c (Hc & Hp & Hr). by apply slice_ok_stop.
  - eapply pspec_bind; [apply pspec_yields; [apply open_current_quiet|apply open_current_counts]| |].
    + intros [[d ex']|] te' c [[Hc [Hp _]] Hy].
      * eapply pspec_weaken; [apply slice_loop_enough; [|done]; eauto|]. intros r te'' c'. by apply slice_ok_reads.
      * apply pspec_ret. rewrite app_nil_r. by apply slice_ok_stop.
    + intros e te' c [[Hc [Hp _]] Hy]. by apply slice_ok_stop.
Qed.

(** *** Entries in doubt *)

(** The entry has left the names the purge worker picks up, and that is durable:
    it carries a quarantine name, or its name was seen to be gone. *)
Definition set_aside (te : TrashEntry) (c : list SysCall) : Prop :=
  synced (te_parent te) c /\
  ((exists id, te_name te = quarantine_name id) \/ is_quarantine_entry_name (te_name te) = true \/
   exists name new_name, Renameat (te_parent te) name (te_parent te) new_name true (Err NOENT) ∈ c).

Lemma set_aside_app te c c' : set_aside te c' -> set_aside te (c ++ c').
Proof.
  intros [Hs Hn]. split; [auto with purge|]. destruct Hn as [|[|(name & new & Hin)]]; [by eauto..|].
  right; right. exists name, new. set_solver.
Qed.

Definition quarantine_ok (te : TrashEntry) (r : result IoError unit) (te' : TrashEntry) (c : list SysCall) : Prop :=
  tidy c /\ unlinks c = 0 /\ te_parent te' = te_parent te /\
  match r with Ok _ => set_aside te' c | Err e => io_kind e <> InvalidData end.

Lemma errno_kind_valid e : errno_kind e <> InvalidData.
Proof. unfold errno_kind. repeat (destruct (_ =? _); [by cbn|]). cbn. by repeat (destruct (_ || _); try done). Qed.

Lemma quarantine_root_spec attempts te :
  pspec (quarantine_root attempts : Purge Env unit) te (quarantine_ok te).
Proof.
  revert te. induction attempts as [|n IH]; intros te; cbn [quarantine_root].
  { apply pspec_fail. by split_and!; [constructor| | |]. }
  unfold sys_new_uuid, sys_renameat, sys_fsync. apply pspec_bind_get, pspec_bind_call. intros id.
  apply pspec_bind_call. intros [[]|e].
  - apply pspec_bind_set.
    eapply (pspec_bind _ _ _ (λ r te' c, r = Ok tt /\ c = [] /\ te_parent te' = te_parent te /\
      te_name te' = quarantine_name id)).
    { destruct (te_purge_stack te) as [|root frames]; [by apply pspec_ret|].
      destruct (beqb _ _); [by apply pspec_set|by apply pspec_ret]. }
    + intros _ te' c (_ & -> & Hp & Hn). apply pspec_io_call.
      * intros []. split_and!; [by repeat constructor|done|done|]. split; [|eauto].
        rewrite Hp. by eexists [_; _].
      * intros e. split_and!; [by repeat constructor|done|done|apply errno_kind_valid].
    + intros e te' c ([=] & _).
  - destruct (e =? EXIST).
    { eapply pspec_weaken; [apply IH|]. intros r te' c (Ht & Hu & Hp & Hr). unfold quarantine_ok. rewrite !unlinks_cons. split_and!.
      - by repeat constructor.
      - by rewrite Hu.
      - done.
      - destruct r; [|done]. by apply (set_aside_app te' [_; _]). }
    destruct (Z.eqb_spec e NOENT) as [->|].
    + apply pspec_io_call.
      * intros []. split_and!; [by repeat constructor|done|done|]. split; [by eexists [_; _]|].
        right; right. do 2 eexists. right. left.
      * intros e. split_and!; [by repeat constructor|done|done|apply errno_kind_valid].
    + apply pspec_fail. split_and!; [by repeat constructor|done|done|apply errno_kind_valid].
Qed.

Lemma quarantine_spec te :
  pspec (quarantine_after_identity_error_blocking : Purge Env unit) te (quarantine_ok te).
Proof.
  unfold quarantine_after_identity_error_blocking, sys_fsync. apply pspec_bind_get.
  destruct (is_quarantine_entry_name (te_name te)) eqn:E; [|apply quarantine_root_spec].
  apply pspec_io_call.
  - intros []. split_and!; [by repeat constructor|done|done|]. split; [auto with purge|auto].
  - intros e. split_and!; [by repeat constructor|done|done|apply errno_kind_valid].
Qed.

(** The worker: a slice, and the quarantine of an entry in doubt. *)
Lemma slice_worker_spec max_entries te :
  pspec (slice_worker sha256 room max_entries) te (λ r te' c,
    slice_ok te (Z.max max_entries 1) r te' c /\
    (forall e, r = Err e -> io_kind e = InvalidData -> set_aside te' c)).
Proof.
  unfold slice_worker, pspec. eapply spec_bind; [apply (purge_slice_blocking_spec (Z.max max_entries 1)); lia|].
  intros [[o|e] te1] c (Ht & Hp & Hu & Hn & Hr); cbn [fst snd] in *.
  { apply spec_ret. rewrite app_nil_r. split; [by split_and!|done]. }
  case_bool_decide as Hk.
  2: { apply spec_ret. rewrite app_nil_r. split; [by split_and!|]. by intros e' [= <-]. }
  fold (pspec (step _ <- quarantine_after_identity_error_blocking; pfail e : Purge Env (option bool)) te1
    (λ r te' c', slice_ok te (Z.max max_entries 1) r te' (c ++ c') /\
      (forall e', r = Err e' -> io_kind e' = InvalidData -> set_aside te' (c ++ c')))).
  assert (forall r te' c', quarantine_ok te1 r te' c' -> forall e', slice_ok te (Z.max max_entries 1) (Err e') te' (c ++ c')) as Hok.
  { intros r te' c' (Ht' & Hu' & Hp' & Hr') e'. split_and!; [auto with purge|congruence| |done|done].
    rewrite unlinks_app. lia. }
  eapply pspec_bind; [apply quarantine_spec| |].
  - intros [] te' c' Hq. apply pspec_fail. rewrite app_nil_r. split; [by eapply Hok|].
    destruct Hq as (_ & _ & _ & Hset). eauto using set_aside_app.
  - intros e' te' c' Hq. split; [by eapply Hok|]. destruct Hq as (_ & _ & _ & Hv). by intros e'' [= <-].
Qed.

Lemma purge_slice_tidy gate te max_entries :
  spec (purge_slice sha256 room gate te max_entries) (λ _ calls, tidy calls).
Proof.
  unfold purge_slice. destruct gate as [e|]; [apply spec_ret; constructor|].
  eapply spec_bind; [apply slice_worker_spec|]. intros [r te'] c [(Ht & _) _].
  apply spec_ret. by rewrite app_nil_r.
Qed.

(** C21: whatever the kernel answers and whatever other processes do, a purge
    slice changes the tree in two ways only: it renames an entry, within its
    directory and never over another entry, to a fresh quarantine name, and it
    unlinks such a name immediately after the name was seen to be the object an
    open handle pins.  A name at which something was found, or that another
    process chose, is never unlinked. *)
Theorem purge_removes_only_pinned gate te max_entries :
  spec (purge_slice sha256 room gate te max_entries) (λ _ calls, tidy calls).
Proof. apply purge_slice_tidy. Qed.

(** A purge slice always comes to an end, and within its budget: the loop
    never uses up its fuel, at most [max(max_entries, 1)] entries are unlinked,
    and when the slice reports that the entry is gone, the last thing it did was
    to make its directory durable. *)
Theorem purge_slice_is_bounded max_entries te :
  pspec (slice_worker sha256 room max_entries) te (λ r te' calls,
    r <> Ok None /\ unlinks calls <= Z.max max_entries 1 /\ te_parent te' = te_parent te /\
    (r = Ok (Some true) -> synced (te_parent te) calls)).
Proof.
  eapply pspec_weaken; [apply slice_worker_spec|]. intros r te' c [(_ & Hp & Hu & Hn & Hr) _]. by split_and!.
Qed.

(** An entry whose identity is in doubt is not purged again: when a slice
    fails with [InvalidData], the entry it hands back carries a quarantine name
    already (or its old name is gone) and the directory is durable. *)
Theorem doubtful_purge_is_set_aside te max_entries :
  spec (purge_slice sha256 room None te max_entries) (λ r calls,
    forall failure, r = Err failure -> io_kind (tpe_source failure) = InvalidData ->
      set_aside (tpe_entry failure) calls).
Proof.
  unfold purge_slice. eapply spec_bind; [apply slice_worker_spec|]. intros [r te'] c [_ Hset].
  apply spec_ret. rewrite app_nil_r. cbn [fst snd] in Hset.
  destruct r as [[[]|]|e]; intros failure [= <-]. by apply Hset.
Qed.
End slices.
