(* ===== verification/DirectoryWalk.v ===== *)
(** Visiting directories: [visit_dir_blocking_chunk] of
    [src/src/server/rooted_fs.rs], the bounded recursive walk of
    [src/src/server/listing/walk.rs] and the scan of one directory in
    [src/src/server/listing.rs].

    The closures the visitor receives share mutable cells; here they act on a
    state of type [S] that is threaded through the visit.  The records of one
    [readdir] pass are a finite list.  Allocation is a parameter. *)

From S2P Require Import Prelude Bytes StdPath Utils UuidText Http UploadProtocol InternalNames Problem Revisions ListingSort Listing PathKeys RootedOs RootedFs.
From stdpp Require Import base numbers list strings sets gmap.

Local Open Scope Z_scope.

(** ** One chunk of one directory *)

Inductive DirectoryVisitProgress := Complete | Paused (cursor : Z).

Section visit.
Context {Ev Env : Type} `{Os Env} `{Within Ev Env} (fs : RootedFs) {S : Type}.
(** [budget] runs after [readdir] and before the entry is resolved; [visitor]
    receives the resolved entry.  [false] stops the visit. *)
Context (budget : bytes -> S -> Prog Ev Env (bool * S)).
Context (visitor : RootedDirEntry -> S -> Prog Ev Env (result IoError bool * S)).

(** The metadata of an entry: what it resolves to beneath the root, the link
    itself if it dangles or loops, and nothing if it leaves the root. *)
Definition resolve_entry (child_relative : bytes) (is_symlink : bool) : Io Env (option Metadata) :=
  do opened <- sys_openat (rf_root fs) child_relative [PATH; CLOEXEC] 0 BeneathRoot;
  match opened with
  | Ok target => attempt metadata <- sys_file_metadata target; ok (Some metadata)
  | Err e =>
      if e =? XDEV then ok None
      else if ((e =? NOENT) || (e =? LOOP)) && is_symlink then
        attempt target <- io_of (sys_openat (rf_root fs) child_relative [PATH; NOFOLLOW; CLOEXEC] 0 BeneathRoot);
        attempt metadata <- sys_file_metadata target;
        ok (Some metadata)
      else fail (errno_io e)
  end.

(** [while let Some(entry) = directory.read()]. *)
Fixpoint visit_entries (directory : Fd) (relative : bytes) (entries : list (result Errno Dirent))
    (resume_cursor : Z) (s : S) : Prog Ev Env (result IoError DirectoryVisitProgress * S) :=
  match entries with
  | [] => ret (Ok Complete, s)
  | Err e :: _ => ret (Err (errno_io e), s)
  | Ok entry :: entries =>
      let file_name := dr_name entry in
      let next_cursor := dr_offset entry in
      if beqb file_name dot || beqb file_name dotdot
      then visit_entries directory relative entries next_cursor s
      else
        let child_relative := if path_eqb relative dot then file_name else path_push relative file_name in
        let child_path := path_push (rf_root_path fs) child_relative in
        do (wanted, s) <- budget child_path s;
        if negb wanted then ret (Ok (Paused resume_cursor), s)
        else
          do nofollow <- within (sys_statat directory file_name);
          match nofollow with
          | Err e => ret (Err (errno_io e), s)
          | Ok nofollow =>
              let is_symlink := bool_decide (from_raw_mode (st_mode nofollow) = Symlink) in
              do resolved <- within (resolve_entry child_relative is_symlink);
              match resolved with
              | Err e => ret (Err e, s)
              | Ok None => visit_entries directory relative entries next_cursor s
              | Ok (Some metadata) =>
                  do (go_on, s) <-
                    visitor (mkEntry child_path file_name metadata is_symlink (existing_of nofollow)) s;
                  match go_on with
                  | Err e => ret (Err e, s)
                  | Ok false => ret (Ok (Paused next_cursor), s)
                  | Ok true => visit_entries directory relative entries next_cursor s
                  end
              end
          end
  end.

Definition visit_dir_blocking_chunk (path : bytes) (cursor : Z) (s : S)
    : Prog Ev Env (result IoError DirectoryVisitProgress * S) :=
  match relative_path_or_dot fs path with
  | Err e => ret (Err e, s)
  | Ok relative =>
      do opened <- within (open_directory_from_root fs relative);
      match opened with
      | Err e => ret (Err e, s)
      | Ok directory =>
          do entries <- within (sys_read_dir directory cursor);
          match entries with
          | Err e => ret (Err (errno_io e), s)
          | Ok entries => visit_entries directory relative entries cursor s
          end
      end
  end.

Definition visit_dir_blocking_bounded (path : bytes) (s : S) : Prog Ev Env (result IoError unit * S) :=
  do (r, s) <- visit_dir_blocking_chunk path 0 s;
  ret (match r with Ok _ => Ok tt | Err e => Err e end, s).
End visit.

(** ** The state of a walk *)

Record DirectoryWalkFrame := mkFrame {
  wf_path : bytes;
  wf_cursor : Z;
  wf_snapshot : DirectorySnapshot;
  wf_depth : Z
}.

Record VisitedDirectory := mkVisited { vd_path : bytes; vd_snapshot : DirectorySnapshot }.

(** [active]: the identities on the stack; a hash set with its capacity. *)
Record DirectoryWalkState := mkWalk {
  ws_stack : BoundedVec DirectoryWalkFrame;
  ws_visited : BoundedVec VisitedDirectory;
  ws_active : gset (Z * Z);
  ws_active_capacity : Z;
  ws_path_heap_bytes : Z
}.

(** [std::mem::size_of] of the types involved, and how much memory is granted. *)
Record WalkSizes := mkSizes {
  size_of_state : Z;
  size_of_frame : Z;
  size_of_visited : Z;
  (** [size_of::<(u64, u64)>() + size_of::<usize>()] *)
  size_of_active : Z;
  path_capacity : bytes -> Z;
  reserve_active : Z -> option Z;
  alloc_stack : Allocator;
  alloc_visited : Allocator
}.

Section walk_state.
Context (sz : WalkSizes).

Definition walk_allocation_error (path serve_root : bytes) : ListingError :=
  listing_limit (bs "walk_memory") path serve_root (bs "working_allocation_failed") DirectoryMemoryLimit.

Definition walk_working_memory_error (path serve_root : bytes) : ListingError :=
  listing_limit (bs "walk_memory") path serve_root (bs "working_memory_budget") DirectoryMemoryLimit.

Definition working_bytes (s : DirectoryWalkState) (additional_path_bytes : Z) : Z :=
  sat_add (sat_add (sat_add (sat_add (sat_add (size_of_state sz)
    (sat_mul (vec_capacity (ws_stack s)) (size_of_frame sz)))
    (sat_mul (vec_capacity (ws_visited s)) (size_of_visited sz)))
    (sat_mul (ws_active_capacity s) (size_of_active sz)))
    (ws_path_heap_bytes s)) additional_path_bytes.

Definition walk_new (max_depth max_working_bytes : Z) (path serve_root : bytes)
    : result ListingError DirectoryWalkState :=
  let active_entries := sat_add max_depth 1 in
  let conservative_active_bytes := sat_mul (sat_mul active_entries 4) (size_of_active sz) in
  if max_working_bytes <? sat_add (size_of_state sz) conservative_active_bytes
  then Err (walk_working_memory_error path serve_root)
  else
    match reserve_active sz active_entries with
    | None => Err (walk_allocation_error path serve_root)
    | Some capacity =>
        let state := mkWalk vec_new vec_new ∅ capacity 0 in
        if max_working_bytes <? working_bytes state 0
        then Err (walk_working_memory_error path serve_root)
        else Ok state
    end.

Definition snapshot_identity (s : DirectorySnapshot) : Z * Z := (ds_device s, ds_inode s).

Definition push_directory (s : DirectoryWalkState) (path : bytes) (snapshot : DirectorySnapshot)
    (depth max_depth max_working_bytes : Z) (serve_root : bytes)
    : result ListingError DirectoryWalkState :=
  if max_depth <? depth
  then Err (listing_limit (bs "walk_depth") path serve_root (bs "depth_budget") DirectoryDepthLimit)
  else if bool_decide (snapshot_identity snapshot ∈ ws_active s)
  then Err (symlink_loop (bs "walk_loop") path serve_root)
  else
    let path_bytes := path_capacity sz path in
    let minimum :=
      sat_add (sat_add (sat_add (sat_add (sat_add (size_of_state sz)
        (sat_mul (sat_add (vec_len (ws_stack s)) 1) (size_of_frame sz)))
        (sat_mul (vec_len (ws_visited s)) (size_of_visited sz)))
        (sat_mul (sat_add (Z.of_nat (size (ws_active s))) 1) (size_of_active sz)))
        (ws_path_heap_bytes s)) path_bytes in
    if max_working_bytes <? minimum then Err (walk_working_memory_error path serve_root)
    else
      let stack_allocation := sat_mul (vec_capacity (ws_stack s)) (size_of_frame sz) in
      let non_stack_bytes := sat_sub (working_bytes s path_bytes) stack_allocation in
      match try_reserve_bounded_vec_slot (size_of_frame sz) (alloc_stack sz) (ws_stack s)
              non_stack_bytes max_working_bytes with
      | Err ReserveBudget => Err (walk_working_memory_error path serve_root)
      | Err ReserveAllocation => Err (walk_allocation_error path serve_root)
      | Ok stack =>
          let s := mkWalk stack (ws_visited s) (ws_active s) (ws_active_capacity s) (ws_path_heap_bytes s) in
          if max_working_bytes <? working_bytes s path_bytes
          then Err (walk_working_memory_error path serve_root)
          else
            Ok (mkWalk (vec_push (ws_stack s) (mkFrame path 0 snapshot depth)) (ws_visited s)
                  ({[ snapshot_identity snapshot ]} ∪ ws_active s) (ws_active_capacity s)
                  (sat_add (ws_path_heap_bytes s) path_bytes))
      end.

(** [Vec::pop]; [None] is the failed [expect]. *)
Definition finish_current (s : DirectoryWalkState) (max_working_bytes : Z) (serve_root : bytes)
    : option (result ListingError DirectoryWalkState) :=
  match last (vec_items (ws_stack s)) with
  | None => None
  | Some frame => Some (
      let stack := mkVec (take (length (vec_items (ws_stack s)) - 1) (vec_items (ws_stack s)))
                     (vec_capacity (ws_stack s)) in
      let active := ws_active s ∖ {[ snapshot_identity (wf_snapshot frame) ]} in
      let s := mkWalk stack (ws_visited s) active (ws_active_capacity s) (ws_path_heap_bytes s) in
      let minimum :=
        sat_add (sat_add (sat_add (sat_add (size_of_state sz)
          (sat_mul (vec_len (ws_stack s)) (size_of_frame sz)))
          (sat_mul (sat_add (vec_len (ws_visited s)) 1) (size_of_visited sz)))
          (sat_mul (Z.of_nat (size (ws_active s))) (size_of_active sz)))
          (ws_path_heap_bytes s) in
      if max_working_bytes <? minimum
      then Err (walk_working_memory_error (wf_path frame) serve_root)
      else
        let visited_allocation := sat_mul (vec_capacity (ws_visited s)) (size_of_visited sz) in
        let non_visited_bytes := sat_sub (working_bytes s 0) visited_allocation in
        match try_reserve_bounded_vec_slot (size_of_visited sz) (alloc_visited sz) (ws_visited s)
                non_visited_bytes max_working_bytes with
        | Err ReserveBudget => Err (walk_working_memory_error (wf_path frame) serve_root)
        | Err ReserveAllocation => Err (walk_allocation_error (wf_path frame) serve_root)
        | Ok visited =>
            let s := mkWalk (ws_stack s) visited (ws_active s) (ws_active_capacity s) (ws_path_heap_bytes s) in
            if max_working_bytes <? working_bytes s 0
            then Err (walk_working_memory_error (wf_path frame) serve_root)
            else
              Ok (mkWalk (ws_stack s) (vec_push (ws_visited s) (mkVisited (wf_path frame) (wf_snapshot frame)))
                    (ws_active s) (ws_active_capacity s) (ws_path_heap_bytes s))
        end)
  end.
End walk_state.

(** ** Collecting the items of a walk *)

Record CollectionByteBudget := mkByteBudget {
  bb_max_bytes : Z;
  bb_operation : bytes;
  bb_reason : bytes;
  bb_problem : ListingProblem;
  bb_allocation_problem : ListingProblem
}.

(** The cells and variables the two closures share. *)
Record WalkCells (T : Type) := mkCells {
  wc_visited : Z;
  wc_items : BoundedVec T;
  wc_heap_bytes : Z;
  wc_stopped : bool;
  wc_listing_error : option ListingError;
  wc_descend : option (bytes * DirectorySnapshot * Z)
}.
Arguments mkCells {T}.
Arguments wc_visited {T}.
Arguments wc_items {T}.
Arguments wc_heap_bytes {T}.
Arguments wc_stopped {T}.
Arguments wc_listing_error {T}.
Arguments wc_descend {T}.

Section collect.
Context {Env : Type} `{Os Env} (fs : RootedFs) `{UuidLib} {T : Type}.
Context (max_entries max_depth max_working_bytes : Z) (serve_root : bytes) (sz : WalkSizes).
Context (include_entry : RootedDirEntry -> bytes -> result ListingError bool).
Context (map_entry : RootedDirEntry -> result ListingError T).
Context (item_heap_bytes : T -> Z) (byte_budget : option CollectionByteBudget).
Context (size_of_item size_of_vec : Z) (alloc_items : Allocator).

Abbreviation Cells := (WalkCells T).

(** [stopped.set(true); *listing_error = Some(error)]. *)
Definition stop_with (c : Cells) (error : ListingError) : Cells :=
  mkCells (wc_visited c) (wc_items c) (wc_heap_bytes c) true (Some error) (wc_descend c).

Definition walk_cancelled (path : bytes) : ListingError := listing_cancelled (bs "walk_cancelled") path serve_root.
Definition walk_timeout (path : bytes) : ListingError :=
  listing_limit (bs "walk_timeout") path serve_root (bs "time_budget") DirectoryOperationTimeout.

(** The closure before an entry is resolved. *)
Definition walk_budget (entry_path : bytes) (c : Cells) : Sys Env (bool * Cells) :=
  do interrupted <- sys_interrupted;
  if interrupted : bool then ret (false, stop_with c (walk_cancelled entry_path))
  else
    do late <- sys_deadline;
    if late : bool then ret (false, stop_with c (walk_timeout entry_path))
    else
      let c := mkCells (sat_add (wc_visited c) 1) (wc_items c) (wc_heap_bytes c) (wc_stopped c)
                 (wc_listing_error c) (wc_descend c) in
      if max_entries <? wc_visited c
      then ret (false, stop_with c (listing_limit (bs "walk_limit") entry_path serve_root
                                      (bs "entry_budget") DirectoryWalkEntryLimit))
      else ret (true, c).

(** Room for one more item under the byte budget; the vector afterwards. *)
Definition reserve_item (c : Cells) (item_path : bytes) (item_heap_weight : Z)
    : result ListingError (BoundedVec T) :=
  match byte_budget with
  | None => Ok (wc_items c)
  | Some budget =>
      let over reason problem :=
        listing_limit (bb_operation budget) item_path serve_root reason problem in
      let proposed_heap_bytes := sat_add (wc_heap_bytes c) item_heap_weight in
      let minimum := collection_allocation_bytes size_of_vec (sat_add (vec_len (wc_items c)) 1)
                       size_of_item proposed_heap_bytes in
      if bb_max_bytes budget <? minimum then Err (over (bb_reason budget) (bb_problem budget))
      else
        match try_reserve_bounded_vec_slot size_of_item alloc_items (wc_items c)
                (sat_add size_of_vec proposed_heap_bytes) (bb_max_bytes budget) with
        | Err ReserveBudget => Err (over (bb_reason budget) (bb_problem budget))
        | Err ReserveAllocation =>
            Err (over (bs "result_allocation_failed") (bb_allocation_problem budget))
        | Ok items =>
            let allocated := sat_add (sat_add size_of_vec (sat_mul (vec_capacity items) size_of_item))
                               proposed_heap_bytes in
            if bb_max_bytes budget <? allocated then Err (over (bb_reason budget) (bb_problem budget))
            else Ok items
        end
  end.

Definition add_item (c : Cells) (items : BoundedVec T) (item : T) : Cells :=
  mkCells (wc_visited c) (vec_push items item) (sat_add (wc_heap_bytes c) (item_heap_bytes item))
    (wc_stopped c) (wc_listing_error c) (wc_descend c).

Definition descend_into (c : Cells) (child : option (bytes * DirectorySnapshot * Z)) : bool * Cells :=
  match child with
  | Some child =>
      (false, mkCells (wc_visited c) (wc_items c) (wc_heap_bytes c) (wc_stopped c)
                (wc_listing_error c) (Some child))
  | None => (true, c)
  end.

(** What the second closure does with an entry once the clock has been read. *)
Definition take_entry (current_depth : Z) (entry : RootedDirEntry) (c : Cells) : bool * Cells :=
  let base_name := de_file_name entry in
  if negb (is_utf8 base_name)
  then (false, stop_with c (unsupported_name (bs "walk_filename") (de_path entry) serve_root))
  else if is_internal_name base_name then (true, c)
  else
    match include_entry entry base_name with
    | Err error => (false, stop_with c error)
    | Ok include =>
        let child :=
          if md_is_dir (de_metadata entry)
          then Some (de_path entry, snapshot_from_metadata (de_metadata entry), sat_add current_depth 1)
          else None in
        if include : bool then
          match map_entry entry with
          | Err error => (false, stop_with c error)
          | Ok item =>
              match reserve_item c (de_path entry) (item_heap_bytes item) with
              | Err error => (false, stop_with c error)
              | Ok items => descend_into (add_item c items item) child
              end
          end
        else descend_into c child
    end.

Definition walk_visitor (current_depth : Z) (entry : RootedDirEntry) (c : Cells)
    : Sys Env (result IoError bool * Cells) :=
  do interrupted <- sys_interrupted;
  if interrupted : bool then ret (Ok false, stop_with c (walk_cancelled (de_path entry)))
  else
    do late <- sys_deadline;
    if late : bool then ret (Ok false, stop_with c (walk_timeout (de_path entry)))
    else let '(go_on, c) := take_entry current_depth entry c in ret (Ok go_on, c).

(** [ensure_directory_snapshot_blocking]. *)
Definition ensure_directory_snapshot_blocking (path : bytes) (snapshot : DirectorySnapshot)
    (operation : bytes) : Sys Env (result ListingError unit) :=
  do found <- metadata_blocking fs path;
  ret (match found with
       | Err error => Err (listing_io operation path serve_root error)
       | Ok metadata =>
           if negb (md_is_dir metadata)
           then Err (listing_limit operation path serve_root (bs "directory_replaced_by_non_directory")
                       DirectoryChanged)
           else if negb (bool_decide (snapshot_from_metadata metadata = snapshot))
           then Err (listing_limit operation path serve_root (bs "directory_snapshot_changed")
                       DirectoryChanged)
           else Ok tt
       end).

(** The cells at the start of a round: [stopped], the error and the child are
    fresh. *)
Definition fresh_cells (c : Cells) : Cells :=
  mkCells (wc_visited c) (wc_items c) (wc_heap_bytes c) false None None.

Definition set_cursor (s : DirectoryWalkState) (cursor : Z) : DirectoryWalkState :=
  let items := vec_items (ws_stack s) in
  match last items with
  | None => s
  | Some f =>
      mkWalk (mkVec (take (length items - 1) items ++
                     [mkFrame (wf_path f) cursor (wf_snapshot f) (wf_depth f)])
                    (vec_capacity (ws_stack s)))
        (ws_visited s) (ws_active s) (ws_active_capacity s) (ws_path_heap_bytes s)
  end.

(** One round of [while !state.stack.is_empty()], for its last frame. *)
Definition walk_round (frame : DirectoryWalkFrame) (s : DirectoryWalkState) (c : Cells)
    : Sys Env (result ListingError (DirectoryWalkState * Cells)) :=
  let directory := wf_path frame in
  do interrupted <- sys_interrupted;
  if interrupted : bool then fail (walk_cancelled directory)
  else
    do late <- sys_deadline;
    if late : bool then fail (walk_timeout directory)
    else
      attempt _ <- ensure_directory_snapshot_blocking directory (wf_snapshot frame) (bs "walk_snapshot_before");
      do (visit_result, c) <-
        visit_dir_blocking_chunk fs walk_budget (walk_visitor (wf_depth frame)) directory
          (wf_cursor frame) (fresh_cells c);
      if wc_stopped c then
        fail (default (listing_invariant (bs "walk_stopped") directory serve_root) (wc_listing_error c))
      else
        match visit_result with
        | Err error => fail (listing_io (bs "walk_next") directory serve_root error)
        | Ok Complete =>
            match finish_current sz s max_working_bytes serve_root with
            | None => fail (listing_invariant (bs "walk_stack") directory serve_root)
            | Some (Err error) => fail error
            | Some (Ok s) => ok (s, c)
            end
        | Ok (Paused cursor) =>
            let s := set_cursor s cursor in
            match wc_descend c with
            | None => fail (listing_invariant (bs "walk_paused_without_child") directory serve_root)
            | Some (child_path, child_snapshot, child_depth) =>
                attempt s <- ret (push_directory sz s child_path child_snapshot child_depth max_depth
                                    max_working_bytes serve_root);
                ok (s, c)
            end
        end.

Inductive WalkStop := WalkFailed (error : ListingError) | WalkDiverged.

Fixpoint walk_loop (fuel : nat) (s : DirectoryWalkState) (c : Cells)
    : Sys Env (result WalkStop (DirectoryWalkState * Cells)) :=
  match last (vec_items (ws_stack s)) with
  | None => ok (s, c)
  | Some frame =>
      match fuel with
      | O => fail WalkDiverged
      | S fuel =>
          do r <- walk_round frame s c;
          match r with
          | Err error => fail (WalkFailed error)
          | Ok (s, c) => walk_loop fuel s c
          end
      end
  end.

(** [for directory in &state.visited]: nothing changed behind the walk's back. *)
Fixpoint recheck_visited (visited : list VisitedDirectory) : Sys Env (result ListingError unit) :=
  match visited with
  | [] => ok tt
  | directory :: visited =>
      do interrupted <- sys_interrupted;
      if interrupted : bool
      then fail (listing_cancelled (bs "walk_snapshot_after") (vd_path directory) serve_root)
      else
        do late <- sys_deadline;
        if late : bool
        then fail (listing_limit (bs "walk_snapshot_after") (vd_path directory) serve_root
                     (bs "time_budget") DirectoryOperationTimeout)
        else
          attempt _ <- ensure_directory_snapshot_blocking (vd_path directory) (vd_snapshot directory)
                         (bs "walk_snapshot_after");
          recheck_visited visited
  end.

(** Every push but the first follows an entry counted against [max_entries],
    and every round pushes or pops. *)
Definition walk_fuel : nat := 2 * (Z.to_nat max_entries + 1).

Definition collect_dir_items (path : bytes) : Sys Env (result WalkStop (BoundedVec T)) :=
  do root_metadata <- metadata_blocking fs path;
  match root_metadata with
  | Err error => fail (WalkFailed (listing_io (bs "walk_root") path serve_root error))
  | Ok root_metadata =>
      if negb (md_is_dir root_metadata)
      then fail (WalkFailed (listing_limit (bs "walk_root") path serve_root
                   (bs "directory_replaced_by_non_directory") DirectoryChanged))
      else
        match (s ← walk_new sz max_depth max_working_bytes path serve_root;
               push_directory sz s path (snapshot_from_metadata root_metadata) 0 max_depth
                 max_working_bytes serve_root) with
        | Err error => fail (WalkFailed error)
        | Ok s =>
            attempt (s, c) <- walk_loop walk_fuel s (mkCells 0 vec_new 0 false None None);
            do r <- recheck_visited (vec_items (ws_visited s));
            ret (match r with Err error => Err (WalkFailed error) | Ok _ => Ok (wc_items c) end)
        end
  end.
End collect.
