(* ===== verification/DirectoryWalkFacts.v ===== *)
(** What the bounded walk guarantees: on any file system it ends within its
    budgets and returns exactly the wanted ones of the entries its log shows were
    read, each directory to its last record, and on one that stands still it
    returns exactly what a recursive traversal returns. *)

From S2P Require Import Prelude Bytes StdPath Utils UuidText InternalNames Problem Revisions ListingSort Listing PathKeys RootedOs RootedFs RootedFsSafety DirectoryWalk.
From stdpp Require Import base numbers list strings sets gmap.

Local Open Scope Z_scope.

(** ** The visitor's loop *)

Section visit_rule.
Context {Env : Type} `{Os Env} (fs : RootedFs) {S : Type}.
Context (budget : bytes -> S -> Sys Env (bool * S)).
Context (visitor : RootedDirEntry -> S -> Sys Env (result IoError bool * S)).
(** [P] holds between entries, [Q] after an entry was admitted, [F] at the end. *)
Context (P Q : S -> Prop) (F : result IoError DirectoryVisitProgress -> S -> Prop).
Context (Hbudget : forall p s, P s ->
  spec (budget p s) (λ '(wanted, s') _, if wanted : bool then Q s' else forall c, F (Ok (Paused c)) s')).
Context (Hvisitor : forall e s, (exists t, de_revision_identity e = Existing t) -> Q s ->
  spec (visitor e s) (λ '(r, s') _,
    match r with Ok true => P s' | Ok false => forall c, F (Ok (Paused c)) s' | Err e => F (Err e) s' end)).
Context (Hskip : forall s, Q s -> P s) (Hend : forall s, P s -> F (Ok Complete) s).
Context (Herr : forall e s, P s -> F (Err e) s).

Lemma resolve_entry_any relative is_symlink : spec (resolve_entry fs relative is_symlink) (λ _ _, True).
Proof.
  unfold resolve_entry, sys_openat, sys_file_metadata. repeat spec_step; try done.
  all: intros; eapply spec_bind_ok; [by apply (spec_call _ _ (λ _ _, True))| |done];
    intros; by apply spec_ret.
Qed.

Lemma visit_entries_rule directory relative entries cursor s :
  P s -> spec (visit_entries fs budget visitor directory relative entries cursor s) (λ '(r, s') _, F r s').
Proof.
  revert cursor s. induction entries as [|[entry|e] entries IH]; intros cursor s HP;
    cbn [visit_entries]; [by apply spec_ret, Hend| |by apply spec_ret, Herr].
  cbv zeta. destruct (_ || _); [by apply IH|].
  eapply spec_bind; [by apply Hbudget|]. intros [wanted s1] c1 H1. destruct wanted; cbn [negb]; [|by apply spec_ret].
  unfold within, within_sys, sys_statat. apply spec_bind_call. intros [nofollow|e]; [|by apply spec_ret, Herr, Hskip].
  eapply spec_bind; [apply resolve_entry_any|]. intros [[metadata|]|e] c2 _.
  - eapply spec_bind; [apply Hvisitor; [by eexists|done]|]. intros [[[]|e] s2] c3 H3.
    + eapply spec_weaken; [by apply IH|by intros [? ?]].
    + by apply spec_ret.
    + by apply spec_ret.
  - eapply spec_weaken; [by apply IH, Hskip|by intros [? ?]].
  - by apply spec_ret, Herr, Hskip.
Qed.

Lemma visit_chunk_rule path cursor s :
  P s -> spec (visit_dir_blocking_chunk fs budget visitor path cursor s) (λ '(r, s') _, F r s').
Proof.
  intros HP. unfold visit_dir_blocking_chunk, within, within_sys. destruct (relative_path_or_dot fs path) as [relative|e];
    [|by apply spec_ret, Herr].
  eapply (spec_bind _ _ (λ _ _, True)).
  { unfold open_directory_from_root, sys_openat, io_of. apply spec_bind_call. intros a. by apply spec_ret. }
  intros [directory|e] c _; [|by apply spec_ret, Herr].
  unfold sys_read_dir. apply spec_bind_call. intros [entries|e]; [|by apply spec_ret, Herr].
  eapply spec_weaken; [by apply visit_entries_rule|by intros [? ?]].
Qed.
End visit_rule.

(** ** What a log shows of the tree *)

Definition child_of (relative file_name : bytes) : bytes :=
  if path_eqb relative dot then file_name else path_push relative file_name.

(** Asking whether to go on. *)
Definition poll (call : SysCall) : Prop :=
  match call with Interrupted_ _ | Deadline _ => True | _ => False end.

(** Every call but the ones that hand out directory records. *)
Definition not_listing (call : SysCall) : Prop :=
  match call with ReadDir _ _ _ => False | _ => True end.

Section log.
Context `{UuidLib} (fs : RootedFs).

(** The calls that resolved an entry: what it leads to, the link itself when
    it dangles or loops, nothing when it leaves the root. *)
Inductive resolves (child : bytes) (is_symlink : bool) : list SysCall -> option Metadata -> Prop :=
| resolves_target fd md :
    resolves child is_symlink
      [Openat (rf_root fs) child [PATH; CLOEXEC] 0 BeneathRoot (Ok fd); FileMetadata fd (Ok md)] (Some md)
| resolves_outside :
    resolves child is_symlink [Openat (rf_root fs) child [PATH; CLOEXEC] 0 BeneathRoot (Err XDEV)] None
| resolves_link e fd md :
    is_symlink = true -> e = NOENT \/ e = LOOP ->
    resolves child is_symlink
      [Openat (rf_root fs) child [PATH; CLOEXEC] 0 BeneathRoot (Err e);
       Openat (rf_root fs) child [PATH; NOFOLLOW; CLOEXEC] 0 BeneathRoot (Ok fd);
       FileMetadata fd (Ok md)] (Some md).

(** The calls that turned one record of an open directory into an entry.  Only
    [.], [..] and what leads out of the root give none. *)
Inductive examines (directory : Fd) (relative : bytes) (d : Dirent)
    : list SysCall -> option RootedDirEntry -> Prop :=
| examines_dots : dr_name d = dot \/ dr_name d = dotdot -> examines directory relative d [] None
| examines_entry polls st is_symlink calls resolved polls' :
    Forall poll polls -> Forall poll polls' ->
    is_symlink = bool_decide (from_raw_mode (st_mode st) = Symlink) ->
    resolves (child_of relative (dr_name d)) is_symlink calls resolved ->
    examines directory relative d (polls ++ Statat directory (dr_name d) (Ok st) :: calls ++ polls')
      ((λ md, mkEntry (path_push (rf_root_path fs) (child_of relative (dr_name d))) (dr_name d) md
                is_symlink (existing_of st)) <$> resolved).

(** The records of a directory one after the other, none left out. *)
Inductive works_through (directory : Fd) (relative : bytes)
    : list Dirent -> list SysCall -> list RootedDirEntry -> Prop :=
| works_none : works_through directory relative [] [] []
| works_next d calls entry records rest entries :
    examines directory relative d calls entry ->
    works_through directory relative records rest entries ->
    works_through directory relative (d :: records) (calls ++ rest) (option_list entry ++ entries).

(** The directory at [path], opened beneath the root and read from [cursor] on. *)
Definition opens_to_read (path : bytes) (cursor : Z) (relative : bytes) (directory : Fd)
    (records : list (result Errno Dirent)) (calls : list SysCall) : Prop :=
  relative_path_or_dot fs path = Ok relative /\
  calls = [Openat (rf_root fs) (if beqb relative [] then dot else relative) [RDONLY; DIRECTORY; CLOEXEC] 0
             BeneathRoot (Ok directory);
           ReadDir directory cursor (Ok records)].

(** What a directory that is to be searched looks like. *)
Definition descends (e : RootedDirEntry) : bool :=
  negb (is_internal_name (de_file_name e)) && md_is_dir (de_metadata e).

(** The calls of a visit that ended, with an agenda of directories and the
    cursors to read them from.  Each record handed out was examined, or follows
    the directory that was entered instead and is read again from the cursor
    behind it.  When the visit is not [deep] nothing is entered. *)
Inductive explores (deep : bool) : list (bytes * Z) -> list SysCall -> list RootedDirEntry -> Prop :=
| explores_done gap : Forall not_listing gap -> explores deep [] gap []
| explores_all gap path cursor agenda relative directory records opening calls entries rest found :
    Forall not_listing gap ->
    opens_to_read path cursor relative directory (Ok <$> records) opening ->
    works_through directory relative records calls entries ->
    (deep = true -> Forall (λ e, descends e = false) entries) ->
    explores deep agenda rest found ->
    explores deep ((path, cursor) :: agenda) (gap ++ opening ++ calls ++ rest) (entries ++ found)
| explores_child gap path cursor agenda relative directory records d unread opening calls entries e rest found :
    Forall not_listing gap ->
    opens_to_read path cursor relative directory ((Ok <$> records ++ [d]) ++ unread) opening ->
    works_through directory relative (records ++ [d]) calls (entries ++ [e]) ->
    deep = true -> Forall (λ e, descends e = false) entries -> descends e = true ->
    explores deep ((de_path e, 0) :: (path, dr_offset d) :: agenda) rest found ->
    explores deep ((path, cursor) :: agenda) (gap ++ opening ++ calls ++ rest) ((entries ++ [e]) ++ found).

(** A path's metadata as the kernel gave it. *)
Definition looked_up (path : bytes) (md : Metadata) (calls : list SysCall) : Prop :=
  exists relative fd, relative_path_or_dot fs path = Ok relative /\
    calls = [Openat (rf_root fs) relative [PATH; CLOEXEC] 0 BeneathRoot (Ok fd); FileMetadata fd (Ok md)].

(** [items] are, one by one and in this order, what the wanted entries were
    turned into. *)
Definition made_of {T} (wanted : RootedDirEntry -> bool) (becomes : RootedDirEntry -> T -> Prop)
    (entries : list RootedDirEntry) (items : list T) : Prop :=
  Forall (λ e, is_utf8 (de_file_name e) = true) entries /\
  Forall2 becomes (filter (λ e, wanted e = true) entries) items.

Lemma made_of_skip {T} wanted (becomes : _ -> T -> Prop) entries items e :
  made_of wanted becomes entries items -> is_utf8 (de_file_name e) = true -> wanted e = false ->
  made_of wanted becomes (entries ++ [e]) items.
Proof.
  intros [Hu Hm] He Hw. split; [by apply Forall_app; split; [|constructor]|].
  rewrite filter_app, filter_cons_False, filter_nil, app_nil_r; [done|by rewrite Hw].
Qed.

Lemma made_of_add {T} wanted (becomes : _ -> T -> Prop) entries items e item :
  made_of wanted becomes entries items -> is_utf8 (de_file_name e) = true -> wanted e = true ->
  becomes e item -> made_of wanted becomes (entries ++ [e]) (items ++ [item]).
Proof.
  intros [Hu Hm] He Hw Hb. split; [by apply Forall_app; split; [|constructor]|].
  rewrite filter_app, filter_cons_True, filter_nil; [|done]. apply Forall2_app; [done|by constructor].
Qed.

Lemma works_through_app directory relative records calls entries records' calls' entries' :
  works_through directory relative records calls entries ->
  works_through directory relative records' calls' entries' ->
  works_through directory relative (records ++ records') (calls ++ calls') (entries ++ entries').
Proof.
  intros Hw Hw'. induction Hw as [|d c e records rest entries He Hw IH]; [done|].
  cbn. rewrite <-!app_assoc. by constructor.
Qed.
End log.

(** ** The visitor's loop against its log *)

Section visit_log.
Context {Env : Type} `{Os Env} (fs : RootedFs) {S : Type}.
Context (budget : bytes -> S -> Sys Env (bool * S)).
Context (visitor : RootedDirEntry -> S -> Sys Env (result IoError bool * S)).
(** [P] and [Q] as above, with the entries seen so far; [Stop] is a visit that
    notes why it ends early, [D] one that enters the entry. *)
Context (P Q : list RootedDirEntry -> S -> Prop) (Stop : S -> Prop)
  (D : list RootedDirEntry -> RootedDirEntry -> S -> Prop).
Context (Hbudget : forall p seen s, P seen s ->
  spec (budget p s) (λ '(wanted, s') calls,
    Forall poll calls /\ if wanted : bool then Q seen s' else Stop s')).
Context (Hvisitor : forall e seen s, Q seen s ->
  spec (visitor e s) (λ '(r, s') calls,
    Forall poll calls /\
    match r with Ok true => P (seen ++ [e]) s' | Ok false => Stop s' \/ D seen e s' | Err _ => True end)).
Context (Hskip : forall seen s, Q seen s -> P seen s).

(** How a visit of [entries] ended. *)
Definition visit_ended (directory : Fd) (relative : bytes) (entries : list (result Errno Dirent))
    (seen : list RootedDirEntry) (r : result IoError DirectoryVisitProgress) (s : S)
    (calls : list SysCall) : Prop :=
  match r with
  | Err _ => True
  | Ok Complete =>
      exists records new, entries = Ok <$> records /\
        works_through fs directory relative records calls new /\ P (seen ++ new) s
  | Ok (Paused k) => Stop s \/
      exists records d unread new e, entries = (Ok <$> records ++ [d]) ++ unread /\ k = dr_offset d /\
        works_through fs directory relative (records ++ [d]) calls (new ++ [e]) /\ D (seen ++ new) e s
  end.

Lemma visit_ended_next directory relative d entries seen c1 entry r s c2 :
  examines fs directory relative d c1 entry ->
  visit_ended directory relative entries (seen ++ option_list entry) r s c2 ->
  visit_ended directory relative (Ok d :: entries) seen r s (c1 ++ c2).
Proof.
  intros He. destruct r as [[|k]|e]; cbn; [| |done].
  - intros (records & new & -> & Hw & HP). exists (d :: records), (option_list entry ++ new).
    split_and!; [done|by constructor|by rewrite app_assoc].
  - intros [Hs|(records & d' & unread & new & e & -> & -> & Hw & HD)]; [by left|right].
    exists (d :: records), d', unread, (option_list entry ++ new), e.
    split_and!; [done..|rewrite <-app_assoc; by constructor|by rewrite app_assoc].
Qed.

Lemma resolve_entry_log relative is_symlink :
  spec (resolve_entry fs relative is_symlink) (λ r calls,
    match r with Ok resolved => resolves fs relative is_symlink calls resolved | Err _ => True end).
Proof.
  unfold resolve_entry, sys_openat, sys_file_metadata. apply spec_bind_call. intros [fd|e].
  - eapply spec_bind_ok; [apply (spec_call _ _ (λ r c, c = [FileMetadata fd r])); by intros| |done].
    intros md c ->. apply spec_ret. constructor.
  - destruct (Z.eqb_spec e XDEV) as [->|Hx]; [apply spec_ret; constructor|].
    destruct is_symlink; [rewrite andb_true_r|by rewrite andb_false_r; apply spec_ret].
    destruct ((e =? NOENT) || (e =? LOOP)) eqn:He; [|by apply spec_ret].
    apply spec_attempt_call; [|done]. intros fd.
    eapply spec_bind_ok; [apply (spec_call _ _ (λ r c, c = [FileMetadata fd r])); by intros| |done].
    intros md c ->. apply spec_ret. cbn. constructor; [done|].
    apply orb_true_iff in He as [?%Z.eqb_eq|?%Z.eqb_eq]; auto.
Qed.

Lemma visit_entries_log directory relative entries cursor seen s :
  P seen s ->
  spec (visit_entries fs budget visitor directory relative entries cursor s)
    (λ '(r, s') calls, visit_ended directory relative entries seen r s' calls).
Proof.
  revert cursor seen s. induction entries as [|[d|e] entries IH]; intros cursor seen s HP; cbn [visit_entries].
  { apply spec_ret. exists [], []. rewrite app_nil_r. split_and!; [done|constructor|done]. }
  2: by apply spec_ret.
  cbv zeta. destruct (beqb (dr_name d) dot || beqb (dr_name d) dotdot) eqn:Hdot.
  { eapply spec_weaken; [by apply (IH _ seen)|]. intros [r s'] c Hr.
    apply (visit_ended_next _ _ _ _ _ [] None); [|by rewrite app_nil_r].
    constructor. apply orb_true_iff in Hdot as [?%beqb_true|?%beqb_true]; auto. }
  eapply spec_bind; [by apply Hbudget|]. intros [[] s1] c1 [Hp1 H1]; cbn [negb]; [|by apply spec_ret; left].
  unfold within, within_sys, sys_statat. apply spec_bind_call. intros [st|e]; [|by apply spec_ret].
  eapply spec_bind; [apply resolve_entry_log|]. intros [[md|]|e] c2 H2; [| |by apply spec_ret].
  - set (e := mkEntry _ _ _ _ _). eapply spec_bind; [by apply Hvisitor|].
    intros [[[]|err] s2] c3 [Hp3 H3]; [| |by apply spec_ret].
    + eapply spec_weaken; [by apply (IH _ (seen ++ [e]))|]. intros [r s'] c4 Hr.
      replace (c1 ++ _ :: c2 ++ c3 ++ c4) with ((c1 ++ Statat directory (dr_name d) (Ok st) :: c2 ++ c3) ++ c4)
        by (rewrite <-app_assoc; cbn; by rewrite <-app_assoc).
      apply (visit_ended_next _ _ _ _ _ _ (Some e)); [|done]. by apply (examines_entry _ _ _ _ _ _ _ _ (Some md)).
    + apply spec_ret. rewrite app_nil_r. destruct H3 as [H3|H3]; [by left|right].
      exists [], d, entries, [], e. split_and!; [done|done| |by rewrite app_nil_r].
      rewrite <-(app_nil_r (c1 ++ _)). change ([] ++ [e]) with (option_list (Some e) ++ []).
      constructor; [|constructor]. by apply (examines_entry _ _ _ _ _ _ _ _ (Some md)).
  - eapply spec_weaken; [by apply (IH _ seen), Hskip|]. intros [r s'] c4 Hr.
    replace (c1 ++ _ :: c2 ++ c4) with ((c1 ++ Statat directory (dr_name d) (Ok st) :: c2 ++ []) ++ c4)
      by (rewrite app_nil_r, <-app_assoc; done).
    apply (visit_ended_next _ _ _ _ _ _ None); [|by rewrite app_nil_r].
    by eapply (examines_entry _ _ _ _ _ _ _ _ None).
Qed.

Lemma visit_chunk_log path cursor seen s :
  P seen s ->
  spec (visit_dir_blocking_chunk fs budget visitor path cursor s) (λ '(r, s') calls,
    match r with
    | Err _ => True
    | Ok _ => exists relative directory entries opening calls',
        calls = opening ++ calls' /\ opens_to_read fs path cursor relative directory entries opening /\
        visit_ended directory relative entries seen r s' calls'
    end).
Proof.
  intros HP. unfold visit_dir_blocking_chunk, within, within_sys.
  destruct (relative_path_or_dot fs path) as [relative|e] eqn:Hrel; [|by apply spec_ret].
  unfold open_directory_from_root, sys_openat, io_of. apply spec_bind_assoc, spec_bind_call. intros opened.
  apply spec_bind_ret. destruct opened as [directory|e]; [|by apply spec_ret].
  unfold sys_read_dir. apply spec_bind_call. intros [entries|e]; [|by apply spec_ret].
  eapply spec_weaken; [by apply (visit_entries_log _ _ _ _ seen)|]. intros [[p|e] s'] calls Hr; [|done].
  exists relative, directory, entries. do 2 eexists. split; [|split; [by split|exact Hr]]. done.
Qed.
End visit_log.

Section lookup_log.
Context {Env : Type} `{Os Env} (fs : RootedFs).

(** The log of a lookup tells its answer. *)
Lemma metadata_log path :
  spec (metadata_blocking fs path) (λ r calls,
    Forall not_listing calls /\
    forall md, looked_up fs path md calls <-> r = Ok md).
Proof.
  unfold metadata_blocking, sys_openat, sys_file_metadata. apply spec_attempt_ret.
  - intros relative Hrel. apply spec_attempt_call.
    + intros fd. apply spec_call. intros r. split; [by repeat constructor|]. intros md. split.
      * by intros (? & ? & _ & [= _ _ _ ->]).
      * intros [= ->]. by exists relative, fd.
    + intros e. split; [by repeat constructor|]. intros md. split; [by intros (? & ? & _ & [=])|done].
  - intros e He. split; [done|]. intros md. split; [by intros (? & ? & _ & [=])|done].
Qed.
End lookup_log.

(** ** Visiting changes nothing *)

Section visit_reads.
Context {Env : Type} `{Os Env} (fs : RootedFs).

Context {S : Type} (budget : bytes -> S -> Sys Env (bool * S)).
Context (visitor : RootedDirEntry -> S -> Sys Env (result IoError bool * S)).
Context (Hbudget : forall p s, emits reads (budget p s)) (Hvisitor : forall e s, emits reads (visitor e s)).

Lemma visit_entries_reads directory relative entries cursor s :
  emits reads (visit_entries fs budget visitor directory relative entries cursor s).
Proof.
  revert cursor s. induction entries as [|[entry|e] entries IH]; intros cursor s; cbn [visit_entries];
    [apply emits_ret| |apply emits_ret].
  cbv zeta. destruct (_ || _); [apply IH|].
  unfold within, within_sys, resolve_entry, sys_openat, sys_statat, sys_file_metadata.
  repeat (emits_step || apply IH || apply Hbudget || apply Hvisitor).
Qed.

Lemma visit_chunk_reads path cursor s :
  emits reads (visit_dir_blocking_chunk fs budget visitor path cursor s).
Proof.
  unfold visit_dir_blocking_chunk, within, within_sys, open_directory_from_root, sys_openat, sys_read_dir.
  repeat (emits_step || apply visit_entries_reads).
Qed.
End visit_reads.
#[export] Hint Resolve metadata_reads visit_chunk_reads : emits.

(** ** Bounds of the walk *)

Section bounds.
Context {Env : Type} `{Os Env} (fs : RootedFs) `{UuidLib} {T : Type}.
Context (max_entries max_depth max_working_bytes : Z) (serve_root : bytes) (sz : WalkSizes).
Context (include_entry : RootedDirEntry -> bytes -> result ListingError bool).
Context (map_entry : RootedDirEntry -> result ListingError T).
Context (item_heap_bytes : T -> Z) (byte_budget : option CollectionByteBudget).
Context (size_of_item size_of_vec : Z) (alloc_items : Allocator).

Abbreviation Cells := (WalkCells T).
Abbreviation budget_of := (walk_budget (T := T) max_entries serve_root).
Abbreviation take_of := (take_entry serve_root include_entry map_entry item_heap_bytes byte_budget
  size_of_item size_of_vec alloc_items).
Abbreviation visitor_of := (walk_visitor serve_root include_entry map_entry item_heap_bytes byte_budget
  size_of_item size_of_vec alloc_items).

(** An item that a wanted entry was turned into. *)
Definition wanted_item (x : T) : Prop :=
  exists e, map_entry e = Ok x /\ include_entry e (de_file_name e) = Ok true /\
    is_internal_name (de_file_name e) = false /\ is_utf8 (de_file_name e) = true.

Definition item_count (c : Cells) : Z := Z.of_nat (length (vec_items (wc_items c))).

(** Nothing stopped the round that began with [c0]; [slack] items may still come
    from entries already counted. *)
Record going (c0 : Cells) (slack : Z) (c : Cells) : Prop := {
  go_stopped : wc_stopped c = false;
  go_visited : wc_visited c0 <= wc_visited c <= max_entries;
  go_items : item_count c0 + slack <= item_count c + slack <= item_count c0 + (wc_visited c - wc_visited c0);
  go_wanted : Forall wanted_item (vec_items (wc_items c))
}.

(** The end of a chunk. *)
Definition chunk_end (c0 : Cells) (r : result IoError DirectoryVisitProgress) (c : Cells) : Prop :=
  wc_stopped c = true \/
  (going c0 0 c /\
   match wc_descend c with
   | Some _ => wc_visited c0 + 1 <= wc_visited c /\ r <> Ok Complete
   | None => True
   end).

Lemma budget_rule c0 p c :
  max_entries < usize_max -> 0 <= wc_visited c0 -> going c0 0 c -> wc_descend c = None ->
  spec (budget_of p c) (λ '(wanted, c') _,
    if wanted : bool then going c0 1 c' /\ wc_descend c' = None
    else forall k, chunk_end c0 (Ok (Paused k)) c').
Proof.
  intros Hmax Hv0 [G1 G2 G3 G4] Hd. unfold walk_budget, sys_interrupted, sys_deadline.
  apply spec_bind_call. intros []; [by apply spec_ret; left|].
  apply spec_bind_call. intros []; [by apply spec_ret; left|]. cbv zeta.
  cbn [wc_visited]. destruct (Z.ltb_spec max_entries (sat_add (wc_visited c) 1)) as [Hlt|Hle];
    apply spec_ret; [by left|]. split; [|done].
  unfold sat_add in *. constructor; cbn; [done|lia| |done].
  unfold item_count in *. cbn. lia.
Qed.

Lemma reserve_item_items (c : Cells) p weight items :
  reserve_item serve_root byte_budget size_of_item size_of_vec alloc_items c p weight = Ok items ->
  vec_items items = vec_items (wc_items c).
Proof.
  unfold reserve_item. destruct byte_budget as [b|]; [|by intros [= <-]]. cbv zeta.
  destruct (_ <? _); [done|]. destruct (try_reserve_bounded_vec_slot _ _ _ _ _) as [v|[]] eqn:E; try done.
  destruct (_ <? _); [done|]. intros [= <-]. revert E. unfold try_reserve_bounded_vec_slot.
  repeat case_match; try done; by intros [= <-].
Qed.

Lemma descend_rule c0 (c : Cells) child :
  going c0 0 c -> wc_descend c = None -> wc_visited c0 + 1 <= wc_visited c ->
  let '(go_on, c') := descend_into c child in
  if go_on : bool then going c0 0 c' /\ wc_descend c' = None else forall k, chunk_end c0 (Ok (Paused k)) c'.
Proof.
  intros G Hd Hv. destruct child as [child|]; cbn; [|done]. intros k. right. cbn. split; [|done].
  by destruct G as [G1 G2 G3 G4]; constructor.
Qed.

Lemma take_rule c0 depth e c :
  going c0 1 c -> wc_descend c = None ->
  let '(go_on, c') := take_of depth e c in
  if go_on : bool then going c0 0 c' /\ wc_descend c' = None else forall k, chunk_end c0 (Ok (Paused k)) c'.
Proof.
  intros [G1 G2 G3 G4] Hd. assert (Hgo : going c0 0 c) by (constructor; [done|done|lia|done]).
  unfold take_entry. cbv zeta. destruct (is_utf8 (de_file_name e)) eqn:Hu; cbn [negb]; [|by left].
  destruct (is_internal_name (de_file_name e)) eqn:Hi; [by split|].
  destruct (include_entry e (de_file_name e)) as [[]|err] eqn:Hinc; [|apply descend_rule; [done|done|lia]|by left].
  destruct (map_entry e) as [item|err] eqn:Hm; [|by left].
  destruct (reserve_item _ _ _ _ _ _ _ _) as [items|err] eqn:Hr; [|by left].
  apply reserve_item_items in Hr. apply descend_rule; [|done|cbn; lia].
  constructor; cbn; [done|done| |].
  - unfold item_count in *. cbn. rewrite Hr, length_app. cbn. lia.
  - rewrite Hr. apply Forall_app. split; [done|]. constructor; [|done]. by exists e.
Qed.

Lemma chunk_rule c0 depth path cursor :
  max_entries < usize_max -> 0 <= wc_visited c0 <= max_entries -> Forall wanted_item (vec_items (wc_items c0)) ->
  spec (visit_dir_blocking_chunk fs budget_of (visitor_of depth) path cursor (fresh_cells c0))
    (λ '(r, c) _, chunk_end c0 r c).
Proof.
  intros Hmax Hv Hw.
  apply (visit_chunk_rule fs budget_of (visitor_of depth)
    (λ c, going c0 0 c /\ wc_descend c = None) (λ c, going c0 1 c /\ wc_descend c = None) (chunk_end c0)).
  - intros p c [G Hd]. apply budget_rule; [done|lia|done|done].
  - intros e c _ [G Hd]. unfold walk_visitor, sys_interrupted, sys_deadline.
    apply spec_bind_call. intros []; [by apply spec_ret; left|].
    apply spec_bind_call. intros []; [by apply spec_ret; left|].
    pose proof (take_rule c0 depth e c G Hd) as Ht. destruct (take_of depth e c) as [[] c']; by apply spec_ret.
  - intros c [[G1 G2 G3 G4] Hd]. split; [|done]. constructor; [done|done|lia|done].
  - intros c [G Hd]. right. by rewrite Hd.
  - intros e c [G Hd]. right. by rewrite Hd.
  - split; [|done]. constructor; cbn; [done|lia|unfold item_count; cbn; lia|done].
Qed.

(** ** Termination *)

Definition stack_height (s : DirectoryWalkState) : Z := Z.of_nat (length (vec_items (ws_stack s))).

Lemma push_stack s path snapshot depth s' :
  push_directory sz s path snapshot depth max_depth max_working_bytes serve_root = Ok s' ->
  vec_items (ws_stack s') = vec_items (ws_stack s) ++ [mkFrame path 0 snapshot depth] /\ depth <= max_depth.
Proof.
  unfold push_directory. cbv zeta. destruct (Z.ltb_spec max_depth depth); [done|].
  repeat (case_match; try done). intros [= <-]. cbn. split; [|done].
  match goal with H : try_reserve_bounded_vec_slot _ _ _ _ _ = Ok _ |- _ => revert H end.
  unfold try_reserve_bounded_vec_slot. repeat case_match; try done; by intros [= <-].
Qed.

Lemma push_height s path snapshot depth s' :
  push_directory sz s path snapshot depth max_depth max_working_bytes serve_root = Ok s' ->
  stack_height s' = stack_height s + 1.
Proof. intros [H1 _]%push_stack. unfold stack_height. rewrite H1, length_app. cbn. lia. Qed.

Lemma finish_stack s r :
  finish_current sz s max_working_bytes serve_root = Some (Ok r) ->
  exists f, vec_items (ws_stack s) = vec_items (ws_stack r) ++ [f].
Proof.
  unfold finish_current. destruct (last (vec_items (ws_stack s))) as [frame|] eqn:Hl; [|done]. cbv zeta.
  repeat (case_match; try done). intros [= <-]. cbn. exists frame.
  apply last_Some in Hl as [l Hl]. rewrite Hl, length_app. cbn.
  replace (length l + 1 - 1)%nat with (length l) by lia. by rewrite take_app_length.
Qed.

Lemma finish_height s r :
  finish_current sz s max_working_bytes serve_root = Some (Ok r) -> stack_height r = stack_height s - 1.
Proof. intros [f Hf]%finish_stack. unfold stack_height. rewrite Hf, length_app. cbn. lia. Qed.

Lemma set_cursor_stack s k l f :
  vec_items (ws_stack s) = l ++ [f] ->
  vec_items (ws_stack (set_cursor s k)) = l ++ [mkFrame (wf_path f) k (wf_snapshot f) (wf_depth f)].
Proof.
  intros Hs. unfold set_cursor. cbv zeta. rewrite Hs, last_snoc. cbn. rewrite length_app. cbn.
  replace (length l + 1 - 1)%nat with (length l) by lia. by rewrite take_app_length.
Qed.

Lemma set_cursor_height s k : stack_height (set_cursor s k) = stack_height s.
Proof.
  unfold set_cursor, stack_height. cbv zeta. destruct (last _) as [f|] eqn:Hl; [|done]. cbn.
  apply last_Some in Hl as [l ->]. rewrite !length_app, length_take, length_app. cbn. lia.
Qed.

Abbreviation round_of := (walk_round fs max_entries max_depth max_working_bytes serve_root sz
  include_entry map_entry item_heap_bytes byte_budget size_of_item size_of_vec alloc_items).
Abbreviation loop_of := (walk_loop fs max_entries max_depth max_working_bytes serve_root sz
  include_entry map_entry item_heap_bytes byte_budget size_of_item size_of_vec alloc_items).

(** What is kept between rounds, with the budget that is left. *)
Record in_budget (c : Cells) : Prop := {
  ib_visited : 0 <= wc_visited c <= max_entries;
  ib_items : item_count c <= wc_visited c;
  ib_wanted : Forall wanted_item (vec_items (wc_items c))
}.

Definition remaining (s : DirectoryWalkState) (c : Cells) : Z :=
  2 * (max_entries - wc_visited c) + stack_height s.

Lemma ensure_any path snapshot operation :
  spec (ensure_directory_snapshot_blocking fs serve_root path snapshot operation) (λ _ _, True).
Proof.
  unfold ensure_directory_snapshot_blocking. eapply (spec_bind _ _ (λ _ _, True)); [|intros; by apply spec_ret].
  unfold metadata_blocking, sys_openat, sys_file_metadata.
  apply spec_attempt_ret; [|done]. intros relative _. apply spec_attempt_call; [|done]. intros fd.
  by apply spec_call.
Qed.

Lemma round_rule frame s c :
  max_entries < usize_max -> in_budget c ->
  spec (round_of frame s c) (λ r _,
    match r with Ok (s', c') => in_budget c' /\ remaining s' c' < remaining s c | Err _ => True end).
Proof.
  intros Hmax [I1 I2 I3]. unfold walk_round, sys_interrupted, sys_deadline. cbv zeta.
  apply spec_bind_call. intros []; [by apply spec_ret|].
  apply spec_bind_call. intros []; [by apply spec_ret|].
  eapply spec_bind_ok; [apply ensure_any| |done]. intros _ c1 _.
  eapply spec_bind; [by apply chunk_rule|]. intros [r c'] c2 [Hstop|[[G1 G2 G3 G4] Hd]].
  { rewrite Hstop. by apply spec_ret. }
  rewrite G1. assert (Hin : in_budget c') by (constructor; [lia|lia|done]).
  destruct r as [[|cursor]|e]; [| |by apply spec_ret].
  - destruct (finish_current _ _ _ _) as [[s'|e]|] eqn:Ef; [|by apply spec_ret..].
    apply finish_height in Ef. apply spec_ret. split; [done|]. unfold remaining. lia.
  - destruct (wc_descend c') as [[[p sn] d]|]; [|by apply spec_ret]. destruct Hd as [Hd _].
    apply spec_attempt_ret; [|done]. intros s' Hp%push_height. apply spec_ret. split; [done|].
    rewrite set_cursor_height in Hp. unfold remaining. lia.
Qed.

Lemma loop_rule fuel s c :
  max_entries < usize_max -> in_budget c -> remaining s c <= Z.of_nat fuel ->
  spec (loop_of fuel s c) (λ r _,
    match r with Ok (_, c') => in_budget c' | Err WalkDiverged => False | Err (WalkFailed _) => True end).
Proof.
  intros Hmax. revert s c. induction fuel as [|fuel IH]; intros s c Hin Hfuel; cbn [walk_loop];
    destruct (last (vec_items (ws_stack s))) as [frame|] eqn:Hl; try by apply spec_ret.
  - apply last_Some in Hl as [l Hl]. destruct Hin as [I1 _ _]. unfold remaining, stack_height in Hfuel.
    rewrite Hl, length_app in Hfuel. cbn in Hfuel. lia.
  - eapply spec_bind; [by apply round_rule|]. intros [[s' c']|e] calls Hr; [|by apply spec_ret].
    destruct Hr as [Hin' Hless]. apply IH; [done|lia].
Qed.

Lemma ensure_reads path snapshot operation :
  emits reads (ensure_directory_snapshot_blocking fs serve_root path snapshot operation).
Proof. unfold ensure_directory_snapshot_blocking. emits_auto. Qed.

Lemma walk_reads path :
  emits reads (collect_dir_items fs max_entries max_depth max_working_bytes serve_root sz include_entry
    map_entry item_heap_bytes byte_budget size_of_item size_of_vec alloc_items path).
Proof.
  assert (Hround : forall frame s c, emits reads (round_of frame s c)).
  { intros frame s c. unfold walk_round, sys_interrupted, sys_deadline.
    repeat (emits_step || apply ensure_reads || apply visit_chunk_reads ||
            (progress unfold walk_budget, walk_visitor, sys_interrupted, sys_deadline)). }
  assert (Hloop : forall fuel s c, emits reads (loop_of fuel s c)).
  { induction fuel as [|fuel IH]; intros s c; cbn [walk_loop]; repeat (emits_step || apply Hround || apply IH). }
  assert (Hre : forall l, emits reads (recheck_visited fs serve_root l)).
  { induction l as [|d l IH]; cbn [recheck_visited]; unfold sys_interrupted, sys_deadline;
      repeat (emits_step || apply ensure_reads || (intros; apply IH)). }
  unfold collect_dir_items. repeat (emits_step || apply metadata_reads || apply Hloop || apply Hre).
Qed.

Lemma recheck_any visited : spec (recheck_visited fs serve_root visited) (λ _ _, True).
Proof.
  induction visited as [|d visited IH]; cbn [recheck_visited]; [by apply spec_ret|].
  unfold sys_interrupted, sys_deadline. apply spec_bind_call. intros []; [by apply spec_ret|].
  apply spec_bind_call. intros []; [by apply spec_ret|].
  eapply spec_bind_ok; [apply ensure_any| |done]. intros _ c _.
  eapply spec_weaken; [apply IH|done].
Qed.

Lemma walk_bounded path :
  0 <= max_entries < usize_max ->
  spec (collect_dir_items fs max_entries max_depth max_working_bytes serve_root sz include_entry
          map_entry item_heap_bytes byte_budget size_of_item size_of_vec alloc_items path)
    (λ r _, match r with
            | Ok items =>
                Z.of_nat (length (vec_items items)) <= max_entries /\ Forall wanted_item (vec_items items)
            | Err WalkDiverged => False
            | Err (WalkFailed _) => True
            end).
Proof.
  intros Hmax. unfold collect_dir_items. eapply (spec_bind _ _ (λ _ _, True)).
  { unfold metadata_blocking, sys_openat, sys_file_metadata.
    apply spec_attempt_ret; [|done]. intros relative _. apply spec_attempt_call; [|done]. intros fd.
    by apply spec_call. }
  intros [md|e] c1 _; [|by apply spec_ret]. destruct (md_is_dir md); cbn [negb]; [|by apply spec_ret].
  destruct (walk_new _ _ _ _ _) as [s0|e] eqn:E0; cbn; [|by apply spec_ret].
  destruct (push_directory _ _ _ _ _ _ _ _) as [s|e] eqn:E1; [|by apply spec_ret].
  assert (Hh : stack_height s = 1).
  { rewrite (push_height _ _ _ _ _ E1). revert E0. unfold walk_new. cbv zeta.
    repeat (case_match; try done). by intros [= <-]. }
  eapply spec_bind_ok; [apply loop_rule; [lia| |]| |].
  - constructor; cbn; [lia| |constructor]. unfold item_count. cbn. lia.
  - unfold remaining, walk_fuel. cbn. lia.
  - intros [s' c] c2 [I1 I2 I3]. eapply spec_bind; [apply recheck_any|]. intros [[]|e] c3 _; apply spec_ret; [|done].
    split; [unfold item_count in *; lia|done].
  - intros [e|] c2 H2; [done|done].
Qed.

(** The recursive walk ends on every file system, however it changes while
    it is walked: it returns an error or at most [max_entries] items, each made
    from an entry that has a UTF-8 name, is not one of the server's internal
    entries, and that the caller's filter accepted. *)
Theorem directory_walk_is_bounded path :
  0 <= max_entries < usize_max ->
  spec (collect_dir_items fs max_entries max_depth max_working_bytes serve_root sz include_entry
          map_entry item_heap_bytes byte_budget size_of_item size_of_vec alloc_items path)
    (λ r _, match r with
            | Ok items =>
                Z.of_nat (length (vec_items items)) <= max_entries /\ Forall wanted_item (vec_items items)
            | Err WalkDiverged => False
            | Err (WalkFailed _) => True
            end).
Proof. apply walk_bounded. Qed.
(** ** The walk against its log *)

(** An entry the caller asked for. *)
Definition asked_for (e : RootedDirEntry) : bool :=
  negb (is_internal_name (de_file_name e)) &&
  match include_entry e (de_file_name e) with Ok include => include | Err _ => false end.

Definition becomes_item (e : RootedDirEntry) (item : T) : Prop := map_entry e = Ok item.

(** [c] has gained what [entries] were turned into since [c0]. *)
Definition gained (c0 : Cells) (entries : list RootedDirEntry) (c : Cells) : Prop :=
  exists items, vec_items (wc_items c) = vec_items (wc_items c0) ++ items /\
    made_of asked_for becomes_item entries items.

Definition child_frame (depth : Z) (e : RootedDirEntry) : bytes * DirectorySnapshot * Z :=
  (de_path e, snapshot_from_metadata (de_metadata e), sat_add depth 1).

Record passing (c0 : Cells) (entries : list RootedDirEntry) (c : Cells) : Prop := {
  ps_stopped : wc_stopped c = false;
  ps_descend : wc_descend c = None;
  ps_flat : Forall (λ e, descends e = false) entries;
  ps_gained : gained c0 entries c
}.

Record entering (c0 : Cells) (depth : Z) (entries : list RootedDirEntry) (e : RootedDirEntry) (c : Cells) : Prop := {
  en_descend : wc_descend c = Some (child_frame depth e);
  en_flat : Forall (λ e, descends e = false) entries;
  en_directory : descends e = true;
  en_gained : gained c0 (entries ++ [e]) c
}.

Lemma descend_log c0 depth entries e (c c1 : Cells) :
  passing c0 entries c -> is_internal_name (de_file_name e) = false ->
  wc_stopped c1 = wc_stopped c -> wc_descend c1 = wc_descend c -> gained c0 (entries ++ [e]) c1 ->
  let '(go_on, c') := descend_into c1 (if md_is_dir (de_metadata e) then Some (child_frame depth e) else None) in
  if go_on : bool then passing c0 (entries ++ [e]) c' else wc_stopped c' = true \/ entering c0 depth entries e c'.
Proof.
  intros [P1 P2 P3 P4] Hi Hs Hd Hg.
  assert (Hde : descends e = md_is_dir (de_metadata e)) by (unfold descends; by rewrite Hi).
  destruct (md_is_dir (de_metadata e)); cbn.
  - right. by constructor.
  - constructor; [congruence|congruence| |done]. apply Forall_app. by repeat constructor.
Qed.

Lemma take_log c0 depth entries e (c : Cells) :
  passing c0 entries c ->
  let '(go_on, c') := take_of depth e c in
  if go_on : bool then passing c0 (entries ++ [e]) c' else wc_stopped c' = true \/ entering c0 depth entries e c'.
Proof.
  intros HP. pose proof HP as [P1 P2 P3 (items & Hi & Hm)]. unfold take_entry. cbv zeta.
  destruct (is_utf8 (de_file_name e)) eqn:Hu; cbn [negb]; [|by left].
  destruct (is_internal_name (de_file_name e)) eqn:Hn.
  { constructor; [done|done|apply Forall_app; repeat constructor; [done|unfold descends; by rewrite Hn]|].
    exists items. split; [done|]. apply made_of_skip; [done|done|unfold asked_for; by rewrite Hn]. }
  destruct (include_entry e (de_file_name e)) as [[]|err] eqn:Hinc; [| |by left].
  - destruct (map_entry e) as [item|err] eqn:Hmap; [|by left].
    destruct (reserve_item _ _ _ _ _ _ _ _) as [v|err] eqn:Hr; [|by left]. apply reserve_item_items in Hr.
    apply (descend_log c0 depth entries e c); [done..|]. exists (items ++ [item]). cbn.
    rewrite Hr, Hi, app_assoc. split; [done|].
    apply made_of_add; [done|done|unfold asked_for; by rewrite Hn, Hinc|done].
  - apply (descend_log c0 depth entries e c); [done..|]. exists items. split; [done|].
    apply made_of_skip; [done|done|unfold asked_for; by rewrite Hn, Hinc].
Qed.

(** What one chunk of the walk did to an agenda that begins with its frame. *)
Definition chunk_explored (path : bytes) (cursor : Z) (depth : Z) (c0 : Cells)
    (r : result IoError DirectoryVisitProgress) (c : Cells) (calls : list SysCall) : Prop :=
  wc_stopped c = true \/
  match r with
  | Err _ => True
  | Ok progress => exists entries directories, gained c0 entries c /\
      match progress with
      | Complete => directories = []
      | Paused k => exists e, wc_descend c = Some (child_frame depth e) /\ directories = [(de_path e, 0); (path, k)]
      end /\
      forall gap agenda rest found, Forall not_listing gap ->
      explores fs true (directories ++ agenda) rest found ->
      explores fs true ((path, cursor) :: agenda) (gap ++ calls ++ rest) (entries ++ found)
  end.

Lemma chunk_log c0 depth path cursor :
  spec (visit_dir_blocking_chunk fs budget_of (visitor_of depth) path cursor (fresh_cells c0))
    (λ '(r, c) calls, chunk_explored path cursor depth c0 r c calls).
Proof.
  eapply spec_weaken; [apply (visit_chunk_log fs budget_of (visitor_of depth) (passing c0) (passing c0)
    (λ c, wc_stopped c = true) (entering c0 depth)) with (seen := [])|].
  - intros p entries c [P1 P2 P3 P4]. unfold walk_budget, sys_interrupted, sys_deadline.
    apply spec_bind_call. intros []; [apply spec_ret; by repeat constructor|].
    apply spec_bind_call. intros []; [apply spec_ret; by repeat constructor|]. cbv zeta.
    destruct (_ <? _); apply spec_ret; (split; [by repeat constructor|]); [done|by constructor].
  - intros e entries c HP. unfold walk_visitor, sys_interrupted, sys_deadline.
    apply spec_bind_call. intros []; [apply spec_ret; split; [by repeat constructor|by left]|].
    apply spec_bind_call. intros []; [apply spec_ret; split; [by repeat constructor|by left]|].
    pose proof (take_log c0 depth entries e c HP) as Ht. destruct (take_of depth e c) as [[] c'];
      apply spec_ret; (split; [by repeat constructor|done]).
  - done.
  - constructor; [done..|]. exists []. by rewrite app_nil_r.
  - intros [[progress|e] c] calls Hr; [|by right].
    destruct Hr as (relative & directory & records & opening & calls' & -> & Hopen & Hend).
    destruct progress as [|k]; cbn in Hend.
    + right. destruct Hend as (ds & entries & -> & Hw & [P1 P2 P3 P4]). exists entries, [].
      split_and!; [done|done|]. intros gap agenda rest found Hgap Hrest. rewrite <-app_assoc. by eapply explores_all.
    + destruct Hend as [Hs|(ds & d & unread & entries & e & -> & -> & Hw & [E1 E2 E3 E4])]; [by left|right].
      exists (entries ++ [e]), [(de_path e, 0); (path, dr_offset d)]. split_and!; [done|by exists e|].
      intros gap agenda rest found Hgap Hrest. rewrite <-app_assoc. by eapply explores_child.
Qed.

Definition agenda_of (s : DirectoryWalkState) : list (bytes * Z) :=
  (λ f, (wf_path f, wf_cursor f)) <$> reverse (vec_items (ws_stack s)).

(** Everything on the agenda of [s] was read from [c] on. *)
Definition round_explored (s s' : DirectoryWalkState) (c c' : Cells) (calls : list SysCall) : Prop :=
  exists entries, gained c entries c' /\
    forall rest found, explores fs true (agenda_of s') rest found ->
      explores fs true (agenda_of s) (calls ++ rest) (entries ++ found).

Lemma ensure_log path snapshot operation :
  emits not_listing (ensure_directory_snapshot_blocking fs serve_root path snapshot operation).
Proof.
  unfold ensure_directory_snapshot_blocking. apply emits_bind; [|intros; apply emits_ret].
  eapply spec_weaken; [apply metadata_log|by intros r calls [Hc _]].
Qed.

Lemma round_log l frame s c :
  vec_items (ws_stack s) = l ++ [frame] ->
  spec (round_of frame s c) (λ r calls,
    match r with Ok (s', c') => round_explored s s' c c' calls | Err _ => True end).
Proof.
  intros Hstack. unfold walk_round, sys_interrupted, sys_deadline. cbv zeta.
  apply spec_bind_call. intros []; [by apply spec_ret|].
  apply spec_bind_call. intros []; [by apply spec_ret|].
  eapply spec_bind_ok; [apply ensure_log| |done]. intros [] c1 Hc1.
  eapply spec_bind; [apply chunk_log|]. intros [r c'] c2 Hr. destruct (wc_stopped c') eqn:Hst; [by apply spec_ret|].
  destruct Hr as [Hr|Hr]; [congruence|]. destruct r as [progress|e]; [|by apply spec_ret].
  destruct Hr as (entries & directories & Hg & Hd & Hr).
  assert (Hgap : forall i d, Forall not_listing (Interrupted_ i :: Deadline d :: c1)) by (by repeat constructor).
  assert (Hagenda : agenda_of s = (wf_path frame, wf_cursor frame) :: ((λ f, (wf_path f, wf_cursor f)) <$> reverse l))
    by (unfold agenda_of; by rewrite Hstack, reverse_snoc).
  destruct progress as [|k].
  - destruct (finish_current _ _ _ _) as [[s'|e]|] eqn:Ef; [|by apply spec_ret..]. apply spec_ret.
    exists entries. split; [done|]. intros rest found Hrest. rewrite app_nil_r, Hagenda.
    apply finish_stack in Ef as [f Ef]. rewrite Hstack in Ef. apply app_inj_2 in Ef as [-> _]; [|done].
    rewrite Hd in Hr. specialize (Hr _ _ _ _ (Hgap false false) Hrest). cbn in Hr |- *. by rewrite <-app_assoc.
  - destruct Hd as (e & -> & Hd). unfold child_frame. cbv beta iota.
    apply spec_attempt_ret; [|done]. intros s' [Ep _]%push_stack. apply spec_ret. exists entries. split; [done|].
    rewrite (set_cursor_stack s k l frame Hstack) in Ep. intros rest found Hrest. rewrite app_nil_r, Hagenda.
    unfold agenda_of in Hrest. rewrite Ep, !reverse_snoc in Hrest. cbn in Hrest.
    rewrite Hd in Hr. specialize (Hr _ _ _ _ (Hgap false false) Hrest). cbn in Hr |- *. by rewrite <-app_assoc.
Qed.

Lemma gained_trans c0 entries c1 entries' c2 :
  gained c0 entries c1 -> gained c1 entries' c2 -> gained c0 (entries ++ entries') c2.
Proof.
  intros (l & H1 & U1 & M1) (l' & H2 & U2 & M2). exists (l ++ l'). split; [by rewrite H2, H1, app_assoc|].
  split; [by apply Forall_app|]. rewrite filter_app. by apply Forall2_app.
Qed.

Lemma loop_log fuel s c :
  spec (loop_of fuel s c) (λ r calls,
    match r with
    | Ok (_, c') => exists entries, gained c entries c' /\ explores fs true (agenda_of s) calls entries
    | Err _ => True
    end).
Proof.
  revert s c. induction fuel as [|fuel IH]; intros s c; cbn [walk_loop];
    destruct (last (vec_items (ws_stack s))) as [frame|] eqn:Hl; [by apply spec_ret| | |].
  2: { apply last_Some in Hl as [l Hl]. eapply spec_bind; [by eapply round_log|].
    intros [[s1 c1]|e] calls Hr; [|by apply spec_ret]. destruct Hr as (entries & Hg & Hr).
    eapply spec_weaken; [apply IH|]. intros [[s2 c2]|e] calls2 H2; [|done].
    destruct H2 as (entries2 & Hg2 & H2). exists (entries ++ entries2).
    split; [by eapply gained_trans|by apply Hr]. }
  all: apply last_None in Hl; apply spec_ret; exists []; split; [exists []; by rewrite app_nil_r|];
    unfold agenda_of; rewrite Hl; by constructor.
Qed.

Lemma recheck_log visited : emits not_listing (recheck_visited fs serve_root visited).
Proof.
  induction visited as [|d visited IH]; cbn [recheck_visited]; unfold sys_interrupted, sys_deadline;
    repeat (emits_step || apply ensure_log || (intros; apply IH)).
Qed.

Lemma explores_before deep gap agenda calls entries :
  Forall not_listing gap -> explores fs deep agenda calls entries -> explores fs deep agenda (gap ++ calls) entries.
Proof.
  intros Hgap He. destruct He; rewrite ?(app_assoc gap gap0).
  - constructor. by apply Forall_app.
  - eapply explores_all; [by apply Forall_app|done..].
  - eapply explores_child; [by apply Forall_app|done..].
Qed.

Lemma explores_after deep gap agenda calls entries :
  Forall not_listing gap -> explores fs deep agenda calls entries -> explores fs deep agenda (calls ++ gap) entries.
Proof.
  intros Hgap He. induction He; [constructor; by apply Forall_app|..].
  - rewrite <-!(app_assoc _ _ gap). by eapply explores_all.
  - rewrite <-!(app_assoc _ _ gap). by eapply explores_child.
Qed.

(** A walk that returns has read every directory it found to the end, and its
    items are those of the entries asked for. *)
Lemma walk_log path :
  spec (collect_dir_items fs max_entries max_depth max_working_bytes serve_root sz include_entry
          map_entry item_heap_bytes byte_budget size_of_item size_of_vec alloc_items path)
    (λ r calls, match r with
                | Ok items => exists entries, explores fs true [(path, 0)] calls entries /\
                    made_of asked_for becomes_item entries (vec_items items)
                | Err _ => True
                end).
Proof.
  unfold collect_dir_items. eapply spec_bind; [apply metadata_log|].
  intros [md|e] c1 [Hc1 _]; [|by apply spec_ret]. destruct (md_is_dir md); cbn [negb]; [|by apply spec_ret].
  destruct (walk_new _ _ _ _ _) as [s0|e] eqn:E0; cbn; [|by apply spec_ret].
  destruct (push_directory _ _ _ _ _ _ _ _) as [s|e] eqn:E1; [|by apply spec_ret].
  assert (Hs : agenda_of s = [(path, 0)]).
  { unfold agenda_of. apply push_stack in E1 as [-> _].
    assert (vec_items (ws_stack s0) = []) as ->; [|done].
    revert E0. unfold walk_new. cbv zeta. repeat (case_match; try done). by intros [= <-]. }
  eapply spec_bind_ok; [apply loop_log| |done]. intros [s' c] c2 (entries & (items & Hi & Hm) & He).
  eapply spec_bind; [apply recheck_log|]. intros [[]|e] c3 Hc3; apply spec_ret; [|done].
  exists entries. rewrite app_nil_r, <-Hs. split; [by apply explores_before, explores_after|].
  cbn in Hi. by rewrite Hi.
Qed.
End bounds.

(** ** The walk on a file system that stands still *)

Section still.
Context {Env : Type} `{Os Env} (fs : RootedFs) `{UuidLib} {T : Type}.
Context (max_entries max_depth max_working_bytes : Z) (serve_root : bytes) (sz : WalkSizes).
Context (include_entry : RootedDirEntry -> bytes -> result ListingError bool).
Context (map_entry : RootedDirEntry -> result ListingError T).
Context (item_heap_bytes : T -> Z) (byte_budget : option CollectionByteBudget).
Context (size_of_item size_of_vec : Z) (alloc_items : Allocator).

(** The answers of the kernel. *)
Context (open_answer : bytes -> list OFlag -> result Errno Fd).
Context (md_answer : Fd -> result IoError Metadata).
Context (stat_answer : Fd -> bytes -> result Errno Stat).
Context (read_answer : Fd -> Z -> result Errno (list (result Errno Dirent))).

Class StillTree : Prop := {
  tree_open p flags env : (os_openat (rf_root fs) p flags 0 BeneathRoot env).1 = open_answer p flags;
  tree_md fd env : (os_file_metadata fd env).1 = md_answer fd;
  tree_stat fd name env : (os_statat fd name env).1 = stat_answer fd name;
  tree_read fd cursor env : (os_read_dir fd cursor env).1 = read_answer fd cursor;
  (** reading on from the offset of an entry gives the entries after it *)
  tree_seek fd pre e post :
    read_answer fd 0 = Ok (pre ++ Ok e :: post) -> read_answer fd (dr_offset e) = Ok post;
  tree_calm env : (os_interrupted env).1 = false;
  tree_time env : (os_deadline env).1 = false
}.

Context `{!StillTree}.

Lemma bind_eq {A B} (m : Sys Env A) (k : A -> Sys Env B) w : bind m k w = k (m w).1 (m w).2.
Proof. unfold bind. by destruct (m w). Qed.

Lemma call_eq {A} (run : Env -> A * Env) (event : A -> SysCall) (w : World SysCall Env) :
  (syscall run event w).1 = (run (w_env w)).1.
Proof. unfold syscall. by destruct (run (w_env w)). Qed.

(** *** The tree as data *)

Definition answer_io {A} (r : result Errno A) : result IoError A :=
  match r with Ok a => Ok a | Err e => Err (errno_io e) end.

Definition resolve_answer (relative : bytes) (is_symlink : bool) : result IoError (option Metadata) :=
  match open_answer relative [PATH; CLOEXEC] with
  | Ok fd => m ← md_answer fd; Ok (Some m)
  | Err e =>
      if e =? XDEV then Ok None
      else if ((e =? NOENT) || (e =? LOOP)) && is_symlink then
        fd ← answer_io (open_answer relative [PATH; NOFOLLOW; CLOEXEC]);
        m ← md_answer fd; Ok (Some m)
      else Err (errno_io e)
  end.

(** The visible entry a directory record stands for, if any. *)
Definition see (directory : Fd) (relative : bytes) (d : Dirent) : result IoError (option RootedDirEntry) :=
  if beqb (dr_name d) dot || beqb (dr_name d) dotdot then Ok None
  else
    nofollow ← answer_io (stat_answer directory (dr_name d));
    let is_symlink := bool_decide (from_raw_mode (st_mode nofollow) = Symlink) in
    resolved ← resolve_answer (child_of relative (dr_name d)) is_symlink;
    Ok (match resolved with
        | None => None
        | Some m => Some (mkEntry (path_push (rf_root_path fs) (child_of relative (dr_name d))) (dr_name d) m
                            is_symlink (existing_of nofollow))
        end).

Fixpoint visible (directory : Fd) (relative : bytes) (entries : list (result Errno Dirent))
    : list RootedDirEntry :=
  match entries with
  | Ok d :: entries =>
      match see directory relative d with
      | Ok (Some e) => e :: visible directory relative entries
      | Ok None => visible directory relative entries
      | Err _ => []
      end
  | _ => []
  end.

(** The visible entries of a directory from a cursor on. *)
Definition contents (path : bytes) (cursor : Z) : list RootedDirEntry :=
  match relative_path_or_dot fs path with
  | Err _ => []
  | Ok relative =>
      match open_answer (if beqb relative [] then dot else relative) [RDONLY; DIRECTORY; CLOEXEC] with
      | Err _ => []
      | Ok directory =>
          match read_answer directory cursor with
          | Err _ => []
          | Ok entries => visible directory relative entries
          end
      end
  end.

(** *** The recursive traversal *)

(** The item an entry contributes itself. *)
Definition own_item (e : RootedDirEntry) : list T :=
  if is_internal_name (de_file_name e) then []
  else
    match include_entry e (de_file_name e), map_entry e with
    | Ok true, Ok item => [item]
    | _, _ => []
    end.

(** An entry, then what is beneath it, [levels] deep. *)
Fixpoint traverse (levels : nat) (e : RootedDirEntry) : list T :=
  own_item e ++
  (if descends e
   then match levels with O => [] | S levels => contents (de_path e) 0 ≫= traverse levels end
   else []).

Definition traverse_all (levels : nat) (path : bytes) : list T := contents path 0 ≫= traverse levels.

Lemma traverse_flat levels e : descends e = false -> traverse levels e = own_item e.
Proof. intros Hd. destruct levels; cbn; rewrite Hd; apply app_nil_r. Qed.

(** *** One chunk *)

Abbreviation Cells := (WalkCells T).
Abbreviation budget_of := (walk_budget (T := T) max_entries serve_root).
Abbreviation take_of := (take_entry serve_root include_entry map_entry item_heap_bytes byte_budget
  size_of_item size_of_vec alloc_items).
Abbreviation visitor_of := (walk_visitor serve_root include_entry map_entry item_heap_bytes byte_budget
  size_of_item size_of_vec alloc_items).

Lemma resolve_still relative is_symlink w :
  (resolve_entry fs relative is_symlink w).1 = resolve_answer relative is_symlink.
Proof.
  assert (Hmd : forall fd w, (bind_ok (sys_file_metadata fd) (λ m, ok (Some m)) w).1 =
    (m ← md_answer fd; Ok (Some m))).
  { intros fd w'. unfold bind_ok. rewrite bind_eq. unfold sys_file_metadata. rewrite call_eq, tree_md.
    by destruct (md_answer fd). }
  unfold resolve_entry, resolve_answer. rewrite bind_eq. unfold sys_openat at 1. rewrite call_eq, tree_open.
  destruct (open_answer relative [PATH; CLOEXEC]) as [fd|e]; [apply Hmd|].
  destruct (e =? XDEV); [done|]. destruct (_ && is_symlink); [|done].
  unfold bind_ok at 1, io_of. rewrite !bind_eq. unfold sys_openat at 1. rewrite call_eq, tree_open. cbn [ret fst snd].
  destruct (open_answer relative [PATH; NOFOLLOW; CLOEXEC]) as [fd|e']; cbn [answer_io]; [|done]. apply Hmd.
Qed.

Lemma budget_still p (c : Cells) w :
  let '(wanted, c') := (budget_of p c w).1 in
  vec_items (wc_items c') = vec_items (wc_items c) /\ wc_descend c' = wc_descend c /\
  (if wanted then wc_stopped c' = wc_stopped c else wc_stopped c' = true).
Proof.
  unfold walk_budget. rewrite bind_eq. unfold sys_interrupted at 1. rewrite call_eq, tree_calm. cbn [fst].
  rewrite bind_eq. unfold sys_deadline at 1. rewrite call_eq, tree_time. cbn [fst]. cbv zeta.
  by destruct (_ <? _).
Qed.

Lemma visitor_still depth e (c : Cells) w :
  (visitor_of depth e c w).1 = let '(go_on, c') := take_of depth e c in (Ok go_on, c').
Proof.
  unfold walk_visitor. rewrite bind_eq. unfold sys_interrupted at 1. rewrite call_eq, tree_calm. cbn [fst].
  rewrite bind_eq. unfold sys_deadline at 1. rewrite call_eq, tree_time. cbn [fst].
  by destruct (take_of depth e c).
Qed.

Lemma take_still depth e (c : Cells) :
  let '(go_on, c') := take_of depth e c in
  (go_on = true -> wc_stopped c' = wc_stopped c) /\
  (wc_stopped c' = false ->
  vec_items (wc_items c') = vec_items (wc_items c) ++ own_item e /\
  if go_on : bool then descends e = false /\ wc_descend c' = wc_descend c
   else descends e = true /\ wc_descend c' = Some (child_frame depth e)).
Proof.
  unfold take_entry, own_item, descends. cbv zeta. destruct (is_utf8 _); cbn [negb]; [|done].
  destruct (is_internal_name (de_file_name e)); [by rewrite app_nil_r|].
  destruct (include_entry e (de_file_name e)) as [[]|err]; [| |done].
  - destruct (map_entry e) as [item|err]; [|done].
    destruct (reserve_item _ _ _ _ _ _ _ _) as [items|err] eqn:Hr; [|done].
    apply (reserve_item_items serve_root) in Hr.
    destruct (md_is_dir (de_metadata e)); cbn; rewrite Hr; done.
  - destruct (md_is_dir (de_metadata e)); cbn; rewrite app_nil_r; done.
Qed.

(** The outcome of a chunk that was not stopped. *)
Definition chunk_result (depth : Z) (directory : Fd) (relative : bytes)
    (entries : list (result Errno Dirent)) (c : Cells)
    (r : result IoError DirectoryVisitProgress) (c' : Cells) : Prop :=
  match r with
  | Err _ => True
  | Ok Complete =>
      Forall (λ e, descends e = false) (visible directory relative entries) /\
      vec_items (wc_items c') = vec_items (wc_items c) ++ (visible directory relative entries ≫= own_item)
  | Ok (Paused cursor) =>
      exists pre d post before e,
        entries = pre ++ Ok d :: post /\ cursor = dr_offset d /\
        visible directory relative entries = before ++ e :: visible directory relative post /\
        Forall (λ e, descends e = false) before /\ descends e = true /\
        vec_items (wc_items c') = vec_items (wc_items c) ++ (before ≫= own_item) ++ own_item e /\
        wc_descend c' = Some (child_frame depth e)
  end.

Lemma chunk_skip depth directory relative d entries (c c1 c' : Cells) r :
  see directory relative d = Ok None -> vec_items (wc_items c1) = vec_items (wc_items c) ->
  chunk_result depth directory relative entries c1 r c' ->
  chunk_result depth directory relative (Ok d :: entries) c r c'.
Proof.
  intros Hsee Hi Hr. unfold chunk_result in *. destruct r as [[|k]|]; [| |done]; cbn [visible];
    rewrite Hsee, <-Hi; [done|].
  destruct Hr as (pre & d' & post & before & e & -> & Hrest). by exists (Ok d :: pre), d', post, before, e.
Qed.

Lemma chunk_seen depth directory relative d entries e (c c1 c' : Cells) r :
  see directory relative d = Ok (Some e) -> descends e = false ->
  vec_items (wc_items c1) = vec_items (wc_items c) ++ own_item e ->
  chunk_result depth directory relative entries c1 r c' ->
  chunk_result depth directory relative (Ok d :: entries) c r c'.
Proof.
  intros Hsee Hflat Hi Hr. unfold chunk_result in *. destruct r as [[|k]|]; [| |done]; cbn [visible];
    rewrite Hsee.
  - destruct Hr as [Hr1 Hr2]. split; [by constructor|]. rewrite Hr2, Hi, <-app_assoc. done.
  - destruct Hr as (pre & d' & post & before & e' & -> & Hk & Hv & Hb & He & Hitems & Hd).
    exists (Ok d :: pre), d', post, (e :: before), e'. split_and!; try done.
    + by rewrite Hv.
    + by constructor.
    + rewrite Hitems, Hi. cbn. by rewrite <-!app_assoc.
Qed.

Lemma visit_still depth directory relative entries cursor (c : Cells) w :
  wc_stopped c = false -> wc_descend c = None ->
  let '(r, c') := (visit_entries fs budget_of (visitor_of depth) directory relative entries cursor c w).1 in
  wc_stopped c' = false -> chunk_result depth directory relative entries c r c'.
Proof.
  revert cursor c w. induction entries as [|[d|e] entries IH]; intros cursor c w Hs Hd; cbn [visit_entries].
  { cbn. by rewrite app_nil_r. }
  2: done.
  cbv zeta. destruct (beqb (dr_name d) dot || beqb (dr_name d) dotdot) eqn:Hdot.
  { specialize (IH (dr_offset d) c w Hs Hd). destruct (visit_entries _ _ _ _ _ _ _ _ w).1 as [r c'].
    intros Hst. eapply chunk_skip; [|done|by apply IH]. unfold see. by rewrite Hdot. }
  rewrite bind_eq. pose proof (budget_still (path_push (rf_root_path fs) (child_of relative (dr_name d))) c w) as Hb.
  unfold child_of in Hb. destruct (budget_of _ c w) as [[wanted c1] w1]. cbn [fst snd] in *.
  destruct Hb as (Hi & Hd1 & Hw). destruct wanted; cbn [negb].
  2: { intros Hst. cbn in Hst. congruence. }
  unfold within, within_sys. rewrite bind_eq. unfold sys_statat at 1. rewrite call_eq, tree_stat.
  destruct (stat_answer directory (dr_name d)) as [nofollow|e] eqn:Hstat; [|done].
  rewrite bind_eq, resolve_still. fold (child_of relative (dr_name d)).
  set (w2 := (resolve_entry _ _ _ _).2). clearbody w2.
  destruct (resolve_answer _ _) as [[m|]|e] eqn:Hres; [| |done].
  - rewrite bind_eq, visitor_still. set (e := mkEntry _ _ _ _ _). set (w3 := (visitor_of _ _ _ _).2).
    clearbody w3. assert (Hsee : see directory relative d = Ok (Some e))
      by (unfold see; rewrite Hdot, Hstat; cbn; by rewrite Hres).
    pose proof (take_still depth e c1) as Ht. destruct (take_of depth e c1) as [go_on c2]. cbv beta iota.
    destruct go_on.
    + destruct Ht as [Hgo Ht]. assert (Hs2 : wc_stopped c2 = false) by (rewrite (Hgo eq_refl); congruence).
      destruct (Ht Hs2) as (Hi2 & Hflat & Hd2). specialize (IH (dr_offset d) c2 w3 Hs2 ltac:(congruence)).
      destruct (visit_entries _ _ _ _ _ _ _ _ w3).1 as [r c']. intros Hst.
      eapply chunk_seen; [done|done|by rewrite Hi2, Hi|by apply IH].
    + intros Hst. destruct (proj2 Ht Hst) as (Hi2 & Hdir & Hd2).
      exists [], d, entries, [], e. cbn [app visible]. rewrite Hsee. split_and!; try done. by rewrite Hi2, Hi.
  - specialize (IH (dr_offset d) c1 w2 ltac:(congruence) ltac:(congruence)).
    destruct (visit_entries _ _ _ _ _ _ _ _ w2).1 as [r c']. intros Hst.
    eapply chunk_skip; [|exact Hi|by apply IH]. unfold see. rewrite Hdot, Hstat. cbn. by rewrite Hres.
Qed.

(** *** The stack against the recursion *)

Definition levels_left (f : DirectoryWalkFrame) : nat := Z.to_nat (max_depth - wf_depth f).

(** What a frame still has to contribute. *)
Definition pending (f : DirectoryWalkFrame) : list T :=
  contents (wf_path f) (wf_cursor f) ≫= traverse (levels_left f).

(** The cursor of a frame is the start or the offset of an entry read before. *)
Definition cursor_ok (f : DirectoryWalkFrame) : Prop :=
  forall relative directory,
    relative_path_or_dot fs (wf_path f) = Ok relative ->
    open_answer (if beqb relative [] then dot else relative) [RDONLY; DIRECTORY; CLOEXEC] = Ok directory ->
    forall suffix, read_answer directory (wf_cursor f) = Ok suffix ->
    exists pre, read_answer directory 0 = Ok (pre ++ suffix).

Definition stack_pending (s : DirectoryWalkState) : list T :=
  reverse (vec_items (ws_stack s)) ≫= pending.

Record walking (total : list T) (s : DirectoryWalkState) (c : Cells) : Prop := {
  wk_total : vec_items (wc_items c) ++ stack_pending s = total;
  wk_cursors : Forall cursor_ok (vec_items (ws_stack s));
  wk_depths : Forall (λ f, 0 <= wf_depth f) (vec_items (ws_stack s))
}.

Lemma traverse_nothing_below levels l :
  Forall (λ e, descends e = false) l -> l ≫= traverse levels = l ≫= own_item.
Proof. induction 1 as [|e l He Hl IH]; [done|]. cbn. by rewrite traverse_flat, IH. Qed.

Lemma mbind_app_list {A B} (f : A -> list B) l k : (l ++ k) ≫= f = (l ≫= f) ++ (k ≫= f).
Proof. apply bind_app. Qed.

(** A chunk from a good cursor, seen from the frame. *)
Lemma chunk_still f (c : Cells) w :
  let '(r, c') := (visit_dir_blocking_chunk fs budget_of (visitor_of (wf_depth f)) (wf_path f)
                     (wf_cursor f) (fresh_cells c) w).1 in
  wc_stopped c' = false -> cursor_ok f ->
  match r with
  | Err _ => True
  | Ok Complete => vec_items (wc_items c') = vec_items (wc_items c) ++ pending f
  | Ok (Paused k) =>
      exists e, let f' := mkFrame (wf_path f) k (wf_snapshot f) (wf_depth f) in
        cursor_ok f' /\ wc_descend c' = Some (child_frame (wf_depth f) e) /\
        vec_items (wc_items c') ++
          match levels_left f with O => [] | S levels => contents (de_path e) 0 ≫= traverse levels end ++
          pending f' = vec_items (wc_items c) ++ pending f
  end.
Proof.
  unfold visit_dir_blocking_chunk, within, within_sys. destruct (relative_path_or_dot fs (wf_path f)) as [relative|e] eqn:Hrel; [|done].
  rewrite bind_eq. unfold open_directory_from_root, io_of. rewrite bind_eq. unfold sys_openat at 1.
  rewrite call_eq, tree_open. cbn [ret fst snd].
  set (p := if beqb relative [] then dot else relative).
  destruct (open_answer p [RDONLY; DIRECTORY; CLOEXEC]) as [directory|e] eqn:Hopen; [|done].
  rewrite bind_eq. unfold sys_read_dir at 1. rewrite call_eq, tree_read.
  destruct (read_answer directory (wf_cursor f)) as [entries|e] eqn:Hread; [|done].
  match goal with |- context [visit_entries _ _ _ _ _ _ _ _ ?w1] => set (w' := w1); clearbody w' end.
  pose proof (visit_still (wf_depth f) directory relative entries (wf_cursor f) (fresh_cells c) w' eq_refl eq_refl) as Hv.
  destruct (visit_entries _ _ _ _ _ _ _ _ w').1 as [r c']. intros Hst Hcur. specialize (Hv Hst).
  assert (Hcontents : contents (wf_path f) (wf_cursor f) = visible directory relative entries)
    by (unfold contents; rewrite Hrel; fold p; by rewrite Hopen, Hread).
  destruct r as [[|k]|]; [| |done].
  - destruct Hv as [Hflat ->]. unfold pending. rewrite Hcontents. cbn. by rewrite traverse_nothing_below.
  - destruct Hv as (pre & d & post & before & e & -> & -> & Hvis & Hflat & Hdir & Hitems & Hdesc).
    destruct (Hcur relative directory Hrel Hopen _ Hread) as [pre0 Hfull].
    assert (Hseek : read_answer directory (dr_offset d) = Ok post)
      by (apply (tree_seek directory (pre0 ++ pre)); by rewrite <-app_assoc).
    exists e. cbv zeta. split; [|split; [done|]].
    + intros rel' dir' Hrel' Hopen' suffix. cbn [wf_path wf_cursor] in *. rewrite Hrel in Hrel'.
      injection Hrel' as <-. fold p in Hopen'. rewrite Hopen in Hopen'. injection Hopen' as <-.
      rewrite Hseek. intros [= <-]. exists (pre0 ++ pre ++ [Ok d]). rewrite Hfull. by rewrite <-!app_assoc.
    + unfold pending at 2. rewrite Hcontents, Hvis, mbind_app_list, (traverse_nothing_below _ before Hflat).
      cbn [mbind list_bind]. rewrite Hitems. cbn [fresh_cells wc_items]. rewrite <-!app_assoc.
      do 2 f_equal. unfold pending, contents. cbn [wf_path wf_cursor]. rewrite Hrel. fold p.
      rewrite Hopen, Hseek. unfold levels_left. cbn [wf_depth].
      destruct (Z.to_nat (max_depth - wf_depth f)); cbn [traverse]; rewrite Hdir, <-?app_assoc; done.
Qed.

Abbreviation round_of := (walk_round fs max_entries max_depth max_working_bytes serve_root sz
  include_entry map_entry item_heap_bytes byte_budget size_of_item size_of_vec alloc_items).
Abbreviation loop_of := (walk_loop fs max_entries max_depth max_working_bytes serve_root sz
  include_entry map_entry item_heap_bytes byte_budget size_of_item size_of_vec alloc_items).

Lemma round_still total l frame s (c : Cells) s' c' w :
  max_depth < usize_max -> vec_items (ws_stack s) = l ++ [frame] -> walking total s c ->
  (round_of frame s c w).1 = Ok (s', c') -> walking total s' c'.
Proof.
  intros Hmax Hstack [Htotal Hcur Hdep]. unfold stack_pending in Htotal.
  rewrite Hstack, reverse_snoc in Htotal. cbn [mbind list_bind] in Htotal.
  rewrite Hstack, Forall_app, Forall_singleton in Hcur. destruct Hcur as [Hcur Hcf].
  rewrite Hstack, Forall_app, Forall_singleton in Hdep. destruct Hdep as [Hdep Hdf].
  unfold walk_round. cbv zeta. rewrite bind_eq. unfold sys_interrupted at 1. rewrite call_eq, tree_calm. cbn [fst].
  rewrite bind_eq. unfold sys_deadline at 1. rewrite call_eq, tree_time. cbn [fst].
  unfold bind_ok at 1. rewrite bind_eq. destruct (ensure_directory_snapshot_blocking _ _ _ _ _ _) as [[[]|e] w1];
    cbn [fst snd]; [|done].
  rewrite bind_eq. pose proof (chunk_still frame c w1) as Hc.
  destruct (visit_dir_blocking_chunk _ _ _ _ _ _ w1) as [[r c1] w2]. cbn [fst snd] in *.
  destruct (wc_stopped c1) eqn:Hst; [done|]. specialize (Hc eq_refl Hcf).
  destruct r as [[|k]|e]; [| |done].
  - destruct (finish_current _ _ _ _) as [[s1|e]|] eqn:Ef; [|done..]. intros [= <- <-].
    apply finish_stack in Ef as [f Ef]. rewrite Hstack in Ef. apply app_inj_2 in Ef as [-> _]; [|done].
    constructor; [|done|done]. unfold stack_pending. by rewrite Hc, <-app_assoc.
  - destruct Hc as (e & Hck & Hdesc & Heq). rewrite Hdesc. unfold child_frame. cbv beta iota.
    set (f' := mkFrame (wf_path frame) k (wf_snapshot frame) (wf_depth frame)) in *.
    assert (Hsd : sat_add (wf_depth frame) 1 <= max_depth -> sat_add (wf_depth frame) 1 = wf_depth frame + 1)
      by (unfold sat_add; lia).
    unfold bind_ok. rewrite bind_eq. cbn [ret fst snd].
    destruct (push_directory _ _ _ _ _ _ _ _) as [s1|err] eqn:Ep; [|done]. intros [= <- <-].
    apply push_stack in Ep as [Ep Hle]. rewrite (set_cursor_stack s k l frame Hstack) in Ep. fold f' in Ep.
    specialize (Hsd Hle). rewrite Hsd in *. constructor.
    + unfold stack_pending. rewrite Ep, !reverse_snoc. cbn [mbind list_bind].
      unfold pending at 1, levels_left at 1. cbn [wf_path wf_cursor wf_depth].
      replace (Z.to_nat (max_depth - (wf_depth frame + 1))) with (pred (levels_left frame))
        by (unfold levels_left; lia).
      destruct (levels_left frame) as [|levels] eqn:El; [unfold levels_left in El; lia|].
      rewrite !app_assoc in *. cbn [pred]. by rewrite Heq.
    + rewrite Ep, !Forall_app, !Forall_singleton. split_and!; try done.
      intros relative directory _ _ suffix Hr. by exists [].
    + rewrite Ep, !Forall_app, !Forall_singleton. split_and!; try done. cbn. lia.
Qed.

Lemma loop_still total fuel s (c : Cells) s' c' w :
  max_depth < usize_max -> walking total s c -> (loop_of fuel s c w).1 = Ok (s', c') ->
  vec_items (wc_items c') = total.
Proof.
  intros Hmax. revert s c w. induction fuel as [|fuel IH]; intros s c w Hw; cbn [walk_loop];
    destruct (last (vec_items (ws_stack s))) as [frame|] eqn:Hl.
  - done.
  - apply last_None in Hl. intros [= <- <-]. destruct Hw as [Ht _ _]. unfold stack_pending in Ht.
    rewrite Hl in Ht. cbn in Ht. by rewrite app_nil_r in Ht.
  - apply last_Some in Hl as [l Hl]. rewrite bind_eq.
    destruct (round_of frame s c w) as [[[s1 c1]|e] w1] eqn:Er; cbn [fst snd]; [|done].
    apply IH. eapply round_still; [done|exact Hl|exact Hw|by rewrite Er].
  - apply last_None in Hl. intros [= <- <-]. destruct Hw as [Ht _ _]. unfold stack_pending in Ht.
    rewrite Hl in Ht. cbn in Ht. by rewrite app_nil_r in Ht.
Qed.

(** C29: on a file system that stands still the walk with its explicit stack,
    resumable cursors and early pauses returns exactly what the recursive
    traversal returns, in the same order: each directory's visible entries as
    they are read, and the contents of a directory right after its own entry. *)
Theorem directory_walk_is_traversal path items w :
  0 <= max_depth < usize_max ->
  (collect_dir_items fs max_entries max_depth max_working_bytes serve_root sz include_entry
     map_entry item_heap_bytes byte_budget size_of_item size_of_vec alloc_items path w).1 = Ok items ->
  vec_items items = traverse_all (Z.to_nat max_depth) path.
Proof.
  intros Hmax. unfold collect_dir_items. rewrite bind_eq.
  destruct (metadata_blocking fs path w) as [[md|e] w1]; cbn [fst snd]; [|done].
  destruct (md_is_dir md); cbn [negb]; [|done].
  destruct (walk_new _ _ _ _ _) as [s0|e] eqn:E0; cbn -[walk_loop]; [|done].
  destruct (push_directory _ _ _ _ _ _ _ _) as [s|e] eqn:E1; [|done].
  assert (Hw : walking (traverse_all (Z.to_nat max_depth) path) s (mkCells 0 vec_new 0 false None None)).
  { apply push_stack in E1 as [E1 _].
    assert (E0' : vec_items (ws_stack s0) = []).
    { revert E0. unfold walk_new. cbv zeta. repeat (case_match; try done). by intros [= <-]. }
    rewrite E0' in E1. cbn in E1. constructor.
    - unfold stack_pending. rewrite E1. cbn. rewrite app_nil_r. unfold pending, levels_left. cbn.
      by rewrite Z.sub_0_r.
    - rewrite E1. constructor; [|done]. intros relative directory _ _ suffix Hr. by exists [].
    - rewrite E1. constructor; [cbn; lia|done]. }
  unfold bind_ok. rewrite bind_eq. destruct (loop_of _ _ _ w1) as [[[s' c']|e] w2] eqn:El; cbn [fst snd]; [|done].
  rewrite bind_eq. destruct (recheck_visited _ _ _ w2) as [[[]|e] w3]; cbn [fst snd ret]; [|done].
  intros [= <-]. eapply loop_still; [lia|exact Hw|by rewrite El].
Qed.
End still.

(** ** A small tree: [a], [d] and [d/b] beneath [/srv] *)

Definition demo_open (p : bytes) (_ : list OFlag) : result Errno Fd :=
  if beqb p dot then Ok 10 else if beqb p (bs "a") then Ok 11 else if beqb p (bs "d") then Ok 12
  else if beqb p (bs "d/b") then Ok 13 else Err NOENT.
Definition demo_md (fd : Fd) : result IoError Metadata :=
  Ok (mkMetadata ((fd =? 10) || (fd =? 12)) 5 None 1 fd (0, 0) (0, 0)
        (negb ((fd =? 10) || (fd =? 12))) 1).
Definition demo_stat (fd : Fd) (name : bytes) : result Errno Stat :=
  Ok (mkStat 1 fd (if beqb name (bs "d") then 16877 else 33188) 1 5 0 0 0 0 0 0).
Definition demo_records (fd : Fd) : list (result Errno Dirent) :=
  if fd =? 10 then [Ok (mkDirent dot 1); Ok (mkDirent (bs "a") 2); Ok (mkDirent (bs "d") 3)]
  else if fd =? 12 then [Ok (mkDirent (bs "b") 1); Ok (mkDirent dotdot 2)] else [].
Definition demo_read (fd : Fd) (cursor : Z) : result Errno (list (result Errno Dirent)) :=
  Ok (drop (Z.to_nat cursor) (demo_records fd)).

#[local] Instance demo_os : Os unit := {|
  os_openat _ p flags _ _ env := (demo_open p flags, env);
  os_dup _ env := (Ok 9, env);
  os_fstat _ env := (Err NOENT, env);
  os_file_metadata fd env := (demo_md fd, env);
  os_statat fd name env := (demo_stat fd name, env);
  os_mkdirat _ _ _ env := (Err PERM, env);
  os_unlinkat _ _ _ env := (Err PERM, env);
  os_renameat _ _ _ _ _ env := (Err PERM, env);
  os_fsync _ env := (Ok tt, env);
  os_fchmod _ _ env := (Err PERM, env);
  os_read_dir fd cursor env := (demo_read fd cursor, env);
  os_interrupted env := (false, env);
  os_deadline env := (false, env);
  os_new_uuid env := ([], env);
  os_strerror _ := [];
  os_path_display p := p;
  os_kind_name _ := []
|}.

Definition demo_fs : RootedFs := mkRooted 3 (mkFile 1 10) (bs "/srv").
Definition demo_sizes : WalkSizes := mkSizes 100 80 60 24 blen (λ n, Some n) (λ n, Some n) (λ n, Some n).
#[local] Existing Instance hex_uuid.

Definition demo_walk : Sys unit (result WalkStop (BoundedVec bytes)) :=
  collect_dir_items demo_fs 10 4 100000 (bs "/srv") demo_sizes (λ _ _, Ok true) (λ e, Ok (de_path e))
    blen None 24 24 (λ n, Some n) (bs "/srv").

#[local] Instance demo_still : StillTree demo_fs demo_open demo_md demo_stat demo_read.
Proof.
  constructor; try done. intros fd pre e post. unfold demo_read. intros [= Hr]. f_equal.
  change (drop (Z.to_nat 0) (demo_records fd)) with (demo_records fd) in Hr. revert Hr. unfold demo_records.
  destruct (fd =? 10); [|destruct (fd =? 12)];
    (destruct pre as [|? [|? [|? [|? ?]]]]; cbn; intros Hr; inversion Hr; subst; try done;
     by destruct pre).
Qed.

Lemma directory_walk_is_bounded_witness :
  exists items, (demo_walk (mkWorld tt [])).1 = Ok items /\ Z.of_nat (length (vec_items items)) <= 10.
Proof.
  destruct (directory_walk_is_bounded demo_fs 10 4 100000 (bs "/srv") demo_sizes (λ _ _, Ok true)
    (λ e, Ok (de_path e)) blen None 24 24 (λ n, Some n) (bs "/srv") ltac:(unfold usize_max, u64_max; lia)
    (mkWorld tt [])) as (calls & _ & Hr). fold demo_walk in Hr.
  destruct (demo_walk (mkWorld tt [])).1 as [items|e] eqn:E.
  - exists items. split; [reflexivity|apply Hr].
  - exfalso. vm_compute in E. discriminate E.
Defined.

Lemma directory_walk_is_traversal_witness :
  (demo_walk (mkWorld tt [])).1 = Ok (mkVec [bs "/srv/a"; bs "/srv/d"; bs "/srv/d/b"] 0) /\
  [bs "/srv/a"; bs "/srv/d"; bs "/srv/d/b"] =
  traverse_all demo_fs (λ _ _, Ok true) (λ e, Ok (de_path e)) demo_open demo_md demo_stat demo_read (Z.to_nat 4)
    (bs "/srv").
Proof.
  assert (E : (demo_walk (mkWorld tt [])).1 = Ok (mkVec [bs "/srv/a"; bs "/srv/d"; bs "/srv/d/b"] 0))
    by (vm_compute; reflexivity).
  split; [exact E|]. unfold demo_walk in E.
  refine (directory_walk_is_traversal demo_fs 10 4 100000 (bs "/srv") demo_sizes (λ _ _, Ok true)
    (λ e, Ok (de_path e)) blen None 24 24 (λ n, Some n) demo_open demo_md demo_stat demo_read (bs "/srv")
    (mkVec [bs "/srv/a"; bs "/srv/d"; bs "/srv/d/b"] 0) (mkWorld tt []) _ E). unfold usize_max, u64_max. lia.
Defined.
