(* ===== verification/ListSnapshots.v ===== *)
(** The bounded cache of immutable listing snapshots and the cursors that page
    through them ([src/src/server/listing/snapshot.rs]).

    Instants are nanoseconds of a monotonic clock.  SHA-256, base64, random
    bytes, sizes of Rust types and string capacities are parameters. *)

From S2P Require Import Prelude Bytes StdPath Http Problem ListingSort Listing.
From stdpp Require Import base numbers list gmap strings sorting.
From Stdlib Require Import Ascii.

Local Open Scope Z_scope.

Definition MAX_CACHED_LIST_SNAPSHOTS : Z := 32.
Definition MAX_CACHED_LIST_SNAPSHOT_BYTES : Z := 64 * 1024 * 1024.
Definition MAX_CACHED_LIST_SNAPSHOTS_PER_OWNER : Z := 8.
Definition MAX_CACHED_LIST_SNAPSHOT_BYTES_PER_OWNER : Z := 32 * 1024 * 1024.
Definition LIST_SNAPSHOT_TTL : Z := 120 * 1000000000.

(** ** Data *)

Record ListSnapshotPage := mkListPage {
  lp_paths : list PathItem;
  lp_range : nat * nat;
  lp_next_cursor : option bytes
}.

Definition page_from_vec (paths : list PathItem) (next_cursor : option bytes) : ListSnapshotPage :=
  mkListPage paths (0%nat, length paths) next_cursor.

(** [&self.paths[self.range]]. *)
Definition page_paths (p : ListSnapshotPage) : list PathItem :=
  slice (lp_range p).1 (lp_range p).2 (lp_paths p).

Record ListSnapshotBinding := mkBinding {
  lb_owner : bytes;
  lb_path : bytes;
  lb_directory : DirectorySnapshot;
  lb_sort : bytes;
  lb_order : bytes;
  lb_query : bytes;
  lb_limit : nat
}.

(** [ListSnapshotRequest] has the same fields. *)
Abbreviation ListSnapshotRequest := ListSnapshotBinding (only parsing).

Definition matches_request (b : ListSnapshotBinding) (r : ListSnapshotRequest) : bool :=
  beqb (lb_owner b) (lb_owner r) && path_eqb (lb_path b) (lb_path r) &&
  beqb (lb_sort b) (lb_sort r) && beqb (lb_order b) (lb_order r) &&
  beqb (lb_query b) (lb_query r) && Nat.eqb (lb_limit b) (lb_limit r).

Record ListSnapshotRecord := mkRecord {
  lr_secret : bytes;
  lr_binding : ListSnapshotBinding;
  lr_paths : list PathItem;
  lr_expires_at : Z;
  lr_weight : Z
}.

Record ListSnapshotStore := mkStore {
  snapshots : gmap bytes ListSnapshotRecord;
  insertion_order : list bytes;
  total_weight : Z
}.

Definition empty_store : ListSnapshotStore := mkStore ∅ [] 0.

Inductive ListSnapshotLookupError := LookupDirectoryChanged | InvalidBinding | CursorUnavailable.

Record DecodedListCursor := mkListCursor {
  lc_id : bytes;
  lc_offset : Z;
  lc_tag : bytes
}.

(** ** Eviction *)

(** [remove_oldest]: drop ids until one names a snapshot. *)
Fixpoint remove_oldest_from (order : list bytes) (m : gmap bytes ListSnapshotRecord) (weight : Z)
    : ListSnapshotStore :=
  match order with
  | [] => mkStore m [] weight
  | id :: order =>
      match m !! id with
      | Some r => mkStore (delete id m) order (sat_sub weight (lr_weight r))
      | None => remove_oldest_from order m weight
      end
  end.

Definition remove_oldest (s : ListSnapshotStore) : ListSnapshotStore :=
  remove_oldest_from (insertion_order s) (snapshots s) (total_weight s).

Definition expired (now : Z) (s : ListSnapshotStore) (id : bytes) : bool :=
  match snapshots s !! id with
  | None => true
  | Some r => lr_expires_at r <=? now
  end.

(** [while let Some(id) = front { if !expired break; remove_oldest }]; every
    round shortens the queue. *)
Fixpoint purge_expired_loop (fuel : nat) (now : Z) (s : ListSnapshotStore) : ListSnapshotStore :=
  match fuel, insertion_order s with
  | S fuel, id :: _ => if expired now s id then purge_expired_loop fuel now (remove_oldest s) else s
  | _, _ => s
  end.

Definition purge_expired (now : Z) (s : ListSnapshotStore) : ListSnapshotStore :=
  purge_expired_loop (length (insertion_order s)) now s.

Definition owned_by (owner : bytes) (r : ListSnapshotRecord) : bool := beqb (lb_owner (lr_binding r)) owner.

Definition owner_usage (s : ListSnapshotStore) (owner : bytes) : Z * Z :=
  foldl (λ '(count, weight) r, (sat_add count 1, sat_add weight (lr_weight r))) (0, 0)
    (List.filter (owned_by owner) (snd <$> map_to_list (snapshots s))).

Definition id_owned (s : ListSnapshotStore) (owner id : bytes) : bool :=
  match snapshots s !! id with Some r => owned_by owner r | None => false end.

(** [Iterator::position]. *)
Fixpoint position {A} (f : A -> bool) (l : list A) : option nat :=
  match l with
  | [] => None
  | x :: l => if f x then Some 0%nat else S <$> position f l
  end.

Definition remove_oldest_for_owner (s : ListSnapshotStore) (owner : bytes) : bool * ListSnapshotStore :=
  match position (id_owned s owner) (insertion_order s) with
  | None => (false, s)
  | Some i =>
      match insertion_order s !! i with
      | None => (false, s)
      | Some id =>
          let order := delete i (insertion_order s) in
          match snapshots s !! id with
          | Some r =>
              (true, mkStore (delete id (snapshots s)) order (sat_sub (total_weight s) (lr_weight r)))
          | None => (false, mkStore (snapshots s) order (total_weight s))
          end
      end
  end.

(** The first loop of [make_room]: the owner's own quota. *)
Fixpoint owner_room_loop (fuel : nat) (owner : bytes) (weight : Z) (s : ListSnapshotStore)
    : ListSnapshotStore :=
  let '(owner_count, owner_weight) := owner_usage s owner in
  if (owner_count <? MAX_CACHED_LIST_SNAPSHOTS_PER_OWNER) &&
     (sat_add owner_weight weight <=? MAX_CACHED_LIST_SNAPSHOT_BYTES_PER_OWNER)
  then s
  else
    match fuel with
    | O => s
    | S fuel =>
        match remove_oldest_for_owner s owner with
        | (true, s) => owner_room_loop fuel owner weight s
        | (false, s) => s
        end
    end.

(** The second loop: the quota of the whole cache. *)
Fixpoint total_room_loop (fuel : nat) (weight : Z) (s : ListSnapshotStore) : ListSnapshotStore :=
  if negb (bool_decide (snapshots s = ∅)) &&
     ((MAX_CACHED_LIST_SNAPSHOTS <=? Z.of_nat (size (snapshots s))) ||
      (MAX_CACHED_LIST_SNAPSHOT_BYTES <? sat_add (total_weight s) weight))
  then
    match fuel with
    | O => s
    | S fuel => total_room_loop fuel weight (remove_oldest s)
    end
  else s.

Definition make_room (owner : bytes) (weight : Z) (s : ListSnapshotStore) : ListSnapshotStore :=
  let s := owner_room_loop (length (insertion_order s)) owner weight s in
  total_room_loop (length (insertion_order s)) weight s.

(** ** Cursors *)

Definition xor_byte (a b : ascii) : ascii := byte_chr (Z.lxor (byte_val a) (byte_val b)).

Class Crypto := {
  sha256 : bytes -> bytes;
  (** [URL_SAFE_NO_PAD] *)
  base64_encode : bytes -> bytes;
  base64_decode : bytes -> option bytes
}.

Class CryptoLaws `{Crypto} : Prop := {
  sha256_length b : blen (sha256 b) = 32;
  base64_roundtrip b : base64_decode (base64_encode b) = Some b;
  base64_length_57 b : blen b = 57 -> blen (base64_encode b) = 76
}.

Section cursors.
Context `{Crypto}.

Definition hmac_sha256 (key : bytes) (parts : list bytes) : bytes :=
  let key_block :=
    if 64 <? blen key then sha256 key ++ replicate 32 nul_byte
    else key ++ replicate (64 - length key) nul_byte in
  let inner_pad := zip_with xor_byte (replicate 64 (byte_chr 54)) key_block in
  let outer_pad := zip_with xor_byte (replicate 64 (byte_chr 92)) key_block in
  sha256 (outer_pad ++ sha256 (inner_pad ++ mjoin parts)).

Definition CURSOR_DOMAIN : bytes := bs "dufs-list-cursor-v3" ++ [nul_byte].

Definition list_cursor_tag (secret id : bytes) (offset : Z) : bytes :=
  take 16 (hmac_sha256 secret [CURSOR_DOMAIN; id; u64_to_be_bytes offset]).

Definition cursor_bytes (id : bytes) (offset : Z) (tag : bytes) : bytes :=
  byte_chr 3 :: id ++ u64_to_be_bytes offset ++ tag.

Definition encode_list_cursor (id secret : bytes) (offset : Z) : bytes :=
  base64_encode (cursor_bytes id offset (list_cursor_tag secret id offset)).

Definition decode_list_cursor (value : bytes) : result bytes DecodedListCursor :=
  if negb (blen value =? 76) then Err (bs "invalid list cursor length")
  else
    b ← ok_or (base64_decode value) (bs "invalid list cursor encoding");
    if negb (blen b =? 57) || negb (bool_decide (head b = Some (byte_chr 3)))
    then Err (bs "unsupported list cursor version")
    else if negb (beqb (base64_encode b) value) then Err (bs "non-canonical list cursor encoding")
    else Ok (mkListCursor (slice 1 33 b) (be_value (slice 33 41 b)) (slice 41 57 b)).

(** ** Lookup *)

Definition store_page (cursor : DecodedListCursor) (request : ListSnapshotRequest) (now : Z)
    (s : ListSnapshotStore) : result ListSnapshotLookupError ListSnapshotPage * ListSnapshotStore :=
  let s := purge_expired now s in
  (match snapshots s !! lc_id cursor with
   | None => Err CursorUnavailable
   | Some snapshot =>
       if negb (beqb (list_cursor_tag (lr_secret snapshot) (lc_id cursor) (lc_offset cursor)) (lc_tag cursor))
       then Err CursorUnavailable
       else if negb (matches_request (lr_binding snapshot) request) then Err InvalidBinding
       else if negb (bool_decide (lb_directory (lr_binding snapshot) = lb_directory request))
       then Err LookupDirectoryChanged
       else
         let offset := Z.to_nat (lc_offset cursor) in
         if Nat.eqb offset 0 || (length (lr_paths snapshot) <=? offset)%nat then Err CursorUnavailable
         else
           let end_ := Nat.min (offset + lb_limit (lr_binding snapshot)) (length (lr_paths snapshot)) in
           let next_cursor :=
             if (end_ <? length (lr_paths snapshot))%nat
             then Some (encode_list_cursor (lc_id cursor) (lr_secret snapshot) (Z.of_nat end_))
             else None in
           Ok (mkListPage (lr_paths snapshot) (offset, end_) next_cursor)
   end, s).

(** ** Insertion *)

(** Eight attempts to draw an unused id; [None] is a failing generator. *)
Fixpoint draw (randoms : list (option (bytes * bytes))) (s : ListSnapshotStore)
    : option (bytes * bytes) :=
  match randoms with
  | [] => None
  | Some (id, secret) :: randoms =>
      match snapshots s !! id with
      | Some _ => draw randoms s
      | None => Some (id, secret)
      end
  | None :: randoms => draw randoms s
  end.

Section weights.
Context (size_of_record size_of_item : Z) (string_capacity : bytes -> Z).

Definition list_snapshot_weight (binding : ListSnapshotBinding) (paths : list PathItem)
    (path_capacity : Z) : Z :=
  let fixed := sat_add size_of_record (sat_mul path_capacity size_of_item) in
  foldl (λ weight item, sat_add (sat_add weight (string_capacity (pi_name item)))
                          (string_capacity (pi_sort_name item)))
    (sat_add (sat_add (sat_add (sat_add fixed (blen (lb_path binding)))
      (string_capacity (lb_sort binding))) (string_capacity (lb_order binding)))
      (string_capacity (lb_query binding))) paths.

Definition snapshot_record (secret : bytes) (binding : ListSnapshotBinding) (paths : list PathItem)
    (now weight : Z) : ListSnapshotRecord :=
  mkRecord secret binding paths (now + LIST_SNAPSHOT_TTL) weight.

Definition cache (binding : ListSnapshotBinding) (paths : list PathItem) (path_capacity : Z)
    (serve_root : bytes) (now : Z) (randoms : list (option (bytes * bytes))) (s : ListSnapshotStore)
    : result ListingError ListSnapshotPage * ListSnapshotStore :=
  let weight := list_snapshot_weight binding paths path_capacity in
  if MAX_CACHED_LIST_SNAPSHOT_BYTES_PER_OWNER <? weight then
    (Err (listing_limit (bs "list_snapshot_cache") (lb_path binding) serve_root
            (bs "snapshot_memory_budget") ListSnapshotLimit), s)
  else
    let first_end := lb_limit binding in
    let s := purge_expired now s in
    let s := make_room (lb_owner binding) weight s in
    match draw (take 8 randoms) s with
    | None =>
        (Err (listing_limit (bs "list_snapshot_cache") (lb_path binding) serve_root
                (bs "random_cursor_generation") DirectoryOperationFailed), s)
    | Some (id, secret) =>
        let next_cursor := Some (encode_list_cursor id secret (Z.of_nat first_end)) in
        (Ok (mkListPage paths (0%nat, first_end) next_cursor),
         mkStore (<[id := snapshot_record secret binding paths now weight]> (snapshots s))
           (insertion_order s ++ [id]) (sat_add (total_weight s) weight))
    end.
End weights.
End cursors.

(** ** Sums over a map *)

Section sums.
Context {A : Type}.
Implicit Types (f : A -> Z) (m : gmap bytes A).

Definition msum f m : Z := map_fold (λ _ r acc, f r + acc) 0 m.

Lemma msum_empty f : msum f ∅ = 0.
Proof. apply map_fold_empty. Qed.

Lemma msum_insert f m i x : m !! i = None -> msum f (<[i := x]> m) = f x + msum f m.
Proof. intros H. unfold msum. apply (map_fold_insert_L (λ _ r acc, f r + acc)); [intros; lia|done]. Qed.

Lemma msum_delete f m i x : m !! i = Some x -> msum f m = f x + msum f (delete i m).
Proof. intros H. unfold msum. apply (map_fold_delete_L (λ _ r acc, f r + acc)); [intros; lia|done]. Qed.

Lemma msum_nonneg f m : map_Forall (λ _ x, 0 <= f x) m -> 0 <= msum f m.
Proof.
  induction m as [|i x m Hi IH] using map_ind; intros H; [by rewrite msum_empty|].
  rewrite msum_insert by done. apply map_Forall_insert in H as [Hx H]; [|done].
  specialize (IH H). lia.
Qed.

Lemma msum_le f m i x :
  map_Forall (λ _ x, 0 <= f x) m -> m !! i = Some x ->
  0 <= msum f (delete i m) /\ f x <= msum f m /\ msum f (delete i m) <= msum f m.
Proof.
  intros H Hi. rewrite (msum_delete f m i x Hi).
  assert (0 <= f x) by by apply (H i x).
  assert (0 <= msum f (delete i m)) by by apply msum_nonneg, map_Forall_delete. lia.
Qed.

Lemma msum_subseteq f m k :
  map_Forall (λ _ x, 0 <= f x) m -> k ⊆ m -> msum f k <= msum f m.
Proof.
  revert m. induction k as [|i x k Hi IH] using map_ind; intros m Hm Hk.
  { rewrite msum_empty. by apply msum_nonneg. }
  pose proof (lookup_weaken _ _ _ _ (lookup_insert_eq k i x) Hk) as Hx.
  rewrite msum_insert by done. rewrite (msum_delete f m i x Hx).
  assert (Hsub : k ⊆ delete i m) by (rewrite <-(delete_insert_id k i x Hi); by apply delete_mono).
  pose proof (IH (delete i m) (map_Forall_delete _ _ _ Hm) Hsub). lia.
Qed.

Lemma msum_size m : msum (λ _, 1) m = Z.of_nat (size m).
Proof.
  induction m as [|i x m Hi IH] using map_ind; [by rewrite msum_empty, map_size_empty|].
  rewrite msum_insert, map_size_insert_None by done. lia.
Qed.

(** The saturating fold of [owner_usage]. *)
Lemma saturating_fold f (l : list A) c w :
  0 <= c <= usize_max -> 0 <= w <= usize_max -> Forall (λ x, 0 <= f x) l ->
  foldl (λ '(count, weight) x, (sat_add count 1, sat_add weight (f x))) (c, w) l =
  (Z.min (c + Z.of_nat (length l)) usize_max, Z.min (w + foldr (λ x acc, f x + acc) 0 l) usize_max).
Proof.
  intros Hc Hw Hl. revert c w Hc Hw. induction Hl as [|x l Hx Hl IH]; intros c w Hc Hw; cbn [foldl foldr length].
  { f_equal; lia. }
  assert (0 <= foldr (λ x acc, f x + acc) 0 l) by (clear IH; induction Hl; cbn; lia).
  rewrite IH by (unfold sat_add; lia). unfold sat_add. f_equal; lia.
Qed.

Lemma msum_filter f (P : A -> bool) m :
  foldr (λ x acc, f x + acc) 0 (List.filter P (snd <$> map_to_list m)) =
  msum (λ x, if P x then f x else 0) m.
Proof.
  unfold msum. rewrite map_fold_foldr. induction (map_to_list m) as [|[i x] l IH]; [done|].
  cbn. destruct (P x); cbn; rewrite IH; lia.
Qed.

Lemma length_filter_sum (P : A -> bool) (l : list A) :
  Z.of_nat (length (List.filter P l)) = foldr (λ x acc, (λ _, 1) x + acc) 0 (List.filter P l).
Proof. induction (List.filter P l) as [|x k IH]; [done|]. cbn [length foldr]. lia. Qed.
End sums.

(** ** The invariant of the cache *)

Definition owner_count (owner : bytes) (m : gmap bytes ListSnapshotRecord) : Z :=
  msum (λ r, if owned_by owner r then 1 else 0) m.
Definition owner_weight (owner : bytes) (m : gmap bytes ListSnapshotRecord) : Z :=
  msum (λ r, if owned_by owner r then lr_weight r else 0) m.

(** The queue lists exactly the cached ids, once each, and the weight is the sum
    of the snapshots'. *)
Record store_ok (s : ListSnapshotStore) : Prop := {
  ok_nodup : NoDup (insertion_order s);
  ok_dom : forall id, id ∈ insertion_order s <-> is_Some (snapshots s !! id);
  ok_weights : map_Forall (λ _ r, 0 <= lr_weight r) (snapshots s);
  ok_total : total_weight s = msum lr_weight (snapshots s);
  ok_limit : total_weight s <= MAX_CACHED_LIST_SNAPSHOT_BYTES
}.

(** Every quota of the cache holds. *)
Record within_quota (s : ListSnapshotStore) : Prop := {
  quota_count : Z.of_nat (size (snapshots s)) <= MAX_CACHED_LIST_SNAPSHOTS;
  quota_owner_count owner :
    owner_count owner (snapshots s) <= MAX_CACHED_LIST_SNAPSHOTS_PER_OWNER;
  quota_owner_weight owner :
    owner_weight owner (snapshots s) <= MAX_CACHED_LIST_SNAPSHOT_BYTES_PER_OWNER
}.

Lemma owner_terms_nonneg (owner : bytes) (m : gmap bytes ListSnapshotRecord) :
  map_Forall (λ (_ : bytes) r, 0 <= lr_weight r) m ->
  map_Forall (λ (_ : bytes) r, 0 <= (if owned_by owner r then 1 else 0)) m /\
  map_Forall (λ (_ : bytes) r, 0 <= (if owned_by owner r then lr_weight r else 0)) m.
Proof.
  intros H. split; intros i r Hi; cbn; destruct (owned_by owner r); try lia. by apply (H i r).
Qed.

Lemma msum_below {A} (f g : A -> Z) (m : gmap bytes A) :
  map_Forall (λ _ x, f x <= g x) m -> msum f m <= msum g m.
Proof.
  induction m as [|i x m Hi IH] using map_ind; intros H; [by rewrite !msum_empty|].
  rewrite !msum_insert by done. apply map_Forall_insert in H as [Hx H]; [|done].
  specialize (IH H). lia.
Qed.

Lemma owner_usage_exact s owner : store_ok s -> Z.of_nat (size (snapshots s)) <= usize_max ->
  owner_usage s owner = (owner_count owner (snapshots s), owner_weight owner (snapshots s)).
Proof.
  intros Hs Hsize. unfold owner_usage, owner_count, owner_weight.
  pose proof (ok_weights s Hs) as Hw. destruct (owner_terms_nonneg owner _ Hw) as [H1 H2].
  rewrite saturating_fold; [|unfold usize_max, u64_max; lia..|].
  - rewrite length_filter_sum, !msum_filter. rewrite !Z.add_0_l. f_equal; apply Z.min_l.
    + etrans; [apply (msum_below _ (λ _, 1))|by rewrite msum_size].
      intros i r _. cbn. destruct (owned_by owner r); lia.
    + etrans; [apply (msum_below _ lr_weight)|].
      * intros i r Hi. cbn. pose proof (Hw i r Hi). cbn in *. destruct (owned_by owner r); lia.
      * rewrite <-(ok_total s Hs). pose proof (ok_limit s Hs).
        unfold MAX_CACHED_LIST_SNAPSHOT_BYTES, usize_max, u64_max in *. lia.
  - apply Forall_forall. intros r Hr%list_elem_of_In. apply List.filter_In in Hr as [Hr _].
    apply list_elem_of_In, list_elem_of_fmap in Hr as ([i r'] & -> & Hr). cbn.
    apply elem_of_map_to_list in Hr. by apply (Hw i r').
Qed.

(** Dropping one snapshot. *)
Lemma evict_ok s before_id id after r :
  store_ok s -> insertion_order s = before_id ++ id :: after -> snapshots s !! id = Some r ->
  let s' := mkStore (delete id (snapshots s)) (before_id ++ after) (sat_sub (total_weight s) (lr_weight r)) in
  store_ok s' /\ (within_quota s -> within_quota s').
Proof.
  intros Hs Ho Hr s'. destruct (msum_le lr_weight _ id r (ok_weights s Hs) Hr) as (H0 & Hle & Hmono).
  assert (Htot : sat_sub (total_weight s) (lr_weight r) = msum lr_weight (delete id (snapshots s))).
  { rewrite (ok_total s Hs), (msum_delete lr_weight _ id r Hr). unfold sat_sub. lia. }
  pose proof (ok_nodup s Hs) as Hnd. rewrite Ho, NoDup_app, NoDup_cons in Hnd.
  destruct Hnd as (Hn1 & Hn2 & Hn3 & Hn4). split.
  - constructor; cbn.
    + rewrite NoDup_app. split; [done|]. split; [|done]. intros x Hx Hx'.
      apply (Hn2 x Hx). set_solver.
    + intros x. pose proof (ok_dom s Hs x) as Hd. rewrite Ho in Hd. destruct (decide (x = id)) as [->|Hne].
      * rewrite lookup_delete_eq. split; [|by intros [? ?]].
        rewrite elem_of_app. intros [Hx|Hx]; [|done]. exfalso. apply (Hn2 id Hx). set_solver.
      * rewrite lookup_delete_ne by done. rewrite <-Hd. set_solver.
    + apply map_Forall_delete, (ok_weights s Hs).
    + done.
    + rewrite Htot. pose proof (ok_limit s Hs). rewrite (ok_total s Hs) in *. lia.
  - intros [Q1 Q2 Q3]. constructor; cbn.
    + rewrite map_size_delete, Hr. lia.
    + intros owner. destruct (owner_terms_nonneg owner _ (ok_weights s Hs)) as [H1 _].
      specialize (Q2 owner). unfold owner_count in *.
      pose proof (msum_le _ _ id r H1 Hr) as (_ & _ & ?). lia.
    + intros owner. destruct (owner_terms_nonneg owner _ (ok_weights s Hs)) as [_ H2].
      specialize (Q3 owner). unfold owner_weight in *.
      pose proof (msum_le _ _ id r H2 Hr) as (_ & _ & ?). lia.
Qed.

Lemma order_head s id order : store_ok s -> insertion_order s = id :: order ->
  exists r, snapshots s !! id = Some r /\
    remove_oldest s = mkStore (delete id (snapshots s)) order (sat_sub (total_weight s) (lr_weight r)).
Proof.
  intros Hs Ho. destruct (proj1 (ok_dom s Hs id)) as [r Hr]; [rewrite Ho; set_solver|].
  exists r. split; [done|]. unfold remove_oldest. rewrite Ho. cbn. by rewrite Hr.
Qed.

(** ** The eviction loops *)

(** [s'] is [s] after some evictions; the queue keeps its order. *)
Definition evicted (s s' : ListSnapshotStore) : Prop :=
  store_ok s' /\ (within_quota s -> within_quota s') /\
  snapshots s' ⊆ snapshots s /\ insertion_order s' `sublist_of` insertion_order s.

Lemma evicted_refl s : store_ok s -> evicted s s.
Proof. intros Hs. split_and!; done. Qed.

Lemma evicted_trans s1 s2 s3 : evicted s1 s2 -> evicted s2 s3 -> evicted s1 s3.
Proof.
  intros (H1 & H2 & H3 & H4) (H1' & H2' & H3' & H4'). split_and!; [done|auto|by etrans|by etrans].
Qed.

Lemma remove_oldest_evicted s id order : store_ok s -> insertion_order s = id :: order ->
  evicted s (remove_oldest s) /\ insertion_order (remove_oldest s) = order /\
  snapshots (remove_oldest s) = delete id (snapshots s).
Proof.
  intros Hs Ho. destruct (order_head s id order Hs Ho) as (r & Hr & ->). cbn.
  destruct (evict_ok s [] id order r Hs Ho Hr) as [Hok Hq].
  split; [|done]. split_and!; [done|done|apply delete_subseteq|]. cbn. rewrite Ho. by constructor.
Qed.

Lemma purge_expired_loop_spec fuel now s :
  store_ok s -> (length (insertion_order s) <= fuel)%nat ->
  let s' := purge_expired_loop fuel now s in
  evicted s s' /\
  (forall id, head (insertion_order s') = Some id -> expired now s' id = false) /\
  (forall id r, snapshots s !! id = Some r -> now < lr_expires_at r -> snapshots s' !! id = Some r).
Proof.
  revert s. induction fuel as [|fuel IH]; intros s Hs Hf; cbn [purge_expired_loop].
  { destruct (insertion_order s) as [|id order] eqn:Ho; [|cbn in Hf; lia].
    split; [by apply evicted_refl|]. done. }
  destruct (insertion_order s) as [|id order] eqn:Ho.
  { split; [by apply evicted_refl|]. by rewrite Ho. }
  destruct (expired now s id) eqn:He.
  2:{ split; [by apply evicted_refl|]. split; [|done]. rewrite Ho. by intros ? [= <-]. }
  destruct (remove_oldest_evicted s id order Hs Ho) as (Hev & Ho' & Hsn).
  destruct (IH (remove_oldest s)) as (H1 & H2 & H3); [by destruct Hev|rewrite Ho'; cbn in Hf; lia|].
  split; [by eapply evicted_trans|]. split; [done|]. intros id' r Hr Hlt. apply H3; [|done].
  rewrite Hsn, lookup_delete_ne; [done|]. intros ->. unfold expired in He. rewrite Hr in He.
  bool_prop. lia.
Qed.

Lemma position_Some {A} (f : A -> bool) l i : position f l = Some i ->
  exists x, l !! i = Some x /\ f x = true.
Proof.
  revert i. induction l as [|x l IH]; intros i; cbn; [done|].
  destruct (f x) eqn:E; [intros [= <-]; by exists x|].
  destruct (position f l) as [j|]; [|done]. cbn. intros [= <-]. by apply IH.
Qed.

Lemma position_None {A} (f : A -> bool) l : position f l = None -> forall x, x ∈ l -> f x = false.
Proof.
  induction l as [|x l IH]; cbn; [set_solver|]. destruct (f x) eqn:E; [done|].
  destruct (position f l) as [j|]; [done|]. intros _ y [->|Hy]%elem_of_cons; [done|by apply IH].
Qed.

Lemma remove_for_owner_spec s owner : store_ok s ->
  match remove_oldest_for_owner s owner with
  | (true, s') => evicted s s' /\ S (length (insertion_order s')) = length (insertion_order s)
  | (false, s') => s' = s /\ owner_count owner (snapshots s) = 0 /\ owner_weight owner (snapshots s) = 0
  end.
Proof.
  intros Hs. unfold remove_oldest_for_owner. destruct (position _ _) as [i|] eqn:Hp.
  - apply position_Some in Hp as (id & Hi & Hid). rewrite Hi.
    unfold id_owned in Hid. destruct (snapshots s !! id) as [r|] eqn:Hr; [|done].
    pose proof (take_drop_middle _ _ _ Hi) as Hsplit. symmetry in Hsplit.
    destruct (evict_ok s _ id _ r Hs Hsplit Hr) as [Hok Hq].
    rewrite delete_take_drop. split.
    + split_and!; [done|done|apply delete_subseteq|]. cbn -[take drop].
      etrans; [|rewrite Hsplit; reflexivity]. apply sublist_app; [done|]. by constructor.
    + apply (f_equal length) in Hsplit. revert Hsplit. cbn -[take drop].
      rewrite !length_app. cbn -[take drop]. lia.
  - split; [done|].
    assert (Hn : map_Forall (λ (_ : bytes) r, owned_by owner r = false) (snapshots s)).
    { intros id r Hr. assert (id ∈ insertion_order s) as Hin by (apply (ok_dom s Hs); eauto).
      pose proof (position_None _ _ Hp id Hin) as H. unfold id_owned in H. by rewrite Hr in H. }
    unfold owner_count, owner_weight. clear Hs Hp. revert Hn. generalize (snapshots s). clear s.
    intros m. induction m as [|i x m Hi IH] using map_ind; intros Hn; [by rewrite !msum_empty|].
    apply map_Forall_insert in Hn as [Hx Hn]; [|done]. rewrite !msum_insert by done.
    destruct (IH Hn) as [-> ->]. by rewrite Hx.
Qed.

Lemma size_small s : store_ok s -> (length (insertion_order s) = size (snapshots s))%nat.
Proof.
  intros Hs. rewrite <-(length_map_to_list (snapshots s)), <-(length_fmap fst).
  apply Permutation_length, NoDup_Permutation; [apply (ok_nodup s Hs)|apply NoDup_fst_map_to_list|].
  intros id. rewrite (ok_dom s Hs id), list_elem_of_fmap. split.
  - intros [r Hr]. exists (id, r). split; [done|]. by apply elem_of_map_to_list.
  - intros ([id' r] & -> & Hr). apply elem_of_map_to_list in Hr. by exists r.
Qed.

Lemma owner_room_loop_spec fuel owner weight s :
  store_ok s -> within_quota s -> 0 <= weight <= MAX_CACHED_LIST_SNAPSHOT_BYTES_PER_OWNER ->
  (length (insertion_order s) <= fuel)%nat ->
  let s' := owner_room_loop fuel owner weight s in
  evicted s s' /\ owner_count owner (snapshots s') < MAX_CACHED_LIST_SNAPSHOTS_PER_OWNER /\
  owner_weight owner (snapshots s') + weight <= MAX_CACHED_LIST_SNAPSHOT_BYTES_PER_OWNER.
Proof.
  intros Hs Hq Hw. revert s Hs Hq. induction fuel as [|fuel IH]; intros s Hs Hq Hf; cbn [owner_room_loop].
  all: pose proof (quota_count s Hq) as Hc; unfold MAX_CACHED_LIST_SNAPSHOTS in Hc;
    rewrite (owner_usage_exact s owner Hs) by (unfold usize_max, u64_max; lia).
  all: pose proof (quota_owner_weight s Hq owner) as Hqw;
    assert (Hsat : sat_add (owner_weight owner (snapshots s)) weight = owner_weight owner (snapshots s) + weight)
      by (unfold sat_add, MAX_CACHED_LIST_SNAPSHOT_BYTES_PER_OWNER, usize_max, u64_max in *; lia);
    rewrite Hsat; destruct (_ && _) eqn:E;
    [apply andb_true_iff in E as [E1 E2]; bool_prop; split_and!; [by apply evicted_refl|lia|lia]|].
  - exfalso. pose proof (remove_for_owner_spec s owner Hs) as Hr. unfold remove_oldest_for_owner in Hr.
    destruct (insertion_order s) as [|id order] eqn:Ho; [|cbn in Hf; lia]. cbn in Hr.
    destruct Hr as (_ & R1 & R2). rewrite R1, R2 in E.
    unfold MAX_CACHED_LIST_SNAPSHOTS_PER_OWNER, MAX_CACHED_LIST_SNAPSHOT_BYTES_PER_OWNER in *.
    apply andb_false_iff in E. bool_prop. destruct E as [E|E]; bool_prop; lia.
  - pose proof (remove_for_owner_spec s owner Hs) as Hr.
    destruct (remove_oldest_for_owner s owner) as [[] s'].
    + destruct Hr as [Hev Hlen]. destruct (IH s') as (H1 & H2 & H3);
        [apply Hev|by apply Hev|lia|]. split_and!; [by eapply evicted_trans|done..].
    + exfalso. destruct Hr as (_ & R1 & R2). rewrite R1, R2 in E.
      unfold MAX_CACHED_LIST_SNAPSHOTS_PER_OWNER, MAX_CACHED_LIST_SNAPSHOT_BYTES_PER_OWNER in *.
      apply andb_false_iff in E. destruct E as [E|E]; bool_prop; lia.
Qed.

Lemma total_room_loop_spec fuel weight s :
  store_ok s -> 0 <= weight <= MAX_CACHED_LIST_SNAPSHOT_BYTES ->
  (length (insertion_order s) <= fuel)%nat ->
  let s' := total_room_loop fuel weight s in
  evicted s s' /\ Z.of_nat (size (snapshots s')) < MAX_CACHED_LIST_SNAPSHOTS /\
  total_weight s' + weight <= MAX_CACHED_LIST_SNAPSHOT_BYTES.
Proof.
  intros Hs Hw. revert s Hs. induction fuel as [|fuel IH]; intros s Hs Hf; cbn [total_room_loop].
  all: pose proof (ok_limit s Hs) as Hl;
    assert (Hsat : sat_add (total_weight s) weight = total_weight s + weight)
      by (unfold sat_add, MAX_CACHED_LIST_SNAPSHOT_BYTES, usize_max, u64_max in *; lia);
    rewrite Hsat; destruct (_ && _) eqn:E.
  2, 4: (split; [by apply evicted_refl|]; apply andb_false_iff in E as [E|E];
    [apply negb_false_iff, bool_decide_eq_true in E; rewrite (ok_total s Hs), E, msum_empty, map_size_empty;
     unfold MAX_CACHED_LIST_SNAPSHOTS; lia
    |apply orb_false_iff in E as [E1 E2]; bool_prop; lia]).
  all: apply andb_true_iff in E as [E _]; apply negb_true_iff, bool_decide_eq_false in E;
    destruct (insertion_order s) as [|id order] eqn:Ho;
    [exfalso; apply E; pose proof (size_small s Hs) as Hz; rewrite Ho in Hz; by apply map_size_empty_inv|].
  - cbn in Hf. lia.
  - destruct (remove_oldest_evicted s id order Hs Ho) as (Hev & Ho' & _).
    destruct (IH (remove_oldest s)) as (H1 & H2 & H3); [apply Hev|rewrite Ho'; cbn in Hf; lia|].
    split_and!; [by eapply evicted_trans|done..].
Qed.

(** ** The cache over its lifetime *)

Lemma StronglySorted_sublist {A} (R : relation A) (l k : list A) :
  l `sublist_of` k -> StronglySorted R k -> StronglySorted R l.
Proof.
  induction 1 as [|x l k Hlk IH|x l k Hlk IH]; intros Hk; [done|..];
    apply StronglySorted_inv in Hk as [Hk Hx]; [|by apply IH].
  constructor; [by apply IH|]. apply Forall_forall. intros y Hy.
  rewrite Forall_forall in Hx. apply Hx. by eapply elem_of_submseteq, sublist_submseteq.
Qed.

(** The instant of a command is read before the store is locked, so commands
    may run out of order by as much as [skew]. *)
Definition expires_before (skew : Z) (m : gmap bytes ListSnapshotRecord) (a b : bytes) : Prop :=
  forall ra rb, m !! a = Some ra -> m !! b = Some rb -> lr_expires_at ra <= lr_expires_at rb + skew.

(** [high] is the latest instant a command has used. *)
Record cache_inv (skew high : Z) (s : ListSnapshotStore) : Prop := {
  inv_ok : store_ok s;
  inv_quota : within_quota s;
  inv_order : StronglySorted (expires_before skew (snapshots s)) (insertion_order s);
  inv_high : map_Forall (λ _ r, lr_expires_at r <= high + LIST_SNAPSHOT_TTL) (snapshots s)
}.

Lemma cache_inv_empty skew high : cache_inv skew high empty_store.
Proof.
  assert (H0 : forall f : ListSnapshotRecord -> Z, msum f ∅ = 0) by apply msum_empty.
  constructor; [constructor|constructor|constructor|apply map_Forall_empty]; cbn;
    unfold owner_count, owner_weight; rewrite ?H0, ?map_size_empty; try done;
    try (intros; rewrite ?H0; done).
  - constructor.
  - intros id. rewrite lookup_empty. split; [set_solver|by intros [? ?]].
Qed.

Lemma cache_inv_evicted skew high s s' : evicted s s' -> cache_inv skew high s -> cache_inv skew high s'.
Proof.
  intros (Hok & Hq & Hsub & Ho) [I1 I2 I3 I4]. constructor; [done|auto|..].
  - apply (StronglySorted_sublist _ _ _ Ho) in I3. clear Ho.
    induction I3 as [|a l Hl IH Hf]; constructor; [done|].
    eapply Forall_impl; [exact Hf|]. cbn. intros b Hab ra rb Ha Hb.
    apply Hab; by eapply lookup_weaken.
  - intros id r Hr. by apply (I4 id r), (lookup_weaken _ _ _ _ Hr).
Qed.

Lemma cache_inv_later skew high high' s : high <= high' -> cache_inv skew high s -> cache_inv skew high' s.
Proof.
  intros Hle [I1 I2 I3 I4]. constructor; [done..|]. intros id r Hr. specialize (I4 id r Hr). cbn in *. lia.
Qed.

Lemma purge_expired_spec now s : store_ok s ->
  let s' := purge_expired now s in
  evicted s s' /\
  (forall id, head (insertion_order s') = Some id -> expired now s' id = false) /\
  (forall id r, snapshots s !! id = Some r -> now < lr_expires_at r -> snapshots s' !! id = Some r).
Proof. intros Hs. by apply purge_expired_loop_spec. Qed.

(** What a purge leaves had not expired, up to the skew of the clock. *)
Lemma purged_is_fresh skew high now s id r :
  0 <= skew -> cache_inv skew high s -> snapshots (purge_expired now s) !! id = Some r ->
  now < lr_expires_at r + skew.
Proof.
  intros Hskew Hinv Hr. destruct (purge_expired_spec now s (inv_ok _ _ _ Hinv)) as (Hev & Hhead & _).
  pose proof (cache_inv_evicted _ _ _ _ Hev Hinv) as [I1 _ I3 _].
  assert (Hin : id ∈ insertion_order (purge_expired now s)) by (apply (ok_dom _ I1); eauto).
  destruct (insertion_order (purge_expired now s)) as [|h order] eqn:Ho; [set_solver|].
  specialize (Hhead h eq_refl). unfold expired in Hhead.
  destruct (snapshots (purge_expired now s) !! h) as [rh|] eqn:Hh; [|done]. bool_prop.
  apply StronglySorted_inv in I3 as [_ Hf]. apply elem_of_cons in Hin as [->|Hin].
  - rewrite Hh in Hr. injection Hr as ->. lia.
  - rewrite Forall_forall in Hf. specialize (Hf id Hin rh r Hh Hr). lia.
Qed.

Lemma make_room_spec owner weight s :
  store_ok s -> within_quota s -> 0 <= weight <= MAX_CACHED_LIST_SNAPSHOT_BYTES_PER_OWNER ->
  let s' := make_room owner weight s in
  evicted s s' /\ Z.of_nat (size (snapshots s')) < MAX_CACHED_LIST_SNAPSHOTS /\
  total_weight s' + weight <= MAX_CACHED_LIST_SNAPSHOT_BYTES /\
  owner_count owner (snapshots s') < MAX_CACHED_LIST_SNAPSHOTS_PER_OWNER /\
  owner_weight owner (snapshots s') + weight <= MAX_CACHED_LIST_SNAPSHOT_BYTES_PER_OWNER.
Proof.
  intros Hs Hq Hw s'. subst s'. unfold make_room.
  destruct (owner_room_loop_spec (length (insertion_order s)) owner weight s Hs Hq Hw ltac:(lia)) as (E1 & C1 & W1).
  set (s1 := owner_room_loop _ owner weight s) in *.
  destruct (total_room_loop_spec (length (insertion_order s1)) weight s1) as (E2 & C2 & W2);
    [apply E1|unfold MAX_CACHED_LIST_SNAPSHOT_BYTES, MAX_CACHED_LIST_SNAPSHOT_BYTES_PER_OWNER in *; lia|done|].
  set (s2 := total_room_loop _ weight s1) in *.
  pose proof (ok_weights s1 (proj1 E1)) as Hnn.
  destruct (owner_terms_nonneg owner _ Hnn) as [N1 N2].
  assert (Hsub : snapshots s2 ⊆ snapshots s1) by apply E2.
  pose proof (msum_subseteq _ _ _ N1 Hsub). pose proof (msum_subseteq _ _ _ N2 Hsub).
  unfold owner_count, owner_weight in *.
  split; [by eapply evicted_trans|]. split_and!; [done|done|lia|lia].
Qed.

Lemma expires_before_insert skew m id r l :
  id ∉ l -> StronglySorted (expires_before skew m) l ->
  StronglySorted (expires_before skew (<[id := r]> m)) l.
Proof.
  intros Hid. induction 1 as [|a l Hl IH Hf]; constructor; [set_solver|].
  apply Forall_forall. intros b Hb ra rb Hra Hrb. rewrite Forall_forall in Hf.
  rewrite lookup_insert_ne in Hra by set_solver. rewrite lookup_insert_ne in Hrb by set_solver.
  by apply (Hf b Hb).
Qed.

(** Inserting a snapshot for which there is room. *)
Lemma insert_ok skew high now s id r :
  cache_inv skew high s -> snapshots s !! id = None ->
  high - skew <= now -> lr_expires_at r = now + LIST_SNAPSHOT_TTL -> 0 <= lr_weight r ->
  Z.of_nat (size (snapshots s)) < MAX_CACHED_LIST_SNAPSHOTS ->
  total_weight s + lr_weight r <= MAX_CACHED_LIST_SNAPSHOT_BYTES ->
  owner_count (lb_owner (lr_binding r)) (snapshots s) < MAX_CACHED_LIST_SNAPSHOTS_PER_OWNER ->
  owner_weight (lb_owner (lr_binding r)) (snapshots s) + lr_weight r <=
    MAX_CACHED_LIST_SNAPSHOT_BYTES_PER_OWNER ->
  cache_inv skew (Z.max high now)
    (mkStore (<[id := r]> (snapshots s)) (insertion_order s ++ [id]) (sat_add (total_weight s) (lr_weight r))).
Proof.
  intros [[O1 O2 O3 O4 O5] [Q1 Q2 Q3] I3 I4] Hid Hnow Hexp Hw Hsize Htotal Hcount Hweight.
  assert (Hnotin : id ∉ insertion_order s) by (rewrite O2, Hid; by intros [? ?]).
  assert (Hsat : sat_add (total_weight s) (lr_weight r) = total_weight s + lr_weight r)
    by (unfold sat_add, MAX_CACHED_LIST_SNAPSHOT_BYTES, usize_max, u64_max in *; lia).
  constructor; [constructor|constructor|..]; cbn.
  - apply NoDup_app. split_and!; [done|set_solver|apply NoDup_singleton].
  - intros x. rewrite elem_of_app, list_elem_of_singleton, lookup_insert_is_Some, O2.
    destruct (decide (id = x)); naive_solver.
  - by apply map_Forall_insert_2.
  - rewrite Hsat, msum_insert by done. lia.
  - lia.
  - rewrite map_size_insert_None by done. lia.
  - intros owner. unfold owner_count in *. rewrite msum_insert by done. specialize (Q2 owner).
    destruct (owned_by owner r) eqn:E; [|lia]. apply beqb_true in E. subst owner. lia.
  - intros owner. unfold owner_weight in *. rewrite msum_insert by done. specialize (Q3 owner).
    destruct (owned_by owner r) eqn:E; [|lia]. apply beqb_true in E. subst owner. lia.
  - apply StronglySorted_app_2.
    + intros a b Ha ->%list_elem_of_singleton ra rb Hra Hrb.
      rewrite lookup_insert_ne in Hra by set_solver. rewrite lookup_insert_eq in Hrb.
      injection Hrb as <-. specialize (I4 a ra Hra). cbn in I4. lia.
    + by apply expires_before_insert.
    + repeat constructor.
  - apply map_Forall_insert_2; [cbn; lia|]. intros x rx Hx. specialize (I4 x rx Hx). cbn in *. lia.
Qed.

(** The commands of a server on its cache, in the order in which they lock it. *)
Inductive CacheCommand :=
  | CacheInsert (binding : ListSnapshotBinding) (paths : list PathItem) (path_capacity : nat)
      (serve_root : bytes) (randoms : list (option (bytes * bytes)))
  | CacheLookup (cursor : DecodedListCursor) (request : ListSnapshotRequest).

Section lifetime.
Context `{Crypto} (size_of_record size_of_item : Z) (string_capacity : bytes -> Z).

Definition cache_step (now : Z) (c : CacheCommand) (s : ListSnapshotStore) : ListSnapshotStore :=
  match c with
  | CacheInsert binding paths path_capacity serve_root randoms =>
      (cache size_of_record size_of_item string_capacity binding paths (Z.of_nat path_capacity) serve_root
         now randoms s).2
  | CacheLookup cursor request => (store_page cursor request now s).2
  end.

Definition cache_run (cs : list (Z * CacheCommand)) (s : ListSnapshotStore) : ListSnapshotStore :=
  foldl (λ s '(now, c), cache_step now c s) s cs.

(** No command is later in the list than another whose instant exceeds its own
    by more than [skew]. *)
Fixpoint in_order (skew high : Z) (cs : list (Z * CacheCommand)) : Prop :=
  match cs with
  | [] => True
  | (now, _) :: cs => high - skew <= now /\ in_order skew (Z.max high now) cs
  end.

Fixpoint latest (high : Z) (cs : list (Z * CacheCommand)) : Z :=
  match cs with [] => high | (now, _) :: cs => latest (Z.max high now) cs end.

Context (Hrecord : 0 <= size_of_record) (Hitem : 0 <= size_of_item) (Hstrings : forall b, 0 <= string_capacity b).

Lemma weight_nonneg binding paths path_capacity :
  0 <= path_capacity ->
  0 <= list_snapshot_weight size_of_record size_of_item string_capacity binding paths path_capacity.
Proof.
  intros Hc. unfold list_snapshot_weight.
  match goal with |- 0 <= foldl _ ?w _ => assert (Hw : 0 <= w); [|revert Hw; generalize w] end.
  - pose proof (Hstrings (lb_sort binding)). pose proof (Hstrings (lb_order binding)).
    pose proof (Hstrings (lb_query binding)). unfold sat_add, sat_mul, usize_max, u64_max, blen. lia.
  - induction paths as [|item paths IH]; intros w Hw; cbn; [done|]. apply IH.
    pose proof (Hstrings (pi_name item)). pose proof (Hstrings (pi_sort_name item)).
    unfold sat_add, usize_max, u64_max. lia.
Qed.

Lemma draw_fresh randoms s id secret : draw randoms s = Some (id, secret) -> snapshots s !! id = None.
Proof.
  induction randoms as [|[[i k]|] randoms IH]; cbn; [done| |done].
  destruct (snapshots s !! i) as [r|] eqn:E; [done|]. by intros [= <- <-].
Qed.

Lemma cache_keeps skew high binding paths path_capacity serve_root now randoms s :
  cache_inv skew high s -> high - skew <= now ->
  cache_inv skew (Z.max high now)
    (cache size_of_record size_of_item string_capacity binding paths (Z.of_nat path_capacity)
       serve_root now randoms s).2.
Proof.
  intros Hinv Hnow. unfold cache.
  pose proof (weight_nonneg binding paths (Z.of_nat path_capacity) ltac:(lia)) as Hw.
  set (weight := list_snapshot_weight _ _ _ _ _ _) in *.
  destruct (Z.ltb_spec MAX_CACHED_LIST_SNAPSHOT_BYTES_PER_OWNER weight) as [Hbig|Hbig]; cbn [snd].
  { eapply cache_inv_later, Hinv. lia. }
  destruct (purge_expired_spec now s (inv_ok _ _ _ Hinv)) as [Hev _].
  pose proof (cache_inv_evicted _ _ _ _ Hev Hinv) as H1.
  destruct (make_room_spec (lb_owner binding) weight (purge_expired now s))
    as (Hev' & R1 & R2 & R3 & R4); [apply H1..|lia|].
  pose proof (cache_inv_evicted _ _ _ _ Hev' H1) as H2.
  destruct (draw _ _) as [[id secret]|] eqn:Hd; cbn [snd].
  - by eapply (insert_ok skew high now _ id (snapshot_record secret binding paths now weight));
      [|eapply draw_fresh|..].
  - eapply cache_inv_later, H2. lia.
Qed.

Lemma cache_step_keeps skew high now c s :
  cache_inv skew high s -> high - skew <= now -> cache_inv skew (Z.max high now) (cache_step now c s).
Proof.
  intros Hinv Hnow. destruct c as [binding paths cap root randoms|cursor request]; cbn.
  - by apply cache_keeps.
  - eapply cache_inv_later, cache_inv_evicted, Hinv; [lia|].
    apply purge_expired_spec, (inv_ok _ _ _ Hinv).
Qed.

Lemma cache_run_keeps skew high cs s :
  cache_inv skew high s -> in_order skew high cs -> cache_inv skew (latest high cs) (cache_run cs s).
Proof.
  revert high s. induction cs as [|[now c] cs IH]; intros high s Hinv; cbn; [done|].
  intros [Hnow Hcs]. apply IH; [by apply cache_step_keeps|done].
Qed.

(** Over any sequence of insertions and lookups on the listing cache, run
    with instants that are out of order by at most [skew], the id queue lists
    exactly the cached snapshots, the running weight is their sum, and neither
    the whole cache nor any owner ever exceeds its quota of snapshots or bytes. *)
Theorem snapshot_cache_stays_bounded skew high cs owner :
  in_order skew high cs ->
  let s := cache_run cs empty_store in
  NoDup (insertion_order s) /\ (forall id, id ∈ insertion_order s <-> is_Some (snapshots s !! id)) /\
  total_weight s = msum lr_weight (snapshots s) /\
  total_weight s <= MAX_CACHED_LIST_SNAPSHOT_BYTES /\
  Z.of_nat (size (snapshots s)) <= MAX_CACHED_LIST_SNAPSHOTS /\
  owner_count owner (snapshots s) <= MAX_CACHED_LIST_SNAPSHOTS_PER_OWNER /\
  owner_weight owner (snapshots s) <= MAX_CACHED_LIST_SNAPSHOT_BYTES_PER_OWNER.
Proof.
  intros Hcs s. destruct (cache_run_keeps skew high cs empty_store (cache_inv_empty _ _) Hcs)
    as [[O1 O2 O3 O4 O5] [Q1 Q2 Q3] _ _].
  by split_and!.
Qed.

Lemma path_eqb_same_request b r : matches_request b r = true ->
  lb_owner b = lb_owner r /\ lb_sort b = lb_sort r /\ lb_order b = lb_order r /\
  lb_query b = lb_query r /\ lb_limit b = lb_limit r /\ path_eqb (lb_path b) (lb_path r) = true.
Proof.
  unfold matches_request. rewrite !andb_true_iff, !beqb_true, Nat.eqb_eq. naive_solver.
Qed.

(** A decoded cursor is the text it came from. *)
Lemma decode_reencode value c : decode_list_cursor value = Ok c ->
  value = base64_encode (cursor_bytes (lc_id c) (lc_offset c) (lc_tag c)) /\
  u64_range (lc_offset c).
Proof.
  unfold decode_list_cursor. destruct (_ =? _) eqn:Hlen; cbn; [|done].
  destruct (base64_decode value) as [b|]; cbn; [|done].
  destruct (blen b =? 57) eqn:H57; cbn; [|done].
  destruct (bool_decide _) eqn:Hhd; cbn; [|done].
  destruct (beqb (base64_encode b) value) eqn:Hcan; cbn; [|done].
  intros [= <-]. bool_prop. apply beqb_true in Hcan. destruct b as [|v b]; [done|].
  injection Hhd as ->. unfold blen in H57. cbn [length] in H57. cbn [lc_id lc_offset lc_tag].
  unfold slice, cursor_bytes. cbn [drop Nat.sub].
  assert (H8 : blen (take 8 (drop 32 b)) = 8) by (unfold blen; rewrite length_take, length_drop; lia).
  rewrite be8_value by done. split; [|by apply be8_range]. rewrite <-Hcan. do 2 f_equal.
  rewrite (take_ge (drop 40 b)) by (rewrite length_drop; lia).
  replace (drop 40 b) with (drop 8 (drop 32 b)) by (by rewrite drop_drop).
  rewrite (take_drop 8 (drop 32 b)). by rewrite take_drop.
Qed.

(** C36: a lookup that is answered by the cache is authentic, in scope and
    fresh: the cursor text is exactly the one the server signs for that snapshot
    and offset, the snapshot belongs to the same owner, path, sort, order,
    filter and page size, the directory has not changed since, the snapshot's
    lifetime has not run out (up to the clock skew), and the page is the slice
    of the snapshot that begins at the signed offset. *)
Theorem served_page_is_authentic skew high cs value c request now page :
  0 <= skew -> in_order skew high cs -> latest high cs - skew <= now ->
  decode_list_cursor value = Ok c ->
  (store_page c request now (cache_run cs empty_store)).1 = Ok page ->
  exists r,
    snapshots (cache_run cs empty_store) !! lc_id c = Some r /\
    value = encode_list_cursor (lc_id c) (lr_secret r) (lc_offset c) /\
    matches_request (lr_binding r) request = true /\
    lb_directory (lr_binding r) = lb_directory request /\
    now < lr_expires_at r + skew /\
    0 < lc_offset c < Z.of_nat (length (lr_paths r)) /\
    page_paths page = take (lb_limit request) (drop (Z.to_nat (lc_offset c)) (lr_paths r)).
Proof.
  intros Hskew Hcs Hnow Hdec. pose proof (cache_run_keeps skew high cs empty_store (cache_inv_empty _ _) Hcs) as Hinv.
  set (s := cache_run cs empty_store) in *. unfold store_page. cbn [fst].
  destruct (snapshots (purge_expired now s) !! lc_id c) as [r|] eqn:Hr; [|done].
  destruct (beqb _ (lc_tag c)) eqn:Htag; cbn [negb]; [|done]. apply beqb_true in Htag.
  destruct (matches_request _ _) eqn:Hm; cbn [negb]; [|done].
  destruct (bool_decide _) eqn:Hdir; cbn [negb]; [|done]. apply bool_decide_eq_true in Hdir.
  destruct (decode_reencode value c Hdec) as [Hval Hoff].
  destruct (_ || _) eqn:Hrange; [done|]. apply orb_false_iff in Hrange as [Hr0 Hr1].
  apply Nat.eqb_neq in Hr0. apply Nat.leb_gt in Hr1. intros [= <-]. exists r.
  destruct (purge_expired_spec now s (inv_ok _ _ _ Hinv)) as ((_ & _ & Hsub & _) & _).
  split_and!; [by eapply lookup_weaken|by rewrite Hval, <-Htag|done|done|
               by eapply purged_is_fresh|lia|lia|].
  unfold page_paths, slice. cbn [lp_range lp_paths fst snd].
  destruct (path_eqb_same_request _ _ Hm) as (_ & _ & _ & _ & <- & _).
  destruct (Nat.min_spec (Z.to_nat (lc_offset c) + lb_limit (lr_binding r)) (length (lr_paths r)))
    as [[_ ->]|[Hle ->]]; [f_equal; lia|].
  rewrite !take_ge; rewrite ?length_drop; [done|lia..].
Qed.

(** A client that follows the cursors, reading one page at each instant of [ts];
    [None] is a cursor left over or refused. *)
Fixpoint follow_cursors (ts : list Z) (next : option bytes) (request : ListSnapshotRequest)
    (s : ListSnapshotStore) : option (list PathItem) :=
  match next, ts with
  | None, _ => Some []
  | Some _, [] => None
  | Some value, now :: ts =>
      match decode_list_cursor value with
      | Err _ => None
      | Ok c =>
          match store_page c request now s with
          | (Ok page, s) => (page_paths page ++.) <$> follow_cursors ts (lp_next_cursor page) request s
          | (Err _, _) => None
          end
      end
  end.

Context {HL : CryptoLaws}.

Lemma tag_length secret id offset : blen (list_cursor_tag secret id offset) = 16.
Proof.
  unfold list_cursor_tag, hmac_sha256, blen. rewrite length_take.
  match goal with |- context [sha256 ?b] => pose proof (sha256_length b) as Hl end.
  unfold blen in Hl. lia.
Qed.

Lemma decode_encode id secret offset : blen id = 32 -> u64_range offset ->
  decode_list_cursor (encode_list_cursor id secret offset) =
  Ok (mkListCursor id offset (list_cursor_tag secret id offset)).
Proof.
  intros Hid Hoff. pose proof (tag_length secret id offset) as Htag.
  pose proof (u64_to_be_bytes_length offset) as H8.
  unfold decode_list_cursor, encode_list_cursor. set (tag := list_cursor_tag secret id offset) in *.
  set (b := cursor_bytes id offset tag).
  assert (H57 : blen b = 57).
  { unfold b, cursor_bytes, blen in *. cbn [length]. rewrite !length_app. lia. }
  assert (S1 : slice 1 33 b = id).
  { unfold slice, b, cursor_bytes, blen in *. cbn [skipn Nat.sub].
    rewrite drop_0, take_app_le by lia. apply take_ge. lia. }
  assert (S2 : slice 33 41 b = u64_to_be_bytes offset).
  { unfold slice, b, cursor_bytes, blen in *. cbn [skipn Nat.sub].
    rewrite drop_app_ge by lia. replace (32 - length id)%nat with 0%nat by lia. rewrite drop_0.
    rewrite take_app_le by lia. apply take_ge. lia. }
  assert (S3 : slice 41 57 b = tag).
  { unfold slice, b, cursor_bytes, blen in *. cbn [skipn Nat.sub].
    rewrite drop_app_ge by lia. rewrite drop_app_ge by lia.
    replace (40 - length id - length (u64_to_be_bytes offset))%nat with 0%nat by lia.
    rewrite drop_0. apply take_ge. lia. }
  rewrite base64_length_57, base64_roundtrip by done. cbn [Z.eqb negb Pos.eqb ok_or].
  change (Ok b ≫= ?f) with (f b). cbv beta. rewrite H57, beqb_refl, S1, S2, S3.
  by rewrite u64_be_roundtrip.
Qed.

Lemma draw_in randoms s o : draw randoms s = Some o -> Some o ∈ randoms.
Proof.
  induction randoms as [|[[i k]|] randoms IH]; cbn; [done| |set_solver].
  destruct (snapshots s !! i); [set_solver|]. intros [= <-]. set_solver.
Qed.

(** The page of an unexpired snapshot. *)
Lemma store_page_serves s id r now offset :
  store_ok s -> snapshots s !! id = Some r -> now < lr_expires_at r ->
  (0 < offset < length (lr_paths r))%nat ->
  let c := mkListCursor id (Z.of_nat offset) (list_cursor_tag (lr_secret r) id (Z.of_nat offset)) in
  let end_ := Nat.min (offset + lb_limit (lr_binding r)) (length (lr_paths r)) in
  store_page c (lr_binding r) now s =
    (Ok (mkListPage (lr_paths r) (offset, end_)
           (if (end_ <? length (lr_paths r))%nat
            then Some (encode_list_cursor id (lr_secret r) (Z.of_nat end_)) else None)),
     purge_expired now s) /\
  store_ok (purge_expired now s) /\ snapshots (purge_expired now s) !! id = Some r.
Proof.
  intros Hs Hr Hnow Hoff c end_. destruct (purge_expired_spec now s Hs) as ((Hok & _) & _ & Hkeep).
  pose proof (Hkeep id r Hr Hnow) as Hr'. split; [|done]. unfold store_page. cbn [lc_id lc_offset lc_tag c].
  rewrite Hr', beqb_refl. cbn [negb].
  assert (Hm : matches_request (lr_binding r) (lr_binding r) = true)
    by (unfold matches_request; rewrite !beqb_refl, Nat.eqb_refl, path_eqb_refl; done).
  rewrite Hm. cbn [negb]. rewrite bool_decide_true by done. cbn [negb]. rewrite Nat2Z.id.
  destruct (Nat.eqb_spec offset 0); [lia|]. destruct (Nat.leb_spec (length (lr_paths r)) offset); [lia|].
  done.
Qed.

Lemma follow_reads_rest ts s id r offset :
  store_ok s -> snapshots s !! id = Some r -> blen id = 32 ->
  (0 < lb_limit (lr_binding r))%nat -> Z.of_nat (length (lr_paths r)) <= u64_max ->
  Forall (λ now, now < lr_expires_at r) ts ->
  (0 < offset < length (lr_paths r))%nat ->
  (length (lr_paths r) <= offset + lb_limit (lr_binding r) * length ts)%nat ->
  follow_cursors ts (Some (encode_list_cursor id (lr_secret r) (Z.of_nat offset))) (lr_binding r) s =
  Some (drop offset (lr_paths r)).
Proof.
  intros Hs Hr Hid Hlim Hmax Hts. revert s offset Hs Hr.
  induction Hts as [|now ts Hnow Hts IH]; intros s offset Hs Hr Hoff Hlen; [cbn in Hlen; lia|].
  cbn [follow_cursors]. rewrite decode_encode by (done || (unfold u64_range; lia)).
  destruct (store_page_serves s id r now offset Hs Hr Hnow Hoff) as (-> & Hs' & Hr').
  cbn [lp_next_cursor]. unfold page_paths. cbn [lp_paths lp_range fst snd].
  destruct (Nat.ltb_spec (Nat.min (offset + lb_limit (lr_binding r)) (length (lr_paths r)))
    (length (lr_paths r))) as [Hlt|Hge].
  - rewrite IH; [|done..|lia|cbn in Hlen; lia]. cbn. unfold slice. f_equal.
    rewrite <-(take_drop (lb_limit (lr_binding r)) (drop offset (lr_paths r))) at 2.
    rewrite drop_drop. f_equal; f_equal; lia.
  - assert (Hnone : forall l, (page_paths (mkListPage (lr_paths r) (offset, length (lr_paths r)) None) ++.) <$>
      follow_cursors l None (lr_binding r) (purge_expired now s) = Some (drop offset (lr_paths r))).
    { intros l. destruct l; cbn; unfold page_paths, slice; cbn; rewrite app_nil_r, take_ge; try done;
        rewrite length_drop; lia. }
    replace (Nat.min _ _) with (length (lr_paths r)) by lia. apply Hnone.
Qed.

(** Paging is lossless: when a listing is cached, the first page followed by
    the pages the client reads through the returned cursors, each before the
    snapshot expires, is the cached listing, entry for entry; the client needs
    no more than one read per page. *)
Theorem paging_reads_whole_listing s binding paths path_capacity serve_root now randoms page s' ts :
  cache_inv 0 now s ->
  Forall (λ o : option (bytes * bytes), match o with Some (id, _) => blen id = 32 | None => True end) randoms ->
  (0 < lb_limit binding < length paths)%nat -> Z.of_nat (length paths) <= u64_max ->
  cache size_of_record size_of_item string_capacity binding paths (Z.of_nat path_capacity) serve_root
    now randoms s = (Ok page, s') ->
  Forall (λ t, t < now + LIST_SNAPSHOT_TTL) ts ->
  (length paths <= lb_limit binding * S (length ts))%nat ->
  exists rest, follow_cursors ts (lp_next_cursor page) binding s' = Some rest /\
    page_paths page ++ rest = paths.
Proof.
  intros Hinv Hrand Hlim Hmax Hcache Hts Hlen.
  pose proof (cache_keeps 0 now binding paths path_capacity serve_root now randoms s Hinv ltac:(lia)) as Hinv'.
  rewrite Hcache in Hinv'. cbn [snd] in Hinv'. revert Hcache. unfold cache.
  set (weight := list_snapshot_weight _ _ _ _ _ _). destruct (_ <? weight); [done|].
  destruct (draw _ _) as [[id secret]|] eqn:Hd; [|done]. intros [= <- <-].
  exists (drop (lb_limit binding) paths). cbn [lp_next_cursor].
  split; [|unfold page_paths, slice; cbn; rewrite drop_0, Nat.sub_0_r; apply take_drop].
  set (r := snapshot_record secret binding paths now weight).
  apply (follow_reads_rest ts _ id r (lb_limit binding)); cbn; try done; try lia.
  - apply Hinv'.
  - by rewrite lookup_insert_eq.
  - apply draw_in in Hd. apply (Forall_take _ 8%nat) in Hrand. rewrite Forall_forall in Hrand.
    by apply (Hrand (Some (id, secret))).
Qed.
End lifetime.

(** ** Concrete instances *)

(** A stand-in for the two codecs: a 32-byte checksum and one character per
    three quarters of a byte. *)
Definition toy_digest (b : bytes) : bytes :=
  u64_to_be_bytes (blen b) ++ u64_to_be_bytes (foldl (λ a c, (a * 31 + byte_val c) `mod` 65521) 7 b) ++
  replicate 16 nul_byte.
Definition toy_encode (b : bytes) : bytes := replicate (length b / 3) nul_byte ++ b.

Definition toy_decode (b : bytes) : option bytes := Some (drop (length b / 4) b).

#[local] Instance toy_crypto : Crypto :=
  {| sha256 := toy_digest; base64_encode := toy_encode; base64_decode := toy_decode |}.

#[local] Instance toy_crypto_laws : CryptoLaws.
Proof.
  constructor; cbn [sha256 base64_encode base64_decode toy_crypto].
  - intros b. unfold toy_digest, blen. rewrite !length_app, length_replicate.
    pose proof (u64_to_be_bytes_length (Z.of_nat (length b))) as H1.
    pose proof (u64_to_be_bytes_length (foldl (λ a c, (a * 31 + byte_val c) `mod` 65521) 7 b)) as H2.
    unfold blen in *. lia.
  - intros b. unfold toy_decode, toy_encode. rewrite length_app, length_replicate. f_equal.
    replace ((length b / 3 + length b) / 4)%nat with (length b / 3)%nat.
    + rewrite drop_app_ge by (rewrite length_replicate; lia).
      rewrite length_replicate, Nat.sub_diag. apply drop_0.
    + pose proof (Nat.div_mod (length b) 3 ltac:(lia)) as Hd.
      pose proof (Nat.mod_upper_bound (length b) 3 ltac:(lia)).
      apply (Nat.div_unique _ 4 _ (length b `mod` 3)); lia.
  - intros b Hb. unfold toy_encode, blen in *. rewrite length_app, length_replicate.
    by replace (length b) with 57%nat by lia.
Qed.

Definition demo_item (n : Z) : PathItem :=
  mkPathItem File [byte_chr n] [byte_chr n] n n [].
Definition demo_binding : ListSnapshotBinding :=
  mkBinding (bs "owner") (bs "/srv/a") (mkSnapshot 1 2 (3, 4) (5, 6)) (bs "name") (bs "asc") [] 2.
Definition demo_id : bytes := replicate 32 (byte_chr 9).
Definition demo_paths : list PathItem := demo_item <$> [65; 66; 67; 68; 69].
Definition demo_insert : CacheCommand :=
  CacheInsert demo_binding demo_paths 8 (bs "/srv") [None; Some (demo_id, replicate 32 (byte_chr 5))].
Definition demo_next : bytes := encode_list_cursor demo_id (replicate 32 (byte_chr 5)) 2.
Definition demo_cursor : DecodedListCursor :=
  mkListCursor demo_id 2 (list_cursor_tag (replicate 32 (byte_chr 5)) demo_id 2).

Lemma snapshot_cache_stays_bounded_witness :
  size (snapshots (cache_run 100 80 blen [(10, demo_insert); (8, demo_insert)] empty_store)) = 1%nat /\
  total_weight (cache_run 100 80 blen [(10, demo_insert); (8, demo_insert)] empty_store) <=
    MAX_CACHED_LIST_SNAPSHOT_BYTES.
Proof.
  split; [reflexivity|].
  refine (proj1 (proj2 (proj2 (proj2 (snapshot_cache_stays_bounded 100 80 blen _ _ _ 2 10
    [(10, demo_insert); (8, demo_insert)] (bs "owner") _))))); try lia.
  - intros b. unfold blen. lia.
  - cbn. lia.
Defined.

Lemma served_page_is_authentic_witness :
  exists page r,
    (store_page demo_cursor demo_binding 20 (cache_run 100 80 blen [(10, demo_insert)] empty_store)).1 = Ok page /\
    page_paths page = take 2 (drop 2 (lr_paths r)) /\ 20 < lr_expires_at r.
Proof.
  destruct (store_page demo_cursor demo_binding 20 (cache_run 100 80 blen [(10, demo_insert)] empty_store)).1
    as [page|e] eqn:E; [|vm_compute in E; discriminate].
  destruct (served_page_is_authentic 100 80 blen ltac:(lia) ltac:(lia) ltac:(intros b; unfold blen; lia)
    0 10 [(10, demo_insert)] demo_next demo_cursor demo_binding 20 page) as (r & _ & _ & _ & _ & Hf & _ & Hp);
    [lia|cbn; lia|cbn; lia|vm_compute; reflexivity|exact E|].
  exists page, r. split; [reflexivity|]. split; [exact Hp|lia].
Defined.

Lemma paging_reads_whole_listing_witness :
  exists page s' rest,
    cache 100 80 blen demo_binding demo_paths 8 (bs "/srv") 10
      [None; Some (demo_id, replicate 32 (byte_chr 5))] empty_store = (Ok page, s') /\
    follow_cursors [11; 12] (lp_next_cursor page) demo_binding s' = Some rest /\
    page_paths page ++ rest = demo_paths.
Proof.
  destruct (cache 100 80 blen demo_binding demo_paths 8 (bs "/srv") 10
    [None; Some (demo_id, replicate 32 (byte_chr 5))] empty_store) as [[page|e] s'] eqn:E;
    [|vm_compute in E; discriminate].
  exists page, s'.
  destruct (paging_reads_whole_listing 100 80 blen ltac:(lia) ltac:(lia) ltac:(intros b; unfold blen; lia)
    empty_store demo_binding demo_paths 8 (bs "/srv") 10
    [None; Some (demo_id, replicate 32 (byte_chr 5))] page s' [11; 12]) as (rest & H1 & H2);
    [apply cache_inv_empty|by repeat constructor|cbn; lia|cbn; unfold u64_max; lia|exact E| |cbn; lia|].
  - repeat constructor.
  - exists rest. split; [reflexivity|]. exact (conj H1 H2).
Defined.
