(* ===== verification/ListApi.v ===== *)
(** The listing API ([src/src/server/listing.rs]): the scan of one directory,
    the recursive search, the bounded interruptible sort of their results, and
    the request handler that pages through them.

    One record ([Machine]) holds what the runtime supplies: sizes and capacities,
    allocators, whether a search slot is free, random bytes, the clock, and how
    the polls of the sort are answered. *)

From S2P Require Import Prelude Bytes StdPath Utils UuidText Http UploadProtocol InternalNames PathPolicy Problem Registry Revisions ListingSort Listing PathKeys RootedOs RootedFs DirectoryWalk ListSnapshots.
From stdpp Require Import base numbers list strings sets gmap.
Import ErrorCode.

Local Open Scope Z_scope.

Definition DEFAULT_LIST_PAGE_SIZE : Z := 200.
Definition MAX_LIST_PAGE_SIZE : Z := 500.
Definition MAX_LIST_SNAPSHOT_ENTRIES : Z := 100000.
Definition MAX_DIRECTORY_WALK_DEPTH : Z := 1024.
Definition MAX_DIRECTORY_WALK_WORKING_BYTES : Z := 32 * 1024 * 1024.
Definition LIST_CURSOR_UNAVAILABLE_MESSAGE : bytes :=
  bs "List cursor expired or is unavailable; restart listing".

(** What the runtime supplies. *)
Record Machine := mkMachine {
  mc_size_of_item : Z;
  mc_size_of_vec : Z;
  mc_size_of_record : Z;
  mc_size_of_usize : Z;
  mc_string_capacity : bytes -> Z;
  mc_alloc_items : Allocator;
  mc_walk : WalkSizes;
  (** whether the two scratch arrays of the sort can be allocated *)
  mc_sort_room : bool * bool;
  (** the answer of the [n]-th poll of the sort *)
  mc_sort_active : nat -> bool;
  (** [shrink_to_fit] *)
  mc_shrink : Z -> Z -> Z
}.

Inductive ListScanStop := ScanCancelled | ScanEntryBudget | ScanTimeout.

(** A scan fails with a listing error or by a panic of its worker. *)
Inductive ScanFailure := ScanFailed (error : ListingError) | ScanPanicked.

(** The cells the two closures of the scan share. *)
Record ScanCells := mkScan {
  sc_paths : BoundedVec PathItem;
  sc_visited : Z;
  sc_heap_bytes : Z;
  sc_stop : option ListScanStop;
  sc_listing_error : option ListingError;
  sc_panicked : bool
}.

Section scan.
Context {Env : Type} `{Os Env} `{UuidLib} `{TextOrder} (sha256 : bytes -> bytes) (fs : RootedFs) (mc : Machine).

Definition path_item_heap_bytes (item : PathItem) : Z :=
  sat_add (mc_string_capacity mc (pi_name item)) (mc_string_capacity mc (pi_sort_name item)).

Definition ensure_path_sort_budget (paths : list PathItem) (path_capacity max_bytes : Z)
    (operation path serve_root : bytes) : result ListingError unit :=
  let heap_bytes := foldl (λ total item, sat_add total (path_item_heap_bytes item)) 0 paths in
  let retained := collection_allocation_bytes (mc_size_of_vec mc) path_capacity (mc_size_of_item mc) heap_bytes in
  let scratch := sat_mul (sat_mul (Z.of_nat (length paths)) (mc_size_of_usize mc)) 2 in
  if max_bytes <? sat_add retained scratch
  then Err (listing_limit operation path serve_root (bs "sort_memory_budget") DirectorySortLimit)
  else Ok tt.

Definition sort_path_items_interruptibly (paths : list PathItem) (sort order operation path serve_root : bytes)
    : Sys Env (result ScanFailure (list PathItem)) :=
  match stable_sort_by_interruptible (compare_path_items sort order) (mc_sort_active mc)
          (mc_sort_room mc).1 (mc_sort_room mc).2 paths with
  | (Ok _, paths) => ok paths
  | (Err Interrupted, _) =>
      do interrupted <- sys_interrupted;
      fail (ScanFailed
        (if interrupted : bool then listing_cancelled operation path serve_root
         else listing_limit operation path serve_root (bs "time_budget") DirectoryOperationTimeout))
  | (Err Allocation, _) =>
      fail (ScanFailed (listing_limit operation path serve_root (bs "sort_allocation_failed") DirectorySortLimit))
  | (Err (Panicked | Diverged), _) => fail ScanPanicked
  end.

Definition shrink_paths_if_wasteful (v : BoundedVec PathItem) : BoundedVec PathItem :=
  let spare := sat_sub (vec_capacity v) (vec_len v) in
  if (1024 <=? spare) && (sat_add (vec_len v) (vec_len v / 4) <? vec_capacity v)
  then mkVec (vec_items v) (mc_shrink mc (vec_len v) (vec_capacity v))
  else v.

(** The budget, the sort and the shrinking that end a scan or a search. *)
Definition finish_paths (v : BoundedVec PathItem) (max_bytes : Z) (sort order operation path serve_root : bytes)
    : Sys Env (result ScanFailure (BoundedVec PathItem)) :=
  match ensure_path_sort_budget (vec_items v) (vec_capacity v) max_bytes operation path serve_root with
  | Err e => fail (ScanFailed e)
  | Ok _ =>
      attempt sorted <- sort_path_items_interruptibly (vec_items v) sort order operation path serve_root;
      ok (shrink_paths_if_wasteful (mkVec sorted (vec_capacity v)))
  end.

(** ** The scan of one directory *)

Section one_directory.
Context (path serve_path revision_owner : bytes) (max_entries max_bytes : Z).

Definition set_stop (c : ScanCells) (stop : ListScanStop) : ScanCells :=
  mkScan (sc_paths c) (sc_visited c) (sc_heap_bytes c) (Some stop) (sc_listing_error c) (sc_panicked c).
Definition set_error (c : ScanCells) (e : ListingError) : ScanCells :=
  mkScan (sc_paths c) (sc_visited c) (sc_heap_bytes c) (sc_stop c) (Some e) (sc_panicked c).

Definition scan_budget (_ : bytes) (c : ScanCells) : Sys Env (bool * ScanCells) :=
  do interrupted <- sys_interrupted;
  if interrupted : bool then ret (false, set_stop c ScanCancelled)
  else
    do late <- sys_deadline;
    if late : bool then ret (false, set_stop c ScanTimeout)
    else
      let c := mkScan (sc_paths c) (sat_add (sc_visited c) 1) (sc_heap_bytes c) (sc_stop c)
                 (sc_listing_error c) (sc_panicked c) in
      if max_entries <? sc_visited c then ret (false, set_stop c ScanEntryBudget) else ret (true, c).

Definition snapshot_limit : ListingError :=
  listing_limit (bs "list_snapshot") path serve_path (bs "snapshot_memory_budget") ListSnapshotLimit.

(** An entry once the clock has been read.  A failed [expect] ends the worker. *)
Definition scan_entry (entry : RootedDirEntry) (c : ScanCells) : bool * ScanCells :=
  let base_name := de_file_name entry in
  if negb (is_utf8 base_name)
  then (false, set_error c (unsupported_name (bs "list_snapshot_filename") (de_path entry) serve_path))
  else if is_internal_name base_name then (true, c)
  else
    match pathitem_from_rooted_entry sha256 entry path serve_path revision_owner with
    | None => (false, mkScan (sc_paths c) (sc_visited c) (sc_heap_bytes c) (sc_stop c)
                        (sc_listing_error c) true)
    | Some (Err error) => (false, set_error c error)
    | Some (Ok item) =>
        let proposed_heap_bytes := sat_add (sc_heap_bytes c) (path_item_heap_bytes item) in
        let minimum := collection_allocation_bytes (mc_size_of_vec mc) (sat_add (vec_len (sc_paths c)) 1)
                         (mc_size_of_item mc) proposed_heap_bytes in
        if max_bytes <? minimum then (false, set_error c snapshot_limit)
        else
          match try_reserve_bounded_vec_slot (mc_size_of_item mc) (mc_alloc_items mc) (sc_paths c)
                  (sat_add (mc_size_of_vec mc) proposed_heap_bytes) max_bytes with
          | Err ReserveBudget => (false, set_error c snapshot_limit)
          | Err ReserveAllocation =>
              (false, set_error c (listing_limit (bs "list_snapshot") (de_path entry) serve_path
                                     (bs "result_allocation_failed") ListSnapshotAllocationFailed))
          | Ok paths =>
              let allocated := collection_allocation_bytes (mc_size_of_vec mc) (vec_capacity paths)
                                 (mc_size_of_item mc) proposed_heap_bytes in
              if max_bytes <? allocated then (false, set_error c snapshot_limit)
              else (true, mkScan (vec_push paths item) (sc_visited c) proposed_heap_bytes (sc_stop c)
                            (sc_listing_error c) (sc_panicked c))
          end
    end.

Definition scan_visitor (entry : RootedDirEntry) (c : ScanCells) : Sys Env (result IoError bool * ScanCells) :=
  do interrupted <- sys_interrupted;
  if interrupted : bool then ret (Ok false, set_stop c ScanCancelled)
  else
    do late <- sys_deadline;
    if late : bool then ret (Ok false, set_stop c ScanTimeout)
    else let '(go_on, c) := scan_entry entry c in ret (Ok go_on, c).

Definition scan_stop_error (stop : ListScanStop) : ListingError :=
  match stop with
  | ScanCancelled => listing_cancelled (bs "list_snapshot") path serve_path
  | ScanEntryBudget =>
      listing_limit (bs "list_snapshot") path serve_path (bs "entry_budget") DirectoryListingEntryLimit
  | ScanTimeout =>
      listing_limit (bs "list_snapshot") path serve_path (bs "time_budget") DirectoryOperationTimeout
  end.

Definition collect_list_snapshot_blocking (sort order : bytes)
    : Sys Env (result ScanFailure (BoundedVec PathItem)) :=
  do (visit_result, c) <-
    visit_dir_blocking_bounded fs scan_budget scan_visitor path (mkScan vec_new 0 0 None None false);
  if sc_panicked c then fail ScanPanicked
  else
    match sc_listing_error c with
    | Some error => fail (ScanFailed error)
    | None =>
        match visit_result with
        | Err error => fail (ScanFailed (listing_io (bs "list_snapshot") path serve_path error))
        | Ok _ =>
            match sc_stop c with
            | Some stop => fail (ScanFailed (scan_stop_error stop))
            | None =>
                finish_paths (sc_paths c) max_bytes sort order (bs "list_snapshot_sort") path serve_path
            end
        end
    end.
End one_directory.

(** ** The recursive search *)

Definition search_worker_error (path serve_path reason : bytes) : ListingError :=
  mkListingError (bs "walk_worker") (safe_relative_path path serve_path)
    (bs "worker_join_error=" ++ reason) DirectoryOperationFailed.

(** [search_dir]; [join_error] is the text of a worker that panicked. *)
Definition search_dir (path search sort order revision_owner serve_path : bytes) (max_search_entries : Z)
    (join_error : bytes) : Sys Env (result ScanFailure (BoundedVec PathItem)) :=
  do collected <-
    collect_dir_items fs max_search_entries MAX_DIRECTORY_WALK_DEPTH MAX_DIRECTORY_WALK_WORKING_BYTES
      serve_path (mc_walk mc)
      (λ _ name, Ok (case_folded_contains name search))
      (λ entry, default (Err (search_worker_error path serve_path join_error))
                  (pathitem_from_rooted_entry sha256 entry path serve_path revision_owner))
      path_item_heap_bytes
      (Some (mkByteBudget MAX_CACHED_LIST_SNAPSHOT_BYTES_PER_OWNER (bs "search_result")
               (bs "result_memory_budget") SearchResultLimit SearchResultLimit))
      (mc_size_of_item mc) (mc_size_of_vec mc) (mc_alloc_items mc) path;
  match collected with
  | Err (WalkFailed error) => fail (ScanFailed error)
  | Err WalkDiverged => fail ScanPanicked
  | Ok paths =>
      finish_paths paths MAX_CACHED_LIST_SNAPSHOT_BYTES_PER_OWNER
        sort order (bs "search_sort") path serve_path
  end.
End scan.

(** ** The request handler *)

Definition path_type_name (t : PathType) : bytes :=
  match t with
  | Dir => bs "Dir" | SymlinkDir => bs "SymlinkDir" | File => bs "File" | SymlinkFile => bs "SymlinkFile"
  end.

(** [PathItem] and [ListResponse] as they are serialized. *)
Definition item_json (i : PathItem) : Json :=
  JObject [("path_type"%string, JString (path_type_name (pi_path_type i)));
           ("name"%string, JString (pi_name i));
           ("mtime"%string, JNumber (pi_mtime i));
           ("size"%string, JNumber (pi_size i));
           ("revision"%string, JString (pi_revision i))].

Definition list_json (page : ListSnapshotPage) : Json :=
  JObject [("paths"%string, JArray (item_json <$> page_paths page));
           ("next_cursor"%string, match lp_next_cursor page with Some c => JString c | None => JNull end)].

(** A handler's [Err]: an I/O error, or another failure. *)
Inductive ApiFailure := ApiIo (error : IoError) | ApiFail (failure : Failure).

Definition api_fail {A} (r : result Failure A) : result ApiFailure A :=
  match r with Ok a => Ok a | Err f => Err (ApiFail f) end.

(** The parameters of a request after the syntactic checks. *)
Record ListQuery := mkListQuery {
  lq_path : bytes;
  lq_sort : bytes;
  lq_order : bytes;
  lq_query : bytes;
  lq_limit : Z;
  lq_cursor : option DecodedListCursor
}.

Definition CONTENT_LENGTH : bytes := bs "content-length".

Section api.
Context {Env : Type} `{Os Env} `{UuidLib} `{TextOrder} `{HttpTypes} `{Crypto}.
Context (fs : RootedFs) (mc : Machine) (policy : PathPolicy) (serve_path : bytes) (max_search_entries : Z).
(** [serde_json::to_vec]. *)
Context (json_text : Json -> bytes).

Definition write_list_response (res : Response) (page : ListSnapshotPage) : Response :=
  let output := list_json page in
  let res := with_header res CONTENT_TYPE (bs "application/json") in
  let res := with_header res CONTENT_LENGTH (u64_to_string (blen (json_text output))) in
  with_body res (JsonBody output).

(** [.filter(|value| matches!(value, ...)).unwrap_or(fallback)]. *)
Definition chosen (value : option bytes) (allowed : list bytes) (fallback : bytes) : bytes :=
  match value with
  | Some v => if existsb (beqb v) allowed then v else fallback
  | None => fallback
  end.

(** The checks before any resource is used; a refusal is a status, a code and a
    message. *)
Definition parse_list_query (params : gmap bytes bytes) : result (ErrorCode * bytes) ListQuery :=
  path ← ok_or (parse_list_target policy (default (bs "/") (params !! bs "path")))
    (INVALID_LIST_PATH, bs "Invalid list path");
  let sort := chosen (params !! bs "sort") [bs "name"; bs "mtime"; bs "size"] (bs "name") in
  let order := chosen (params !! bs "order") [bs "asc"; bs "desc"] (bs "asc") in
  let query := default [] (params !! bs "q") in
  if 128 <? chars_count query then Err (SEARCH_QUERY_TOO_LONG, bs "Search query is too long")
  else
    limit ← match params !! bs "limit" with
            | None => Ok DEFAULT_LIST_PAGE_SIZE
            | Some value =>
                match u64_parse value with
                | Some value =>
                    if in_range 1 MAX_LIST_PAGE_SIZE value then Ok value
                    else Err (INVALID_LIST_LIMIT, bs "Invalid list limit")
                | None => Err (INVALID_LIST_LIMIT, bs "Invalid list limit")
                end
            end;
    cursor ← match params !! bs "cursor" with
             | None => Ok None
             | Some value =>
                 match decode_list_cursor value with
                 | Ok cursor => Ok (Some cursor)
                 | Err _ => Err (INVALID_LIST_CURSOR, bs "Invalid list cursor")
                 end
             end;
    Ok (mkListQuery path sort order query limit cursor).

Definition lookup_problem (e : ListSnapshotLookupError) : Z * ErrorCode * bytes * RecoveryAdvice :=
  match e with
  | InvalidBinding => (400, INVALID_LIST_CURSOR, bs "Invalid list cursor", NoAdvice)
  | LookupDirectoryChanged =>
      (409, DIRECTORY_CHANGED, bs "Directory changed; restart listing", RefreshTarget)
  | CursorUnavailable =>
      (409, LIST_CURSOR_UNAVAILABLE, LIST_CURSOR_UNAVAILABLE_MESSAGE, RefreshTarget)
  end.

Definition binding_of (owner : bytes) (q : ListQuery) (directory : DirectorySnapshot) : ListSnapshotBinding :=
  mkBinding owner (lq_path q) directory (lq_sort q) (lq_order q) (lq_query q) (Z.to_nat (lq_limit q)).

(** What the handler answers with. *)
Inductive ListAnswer :=
| AnswerPage (page : ListSnapshotPage)
| AnswerProblem (status : Z) (code : ErrorCode) (detail : bytes) (recovery : RecoveryAdvice)
| AnswerListing (error : ListingError)
| AnswerError (error : IoError)
| AnswerPanic.

Definition answer_response (res : Response) (a : ListAnswer) : result ApiFailure Response :=
  match a with
  | AnswerPage page => Ok (write_list_response res page)
  | AnswerProblem status code detail recovery =>
      api_fail (respond_list_api_problem res status code detail recovery)
  | AnswerListing error => api_fail (respond_list_api_listing_error res error)
  | AnswerError error => Err (ApiIo error)
  | AnswerPanic => Err (ApiFail Panic)
  end.

(** The first page: list or search, check that the directory stood still, and
    cache what does not fit on the page. *)
Definition first_page (owner revision_owner : bytes) (q : ListQuery) (before : DirectorySnapshot)
    (now : Z) (randoms : list (option (bytes * bytes))) (join_error : bytes) (store : ListSnapshotStore)
    : Sys Env (ListAnswer * ListSnapshotStore) :=
  do scanned <-
    (if beqb (lq_query q) [] then
       collect_list_snapshot_blocking sha256 fs mc (lq_path q) serve_path revision_owner
         MAX_LIST_SNAPSHOT_ENTRIES MAX_CACHED_LIST_SNAPSHOT_BYTES_PER_OWNER (lq_sort q) (lq_order q)
     else
       search_dir sha256 fs mc (lq_path q) (to_lowercase (lq_query q)) (lq_sort q) (lq_order q)
         revision_owner serve_path max_search_entries join_error);
  match scanned with
  | Err (ScanFailed error) => ret (AnswerListing error, store)
  | Err ScanPanicked => ret (AnswerError (io_other join_error), store)
  | Ok paths =>
      do after_metadata <- metadata_blocking fs (lq_path q);
      match directory_snapshot_after_walk after_metadata (lq_path q) serve_path with
      | Err error => ret (AnswerListing error, store)
      | Ok after =>
          if negb (bool_decide (after = before)) then
            ret (AnswerProblem 409 DIRECTORY_CHANGED (bs "Directory changed; restart listing") RefreshTarget, store)
          else if lq_limit q <? vec_len paths then
            match cache (mc_size_of_record mc) (mc_size_of_item mc) (mc_string_capacity mc)
                    (binding_of owner q before) (vec_items paths) (vec_capacity paths) serve_path now
                    randoms store with
            | (Ok page, store) => ret (AnswerPage page, store)
            | (Err error, store) => ret (AnswerListing error, store)
            end
          else ret (AnswerPage (page_from_vec (vec_items paths) None), store)
      end
  end.

(** The whole request, up to its response. *)
Definition list_request (account : bytes) (params : gmap bytes bytes) (slot_free : bool) (now : Z)
    (randoms : list (option (bytes * bytes))) (join_error : bytes) (store : ListSnapshotStore)
    : Sys Env (ListAnswer * ListSnapshotStore) :=
  let owner := owner_listing_snapshot sha256 account in
  let revision_owner := owner_persistent sha256 account in
  match parse_list_query params with
  | Err (code, detail) => ret (AnswerProblem 400 code detail NoAdvice, store)
  | Ok q =>
      if (match lq_cursor q with None => true | Some _ => false end) && negb slot_free then
        ret (AnswerProblem 429 DIRECTORY_OPERATION_LIMIT
               (bs "Too many directory operations are running") (RetryAfterSeconds 1), store)
      else
        do before_metadata <- metadata_blocking fs (lq_path q);
        match before_metadata with
        | Err error =>
            if missing_kind error
            then ret (AnswerProblem 404 LIST_PATH_NOT_FOUND (bs "List path was not found") RefreshTarget, store)
            else ret (AnswerError error, store)
        | Ok metadata =>
            if negb (md_is_dir metadata) then
              ret (AnswerProblem 409 LIST_PATH_NOT_DIRECTORY (bs "List path is not a directory")
                     RefreshTarget, store)
            else
              let before := snapshot_from_metadata metadata in
              match lq_cursor q with
              | Some cursor =>
                  match store_page cursor (binding_of owner q before) now store with
                  | (Ok page, store) => ret (AnswerPage page, store)
                  | (Err e, store) =>
                      let '(status, code, detail, recovery) := lookup_problem e in
                      ret (AnswerProblem status code detail recovery, store)
                  end
              | None => first_page owner revision_owner q before now randoms join_error store
              end
        end
  end.

Definition handle_list_api (account : bytes) (params : gmap bytes bytes) (slot_free : bool) (now : Z)
    (randoms : list (option (bytes * bytes))) (join_error : bytes) (store : ListSnapshotStore) (res : Response)
    : Sys Env (result ApiFailure Response * ListSnapshotStore) :=
  do (answer, store) <- list_request account params slot_free now randoms join_error store;
  ret (answer_response res answer, store).
End api.
