(* ===== verification/ListApiFacts.v ===== *)
(** What a listing response contains: an exact, sorted, complete page of what
    the scan or the search found, and nothing when a check fails. *)

From S2P Require Import Prelude Bytes StdPath Utils UuidText Http UploadProtocol InternalNames PathPolicy Problem Registry Revisions ListingSort Listing PathKeys RootedOs RootedFs RootedFsSafety DirectoryWalk DirectoryWalkFacts ListSnapshots ListApi.
From stdpp Require Import base numbers list strings sets gmap.
Import ErrorCode.

Local Open Scope Z_scope.

Section scan_facts.
Context {Env : Type} `{Os Env} `{UuidLib} `{TextOrderLaws} (sha256 : bytes -> bytes) (fs : RootedFs) (mc : Machine).

(** [found] in the requested order, equal items in the order they were found. *)
Definition in_order_of (sort order : bytes) (found : list PathItem) : list PathItem :=
  stable_sort (compare_path_items sort order) found.

Lemma finish_paths_spec v max_bytes sort order operation path serve_root :
  spec (finish_paths mc v max_bytes sort order operation path serve_root) (λ r _,
    match r with
    | Ok paths => vec_items paths = in_order_of sort order (vec_items v)
    | Err ScanPanicked => False
    | Err (ScanFailed _) => True
    end).
Proof.
  unfold finish_paths, sort_path_items_interruptibly, sys_interrupted.
  destruct (ensure_path_sort_budget _ _ _ _ _ _ _) as [[]|e]; [|by apply spec_ret].
  pose proof (sort_result (compare_path_items sort order) (mc_sort_active mc) (mc_sort_room mc).1
    (mc_sort_room mc).2 (vec_items v)) as Hsort.
  destruct (stable_sort_by_interruptible _ _ _ _ _) as [[[]|e] sorted].
  - apply spec_attempt_ret; [|done]. intros l [= <-]. apply spec_ret.
    unfold shrink_paths_if_wasteful. cbv zeta. by destruct (_ && _); subst.
  - destruct Hsort as [_ [[-> _]|[-> _]]].
    + eapply (spec_bind_ok _ _ (λ r _, exists e, r = Err (ScanFailed e))); [| |by intros ? ? [? [= ->]]].
      * apply spec_bind_call. intros a. apply spec_ret. by eexists.
      * by intros ? ? [? [=]].
    + apply spec_attempt_ret; [done|]. by intros ? [= <-].
Qed.

(** The item that stands for an entry in a listing of [path]. *)
Definition stands_for (path serve_path revision_owner : bytes) (e : RootedDirEntry) (item : PathItem) : Prop :=
  pathitem_from_rooted_entry sha256 e path serve_path revision_owner = Some (Ok item).

(** An entry that a scan lists. *)
Definition shown (e : RootedDirEntry) : bool := negb (is_internal_name (de_file_name e)).

Lemma finish_paths_log v max_bytes sort order operation path serve_root :
  emits not_listing (finish_paths mc v max_bytes sort order operation path serve_root).
Proof. unfold finish_paths, sort_path_items_interruptibly, sys_interrupted. repeat emits_step. Qed.

Section one_directory.
Context (path serve_path revision_owner : bytes) (max_entries max_bytes : Z).
Context (Hmax : 0 <= max_entries < usize_max).

(** [slack] items may still come from entries already counted. *)
Definition scanning (slack : Z) (c : ScanCells) : Prop :=
  sc_panicked c = false /\ 0 <= sc_visited c <= max_entries /\
  vec_len (sc_paths c) + slack <= sc_visited c.

(** A stopped scan says so. *)
Definition scan_ended (r : result IoError DirectoryVisitProgress) (c : ScanCells) : Prop :=
  sc_panicked c = false /\
  (sc_listing_error c <> None \/ sc_stop c <> None \/
   (scanning 0 c /\ forall k, r <> Ok (Paused k))).

Lemma scan_entry_rule e c :
  (exists t, de_revision_identity e = Existing t) -> scanning 1 c ->
  let '(go_on, c') := scan_entry sha256 mc path serve_path revision_owner max_bytes e c in
  if go_on : bool then scanning 0 c' else forall k, scan_ended (Ok (Paused k)) c'.
Proof.
  intros [t Ht] (S1 & S2 & S3). unfold scan_entry. cbv zeta.
  destruct (is_utf8 (de_file_name e)) eqn:Hu; cbn [negb]; [|intros k; split; [done|by left]].
  destruct (is_internal_name (de_file_name e)) eqn:Hi; [split_and!; try done; lia|].
  destruct (pathitem_from_rooted_entry _ _ _ _ _) as [[item|err]|] eqn:Hp.
  - destruct (_ <? _); [intros k; split; [done|by left]|].
    destruct (try_reserve_bounded_vec_slot _ _ _ _ _) as [v|[]] eqn:Hv; [|intros k; split; [done|by left]..].
    destruct (_ <? _); [intros k; split; [done|by left]|].
    assert (Hvi : vec_items v = vec_items (sc_paths c)).
    { revert Hv. unfold try_reserve_bounded_vec_slot. repeat case_match; try done; by intros [= <-]. }
    split_and!; cbn; try done; try lia. unfold vec_len in *. cbn. rewrite Hvi, length_app. cbn. lia.
  - intros k; split; [done|by left].
  - exfalso. revert Hp. unfold pathitem_from_rooted_entry, target_revision. rewrite Ht. cbv zeta.
    destruct (_ ≫= _) as [[? ?]|]; cbn; done.
Qed.

Lemma scan_spec sort order :
  spec (collect_list_snapshot_blocking sha256 fs mc path serve_path revision_owner max_entries max_bytes
          sort order) (λ r _,
    match r with
    | Ok paths => vec_len paths <= max_entries
    | Err ScanPanicked => False
    | Err (ScanFailed _) => True
    end).
Proof.
  unfold collect_list_snapshot_blocking, visit_dir_blocking_bounded.
  eapply (spec_bind _ _ (λ '(r, c) _, exists p, scan_ended p c /\ r = match p with Ok _ => Ok tt | Err e => Err e end)).
  { eapply spec_bind; [eapply (visit_chunk_rule fs _ _ (scanning 0) (scanning 1) scan_ended)|].
    - intros p c (S1 & S2 & S3). unfold scan_budget, sys_interrupted, sys_deadline.
      apply spec_bind_call. intros []; [apply spec_ret; intros k; split; [done|by right; left]|].
      apply spec_bind_call. intros []; [apply spec_ret; intros k; split; [done|by right; left]|]. cbv zeta.
      cbn [sc_visited]. destruct (Z.ltb_spec max_entries (sat_add (sc_visited c) 1)); apply spec_ret;
        [intros k; split; [done|by right; left]|].
      unfold sat_add in *. split_and!; cbn; try done; lia.
    - intros e c He HQ. unfold scan_visitor, sys_interrupted, sys_deadline. pose proof HQ as (S1 & _).
      apply spec_bind_call. intros []; [apply spec_ret; intros k; split; [done|by right; left]|].
      apply spec_bind_call. intros []; [apply spec_ret; intros k; split; [done|by right; left]|].
      pose proof (scan_entry_rule e c He HQ) as Hs. destruct (scan_entry _ _ _ _ _ _ _ _) as [[] c'];
        by apply spec_ret.
    - intros c (S1 & S2 & S3). split_and!; try done; lia.
    - intros c HP. split; [apply HP|]. right. right. by split.
    - intros e c HP. split; [apply HP|]. right. right. by split.
    - split_and!; cbn; try done; try lia.
    - intros [p c] calls Hp. apply spec_ret. by exists p. }
  intros [r c] calls (p & [Hpan Hend] & ->). rewrite Hpan.
  destruct (sc_listing_error c) as [e|] eqn:He; [by apply spec_ret|].
  destruct p as [progress|e]; [|by apply spec_ret].
  destruct (sc_stop c) as [stop|] eqn:Hstop; [by apply spec_ret|].
  destruct Hend as [Hend|[Hend|[(S1 & S2 & S3) Hk]]]; [done..|].
  eapply spec_weaken; [apply finish_paths_spec|]. intros [v|[e|]] calls' Hv; [|done..].
  unfold vec_len, in_order_of in *. rewrite Hv, (Permutation_length (stable_sort_perm _ _)). lia.
Qed.

(** What the scan keeps of the entries it has seen. *)
Definition scanned (entries : list RootedDirEntry) (c : ScanCells) : Prop :=
  made_of shown (stands_for path serve_path revision_owner) entries (vec_items (sc_paths c)).

Definition scan_stopped (c : ScanCells) : Prop :=
  sc_listing_error c <> None \/ sc_stop c <> None \/ sc_panicked c = true.

Lemma scan_entry_log e entries c :
  scanned entries c ->
  let '(go_on, c') := scan_entry sha256 mc path serve_path revision_owner max_bytes e c in
  if go_on : bool then scanned (entries ++ [e]) c' else scan_stopped c'.
Proof.
  intros Hc. unfold scan_entry. cbv zeta.
  destruct (is_utf8 (de_file_name e)) eqn:Hu; cbn [negb]; [|by left].
  destruct (is_internal_name (de_file_name e)) eqn:Hi.
  { apply made_of_skip; [done|done|unfold shown; by rewrite Hi]. }
  destruct (pathitem_from_rooted_entry _ _ _ _ _) as [[item|err]|] eqn:Hp; [|by left|by right; right].
  destruct (_ <? _); [by left|].
  destruct (try_reserve_bounded_vec_slot _ _ _ _ _) as [v|[]] eqn:Hv; [|by left..].
  destruct (_ <? _); [by left|].
  assert (Hvi : vec_items v = vec_items (sc_paths c)).
  { revert Hv. unfold try_reserve_bounded_vec_slot. repeat case_match; try done; by intros [= <-]. }
  unfold scanned. cbn. rewrite Hvi. apply made_of_add; [done|done|unfold shown; by rewrite Hi|done].
Qed.

(** A scan that returns has examined every record of the directory, and its
    items are those of the entries that are not internal. *)
Lemma scan_log sort order :
  spec (collect_list_snapshot_blocking sha256 fs mc path serve_path revision_owner max_entries max_bytes
          sort order) (λ r calls,
    match r with
    | Ok paths => exists entries found, explores fs false [(path, 0)] calls entries /\
        made_of shown (stands_for path serve_path revision_owner) entries found /\
        vec_items paths = in_order_of sort order found
    | Err _ => True
    end).
Proof.
  unfold collect_list_snapshot_blocking, visit_dir_blocking_bounded.
  eapply (spec_bind _ _ (λ '(r, c) calls, r = Ok tt -> scan_stopped c \/ exists entries,
    scanned entries c /\ forall gap, Forall not_listing gap -> explores fs false [(path, 0)] (calls ++ gap) entries)).
  { eapply spec_bind; [apply (visit_chunk_log fs _ _ scanned scanned scan_stopped (λ _ _ _, False)) with (seen := [])|].
    - intros p entries c Hc. unfold scan_budget, sys_interrupted, sys_deadline.
      apply spec_bind_call. intros []; [apply spec_ret; split; [by repeat constructor|by right; left]|].
      apply spec_bind_call. intros []; [apply spec_ret; split; [by repeat constructor|by right; left]|]. cbv zeta.
      destruct (_ <? _); apply spec_ret; (split; [by repeat constructor|]); [by right; left|done].
    - intros e entries c Hc. unfold scan_visitor, sys_interrupted, sys_deadline.
      apply spec_bind_call. intros []; [apply spec_ret; split; [by repeat constructor|by left; right; left]|].
      apply spec_bind_call. intros []; [apply spec_ret; split; [by repeat constructor|by left; right; left]|].
      pose proof (scan_entry_log e entries c Hc) as Hs. destruct (scan_entry _ _ _ _ _ _ _ _) as [[] c'];
        apply spec_ret; (split; [by repeat constructor|]); [done|by left].
    - done.
    - by split; constructor.
    - intros [r c] calls Hr. apply spec_ret. destruct r as [progress|e]; [|done]. intros _. rewrite app_nil_r.
      destruct Hr as (relative & directory & records & opening & calls' & -> & Hopen & Hend).
      destruct progress as [|k]; cbn in Hend; [|destruct Hend as [Hs|(? & ? & ? & ? & ? & _ & _ & _ & [])]; by left].
      right. destruct Hend as (ds & entries & -> & Hw & Hc). exists entries. split; [done|]. intros gap Hgap.
      rewrite <-(app_nil_r entries), <-app_assoc. change (opening ++ _) with ([] ++ opening ++ calls' ++ gap).
      by eapply explores_all; [..|by constructor]. }
  intros [r c] calls Hr. destruct (sc_panicked c) eqn:Hpan; [by apply spec_ret|].
  destruct (sc_listing_error c) as [e|] eqn:He; [by apply spec_ret|].
  destruct r as [[]|e]; [|by apply spec_ret]. destruct (sc_stop c) as [stop|] eqn:Hstop; [by apply spec_ret|].
  destruct (Hr eq_refl) as [[?|[?|?]]|(entries & Hc & Hex)]; [congruence..|].
  eapply spec_weaken; [apply spec_and; [apply finish_paths_spec|apply finish_paths_log]|].
  intros [v|e] gap [Hv Hgap]; [|done]. exists entries, (vec_items (sc_paths c)). split_and!; [by apply Hex|done|done].
Qed.
End one_directory.

Lemma scan_reads path serve_path revision_owner max_entries max_bytes sort order :
  emits reads (collect_list_snapshot_blocking sha256 fs mc path serve_path revision_owner max_entries max_bytes
    sort order).
Proof.
  unfold collect_list_snapshot_blocking, visit_dir_blocking_bounded.
  repeat (emits_step || apply visit_chunk_reads ||
          (progress unfold scan_budget, scan_visitor, finish_paths, sort_path_items_interruptibly,
             sys_interrupted, sys_deadline)).
Qed.

(** A hit of a search. *)
Definition hit (search : bytes) (e : RootedDirEntry) : bool :=
  shown e && case_folded_contains (de_file_name e) search.

Lemma search_reads path search sort order revision_owner serve_path max_search_entries join_error :
  emits reads (search_dir sha256 fs mc path search sort order revision_owner serve_path max_search_entries
                 join_error).
Proof.
  unfold search_dir. apply emits_bind; [apply walk_reads|].
  intros r. unfold finish_paths, sort_path_items_interruptibly, sys_interrupted. repeat emits_step.
Qed.

Lemma search_spec path search sort order revision_owner serve_path max_search_entries join_error :
  0 <= max_search_entries < usize_max ->
  spec (search_dir sha256 fs mc path search sort order revision_owner serve_path max_search_entries join_error)
    (λ r calls,
      match r with
      | Ok paths => exists entries found, explores fs true [(path, 0)] calls entries /\
          made_of (hit search) (stands_for path serve_path revision_owner) entries found /\
          vec_items paths = in_order_of sort order found
      | Err ScanPanicked => False
      | Err (ScanFailed _) => True
      end).
Proof.
  intros Hmax. unfold search_dir.
  eapply spec_bind; [apply spec_and; [by apply walk_bounded|apply walk_log]|].
  intros [v|[e|]] c [Hr Hlog]; [|by apply spec_ret|done]. destruct Hlog as (entries & Hex & Hu & Hm).
  eapply spec_weaken; [apply spec_and; [apply finish_paths_spec|apply finish_paths_log]|].
  intros [paths|[e|]] gap [Hp Hgap]; [|done..]. exists entries, (vec_items v).
  split_and!; [by apply explores_after| |done]. split; [done|].
  eapply Forall2_impl; [exact Hm|]. unfold becomes_item, stands_for. intros e item.
  by destruct (pathitem_from_rooted_entry _ _ _ _ _) as [r|]; cbn; [intros ->|].
Qed.
End scan_facts.

(** ** The handler *)

Section api_facts.
Context {Env : Type} `{Os Env} `{UuidLib} `{TextOrderLaws} `{HttpTypes} `{Crypto}.
Context (fs : RootedFs) (mc : Machine) (policy : PathPolicy) (serve_path : bytes) (max_search_entries : Z).

(** Everything the request is about, as [calls] read it: the records of the
    directory, or of the tree beneath it when there is a query, worked through to
    the end, and the items of those that are not internal and match. *)
Definition gathered (q : ListQuery) (revision_owner : bytes) (calls : list SysCall) (found : list PathItem) : Prop :=
  exists entries,
    explores fs (negb (beqb (lq_query q) [])) [(lq_path q, 0)] calls entries /\
    made_of (if beqb (lq_query q) [] then shown else hit (to_lowercase (lq_query q)))
      (stands_for sha256 (lq_path q) serve_path revision_owner) entries found.

(** What the first page shows of what was found. *)
Record first_page_of (q : ListQuery) (found : list PathItem) (page : ListSnapshotPage) : Prop := {
  fp_page : page_paths page = take (Z.to_nat (lq_limit q)) (in_order_of (lq_sort q) (lq_order q) found);
  fp_more : lp_next_cursor page = None <-> Z.of_nat (length found) <= lq_limit q
}.

Lemma parse_limit params q : parse_list_query policy params = Ok q -> 1 <= lq_limit q <= MAX_LIST_PAGE_SIZE.
Proof.
  unfold parse_list_query. rewrite bind_Ok. intros (path & _ & Hq). cbv zeta in Hq.
  destruct (_ <? _); [done|]. rewrite bind_Ok in Hq. destruct Hq as (limit & Hl & Hq).
  rewrite bind_Ok in Hq. destruct Hq as (cursor & _ & [= <-]). cbn [lq_limit].
  destruct (params !! bs "limit") as [value|].
  - destruct (u64_parse value) as [n|]; [|done]. destruct (in_range 1 MAX_LIST_PAGE_SIZE n) eqn:Hn; [|done].
    injection Hl as <-. by apply in_range_true.
  - injection Hl as <-. unfold DEFAULT_LIST_PAGE_SIZE, MAX_LIST_PAGE_SIZE. lia.
Qed.

Lemma stable_sort_length {T} compare (l : list T) : length (stable_sort compare l) = length l.
Proof. apply Permutation_length, stable_sort_perm. Qed.

(** Both ways to collect the items of a first page. *)
Lemma collected_spec q revision_owner join_error :
  0 <= max_search_entries < usize_max ->
  spec (if beqb (lq_query q) [] then
          collect_list_snapshot_blocking sha256 fs mc (lq_path q) serve_path revision_owner
            MAX_LIST_SNAPSHOT_ENTRIES MAX_CACHED_LIST_SNAPSHOT_BYTES_PER_OWNER (lq_sort q) (lq_order q)
        else
          search_dir sha256 fs mc (lq_path q) (to_lowercase (lq_query q)) (lq_sort q) (lq_order q)
            revision_owner serve_path max_search_entries join_error) (λ r calls,
    Forall reads calls /\
    match r with
    | Ok paths => exists found, gathered q revision_owner calls found /\
        vec_items paths = in_order_of (lq_sort q) (lq_order q) found
    | Err ScanPanicked => False
    | Err (ScanFailed _) => True
    end).
Proof.
  intros Hmax. unfold gathered. destruct (beqb (lq_query q) []); cbn [negb].
  - apply spec_and; [apply scan_reads|].
    eapply spec_weaken; [apply spec_and; [apply scan_spec|apply scan_log];
      unfold MAX_LIST_SNAPSHOT_ENTRIES, usize_max, u64_max; lia|].
    intros [v|[e|]] c [Hr Hlog]; [|done..]. destruct Hlog as (entries & found & ? & ? & ?). exists found.
    split; [by exists entries|done].
  - apply spec_and; [apply search_reads|]. eapply spec_weaken; [by apply search_spec|].
    intros [v|[e|]] c Hr; [|done..]. destruct Hr as (entries & found & ? & ? & ?). exists found.
    split; [by exists entries|done].
Qed.

(** The first page of a listing, or no page at all.  [before] is the directory
    as it was looked up before it was read. *)
Definition first_answer (owner revision_owner : bytes) (q : ListQuery) (before : DirectorySnapshot) (now : Z)
    (randoms : list (option (bytes * bytes))) (store : ListSnapshotStore)
    (answer : ListAnswer) (store' : ListSnapshotStore) (calls : list SysCall) : Prop :=
  match answer with
  | AnswerPage page =>
      exists found md reading closing,
        calls = reading ++ closing /\ gathered q revision_owner reading found /\
        looked_up fs (lq_path q) md closing /\ md_is_dir md = true /\ snapshot_from_metadata md = before /\
        first_page_of q found page /\
        (lp_next_cursor page = None /\ store' = store \/
         exists capacity,
           cache (mc_size_of_record mc) (mc_size_of_item mc) (mc_string_capacity mc)
             (binding_of owner q before) (in_order_of (lq_sort q) (lq_order q) found) capacity
             serve_path now randoms store = (Ok page, store'))
  | AnswerPanic => False
  | _ => True
  end.

Lemma cache_first_page size_of_record size_of_item capacity_of binding paths capacity now randoms store page store' :
  (lb_limit binding < length paths)%nat ->
  cache size_of_record size_of_item capacity_of binding paths capacity serve_path now randoms store =
    (Ok page, store') ->
  page_paths page = take (lb_limit binding) paths /\ lp_next_cursor page <> None.
Proof.
  intros Hlim. unfold cache. cbv zeta. destruct (_ <? _); [done|].
  destruct (draw _ _) as [[id secret]|]; [|done]. intros [= <- _].
  unfold page_paths, slice. cbn. by rewrite drop_0, Nat.sub_0_r.
Qed.

Lemma first_page_spec owner revision_owner q before now randoms join_error store :
  0 <= max_search_entries < usize_max -> 1 <= lq_limit q ->
  spec (first_page fs mc serve_path max_search_entries owner revision_owner q before now randoms join_error store)
    (λ '(answer, store') calls,
      Forall reads calls /\ first_answer owner revision_owner q before now randoms store answer store' calls).
Proof.
  intros Hmax Hlim. unfold first_page. eapply spec_bind; [by apply collected_spec|].
  intros [v|[e|]] c [Hc Hr]; [|by apply spec_ret; rewrite app_nil_r|done].
  destruct Hr as (found & Hfound & Hv).
  eapply spec_bind; [apply spec_and; [apply metadata_log|apply metadata_reads]|]. intros md c2 [[_ Hmd] Hc2].
  assert (Hreads : Forall reads (c ++ c2 ++ [])) by (rewrite app_nil_r; by apply Forall_app).
  destruct (directory_snapshot_after_walk md (lq_path q) serve_path) as [after|e] eqn:Hafter; [|by apply spec_ret].
  destruct (bool_decide_reflect (after = before)) as [->|]; cbn [negb]; [|by apply spec_ret].
  assert (exists m, looked_up fs (lq_path q) m c2 /\ md_is_dir m = true /\ snapshot_from_metadata m = before)
    as (m & Hm & Hdir & Hsnap).
  { revert Hafter. unfold directory_snapshot_after_walk. destruct md as [m|e]; [|done].
    destruct (md_is_dir m) eqn:Hd; [|done]. intros [= <-]. exists m. split; [by apply Hmd|done]. }
  assert (Hlen : vec_len v = Z.of_nat (length found))
    by (unfold vec_len, in_order_of in *; by rewrite Hv, stable_sort_length).
  destruct (Z.ltb_spec (lq_limit q) (vec_len v)) as [Hmore|Hall].
  - destruct (cache _ _ _ _ _ _ _ _ _ _) as [[page|e] store'] eqn:Hcache; [|by apply spec_ret].
    apply spec_ret. split; [done|]. exists found, m, c, (c2 ++ []). rewrite app_nil_r.
    edestruct cache_first_page as [Hp Hn]; [|exact Hcache|]; [cbn; unfold vec_len in Hmore; lia|]. cbn in Hp.
    split_and!; [done..| |right; rewrite <-Hv; by eexists]. constructor; [by rewrite Hp, Hv|].
    split; [done|lia].
  - apply spec_ret. split; [done|]. exists found, m, c, (c2 ++ []). rewrite app_nil_r.
    split_and!; [done..| |by left]. constructor; [|split; [intros _; lia|done]].
    unfold page_from_vec, page_paths, slice. cbn. rewrite drop_0, Nat.sub_0_r, Hv.
    unfold in_order_of. rewrite !take_ge; [done|..]; rewrite stable_sort_length; lia.
Qed.

(** A listing request only looks at the tree. *)
Lemma list_request_reads account params slot_free now randoms join_error store :
  0 <= max_search_entries < usize_max ->
  emits reads (list_request fs mc policy serve_path max_search_entries account params slot_free now randoms
                 join_error store).
Proof.
  intros Hmax. unfold list_request. cbv zeta.
  destruct (parse_list_query policy params) as [q|[code detail]] eqn:Hq; [|apply emits_ret].
  apply parse_limit in Hq. destruct (_ && negb slot_free); [apply emits_ret|].
  apply emits_bind; [apply metadata_reads|]. intros [md|e]; [|destruct (missing_kind e); apply emits_ret].
  destruct (negb _); [apply emits_ret|]. destruct (lq_cursor q) as [cursor|] eqn:Hcur.
  - destruct (store_page _ _ _ _) as [[page|e] store']; [apply emits_ret|].
    destruct (lookup_problem e) as [[[status code] detail] recovery]. apply emits_ret.
  - eapply spec_weaken; [apply first_page_spec; [done|lia]|]. by intros [answer store'] c [Hc _].
Qed.

(** What the request with [cursor] answers once the directory was looked up. *)
Definition later_answer (owner : bytes) (q : ListQuery) (cursor : DecodedListCursor) (before : DirectorySnapshot)
    (now : Z) (store : ListSnapshotStore) (answer : ListAnswer) (store' : ListSnapshotStore) : Prop :=
  match store_page cursor (binding_of owner q before) now store with
  | (Ok page, s) => answer = AnswerPage page /\ store' = s
  | (Err e, s) =>
      let '(status, code, detail, recovery) := lookup_problem e in
      answer = AnswerProblem status code detail recovery /\ store' = s
  end.

(** An answer without a page, for a request that was not let in or did not name
    a directory. *)
Definition turned_away (q : ListQuery) (slot_free : bool) (store : ListSnapshotStore) (answer : ListAnswer)
    (store' : ListSnapshotStore) (calls : list SysCall) : Prop :=
  store' = store /\ (forall page, answer <> AnswerPage page) /\ answer <> AnswerPanic /\
  (lq_cursor q = None /\ slot_free = false /\ calls = [] \/
   forall md, looked_up fs (lq_path q) md calls -> md_is_dir md = false).

(** C31: a listing request changes nothing on disk and answers with exactly one
    page of what the kernel showed it.  With malformed parameters it is refused
    before anything is read; otherwise it is turned away, if no slot is free or
    the path's metadata is not that of a directory, or the directory was looked
    up and:
    - without a cursor, a page is the beginning, in the requested order, of
      exactly the items of the entries that the log shows were read: the records
      of the directory, or of every directory beneath it when there is a query,
      each worked through to its last record, without the internal entries and
      those that do not match; a second lookup gave the same identity and times;
      there is a cursor exactly when there is more, and then the whole sorted
      listing has been cached for the directory as it was looked up;
    - with a cursor, the answer is the cache's for that cursor and the directory
      as it was looked up just now. *)
Theorem list_request_is_exact account params slot_free now randoms join_error store :
  0 <= max_search_entries < usize_max ->
  spec (list_request fs mc policy serve_path max_search_entries account params slot_free now randoms
          join_error store)
    (λ '(answer, store') calls,
      Forall reads calls /\
      match parse_list_query policy params with
      | Err (code, detail) =>
          answer = AnswerProblem 400 code detail NoAdvice /\ store' = store /\ calls = []
      | Ok q =>
          let owner := owner_listing_snapshot sha256 account in
          turned_away q slot_free store answer store' calls \/
          exists md opening rest,
            calls = opening ++ rest /\ looked_up fs (lq_path q) md opening /\ md_is_dir md = true /\
            let before := snapshot_from_metadata md in
            match lq_cursor q with
            | None => first_answer owner (owner_persistent sha256 account) q before now randoms store
                        answer store' rest
            | Some cursor => rest = [] /\ later_answer owner q cursor before now store answer store'
            end
      end).
Proof.
  intros Hmax. unfold list_request. cbv zeta.
  destruct (parse_list_query policy params) as [q|[code detail]] eqn:Hq; [|by apply spec_ret].
  apply parse_limit in Hq. destruct (match lq_cursor q with None => true | _ => false end && negb slot_free) eqn:Hslot.
  { apply spec_ret. split; [done|]. left. split_and!; [done..|]. left.
    by destruct (lq_cursor q), slot_free. }
  eapply spec_bind; [apply spec_and; [apply metadata_log|apply metadata_reads]|].
  intros [md|e] c [[_ Hmd] Hc]; rewrite <-(app_nil_r c) in Hc.
  2: { destruct (missing_kind e); apply spec_ret; (split; [done|]); left; split_and!; try done; right;
         intros md Hl; rewrite app_nil_r in Hl; by apply Hmd in Hl. }
  destruct (md_is_dir md) eqn:Hdir; cbn [negb].
  2: { apply spec_ret. split; [done|]. left. split_and!; [done..|right]. intros md' Hl.
       rewrite app_nil_r in Hl. apply Hmd in Hl. by injection Hl as <-. }
  assert (Hl : looked_up fs (lq_path q) md c) by by apply Hmd.
  destruct (lq_cursor q) as [cursor|] eqn:Hcur.
  - assert (Hlater : forall answer store',
      later_answer (owner_listing_snapshot sha256 account) q cursor (snapshot_from_metadata md) now store
        answer store' -> exists md' opening rest, c ++ [] = opening ++ rest /\ looked_up fs (lq_path q) md' opening /\
        md_is_dir md' = true /\ rest = [] /\ later_answer (owner_listing_snapshot sha256 account) q cursor
          (snapshot_from_metadata md') now store answer store') by (intros; by exists md, c, []).
    unfold later_answer in Hlater at 1.
    destruct (store_page _ _ _ _) as [[page|e] store'] eqn:Hs.
    + apply spec_ret. split; [done|]. right. by apply Hlater.
    + destruct (lookup_problem e) as [[[status code] detail] recovery]. apply spec_ret. split; [done|].
      right. by apply Hlater.
  - eapply spec_weaken; [apply first_page_spec; [done|lia]|]. intros [answer store'] c' [Hc' Hr].
    rewrite app_nil_r in Hc. split; [by apply Forall_app|]. right. by exists md, c, c'.
Qed.
End api_facts.

(** ** A listing of [/srv], which holds [a] and [d] *)

#[local] Existing Instances hex_uuid ascii_text ascii_text_laws toy_crypto DirectoryWalkFacts.demo_os.

Definition demo_machine : Machine :=
  mkMachine 80 24 200 8 blen (λ n, Some n) DirectoryWalkFacts.demo_sizes (true, true) (λ _, true) (λ n _, n).

Definition demo_request : Sys unit (ListAnswer * ListSnapshotStore) :=
  list_request DirectoryWalkFacts.demo_fs demo_machine (mkPolicy (bs "/srv") (bs "__assets__")) (bs "/srv") 10
    (bs "user") ∅ true 0 [] [] empty_store.

Definition demo_query : ListQuery := mkListQuery (bs "/srv") (bs "name") (bs "asc") [] 200 None.

Lemma list_request_is_exact_witness :
  exists page found reading, (demo_request (mkWorld tt [])).1 = (AnswerPage page, empty_store) /\
    gathered DirectoryWalkFacts.demo_fs (bs "/srv") demo_query (owner_persistent sha256 (bs "user")) reading found /\
    page_paths page = take 200 (in_order_of (bs "name") (bs "asc") found) /\
    (pi_name <$> page_paths page) = [bs "d"; bs "a"].
Proof.
  destruct (list_request_is_exact DirectoryWalkFacts.demo_fs demo_machine (mkPolicy (bs "/srv") (bs "__assets__"))
    (bs "/srv") 10 (bs "user") ∅ true 0 [] [] empty_store ltac:(unfold usize_max, u64_max; lia)
    (mkWorld tt [])) as (calls & _ & Hr). fold demo_request in Hr.
  assert (E : exists page, (demo_request (mkWorld tt [])).1 = (AnswerPage page, empty_store) /\
    (pi_name <$> page_paths page) = [bs "d"; bs "a"]).
  { eexists. split; vm_compute; reflexivity. }
  destruct E as (page & E & Hn). rewrite E in Hr. destruct Hr as [_ Hr].
  destruct (parse_list_query (mkPolicy (bs "/srv") (bs "__assets__")) ∅) as [q|[code detail]] eqn:Hq;
    [|vm_compute in Hq; discriminate Hq].
  assert (q = demo_query) as -> by (vm_compute in Hq; injection Hq as <-; reflexivity).
  destruct Hr as [(_ & Hp & _)|(md & opening & rest & _ & _ & _ & Hr)]; [by destruct (Hp page)|].
  destruct Hr as (found & md' & reading & closing & _ & Hg & _ & _ & _ & [Hp _] & _).
  exists page, found, reading. split; [exact E|]. split; [exact Hg|]. split; [exact Hp|exact Hn].
Defined.
