(* ===== verification/ServerHost.v ===== *)
(** What a mutating request handler works with: the kernel, the durable state
    store behind the operation registry, the path leases and the admission of
    commits ([src/src/server.rs]).

    The answers of the store, the coordinator and the admission control are
    those of a parameter, like the kernel's: whatever other requests do, a
    handler sees it only through these answers.  Every interaction is logged in
    order, so the log shows what the handler does to the file system, when it
    holds a lease and what it records.  A request that is cancelled before its
    commit is detached is not modelled: it stops between two interactions. *)

From S2P Require Import Prelude Bytes StoreModel Http Problem UuidText Registry Revisions Listing RootedOs RootedFs.
From stdpp Require Import base numbers list strings.

Local Open Scope Z_scope.

Inductive ServerEvent :=
| Kernel (call : SysCall)
(** [OperationRegistry::begin] *)
| BeginOp (key : OperationKey) (fingerprint : bytes) (answer : result bytes BeginOperation)
(** [OperationGuard::mark_commit_started] *)
| MarkStarted (guard : OperationGuard) (answer : result bytes unit)
(** [OperationGuard::complete], without the destructor *)
| CompleteOp (guard : OperationGuard) (outcome : OperationOutcome) (answer : result Failure unit)
(** [Drop for OperationGuard] *)
| AbandonOp (guard : OperationGuard)
(** [acquire_request_path_lease] *)
| AcquireLease (paths : list bytes) (answer : option Z)
| ReleaseLease (lease : Z)
(** [has_persisted_path_conflict] *)
| ScanState (paths : list bytes) (answer : result bytes bool)
(** [mutation_slots.acquire_owned], then [mark_detached_commit] *)
| AdmitCommit (answer : bool)
| PreparePurgeJob (job : StoredPurgeJob) (answer : result bytes StorePurgeJob)
| RemovePurgeJob (key : PurgeJobKey) (answer : result bytes bool)
| MarkPurgeReady (key : PurgeJobKey) (revision : bytes) (answer : result bytes bool)
| WakePurgeWorker
(** [reconcile_prepared_purge_key] *)
| ReconcilePurge (key : PurgeJobKey).

Class Host (Env : Type) := {
  host_begin : OperationKey -> bytes -> Env -> result bytes BeginOperation * Env;
  host_mark_started : OperationGuard -> Env -> result bytes unit * Env;
  host_complete : OperationGuard -> OperationOutcome -> Env -> result Failure unit * Env;
  host_abandon : OperationGuard -> Env -> unit * Env;
  host_acquire : list bytes -> Env -> option Z * Env;
  host_release : Z -> Env -> unit * Env;
  host_scan : list bytes -> Env -> result bytes bool * Env;
  host_admit : Env -> bool * Env;
  host_prepare_purge : StoredPurgeJob -> Env -> result bytes StorePurgeJob * Env;
  host_remove_purge : PurgeJobKey -> Env -> result bytes bool * Env;
  host_purge_ready : PurgeJobKey -> bytes -> Env -> result bytes bool * Env;
  host_wake : Env -> unit * Env;
  host_reconcile : PurgeJobKey -> Env -> unit * Env
}.

Abbreviation Srv := (Prog ServerEvent).

(** The error of a handler ([anyhow::Error]). *)
Inductive HandlerError := HandlerIo (error : IoError) | HandlerFail (failure : Failure).

Definition handler_fail {A} (r : result Failure A) : result HandlerError A :=
  match r with Ok a => Ok a | Err f => Err (HandlerFail f) end.
Definition failed {A} (message : bytes) : result HandlerError A := Err (HandlerFail (Failed message)).
Definition store_answer {A} (r : result bytes A) : result HandlerError A :=
  match r with Ok a => Ok a | Err m => failed m end.

Section host.
Context {Env : Type} `{Os Env} `{Host Env}.

(** System calls made by a handler. *)
Definition kernel {A} (m : Sys Env A) : Srv Env A := lifted Kernel m.

Definition srv_begin key fp : Srv Env (result bytes BeginOperation) :=
  syscall (host_begin key fp) (BeginOp key fp).
Definition srv_acquire paths : Srv Env (option Z) := syscall (host_acquire paths) (AcquireLease paths).
Definition srv_release lease : Srv Env unit := syscall (host_release lease) (λ _, ReleaseLease lease).
Definition srv_scan paths : Srv Env (result bytes bool) := syscall (host_scan paths) (ScanState paths).
Definition srv_admit : Srv Env bool := syscall host_admit AdmitCommit.
Definition srv_prepare_purge job : Srv Env (result bytes StorePurgeJob) :=
  syscall (host_prepare_purge job) (PreparePurgeJob job).
Definition srv_remove_purge key : Srv Env (result bytes bool) :=
  syscall (host_remove_purge key) (RemovePurgeJob key).
Definition srv_purge_ready key revision : Srv Env (result bytes bool) :=
  syscall (host_purge_ready key revision) (MarkPurgeReady key revision).
Definition srv_wake : Srv Env unit := syscall host_wake (λ _, WakePurgeWorker).
Definition srv_reconcile key : Srv Env unit := syscall (host_reconcile key) (λ _, ReconcilePurge key).

(** ** The guard of an operation *)

(** [drop(guard)]. *)
Definition drop_operation (guard : option OperationGuard) : Srv Env unit :=
  match guard with
  | Some guard => syscall (host_abandon guard) (λ _, AbandonOp guard)
  | None => ret tt
  end.

Definition mark_started (guard : option OperationGuard) : Srv Env (result HandlerError unit) :=
  match guard with
  | Some guard => do r <- syscall (host_mark_started guard) (MarkStarted guard); ret (store_answer r)
  | None => ok tt
  end.

(** [guard.complete(outcome).await?]: a failure drops the guard. *)
Definition settle (guard : option OperationGuard) (outcome : OperationOutcome) : Srv Env (result HandlerError unit) :=
  match guard with
  | Some guard =>
      do r <- syscall (host_complete guard outcome) (CompleteOp guard outcome);
      match r with
      | Ok _ => ok tt
      | Err f => do _ <- drop_operation (Some guard); fail (HandlerFail f)
      end
  | None => ok tt
  end.
End host.

(** ** Facts *)

Section facts.
Context {Env : Type} `{Os Env} `{Host Env}.

Lemma spec_kernel {A} (m : Sys Env A) Q :
  spec m Q -> spec (kernel m) (λ a events, exists calls, events = map Kernel calls /\ Q a calls).
Proof. apply spec_lifted. Qed.

Lemma spec_bind_kernel {A B} (m : Sys Env A) (k : A -> Srv Env B) P Q :
  spec m P ->
  (forall a calls, P a calls -> spec (k a) (λ b events, Q b (map Kernel calls ++ events))) ->
  spec (bind (kernel m) k) Q.
Proof. apply spec_bind_lifted. Qed.
End facts.
