(* ===== verification/BrowserApi.v ===== *)
(** The mutations of the browser API ([src/src/server/browser_api.rs]):
    creating a directory, moving and renaming, with the helpers of
    [src/src/server.rs] they use.

    A handler checks the request while it owns the operation's guard, then hands
    guard and path lease to a detached commit.  Before the commit a check
    passes, answers (the guard is consumed), or breaks off with an error ([?]:
    guard and lease are dropped). *)

From S2P Require Import Prelude Bytes StdPath Utils StoreModel Http UuidText Problem InternalNames PathPolicy UploadProtocol Registry Revisions Listing RootedOs RootedFs ServerHost.
From stdpp Require Import base numbers list strings.
Import ErrorCode.

Local Open Scope Z_scope.

Definition MKDIR_API_PATH : bytes := bs "__dufs__/api/mkdir".
Definition MOVE_API_PATH : bytes := bs "__dufs__/api/move".
Definition RENAME_API_PATH : bytes := bs "__dufs__/api/rename".
Definition API_BODY_LIMIT : Z := 16 * 1024.
Definition SOURCE_REVISION_HEADER : bytes := bs "x-dufs-source-revision".
Definition PATH_WAIT_LIMIT_DETAIL : bytes := bs "Too many path-coordinated requests are active".

Abbreviation TrackedOperation := (option (bytes * OperationGuard)) (only parsing).

Record MkdirRequest := mkMkdir { mk_path : bytes }.
Record MoveRequest := mkMove {
  mv_source : bytes; mv_directory : bytes;
  mv_source_revision : option bytes; mv_destination_revision : option bytes; mv_overwrite : bool
}.
Record RenameRequest := mkRename {
  rn_source : bytes; rn_name : bytes;
  rn_source_revision : option bytes; rn_destination_revision : option bytes; rn_overwrite : bool
}.

(** [serde_json::from_slice] for the three requests, and the media type of a
    [Content-Type]. *)
Class RequestCodec := {
  mkdir_of_json : bytes -> option MkdirRequest;
  move_of_json : bytes -> option MoveRequest;
  rename_of_json : bytes -> option RenameRequest;
  mime_essence : bytes -> option bytes
}.

(** [Limited::collect]. *)
Inductive BodyRead := BodyBytes (b : bytes) | BodyTooLarge | BodyBroken.

Inductive RelocationKind := Move | Rename.

Definition invalid_path_error (kind : RelocationKind) : TrackedOperationError :=
  match kind with Move => InvalidMovePath | Rename => InvalidRenamePath end.
Definition state_conflict_error (kind : RelocationKind) : TrackedOperationError :=
  match kind with Move => MoveStateConflict | Rename => RenameStateConflict end.
Definition state_unavailable_code (kind : RelocationKind) : ErrorCode :=
  match kind with Move => MOVE_STATE_UNAVAILABLE | Rename => RENAME_STATE_UNAVAILABLE end.
Definition state_unavailable_detail (kind : RelocationKind) : bytes :=
  match kind with
  | Move => bs "Move safety state is temporarily unavailable"
  | Rename => bs "Rename safety state is temporarily unavailable"
  end.

Record RelocationRequest := mkRelocation {
  rr_source : bytes;
  rr_destination : bytes;
  rr_destination_directory : bytes;
  rr_source_revision : option bytes;
  rr_destination_revision : option bytes;
  rr_overwrite : bool;
  rr_kind : RelocationKind
}.

Definition is_single_browser_name (name : bytes) : bool :=
  negb (beqb name []) && (blen name <=? BROWSER_COMPONENT_BYTES_LIMIT) && negb (beqb name (bs ".")) &&
  negb (beqb name (bs "..")) && negb (contains_byte slash name) && negb (contains_byte nul_byte name).

Definition logical_child (directory name : bytes) : bytes :=
  if beqb directory [slash] then slash :: name else directory ++ slash :: name.

(** [str::rsplit('/').next()] and [str::rsplit_once('/')]. *)
Definition rsplit_last (s : bytes) : bytes := default [] (last (split_on slash s)).
Definition rsplit_once (s : bytes) : option (bytes * bytes) :=
  if contains_byte slash s
  then Some (take (length s - length (rsplit_last s) - 1) s, rsplit_last s)
  else None.

(** ** Responses *)

Section responses.
Context `{UuidLib} `{HttpTypes}.

(** The headers and the problem context of a rejected operation. *)
Definition reject (res : Response) (error : ApiError) (operation_id : option bytes) : result Failure Response :=
  match operation_id with
  | None => render_problem res error
  | Some id =>
      res ← set_operation_headers res id OpRejected;
      render_problem res (with_operation error (mkOperationContext (uuid_to_string id) OpRejected None))
  end.

Definition status_api_error (res : Response) (status : Z) (code : ErrorCode) (message : bytes)
    (operation_id : option bytes) : result Failure Response :=
  reject res (new_api_error status code message) operation_id.

Definition render_path_wait_limit (res : Response) (operation_id : option bytes) : result Failure Response :=
  reject res (with_recovery (new_api_error 429 PATH_WAIT_CONCURRENCY_LIMIT PATH_WAIT_LIMIT_DETAIL)
                (RetryAfterSeconds 1)) operation_id.

Definition render_mkdir_state_unavailable (operation_id : option bytes) (res : Response) : result Failure Response :=
  reject res (with_recovery (new_api_error 503 MKDIR_STATE_UNAVAILABLE
                (bs "Directory safety state is temporarily unavailable")) (RetryAfterSeconds 1)) operation_id.

Definition render_relocation_state_unavailable (kind : RelocationKind) (operation_id : option bytes)
    (res : Response) : result Failure Response :=
  reject res (with_recovery (new_api_error 503 (state_unavailable_code kind) (state_unavailable_detail kind))
                (RetryAfterSeconds 1)) operation_id.

Definition render_completed_error (operation_id : option bytes) (res : Response) (status : Z)
    (error : TrackedOperationError) : result Failure Response :=
  match operation_id with
  | Some id => apply_operation_outcome res id (failure status error) false
  | None => status_api_error res status (tracked_code error) (tracked_detail error) None
  end.

Definition render_completed_success (operation_id : option bytes) (res : Response) (status : Z)
    : result Failure Response :=
  match operation_id with
  | Some id => apply_operation_outcome res id (success status) false
  | None => Ok (with_status res status)
  end.

Definition apply_revision_header (res : Response) (name : bytes) (revision : option bytes)
    : result Failure Response :=
  match revision with
  | Some revision =>
      headers ← try (set_header (res_headers res) name (revision_encode revision));
      Ok (with_headers res headers)
  | None => Ok (with_headers res (remove_header (res_headers res) name))
  end.

Definition request_content_type_is `{RequestCodec} (headers : HeaderMap) (expected : bytes) : bool :=
  match get_all headers CONTENT_TYPE with
  | [value] =>
      match value ← to_str value; mime_essence value with
      | Some essence => eq_ignore_ascii_case essence expected
      | None => false
      end
  | _ => false
  end.
End responses.

(** ** Checks before the commit *)

Section handlers.
Context {Env : Type} `{Os Env} `{Host Env} `{UuidLib} `{HttpTypes} `{RequestCodec} (sha256 : bytes -> bytes)
  (fs : RootedFs) (policy : PathPolicy).

Inductive Checked (A : Type) :=
| Pass (a : A)
| Answered (r : result HandlerError Response)
| Broken (e : HandlerError).
#[local] Arguments Pass {A}.
#[local] Arguments Answered {A}.
#[local] Arguments Broken {A}.

Definition bind_checked {A B} (m : Srv Env (Checked A)) (k : A -> Srv Env (Checked B)) : Srv Env (Checked B) :=
  bind m (λ c, match c with Pass a => k a | Answered r => ret (Answered r) | Broken e => ret (Broken e) end).

#[local] Notation "'check' x <- m ; k" := (bind_checked m (λ x, k))
  (at level 100, x pattern, m at level 100, k at level 200, right associativity).

(** [?] on system calls, and on a pure result. *)
Definition checked_io {A} (m : Io Env A) : Srv Env (Checked A) :=
  do r <- kernel m; ret (match r with Ok a => Pass a | Err e => Broken (HandlerIo e) end).
Definition checked_result {A} (r : result HandlerError A) : Srv Env (Checked A) :=
  ret (match r with Ok a => Pass a | Err e => Broken e end).

Definition operation_id (operation : TrackedOperation) : option bytes := fst <$> operation.
Definition operation_guard (operation : TrackedOperation) : option OperationGuard := snd <$> operation.

Definition finish_api_error (operation : TrackedOperation) (res : Response) (status : Z)
    (error : TrackedOperationError) : Srv Env (result HandlerError Response) :=
  let outcome := failure status error in
  match operation with
  | Some (id, guard) =>
      attempt _ <- settle (Some guard) outcome;
      ret (handler_fail (apply_operation_outcome res id outcome false))
  | None => ret (handler_fail (status_api_error res status (tracked_code error) (tracked_detail error) None))
  end.

(** [finish_api_error(..).await?; return Ok(())]. *)
Definition finish {A} (operation : TrackedOperation) (res : Response) (status : Z)
    (error : TrackedOperationError) : Srv Env (Checked A) :=
  do r <- finish_api_error operation res status error; ret (Answered r).

(** [drop(operation); render(..)?; return Ok(())]. *)
Definition decline {A} (operation : TrackedOperation) (r : result Failure Response) : Srv Env (Checked A) :=
  do _ <- drop_operation (operation_guard operation); ret (Answered (handler_fail r)).

Definition resolve_browser_path (path : bytes) : option bytes := parse_browser_target policy path.
Definition resolve_browser_directory (path : bytes) : option bytes := parse_list_target policy path.

(** [true]: the path leaves the shared tree. *)
Definition guard_root_contained (path : bytes) : Io Env bool :=
  do found <- metadata_blocking fs path;
  match found with
  | Ok _ => ok false
  | Err error =>
      if missing_kind error then ok false
      else if bool_decide (io_raw_os_error error = Some XDEV) then ok true
      else fail error
  end.

(** What [run_commit_inner] does around the task; a closed admission drops the
    task with the lease and the guard it owns. *)
Definition run_operation_commit {A} (lease : Z) (guard : option OperationGuard)
    (task : Srv Env (result HandlerError A)) : Srv Env (result HandlerError A) :=
  do admitted <- srv_admit;
  if admitted : bool then task
  else
    do _ <- srv_release lease;
    do _ <- drop_operation guard;
    ret (failed (bs "filesystem mutation admission was closed")).

(** The checks, then the commit.  The checks run with the lease held. *)
Definition checked_commit {A} (lease : Z) (operation : TrackedOperation) (checks : Srv Env (Checked A))
    (commit : A -> Srv Env (result HandlerError Response)) : Srv Env (result HandlerError Response) :=
  do c <- checks;
  match c with
  | Pass a => commit a
  | Answered r => do _ <- srv_release lease; ret r
  | Broken e => do _ <- srv_release lease; do _ <- drop_operation (operation_guard operation); fail e
  end.

(** ** Creating a directory *)

Definition mkdir_checks (path : bytes) (operation : TrackedOperation) (res : Response) : Srv Env (Checked unit) :=
  check escapes <- checked_io (guard_root_contained path);
  if escapes : bool then finish operation res 400 InvalidPath
  else
    do found <- kernel (metadata_nofollow fs path);
    match found with
    | Ok _ => finish operation res 409 PathExists
    | Err error =>
        if negb (bool_decide (io_kind error = NotFound)) then ret (Broken (HandlerIo error))
        else
          do conflict <- srv_scan [path];
          match conflict with
          | Ok false => ret (Pass tt)
          | Ok true => finish operation res 409 MkdirStateConflict
          | Err _ => decline operation (render_mkdir_state_unavailable (operation_id operation) res)
          end
    end.

(** [true]: created; [false]: it exists. *)
Definition mkdir_task (path : bytes) (lease : Z) (guard : option OperationGuard)
    : Srv Env (result HandlerError bool) :=
  do started <- mark_started guard;
  match started with
  | Err e => do _ <- srv_release lease; do _ <- drop_operation guard; fail e
  | Ok _ =>
      do made <- kernel (create_directory fs path);
      match made with
      | Ok _ =>
          do settled <- settle guard (success 201);
          do _ <- srv_release lease;
          ret (match settled with Ok _ => Ok true | Err e => Err e end)
      | Err error =>
          if bool_decide (io_kind error = AlreadyExists) then
            do settled <- settle guard (failure 409 PathExists);
            do _ <- srv_release lease;
            ret (match settled with Ok _ => Ok false | Err e => Err e end)
          else do _ <- srv_release lease; do _ <- drop_operation guard; fail (HandlerIo error)
      end
  end.

Definition handle_api_mkdir (request : MkdirRequest) (operation : TrackedOperation) (res : Response)
    : Srv Env (result HandlerError Response) :=
  match resolve_browser_path (mk_path request) with
  | None => finish_api_error operation res 400 InvalidPath
  | Some path =>
      do acquired <- srv_acquire [path];
      match acquired with
      | None =>
          do _ <- drop_operation (operation_guard operation);
          ret (handler_fail (render_path_wait_limit res (operation_id operation)))
      | Some lease =>
          checked_commit lease operation (mkdir_checks path operation res) (λ _,
            attempt created <- run_operation_commit lease (operation_guard operation)
              (mkdir_task path lease (operation_guard operation));
            ret (handler_fail
              (if created : bool then render_completed_success (operation_id operation) res 201
               else render_completed_error (operation_id operation) res 409 PathExists)))
      end
  end.

(** ** Moving and renaming *)

(** The revisions of a request, or what is wrong with them. *)
Definition parse_revisions (request : RelocationRequest)
    : result (Z * TrackedOperationError) (bytes * option bytes) :=
  match rr_source_revision request with
  | None => Err (428, SourceRevisionRequired)
  | Some value =>
      match revision_parse value with
      | None => Err (400, InvalidSourceRevision)
      | Some source_revision =>
          match rr_overwrite request, rr_destination_revision request with
          | false, None => Ok (source_revision, None)
          | false, Some _ => Err (400, InvalidDestinationRevision)
          | true, None => Err (428, DestinationRevisionRequired)
          | true, Some value =>
              match revision_parse value with
              | Some revision => Ok (source_revision, Some revision)
              | None => Err (400, InvalidDestinationRevision)
              end
          end
      end
  end.

(** [apply_revision_header(..)?; finish_api_error(..)]. *)
Definition finish_with_revision {A} (operation : TrackedOperation) (res : Response) (name : bytes)
    (revision : option bytes) (status : Z) (error : TrackedOperationError) : Srv Env (Checked A) :=
  check res <- checked_result (handler_fail (apply_revision_header res name revision));
  finish operation res status error.

(** The destination: the parent must be a directory, an existing entry must be
    the one the client confirmed, and neither side may be a directory then. *)
Definition destination_checks (request : RelocationRequest) (owner_id : bytes) (source_meta : Metadata)
    (destination_revision : option bytes) (operation : TrackedOperation) (res : Response)
    : Srv Env (Checked (ReplacementTargetIdentity * bytes)) :=
  let destination := rr_destination request in
  do parent <- kernel (metadata_blocking fs (rr_destination_directory request));
  match parent with
  | Err error =>
      if missing_kind error then finish operation res 404 DestinationDirectoryNotFound
      else ret (Broken (HandlerIo error))
  | Ok parent =>
      if negb (md_is_dir parent) then finish operation res 409 DestinationNotDirectory
      else
        check destination_identity <- checked_io (replacement_identity_blocking fs destination);
        check destination_relative <- checked_io (ret (relative_path fs destination));
        let current := target_revision sha256 owner_id destination_relative destination_identity in
        if rr_overwrite request && negb (bool_decide (current = destination_revision))
        then finish_with_revision operation res TARGET_REVISION_HEADER current 412 Registry.DestinationChanged
        else if negb (identity_exists destination_identity)
        then ret (Pass (destination_identity, destination_relative))
        else
          check destination_meta <- checked_io (metadata_nofollow fs destination);
          if md_is_dir source_meta || md_is_dir destination_meta
          then finish operation res 409 DirectoryOverwriteForbidden
          else if negb (rr_overwrite request)
          then finish_with_revision operation res TARGET_REVISION_HEADER current 409 Registry.DestinationExists
          else if (md_dev source_meta =? md_dev destination_meta) && (md_ino source_meta =? md_ino destination_meta)
          then finish operation res 409 SourceEqualsDestination
          else ret (Pass (destination_identity, destination_relative))
  end.

Definition state_checks (request : RelocationRequest) (operation : TrackedOperation) (res : Response)
    : Srv Env (Checked unit) :=
  check escapes <- checked_io (guard_root_contained (rr_destination request));
  if escapes : bool then finish operation res 400 (invalid_path_error (rr_kind request))
  else
    do conflict <- srv_scan [rr_source request; rr_destination request];
    match conflict with
    | Ok false => ret (Pass tt)
    | Ok true => finish operation res 409 (state_conflict_error (rr_kind request))
    | Err _ =>
        decline operation (render_relocation_state_unavailable (rr_kind request) (operation_id operation) res)
    end.

(** What the commit works with. *)
Record RelocationPlan := mkPlan {
  pl_source_identity : ReplacementTargetIdentity;
  pl_source_relative : bytes;
  pl_destination_identity : ReplacementTargetIdentity;
  pl_destination_relative : bytes
}.

(** [a.await? || b.await?]. *)
Definition either_escapes (source destination : bytes) : Srv Env (Checked bool) :=
  check escapes <- checked_io (guard_root_contained source);
  if escapes : bool then ret (Pass true) else checked_io (guard_root_contained destination).

Definition relocation_checks (request : RelocationRequest) (owner_id source_revision : bytes)
    (destination_revision : option bytes) (operation : TrackedOperation) (res : Response)
    : Srv Env (Checked RelocationPlan) :=
  let source := rr_source request in
  let destination := rr_destination request in
  check source_identity <- checked_io (replacement_identity_blocking fs source);
  check source_relative <- checked_io (ret (relative_path fs source));
  let current := target_revision sha256 owner_id source_relative source_identity in
  if negb (bool_decide (current = Some source_revision))
  then finish_with_revision operation res SOURCE_REVISION_HEADER current 412 Registry.SourceChanged
  else
    check escapes <- either_escapes source destination;
    if escapes : bool then finish operation res 400 (invalid_path_error (rr_kind request))
    else
      do source_meta <- kernel (metadata_nofollow fs source);
      match source_meta with
      | Err error =>
          if bool_decide (io_kind error = NotFound) then finish operation res 404 SourceNotFound
          else ret (Broken (HandlerIo error))
      | Ok source_meta =>
          if md_is_dir source_meta && path_starts_with destination source
          then finish operation res 409 DirectoryIntoItself
          else
            check (destination_identity, destination_relative) <-
              destination_checks request owner_id source_meta destination_revision operation res;
            check _ <- state_checks request operation res;
            ret (Pass (mkPlan source_identity source_relative destination_identity destination_relative))
      end.

Definition relocation_result (outcome : CheckedRelocationOutcome) : OperationOutcome :=
  match outcome with
  | Relocated => success 204
  | DestinationExists => failure 409 Registry.DestinationExists
  | SameFile => failure 409 SourceEqualsDestination
  | SourceChanged => failure 412 Registry.SourceChanged
  | DestinationChanged => failure 412 Registry.DestinationChanged
  end.

Definition relocation_task (request : RelocationRequest) (plan : RelocationPlan) (lease : Z)
    (guard : option OperationGuard) : Srv Env (result HandlerError CheckedRelocationOutcome) :=
  do started <- mark_started guard;
  match started with
  | Err e => do _ <- srv_release lease; do _ <- drop_operation guard; fail e
  | Ok _ =>
      do moved <- kernel (rename_if_unchanged fs (rr_source request) (rr_destination request)
        (pl_source_identity plan) (if rr_overwrite request then Some (pl_destination_identity plan) else None));
      match moved with
      | Err error => do _ <- srv_release lease; do _ <- drop_operation guard; fail (HandlerIo error)
      | Ok outcome =>
          do settled <- settle guard (relocation_result outcome);
          do _ <- srv_release lease;
          ret (match settled with Ok _ => Ok outcome | Err e => Err e end)
      end
  end.

(** The current revision of a path, for the client of a failed relocation; a
    failed inspection leaves the response alone. *)
Definition report_revision (res : Response) (name path owner_id relative : bytes)
    : Srv Env (result HandlerError Response) :=
  do found <- kernel (replacement_identity_blocking fs path);
  ret (match found with
       | Ok i => handler_fail (apply_revision_header res name (target_revision sha256 owner_id relative i))
       | Err _ => Ok res
       end).

Definition relocation_response (request : RelocationRequest) (plan : RelocationPlan) (owner_id : bytes)
    (id : option bytes) (res : Response) (outcome : CheckedRelocationOutcome)
    : Srv Env (result HandlerError Response) :=
  match outcome with
  | Relocated => ret (handler_fail (render_completed_success id res 204))
  | DestinationExists => ret (handler_fail (render_completed_error id res 409 Registry.DestinationExists))
  | SameFile => ret (handler_fail (render_completed_error id res 409 SourceEqualsDestination))
  | SourceChanged =>
      attempt res <- report_revision res SOURCE_REVISION_HEADER (rr_source request) owner_id (pl_source_relative plan);
      ret (handler_fail (render_completed_error id res 412 Registry.SourceChanged))
  | DestinationChanged =>
      attempt res <- report_revision res TARGET_REVISION_HEADER (rr_destination request) owner_id
        (pl_destination_relative plan);
      ret (handler_fail (render_completed_error id res 412 Registry.DestinationChanged))
  end.

Definition handle_api_relocation (request : RelocationRequest) (owner : bytes) (operation : TrackedOperation)
    (res : Response) : Srv Env (result HandlerError Response) :=
  match parse_revisions request with
  | Err (status, error) => finish_api_error operation res status error
  | Ok (source_revision, destination_revision) =>
      if path_eqb (rr_source request) (rr_destination request)
      then finish_api_error operation res 400 SourceEqualsDestination
      else
        do acquired <- srv_acquire [rr_source request; rr_destination request];
        match acquired with
        | None =>
            do _ <- drop_operation (operation_guard operation);
            ret (handler_fail (render_path_wait_limit res (operation_id operation)))
        | Some lease =>
            let owner_id := owner_persistent sha256 owner in
            let guard := operation_guard operation in
            checked_commit lease operation
              (relocation_checks request owner_id source_revision destination_revision operation res)
              (λ plan,
                attempt outcome <- run_operation_commit lease guard (relocation_task request plan lease guard);
                relocation_response request plan owner_id (operation_id operation) res outcome)
        end
  end.

Definition handle_api_move (owner : bytes) (request : MoveRequest) (operation : TrackedOperation) (res : Response)
    : Srv Env (result HandlerError Response) :=
  match resolve_browser_path (mv_source request) with
  | None => finish_api_error operation res 400 InvalidSourcePath
  | Some source =>
      match resolve_browser_directory (mv_directory request) with
      | None => finish_api_error operation res 400 InvalidDestinationPath
      | Some directory =>
          match resolve_browser_path (logical_child (mv_directory request) (rsplit_last (mv_source request))) with
          | None => finish_api_error operation res 400 InvalidDestinationPath
          | Some destination =>
              handle_api_relocation
                (mkRelocation source destination directory (mv_source_revision request)
                   (mv_destination_revision request) (mv_overwrite request) Move)
                owner operation res
          end
      end
  end.

(** [None]: one of the two [expect]s fails. *)
Definition rename_parent (source_logical source : bytes) : option (bytes * bytes) :=
  '(parent, _) ← rsplit_once source_logical;
  directory ← path_parent source;
  Some (if beqb parent [] then [slash] else parent, directory).

Definition handle_api_rename (owner : bytes) (request : RenameRequest) (operation : TrackedOperation) (res : Response)
    : Srv Env (result HandlerError Response) :=
  match resolve_browser_path (rn_source request) with
  | None => finish_api_error operation res 400 InvalidSourcePath
  | Some source =>
      if negb (is_single_browser_name (rn_name request))
      then finish_api_error operation res 400 InvalidRenameName
      else
        match rename_parent (rn_source request) source with
        | None => do _ <- drop_operation (operation_guard operation); fail (HandlerFail Panic)
        | Some (parent_logical, destination_directory) =>
            match resolve_browser_path (logical_child parent_logical (rn_name request)) with
            | None => finish_api_error operation res 400 InvalidRenameName
            | Some destination =>
                handle_api_relocation
                  (mkRelocation source destination destination_directory (rn_source_revision request)
                     (rn_destination_revision request) (rn_overwrite request) Rename)
                  owner operation res
            end
        end
  end.

(** ** The endpoint *)

Definition dispatch_mutation (endpoint owner body : bytes) (operation : TrackedOperation) (res : Response)
    : Srv Env (result HandlerError Response) :=
  if beqb endpoint MKDIR_API_PATH then
    match mkdir_of_json body with
    | Some request => handle_api_mkdir request operation res
    | None => finish_api_error operation res 400 InvalidJson
    end
  else if beqb endpoint MOVE_API_PATH then
    match move_of_json body with
    | Some request => handle_api_move owner request operation res
    | None => finish_api_error operation res 400 InvalidJson
    end
  else
    match rename_of_json body with
    | Some request => handle_api_rename owner request operation res
    | None => finish_api_error operation res 400 InvalidJson
    end.

(** [handle_browser_api] for the tracked endpoints: the two upload endpoints
    are answered before. *)
Definition handle_browser_api (endpoint owner : bytes) (headers : HeaderMap) (body : BodyRead) (res : Response)
    : Srv Env (result HandlerError Response) :=
  let answer r := ret (handler_fail r) in
  if negb (beqb endpoint MKDIR_API_PATH || beqb endpoint MOVE_API_PATH || beqb endpoint RENAME_API_PATH)
  then answer (status_api_error res 404 API_ENDPOINT_NOT_FOUND (bs "API endpoint not found") None)
  else
    match parse_operation_id headers with
    | Ok None => answer (apply_invalid_id res (bs "The x-dufs-operation-id header is required"))
    | Err message => answer (apply_invalid_id res message)
    | Ok (Some id) =>
        if negb (request_content_type_is headers (bs "application/json"))
        then answer (status_api_error res 415 UNSUPPORTED_MEDIA_TYPE
                       (bs "Content-Type must be application/json") (Some id))
        else
          match body with
          | BodyTooLarge =>
              answer (status_api_error res 413 REQUEST_BODY_TOO_LARGE (bs "Request body too large") (Some id))
          | BodyBroken =>
              answer (status_api_error res 400 INVALID_REQUEST_BODY (bs "Invalid request body") (Some id))
          | BodyBytes body =>
              do begun <- srv_begin (operation_key sha256 owner id)
                (fingerprint sha256 [bs "POST"; endpoint; body]);
              match begun with
              | Err message => ret (failed message)
              | Ok (BeginStarted guard) => dispatch_mutation endpoint owner body (Some (id, guard)) res
              | Ok other =>
                  match apply_begin res id other with
                  | Some r => answer r
                  | None => ret (Err (HandlerFail Panic))
                  end
              end
          end
    end.
End handlers.
