(* ===== verification/BrowserApiFacts.v ===== *)
(** What the browser mutations do, whatever the kernel, the state store and the
    path coordinator answer: when they touch the tree, and that what they tell
    the client is what they recorded. *)

From S2P Require Import Prelude Bytes StdPath Utils StoreModel Http UuidText Problem InternalNames PathPolicy UploadProtocol Registry Revisions Listing RootedOs RootedFs RootedFsSafety ServerHost BrowserApi.
From stdpp Require Import base numbers list strings sets.

Local Open Scope Z_scope.

(** ** Events *)

(** The tree is left alone. *)
Definition untouched (e : ServerEvent) : Prop :=
  match e with Kernel c => reads c | _ => True end.

(** Neither the tree nor the guard nor the lease is involved. *)
Definition passive (e : ServerEvent) : Prop :=
  match e with Kernel c => reads c | ScanState _ _ => True | _ => False end.

(** Does not end the life of a guard. *)
Definition keeps_guard (e : ServerEvent) : Prop :=
  match e with CompleteOp _ _ _ | AbandonOp _ => False | _ => True end.

Lemma passive_untouched l : Forall passive l -> Forall untouched l.
Proof. intros Hl. apply (Forall_impl _ _ _ Hl). by intros []. Qed.
Lemma passive_keeps l : Forall passive l -> Forall keeps_guard l.
Proof. intros Hl. apply (Forall_impl _ _ _ Hl). by intros []. Qed.
Lemma kernel_keeps calls : Forall keeps_guard (map Kernel calls).
Proof. by induction calls; constructor. Qed.
Lemma kernel_passive calls : Forall reads calls -> Forall passive (map Kernel calls).
Proof. induction 1; by constructor. Qed.
Lemma passive_holds l lease : Forall passive l -> ReleaseLease lease ∉ l.
Proof. intros Hl Hin. by apply (proj1 (Forall_forall _ _) Hl) in Hin. Qed.

Section contract.
Context `{UuidLib} `{HttpTypes}.

(** How the life of the guard of operation [id] ends, and what the client hears
    then: a recorded outcome is the one reported; an operation that is given up
    is reported as rejected; and when recording fails, the request fails. *)
Inductive closing (guard : OperationGuard) (id : bytes) : result HandlerError Response -> list ServerEvent -> Prop :=
| closing_recorded outcome r :
    (forall res', r = Ok res' -> exists res, apply_operation_outcome res id outcome false = Ok res') ->
    closing guard id r [CompleteOp guard outcome (Ok tt)]
| closing_failed outcome f :
    closing guard id (Err (HandlerFail f)) [CompleteOp guard outcome (Err f); AbandonOp guard]
| closing_given_up r :
    (forall res', r = Ok res' -> exists res error, reject res error (Some id) = Ok res') ->
    closing guard id r [AbandonOp guard].

(** The guard is closed exactly once; an operation the client is told was
    rejected has left the tree alone. *)
Definition reported (guard : OperationGuard) (id : bytes) (r : result HandlerError Response)
    (events : list ServerEvent) : Prop :=
  exists before c after, events = before ++ c ++ after /\
    Forall keeps_guard before /\ Forall keeps_guard after /\ closing guard id r c /\
    (c = [AbandonOp guard] -> (exists res', r = Ok res') -> Forall untouched events).

(** The tree is left alone, or there is one commit: after the lease on [paths]
    was granted and no conflicting durable state was found, once the start of
    the commit is recorded; the lease is held until the commit is over.  [Q]
    speaks of the calls of the commit and the outcome that was to be recorded. *)
Definition commits_once (guard : OperationGuard) (paths : list bytes)
    (Q : option OperationOutcome -> list SysCall -> Prop) (events : list ServerEvent) : Prop :=
  Forall untouched events \/
  exists before calls after lease outcome,
    events = before ++ MarkStarted guard (Ok tt) :: map Kernel calls ++ after /\
    Forall untouched before /\ Forall untouched after /\
    AcquireLease paths (Some lease) ∈ before /\ (ReleaseLease lease ∉ before) /\ ReleaseLease lease ∈ after /\
    ScanState paths (Ok false) ∈ before /\
    Q outcome calls /\
    (forall o, outcome = Some o -> exists answer, CompleteOp guard o answer ∈ after) /\
    (outcome = None -> AbandonOp guard ∈ after).

(** ** Checks *)

Definition vetted (guard : OperationGuard) (id : bytes) {A} (R : A -> list ServerEvent -> Prop)
    (c : Checked A) (l : list ServerEvent) : Prop :=
  match c with
  | Pass _ a => Forall passive l /\ R a l
  | Broken _ _ => Forall passive l
  | Answered _ r => exists l1 l2, l = l1 ++ l2 /\ Forall passive l1 /\ closing guard id r l2
  end.

Lemma vetted_prefix guard id {A} (R R' : A -> list ServerEvent -> Prop) c l l' :
  Forall passive l -> (forall a, R' a l' -> R a (l ++ l')) -> vetted guard id R' c l' -> vetted guard id R c (l ++ l').
Proof.
  intros Hl HR. destruct c as [a|r|e]; cbn.
  - intros [Hl' Ha]. split; [by apply Forall_app|auto].
  - intros (l1 & l2 & -> & H1 & H2). exists (l ++ l1), l2. rewrite app_assoc. split_and!; [done|by apply Forall_app|done].
  - intros Hl'. by apply Forall_app.
Qed.
End contract.

Section checks.
Context {Env : Type} `{Os Env} `{Host Env} `{UuidLib} `{HttpTypes} (sha256 : bytes -> bytes) (fs : RootedFs)
  (guard : OperationGuard) (id : bytes).

Lemma spec_check {A B} (m : Srv Env (Checked A)) (k : A -> Srv Env (Checked B)) R1 R :
  spec m (vetted guard id R1) ->
  (forall a l, R1 a l -> spec (k a) (vetted guard id (λ b l', R b (l ++ l')))) ->
  spec (bind_checked m k) (vetted guard id R).
Proof.
  intros Hm Hk. eapply spec_bind; [exact Hm|]. intros [a|r|e] l Hl.
  - destruct Hl as [Hl Ha]. eapply spec_weaken; [by apply Hk|]. intros c l' Hc.
    eapply vetted_prefix; [done| |exact Hc]. done.
  - apply spec_ret. by rewrite app_nil_r.
  - apply spec_ret. by rewrite app_nil_r.
Qed.

(** [do x <- kernel m; k] inside the checks, for an [m] that only looks. *)
Lemma spec_look {A B} (m : Sys Env A) (k : A -> Srv Env (Checked B)) R :
  emits reads m -> (forall a l, spec (k a) (vetted guard id (λ b l', R b (l ++ l')))) ->
  spec (bind (kernel m) k) (vetted guard id R).
Proof.
  intros Hm Hk. eapply spec_bind_kernel; [exact Hm|]. intros a calls Hc.
  eapply spec_weaken; [apply (Hk a (map Kernel calls))|]. intros c l' Hv.
  eapply vetted_prefix; [by apply kernel_passive| |exact Hv]. done.
Qed.

Lemma spec_checked_io {A} (m : Io Env A) (R : A -> list ServerEvent -> Prop) :
  emits reads m -> (forall a l, R a l) -> spec (checked_io m) (vetted guard id R).
Proof.
  intros Hm HR. apply spec_look; [done|]. intros [a|e] l; apply spec_ret; [|by constructor]. by split.
Qed.

Lemma spec_checked_result {A} (r : result HandlerError A) (R : A -> list ServerEvent -> Prop) :
  (forall a, r = Ok a -> R a []) -> spec (checked_result r : Srv Env _) (vetted guard id R).
Proof. intros HR. apply spec_ret. destruct r; [by split; [|apply HR]|by constructor]. Qed.

Lemma spec_settle outcome :
  spec (settle (Some guard) outcome) (λ r l,
    (r = Ok tt /\ l = [CompleteOp guard outcome (Ok tt)]) \/
    (exists f, r = Err (HandlerFail f) /\ l = [CompleteOp guard outcome (Err f); AbandonOp guard])).
Proof.
  unfold settle, drop_operation. apply spec_bind_call. intros [[]|f].
  - apply spec_ret. auto.
  - apply spec_bind_call. intros []. apply spec_ret. eauto.
Qed.

Lemma spec_finish_api_error res status error :
  spec (finish_api_error (Some (id, guard)) res status error) (closing guard id).
Proof.
  unfold finish_api_error. eapply spec_bind_ok; [apply spec_settle| |].
  - intros [] l [[_ ->]|(f & [=] & _)]. apply spec_ret. rewrite app_nil_r.
    apply closing_recorded. intros res' E. exists res. by destruct (apply_operation_outcome _ _ _ _); simplify_eq/=.
  - intros e l [[[=] _]|(f & [= ->] & ->)]. constructor.
Qed.

Lemma spec_finish {A} res status error (R : A -> list ServerEvent -> Prop) :
  spec (finish (Some (id, guard)) res status error) (vetted guard id R).
Proof.
  eapply spec_bind; [apply spec_finish_api_error|]. intros r l Hl. apply spec_ret.
  exists [], l. rewrite app_nil_r. by split_and!.
Qed.

Lemma spec_decline {A} res error (R : A -> list ServerEvent -> Prop) :
  spec (decline (Some (id, guard)) (reject res error (Some id))) (vetted guard id R).
Proof.
  unfold decline, drop_operation. apply spec_bind_call. intros []. apply spec_ret.
  exists [], [AbandonOp guard]. split_and!; [done..|]. apply closing_given_up. intros res' E.
  exists res, error. by destruct (reject _ _ _); simplify_eq/=.
Qed.

(** *** Calls that only look *)

Lemma guard_root_reads path : emits reads (guard_root_contained fs path).
Proof.
  unfold guard_root_contained. apply emits_bind; [apply metadata_reads|]. emits_auto.
Qed.
End checks.

(** ** Checks, then a commit *)

Section commits.
Context {Env : Type} `{Os Env} `{Host Env} `{UuidLib} `{HttpTypes} (guard : OperationGuard) (id : bytes)
  (lease : Z) (paths : list bytes) (Q : option OperationOutcome -> list SysCall -> Prop).

(** The detached task: [out] is the outcome recorded for its result. *)
Definition task_ok {T} (out : T -> OperationOutcome) (r : result HandlerError T) (l : list ServerEvent) : Prop :=
  (exists m e, l = [MarkStarted guard (Err m); ReleaseLease lease; AbandonOp guard] /\ r = Err e) \/
  exists calls tail outcome, l = MarkStarted guard (Ok tt) :: map Kernel calls ++ tail /\ Q outcome calls /\
    ((exists e, outcome = None /\ tail = [ReleaseLease lease; AbandonOp guard] /\ r = Err e) \/
     (exists t, outcome = Some (out t) /\ tail = [CompleteOp guard (out t) (Ok tt); ReleaseLease lease] /\ r = Ok t) \/
     (exists t f, outcome = Some (out t) /\
        tail = [CompleteOp guard (out t) (Err f); AbandonOp guard; ReleaseLease lease] /\ r = Err (HandlerFail f))).

(** The response to a task that recorded [outcome]. *)
Definition responds (outcome : OperationOutcome) (r : result HandlerError Response) (l : list ServerEvent) : Prop :=
  exists looks, l = map Kernel looks /\ Forall reads looks /\
    forall res', r = Ok res' -> exists res, apply_operation_outcome res id outcome false = Ok res'.

Definition handled (r : result HandlerError Response) (events : list ServerEvent) : Prop :=
  reported guard id r events /\ commits_once guard paths Q events.

Lemma handled_untouched before c after r events :
  events = before ++ c ++ after -> Forall keeps_guard before -> Forall keeps_guard after ->
  closing guard id r c -> Forall untouched events -> handled r events.
Proof. intros E Hb Ha Hc Hu. split; [|by left]. exists before, c, after. by split_and!. Qed.

(** The calls after the checks, of a task that never started. *)
Lemma handled_not_started l m r :
  Forall passive l -> (exists e, r = Err e) -> Forall keeps_guard m -> Forall untouched m ->
  handled r (AcquireLease paths (Some lease) :: l ++ m ++ [ReleaseLease lease; AbandonOp guard]).
Proof.
  intros Hl [e ->] Hk Hm. eapply (handled_untouched (AcquireLease paths (Some lease) :: l ++ m ++ [ReleaseLease lease])
    [AbandonOp guard] []).
  - rewrite app_nil_r. cbn. by rewrite <- !app_assoc.
  - constructor; [done|]. rewrite !Forall_app. split_and!; [by apply passive_keeps|done|by constructor].
  - done.
  - by constructor.
  - constructor; [done|]. rewrite !Forall_app. split_and!; [by apply passive_untouched|done|by repeat constructor].
Qed.

Lemma kernel_untouched looks : Forall reads looks -> Forall untouched (map Kernel looks).
Proof. intros Hl. by apply passive_untouched, kernel_passive. Qed.

(** A task that started, with the response of the handler. *)
Lemma handled_started l calls tail outcome looks r :
  Forall passive l -> ScanState paths (Ok false) ∈ l -> Q outcome calls -> Forall reads looks ->
  ((exists e, outcome = None /\ tail = [ReleaseLease lease; AbandonOp guard] /\ r = Err e) \/
   (exists o, outcome = Some o /\ tail = [CompleteOp guard o (Ok tt); ReleaseLease lease] /\
      forall res', r = Ok res' -> exists res, apply_operation_outcome res id o false = Ok res') \/
   (exists o f, outcome = Some o /\ tail = [CompleteOp guard o (Err f); AbandonOp guard; ReleaseLease lease] /\
      r = Err (HandlerFail f))) ->
  handled r (AcquireLease paths (Some lease) :: l ++ AdmitCommit true :: MarkStarted guard (Ok tt) ::
    map Kernel calls ++ tail ++ map Kernel looks).
Proof.
  intros Hl Hs HQ Hlooks Htail.
  set (before := AcquireLease paths (Some lease) :: l ++ [AdmitCommit true]).
  assert (AcquireLease paths (Some lease) :: l ++ AdmitCommit true :: MarkStarted guard (Ok tt) ::
    map Kernel calls ++ tail ++ map Kernel looks =
    before ++ MarkStarted guard (Ok tt) :: map Kernel calls ++ (tail ++ map Kernel looks)) as ->
    by (unfold before; cbn; by rewrite <- app_assoc).
  assert (Forall keeps_guard (before ++ MarkStarted guard (Ok tt) :: map Kernel calls)) as Hk.
  { unfold before. rewrite Forall_app. split; [|constructor; [done|apply kernel_keeps]].
    constructor; [done|]. rewrite Forall_app. split; [by apply passive_keeps|by repeat constructor]. }
  pose proof (kernel_untouched looks Hlooks) as Hu. pose proof (kernel_keeps looks) as Hlk.
  assert (reported guard id r (before ++ MarkStarted guard (Ok tt) :: map Kernel calls ++ (tail ++ map Kernel looks))) as Hrep.
  { destruct Htail as [(e & -> & -> & ->)|[(o & -> & -> & Hr)|(o & f & -> & -> & ->)]].
    - exists (before ++ MarkStarted guard (Ok tt) :: map Kernel calls ++ [ReleaseLease lease]), [AbandonOp guard],
        (map Kernel looks). split_and!.
      + rewrite <- !app_assoc. cbn. rewrite <- !app_assoc. done.
      + rewrite app_comm_cons, app_assoc. rewrite Forall_app. split; [done|by repeat constructor].
      + done.
      + by constructor.
      + intros _ [res' [=]].
    - exists (before ++ MarkStarted guard (Ok tt) :: map Kernel calls), [CompleteOp guard o (Ok tt)],
        (ReleaseLease lease :: map Kernel looks). split_and!; [by rewrite <- !app_assoc|done|by constructor|by constructor|done].
    - exists (before ++ MarkStarted guard (Ok tt) :: map Kernel calls),
        [CompleteOp guard o (Err f); AbandonOp guard], (ReleaseLease lease :: map Kernel looks).
      split_and!; [by rewrite <- !app_assoc|done|by constructor|constructor|done]. }
  split; [done|]. right. exists before, calls, (tail ++ map Kernel looks), lease, outcome.
  split; [done|]. split.
  { unfold before. constructor; [done|]. rewrite Forall_app. split; [by apply passive_untouched|by repeat constructor]. }
  assert (Forall untouched tail /\ ReleaseLease lease ∈ tail /\
    (forall o, outcome = Some o -> exists answer, CompleteOp guard o answer ∈ tail) /\
    (outcome = None -> AbandonOp guard ∈ tail)) as (Ht & Hrel & Hcomp & Hab).
  { destruct Htail as [(e & -> & -> & _)|[(o & -> & -> & _)|(o & f & -> & -> & _)]]; split_and!;
      try (by intros _; set_solver); try (by repeat constructor); try set_solver;
      intros o' [= <-]; eexists; set_solver. }
  split; [by apply Forall_app|]. split; [left|]. split.
  { unfold before. rewrite not_elem_of_cons, not_elem_of_app. split; [done|]. split; [by apply passive_holds|set_solver]. }
  split; [set_solver|]. split; [unfold before; set_solver|]. split; [done|]. split.
  - intros o Ho. destruct (Hcomp o Ho) as [answer ?]. exists answer. set_solver.
  - intros Ho. specialize (Hab Ho). set_solver.
Qed.

(** A task in the commit queue; a closed admission drops it. *)
Lemma run_commit_spec {T} (task : Srv Env (result HandlerError T)) P :
  spec task P ->
  spec (run_operation_commit lease (Some guard) task) (λ r c,
    (exists e, r = Err e /\ c = [AdmitCommit false; ReleaseLease lease; AbandonOp guard]) \/
    (exists c', c = AdmitCommit true :: c' /\ P r c')).
Proof.
  intros Htask. unfold run_operation_commit, srv_admit, srv_release, drop_operation. apply spec_bind_call. intros [].
  - eapply spec_weaken; [exact Htask|]. intros r c Hc. right. by exists c.
  - apply spec_bind_call. intros []. apply spec_bind_call. intros []. apply spec_ret. left. by eexists.
Qed.

(** The whole of a handler once the lease is granted. *)
Lemma checked_commit_spec {A T} (checks : Srv Env (Checked A)) (R : A -> Prop)
    (task : A -> Srv Env (result HandlerError T)) (out : T -> OperationOutcome)
    (respond : A -> T -> Srv Env (result HandlerError Response)) :
  spec checks (vetted guard id (λ a l, ScanState paths (Ok false) ∈ l /\ R a)) ->
  (forall a, R a -> spec (task a) (task_ok out)) ->
  (forall a t, spec (respond a t) (responds (out t))) ->
  spec (checked_commit lease (Some (id, guard)) checks (λ a,
      attempt t <- run_operation_commit lease (Some guard) (task a); respond a t))
    (λ r l, handled r (AcquireLease paths (Some lease) :: l)).
Proof.
  intros Hchecks Htask Hrespond. eapply spec_bind; [exact Hchecks|]. intros [a|r|e] l Hl; cbn in Hl.
  - destruct Hl as [Hl [Hscan HR]].
    eapply spec_bind_ok; [apply (run_commit_spec _ (task_ok out)); by apply Htask| |].
    + intros t c [(e & [=] & _)|(c' & -> & [(m & e & _ & [=])|(calls & tail & outcome & -> & HQ & Ht)])].
      destruct Ht as [(e & _ & _ & [=])|[(t' & -> & -> & [= <-])|(t' & f & _ & _ & [=])]].
      eapply spec_weaken; [apply Hrespond|]. intros r c (looks & -> & Hlooks & Hr). cbn. rewrite <- app_assoc.
      eapply (handled_started l calls [_; _] (Some (out t)) looks); [done..|]. right; left. eauto.
    + intros e c [(e' & _ & ->)|(c' & -> & [(m & e' & -> & _)|(calls & tail & outcome & -> & HQ & Ht)])].
      * apply (handled_not_started l [AdmitCommit false]); [done|by eauto|by repeat constructor|by repeat constructor].
      * apply (handled_not_started l [AdmitCommit true; MarkStarted guard (Err m)]);
          [done|by eauto|by repeat constructor|by repeat constructor].
      * pose proof (handled_started l calls tail outcome [] (Err e) Hl Hscan HQ (Forall_nil_2 _)) as Hh.
        rewrite app_nil_r in Hh. apply Hh. destruct Ht as [(e' & -> & -> & _)|[(t' & _ & _ & [=])|(t' & f & -> & -> & [= ->])]].
        -- left. eauto.
        -- right; right. eauto.
  - destruct Hl as (l1 & l2 & -> & H1' & Hc). unfold srv_release. apply spec_bind_call. intros []. apply spec_ret.
    eapply (handled_untouched (AcquireLease paths (Some lease) :: l1) l2 [ReleaseLease lease]).
    + cbn. by rewrite <- app_assoc.
    + constructor; [done|by apply passive_keeps].
    + by repeat constructor.
    + done.
    + constructor; [done|]. rewrite !Forall_app. split_and!; [by apply passive_untouched| |by repeat constructor].
      destruct Hc; by repeat constructor.
  - unfold srv_release, drop_operation. apply spec_bind_call. intros []. apply spec_bind_call. intros [].
    apply spec_ret. by apply (handled_not_started l []); eauto.
Qed.
End commits.

(** ** Moving and renaming *)

Section relocation.
Context {Env : Type} `{Os Env} `{Host Env} `{UuidLib} `{HttpTypes} (sha256 : bytes -> bytes)
  (fs : RootedFs) (guard : OperationGuard) (id : bytes).

Lemma spec_checked_pure {A} (r : result IoError A) :
  spec (checked_io (ret r) : Srv Env (Checked A)) (vetted guard id (λ a _, r = Ok a)).
Proof.
  eapply spec_bind_kernel; [apply (spec_ret r (λ a c, a = r /\ c = [])); done|].
  intros a calls [-> ->]. apply spec_ret. destruct r; by repeat constructor.
Qed.

Lemma spec_finish_revision {A} res name revision status error (R : A -> list ServerEvent -> Prop) :
  spec (finish_with_revision (Some (id, guard)) res name revision status error : Srv Env _) (vetted guard id R).
Proof.
  eapply (spec_check _ _ _ _ (λ _ _, True)); [by apply spec_checked_result|]. intros res' l _. apply spec_finish.
Qed.

(** What the plan of a commit says about the client's request. *)
Definition confirmed (request : RelocationRequest) (owner_id source_revision : bytes)
    (destination_revision : option bytes) (plan : RelocationPlan) : Prop :=
  relative_path fs (rr_source request) = Ok (pl_source_relative plan) /\
  target_revision sha256 owner_id (pl_source_relative plan) (pl_source_identity plan) = Some source_revision /\
  (rr_overwrite request = true ->
    relative_path fs (rr_destination request) = Ok (pl_destination_relative plan) /\
    target_revision sha256 owner_id (pl_destination_relative plan) (pl_destination_identity plan) =
      destination_revision).

Ltac settle_case := first [apply spec_finish | apply spec_finish_revision | by apply spec_ret; constructor].

Lemma destination_checks_spec request owner_id source_meta destination_revision res :
  spec (destination_checks sha256 fs request owner_id source_meta destination_revision (Some (id, guard)) res)
    (vetted guard id (λ p _, rr_overwrite request = true ->
      relative_path fs (rr_destination request) = Ok p.2 /\
      target_revision sha256 owner_id p.2 p.1 = destination_revision)).
Proof.
  unfold destination_checks. apply spec_look; [apply metadata_reads|]. intros [parent|e] l.
  2: { destruct (missing_kind e); settle_case. }
  destruct (negb (md_is_dir parent)); [settle_case|].
  eapply (spec_check _ _ _ _ (λ _ _, True)); [by apply spec_checked_io; [apply replacement_identity_reads|]|].
  intros i l1 _. eapply spec_check; [apply spec_checked_pure|]. intros relative l2 Hrel. cbv zeta.
  destruct (rr_overwrite request) eqn:Ho; cbn [andb].
  - destruct (negb (bool_decide _)) eqn:Hb; [settle_case|]. apply negb_false_iff in Hb. bool_prop.
    destruct (negb (identity_exists i)); [by apply spec_ret; split; [constructor|]|].
    eapply (spec_check _ _ _ _ (λ _ _, True)); [by apply spec_checked_io; [apply metadata_nofollow_reads|]|].
    intros meta l3 _. destruct (_ || _); [settle_case|]. cbn [negb].
    destruct (_ && _); [settle_case|]. by apply spec_ret; split; [constructor|].
  - destruct (negb (identity_exists i)); [by apply spec_ret; split; [constructor|]|].
    eapply (spec_check _ _ _ _ (λ _ _, True)); [by apply spec_checked_io; [apply metadata_nofollow_reads|]|].
    intros meta l3 _. destruct (_ || _); settle_case.
Qed.

Lemma state_checks_spec request res :
  spec (state_checks fs request (Some (id, guard)) res : Srv Env _)
    (vetted guard id (λ _ l, ScanState [rr_source request; rr_destination request] (Ok false) ∈ l)).
Proof.
  unfold state_checks. eapply (spec_check _ _ _ _ (λ _ _, True)); [by apply spec_checked_io; [apply guard_root_reads|]|].
  intros [] l _; [settle_case|]. unfold srv_scan. apply spec_bind_call. intros [[]|e].
  - eapply spec_weaken; [apply (spec_finish _ _ _ _ _ (λ _ _, False))|]. intros c l' Hv.
    by eapply (vetted_prefix _ _ _ _ _ [_]); [constructor| |exact Hv].
  - apply spec_ret. split; [by repeat constructor|]. set_solver.
  - eapply spec_weaken; [apply (spec_decline _ _ _ _ (λ _ _, False))|]. intros c l' Hv.
    by eapply (vetted_prefix _ _ _ _ _ [_]); [constructor| |exact Hv].
Qed.

Lemma either_escapes_spec source destination :
  spec (either_escapes fs source destination : Srv Env _) (vetted guard id (λ _ _, True)).
Proof.
  unfold either_escapes. eapply (spec_check _ _ _ _ (λ _ _, True)); [by apply spec_checked_io; [apply guard_root_reads|]|].
  intros [] l _; [by apply spec_ret; repeat constructor|]. by apply spec_checked_io; [apply guard_root_reads|].
Qed.

Lemma relocation_checks_spec request owner_id source_revision destination_revision res :
  spec (relocation_checks sha256 fs request owner_id source_revision destination_revision (Some (id, guard)) res)
    (vetted guard id (λ plan l, ScanState [rr_source request; rr_destination request] (Ok false) ∈ l /\
      confirmed request owner_id source_revision destination_revision plan)).
Proof.
  unfold relocation_checks. cbv zeta.
  eapply (spec_check _ _ _ _ (λ _ _, True)); [by apply spec_checked_io; [apply replacement_identity_reads|]|].
  intros i l _. eapply spec_check; [apply spec_checked_pure|]. intros relative l1 Hrel.
  destruct (negb (bool_decide _)) eqn:Hb; [settle_case|]. apply negb_false_iff in Hb. bool_prop.
  eapply spec_check; [apply either_escapes_spec|]. intros [] l2 _; [settle_case|].
  apply spec_look; [apply metadata_nofollow_reads|]. intros [meta|e] l3; [|destruct (bool_decide _); settle_case].
  destruct (_ && _); [settle_case|].
  eapply spec_check; [apply destination_checks_spec|]. intros [d drel] l4 Hd.
  eapply spec_check; [apply state_checks_spec|]. intros [] l5 Hscan. apply spec_ret. cbn. split; [constructor|].
  split; [set_solver|]. split_and!; done.
Qed.

(** The calls of the commit: a checked relocation of the confirmed entries; the
    outcome recorded is the one of the relocation. *)
Definition relocates (request : RelocationRequest) (owner_id source_revision : bytes)
    (destination_revision : option bytes) (recorded : option OperationOutcome) (calls : list SysCall) : Prop :=
  exists plan r, confirmed request owner_id source_revision destination_revision plan /\
    checked_relocation (pl_source_identity plan)
      (if rr_overwrite request then Some (pl_destination_identity plan) else None) r calls /\
    match recorded with
    | Some o => exists outcome, r = Ok outcome /\ o = relocation_result outcome
    | None => exists e, r = Err e
    end.

Lemma relocation_task_spec request plan lease owner_id source_revision destination_revision :
  confirmed request owner_id source_revision destination_revision plan ->
  spec (relocation_task fs request plan lease (Some guard))
    (task_ok guard lease (relocates request owner_id source_revision destination_revision) relocation_result).
Proof.
  intros Hplan. unfold relocation_task, mark_started, srv_release, drop_operation. apply spec_bind_assoc.
  apply spec_bind_call. intros [[]|m]; cbn [store_answer failed].
  2: { apply spec_bind_ret, spec_bind_call. intros []. apply spec_bind_call. intros []. apply spec_ret. left. eauto. }
  apply spec_bind_ret. eapply spec_bind_kernel; [apply (rename_if_unchanged_spec sha256)|]. intros [outcome|e] calls Hc.
  - eapply spec_bind; [apply spec_settle|]. intros settled c [[-> ->]|(f & -> & ->)];
      (apply spec_bind_call; intros []); apply spec_ret; right;
      eexists calls, _, (Some (relocation_result outcome)); rewrite <- ?app_assoc; (split; [reflexivity|]);
      (split; [exists plan, (Ok outcome); split; [exact Hplan|]; split; [exact Hc|by eauto]|]); right.
    + left. eauto.
    + right. exists outcome, f. done.
  - apply spec_bind_call. intros []. apply spec_bind_call. intros []. apply spec_ret. right.
    eexists calls, _, None. split; [reflexivity|]. split; [exists plan, (Err e); split; [exact Hplan|]; split; [exact Hc|by eauto]|].
    left. eauto.
Qed.


Lemma handler_fail_ok {A} (r : result Failure A) a : handler_fail r = Ok a -> r = Ok a.
Proof. by destruct r; intros [= ->]. Qed.

(** A response that is rendered without looking again. *)
Lemma responds_now out (r : result Failure Response) :
  (forall res', r = Ok res' -> exists res, apply_operation_outcome res id out false = Ok res') ->
  spec (ret (handler_fail r) : Srv Env _) (responds id out).
Proof. intros Hr. apply spec_ret. exists []. split_and!; [done..|]. intros res' E. apply Hr. by apply handler_fail_ok. Qed.

Lemma report_revision_spec res name path owner_id relative :
  spec (report_revision sha256 fs res name path owner_id relative)
    (λ _ l, exists looks, l = map Kernel looks /\ Forall reads looks).
Proof.
  eapply spec_bind_kernel; [apply replacement_identity_reads|]. intros r calls Hc. apply spec_ret.
  rewrite app_nil_r. eauto.
Qed.

Lemma relocation_response_spec request plan owner_id res outcome :
  spec (relocation_response sha256 fs request plan owner_id (Some id) res outcome)
    (responds id (relocation_result outcome)).
Proof.
  destruct outcome; cbn [relocation_response relocation_result render_completed_success render_completed_error];
    try (apply responds_now; eauto);
    (eapply spec_bind_ok; [apply report_revision_spec| |];
     [intros res1 l (looks & -> & Hl); apply spec_ret; rewrite app_nil_r; exists looks; split_and!; [done..|];
      intros res' E; exists res1; by apply handler_fail_ok
     |intros e l (looks & -> & Hl); exists looks; by split_and!]).
Qed.

Lemma handle_api_relocation_spec request owner res :
  spec (handle_api_relocation sha256 fs request owner (Some (id, guard)) res) (λ r events,
    exists source_revision destination_revision,
      handled guard id [rr_source request; rr_destination request]
        (relocates request (owner_persistent sha256 owner) source_revision destination_revision) r events /\
      (Forall untouched events \/ parse_revisions request = Ok (source_revision, destination_revision))).
Proof.
  unfold handle_api_relocation.
  assert (forall r l, closing guard id r l -> Forall untouched l /\ forall s d,
    handled guard id [rr_source request; rr_destination request]
      (relocates request (owner_persistent sha256 owner) s d) r l) as Hclosing.
  { intros r l Hc. assert (Forall untouched l) as Hu by (destruct Hc; by repeat constructor).
    split; [done|]. intros s d. apply (handled_untouched _ _ _ _ [] l []); rewrite ?app_nil_r; done. }
  assert (forall status error, spec (finish_api_error (Some (id, guard)) res status error : Srv Env _) (λ r events,
    exists s d, handled guard id [rr_source request; rr_destination request]
        (relocates request (owner_persistent sha256 owner) s d) r events /\
      (Forall untouched events \/ parse_revisions request = Ok (s, d)))) as Hfinish.
  { intros status error. eapply spec_weaken; [apply spec_finish_api_error|]. intros r l Hc.
    destruct (Hclosing r l Hc) as [Hu Hh]. exists [], None. auto. }
  destruct (parse_revisions request) as [[s d]|[status error]]; [|apply Hfinish].
  destruct (path_eqb _ _); [apply Hfinish|]. unfold srv_acquire, drop_operation. apply spec_bind_call.
  intros [lease|].
  - eapply spec_weaken; [apply (checked_commit_spec guard id lease [rr_source request; rr_destination request]
      (relocates request (owner_persistent sha256 owner) s d) _
      (confirmed request (owner_persistent sha256 owner) s d) _ relocation_result)|].
    + apply relocation_checks_spec.
    + intros plan Hplan. by apply relocation_task_spec.
    + intros plan t. apply relocation_response_spec.
    + intros r l Hh. exists s, d. auto.
  - apply spec_bind_call. intros []. apply spec_ret. exists s, d. split; [|by right].
    apply (handled_untouched _ _ _ _ [AcquireLease [rr_source request; rr_destination request] None] [AbandonOp guard] []);
      try by repeat constructor.
    apply closing_given_up. intros res' E. apply handler_fail_ok in E. unfold render_path_wait_limit in E. eauto.
Qed.

(** C11: a move or a rename touches the tree at most once, and only in its
    commit.  The commit starts after the request was granted the lease on both
    paths, the scan of the durable state found no obligation in the way and the
    start was recorded; the lease is held throughout.  The commit is a checked
    relocation of the very object whose revision the client sent, over nothing
    or over the very object whose revision the client confirmed, and what is
    recorded for the operation is the outcome of that relocation. *)
Theorem relocation_commits_what_was_confirmed request owner res :
  spec (handle_api_relocation sha256 fs request owner (Some (id, guard)) res) (λ _ events,
    Forall untouched events \/
    exists source_revision destination_revision,
      parse_revisions request = Ok (source_revision, destination_revision) /\
      commits_once guard [rr_source request; rr_destination request]
        (relocates request (owner_persistent sha256 owner) source_revision destination_revision) events).
Proof.
  eapply spec_weaken; [apply handle_api_relocation_spec|].
  intros r l (s & d & [_ Hc] & [Hu|Hp]); [by left|]. right. eauto.
Qed.

(** A move or a rename closes its operation exactly once, and the client is
    told what was recorded: a response comes either from the outcome that the
    store confirmed, or says that the request was rejected, and then the tree
    was not touched and the reservation is given up; when the outcome could not
    be recorded, the request fails instead of reporting it. *)
Theorem relocation_reports_what_was_recorded request owner res :
  spec (handle_api_relocation sha256 fs request owner (Some (id, guard)) res) (reported guard id).
Proof.
  eapply spec_weaken; [apply handle_api_relocation_spec|]. by intros r l (s & d & [Hr _] & _).
Qed.
End relocation.

(** ** Creating a directory *)

Section mkdir.
Context {Env : Type} `{Os Env} `{Host Env} `{UuidLib} `{HttpTypes} (fs : RootedFs) (policy : PathPolicy)
  (guard : OperationGuard) (id : bytes).

(** Creating directories, and removing empty ones again. *)
Definition builds (c : SysCall) : Prop :=
  match c with
  | Mkdirat _ _ mode _ => mode = 511
  | Unlinkat _ _ removedir _ => removedir = true
  | c => reads c
  end.

Lemma reads_builds c : reads c -> builds c.
Proof. by destruct c. Qed.

Lemma open_directory_builds relative : emits builds (open_directory_from_root fs relative).
Proof. eapply emits_impl; [exact reads_builds|apply open_directory_reads]. Qed.
#[local] Hint Resolve open_directory_builds : emits.

Lemma rollback_builds todo : emits builds (rollback_loop fs todo).
Proof.
  induction todo as [|ancestor todo IH]; cbn [rollback_loop]; [apply emits_ret|].
  apply emits_bind.
  { unfold open_parent_existing, open_parent_with, sys_dup. emits_auto.
    eapply emits_impl; [exact reads_builds|]. apply open_ancestors_reads, emits_ret. }
  unfold sys_statat, sys_unlinkat, sys_fsync. emits_auto.
Qed.

Lemma create_ancestor_builds rollback current prefix component created :
  (forall l, emits builds (rollback l)) -> emits builds (create_ancestor fs rollback current prefix component created).
Proof.
  intros Hr. unfold create_ancestor, sys_mkdirat, sys_fsync, sys_unlinkat, sys_statat. emits_auto; try apply Hr; done.
Qed.

Lemma open_ancestors_builds rollback create todo current prefix created :
  (forall l, emits builds (rollback l)) ->
  emits builds (open_ancestors fs rollback create todo current prefix created).
Proof.
  intros Hr. revert current prefix created. induction todo as [|c todo IH]; intros; cbn [open_ancestors]; [apply emits_ret|].
  destruct c; try apply emits_ret. apply emits_bind; [auto with emits|]. intros [next|e]; [apply IH|].
  destruct (_ && _).
  - apply emits_bind_ok; [by apply create_ancestor_builds|]. intros []. apply IH.
  - apply emits_bind; [apply Hr|]. intros. apply emits_ret.
Qed.

Lemma open_parent_builds path create : emits builds (open_parent_blocking fs path create).
Proof.
  unfold open_parent_blocking, open_parent_with, sys_dup. emits_auto.
  apply open_ancestors_builds. intros l. apply rollback_builds.
Qed.

(** A directory that is reported as created was made and its parent is durable. *)
Definition creates (recorded : option OperationOutcome) (calls : list SysCall) : Prop :=
  Forall builds calls /\
  match recorded with
  | Some o =>
      (o = success 201 /\
       exists before parent name, calls = before ++ [Mkdirat parent name 511 (Ok tt); Fsync parent (Ok tt)]) \/
      o = failure 409 PathExists
  | None => True
  end.

Lemma create_directory_spec path :
  spec (create_directory fs path) (λ r calls, Forall builds calls /\
    forall b, r = Ok b -> exists before parent name,
      calls = before ++ [Mkdirat parent name 511 (Ok tt); Fsync parent (Ok tt)]).
Proof.
  unfold create_directory, sys_mkdirat, sys_fsync. eapply spec_bind_ok; [apply open_parent_builds| |done].
  intros parent c Hc. apply spec_bind_call. intros [[]|e].
  - apply spec_attempt_call.
    + intros []. apply spec_ret. split; [rewrite Forall_app; by repeat constructor|]. eauto.
    + intros e. split; [rewrite Forall_app; by repeat constructor|done].
  - eapply spec_bind; [apply rollback_builds|]. intros r c' Hc'. apply spec_ret.
    split; [|done]. rewrite app_nil_r, Forall_app. split; [done|by constructor].
Qed.

Lemma mkdir_checks_spec path res :
  spec (mkdir_checks fs path (Some (id, guard)) res : Srv Env _)
    (vetted guard id (λ _ l, ScanState [path] (Ok false) ∈ l /\ True)).
Proof.
  unfold mkdir_checks. eapply (spec_check _ _ _ _ (λ _ _, True)); [by apply spec_checked_io; [apply guard_root_reads|]|].
  intros [] l _; [apply spec_finish|]. apply spec_look; [apply metadata_nofollow_reads|].
  intros [meta|e] l1; [apply spec_finish|]. destruct (negb _); [by apply spec_ret; constructor|].
  unfold srv_scan. apply spec_bind_call. intros [[]|e'].
  - eapply spec_weaken; [apply (spec_finish _ _ _ _ _ (λ _ _, False))|]. intros c l' Hv.
    by eapply (vetted_prefix _ _ _ _ _ [_]); [constructor| |exact Hv].
  - apply spec_ret. split; [by repeat constructor|]. set_solver.
  - eapply spec_weaken; [apply (spec_decline _ _ _ _ (λ _ _, False))|]. intros c l' Hv.
    by eapply (vetted_prefix _ _ _ _ _ [_]); [constructor| |exact Hv].
Qed.

Definition mkdir_result (created : bool) : OperationOutcome :=
  if created then success 201 else failure 409 PathExists.

Lemma mkdir_task_spec path lease :
  spec (mkdir_task fs path lease (Some guard)) (task_ok guard lease creates mkdir_result).
Proof.
  unfold mkdir_task, mark_started, srv_release, drop_operation. apply spec_bind_assoc.
  apply spec_bind_call. intros [[]|m]; cbn [store_answer failed].
  2: { apply spec_bind_ret, spec_bind_call. intros []. apply spec_bind_call. intros []. apply spec_ret. left. eauto. }
  apply spec_bind_ret. eapply spec_bind_kernel; [apply create_directory_spec|]. intros r calls [Hb Hok].
  assert (forall created, creates (Some (mkdir_result created)) calls ->
    spec (do settled <- settle (Some guard) (mkdir_result created);
          do _ <- syscall (host_release lease) (λ _, ReleaseLease lease);
          ret (match settled with Ok _ => Ok created | Err e => Err e end) : Srv Env _)
      (λ b events, task_ok guard lease creates mkdir_result b
         (MarkStarted guard (Ok tt) :: map Kernel calls ++ events))) as Hsettle.
  { intros created Hq. eapply spec_bind; [apply spec_settle|]. intros settled c [[-> ->]|(f & -> & ->)];
      (apply spec_bind_call; intros []); apply spec_ret; right;
      eexists calls, _, (Some (mkdir_result created)); (split; [reflexivity|]); (split; [done|]); right.
    - left. by exists created.
    - right. by exists created, f. }
  destruct r as [b|e].
  - apply (Hsettle true). split; [done|]. left. split; [done|]. by eapply Hok.
  - destruct (bool_decide _).
    + apply (Hsettle false). split; [done|by right].
    + apply spec_bind_call. intros []. apply spec_bind_call. intros []. apply spec_ret. right.
      eexists calls, _, None. split; [reflexivity|]. split; [done|]. left. eauto.
Qed.

Lemma closing_handled paths Q r l : closing guard id r l -> handled guard id paths Q r l.
Proof.
  intros Hc. apply (handled_untouched _ _ _ _ [] l []); rewrite ?app_nil_r; try done. destruct Hc; by repeat constructor.
Qed.

Lemma handle_api_mkdir_spec request res :
  spec (handle_api_mkdir fs policy request (Some (id, guard)) res : Srv Env _) (λ r events,
    match resolve_browser_path policy (mk_path request) with
    | Some path => handled guard id [path] creates r events
    | None => closing guard id r events
    end).
Proof.
  unfold handle_api_mkdir. destruct (resolve_browser_path policy (mk_path request)) as [path|]; [|apply spec_finish_api_error].
  unfold srv_acquire, drop_operation. apply spec_bind_call. intros [lease|].
  - eapply spec_weaken; [apply (checked_commit_spec guard id lease [path] creates _ (λ _, True) _ mkdir_result)|].
    + apply mkdir_checks_spec.
    + intros [] _. apply mkdir_task_spec.
    + intros [] created. apply responds_now. destruct created; cbn; eauto.
    + done.
  - apply spec_bind_call. intros []. apply spec_ret.
    apply (handled_untouched _ _ _ _ [AcquireLease [path] None] [AbandonOp guard] []); try by repeat constructor.
    apply closing_given_up. intros res' E. apply handler_fail_ok in E. unfold render_path_wait_limit in E. eauto.
Qed.

(** Creating a directory follows the same protocol as a relocation: one
    commit, under a lease on the path and after the durable state was found
    free, whose calls only create directories and remove empty ones again; the
    operation is closed exactly once and the client is told what was recorded.
    A recorded success means that the directory was made and its parent is
    durable. *)
Theorem mkdir_is_tracked request res :
  spec (handle_api_mkdir fs policy request (Some (id, guard)) res : Srv Env _) (λ r events,
    reported guard id r events /\
    match resolve_browser_path policy (mk_path request) with
    | Some path => commits_once guard [path] creates events
    | None => Forall untouched events
    end).
Proof.
  eapply spec_weaken; [apply handle_api_mkdir_spec|]. intros r l.
  destruct (resolve_browser_path policy (mk_path request)) as [path|]; [done|].
  intros Hc. split; [by apply (closing_handled [] (λ _ _, True))|]. destruct Hc; by repeat constructor.
Qed.
End mkdir.

(** ** The endpoint *)

Section endpoint.
Context {Env : Type} `{Os Env} `{Host Env} `{UuidLib} `{HttpTypes} `{RequestCodec} (sha256 : bytes -> bytes)
  (fs : RootedFs) (policy : PathPolicy).

Lemma closing_reported guard id (r : result HandlerError Response) l : closing guard id r l -> reported guard id r l.
Proof. intros Hc. by destruct (closing_handled guard id [] (λ _ _, True) r l Hc). Qed.

Lemma relocation_reported guard id request owner res :
  spec (handle_api_relocation sha256 fs request owner (Some (id, guard)) res : Srv Env _) (reported guard id).
Proof. eapply spec_weaken; [apply handle_api_relocation_spec|]. by intros r l (s & d & [Hr _] & _). Qed.

Lemma finish_reported guard id res status error :
  spec (finish_api_error (Some (id, guard)) res status error : Srv Env _) (reported guard id).
Proof. eapply spec_weaken; [apply spec_finish_api_error|]. intros r l. apply closing_reported. Qed.

Lemma dispatch_reported endpoint owner body guard id res :
  spec (dispatch_mutation sha256 fs policy endpoint owner body (Some (id, guard)) res : Srv Env _) (reported guard id).
Proof.
  unfold dispatch_mutation, handle_api_move, handle_api_rename.
  repeat (first [apply finish_reported | apply relocation_reported |
    match goal with |- spec (match ?x with _ => _ end) _ => destruct x end]).
  - eapply spec_weaken; [apply handle_api_mkdir_spec|]. intros r l.
    destruct (resolve_browser_path _ _); [by intros [? _]|apply closing_reported].
  - unfold drop_operation. apply spec_bind_call. intros []. apply spec_ret. apply closing_reported.
    by constructor.
Qed.

(** A tracked mutation asks the registry first, for the operation named in
    the request and with the fingerprint of the endpoint and the body.  Nothing
    happens before; if the registry does not start the operation, nothing
    happens at all and the client gets the registry's answer (a repeated request
    gets the recorded outcome); if it does, the operation is closed exactly once
    and the client is told what was recorded. *)
Theorem mutation_asks_registry_first endpoint owner headers body res :
  spec (handle_browser_api sha256 fs policy endpoint owner headers body res : Srv Env _) (λ r events,
    events = [] \/
    exists id contents answer rest,
      parse_operation_id headers = Ok (Some id) /\ body = BodyBytes contents /\
      events = BeginOp (operation_key sha256 owner id) (fingerprint sha256 [bs "POST"; endpoint; contents]) answer :: rest /\
      match answer with
      | Ok (BeginStarted guard) => reported guard id r rest
      | Ok other => rest = [] /\ exists told, apply_begin res id other = Some told /\ r = handler_fail told
      | Err message => rest = [] /\ r = failed message
      end).
Proof.
  unfold handle_browser_api. cbv zeta. destruct (negb _); [by apply spec_ret; left|].
  destruct (parse_operation_id headers) as [[id|]|m] eqn:Eid; try by apply spec_ret; left.
  destruct (negb _); [by apply spec_ret; left|].
  destruct body as [contents| |]; try by apply spec_ret; left.
  unfold srv_begin. apply spec_bind_call. intros [b|m].
  2: { apply spec_ret. right. do 4 eexists. split; [done|]. split; [done|]. split; [reflexivity|done]. }
  destruct b as [guard| |outcome| | |].
  1: { eapply spec_weaken; [apply dispatch_reported|]. intros r l Hl. right. do 4 eexists.
       split; [done|]. split; [done|]. split; [reflexivity|]. exact Hl. }
  all: apply spec_ret; right; do 4 eexists; (split; [done|]); (split; [done|]); (split; [reflexivity|]);
    (split; [done|]); eexists; split; reflexivity.
Qed.
End endpoint.
