(* ===== verification/Delete.v ===== *)
(** Deleting ([src/src/server/delete.rs]) with the preparation of its durable
    purge intent ([src/src/server/purge.rs]).

    The handler owns the path lease and the operation's guard.  Its commit
    records the intent to purge, moves the entry to the trash name the intent
    carries, and only then lets the purge worker see it; a commit that fails
    after the intent was recorded hands the intent to reconciliation. *)

From S2P Require Import Prelude Bytes StdPath Utils StoreModel Http UuidText Problem InternalNames UploadProtocol Registry Revisions Listing RootedOs RootedFs RootedFsSafety ServerHost BrowserApi BrowserApiFacts.
From stdpp Require Import base numbers list strings sets.
Import ErrorCode.

Local Open Scope Z_scope.

Record PreparedPurge := mkPrepared {
  pp_key : PurgeJobKey;
  pp_trash_id : bytes;
  pp_source_identity : DeleteIdentity
}.

Inductive PreparePurge := Prepared (p : PreparedPurge) | PurgeFull.

Inductive DeleteCommitOutcome :=
| Succeeded
| Rejected (outcome : OperationOutcome)
| DeleteTargetChangedOutcome (outcome : OperationOutcome) (revision : option bytes).

Record DeleteRequest := mkDelete {
  dr_owner : bytes;
  dr_path : bytes;
  dr_expected_revision_identity : ReplacementTargetIdentity;
  dr_expected_delete_identity : DeleteIdentity;
  dr_path_lease : Z;
  dr_operation_id : bytes;
  dr_operation : OperationGuard
}.

Section delete.
Context {Env : Type} `{Os Env} `{Host Env} `{UuidLib} `{HttpTypes} (sha256 : bytes -> bytes) (fs : RootedFs).

Definition purge_job (key : PurgeJobKey) (target_path trash_path : bytes) (i : DeleteIdentity) : StoredPurgeJob :=
  mkPurge key target_path trash_path (mkIdentity (di_device i) (di_inode i)) None (di_is_directory i) PPrepared 0.

(** [?] on a pure I/O result. *)
Definition io_result {A} (r : result IoError A) : result HandlerError A :=
  match r with Ok a => Ok a | Err e => Err (HandlerIo e) end.

Fixpoint prepare_attempts (attempts : nat) (owner_id target target_path : bytes) (i : DeleteIdentity)
    : Srv Env (result HandlerError PreparePurge) :=
  match attempts with
  | O => ret (failed (bs "failed to allocate a unique durable purge identifier"))
  | S attempts =>
      do trash_id <- kernel sys_new_uuid;
      attempt trash_path <- ret (io_result (trash_path_for_id fs target trash_id));
      attempt trash_path <- ret (io_result (relative_path fs trash_path));
      let key := mkStoreKey owner_id trash_id in
      do inserted <- srv_prepare_purge (purge_job key target_path trash_path i);
      match inserted with
      | Err message => ret (failed message)
      | Ok JInserted => ok (Prepared (mkPrepared key trash_id i))
      | Ok JFull => ok PurgeFull
      | Ok (JExisting | JConflict) => prepare_attempts attempts owner_id target target_path i
      end
  end.

Definition prepare_purge_with_identity (owner target : bytes) (i : DeleteIdentity)
    : Srv Env (result HandlerError PreparePurge) :=
  attempt target_path <- ret (io_result (relative_path fs target));
  prepare_attempts 16 (owner_persistent sha256 owner) target target_path i.

(** [remove_purge_job(key).await?], which must find the intent. *)
Definition forget_intent (key : PurgeJobKey) (message : bytes) : Srv Env (result HandlerError unit) :=
  do removed <- srv_remove_purge key;
  ret (match removed with
       | Err m => failed m
       | Ok false => failed message
       | Ok true => Ok tt
       end).

(** An error while the inner future owns lease and guard; [held] tells whether
    the guard has not been consumed. *)
Definition break_off {A} (lease : Z) (guard : OperationGuard) (held : bool) (e : HandlerError)
    : Srv Env (result HandlerError A) :=
  do _ <- srv_release lease;
  do _ <- drop_operation (if held then Some guard else None);
  fail e.

(** The current revision of a target that changed. *)
Definition changed_revision (owner path : bytes) : Srv Env (result HandlerError (option bytes)) :=
  attempt relative <- ret (io_result (relative_path fs path));
  do found <- kernel (replacement_identity_blocking fs path);
  ok (match found with
      | Ok i => target_revision sha256 (owner_persistent sha256 owner) relative i
      | Err _ => None
      end).

Definition target_changed (request : DeleteRequest) (key : PurgeJobKey)
    : Srv Env (result HandlerError DeleteCommitOutcome) :=
  let lease := dr_path_lease request in
  let guard := dr_operation request in
  let outcome := failure 412 DeleteTargetChanged in
  do forgotten <- forget_intent key (bs "durable purge intent disappeared before known rejection");
  match forgotten with
  | Err e => break_off lease guard true e
  | Ok _ =>
      do settled <- settle (Some guard) outcome;
      match settled with
      | Err e => break_off lease guard false e
      | Ok _ =>
          do revision <- changed_revision (dr_owner request) (dr_path request);
          match revision with
          | Err e => break_off lease guard false e
          | Ok revision => do _ <- srv_release lease; ok (DeleteTargetChangedOutcome outcome revision)
          end
      end
  end.

Definition not_moved (request : DeleteRequest) (key : PurgeJobKey)
    : Srv Env (result HandlerError DeleteCommitOutcome) :=
  let lease := dr_path_lease request in
  let guard := dr_operation request in
  let outcome := failure 500 DeleteNotCommitted in
  do forgotten <- forget_intent key (bs "durable purge intent disappeared before failed rename cleanup");
  match forgotten with
  | Err e => break_off lease guard true e
  | Ok _ =>
      do settled <- settle (Some guard) outcome;
      match settled with
      | Err e => break_off lease guard false e
      | Ok _ => do _ <- srv_release lease; ok (Rejected outcome)
      end
  end.

Definition entry_moved (request : DeleteRequest) (key : PurgeJobKey) (trash : TrashEntry)
    : Srv Env (result HandlerError DeleteCommitOutcome) :=
  let lease := dr_path_lease request in
  let guard := dr_operation request in
  do ready <- srv_purge_ready key (te_trash_revision trash);
  match ready with
  | Err m => break_off lease guard true (HandlerFail (Failed m))
  | Ok false =>
      break_off lease guard true
        (HandlerFail (Failed (bs "durable purge intent disappeared after filesystem rename")))
  | Ok true =>
      do settled <- settle (Some guard) (success 204);
      match settled with
      | Err e => break_off lease guard false e
      | Ok _ => do _ <- srv_release lease; ok Succeeded
      end
  end.

(** The inner future: what happens with the intent recorded.  [gate] is the
    error of the blocking pool, if it lost the rename's answer. *)
Definition delete_with_intent (request : DeleteRequest) (prepared : PreparedPurge) (gate : result IoError unit)
    : Srv Env (result HandlerError DeleteCommitOutcome) :=
  let lease := dr_path_lease request in
  let guard := dr_operation request in
  let key := pp_key prepared in
  do started <- mark_started (Some guard);
  match started with
  | Err e => break_off lease guard true e
  | Ok _ =>
      do moved <- kernel (move_to_trash_with_expected_identity_outcome sha256 fs gate (dr_path request)
        (pp_trash_id prepared) (pp_source_identity prepared) (Some (dr_expected_revision_identity request)));
      match moved with
      | None => break_off lease guard true (HandlerFail Panic)
      | Some (Moved trash) => entry_moved request key trash
      | Some TargetChanged => target_changed request key
      | Some (NotMoved _) => not_moved request key
      | Some (DurabilityUnknown error) => break_off lease guard true (HandlerIo error)
      end
  end.

(** A commit without an intent. *)
Definition reject_delete (request : DeleteRequest) (outcome : OperationOutcome)
    : Srv Env (result HandlerError DeleteCommitOutcome) :=
  do settled <- settle (Some (dr_operation request)) outcome;
  do _ <- srv_release (dr_path_lease request);
  ret (match settled with Ok _ => Ok (Rejected outcome) | Err e => Err e end).

Definition delete_task (request : DeleteRequest) (gate : result IoError unit)
    : Srv Env (result HandlerError DeleteCommitOutcome) :=
  do prepared <- prepare_purge_with_identity (dr_owner request) (dr_path request)
    (dr_expected_delete_identity request);
  match prepared with
  | Ok PurgeFull => reject_delete request (failure 503 PurgeBacklogFull)
  | Err _ => reject_delete request (failure 503 PurgeStateUnavailable)
  | Ok (Prepared prepared) =>
      do committed <- delete_with_intent request prepared gate;
      match committed with
      | Ok Succeeded => do _ <- srv_wake; ok Succeeded
      | Ok outcome => ok outcome
      | Err (HandlerFail Panic) => fail (HandlerFail Panic)
      | Err e => do _ <- srv_reconcile (pp_key prepared); fail e
      end
  end.

Definition delete_response (id : bytes) (res : Response) (outcome : DeleteCommitOutcome)
    : result Failure Response :=
  match outcome with
  | Succeeded => apply_operation_outcome res id (success 204) false
  | Rejected outcome => apply_operation_outcome res id outcome false
  | DeleteTargetChangedOutcome outcome revision =>
      res ← apply_revision_header res SOURCE_REVISION_HEADER revision;
      apply_operation_outcome res id outcome false
  end.

Definition handle_delete (request : DeleteRequest) (gate : result IoError unit) (res : Response)
    : Srv Env (result HandlerError Response) :=
  let lease := dr_path_lease request in
  let id := dr_operation_id request in
  let guard := dr_operation request in
  do conflict <- srv_scan [dr_path request];
  match conflict with
  | Ok true =>
      do r <- finish_api_error (Some (id, guard)) res 409 DeleteStateConflict;
      do _ <- srv_release lease;
      ret r
  | Err _ =>
      do _ <- drop_operation (Some guard);
      do _ <- srv_release lease;
      ret (handler_fail (reject res (with_recovery (new_api_error 503 PURGE_STATE_UNAVAILABLE
        (bs "Delete state storage is temporarily unavailable")) (RetryAfterSeconds 1)) (Some id)))
  | Ok false =>
      attempt outcome <- run_operation_commit lease (Some guard) (delete_task request gate);
      ret (handler_fail (delete_response id res outcome))
  end.
End delete.

(** ** Facts *)

Section facts.
Context {Env : Type} `{Os Env} `{Host Env} `{UuidLib} `{HttpTypes} (sha256 : bytes -> bytes) (fs : RootedFs)
  (request : DeleteRequest) (gate : result IoError unit).

Local Abbreviation guard := (dr_operation request).
Local Abbreviation lease := (dr_path_lease request).
Local Abbreviation id := (dr_operation_id request).

(** The durable intent to purge the target under [trash_id]. *)
Definition intent (trash_id : bytes) (job : StoredPurgeJob) : Prop :=
  exists target_path trash_path relative,
    relative_path fs (dr_path request) = Ok target_path /\
    trash_path_for_id fs (dr_path request) trash_id = Ok trash_path /\ relative_path fs trash_path = Ok relative /\
    job = purge_job (mkStoreKey (owner_persistent sha256 (dr_owner request)) trash_id) target_path relative
            (dr_expected_delete_identity request).

(** Looking for a free identifier. *)
Definition preparing (e : ServerEvent) : Prop :=
  match e with Kernel c => reads c | PreparePurgeJob _ _ => True | _ => False end.

Lemma prepare_spec :
  spec (prepare_purge_with_identity sha256 fs (dr_owner request) (dr_path request) (dr_expected_delete_identity request)
          : Srv Env _) (λ r l, Forall preparing l /\
    forall p, r = Ok (Prepared p) -> exists job, PreparePurgeJob job (Ok JInserted) ∈ l /\
      intent (pp_trash_id p) job /\ pj_key job = pp_key p /\ pp_source_identity p = dr_expected_delete_identity request).
Proof.
  unfold prepare_purge_with_identity. apply spec_attempt_ret; [|by intros e; repeat constructor].
  intros target_path Etarget. destruct (relative_path fs (dr_path request)) as [tp|] eqn:Hrel; [|done].
  injection Etarget as ->. generalize 16%nat as n. induction n as [|n IH]; cbn [prepare_attempts].
  { apply spec_ret. by repeat constructor. }
  eapply spec_bind_kernel; [apply (spec_call _ _ (λ a c, c = [NewUuid a])); done|]. intros trash_id calls ->.
  apply spec_attempt_ret; [|by intros e; repeat constructor]. intros trash_path E1.
  destruct (trash_path_for_id fs (dr_path request) trash_id) as [tp1|] eqn:Ht; [|done]. injection E1 as ->.
  apply spec_attempt_ret; [|by intros e; repeat constructor]. intros relative E2.
  destruct (relative_path fs trash_path) as [rel|] eqn:Hr; [|done]. injection E2 as ->.
  unfold srv_prepare_purge. apply spec_bind_call. intros [[| | |]|m].
  - apply spec_ret. split; [by repeat constructor|]. intros p [= <-]. eexists. split; [right; left|].
    split; [do 3 eexists; done|done].
  - eapply spec_weaken; [apply IH|]. intros r l [Hl Hp]. split; [by repeat constructor|]. intros p E.
    destruct (Hp p E) as (job & Hin & Hrest). exists job. split; [cbn; set_solver|done].
  - eapply spec_weaken; [apply IH|]. intros r l [Hl Hp]. split; [by repeat constructor|]. intros p E.
    destruct (Hp p E) as (job & Hin & Hrest). exists job. split; [cbn; set_solver|done].
  - apply spec_ret. by repeat constructor.
  - apply spec_ret. by repeat constructor.
Qed.

(** The outcome a commit recorded. *)
Definition recorded (d : DeleteCommitOutcome) : OperationOutcome :=
  match d with
  | Succeeded => success 204
  | Rejected o => o
  | DeleteTargetChangedOutcome o _ => o
  end.

(** How the commit closes the guard. *)
Inductive closes (r : result HandlerError DeleteCommitOutcome) : list ServerEvent -> Prop :=
| closes_recorded outcome :
    (forall d, r = Ok d -> recorded d = outcome) -> closes r [CompleteOp guard outcome (Ok tt)]
| closes_failed outcome f :
    r = Err (HandlerFail f) -> closes r [CompleteOp guard outcome (Err f); AbandonOp guard]
| closes_dropped e : r = Err e -> closes r [AbandonOp guard].

(** The events after the system calls of the commit. *)
Definition tail_ok (P : ServerEvent -> Prop) (r : result HandlerError DeleteCommitOutcome) (l : list ServerEvent) : Prop :=
  Forall untouched l /\ Forall P l /\ ReleaseLease lease ∈ l /\
  exists before c after, l = before ++ c ++ after /\ Forall keeps_guard before /\ Forall keeps_guard after /\ closes r c.

Definition keeps_intent (e : ServerEvent) : Prop := match e with RemovePurgeJob _ _ => False | _ => True end.
Definition not_ready (e : ServerEvent) : Prop := match e with MarkPurgeReady _ _ _ => False | _ => True end.

(** Splits a concrete list of events around the guard's end. *)
Ltac split_tail before c after :=
  split; [by repeat constructor|]; split; [by repeat constructor|]; split; [set_solver|];
  exists before, c, after; split; [done|]; split; [by repeat constructor|]; split; [by repeat constructor|].

Lemma break_off_held (P : ServerEvent -> Prop) (e : HandlerError) :
  P (ReleaseLease lease) -> P (AbandonOp guard) -> spec (break_off lease guard true e : Srv Env _) (tail_ok P).
Proof.
  intros HP1 HP2. unfold break_off, srv_release, drop_operation. apply spec_bind_call. intros []. apply spec_bind_call. intros [].
  apply spec_ret. split_tail [ReleaseLease lease] [AbandonOp guard] (@nil ServerEvent). by econstructor.
Qed.

(** [settle], then [k]; a failure breaks off. *)
Lemma settle_tail (P : ServerEvent -> Prop) outcome k :
  (forall answer, P (CompleteOp guard outcome answer)) -> P (AbandonOp guard) -> P (ReleaseLease lease) ->
  spec (k tt) (λ r l, Forall untouched l /\ Forall P l /\ ReleaseLease lease ∈ l /\ Forall keeps_guard l /\
    forall d, r = Ok d -> recorded d = outcome) ->
  spec (do settled <- settle (Some guard) outcome;
        match settled with
        | Err e => break_off lease guard false e
        | Ok u => k u
        end : Srv Env _) (tail_ok P).
Proof.
  intros P1 P2 P3 Hk. eapply spec_bind; [apply spec_settle|]. intros r l [[-> ->]|(f & -> & ->)].
  - eapply spec_weaken; [exact Hk|]. intros r l (Hu & HP & Hrel & Hkeep & Hr).
    split; [by constructor|]. split; [by constructor|]. split; [set_solver|].
    exists [], [CompleteOp guard outcome (Ok tt)], l. split_and!; [done|constructor|done|by constructor].
  - unfold break_off, srv_release, drop_operation. apply spec_bind_call. intros []. apply spec_bind_ret, spec_ret.
    split_tail (@nil ServerEvent) [CompleteOp guard outcome (Err f); AbandonOp guard] [ReleaseLease lease].
    by econstructor.
Qed.

(** The intent is forgotten, then the rest. *)
Lemma forget_tail key message k :
  spec (k tt) (tail_ok not_ready) ->
  spec (do forgotten <- forget_intent key message;
        match forgotten with
        | Err e => break_off lease guard true e
        | Ok u => k u
        end : Srv Env _)
    (λ r l, tail_ok not_ready r l /\ exists answer, RemovePurgeJob key answer ∈ l).
Proof.
  intros Hk. unfold forget_intent, srv_remove_purge. apply spec_bind_assoc, spec_bind_call. intros answer.
  assert (forall r l, tail_ok not_ready r l -> tail_ok not_ready r (RemovePurgeJob key answer :: l) /\
    exists answer', RemovePurgeJob key answer' ∈ RemovePurgeJob key answer :: l) as Hcons.
  { intros r l (Hu & HP & Hrel & b & c & a & -> & Hb & Ha & Hc). split; [|eexists; left].
    split; [by constructor|]. split; [by constructor|]. split; [by right|].
    exists (RemovePurgeJob key answer :: b), c, a. split_and!; [done|by constructor|done..]. }
  apply spec_bind_ret. destruct answer as [[]|m]; [eapply spec_weaken; [exact Hk|auto]|..];
    (eapply spec_weaken; [apply (break_off_held not_ready); done|auto]).
Qed.

Lemma released_spec (P : ServerEvent -> Prop) d outcome :
  recorded d = outcome -> P (ReleaseLease lease) ->
  spec (do _ <- srv_release lease; ok d : Srv Env (result HandlerError _)) (λ r l, Forall untouched l /\ Forall P l /\
    ReleaseLease lease ∈ l /\ Forall keeps_guard l /\ forall d', r = Ok d' -> recorded d' = outcome).
Proof.
  intros <- HP. unfold srv_release. apply spec_bind_call. intros []. apply spec_ret.
  split_and!; [by repeat constructor|by repeat constructor|left|by repeat constructor|]. by intros d' [= <-].
Qed.

Lemma not_moved_spec key :
  spec (not_moved request key : Srv Env _) (λ r l, tail_ok not_ready r l /\ exists answer, RemovePurgeJob key answer ∈ l).
Proof.
  unfold not_moved. apply (forget_tail key _ (λ _, _)). apply (settle_tail not_ready _ (λ _, _)); [done..|].
  by apply released_spec.
Qed.

Lemma target_changed_spec key :
  spec (target_changed sha256 fs request key : Srv Env _)
    (λ r l, tail_ok not_ready r l /\ exists answer, RemovePurgeJob key answer ∈ l).
Proof.
  unfold target_changed. apply (forget_tail key _ (λ _, _)). apply (settle_tail not_ready _ (λ _, _)); [done..|].
  eapply (spec_bind _ _ (λ _ l, exists looks, l = map Kernel looks /\ Forall reads looks)).
  { unfold changed_revision. apply spec_attempt_ret; [|by intros; exists []]. intros relative _.
    eapply spec_bind_kernel; [apply replacement_identity_reads|]. intros r calls Hc. apply spec_ret.
    rewrite app_nil_r. eauto. }
  intros revision l (looks & -> & Hl).
  assert (Forall untouched (map Kernel looks) /\ Forall not_ready (map Kernel looks) /\ Forall keeps_guard (map Kernel looks))
    as (U & N & G) by (split_and!; [by apply kernel_untouched| |apply kernel_keeps]; clear; induction looks; by constructor).
  destruct revision as [revision|e].
  - eapply spec_weaken; [by apply (released_spec not_ready)|]. intros r l' (Hu & HP & Hrel & Hk & Hr).
    split_and!; [by apply Forall_app..|set_solver|by apply Forall_app|done].
  - unfold break_off, srv_release, drop_operation. apply spec_bind_call. intros []. apply spec_bind_ret, spec_ret.
    split_and!; [rewrite Forall_app; by repeat constructor..|set_solver|rewrite Forall_app; by repeat constructor|done].
Qed.

Lemma entry_moved_spec key trash :
  spec (entry_moved request key trash : Srv Env _) (λ r l, tail_ok keeps_intent r l /\
    exists answer, MarkPurgeReady key (te_trash_revision trash) answer ∈ l).
Proof.
  unfold entry_moved, srv_purge_ready. apply spec_bind_call. intros answer.
  assert (forall r l, tail_ok keeps_intent r l ->
    tail_ok keeps_intent r (MarkPurgeReady key (te_trash_revision trash) answer :: l) /\
    exists answer', MarkPurgeReady key (te_trash_revision trash) answer' ∈
      MarkPurgeReady key (te_trash_revision trash) answer :: l) as Hcons.
  { intros r l (Hu & HP & Hrel & b & c & a & -> & Hb & Ha & Hc). split; [|eexists; left].
    split; [by constructor|]. split; [by constructor|]. split; [by right|].
    exists (MarkPurgeReady key (te_trash_revision trash) answer :: b), c, a. split_and!; [done|by constructor|done..]. }
  destruct answer as [[]|m]; [|eapply spec_weaken; [apply (break_off_held keeps_intent); done|auto]..].
  eapply spec_weaken; [|exact Hcons]. apply (settle_tail keeps_intent _ (λ _, _)); [done..|]. by apply released_spec.
Qed.

(** What the commit does with its intent once it knows what became of the entry. *)
Definition follows_intent (key : PurgeJobKey) (moved : CheckedTrashMove TrashEntry) (l : list ServerEvent) : Prop :=
  match moved with
  | Moved entry =>
      (exists answer, MarkPurgeReady key (te_trash_revision entry) answer ∈ l) /\ Forall keeps_intent l
  | DurabilityUnknown _ => Forall keeps_intent l /\ Forall not_ready l
  | _ => (exists answer, RemovePurgeJob key answer ∈ l) /\ Forall not_ready l
  end.

(** The move of the commit, and the answer it saw. *)
Definition trashes (trash_id : bytes) (moved : CheckedTrashMove TrashEntry) (calls : list SysCall) : Prop :=
  exists trash_path name seen,
    trash_path_for_id fs (dr_path request) trash_id = Ok trash_path /\ path_file_name trash_path = Some name /\
    trash_contract sha256 name (dr_expected_delete_identity request) (Some (dr_expected_revision_identity request))
      seen calls /\
    moved = match gate with Ok _ => seen | Err e => DurabilityUnknown e end.

Definition intent_ok (p : PreparedPurge) (r : result HandlerError DeleteCommitOutcome) (l : list ServerEvent) : Prop :=
  (exists m e, l = [MarkStarted guard (Err m); ReleaseLease lease; AbandonOp guard] /\ r = Err e) \/
  (exists tail, l = MarkStarted guard (Ok tt) :: tail /\ tail_ok (λ _, True) r tail) \/
  exists calls tail moved, l = MarkStarted guard (Ok tt) :: map Kernel calls ++ tail /\
    tail_ok (λ _, True) r tail /\ trashes (pp_trash_id p) moved calls /\ follows_intent (pp_key p) moved tail /\
    (forall e, moved = DurabilityUnknown e -> r = Err (HandlerIo e)).

Lemma tail_ok_weaken (P Q : ServerEvent -> Prop) r l : (forall e, P e -> Q e) -> tail_ok P r l -> tail_ok Q r l.
Proof. intros HPQ (Hu & HP & Hrest). split; [done|]. split; [by apply (Forall_impl _ _ _ HP)|done]. Qed.

Lemma delete_with_intent_spec p job :
  intent (pp_trash_id p) job -> pp_source_identity p = dr_expected_delete_identity request ->
  spec (delete_with_intent sha256 fs request p gate : Srv Env _) (intent_ok p).
Proof.
  intros (tp & trash_path & relative & _ & Htrash & _ & _) Hid.
  unfold delete_with_intent, mark_started. cbv zeta. apply spec_bind_assoc, spec_bind_call.
  intros [[]|m]; cbn [store_answer failed]; apply spec_bind_ret.
  2: { unfold break_off, srv_release, drop_operation. apply spec_bind_call. intros []. apply spec_bind_call. intros [].
       apply spec_ret. left. eauto. }
  unfold move_to_trash_with_expected_identity_outcome. rewrite Htrash, Hid.
  destruct (path_file_name trash_path) as [name|] eqn:Hname.
  2: { eapply spec_bind_kernel; [apply (spec_ret None (λ a c, a = None /\ c = [])); done|]. intros ? ? [-> ->].
       eapply spec_weaken; [by apply (break_off_held (λ _, True))|]. intros r l Hl. right; left. by exists l. }
  eapply (spec_bind_kernel _ _ (λ o calls, exists moved, o = Some moved /\ trashes (pp_trash_id p) moved calls)).
  { eapply spec_bind; [apply checked_trash_move_spec|]. intros seen c Hc. apply spec_ret. rewrite app_nil_r.
    eexists. split; [reflexivity|]. by exists trash_path, name, seen. }
  intros o calls (moved & -> & Hmoved).
  assert (forall (m : Srv Env _) P (Q : list ServerEvent -> Prop), spec m (λ r l, tail_ok P r l /\ Q l) ->
    (forall r l, tail_ok P r l -> Q l -> follows_intent (pp_key p) moved l) ->
    (forall e, moved <> DurabilityUnknown e) ->
    spec m (λ r l, intent_ok p r (MarkStarted guard (Ok tt) :: map Kernel calls ++ l))) as Hbranch.
  { intros m P Q Hm Hf Hne. eapply spec_weaken; [exact Hm|]. intros r l [Hl HQ]. right; right.
    exists calls, l, moved. split; [done|]. split; [by apply (tail_ok_weaken P)|]. split; [done|].
    split; [by eapply Hf|]. intros e E. by destruct (Hne e). }
  destruct moved as [entry| |e|e].
  - eapply Hbranch; [apply entry_moved_spec| |done]. intros r l (_ & HP & _) Hq. by split.
  - eapply Hbranch; [apply target_changed_spec| |done]. intros r l (_ & HP & _) Hq. by split.
  - eapply Hbranch; [apply not_moved_spec| |done]. intros r l (_ & HP & _) Hq. by split.
  - unfold break_off, srv_release, drop_operation. apply spec_bind_call. intros []. apply spec_bind_call. intros [].
    apply spec_ret. right; right. exists calls, [ReleaseLease lease; AbandonOp guard], (DurabilityUnknown e).
    split; [done|]. split; [split_tail [ReleaseLease lease] [AbandonOp guard] (@nil ServerEvent); by econstructor|].
    split; [done|]. split; [by split; repeat constructor|]. by intros e' [= ->].
Qed.

(** The detached commit: the intent comes first. *)
Definition commit_ok (r : result HandlerError DeleteCommitOutcome) (l : list ServerEvent) : Prop :=
  (Forall untouched l /\ ReleaseLease lease ∈ l /\
   exists before c after, l = before ++ c ++ after /\ Forall keeps_guard before /\ Forall keeps_guard after /\ closes r c) \/
  exists before p job calls tail moved,
    l = before ++ MarkStarted guard (Ok tt) :: map Kernel calls ++ tail /\
    Forall preparing before /\ PreparePurgeJob job (Ok JInserted) ∈ before /\ intent (pp_trash_id p) job /\
    pj_key job = pp_key p /\ tail_ok (λ _, True) r tail /\ trashes (pp_trash_id p) moved calls /\
    follows_intent (pp_key p) moved tail /\
    (forall e, moved = DurabilityUnknown e -> ReconcilePurge (pp_key p) ∈ tail) /\
    (forall e, r = Err e -> e <> HandlerFail Panic -> ReconcilePurge (pp_key p) ∈ tail).

Lemma preparing_facts l :
  Forall preparing l -> Forall untouched l /\ Forall keeps_guard l /\ (forall x, ReleaseLease x ∉ l).
Proof.
  intros Hl. split_and!; [apply (Forall_impl _ _ _ Hl); by intros []..|].
  intros x Hin. by apply (proj1 (Forall_forall _ _) Hl) in Hin.
Qed.

Lemma reject_delete_spec before outcome :
  Forall preparing before ->
  spec (reject_delete request outcome : Srv Env _) (λ r l, commit_ok r (before ++ l)).
Proof.
  intros Hb. destruct (preparing_facts before Hb) as (Hu & Hk & _).
  unfold reject_delete, srv_release. eapply spec_bind; [apply spec_settle|].
  intros settled c [[-> ->]|(f & -> & ->)]; (apply spec_bind_call; intros []); apply spec_ret; left;
    (split; [rewrite Forall_app; by repeat constructor|]); (split; [set_solver|]).
  - exists before, [CompleteOp guard outcome (Ok tt)], [ReleaseLease lease]. split_and!; [done|done|by repeat constructor|].
    constructor. by intros d [= <-].
  - exists before, [CompleteOp guard outcome (Err f); AbandonOp guard], [ReleaseLease lease].
    split_and!; [done|done|by repeat constructor|]. by econstructor.
Qed.

(** More events after a commit. *)
Lemma tail_ok_extend r l e :
  untouched e -> keeps_guard e -> tail_ok (λ _, True) r l -> tail_ok (λ _, True) r (l ++ [e]).
Proof.
  intros Hu Hk (U & HP & Hrel & b & c & a & -> & Hb & Ha & Hc).
  split; [rewrite Forall_app; by repeat constructor|]. split; [rewrite Forall_app; by repeat constructor|].
  split; [set_solver|]. exists b, c, (a ++ [e]). rewrite <- !app_assoc. split_and!; [done|done| |done].
  rewrite Forall_app. by repeat constructor.
Qed.

Lemma follows_extend key moved l e :
  keeps_intent e -> not_ready e -> follows_intent key moved l -> follows_intent key moved (l ++ [e]).
Proof.
  intros H1' H2'. destruct moved as [x| |x|x]; cbn; rewrite ?Forall_app.
  - intros [[answer ?] ?]. split; [exists answer; set_solver|split; [done|by repeat constructor]].
  - intros [[answer ?] ?]. split; [exists answer; set_solver|split; [done|by repeat constructor]].
  - intros [[answer ?] ?]. split; [exists answer; set_solver|split; [done|by repeat constructor]].
  - intros [? ?]. split; split; try done; by repeat constructor.
Qed.

(** What the task does after the inner future. *)
Definition afterwards (key : PurgeJobKey) (r : result HandlerError DeleteCommitOutcome) : list ServerEvent :=
  match r with
  | Ok Succeeded => [WakePurgeWorker]
  | Ok _ => []
  | Err (HandlerFail Panic) => []
  | Err _ => [ReconcilePurge key]
  end.

Lemma afterwards_facts key r :
  Forall untouched (afterwards key r) /\ Forall keeps_guard (afterwards key r) /\
  (afterwards key r = [] \/ exists e, afterwards key r = [e] /\ untouched e /\ keeps_guard e /\ keeps_intent e /\ not_ready e) /\
  (forall e, r = Err e -> e <> HandlerFail Panic -> ReconcilePurge key ∈ afterwards key r).
Proof.
  destruct r as [[]|[|[]]]; split_and!; try (by repeat constructor); try (by left); try (right; eexists; by split_and!);
    try done; intros e [= <-] Hne; try done; left.
Qed.

Lemma intent_ok_commit before p job r l :
  Forall preparing before -> PreparePurgeJob job (Ok JInserted) ∈ before -> intent (pp_trash_id p) job ->
  pj_key job = pp_key p -> intent_ok p r l -> commit_ok r (before ++ l ++ afterwards (pp_key p) r).
Proof.
  intros Hb Hin Hint Hkey Hl. destruct (preparing_facts before Hb) as (Hu & Hk & _).
  destruct (afterwards_facts (pp_key p) r) as (Au & Ak & Aone & Arec).
  destruct Hl as [(m & e & -> & ->)|[(tail & -> & Hu' & _ & Hrel & b & c & a & -> & Hb' & Ha & Hc)
                 |(calls & tail & moved & -> & Htail & Htr & Hf & Hd)]].
  - left. split; [rewrite !Forall_app; split_and!; [done|by repeat constructor|done]|]. split; [set_solver|].
    exists (before ++ [MarkStarted guard (Err m); ReleaseLease lease]), [AbandonOp guard], (afterwards (pp_key p) (Err e)).
    split_and!; [by rewrite <- !app_assoc|rewrite Forall_app; by repeat constructor|done|by econstructor].
  - left. split; [rewrite !Forall_app; split_and!; [done|by constructor|done]|]. split; [set_solver|].
    exists (before ++ MarkStarted guard (Ok tt) :: b), c, (a ++ afterwards (pp_key p) r).
    split_and!; [by rewrite <- !app_assoc; cbn; rewrite <- !app_assoc|rewrite Forall_app; by repeat constructor|by apply Forall_app|done].
  - right. exists before, p, job, calls, (tail ++ afterwards (pp_key p) r), moved.
    split; [cbn; by rewrite <- !app_assoc|]. do 4 (split; [done|]).
    assert (tail_ok (λ _, True) r (tail ++ afterwards (pp_key p) r) /\
      follows_intent (pp_key p) moved (tail ++ afterwards (pp_key p) r)) as [Ht Hf'].
    { destruct Aone as [->|(e & -> & ? & ? & ? & ?)]; [by rewrite app_nil_r|].
      split; [by apply tail_ok_extend|by apply follows_extend]. }
    split; [done|]. split; [done|]. split; [done|]. split.
    + intros e ->. specialize (Hd e eq_refl). assert (HandlerIo e <> HandlerFail Panic) as Hne by done.
      specialize (Arec _ Hd Hne). set_solver.
    + intros e Er Hne. specialize (Arec e Er Hne). set_solver.
Qed.

Lemma delete_task_spec : spec (delete_task sha256 fs request gate : Srv Env _) commit_ok.
Proof.
  unfold delete_task. eapply spec_bind; [apply prepare_spec|]. intros prepared before [Hb Hp].
  destruct prepared as [[p|]|e]; [|by apply reject_delete_spec..].
  destruct (Hp p eq_refl) as (job & Hin & Hint & Hkey & Hid).
  eapply spec_bind; [by apply (delete_with_intent_spec p job)|]. intros r l Hl.
  pose proof (intent_ok_commit before p job r l Hb Hin Hint Hkey Hl) as Hc.
  unfold srv_wake, srv_reconcile.
  destruct r as [[]|[|[]]]; try (by apply spec_ret; rewrite app_nil_r in * ); apply spec_bind_call; intros [];
    by apply spec_ret.
Qed.

Lemma response_recorded res d res' :
  delete_response id res d = Ok res' -> exists res0, apply_operation_outcome res0 id (recorded d) false = Ok res'.
Proof.
  destruct d as [|o|o revision]; cbn; [by eauto..|]. destruct (apply_revision_header _ _ _) as [res0|]; [|done]. eauto.
Qed.

(** The whole handler: the request, once the durable state was found free. *)
Lemma closes_closing r r' c :
  closes r c ->
  (forall d res', r = Ok d -> r' = Ok res' -> exists res0, apply_operation_outcome res0 id (recorded d) false = Ok res') ->
  (forall e, r = Err e -> r' = Err e) ->
  (exists d, r = Ok d) \/ (exists e, r = Err e) ->
  closing guard id r' c /\ (c = [AbandonOp guard] -> forall res', r' <> Ok res').
Proof.
  intros Hc Hok Herr Hr. destruct Hc as [outcome Ho|outcome f Hf|e He].
  - split; [|done]. constructor. intros res' E. destruct Hr as [[d Hd]|[e He]].
    + rewrite <- (Ho d Hd). by apply (Hok d).
    + by rewrite (Herr e He) in E.
  - split; [|done]. rewrite (Herr _ Hf). constructor.
  - rewrite (Herr _ He). split; [by constructor|done].
Qed.

(** A delete that touched the tree. *)
Definition deletes_once (r : result HandlerError Response) (events : list ServerEvent) : Prop :=
  exists before trash_id job calls after moved,
    events = before ++ MarkStarted guard (Ok tt) :: map Kernel calls ++ after /\
    Forall untouched before /\ Forall untouched after /\
    ScanState [dr_path request] (Ok false) ∈ before /\
    PreparePurgeJob job (Ok JInserted) ∈ before /\ intent trash_id job /\
    (ReleaseLease lease ∉ before) /\ ReleaseLease lease ∈ after /\
    trashes trash_id moved calls /\ follows_intent (pj_key job) moved after /\
    (forall e, moved = DurabilityUnknown e -> ReconcilePurge (pj_key job) ∈ after) /\
    (ReconcilePurge (pj_key job) ∈ after \/ (exists outcome, CompleteOp guard outcome (Ok tt) ∈ after) \/
     r = Err (HandlerFail Panic)).

(** The commit of a handler that answers [r'] to its result. *)
Lemma commit_ok_handler r r' l :
  commit_ok r l -> (exists d, r = Ok d) \/ (exists e, r = Err e) ->
  (forall d res', r = Ok d -> r' = Ok res' -> exists res0, apply_operation_outcome res0 id (recorded d) false = Ok res') ->
  (forall e, r = Err e -> r' = Err e) ->
  let events := ScanState [dr_path request] (Ok false) :: AdmitCommit true :: l in
  reported guard id r' events /\ (Forall untouched events \/ deletes_once r' events).
Proof.
  intros Hl Hr Hok Herr. cbv zeta. set (pre := [ScanState [dr_path request] (Ok false); AdmitCommit true]).
  change (ScanState [dr_path request] (Ok false) :: AdmitCommit true :: l) with (pre ++ l).
  assert (Forall untouched pre /\ Forall keeps_guard pre) as [Up Kp] by (split; by repeat constructor).
  assert (forall b c a, l = b ++ c ++ a -> Forall keeps_guard b -> Forall keeps_guard a -> closes r c ->
    reported guard id r' (pre ++ l)) as Hrep.
  { intros b c a -> Hb Ha Hc. destruct (closes_closing r r' c Hc Hok Herr Hr) as [Hcl Hab].
    exists (pre ++ b), c, a. rewrite app_assoc. split_and!; [done|by apply Forall_app|done|done|].
    intros E [res' Hres]. by destruct (Hab E res'). }
  destruct Hl as [(Hu & _ & b & c & a & E & Hb & Ha & Hc)
                 |(before & p & job & calls & tail & moved & -> & Hb & Hin & Hint & Hkey & Htail & Htr & Hf & Hd & Hrec)].
  { split; [by eapply Hrep|]. left. by apply Forall_app. }
  destruct (preparing_facts before Hb) as (Hu & Hk & Hrel).
  destruct Htail as (Ut & _ & Hrelt & b & c & a & -> & Hb' & Ha & Hc). split.
  - eapply (Hrep (before ++ MarkStarted guard (Ok tt) :: map Kernel calls ++ b) c a); [|..|done|done].
    + rewrite <- !app_assoc. cbn. by rewrite <- app_assoc.
    + rewrite Forall_app. split; [done|]. constructor; [done|]. apply Forall_app. split; [apply kernel_keeps|done].
  - right. exists (pre ++ before), (pp_trash_id p), job, calls, (b ++ c ++ a), moved. rewrite Hkey.
    split; [by rewrite <- app_assoc|]. split; [by apply Forall_app|]. split; [done|]. split; [set_solver|].
    split; [set_solver|]. split; [done|]. split; [rewrite not_elem_of_app; split; [set_solver|done]|].
    do 4 (split; [done|]). destruct Hc as [outcome Ho|outcome f Hf'|e He].
    + right; left. exists outcome. set_solver.
    + destruct f as [|m]; [right; right; by apply Herr|]. left. by apply (Hrec _ Hf').
    + destruct e as [x|[|m]]; [by left; apply (Hrec _ He)|right; right; by apply Herr|by left; apply (Hrec _ He)].
Qed.

Lemma handle_delete_spec res :
  spec (handle_delete sha256 fs request gate res : Srv Env _) (λ r events,
    reported guard id r events /\ (Forall untouched events \/ deletes_once r events)).
Proof.
  unfold handle_delete, srv_scan, srv_release, drop_operation. cbv zeta. apply spec_bind_call. intros [[]|m].
  - eapply spec_bind; [apply spec_finish_api_error|]. intros r l Hc. apply spec_bind_call. intros []. apply spec_ret.
    assert (Forall untouched l) as Hu by (destruct Hc; by repeat constructor).
    assert (Forall untouched (ScanState [dr_path request] (Ok true) :: l ++ [ReleaseLease lease])) as Hall
      by (constructor; [done|]; rewrite Forall_app; by repeat constructor).
    split; [|by left]. exists [ScanState [dr_path request] (Ok true)], l, [ReleaseLease lease].
    split_and!; [done|by repeat constructor|by repeat constructor|done|done].
  - eapply spec_bind_ok; [apply (run_commit_spec guard lease _ commit_ok), delete_task_spec| |].
    + intros d l [(e & [=] & _)|(l' & -> & Hl)]. apply spec_ret. rewrite app_nil_r.
      apply (commit_ok_handler (Ok d)); [done|by eauto| |done]. intros d' res' [= <-] E.
      apply handler_fail_ok in E. by apply response_recorded in E.
    + intros e l [(e' & [= <-] & ->)|(l' & -> & Hl)].
      * split; [|left; by repeat constructor].
        exists [ScanState [dr_path request] (Ok false); AdmitCommit false; ReleaseLease lease], [AbandonOp guard], [].
        split_and!; [done|by repeat constructor|done|by constructor|by intros _ [res' [=]]].
      * apply (commit_ok_handler (Err e)); [done|by eauto|done|]. by intros e' [= <-].
  - apply spec_bind_call. intros []. apply spec_bind_call. intros []. apply spec_ret. split; [|left; by repeat constructor].
    exists [ScanState [dr_path request] (Err m)], [AbandonOp guard], [ReleaseLease lease].
    split_and!; [done|by repeat constructor|by repeat constructor| |by repeat constructor].
    constructor. intros res' E. apply handler_fail_ok in E. eauto.
Qed.

(** C12: a delete touches the tree at most once: after the durable state was
    found free, with the intent to purge the target under a fresh trash name on
    record, and with the start of the commit recorded.  The move goes to the
    name in the intent and is the checked one for the identity and revision of
    the request.  An intent whose entry was moved is never forgotten: it is
    announced as ready with the revision of what was moved, or handed to
    reconciliation; only an intent whose entry did not move is removed. *)
Theorem delete_follows_its_intent res :
  spec (handle_delete sha256 fs request gate res : Srv Env _) (λ r events,
    Forall untouched events \/ deletes_once r events).
Proof. eapply spec_weaken; [apply handle_delete_spec|]. by intros r l [_ Hl]. Qed.

(** A delete closes its operation exactly once, and the client is told what
    was recorded, or that the request was rejected and nothing happened. *)
Theorem delete_reports_what_was_recorded res :
  spec (handle_delete sha256 fs request gate res : Srv Env _) (reported guard id).
Proof. eapply spec_weaken; [apply handle_delete_spec|]. by intros r l [Hl _]. Qed.
End facts.
