(* ===== verification/UploadHost.v ===== *)
(** What an upload works with: the kernel, the upload sessions of the durable
    store, disk-space reservations, the clock, the registry of files in use and
    the boundary at which a timed-out request may no longer claim that nothing
    happened.

    As for the other handlers, their answers are those of a parameter and every
    interaction is logged in order.  The path lease, the registration of the
    stage and the reservation belong to the upload and are given up when its
    handler returns. *)

From S2P Require Import Prelude Bytes StoreModel DiskSpace Http UuidText Problem Registry Revisions Listing RootedOs RootedFs.
From stdpp Require Import base numbers list strings.

Local Open Scope Z_scope.

(** A failed call of the state store: refused before the actor took it, or an
    error with a message. *)
Inductive StoreFault := DispatchFault (error : StateStoreDispatchError) | StoreMessage (message : bytes).

Inductive UploadRecordStoreError := SessionConflict | SessionsFull.

(** [anyhow::Error], as far as the handler tells errors apart. *)
Inductive UploadError :=
| UploadDispatch (error : StateStoreDispatchError)
| UploadRecordError (error : UploadRecordStoreError)
| UploadIo (error : IoError)
| UploadFail (failure : Failure).

Inductive UploadEvent :=
| UKernel (call : SysCall)
| LoadSession (key : UploadSessionKey) (answer : result StoreFault (option StoredUploadSession))
| SaveSession (session : StoredUploadSession) (answer : result StoreFault StoreUploadSession)
| RejectSession (key : UploadSessionKey) (target stage : bytes) (answer : result StoreFault RejectUploadSession)
| RemoveSession (session : StoredUploadSession) (answer : result StoreFault bool)
| ReserveSpace (file : Fd) (data metadata minimum_free : Z)
    (answer : result IoError (option DiskSpaceReservation))
| CheckSpace (reservation : DiskSpaceReservation) (file : Fd) (minimum_free : Z) (answer : result IoError bool)
(** [consume]; its checked addition cannot fail, see
    [DiskSpace.reservation_accounting_is_exact] *)
| ConsumeSpace (reservation : DiskSpaceReservation) (bytes : Z) (answer : DiskSpaceReservation)
(** [track_active_upload_files] *)
| TrackFiles (path : bytes) (answer : result IoError unit)
(** [Instant::now() >= deadline] *)
| Expired (answer : bool)
(** whether [Instant::now() + idle_timeout] can be represented *)
| IdleDeadline (answer : bool)
| BeginMutation (answer : bool)
(** [outcome_can_be_unknown] *)
| MutationBegun (answer : bool).

Class UploadHost (Env : Type) := {
  uh_load : UploadSessionKey -> Env -> result StoreFault (option StoredUploadSession) * Env;
  uh_save : StoredUploadSession -> Env -> result StoreFault StoreUploadSession * Env;
  uh_reject : UploadSessionKey -> bytes -> bytes -> Env -> result StoreFault RejectUploadSession * Env;
  uh_remove : StoredUploadSession -> Env -> result StoreFault bool * Env;
  uh_reserve : Fd -> Z -> Z -> Z -> Env -> result IoError (option DiskSpaceReservation) * Env;
  uh_space : DiskSpaceReservation -> Fd -> Z -> Env -> result IoError bool * Env;
  uh_consume : DiskSpaceReservation -> Z -> Env -> DiskSpaceReservation * Env;
  uh_track : bytes -> Env -> result IoError unit * Env;
  uh_expired : Env -> bool * Env;
  uh_idle_deadline : Env -> bool * Env;
  uh_begin_mutation : Env -> bool * Env;
  uh_mutation_begun : Env -> bool * Env
}.

Abbreviation Up := (Prog UploadEvent).
(** [anyhow::Result]. *)
Abbreviation Upload Env A := (Up Env (result UploadError A)).

Definition store_fault {A} (r : result StoreFault A) : result UploadError A :=
  match r with
  | Ok a => Ok a
  | Err (DispatchFault e) => Err (UploadDispatch e)
  | Err (StoreMessage m) => Err (UploadFail (Failed m))
  end.
Definition io_fault {A} (r : result IoError A) : result UploadError A :=
  match r with Ok a => Ok a | Err e => Err (UploadIo e) end.
Definition up_fail {A} (r : result Failure A) : result UploadError A :=
  match r with Ok a => Ok a | Err f => Err (UploadFail f) end.
(** [ensure!]. *)
Definition up_ensure (b : bool) (message : bytes) : result UploadError unit :=
  if b then Ok tt else Err (UploadFail (Failed message)).

Section host.
Context {Env : Type} `{Os Env} `{UploadHost Env}.

(** System calls made by the upload. *)
Definition ukernel {A} (m : Sys Env A) : Up Env A := lifted UKernel m.
Definition uio {A} (m : Io Env A) : Upload Env A := do r <- ukernel m; ret (io_fault r).

Definition load_session key : Upload Env (option StoredUploadSession) :=
  do r <- syscall (uh_load key) (LoadSession key); ret (store_fault r).
Definition save_session session : Upload Env StoreUploadSession :=
  do r <- syscall (uh_save session) (SaveSession session); ret (store_fault r).
Definition reject_session key target stage : Upload Env RejectUploadSession :=
  do r <- syscall (uh_reject key target stage) (RejectSession key target stage); ret (store_fault r).
Definition remove_session session : Upload Env bool :=
  do r <- syscall (uh_remove session) (RemoveSession session); ret (store_fault r).

Definition reserve_space file data metadata minimum_free : Up Env (result IoError (option DiskSpaceReservation)) :=
  syscall (uh_reserve file data metadata minimum_free) (ReserveSpace file data metadata minimum_free).
Definition check_space reservation file minimum_free : Up Env (result IoError bool) :=
  syscall (uh_space reservation file minimum_free) (CheckSpace reservation file minimum_free).
Definition consume_space reservation n : Up Env DiskSpaceReservation :=
  syscall (uh_consume reservation n) (ConsumeSpace reservation n).
Definition track_files path : Up Env (result IoError unit) := syscall (uh_track path) (TrackFiles path).
Definition expired : Up Env bool := syscall uh_expired Expired.
Definition idle_deadline : Up Env bool := syscall uh_idle_deadline IdleDeadline.
Definition begin_upload_mutation : Up Env bool := syscall uh_begin_mutation BeginMutation.
Definition outcome_can_be_unknown : Up Env bool := syscall uh_mutation_begun MutationBegun.
End host.

(** ** Handlers *)

(** A handler also writes its response: [&mut Response]. *)
Definition Handler `{HttpTypes} (Env A : Type) : Type := Response -> Up Env (result UploadError A * Response).

Section handlers.
Context `{HttpTypes} {Env : Type}.

Definition done {A} (a : A) : Handler Env A := λ res, ret (Ok a, res).
Definition broken {A} (e : UploadError) : Handler Env A := λ res, ret (Err e, res).
(** The operator [?]. *)
Definition then_do {A B} (m : Handler Env A) (k : A -> Handler Env B) : Handler Env B := λ res,
  do (r, res) <- m res;
  match r with Ok a => k a res | Err e => ret (Err e, res) end.
(** A call that does not touch the response. *)
Definition look {A} (m : Up Env A) : Handler Env A := λ res, do a <- m; ret (Ok a, res).
Definition call {A} (m : Upload Env A) : Handler Env A := λ res, do r <- m; ret (r, res).
Definition pure {A} (r : result UploadError A) : Handler Env A := λ res, ret (r, res).
(** A change of the response, which may fail. *)
Definition respond (f : Response -> result Failure Response) : Handler Env unit := λ res,
  ret (match f res with Ok res => (Ok tt, res) | Err e => (Err (UploadFail e), res) end).
End handlers.

Declare Scope handler_scope.
Delimit Scope handler_scope with handler.
Notation "'perform' x <- m ; k" := (then_do m (λ x, k))
  (at level 100, x pattern, m at level 100, k at level 200, right associativity) : handler_scope.
#[global] Open Scope handler_scope.

(** ** Facts *)

Section facts.
Context {Env : Type} `{Os Env} `{UploadHost Env}.

Lemma spec_ukernel {A} (m : Sys Env A) Q :
  spec m Q -> spec (ukernel m) (λ a events, exists calls, events = map UKernel calls /\ Q a calls).
Proof. apply spec_lifted. Qed.

Lemma spec_bind_ukernel {A B} (m : Sys Env A) (k : A -> Up Env B) P Q :
  spec m P ->
  (forall a calls, P a calls -> spec (k a) (λ b events, Q b (map UKernel calls ++ events))) ->
  spec (bind (ukernel m) k) Q.
Proof. apply spec_bind_lifted. Qed.
End facts.
