(* ===== verification/UploadRecords.v ===== *)
(** Durable upload records ([src/src/server/upload/record.rs]): how an upload
    binds its session in the store to the file behind it.

    An offset is advertised only after the stage was flushed, synced and seen to
    be the named, singly linked file it was opened as; a stage is removed only
    when it is the inode the session or the open descriptor vouches for. *)

From S2P Require Import Prelude Bytes StdPath Utils StoreModel UuidText InternalNames Http Problem Revisions Listing PathKeys DiskSpace Registry RootedOs RootedFs StageFiles RootedPurge UploadHost.
From stdpp Require Import base numbers list strings.

Local Open Scope Z_scope.

Inductive UploadRecordState := RecRunning | RecAwaitingConfirmation | RecCommitted | RecRejected | RecUnknown.

#[export] Instance UploadRecordState_eq_dec : EqDecision UploadRecordState.
Proof. solve_decision. Defined.

Record UploadCheckpoint := mkCheckpoint {
  cp_upload_length : Z;
  cp_durable_offset : Z;
  cp_state : UploadRecordState;
  cp_target_revision : option bytes
}.

Inductive UploadRecordLookup := LookupNotSeen | LookupForeignOwner | LookupFound (checkpoint : UploadCheckpoint).

Record RejectedUploadRecord := mkRejected {
  rj_upload_length : Z;
  rj_durable_offset : Z;
  rj_stage_path : bytes;
  rj_stage_identity : option StoredFileIdentity
}.

Inductive UploadDiscardLookup :=
| DiscardNotSeen
| DiscardForeignOwner
| DiscardStateConflict (checkpoint : UploadCheckpoint)
| DiscardRejected (record : RejectedUploadRecord).

Inductive StageCleanupOutcome := RemovedOrAbsent | ReplacementPreserved.

Record UploadRecordContext := mkRecord {
  rc_owner_id : bytes;
  rc_upload_id : bytes;
  rc_target_path : bytes;
  rc_stage_path : bytes;
  rc_upload_length : Z;
  rc_target_revision : option bytes;
  rc_target_revision_bound : bool
}.

(** [UploadRecordContext::new]. *)
Definition record_context (owner_id upload_id target_path stage_path : bytes) (upload_length : Z)
    : UploadRecordContext :=
  mkRecord owner_id upload_id target_path stage_path upload_length None false.

Definition with_target_revision (record : UploadRecordContext) (revision : option bytes) : UploadRecordContext :=
  mkRecord (rc_owner_id record) (rc_upload_id record) (rc_target_path record) (rc_stage_path record)
    (rc_upload_length record) revision true.

Definition upload_session_key (owner_id upload_id : bytes) : UploadSessionKey := mkStoreKey owner_id upload_id.

(** The public reading of a stored state. *)
Definition record_state (state : StoredUploadState) : UploadRecordState :=
  match state with
  | UCommitted => RecCommitted
  | URejected => RecRejected
  | URunning => RecRunning
  | UAwaitingConfirmation => RecAwaitingConfirmation
  | UCommitStarted | UUnknown => RecUnknown
  end.

Definition upload_checkpoint (session : StoredUploadSession) : UploadCheckpoint :=
  mkCheckpoint (us_upload_length session) (us_durable_offset session) (record_state (us_state session))
    (us_target_revision session).

Section records.
Context {Env : Type} `{Os Env} `{FileOs Env} `{UploadHost Env} `{UuidLib}.
Context (sha256 : bytes -> bytes) (to_string_lossy : bytes -> bytes) (room : nat -> bool) (fs : RootedFs).

(** ** Paths *)

Definition resolve_stored_path (relative : bytes) : result IoError bytes :=
  if beqb relative [] || contains_byte nul_byte relative
  then Err (io_new InvalidData (bs "stored rooted path is empty or contains NUL"))
  else
    ok_or (resolve_state_path (rf_root_path fs) relative)
      (io_new InvalidData (bs "stored rooted path contains a non-normal component")).

Definition temp_path (path upload_id : bytes) : result UploadError bytes :=
  match upload_temp_path sha256 to_string_lossy path upload_id with
  | Ok p => Ok p
  | Err m => Err (UploadFail (Failed (bs m)))
  end.

Definition is_temp_path (target upload_id stage : bytes) : result UploadError bool :=
  p ← temp_path target upload_id; Ok (path_eqb p stage).

Definition validated_relative_paths (upload_id target_path stage_path : bytes)
    : result UploadError (bytes * bytes) :=
  matches_ ← is_temp_path target_path upload_id stage_path;
  _ ← up_ensure matches_ (bs "Upload staging path does not match its target and ID");
  target_relative ← io_fault (relative_path fs target_path);
  stage_relative ← io_fault (relative_path fs stage_path);
  target ← io_fault (resolve_stored_path target_relative);
  _ ← up_ensure (path_eqb target target_path)
        (bs "Upload target path is not a canonical root-relative path");
  stage ← io_fault (resolve_stored_path stage_relative);
  _ ← up_ensure (path_eqb stage stage_path)
        (bs "Upload staging path is not a canonical root-relative path");
  Ok (target_relative, stage_relative).

(** ** The stage of a session *)

(** The file is regular, singly linked, and the expected inode. *)
Definition is_stage (metadata : Metadata) (expected : StoredFileIdentity) : bool :=
  md_is_file metadata && (md_nlink metadata =? 1) &&
  (md_dev metadata =? StoreModel.fi_device expected) && (md_ino metadata =? StoreModel.fi_inode expected).

(** [NotFound | NotADirectory | PermissionDenied]. *)
Definition unreachable_kind (e : IoError) : bool := unresolved_path_error e.

Definition valid_resumable_stage (stage_path : bytes) (durable_offset : Z)
    (expected_identity : option StoredFileIdentity) : Upload Env bool :=
  match expected_identity with
  | None => ok false
  | Some expected_identity =>
      do opened <- ukernel (open_write fs stage_path);
      match opened with
      | Err error => if unreachable_kind error then ok false else fail (UploadIo error)
      | Ok file =>
          attempt metadata <- uio (sys_file_metadata file);
          ok (is_stage metadata expected_identity && (durable_offset <=? md_len metadata))
      end
  end.

Definition sync_and_identify_stage (file : Fd) (stage_path : bytes) (durable_offset : Z)
    : Upload Env StoredFileIdentity :=
  attempt _ <- uio (sys_flush file);
  attempt _ <- uio (sync_file_to_storage file);
  attempt metadata <- uio (sys_file_metadata file);
  attempt _ <- ret (up_ensure (md_is_file metadata) (bs "Upload stage is not a file"));
  attempt _ <- ret (up_ensure (md_nlink metadata =? 1) (bs "Upload stage has multiple hard links"));
  attempt _ <- ret (up_ensure (durable_offset <=? md_len metadata)
    (bs "Upload stage is shorter than its durable checkpoint"));
  attempt path_metadata <- uio (metadata_nofollow fs stage_path);
  attempt _ <- ret (up_ensure
    (md_is_file path_metadata && (md_nlink path_metadata =? 1) &&
     (md_dev path_metadata =? md_dev metadata) && (md_ino path_metadata =? md_ino metadata))
    (bs "Upload stage descriptor no longer matches its rooted path"));
  ok (mkIdentity (md_dev metadata) (md_ino metadata)).

(** ** Writing the session *)

Definition persist_state (record : UploadRecordContext) (durable_offset : Z) (state : StoredUploadState)
    (stage_identity : option StoredFileIdentity) : Upload Env unit :=
  let key := upload_session_key (rc_owner_id record) (rc_upload_id record) in
  attempt (target_path, stage_relative) <-
    ret (validated_relative_paths (rc_upload_id record) (rc_target_path record) (rc_stage_path record));
  attempt existing <-
    (if bool_decide (stage_identity = None) || negb (rc_target_revision_bound record)
     then load_session key else ok None);
  let stage_identity :=
    match stage_identity with Some i => Some i | None => existing ≫= us_stage_identity end in
  let target_revision :=
    if rc_target_revision_bound record then rc_target_revision record else existing ≫= us_target_revision in
  attempt saved <- save_session (mkUpload key target_path stage_relative (rc_upload_length record)
    durable_offset state stage_identity target_revision);
  ret (match saved with
       | UInserted | UUpdated | UUnchanged => Ok tt
       | UConflict => Err (UploadRecordError SessionConflict)
       | UFull => Err (UploadRecordError SessionsFull)
       end).

Definition persist_checkpoint_inner (file : Fd) (record : UploadRecordContext) (durable_offset : Z)
    (sync_parent_ : bool) : Upload Env unit :=
  attempt _ <- ret (up_ensure (durable_offset <=? rc_upload_length record)
    (bs "Upload checkpoint exceeds declared length"));
  attempt stage_identity <- sync_and_identify_stage file (rc_stage_path record) durable_offset;
  attempt _ <- (if sync_parent_ then uio (sync_parent fs (rc_stage_path record)) else ok tt);
  persist_state record durable_offset URunning (Some stage_identity).

Definition persist_checkpoint (file : Fd) (record : UploadRecordContext) (durable_offset : Z) : Upload Env unit :=
  persist_checkpoint_inner file record durable_offset false.

Definition persist_initial_checkpoint (file : Fd) (record : UploadRecordContext) (durable_offset : Z)
    : Upload Env unit :=
  persist_checkpoint_inner file record durable_offset true.

Definition persist_commit_started (file : Fd) (record : UploadRecordContext) : Upload Env unit :=
  attempt stage_identity <- sync_and_identify_stage file (rc_stage_path record) (rc_upload_length record);
  persist_state record (rc_upload_length record) UCommitStarted (Some stage_identity).

Definition persist_awaiting_confirmation (file : Fd) (record : UploadRecordContext) : Upload Env unit :=
  attempt stage_identity <- sync_and_identify_stage file (rc_stage_path record) (rc_upload_length record);
  persist_state record (rc_upload_length record) UAwaitingConfirmation (Some stage_identity).

Definition persist_terminal (record : UploadRecordContext) (durable_offset : Z) (state : UploadRecordState)
    : Upload Env unit :=
  attempt state <- ret (match state with
    | RecCommitted => Ok UCommitted
    | RecRejected => Ok URejected
    | RecRunning => Err (UploadFail (Failed (bs "A terminal upload record cannot be running")))
    | RecAwaitingConfirmation =>
        Err (UploadFail (Failed (bs "A terminal upload record cannot await confirmation")))
    | RecUnknown => Err (UploadFail (Failed (bs "A terminal upload record cannot be unknown")))
    end);
  persist_state record durable_offset state None.

Definition persist_unknown (record : UploadRecordContext) (durable_offset : Z) : Upload Env unit :=
  attempt _ <- ret (up_ensure (durable_offset =? rc_upload_length record)
    (bs "An unknown upload publication must be fully durable"));
  persist_state record durable_offset UUnknown None.

(** ** Reading the session *)

(** [a || b?]. *)
Definition or_else (a : bool) (b : result UploadError bool) : result UploadError bool :=
  if a then Ok true else b.

(** The stored paths are those of this upload. *)
Definition foreign_binding (upload_id expected_target target_path : bytes) (session : StoredUploadSession)
    (stored_target stored_stage : bytes) : result UploadError bool :=
  or_else (negb (path_eqb (us_target_path session) expected_target))
  (or_else (negb (path_eqb stored_target target_path))
  (temp ← is_temp_path stored_target upload_id stored_stage;
   or_else (negb temp)
   (relative ← io_fault (relative_path fs stored_stage);
    Ok (negb (path_eqb relative (us_stage_path session)))))).

Definition classify_stored_session (upload_id expected_target target_path : bytes)
    (session : StoredUploadSession) : Upload Env UploadRecordLookup :=
  attempt stored_target <- ret (io_fault (resolve_stored_path (us_target_path session)));
  attempt stored_stage <- ret (io_fault (resolve_stored_path (us_stage_path session)));
  attempt foreign <-
    ret (or_else (negb (path_eqb (us_target_path session) expected_target))
         (expected ← io_fault (resolve_stored_path expected_target);
          or_else (negb (path_eqb stored_target expected))
            (foreign_binding upload_id expected_target target_path session stored_target stored_stage)));
  if foreign : bool then ok LookupForeignOwner
  else
    attempt lost <-
      (if bool_decide (us_state session = URunning \/ us_state session = UAwaitingConfirmation) &&
          (us_durable_offset session <? us_upload_length session)
       then
         attempt valid <- valid_resumable_stage stored_stage (us_durable_offset session) (us_stage_identity session);
         ok (negb valid)
       else ok false);
    if lost : bool then ok LookupNotSeen else ok (LookupFound (upload_checkpoint session)).

Definition lookup (owner_id upload_id target_path stage_path : bytes) : Upload Env UploadRecordLookup :=
  let key := upload_session_key owner_id upload_id in
  attempt (target_relative, _) <- ret (validated_relative_paths upload_id target_path stage_path);
  attempt found <- load_session key;
  match found with
  | Some session => classify_stored_session upload_id target_relative target_path session
  | None => ok LookupNotSeen
  end.

Definition resumable_state (state : UploadRecordState) : option StoredUploadState :=
  match state with
  | RecRunning => Some URunning
  | RecAwaitingConfirmation => Some UAwaitingConfirmation
  | _ => None
  end.

(** Reopens the very inode of the durable checkpoint. *)
Definition open_resumable_stage (record : UploadRecordContext) (durable_offset : Z)
    (expected_state : UploadRecordState) : Upload Env (option Fd) :=
  let key := upload_session_key (rc_owner_id record) (rc_upload_id record) in
  attempt (target_relative, stage_relative) <-
    ret (validated_relative_paths (rc_upload_id record) (rc_target_path record) (rc_stage_path record));
  attempt found <- load_session key;
  match found with
  | None => ok None
  | Some session =>
      if negb (path_eqb (us_target_path session) target_relative) ||
         negb (path_eqb (us_stage_path session) stage_relative) ||
         negb (us_upload_length session =? rc_upload_length record) ||
         negb (us_durable_offset session =? durable_offset) ||
         negb (bool_decide (resumable_state expected_state = Some (us_state session)))
      then ok None
      else
        match us_stage_identity session with
        | None => ok None
        | Some expected_identity =>
            do opened <- ukernel (match expected_state with
                                  | RecAwaitingConfirmation => open_read fs (rc_stage_path record)
                                  | _ => open_write fs (rc_stage_path record)
                                  end);
            match opened with
            | Err error => if unreachable_kind error then ok None else fail (UploadIo error)
            | Ok file =>
                attempt metadata <- uio (sys_file_metadata file);
                let invalid_length :=
                  match expected_state with
                  | RecRunning => md_len metadata <? durable_offset
                  | RecAwaitingConfirmation => negb (md_len metadata =? durable_offset)
                  | _ => true
                  end in
                ok (if negb (is_stage metadata expected_identity) || invalid_length then None else Some file)
            end
        end
  end.

Definition reject_for_discard (owner_id upload_id target_path stage_path : bytes)
    : Upload Env UploadDiscardLookup :=
  let key := upload_session_key owner_id upload_id in
  attempt (target_relative, _) <- ret (validated_relative_paths upload_id target_path stage_path);
  attempt found <- load_session key;
  match found with
  | None => ok DiscardNotSeen
  | Some existing =>
      attempt stored_target <- ret (io_fault (resolve_stored_path (us_target_path existing)));
      attempt stored_stage <- ret (io_fault (resolve_stored_path (us_stage_path existing)));
      attempt foreign <-
        ret (foreign_binding upload_id target_relative target_path existing stored_target stored_stage);
      if foreign : bool then ok DiscardForeignOwner
      else
        attempt result <- reject_session key target_relative (us_stage_path existing);
        ok (match result with
            | RejNotFound => DiscardNotSeen
            | RejBindingConflict => DiscardForeignOwner
            | RejStateConflict session => DiscardStateConflict (upload_checkpoint session)
            | RejRejected session =>
                DiscardRejected (mkRejected (us_upload_length session) (us_durable_offset session) stored_stage
                                   (us_stage_identity session))
            end)
  end.

(** ** Removing a stage *)

Definition remove_file_if_identity (gate : option IoError) (path : bytes) (expected : StoredFileIdentity)
    : Upload Env StageCleanupOutcome :=
  attempt captured <- uio (capture_entry_for_purge sha256 fs path false);
  match captured with
  | None => ok RemovedOrAbsent
  | Some entry =>
      if negb (bool_decide (te_identity entry =
                 mkDeleteIdentity (StoreModel.fi_device expected) (StoreModel.fi_inode expected) false))
      then ok ReplacementPreserved
      else
        do purged <- ukernel (purge_slice sha256 room gate entry 1);
        ret (match purged with
             | Ok Complete => Ok RemovedOrAbsent
             | Ok (Pending _) => Err (UploadFail (Failed (bs "Upload cleanup did not finish its single-file purge")))
             | Err error => Err (UploadIo (tpe_source error))
             end)
  end.

Definition remove_stage_directory_if_empty (stage_path : bytes) : Upload Env unit :=
  match upload_stage_directory stage_path with
  | Some _ => attempt _ <- uio (remove_empty_upload_stage_directory fs stage_path); ok tt
  | None => ok tt
  end.

Definition cleanup_rejected_stage (gate : option IoError) (record : RejectedUploadRecord) : Upload Env unit :=
  match rj_stage_identity record with
  | None => ok tt
  | Some i =>
      attempt _ <- remove_file_if_identity gate (rj_stage_path record) i;
      remove_stage_directory_if_empty (rj_stage_path record)
  end.

Definition reset (gate : option IoError) (owner_id upload_id target_path stage_path : bytes) : Upload Env unit :=
  let key := upload_session_key owner_id upload_id in
  attempt (target_relative, stage_relative) <- ret (validated_relative_paths upload_id target_path stage_path);
  attempt found <- load_session key;
  match found with
  | None => ok tt
  | Some session =>
      if negb (path_eqb (us_target_path session) target_relative) ||
         negb (path_eqb (us_stage_path session) stage_relative)
      then fail (UploadRecordError SessionConflict)
      else
        attempt cleaned <-
          (match us_stage_identity session with
           | Some i => remove_file_if_identity gate stage_path i
           | None => ok RemovedOrAbsent
           end);
        match cleaned with
        | ReplacementPreserved => fail (UploadRecordError SessionConflict)
        | RemovedOrAbsent =>
            attempt removed <- remove_session session;
            if negb removed then fail (UploadRecordError SessionConflict)
            else remove_stage_directory_if_empty stage_path
        end
  end.

Definition discard_unrecorded_stage (gate : option IoError) (file : Fd) (stage_path : bytes) : Upload Env unit :=
  attempt metadata <- uio (sys_file_metadata file);
  attempt _ <- ret (up_ensure (md_is_file metadata && (md_nlink metadata =? 1))
    (bs "Unrecorded upload stage is not a private regular file"));
  attempt cleaned <-
    remove_file_if_identity gate stage_path (mkIdentity (md_dev metadata) (md_ino metadata));
  match cleaned with
  | ReplacementPreserved => fail (UploadRecordError SessionConflict)
  | RemovedOrAbsent => remove_stage_directory_if_empty stage_path
  end.

(** [rollback_upload_ancestors], and the end of [reset_and_ancestors]. *)
Definition rollback_upload_ancestors (created_ancestors : option (list CreatedAncestor)) : Upload Env unit :=
  match created_ancestors with
  | Some ((_ :: _) as created) => uio (rollback_created_ancestors_blocking fs created)
  | _ => ok tt
  end.

Definition reset_and_ancestors (gate : option IoError) (owner_id upload_id target_path stage_path : bytes)
    (created_ancestors : option (list CreatedAncestor)) : Upload Env unit :=
  attempt _ <- reset gate owner_id upload_id target_path stage_path;
  rollback_upload_ancestors created_ancestors.

(** ** Startup *)

Definition validate_stage_layout (session : StoredUploadSession) : Upload Env unit :=
  let upload_id := key_id (us_key session) in
  let text := uuid_to_string upload_id in
  let context {A} (message : bytes) (r : result IoError A) : result UploadError A :=
    match r with Ok a => Ok a | Err e => Err (UploadIo (mkIoError (io_kind e) (io_raw_os_error e)
      (bs "Upload " ++ text ++ message))) end in
  attempt target_path <-
    ret (context (bs " has an invalid target path") (resolve_stored_path (us_target_path session)));
  attempt stored_stage <-
    ret (context (bs " has an invalid stage path") (resolve_stored_path (us_stage_path session)));
  attempt target_relative <- ret (io_fault (relative_path fs target_path));
  attempt canonical <-
    ret (if path_eqb target_relative (us_target_path session)
         then stage_relative ← io_fault (relative_path fs stored_stage);
              Ok (path_eqb stage_relative (us_stage_path session))
         else Ok false);
  attempt _ <- ret (up_ensure canonical (bs "Upload " ++ text ++ bs " has a non-canonical rooted path"));
  attempt private_stage <- ret (temp_path target_path upload_id);
  attempt _ <- ret (up_ensure (path_eqb stored_stage private_stage)
    (bs "Upload " ++ text ++ bs " has a stage path that does not match its target"));
  let stage_owning := negb (is_terminal (us_state session)) in
  do checked <- ukernel (validate_private_upload_stage fs private_stage (us_stage_identity session));
  attempt validation <- ret (context (bs " has an invalid private staging directory") checked);
  match validation with
  | IdentityMismatch =>
      if stage_owning then
        fail (UploadFail (Failed (bs "Upload " ++ text ++
          match us_stage_identity session with
          | None => bs " has no durable inode identity for its active stage"
          | Some _ => bs " staging identity does not match its active record"
          end)))
      else ok tt
  | _ => ok tt
  end.
End records.
