(* ===== verification/UploadPipeline.v ===== *)
(** The upload pipeline after preparation: receiving the body
    ([src/src/server/upload/transfer.rs]), the outcomes of an upload that stops
    ([src/src/server/upload/failure.rs]), the last checks and the publication
    ([src/src/server/upload/commit.rs]), with the types and problem responses of
    [src/src/server/upload.rs] and [src/src/server/upload/target.rs].

    [cleanup] and [publish] are the answers of the blocking pool to the jobs
    that remove a stage and that rename it. *)

From S2P Require Import Prelude Bytes StdPath Utils StoreModel UuidText InternalNames Http DiskSpace Problem Revisions Listing PathKeys Registry RootedOs RootedFs StageFiles RootedPurge UploadHost UploadRecords UploadProtocol.
From stdpp Require Import base numbers list strings.
Import ErrorCode.

Local Open Scope Z_scope.

Definition DISK_SPACE_RECHECK_BYTES : Z := 8 * 1024 * 1024.
Definition UPLOAD_RESERVATION_METADATA_BYTES : Z := 1024 * 1024 + 64 * 1024.
Definition RESUMABLE_UPLOAD_MIN_SIZE : Z := 20 * 1024 * 1024.

(** The request body: its frames, and how it ended - at the end of the stream,
    with an error, by a forced shutdown, or by waiting past a deadline. *)
Inductive BodyEnd := BodyFinished | BodyFailed (text : bytes) | BodyShutdown | BodyTimedOut.
Record UploadBody := mkBody { ub_frames : list bytes; ub_end : BodyEnd }.

Inductive UploadTransferError :=
| TransferIo (error : IoError)
| IdleTimeout
| TotalTimeout
| ExcessBody
| InsufficientStorage.

Record UploadErrorContext := mkErrorContext {
  ec_upload_id : bytes;
  ec_state : UploadPublicState;
  ec_upload_length : option Z;
  ec_upload_offset : option Z
}.

(** What stays alive from staging to publication ([UploadTransaction] and
    [TransferredUpload]). *)
Record UploadTransaction := mkTransaction {
  ut_target_path : bytes;
  ut_upload_path : bytes;
  ut_owner_id : bytes;
  ut_mode : UploadMode;
  ut_upload_id : bytes;
  ut_upload_length : Z;
  ut_target_identity : ReplacementTargetIdentity;
  ut_target_revision : option bytes;
  ut_checkpoint_state : option UploadRecordState;
  ut_target_metadata : option PreservedFileMetadata;
  ut_created_ancestors : option (list CreatedAncestor);
  ut_file : Fd;
  ut_space_lease : DiskSpaceReservation;
  ut_success_status : Z
}.

Definition is_resume (m : UploadMode) : bool := match m with Resume _ => true | _ => false end.

Definition ut_record (u : UploadTransaction) : UploadRecordContext :=
  record_context (ut_owner_id u) (ut_upload_id u) (ut_target_path u) (ut_upload_path u) (ut_upload_length u).
Definition ut_awaiting (u : UploadTransaction) : bool :=
  bool_decide (ut_checkpoint_state u = Some RecAwaitingConfirmation).
Definition ut_initial_offset (u : UploadTransaction) : Z := default 0 (mode_offset (ut_mode u)).

Section pipeline.
Context {Env : Type} `{Os Env} `{FileOs Env} `{UploadHost Env} `{UuidLib} `{HttpTypes}.
Context (sha256 : bytes -> bytes) (to_string_lossy : bytes -> bytes) (room : nat -> bool) (fs : RootedFs).
Context (attributes_bytes : Z -> option Z) (min_free_space : Z).
Context (cleanup : option IoError) (publish : result IoError unit).

(** ** Problem responses *)

Definition apply_upload_problem (context : UploadErrorContext) (status : Z) (code : ErrorCode) (detail : bytes)
    (recovery : RecoveryAdvice) (res : Response) : result Failure Response :=
  let problem := with_upload (with_recovery (new_api_error status code detail) recovery)
    (mkUploadContext (uuid_to_string (ec_upload_id context)) (ec_state context)
       (ec_upload_length context) (ec_upload_offset context)) in
  res ← render_problem res problem;
  headers ← try (apply_upload_record_headers (res_headers res) (ec_upload_id context)
                   (ec_upload_length context) (ec_upload_offset context) (ec_state context));
  Ok (with_headers res headers).

Definition problem (context : UploadErrorContext) (status : Z) (code : ErrorCode) (detail : bytes)
    (recovery : RecoveryAdvice) : Handler Env unit :=
  respond (apply_upload_problem context status code detail recovery).

Definition apply_upload_unknown (upload_id message : bytes) : Handler Env unit :=
  problem (mkErrorContext upload_id Unknown None None) 408 UPLOAD_OUTCOME_UNKNOWN message QueryUpload.

Definition apply_awaiting_confirmation_problem (upload_id : bytes) (upload_length status : Z) (code : ErrorCode)
    (message : bytes) : Handler Env unit :=
  problem (mkErrorContext upload_id AwaitingConfirmation (Some upload_length) (Some upload_length))
    status code message QueryUpload.

(** [true]: the error was a known failure of the session store and has been
    answered. *)
Definition apply_upload_record_store_problem (context : UploadErrorContext) (error : UploadError)
    : Handler Env bool :=
  match error with
  | UploadDispatch _ =>
      perform _ <- problem context 503 UPLOAD_STATE_UNAVAILABLE
        (bs "Upload state storage is temporarily unavailable") QueryUpload;
      done true
  | UploadRecordError SessionConflict =>
      perform _ <- problem context 409 UPLOAD_SESSION_CONFLICT
        (bs "Upload ID conflicts with an existing session; query it before retrying") QueryUpload;
      done true
  | UploadRecordError SessionsFull =>
      perform _ <- problem context 503 UPLOAD_SESSION_STORE_FULL
        (bs "Upload session capacity is temporarily exhausted") (RetryAfterSeconds 1);
      done true
  | _ => done false
  end.

Definition render_upload_target_conflict (path owner_id : bytes) (context : UploadErrorContext) : Handler Env unit :=
  perform relative <- pure (io_fault (relative_path fs path));
  perform current <- call (uio (replacement_identity_blocking fs path));
  let inspection := inspect_target_identity sha256 owner_id relative current in
  perform _ <- respond (λ res, apply_target_inspection_headers res inspection);
  if ti_exists inspection
  then problem context 409 DESTINATION_EXISTS
         (bs "The upload destination exists and requires explicit overwrite confirmation") RefreshTarget
  else problem context 409 UPLOAD_TARGET_CHANGED
         (bs "The upload destination changed after confirmation; refresh it before retrying") RefreshTarget.

(** [res.headers_mut().insert(UPLOAD_OFFSET_HEADER, ..)]. *)
Definition set_offset (offset : Z) : Handler Env unit :=
  respond (λ res,
    headers ← try (set_header (res_headers res) UPLOAD_OFFSET_HEADER (u64_to_string offset));
    Ok (with_headers res headers)).

(** ** Cleaning up *)

Definition reset_upload (u : UploadTransaction) : Upload Env unit :=
  reset_and_ancestors sha256 to_string_lossy room fs cleanup (ut_owner_id u) (ut_upload_id u)
    (ut_target_path u) (ut_upload_path u) (ut_created_ancestors u).
Definition discard_stage (u : UploadTransaction) : Upload Env unit :=
  discard_unrecorded_stage sha256 room fs cleanup (ut_file u) (ut_upload_path u).

(** A known failure of an upload: it can be resumed at [offset], or starts
    again under a new identifier. *)
Definition stopped (u : UploadTransaction) (offset : option Z) (status : Z) (code : ErrorCode) (message : bytes)
    : Handler Env unit :=
  problem
    (mkErrorContext (ut_upload_id u) (match offset with Some _ => Running | None => Rejected end)
       (Some (ut_upload_length u)) offset)
    status code message (match offset with Some _ => ResumeUpload | None => RetryWithNewId end).

Definition finish_precommit_space_failure (u : UploadTransaction) (message : bytes) : Handler Env unit :=
  if is_resume (ut_mode u) then
    perform truncated <- look (ukernel (sys_set_len (ut_file u) (ut_initial_offset u)));
    perform _ <- (match truncated with
                  | Ok _ => look (do _ <- ukernel (sync_file_to_storage (ut_file u)); ret tt)
                  | Err _ => done tt
                  end);
    stopped u (Some (ut_initial_offset u)) 507 UPLOAD_INSUFFICIENT_STORAGE message
  else
    perform reset <- look (reset_upload u);
    match reset with
    | Err _ =>
        apply_upload_unknown (ut_upload_id u)
          (bs "Upload rollback could not be confirmed after a disk-space failure")
    | Ok _ => stopped u None 507 UPLOAD_INSUFFICIENT_STORAGE message
    end.

Definition finish_precommit_io_failure (u : UploadTransaction) (message : bytes) : Handler Env unit :=
  perform reset <- (if is_resume (ut_mode u) then done (Ok tt) else look (reset_upload u));
  match reset with
  | Err _ =>
      apply_upload_unknown (ut_upload_id u)
        (bs "Upload rollback could not be confirmed after a precommit failure")
  | Ok _ =>
      stopped u (if is_resume (ut_mode u) then Some (ut_initial_offset u) else None) 500
        UPLOAD_PRECOMMIT_FAILED message
  end.

(** [if created_ancestors.is_some() { reset_and_ancestors(..)? }]. *)
Definition reset_created (u : UploadTransaction) : Upload Env unit :=
  match ut_created_ancestors u with Some _ => reset_upload u | None => ok tt end.

(** The end of [finish_timed_out_upload] when the stage could not be recorded:
    a fresh stage is discarded through its descriptor. *)
Definition abandon_timed_out {A} (u : UploadTransaction) (discard : bool) (error : UploadError) : Upload Env A :=
  do discarded <- (if discard then discard_stage u else ok tt);
  attempt _ <- reset_created u;
  attempt _ <- ret discarded;
  fail error.

Definition finish_timed_out_upload (u : UploadTransaction) (message : bytes) : Handler Env unit :=
  let resume_offset := mode_offset (ut_mode u) in
  let fresh := negb (is_resume (ut_mode u)) in
  perform flushed <- look (ukernel (sys_flush (ut_file u)));
  match flushed with
  | Err error => call (abandon_timed_out u fresh (UploadIo error))
  | Ok _ =>
      perform found <- look (ukernel (sys_file_metadata (ut_file u)));
      match found with
      | Err error => call (abandon_timed_out u false (UploadIo error))
      | Ok metadata =>
          let partial_size := md_len metadata in
          let valid := match resume_offset with Some offset => offset <=? partial_size | None => true end in
          perform _ <-
            (if valid && (partial_size <=? ut_upload_length u) &&
                (negb fresh || (RESUMABLE_UPLOAD_MIN_SIZE <=? partial_size))
             then
               perform saved <- look
                 ((if fresh then persist_initial_checkpoint else persist_checkpoint)
                    sha256 to_string_lossy fs (ut_file u) (ut_record u) partial_size);
               match saved with
               | Err error => call (abandon_timed_out u fresh error)
               | Ok _ => set_offset partial_size
               end
             else
               match resume_offset with
               | None =>
                   perform discarded <- look (discard_stage u);
                   perform _ <- call (reset_upload u);
                   pure discarded
               | Some initial_offset =>
                   perform _ <-
                     (if initial_offset <? partial_size then
                        perform _ <- call (uio (sys_set_len (ut_file u) initial_offset));
                        call (uio (sync_file_to_storage (ut_file u)))
                      else done tt);
                   set_offset initial_offset
               end);
          apply_upload_unknown (ut_upload_id u) message
      end
  end.

(** ** Receiving the body *)

Definition transfer_io {A} (r : result IoError A) : result UploadTransferError A :=
  match r with Ok a => Ok a | Err e => Err (TransferIo e) end.

Definition write_upload_chunk (reservation : DiskSpaceReservation) (file : Fd) (data : bytes)
    (bytes_until_space_check : Z) : Up Env (result UploadTransferError (DiskSpaceReservation * Z)) :=
  if beqb data [] then ok (reservation, bytes_until_space_check)
  else if remaining reservation <? blen data then fail ExcessBody
  else
    attempt bytes_until_space_check <-
      (if bytes_until_space_check <=? blen data then
         do available <- check_space reservation file min_free_space;
         ret (match available with
              | Err e => Err (TransferIo e)
              | Ok false => Err InsufficientStorage
              | Ok true => Ok DISK_SPACE_RECHECK_BYTES
              end)
       else ok bytes_until_space_check);
    do written <- ukernel (sys_write file data);
    attempt _ <- ret (transfer_io written);
    do reservation <- consume_space reservation (blen data);
    ok (reservation, u64_saturating_sub bytes_until_space_check (blen data)).

Definition idle_timeout_error : UploadTransferError :=
  TransferIo (io_new InvalidInput (bs "upload idle timeout is too large")).

(** One accepted piece of a frame, and the deadlines after it. *)
Definition accept_chunk (reservation : DiskSpaceReservation) (file : Fd) (data : bytes)
    (bytes_until_space_check : Z) : Up Env (result UploadTransferError (DiskSpaceReservation * Z)) :=
  attempt (reservation, bytes_until_space_check) <-
    write_upload_chunk reservation file data bytes_until_space_check;
  do fits <- idle_deadline;
  if negb fits then fail idle_timeout_error
  else
    do late <- expired;
    if late : bool then fail TotalTimeout else ok (reservation, bytes_until_space_check).

Definition body_end (last : BodyEnd) : Up Env (result UploadTransferError unit) :=
  match last with
  | BodyFinished => ok tt
  | BodyFailed text => fail (TransferIo (io_other text))
  | BodyShutdown =>
      fail (TransferIo (io_new (OtherKind (bs "Interrupted")) (bs "upload interrupted by forced shutdown")))
  | BodyTimedOut => do total <- expired; fail (if total : bool then TotalTimeout else IdleTimeout)
  end.

Fixpoint receive_frames (frames : list bytes) (last : BodyEnd) (file : Fd) (reservation : DiskSpaceReservation)
    (remaining bytes_until_space_check : Z) : Up Env (result UploadTransferError DiskSpaceReservation) :=
  match frames with
  | [] => attempt _ <- body_end last; ok reservation
  | chunk :: frames =>
      if beqb chunk [] then
        receive_frames frames last file reservation remaining bytes_until_space_check
      else
        let accepted_bytes := Z.min remaining (blen chunk) in
        attempt (reservation, bytes_until_space_check) <-
          (if 0 <? accepted_bytes
           then accept_chunk reservation file (take (Z.to_nat accepted_bytes) chunk) bytes_until_space_check
           else ok (reservation, bytes_until_space_check));
        if accepted_bytes <? blen chunk then fail ExcessBody
        else
          receive_frames frames last file reservation (remaining - accepted_bytes) bytes_until_space_check
  end.

Definition receive_upload_body (body : UploadBody) (file : Fd) (reservation : DiskSpaceReservation)
    (remaining : Z) : Up Env (result UploadTransferError DiskSpaceReservation) :=
  do fits <- idle_deadline;
  if negb fits then fail idle_timeout_error
  else receive_frames (ub_frames body) (ub_end body) file reservation remaining DISK_SPACE_RECHECK_BYTES.

(** ** An interrupted transfer *)

Definition partial_upload_is_checkpointable (partial_size initial_offset upload_length : Z) (resume : bool) : bool :=
  (initial_offset <=? partial_size) && (partial_size <=? upload_length) &&
  (resume || (RESUMABLE_UPLOAD_MIN_SIZE <=? partial_size)).

Definition apply_awaiting_confirmation_transfer_error (upload_id : bytes) (upload_length : Z)
    (error : UploadTransferError) : Handler Env unit :=
  let answer status code detail :=
    problem (mkErrorContext upload_id AwaitingConfirmation (Some upload_length) (Some upload_length))
      status code detail QueryUpload in
  match error with
  | TransferIo _ =>
      answer 500 UPLOAD_PRECOMMIT_FAILED (bs "Upload confirmation body failed before publication")
  | IdleTimeout => answer 408 UPLOAD_IDLE_TIMEOUT (bs "Upload confirmation body idle timeout")
  | TotalTimeout =>
      answer 408 REQUEST_TIMEOUT (bs "Upload deadline exceeded while waiting for an empty confirmation body")
  | ExcessBody =>
      answer 413 UPLOAD_BODY_EXCEEDS_REMAINING_LENGTH (bs "Request body exceeds declared remaining upload length")
  | InsufficientStorage =>
      answer 507 UPLOAD_INSUFFICIENT_STORAGE (bs "Insufficient protected free disk space")
  end.

(** Records the partial stage, or removes it; the answer says whether it was
    kept. *)
Definition keep_or_reset (u : UploadTransaction) (partial_size : Z) : Handler Env bool :=
  if partial_upload_is_checkpointable partial_size (ut_initial_offset u) (ut_upload_length u)
       (is_resume (ut_mode u))
  then
    perform _ <- call (persist_checkpoint sha256 to_string_lossy fs (ut_file u)
      (with_target_revision (ut_record u) (ut_target_revision u)) partial_size);
    done true
  else if negb (is_resume (ut_mode u)) then perform _ <- call (reset_upload u); done false
  else broken (UploadIo (io_new InvalidData
    (bs "resumed upload stage length no longer contains its durable checkpoint"))).

(** Restores a resumed stage to its last durable offset. *)
Definition truncate_stage (u : UploadTransaction) : Upload Env unit :=
  attempt _ <- uio (sys_set_len (ut_file u) (ut_initial_offset u));
  uio (sync_file_to_storage (ut_file u)).

Definition finish_failed_transfer (u : UploadTransaction) (error : UploadTransferError) : Handler Env unit :=
  let resume := is_resume (ut_mode u) in
  perform found <- look (ukernel (sys_file_metadata (ut_file u)));
  perform partial_size <-
    (match found with
     | Ok metadata => done (md_len metadata)
     | Err e => if resume then broken (UploadIo e) else done 0
     end);
  let kept := if resume then Some (ut_initial_offset u) else None in
  match error with
  | ExcessBody =>
      perform _ <- call (if resume then truncate_stage u else reset_upload u);
      stopped u kept 413 UPLOAD_BODY_EXCEEDS_REMAINING_LENGTH
        (bs "Request body exceeds declared remaining upload length")
  | InsufficientStorage =>
      perform _ <- call (truncate_stage u);
      perform _ <- call (if resume then ok tt else reset_upload u);
      stopped u kept 507 UPLOAD_INSUFFICIENT_STORAGE (bs "Insufficient protected free disk space")
  | IdleTimeout =>
      perform keep <- keep_or_reset u partial_size;
      perform _ <- (if keep : bool then set_offset partial_size else done tt);
      stopped u (if keep : bool then Some partial_size else None) 408 UPLOAD_IDLE_TIMEOUT
        (bs "upload body idle timeout")
  | TransferIo e =>
      perform _ <- keep_or_reset u partial_size;
      broken (UploadIo e)
  | TotalTimeout => broken (UploadFail Http.Panic)
  end.

(** ** The last checks *)

(** [space_lease.reserved_space_is_available_async(..)] is [Ok(true)]. *)
Definition space_confirmed (u : UploadTransaction) : Up Env bool :=
  do available <- check_space (ut_space_lease u) (ut_file u) min_free_space;
  ret (match available with Ok true => true | _ => false end).

(** A failure before publication of a stage that awaits confirmation leaves it
    as it is; any other upload finishes with [otherwise]. *)
Definition unless_awaiting (u : UploadTransaction) (status : Z) (code : ErrorCode) (message : bytes)
    (otherwise : Handler Env unit) : Handler Env unit :=
  if ut_awaiting u
  then apply_awaiting_confirmation_problem (ut_upload_id u) (ut_upload_length u) status code message
  else otherwise.

(** [if Instant::now() >= deadline]. *)
Definition before_deadline (u : UploadTransaction) (next : Handler Env unit) : Handler Env unit :=
  perform late <- look expired;
  if late : bool then
    unless_awaiting u 408 REQUEST_TIMEOUT (bs "Upload timed out before durable commit")
      (finish_timed_out_upload u (bs "Upload timed out before durable commit"))
  else next.

Definition policy_refusal (e : IoError) : bool :=
  bool_decide (io_kind e = Unsupported \/ io_kind e = PermissionDenied \/ io_kind e = InvalidData).

(** The stage does not have the declared length. *)
Definition length_mismatch (u : UploadTransaction) (actual_length : Z) : Handler Env unit :=
  let detail := bs "Upload is incomplete: expected " ++ u64_to_string (ut_upload_length u) ++
    bs " bytes, stored " ++ u64_to_string actual_length in
  if actual_length <? ut_upload_length u then
    perform _ <- call (persist_checkpoint sha256 to_string_lossy fs (ut_file u)
      (with_target_revision (ut_record u) (ut_target_revision u)) actual_length);
    perform _ <- set_offset actual_length;
    stopped u (Some actual_length) 409 UPLOAD_LENGTH_MISMATCH detail
  else
    perform _ <- call (reset_upload u);
    stopped u None 409 UPLOAD_LENGTH_MISMATCH detail.

(** Attributes of the replaced target, and what follows if they cannot be set. *)
Definition replay_metadata (u : UploadTransaction) (next : Handler Env unit) : Handler Env unit :=
  match ut_target_metadata u with
  | None => next
  | Some metadata =>
      perform applied <- look (ukernel (apply_replacement_metadata attributes_bytes (ut_file u) metadata));
      match applied with
      | Ok _ => next
      | Err error =>
          if ut_awaiting u then
            if policy_refusal error
            then apply_awaiting_confirmation_problem (ut_upload_id u) (ut_upload_length u) 409
                   UPLOAD_METADATA_PRESERVATION_REFUSED
                   (bs "Cannot preserve target metadata; overwrite was refused")
            else apply_awaiting_confirmation_problem (ut_upload_id u) (ut_upload_length u) 500
                   UPLOAD_PRECOMMIT_FAILED (bs "Target metadata replay failed before commit")
          else
            perform _ <- call (reset_upload u);
            if policy_refusal error
            then problem (mkErrorContext (ut_upload_id u) Rejected (Some (ut_upload_length u)) None) 409
                   UPLOAD_METADATA_PRESERVATION_REFUSED
                   (bs "Cannot preserve target metadata; overwrite was refused") RefreshTarget
            else broken (UploadIo error)
      end
  end.

(** A known failure right before publication: the upload is rolled back. *)
Definition roll_back (u : UploadTransaction) (unknown : bytes) (status : Z) (code : ErrorCode) (message : bytes)
    : Handler Env unit :=
  perform reset <- look (reset_upload u);
  match reset with
  | Err _ => apply_upload_unknown (ut_upload_id u) unknown
  | Ok _ => stopped u None status code message
  end.

(** ** Publication *)

Definition bound_record (u : UploadTransaction) : UploadRecordContext :=
  with_target_revision (ut_record u) (ut_target_revision u).

(** [remove_empty_upload_stage_directory], whose failure is only logged. *)
Definition tidy_stage_directory (u : UploadTransaction) : Handler Env unit :=
  look (do _ <- ukernel (remove_empty_upload_stage_directory fs (ut_upload_path u)); ret tt).

Definition publication_rejected (u : UploadTransaction) (file : Fd) : Handler Env unit :=
  perform kept <- look (persist_awaiting_confirmation sha256 to_string_lossy fs file (bound_record u));
  match kept with
  | Err _ =>
      apply_upload_unknown (ut_upload_id u)
        (bs "Upload was not published, but its retained stage could not be confirmed")
  | Ok _ =>
      render_upload_target_conflict (ut_target_path u) (ut_owner_id u)
        (mkErrorContext (ut_upload_id u) AwaitingConfirmation (Some (ut_upload_length u))
           (Some (ut_upload_length u)))
  end.

Definition publication_failed (u : UploadTransaction) : Handler Env unit :=
  perform _ <- call (reset_upload u);
  perform _ <- look (do _ <- persist_terminal sha256 to_string_lossy fs (ut_record u) 0 RecRejected; ret tt);
  stopped u None 500 UPLOAD_NOT_PUBLISHED (bs "Upload was not published; retry the upload").

Definition publication_unknown (u : UploadTransaction) : Handler Env unit :=
  perform _ <- look (do _ <- persist_unknown sha256 to_string_lossy fs (ut_record u) (ut_upload_length u); ret tt);
  perform _ <- tidy_stage_directory u;
  problem (mkErrorContext (ut_upload_id u) Unknown (Some (ut_upload_length u)) (Some (ut_upload_length u)))
    500 UPLOAD_PUBLICATION_DURABILITY_UNKNOWN
    (bs "Upload commit was not confirmed; refresh the folder before trying again") QueryUpload.

Definition publication_done (u : UploadTransaction) : Handler Env unit :=
  perform _ <- tidy_stage_directory u;
  perform recorded <- look (persist_terminal sha256 to_string_lossy fs (ut_record u) (ut_upload_length u) RecCommitted);
  match recorded with
  | Err _ =>
      problem (mkErrorContext (ut_upload_id u) Unknown (Some (ut_upload_length u)) (Some (ut_upload_length u)))
        500 UPLOAD_TERMINAL_RECORD_FAILED
        (bs ("Upload was published, but terminal confirmation could not be persisted; " ++
             "query the upload ID before any retry")) QueryUpload
  | Ok _ =>
      respond (λ res,
        let res := with_status res (ut_success_status u) in
        headers ← try (apply_upload_record_headers (res_headers res) (ut_upload_id u)
          (Some (ut_upload_length u)) (Some (ut_upload_length u)) Committed);
        Ok (with_headers res headers))
  end.

Definition commit_ready_upload (u : UploadTransaction) : Handler Env unit :=
  perform outcome <- look (ukernel (commit_staged_file fs publish (ut_file u) (ut_upload_path u)
    (ut_target_path u) (ut_target_identity u)));
  match outcome with
  | StagedPublished => publication_done u
  | StagedRejected file => publication_rejected u file
  | StagedNotPublished _ => publication_failed u
  | StagedDurabilityUnknown _ => publication_unknown u
  end.

(** The record that the publication has begun, and the publication. *)
Definition record_and_publish (u : UploadTransaction) : Handler Env unit :=
  perform started <- look (persist_commit_started sha256 to_string_lossy fs (ut_file u) (bound_record u));
  match started with
  | Err _ =>
      roll_back u (bs "Upload rollback could not be confirmed before publication") 500
        UPLOAD_CHECKPOINT_PERSIST_FAILED (bs "Upload was not published; retry with a new upload ID")
  | Ok _ =>
      perform enough <- look (space_confirmed u);
      if negb enough then
        roll_back u (bs "Upload rollback could not be confirmed before publication") 507
          UPLOAD_INSUFFICIENT_STORAGE (bs "Insufficient protected free disk space before publication")
      else commit_ready_upload u
  end.

(** From the replayed attributes to the publication: nothing here is cancelled. *)
Definition commit_segment (u : UploadTransaction) : Handler Env unit :=
  replay_metadata u
  (perform enough <- look (space_confirmed u);
   if negb enough then
     unless_awaiting u 507 UPLOAD_INSUFFICIENT_STORAGE
       (bs "Insufficient protected free disk space before publication")
       (roll_back u (bs "Upload rollback could not be confirmed after metadata replay") 507
          UPLOAD_INSUFFICIENT_STORAGE (bs "Insufficient protected free disk space before publication"))
   else record_and_publish u).

Definition prepare_transferred_upload (u : UploadTransaction) : Handler Env unit :=
  perform flushed <- look (ukernel (sys_flush (ut_file u)));
  match flushed with
  | Err _ =>
      unless_awaiting u 500 UPLOAD_PRECOMMIT_FAILED (bs "Upload staging flush failed before commit")
        (finish_precommit_io_failure u (bs "Upload staging flush failed before commit"))
  | Ok _ =>
      perform enough <- look (space_confirmed u);
      if negb enough then
        unless_awaiting u 507 UPLOAD_INSUFFICIENT_STORAGE
          (bs "Protected free disk space could not be confirmed before commit")
          (finish_precommit_space_failure u (bs "Protected free disk space could not be confirmed before commit"))
      else
        before_deadline u
        (perform found <- look (ukernel (sys_file_metadata (ut_file u)));
         match found with
         | Err error =>
             unless_awaiting u 500 UPLOAD_PRECOMMIT_FAILED (bs "Upload staging metadata failed before commit")
               (broken (UploadIo error))
         | Ok metadata =>
             before_deadline u
             (if negb (md_len metadata =? ut_upload_length u)
              then unless_awaiting u 409 UPLOAD_STAGE_INVALID (bs "Upload staging file changed before commit")
                     (length_mismatch u (md_len metadata))
              else before_deadline u (commit_segment u))
         end)
  end.

Definition with_lease (u : UploadTransaction) (lease : DiskSpaceReservation) : UploadTransaction :=
  mkTransaction (ut_target_path u) (ut_upload_path u) (ut_owner_id u) (ut_mode u) (ut_upload_id u)
    (ut_upload_length u) (ut_target_identity u) (ut_target_revision u) (ut_checkpoint_state u)
    (ut_target_metadata u) (ut_created_ancestors u) (ut_file u) lease (ut_success_status u).

Definition transfer_upload_body (u : UploadTransaction) (body : UploadBody) : Handler Env unit :=
  if ut_upload_length u <? ut_initial_offset u then broken (UploadFail Http.Panic)
  else
    perform transferred <- look (receive_upload_body body (ut_file u) (ut_space_lease u)
      (ut_upload_length u - ut_initial_offset u));
    match transferred with
    | Ok lease => prepare_transferred_upload (with_lease u lease)
    | Err error =>
        if ut_awaiting u
        then apply_awaiting_confirmation_transfer_error (ut_upload_id u) (ut_upload_length u) error
        else
          match error with
          | TotalTimeout => finish_timed_out_upload u (bs "Upload deadline exceeded; the final result is unknown")
          | _ => finish_failed_transfer u error
          end
    end.
End pipeline.
