(* ===== verification/UploadPrepare.v ===== *)
(** Preparing an upload ([src/src/server/upload/prepare.rs]) and the endpoints
    of [src/src/server/upload.rs]: uploading, asking for the state of an upload
    and discarding a stage that awaits confirmation. *)

From S2P Require Import Prelude Bytes StdPath Utils StoreModel UuidText InternalNames Http DiskSpace Problem Revisions Listing PathKeys Registry RootedOs RootedFs StageFiles RootedPurge UploadHost UploadRecords UploadPipeline UploadProtocol.
From stdpp Require Import base numbers list strings.
Import ErrorCode.

Local Open Scope Z_scope.

Record UploadOptions := mkOptions {
  uo_owner : bytes;
  uo_mode : UploadMode;
  uo_upload_id : bytes;
  uo_upload_length : Z;
  uo_overwrite : UploadOverwritePolicy
}.

Definition awaiting_stage_is_create_only (checkpoint : UploadCheckpoint) : bool :=
  bool_decide (cp_state checkpoint = RecAwaitingConfirmation) &&
  bool_decide (cp_target_revision checkpoint = None).

(** [None]: the request has been answered, [return Ok(None)]. *)
Notation "'proceed' x <- m ; k" := (then_do m (λ o, match o with Some x => k | None => done None end))
  (at level 100, x pattern, m at level 100, k at level 200, right associativity) : handler_scope.

Section prepare.
Context {Env : Type} `{Os Env} `{FileOs Env} `{UploadHost Env} `{UuidLib} `{HttpTypes}.
Context (sha256 : bytes -> bytes) (to_string_lossy : bytes -> bytes) (room : nat -> bool) (fs : RootedFs).
Context (attributes_bytes : Z -> option Z) (min_free_space max_upload_size : Z).
Context (cleanup : option IoError) (publish : result IoError unit).

Local Abbreviation problem := (problem (Env := Env)).

(** The request is answered with a problem. *)
Definition refuse {A} (context : UploadErrorContext) (status : Z) (code : ErrorCode) (detail : bytes)
    (recovery : RecoveryAdvice) : Handler Env (option A) :=
  perform _ <- problem context status code detail recovery; done None.

Definition refuse_unseen {A} (upload_id : bytes) : Handler Env (option A) :=
  refuse (mkErrorContext upload_id NotSeen None None) 404 UPLOAD_SESSION_NOT_FOUND (bs "Not Found") RetryWithNewId.

Definition upload_deadline_expired (upload_id message : bytes) : Handler Env (option unit) :=
  perform late <- look expired;
  if late : bool then perform _ <- apply_upload_unknown upload_id message; done None else done (Some tt).

Definition timed_out_before_mutation {A} (options : UploadOptions) (upload_offset : option Z) (message : bytes)
    : Handler Env (option A) :=
  refuse (mkErrorContext (uo_upload_id options) NotStarted (Some (uo_upload_length options)) upload_offset)
    408 REQUEST_TIMEOUT message Retry.

Definition upload_deadline_expired_before_mutation (options : UploadOptions) (message : bytes)
    : Handler Env (option unit) :=
  perform late <- look expired;
  if late : bool then timed_out_before_mutation options (mode_offset (uo_mode options)) message
  else done (Some tt).

Definition begin_upload_mutation_or_reject (options : UploadOptions) (message : bytes) : Handler Env (option unit) :=
  perform begun <- look begin_upload_mutation;
  if begun : bool then done (Some tt)
  else timed_out_before_mutation options (mode_offset (uo_mode options)) message.

(** ** The session *)

(** What an existing record allows: [None] is an answered request. *)
Definition check_record (options : UploadOptions) (path owner_id : bytes) (record : UploadCheckpoint)
    : Handler Env (option unit) :=
  let upload_id := uo_upload_id options in
  let upload_length := uo_upload_length options in
  let resume := is_resume (uo_mode options) in
  let at_record state := mkErrorContext upload_id state (Some (cp_upload_length record)) (Some (cp_durable_offset record)) in
  match cp_state record with
  | RecCommitted =>
      let same_length := cp_upload_length record =? upload_length in
      perform _ <- respond (λ res, Ok (with_status res (if same_length then 200 else 409)));
      if negb same_length then
        refuse (at_record Committed) 409 UPLOAD_COMMITTED_LENGTH_MISMATCH
          (bs "Upload ID is already committed with length " ++ u64_to_string (cp_upload_length record)) QueryUpload
      else
        perform _ <- respond (λ res,
          headers ← try (apply_upload_record_headers (res_headers res) upload_id
            (Some (cp_upload_length record)) (Some (cp_durable_offset record)) Committed);
          Ok (with_headers res headers));
        done None
  | RecRejected =>
      refuse (at_record Rejected) 409 UPLOAD_ID_REJECTED
        (bs "Upload ID was rejected; start with a new upload ID") RetryWithNewId
  | RecRunning =>
      if negb resume then
        refuse (at_record Running) 409 UPLOAD_IN_PROGRESS
          (bs "Upload ID is already running or awaiting terminal confirmation; query its status") QueryUpload
      else done (Some tt)
  | RecAwaitingConfirmation =>
      if negb resume then
        perform _ <- render_upload_target_conflict sha256 fs path owner_id (at_record AwaitingConfirmation);
        done None
      else if negb (cp_upload_length record =? upload_length) then
        refuse (at_record AwaitingConfirmation) 409 UPLOAD_LENGTH_CHANGED
          (bs "Upload length changed: expected " ++ u64_to_string (cp_upload_length record) ++
           bs ", received " ++ u64_to_string upload_length) QueryUpload
      else if negb (bool_decide (mode_offset (uo_mode options) = Some (cp_durable_offset record))) then
        refuse (at_record AwaitingConfirmation) 409 UPLOAD_OFFSET_CHANGED
          (bs "Upload offset changed; query it again") QueryUpload
      else done (Some tt)
  | RecUnknown =>
      refuse (at_record Unknown) 500 UPLOAD_PUBLICATION_OUTCOME_UNKNOWN
        (bs "Upload publication outcome is unknown; query or refresh before retrying") QueryUpload
  end.

(** [track_active_upload_files] of a resumed upload. *)
Definition track_resumed (options : UploadOptions) (upload_path : bytes) : Handler Env (option unit) :=
  perform tracked <- look (track_files upload_path);
  match tracked with
  | Ok _ => done (Some tt)
  | Err error =>
      if missing_kind error then refuse_unseen (uo_upload_id options)
      else if bool_decide (io_kind error = TimedOut) then
        proceed _ <- upload_deadline_expired_before_mutation options
          (bs "Upload deadline exceeded during preparation");
        done None
      else broken (UploadIo error)
  end.

(** ** The target *)

Definition is_state (record : option UploadCheckpoint) (state : UploadRecordState) : bool :=
  match record with Some record => bool_decide (cp_state record = state) | None => false end.

Definition conflict_state (record : option UploadCheckpoint) : UploadPublicState :=
  if is_state record RecAwaitingConfirmation then AwaitingConfirmation
  else if is_state record RecRunning then Running
  else NotStarted.

(** The object an upload may replace, and the attributes it has to keep. *)
Definition check_target (options : UploadOptions) (path owner_id : bytes) (record : option UploadCheckpoint)
    : Handler Env (option (ReplacementTargetIdentity * option PreservedFileMetadata)) :=
  let context := mkErrorContext (uo_upload_id options) (conflict_state record) (Some (uo_upload_length options))
    (cp_durable_offset <$> record) in
  let conflict := perform _ <- render_upload_target_conflict sha256 fs path owner_id context; done None in
  perform inspected <- call (uio (replacement_identity_blocking fs path));
  perform relative <- pure (io_fault (relative_path fs path));
  let inspection := inspect_target_identity sha256 owner_id relative inspected in
  let may_finish_staging := is_resume (uo_mode options) && is_state record RecRunning in
  match uo_overwrite options with
  | NoReplace =>
      if ti_exists inspection && negb may_finish_staging then
        perform _ <- respond (λ res, apply_target_inspection_headers res inspection);
        refuse context 409 DESTINATION_EXISTS
          (bs "The upload destination exists and requires explicit overwrite confirmation") RefreshTarget
      else if match record with
              | Some record =>
                  bool_decide (cp_state record = RecAwaitingConfirmation) &&
                  negb (awaiting_stage_is_create_only record)
              | None => false
              end
      then
        refuse (mkErrorContext (uo_upload_id options) AwaitingConfirmation (Some (uo_upload_length options))
                  (cp_durable_offset <$> record))
          409 UPLOAD_METADATA_PRESERVATION_REFUSED
          (bs ("The retained stage contains metadata from a replaced target; " ++
               "discard it and start a new create-only upload")) RefreshTarget
      else done (Some (Missing, None))
  | IfUnchanged expected =>
      if negb (bool_decide (ti_revision inspection = Some expected)) || negb (ti_replaceable inspection)
      then conflict
      else
        perform found <- look (ukernel (replacement_metadata fs attributes_bytes path));
        match found with
        | Err error => if policy_refusal error then conflict else broken (UploadIo error)
        | Ok target =>
            if negb (bool_decide (target_revision sha256 owner_id relative (rt_identity target) = Some expected))
            then conflict
            else done (Some (rt_identity target, rt_metadata target))
        end
  end.

(** ** The checkpoint *)

Definition resumed_state (record : UploadCheckpoint) : UploadPublicState :=
  match cp_state record with RecAwaitingConfirmation => AwaitingConfirmation | _ => Running end.

(** A resumed upload needs a record; length and offset must be the recorded ones. *)
Definition check_checkpoint (options : UploadOptions) (record : option UploadCheckpoint)
    : Handler Env (option (option UploadCheckpoint)) :=
  proceed session_checkpoint <-
    (if is_resume (uo_mode options)
     then match record with
          | None => refuse_unseen (uo_upload_id options)
          | Some checkpoint => done (Some (Some checkpoint))
          end
     else done (Some None));
  proceed _ <- upload_deadline_expired_before_mutation options
    (bs "Upload deadline exceeded while preparing the checkpoint");
  match session_checkpoint with
  | None => done (Some None)
  | Some checkpoint =>
      let context := mkErrorContext (uo_upload_id options) (resumed_state checkpoint)
        (Some (cp_upload_length checkpoint)) (Some (cp_durable_offset checkpoint)) in
      if negb (cp_upload_length checkpoint =? uo_upload_length options) then
        refuse context 409 UPLOAD_LENGTH_CHANGED
          (bs "Upload length changed: expected " ++ u64_to_string (cp_upload_length checkpoint) ++
           bs ", received " ++ u64_to_string (uo_upload_length options)) QueryUpload
      else if negb (cp_durable_offset checkpoint =? default 0 (mode_offset (uo_mode options))) then
        refuse context 409 UPLOAD_OFFSET_CHANGED (bs "Upload offset changed; query it again") QueryUpload
      else done (Some (Some checkpoint))
  end.

(** The bytes still to come; a longer body is refused at once. *)
Definition check_body_length (options : UploadOptions) (checkpoint : option UploadCheckpoint)
    (request_body_length : option Z) : Handler Env (option Z) :=
  let initial_offset := default 0 (mode_offset (uo_mode options)) in
  let remaining := uo_upload_length options - initial_offset in
  if remaining <? 0 then
    broken (UploadFail (Failed (bs "Upload offset " ++ u64_to_string initial_offset ++
      bs " exceeds total length " ++ u64_to_string (uo_upload_length options))))
  else if match request_body_length with Some body_length => remaining <? body_length | None => false end then
    let '(state, recovery) :=
      match checkpoint with
      | Some record =>
          match cp_state record with
          | RecAwaitingConfirmation => (AwaitingConfirmation, QueryUpload)
          | _ => (Running, ResumeUpload)
          end
      | None => (Rejected, RetryWithNewId)
      end in
    refuse (mkErrorContext (uo_upload_id options) state (Some (uo_upload_length options))
              (mode_offset (uo_mode options)))
      413 UPLOAD_BODY_EXCEEDS_REMAINING_LENGTH (bs "Request body exceeds declared remaining upload length") recovery
  else done (Some remaining).

(** ** The stage of a fresh upload *)

(** [discard_unrecorded_stage], then the created ancestors, then the result of
    the first. *)
Definition discard_fresh (file : Fd) (upload_path : bytes) (created : list CreatedAncestor) : Upload Env unit :=
  do discarded <- discard_unrecorded_stage sha256 room fs cleanup file upload_path;
  attempt _ <- rollback_upload_ancestors fs (Some created);
  ret discarded.

Definition create_fresh_stage (options : UploadOptions) (upload_path : bytes) (remaining : Z)
    : Handler Env (option (Fd * list CreatedAncestor * DiskSpaceReservation)) :=
  let upload_id := uo_upload_id options in
  let upload_length := uo_upload_length options in
  perform reservation_anchor <- call (uio (open_nearest_existing_parent fs upload_path));
  perform reserved <- look (reserve_space reservation_anchor remaining UPLOAD_RESERVATION_METADATA_BYTES min_free_space);
  perform reserved <- pure (io_fault reserved);
  match reserved with
  | None =>
      refuse (mkErrorContext upload_id Rejected (Some upload_length) None) 507 UPLOAD_INSUFFICIENT_STORAGE
        (bs "Insufficient protected free disk space") RetryWithNewId
  | Some space_lease =>
      proceed _ <- upload_deadline_expired_before_mutation options
        (bs "Upload deadline exceeded while reserving disk space");
      proceed _ <- begin_upload_mutation_or_reject options
        (bs "Upload timed out before creating its staging namespace");
      perform stage <- look (ukernel (create_private_upload_stage fs upload_path));
      match stage with
      | Err error =>
          if bool_decide (io_kind error = AlreadyExists) then
            refuse (mkErrorContext upload_id NotSeen (Some upload_length) None) 409 UPLOAD_STAGE_CONFLICT
              (bs "Upload staging path is already occupied; retry with a new upload ID") RetryWithNewId
          else broken (UploadIo error)
      | Ok (file, created) =>
          let message := bs "Upload deadline exceeded during preparation" in
          perform tracked <- look (track_files upload_path);
          match tracked with
          | Err error =>
              perform _ <- call (discard_fresh file upload_path created);
              if bool_decide (io_kind error = TimedOut) then
                proceed _ <- upload_deadline_expired upload_id message; done None
              else broken (UploadIo error)
          | Ok _ =>
              perform late <- look expired;
              if late : bool then
                perform _ <- apply_upload_unknown upload_id message;
                perform _ <- call (discard_fresh file upload_path created);
                done None
              else done (Some (file, created, space_lease))
          end
      end
  end.

(** ** Opening the stage *)

Definition transaction (options : UploadOptions) (path upload_path owner_id : bytes)
    (target : ReplacementTargetIdentity * option PreservedFileMetadata) (checkpoint : option UploadCheckpoint)
    (created : option (list CreatedAncestor)) (file : Fd) (lease : DiskSpaceReservation) (status : Z)
    : UploadTransaction :=
  mkTransaction path upload_path owner_id (uo_mode options) (uo_upload_id options) (uo_upload_length options)
    target.1 (policy_revision (uo_overwrite options)) (cp_state <$> checkpoint) target.2 created file lease status.

(** Finishes an upload whose deadline has passed. *)
Definition time_out {A} (u : UploadTransaction) (message : bytes) : Handler Env (option A) :=
  perform _ <- finish_timed_out_upload sha256 to_string_lossy room fs cleanup u message; done None.

(** The first record of a fresh stage. *)
Definition record_fresh_stage (u : UploadTransaction) : Handler Env (option unit) :=
  perform late <- look expired;
  if late : bool then time_out u (bs "Upload deadline exceeded while preparing the staging file")
  else
    perform saved <- look (persist_initial_checkpoint sha256 to_string_lossy fs (ut_file u)
      (with_target_revision (ut_record u) (ut_target_revision u)) 0);
    match saved with
    | Ok _ => done (Some tt)
    | Err error =>
        perform discarded <- look (discard_unrecorded_stage sha256 room fs cleanup (ut_file u) (ut_upload_path u));
        perform removed <- look (reset sha256 to_string_lossy room fs cleanup (ut_owner_id u) (ut_upload_id u)
          (ut_target_path u) (ut_upload_path u));
        perform rolled_back <- look (rollback_upload_ancestors fs (ut_created_ancestors u));
        perform _ <- pure discarded;
        perform _ <- pure removed;
        perform _ <- pure rolled_back;
        broken error
    end.

(** A resumed stage is cut back to the recorded offset, and the record is bound
    to the revision of this request. *)
Definition resume_stage (options : UploadOptions) (path upload_path owner_id : bytes) (offset : Z)
    (checkpoint : UploadCheckpoint) : Handler Env (option Fd) :=
  let record := record_context owner_id (uo_upload_id options) path upload_path (uo_upload_length options) in
  let revision := policy_revision (uo_overwrite options) in
  perform opened <- call (open_resumable_stage sha256 to_string_lossy fs record offset (cp_state checkpoint));
  match opened with
  | None =>
      refuse (mkErrorContext (uo_upload_id options) (resumed_state checkpoint) (Some (uo_upload_length options))
                (Some offset))
        409 UPLOAD_STAGE_INVALID (bs "Upload staging file is invalid; restart the upload") QueryUpload
  | Some file =>
      perform metadata <- call (uio (sys_file_metadata file));
      perform _ <- call (uio (sys_seek file offset));
      proceed _ <- upload_deadline_expired_before_mutation options
        (bs "Upload deadline exceeded before resuming the staging file");
      proceed _ <-
        (if offset <? md_len metadata then
           proceed _ <- begin_upload_mutation_or_reject options
             (bs "Upload timed out before truncating its staging file");
           perform _ <- call (uio (sys_set_len file offset));
           done (Some tt)
         else done (Some tt));
      proceed _ <-
        (if bool_decide (cp_state checkpoint = RecRunning) &&
            negb (bool_decide (cp_target_revision checkpoint = revision))
         then
           proceed _ <- begin_upload_mutation_or_reject options
             (bs "Upload timed out before updating its resumable state");
           perform _ <- call (persist_checkpoint sha256 to_string_lossy fs file
             (with_target_revision record revision) offset);
           done (Some tt)
         else done (Some tt));
      done (Some file)
  end.

(** A resumed upload that has not changed anything may still be told so. *)
Definition deadline_gate (options : UploadOptions) (u : UploadTransaction) (message : bytes)
    : Handler Env (option unit) :=
  perform late <- look expired;
  perform untouched <-
    (if late && is_resume (uo_mode options)
     then perform begun <- look outcome_can_be_unknown; done (negb begun)
     else done false);
  if untouched : bool then
    proceed _ <- upload_deadline_expired_before_mutation options message; done None
  else
    perform late <- look expired;
    if late : bool then time_out u message else done (Some tt).

(** ** The reservation *)

Definition reserve_for (options : UploadOptions) (u : UploadTransaction) (remaining : Z)
    (pre_reserved : option DiskSpaceReservation) : Handler Env (option UploadTransaction) :=
  perform reservation <-
    (match pre_reserved with
     | Some lease => done (Some lease)
     | None =>
         perform reserved <- look (reserve_space (ut_file u) remaining UPLOAD_RESERVATION_METADATA_BYTES min_free_space);
         pure (io_fault reserved)
     end);
  match reservation with
  | None =>
      if ut_awaiting u then
        perform _ <- apply_awaiting_confirmation_problem (ut_upload_id u) (ut_upload_length u) 507
          UPLOAD_INSUFFICIENT_STORAGE (bs "Insufficient protected free disk space");
        done None
      else
        perform _ <- call (if is_resume (ut_mode u) then ok tt
                           else reset_upload sha256 to_string_lossy room fs cleanup u);
        perform _ <- stopped u (mode_offset (ut_mode u)) 507 UPLOAD_INSUFFICIENT_STORAGE
          (bs "Insufficient protected free disk space");
        done None
  | Some lease =>
      let u := with_lease u lease in
      let message := bs "Protected free disk space could not be confirmed after staging preparation" in
      perform enough <- look (space_confirmed min_free_space u);
      if negb enough then
        if ut_awaiting u then
          perform _ <- apply_awaiting_confirmation_problem (ut_upload_id u) (ut_upload_length u) 507
            UPLOAD_INSUFFICIENT_STORAGE message;
          done None
        else
          proceed _ <- begin_upload_mutation_or_reject options
            (bs "Upload timed out before finalizing a disk-space failure");
          perform _ <- finish_precommit_space_failure sha256 to_string_lossy room fs cleanup u message;
          done None
      else
        proceed _ <- deadline_gate options u (bs "Upload deadline exceeded while reserving disk space");
        proceed _ <- begin_upload_mutation_or_reject options
          (bs "Upload timed out before transferring its request body");
        done (Some u)
  end.

(** ** [prepare_upload] *)

(** The stage, opened and recorded. *)
Definition open_stage (options : UploadOptions) (path upload_path owner_id : bytes)
    (target : ReplacementTargetIdentity * option PreservedFileMetadata) (checkpoint : option UploadCheckpoint)
    (remaining : Z) : Handler Env (option (UploadTransaction * option DiskSpaceReservation)) :=
  let build := transaction options path upload_path owner_id target checkpoint in
  match mode_offset (uo_mode options), checkpoint with
  | None, _ =>
      proceed (file, created, lease) <- create_fresh_stage options upload_path remaining;
      let u := build (Some created) file lease 201 in
      proceed _ <- record_fresh_stage u;
      done (Some (u, Some lease))
  | Some offset, Some record =>
      proceed file <- resume_stage options path upload_path owner_id offset record;
      done (Some (build None file (mkReservation 0 0 0) 204, None))
  | Some _, None => broken (UploadFail Http.Panic)
  end.

Definition prepare_upload (path : bytes) (options : UploadOptions) (request_body_length : option Z)
    : Handler Env (option UploadTransaction) :=
  let upload_id := uo_upload_id options in
  let owner_id := owner_persistent sha256 (uo_owner options) in
  let resume := is_resume (uo_mode options) in
  let during := bs "Upload deadline exceeded during preparation" in
  perform _ <- respond (λ res,
    headers ← try (set_header (res_headers res) UPLOAD_ID_HEADER (uuid_to_string upload_id));
    Ok (with_headers res headers));
  proceed _ <- upload_deadline_expired_before_mutation options during;
  perform upload_path <- pure (temp_path sha256 to_string_lossy path upload_id);
  perform looked_up <- call (UploadRecords.lookup sha256 to_string_lossy fs owner_id upload_id path upload_path);
  proceed existing_record <-
    (match looked_up with
     | LookupFound record => done (Some (Some record))
     | LookupNotSeen => done (Some None)
     | LookupForeignOwner => refuse_unseen upload_id
     end);
  proceed _ <-
    (match existing_record with
     | Some record => check_record options path owner_id record
     | None =>
         if max_upload_size <? uo_upload_length options then
           refuse (mkErrorContext upload_id Rejected (Some (uo_upload_length options)) None) 413
             UPLOAD_SIZE_LIMIT_EXCEEDED
             (bs "Upload length " ++ u64_to_string (uo_upload_length options) ++
              bs " exceeds the configured maximum of " ++ u64_to_string max_upload_size ++ bs " bytes") NoAdvice
         else done (Some tt)
     end);
  proceed _ <-
    (if resume then
       proceed _ <- track_resumed options upload_path;
       upload_deadline_expired_before_mutation options during
     else done (Some tt));
  proceed target <- check_target options path owner_id existing_record;
  proceed _ <- upload_deadline_expired_before_mutation options
    (bs "Upload deadline exceeded while inspecting the target");
  proceed checkpoint <- check_checkpoint options existing_record;
  proceed remaining <- check_body_length options checkpoint request_body_length;
  proceed (u, pre_reserved) <- open_stage options path upload_path owner_id target checkpoint remaining;
  proceed _ <- deadline_gate options u (bs "Upload deadline exceeded while preparing the staging file");
  reserve_for options u remaining pre_reserved.

(** ** The endpoints *)

(** [handle_upload]: known failures of the session store are answered. *)
Definition handle_upload (path : bytes) (options : UploadOptions) (request_body_length : option Z)
    (body : UploadBody) : Handler Env unit := λ res,
  do (r, res) <-
    (perform prepared <- prepare_upload path options request_body_length;
     match prepared with
     | None => done tt
     | Some u =>
         transfer_upload_body sha256 to_string_lossy room fs attributes_bytes min_free_space cleanup publish u body
     end) res;
  match r with
  | Ok _ => ret (Ok tt, res)
  | Err error =>
      (perform answered <- apply_upload_record_store_problem
         (mkErrorContext (uo_upload_id options) Unknown (Some (uo_upload_length options))
            (mode_offset (uo_mode options))) error;
       if answered : bool then done tt else broken error) res
  end.

(** [inspect_upload_target]. *)
Definition inspect_upload_target (owner path : bytes) : Upload Env UploadTargetInspection :=
  attempt current <- uio (replacement_identity_blocking fs path);
  attempt relative <- ret (io_fault (relative_path fs path));
  ok (inspect_target_identity sha256 (owner_persistent sha256 owner) relative current).

(** [match .. { Err(error) => if apply_upload_record_store_problem(..)? .. }]. *)
Definition or_store_problem {A} (upload_id : bytes) (m : Upload Env A) : Handler Env (option A) :=
  perform r <- look m;
  match r with
  | Ok a => done (Some a)
  | Err error =>
      perform answered <- apply_upload_record_store_problem (mkErrorContext upload_id Unknown None None) error;
      if answered : bool then done None else broken error
  end.

Definition set_record_headers (upload_id : bytes) (length offset : option Z) (state : UploadPublicState)
    : Handler Env unit :=
  respond (λ res,
    headers ← try (apply_upload_record_headers (res_headers res) upload_id length offset state);
    Ok (with_headers res headers)).

Definition status_not_found : Handler Env unit :=
  respond (λ res, Ok (with_body (with_status res 404) (BytesBody (bs "Not Found")))).

Definition handle_upload_status (path owner upload_id : bytes) : Handler Env (option unit) :=
  perform upload_path <- pure (temp_path sha256 to_string_lossy path upload_id);
  proceed found <- or_store_problem upload_id
    (UploadRecords.lookup sha256 to_string_lossy fs (owner_persistent sha256 owner) upload_id path upload_path);
  match found with
  | LookupNotSeen | LookupForeignOwner =>
      perform _ <- status_not_found;
      perform _ <- set_record_headers upload_id None None NotSeen;
      done None
  | LookupFound checkpoint =>
      let tell state :=
        perform _ <- set_record_headers upload_id (Some (cp_upload_length checkpoint))
          (Some (cp_durable_offset checkpoint)) state;
        done None in
      match cp_state checkpoint with
      | RecRunning => tell Running
      | RecAwaitingConfirmation =>
          perform _ <- respond (λ res, Ok (with_status res 409));
          perform inspection <- call (inspect_upload_target owner path);
          perform _ <- respond (λ res, apply_target_inspection_headers res inspection);
          tell AwaitingConfirmation
      | RecCommitted => tell Committed
      | RecRejected => perform _ <- respond (λ res, Ok (with_status res 409)); tell Rejected
      | RecUnknown =>
          refuse (mkErrorContext upload_id Unknown (Some (cp_upload_length checkpoint))
                    (Some (cp_durable_offset checkpoint)))
            500 UPLOAD_PUBLICATION_OUTCOME_UNKNOWN
            (bs "Upload publication outcome is unknown; refresh the target before any retry") RefreshTarget
      end
  end.

Definition discard_awaiting_upload (path owner upload_id : bytes) : Handler Env (option unit) :=
  perform upload_path <- pure (temp_path sha256 to_string_lossy path upload_id);
  proceed decision <- or_store_problem upload_id
    (reject_for_discard sha256 to_string_lossy fs (owner_persistent sha256 owner) upload_id path upload_path);
  match decision with
  | DiscardNotSeen | DiscardForeignOwner =>
      refuse (mkErrorContext upload_id NotSeen None None) 404 UPLOAD_SESSION_NOT_FOUND
        (bs "Upload session not found") NoAdvice
  | DiscardStateConflict record =>
      match (match cp_state record with
             | RecRunning => Some Running
             | RecCommitted => Some Committed
             | RecUnknown => Some Unknown
             | _ => None
             end) with
      | None => broken (UploadFail Http.Panic)
      | Some state =>
          refuse (mkErrorContext upload_id state (Some (cp_upload_length record)) (Some (cp_durable_offset record)))
            409 UPLOAD_STATE_CONFLICT
            (bs "Only an upload awaiting overwrite confirmation can be discarded") QueryUpload
      end
  | DiscardRejected record =>
      let context := mkErrorContext upload_id Rejected (Some (rj_upload_length record)) (Some (rj_durable_offset record)) in
      perform cleaned <- look (cleanup_rejected_stage sha256 room fs cleanup record);
      match cleaned with
      | Err _ =>
          refuse context 500 UPLOAD_STAGE_INVALID
            (bs "Upload is rejected, but staged data cleanup did not finish; retry discard") Retry
      | Ok _ =>
          perform _ <- respond (λ res, Ok (with_status res 204));
          perform _ <- set_record_headers upload_id (Some (rj_upload_length record))
            (Some (rj_durable_offset record)) Rejected;
          done None
      end
  end.
End prepare.
