(* ===== verification/UploadTransfer.v ===== *)
(** Receiving the body of an upload: what reaches the stage is a prefix of what
    the client sent, in order, and never more than was declared. *)

From S2P Require Import Prelude Bytes StoreModel DiskSpace UuidText Http Problem Revisions Listing Registry RootedOs RootedFs StageFiles UploadHost UploadRecords UploadProtocol UploadPipeline.
From stdpp Require Import base numbers list strings sets.

Local Open Scope Z_scope.

(** The write calls of a log. *)
Definition writes : list UploadEvent -> list (Fd * bytes * result IoError unit) := omap (λ e,
  match e with UKernel (FileWrite fd data answer) => Some (fd, data, answer) | _ => None end).

Lemma writes_app l k : writes (l ++ k) = writes l ++ writes k.
Proof. apply omap_app. Qed.

(** The writes of a transfer with result [r]: successful ones of [accepted],
    and at most one more that failed and ended the transfer. *)
Definition wrote (file : Fd) {A} (r : result UploadTransferError A) (accepted : list bytes)
    (ws : list (Fd * bytes * result IoError unit)) : Prop :=
  ws = map (λ data, (file, data, Ok tt)) accepted \/
  exists data error, ws = map (λ data, (file, data, Ok tt)) accepted ++ [(file, data, Err error)] /\
    r = Err (TransferIo error).

(** The bytes handed to the kernel, in order. *)
Definition attempted (l : list UploadEvent) : bytes := concat (map (λ w, w.1.2) (writes l)).

Lemma attempted_app l k : attempted (l ++ k) = attempted l ++ attempted k.
Proof. unfold attempted. by rewrite writes_app, map_app, concat_app. Qed.

Lemma wrote_app file {A B} (x : A) (r : result UploadTransferError B) a b ws vs :
  wrote file (Ok x : result UploadTransferError A) a ws -> wrote file r b vs -> wrote file r (a ++ b) (ws ++ vs).
Proof.
  intros [->|(? & ? & _ & [=])] [->|(data & error & -> & ->)].
  - left. by rewrite map_app.
  - right. exists data, error. by rewrite map_app, app_assoc.
Qed.
Lemma wrote_err file {A B} (x : UploadTransferError) a ws :
  wrote file (Err x : result UploadTransferError A) a ws -> wrote file (Err x : result UploadTransferError B) a ws.
Proof. intros [->|(data & error & -> & [= ->])]; [by left|right; eauto]. Qed.

Section transfer.
Context {Env : Type} `{Os Env} `{FileOs Env} `{UploadHost Env}.
Context (min_free_space : Z).

(** What one piece of data leads to. *)
Definition chunk_written (file : Fd) (data : bytes) {A} (r : result UploadTransferError A) (l : list UploadEvent) : Prop :=
  (exists accepted, wrote file r accepted (writes l)) /\
  (attempted l = [] \/ attempted l = data) /\
  (forall x, r = Ok x -> attempted l = data).

Lemma chunk_unwritten {A} file data (e : UploadTransferError) l :
  writes l = [] -> chunk_written file data (Err e : result UploadTransferError A) l.
Proof.
  intros Hl. unfold chunk_written, attempted. rewrite Hl. split_and!; [exists []; by left|by left|done].
Qed.

Lemma write_chunk_spec reservation file data left :
  spec (write_upload_chunk min_free_space reservation file data left : Up Env _) (chunk_written file data).
Proof.
  unfold write_upload_chunk. destruct (beqb data []) eqn:Ed.
  { apply spec_ret. apply beqb_true in Ed as ->. split_and!; [exists []; by left|by left|done]. }
  destruct (_ <? _); [by apply spec_ret, chunk_unwritten|].
  eapply (spec_bind_ok _ _ (λ _ l, writes l = [])); [|intros left' l Hl|intros e l Hl; by apply chunk_unwritten].
  { destruct (_ <=? _); [|by apply spec_ret]. apply spec_bind_call. intros answer. by apply spec_ret. }
  eapply spec_bind_ukernel; [apply (spec_call _ _ (λ r calls, calls = [FileWrite file data r])); done|].
  assert (Ha : forall answer k, writes k = [] -> attempted (l ++ UKernel (FileWrite file data answer) :: k) = data).
  { intros answer k Hk. unfold attempted. rewrite writes_app, Hl. cbn. rewrite Hk. cbn. by rewrite app_nil_r. }
  intros [[]|error] calls ->; cbn.
  - apply spec_attempt_ret; [intros [] _|done]. apply spec_bind_call. intros lease. apply spec_ret.
    split_and!; [|right; by apply Ha|intros; by apply Ha]. exists [data]. left. by rewrite writes_app, Hl.
  - apply spec_attempt_ret; [done|]. intros e [= <-].
    split_and!; [|right; by apply Ha|done]. exists []. right. exists data, error. by rewrite writes_app, Hl.
Qed.

Lemma accept_chunk_spec reservation file data left :
  spec (accept_chunk min_free_space reservation file data left : Up Env _) (chunk_written file data).
Proof.
  unfold accept_chunk. eapply spec_bind_ok; [apply write_chunk_spec| |].
  2: { intros e l ([a Ha] & Hd & _). split_and!; [exists a; by eapply wrote_err|done|done]. }
  intros [lease left'] l ([a Ha] & Hd & Hok). unfold idle_deadline, expired.
  assert (Hend : forall B (r : result UploadTransferError B) k, writes k = [] -> chunk_written file data r (l ++ k)).
  { intros B r k Hk. unfold chunk_written. rewrite attempted_app, writes_app, Hk. unfold attempted at 2 4 6. rewrite Hk.
    cbn. rewrite !app_nil_r. split_and!; [|done|intros; by eapply Hok].
    exists a. destruct Ha as [->|(? & ? & _ & [=])]. by left. }
  apply spec_bind_call. intros fits. destruct fits; cbn [negb]; [|apply spec_ret; by apply Hend].
  apply spec_bind_call. intros late. destruct late; apply spec_ret; by apply Hend.
Qed.

Lemma prefix_take_app (a b c : bytes) n :
  (length a <= n)%nat -> b `prefix_of` take (n - length a) c -> a ++ b `prefix_of` take n (a ++ c).
Proof. intros Ha Hb. rewrite take_app, take_ge by lia. by apply prefix_app. Qed.

(** The frames of a body. *)
Definition received (file : Fd) (frames : list bytes) (last : BodyEnd) (remaining : Z)
    (r : result UploadTransferError DiskSpaceReservation) (l : list UploadEvent) : Prop :=
  (exists accepted, wrote file r accepted (writes l)) /\
  attempted l `prefix_of` take (Z.to_nat remaining) (concat frames) /\
  (forall lease, r = Ok lease ->
     attempted l = concat frames /\ blen (concat frames) <= remaining /\ last = BodyFinished).

Lemma receive_frames_spec frames last file reservation remaining left :
  0 <= remaining ->
  spec (receive_frames min_free_space frames last file reservation remaining left : Up Env _)
    (received file frames last remaining).
Proof.
  revert reservation remaining left. induction frames as [|chunk frames IH]; intros reservation remaining left Hr; cbn [receive_frames].
  - eapply (spec_bind_ok _ _ (λ r l, writes l = [] /\ (r = Ok tt -> last = BodyFinished))).
    + destruct last; cbn; try (by apply spec_ret). unfold expired. apply spec_bind_call. intros b. by apply spec_ret.
    + intros [] l [Hl Hlast]. apply spec_ret. rewrite app_nil_r. unfold received, attempted. rewrite Hl. cbn.
      split_and!; [exists []; by left|by apply prefix_nil|]. intros _ _. split_and!; [done|done|by apply Hlast].
    + intros e l [Hl _]. unfold received, attempted. rewrite Hl. cbn.
      split_and!; [exists []; by left|by apply prefix_nil|done].
  - destruct (beqb chunk []) eqn:Ec; [apply beqb_true in Ec as ->; by apply IH|].
    assert (Hchunk : 0 < blen chunk).
    { unfold blen. destruct chunk; [by rewrite beqb_refl in Ec|cbn; lia]. }
    set (n := Z.min remaining (blen chunk)).
    assert (Hpre : forall a, a = [] \/ a = take (Z.to_nat n) chunk ->
      a `prefix_of` take (Z.to_nat remaining) (chunk ++ concat frames)).
    { intros a [->|Ha]; [apply prefix_nil|]. rewrite Ha. unfold n, blen. rewrite take_app. apply prefix_app_r.
      exists []. rewrite app_nil_r.
      destruct (decide (remaining <= Z.of_nat (length chunk))); [f_equal; lia|rewrite !take_ge by lia; done]. }
    eapply (spec_bind_ok _ _ (chunk_written file (take (Z.to_nat n) chunk))).
    + destruct (0 <? n) eqn:En; [apply accept_chunk_spec|]. apply spec_ret.
      assert (take (Z.to_nat n) chunk = []) as -> by (replace (Z.to_nat n) with 0%nat by lia; done).
      split_and!; [exists []; by left|by left|done].
    + intros [lease left'] l ([a Ha] & Hd & Hok). specialize (Hok _ eq_refl).
      destruct (n <? blen chunk) eqn:En.
      * apply spec_ret. rewrite app_nil_r. split_and!; [|by apply Hpre|done].
        exists a. destruct Ha as [->|(? & ? & _ & [=])]. by left.
      * assert (n = blen chunk) as En' by (unfold n in *; lia).
        rewrite En', take_ge in Hok by (unfold blen; lia).
        eapply spec_weaken; [apply IH; lia|]. intros r l' ([b Hb] & Hp & Hfin). unfold received.
        rewrite attempted_app, writes_app, Hok. cbn [concat]. rewrite En' in *. split_and!.
        -- exists (a ++ b). by eapply wrote_app.
        -- apply prefix_take_app; [unfold n, blen in *; lia|].
           replace (Z.to_nat remaining - length chunk)%nat with (Z.to_nat (remaining - blen chunk)) by (unfold blen; lia). done.
        -- intros fin ->. destruct (Hfin _ eq_refl) as (-> & Hlen & ->). split_and!; try done.
           unfold blen in *. rewrite length_app. lia.
    + intros e l ([a Ha] & Hd & _). split_and!; [exists a; by eapply wrote_err|by apply Hpre|done].
Qed.

(** C13: What an upload writes to its stage is a prefix of the bytes the client
    sent, in their order, and of the number of bytes declared to remain; at most
    the last write failed, and then the transfer did.  A transfer that succeeds
    has written the whole body, which ended properly and is no longer than
    declared. *)
Theorem transfer_writes_prefix body file reservation (remaining : N) :
  spec (receive_upload_body min_free_space body file reservation (Z.of_N remaining) : Up Env _)
    (received file (ub_frames body) (ub_end body) (Z.of_N remaining)).
Proof.
  unfold receive_upload_body, idle_deadline. apply spec_bind_call. intros fits. destruct fits; cbn [negb].
  - exact (receive_frames_spec _ _ _ _ _ _ (N2Z.is_nonneg remaining)).
  - apply spec_ret. split_and!; [exists []; by left|by apply prefix_nil|done].
Qed.
End transfer.
