(* ===== verification/UploadSafety.v ===== *)
(** What an upload does to the tree: everything but the publication is
    housekeeping around its stage, and the publication is one checked rename of a
    stage that is complete, durable and on record as being committed. *)

From S2P Require Import Prelude Bytes StdPath Utils StoreModel UuidText InternalNames Http DiskSpace Problem Revisions Listing PathKeys Registry RootedOs RootedFs RootedFsSafety StageFiles RootedPurge RootedPurgeFacts UploadHost UploadRecords UploadPipeline UploadPrepare UploadProtocol.
From stdpp Require Import base numbers list strings sets.
From Stdlib Require Import Ascii.

Local Open Scope Z_scope.

(** ** Housekeeping *)

Definition creates_file (flags : list OFlag) : bool :=
  existsb (λ f, match f with CREATE => true | _ => false end) flags.
Definition exclusive (flags : list OFlag) : bool :=
  existsb (λ f, match f with EXCL => true | _ => false end) flags.

(** Nothing but the server's own entries is created, renamed or removed (and
    empty directories): a rename only sets an entry aside under a quarantine
    name, without replacing anything; only names of stages and quarantined
    entries are unlinked or created, and a new file never opens an old one. *)
Definition housekeeping `{UuidLib} (c : SysCall) : Prop :=
  match c with
  | Renameat from _ to new_name noreplace _ =>
      from = to /\ noreplace = true /\ exists id, new_name = quarantine_name id
  | Unlinkat _ name false _ => (exists id, name = quarantine_name id) \/ is_upload_stage_name name = true
  | Openat _ name flags _ _ _ =>
      if creates_file flags then exclusive flags = true /\ is_upload_stage_name name = true else True
  | _ => True
  end.

(** The same of an upload's events; what is not a system call does not touch
    the tree. *)
Definition quiet `{UuidLib} (e : UploadEvent) : Prop :=
  match e with UKernel c => housekeeping c | _ => True end.

Section quiet.
Context {Env : Type} `{Os Env} `{FileOs Env} `{UploadHost Env} `{UuidLib} `{HttpTypes}.
Context (sha256 : bytes -> bytes) (to_string_lossy : bytes -> bytes) (room : nat -> bool) (fs : RootedFs).
Context (attributes_bytes : Z -> option Z).

Lemma reads_housekeeping c : reads c -> housekeeping c.
Proof.
  unfold reads. destruct c as [dir path flags| | | | | |dir name []| | | | | | | | | | | | | | | | |]; try done.
  cbn. unfold creates_file. by intros ->.
Qed.

Lemma tidy_housekeeping l : tidy l -> Forall housekeeping l.
Proof.
  induction 1 as [|c l Hc _ IH|dir name id answer l _ IH|dir name id anchor pinned named removedir answer l E _ IH].
  - constructor.
  - constructor; [by apply reads_housekeeping|done].
  - constructor; [cbn; eauto|done].
  - constructor; [cbn; eauto|]. repeat constructor; [|done]. destruct removedir; cbn; eauto.
Qed.

Ltac keep := emits_auto; try exact I.

Lemma reads_keep {A} (m : Sys Env A) : emits reads m -> emits housekeeping m.
Proof. apply emits_impl. apply reads_housekeeping. Qed.

Lemma open_directory_keeps relative : emits housekeeping (open_directory_from_root fs relative).
Proof. unfold open_directory_from_root, sys_openat. keep. Qed.
#[local] Hint Resolve open_directory_keeps : emits.

Lemma open_ancestors_keeps todo rollback create current prefix created :
  (forall l, emits housekeeping (rollback l : Io Env unit)) ->
  emits housekeeping (open_ancestors fs rollback create todo current prefix created).
Proof.
  intros Hr. revert current prefix created. induction todo as [|c todo IH]; intros; cbn [open_ancestors]; [keep|].
  destruct c; try keep. unfold create_ancestor, sys_mkdirat, sys_fsync, sys_statat, sys_unlinkat.
  emits_auto; try exact I; try apply Hr; try apply IH.
Qed.

Lemma open_parent_existing_keeps path : emits housekeeping (open_parent_existing fs path : Io Env _).
Proof.
  unfold open_parent_existing, open_parent_with, sys_dup. emits_auto; try exact I.
  apply open_ancestors_keeps. intros. keep.
Qed.
#[local] Hint Resolve open_parent_existing_keeps : emits.

Lemma rollback_keeps created : emits housekeeping (rollback_created_ancestors_blocking fs created).
Proof.
  unfold rollback_created_ancestors_blocking. induction (reverse created) as [|a l IH]; cbn [rollback_loop]; [keep|].
  unfold sys_statat, sys_unlinkat, sys_fsync. emits_auto; try exact I; apply IH.
Qed.
#[local] Hint Resolve rollback_keeps : emits.

Lemma open_parent_keeps path create : emits housekeeping (open_parent_blocking fs path create).
Proof.
  unfold open_parent_blocking, open_parent_with, sys_dup. emits_auto; try exact I.
  apply open_ancestors_keeps, rollback_keeps.
Qed.
#[local] Hint Resolve open_parent_keeps : emits.

Lemma replacement_identity_keeps path : emits housekeeping (replacement_identity_blocking fs path).
Proof. unfold replacement_identity_blocking, sys_statat. keep. Qed.
Lemma metadata_nofollow_keeps path : emits housekeeping (metadata_nofollow fs path).
Proof. unfold metadata_nofollow, sys_openat, sys_file_metadata. keep. Qed.
Lemma open_existing_keeps path flags : creates_file flags = false -> emits housekeeping (open_existing fs path flags).
Proof. intros Hf. unfold open_existing, sys_openat. emits_auto. cbn. by rewrite Hf. Qed.
Lemma nearest_parent_keeps path : emits housekeeping (open_nearest_existing_parent fs path).
Proof.
  unfold open_nearest_existing_parent, sys_dup. emits_auto; try exact I.
  generalize (components (default [] (path_parent a))) as todo. generalize (@nil ascii) as prefix.
  intros prefix todo. revert prefix. induction todo as [|x todo IH]; intros prefix fd; cbn [nearest_parent]; [keep|].
  destruct x; emits_auto; apply IH.
Qed.
Lemma sync_parent_keeps path : emits housekeeping (sync_parent fs path).
Proof. unfold sync_parent, sys_fsync. keep. Qed.
Lemma sync_file_keeps file : emits housekeeping (sync_file_to_storage file : Io Env _).
Proof. unfold sync_file_to_storage, sys_dup, sys_fsync. keep. Qed.

#[local] Hint Resolve replacement_identity_keeps metadata_nofollow_keeps nearest_parent_keeps sync_parent_keeps
  sync_file_keeps : emits.

Lemma open_read_keeps path : emits housekeeping (open_read fs path).
Proof. by apply open_existing_keeps. Qed.
Lemma open_write_keeps path : emits housekeeping (open_write fs path).
Proof. by apply open_existing_keeps. Qed.

(** *** Stages *)

Lemma open_stage_directory_keeps parent name repair :
  emits housekeeping (open_upload_stage_directory_at parent name repair : Io Env _).
Proof. unfold open_upload_stage_directory_at, sys_openat, sys_fstat, sys_fchmod, sys_fsync, sys_statat. keep. Qed.
#[local] Hint Resolve open_read_keeps open_write_keeps open_stage_directory_keeps : emits.

Lemma undo_directory_keeps created parent name : emits housekeeping (undo_directory created parent name : Sys Env _).
Proof. unfold undo_directory, sys_unlinkat, sys_fsync. keep. Qed.
#[local] Hint Resolve undo_directory_keeps : emits.

Lemma ensure_directory_keeps parent name :
  emits housekeeping (ensure_private_upload_stage_directory_at parent name : Io Env _).
Proof. unfold ensure_private_upload_stage_directory_at, sys_mkdirat, sys_fstat, sys_fsync. keep. Qed.

Lemma prepare_stage_keeps fd : emits housekeeping (prepare_stage fd : Io Env _).
Proof. unfold prepare_stage, sys_fchmod, sys_fstat. keep. Qed.
#[local] Hint Resolve ensure_directory_keeps prepare_stage_keeps : emits.

Lemma stage_path_named path directory name :
  validated_upload_stage_path fs path = Ok (directory, name) -> is_upload_stage_name name = true.
Proof.
  unfold validated_upload_stage_path. intros (_ & _ & (d & _ & (n & _ & E)%bind_Ok)%bind_Ok)%bind_Ok.
  destruct (is_utf8 n && is_upload_stage_name n) eqn:Hn; [|done]. cbn in E. injection E as _ <-.
  by apply andb_true_iff in Hn as [_ ?].
Qed.

Lemma emits_attempt_ret P {E A B} (r : result E A) (k : A -> Sys Env (result E B)) :
  (forall a, r = Ok a -> emits P (k a)) -> emits P (bind_ok (ret r) k).
Proof. intros Hk. apply spec_attempt_ret; [exact Hk|]. intros. constructor. Qed.

Lemma create_stage_keeps path : emits housekeeping (create_private_upload_stage fs path).
Proof.
  unfold create_private_upload_stage. apply emits_attempt_ret. intros [directory name] Hn%stage_path_named.
  unfold sys_openat, sys_unlinkat, sys_fsync. emits_auto; try exact I; cbn; auto.
Qed.

Lemma remove_directory_keeps path : emits housekeeping (remove_empty_upload_stage_directory fs path).
Proof.
  unfold remove_empty_upload_stage_directory, remove_empty_upload_stage_directory_blocking,
    open_private_upload_stage_directory_at, sys_fstat, sys_statat, sys_unlinkat, sys_fsync. keep.
Qed.

Lemma capture_keeps path : emits housekeeping (capture_entry_for_purge sha256 fs path false : Io Env _).
Proof.
  unfold capture_entry_for_purge, capture_entry_for_purge_with_type_blocking, sys_openat, sys_fstat, sys_statat. keep.
Qed.
#[local] Hint Resolve create_stage_keeps remove_directory_keeps capture_keeps : emits.

Lemma purge_keeps gate te : emits housekeeping (purge_slice sha256 room gate te 1 : Sys Env _).
Proof. eapply spec_weaken; [apply purge_slice_tidy|]. intros r l. apply tidy_housekeeping. Qed.

(** *** Attributes *)

Lemma read_xattrs_reads file : emits reads (read_all_xattrs attributes_bytes file : Io Env _).
Proof.
  unfold read_all_xattrs, sys_list_xattr, invalid_xattrs. emits_auto.
  match goal with |- context [split_inclusive ?s ?n ?p] => generalize (split_inclusive s n p) as names end.
  generalize (@nil (bytes * bytes)) as found. intros found names. revert found.
  match goal with |- context [read_xattr_values _ _ ?t _] => generalize t as total end. intros total. revert total.
  induction names as [|raw names IH]; intros total found; cbn [read_xattr_values]; [emits_auto|].
  unfold invalid_xattrs, sys_xattr_size, sys_get_xattr. emits_auto; apply IH.
Qed.

Lemma open_existing_reads path flags : creates_file flags = false -> emits reads (open_existing fs path flags).
Proof. intros Hf. unfold open_existing, sys_openat. by emits_auto. Qed.
Lemma nearest_parent_reads path : emits reads (open_nearest_existing_parent fs path).
Proof.
  unfold open_nearest_existing_parent, sys_dup. emits_auto.
  generalize (components (default [] (path_parent a))) as todo. generalize (@nil ascii) as prefix.
  intros prefix todo. revert prefix. induction todo as [|x todo IH]; intros prefix fd; cbn [nearest_parent]; [emits_auto|].
  destruct x; repeat (emits_step || apply open_directory_reads); apply IH.
Qed.
Lemma replacement_metadata_reads path : emits reads (replacement_metadata fs attributes_bytes path).
Proof.
  unfold replacement_metadata, sys_openat, sys_fstat.
  repeat (emits_step || apply replacement_identity_reads || apply read_xattrs_reads).
Qed.

(** Replaying attributes changes nothing but attributes. *)
Definition attributes (c : SysCall) : Prop :=
  match c with Fchown _ _ _ _ | SetXattr _ _ _ _ | RemoveXattr _ _ _ | Fchmod _ _ _ => True | _ => reads c end.

Lemma apply_metadata_attributes file metadata :
  emits attributes (apply_replacement_metadata attributes_bytes file metadata : Io Env _).
Proof.
  assert (Hread : forall fd, emits attributes (read_all_xattrs attributes_bytes fd : Io Env _)).
  { intros fd. eapply emits_impl; [|apply read_xattrs_reads]. by intros []. }
  assert (Hset : forall fd l, emits attributes (set_all_xattrs fd l : Io Env _)).
  { intros fd l. unfold set_all_xattrs, sys_set_xattr. induction l as [|[name value] l IH]; emits_auto; done. }
  assert (Hdel : forall fd p l, emits attributes (remove_other_xattrs fd p l : Io Env _)).
  { intros fd p l. unfold remove_other_xattrs, sys_remove_xattr. induction l as [|[name value] l IH]; emits_auto; done. }
  unfold apply_replacement_metadata, apply_file_metadata, sys_dup, sys_fstat, sys_fchown, sys_set_xattr, sys_fchmod.
  repeat (emits_step || exact I || apply Hread || apply Hdel || apply Hset).
Qed.

Lemma attributes_housekeeping c : attributes c -> housekeeping c.
Proof. destruct c; try done; apply reads_housekeeping. Qed.

Lemma apply_metadata_keeps file metadata :
  emits housekeeping (apply_replacement_metadata attributes_bytes file metadata : Io Env _).
Proof. eapply emits_impl; [apply attributes_housekeeping|apply apply_metadata_attributes]. Qed.

Lemma replacement_metadata_keeps path : emits housekeeping (replacement_metadata fs attributes_bytes path).
Proof.
  unfold replacement_metadata, sys_openat, sys_fstat. emits_auto; try exact I. apply reads_keep, read_xattrs_reads.
Qed.
#[local] Hint Resolve purge_keeps apply_metadata_keeps replacement_metadata_keeps : emits.

End quiet.

#[export] Hint Resolve open_directory_keeps open_parent_existing_keeps rollback_keeps open_parent_keeps
  replacement_identity_keeps metadata_nofollow_keeps nearest_parent_keeps sync_parent_keeps
  sync_file_keeps open_read_keeps open_write_keeps open_stage_directory_keeps
  undo_directory_keeps ensure_directory_keeps prepare_stage_keeps create_stage_keeps
  remove_directory_keeps capture_keeps purge_keeps apply_metadata_keeps
  replacement_metadata_keeps : emits.

(** ** From system calls to events *)

Section events.
Context {Env : Type} `{Os Env} `{UploadHost Env} `{UuidLib}.

Lemma emits_ukernel {A} (m : Sys Env A) : emits housekeeping m -> emits quiet (ukernel m).
Proof.
  intros Hm. eapply spec_weaken; [apply spec_ukernel, Hm|]. intros a l (calls & -> & Hc).
  induction Hc; by constructor.
Qed.
Lemma emits_uio {A} (m : Io Env A) : emits housekeeping m -> emits quiet (uio m).
Proof. intros Hm. apply emits_bind; [by apply emits_ukernel|]. intros. apply emits_ret. Qed.
End events.

(** ** Specifications of handlers *)

Section handler_specs.
Context {Env : Type} `{HttpTypes}.

(** Whatever the host answers, the handler returns with a result and a log that
    satisfy [Q]. *)
Definition hspec {A} (m : Handler Env A) (Q : result UploadError A -> list UploadEvent -> Prop) : Prop :=
  forall res, spec (m res) (λ x l, Q x.1 l).

Lemma hspec_weaken {A} (m : Handler Env A) (P Q : result UploadError A -> list UploadEvent -> Prop) :
  hspec m P -> (forall r l, P r l -> Q r l) -> hspec m Q.
Proof. intros Hm HPQ res. eapply spec_weaken; [apply Hm|]. eauto. Qed.
Lemma hspec_and {A} (m : Handler Env A) P Q : hspec m P -> hspec m Q -> hspec m (λ r l, P r l /\ Q r l).
Proof. intros HP HQ res. by apply spec_and. Qed.
Lemma hspec_then {A B} (m : Handler Env A) (k : A -> Handler Env B) P Q :
  hspec m P ->
  (forall a l, P (Ok a) l -> hspec (k a) (λ r l', Q r (l ++ l'))) ->
  (forall e l, P (Err e) l -> Q (Err e) l) ->
  hspec (then_do m k) Q.
Proof.
  intros Hm Hk He res. eapply spec_bind; [apply Hm|]. intros [[a|e] res'] l Hl; [by apply Hk|].
  apply spec_ret. rewrite app_nil_r. by apply He.
Qed.
Lemma hspec_look {A} (m : Up Env A) Q : spec m (λ a, Q (Ok a)) -> hspec (look m) Q.
Proof.
  intros Hm res. eapply spec_bind; [exact Hm|]. intros a l Hl. apply spec_ret. by rewrite app_nil_r.
Qed.
Lemma hspec_call {A} (m : Upload Env A) Q : spec m Q -> hspec (call m) Q.
Proof.
  intros Hm res. eapply spec_bind; [exact Hm|]. intros a l Hl. apply spec_ret. by rewrite app_nil_r.
Qed.
Lemma hspec_then_look {A B} (m : Up Env A) (k : A -> Handler Env B) P Q :
  spec m P -> (forall a l, P a l -> hspec (k a) (λ r l', Q r (l ++ l'))) -> hspec (then_do (look m) k) Q.
Proof.
  intros Hm Hk res. apply spec_bind_assoc. eapply spec_bind; [exact Hm|]. intros a l Hl.
  apply spec_bind_ret. by apply Hk.
Qed.
Lemma hspec_then_call {A B} (m : Upload Env A) (k : A -> Handler Env B) P Q :
  spec m P -> (forall a l, P (Ok a) l -> hspec (k a) (λ r l', Q r (l ++ l'))) ->
  (forall e l, P (Err e) l -> Q (Err e) l) -> hspec (then_do (call m) k) Q.
Proof. intros Hm. eapply hspec_then. by apply hspec_call. Qed.
Lemma hspec_done {A} (a : A) Q : Q (Ok a) [] -> hspec (done a) Q.
Proof. intros HQ res. by apply spec_ret. Qed.
Lemma hspec_broken {A} e Q : Q (Err e) [] -> hspec (broken e : Handler Env A) Q.
Proof. intros HQ res. by apply spec_ret. Qed.
Lemma hspec_pure {A} (r : result UploadError A) Q : Q r [] -> hspec (pure r) Q.
Proof. intros HQ res. by apply spec_ret. Qed.

(** Every event of the handler is quiet. *)
Context `{UuidLib}.
Definition hushed {A} (m : Handler Env A) : Prop := hspec m (λ _, Forall quiet).

Lemma hushed_then {A B} (m : Handler Env A) (k : A -> Handler Env B) :
  hushed m -> (forall a, hushed (k a)) -> hushed (then_do m k).
Proof.
  intros Hm Hk. eapply hspec_then; [exact Hm| |done]. intros a l Hl. eapply hspec_weaken; [apply Hk|].
  intros r l' Hl'. by apply Forall_app.
Qed.
Lemma hushed_look {A} (m : Up Env A) : emits quiet m -> hushed (look m).
Proof. intros Hm. by apply hspec_look. Qed.
Lemma hushed_call {A} (m : Upload Env A) : emits quiet m -> hushed (call m).
Proof. intros Hm. by apply hspec_call. Qed.
Lemma hushed_done {A} (a : A) : hushed (done a).
Proof. apply hspec_done. constructor. Qed.
Lemma hushed_broken {A} e : hushed (broken e : Handler Env A).
Proof. apply hspec_broken. constructor. Qed.
Lemma hushed_pure {A} (r : result UploadError A) : hushed (pure r).
Proof. apply hspec_pure. constructor. Qed.
Lemma hushed_respond f : hushed (respond f).
Proof. intros res. apply emits_ret. Qed.
End handler_specs.

(** Walks through a handler. *)
Ltac hush_step :=
  intros; cbv beta zeta;
  match goal with
  | |- hushed (then_do _ _) => apply hushed_then
  | |- hushed (look _) => apply hushed_look
  | |- hushed (call _) => apply hushed_call
  | |- hushed (done _) => apply hushed_done
  | |- hushed (broken _) => apply hushed_broken
  | |- hushed (pure _) => apply hushed_pure
  | |- hushed (respond _) => apply hushed_respond
  | |- hushed (match ?x with _ => _ end) => destruct x
  | |- emits quiet (ukernel _) => apply emits_ukernel
  | |- emits quiet (uio _) => apply emits_uio
  end.
Ltac hush := repeat (hush_step || emits_step || exact I || solve [eauto with emits nocore]).

(** ** The upload's own steps *)

Section quiet_handlers.
Context {Env : Type} `{Os Env} `{FileOs Env} `{UploadHost Env} `{UuidLib} `{HttpTypes}.
Context (sha256 : bytes -> bytes) (to_string_lossy : bytes -> bytes) (room : nat -> bool) (fs : RootedFs).
Context (attributes_bytes : Z -> option Z).

Lemma load_quiet key : emits quiet (load_session key : Upload Env _).
Proof. unfold load_session. hush. Qed.
Lemma save_quiet session : emits quiet (save_session session : Upload Env _).
Proof. unfold save_session. hush. Qed.
Lemma reject_quiet key target stage : emits quiet (reject_session key target stage : Upload Env _).
Proof. unfold reject_session. hush. Qed.
Lemma remove_quiet session : emits quiet (remove_session session : Upload Env _).
Proof. unfold remove_session. hush. Qed.
#[local] Hint Resolve load_quiet save_quiet reject_quiet remove_quiet : emits.

Local Abbreviation persist_state := (persist_state (Env := Env) sha256 to_string_lossy fs).

Lemma persist_quiet record offset state i : emits quiet (persist_state record offset state i).
Proof. unfold UploadRecords.persist_state. hush. Qed.
#[local] Hint Resolve persist_quiet : emits.

Lemma identify_quiet file path offset : emits quiet (sync_and_identify_stage fs file path offset).
Proof. unfold sync_and_identify_stage, sys_flush, sys_file_metadata. hush. Qed.
#[local] Hint Resolve identify_quiet : emits.

Lemma checkpoint_quiet file record offset sync :
  emits quiet (persist_checkpoint_inner sha256 to_string_lossy fs file record offset sync).
Proof. unfold persist_checkpoint_inner. hush. Qed.
Lemma commit_started_quiet file record : emits quiet (persist_commit_started sha256 to_string_lossy fs file record).
Proof. unfold persist_commit_started. hush. Qed.
Lemma awaiting_quiet file record : emits quiet (persist_awaiting_confirmation sha256 to_string_lossy fs file record).
Proof. unfold persist_awaiting_confirmation. hush. Qed.
Lemma terminal_quiet record offset state :
  emits quiet (persist_terminal sha256 to_string_lossy fs record offset state : Upload Env _).
Proof. unfold persist_terminal. hush. Qed.
Lemma unknown_quiet record offset : emits quiet (persist_unknown sha256 to_string_lossy fs record offset : Upload Env _).
Proof. unfold persist_unknown. hush. Qed.
#[local] Hint Resolve checkpoint_quiet commit_started_quiet awaiting_quiet terminal_quiet unknown_quiet : emits.

Lemma persist_checkpoint_quiet file record offset :
  emits quiet (persist_checkpoint sha256 to_string_lossy fs file record offset).
Proof. apply checkpoint_quiet. Qed.
Lemma persist_initial_quiet file record offset :
  emits quiet (persist_initial_checkpoint sha256 to_string_lossy fs file record offset).
Proof. apply checkpoint_quiet. Qed.

Lemma valid_stage_quiet path offset i : emits quiet (valid_resumable_stage fs path offset i).
Proof. unfold valid_resumable_stage, sys_file_metadata. hush. Qed.
#[local] Hint Resolve persist_checkpoint_quiet persist_initial_quiet valid_stage_quiet : emits.

Lemma classify_quiet id expected target session :
  emits quiet (classify_stored_session sha256 to_string_lossy fs id expected target session).
Proof. unfold classify_stored_session. hush. Qed.
#[local] Hint Resolve classify_quiet : emits.

Lemma lookup_quiet owner id target stage :
  emits quiet (UploadRecords.lookup sha256 to_string_lossy fs owner id target stage).
Proof. unfold UploadRecords.lookup. hush. Qed.
Lemma open_resumable_quiet record offset state :
  emits quiet (open_resumable_stage sha256 to_string_lossy fs record offset state).
Proof. unfold open_resumable_stage, sys_file_metadata. hush. Qed.
Lemma reject_discard_quiet owner id target stage :
  emits quiet (reject_for_discard sha256 to_string_lossy fs owner id target stage).
Proof. unfold reject_for_discard. hush. Qed.

Lemma remove_file_quiet gate path expected : emits quiet (remove_file_if_identity sha256 room fs gate path expected).
Proof. unfold remove_file_if_identity. hush. Qed.
Lemma remove_directory_quiet path : emits quiet (remove_stage_directory_if_empty fs path).
Proof. unfold remove_stage_directory_if_empty. hush. Qed.
#[local] Hint Resolve lookup_quiet open_resumable_quiet reject_discard_quiet remove_file_quiet remove_directory_quiet : emits.

Lemma cleanup_rejected_quiet gate record : emits quiet (cleanup_rejected_stage sha256 room fs gate record).
Proof. unfold cleanup_rejected_stage. hush. Qed.
Lemma reset_quiet gate owner id target stage :
  emits quiet (reset sha256 to_string_lossy room fs gate owner id target stage).
Proof. unfold reset. hush. Qed.
Lemma discard_quiet gate file path : emits quiet (discard_unrecorded_stage sha256 room fs gate file path).
Proof. unfold discard_unrecorded_stage, sys_file_metadata. hush. Qed.
Lemma rollback_quiet created : emits quiet (rollback_upload_ancestors fs created).
Proof. unfold rollback_upload_ancestors. hush. Qed.
#[local] Hint Resolve cleanup_rejected_quiet reset_quiet discard_quiet rollback_quiet : emits.

Lemma reset_ancestors_quiet gate owner id target stage created :
  emits quiet (reset_and_ancestors sha256 to_string_lossy room fs gate owner id target stage created).
Proof. unfold reset_and_ancestors. hush. Qed.
#[local] Hint Resolve reset_ancestors_quiet : emits.

(** *** Handlers that do not publish *)

Lemma problem_quiet context status code detail recovery :
  hushed (problem (Env := Env) context status code detail recovery).
Proof. unfold problem. hush. Qed.
#[local] Hint Resolve problem_quiet : emits.

Lemma unknown_response_quiet id message : hushed (apply_upload_unknown (Env := Env) id message).
Proof. apply problem_quiet. Qed.
Lemma awaiting_response_quiet id len status code message :
  hushed (apply_awaiting_confirmation_problem (Env := Env) id len status code message).
Proof. apply problem_quiet. Qed.
Lemma stopped_quiet u offset status code message : hushed (stopped (Env := Env) u offset status code message).
Proof. apply problem_quiet. Qed.
Lemma store_problem_quiet context error : hushed (apply_upload_record_store_problem (Env := Env) context error).
Proof. unfold apply_upload_record_store_problem. hush. Qed.
Lemma conflict_quiet path owner context : hushed (render_upload_target_conflict sha256 fs path owner context).
Proof. unfold render_upload_target_conflict. hush. Qed.
Lemma set_offset_quiet offset : hushed (set_offset (Env := Env) offset).
Proof. unfold set_offset. hush. Qed.
#[local] Hint Resolve unknown_response_quiet awaiting_response_quiet stopped_quiet store_problem_quiet conflict_quiet
  set_offset_quiet : emits.

Context (min_free_space : Z) (cleanup : option IoError).

Lemma reset_upload_quiet u : emits quiet (reset_upload sha256 to_string_lossy room fs cleanup u).
Proof. apply reset_ancestors_quiet. Qed.
Lemma discard_stage_quiet u : emits quiet (discard_stage sha256 room fs cleanup u).
Proof. apply discard_quiet. Qed.
#[local] Hint Resolve reset_upload_quiet discard_stage_quiet : emits.

Lemma space_failure_quiet u message :
  hushed (finish_precommit_space_failure sha256 to_string_lossy room fs cleanup u message).
Proof. unfold finish_precommit_space_failure, sys_set_len. hush. Qed.
Lemma io_failure_quiet u message :
  hushed (finish_precommit_io_failure sha256 to_string_lossy room fs cleanup u message).
Proof. unfold finish_precommit_io_failure. hush. Qed.
Lemma reset_created_quiet u : emits quiet (reset_created sha256 to_string_lossy room fs cleanup u).
Proof. unfold reset_created. hush. Qed.
#[local] Hint Resolve space_failure_quiet io_failure_quiet reset_created_quiet : emits.
Lemma abandon_quiet {A} u discard error :
  emits quiet (abandon_timed_out sha256 to_string_lossy room fs cleanup u discard error : Upload Env A).
Proof. unfold abandon_timed_out. hush. Qed.
#[local] Hint Resolve abandon_quiet : emits.
Lemma timed_out_quiet u message :
  hushed (finish_timed_out_upload sha256 to_string_lossy room fs cleanup u message).
Proof.
  unfold finish_timed_out_upload, sys_flush, sys_file_metadata, sys_set_len. destruct (is_resume (ut_mode u)); hush.
Qed.
#[local] Hint Resolve timed_out_quiet : emits.

Lemma write_chunk_quiet reservation file data left :
  emits quiet (write_upload_chunk min_free_space reservation file data left : Up Env _).
Proof. unfold write_upload_chunk, check_space, consume_space, sys_write. hush. Qed.
#[local] Hint Resolve write_chunk_quiet : emits.
Lemma accept_chunk_quiet reservation file data left :
  emits quiet (accept_chunk min_free_space reservation file data left : Up Env _).
Proof. unfold accept_chunk, idle_deadline, expired. hush. Qed.
Lemma body_end_quiet last : emits quiet (body_end last : Up Env _).
Proof. unfold body_end, expired. hush. Qed.
#[local] Hint Resolve accept_chunk_quiet body_end_quiet : emits.
Lemma receive_frames_quiet frames last file reservation remaining left :
  emits quiet (receive_frames min_free_space frames last file reservation remaining left : Up Env _).
Proof.
  revert reservation remaining left. induction frames as [|chunk frames IH]; intros; cbn [receive_frames]; hush; apply IH.
Qed.
#[local] Hint Resolve receive_frames_quiet : emits.
Lemma receive_quiet body file reservation remaining :
  emits quiet (receive_upload_body min_free_space body file reservation remaining : Up Env _).
Proof. unfold receive_upload_body, idle_deadline. hush. Qed.
Lemma keep_or_reset_quiet u partial : hushed (keep_or_reset sha256 to_string_lossy room fs cleanup u partial).
Proof. unfold keep_or_reset. hush. Qed.
Lemma truncate_quiet u : emits quiet (truncate_stage u : Upload Env _).
Proof. unfold truncate_stage, sys_set_len. hush. Qed.
#[local] Hint Resolve receive_quiet keep_or_reset_quiet truncate_quiet : emits.
Lemma failed_transfer_quiet u error :
  hushed (finish_failed_transfer sha256 to_string_lossy room fs cleanup u error).
Proof. unfold finish_failed_transfer, sys_file_metadata. hush. Qed.
Lemma transfer_error_quiet id len error :
  hushed (apply_awaiting_confirmation_transfer_error (Env := Env) id len error).
Proof. unfold apply_awaiting_confirmation_transfer_error. hush. Qed.
Lemma space_confirmed_quiet u : emits quiet (space_confirmed min_free_space u : Up Env _).
Proof. unfold space_confirmed, check_space. hush. Qed.
Lemma length_mismatch_quiet u actual :
  hushed (length_mismatch sha256 to_string_lossy room fs cleanup u actual).
Proof. unfold length_mismatch. hush. Qed.
Lemma roll_back_quiet u unknown status code message :
  hushed (roll_back sha256 to_string_lossy room fs cleanup u unknown status code message).
Proof. unfold roll_back. hush. Qed.
#[local] Hint Resolve failed_transfer_quiet transfer_error_quiet space_confirmed_quiet length_mismatch_quiet
  roll_back_quiet : emits.
Lemma unless_awaiting_quiet u status code message otherwise :
  hushed otherwise -> hushed (unless_awaiting (Env := Env) u status code message otherwise).
Proof. intros. unfold unless_awaiting. hush. Qed.

Lemma tidy_directory_quiet u : hushed (tidy_stage_directory fs u).
Proof. unfold tidy_stage_directory. hush. Qed.
#[local] Hint Resolve tidy_directory_quiet : emits.
Lemma publication_done_quiet u : hushed (publication_done sha256 to_string_lossy fs u).
Proof. unfold publication_done. hush. Qed.
Lemma publication_rejected_quiet u file : hushed (publication_rejected sha256 to_string_lossy fs u file).
Proof. unfold publication_rejected. hush. Qed.
Lemma publication_failed_quiet u : hushed (publication_failed sha256 to_string_lossy room fs cleanup u).
Proof. unfold publication_failed. hush. Qed.
Lemma publication_unknown_quiet u : hushed (publication_unknown sha256 to_string_lossy fs u).
Proof. unfold publication_unknown. hush. Qed.
#[local] Hint Resolve publication_done_quiet publication_rejected_quiet publication_failed_quiet
  publication_unknown_quiet : emits.

(** *** Preparation *)

Lemma refuse_quiet {A} context status code detail recovery :
  hushed (refuse context status code detail recovery : Handler Env (option A)).
Proof. unfold refuse. hush. Qed.
#[local] Hint Resolve refuse_quiet : emits.
Lemma refuse_unseen_quiet {A} id : hushed (refuse_unseen id : Handler Env (option A)).
Proof. apply refuse_quiet. Qed.
Lemma deadline_quiet id message : hushed (upload_deadline_expired (Env := Env) id message).
Proof. unfold upload_deadline_expired, expired. hush. Qed.
Lemma timed_out_before_quiet {A} options offset message :
  hushed (timed_out_before_mutation options offset message : Handler Env (option A)).
Proof. apply refuse_quiet. Qed.
#[local] Hint Resolve refuse_unseen_quiet deadline_quiet timed_out_before_quiet : emits.
Lemma deadline_before_quiet options message :
  hushed (upload_deadline_expired_before_mutation (Env := Env) options message).
Proof. unfold upload_deadline_expired_before_mutation, expired. hush. Qed.
Lemma begin_quiet options message : hushed (begin_upload_mutation_or_reject (Env := Env) options message).
Proof. unfold begin_upload_mutation_or_reject, begin_upload_mutation. hush. Qed.
#[local] Hint Resolve deadline_before_quiet begin_quiet : emits.

Lemma check_record_quiet options path owner record : hushed (check_record sha256 fs options path owner record).
Proof. unfold check_record. hush. Qed.
Lemma track_resumed_quiet options path : hushed (track_resumed (Env := Env) options path).
Proof. unfold track_resumed, track_files. hush. Qed.
Lemma check_target_quiet options path owner record :
  hushed (check_target sha256 fs attributes_bytes options path owner record).
Proof. unfold check_target. hush. Qed.
Lemma check_checkpoint_quiet options record : hushed (check_checkpoint (Env := Env) options record).
Proof. unfold check_checkpoint. hush. Qed.
Lemma check_body_quiet options checkpoint body : hushed (check_body_length (Env := Env) options checkpoint body).
Proof. unfold check_body_length. hush. Qed.
Lemma discard_fresh_quiet file path created : emits quiet (discard_fresh sha256 room fs cleanup file path created).
Proof. unfold discard_fresh. hush. Qed.
#[local] Hint Resolve check_record_quiet track_resumed_quiet check_target_quiet check_checkpoint_quiet
  check_body_quiet discard_fresh_quiet : emits.
Lemma create_fresh_quiet options path remaining :
  hushed (create_fresh_stage sha256 room fs min_free_space cleanup options path remaining).
Proof. unfold create_fresh_stage, reserve_space, track_files, expired. hush. Qed.
Lemma time_out_quiet {A} u message :
  hushed (time_out sha256 to_string_lossy room fs cleanup u message : Handler Env (option A)).
Proof. unfold time_out. hush. Qed.
#[local] Hint Resolve create_fresh_quiet time_out_quiet : emits.
Lemma record_fresh_quiet u : hushed (record_fresh_stage sha256 to_string_lossy room fs cleanup u).
Proof. unfold record_fresh_stage, expired. hush. Qed.
Lemma resume_quiet options path stage owner offset checkpoint :
  hushed (resume_stage sha256 to_string_lossy fs options path stage owner offset checkpoint).
Proof. unfold resume_stage, sys_file_metadata, sys_seek, sys_set_len. hush. Qed.
Lemma gate_quiet options u message :
  hushed (deadline_gate sha256 to_string_lossy room fs cleanup options u message).
Proof. unfold deadline_gate, expired, outcome_can_be_unknown. hush. Qed.
#[local] Hint Resolve record_fresh_quiet resume_quiet gate_quiet : emits.
Lemma reserve_for_quiet options u remaining reserved :
  hushed (reserve_for sha256 to_string_lossy room fs min_free_space cleanup options u remaining reserved).
Proof. unfold reserve_for, reserve_space. hush. Qed.
Lemma open_stage_quiet options path stage owner target checkpoint remaining :
  hushed (open_stage sha256 to_string_lossy room fs min_free_space cleanup options path stage owner target
            checkpoint remaining).
Proof. unfold open_stage. hush. Qed.
#[local] Hint Resolve reserve_for_quiet open_stage_quiet : emits.
Lemma prepare_quiet max path options len :
  hushed (prepare_upload sha256 to_string_lossy room fs attributes_bytes min_free_space max cleanup path options len).
Proof. unfold prepare_upload. hush. Qed.
Lemma or_store_quiet {A} id (m : Upload Env A) : emits quiet m -> hushed (or_store_problem id m).
Proof. intros. unfold or_store_problem. hush. Qed.
End quiet_handlers.

#[export] Hint Resolve load_quiet save_quiet reject_quiet remove_quiet persist_quiet identify_quiet
  checkpoint_quiet commit_started_quiet awaiting_quiet terminal_quiet unknown_quiet persist_checkpoint_quiet
  persist_initial_quiet valid_stage_quiet classify_quiet lookup_quiet open_resumable_quiet reject_discard_quiet
  remove_file_quiet remove_directory_quiet cleanup_rejected_quiet reset_quiet discard_quiet rollback_quiet
  reset_ancestors_quiet problem_quiet unknown_response_quiet awaiting_response_quiet stopped_quiet
  store_problem_quiet conflict_quiet set_offset_quiet reset_upload_quiet discard_stage_quiet space_failure_quiet
  io_failure_quiet reset_created_quiet abandon_quiet timed_out_quiet write_chunk_quiet accept_chunk_quiet
  body_end_quiet receive_frames_quiet receive_quiet keep_or_reset_quiet truncate_quiet failed_transfer_quiet
  transfer_error_quiet space_confirmed_quiet length_mismatch_quiet roll_back_quiet tidy_directory_quiet
  publication_done_quiet publication_rejected_quiet publication_failed_quiet publication_unknown_quiet
  refuse_quiet refuse_unseen_quiet deadline_quiet timed_out_before_quiet deadline_before_quiet begin_quiet
  check_record_quiet track_resumed_quiet check_target_quiet check_checkpoint_quiet check_body_quiet
  discard_fresh_quiet create_fresh_quiet time_out_quiet record_fresh_quiet resume_quiet gate_quiet reserve_for_quiet
  open_stage_quiet unless_awaiting_quiet prepare_quiet or_store_quiet : emits.

(** ** The upload's own stage *)

Create HintDb own discriminated.

(** The system calls among the events. *)
Definition kernel_calls (l : list UploadEvent) : list SysCall :=
  omap (λ e, match e with UKernel c => Some c | _ => None end) l.

Lemma kernel_calls_map calls : kernel_calls (map UKernel calls) = calls.
Proof. unfold kernel_calls. induction calls as [|c calls IH]; cbn; by f_equal. Qed.

(** What a call may change, for an upload with its stage at one place of the tree
    and its target at another, after the calls [h]: it creates, opens to write,
    writes and changes nothing but the file at the place of the stage (and the mode of the
    staging directory around it), makes and removes nothing but directories on the way to it, sets
    it aside under a quarantine name next to it and unlinks it there, or renames it to
    the place of the target. *)
Section own.
Context (fs : RootedFs) `{UuidLib} (stage target : option (list component)).

Definition on_the_way (p : list component) : Prop := exists q, q <> [] /\ stage = Some (p ++ q).

(** The handle is the stage's. *)
Definition holds (h : list SysCall) (fd : Fd) : Prop := exists p, stage = Some p /\ opened_at fs h fd p.

(** The handle is the directory of the stage, and this its name there. *)
Definition stages (h : list SysCall) (dir : Fd) (name : bytes) : Prop :=
  exists p, stage = Some (p ++ [Normal name]) /\ opened_at fs h dir p.

(** The entry is the stage, or what was set aside under a quarantine name. *)
Definition own_entry (h : list SysCall) (dir : Fd) (name : bytes) : Prop :=
  stages h dir name \/ exists old id, name = quarantine_name id /\ Renameat dir old dir name true (Ok tt) ∈ h.

Definition own_call (h : list SysCall) (c : SysCall) : Prop :=
  match c with
  | Openat dir name flags _ _ _ => if creates_file flags then exclusive flags = true /\ stages h dir name else True
  | Mkdirat dir name _ _ | Unlinkat dir name true _ =>
      exists p, opened_at fs h dir p /\ on_the_way (p ++ [Normal name])
  | Unlinkat dir name false _ => own_entry h dir name
  | Renameat from name to new_name noreplace _ =>
      (own_entry h from name /\ to = from /\ noreplace = true /\ exists id, new_name = quarantine_name id) \/
      (stages h from name /\ exists q, target = Some (q ++ [Normal new_name]) /\ opened_at fs h to q)
  | Fchmod fd _ _ => holds h fd \/ exists name, stages h fd name
  | FileWrite fd _ _ | FileSetLen fd _ _ | Fchown fd _ _ _ | SetXattr fd _ _ _ | RemoveXattr fd _ _ => holds h fd
  | _ => True
  end.

Fixpoint own_calls (h l : list SysCall) : Prop :=
  match l with [] => True | c :: l => own_call h c /\ own_calls (h ++ [c]) l end.

Lemma holds_mono h h' fd : h ⊆ h' -> holds h fd -> holds h' fd.
Proof. intros Hs (p & Hp & Ha). exists p. split; [done|]. by eapply opened_at_mono. Qed.
Lemma stages_mono h h' dir name : h ⊆ h' -> stages h dir name -> stages h' dir name.
Proof. intros Hs (p & Hp & Ha). exists p. split; [done|]. by eapply opened_at_mono. Qed.
Lemma own_entry_mono h h' dir name : h ⊆ h' -> own_entry h dir name -> own_entry h' dir name.
Proof. intros Hs [Hst|(old & id & -> & Hin)]; [left; by eapply stages_mono|right]. exists old, id. split; [done|]. by apply Hs. Qed.

Lemma own_call_mono h h' c : h ⊆ h' -> own_call h c -> own_call h' c.
Proof.
  intros Hs. assert (forall fd p, opened_at fs h fd p -> opened_at fs h' fd p) as Hat
    by (intros fd p; by apply opened_at_mono).
  pose proof (holds_mono h h'). pose proof (stages_mono h h'). pose proof (own_entry_mono h h').
  destruct c as [dir path flags| | | | | |dir name []| | | | | | | | | | | | | | | | |]; cbn; try done; try naive_solver.
  destruct (creates_file flags); naive_solver.
Qed.

Lemma own_calls_mono h h' l : h ⊆ h' -> own_calls h l -> own_calls h' l.
Proof.
  revert h h'. induction l as [|c l IH]; intros h h' Hs; [done|]. intros [Hc Hl]. split; [by eapply own_call_mono|].
  eapply IH; [|exact Hl]. set_solver.
Qed.

Lemma own_calls_app h l l' : own_calls h (l ++ l') <-> own_calls h l /\ own_calls (h ++ l) l'.
Proof.
  revert h. induction l as [|c l IH]; intros h; cbn; [by rewrite app_nil_r; naive_solver|].
  rewrite IH, <-app_assoc. cbn. naive_solver.
Qed.

Lemma reads_own h c : reads c -> own_call h c.
Proof.
  unfold reads. destruct c as [dir path flags| | | | | |dir name []| | | | | | | | | | | | | | | | |]; try done.
  cbn. unfold creates_file. by intros ->.
Qed.
Lemma all_reads_own h l : Forall reads l -> own_calls h l.
Proof. intros Hl. revert h. induction Hl as [|c l Hc Hl IH]; intros h; [done|]. split; [by apply reads_own|apply IH]. Qed.

(** *** Programs *)

Section programs.
Context {Env : Type}.

(** After the calls [h] the program makes only calls of its own, and ends with a
    result that satisfies [Q] together with all calls so far. *)
Definition keeps_to (h : list SysCall) {A} (m : Sys Env A) (Q : A -> list SysCall -> Prop) : Prop :=
  spec m (λ a l, own_calls h l /\ Q a (h ++ l)).
Definition keeps (h : list SysCall) {A} (m : Sys Env A) : Prop := keeps_to h m (λ _ _, True).

Lemma keeps_to_bind {A B} h (m : Sys Env A) (k : A -> Sys Env B) P Q :
  keeps_to h m P -> (forall a h', h ⊆ h' -> P a h' -> keeps_to h' (k a) Q) -> keeps_to h (bind m k) Q.
Proof.
  intros Hm Hk. eapply spec_bind; [exact Hm|]. intros a l [Hl HP].
  eapply spec_weaken; [apply (Hk a (h ++ l)); [set_solver|done]|]. intros b l' [Hl' HQ].
  rewrite own_calls_app, app_assoc. done.
Qed.
Lemma keeps_to_bind_ok {E A B} h (m : Sys Env (result E A)) (k : A -> Sys Env (result E B)) P Q :
  keeps_to h m P -> (forall a h', h ⊆ h' -> P (Ok a) h' -> keeps_to h' (k a) Q) ->
  (forall e h', P (Err e) h' -> Q (Err e) h') -> keeps_to h (bind_ok m k) Q.
Proof.
  intros Hm Hk He. eapply keeps_to_bind; [exact Hm|]. intros [a|e] h' Hs HP; [by apply Hk|].
  apply spec_ret. rewrite app_nil_r. split; [done|]. by apply He.
Qed.
Lemma keeps_to_ret {A} h (a : A) Q : Q a h -> keeps_to h (ret a) Q.
Proof. intros HQ. apply spec_ret. by rewrite app_nil_r. Qed.
Lemma keeps_to_weaken {A} h (m : Sys Env A) P Q :
  keeps_to h m P -> (forall a h', h ⊆ h' -> P a h' -> Q a h') -> keeps_to h m Q.
Proof. intros Hm HPQ. eapply spec_weaken; [exact Hm|]. intros a l [Hl HP]. split; [done|]. apply HPQ; [set_solver|done]. Qed.
Lemma keeps_to_keeps {A} h (m : Sys Env A) Q : keeps_to h m Q -> keeps h m.
Proof. intros Hm. by eapply keeps_to_weaken. Qed.
Lemma keeps_mono {A} h h' (m : Sys Env A) : h ⊆ h' -> keeps h m -> keeps h' m.
Proof. intros Hs Hm. eapply spec_weaken; [exact Hm|]. intros a l [Hl _]. split; [by eapply own_calls_mono|done]. Qed.

Lemma keeps_ret {A} h (a : A) : keeps h (ret a).
Proof. by apply keeps_to_ret. Qed.
Lemma keeps_bind {A B} h (m : Sys Env A) (k : A -> Sys Env B) :
  keeps h m -> (forall a, keeps h (k a)) -> keeps h (bind m k).
Proof. intros Hm Hk. eapply keeps_to_bind; [exact Hm|]. intros a h' Hs _. by eapply keeps_mono. Qed.
Lemma keeps_bind_ok {E A B} h (m : Sys Env (result E A)) (k : A -> Sys Env (result E B)) :
  keeps h m -> (forall a, keeps h (k a)) -> keeps h (bind_ok m k).
Proof. intros Hm Hk. apply keeps_bind; [done|]. intros [a|e]; [apply Hk|apply keeps_ret]. Qed.
Lemma keeps_to_then {A B} h (m : Sys Env A) (k : A -> Sys Env B) Q :
  keeps h m -> (forall a h', h ⊆ h' -> keeps_to h' (k a) Q) -> keeps_to h (bind m k) Q.
Proof. intros Hm Hk. eapply keeps_to_bind; [exact Hm|]. intros a h' Hs _. by apply Hk. Qed.
Lemma keeps_to_then_ok {E A B} h (m : Sys Env (result E A)) (k : A -> Sys Env (result E B)) Q :
  keeps h m -> (forall a h', h ⊆ h' -> keeps_to h' (k a) Q) -> (forall e h', Q (Err e) h') ->
  keeps_to h (bind_ok m k) Q.
Proof. intros Hm Hk He. eapply keeps_to_bind_ok; [exact Hm| |]; intros; [by apply Hk|apply He]. Qed.
Lemma keeps_to_attempt_ret {E A B} h (r : result E A) (k : A -> Sys Env (result E B)) Q :
  (forall a, r = Ok a -> keeps_to h (k a) Q) -> (forall e, Q (Err e) h) -> keeps_to h (bind_ok (ret r) k) Q.
Proof. intros Hk He. apply spec_attempt_ret; [exact Hk|]. intros e _. rewrite app_nil_r. split; [done|apply He]. Qed.
Lemma keeps_call {A} h (run : Env -> A * Env) (event : A -> SysCall) :
  (forall a, own_call h (event a)) -> keeps h (syscall run event).
Proof. intros He. apply spec_call. by intros a. Qed.
Lemma keeps_to_bind_call {A B} h (run : Env -> A * Env) (event : A -> SysCall) (k : A -> Sys Env B) Q :
  (forall a, own_call h (event a)) -> (forall a, keeps_to (h ++ [event a]) (k a) Q) -> keeps_to h (bind (syscall run event) k) Q.
Proof.
  intros He Hk. apply spec_bind_call. intros a. eapply spec_weaken; [apply Hk|]. intros b l [Hl HQ].
  rewrite <-app_assoc in HQ. by split.
Qed.
Lemma keeps_reads {A} h (m : Sys Env A) : emits reads m -> keeps h m.
Proof. intros Hm. eapply spec_weaken; [exact Hm|]. intros a l Hl. split; [by apply all_reads_own|done]. Qed.
Lemma keeps_to_reads {A} h (m : Sys Env A) (P Q : A -> list SysCall -> Prop) :
  spec m (λ a l, Forall reads l /\ P a l) -> (forall a l, P a l -> Q a (h ++ l)) -> keeps_to h m Q.
Proof.
  intros Hm HPQ. eapply spec_weaken; [exact Hm|]. intros a l [Hl HP]. split; [by apply all_reads_own|by apply HPQ].
Qed.
End programs.

Context {Env : Type} `{Os Env}.
Lemma keeps_io_of {A} h (m : Sys Env (result Errno A)) : keeps h m -> keeps h (io_of m).
Proof. intros Hm. apply keeps_bind; [done|]. intros. apply keeps_ret. Qed.
Lemma keeps_to_attempt_call {A B} h (run : Env -> result Errno A * Env) (event : result Errno A -> SysCall)
    (k : A -> Io Env B) Q :
  (forall a, own_call h (event a)) -> (forall a, keeps_to (h ++ [event (Ok a)]) (k a) Q) ->
  (forall e, Q (Err (errno_io e)) (h ++ [event (Err e)])) ->
  keeps_to h (bind_ok (io_of (syscall run event)) k) Q.
Proof.
  intros He Hk Herr. apply spec_attempt_call.
  - intros a. eapply spec_weaken; [apply Hk|]. intros b l [Hl HQ]. rewrite <-app_assoc in HQ. split; [|done]. split; [apply He|done].
  - intros e. split; [|apply Herr]. split; [apply He|done].
Qed.

(** *** Creating and removing directories on the way *)

(** A parent opened without creating anything. *)
Lemma keeps_to_parent (m : Io Env OpenedParent) path h :
  spec m (λ r l, Forall reads l /\ forall parent, r = Ok parent -> entry_at fs l (op_fd parent) (op_name parent) path) ->
  keeps_to h m (λ r h', forall parent, r = Ok parent -> entry_at fs h' (op_fd parent) (op_name parent) path).
Proof.
  intros Hm. eapply keeps_to_reads; [exact Hm|]. intros r l Hr parent E. specialize (Hr parent E).
  eapply entry_at_mono; [|exact Hr]. set_solver.
Qed.

Definition created_ok (a : CreatedAncestor) : Prop := forall p, place fs (ca_path a) = Some p -> on_the_way p.

Lemma rollback_keeps_own created h :
  Forall created_ok created -> keeps h (rollback_created_ancestors_blocking fs created : Io Env _).
Proof.
  intros Hc. unfold rollback_created_ancestors_blocking. apply Forall_reverse in Hc.
  induction Hc as [|a l Ha _ IH]; cbn [rollback_loop]; [apply keeps_ret|].
  eapply keeps_to_bind; [apply keeps_to_parent, open_parent_existing_at|].
  intros [parent|error] h' Hs Hp; cbv beta in Hp; pose proof (keeps_mono _ _ _ Hs IH) as IH'.
  2: { case_match; [done|apply keeps_ret]. }
  destruct (Hp _ eq_refl) as (p & Hpl & Hat). unfold sys_statat, sys_unlinkat, sys_fsync.
  apply keeps_bind; [by apply keeps_call|]. intros [current|e]; [|case_match; [done|apply keeps_ret]].
  case_match; [apply keeps_ret|]. apply keeps_bind.
  { apply keeps_call. intros answer. cbn. exists p. split; [done|]. by apply Ha. }
  intros [[]|e]; [|repeat case_match; try done; apply keeps_ret].
  apply keeps_bind_ok; [|done]. apply keeps_io_of. by apply keeps_call.
Qed.

Lemma keeps_to_directory relative h :
  keeps_to h (open_directory_from_root fs relative : Io Env _) (λ r h',
    forall fd, r = Ok fd -> opened_at fs h' fd (components relative)).
Proof.
  eapply keeps_to_reads; [apply open_directory_at|]. intros r l Hr fd E. apply opened_at_after. by apply Hr.
Qed.

(** Walks through a program whose calls are its own after [h]. *)
Ltac own_step :=
  intros; cbv beta zeta;
  match goal with
  | |- keeps_to ?h ?m (λ _ _, True) => change (keeps h m)
  | |- keeps _ (bind _ _) => apply keeps_bind
  | |- keeps _ (bind_ok _ _) => apply keeps_bind_ok
  | |- keeps _ (ret _) => apply keeps_ret
  | |- keeps _ (ok _) => apply keeps_ret
  | |- keeps _ (fail _) => apply keeps_ret
  | |- keeps _ (io_of _) => apply keeps_io_of
  | |- keeps _ (syscall _ _) => apply keeps_call; intros
  | |- keeps _ (match ?x with _ => _ end) => destruct x
  end.

Lemma parent_of_push prefix p c : components prefix = p ++ [Normal c] -> components (default [] (path_parent prefix)) = p.
Proof.
  intros Hp. destruct (path_parent prefix) as [q|] eqn:E.
  - apply path_parent_components in E as [c' E]. rewrite Hp in E. by apply app_inj_tail in E as [-> _].
  - apply path_parent_none in E. rewrite Hp in E. destruct E as [E|E]; [by destruct p|].
    destruct p as [|? []]; [|done..]. done.
Qed.

Lemma create_ancestor_own rollback current prefix component created h p :
  (forall h l, Forall created_ok l -> keeps h (rollback l : Io Env unit)) ->
  Forall created_ok created ->
  Forall is_name p -> tail_component (Normal component) -> opened_at fs h current p ->
  components prefix = p ++ [Normal component] -> prefix <> [] -> on_the_way (p ++ [Normal component]) ->
  keeps_to h (create_ancestor fs rollback current prefix component created : Io Env _) (λ r h',
    forall fd created', r = Ok (fd, created') -> opened_at fs h' fd (components prefix) /\ Forall created_ok created').
Proof.
  intros Hr Hc Hn Ht Hat Hpre Hne Hway. unfold create_ancestor, sys_mkdirat, sys_fsync, sys_statat, sys_unlinkat.
  assert (Hrm : forall h' answer, h ⊆ h' -> own_call h' (Unlinkat current component true answer)).
  { intros h' answer Hs. exists p. split; [by eapply opened_at_mono|done]. }
  assert (Hmade : forall h' answer, h ⊆ h' -> own_call h' (Mkdirat current component 511 answer)).
  { intros h' answer Hs. exists p. split; [by eapply opened_at_mono|done]. }
  apply keeps_to_then; [by apply keeps_call; intros; apply Hmade|]. intros made h1 Hs1.
  apply keeps_to_then_ok; [|intros created_here h2 Hs2|done].
  { repeat (own_step || (by apply Hrm) || (by apply Hr) || exact I). }
  apply keeps_to_then_ok; [|intros identity h3 Hs3|done].
  { repeat (own_step || (apply Hrm; set_solver) || (by apply Hr) || exact I). }
  eapply keeps_to_bind; [apply keeps_to_directory|]. intros [next|error] h4 Hs4 Hd; cbv beta in Hd.
  - apply keeps_to_ret. intros fd created' [= <- <-]. split; [by apply Hd|]. destruct identity as [i|]; [|done].
    apply Forall_app. split; [done|]. constructor; [|constructor]. intros q Hq. cbn in Hq.
    apply place_components in Hq as [_ Hq]. rewrite components_push_names_path, Hpre in Hq; [|done|].
    + apply app_inv_head in Hq as <-. done.
    + rewrite Hpre. apply Forall_app. split; [done|]. by repeat constructor; eexists.
  - apply keeps_to_then; [|intros; apply keeps_to_then; [by apply Hr|intros; by apply keeps_to_ret]].
    destruct created_here; [|apply keeps_ret].
    eapply keeps_to_bind; [apply keeps_to_directory|]. intros [parent|] h5 Hs5 Hq; cbv beta in Hq; [|apply keeps_ret].
    specialize (Hq _ eq_refl). rewrite (parent_of_push prefix p _ Hpre) in Hq. repeat own_step; try done. by exists p.
Qed.

Lemma open_ancestors_own rollback todo current prefix created h rest :
  (forall h l, Forall created_ok l -> keeps h (rollback l : Io Env unit)) ->
  Forall created_ok created -> Forall is_name (components prefix ++ todo) -> Forall tail_component todo ->
  opened_at fs h current (components prefix) ->
  rest <> [] -> stage = Some ((components prefix ++ todo) ++ rest) ->
  keeps_to h (open_ancestors fs rollback true todo current prefix created : Io Env _) (λ r h',
    forall fd created', r = Ok (fd, created') ->
      opened_at fs h' fd (components prefix ++ todo) /\ Forall created_ok created').
Proof.
  intros Hr. revert current prefix created h. induction todo as [|c todo IH]; intros current prefix created h Hc Hn Ht Hat Hne Hst;
    cbn [open_ancestors].
  { apply keeps_to_ret. intros fd created' [= <- <-]. by rewrite app_nil_r. }
  apply Forall_cons in Ht as [Htc Ht]. pose proof Hn as [Hnp Hnc]%Forall_app. apply Forall_cons in Hnc as [[n ->] Hnt].
  assert (Hpush : components (path_push prefix n) = components prefix ++ [Normal n]) by by apply components_push_name.
  assert (E : components prefix ++ Normal n :: todo = components (path_push prefix n) ++ todo)
    by by rewrite Hpush, <-app_assoc.
  rewrite E in *. clear E.
  eapply keeps_to_bind; [apply keeps_to_directory|]. intros [next|e] h1 Hs Hd; cbv beta in Hd.
  - apply IH; try done. by apply Hd.
  - case_match; [|apply keeps_to_then; [by apply Hr|intros; by apply keeps_to_ret]].
    eapply keeps_to_bind_ok; [eapply (create_ancestor_own rollback current _ n created h1 (components prefix))|..]; try done.
    + by eapply opened_at_mono.
    + pose proof Htc as [[? _] _]. by apply push_not_empty.
    + rewrite <-Hpush. exists (todo ++ rest). split; [by destruct todo|]. by rewrite app_assoc.
    + intros [fd created'] h2 Hs2 Hok. destruct (Hok _ _ eq_refl) as [Hat2 Hc2]. by apply IH.
Qed.

(** The parent of an entry on the way, with missing ancestors created. *)
Lemma open_parent_creating_own path h rest q :
  place fs path = Some q -> rest <> [] -> stage = Some (q ++ rest) ->
  keeps_to h (open_parent_blocking fs path true : Io Env _) (λ r h', forall parent, r = Ok parent ->
    entry_at fs h' (op_fd parent) (op_name parent) path /\ Forall created_ok (op_created_ancestors parent)).
Proof.
  intros Hq Hne Hst. unfold open_parent_blocking, open_parent_with, sys_dup. unfold place in Hq.
  destruct (relative_path fs path) as [relative|] eqn:Hrel; [|done]. injection Hq as <-.
  apply keeps_to_attempt_ret; [|done]. intros ? [= <-]. apply keeps_to_attempt_ret; [|done]. intros name Hn.
  assert (path_file_name relative = Some name) as Hname by (destruct (path_file_name relative); cbn in Hn; congruence).
  destruct (relative_path_components _ _ _ Hrel) as [Hnames _].
  pose proof (parent_and_name _ _ Hname Hnames) as Hsplit.
  assert (Forall is_name (components (default [] (path_parent relative)))) as Hpn
    by (rewrite Hsplit, Forall_app in Hnames; tauto).
  apply keeps_to_attempt_call; [done| |done]. intros current.
  eapply keeps_to_bind_ok; [apply (open_ancestors_own _ _ _ _ _ _ (Normal name :: rest))|..]; try done.
  - intros. by apply rollback_keeps_own.
  - by apply names_are_tails.
  - eapply at_copy; [apply at_root|]. set_solver.
  - cbn. rewrite Hst, Hsplit, <-app_assoc. done.
  - intros [fd created] h2 Hs Hok. apply keeps_to_ret. intros parent [= <-]. cbn.
    destruct (Hok _ _ eq_refl) as [Ho Hc]. split; [|done]. exists (components (default [] (path_parent relative))).
    split; [|exact Ho]. unfold place. by rewrite Hrel, Hsplit.
Qed.

(** *** The staging directory *)

Context `{FileOs Env}.

Lemma open_stage_directory_own parent name (repair : bool) h p rest :
  opened_at fs h parent p -> stage = Some (p ++ [Normal name; Normal rest]) ->
  keeps_to h (open_upload_stage_directory_at parent name repair : Io Env _) (λ r h',
    forall fd, r = Ok fd -> opened_at fs h' fd (p ++ [Normal name])).
Proof.
  intros Hat Hst. unfold open_upload_stage_directory_at, sys_openat, sys_fstat, sys_fchmod, sys_fsync, sys_statat.
  apply keeps_to_attempt_call; [done|intros directory|done].
  set (h1 := h ++ _). assert (opened_at fs h1 directory (p ++ [Normal name])) as Hd.
  { eapply at_entry; [by apply opened_at_app|]. apply elem_of_app. right. by left. }
  clearbody h1.
  do 2 (apply keeps_to_then_ok; [by repeat own_step|intros ? ? ?|done]).
  case_match; [by apply keeps_to_ret|].
  apply keeps_to_then_ok; [|intros ? ? ?|done].
  { repeat own_step; try done. right. exists rest, (p ++ [Normal name]). rewrite <-app_assoc. split; [done|].
    eapply opened_at_mono; [|exact Hd]. set_solver. }
  apply keeps_to_then_ok; [by repeat own_step|intros ? ? ?|done].
  case_match; apply keeps_to_ret; [done|]. intros fd [= <-]. eapply opened_at_mono; [|exact Hd]. set_solver.
Qed.

Lemma undo_directory_own (created : bool) parent name h p :
  opened_at fs h parent p -> on_the_way (p ++ [Normal name]) -> keeps h (undo_directory created parent name : Sys Env _).
Proof. intros Hat Hw. unfold undo_directory, sys_unlinkat, sys_fsync. repeat own_step; [by exists p|done]. Qed.

Lemma ensure_directory_own parent name h p rest :
  opened_at fs h parent p -> stage = Some (p ++ [Normal name; Normal rest]) ->
  keeps_to h (ensure_private_upload_stage_directory_at parent name : Io Env _) (λ r h',
    forall x, r = Ok x -> opened_at fs h' x.1 (p ++ [Normal name])).
Proof.
  intros Hat Hst. unfold ensure_private_upload_stage_directory_at, sys_mkdirat, sys_fstat, sys_fsync.
  assert (on_the_way (p ++ [Normal name])) as Hw by (exists [Normal rest]; by rewrite <-app_assoc).
  apply keeps_to_then; [apply keeps_call; intros answer; by exists p|]. intros made h1 Hs1.
  apply keeps_to_then_ok; [apply keeps_ret|intros created h2 Hs2|done].
  assert (Hundo : forall h', h2 ⊆ h' -> keeps h' (undo_directory created parent name : Sys Env _)).
  { intros h' Hs. eapply undo_directory_own; [|done]. eapply opened_at_mono; [|exact Hat]. set_solver. }
  eapply keeps_to_bind; [eapply open_stage_directory_own; [eapply opened_at_mono; [|exact Hat]; set_solver|done]|].
  intros [directory|error] h3 Hs3 Hd; cbv beta in Hd.
  2: { apply keeps_to_then; [by apply Hundo|]. intros. by apply keeps_to_ret. }
  specialize (Hd _ eq_refl). apply keeps_to_then; [by repeat own_step|]. intros [found|error] h4 Hs4.
  2: { apply keeps_to_then; [apply Hundo; set_solver|]. intros. by apply keeps_to_ret. }
  destruct created.
  2: { apply keeps_to_ret. intros x [= <-]. by eapply opened_at_mono. }
  apply keeps_to_then; [by repeat own_step|]. intros synced h5 Hs5.
  apply keeps_to_then; [by repeat own_step|]. intros [[]|error] h6 Hs6.
  - apply keeps_to_ret. intros x [= <-]. cbn. eapply opened_at_mono; [|exact Hd]. set_solver.
  - apply keeps_to_then; [apply Hundo; set_solver|]. intros. by apply keeps_to_ret.
Qed.

(** *** The stage *)

Lemma stage_path_places path directory name :
  place fs path = stage -> validated_upload_stage_path fs path = Ok (directory, name) ->
  exists q, stage = Some (q ++ [Normal name]) /\ forall q', place fs directory = Some q' -> q' = q.
Proof.
  unfold validated_upload_stage_path. intros Hst (rel & Hrel & (d & Hd & (n & Hn & E)%bind_Ok)%bind_Ok)%bind_Ok.
  destruct (negb (is_utf8 n && is_upload_stage_name n)); [done|]. injection E as <- <-.
  assert (upload_stage_directory path = Some d) as Hd' by (destruct (upload_stage_directory path); cbn in Hd; congruence).
  assert (path_file_name path = Some n) as Hn' by (destruct (path_file_name path); cbn in Hn; congruence).
  assert (path_parent path = Some d) as Hp.
  { unfold upload_stage_directory in Hd'. destruct (path_parent path) as [x|]; [|done]. cbn in Hd'.
    destruct (path_file_name x); [|done]. cbn in Hd'. case_match; congruence. }
  assert (place fs path = Some (components rel)) as Hpl by (unfold place; by rewrite Hrel).
  pose proof (place_not_root _ _ _ Hpl) as Hne. pose proof (place_components _ _ _ Hpl) as [_ Hc].
  apply path_parent_components in Hp as [c Hp]. apply file_name_last in Hn'. rewrite Hp, last_snoc in Hn'. injection Hn' as ->.
  destruct (exists_last Hne) as (q & c & Hq). rewrite Hq in *. rewrite Hp, app_assoc in Hc. apply app_inj_tail in Hc as [Hc <-].
  exists q. split; [by rewrite <-Hst|]. intros q' [_ Hq']%place_components. rewrite Hc in Hq'. by apply app_inv_head in Hq' as <-.
Qed.

Lemma prepare_stage_own fd h : holds h fd -> keeps h (prepare_stage fd : Io Env _).
Proof. intros Hh. unfold prepare_stage, sys_fchmod, sys_fstat. repeat own_step; [by left|done]. Qed.

Lemma create_stage_own path h :
  place fs path = stage ->
  keeps_to h (create_private_upload_stage fs path : Io Env _) (λ r h',
    forall file created, r = Ok (file, created) -> holds h' file /\ Forall created_ok created).
Proof.
  intros Hst. unfold create_private_upload_stage, sys_openat, sys_unlinkat, sys_fsync.
  apply keeps_to_attempt_ret; [|done]. intros [directory name] Hv.
  destruct (stage_path_places _ _ _ Hst Hv) as (q & Hq & Hdir). clear Hst Hv.
  destruct (place fs directory) as [q'|] eqn:Hpl.
  2: { unfold open_parent_blocking, open_parent_with. unfold place in Hpl. destruct (relative_path fs directory); [done|].
       by apply keeps_to_ret. }
  specialize (Hdir _ eq_refl) as ->.
  eapply keeps_to_bind_ok; [by apply (open_parent_creating_own directory h [Normal name] q)| |done].
  intros parent h1 _ Hp. destruct (Hp _ eq_refl) as [(p & Hpp & Hat) Hcr]. rewrite Hpl in Hpp. injection Hpp as ->. clear Hp.
  rewrite <-app_assoc in Hq. eapply keeps_to_bind; [by eapply (ensure_directory_own _ _ h1 p name)|].
  intros [[stage_directory made]|error] h2 Hs2 Hen; cbv beta in Hen.
  2: { apply keeps_to_then; [by apply rollback_keeps_own|]. intros. by apply keeps_to_ret. }
  specialize (Hen _ eq_refl). cbn in Hen. set (created := match made with Some _ => _ | None => _ end).
  assert (Forall created_ok created) as Hc.
  { subst created. destruct made; [|done]. apply Forall_app. split; [done|]. constructor; [|constructor].
    intros q Hq'. cbn in Hq'. rewrite Hpl in Hq'. injection Hq' as <-. exists [Normal name]. by rewrite <-app_assoc. }
  clearbody created.
  assert (stages h2 stage_directory name) as Hown by (exists (p ++ [Normal (op_name parent)]); by rewrite <-app_assoc).
  apply keeps_to_bind_call; [by intros answer; split|]. intros [fd|error].
  2: { apply keeps_to_then; [by apply rollback_keeps_own|]. intros. by apply keeps_to_ret. }
  set (h3 := h2 ++ _). assert (holds h3 fd) as Hh.
  { destruct Hown as (p' & Hp' & Ho). exists (p' ++ [Normal name]). split; [done|]. eapply at_entry; [by apply opened_at_app|].
    apply elem_of_app. right. by left. }
  assert (stages h3 stage_directory name) as Hown3 by (eapply stages_mono; [|exact Hown]; set_solver). clearbody h3.
  apply keeps_to_then; [by apply prepare_stage_own|]. intros [[]|error] h4 Hs4.
  - apply keeps_to_ret. intros ? ? [= <- <-]. split; [by eapply holds_mono|done].
  - apply keeps_to_then; [apply keeps_call; intros answer; left; by eapply stages_mono|]. intros.
    apply keeps_to_then; [by apply keeps_call|]. intros.
    apply keeps_to_then; [by apply rollback_keeps_own|]. intros. by apply keeps_to_ret.
Qed.

Lemma remove_directory_own path h : place fs path = stage -> keeps h (remove_empty_upload_stage_directory fs path : Io Env _).
Proof.
  intros Hst. unfold remove_empty_upload_stage_directory, remove_empty_upload_stage_directory_blocking,
    open_private_upload_stage_directory_at, sys_fstat, sys_statat, sys_unlinkat, sys_fsync.
  apply keeps_to_attempt_ret; [|done]. intros [directory name] Hv.
  destruct (stage_path_places _ _ _ Hst Hv) as (q & Hq & Hdir).
  apply keeps_to_attempt_ret; [|done]. intros _ _. case_match; [apply keeps_ret|].
  eapply keeps_to_bind; [apply keeps_to_parent, open_parent_at|]. intros [parent|error] h1 Hs Hp; cbv beta in Hp.
  2: { by repeat own_step. }
  destruct (Hp _ eq_refl) as (p & Hpl & Hat). pose proof (Hdir _ Hpl) as <-. rewrite <-app_assoc in Hq.
  apply keeps_to_then.
  { eapply keeps_to_keeps. by apply (open_stage_directory_own _ _ _ _ p name). }
  intros [fd|error] h2 Hs2; repeat own_step; try done.
  exists p. split; [by eapply opened_at_mono|]. exists [Normal name]. by rewrite <-app_assoc.
Qed.

(** *** Removing the stage *)

Section removal.
Context (sha256 : bytes -> bytes) (room : nat -> bool).

(** A step of a purge after the calls [h]: its calls are its own, and so is the
    entry it leaves. *)
Definition minds (h : list SysCall) {A} (m : Purge Env A) (te : TrashEntry) : Prop :=
  keeps_to h (m te) (λ x h', own_entry h' (te_parent x.2) (te_name x.2)).

Lemma minds_bind {A B} h (m : Purge Env A) (k : A -> Purge Env B) te :
  minds h m te -> (forall a te' h', h ⊆ h' -> own_entry h' (te_parent te') (te_name te') -> minds h' (k a) te') ->
  minds h (pbind m k) te.
Proof.
  intros Hm Hk. unfold minds, pbind. eapply keeps_to_bind; [exact Hm|]. intros [[a|e] te'] h' Hs Ho; [by apply Hk|].
  by apply keeps_to_ret.
Qed.
Lemma minds_quiet_bind {A B} h (m : Purge Env A) (k : A -> Purge Env B) te :
  RootedPurgeFacts.quiet m -> own_entry h (te_parent te) (te_name te) ->
  (forall a te' h', h ⊆ h' -> own_entry h' (te_parent te') (te_name te') -> same te te' -> minds h' (k a) te') ->
  minds h (pbind m k) te.
Proof.
  intros Hm Ho Hk. unfold minds, pbind.
  eapply (keeps_to_bind _ _ _ (λ x h', same te x.2 /\ h ⊆ h')).
  { eapply keeps_to_reads; [apply Hm|]. intros x l Hx. split; [done|set_solver]. }
  intros [x te'] h' Hs [Hsame _]. cbn in Hsame. pose proof Hsame as (E1 & E2 & _).
  assert (own_entry h' (te_parent te') (te_name te')) as Ho' by (rewrite E1, E2; by eapply own_entry_mono).
  destruct x as [a|e]; [by apply Hk|]. by apply keeps_to_ret.
Qed.
Lemma minds_quiet {A} h (m : Purge Env A) te :
  RootedPurgeFacts.quiet m -> own_entry h (te_parent te) (te_name te) -> minds h m te.
Proof.
  intros Hm Ho. eapply keeps_to_weaken.
  - eapply (keeps_to_reads _ _ _ (λ x h', same te x.2)); [apply Hm|by intros].
  - intros [x te'] h' Hs (E1 & E2 & _). cbn in *. rewrite E1, E2. by eapply own_entry_mono.
Qed.
Lemma minds_bind_call {A B} h (run : Env -> A * Env) (event : A -> SysCall) (k : A -> Purge Env B) te :
  (forall a, own_call h (event a)) -> (forall a, minds (h ++ [event a]) (k a) te) ->
  minds h (pbind (plift (syscall run event)) k) te.
Proof.
  intros He Hk. unfold minds, pbind, plift. eapply (keeps_to_bind _ _ _ (λ x h', exists a, x = (Ok a, te) /\ h' = h ++ [event a])).
  - apply keeps_to_bind_call; [done|]. intros a. apply keeps_to_ret. by exists a.
  - intros x h' _ (a & -> & ->). apply Hk.
Qed.

Lemma isolate_own attempts parent name anchor description h :
  own_entry h parent name ->
  keeps_to h (isolate attempts parent name anchor description : Sys Env _) (λ x h', own_entry h' parent x.2).
Proof.
  revert h. induction attempts as [|attempts IH]; intros h Ho; cbn [isolate]; [by apply keeps_to_ret|].
  unfold sys_new_uuid, sys_renameat, sys_fstat, sys_statat. apply keeps_to_then; [by apply keeps_call|]. intros fresh h1 Hs1.
  apply (own_entry_mono _ _ _ _ Hs1) in Ho. apply keeps_to_bind_call; [intros answer; left; eauto|].
  intros [[]|e].
  - assert (forall h', h1 ++ [Renameat parent name parent (quarantine_name fresh) true (Ok tt)] ⊆ h' ->
      own_entry h' parent (quarantine_name fresh)) as Hq.
    { intros h' Hs. right. exists name, fresh. split; [done|]. apply Hs. set_solver. }
    apply keeps_to_then; [by apply keeps_call|]. intros [anchored|e] h2 Hs2; [|apply keeps_to_ret; by apply Hq].
    apply keeps_to_then; [by apply keeps_call|]. intros [named|e] h3 Hs3; [|apply keeps_to_ret; apply Hq; set_solver].
    case_match; apply keeps_to_ret; apply Hq; set_solver.
  - repeat case_match; [apply IH|apply keeps_to_ret..]; (eapply own_entry_mono; [|exact Ho]); set_solver.
Qed.

Lemma sync_and_finish_quiet : RootedPurgeFacts.quiet (sync_and_finish : Purge Env bool).
Proof. unfold sync_and_finish, sys_fsync. quiet_auto. Qed.

Lemma remove_self_own description h te :
  own_entry h (te_parent te) (te_name te) -> minds h (remove_self false description) te.
Proof.
  intros Ho. unfold remove_self. apply minds_bind.
  { unfold minds, isolate_self. eapply keeps_to_bind; [by apply isolate_own|]. intros [r name] h' Hs Ho'.
    by apply keeps_to_ret. }
  intros [] te' h' Hs Ho'; cbn [negb]; [|apply minds_quiet; [apply sync_and_finish_quiet|done]].
  change (minds h' (step _ <- unlink_isolated (te_parent te') (te_name te') false description; sync_and_finish) te').
  apply minds_bind; [|intros; apply minds_quiet; [apply sync_and_finish_quiet|done]].
  unfold unlink_isolated, sys_unlinkat. apply minds_bind_call; [by intros|]. intros answer.
  apply minds_quiet; [unfold invalid; quiet_auto|]. eapply own_entry_mono; [|exact Ho']. set_solver.
Qed.

Lemma purge_file_own h te : own_entry h (te_parent te) (te_name te) -> minds h (purge_file sha256) te.
Proof.
  intros Ho. unfold purge_file, sys_interrupted, sys_deadline, sys_fstat, sys_statat.
  apply minds_quiet_bind; [quiet_auto|done|]. intros te0 te1 h1 _ Ho1 _.
  apply minds_quiet_bind; [quiet_auto|done|]. intros [] te2 h2 _ Ho2 _; [apply minds_quiet; [quiet_auto|done]|].
  apply minds_quiet_bind; [quiet_auto|done|]. intros [] te3 h3 _ Ho3 _; [apply minds_quiet; [quiet_auto|done]|].
  apply minds_quiet_bind; [quiet_auto|done|]. intros anchored te4 h4 _ Ho4 _.
  apply minds_quiet_bind; [quiet_auto|done|]. intros _ te5 h5 _ Ho5 _.
  apply minds_quiet_bind; [quiet_auto|done|]. intros [metadata|e] te6 h6 _ Ho6 _.
  - case_match; [apply minds_quiet; [quiet_auto|done]|by apply remove_self_own].
  - case_match; [apply minds_quiet; [apply sync_and_finish_quiet|done]|]. apply minds_quiet; [quiet_auto|done].
Qed.

Lemma quarantine_root_own attempts h te : own_entry h (te_parent te) (te_name te) -> minds h (quarantine_root attempts) te.
Proof.
  revert h te. induction attempts as [|attempts IH]; intros h te Ho; cbn [quarantine_root]; [by apply keeps_to_ret|].
  unfold sys_new_uuid, sys_renameat, sys_fsync.
  match goal with |- minds _ (pbind pget ?k) _ => change (minds h (k te) te) end.
  apply minds_quiet_bind; [quiet_auto|done|]. intros fresh te1 h1 Hs1 Ho1 Hsame.
  pose proof Hsame as (E1 & E2 & _). rewrite E1, E2 in Ho1.
  apply minds_bind_call; [intros answer; left; eauto|]. intros [[]|e].
  - match goal with |- minds ?h' (pbind (pset ?f) ?k) _ => change (minds h' (k tt) (f te1)) end.
    apply minds_quiet; [quiet_auto|]. cbn. right. exists (te_name te), fresh. split; [done|]. rewrite E1. set_solver.
  - assert (own_entry (h1 ++ [Renameat (te_parent te) (te_name te) (te_parent te) (quarantine_name fresh) true (Err e)])
      (te_parent te1) (te_name te1)) as Ho2 by (rewrite E1, E2; eapply own_entry_mono; [|exact Ho1]; set_solver).
    repeat case_match; [by apply IH|apply minds_quiet; [quiet_auto|done]..].
Qed.

Lemma purge_own gate h te max_entries :
  te_is_dir te = false -> own_entry h (te_parent te) (te_name te) ->
  keeps h (purge_slice sha256 room gate te max_entries : Sys Env _).
Proof.
  intros Hd Ho. unfold purge_slice. destruct gate; [apply keeps_ret|]. unfold slice_worker.
  apply keeps_to_then; [|intros [] ? ?; apply keeps_to_ret; done].
  eapply keeps_to_bind.
  { instantiate (1 := λ x h', own_entry h' (te_parent x.2) (te_name x.2)).
    change (minds h (purge_slice_blocking sha256 room (Z.max max_entries 1)) te). unfold purge_slice_blocking.
    match goal with |- minds _ (pbind pget ?k) _ => change (minds h (k te) te) end. cbv beta. rewrite Hd. cbn [negb].
    apply minds_bind; [by apply purge_file_own|]. intros. apply minds_quiet; [quiet_auto|done]. }
  intros [r te'] h' Hs Ho'. cbn in Ho'. destruct r as [x|e]; [apply keeps_ret|]. case_match; [|apply keeps_ret].
  apply (keeps_to_keeps _ _ (λ x h', own_entry h' (te_parent x.2) (te_name x.2))).
  match goal with |- keeps_to _ (?m te') _ => change (minds h' m te') end.
  apply minds_bind; [|intros; apply minds_quiet; [quiet_auto|done]].
  unfold quarantine_after_identity_error_blocking, sys_fsync.
  match goal with |- minds _ (pbind pget ?k) _ => change (minds h' (k te') te') end. cbv beta.
  case_match; [apply minds_quiet; [quiet_auto|done]|by apply quarantine_root_own].
Qed.
End removal.

(** *** Reading and writing the stage *)

Lemma open_stage_own path flags h :
  creates_file flags = false -> place fs path = stage ->
  keeps_to h (open_existing fs path flags : Io Env _) (λ r h', forall fd, r = Ok fd -> holds h' fd).
Proof.
  intros Hf Hst. unfold open_existing, sys_openat. apply keeps_to_attempt_ret; [|done]. intros relative Hrel.
  unfold io_of. apply keeps_to_bind_call; [intros answer; cbn; by rewrite Hf|].
  intros [fd|e]; apply keeps_to_ret; [|done]. intros ? [= <-]. exists (components relative).
  split; [rewrite <-Hst; unfold place; by rewrite Hrel|]. eapply at_path. apply elem_of_app. right. by left.
Qed.

Lemma holds_copy h fd copy : holds h fd -> holds (h ++ [Dup fd (Ok copy)]) copy.
Proof.
  intros (p & Hp & Ha). exists p. split; [done|]. eapply at_copy; [by apply opened_at_app|]. set_solver.
Qed.

Context (attributes_bytes : Z -> option Z).

Lemma apply_metadata_own file metadata h :
  holds h file -> keeps h (apply_replacement_metadata attributes_bytes file metadata : Io Env _).
Proof.
  intros Hh. unfold apply_replacement_metadata, sys_dup. apply keeps_to_attempt_call; [done| |done]. intros fd.
  pose proof (holds_copy h file fd Hh) as Hfd. set (h1 := h ++ _) in *. clearbody h1.
  assert (Hread : keeps h1 (read_all_xattrs attributes_bytes fd : Io Env _)) by apply keeps_reads, read_xattrs_reads.
  assert (Hset : forall l, keeps h1 (set_all_xattrs fd l : Io Env _)).
  { intros l. unfold set_all_xattrs, sys_set_xattr. induction l as [|[name value] l IH]; repeat own_step; done. }
  assert (Hdel : forall p l, keeps h1 (remove_other_xattrs fd p l : Io Env _)).
  { intros p l. unfold remove_other_xattrs, sys_remove_xattr. induction l as [|[name value] l IH]; repeat own_step; done. }
  unfold apply_file_metadata, sys_fstat, sys_fchown, sys_set_xattr, sys_fchmod.
  repeat (own_step || exact I || exact Hfd || apply Hread || apply Hdel || apply Hset || by left).
Qed.

Lemma sync_file_own file h : keeps h (sync_file_to_storage file : Io Env _).
Proof. unfold sync_file_to_storage, sys_dup, sys_fsync. by repeat own_step. Qed.

(** *** Publishing it *)

Lemma stages_of_entry h dir name path : place fs path = stage -> entry_at fs h dir name path -> stages h dir name.
Proof. intros Hst (p & Hp & Ha). exists p. by rewrite <-Hst. Qed.

Lemma sync_parents_own source destination same_parent h :
  keeps h (sync_renamed_parents source destination same_parent : Io Env _).
Proof. unfold sync_renamed_parents, sys_fsync. by repeat own_step. Qed.

Lemma prepare_replace_own source destination file expected h :
  place fs source = stage -> place fs destination = target ->
  keeps h (prepare_replace fs source destination file expected : Io Env _).
Proof.
  intros Hst Htg. unfold prepare_replace.
  eapply keeps_to_bind_ok; [apply keeps_to_parent, open_parent_at| |done]. intros src h1 _ Hsrc.
  eapply keeps_to_bind_ok; [apply keeps_to_parent, open_parent_at| |done]. intros dst h2 Hs2 Hdst.
  specialize (Hsrc _ eq_refl). specialize (Hdst _ eq_refl) as (q & Hq & Hdq).
  apply (entry_at_mono _ _ _ _ _ _ Hs2) in Hsrc. apply (stages_of_entry _ _ _ _ Hst) in Hsrc. rewrite Htg in Hq.
  assert (Hmove : forall noreplace answer,
    own_call h2 (Renameat (op_fd src) (op_name src) (op_fd dst) (op_name dst) noreplace answer))
    by (intros; right; eauto).
  unfold opened_directories_match, rename_missing_and_verify, sys_fstat, sys_statat, sys_renameat.
  repeat (own_step || exact I || apply Hmove || apply sync_parents_own).
Qed.

Lemma commit_staged_own publish file source destination expected h :
  place fs source = stage -> place fs destination = target ->
  keeps h (commit_staged_file fs publish file source destination expected : Sys Env _).
Proof.
  intros Hst Htg. unfold commit_staged_file, rename_replace_if_unchanged, replace_and_sync, sys_dup.
  repeat (own_step || exact I || apply sync_file_own || apply sync_parents_own || by apply prepare_replace_own).
Qed.

(** *** Events and handlers *)

Section uploads.
Context `{UploadHost Env} `{HttpTypes}.

Definition tends_to (h : list SysCall) {A} (m : Up Env A) (Q : A -> list SysCall -> Prop) : Prop :=
  spec m (λ a l, own_calls h (kernel_calls l) /\ Q a (h ++ kernel_calls l)).
Definition tends (h : list SysCall) {A} (m : Up Env A) : Prop := tends_to h m (λ _ _, True).

Lemma tends_to_bind {A B} h (m : Up Env A) (k : A -> Up Env B) P Q :
  tends_to h m P -> (forall a h', h ⊆ h' -> P a h' -> tends_to h' (k a) Q) -> tends_to h (bind m k) Q.
Proof.
  intros Hm Hk. eapply spec_bind; [exact Hm|]. intros a l [Hl HP].
  eapply spec_weaken; [apply (Hk a (h ++ kernel_calls l)); [set_solver|done]|]. intros b l' [Hl' HQ].
  unfold kernel_calls in *. rewrite omap_app, own_calls_app, app_assoc. done.
Qed.
Lemma tends_to_bind_ok {E A B} h (m : Up Env (result E A)) (k : A -> Up Env (result E B)) P Q :
  tends_to h m P -> (forall a h', h ⊆ h' -> P (Ok a) h' -> tends_to h' (k a) Q) ->
  (forall e h', P (Err e) h' -> Q (Err e) h') -> tends_to h (bind_ok m k) Q.
Proof.
  intros Hm Hk He. eapply tends_to_bind; [exact Hm|]. intros [a|e] h' Hs HP; [by apply Hk|].
  apply spec_ret. cbn. rewrite app_nil_r. split; [done|]. by apply He.
Qed.
Lemma tends_to_ret {A} h (a : A) (Q : A -> list SysCall -> Prop) : Q a h -> tends_to h (ret a) Q.
Proof. intros HQ. apply spec_ret. cbn. by rewrite app_nil_r. Qed.
Lemma tends_to_ukernel {A} h (m : Sys Env A) Q : keeps_to h m Q -> tends_to h (ukernel m) Q.
Proof.
  intros Hm. eapply spec_weaken; [apply spec_ukernel, Hm|]. intros a l (calls & -> & Hc). by rewrite kernel_calls_map.
Qed.
Lemma tends_to_uio {A} h (m : Io Env A) (Q : result IoError A -> list SysCall -> Prop) :
  keeps_to h m Q -> tends_to h (uio m) (λ r h', forall a, r = Ok a -> Q (Ok a) h').
Proof.
  intros Hm. eapply tends_to_bind; [by apply tends_to_ukernel|]. intros [a|e] h' _ Ha; apply tends_to_ret; [|done].
  by intros ? [= <-].
Qed.
Lemma tends_to_tends {A} h (m : Up Env A) Q : tends_to h m Q -> tends h m.
Proof. intros Hm. eapply spec_weaken; [exact Hm|]. by intros a l [Hl _]. Qed.
Lemma tends_mono {A} h h' (m : Up Env A) : h ⊆ h' -> tends h m -> tends h' m.
Proof. intros Hs Hm. eapply spec_weaken; [exact Hm|]. intros a l [Hl _]. split; [by eapply own_calls_mono|done]. Qed.

Lemma tends_ret {A} h (a : A) : tends h (ret a).
Proof. by apply tends_to_ret. Qed.
Lemma tends_bind {A B} h (m : Up Env A) (k : A -> Up Env B) :
  tends h m -> (forall a, tends h (k a)) -> tends h (bind m k).
Proof. intros Hm Hk. eapply tends_to_bind; [exact Hm|]. intros a h' Hs _. by eapply tends_mono. Qed.
Lemma tends_bind_ok {E A B} h (m : Up Env (result E A)) (k : A -> Up Env (result E B)) :
  tends h m -> (forall a, tends h (k a)) -> tends h (bind_ok m k).
Proof. intros Hm Hk. apply tends_bind; [done|]. intros [a|e]; [apply Hk|apply tends_ret]. Qed.
Lemma tends_call {A} h (run : Env -> A * Env) (event : A -> UploadEvent) :
  (forall a, kernel_calls [event a] = []) -> tends h (syscall run event).
Proof. intros He. apply spec_call. intros a. by rewrite He. Qed.
Lemma tends_ukernel {A} h (m : Sys Env A) : keeps h m -> tends h (ukernel m).
Proof. apply tends_to_ukernel. Qed.
Lemma tends_uio {A} h (m : Io Env A) : keeps h m -> tends h (uio m).
Proof. intros Hm. apply tends_bind; [by apply tends_ukernel|]. intros. apply tends_ret. Qed.

(** Handlers, with the response they write. *)
Definition behaves_to (h : list SysCall) {A} (m : Handler Env A) (Q : result UploadError A -> list SysCall -> Prop) : Prop :=
  hspec m (λ r l, own_calls h (kernel_calls l) /\ Q r (h ++ kernel_calls l)).
Definition behaves (h : list SysCall) {A} (m : Handler Env A) : Prop := behaves_to h m (λ _ _, True).

Lemma behaves_to_then {A B} h (m : Handler Env A) (k : A -> Handler Env B) P Q :
  behaves_to h m P -> (forall a h', h ⊆ h' -> P (Ok a) h' -> behaves_to h' (k a) Q) ->
  (forall e h', P (Err e) h' -> Q (Err e) h') -> behaves_to h (then_do m k) Q.
Proof.
  intros Hm Hk He. eapply hspec_then; [exact Hm| |].
  - intros a l [Hl HP]. eapply hspec_weaken; [apply (Hk a (h ++ kernel_calls l)); [set_solver|done]|].
    intros r l' [Hl' HQ]. unfold kernel_calls in *. rewrite omap_app, own_calls_app, app_assoc. done.
  - intros e l [Hl HP]. split; [done|by apply He].
Qed.
Lemma behaves_to_behaves {A} h (m : Handler Env A) Q : behaves_to h m Q -> behaves h m.
Proof. intros Hm. eapply hspec_weaken; [exact Hm|]. by intros r l [Hl _]. Qed.
Lemma behaves_mono {A} h h' (m : Handler Env A) : h ⊆ h' -> behaves h m -> behaves h' m.
Proof. intros Hs Hm. eapply hspec_weaken; [exact Hm|]. intros r l [Hl _]. split; [by eapply own_calls_mono|done]. Qed.
Lemma behaves_then {A B} h (m : Handler Env A) (k : A -> Handler Env B) :
  behaves h m -> (forall a, behaves h (k a)) -> behaves h (then_do m k).
Proof. intros Hm Hk. eapply behaves_to_then; [exact Hm| |done]. intros a h' Hs _. by eapply behaves_mono. Qed.
Lemma behaves_to_look {A} h (m : Up Env A) (Q : A -> list SysCall -> Prop) :
  tends_to h m Q -> behaves_to h (look m) (λ r h', forall a, r = Ok a -> Q a h').
Proof.
  intros Hm. apply hspec_look. eapply spec_weaken; [exact Hm|]. intros a l [Hl HQ]. split; [done|]. by intros ? [= <-].
Qed.
Lemma behaves_to_call {A} h (m : Upload Env A) Q : tends_to h m Q -> behaves_to h (call m) Q.
Proof. intros Hm. by apply hspec_call. Qed.
Lemma behaves_look {A} h (m : Up Env A) : tends h m -> behaves h (look m).
Proof. intros Hm. eapply behaves_to_behaves, behaves_to_look, Hm. Qed.
Lemma behaves_call {A} h (m : Upload Env A) : tends h m -> behaves h (call m).
Proof. intros Hm. by apply behaves_to_call. Qed.
Lemma behaves_pure {A} h (r : result UploadError A) : behaves h (pure r).
Proof. by apply hspec_pure. Qed.
Lemma behaves_respond h f : behaves h (respond f).
Proof. intros res. by apply spec_ret. Qed.

(** Walks through a program or handler; what is not a step is looked up. *)
Ltac tend_step :=
  intros; cbv beta zeta;
  match goal with
  | |- tends_to ?h ?m (λ _ _, True) => change (tends h m)
  | |- behaves_to ?h ?m (λ _ _, True) => change (behaves h m)
  | |- tends _ (bind _ _) => apply tends_bind
  | |- tends _ (bind_ok _ _) => apply tends_bind_ok
  | |- tends _ (ret _) => apply tends_ret
  | |- tends _ (ok _) => apply tends_ret
  | |- tends _ (fail _) => apply tends_ret
  | |- tends _ (syscall _ _) => apply tends_call; reflexivity
  | |- tends _ (ukernel _) => apply tends_ukernel
  | |- tends _ (uio _) => apply tends_uio
  | |- tends _ (match ?x with _ => _ end) => destruct x
  | |- behaves _ (then_do _ _) => apply behaves_then
  | |- behaves _ (look _) => apply behaves_look
  | |- behaves _ (call _) => apply behaves_call
  | |- behaves _ (done _) => apply behaves_pure
  | |- behaves _ (broken _) => apply behaves_pure
  | |- behaves _ (pure _) => apply behaves_pure
  | |- behaves _ (respond _) => apply behaves_respond
  | |- behaves _ (match ?x with _ => _ end) => destruct x
  end.
Ltac tend := repeat (tend_step || own_step || exact I || solve [eauto with own nocore]).

Context (sha256 : bytes -> bytes) (to_string_lossy : bytes -> bytes) (room : nat -> bool).

Lemma keeps_open_write path h : keeps h (open_write fs path : Io Env _).
Proof. by apply keeps_reads, open_existing_reads. Qed.
Lemma keeps_open_read path h : keeps h (open_read fs path : Io Env _).
Proof. by apply keeps_reads, open_existing_reads. Qed.
Lemma keeps_metadata path h : keeps h (metadata_nofollow fs path : Io Env _).
Proof. apply keeps_reads, metadata_nofollow_reads. Qed.
Lemma keeps_sync_parent path h : keeps h (sync_parent fs path : Io Env _).
Proof. apply keeps_bind_ok; [apply keeps_reads, open_parent_reads|]. intros. unfold sys_fsync. by repeat own_step. Qed.
Lemma keeps_replacement path h : keeps h (replacement_identity_blocking fs path : Io Env _).
Proof. apply keeps_reads, replacement_identity_reads. Qed.
Lemma keeps_replacement_metadata path h : keeps h (replacement_metadata fs attributes_bytes path : Io Env _).
Proof. apply keeps_reads, replacement_metadata_reads. Qed.
Lemma keeps_nearest path h : keeps h (open_nearest_existing_parent fs path : Io Env _).
Proof. apply keeps_reads, nearest_parent_reads. Qed.
#[local] Hint Resolve keeps_open_write keeps_open_read keeps_metadata keeps_sync_parent keeps_replacement
  keeps_replacement_metadata keeps_nearest sync_file_own apply_metadata_own commit_staged_own
  remove_directory_own rollback_keeps_own : own.

(** The session. *)

Lemma persist_own h record offset state i : tends h (persist_state sha256 to_string_lossy fs record offset state i : Upload Env _).
Proof. unfold persist_state, load_session, save_session. tend. Qed.
Lemma identify_own h file path offset : tends h (sync_and_identify_stage fs file path offset : Upload Env _).
Proof. unfold sync_and_identify_stage, sys_flush, sys_file_metadata. tend. Qed.
#[local] Hint Resolve persist_own identify_own : own.
Lemma checkpoint_own h file record offset sync :
  tends h (persist_checkpoint_inner sha256 to_string_lossy fs file record offset sync : Upload Env _).
Proof. unfold persist_checkpoint_inner. tend. Qed.
Lemma persist_checkpoint_own h file record offset :
  tends h (persist_checkpoint sha256 to_string_lossy fs file record offset : Upload Env _).
Proof. apply checkpoint_own. Qed.
Lemma persist_initial_own h file record offset :
  tends h (persist_initial_checkpoint sha256 to_string_lossy fs file record offset : Upload Env _).
Proof. apply checkpoint_own. Qed.
Lemma commit_started_own h file record : tends h (persist_commit_started sha256 to_string_lossy fs file record : Upload Env _).
Proof. unfold persist_commit_started. tend. Qed.
Lemma awaiting_own h file record :
  tends h (persist_awaiting_confirmation sha256 to_string_lossy fs file record : Upload Env _).
Proof. unfold persist_awaiting_confirmation. tend. Qed.
Lemma terminal_own h record offset state :
  tends h (persist_terminal sha256 to_string_lossy fs record offset state : Upload Env _).
Proof. unfold persist_terminal. tend. Qed.
Lemma unknown_own h record offset : tends h (persist_unknown sha256 to_string_lossy fs record offset : Upload Env _).
Proof. unfold persist_unknown. tend. Qed.
Lemma lookup_own h owner id target_path stage_path :
  tends h (UploadRecords.lookup sha256 to_string_lossy fs owner id target_path stage_path : Upload Env _).
Proof. unfold UploadRecords.lookup, classify_stored_session, valid_resumable_stage, load_session, sys_file_metadata. tend. Qed.
#[local] Hint Resolve persist_checkpoint_own persist_initial_own commit_started_own awaiting_own terminal_own
  unknown_own lookup_own : own.

Lemma open_resumable_own h record offset state :
  place fs (rc_stage_path record) = stage ->
  tends_to h (open_resumable_stage sha256 to_string_lossy fs record offset state : Upload Env _) (λ r h',
    forall file, r = Ok (Some file) -> holds h' file).
Proof.
  intros Hst. unfold open_resumable_stage. eapply (tends_to_bind_ok _ _ _ (λ _ _, True)); [apply tends_ret| |done].
  intros [target_relative stage_relative] h1 _ _.
  eapply (tends_to_bind_ok _ _ _ (λ _ _, True)); [unfold load_session; tend| |done]. intros [session|] h2 _ _; [|by apply tends_to_ret].
  case_match; [by apply tends_to_ret|]. destruct (us_stage_identity session) as [i|]; [|by apply tends_to_ret].
  eapply tends_to_bind.
  { apply tends_to_ukernel. instantiate (1 := λ r h', forall fd, r = Ok fd -> holds h' fd).
    destruct state; by apply open_stage_own. }
  intros [file|error] h3 _ Hf; cbv beta in Hf; [|case_match; by apply tends_to_ret].
  eapply (tends_to_bind_ok _ _ _ (λ _ _, True)); [unfold sys_file_metadata; tend| |done].
  intros metadata h4 Hs _. apply tends_to_ret. intros fd Hfd. case_match; [done|]. injection Hfd as <-.
  eapply holds_mono; [exact Hs|]. by apply Hf.
Qed.

(** Removing the stage. *)

Lemma remove_file_own h gate path expected :
  place fs path = stage -> tends h (remove_file_if_identity sha256 room fs gate path expected : Upload Env _).
Proof.
  intros Hst. unfold remove_file_if_identity. eapply tends_to_bind_ok; [|intros captured h1 _ Hc|done].
  { apply tends_to_uio. instantiate (1 := λ r h', forall te, r = Ok (Some te) -> own_entry h' (te_parent te) (te_name te) /\ te_is_dir te = false).
    eapply keeps_to_reads; [apply (capture_at fs sha256)|]. intros r l Hr te E. destruct (Hr te E) as [[He _] Hd].
    split; [|done]. left. eapply stages_of_entry; [done|]. eapply entry_at_mono; [|exact He]. set_solver. }
  destruct captured as [te|]; [|apply tends_ret]. destruct (Hc _ eq_refl _ eq_refl) as [Ho Hd].
  case_match; [apply tends_ret|]. apply tends_bind; [by apply tends_ukernel, purge_own|]. intros. apply tends_ret.
Qed.
Lemma remove_stage_directory_own h path :
  place fs path = stage -> tends h (remove_stage_directory_if_empty fs path : Upload Env _).
Proof. intros. unfold remove_stage_directory_if_empty. tend. Qed.
#[local] Hint Resolve remove_file_own remove_stage_directory_own : own.
Lemma reset_own h gate owner id target_path path :
  place fs path = stage -> tends h (reset sha256 to_string_lossy room fs gate owner id target_path path : Upload Env _).
Proof. intros. unfold reset, load_session, remove_session. tend. Qed.
Lemma discard_own h gate file path :
  place fs path = stage -> tends h (discard_unrecorded_stage sha256 room fs gate file path : Upload Env _).
Proof. intros. unfold discard_unrecorded_stage, sys_file_metadata. tend. Qed.
Lemma rollback_ancestors_own h created :
  Forall created_ok (default [] created) -> tends h (rollback_upload_ancestors fs created : Upload Env _).
Proof. intros Hc. unfold rollback_upload_ancestors. destruct created as [[|a l]|]; [apply tends_ret|by apply tends_uio, rollback_keeps_own|apply tends_ret]. Qed.
#[local] Hint Resolve reset_own discard_own rollback_ancestors_own : own.

(** The transaction works on the stage and the target. *)
Record owns (h : list SysCall) (u : UploadTransaction) : Prop := {
  owns_stage : place fs (ut_upload_path u) = stage;
  owns_target : place fs (ut_target_path u) = target;
  owns_file : holds h (ut_file u);
  owns_created : Forall created_ok (default [] (ut_created_ancestors u))
}.
#[local] Hint Resolve owns_stage owns_target owns_file owns_created : own.

Lemma owns_mono h h' u : h ⊆ h' -> owns h u -> owns h' u.
Proof. intros Hs []. split; [done..|by eapply holds_mono|done]. Qed.

Context (min_free_space max_upload_size : Z) (cleanup : option IoError) (publish : result IoError unit).

Lemma reset_upload_own h u : owns h u -> tends h (reset_upload sha256 to_string_lossy room fs cleanup u : Upload Env _).
Proof. intros. unfold reset_upload, reset_and_ancestors. tend. Qed.
Lemma discard_stage_own h u : owns h u -> tends h (discard_stage sha256 room fs cleanup u : Upload Env _).
Proof. intros. unfold discard_stage. tend. Qed.
Lemma set_len_own h u n : owns h u -> keeps h (sys_set_len (ut_file u) n : Io Env _).
Proof. intros. unfold sys_set_len. apply keeps_call. intros. by eapply owns_file. Qed.
#[local] Hint Resolve reset_upload_own discard_stage_own set_len_own : own.

Lemma problem_own h context status code detail recovery :
  behaves h (problem (Env := Env) context status code detail recovery).
Proof. apply behaves_respond. Qed.
#[local] Hint Resolve problem_own : own.
Lemma conflict_own h path owner context : behaves h (render_upload_target_conflict (Env := Env) sha256 fs path owner context).
Proof. unfold render_upload_target_conflict. tend. Qed.
Lemma unknown_response_own h id message : behaves h (apply_upload_unknown (Env := Env) id message).
Proof. apply problem_own. Qed.
Lemma awaiting_response_own h id len status code message :
  behaves h (apply_awaiting_confirmation_problem (Env := Env) id len status code message).
Proof. apply problem_own. Qed.
Lemma stopped_own h u offset status code message : behaves h (stopped (Env := Env) u offset status code message).
Proof. apply problem_own. Qed.
Lemma set_offset_own h offset : behaves h (set_offset (Env := Env) offset).
Proof. apply behaves_respond. Qed.
Lemma store_problem_own h context error : behaves h (apply_upload_record_store_problem (Env := Env) context error).
Proof. unfold apply_upload_record_store_problem. tend. Qed.
#[local] Hint Resolve conflict_own unknown_response_own awaiting_response_own stopped_own set_offset_own store_problem_own : own.

Lemma space_failure_own h u message :
  owns h u -> behaves h (finish_precommit_space_failure sha256 to_string_lossy room fs cleanup u message : Handler Env _).
Proof. intros. unfold finish_precommit_space_failure. tend. Qed.
Lemma io_failure_own h u message :
  owns h u -> behaves h (finish_precommit_io_failure sha256 to_string_lossy room fs cleanup u message : Handler Env _).
Proof. intros. unfold finish_precommit_io_failure. tend. Qed.
Lemma abandon_own {A} h u discard error :
  owns h u -> tends h (abandon_timed_out sha256 to_string_lossy room fs cleanup u discard error : Upload Env A).
Proof. intros. unfold abandon_timed_out, reset_created. tend. Qed.
#[local] Hint Resolve space_failure_own io_failure_own abandon_own : own.
Lemma timed_out_own h u message :
  owns h u -> behaves h (finish_timed_out_upload sha256 to_string_lossy room fs cleanup u message : Handler Env _).
Proof. intros. unfold finish_timed_out_upload, sys_flush, sys_file_metadata. destruct (is_resume (ut_mode u)); tend. Qed.
#[local] Hint Resolve timed_out_own : own.

Lemma write_chunk_own h reservation file data left :
  holds h file -> tends h (write_upload_chunk min_free_space reservation file data left : Up Env _).
Proof. intros. unfold write_upload_chunk, check_space, consume_space, sys_write. tend. Qed.
#[local] Hint Resolve write_chunk_own : own.
Lemma receive_frames_own h frames last file reservation remaining left :
  holds h file -> tends h (receive_frames min_free_space frames last file reservation remaining left : Up Env _).
Proof.
  intros Hh. revert reservation remaining left. induction frames as [|chunk frames IH]; intros; cbn [receive_frames];
    unfold body_end, accept_chunk, idle_deadline, expired; tend; apply IH.
Qed.
Lemma receive_own h body file reservation remaining :
  holds h file -> tends h (receive_upload_body min_free_space body file reservation remaining : Up Env _).
Proof. intros. unfold receive_upload_body, idle_deadline. tend; by apply receive_frames_own. Qed.
Lemma keep_or_reset_own h u partial :
  owns h u -> behaves h (keep_or_reset sha256 to_string_lossy room fs cleanup u partial : Handler Env _).
Proof. intros. unfold keep_or_reset. tend. Qed.
Lemma truncate_own h u : owns h u -> tends h (truncate_stage u : Upload Env _).
Proof. intros. unfold truncate_stage. tend. Qed.
#[local] Hint Resolve keep_or_reset_own truncate_own : own.
Lemma failed_transfer_own h u error :
  owns h u -> behaves h (finish_failed_transfer sha256 to_string_lossy room fs cleanup u error : Handler Env _).
Proof. intros. unfold finish_failed_transfer, sys_file_metadata. tend. Qed.
#[local] Hint Resolve failed_transfer_own : own.

(** Publication. *)

Lemma unless_awaiting_own h u status code message otherwise :
  behaves h otherwise -> behaves h (unless_awaiting (Env := Env) u status code message otherwise).
Proof. intros. unfold unless_awaiting. tend. Qed.
Lemma before_deadline_own h u next :
  owns h u -> behaves h next -> behaves h (before_deadline sha256 to_string_lossy room fs cleanup u next : Handler Env _).
Proof. intros. unfold before_deadline, unless_awaiting, expired. tend. Qed.
Lemma space_confirmed_own h u : tends h (space_confirmed min_free_space u : Up Env _).
Proof. unfold space_confirmed, check_space. tend. Qed.
Lemma length_mismatch_own h u actual :
  owns h u -> behaves h (length_mismatch sha256 to_string_lossy room fs cleanup u actual : Handler Env _).
Proof. intros. unfold length_mismatch. tend. Qed.
Lemma roll_back_own h u unknown status code message :
  owns h u -> behaves h (roll_back sha256 to_string_lossy room fs cleanup u unknown status code message : Handler Env _).
Proof. intros. unfold roll_back. tend. Qed.
#[local] Hint Resolve space_confirmed_own length_mismatch_own roll_back_own : own.
Lemma commit_ready_own h u :
  owns h u -> behaves h (commit_ready_upload sha256 to_string_lossy room fs cleanup publish u : Handler Env _).
Proof.
  intros. unfold commit_ready_upload, publication_done, publication_rejected, publication_failed, publication_unknown,
    tidy_stage_directory. tend.
Qed.
#[local] Hint Resolve commit_ready_own : own.
Lemma commit_segment_own h u :
  owns h u ->
  behaves h (commit_segment sha256 to_string_lossy room fs attributes_bytes min_free_space cleanup publish u : Handler Env _).
Proof. intros. unfold commit_segment, replay_metadata, record_and_publish, unless_awaiting. tend. Qed.
#[local] Hint Resolve commit_segment_own : own.
Lemma prepare_transferred_own h u :
  owns h u ->
  behaves h (prepare_transferred_upload sha256 to_string_lossy room fs attributes_bytes min_free_space cleanup publish u : Handler Env _).
Proof. intros. unfold prepare_transferred_upload, sys_flush, sys_file_metadata.
  repeat (apply unless_awaiting_own || (apply before_deadline_own; [done|]) || tend). Qed.
Lemma transfer_own h u body :
  owns h u ->
  behaves h (transfer_upload_body sha256 to_string_lossy room fs attributes_bytes min_free_space cleanup publish u body : Handler Env _).
Proof.
  intros Hu. unfold transfer_upload_body, apply_awaiting_confirmation_transfer_error.
  assert (forall lease, owns h (with_lease u lease)) as Hl by (intros; by destruct Hu).
  assert (forall lease, behaves h (prepare_transferred_upload sha256 to_string_lossy room fs attributes_bytes
    min_free_space cleanup publish (with_lease u lease) : Handler Env _)) by (intros; by apply prepare_transferred_own).
  assert (forall reservation remaining, tends h (receive_upload_body min_free_space body (ut_file u) reservation remaining : Up Env _))
    by (intros; by apply receive_own, owns_file).
  tend.
Qed.

(** Preparation. *)

(** If the handler goes on, then with a value that satisfies [P]. *)
Definition passes (h : list SysCall) {A} (m : Handler Env (option A)) (P : A -> list SysCall -> Prop) : Prop :=
  behaves_to h m (λ r h', forall a, r = Ok (Some a) -> P a h').

Lemma passes_proceed {A B} h (m : Handler Env (option A)) (k : A -> Handler Env (option B)) P Q :
  passes h m P -> (forall a h', h ⊆ h' -> P a h' -> passes h' (k a) Q) -> passes h (proceed x <- m; k x) Q.
Proof.
  intros Hm Hk. eapply behaves_to_then; [exact Hm| |done]. intros [a|] h' Hs Ha; [apply Hk; [done|by apply Ha]|].
  apply hspec_done. cbn. rewrite app_nil_r. by split.
Qed.
Lemma passes_perform {A B} h (m : Handler Env A) (k : A -> Handler Env (option B)) Q :
  behaves h m -> (forall a h', h ⊆ h' -> passes h' (k a) Q) -> passes h (then_do m k) Q.
Proof. intros Hm Hk. eapply behaves_to_then; [exact Hm| |done]. intros a h' Hs _. by apply Hk. Qed.
Lemma passes_pure {A B} h (r : result UploadError A) (k : A -> Handler Env (option B)) Q :
  (forall a, r = Ok a -> passes h (k a) Q) -> passes h (then_do (pure r) k) Q.
Proof.
  intros Hk. eapply (behaves_to_then _ _ _ (λ x h', x = r /\ h' = h)); [| |by intros].
  - apply hspec_pure. cbn. by rewrite app_nil_r.
  - intros a h' _ [E ->]. by apply Hk.
Qed.
Lemma passes_any {A B} h (m : Handler Env (option A)) (k : A -> Handler Env (option B)) Q :
  behaves h m -> (forall a h', h ⊆ h' -> passes h' (k a) Q) -> passes h (proceed x <- m; k x) Q.
Proof.
  intros Hm Hk. apply passes_perform; [done|]. intros [a|] h' Hs; [by apply Hk|]. apply hspec_done. cbn. by split.
Qed.
Lemma passes_done {A} h (a : A) (P : A -> list SysCall -> Prop) : P a h -> passes h (done (Some a)) P.
Proof. intros HP. apply hspec_done. cbn. rewrite app_nil_r. split; [done|]. by intros ? [= <-]. Qed.
Lemma passes_none {A} h (P : A -> list SysCall -> Prop) : passes h (done None) P.
Proof. apply hspec_done. by split. Qed.
Lemma passes_broken {A} h e (P : A -> list SysCall -> Prop) : passes h (broken e) P.
Proof. apply hspec_broken. by split. Qed.
Lemma passes_refuse {A} h context status code detail recovery (P : A -> list SysCall -> Prop) :
  passes h (refuse context status code detail recovery) P.
Proof. apply passes_perform; [apply problem_own|]. intros. apply passes_none. Qed.

Lemma refuse_own {A} h context status code detail recovery :
  behaves h (refuse context status code detail recovery : Handler Env (option A)).
Proof. unfold refuse. tend. Qed.
#[local] Hint Resolve refuse_own : own.
Lemma refuse_unseen_own {A} h id : behaves h (refuse_unseen id : Handler Env (option A)).
Proof. apply refuse_own. Qed.
Lemma before_mutation_own {A} h options offset message :
  behaves h (timed_out_before_mutation options offset message : Handler Env (option A)).
Proof. apply refuse_own. Qed.
#[local] Hint Resolve refuse_unseen_own before_mutation_own : own.
Lemma deadline_own h id message : behaves h (upload_deadline_expired (Env := Env) id message).
Proof. unfold upload_deadline_expired, expired. tend. Qed.
Lemma deadline_before_own h options message : behaves h (upload_deadline_expired_before_mutation (Env := Env) options message).
Proof. unfold upload_deadline_expired_before_mutation, expired. tend. Qed.
Lemma begin_own h options message : behaves h (begin_upload_mutation_or_reject (Env := Env) options message).
Proof. unfold begin_upload_mutation_or_reject, begin_upload_mutation. tend. Qed.
#[local] Hint Resolve deadline_own deadline_before_own begin_own : own.
Lemma check_record_own h options path owner record : behaves h (check_record (Env := Env) sha256 fs options path owner record).
Proof. unfold check_record. tend. Qed.
Lemma track_resumed_own h options path : behaves h (track_resumed (Env := Env) options path).
Proof. unfold track_resumed, track_files. tend. Qed.
Lemma check_target_own h options path owner record :
  behaves h (check_target (Env := Env) sha256 fs attributes_bytes options path owner record).
Proof. unfold check_target. tend. Qed.
Lemma check_checkpoint_own h options record : behaves h (check_checkpoint (Env := Env) options record).
Proof. unfold check_checkpoint. tend. Qed.
Lemma check_body_own h options checkpoint body : behaves h (check_body_length (Env := Env) options checkpoint body).
Proof. unfold check_body_length. tend. Qed.
Lemma discard_fresh_own h file path created :
  place fs path = stage -> Forall created_ok created ->
  tends h (discard_fresh sha256 room fs cleanup file path created : Upload Env _).
Proof.
  intros Hst Hc. unfold discard_fresh. apply tends_bind; [by apply discard_own|]. intros.
  apply tends_bind_ok; [by apply rollback_ancestors_own|]. intros. apply tends_ret.
Qed.
#[local] Hint Resolve check_record_own track_resumed_own check_target_own check_checkpoint_own check_body_own
  discard_fresh_own : own.
Lemma time_out_own {A} h u message :
  owns h u -> behaves h (time_out sha256 to_string_lossy room fs cleanup u message : Handler Env (option A)).
Proof. intros. unfold time_out. tend. Qed.
#[local] Hint Resolve time_out_own : own.
Lemma record_fresh_own h u :
  owns h u -> behaves h (record_fresh_stage sha256 to_string_lossy room fs cleanup u : Handler Env _).
Proof. intros. unfold record_fresh_stage, expired. tend. Qed.
Lemma gate_own h options u message :
  owns h u -> behaves h (deadline_gate sha256 to_string_lossy room fs cleanup options u message : Handler Env _).
Proof. intros. unfold deadline_gate, expired, outcome_can_be_unknown. tend. Qed.
#[local] Hint Resolve record_fresh_own gate_own : own.

Lemma create_fresh_own h options path remaining :
  place fs path = stage ->
  passes h (create_fresh_stage sha256 room fs min_free_space cleanup options path remaining : Handler Env _) (λ x h',
    holds h' x.1.1 /\ Forall created_ok x.1.2).
Proof.
  intros Hst. unfold create_fresh_stage, reserve_space, track_files, expired.
  do 3 (apply passes_perform; [tend|]; intros ? ? _). case_match; [|apply passes_refuse].
  do 2 (apply passes_any; [tend|]; intros ? ? _).
  eapply behaves_to_then; [apply behaves_to_look, tends_to_ukernel; by apply create_stage_own| |done].
  intros [[file created]|error] h1 _ Hc; cbv beta in Hc; (specialize (Hc _ eq_refl)).
  2: { case_match; [apply passes_refuse|apply passes_broken]. }
  destruct (Hc _ _ eq_refl) as [Hh Hok]. apply passes_perform; [tend|]. intros [[]|error] h2 Hs2.
  - apply passes_perform; [tend|]. intros [] h3 Hs3.
    + apply passes_perform; [tend|]. intros _ h4 Hs4. apply passes_perform; [tend|]. intros. apply passes_none.
    + apply passes_done. cbn. split; [|done]. eapply holds_mono; [|exact Hh]. set_solver.
  - apply passes_perform; [tend|]. intros _ h3 Hs3. case_match; [|apply passes_broken].
    apply passes_any; [tend|]. intros. apply passes_none.
Qed.

Lemma resume_own h options path stage_path owner offset checkpoint :
  place fs stage_path = stage ->
  passes h (resume_stage sha256 to_string_lossy fs options path stage_path owner offset checkpoint : Handler Env _)
    (λ file h', holds h' file).
Proof.
  intros Hst. unfold resume_stage, sys_file_metadata, sys_seek, sys_set_len.
  eapply behaves_to_then; [apply behaves_to_call, open_resumable_own; exact Hst| |done].
  intros [file|] h1 _ Hf; cbv beta in Hf; [|apply passes_refuse]. specialize (Hf _ eq_refl).
  apply passes_perform; [tend|]. intros metadata h1' Hs1. apply (holds_mono _ _ _ Hs1) in Hf.
  apply passes_perform; [tend|]. intros _ h1'' Hs1'. apply (holds_mono _ _ _ Hs1') in Hf.
  apply passes_any; [tend|]. intros _ h2 Hs2. apply (holds_mono _ _ _ Hs2) in Hf.
  apply passes_any; [tend|]. intros _ h3 Hs3. apply (holds_mono _ _ _ Hs3) in Hf.
  apply passes_any; [tend|]. intros _ h4 Hs4. apply (holds_mono _ _ _ Hs4) in Hf.
  by apply passes_done.
Qed.

Lemma open_stage_owns h options path stage_path owner to checkpoint remaining :
  place fs stage_path = stage -> place fs path = target ->
  passes h (open_stage sha256 to_string_lossy room fs min_free_space cleanup options path stage_path owner to
              checkpoint remaining : Handler Env _) (λ x h', owns h' x.1).
Proof.
  intros Hst Htg. unfold open_stage. destruct (mode_offset (uo_mode options)) as [offset|].
  - destruct checkpoint as [record|]; [|apply passes_broken].
    eapply passes_proceed; [by apply resume_own|]. intros file h1 _ Hf. apply passes_done. by split.
  - eapply passes_proceed; [by apply create_fresh_own|]. intros [[file created] lease] h1 _ [Hf Hc]. cbn in Hf, Hc.
    set (u := transaction _ _ _ _ _ _ _ _ _ _). assert (owns h1 u) as Hu by by split.
    apply passes_any; [tend|]. intros _ h2 Hs. apply passes_done. by eapply owns_mono.
Qed.

Lemma reserve_owns h options u remaining reserved :
  owns h u ->
  passes h (reserve_for sha256 to_string_lossy room fs min_free_space cleanup options u remaining reserved : Handler Env _)
    (λ u h', owns h' u).
Proof.
  intros Hu. unfold reserve_for, reserve_space. apply passes_perform; [tend|]. intros [lease|] h1 Hs1.
  all: apply (owns_mono _ _ _ Hs1) in Hu.
  - assert (owns h1 (with_lease u lease)) as Hl by by destruct Hu.
    apply passes_perform; [tend|]. intros [] h2 Hs2; cbn [negb]; apply (owns_mono _ _ _ Hs2) in Hl.
    + apply passes_any; [tend|]. intros _ h3 Hs3. apply passes_any; [tend|]. intros _ h4 Hs4. apply passes_done.
      eapply owns_mono; [|exact Hl]. set_solver.
    + case_match; [apply passes_perform; [tend|]; intros; apply passes_none|].
      apply passes_any; [tend|]. intros _ h3 Hs3. apply (owns_mono _ _ _ Hs3) in Hl.
      apply passes_perform; [tend|]. intros. apply passes_none.
  - case_match; [apply passes_perform; [tend|]; intros; apply passes_none|].
    do 2 (apply passes_perform; [tend|]; intros ? ? ?). apply passes_none.
Qed.

Lemma prepare_owns h path options len :
  stage = match temp_path sha256 to_string_lossy path (uo_upload_id options) with Ok p => place fs p | Err _ => None end ->
  target = place fs path ->
  passes h (prepare_upload sha256 to_string_lossy room fs attributes_bytes min_free_space max_upload_size cleanup
              path options len : Handler Env _) (λ u h', owns h' u).
Proof.
  intros Hst Htg. unfold prepare_upload. apply passes_perform; [tend|]. intros _ h1 _.
  apply passes_any; [tend|]. intros _ h2 _. apply passes_pure. intros stage_path E. rewrite E in Hst. clear E.
  apply passes_perform; [tend|]. intros looked_up h3 _.
  do 7 (apply passes_any; [tend|]; intros ? ? _).
  eapply passes_proceed; [by apply open_stage_owns|]. intros [u reserved] h4 _ Hu. cbn in Hu.
  apply passes_any; [tend|]. intros _ h5 Hs5. apply (owns_mono _ _ _ Hs5) in Hu. by apply reserve_owns.
Qed.

Lemma handle_upload_own h path options len body :
  stage = match temp_path sha256 to_string_lossy path (uo_upload_id options) with Ok p => place fs p | Err _ => None end ->
  target = place fs path ->
  behaves h (handle_upload sha256 to_string_lossy room fs attributes_bytes min_free_space max_upload_size cleanup publish
               path options len body : Handler Env _).
Proof.
  intros Hst Htg res. unfold handle_upload. set (work := then_do _ _).
  assert (Hw : behaves h work).
  { eapply behaves_to_then; [by apply prepare_owns| |done]. intros [u|] h' _ Hu; [|apply behaves_pure].
    apply transfer_own. by apply Hu. }
  eapply spec_bind; [apply Hw|]. intros [r res'] l [Hl _]. destruct r as [[]|error].
  - apply spec_ret. by rewrite app_nil_r.
  - match goal with |- spec (?m res') _ => assert (Hm : behaves (h ++ kernel_calls l) m) by tend end.
    eapply spec_weaken; [apply Hm|]. intros x l' [Hl' _]. unfold kernel_calls in *. by rewrite omap_app, own_calls_app.
Qed.

End uploads.

End own.

Section own_work.
Context {Env : Type} `{Os Env} `{FileOs Env} `{UploadHost Env} `{UuidLib} `{HttpTypes}.
Context (sha256 : bytes -> bytes) (to_string_lossy : bytes -> bytes) (room : nat -> bool) (fs : RootedFs).
Context (attributes_bytes : Z -> option Z) (min_free_space max_upload_size : Z).
Context (cleanup : option IoError) (publish : result IoError unit).

(** The place of the stage: its path is the one derived from the target and the
    identifier of the upload. *)
Definition stage_place (path id : bytes) : option (list component) :=
  match temp_path sha256 to_string_lossy path id with Ok stage => place fs stage | Err _ => None end.

(** Nothing but the own stage of the upload is changed. *)
Definition own_work (path id : bytes) (l : list UploadEvent) : Prop :=
  own_calls fs (stage_place path id) (place fs path) [] (kernel_calls l).

Lemma handle_upload_own_work path options len body :
  hspec (handle_upload sha256 to_string_lossy room fs attributes_bytes min_free_space max_upload_size cleanup publish
           path options len body) (λ _, own_work path (uo_upload_id options)).
Proof.
  eapply hspec_weaken; [by apply (handle_upload_own fs (stage_place path (uo_upload_id options)) (place fs path))|].
  by intros r l [Hl _].
Qed.
End own_work.
