(* ===== verification/UploadPublication.v ===== *)
(** The publication of an upload: at most one rename that is not housekeeping,
    of a stage that has the declared length, is on the disk and is on record as
    being committed, over the target the client confirmed. *)

From S2P Require Import Prelude Bytes StdPath Utils StoreModel UuidText InternalNames Http DiskSpace Problem Revisions Listing PathKeys Registry RootedOs RootedFs RootedFsSafety StageFiles RootedPurge UploadHost UploadRecords UploadPipeline UploadPrepare UploadProtocol UploadSafety.
From stdpp Require Import base numbers list strings sets.

Local Open Scope Z_scope.

(** The store took the session. *)
Definition accepted (answer : StoreUploadSession) : bool :=
  match answer with UInserted | UUpdated | UUnchanged => true | UConflict | UFull => false end.

(** The contents of no file change. *)
Definition unwritten (e : UploadEvent) : Prop :=
  match e with UKernel (FileWrite _ _ _ | FileSetLen _ _ _) => False | _ => True end.

Definition space_check (e : UploadEvent) : Prop :=
  match e with CheckSpace _ _ _ _ => True | _ => False end.

(** The file was flushed to the disk. *)
Definition synced (file : Fd) (l : list UploadEvent) : Prop :=
  exists copy, UKernel (Dup file (Ok copy)) ∈ l /\ UKernel (Fsync copy (Ok tt)) ∈ l.

(** The file was seen to be a regular, singly linked file of at least [length]
    bytes with this identity. *)
Definition identified (file : Fd) (length : Z) (identity : StoredFileIdentity) (l : list UploadEvent) : Prop :=
  exists metadata, UKernel (FileMetadata file (Ok metadata)) ∈ l /\
    md_is_file metadata = true /\ md_nlink metadata = 1 /\ length <= md_len metadata /\
    identity = mkIdentity (md_dev metadata) (md_ino metadata).

(** The stage was synced and identified, its contents untouched in between, and
    then the session was recorded in this state. *)
Definition recorded (file : Fd) (record : UploadRecordContext) (offset : Z) (state : StoredUploadState)
    (l : list UploadEvent) : Prop :=
  exists middle session identity answer,
    l = middle ++ [SaveSession session (Ok answer)] /\
    Forall unwritten middle /\ synced file middle /\ identified file offset identity middle /\
    accepted answer = true /\
    us_key session = upload_session_key (rc_owner_id record) (rc_upload_id record) /\
    us_state session = state /\
    us_upload_length session = rc_upload_length record /\ us_durable_offset session = offset /\
    us_stage_identity session = Some identity /\
    (rc_target_revision_bound record = true -> us_target_revision session = rc_target_revision record).

(** Right before the publication: the stage has the declared length, its
    contents have not changed since, it has reached the disk, and then the
    session was recorded as being committed; only the free space is asked for
    after that. *)
Definition ready (u : UploadTransaction) (before : list UploadEvent) : Prop :=
  exists earlier metadata replay record checks,
    before = earlier ++ UKernel (FileMetadata (ut_file u) (Ok metadata)) :: replay ++ record ++ checks /\
    md_len metadata = ut_upload_length u /\ Forall unwritten replay /\
    recorded (ut_file u) (bound_record u) (ut_upload_length u) UCommitStarted record /\
    Forall space_check checks.

Definition staged_outcome (file : Fd) (outcome : ReplaceAndSyncOutcome) : CommitStagedFileOutcome :=
  match outcome with
  | Published => StagedPublished
  | RootedFs.Rejected => StagedRejected file
  | NotPublished error => StagedNotPublished error
  | PublishedDurabilityUnknown error => StagedDurabilityUnknown error
  end.

(** The calls of [commit_staged_file]: the stage is synced again and renamed by
    a checked publication over the expected target.  If the blocking pool lost
    the answer, the outcome is unknown. *)
Definition staged (file : Fd) (expected : ReplacementTargetIdentity) (publish : result IoError unit)
    (outcome : CommitStagedFileOutcome) (calls : list SysCall) : Prop :=
  (Forall reads calls /\ exists e, outcome = StagedNotPublished e) \/
  exists copy pinned rename result,
    calls = Dup file (Ok copy) :: Fsync copy (Ok tt) :: Dup file (Ok pinned) :: rename /\
    publication pinned expected result rename /\
    outcome = match publish with Ok _ => staged_outcome file result | Err e => StagedDurabilityUnknown e end.

Section publication.
Context {Env : Type} `{Os Env} `{FileOs Env} `{UploadHost Env} `{UuidLib} `{HttpTypes}.
Context (sha256 : bytes -> bytes) (to_string_lossy : bytes -> bytes) (room : nat -> bool) (fs : RootedFs).
Context (attributes_bytes : Z -> option Z) (min_free_space max_upload_size : Z).
Context (cleanup : option IoError) (publish : result IoError unit).

Lemma sync_file_spec file :
  spec (sync_file_to_storage file : Io Env unit) (λ r calls,
    Forall reads calls /\
    (r = Ok tt -> exists copy, calls = [Dup file (Ok copy); Fsync copy (Ok tt)])).
Proof.
  unfold sync_file_to_storage, sys_dup, sys_fsync. apply spec_attempt_call.
  - intros copy. apply spec_bind_call. intros r. apply spec_ret. split; [by repeat constructor|].
    destruct r as [[]|]; [eauto|done].
  - intros e. split; [by repeat constructor|done].
Qed.

Lemma commit_staged_spec file source destination expected :
  spec (commit_staged_file fs publish file source destination expected) (staged file expected publish).
Proof.
  unfold commit_staged_file. eapply spec_bind; [apply sync_file_spec|]. intros [[]|error] l [Hl Hok].
  2: { apply spec_ret. left. rewrite app_nil_r. eauto. }
  destruct (Hok eq_refl) as [copy ->]. unfold rename_replace_if_unchanged, sys_dup.
  apply spec_bind_assoc, spec_bind_call. intros [pinned|error].
  2: { apply spec_bind_ret, spec_ret. left. split; [by repeat constructor|eauto]. }
  apply spec_bind_assoc. eapply spec_bind; [apply (replace_and_sync_spec sha256)|]. intros outcome rename Hp.
  apply spec_bind_ret, spec_ret. right. exists copy, pinned, rename, outcome. rewrite !app_nil_r. split; [done|]. split; [done|].
  by destruct publish, outcome.
Qed.
(** *** Identifying the stage *)

Lemma reads_unwritten c : reads c -> unwritten (UKernel c).
Proof. by destruct c. Qed.
Lemma attributes_unwritten c : attributes c -> unwritten (UKernel c).
Proof. by destruct c. Qed.

Lemma uio_unwritten {A} (m : Io Env A) : emits reads m -> emits unwritten (uio m).
Proof.
  intros Hm. apply emits_bind; [|intros; apply emits_ret]. eapply spec_weaken; [apply spec_ukernel, Hm|].
  intros r l (calls & -> & Hc). induction Hc; constructor; [|done]. by apply reads_unwritten.
Qed.

(** One step of the kernel whose failure ends the program. *)
Lemma spec_then_uio {A B} (m : Io Env A) (k : A -> Upload Env B) P Q :
  spec m P ->
  (forall a calls, P (Ok a) calls -> spec (k a) (λ r l, Q r (map UKernel calls ++ l))) ->
  (forall e calls, P (Err e) calls -> Q (Err (UploadIo e)) (map UKernel calls)) ->
  spec (bind_ok (uio m) k) Q.
Proof.
  intros Hm Hk He. apply spec_bind_assoc. eapply spec_bind_ukernel; [exact Hm|].
  intros [a|e] calls Hc; apply spec_bind_ret; [by apply Hk|]. apply spec_ret. rewrite app_nil_r. by apply He.
Qed.

Lemma identify_unwritten file path offset : emits unwritten (sync_and_identify_stage fs file path offset).
Proof.
  unfold sync_and_identify_stage. repeat (emits_step || apply uio_unwritten); unfold sys_flush, sys_file_metadata; emits_auto.
  - eapply spec_weaken; [apply sync_file_spec|]. by intros ? ? [].
  - apply metadata_nofollow_reads.
Qed.

(** [sync_and_identify_stage] leaves the contents alone, and an identity is that
    of the synced file. *)
Lemma identify_spec file path offset :
  spec (sync_and_identify_stage fs file path offset) (λ r l,
    Forall unwritten l /\
    forall identity, r = Ok identity -> synced file l /\ identified file offset identity l).
Proof.
  apply spec_and; [apply identify_unwritten|].
  unfold sync_and_identify_stage.
  eapply (spec_then_uio _ _ (λ _ _, True)); [by apply spec_call| |done]. intros _ flushed _.
  eapply spec_then_uio; [apply sync_file_spec| |done]. intros [] sync [_ Hs].
  destruct (Hs eq_refl) as [copy ->]. clear Hs.
  eapply (spec_then_uio _ _ (λ r calls, calls = [FileMetadata file r])); [by apply spec_call| |done].
  intros metadata ? ->. repeat (apply spec_attempt_ret; [intros [] ?|done]).
  eapply (spec_then_uio _ _ (λ _ _, True)); [eapply spec_weaken; [apply metadata_nofollow_reads|done]| |done].
  intros path_metadata named _. apply spec_attempt_ret; [intros [] ?|done]. apply spec_ret.
  intros identity [= <-]. unfold up_ensure in *. repeat case_match; simplify_eq/=. split.
  - exists copy. set_solver.
  - exists metadata. split_and!; try done; [set_solver|lia..].
Qed.

Lemma persist_state_spec record offset state identity :
  spec (persist_state sha256 to_string_lossy fs record offset state identity : Upload Env unit) (λ r l,
    r = Ok tt -> exists loads session answer,
      l = loads ++ [SaveSession session (Ok answer)] /\ Forall unwritten loads /\ accepted answer = true /\
      us_key session = upload_session_key (rc_owner_id record) (rc_upload_id record) /\
      us_state session = state /\ us_upload_length session = rc_upload_length record /\
      us_durable_offset session = offset /\ (identity <> None -> us_stage_identity session = identity) /\
      (rc_target_revision_bound record = true -> us_target_revision session = rc_target_revision record)).
Proof.
  unfold persist_state. apply spec_attempt_ret; [intros [target stage] _|done].
  eapply (spec_bind_ok _ _ (λ _, Forall unwritten)); [| |done].
  { case_match; [|apply emits_ret]. unfold load_session. apply emits_bind; [by apply emits_call|]. intros. apply emits_ret. }
  intros existing loads Hl. unfold save_session. apply spec_bind_assoc, spec_bind_call. intros [answer|[]]; cbn.
  2,3: apply spec_bind_ret, spec_ret; by intros.
  apply spec_bind_ret, spec_ret. intros Ha. eexists loads, _, answer. split; [done|]. split; [done|].
  split; [by destruct answer|]. cbn. split_and!; try done; [by destruct identity|by intros ->].
Qed.

(** The three records that carry a stage. *)
Lemma persist_identified_spec file record offset state (sync : bool) :
  spec (attempt identity <- sync_and_identify_stage fs file (rc_stage_path record) offset;
        attempt _ <- (if sync then uio (sync_parent fs (rc_stage_path record)) else ok tt);
        persist_state sha256 to_string_lossy fs record offset state (Some identity))
    (λ r l, r = Ok tt -> recorded file record offset state l).
Proof.
  eapply spec_bind_ok; [apply identify_spec| |done]. intros identity l [Hl Hi].
  destruct (Hi _ eq_refl) as [Hs Hid]. eapply (spec_bind_ok _ _ (λ _, Forall unwritten)); [| |done].
  { destruct sync; [|apply emits_ret]. apply uio_unwritten. unfold sync_parent, sys_fsync.
    apply emits_bind_ok; [apply open_parent_reads|]. intros. emits_auto. }
  intros _ l' Hl'. eapply spec_weaken; [apply persist_state_spec|]. intros r l'' Hr E.
  destruct (Hr E) as (loads & session & answer & -> & Hu & ? & ? & ? & ? & ? & ? & ?).
  exists (l ++ l' ++ loads), session, identity, answer. rewrite <-!app_assoc. split; [done|]. split.
  { by rewrite !Forall_app. }
  split; [destruct Hs as (copy & ? & ?); exists copy; set_solver|].
  split; [destruct Hid as (m & ? & ?); exists m; set_solver|]. split_and!; eauto.
Qed.
Lemma commit_started_spec file record :
  spec (persist_commit_started sha256 to_string_lossy fs file record) (λ r l,
    r = Ok tt -> recorded file record (rc_upload_length record) UCommitStarted l).
Proof. exact (persist_identified_spec file record _ UCommitStarted false). Qed.

(** *** The commit *)

(** Events of a commit: all quiet, or the record, the checks and the rename. *)
Definition commits (u : UploadTransaction) (l : list UploadEvent) : Prop :=
  Forall quiet l \/
  exists replay record checks calls outcome after,
    l = (replay ++ record ++ checks) ++ map UKernel calls ++ after /\
    Forall quiet (replay ++ record ++ checks) /\ Forall unwritten replay /\
    recorded (ut_file u) (bound_record u) (ut_upload_length u) UCommitStarted record /\
    Forall space_check checks /\
    staged (ut_file u) (ut_target_identity u) publish outcome calls /\ Forall quiet after.

Lemma commits_after u l l' : Forall quiet l -> Forall unwritten l -> commits u l' -> commits u (l ++ l').
Proof.
  intros Hq Hu [Hl|(replay & record & checks & calls & outcome & after & -> & Hb & Hr & ?)].
  - left. by apply Forall_app.
  - right. exists (l ++ replay), record, checks, calls, outcome, after. rewrite <-!app_assoc.
    split; [done|]. rewrite !Forall_app in *. naive_solver.
Qed.

Lemma hushed_weaken {A} (m : Handler Env A) (Q : result UploadError A -> list UploadEvent -> Prop) :
  hushed m -> (forall r l, Forall quiet l -> Q r l) -> hspec m Q.
Proof. apply hspec_weaken. Qed.
Lemma hushed_commits {A} u (m : Handler Env A) : hushed m -> hspec m (λ _, commits u).
Proof. intros Hm. eapply hspec_weaken; [exact Hm|]. by left. Qed.

Lemma commit_ready_spec u :
  hspec (commit_ready_upload sha256 to_string_lossy room fs cleanup publish u) (λ _ l,
    exists calls outcome after, l = map UKernel calls ++ after /\
      staged (ut_file u) (ut_target_identity u) publish outcome calls /\ Forall quiet after).
Proof.
  unfold commit_ready_upload. eapply hspec_then_look; [apply spec_ukernel, commit_staged_spec|]. intros outcome l (calls & -> & Hs).
  apply hushed_weaken; [destruct outcome; eauto with emits|].
  intros r after Ha. by exists calls, outcome, after.
Qed.

Lemma space_checks u :
  spec (space_confirmed min_free_space u : Up Env bool) (λ _ l, Forall quiet l /\ Forall unwritten l /\ Forall space_check l).
Proof.
  unfold space_confirmed, check_space. apply spec_bind_call. intros r. apply spec_ret. by repeat constructor.
Qed.

(** From the record to the rename. *)
Lemma record_and_publish_spec u :
  hspec (record_and_publish sha256 to_string_lossy room fs min_free_space cleanup publish u) (λ _, commits u).
Proof.
  unfold record_and_publish.
  eapply hspec_then_look; [apply spec_and; [apply commit_started_spec|apply commit_started_quiet]|].
  intros [[]|e] record [Hr Hq]; cbv beta in *.
  2: { apply hushed_weaken; [apply roll_back_quiet|]. intros r l Hl. left. by apply Forall_app. }
  eapply hspec_then_look; [apply space_checks|]. intros enough checks (Hc & _ & Hs). destruct enough; cbn [negb].
  - eapply hspec_weaken; [apply commit_ready_spec|]. intros r l (calls & outcome & after & -> & Hst & Ha).
    right. exists [], record, checks, calls, outcome, after. rewrite <-!app_assoc. split; [done|].
    split_and!; try done; [cbn; by apply Forall_app|by apply Hr].
  - apply hushed_weaken; [apply roll_back_quiet|]. intros r l Hl. left. by rewrite !Forall_app.
Qed.

Lemma ukernel_unwritten {A} (m : Sys Env A) : emits attributes m -> emits unwritten (ukernel m).
Proof.
  intros Hm. eapply spec_weaken; [apply spec_ukernel, Hm|].
  intros r l (calls & -> & Hc). induction Hc; constructor; [|done]. by apply attributes_unwritten.
Qed.

(** A step before the record that neither publishes nor writes. *)
Lemma commits_look {A B} u (m : Up Env A) (k : A -> Handler Env B) :
  emits quiet m -> emits unwritten m -> (forall a, hspec (k a) (λ _, commits u)) ->
  hspec (then_do (look m) k) (λ _, commits u).
Proof.
  intros Hq Hu Hk. eapply hspec_then_look; [apply spec_and; [exact Hq|exact Hu]|]. intros a l [Hl Hl'].
  eapply hspec_weaken; [apply Hk|]. intros r l2 Hl2. by apply commits_after.
Qed.

Lemma commit_segment_spec u :
  hspec (commit_segment sha256 to_string_lossy room fs attributes_bytes min_free_space cleanup publish u)
    (λ _, commits u).
Proof.
  unfold commit_segment. set (rest := then_do (look (space_confirmed min_free_space u)) _).
  assert (Hrest : hspec rest (λ _, commits u)).
  { apply commits_look; [apply space_confirmed_quiet| |].
    - eapply spec_weaken; [apply space_checks|]. by intros ? ? (_ & ? & _).
    - intros []; cbn [negb]; [apply record_and_publish_spec|]. apply hushed_commits. hush. }
  clearbody rest. unfold replay_metadata. destruct (ut_target_metadata u) as [metadata|]; [|done].
  apply commits_look; [hush|apply ukernel_unwritten, apply_metadata_attributes|].
  intros [[]|error]; [done|]. apply hushed_commits. hush.
Qed.

Lemma before_deadline_commits u next :
  hspec next (λ _, commits u) ->
  hspec (before_deadline sha256 to_string_lossy room fs cleanup u next) (λ _, commits u).
Proof.
  intros Hn. unfold before_deadline. apply commits_look; [by apply emits_call..|].
  intros []; [|done]. apply hushed_commits. hush.
Qed.

(** *** The whole upload *)

(** Events of an upload: all quiet, or quiet up to one publication of a ready
    stage, and quiet after it. *)
Definition publishes (u : UploadTransaction) (l : list UploadEvent) : Prop :=
  Forall quiet l \/
  exists before calls outcome after,
    l = before ++ map UKernel calls ++ after /\ Forall quiet before /\ ready u before /\
    staged (ut_file u) (ut_target_identity u) publish outcome calls /\ Forall quiet after.

Lemma publishes_after u l l' : Forall quiet l -> publishes u l' -> publishes u (l ++ l').
Proof.
  intros Hq [Hl|(before & calls & outcome & after & -> & Hb & Hr & Hrest)].
  - left. by apply Forall_app.
  - right. exists (l ++ before), calls, outcome, after. split; [by rewrite app_assoc|].
    split; [by apply Forall_app|]. split; [|done].
    destruct Hr as (earlier & m & replay & record & checks & -> & Hm).
    exists (l ++ earlier), m, replay, record, checks. by rewrite <-app_assoc.
Qed.

Lemma publishes_before u l l' : publishes u l -> Forall quiet l' -> publishes u (l ++ l').
Proof.
  intros [Hl|(before & calls & outcome & after & -> & Hb & Hr & Hs & Ha)] Hq.
  - left. by apply Forall_app.
  - right. exists before, calls, outcome, (after ++ l'). split; [by rewrite <-!app_assoc|].
    split_and!; try done. by apply Forall_app.
Qed.

Lemma commits_publishes u metadata l :
  md_len metadata = ut_upload_length u -> commits u l ->
  publishes u (UKernel (FileMetadata (ut_file u) (Ok metadata)) :: l).
Proof.
  intros Hlen [Hl|(replay & record & checks & calls & outcome & after & -> & Hb & Hu & Hr & Hc & Hs & Ha)].
  - left. by constructor.
  - right. exists (UKernel (FileMetadata (ut_file u) (Ok metadata)) :: replay ++ record ++ checks), calls, outcome, after.
    split_and!; try done; [by constructor|]. by exists [], metadata, replay, record, checks.
Qed.

Lemma hushed_publishes {A} u (m : Handler Env A) : hushed m -> hspec m (λ _, publishes u).
Proof. intros Hm. apply hushed_weaken; [done|]. by left. Qed.

Lemma publishes_look {A B} u (m : Up Env A) (k : A -> Handler Env B) :
  emits quiet m -> (forall a, hspec (k a) (λ _, publishes u)) -> hspec (then_do (look m) k) (λ _, publishes u).
Proof.
  intros Hq Hk. eapply hspec_then_look; [exact Hq|]. intros a l Hl.
  eapply hspec_weaken; [apply Hk|]. intros r l2 Hl2. by apply publishes_after.
Qed.

Lemma prepare_transferred_spec u :
  hspec (prepare_transferred_upload sha256 to_string_lossy room fs attributes_bytes min_free_space cleanup publish u)
    (λ _, publishes u).
Proof.
  unfold prepare_transferred_upload. apply publishes_look; [unfold sys_flush; hush|].
  intros [[]|error]; [|apply hushed_publishes; hush].
  apply publishes_look; [apply space_confirmed_quiet|].
  intros []; cbn [negb]; [|apply hushed_publishes; hush].
  unfold before_deadline at 1. apply publishes_look; [by apply emits_call|].
  intros []; [apply hushed_publishes; hush|].
  eapply hspec_then_look; [apply spec_ukernel, (spec_call _ _ (λ r calls, calls = [FileMetadata (ut_file u) r])); done|].
  intros [metadata|error] l (calls & -> & ->).
  2: { apply hushed_weaken; [apply unless_awaiting_quiet; hush|]. intros r l Hl. left. by constructor. }
  destruct (md_len metadata =? ut_upload_length u) eqn:Hlen; cbn [negb].
  - eapply hspec_weaken; [apply before_deadline_commits, before_deadline_commits, commit_segment_spec|].
    intros r l Hl. apply commits_publishes; [lia|done].
  - apply hushed_weaken; [unfold before_deadline, expired; hush|]. intros r l Hl. left. by constructor.
Qed.

Lemma transfer_spec u body :
  hspec (transfer_upload_body sha256 to_string_lossy room fs attributes_bytes min_free_space cleanup publish u body)
    (λ _, publishes u).
Proof.
  unfold transfer_upload_body. case_match; [apply hushed_publishes; hush|].
  apply publishes_look; [apply receive_quiet|]. intros [lease|error].
  - exact (prepare_transferred_spec (with_lease u lease)).
  - apply hushed_publishes. hush.
Qed.

(** *** What preparation hands on *)

(** If the handler goes on, then with a value that satisfies [P]. *)
Definition returns {A} (P : A -> Prop) (m : Handler Env (option A)) : Prop :=
  hspec m (λ r _, forall a, r = Ok (Some a) -> P a).

Lemma returns_proceed {A B} (m : Handler Env (option A)) (k : A -> Handler Env (option B)) P Q :
  returns P m -> (forall a, P a -> returns Q (k a)) -> returns Q (proceed x <- m; k x).
Proof.
  intros Hm Hk. eapply hspec_then; [exact Hm| |done]. intros [a|] l Ha; [by apply Hk, Ha|]. by apply hspec_done.
Qed.
Lemma returns_perform {A B} (m : Handler Env A) (k : A -> Handler Env (option B)) Q :
  hushed m -> (forall a, returns Q (k a)) -> returns Q (then_do m k).
Proof. intros Hm Hk. eapply hspec_then; [exact Hm| |done]. intros a l _. apply Hk. Qed.
Lemma returns_pure {A B} (r : result UploadError A) (k : A -> Handler Env (option B)) Q :
  (forall a, r = Ok a -> returns Q (k a)) -> returns Q (then_do (pure r) k).
Proof.
  intros Hk. eapply hspec_then; [by apply (hspec_pure r (λ x _, x = r))| |done]. intros a l Ha. by apply Hk.
Qed.
Lemma returns_done {A} (P : A -> Prop) (a : A) : P a -> returns P (done (Some a)).
Proof. intros Ha. apply hspec_done. by intros ? [= <-]. Qed.
Lemma returns_none {A} (P : A -> Prop) : returns P (done None).
Proof. by apply hspec_done. Qed.
Lemma returns_broken {A} (P : A -> Prop) e : returns P (broken e).
Proof. by apply hspec_broken. Qed.
Lemma returns_any {A} (m : Handler Env (option A)) : hushed m -> returns (λ _, True) m.
Proof. intros Hm. by apply hushed_weaken. Qed.
(** The target is the one the client confirmed: none, or one with the revision
    the client was shown. *)
Definition confirmed_target (options : UploadOptions) (path : bytes) (identity : ReplacementTargetIdentity) : Prop :=
  match uo_overwrite options with
  | NoReplace => identity = Missing
  | IfUnchanged expected =>
      exists relative, relative_path fs path = Ok relative /\
        target_revision sha256 (owner_persistent sha256 (uo_owner options)) relative identity = Some expected
  end.

Record confirmed (options : UploadOptions) (path : bytes) (u : UploadTransaction) : Prop := {
  confirmed_path : ut_target_path u = path;
  confirmed_stage : temp_path sha256 to_string_lossy path (uo_upload_id options) = Ok (ut_upload_path u);
  confirmed_owner : ut_owner_id u = owner_persistent sha256 (uo_owner options);
  confirmed_id : ut_upload_id u = uo_upload_id options;
  confirmed_length : ut_upload_length u = uo_upload_length options;
  confirmed_revision : ut_target_revision u = policy_revision (uo_overwrite options);
  confirmed_identity : confirmed_target options path (ut_target_identity u)
}.

Ltac go_on :=
  repeat match goal with
  | |- returns _ (done None) => apply returns_none
  | |- returns _ (done (Some _)) => apply returns_done
  | |- returns _ (broken _) => apply returns_broken
  | |- returns _ (then_do (pure _) _) => apply returns_pure; intros
  | |- returns _ (then_do _ _) => apply returns_perform; [solve [hush]|]; intros
  | |- returns _ (match ?x with _ => _ end) => destruct x eqn:?
  end.

Lemma check_target_returns options path record :
  returns (λ t, confirmed_target options path t.1)
    (check_target sha256 fs attributes_bytes options path (owner_persistent sha256 (uo_owner options)) record).
Proof.
  unfold check_target, refuse, confirmed_target. apply returns_perform; [hush|]. intros inspected.
  apply returns_pure. intros relative Hr. destruct (uo_overwrite options) as [|expected]; go_on; try done.
  exists relative. split; [by destruct (relative_path fs path); simplify_eq/=|].
  by match goal with E : negb (bool_decide _) = false |- _ => apply negb_false_iff, bool_decide_eq_true in E end.
Qed.

Lemma open_stage_returns options path stage target checkpoint remaining :
  temp_path sha256 to_string_lossy path (uo_upload_id options) = Ok stage ->
  confirmed_target options path target.1 ->
  returns (λ x, confirmed options path x.1)
    (open_stage sha256 to_string_lossy room fs min_free_space cleanup options path stage
       (owner_persistent sha256 (uo_owner options)) target checkpoint remaining).
Proof.
  intros Hs Ht. unfold open_stage. destruct (mode_offset (uo_mode options)) as [offset|].
  - destruct checkpoint as [record|]; [|apply returns_broken].
    eapply returns_proceed; [apply returns_any; hush|]. intros file _. by apply returns_done.
  - eapply returns_proceed; [apply returns_any; hush|]. intros [[file created] lease] _.
    eapply returns_proceed; [apply returns_any; hush|]. intros _ _. by apply returns_done.
Qed.

Lemma reserve_returns options path u remaining reserved :
  confirmed options path u ->
  returns (confirmed options path)
    (reserve_for sha256 to_string_lossy room fs min_free_space cleanup options u remaining reserved).
Proof.
  intros Hu. unfold reserve_for. apply returns_perform; [unfold reserve_space; hush|]. intros [lease|]; [|go_on].
  apply returns_perform; [hush|]. intros []; cbn [negb].
  - do 2 (eapply returns_proceed; [apply returns_any; hush|]; intros _ _). apply returns_done. by destruct Hu.
  - destruct (ut_awaiting _); [go_on|]. eapply returns_proceed; [apply returns_any; hush|]. intros. go_on.
Qed.

Lemma prepare_returns path options len :
  returns (confirmed options path)
    (prepare_upload sha256 to_string_lossy room fs attributes_bytes min_free_space max_upload_size cleanup
       path options len).
Proof.
  unfold prepare_upload. apply returns_perform; [hush|]. intros _.
  eapply returns_proceed; [apply returns_any; hush|]. intros _ _. apply returns_pure. intros stage Hs.
  apply returns_perform; [hush|]. intros looked_up.
  do 3 (eapply returns_proceed; [apply returns_any; hush|]; intros ? _).
  eapply returns_proceed; [apply check_target_returns|]. intros target Ht. cbv beta in Ht.
  do 3 (eapply returns_proceed; [apply returns_any; hush|]; intros ? _).
  eapply returns_proceed; [by apply open_stage_returns|]. intros [u reserved] Hu. cbn in Hu.
  eapply returns_proceed; [apply returns_any; hush|]. intros _ _. by apply reserve_returns.
Qed.

Lemma handle_upload_publishes path options len body :
  hspec (handle_upload sha256 to_string_lossy room fs attributes_bytes min_free_space max_upload_size cleanup publish
           path options len body)
    (λ _ l, Forall quiet l \/ exists u, confirmed options path u /\ publishes u l).
Proof.
  intros res. unfold handle_upload. eapply spec_bind.
  - eapply (hspec_then _ _ (λ r l, Forall quiet l /\ forall u, r = Ok (Some u) -> confirmed options path u)
             (λ _ l, Forall quiet l \/ exists u, confirmed options path u /\ publishes u l)).
    + apply hspec_and; [apply prepare_quiet|apply prepare_returns].
    + intros [u|] l [Hl Hu].
      * eapply hspec_weaken; [apply transfer_spec|]. intros r l' Hl'. right. exists u.
        split; [by apply Hu|]. by apply publishes_after.
      * apply hspec_done. left. by rewrite app_nil_r.
    + intros e l [Hl _]. by left.
  - intros [[[]|error] res'] l Hl; cbn in Hl; [apply spec_ret; by rewrite app_nil_r|].
    match goal with |- spec (?m res') _ => assert (Hm : hushed m) by hush end.
    eapply spec_weaken; [apply Hm|]. intros x l' Hl'. destruct Hl as [Hl|(u & Hu & Hp)].
    + left. by apply Forall_app.
    + right. exists u. split; [done|]. by apply publishes_before.
Qed.

(** C9: Whatever the kernel, the session store, the clock and the client do, an
    upload works on its own stage only: the file at the place that the target and
    the identifier of the upload determine.  It creates, writes, cuts and gives
    attributes to no other file; it makes and removes directories only on the way
    to that place; it unlinks only that file, there or where it set it aside under
    a quarantine name; and a rename moves only that file, aside or to the place of
    the target.  At most one rename goes to the target.  It publishes a stage that
    was seen to have the declared length and was not written to since, that was
    synced, identified and recorded as being committed before; it goes over the
    target the client confirmed - none for a create-only upload, else the one whose
    revision the client named - and is checked again by the publication. *)
Theorem upload_publishes_confirmed path options len body :
  hspec (handle_upload sha256 to_string_lossy room fs attributes_bytes min_free_space max_upload_size cleanup publish
           path options len body)
    (λ _ l, own_work sha256 to_string_lossy fs path (uo_upload_id options) l /\
      (Forall quiet l \/ exists u, confirmed options path u /\ publishes u l)).
Proof. apply hspec_and; [apply handle_upload_own_work|apply handle_upload_publishes]. Qed.
End publication.
