(* ===== verification/UploadAnswers.v ===== *)
(** What an upload tells its client: whatever happens, the state in the answer
    is backed by what the server saw and did. *)

From S2P Require Import Prelude Bytes StdPath Utils StoreModel UuidText InternalNames Http DiskSpace Problem Revisions Listing PathKeys Registry RootedOs RootedFs RootedFsSafety StageFiles RootedPurge UploadHost UploadRecords UploadPipeline UploadPrepare UploadProtocol UploadSafety UploadPublication.
From stdpp Require Import base numbers list strings sets.

Local Open Scope Z_scope.

#[export] Instance UploadPublicState_eq_dec : EqDecision UploadPublicState.
Proof. solve_decision. Defined.

(** ** The log behind an answer *)

(** Nothing is changed: no file, no directory, no session. *)
Definition calm (e : UploadEvent) : Prop :=
  match e with
  | UKernel c => reads c
  | SaveSession _ _ | RejectSession _ _ _ _ | RemoveSession _ _ => False
  | _ => True
  end.

(** The tree outside the server's own entries stays as it is: apart from
    housekeeping there are only renames that failed. *)
Definition untouched `{UuidLib} (e : UploadEvent) : Prop :=
  match e with
  | UKernel (Renameat _ _ _ _ _ (Err _)) => True
  | _ => quiet e
  end.

(** The session was loaded in this state, or saved after its stage had reached
    the disk. *)
Definition loaded (key : UploadSessionKey) (session : StoredUploadSession) (h : list UploadEvent) : Prop :=
  LoadSession key (Ok (Some session)) ∈ h.
Definition saved (key : UploadSessionKey) (session : StoredUploadSession) (h : list UploadEvent) : Prop :=
  us_key session = key /\
  exists before answer after, h = before ++ SaveSession session (Ok answer) :: after /\
    accepted answer = true /\ exists file, synced file before.
Definition seen (key : UploadSessionKey) (session : StoredUploadSession) (h : list UploadEvent) : Prop :=
  loaded key session h \/ saved key session h.

(** The boundary of the mutation is crossed once and for all. *)
Definition one_way (h : list UploadEvent) : Prop :=
  forall before after, h = before ++ BeginMutation true :: after ->
    (BeginMutation false ∉ after) /\ (MutationBegun false ∉ after).

(** This upload renamed its stage over the target, and the rename succeeded and
    is durable; then the store took its final record. *)
Definition published `{UuidLib} (key : UploadSessionKey) (offset : option Z) (h : list UploadEvent) : Prop :=
  exists before file expected calls after session answer later,
    h = before ++ map UKernel calls ++ after ++ SaveSession session (Ok answer) :: later /\
    staged file expected (Ok tt) StagedPublished calls /\ Forall quiet after /\
    accepted answer = true /\ us_key session = key /\ us_state session = UCommitted /\
    offset = Some (us_durable_offset session).

(** What has to be in the log for an answer with this state and offset.  The
    stage that awaits confirmation is complete, so either field of its session
    may be reported. *)
Definition justified `{UuidLib} (key : UploadSessionKey) (state : UploadPublicState) (offset : option Z)
    (h : list UploadEvent) : Prop :=
  match state with
  | NotStarted => Forall untouched h /\ (one_way h -> Forall calm h)
  | NotSeen | Rejected => Forall untouched h
  | Running =>
      Forall untouched h /\
      exists session, seen key session h /\ us_state session = URunning /\ offset = Some (us_durable_offset session)
  | AwaitingConfirmation =>
      Forall untouched h /\
      exists session, seen key session h /\ us_state session = UAwaitingConfirmation /\
        (offset = Some (us_durable_offset session) \/ offset = Some (us_upload_length session))
  | Committed =>
      (exists session, loaded key session h /\ us_state session = UCommitted /\
         offset = Some (us_durable_offset session)) \/
      published key offset h
  | Unknown => True
  end.

(** The deadline had passed, and later it had not. *)
Definition clock_went_back (h : list UploadEvent) : Prop :=
  exists before e between after, h = before ++ e :: between ++ Expired false :: after /\
    (e = Expired true \/ exists path error, e = TrackFiles path (Err error) /\ io_kind error = TimedOut).

Section told.
Context `{HttpTypes} `{UuidLib} (id : bytes) (key : UploadSessionKey).

(** The response carries a state and an offset that the log justifies. *)
Definition told (res : Response) (h : list UploadEvent) : Prop :=
  clock_went_back h \/
  exists earlier length offset state headers,
    apply_upload_record_headers (res_headers earlier) id length offset state = Ok headers /\
    res = with_headers earlier headers /\ justified key state offset h.
End told.

Section rules.
Context {Env : Type} `{HttpTypes}.

(** Run with response [res] after [h], the handler ends with a response and a
    log that satisfy [K], unless it fails. *)
Definition runs {A} (res : Response) (h : list UploadEvent) (m : Handler Env A)
    (K : A -> Response -> list UploadEvent -> Prop) : Prop :=
  spec (m res) (λ x l, forall a, x.1 = Ok a -> K a x.2 (h ++ l)).

Lemma runs_weaken {A} res h (m : Handler Env A) (P K : A -> Response -> list UploadEvent -> Prop) :
  runs res h m P -> (forall a res h, P a res h -> K a res h) -> runs res h m K.
Proof. intros Hm HPK. eapply spec_weaken; [exact Hm|]. eauto. Qed.

Lemma runs_then {A B} res h (m : Handler Env A) (k : A -> Handler Env B) P K :
  runs res h m P -> (forall a res' h', P a res' h' -> runs res' h' (k a) K) -> runs res h (then_do m k) K.
Proof.
  intros Hm Hk. eapply spec_bind; [exact Hm|]. intros [[a|e] res'] l Hl.
  - eapply spec_weaken; [apply (Hk a res' (h ++ l)), Hl; done|]. intros x l' Hx b Hb. rewrite app_assoc. by apply Hx.
  - by apply spec_ret.
Qed.

Lemma runs_look {A B} res h (m : Up Env A) (k : A -> Handler Env B) S K :
  spec m S -> (forall a l, S a l -> runs res (h ++ l) (k a) K) -> runs res h (then_do (look m) k) K.
Proof.
  intros Hm Hk. apply spec_bind_assoc. eapply spec_bind; [exact Hm|]. intros a l Hl. apply spec_bind_ret.
  eapply spec_weaken; [apply Hk, Hl|]. intros x l' Hx b Hb. rewrite app_assoc. by apply Hx.
Qed.

Lemma runs_call {A B} res h (m : Upload Env A) (k : A -> Handler Env B) S K :
  spec m S -> (forall a l, S (Ok a) l -> runs res (h ++ l) (k a) K) -> runs res h (then_do (call m) k) K.
Proof.
  intros Hm Hk. apply spec_bind_assoc. eapply spec_bind; [exact Hm|]. intros [a|e] l Hl; apply spec_bind_ret.
  - eapply spec_weaken; [apply Hk, Hl|]. intros x l' Hx b Hb. rewrite app_assoc. by apply Hx.
  - by apply spec_ret.
Qed.

Lemma runs_pure {A B} res h (r : result UploadError A) (k : A -> Handler Env B) K :
  (forall a, r = Ok a -> runs res h (k a) K) -> runs res h (then_do (pure r) k) K.
Proof.
  intros Hk. apply spec_bind_ret. destruct r as [a|e]; [by apply Hk|]. by apply spec_ret.
Qed.

Lemma runs_finished {A} res h (a : A) (K : A -> Response -> list UploadEvent -> Prop) :
  K a res h -> runs res h (done a) K.
Proof. intros HK. apply spec_ret. intros b [= <-]. by rewrite app_nil_r. Qed.

Lemma runs_broken {A} res h e (K : A -> Response -> list UploadEvent -> Prop) : runs res h (broken e) K.
Proof. by apply spec_ret. Qed.

Lemma runs_respond res h f (K : unit -> Response -> list UploadEvent -> Prop) :
  (forall res', f res = Ok res' -> K tt res' h) -> runs res h (respond f) K.
Proof.
  intros HK. apply spec_ret. intros [] E. destruct (f res) as [res'|]; [|done]. rewrite app_nil_r. by apply HK.
Qed.
End rules.

(** ** Extending the log *)

Section extend.
Context `{UuidLib} (key : UploadSessionKey).

Lemma reads_quiet c : reads c -> quiet (UKernel c).
Proof. apply reads_housekeeping. Qed.
Lemma calm_quiet e : calm e -> quiet e.
Proof. destruct e; try done. apply reads_quiet. Qed.
Lemma quiet_untouched e : quiet e -> untouched e.
Proof. destruct e as [[]| | | | | | | | | | | |]; try done. cbn. intros. by case_match. Qed.
Lemma calm_untouched e : calm e -> untouched e.
Proof. intros. by apply quiet_untouched, calm_quiet. Qed.

Lemma calm_all_quiet l : Forall calm l -> Forall quiet l.
Proof. intros Hl. apply (Forall_impl _ _ _ Hl), calm_quiet. Qed.
Lemma quiet_all_untouched l : Forall quiet l -> Forall untouched l.
Proof. intros Hl. apply (Forall_impl _ _ _ Hl), quiet_untouched. Qed.
Lemma calm_all_untouched l : Forall calm l -> Forall untouched l.
Proof. intros Hl. by apply quiet_all_untouched, calm_all_quiet. Qed.

Lemma loaded_app session h l : loaded key session h -> loaded key session (h ++ l).
Proof. unfold loaded. set_solver. Qed.
Lemma seen_app session h l : seen key session h -> seen key session (h ++ l).
Proof.
  intros [Hl|(Hk & before & answer & after & -> & Ha & Hs)]; [left; by apply loaded_app|right].
  split; [done|]. exists before, answer, (after ++ l). by rewrite <-app_assoc.
Qed.
Lemma published_app offset h l : published key offset h -> published key offset (h ++ l).
Proof.
  intros (before & file & expected & calls & after & session & answer & later & -> & Hrest).
  exists before, file, expected, calls, after, session, answer, (later ++ l). by rewrite <-!app_assoc.
Qed.
Lemma one_way_app h l : one_way (h ++ l) -> one_way h.
Proof.
  intros Hw before after ->. destruct (Hw before (after ++ l)) as [H1 H2]; [by rewrite <-app_assoc|]. set_solver.
Qed.

(** An answer that does not claim that nothing was done stays justified. *)
Lemma justified_quiet state offset h l :
  state <> NotStarted -> justified key state offset h -> Forall quiet l -> justified key state offset (h ++ l).
Proof.
  intros Hn Hj Hl%quiet_all_untouched. destruct state; cbn in *; try done; rewrite ?Forall_app; try done.
  - destruct Hj as (? & s & ? & ?). split; [done|]. exists s. split; [by apply seen_app|done].
  - destruct Hj as (? & s & ? & ?). split; [done|]. exists s. split; [by apply seen_app|done].
  - destruct Hj as [(s & ? & ?)|Hj]; [left; exists s; split; [by apply loaded_app|done]|right; by apply published_app].
Qed.
Lemma justified_calm state offset h l :
  justified key state offset h -> Forall calm l -> justified key state offset (h ++ l).
Proof.
  intros Hj Hl. destruct (decide (state = NotStarted)) as [->|Hn].
  - destruct Hj as [Hu Hw]. split; rewrite Forall_app; [split; [done|by apply calm_all_untouched]|].
    intros Hw'. split; [by apply Hw, (one_way_app _ l)|done].
  - apply justified_quiet; [done..|by apply calm_all_quiet].
Qed.

(** What was not begun is still untouched. *)
Definition begun_or_calm (h : list UploadEvent) : Prop := Forall calm h \/ BeginMutation true ∈ h.

Lemma not_begun_calm h e l :
  begun_or_calm h -> e = BeginMutation false \/ e = MutationBegun false -> one_way (h ++ e :: l) -> Forall calm h.
Proof.
  intros [Hc|(before & after & ->)%list_elem_of_split] He Hw; [done|].
  destruct (Hw before (after ++ e :: l)) as [H1 H2]; [by rewrite <-app_assoc|]. set_solver.
Qed.
Lemma begun_or_calm_app h l : begun_or_calm h -> Forall calm l -> begun_or_calm (h ++ l).
Proof. intros [Hh|Hh] Hl; [left; by apply Forall_app|right; set_solver]. Qed.
End extend.

(** ** Steps that only look *)

Section calm.
Context {Env : Type} `{Os Env} `{FileOs Env} `{UploadHost Env} `{UuidLib} `{HttpTypes}.
Context (sha256 : bytes -> bytes) (to_string_lossy : bytes -> bytes) (fs : RootedFs).
Context (attributes_bytes : Z -> option Z).

Lemma ukernel_calm {A} (m : Sys Env A) : emits reads m -> emits calm (ukernel m).
Proof.
  intros Hm. eapply spec_weaken; [apply spec_ukernel, Hm|]. intros a l (calls & -> & Hc). by induction Hc; constructor.
Qed.
Lemma uio_calm {A} (m : Io Env A) : emits reads m -> emits calm (uio m).
Proof. intros Hm. apply emits_bind; [by apply ukernel_calm|]. intros. apply emits_ret. Qed.

Lemma load_calm key : emits calm (load_session key : Upload Env _).
Proof. unfold load_session. apply emits_bind; [by apply emits_call|]. intros. apply emits_ret. Qed.
Lemma valid_stage_calm path offset identity : emits calm (valid_resumable_stage fs path offset identity).
Proof.
  unfold valid_resumable_stage.
  repeat (emits_step || apply ukernel_calm || apply uio_calm || by apply open_existing_reads || by apply emits_call).
Qed.
Lemma open_resumable_calm record offset state :
  emits calm (open_resumable_stage sha256 to_string_lossy fs record offset state).
Proof.
  unfold open_resumable_stage.
  repeat (emits_step || apply load_calm || apply ukernel_calm || apply uio_calm || by apply open_existing_reads
          || by apply emits_call).
Qed.

Lemma classify_calm id expected target session :
  emits calm (classify_stored_session sha256 to_string_lossy fs id expected target session).
Proof. unfold classify_stored_session. repeat (emits_step || apply valid_stage_calm). Qed.
Lemma classify_found id expected target session :
  spec (classify_stored_session sha256 to_string_lossy fs id expected target session)
    (λ r _, forall c, r = Ok (LookupFound c) -> c = upload_checkpoint session).
Proof.
  unfold classify_stored_session. repeat (apply spec_attempt_ret; [intros ? _|done]). case_match; [by apply spec_ret|].
  eapply (spec_bind_ok _ _ (λ _, Forall calm)); [|intros [] l _; apply spec_ret; by intros ? [=]|done].
  case_match; [|apply emits_ret]. apply emits_bind_ok; [apply valid_stage_calm|]. intros. apply emits_ret.
Qed.

(** A record that is found was loaded. *)
Lemma lookup_spec owner id target stage :
  spec (UploadRecords.lookup sha256 to_string_lossy fs owner id target stage) (λ r l,
    Forall calm l /\
    forall checkpoint, r = Ok (LookupFound checkpoint) ->
      exists session, loaded (upload_session_key owner id) session l /\ checkpoint = upload_checkpoint session).
Proof.
  unfold UploadRecords.lookup. apply spec_attempt_ret; [intros [relative stage_relative] _|by repeat constructor].
  unfold load_session. apply spec_bind_assoc, spec_bind_call. intros [[session|]|[]]; apply spec_bind_ret; cbn [store_fault].
  2-4: apply spec_ret; split; [by repeat constructor|done].
  eapply spec_weaken; [apply spec_and; [apply classify_calm|apply classify_found]|].
  intros r l [Hl Hc]. split; [by constructor|]. intros checkpoint E. exists session. split; [|by apply Hc].
  unfold loaded. set_solver.
Qed.
End calm.

(** ** Answers of the preparation *)

Section answers.
Context {Env : Type} `{Os Env} `{FileOs Env} `{UploadHost Env} `{UuidLib} `{HttpTypes}.
Context (sha256 : bytes -> bytes) (to_string_lossy : bytes -> bytes) (room : nat -> bool) (fs : RootedFs).
Context (attributes_bytes : Z -> option Z) (min_free_space max_upload_size : Z).
Context (cleanup : option IoError) (publish : result IoError unit).
Context (id : bytes) (key : UploadSessionKey).

Local Abbreviation told := (told id key).
Local Abbreviation justified := (justified key).

(** The request was answered, or goes on with [P]. *)
Definition goes {A} (P : A -> list UploadEvent -> Prop) (o : option A) (res : Response) (h : list UploadEvent) : Prop :=
  match o with None => told res h | Some a => P a h end.

Lemma runs_proceed {A B} res h (m : Handler Env (option A)) (k : A -> Handler Env (option B)) P Q :
  runs res h m (goes P) -> (forall a res' h', P a h' -> runs res' h' (k a) (goes Q)) ->
  runs res h (proceed x <- m; k x) (goes Q).
Proof.
  intros Hm Hk. eapply runs_then; [exact Hm|]. intros [a|] res' h' Ha; [by apply Hk|]. by apply runs_finished.
Qed.

Lemma runs_refused {A} (P : A -> list UploadEvent -> Prop) res h (m : Handler Env unit) :
  runs res h m (λ _, told) -> runs res h (perform _ <- m; done None) (goes P).
Proof. intros Hm. eapply runs_then; [exact Hm|]. intros [] ? ? Ht. by apply runs_finished. Qed.

Lemma problem_told res h context status code detail recovery :
  ec_upload_id context = id -> justified (ec_state context) (ec_upload_offset context) h ->
  runs (Env := Env) res h (problem context status code detail recovery) (λ _, told).
Proof.
  intros <- Hj. apply runs_respond. intros res'. unfold apply_upload_problem.
  intros (rendered & _ & (headers & Hh & [= <-])%bind_Ok)%bind_Ok. right.
  destruct (apply_upload_record_headers _ _ _ _ _) eqn:E in Hh; [|done]. injection Hh as ->. by repeat eexists.
Qed.

Lemma set_record_told (edit : Response -> Response) res h upload_id length offset state :
  upload_id = id -> justified state offset h ->
  runs (Env := Env) res h (respond (λ res,
    headers ← try (apply_upload_record_headers (res_headers (edit res)) upload_id length offset state);
    Ok (with_headers (edit res) headers))) (λ _, told).
Proof.
  intros -> Hj. apply runs_respond. intros res' (headers & Hh & [= <-])%bind_Ok. right.
  destruct (apply_upload_record_headers _ _ _ _ _) eqn:E in Hh; [|done]. injection Hh as ->. by repeat eexists.
Qed.

Lemma refuse_told {A} (P : A -> list UploadEvent -> Prop) res h context status code detail recovery :
  ec_upload_id context = id -> justified (ec_state context) (ec_upload_offset context) h ->
  runs (Env := Env) res h (refuse context status code detail recovery) (goes P).
Proof.
  intros Hi Hj. apply runs_refused. by apply problem_told.
Qed.

(** Refused before anything was done. *)
Lemma not_started {A} (P : A -> list UploadEvent -> Prop) options offset message res h :
  uo_upload_id options = id -> justified NotStarted None h ->
  runs (Env := Env) res h (timed_out_before_mutation options offset message) (goes P).
Proof. intros Hi Hj. by apply refuse_told. Qed.

Lemma calm_not_started h : Forall calm h -> justified NotStarted None h.
Proof. intros Hh. split; [by apply calm_all_untouched|done]. Qed.

Lemma deadline_before_runs res h options message :
  uo_upload_id options = id -> justified NotStarted None h ->
  runs (Env := Env) res h (upload_deadline_expired_before_mutation options message)
    (goes (λ _ h', h' = h ++ [Expired false])).
Proof.
  intros Hi Hj. eapply (runs_look _ _ _ _ (λ b l, l = [Expired b])); [by apply spec_call|].
  intros [] l ->; [|by apply runs_finished]. apply not_started; [done|]. apply justified_calm; [done|by repeat constructor].
Qed.

Lemma begin_runs res h options message :
  uo_upload_id options = id -> begun_or_calm h -> Forall untouched h ->
  runs (Env := Env) res h (begin_upload_mutation_or_reject options message)
    (goes (λ _ h', h' = h ++ [BeginMutation true])).
Proof.
  intros Hi Hb Hu. eapply (runs_look _ _ _ _ (λ b l, l = [BeginMutation b])); [by apply spec_call|].
  intros [] l ->; [by apply runs_finished|]. apply not_started; [done|]. split.
  - apply Forall_app. split; [done|by repeat constructor].
  - intros Hw. apply Forall_app. split; [|by repeat constructor].
    eapply not_begun_calm; [done|by left|exact Hw].
Qed.

Lemma conflict_runs res h path owner context :
  ec_upload_id context = id -> justified (ec_state context) (ec_upload_offset context) h ->
  runs res h (render_upload_target_conflict sha256 fs path owner context) (λ _, told).
Proof.
  intros Hi Hj. unfold render_upload_target_conflict. apply runs_pure. intros relative _.
  eapply runs_call; [apply uio_calm, replacement_identity_reads|]. intros current l Hl.
  eapply (runs_then _ _ _ _ (λ _ _ h', h' = h ++ l)); [by apply runs_respond|]. intros [] res' ? ->.
  case_match; (apply problem_told; [done|by apply justified_calm]).
Qed.

(** *** The session *)

(** Nothing was done yet, and the record - if any - was loaded and can be
    resumed. *)
Definition resumable (session : StoredUploadSession) : Prop :=
  us_state session = URunning \/ us_state session = UAwaitingConfirmation.
Definition looking (record : option UploadCheckpoint) (h : list UploadEvent) : Prop :=
  Forall calm h /\
  forall checkpoint, record = Some checkpoint ->
    exists session, loaded key session h /\ checkpoint = upload_checkpoint session /\ resumable session.

Lemma looking_app record h l : looking record h -> Forall calm l -> looking record (h ++ l).
Proof.
  intros [Hc Hr] Hl. split; [by apply Forall_app|]. intros checkpoint E. destruct (Hr _ E) as (s & ? & ?).
  exists s. split; [by apply loaded_app|done].
Qed.
Lemma looking_idle record h : looking record h -> justified NotStarted None h.
Proof. intros [Hc _]. by apply calm_not_started. Qed.

Lemma running_justified session h :
  Forall untouched h -> seen key session h -> us_state session = URunning ->
  justified Running (Some (us_durable_offset session)) h.
Proof. intros. split; [done|]. by exists session. Qed.
Lemma awaiting_justified session h offset :
  Forall untouched h -> seen key session h -> us_state session = UAwaitingConfirmation ->
  offset = Some (us_durable_offset session) \/ offset = Some (us_upload_length session) ->
  justified AwaitingConfirmation offset h.
Proof. intros. split; [done|]. by exists session. Qed.

(** What a resumable record may be called. *)
Lemma resumed_justified record session h :
  Forall untouched h -> loaded key session h -> record = upload_checkpoint session -> resumable session ->
  justified (resumed_state record) (Some (cp_durable_offset record)) h.
Proof.
  intros Hu Hl -> [E|E]; unfold resumed_state; cbn; rewrite E; cbn.
  - apply running_justified; [done|by left|done].
  - eapply awaiting_justified; [done|by left|done|by left].
Qed.

Lemma check_record_runs res h options path owner session :
  uo_upload_id options = id -> Forall calm h -> loaded key session h ->
  runs res h (check_record sha256 fs options path owner (upload_checkpoint session))
    (goes (λ _ h', h' = h /\ resumable session)).
Proof.
  intros Hi Hc Hl. assert (Hu : Forall untouched h) by by apply calm_all_untouched.
  unfold check_record. cbn [cp_state cp_upload_length cp_durable_offset upload_checkpoint].
  destruct (us_state session) eqn:E; cbn [record_state].
  - destruct (negb _); [apply refuse_told|by apply runs_finished; split; [|left]]; [done|].
    apply running_justified; [done|by left|done].
  - by apply refuse_told.
  - eapply (runs_then _ _ _ _ (λ _ _ h', h' = h)); [by apply runs_respond|]. intros [] res' ? ->.
    assert (Hj : justified Committed (Some (us_durable_offset session)) h) by (left; by exists session).
    destruct (negb _); [by apply refuse_told|].
    apply runs_refused. by apply (set_record_told (λ res, res)).
  - by apply refuse_told.
  - by apply refuse_told.
  - assert (Hj : justified AwaitingConfirmation (Some (us_durable_offset session)) h)
      by (eapply awaiting_justified; [done|by left|done|by left]).
    repeat (destruct (negb _); [|try (by apply runs_finished; split; [|right])]).
    + apply runs_refused. by apply conflict_runs.
    + by apply refuse_told.
    + by apply refuse_told.
Qed.

Lemma track_resumed_runs res h options path record :
  uo_upload_id options = id -> looking record h ->
  runs (Env := Env) res h (track_resumed options path) (goes (λ _, looking record)).
Proof.
  intros Hi Hl. eapply (runs_look _ _ _ _ (λ r l, l = [TrackFiles path r])); [by apply spec_call|].
  intros r ? ->. assert (Hl' : looking record (h ++ [TrackFiles path r])) by (apply looking_app; [done|by repeat constructor]).
  destruct r as [[]|error]; [by apply runs_finished|].
  destruct (missing_kind error).
  { apply refuse_told; [done|]. apply calm_all_untouched, Hl'. }
  destruct (bool_decide (io_kind error = TimedOut)) eqn:E; [|apply runs_broken].
  eapply runs_proceed; [apply deadline_before_runs; [done|by eapply looking_idle]|].
  intros [] res' h' ->. apply runs_finished. left. exists h, (TrackFiles path (Err error)), [], [].
  rewrite <-app_assoc. split; [done|]. right. exists path, error. split; [done|]. by apply bool_decide_eq_true in E.
Qed.

(** *** The target and the checkpoint *)

Lemma conflict_justified record h :
  looking record h -> justified (conflict_state record) (cp_durable_offset <$> record) h.
Proof.
  intros [Hc Hr]. assert (Hu : Forall untouched h) by by apply calm_all_untouched.
  unfold conflict_state, is_state. destruct record as [checkpoint|]; [|by split].
  destruct (Hr _ eq_refl) as (session & Hl & -> & Hs).
  pose proof (resumed_justified _ _ _ Hu Hl eq_refl Hs) as Hj. unfold resumed_state in Hj. cbn in *.
  by destruct Hs as [E|E]; rewrite E in *.
Qed.

Lemma check_target_runs res h options path owner record :
  uo_upload_id options = id -> looking record h ->
  runs res h (check_target sha256 fs attributes_bytes options path owner record) (goes (λ _, looking record)).
Proof.
  intros Hi Hl. unfold check_target.
  eapply runs_call; [apply uio_calm, replacement_identity_reads|]. intros inspected l Hc.
  assert (Hl' : looking record (h ++ l)) by by apply looking_app. clear Hl. generalize dependent (h ++ l). clear h l Hc.
  intros h Hl. apply runs_pure. intros relative _. pose proof (conflict_justified _ _ Hl) as Hj.
  assert (Hconflict : forall res h, looking record h ->
    runs res h (perform _ <- render_upload_target_conflict sha256 fs path owner
      (mkErrorContext (uo_upload_id options) (conflict_state record) (Some (uo_upload_length options))
         (cp_durable_offset <$> record)); done None)
      (goes (λ (_ : ReplacementTargetIdentity * option PreservedFileMetadata), looking record))).
  { intros res' h' Hl'. apply runs_refused, conflict_runs; [done|by apply conflict_justified]. }
  destruct (uo_overwrite options) as [|expected].
  - destruct (_ && _).
    { eapply (runs_then _ _ _ _ (λ _ _ h', h' = h)); [by apply runs_respond|]. intros [] res' ? ->. by apply refuse_told. }
    destruct record as [checkpoint|]; [|by apply runs_finished].
    destruct (_ && _) eqn:Ha; [|by apply runs_finished]. apply refuse_told; [done|]. cbn.
    apply andb_true_iff in Ha as [Ha%bool_decide_eq_true _].
    unfold conflict_state, is_state in Hj. by rewrite bool_decide_true in Hj.
  - destruct (_ || _); [by apply Hconflict|].
    eapply runs_look; [apply ukernel_calm, replacement_metadata_reads|]. intros found l Hc.
    assert (Hl' : looking record (h ++ l)) by by apply looking_app.
    destruct found as [target|error]; [|destruct (policy_refusal error); [by apply Hconflict|apply runs_broken]].
    destruct (negb _); [by apply Hconflict|]. by apply runs_finished.
Qed.

(** The upload to resume, as the request and the record agree on it. *)
Definition agreed (length : Z) (mode : UploadMode) (state : option UploadRecordState) (h : list UploadEvent) : Prop :=
  match state with
  | None => is_resume mode = false
  | Some state =>
      exists session, loaded key session h /\ resumable session /\ state = record_state (us_state session) /\
        us_upload_length session = length /\ mode_offset mode = Some (us_durable_offset session)
  end.
Definition resuming (options : UploadOptions) (checkpoint : option UploadCheckpoint) (h : list UploadEvent) : Prop :=
  looking checkpoint h /\ agreed (uo_upload_length options) (uo_mode options) (cp_state <$> checkpoint) h.

Lemma agreed_app length mode state h l : agreed length mode state h -> agreed length mode state (h ++ l).
Proof.
  destruct state; [|done]. intros (session & ? & ?). exists session. split; [by apply loaded_app|done].
Qed.
Lemma resuming_app options checkpoint h l :
  resuming options checkpoint h -> Forall calm l -> resuming options checkpoint (h ++ l).
Proof. intros [Hl Ha] Hc. split; [by apply looking_app|by apply agreed_app]. Qed.

Lemma check_checkpoint_runs res h options record :
  uo_upload_id options = id -> looking record h ->
  runs (Env := Env) res h (check_checkpoint options record) (goes (resuming options)).
Proof.
  intros Hi Hl. unfold check_checkpoint.
  eapply (runs_proceed _ _ _ _ (λ checkpoint h', h' = h /\ looking checkpoint h /\
    (is_resume (uo_mode options) = true -> checkpoint <> None) /\ (is_resume (uo_mode options) = false -> checkpoint = None))).
  { destruct (is_resume (uo_mode options)).
    - destruct record as [checkpoint|]; [by apply runs_finished|]. apply refuse_told; [done|].
      apply calm_all_untouched, Hl.
    - apply runs_finished. split_and!; try done. split; [apply Hl|done]. }
  intros checkpoint res' ? (-> & Hc & Hresume & Hfresh). clear Hl.
  eapply runs_proceed; [apply deadline_before_runs; [done|by eapply looking_idle]|]. intros [] res2 ? ->.
  apply (looking_app _ _ [Expired false]) in Hc; [|by repeat constructor].
  destruct checkpoint as [checkpoint|].
  - destruct (proj2 Hc _ eq_refl) as (session & Hl & -> & Hs).
    assert (Hj : justified (resumed_state (upload_checkpoint session)) (Some (us_durable_offset session))
                   (h ++ [Expired false])).
    { eapply (resumed_justified (upload_checkpoint session)); try done. apply calm_all_untouched, Hc. }
    cbn [cp_upload_length cp_durable_offset upload_checkpoint].
    destruct (us_upload_length session =? _) eqn:El; cbn [negb]; [|by apply refuse_told].
    destruct (us_durable_offset session =? _) eqn:Eo; cbn [negb]; [|by apply refuse_told]. apply runs_finished.
    split; [done|]. exists session. split_and!; try done; [lia|].
    destruct (uo_mode options); [|cbn in *; f_equal; lia]. by specialize (Hfresh eq_refl).
  - apply runs_finished. split; [done|]. cbn. destruct (is_resume _); [|done]. by destruct Hresume.
Qed.

Lemma check_body_runs res h options checkpoint len :
  uo_upload_id options = id -> resuming options checkpoint h ->
  runs (Env := Env) res h (check_body_length options checkpoint len) (goes (λ _ h', h' = h)).
Proof.
  intros Hi [[Hc Hr] Ha]. assert (Hu : Forall untouched h) by by apply calm_all_untouched.
  unfold check_body_length. case_match; [apply runs_broken|]. destruct len as [len|]; [|by apply runs_finished].
  case_match; [|by apply runs_finished]. destruct checkpoint as [checkpoint|]; [|by apply refuse_told].
  destruct (Hr _ eq_refl) as (session & Hl & -> & Hs). destruct Ha as (s & Hl' & Hs' & Est & Elen & Eo). cbn in Est |- *.
  rewrite Est, Eo. destruct Hs' as [E|E]; rewrite E; cbn [record_state]; (apply refuse_told; [done|]).
  - apply running_justified; [done|by left|done].
  - apply (awaiting_justified s); [done|by left|done|by left].
Qed.

(** *** An upload under way *)

Lemma runs_quiet {A B} res h (m : Handler Env A) (k : A -> Handler Env B) K :
  hushed m -> (forall a res' l, Forall quiet l -> runs res' (h ++ l) (k a) K) -> runs res h (then_do m k) K.
Proof.
  intros Hm Hk. eapply (runs_then _ _ _ _ (λ _ _ h', exists l, h' = h ++ l /\ Forall quiet l)).
  - eapply spec_weaken; [apply Hm|]. intros x l Hl a _. eauto.
  - intros a res' ? (l & -> & Hl). by apply Hk.
Qed.

Lemma runs_look_quiet {A B} res h (m : Up Env A) (k : A -> Handler Env B) K :
  emits quiet m -> (forall a l, Forall quiet l -> runs res (h ++ l) (k a) K) -> runs res h (then_do (look m) k) K.
Proof. apply runs_look. Qed.
Lemma runs_call_quiet {A B} res h (m : Upload Env A) (k : A -> Handler Env B) K :
  emits quiet m -> (forall a l, Forall quiet l -> runs res (h ++ l) (k a) K) -> runs res h (then_do (call m) k) K.
Proof. apply runs_call. Qed.

Lemma unknown_always res h upload_id message :
  upload_id = id ->
  runs (Env := Env) res h (apply_upload_unknown upload_id message) (λ _ res' _, forall h', told res' h').
Proof.
  intros ->. apply runs_respond. intros res' (rendered & _ & (headers & Hh & [= <-])%bind_Ok)%bind_Ok h'. right.
  destruct (apply_upload_record_headers _ _ _ _ _) eqn:E in Hh; [|done]. injection Hh as ->. by repeat eexists.
Qed.
Lemma unknown_told res h upload_id message :
  upload_id = id -> runs (Env := Env) res h (apply_upload_unknown upload_id message) (λ _, told).
Proof. intros Hi. by apply problem_told. Qed.

Definition working (u : UploadTransaction) (h : list UploadEvent) : Prop :=
  Forall untouched h /\ agreed (ut_upload_length u) (ut_mode u) (ut_checkpoint_state u) h /\
  ut_upload_id u = id /\ upload_session_key (ut_owner_id u) (ut_upload_id u) = key.

Lemma working_untouched u h l : working u h -> Forall untouched l -> working u (h ++ l).
Proof. intros (Hu & Ha & ?) Hl. split; [by apply Forall_app|]. split; [by apply agreed_app|done]. Qed.
Lemma working_quiet u h l : working u h -> Forall quiet l -> working u (h ++ l).
Proof. intros Hw Hl. apply working_untouched; [done|by apply quiet_all_untouched]. Qed.

Lemma working_running u h :
  working u h -> ut_awaiting u = false -> is_resume (ut_mode u) = true ->
  justified Running (Some (ut_initial_offset u)) h.
Proof.
  intros (Hu & Ha & _) Hn Hr. unfold ut_awaiting, ut_initial_offset in *.
  destruct (ut_checkpoint_state u) as [state|]; cbn in Ha; [|congruence].
  destruct Ha as (session & Hl & [E|E] & -> & _ & Ho); rewrite E in *.
  - rewrite Ho. apply running_justified; [done|by left|done].
  - by apply bool_decide_eq_false in Hn.
Qed.
Lemma working_awaiting u h :
  working u h -> ut_awaiting u = true -> justified AwaitingConfirmation (Some (ut_upload_length u)) h.
Proof.
  intros (Hu & Ha & _) Hn%bool_decide_eq_true. rewrite Hn in Ha.
  destruct Ha as (session & Hl & [E|E] & Hs & Hlen & Ho); rewrite E in Hs; [done|].
  apply (awaiting_justified session); [done|by left|done|right; congruence].
Qed.

Lemma stopped_told res h u offset status code message :
  ut_upload_id u = id -> justified (match offset with Some _ => Running | None => Rejected end) offset h ->
  runs (Env := Env) res h (stopped u offset status code message) (λ _, told).
Proof. intros Hi Hj. by apply problem_told. Qed.
Lemma stopped_rejected res h u status code message :
  working u h -> runs (Env := Env) res h (stopped u None status code message) (λ _, told).
Proof. intros (Hu & _ & Hi & _). by apply stopped_told. Qed.
Lemma stopped_resumed res h u status code message :
  working u h -> ut_awaiting u = false -> is_resume (ut_mode u) = true ->
  runs (Env := Env) res h (stopped u (Some (ut_initial_offset u)) status code message) (λ _, told).
Proof. intros Hw Ha Hr. apply stopped_told; [apply Hw|by apply working_running]. Qed.
Lemma awaiting_told res h u status code message :
  working u h -> ut_awaiting u = true ->
  runs (Env := Env) res h
    (apply_awaiting_confirmation_problem (ut_upload_id u) (ut_upload_length u) status code message) (λ _, told).
Proof. intros Hw Ha. apply problem_told; [apply Hw|by apply working_awaiting]. Qed.

Lemma unless_awaiting_runs res h u status code message otherwise :
  working u h -> (ut_awaiting u = false -> runs res h otherwise (λ _, told)) ->
  runs (Env := Env) res h (unless_awaiting u status code message otherwise) (λ _, told).
Proof.
  intros Hw Ho. unfold unless_awaiting. destruct (ut_awaiting u) eqn:E; [by apply awaiting_told|by apply Ho].
Qed.

(** Steps around the stage of an upload. *)
Ltac on_stage_step :=
  match goal with
  | |- runs _ _ (broken _) _ => apply runs_broken
  | |- runs _ _ (apply_upload_unknown _ _) _ => apply unknown_told; solve [eauto]
  | |- runs _ _ (then_do (look _) _) _ => apply runs_look_quiet; [solve [hush]|]; intros ? ? ?
  | |- runs _ _ (then_do (call _) _) _ => apply runs_call_quiet; [solve [hush]|]; intros ? ? ?
  | |- runs _ _ (then_do (pure _) _) _ => apply runs_pure; intros ? _
  | |- runs _ _ (then_do _ _) _ => apply runs_quiet; [solve [hush]|]; intros ? ? ? ?
  | |- runs _ _ (match ?x with _ => _ end) _ => destruct x eqn:?
  end.
Ltac on_stage := repeat on_stage_step.
Ltac still_working := repeat (apply working_quiet; [|assumption]); assumption.

Ltac stop_here :=
  match goal with
  | |- runs _ _ (stopped _ None _ _ _) _ => apply stopped_rejected; still_working
  | |- runs _ _ (stopped _ (Some (ut_initial_offset _)) _ _ _) _ => apply stopped_resumed; [still_working|done..]
  end.

Lemma space_failure_runs res h u message :
  working u h -> ut_awaiting u = false ->
  runs res h (finish_precommit_space_failure sha256 to_string_lossy room fs cleanup u message) (λ _, told).
Proof.
  intros Hw Ha. pose proof Hw as (_ & _ & Hi & _). unfold finish_precommit_space_failure, sys_set_len.
  on_stage; stop_here.
Qed.
Lemma io_failure_runs res h u message :
  working u h -> ut_awaiting u = false ->
  runs res h (finish_precommit_io_failure sha256 to_string_lossy room fs cleanup u message) (λ _, told).
Proof.
  intros Hw Ha. pose proof Hw as (_ & _ & Hi & _). unfold finish_precommit_io_failure.
  destruct (is_resume (ut_mode u)) eqn:E; on_stage;
    stop_here.
Qed.

(** *** Records *)

Lemma recorded_saved file record offset state h l :
  upload_session_key (rc_owner_id record) (rc_upload_id record) = key -> recorded file record offset state l ->
  exists session, seen key session (h ++ l) /\ us_state session = state /\ us_durable_offset session = offset /\
    us_upload_length session = rc_upload_length record.
Proof.
  intros <- (middle & session & identity & answer & -> & _ & Hs & _ & Ha & Hk & Hst & Hlen & Ho & _).
  exists session. split_and!; try done. right. split; [done|]. exists (h ++ middle), answer, [].
  split; [by rewrite <-app_assoc|]. split; [done|]. exists file. destruct Hs as (copy & ? & ?). exists copy. set_solver.
Qed.

Lemma checkpoint_recorded file record offset sync :
  spec (persist_checkpoint_inner sha256 to_string_lossy fs file record offset sync) (λ r l,
    Forall quiet l /\ (r = Ok tt -> recorded file record offset URunning l)).
Proof.
  apply spec_and; [apply checkpoint_quiet|]. unfold persist_checkpoint_inner.
  apply spec_attempt_ret; [intros _ _|done]. by apply persist_identified_spec.
Qed.
Lemma awaiting_recorded file record :
  spec (persist_awaiting_confirmation sha256 to_string_lossy fs file record) (λ r l,
    Forall quiet l /\ (r = Ok tt -> recorded file record (rc_upload_length record) UAwaitingConfirmation l)).
Proof.
  apply spec_and; [apply awaiting_quiet|].
  exact (persist_identified_spec sha256 to_string_lossy fs attributes_bytes file record _ UAwaitingConfirmation false).
Qed.

(** An offset that was just recorded may be told. *)
Lemma stopped_recorded res h l l' u file record offset status code message :
  working u h -> rc_owner_id record = ut_owner_id u -> rc_upload_id record = ut_upload_id u ->
  Forall quiet l -> recorded file record offset URunning l -> Forall quiet l' ->
  runs (Env := Env) res ((h ++ l) ++ l') (stopped u (Some offset) status code message) (λ _, told).
Proof.
  intros Hw Ho Hi Hl Hr Hl'. apply stopped_told; [apply Hw|]. apply justified_quiet; [done| |done].
  assert (Hk : upload_session_key (rc_owner_id record) (rc_upload_id record) = key) by (rewrite Ho, Hi; apply Hw).
  destruct (recorded_saved _ _ _ _ h _ Hk Hr) as (session & Hs & Hst & <- & _).
  apply running_justified; [|done..]. by apply (working_quiet _ _ _ Hw).
Qed.

(** *** Failures *)

Lemma abandon_fails {A} u discard error :
  spec (abandon_timed_out sha256 to_string_lossy room fs cleanup u discard error : Upload Env A)
    (λ r _, forall a, r <> Ok a).
Proof.
  unfold abandon_timed_out. eapply (spec_bind _ _ (λ _, Forall quiet)).
  { change (emits quiet (if discard then discard_stage sha256 room fs cleanup u else ok tt)). hush. }
  intros discarded l _. eapply spec_bind_ok; [apply reset_created_quiet| |done]. intros [] l' _.
  by apply spec_attempt_ret; [intros; apply spec_ret|].
Qed.
Lemma runs_fails {A} res h (m : Upload Env A) (K : A -> Response -> list UploadEvent -> Prop) :
  spec m (λ r _, forall a, r <> Ok a) -> runs res h (call m) K.
Proof. intros Hm. eapply spec_bind; [exact Hm|]. intros [a|e] l Hl; [by destruct (Hl a)|by apply spec_ret]. Qed.

Lemma timed_out_runs res h u message :
  ut_upload_id u = id ->
  runs res h (finish_timed_out_upload sha256 to_string_lossy room fs cleanup u message) (λ _, told).
Proof.
  intros Hi. unfold finish_timed_out_upload, sys_flush, sys_file_metadata, sys_set_len.
  destruct (is_resume (ut_mode u)); cbn [negb]; on_stage; try apply runs_fails, abandon_fails.
Qed.
Lemma roll_back_runs res h u unknown status code message :
  working u h -> runs res h (roll_back sha256 to_string_lossy room fs cleanup u unknown status code message) (λ _, told).
Proof.
  intros Hw. pose proof Hw as (_ & _ & Hi & _). unfold roll_back. on_stage. stop_here.
Qed.
Lemma length_mismatch_runs res h u actual :
  working u h -> runs res h (length_mismatch sha256 to_string_lossy room fs cleanup u actual) (λ _, told).
Proof.
  intros Hw. unfold length_mismatch. case_match; [|on_stage; stop_here].
  eapply runs_call; [apply checkpoint_recorded|]. intros [] l [Hl Hr].
  apply runs_quiet; [hush|]. intros [] res' l' Hl'. by eapply stopped_recorded; [exact Hw|..|exact (Hr eq_refl)|].
Qed.

Lemma transfer_error_runs res h u error :
  working u h -> ut_awaiting u = true ->
  runs (Env := Env) res h
    (apply_awaiting_confirmation_transfer_error (ut_upload_id u) (ut_upload_length u) error) (λ _, told).
Proof.
  intros Hw Ha. unfold apply_awaiting_confirmation_transfer_error.
  destruct error; (apply problem_told; [apply Hw|by apply working_awaiting]).
Qed.

Lemma keep_or_reset_runs res h u partial :
  runs res h (keep_or_reset sha256 to_string_lossy room fs cleanup u partial) (λ keep _ h',
    exists l, h' = h ++ l /\ Forall quiet l /\
      (keep = true -> recorded (ut_file u) (bound_record u) partial URunning l)).
Proof.
  unfold keep_or_reset. case_match.
  - eapply runs_call; [apply checkpoint_recorded|]. intros [] l [Hl Hr]. apply runs_finished. exists l. eauto.
  - case_match; [|apply runs_broken]. on_stage. apply runs_finished. by eexists.
Qed.

Lemma failed_transfer_runs res h u error :
  working u h -> ut_awaiting u = false ->
  runs res h (finish_failed_transfer sha256 to_string_lossy room fs cleanup u error) (λ _, told).
Proof.
  intros Hw Ha. unfold finish_failed_transfer, sys_file_metadata. apply runs_look_quiet; [hush|]. intros found l Hl.
  apply (working_quiet _ _ _ Hw) in Hl. clear Hw. apply runs_quiet; [hush|]. intros partial res' l' Hl'.
  apply (working_quiet _ _ _ Hl) in Hl'. generalize dependent ((h ++ l) ++ l'). clear h l l' Hl. intros h Hw.
  destruct error.
  - on_stage.
  - eapply runs_then; [apply keep_or_reset_runs|]. intros keep res2 ? (l & -> & Hl & Hr).
    apply runs_quiet; [hush|]. intros [] res3 l2 Hl2. destruct keep.
    + by eapply stopped_recorded; [exact Hw|..|exact (Hr eq_refl)|].
    + stop_here.
  - on_stage.
  - destruct (is_resume (ut_mode u)) eqn:E; on_stage; stop_here.
  - destruct (is_resume (ut_mode u)) eqn:E; on_stage; stop_here.
Qed.

(** *** The commit *)

Lemma replay_runs res h u next :
  working u h -> (forall res' l, Forall quiet l -> runs res' (h ++ l) next (λ _, told)) ->
  runs res h (replay_metadata sha256 to_string_lossy room fs attributes_bytes cleanup u next) (λ _, told).
Proof.
  intros Hw Hn. unfold replay_metadata. destruct (ut_target_metadata u) as [metadata|].
  2: { specialize (Hn res [] ltac:(constructor)). by rewrite app_nil_r in Hn. }
  apply runs_look_quiet; [hush|]. intros [[]|error] l Hl; [by apply Hn|]. apply (working_quiet _ _ _ Hw) in Hl as Hw'.
  destruct (ut_awaiting u) eqn:Ha; [case_match; by apply awaiting_told|]. on_stage.
  apply problem_told; [apply Hw|]. apply (working_quiet _ _ _ Hw'). done.
Qed.

Lemma before_deadline_runs res h u next :
  working u h -> (forall l, Forall quiet l -> runs res (h ++ l) next (λ _, told)) ->
  runs res h (before_deadline sha256 to_string_lossy room fs cleanup u next) (λ _, told).
Proof.
  intros Hw Hn. unfold before_deadline, expired. apply runs_look_quiet; [hush|]. intros [] l Hl; [|by apply Hn].
  apply unless_awaiting_runs; [by apply working_quiet|]. intros _. apply timed_out_runs, Hw.
Qed.

(** A stage that was not published left everything as it was. *)
Lemma staged_untouched file expected gate outcome calls :
  staged file expected gate outcome calls ->
  match outcome with StagedRejected _ | StagedNotPublished _ => Forall untouched (map UKernel calls) | _ => True end.
Proof.
  assert (Hreads : forall l, Forall reads l -> Forall untouched (map UKernel l)).
  { intros l Hl. induction Hl; constructor; [|done]. by apply quiet_untouched, reads_quiet. }
  intros [[Hr (e & ->)]|(copy & pinned & rename & r & -> & Hp & ->)]; [by apply Hreads|].
  destruct gate as [[]|]; [|done].
  destruct Hp as [[Hr Ho]|(before & after & from & name & to & new & answer & st & -> & Hb & Ha & _ & _ & _ & _ & _ & Hm)].
  - assert (Hu : Forall untouched (map UKernel (Dup file (Ok copy) :: Fsync copy (Ok tt) :: Dup file (Ok pinned) :: rename)))
      by (apply Hreads; by repeat constructor). by destruct r.
  - destruct r; try done; cbn; repeat (constructor; [done|]); rewrite map_app, Forall_app; (split; [by apply Hreads|]);
      cbn; (constructor; [|by apply Hreads]); destruct answer as [[]|]; try done; by destruct Hm.
Qed.

Lemma rejected_runs res h u file :
  working u h -> runs res h (publication_rejected sha256 to_string_lossy fs u file) (λ _, told).
Proof.
  intros Hw. pose proof Hw as (_ & _ & Hi & Hk). unfold publication_rejected.
  eapply runs_look; [apply awaiting_recorded|]. intros [[]|error] l [Hl Hr]; [|on_stage].
  apply conflict_runs; [done|]. destruct (recorded_saved _ (bound_record u) _ _ h _ Hk (Hr eq_refl)) as (session & Hs & Hst & _ & Hlen).
  apply (awaiting_justified session); [by apply (working_quiet _ _ _ Hw)|done|done|]. right. by rewrite Hlen.
Qed.
Lemma failed_runs res h u :
  working u h -> runs res h (publication_failed sha256 to_string_lossy room fs cleanup u) (λ _, told).
Proof. intros Hw. unfold publication_failed. on_stage. stop_here. Qed.
Lemma unknown_runs res h u :
  ut_upload_id u = id -> runs res h (publication_unknown sha256 to_string_lossy fs u) (λ _, told).
Proof. intros Hi. unfold publication_unknown. on_stage. by apply problem_told. Qed.

Lemma terminal_spec record offset :
  spec (persist_terminal sha256 to_string_lossy fs record offset RecCommitted : Upload Env unit) (λ r l,
    r = Ok tt -> exists loads session answer,
      l = loads ++ [SaveSession session (Ok answer)] /\ Forall quiet loads /\ accepted answer = true /\
      us_key session = upload_session_key (rc_owner_id record) (rc_upload_id record) /\
      us_state session = UCommitted /\ us_durable_offset session = offset).
Proof.
  eapply spec_weaken; [apply spec_and; [apply terminal_quiet|]|].
  - apply spec_bind_ret, persist_state_spec.
  - intros r l [Hq Hr] E. destruct (Hr E) as (loads & session & answer & -> & _ & ? & ? & ? & _ & ? & _).
    exists loads, session, answer. apply Forall_app in Hq as [? _]. done.
Qed.

Lemma done_runs res h u before calls :
  working u before -> h = before ++ map UKernel calls ->
  staged (ut_file u) (ut_target_identity u) publish StagedPublished calls ->
  runs res h (publication_done sha256 to_string_lossy fs u) (λ _, told).
Proof.
  intros (_ & _ & Hi & Hk) -> Hs. unfold publication_done.
  apply runs_quiet; [hush|]. intros [] res' l Hl. eapply runs_look; [apply terminal_spec|]. intros [[]|error] l' Hr.
  2: by apply problem_told.
  destruct (Hr eq_refl) as (loads & session & answer & -> & Hq & Ha & Hkey & Hst & Ho).
  apply (set_record_told (λ res, with_status res (ut_success_status u))); [done|]. right.
  exists before, (ut_file u), (ut_target_identity u), calls, (l ++ loads), session, answer, [].
  split; [by rewrite <-!app_assoc|]. split.
  { destruct Hs as [[_ (e & [=])]|(copy & pinned & rename & r & -> & Hp & Eo)]. right.
    exists copy, pinned, rename, r. split_and!; try done. by destruct publish. }
  split; [by apply Forall_app|]. split_and!; try done; [by rewrite <-Hk|by rewrite Ho].
Qed.

Lemma commit_ready_runs res h u :
  working u h -> runs res h (commit_ready_upload sha256 to_string_lossy room fs cleanup publish u) (λ _, told).
Proof.
  intros Hw. unfold commit_ready_upload.
  eapply runs_look; [apply spec_ukernel, (commit_staged_spec sha256)|]. intros outcome l (calls & -> & Hs).
  pose proof (staged_untouched _ _ _ _ _ Hs) as Hu.
  destruct outcome as [|file|error|error].
  - by eapply done_runs.
  - by apply rejected_runs, working_untouched.
  - by apply failed_runs, working_untouched.
  - apply unknown_runs, Hw.
Qed.

Lemma commit_segment_runs res h u :
  working u h ->
  runs res h (commit_segment sha256 to_string_lossy room fs attributes_bytes min_free_space cleanup publish u) (λ _, told).
Proof.
  intros Hw. apply replay_runs; [done|]. intros res' l Hl%(working_quiet _ _ _ Hw). clear Hw res.
  apply runs_look_quiet; [hush|]. intros enough l2 Hl2%(working_quiet _ _ _ Hl). clear Hl. destruct enough; cbn [negb].
  2: { apply unless_awaiting_runs; [done|]. intros _. by apply roll_back_runs. }
  apply runs_look_quiet; [hush|]. intros started l3 Hl3%(working_quiet _ _ _ Hl2). clear Hl2.
  destruct started; [|by apply roll_back_runs].
  apply runs_look_quiet; [hush|]. intros enough l4 Hl4%(working_quiet _ _ _ Hl3). clear Hl3.
  destruct enough; cbn [negb]; [by apply commit_ready_runs|by apply roll_back_runs].
Qed.

Lemma prepare_transferred_runs res h u :
  working u h ->
  runs res h (prepare_transferred_upload sha256 to_string_lossy room fs attributes_bytes min_free_space cleanup publish u)
    (λ _, told).
Proof.
  intros Hw. unfold prepare_transferred_upload, sys_flush.
  apply runs_look_quiet; [hush|]. intros flushed l Hl%(working_quiet _ _ _ Hw). clear Hw. destruct flushed as [[]|].
  2: { apply unless_awaiting_runs; [done|]. intros. by apply io_failure_runs. }
  apply runs_look_quiet; [hush|]. intros enough l2 Hl2%(working_quiet _ _ _ Hl). clear Hl. destruct enough; cbn [negb].
  2: { apply unless_awaiting_runs; [done|]. intros. by apply space_failure_runs. }
  apply before_deadline_runs; [done|]. intros l3 Hl3%(working_quiet _ _ _ Hl2). clear Hl2. unfold sys_file_metadata.
  apply runs_look_quiet; [hush|]. intros found l4 Hl4%(working_quiet _ _ _ Hl3). clear Hl3. destruct found as [metadata|].
  2: { apply unless_awaiting_runs; [done|]. intros. apply runs_broken. }
  apply before_deadline_runs; [done|]. intros l5 Hl5%(working_quiet _ _ _ Hl4). clear Hl4. case_match.
  { apply unless_awaiting_runs; [done|]. intros. by apply length_mismatch_runs. }
  apply before_deadline_runs; [done|]. intros l6 Hl6%(working_quiet _ _ _ Hl5). by apply commit_segment_runs.
Qed.

Lemma transfer_runs res h u body :
  working u h ->
  runs res h (transfer_upload_body sha256 to_string_lossy room fs attributes_bytes min_free_space cleanup publish u body)
    (λ _, told).
Proof.
  intros Hw. unfold transfer_upload_body. case_match; [apply runs_broken|].
  apply runs_look_quiet; [hush|]. intros transferred l Hl%(working_quiet _ _ _ Hw). destruct transferred as [lease|error].
  - by apply prepare_transferred_runs.
  - destruct (ut_awaiting u) eqn:Ha; [by apply transfer_error_runs|].
    destruct error; try by apply failed_transfer_runs. apply timed_out_runs, Hw.
Qed.

(** *** Opening the stage *)

(** Something may have been done, but nothing outside the server's own entries. *)
Definition begun (h : list UploadEvent) : Prop := Forall untouched h /\ begun_or_calm h.

Lemma calm_begun h : Forall calm h -> begun h.
Proof. intros Hc. split; [by apply calm_all_untouched|by left]. Qed.
Lemma begun_calm h l : begun h -> Forall calm l -> begun (h ++ l).
Proof.
  intros [Hu Hb] Hl. split; [apply Forall_app; split; [done|by apply calm_all_untouched]|by apply begun_or_calm_app].
Qed.
Lemma begun_quiet h l : begun h -> BeginMutation true ∈ h -> Forall quiet l -> begun (h ++ l).
Proof.
  intros [Hu Hb] Hm Hl. split; [apply Forall_app; split; [done|by apply quiet_all_untouched]|right; set_solver].
Qed.
Lemma begin_begun res h options message :
  uo_upload_id options = id -> begun h ->
  runs (Env := Env) res h (begin_upload_mutation_or_reject options message)
    (goes (λ _ h', h' = h ++ [BeginMutation true] /\ begun h')).
Proof.
  intros Hi Hb. eapply runs_weaken; [apply begin_runs; [done|apply Hb..]|]. intros [[]|] res' h'; [|done].
  intros ->. split; [done|]. apply begun_calm; [done|by repeat constructor].
Qed.

Lemma went_back_told res before e between :
  e = Expired true \/ (exists path error, e = TrackFiles path (Err error) /\ io_kind error = TimedOut) ->
  told res ((before ++ e :: between) ++ [Expired false]).
Proof. intros He. left. exists before, e, between, []. by rewrite <-app_assoc. Qed.

(** The deadline is asked for, and a passed one is told as unknown. *)
Lemma deadline_runs res h upload_id message :
  upload_id = id ->
  runs (Env := Env) res h (upload_deadline_expired upload_id message) (goes (λ _ h', h' = h ++ [Expired false])).
Proof.
  intros Hi. eapply (runs_look _ _ _ _ (λ b l, l = [Expired b])); [by apply spec_call|].
  intros [] l ->; [|by apply runs_finished]. apply runs_refused. by apply unknown_told.
Qed.

Lemma create_fresh_runs res h options path remaining :
  uo_upload_id options = id -> Forall calm h ->
  runs res h (create_fresh_stage sha256 room fs min_free_space cleanup options path remaining)
    (goes (λ _ h', begun h' /\ BeginMutation true ∈ h')).
Proof.
  intros Hi Hc. unfold create_fresh_stage.
  eapply runs_call; [apply uio_calm, nearest_parent_reads|]. intros anchor l Hl.
  eapply (runs_look _ _ _ _ (λ _, Forall calm)); [by apply emits_call|]. intros reserved l2 Hl2.
  apply runs_pure. intros lease _.
  assert (Hc' : Forall calm ((h ++ l) ++ l2)) by by rewrite !Forall_app.
  generalize dependent ((h ++ l) ++ l2). clear h l l2 Hc Hl Hl2. intros h Hc.
  destruct lease as [lease|]; [|apply refuse_told; [done|by apply calm_all_untouched]].
  eapply runs_proceed; [apply deadline_before_runs; [done|by apply calm_not_started]|]. intros [] res2 ? ->.
  eapply runs_proceed; [apply begin_begun; [done|apply calm_begun]|].
  { apply Forall_app. split; [done|by repeat constructor]. }
  intros [] res3 h' [Eh Hb]. assert (Hm : BeginMutation true ∈ h') by (rewrite Eh; set_solver). clear Eh h Hc.
  apply runs_look_quiet; [hush|]. intros stage l Hl. pose proof (begun_quiet _ _ Hb Hm Hl) as Hb2.
  assert (Hm2 : BeginMutation true ∈ h' ++ l) by set_solver.
  destruct stage as [[file created]|error].
  2: { case_match; [|apply runs_broken]. apply refuse_told; [done|]. apply Hb2. }
  eapply (runs_look _ _ _ _ (λ r l, l = [TrackFiles path r])); [by apply spec_call|]. intros [[]|error] ? ->.
  - eapply (runs_look _ _ _ _ (λ b l, l = [Expired b])); [by apply spec_call|]. intros [] ? ->.
    + eapply runs_then; [by apply unknown_always|]. intros [] res4 h4 Ht. on_stage. apply runs_finished, Ht.
    + apply runs_finished. split; [|set_solver]. apply begun_quiet; [|set_solver|by repeat constructor].
      apply begun_quiet; [done|done|by repeat constructor].
  - apply runs_call_quiet; [hush|]. intros [] l4 _. destruct (bool_decide _) eqn:E; [|apply runs_broken].
    eapply runs_proceed; [by apply deadline_runs|]. intros [] res5 ? ->. apply runs_finished.
    rewrite <-(app_assoc (h' ++ l)). apply went_back_told. right. exists path, error.
    by apply bool_decide_eq_true in E.
Qed.

Lemma time_out_runs {A} (P : A -> list UploadEvent -> Prop) res h u message :
  ut_upload_id u = id ->
  runs res h (time_out sha256 to_string_lossy room fs cleanup u message) (goes P).
Proof.
  intros Hi. apply runs_refused. by apply timed_out_runs.
Qed.

Lemma record_fresh_runs res h u :
  ut_upload_id u = id -> begun h -> BeginMutation true ∈ h ->
  runs res h (record_fresh_stage sha256 to_string_lossy room fs cleanup u) (goes (λ _, begun)).
Proof.
  intros Hi Hb Hm. unfold record_fresh_stage, expired. apply runs_look_quiet; [hush|]. intros [] l Hl.
  { by apply time_out_runs. }
  apply runs_look_quiet; [hush|]. intros [[]|error] l' Hl'; [|on_stage].
  apply runs_finished. rewrite <-app_assoc. apply begun_quiet; [done..|by apply Forall_app].
Qed.

Lemma resume_runs res h options path stage owner offset checkpoint :
  uo_upload_id options = id -> resuming options (Some checkpoint) h -> mode_offset (uo_mode options) = Some offset ->
  runs res h (resume_stage sha256 to_string_lossy fs options path stage owner offset checkpoint)
    (goes (λ _ h', begun h' /\ agreed (uo_upload_length options) (uo_mode options) (Some (cp_state checkpoint)) h')).
Proof.
  intros Hi Hr Ho. unfold resume_stage.
  eapply runs_call; [apply open_resumable_calm|]. intros [file|] l Hl%(resuming_app _ _ _ _ Hr); clear Hr.
  2: { destruct Hl as [[Hc Hs] (s & Hl & Hs' & Est & _ & Eo)]. apply refuse_told; [done|]. cbn.
       unfold resumed_state. rewrite Est. assert (Some offset = Some (us_durable_offset s)) as -> by congruence.
       apply calm_all_untouched in Hc. destruct Hs' as [E|E]; rewrite E.
       - apply running_justified; [done|by left|done].
       - apply (awaiting_justified s); [done|by left|done|by left]. }
  eapply runs_call; [by apply uio_calm, emits_call|]. intros metadata l2 Hl2%(resuming_app _ _ _ _ Hl); clear Hl.
  eapply runs_call; [by apply uio_calm, emits_call|]. intros position l3 Hl3%(resuming_app _ _ _ _ Hl2); clear Hl2.
  eapply runs_proceed; [apply deadline_before_runs; [done|eapply looking_idle, Hl3]|]. intros [] res2 ? ->.
  apply (resuming_app _ _ _ [Expired false]) in Hl3; [|by repeat constructor].
  generalize dependent ((((h ++ l) ++ l2) ++ l3) ++ [Expired false]). clear h l l2 l3. intros h [[Hc _] Ha].
  apply calm_begun in Hc. clear res. rename res2 into res.
  eapply (runs_proceed _ _ _ _ (λ _ h', begun h' /\ agreed _ _ _ h')).
  { case_match; [|by apply runs_finished]. eapply runs_proceed; [by apply begin_begun|]. intros [] res3 ? [-> Hb].
    apply runs_call_quiet; [unfold sys_set_len; hush|]. intros [] l Hl. apply runs_finished. split.
    - apply begun_quiet; [done|set_solver|done].
    - by do 2 apply agreed_app. }
  clear h Hc Ha. intros [] res3 h [Hc Ha].
  eapply (runs_proceed _ _ _ _ (λ _ h', begun h' /\ agreed _ _ _ h')); [|intros [] res4 h4 Hh4; by apply runs_finished].
  case_match; [|by apply runs_finished]. eapply runs_proceed; [by apply begin_begun|]. intros [] res4 ? [-> Hb].
  apply runs_call_quiet; [hush|]. intros [] l Hl. apply runs_finished. split.
  - apply begun_quiet; [done|set_solver|done].
  - by do 2 apply agreed_app.
Qed.

(** *** The deadline and the reservation *)

Lemma gate_runs res h options u message :
  uo_upload_id options = id -> ut_upload_id u = id -> begun h ->
  runs res h (deadline_gate sha256 to_string_lossy room fs cleanup options u message)
    (goes (λ _ h', exists l, h' = h ++ l /\ Forall calm l)).
Proof.
  intros Hi Hu [Hun Hb]. unfold deadline_gate.
  eapply (runs_look _ _ _ _ (λ b l, l = [Expired b])); [by apply spec_call|]. intros late ? ->.
  eapply (runs_then _ _ _ _ (λ untouched_ _ h', exists l, h' = h ++ Expired late :: l /\ Forall calm l /\
    (untouched_ = true -> late = true /\ l = [MutationBegun false]))).
  { destruct (late && is_resume _) eqn:E.
    - eapply (runs_look _ _ _ _ (λ b l, l = [MutationBegun b])); [by apply spec_call|]. intros begun_ ? ->.
      apply runs_finished. exists [MutationBegun begun_]. rewrite <-app_assoc. split_and!; [done|by repeat constructor|].
      apply andb_true_iff in E as [-> _]. by destruct begun_.
    - apply runs_finished. by exists []. }
  intros untouched_ res2 ? (l & -> & Hl & Ht). destruct untouched_.
  - destruct (Ht eq_refl) as [-> ->]. eapply runs_proceed; [apply deadline_before_runs; [done|]|].
    + split; rewrite Forall_app; [split; [done|by repeat constructor]|]. intros Hw. split; [|by repeat constructor].
      change (h ++ [Expired true; MutationBegun false]) with (h ++ [Expired true] ++ [MutationBegun false]) in Hw.
      rewrite app_assoc in Hw. eapply not_begun_calm in Hw; [by apply Forall_app in Hw as [? _]| |by right].
      apply begun_or_calm_app; [done|by repeat constructor].
    + intros [] res3 ? ->. apply runs_finished. apply went_back_told. by left.
  - eapply (runs_look _ _ _ _ (λ b l, l = [Expired b])); [by apply spec_call|]. intros [] ? ->.
    + by apply time_out_runs.
    + apply runs_finished. exists (Expired late :: l ++ [Expired false]). rewrite <-app_assoc. split; [done|].
      constructor; [done|]. apply Forall_app. split; [done|by repeat constructor].
Qed.

Lemma working_lease u lease h : working u h -> working (with_lease u lease) h.
Proof. done. Qed.

Lemma reserve_runs res h options u remaining reserved :
  uo_upload_id options = id -> working u h -> begun h ->
  runs res h (reserve_for sha256 to_string_lossy room fs min_free_space cleanup options u remaining reserved)
    (goes working).
Proof.
  intros Hi Hw Hb. unfold reserve_for.
  eapply (runs_then _ _ _ _ (λ _ _ h', working u h' /\ begun h')).
  { destruct reserved; [by apply runs_finished|].
    eapply (runs_look _ _ _ _ (λ _, Forall calm)); [by apply emits_call|]. intros r l Hl.
    apply spec_ret. intros a _. rewrite app_nil_r. split; [|by apply begun_calm].
    apply working_quiet; [done|by apply calm_all_quiet]. }
  clear h Hw Hb. intros [lease|] res2 h [Hw Hb].
  2: { destruct (ut_awaiting u) eqn:Ha.
       - apply runs_refused. by apply awaiting_told.
       - apply runs_call_quiet; [hush|]. intros [] l Hl%(working_quiet _ _ _ Hw).
         apply runs_refused. apply stopped_told; [apply Hw|]. destruct (ut_mode u) as [|offset] eqn:Em; cbn; [apply Hl|].
         pose proof (working_running _ _ Hl Ha) as Hj. unfold ut_initial_offset in Hj. rewrite Em in Hj. by apply Hj. }
  eapply (runs_look _ _ _ _ (λ _, Forall calm)).
  { change (emits calm (space_confirmed min_free_space (with_lease u lease) : Up Env bool)).
    unfold space_confirmed, check_space. apply emits_bind; [by apply emits_call|]. intros. apply emits_ret. }
  intros enough l Hl. apply (begun_calm _ _ Hb) in Hl as Hb2. apply calm_all_quiet, (working_quiet _ _ _ Hw) in Hl.
  apply (working_lease _ lease) in Hl. generalize dependent (with_lease u lease).
  generalize dependent (h ++ l). clear h l Hw Hb res u lease. intros h Hb u Hw. destruct enough; cbn [negb].
  - eapply runs_proceed; [apply gate_runs; [done|apply Hw|done]|]. intros [] res ? (l & -> & Hl).
    apply (begun_calm _ _ Hb) in Hl as Hb2. apply calm_all_quiet, (working_quiet _ _ _ Hw) in Hl.
    eapply runs_proceed; [by apply begin_begun|]. intros [] res3 ? [-> _]. apply runs_finished.
    apply working_quiet; [done|by repeat constructor].
  - destruct (ut_awaiting u) eqn:Ha.
    + apply runs_refused. by apply awaiting_told.
    + eapply runs_proceed; [by apply begin_begun|]. intros [] res3 ? [-> _].
      apply runs_refused, space_failure_runs; [|done].
      apply working_quiet; [done|by repeat constructor].
Qed.

Lemma open_stage_runs res h options path stage owner target checkpoint remaining :
  uo_upload_id options = id -> upload_session_key owner (uo_upload_id options) = key ->
  resuming options checkpoint h ->
  runs res h (open_stage sha256 to_string_lossy room fs min_free_space cleanup options path stage owner target
                checkpoint remaining)
    (goes (λ x h', working x.1 h' /\ begun h')).
Proof.
  intros Hi Hk Hr. unfold open_stage. destruct (mode_offset (uo_mode options)) as [offset|] eqn:Ho.
  - destruct checkpoint as [checkpoint|]; [|apply runs_broken].
    eapply runs_proceed; [by apply resume_runs|]. intros file res2 h2 [Hb Ha]. apply runs_finished.
    split; [|done]. split; [apply Hb|done].
  - destruct checkpoint as [checkpoint|].
    { destruct Hr as [_ (s & _ & _ & _ & _ & E)]. congruence. }
    eapply runs_proceed; [apply create_fresh_runs; [done|apply Hr]|]. intros [[file created] lease] res2 h2 [Hb Hm].
    eapply runs_proceed; [by apply record_fresh_runs|]. intros [] res3 h3 Hb3. apply runs_finished.
    split; [|done]. split; [apply Hb3|]. split; [|done]. apply Hr.
Qed.

Lemma prepare_runs res path options len :
  uo_upload_id options = id -> upload_session_key (owner_persistent sha256 (uo_owner options)) id = key ->
  runs res [] (prepare_upload sha256 to_string_lossy room fs attributes_bytes min_free_space max_upload_size cleanup
                 path options len) (goes working).
Proof.
  intros Hi Hk. unfold prepare_upload.
  eapply (runs_then _ _ _ _ (λ _ _ h, h = [])); [by apply runs_respond|]. intros [] res1 ? ->.
  eapply runs_proceed; [apply deadline_before_runs; [done|by apply calm_not_started; constructor]|]. intros [] res2 ? ->.
  apply runs_pure. intros stage Hs. eapply runs_call; [apply lookup_spec|]. intros looked_up l [Hl Hfound].
  assert (Hc : Forall calm (([] ++ [Expired false]) ++ l)) by (cbn; by constructor).
  set (h := ([] ++ [Expired false]) ++ l) in *.
  eapply (runs_proceed _ _ _ _ (λ record h', h' = h /\ forall checkpoint, record = Some checkpoint ->
    exists session, loaded key session h /\ checkpoint = upload_checkpoint session)).
  { destruct looked_up as [| |checkpoint]; [by apply runs_finished| |].
    - apply refuse_told; [done|]. by apply calm_all_untouched.
    - apply runs_finished. split; [done|]. intros ? [= <-]. destruct (Hfound _ eq_refl) as (session & Hls & ->).
      exists session. split; [|done]. rewrite <-Hk, <-Hi. unfold loaded, h in *. set_solver. }
  clearbody h. clear Hfound Hl l. intros record res3 ? [-> Hrec].
  eapply (runs_proceed _ _ _ _ (λ _, looking record)).
  { destruct record as [checkpoint|].
    - destruct (Hrec _ eq_refl) as (session & Hls & ->).
      eapply runs_weaken; [by apply check_record_runs|]. intros [[]|] res4 h4; [|done]. intros [-> Hs4].
      split; [done|]. intros ? [= <-]. by exists session.
    - case_match; [apply refuse_told; [done|by apply calm_all_untouched]|]. apply runs_finished. by split. }
  clear h Hc Hrec. intros [] res4 h Hl.
  eapply (runs_proceed _ _ _ _ (λ _, looking record)).
  { case_match; [|by apply runs_finished]. eapply runs_proceed; [by apply track_resumed_runs|]. intros [] res5 h5 Hl5.
    eapply runs_weaken; [apply deadline_before_runs; [done|by eapply looking_idle]|]. intros [[]|] res6 h6; [|done].
    intros ->. apply looking_app; [done|by repeat constructor]. }
  clear h Hl. intros [] res5 h Hl. eapply runs_proceed; [by apply check_target_runs|].
  clear h Hl. intros target res6 h Hl. eapply runs_proceed; [apply deadline_before_runs; [done|exact (looking_idle _ _ Hl)]|].
  intros [] res7 ? ->. apply (looking_app _ _ [Expired false]) in Hl; [|by repeat constructor].
  eapply runs_proceed; [by apply check_checkpoint_runs|]. intros checkpoint res8 h8 Hr.
  eapply runs_proceed; [by apply check_body_runs|]. intros remaining res9 ? ->.
  eapply runs_proceed; [apply open_stage_runs; [done|by rewrite Hi|done]|]. intros [u reserved] res10 h10 [Hw Hb]. cbn in Hw.
  eapply runs_proceed; [apply gate_runs; [done|apply Hw|done]|]. intros [] res11 ? (l & -> & Hcl).
  apply reserve_runs; [done| |by apply begun_calm]. apply working_quiet; [done|by apply calm_all_quiet].
Qed.

Lemma handle_runs res path options len body :
  uo_upload_id options = id -> upload_session_key (owner_persistent sha256 (uo_owner options)) id = key ->
  runs res [] (handle_upload sha256 to_string_lossy room fs attributes_bytes min_free_space max_upload_size cleanup
                 publish path options len body) (λ _, told).
Proof.
  intros Hi Hk. unfold handle_upload.
  set (m := then_do (prepare_upload _ _ _ _ _ _ _ _ _ _ _) _).
  assert (Hm : runs res [] m (λ _, told)).
  { eapply runs_then; [by apply prepare_runs|]. intros [u|] res' h Hu; [by apply transfer_runs|by apply runs_finished]. }
  eapply spec_bind; [exact Hm|]. intros [[[]|error] res'] l Hl.
  - apply spec_ret. intros [] _. rewrite app_nil_r. by apply (Hl tt).
  - match goal with |- spec (?next res') _ => assert (Hn : runs res' l next (λ _, told)) end.
    + unfold apply_upload_record_store_problem. destruct error as [error|[]|error|failure]; try apply runs_broken.
      all: eapply runs_then; [eapply runs_then; [by apply problem_told|intros [] ? ? Ht; by apply (runs_finished _ _ _ (λ _, told))]|].
      all: intros answered ? ? Ht; destruct answered; [by apply runs_finished|apply runs_broken].
    + eapply spec_weaken; [exact Hn|]. done.
Qed.
End answers.

(** C10: Whatever the kernel, the session store, the clock and the client do, an
    upload request that is answered at all has worked on its own stage only (the
    file at the place that its target and identifier determine, see [own_work]),
    and is answered with a state the log justifies: [running] with the offset that
    the session was loaded with or that was saved after the stage had reached the
    disk; [awaiting-confirmation] with such an offset or the declared length of such
    a session; [committed] only for a session found committed, or after this
    upload's own rename succeeded, was made durable and was recorded; [rejected],
    [not-seen], [running], [awaiting-confirmation] and [not-started] only while no
    rename to the target has succeeded, and [not-started] - if the boundary of the
    mutation is crossed only once - while nothing at all was changed; [unknown]
    claims nothing.  A clock that says that the deadline has passed and later that
    it has not voids the claim about the state. *)
Theorem upload_answers_truthfully `{Os Env} `{FileOs Env} `{UploadHost Env} `{UuidLib} `{HttpTypes}
    sha256 to_string_lossy room fs attributes_bytes min_free_space max_upload_size cleanup publish res path options
    len body :
  runs res [] (handle_upload (Env := Env) sha256 to_string_lossy room fs attributes_bytes min_free_space
                 max_upload_size cleanup publish path options len body)
    (λ _ res' l, own_work sha256 to_string_lossy fs path (uo_upload_id options) l /\
      told (uo_upload_id options)
        (upload_session_key (owner_persistent sha256 (uo_owner options)) (uo_upload_id options)) res' l).
Proof.
  eapply spec_weaken; [apply spec_and; [apply handle_upload_own_work|by apply handle_runs]|].
  intros x l [Ho Ht] a E. split; [done|by apply (Ht a)].
Qed.
