(* ===== verification/PurgeWorker.v ===== *)
(** The background worker that removes trash, and the reconciler of purge
    intents whose delete was interrupted ([src/src/server/purge.rs]).

    The worker's loop has no end, so it is modelled by its steps: one iteration
    of the loop it is in.  The store, the channel of signals, the clock, the
    shutdown flag and the blocking pool answer as they like; every interaction
    is logged. *)

From S2P Require Import Prelude Bytes StdPath StoreModel UuidText InternalNames Problem Registry Revisions Listing PathKeys RootedOs RootedFs RootedPurge UploadHost UploadRecords.
From stdpp Require Import base numbers list strings.

Local Open Scope Z_scope.

Definition DELETE_PURGE_SIGNAL_CAPACITY : nat := 64.
Definition DELETE_PURGE_ACTIVE_CAPACITY : nat := 64.
Definition DELETE_PURGE_RECONCILE_LIMIT : Z := 4096.
(** Durations in milliseconds. *)
Definition DELETE_PURGE_RECONCILE_INTERVAL : Z := 1000.
Definition DELETE_PURGE_IDLE_POLL : Z := 1000.
Definition DELETE_PURGE_SLICE_ENTRIES : Z := 256.
Definition DELETE_PURGE_RETRY_BASE : Z := 100.
Definition DELETE_PURGE_RETRY_MAX : Z := 30 * 1000.

Inductive PurgeSignal := Wake | Orphan (entry : TrashEntry).

Record PurgeWork := mkWork { pw_job : StoredPurgeJob; pw_entry : TrashEntry }.
Inductive PurgeTask := DurableTask (work : PurgeWork) | OrphanTask (entry : TrashEntry).

(** [anyhow::Error]. *)
Inductive PurgeFault := PurgeIo (error : IoError) | PurgeMessage (message : bytes).

Record ClaimedPurgeFailure := mkFailure { cf_job : StoredPurgeJob; cf_source : PurgeFault }.
Inductive PurgeWorkResult := WorkComplete | WorkPending (work : PurgeWork) | WorkRetry (failure : ClaimedPurgeFailure).
Record ClaimedPurgeRetry := mkRetry {
  cr_due : Z;
  cr_job : StoredPurgeJob;
  cr_local_failures : Z
}.

(** ** The channel of signals

    [mpsc::channel(DELETE_PURGE_SIGNAL_CAPACITY)]: what is in it, and whether
    the receiver is still there. *)
Record PurgeQueue := mkQueue { pq_signals : list PurgeSignal; pq_open : bool }.

Definition new_purge_queue : PurgeQueue := mkQueue [] true.

(** [None] where the channel is full or closed. *)
Definition try_send (queue : PurgeQueue) (signal : PurgeSignal) : option PurgeQueue :=
  if pq_open queue && Nat.ltb (length (pq_signals queue)) DELETE_PURGE_SIGNAL_CAPACITY
  then Some (mkQueue (pq_signals queue ++ [signal]) true) else None.

(** A wakeup that does not fit is dropped: the store is polled anyway. *)
Definition notify (queue : PurgeQueue) : PurgeQueue := default queue (try_send queue Wake).

(** An orphan that does not fit goes back to the caller. *)
Definition try_schedule (queue : PurgeQueue) (entry : TrashEntry) : result TrashEntry unit * PurgeQueue :=
  match try_send queue (Orphan entry) with
  | Some queue => (Ok tt, queue)
  | None => (Err entry, queue)
  end.

(** ** The world *)

Inductive Received := Got (signal : PurgeSignal) | NothingYet | Disconnected.
(** The branches of the final [select!]. *)
Inductive Woken := WokenByShutdown | WokenBySignal (signal : option PurgeSignal) | WokenByTimer.

Inductive PurgeEvent :=
| PKernel (call : SysCall)
(** [shutdown.is_cancelled()] *)
| IsCancelled (answer : bool)
(** [receiver.try_recv()] *)
| TryRecv (answer : Received)
(** the final [select!]: with the receiver, or without it while the worker is
    full *)
| WaitSignal (delay : Z) (answer : Woken)
| WaitTimer (delay : Z) (answer : bool)
(** [Instant::now()], in milliseconds *)
| Now (answer : Z)
(** the blocking pool, asked to run a slice *)
| RunSlice (answer : option IoError)
| ClaimDue (answer : result bytes (option StoredPurgeJob))
| LoadJob (key : PurgeJobKey) (answer : result bytes (option StoredPurgeJob))
| CompleteJob (key : PurgeJobKey) (answer : result bytes bool)
| RetryJob (key : PurgeJobKey) (delay : Z) (answer : result bytes bool)
| RemoveJob (key : PurgeJobKey) (answer : result bytes bool)
| PreparedJobs (limit : Z) (answer : result bytes (list StoredPurgeJob))
| AcquirePaths (paths : list bytes)
| ReleasePaths (paths : list bytes).

Class PurgeHost (Env : Type) := {
  ph_cancelled : Env -> bool * Env;
  ph_try_recv : Env -> Received * Env;
  ph_wait_signal : Z -> Env -> Woken * Env;
  ph_wait_timer : Z -> Env -> bool * Env;
  ph_now : Env -> Z * Env;
  ph_run_slice : Env -> option IoError * Env;
  ph_claim : Env -> result bytes (option StoredPurgeJob) * Env;
  ph_load : PurgeJobKey -> Env -> result bytes (option StoredPurgeJob) * Env;
  ph_complete : PurgeJobKey -> Env -> result bytes bool * Env;
  ph_retry : PurgeJobKey -> Z -> Env -> result bytes bool * Env;
  ph_remove : PurgeJobKey -> Env -> result bytes bool * Env;
  ph_prepared : Z -> Env -> result bytes (list StoredPurgeJob) * Env;
  ph_acquire : list bytes -> Env -> unit * Env;
  ph_release : list bytes -> Env -> unit * Env
}.

Abbreviation Pw := (Prog PurgeEvent).
Abbreviation PwRes Env A := (Pw Env (result PurgeFault A)).

Definition purge_store {A} (r : result bytes A) : result PurgeFault A :=
  match r with Ok a => Ok a | Err m => Err (PurgeMessage m) end.
Definition purge_io {A} (r : result IoError A) : result PurgeFault A :=
  match r with Ok a => Ok a | Err e => Err (PurgeIo e) end.

(** ** Retries *)

Definition purge_retry_delay (failures : Z) : Z :=
  let exponent := Z.min (Z.max 0 (failures - 1)) 16 in
  Z.min (DELETE_PURGE_RETRY_BASE * Z.shiftl 1 exponent) DELETE_PURGE_RETRY_MAX.

Definition u32_saturating_add (a b : Z) : Z := Z.min (a + b) u32_max.

(** [retries.insert(position, retry)], before the first one that is due later. *)
Fixpoint insert_retry (retry : ClaimedPurgeRetry) (retries : list ClaimedPurgeRetry) : list ClaimedPurgeRetry :=
  match retries with
  | [] => [retry]
  | queued :: rest =>
      if cr_due retry <? cr_due queued then retry :: queued :: rest else queued :: insert_retry retry rest
  end.

Definition purge_identity_matches (identity : DeleteIdentity) (job : StoredPurgeJob) : bool :=
  (di_device identity =? StoreModel.fi_device (pj_source_identity job)) &&
  (di_inode identity =? StoreModel.fi_inode (pj_source_identity job)) &&
  Bool.eqb (di_is_directory identity) (pj_is_directory job).

(** ** The worker *)

(** Where the loop is: before the check for a shutdown, in the loop that takes
    signals, at the retry that is due, in the loop that claims jobs, at the task
    in front. *)
Inductive Phase := Checking | Receiving | Retrying | Claiming | Working.

Record Worker := mkWorker {
  wk_phase : Phase;
  wk_pending : list PurgeTask;
  wk_retries : list ClaimedPurgeRetry
}.

Definition initial_worker : Worker := mkWorker Checking [] [].

(** [pending.len() + claimed_retries.len() < DELETE_PURGE_ACTIVE_CAPACITY]. *)
Definition has_room (w : Worker) : bool :=
  Nat.ltb (length (wk_pending w) + length (wk_retries w)) DELETE_PURGE_ACTIVE_CAPACITY.

Definition at_phase (phase : Phase) (w : Worker) : Worker := mkWorker phase (wk_pending w) (wk_retries w).
Definition push_task (w : Worker) (task : PurgeTask) : Worker :=
  mkWorker (wk_phase w) (wk_pending w ++ [task]) (wk_retries w).
Definition set_retries (w : Worker) (retries : list ClaimedPurgeRetry) : Worker :=
  mkWorker (wk_phase w) (wk_pending w) retries.

Section worker.
Context {Env : Type} `{Os Env} `{PurgeHost Env} `{UuidLib}.
Context (sha256 : bytes -> bytes) (room : nat -> bool) (fs : RootedFs).

Definition pkernel {A} (m : Sys Env A) : Pw Env A := lifted PKernel m.
Definition pio {A} (m : Io Env A) : PwRes Env A := do r <- pkernel m; ret (purge_io r).

Definition is_cancelled : Pw Env bool := syscall ph_cancelled IsCancelled.
Definition try_recv : Pw Env Received := syscall ph_try_recv TryRecv.
Definition now : Pw Env Z := syscall ph_now Now.
Definition run_slice : Pw Env (option IoError) := syscall ph_run_slice RunSlice.
Definition claim_due_purge_job : PwRes Env (option StoredPurgeJob) :=
  do r <- syscall ph_claim ClaimDue; ret (purge_store r).
Definition purge_job key : PwRes Env (option StoredPurgeJob) :=
  do r <- syscall (ph_load key) (LoadJob key); ret (purge_store r).
Definition complete_purge_job key : PwRes Env bool :=
  do r <- syscall (ph_complete key) (CompleteJob key); ret (purge_store r).
Definition retry_purge_job key delay : PwRes Env bool :=
  do r <- syscall (ph_retry key delay) (RetryJob key delay); ret (purge_store r).
Definition remove_purge_job key : PwRes Env bool :=
  do r <- syscall (ph_remove key) (RemoveJob key); ret (purge_store r).

Definition schedule_claimed_purge_retry (retries : list ClaimedPurgeRetry) (failure : ClaimedPurgeFailure)
    (local_failures : Z) : Pw Env (list ClaimedPurgeRetry) :=
  let local_failures := Z.max local_failures 1 in
  do time <- now;
  ret (insert_retry (mkRetry (time + purge_retry_delay local_failures) (cf_job failure) local_failures) retries).

(** ** One job *)

Definition state_path (relative : bytes) : result PurgeFault bytes := purge_io (resolve_stored_path fs relative).

Definition quarantine_claimed_purge_job (job : StoredPurgeJob) : PwRes Env unit :=
  attempt trash <- ret (state_path (pj_trash_path job));
  attempt _ <- pio (quarantine_internal_trash fs trash);
  attempt completed <- complete_purge_job (pj_key job);
  ret (if completed : bool then Ok tt
       else Err (PurgeMessage (bs "claimed purge job was lost before quarantine completion"))).

Definition defer_purge_job (job : StoredPurgeJob) : PwRes Env unit :=
  let failures := u32_saturating_add (pj_attempts job) 1 in
  attempt retried <- retry_purge_job (pj_key job) (purge_retry_delay failures);
  ret (if retried : bool then Ok tt
       else Err (PurgeMessage (bs "claimed purge job was lost before retry scheduling"))).

(** [Err(source) => Err(ClaimedPurgeFailure::new(job, source))]. *)
Definition or_failure {A B} (job : StoredPurgeJob) (r : result PurgeFault A) (value : B)
    : result ClaimedPurgeFailure B :=
  match r with Ok _ => Ok value | Err source => Err (mkFailure job source) end.

(** Doubtful entries are set aside, others are tried again later. *)
Definition give_back (job : StoredPurgeJob) (error : IoError) : PwRes Env unit :=
  if bool_decide (io_kind error = InvalidData) then quarantine_claimed_purge_job job else defer_purge_job job.

Definition open_purge_work (job : StoredPurgeJob) : Pw Env (result ClaimedPurgeFailure (option PurgeWork)) :=
  match state_path (pj_trash_path job) with
  | Err source => fail (mkFailure job source)
  | Ok trash_path =>
      match pj_trash_revision job with
      | None => do r <- quarantine_claimed_purge_job job; ret (or_failure job r None)
      | Some trash_revision =>
          do captured <- pkernel (capture_entry_for_purge_with_revision sha256 fs trash_path
            (pj_is_directory job) trash_revision);
          match captured with
          | Ok (Some entry) =>
              if purge_identity_matches (te_identity entry) job then ok (Some (mkWork job entry))
              else do r <- quarantine_claimed_purge_job job; ret (or_failure job r None)
          | Ok None => do r <- complete_purge_job (pj_key job); ret (or_failure job r None)
          | Err error => do r <- give_back job error; ret (or_failure job r None)
          end
      end
  end.

Definition retry_claimed_purge_work (job : StoredPurgeJob)
    : Pw Env (result ClaimedPurgeFailure (option PurgeWork)) :=
  do loaded <- purge_job (pj_key job);
  match loaded with
  | Ok (Some current) =>
      if bool_decide (pj_state current = PClaimed) then open_purge_work current else ok None
  | Ok None => ok None
  | Err source => fail (mkFailure job source)
  end.

Definition process_purge_work (work : PurgeWork) : Pw Env PurgeWorkResult :=
  do gate <- run_slice;
  do purged <- pkernel (purge_slice sha256 room gate (pw_entry work) DELETE_PURGE_SLICE_ENTRIES);
  match purged with
  | Ok Complete =>
      do r <- complete_purge_job (pj_key (pw_job work));
      ret (match r with Ok _ => WorkComplete | Err source => WorkRetry (mkFailure (pw_job work) source) end)
  | Ok (Pending entry) => ret (WorkPending (mkWork (pw_job work) entry))
  | Err error =>
      do r <- give_back (pw_job work) (tpe_source error);
      ret (match r with Ok _ => WorkComplete | Err source => WorkRetry (mkFailure (pw_job work) source) end)
  end.

(** ** The loop *)

(** An opened job goes to the back of the queue, a failed one is kept for a
    retry. *)
Definition opened (w : Worker) (r : result ClaimedPurgeFailure (option PurgeWork)) (local_failures : Z)
    : Pw Env Worker :=
  match r with
  | Ok (Some work) => ret (push_task w (DurableTask work))
  | Ok None => ret w
  | Err failure =>
      do retries <- schedule_claimed_purge_retry (wk_retries w) failure local_failures;
      ret (set_retries w retries)
  end.

Definition retry_due (w : Worker) : Pw Env Worker :=
  match wk_retries w with
  | retry :: rest =>
      if Nat.ltb (length (wk_pending w)) DELETE_PURGE_ACTIVE_CAPACITY then
        do time <- now;
        if cr_due retry <=? time then
          do r <- retry_claimed_purge_work (cr_job retry);
          opened (set_retries w rest) r (u32_saturating_add (cr_local_failures retry) 1)
        else ret w
      else ret w
  | [] => ret w
  end.

Definition process_task (w : Worker) (task : PurgeTask) : Pw Env Worker :=
  match task with
  | DurableTask work =>
      do r <- process_purge_work work;
      match r with
      | WorkComplete => ret w
      | WorkPending work => ret (push_task w (DurableTask work))
      | WorkRetry failure =>
          do retries <- schedule_claimed_purge_retry (wk_retries w) failure 1;
          ret (set_retries w retries)
      end
  | OrphanTask entry =>
      do gate <- run_slice;
      do purged <- pkernel (purge_slice sha256 room gate entry DELETE_PURGE_SLICE_ENTRIES);
      ret (match purged with Ok (Pending entry) => push_task w (OrphanTask entry) | _ => w end)
  end.

(** The final [select!]; [None] is the end of the worker. *)
Definition wait_for_work (w : Worker) : Pw Env (option Worker) :=
  do delay <-
    (match wk_retries w with
     | retry :: _ => do time <- now; ret (Z.max 0 (cr_due retry - time))
     | [] => ret DELETE_PURGE_IDLE_POLL
     end);
  let delay := Z.min delay DELETE_PURGE_IDLE_POLL in
  if has_room w then
    do woken <- syscall (ph_wait_signal delay) (WaitSignal delay);
    ret (match woken with
         | WokenByShutdown | WokenBySignal None => None
         | WokenBySignal (Some Wake) | WokenByTimer => Some w
         | WokenBySignal (Some (Orphan entry)) => Some (push_task w (OrphanTask entry))
         end)
  else
    do shutdown <- syscall (ph_wait_timer delay) (WaitTimer delay);
    ret (if shutdown : bool then None else Some w).

(** One iteration of the loop the worker is in. *)
Definition worker_step (w : Worker) : Pw Env (option Worker) :=
  match wk_phase w with
  | Checking => do stop <- is_cancelled; ret (if stop : bool then None else Some (at_phase Receiving w))
  | Receiving =>
      if has_room w then
        do received <- try_recv;
        ret (match received with
             | Got Wake => Some w
             | Got (Orphan entry) => Some (push_task w (OrphanTask entry))
             | NothingYet => Some (at_phase Retrying w)
             | Disconnected => None
             end)
      else ret (Some (at_phase Retrying w))
  | Retrying => do w <- retry_due w; ret (Some (at_phase Claiming w))
  | Claiming =>
      if has_room w then
        do stop <- is_cancelled;
        if stop : bool then ret None
        else
          do claimed <- claim_due_purge_job;
          match claimed with
          | Ok (Some job) => do r <- open_purge_work job; do w <- opened w r 1; ret (Some w)
          | _ => ret (Some (at_phase Working w))
          end
      else ret (Some (at_phase Working w))
  | Working =>
      match wk_pending w with
      | task :: rest => do w <- process_task (mkWorker Checking rest (wk_retries w)) task; ret (Some w)
      | [] => wait_for_work (at_phase Checking w)
      end
  end.

(** The first [n] steps of [run_purge_worker]. *)
Fixpoint run_purge_worker (n : nat) (w : Worker) : Pw Env (option Worker) :=
  match n with
  | O => ret (Some w)
  | S n => do next <- worker_step w; match next with Some w => run_purge_worker n w | None => ret None end
  end.

(** ** Interrupted deletes *)

Definition delete_identity_if_present (path : bytes) : Io Env (option DeleteIdentity) :=
  do found <- read_delete_identity fs path;
  match found with
  | Ok identity => ok (Some identity)
  | Err error => if missing_kind error then ok None else fail error
  end.

(** Under the lease on target and trash. *)
Definition reconcile_locked (key : PurgeJobKey) (trash : bytes) : PwRes Env unit :=
  attempt found <- purge_job key;
  match found with
  | None => ok tt
  | Some job =>
      if negb (bool_decide (pj_state job = PPrepared)) then ok tt
      else
        attempt trash_identity <- pio (delete_identity_if_present trash);
        attempt _ <-
          (match trash_identity with
           | Some _ => attempt _ <- pio (quarantine_internal_trash fs trash); ok tt
           | None => ok tt
           end);
        attempt _ <- remove_purge_job (pj_key job);
        ok tt
  end.

Definition reconcile_prepared_purge_job (job : StoredPurgeJob) : PwRes Env unit :=
  attempt target <- ret (state_path (pj_target_path job));
  attempt trash <- ret (state_path (pj_trash_path job));
  do _ <- syscall (ph_acquire [target; trash]) (λ _, AcquirePaths [target; trash]);
  do r <- reconcile_locked (pj_key job) trash;
  do _ <- syscall (ph_release [target; trash]) (λ _, ReleasePaths [target; trash]);
  ret r.

Fixpoint reconcile_jobs (jobs : list StoredPurgeJob) : Pw Env unit :=
  match jobs with
  | [] => ret tt
  | job :: jobs =>
      do stop <- is_cancelled;
      if stop : bool then ret tt else do _ <- reconcile_prepared_purge_job job; reconcile_jobs jobs
  end.

Definition reconcile_prepared_purge_jobs : PwRes Env unit :=
  do found <- syscall (ph_prepared DELETE_PURGE_RECONCILE_LIMIT) (PreparedJobs DELETE_PURGE_RECONCILE_LIMIT);
  attempt jobs <- ret (purge_store found);
  do _ <- reconcile_jobs jobs;
  ok tt.

(** One round of the reconciler's loop; the answer tells whether it ends. *)
Definition reconciler_round : Pw Env bool :=
  do stop <- is_cancelled;
  if stop : bool then ret true
  else
    do _ <- reconcile_prepared_purge_jobs;
    syscall (ph_wait_timer DELETE_PURGE_RECONCILE_INTERVAL) (WaitTimer DELETE_PURGE_RECONCILE_INTERVAL).

(** The first [n] rounds. *)
Fixpoint run_prepared_purge_reconciler (n : nat) : Pw Env bool :=
  match n with
  | O => ret false
  | S n => do stop <- reconciler_round; if stop : bool then ret true else run_prepared_purge_reconciler n
  end.

Definition reconcile_prepared_purge_key (key : PurgeJobKey) : Pw Env unit :=
  do loaded <- purge_job key;
  match loaded with
  | Ok (Some job) =>
      if bool_decide (pj_state job = PPrepared) then do _ <- reconcile_prepared_purge_job job; ret tt else ret tt
  | _ => ret tt
  end.
End worker.
