(* ===== verification/PurgeWorkerFacts.v ===== *)
(** What the purge worker guarantees for as long as it runs: it only removes
    pinned trash, never holds more than its capacity, and never loses a job it
    has claimed. *)

From S2P Require Import Prelude Bytes StdPath StoreModel UuidText InternalNames Problem Registry Revisions Listing PathKeys RootedOs RootedFs RootedFsSafety RootedPurge RootedPurgeFacts UploadHost UploadRecords PurgeWorker.
From stdpp Require Import base numbers list strings sets sorting.

Local Open Scope Z_scope.

Definition kernel_calls : list PurgeEvent -> list SysCall := omap (λ e,
  match e with PKernel c => Some c | _ => None end).

Lemma kernel_calls_app l k : kernel_calls (l ++ k) = kernel_calls l ++ kernel_calls k.
Proof. apply omap_app. Qed.
Lemma kernel_calls_kernel calls : kernel_calls (map PKernel calls) = calls.
Proof. induction calls as [|c calls IH]; [done|]. cbn. by f_equal. Qed.

(** This event ends the worker's duty for the job: it is completed, scheduled
    for later, or not claimed any more. *)
Definition settles (key : PurgeJobKey) (e : PurgeEvent) : Prop :=
  match e with
  | CompleteJob k (Ok _) | RetryJob k _ (Ok true) | LoadJob k (Ok None) => k = key
  | LoadJob k (Ok (Some job)) => k = key /\ pj_state job <> PClaimed
  | _ => False
  end.

(** A job was claimed and is not settled since. *)
Definition unsettled (key : PurgeJobKey) (h : list PurgeEvent) : Prop :=
  exists before job after, h = before ++ ClaimDue (Ok (Some job)) :: after /\ pj_key job = key /\
    Forall (λ e, ~ settles key e) after.

(** The store answers a lookup with the job that was asked for. *)
Definition keyed (h : list PurgeEvent) : Prop :=
  forall key job, LoadJob key (Ok (Some job)) ∈ h -> pj_key job = key.

Definition task_key (task : PurgeTask) : option PurgeJobKey :=
  match task with DurableTask work => Some (pj_key (pw_job work)) | OrphanTask _ => None end.

(** The jobs the worker still knows. *)
Definition held (w : Worker) : list PurgeJobKey :=
  omap task_key (wk_pending w) ++ map (λ r, pj_key (cr_job r)) (wk_retries w).

Definition accounts (keys : list PurgeJobKey) (h : list PurgeEvent) : Prop :=
  keyed h -> forall key, unsettled key h -> key ∈ keys.

Definition fits (w : Worker) : Prop :=
  (length (wk_pending w) + length (wk_retries w) <= DELETE_PURGE_ACTIVE_CAPACITY)%nat.
Definition in_order (w : Worker) : Prop := StronglySorted Z.le (map cr_due (wk_retries w)).

Definition claims (e : PurgeEvent) : bool := match e with ClaimDue (Ok (Some _)) => true | _ => false end.

Section orderly.
Context `{UuidLib}.

(** Events that claim nothing and only tidy up. *)
Definition orderly (l : list PurgeEvent) : Prop :=
  tidy (kernel_calls l) /\ Forall (λ e, claims e = false) l.

Lemma orderly_app l k : orderly l -> orderly k -> orderly (l ++ k).
Proof.
  intros [H1 H2] [H3 H4]. split; [rewrite kernel_calls_app; by apply tidy_app|by apply Forall_app].
Qed.
Lemma orderly_nil : orderly [].
Proof. split; constructor. Qed.
Lemma orderly_cons e l :
  claims e = false -> match e with PKernel _ => False | _ => True end -> orderly l -> orderly (e :: l).
Proof. intros Hc He [H1 H2]. split; [by destruct e|by constructor]. Qed.
Lemma orderly_kernel calls : tidy calls -> orderly (map PKernel calls).
Proof.
  intros Hc. split; [by rewrite kernel_calls_kernel|]. apply Forall_forall.
  intros e (c & -> & _)%list_elem_of_fmap. done.
Qed.

End orderly.

Lemma keyed_app h l : keyed (h ++ l) <-> keyed h /\ keyed l.
Proof. unfold keyed. set_solver. Qed.

Lemma unsettled_app key h l :
  Forall (λ e, claims e = false) l -> unsettled key (h ++ l) ->
  unsettled key h /\ Forall (λ e, ~ settles key e) l.
Proof.
  intros Hl (before & job & after & E & Hk & Ha). apply app_eq_inv in E as [(k & -> & E)|(k & -> & E)].
  - destruct k as [|e k]; cbn in E.
    + subst l. by apply Forall_cons in Hl as [Hl _].
    + injection E as <- ->. apply Forall_app in Ha as [Ha Hl']. split; [|done]. by exists before, job, k.
  - subst l. apply Forall_app in Hl as [_ Hl]. by apply Forall_cons in Hl as [Hl _].
Qed.

(** ** One job *)

Section jobs.
Context {Env : Type} `{Os Env} `{PurgeHost Env} `{UuidLib}.
Context (sha256 : bytes -> bytes) (room : nat -> bool) (fs : RootedFs).

(** The job of [key] is settled if the result says so. *)
Definition settled {A} (key : PurgeJobKey) (done : A -> bool) (r : A) (l : list PurgeEvent) : Prop :=
  orderly l /\ (done r = true -> Exists (settles key) l).
Definition is_ok {E A} (r : result E A) : bool := match r with Ok _ => true | Err _ => false end.

Lemma quarantine_tidy path : spec (quarantine_internal_trash fs path : Io Env _) (λ _ calls, tidy calls).
Proof.
  unfold quarantine_internal_trash. destruct (negb _); [by apply spec_ret; constructor|].
  apply spec_attempt_ret; [intros parent_path _|by constructor].
  eapply spec_bind_ok; [apply open_parent_reads| |intros e c Hc; by apply tidy_reads].
  intros parent c Hc. eapply spec_weaken; [|intros r l Hl; apply tidy_app; [by apply tidy_reads|exact Hl]].
  clear c Hc. generalize 16%nat as attempts. induction attempts as [|attempts IH]; cbn [quarantine_attempts].
  { apply spec_ret. constructor. }
  unfold sys_new_uuid, sys_renameat, sys_fsync. apply spec_bind_call. intros fresh. apply spec_bind_call. intros [[]|e].
  - apply spec_attempt_call; intros.
    + apply spec_ret. apply tidy_read; [done|]. apply tidy_rename, tidy_read; [done|constructor].
    + apply tidy_read; [done|]. apply tidy_rename, tidy_read; [done|constructor].
  - assert (Hgo : tidy
      [NewUuid fresh; Renameat (op_fd parent) (op_name parent) (op_fd parent) (quarantine_name fresh) true (Err e)]).
    { apply tidy_read; [done|]. apply tidy_rename. constructor. }
    case_match; [|case_match; apply spec_ret; by apply Hgo].
    eapply spec_weaken; [apply IH|]. intros r l Hl. apply tidy_read; [done|]. by apply tidy_rename.
Qed.

Lemma capture_tidy path directory revision :
  spec (capture_entry_for_purge_with_revision sha256 fs path directory revision : Io Env _) (λ _ calls, tidy calls).
Proof.
  eapply spec_weaken; [|intros r l; apply tidy_reads].
  change (emits reads (capture_entry_for_purge_with_revision sha256 fs path directory revision : Io Env _)).
  unfold capture_entry_for_purge_with_revision, capture_entry_for_purge_with_type_blocking, sys_openat, sys_fstat, sys_statat.
  repeat (emits_step || apply open_parent_reads).
Qed.

Lemma complete_settled key :
  spec (complete_purge_job key : PwRes Env bool) (settled key is_ok).
Proof.
  apply spec_bind_call. intros r. apply spec_ret. split; [by apply orderly_cons, orderly_nil|].
  destruct r; [intros _; by constructor|done].
Qed.

Lemma quarantine_settled job : spec (quarantine_claimed_purge_job fs job : PwRes Env unit) (settled (pj_key job) is_ok).
Proof.
  unfold quarantine_claimed_purge_job. apply spec_attempt_ret; [intros trash _|intros; split; [apply orderly_nil|done]].
  apply spec_bind_assoc. eapply spec_bind_lifted; [apply quarantine_tidy|]. intros r calls Hc%orderly_kernel.
  apply spec_bind_ret. destruct r as [moved|e]; cbn; [|apply spec_ret; rewrite app_nil_r; by split].
  eapply spec_bind_ok; [apply complete_settled| |].
  - intros completed l [Hl Hs]. apply spec_ret. rewrite app_nil_r. split; [by apply orderly_app|].
    intros _. apply Exists_app. right. by apply Hs.
  - intros e l [Hl _]. split; [by apply orderly_app|done].
Qed.

Lemma defer_settled job : spec (defer_purge_job job : PwRes Env unit) (settled (pj_key job) is_ok).
Proof.
  unfold defer_purge_job, retry_purge_job. apply spec_bind_assoc, spec_bind_call. intros r. apply spec_bind_ret.
  destruct r as [[]|m]; apply spec_ret; (split; [by apply orderly_cons, orderly_nil|]); try done. by constructor.
Qed.

Lemma give_back_settled job error : spec (give_back fs job error : PwRes Env unit) (settled (pj_key job) is_ok).
Proof. unfold give_back. case_match; [apply quarantine_settled|apply defer_settled]. Qed.

(** An opened job: it is settled, or the work or the failure is still about it. *)
Definition opens (key : PurgeJobKey) (r : result ClaimedPurgeFailure (option PurgeWork)) (l : list PurgeEvent) : Prop :=
  orderly l /\
  match r with
  | Ok None => Exists (settles key) l
  | Ok (Some work) => pj_key (pw_job work) = key
  | Err failure => pj_key (cf_job failure) = key
  end.

Lemma or_failure_opens job (r : result PurgeFault unit) l k :
  orderly k -> settled (pj_key job) is_ok r l -> opens (pj_key job) (or_failure job r None) (k ++ l).
Proof.
  intros Hk [Hl Hs]. split; [by apply orderly_app|]. destruct r; cbn; [|done]. apply Exists_app. right. by apply Hs.
Qed.

Lemma open_work_opens job : spec (open_purge_work sha256 fs job : Pw Env _) (opens (pj_key job)).
Proof.
  unfold open_purge_work. destruct (state_path fs (pj_trash_path job)) as [trash|source].
  2: { apply spec_ret. split; [apply orderly_nil|done]. }
  destruct (pj_trash_revision job) as [revision|].
  2: { eapply spec_bind; [apply quarantine_settled|]. intros r l Hl. apply spec_ret. rewrite app_nil_r.
       apply (or_failure_opens job r l []); [apply orderly_nil|done]. }
  eapply spec_bind_lifted; [apply capture_tidy|]. intros captured calls Hc%orderly_kernel.
  destruct captured as [[entry|]|error].
  - destruct (purge_identity_matches _ _).
    + apply spec_ret. rewrite app_nil_r. by split.
    + eapply spec_bind; [apply quarantine_settled|]. intros r l Hl. apply spec_ret. rewrite app_nil_r. by apply or_failure_opens.
  - eapply spec_bind; [apply complete_settled|]. intros r l [Hl Hs]. apply spec_ret. rewrite app_nil_r.
    split; [by apply orderly_app|]. destruct r; cbn; [|done]. apply Exists_app. right. by apply Hs.
  - eapply spec_bind; [apply give_back_settled|]. intros r l Hl. apply spec_ret. rewrite app_nil_r. by apply or_failure_opens.
Qed.

Lemma retry_work_opens job :
  spec (retry_claimed_purge_work sha256 fs job : Pw Env _) (λ r l, orderly l /\ (keyed l -> opens (pj_key job) r l)).
Proof.
  unfold retry_claimed_purge_work, purge_job. apply spec_bind_assoc, spec_bind_call. intros loaded. apply spec_bind_ret.
  assert (Ho : orderly [LoadJob (pj_key job) loaded]) by by apply orderly_cons, orderly_nil.
  destruct loaded as [[current|]|m]; cbn [purge_store].
  - case_bool_decide as Hs.
    + eapply spec_weaken; [apply open_work_opens|]. intros r l [Hl Hr].
      assert (orderly (LoadJob (pj_key job) (Ok (Some current)) :: l)) as Ho' by by apply (orderly_app [_] l).
      split; [done|]. intros Hkey. assert (pj_key current = pj_key job) as E by (apply Hkey; set_solver). rewrite E in Hr.
      split; [done|]. destruct r as [[work|]|f]; [done| |done]. by apply Exists_cons_tl.
    + apply spec_ret. split; [done|]. intros _. split; [done|]. by constructor.
  - apply spec_ret. split; [done|]. intros _. split; [done|]. by constructor.
  - apply spec_ret. split; [done|]. intros _. by split.
Qed.

Lemma process_work_spec work :
  spec (process_purge_work sha256 room fs work : Pw Env _) (λ r l, orderly l /\
    match r with
    | WorkComplete => Exists (settles (pj_key (pw_job work))) l
    | WorkPending work' => pj_key (pw_job work') = pj_key (pw_job work)
    | WorkRetry failure => pj_key (cf_job failure) = pj_key (pw_job work)
    end).
Proof.
  unfold process_purge_work, run_slice. apply spec_bind_call. intros gate.
  eapply spec_bind_lifted; [apply purge_slice_tidy|]. intros purged calls Hc%orderly_kernel.
  assert (Ho : orderly (RunSlice gate :: map PKernel calls)) by by apply orderly_cons.
  assert (Hend : forall A (m : PwRes Env A), spec m (settled (pj_key (pw_job work)) is_ok) ->
    spec (do r <- m; ret (match r with Ok _ => WorkComplete | Err source => WorkRetry (mkFailure (pw_job work) source) end))
      (λ r l, orderly (RunSlice gate :: map PKernel calls ++ l) /\
        match r with
        | WorkComplete => Exists (settles (pj_key (pw_job work))) (RunSlice gate :: map PKernel calls ++ l)
        | WorkPending work' => pj_key (pw_job work') = pj_key (pw_job work)
        | WorkRetry failure => pj_key (cf_job failure) = pj_key (pw_job work)
        end)).
  { intros A m Hm. eapply spec_bind; [exact Hm|]. intros r l [Hl Hs]. apply spec_ret. rewrite app_nil_r.
    split; [by apply (orderly_app (_ :: _))|]. destruct r; [|done].
    apply (Exists_app _ (_ :: _)). right. by apply Hs. }
  destruct purged as [[|entry]|error].
  - apply Hend, complete_settled.
  - apply spec_ret. rewrite app_nil_r. by split.
  - apply Hend, give_back_settled.
Qed.
End jobs.

(** ** The loop *)

Lemma insert_retry_length retry retries : length (insert_retry retry retries) = S (length retries).
Proof. induction retries as [|q rest IH]; [done|]. cbn. case_match; cbn; [done|]. by rewrite IH. Qed.
Lemma insert_retry_elem retry retries x : x ∈ insert_retry retry retries <-> x = retry \/ x ∈ retries.
Proof.
  induction retries as [|q rest IH]; cbn; [set_solver|]. case_match; rewrite !elem_of_cons; [done|]. rewrite IH. tauto.
Qed.
Lemma insert_retry_sorted retry retries :
  StronglySorted Z.le (map cr_due retries) -> StronglySorted Z.le (map cr_due (insert_retry retry retries)).
Proof.
  induction retries as [|q rest IH]; cbn; [by repeat constructor|].
  intros Hs. apply StronglySorted_inv in Hs as [Hs Hq]. case_match; cbn.
  - constructor; [by constructor|]. constructor; [lia|]. eapply Forall_impl; [exact Hq|]. intros. cbn in *. lia.
  - constructor; [by apply IH|]. apply Forall_forall. intros d (x & -> & Hx)%list_elem_of_fmap.
    apply insert_retry_elem in Hx as [->|Hx]; [lia|].
    rewrite Forall_forall in Hq. apply Hq. apply list_elem_of_fmap. by exists x.
Qed.

Section loop.
Context {Env : Type} `{Os Env} `{PurgeHost Env} `{UuidLib}.
Context (sha256 : bytes -> bytes) (room : nat -> bool) (fs : RootedFs).

Definition load (w : Worker) : nat := length (wk_pending w) + length (wk_retries w).

Definition opened_key (r : result ClaimedPurgeFailure (option PurgeWork)) : option PurgeJobKey :=
  match r with
  | Ok None => None
  | Ok (Some work) => Some (pj_key (pw_job work))
  | Err failure => Some (pj_key (cf_job failure))
  end.

Lemma held_elem w key :
  key ∈ held w <->
  (exists work, DurableTask work ∈ wk_pending w /\ pj_key (pw_job work) = key) \/
  (exists r, r ∈ wk_retries w /\ pj_key (cr_job r) = key).
Proof.
  unfold held. rewrite elem_of_app, list_elem_of_omap, list_elem_of_fmap. split.
  - intros [([work|entry] & Ht & [= <-])|(r & -> & Hr)]; [left|right]; eauto.
  - intros [(work & Hw & <-)|(r & Hr & <-)]; [left; by exists (DurableTask work)|right; eauto].
Qed.

(** A retry is queued. *)
Lemma schedule_spec w failure n :
  spec (schedule_claimed_purge_retry (wk_retries w) failure n : Pw Env _) (λ retries l,
    orderly l /\ length retries = S (length (wk_retries w)) /\
    (in_order w -> StronglySorted Z.le (map cr_due retries)) /\
    (forall r, r ∈ wk_retries w -> r ∈ retries) /\ (exists r, r ∈ retries /\ cr_job r = cf_job failure)).
Proof.
  unfold schedule_claimed_purge_retry, now. apply spec_bind_call. intros time. apply spec_ret.
  split; [by apply orderly_cons, orderly_nil|]. split; [apply insert_retry_length|].
  split; [apply insert_retry_sorted|]. split.
  - intros r Hr. apply insert_retry_elem. by right.
  - eexists. split; [apply insert_retry_elem; by left|done].
Qed.

(** The worker after one of its jobs was dealt with. *)
Definition absorbs (w : Worker) (key : option PurgeJobKey) (w' : Worker) : Prop :=
  (load w' <= load w + 1)%nat /\ (in_order w -> in_order w') /\ (forall k, k ∈ held w -> k ∈ held w') /\
  (forall k, key = Some k -> k ∈ held w').

Lemma push_absorbs w task : absorbs w (task_key task) (push_task w task).
Proof.
  unfold absorbs, load, in_order. cbn [wk_pending wk_retries push_task set_retries]. split; [rewrite length_app; cbn; lia|]. split; [done|].
  split; intros k; rewrite !held_elem; cbn.
  - intros [(work & ? & ?)|?]; [left|by right]. exists work. set_solver.
  - destruct task as [work|entry]; [|done]. intros [= <-]. left. exists work. set_solver.
Qed.
Lemma retries_absorb w failure retries :
  length retries = S (length (wk_retries w)) -> (in_order w -> StronglySorted Z.le (map cr_due retries)) ->
  (forall r, r ∈ wk_retries w -> r ∈ retries) -> (exists r, r ∈ retries /\ cr_job r = cf_job failure) ->
  absorbs w (Some (pj_key (cf_job failure))) (set_retries w retries).
Proof.
  intros Hlen Hs Hsub (r & Hr & Hj). unfold absorbs, load, in_order. cbn [wk_pending wk_retries push_task set_retries]. split; [lia|]. split; [done|].
  split; intros k; rewrite !held_elem; cbn.
  - intros [?|(x & ? & ?)]; [by left|right; eauto].
  - intros [= <-]. right. exists r. by rewrite Hj.
Qed.

Lemma opened_spec w r n :
  spec (opened w r n : Pw Env _) (λ w' l, orderly l /\ wk_phase w' = wk_phase w /\ absorbs w (opened_key r) w').
Proof.
  unfold opened. destruct r as [[work|]|failure].
  - apply spec_ret. split; [apply orderly_nil|]. split; [done|]. apply (push_absorbs w (DurableTask work)).
  - apply spec_ret. split; [apply orderly_nil|]. split; [done|]. split; [lia|done].
  - eapply spec_bind; [apply (schedule_spec w)|]. intros retries l (Hl & Hlen & Hs & Hsub & Hj). apply spec_ret.
    rewrite app_nil_r. split; [done|]. split; [done|]. by apply retries_absorb.
Qed.

(** *** The invariant *)

Record sound (w : Worker) (h : list PurgeEvent) : Prop := {
  sound_fits : fits w;
  sound_order : in_order w;
  sound_accounts : accounts (held w) h;
  sound_tidy : tidy (kernel_calls h)
}.

Lemma accounts_mono keys keys' h l :
  accounts keys h -> orderly l ->
  (keyed l -> forall key, key ∈ keys -> key ∈ keys' \/ Exists (settles key) l) -> accounts keys' (h ++ l).
Proof.
  intros Ha [_ Hl] Hk Hkey key Hu. apply keyed_app in Hkey as [Hkh Hkl].
  destruct (unsettled_app _ _ _ Hl Hu) as [Hu' Hn]. destruct (Hk Hkl key (Ha Hkh key Hu')) as [?|He]; [done|].
  apply Exists_exists in He as (e & He & Hse). rewrite Forall_forall in Hn. by destruct (Hn e He).
Qed.

Lemma sound_step w h w' l :
  sound w h -> orderly l -> fits w' -> in_order w' ->
  (keyed l -> forall key, key ∈ held w -> key ∈ held w' \/ Exists (settles key) l) -> sound w' (h ++ l).
Proof.
  intros [Hf Ho Ha Ht] Hl Hf' Ho' Hk. split; [done|done| |].
  - by eapply accounts_mono.
  - rewrite kernel_calls_app. apply tidy_app; [done|apply Hl].
Qed.

Lemma claim_accounts keys h job :
  accounts keys h -> accounts (pj_key job :: keys) (h ++ [ClaimDue (Ok (Some job))]).
Proof.
  intros Ha Hkey key (before & j & after & E & Hk & Hn). apply keyed_app in Hkey as [Hkh _].
  destruct (decide (key = pj_key job)) as [->|Hne]; [set_solver|]. apply elem_of_cons. right. apply Ha; [done|].
  destruct after as [|e after _] using rev_ind.
  - apply app_inj_tail in E as [-> [= ->]]. done.
  - rewrite app_comm_cons, app_assoc in E. apply app_inj_tail in E as [-> _].
    apply Forall_app in Hn as [Hn _]. by exists before, j, after.
Qed.

Definition next_sound (h : list PurgeEvent) (next : option Worker) (l : list PurgeEvent) : Prop :=
  match next with Some w => sound w (h ++ l) | None => tidy (kernel_calls (h ++ l)) end.

Lemma stop_sound w h l : sound w h -> orderly l -> next_sound h None l.
Proof. intros Hs Hl. cbn. rewrite kernel_calls_app. apply tidy_app; [apply Hs|apply Hl]. Qed.
Lemma phase_sound phase w h l : sound w h -> orderly l -> next_sound h (Some (at_phase phase w)) l.
Proof. intros Hs Hl. cbn. eapply sound_step; [exact Hs|done|apply Hs|apply Hs|by left]. Qed.
Lemma push_sound w h l entry :
  sound w h -> orderly l -> has_room w = true -> next_sound h (Some (push_task w (OrphanTask entry))) l.
Proof.
  intros Hs Hl Hr%Nat.ltb_lt. destruct (push_absorbs w (OrphanTask entry)) as (Hload & Ho & Hk & _). cbn.
  eapply sound_step; [exact Hs|done| |apply Ho, Hs|intros _ key Hkey; left; by apply Hk].
  unfold fits, load in *. lia.
Qed.

Lemma retry_due_sound w h :
  sound w h -> spec (retry_due sha256 fs w : Pw Env _) (λ w' l, sound w' (h ++ l)).
Proof.
  intros Hs. assert (Hstay : forall l, orderly l -> sound w (h ++ l)).
  { intros l Hl. eapply sound_step; [exact Hs|done|apply Hs|apply Hs|by left]. }
  unfold retry_due. destruct (wk_retries w) as [|retry rest] eqn:Er; [apply spec_ret, Hstay, orderly_nil|].
  case_match; [|apply spec_ret, Hstay, orderly_nil]. unfold now. apply spec_bind_call. intros time.
  case_match; [|apply spec_ret, Hstay; by apply orderly_cons, orderly_nil].
  eapply spec_bind; [apply retry_work_opens|]. intros r l1 [Hl1 Hr].
  eapply spec_weaken; [apply opened_spec|]. intros w' l2 (Hl2 & _ & Hload & Ho & Hk & Hkey).
  eapply sound_step; [exact Hs|by apply orderly_cons, orderly_app| | |].
  - destruct Hs as [Hf _ _ _]. unfold fits, load in *. cbn in *. rewrite Er in Hf. cbn in Hf. lia.
  - apply Ho. destruct Hs as [_ Hin _ _]. unfold in_order in *. rewrite Er in Hin. by apply StronglySorted_inv in Hin as [? _].
  - intros Hkl key Hh. rewrite app_comm_cons in Hkl. apply keyed_app in Hkl as [Hkl _].
    assert (Hkl1 : keyed l1) by (unfold keyed in *; set_solver). destruct (Hr Hkl1) as [_ Hopen].
    apply held_elem in Hh as [(work & Hw & <-)|(x & Hx & <-)].
    + left. apply Hk, held_elem. left. eauto.
    + rewrite Er in Hx. apply elem_of_cons in Hx as [->|Hx]; [|left; apply Hk, held_elem; right; eauto].
      destruct r as [[work|]|failure]; [left; apply Hkey; by rewrite <-Hopen| |left; apply Hkey; by rewrite <-Hopen].
      right. apply Exists_cons_tl, Exists_app. by left.
Qed.

Lemma claim_sound w h job :
  sound w h -> has_room w = true ->
  spec (do r <- open_purge_work sha256 fs job; do w' <- opened w r 1; ret (Some w') : Pw Env _)
    (λ next l, next_sound h next (IsCancelled false :: ClaimDue (Ok (Some job)) :: l)).
Proof.
  intros [Hf Ho Ha Ht] Hr%Nat.ltb_lt. eapply spec_bind; [apply open_work_opens|]. intros r l1 [Hl1 Hopen].
  eapply spec_bind; [apply opened_spec|]. intros w' l2 (Hl2 & _ & Hload & Hord & Hk & Hkey). apply spec_ret. cbn.
  rewrite app_nil_r.
  assert (E : h ++ IsCancelled false :: ClaimDue (Ok (Some job)) :: l1 ++ l2 =
              ((h ++ [IsCancelled false]) ++ [ClaimDue (Ok (Some job))]) ++ (l1 ++ l2)) by by rewrite <-!app_assoc.
  rewrite E. split.
  - unfold fits, load in *. lia.
  - by apply Hord.
  - eapply accounts_mono; [apply claim_accounts; eapply (accounts_mono _ (held w)); [exact Ha| |by left]|by apply orderly_app|].
    { by apply orderly_cons, orderly_nil. }
    intros _ key [->|Hh]%elem_of_cons; [|left; by apply Hk].
    destruct r as [[work|]|failure]; [left; apply Hkey; by rewrite <-Hopen| |left; apply Hkey; by rewrite <-Hopen].
    right. apply Exists_app. by left.
  - rewrite !kernel_calls_app. cbn. rewrite !app_nil_r. apply tidy_app; [done|]. apply tidy_app; [apply Hl1|apply Hl2].
Qed.

Lemma process_sound w h task rest :
  sound w h -> wk_pending w = task :: rest ->
  spec (process_task sha256 room fs (mkWorker Checking rest (wk_retries w)) task : Pw Env _) (λ w' l, sound w' (h ++ l)).
Proof.
  intros Hs Ep. set (v := mkWorker Checking rest (wk_retries w)).
  assert (Hv : forall k, k ∈ held w -> k ∈ held v \/ Some k = task_key task).
  { intros k. rewrite !held_elem, Ep. intros [(work & [Hw|Hw]%elem_of_cons & Hk)|?]; [right|left; left; eauto|left; by right].
    subst task k. done. }
  assert (Hstep : forall w' l, orderly l -> absorbs v None w' ->
    (forall k, Some k = task_key task -> k ∈ held w' \/ Exists (settles k) l) -> sound w' (h ++ l)).
  { intros w' l Hl (Hload & Hord & Hk & _) Htask. eapply sound_step; [exact Hs|done| |apply Hord, Hs|].
    - destruct Hs as [Hf _ _ _]. unfold fits, load in *. rewrite Ep in Hf. cbn in *. lia.
    - intros _ k Hh. destruct (Hv k Hh) as [Hh'|Ht]; [left; by apply Hk|by apply Htask]. }
  assert (Hself : absorbs v None v) by (split; [lia|done]).
  destruct task as [work|entry]; cbn [process_task].
  - eapply spec_bind; [apply process_work_spec|]. intros [|work'|failure] l [Hl Hr].
    + apply spec_ret. rewrite app_nil_r. apply Hstep; [done|done|]. intros k [= ->]. by right.
    + apply spec_ret. rewrite app_nil_r. destruct (push_absorbs v (DurableTask work')) as (? & ? & ? & Hkey).
      apply Hstep; [done|by split_and!|]. intros k [= ->]. left. apply Hkey. cbn. by rewrite Hr.
    + eapply spec_bind; [apply (schedule_spec v)|]. intros retries l' (Hl' & Hlen & Hso & Hsub & Hj). apply spec_ret.
      rewrite app_nil_r. destruct (retries_absorb v failure retries) as (? & ? & ? & Hkey); [done..|].
      apply Hstep; [by apply orderly_app|by split_and!|]. intros k [= ->]. left. apply Hkey. by rewrite Hr.
  - unfold run_slice. apply spec_bind_call. intros gate. eapply spec_bind_lifted; [apply purge_slice_tidy|].
    intros purged calls Hc%orderly_kernel. apply spec_ret. rewrite app_nil_r.
    assert (Ho : orderly (RunSlice gate :: map PKernel calls)) by by apply orderly_cons.
    destruct purged as [[|entry']|error]; [by apply Hstep| |by apply Hstep].
    destruct (push_absorbs v (OrphanTask entry')) as (? & ? & ? & _). apply Hstep; [done|by split_and!|done].
Qed.

Lemma wait_sound w h : sound w h -> spec (wait_for_work w : Pw Env _) (next_sound h).
Proof.
  intros Hs. unfold wait_for_work, now. eapply (spec_bind _ _ (λ _, orderly)).
  { destruct (wk_retries w); [apply spec_ret, orderly_nil|]. apply spec_bind_call. intros time. apply spec_ret.
    by apply orderly_cons, orderly_nil. }
  intros delay l Hl. assert (Hend : forall e, claims e = false -> match e with PKernel _ => False | _ => True end -> orderly (l ++ [e])).
  { intros e He1 He2. apply orderly_app; [done|]. by apply orderly_cons, orderly_nil. }
  assert (Hw : forall l', orderly l' -> next_sound h (Some w) l').
  { intros l' Hl'. by destruct w as [phase ? ?]; apply (phase_sound phase _ _ _ Hs). }
  destruct (has_room w) eqn:Hr; apply spec_bind_call.
  - intros woken. apply spec_ret. destruct woken as [|[[|entry]|]|].
    + eapply stop_sound; [exact Hs|by apply Hend].
    + by apply Hw, Hend.
    + by apply push_sound; [|apply Hend|].
    + eapply stop_sound; [exact Hs|by apply Hend].
    + by apply Hw, Hend.
  - intros []; apply spec_ret; [eapply stop_sound; [exact Hs|]|apply Hw]; by apply Hend.
Qed.

Lemma worker_step_sound w h : sound w h -> spec (worker_step sha256 room fs w : Pw Env _) (next_sound h).
Proof.
  intros Hs. assert (Hone : forall e, claims e = false -> match e with PKernel _ => False | _ => True end -> orderly [e]).
  { intros e He1 He2. by apply orderly_cons, orderly_nil. }
  unfold worker_step. destruct (wk_phase w) eqn:Ew.
  - apply spec_bind_call. intros []; apply spec_ret; [eapply stop_sound; [exact Hs|by apply Hone]|].
    by apply phase_sound, Hone.
  - destruct (has_room w) eqn:Hr; [|apply spec_ret, phase_sound; [done|apply orderly_nil]].
    unfold try_recv. apply spec_bind_call. intros [[|entry]| |]; apply spec_ret.
    + assert (w = at_phase (wk_phase w) w) as -> by by destruct w. apply phase_sound; [done|by apply Hone].
    + by apply push_sound, Hr; [|apply Hone].
    + by apply phase_sound, Hone.
    + eapply stop_sound; [exact Hs|by apply Hone].
  - eapply spec_bind; [by apply retry_due_sound|]. intros w' l Hs'. apply spec_ret.
    pose proof (phase_sound Claiming _ _ [] Hs' orderly_nil) as Hp. cbn in *. by rewrite app_nil_r in *.
  - destruct (has_room w) eqn:Hr; [|apply spec_ret, phase_sound; [done|apply orderly_nil]].
    unfold is_cancelled, claim_due_purge_job. apply spec_bind_call. intros [].
    { apply spec_ret. eapply stop_sound; [exact Hs|by apply Hone]. }
    apply spec_bind_assoc, spec_bind_call. intros [[job|]|m]; apply spec_bind_ret; cbn [purge_store].
    + by apply claim_sound.
    + apply spec_ret, phase_sound; [done|]. by repeat apply orderly_cons; try apply orderly_nil.
    + apply spec_ret, phase_sound; [done|]. by repeat apply orderly_cons; try apply orderly_nil.
  - destruct (wk_pending w) as [|task rest] eqn:Ep.
    + assert (Hs' : sound (at_phase Checking w) h).
      { pose proof (phase_sound Checking _ _ [] Hs orderly_nil) as Hp. cbn in Hp. by rewrite app_nil_r in Hp. }
      by apply wait_sound.
    + eapply spec_bind; [by apply process_sound|]. intros w' l Hs'. apply spec_ret. cbn. by rewrite app_nil_r.
Qed.

(** C19: For as long as the worker runs, whatever the store, the channel, the clock
    and the kernel answer: it touches the tree only to set entries aside and to
    unlink what it pinned; it never holds more than 64 jobs, and its retries
    stay in the order they are due; and every job it has claimed is still in
    one of its queues, or its completion or next attempt was recorded, or the
    store said that it is no longer claimed. *)
Theorem purge_worker_loses_no_claim n :
  spec (run_purge_worker sha256 room fs n initial_worker : Pw Env _) (next_sound []).
Proof.
  assert (Hrun : forall w h, sound w h -> spec (run_purge_worker sha256 room fs n w : Pw Env _) (next_sound h)).
  { induction n as [|n' IH]; intros w h Hs; cbn [run_purge_worker]; [apply spec_ret; cbn; by rewrite app_nil_r|].
    eapply spec_bind; [by apply worker_step_sound|]. intros [w'|] l Hl.
    - eapply spec_weaken; [by apply IH|]. intros next l' Hn. unfold next_sound. by rewrite app_assoc.
    - apply spec_ret. by rewrite app_nil_r. }
  apply Hrun. split; [unfold fits; cbn; lia|constructor| |constructor].
  intros _ key (before & job & after & E & _). by destruct before.
Qed.
End loop.

(** ** Interrupted deletes *)

Section reconciler.
Context {Env : Type} `{Os Env} `{PurgeHost Env} `{UuidLib}.
Context (fs : RootedFs).

(** Under a lease an intent is removed at most once, as the last step, and only
    after the store confirmed that it is still prepared. *)
Definition forgets_prepared (l : list PurgeEvent) : Prop :=
  orderly l /\
  (keyed l -> forall before key answer after, l = before ++ RemoveJob key answer :: after ->
    after = [] /\ exists job, LoadJob key (Ok (Some job)) ∈ before /\ pj_state job = PPrepared).

Lemma forgets_nothing l :
  orderly l -> (forall key answer, RemoveJob key answer ∉ l) -> forgets_prepared l.
Proof.
  intros Hl Hno. split; [done|]. intros _ before key answer after ->. destruct (Hno key answer). set_solver.
Qed.

Lemma kernel_removes_nothing calls key answer : RemoveJob key answer ∉ map PKernel calls.
Proof. intros (c & E & _)%list_elem_of_fmap. done. Qed.

Lemma identity_if_present_tidy path :
  spec (delete_identity_if_present fs path : Io Env _) (λ _ calls, tidy calls).
Proof.
  eapply spec_weaken; [|intros r l; apply tidy_reads].
  change (emits reads (delete_identity_if_present fs path : Io Env _)).
  unfold delete_identity_if_present, read_delete_identity, sys_statat.
  repeat (emits_step || apply open_parent_reads).
Qed.

Lemma set_aside_spec trash (found : option DeleteIdentity) :
  spec (match found with
        | Some _ => attempt _ <- pio (quarantine_internal_trash fs trash); ok tt
        | None => ok tt
        end : PwRes Env unit) (λ _ l, exists calls, tidy calls /\ l = map PKernel calls).
Proof.
  destruct found; [|apply spec_ret; exists []; split; [constructor|done]].
  apply spec_bind_assoc. eapply spec_bind_lifted; [apply quarantine_tidy|]. intros r calls Hc.
  apply spec_bind_ret. destruct r; apply spec_ret; rewrite app_nil_r; eauto.
Qed.

Lemma reconcile_locked_spec key trash :
  spec (reconcile_locked fs key trash : PwRes Env unit) (λ _, forgets_prepared).
Proof.
  unfold reconcile_locked, purge_job, remove_purge_job. apply spec_bind_assoc, spec_bind_call. intros found.
  apply spec_bind_ret.
  assert (Hquiet : forall calls, tidy calls -> forgets_prepared (LoadJob key found :: map PKernel calls)).
  { intros calls Hc. apply forgets_nothing; [by apply orderly_cons, orderly_kernel|].
    intros k a [?|Hin]%elem_of_cons; [done|]. by apply kernel_removes_nothing in Hin. }
  assert (Hnone : forgets_prepared [LoadJob key found]) by (apply (Hquiet []); constructor).
  destruct found as [[job|]|m]; cbn; [|by apply spec_ret..].
  case_bool_decide as Hp; cbn; [|by apply spec_ret]. apply spec_bind_assoc.
  eapply spec_bind_lifted; [apply identity_if_present_tidy|]. intros r calls Hc. apply spec_bind_ret.
  destruct r as [identity|e]; cbn; [|apply spec_ret; rewrite app_nil_r; by apply Hquiet].
  eapply spec_bind_ok; [apply set_aside_spec| |].
  - intros _ l (calls' & Hc' & ->). apply spec_bind_assoc, spec_bind_call. intros answer. apply spec_bind_ret.
    assert (Hend : forgets_prepared ((LoadJob key (Ok (Some job)) :: map PKernel (calls ++ calls')) ++
      [RemoveJob (pj_key job) answer])).
    { split.
      - apply orderly_app; [|by apply orderly_cons, orderly_nil]. apply orderly_cons; [done|done|].
        by apply orderly_kernel, tidy_app.
      - intros Hkey before k a after E. assert (pj_key job = key) as Ek by (apply Hkey; set_solver).
        destruct after as [|x after _] using rev_ind.
        + apply app_inj_tail in E as [<- [= <- <-]]. split; [done|]. exists job. rewrite Ek. split; [set_solver|done].
        + rewrite app_comm_cons, app_assoc in E. apply app_inj_tail in E as [E _].
          assert (RemoveJob k a ∈ LoadJob key (Ok (Some job)) :: map PKernel (calls ++ calls')) as Hin
            by (rewrite E; set_solver).
          apply elem_of_cons in Hin as [?|Hin]; [done|]. by apply kernel_removes_nothing in Hin. }
    rewrite map_app in Hend. cbn in Hend. rewrite <-app_assoc in Hend.
    destruct answer as [b|m]; by apply spec_ret.
  - intros e l (calls' & Hc' & ->). rewrite <-map_app. by apply Hquiet, tidy_app.
Qed.

(** Every removed intent was seen to be prepared under the lease that the
    reconciler still holds. *)
Definition under_lease (l : list PurgeEvent) : Prop :=
  orderly l /\ (keyed l -> forall before key answer after, l = before ++ RemoveJob key answer :: after ->
    exists earlier paths held job later,
      before = earlier ++ AcquirePaths paths :: held /\ after = ReleasePaths paths :: later /\
      LoadJob key (Ok (Some job)) ∈ held /\ pj_state job = PPrepared).

Lemma under_lease_app l k : under_lease l -> under_lease k -> under_lease (l ++ k).
Proof.
  intros [Hl Hl'] [Hk Hk']. split; [by apply orderly_app|]. intros [Hkl Hkk]%keyed_app before key answer after E.
  apply app_eq_inv in E as [(m & -> & E)|(m & -> & E)].
  - destruct m as [|e m]; cbn in E.
    + rewrite app_nil_r in *. subst k. destruct (Hk' Hkk [] key answer after) as (x & ? & ? & ? & ? & Ex & _); [done|].
      by destruct x.
    + injection E as <- ->. destruct (Hl' Hkl before key answer m) as (x & paths & h & job & later & -> & -> & Hin & Hp); [done|].
      exists x, paths, h, job, (later ++ k). by split_and!.
  - subst k. destruct (Hk' Hkk m key answer after) as (x & paths & h & job & later & -> & -> & Hin & Hp); [done|].
    exists (l ++ x), paths, h, job, later. by rewrite <-app_assoc.
Qed.
Lemma under_lease_quiet l : orderly l -> (forall key answer, RemoveJob key answer ∉ l) -> under_lease l.
Proof.
  intros Hl Hno. split; [done|]. intros _ before key answer after ->. destruct (Hno key answer). set_solver.
Qed.
Lemma under_lease_one e : claims e = false ->
  match e with PKernel _ | RemoveJob _ _ => False | _ => True end -> under_lease [e].
Proof.
  intros Hc He. apply under_lease_quiet; [apply orderly_cons, orderly_nil; [done|by destruct e]|].
  intros key answer Hin%list_elem_of_singleton. by subst e.
Qed.
Lemma under_lease_nil : under_lease [].
Proof. apply under_lease_quiet; [apply orderly_nil|]. intros key answer ?%elem_of_nil. done. Qed.

Lemma reconcile_job_spec job : spec (reconcile_prepared_purge_job fs job : PwRes Env unit) (λ _, under_lease).
Proof.
  unfold reconcile_prepared_purge_job.
  apply spec_attempt_ret; [intros target _|intros; apply under_lease_nil].
  apply spec_attempt_ret; [intros trash _|intros; apply under_lease_nil].
  apply spec_bind_call. intros []. eapply spec_bind; [apply reconcile_locked_spec|]. intros r l Hf.
  apply spec_bind_call. intros []. apply spec_ret. destruct Hf as [Hl Hrm]. split.
  { apply orderly_cons; [done|done|]. apply orderly_app; [done|]. by apply orderly_cons, orderly_nil. }
  intros Hkey before key answer after E. assert (keyed l) as Hkl by (unfold keyed in *; set_solver).
  destruct before as [|e before]; [done|]. injection E as <- E.
  apply app_eq_inv in E as [(m & -> & E)|(m & -> & E)].
  - destruct m as [|e m]; [done|]. injection E as <- E. subst after.
    destruct (Hrm Hkl before key answer m) as (-> & j & Hin & Hp); [done|].
    exists [], [target; trash], before, j, []. by split_and!.
  - destruct m as [|e m]; [done|]. injection E as <- E. by destruct m.
Qed.

Lemma reconcile_all_spec : spec (reconcile_prepared_purge_jobs fs : PwRes Env unit) (λ _, under_lease).
Proof.
  unfold reconcile_prepared_purge_jobs. apply spec_bind_call. intros found.
  apply spec_attempt_ret; [intros jobs _|intros; by apply under_lease_one].
  assert (Hloop : spec (reconcile_jobs fs jobs : Pw Env unit) (λ _, under_lease)).
  { induction jobs as [|job jobs IH]; cbn [reconcile_jobs]; [apply spec_ret, under_lease_nil|].
    unfold is_cancelled. apply spec_bind_call. intros []; [apply spec_ret; by apply under_lease_one|].
    eapply spec_bind; [apply reconcile_job_spec|]. intros r l Hl. eapply spec_weaken; [apply IH|].
    intros u k Hk. apply (under_lease_app [_]); [by apply under_lease_one|by apply under_lease_app]. }
  eapply spec_bind; [exact Hloop|]. intros u l Hl. apply spec_ret. rewrite app_nil_r.
  apply (under_lease_app [_]); [by apply under_lease_one|done].
Qed.

(** For as many rounds as the reconciler runs it only sets trash aside, and
    every intent it forgets was confirmed to be still prepared while it held
    the lease on target and trash, which it releases right after. *)
Theorem reconciler_forgets_prepared n :
  spec (run_prepared_purge_reconciler fs n : Pw Env bool) (λ _, under_lease).
Proof.
  induction n as [|n IH]; cbn [run_prepared_purge_reconciler]; [apply spec_ret, under_lease_nil|].
  eapply (spec_bind _ _ (λ _, under_lease)).
  - unfold reconciler_round, is_cancelled. apply spec_bind_call. intros []; [apply spec_ret; by apply under_lease_one|].
    eapply spec_bind; [apply reconcile_all_spec|]. intros r l Hl. apply spec_call. intros stop.
    apply (under_lease_app [_]); [by apply under_lease_one|]. apply under_lease_app; [done|by apply under_lease_one].
  - intros [] l Hl; [apply spec_ret; by rewrite app_nil_r|].
    eapply spec_weaken; [apply IH|]. intros u k Hk. by apply under_lease_app.
Qed.
End reconciler.
