(* ===== verification/ActiveFiles.v ===== *)
(** The registry of stage files in use: uploads register the stage they write,
    the maintenance registers what it is about to remove, and each waits for or
    skips what the other holds ([try_claim_stale_entry] and
    [MaintenanceCleanupClaim] of [src/src/server/maintenance.rs],
    [track_active_upload_files] of [src/src/server/upload/prepare.rs],
    [ActiveUploadFilesLease] of [src/src/server/upload.rs]).

    The registry is one set behind a mutex; a critical section is one step.  A
    cleanup is registered under a marker that no file name can equal. *)

From S2P Require Import Prelude Bytes PathKeys RootedFs.
From stdpp Require Import base numbers list sets gmap strings.

Local Open Scope Z_scope.

#[export] Instance RootedEntryKey_eq_dec : EqDecision RootedEntryKey.
Proof. solve_decision. Defined.
#[export] Instance RootedEntryKey_countable : Countable RootedEntryKey.
Proof.
  refine (inj_countable' (λ k, (fi_device (ek_parent k), fi_inode (ek_parent k), ek_name k))
    (λ '(d, i, n), mkEntryKey (mkFile d i) n) _).
  by intros [[d i] n].
Defined.

Module ActiveFiles.

Abbreviation Active := (gset RootedEntryKey).

(** ** The critical sections *)

(** [Some] is the set with the marker of the claim. *)
Definition try_claim_stale_entry (active : Active) (entry : RootedEntryKey) : option Active :=
  let marker := maintenance_marker entry in
  if bool_decide (entry ∈ active) || bool_decide (marker ∈ active) then None
  else Some ({[marker]} ∪ active).

(** [Drop for MaintenanceCleanupClaim]: whether the marker was there, which
    decides whether the waiters are notified. *)
Definition drop_claim (active : Active) (entry : RootedEntryKey) : bool * Active :=
  let marker := maintenance_marker entry in (bool_decide (marker ∈ active), active ∖ {[marker]}).

(** [None] while one of the files is being cleaned up. *)
Definition track (active : Active) (keys : list RootedEntryKey) : option Active :=
  if existsb (λ key, bool_decide (maintenance_marker key ∈ active)) keys then None
  else Some (list_to_set keys ∪ active).

Definition cleanup_still_in_progress (active : Active) (keys : list RootedEntryKey) : bool :=
  existsb (λ key, bool_decide (maintenance_marker key ∈ active)) keys.

(** [Drop for ActiveUploadFilesLease]. *)
Definition drop_lease (active : Active) (keys : list RootedEntryKey) : Active := active ∖ list_to_set keys.

(** ** The tasks

    An upload looks for its stage, is blocked by a cleanup and about to look
    whether it is still running, sleeps until the next change of claims, or is
    registered.  [seen] is the version its subscription has seen. *)
Inductive Upload :=
| Looking (seen : Z)
| Blocked (seen : Z) (key : RootedEntryKey)
| Sleeping (seen : Z) (key : RootedEntryKey)
| Tracking (key : RootedEntryKey).

(** A cleanup holds its claim, or has left the set and is about to notify. *)
Inductive Cleanup := Claimed (key : RootedEntryKey) | Releasing (key : RootedEntryKey) (removed : bool).

(** [version] counts the changes of the [watch] channel. *)
Record State := mkState {
  active : Active;
  version : Z;
  uploads : gmap nat Upload;
  cleanups : gmap nat Cleanup
}.

Definition initial : State := mkState ∅ 0 ∅ ∅.

(** The name of a directory entry. *)
Definition is_file_key (key : RootedEntryKey) : bool := negb (contains_byte nul_byte (ek_name key)).

Definition set_upload (s : State) (i : nat) (u : Upload) : State :=
  mkState (active s) (version s) (<[i := u]> (uploads s)) (cleanups s).

Inductive step : State -> State -> Prop :=
| step_subscribe s i :
    uploads s !! i = None -> step s (set_upload s i (Looking (version s)))
(** A stage belongs to one upload: it is created exclusively, and the store
    binds it to one session. *)
| step_track s i seen key active' :
    uploads s !! i = Some (Looking seen) -> is_file_key key = true ->
    (forall i', uploads s !! i' <> Some (Tracking key)) ->
    track (active s) [key] = Some active' ->
    step s (mkState active' (version s) (<[i := Tracking key]> (uploads s)) (cleanups s))
| step_blocked s i seen key :
    uploads s !! i = Some (Looking seen) -> is_file_key key = true ->
    track (active s) [key] = None -> step s (set_upload s i (Blocked seen key))
| step_sleep s i seen key :
    uploads s !! i = Some (Blocked seen key) ->
    cleanup_still_in_progress (active s) [key] = true -> step s (set_upload s i (Sleeping seen key))
(** The outer loop subscribes again. *)
| step_again s i seen key :
    uploads s !! i = Some (Blocked seen key) ->
    cleanup_still_in_progress (active s) [key] = false -> step s (set_upload s i (Looking (version s)))
| step_wake s i seen key :
    uploads s !! i = Some (Sleeping seen key) -> seen < version s ->
    step s (set_upload s i (Blocked (version s) key))
(** An error of the lookup, the deadline, a shutdown. *)
| step_leave s i u :
    uploads s !! i = Some u -> (forall key, u <> Tracking key) ->
    step s (mkState (active s) (version s) (delete i (uploads s)) (cleanups s))
| step_finish s i key :
    uploads s !! i = Some (Tracking key) ->
    step s (mkState (drop_lease (active s) [key]) (version s) (delete i (uploads s)) (cleanups s))
| step_claim s j key active' :
    cleanups s !! j = None -> is_file_key key = true ->
    try_claim_stale_entry (active s) key = Some active' ->
    step s (mkState active' (version s) (uploads s) (<[j := Claimed key]> (cleanups s)))
| step_release s j key removed active' :
    cleanups s !! j = Some (Claimed key) -> drop_claim (active s) key = (removed, active') ->
    step s (mkState active' (version s) (uploads s) (<[j := Releasing key removed]> (cleanups s)))
| step_notify s j key removed :
    cleanups s !! j = Some (Releasing key removed) ->
    step s (mkState (active s) (if removed then version s + 1 else version s) (uploads s) (delete j (cleanups s))).

Inductive reachable : State -> Prop :=
| reachable_initial : reachable initial
| reachable_step s s' : reachable s -> step s s' -> reachable s'.

(** ** Markers *)

Lemma marker_is_no_file key : is_file_key (maintenance_marker key) = false.
Proof.
  unfold is_file_key. apply negb_false_iff, bool_decide_eq_true_2. cbn [maintenance_marker ek_name]. set_solver.
Qed.

Lemma marker_ne key key' : is_file_key key = true -> key <> maintenance_marker key'.
Proof. intros Hk ->. by rewrite marker_is_no_file in Hk. Qed.

#[global] Instance marker_inj : Inj (=) (=) maintenance_marker.
Proof. intros [p n] [p' n'] [= -> E]. by apply app_inv_tail in E as ->. Qed.

(** ** The invariant *)

Record consistent (s : State) : Prop := {
  c_tracked : forall i k, uploads s !! i = Some (Tracking k) -> k ∈ active s /\ is_file_key k = true;
  c_claimed : forall j k, cleanups s !! j = Some (Claimed k) -> maintenance_marker k ∈ active s;
  c_marked : forall k, maintenance_marker k ∈ active s -> exists j, cleanups s !! j = Some (Claimed k);
  c_apart : forall i j k, uploads s !! i = Some (Tracking k) -> cleanups s !! j = Some (Claimed k) -> False;
  c_one_upload : forall i i' k,
    uploads s !! i = Some (Tracking k) -> uploads s !! i' = Some (Tracking k) -> i = i';
  c_one_claim : forall j j' k,
    cleanups s !! j = Some (Claimed k) -> cleanups s !! j' = Some (Claimed k) -> j = j';
  c_awaited : forall i seen k, uploads s !! i = Some (Sleeping seen k) ->
    (exists j, cleanups s !! j = Some (Claimed k)) \/ seen < version s \/
    (exists j, cleanups s !! j = Some (Releasing k true));
  c_seen : forall i u seen, uploads s !! i = Some u ->
    match u with Looking n | Blocked n _ | Sleeping n _ => n = seen | Tracking _ => False end -> seen <= version s
}.

Lemma initial_consistent : consistent initial.
Proof. split; intros; try set_solver. Qed.

Definition seen_of (u : Upload) : option Z :=
  match u with Looking n | Blocked n _ | Sleeping n _ => Some n | Tracking _ => None end.

Ltac at_key i :=
  match goal with
  | H : <[?j := _]> _ !! i = Some _ |- _ =>
      destruct (decide (i = j)) as [->|]; [rewrite lookup_insert_eq in H; simplify_eq/=|rewrite lookup_insert_ne in H by done]
  | H : delete ?j _ !! i = Some _ |- _ => apply lookup_delete_Some in H as [? H]
  end.
Ltac at_keys := repeat match goal with
  | H : <[_ := _]> _ !! ?i = Some _ |- _ => at_key i
  | H : delete _ _ !! ?i = Some _ |- _ => at_key i
  end.

(** An upload that neither holds nor takes a registration moves on. *)
Lemma wait_consistent s i u seen :
  consistent s -> seen_of u = Some seen -> seen <= version s ->
  (forall k, uploads s !! i <> Some (Tracking k)) ->
  (forall k, u = Sleeping seen k -> exists j, cleanups s !! j = Some (Claimed k)) ->
  consistent (set_upload s i u).
Proof.
  intros [Ht Hc Hm Ha H1 H2 Hw Hs] Hu Hle Hn Hsleep. split; cbn; try done.
  - intros i' k Hi. at_keys; try done. by eapply Ht.
  - intros i' j k Hi Hj. at_keys; try done. by eapply Ha.
  - intros i' i'' k Hi Hi'. at_keys; try done. by eapply H1.
  - intros i' n k Hi. at_keys; [|by eapply Hw]. left. by apply Hsleep.
  - intros i' u' n Hi Hn'. at_keys; [|by eapply Hs]. destruct u'; simplify_eq/=; done.
Qed.

Lemma in_progress_claimed s key :
  consistent s -> cleanup_still_in_progress (active s) [key] = true ->
  exists j, cleanups s !! j = Some (Claimed key).
Proof.
  intros Hc Hp. unfold cleanup_still_in_progress in Hp. cbn in Hp. rewrite orb_false_r in Hp.
  apply bool_decide_eq_true in Hp. by apply (c_marked s Hc).
Qed.

Lemma track_consistent s i seen key active' :
  consistent s -> uploads s !! i = Some (Looking seen) -> is_file_key key = true ->
  (forall i', uploads s !! i' <> Some (Tracking key)) -> track (active s) [key] = Some active' ->
  consistent (mkState active' (version s) (<[i := Tracking key]> (uploads s)) (cleanups s)).
Proof.
  intros [Ht Hc Hm Ha H1 H2 Hw Hs] Hi Hk Hn Htr. unfold track in Htr. cbn in Htr. rewrite orb_false_r in Htr.
  case_bool_decide as Hfree; [done|]. injection Htr as <-. split; cbn; try done.
  - intros i' k Hi'. at_keys; [set_solver|]. destruct (Ht _ _ Hi'). set_solver.
  - intros j k Hj. specialize (Hc _ _ Hj). set_solver.
  - intros k Hk'. apply Hm. pose proof (marker_ne key k Hk). set_solver.
  - intros i' j k Hi' Hj. at_keys; [|by eapply Ha]. by apply Hfree, (Hc j).
  - intros i' i'' k Hi' Hi''. at_keys; try done; try (by eapply H1); exfalso; by eapply Hn.
  - intros i' n k Hi'. at_keys. by eapply Hw.
  - intros i' u n Hi' Hu. at_keys; try done; by eapply Hs.
Qed.

Lemma drop_lease_consistent s i key :
  consistent s -> uploads s !! i = Some (Tracking key) ->
  consistent (mkState (drop_lease (active s) [key]) (version s) (delete i (uploads s)) (cleanups s)).
Proof.
  intros [Ht Hc Hm Ha H1 H2 Hw Hs] Hi. destruct (Ht _ _ Hi) as [_ Hk]. unfold drop_lease. split; cbn; try done.
  - intros i' k Hi'. at_keys. destruct (Ht _ _ Hi'). split; [|done].
    assert (k <> key) by (intros ->; by destruct (H1 i i' key)). set_solver.
  - intros j k Hj. specialize (Hc _ _ Hj). pose proof (marker_ne key k Hk). set_solver.
  - intros k Hk'. apply Hm. set_solver.
  - intros i' j k Hi' Hj. at_keys. by eapply Ha.
  - intros i' i'' k Hi' Hi''. at_keys. by eapply H1.
  - intros i' n k Hi'. at_keys. by eapply Hw.
  - intros i' u n Hi' Hu. at_keys. by eapply Hs.
Qed.

Lemma leave_consistent s i u :
  consistent s -> uploads s !! i = Some u ->
  consistent (mkState (active s) (version s) (delete i (uploads s)) (cleanups s)).
Proof.
  intros [Ht Hc Hm Ha H1 H2 Hw Hs] Hi. split; cbn; try done.
  - intros i' k Hi'. at_keys. by eapply Ht.
  - intros i' j k Hi' Hj. at_keys. by eapply Ha.
  - intros i' i'' k Hi' Hi''. at_keys. by eapply H1.
  - intros i' n k Hi'. at_keys. by eapply Hw.
  - intros i' v n Hi' Hu. at_keys. by eapply Hs.
Qed.

Lemma claim_consistent s j key active' :
  consistent s -> cleanups s !! j = None -> is_file_key key = true ->
  try_claim_stale_entry (active s) key = Some active' ->
  consistent (mkState active' (version s) (uploads s) (<[j := Claimed key]> (cleanups s))).
Proof.
  intros [Ht Hc Hm Ha H1 H2 Hw Hs] Hj Hk Hcl. unfold try_claim_stale_entry in Hcl.
  case_bool_decide as Hfree; [done|]. case_bool_decide as Hfree'; [done|]. injection Hcl as <-. split; cbn; try done.
  - intros i k Hi. destruct (Ht _ _ Hi). set_solver.
  - intros j' k Hj'. at_keys; [set_solver|]. specialize (Hc _ _ Hj'). set_solver.
  - intros k [->%elem_of_singleton%(inj maintenance_marker)|Hin]%elem_of_union.
    + exists j. by rewrite lookup_insert_eq.
    + destruct (Hm _ Hin) as [j' Hj']. exists j'. rewrite lookup_insert_ne; [done|congruence].
  - intros i j' k Hi Hj'. at_keys; [|by eapply Ha]. by destruct (Ht _ _ Hi).
  - intros j' j'' k Hj' Hj''. at_keys; try done; try (by eapply H2); destruct Hfree'; by eapply Hc.
  - intros i n k Hi. destruct (Hw _ _ _ Hi) as [[j' Hj']|[?|[j' Hj']]]; [left|by right; left|right; right];
      exists j'; (rewrite lookup_insert_ne; [done|congruence]).
Qed.

Lemma release_consistent s j key removed active' :
  consistent s -> cleanups s !! j = Some (Claimed key) -> drop_claim (active s) key = (removed, active') ->
  consistent (mkState active' (version s) (uploads s) (<[j := Releasing key removed]> (cleanups s))).
Proof.
  intros [Ht Hc Hm Ha H1 H2 Hw Hs] Hj [= <- <-]. pose proof (Hc _ _ Hj) as Hin. split; cbn; try done.
  - intros i k Hi. destruct (Ht _ _ Hi) as [? Hk]. pose proof (marker_ne k key Hk). set_solver.
  - intros j' k Hj'. at_keys. pose proof (Hc _ _ Hj'). assert (k <> key) by (intros ->; by destruct (H2 j j' key)).
    assert (maintenance_marker k <> maintenance_marker key) by (intros ?%(inj _); done). set_solver.
  - intros k [Hk Hne]%elem_of_difference. destruct (Hm _ Hk) as [j' Hj']. exists j'. rewrite lookup_insert_ne; [done|].
    intros ->. simplify_eq. set_solver.
  - intros i j' k Hi Hj'. at_keys. by eapply Ha.
  - intros j' j'' k Hj' Hj''. at_keys. by eapply H2.
  - intros i n k Hi. destruct (Hw _ _ _ Hi) as [[j' Hj']|[?|[j' Hj']]]; [|by right; left|].
    + destruct (decide (j' = j)) as [->|]; [|left; exists j'; by rewrite lookup_insert_ne].
      simplify_eq. right. right. exists j. rewrite lookup_insert_eq. by rewrite bool_decide_eq_true_2.
    + right. right. exists j'. rewrite lookup_insert_ne; [done|congruence].
Qed.

Lemma notify_consistent s j key removed :
  consistent s -> cleanups s !! j = Some (Releasing key removed) ->
  consistent (mkState (active s) (if removed then version s + 1 else version s) (uploads s) (delete j (cleanups s))).
Proof.
  intros [Ht Hc Hm Ha H1 H2 Hw Hs] Hj. split; cbn; try done.
  - intros j' k Hj'. at_keys. by eapply Hc.
  - intros k Hk. destruct (Hm _ Hk) as [j' Hj']. exists j'. rewrite lookup_delete_ne; [done|congruence].
  - intros i j' k Hi Hj'. at_keys. by eapply Ha.
  - intros j' j'' k Hj' Hj''. at_keys. by eapply H2.
  - intros i n k Hi. pose proof (Hs _ _ n Hi eq_refl). destruct (Hw _ _ _ Hi) as [[j' Hj']|[?|[j' Hj']]].
    + left. exists j'. rewrite lookup_delete_ne; [done|congruence].
    + right. left. destruct removed; lia.
    + destruct (decide (j' = j)) as [->|]; [|right; right; exists j'; by rewrite lookup_delete_ne].
      simplify_eq. right. left. lia.
  - intros i u n Hi Hu. pose proof (Hs _ _ _ Hi Hu). destruct removed; lia.
Qed.

Lemma step_consistent s s' : consistent s -> step s s' -> consistent s'.
Proof.
  intros Hs Hstep. assert (Hseen : forall i u n, uploads s !! i = Some u -> seen_of u = Some n -> n <= version s).
  { intros i u n Hi Hn. eapply (c_seen s Hs); [exact Hi|]. by destruct u; simplify_eq/=. }
  destruct Hstep as [s i Hi|s i seen key active' Hi Hk Hn Ht|s i seen key Hi Hk Ht|s i seen key Hi Hp|s i seen key Hi Hp
    |s i seen key Hi Hlt|s i u Hi Hu|s i key Hi|s j key active' Hj Hk Hc|s j key removed active' Hj Hd|s j key removed Hj].
  - apply (wait_consistent _ _ _ (version s)); try done; congruence.
  - by eapply track_consistent.
  - apply (wait_consistent _ _ _ seen); try done; [by eapply Hseen|congruence].
  - apply (wait_consistent _ _ _ seen); try done; [by eapply Hseen|congruence|].
    intros k [= <-]. by apply in_progress_claimed.
  - apply (wait_consistent _ _ _ (version s)); try done; congruence.
  - apply (wait_consistent _ _ _ (version s)); try done; congruence.
  - by eapply leave_consistent.
  - by apply drop_lease_consistent.
  - by apply claim_consistent.
  - by eapply release_consistent.
  - by eapply notify_consistent.
Qed.

Lemma reachable_consistent s : reachable s -> consistent s.
Proof. induction 1; [apply initial_consistent|by eapply step_consistent]. Qed.

(** C20: However uploads and cleanups interleave, a stage file that an upload has
    registered is not claimed by a cleanup, no two cleanups claim the same
    file, and no upload sleeps for ever: the cleanup it waits for still holds
    its claim, or has left it and is about to notify, or the upload has been
    notified. *)
Theorem uploads_and_cleanups_exclude s :
  reachable s ->
  (forall i j k, uploads s !! i = Some (Tracking k) -> cleanups s !! j = Some (Claimed k) -> False) /\
  (forall j j' k, cleanups s !! j = Some (Claimed k) -> cleanups s !! j' = Some (Claimed k) -> j = j') /\
  (forall i seen k, uploads s !! i = Some (Sleeping seen k) ->
    (exists j, cleanups s !! j = Some (Claimed k)) \/ seen < version s \/
    (exists j, cleanups s !! j = Some (Releasing k true))).
Proof. intros []%reachable_consistent. by split_and!. Qed.

Definition demo_key : RootedEntryKey := mkEntryKey (mkFile 1 2) (bs "stage").

(** A cleanup holds the stage and an upload sleeps until it is done. *)
Definition demo_claimed : State :=
  mkState ({[maintenance_marker demo_key]} ∪ ∅) 0 ∅ (<[0%nat := Claimed demo_key]> ∅).
Definition demo_state : State :=
  set_upload (set_upload (set_upload demo_claimed 0 (Looking 0)) 0 (Blocked 0 demo_key)) 0 (Sleeping 0 demo_key).

Lemma uploads_and_cleanups_exclude_witness :
  reachable demo_state /\
  ((exists j, cleanups demo_state !! j = Some (Claimed demo_key)) \/ 0 < version demo_state \/
   (exists j, cleanups demo_state !! j = Some (Releasing demo_key true))).
Proof.
  assert (Hc : reachable demo_claimed).
  { eapply reachable_step; [apply reachable_initial|]. by apply (step_claim initial 0 demo_key). }
  assert (Hr : reachable demo_state).
  { eapply reachable_step; [eapply reachable_step; [eapply reachable_step; [exact Hc|]|]|].
    - by apply (step_subscribe _ 0).
    - by apply (step_blocked _ 0 0 demo_key).
    - by apply (step_sleep _ 0 0 demo_key). }
  split; [exact Hr|]. exact (proj2 (proj2 (uploads_and_cleanups_exclude demo_state Hr)) 0%nat 0 demo_key eq_refl).
Defined.
End ActiveFiles.
