(* ===== verification/Maintenance.v ===== *)
(** The storage maintenance ([src/src/server/maintenance.rs]): it retires expired
    upload sessions with their stages, and scans the tree for internal files that
    no session, purge job or running upload accounts for.

    The state store, the registry of files in use, the queue of the purge worker,
    the clock and the shutdown token answer as they like; every interaction is
    logged.  Instants never go back and a cancelled token stays cancelled, so one
    batch remembers a deadline or a cancellation it has seen. *)

From S2P Require Import Prelude Bytes StdPath Utils StoreModel UuidText InternalNames Problem Revisions Listing PathKeys RootedOs RootedFs StageFiles RootedPurge DirectoryWalk UploadHost UploadRecords ActiveFiles.
From stdpp Require Import base numbers list strings sets gmap.

Local Open Scope Z_scope.

(** Durations in nanoseconds. *)
Definition UPLOAD_SESSION_TTL : Z := 7 * 24 * 60 * 60 * 1000000000.
Definition TRASH_ENTRY_TTL : Z := 60 * 60 * 1000000000.
Definition MAINTENANCE_INTERVAL : Z := 60 * 60 * 1000000000.
Definition MAINTENANCE_CONTINUATION_DELAY : Z := 25 * 1000000.
Definition MAINTENANCE_ENTRY_BUDGET : Z := 1024.
Definition UPLOAD_SESSION_CLEANUP_BATCH : Z := 64.
Definition UPLOAD_SESSION_SNAPSHOT_PAGE : Z := 16.
Definition PURGE_JOB_SNAPSHOT_LIMIT : Z := 4096.

(** ** The state of a scan *)

Record PendingMaintenancePurge := mkPendingPurge { pm_path : bytes; pm_entry : TrashEntry }.
Record MaintenanceDirectory := mkDirectory { mdir_path : bytes; mdir_cursor : Z }.

(** [directories] is a stack, its top first. *)
Record MaintenanceScanState := mkScanState {
  ms_directories : list MaintenanceDirectory;
  ms_pending_purge : option PendingMaintenancePurge;
  ms_trash_ttl : Z;
  ms_cleanup_complete : bool;
  ms_cleanup_cursor : option UploadSessionKey;
  ms_snapshot_complete : bool;
  ms_snapshot_cursor : option UploadSessionKey;
  ms_protected_uploads : gset RootedEntryKey;
  ms_skip_uploads : bool;
  ms_purge_snapshot_complete : bool;
  ms_protected_trash : gset RootedEntryKey;
  ms_skip_trash : bool
}.

(** [MaintenanceScanState::new]. *)
Definition new_scan (root : bytes) (trash_ttl : Z) : MaintenanceScanState :=
  mkScanState [mkDirectory root 0] None trash_ttl false None false None ∅ false false ∅ false.

Definition set_directories (s : MaintenanceScanState) directories : MaintenanceScanState :=
  mkScanState directories (ms_pending_purge s) (ms_trash_ttl s) (ms_cleanup_complete s) (ms_cleanup_cursor s)
    (ms_snapshot_complete s) (ms_snapshot_cursor s) (ms_protected_uploads s) (ms_skip_uploads s)
    (ms_purge_snapshot_complete s) (ms_protected_trash s) (ms_skip_trash s).
Definition set_pending_purge (s : MaintenanceScanState) pending : MaintenanceScanState :=
  mkScanState (ms_directories s) pending (ms_trash_ttl s) (ms_cleanup_complete s) (ms_cleanup_cursor s)
    (ms_snapshot_complete s) (ms_snapshot_cursor s) (ms_protected_uploads s) (ms_skip_uploads s)
    (ms_purge_snapshot_complete s) (ms_protected_trash s) (ms_skip_trash s).
Definition set_cleanup (s : MaintenanceScanState) complete cursor protected skip : MaintenanceScanState :=
  mkScanState (ms_directories s) (ms_pending_purge s) (ms_trash_ttl s) complete cursor
    (ms_snapshot_complete s) (ms_snapshot_cursor s) protected skip
    (ms_purge_snapshot_complete s) (ms_protected_trash s) (ms_skip_trash s).
Definition set_snapshot (s : MaintenanceScanState) complete cursor protected skip : MaintenanceScanState :=
  mkScanState (ms_directories s) (ms_pending_purge s) (ms_trash_ttl s) (ms_cleanup_complete s) (ms_cleanup_cursor s)
    complete cursor protected skip (ms_purge_snapshot_complete s) (ms_protected_trash s) (ms_skip_trash s).
Definition set_purge_snapshot (s : MaintenanceScanState) protected skip : MaintenanceScanState :=
  mkScanState (ms_directories s) (ms_pending_purge s) (ms_trash_ttl s) (ms_cleanup_complete s) (ms_cleanup_cursor s)
    (ms_snapshot_complete s) (ms_snapshot_cursor s) (ms_protected_uploads s) (ms_skip_uploads s) true protected skip.

Record MaintenanceBatchOptions := mkBatchOptions {
  bo_now : Z;
  bo_upload_ttl : Z;
  bo_max_entries : Z
}.

Record UploadSessionCleanupBatch := mkBatch {
  cb_examined : Z;
  cb_removed_records : Z;
  cb_removed_stages : Z;
  cb_protected_entries : list RootedEntryKey;
  cb_skip_untracked : bool;
  cb_next_cursor : option UploadSessionKey;
  cb_page_complete : bool
}.

Definition empty_batch : UploadSessionCleanupBatch := mkBatch 0 0 0 [] false None false.
Definition should_continue (b : UploadSessionCleanupBatch) : bool := negb (cb_page_complete b).

Definition skip_untracked (b : UploadSessionCleanupBatch) : UploadSessionCleanupBatch :=
  mkBatch (cb_examined b) (cb_removed_records b) (cb_removed_stages b) (cb_protected_entries b) true
    (cb_next_cursor b) (cb_page_complete b).
Definition protect_entry (b : UploadSessionCleanupBatch) (key : RootedEntryKey) : UploadSessionCleanupBatch :=
  mkBatch (cb_examined b) (cb_removed_records b) (cb_removed_stages b) (cb_protected_entries b ++ [key])
    (cb_skip_untracked b) (cb_next_cursor b) (cb_page_complete b).

(** ** The world *)

(** [anyhow::Error]. *)
Inductive Fault := FaultIo (error : IoError) | FaultMessage (message : bytes).

Inductive MaintenanceEvent :=
| MKernel (call : SysCall)
(** [shutdown.is_cancelled()] *)
| Cancelled (answer : bool)
(** [StdInstant::now() >= deadline] *)
| BatchDeadline (answer : bool)
(** [SystemTime::now()] *)
| SystemNow (answer : Z)
(** the blocking pool, asked to run a batch or a purge slice *)
| RunBatch (answer : option Fault)
| RunPurge (answer : option IoError)
| ExpiredPage (after : option UploadSessionKey) (limit : Z) (answer : result bytes (list ExpiredUploadSession))
| ExpiredMatches (expired : ExpiredUploadSession) (answer : result bytes bool)
| RemoveExpired (expired : ExpiredUploadSession) (answer : result bytes bool)
| SessionsPage (after : option UploadSessionKey) (limit : Z) (answer : result bytes (list StoredUploadSession))
| PurgeJobs (limit : Z) (answer : result bytes (list StoredPurgeJob))
| StatePathBound (path : bytes) (answer : result bytes bool)
(** [try_claim_stale_entry], and the end of the claim *)
| ClaimEntry (key : RootedEntryKey) (answer : bool)
| UnclaimEntry (key : RootedEntryKey)
(** [purge_queue.try_schedule] *)
| SchedulePurge (entry : TrashEntry) (answer : bool)
(** the timer, or the shutdown *)
| Sleep (delay : Z) (shutdown : bool).

Class MaintenanceHost (Env : Type) := {
  mh_cancelled : Env -> bool * Env;
  mh_deadline : Env -> bool * Env;
  mh_now : Env -> Z * Env;
  mh_run_batch : Env -> option Fault * Env;
  mh_run_purge : Env -> option IoError * Env;
  mh_expired_page : option UploadSessionKey -> Z -> Env -> result bytes (list ExpiredUploadSession) * Env;
  mh_expired_matches : ExpiredUploadSession -> Env -> result bytes bool * Env;
  mh_remove_expired : ExpiredUploadSession -> Env -> result bytes bool * Env;
  mh_sessions_page : option UploadSessionKey -> Z -> Env -> result bytes (list StoredUploadSession) * Env;
  mh_purge_jobs : Z -> Env -> result bytes (list StoredPurgeJob) * Env;
  mh_bound : bytes -> Env -> result bytes bool * Env;
  mh_claim : RootedEntryKey -> Env -> bool * Env;
  mh_unclaim : RootedEntryKey -> Env -> unit * Env;
  mh_schedule : TrashEntry -> Env -> bool * Env;
  mh_sleep : Z -> Env -> bool * Env
}.

Abbreviation Mt := (Prog MaintenanceEvent).
Abbreviation MtRes Env A := (Mt Env (result Fault A)).

Definition fault_store {A} (r : result bytes A) : result Fault A :=
  match r with Ok a => Ok a | Err m => Err (FaultMessage m) end.
Definition fault_io {A} (r : result IoError A) : result Fault A :=
  match r with Ok a => Ok a | Err e => Err (FaultIo e) end.
Definition fault_text {A} (r : result string A) : result Fault A :=
  match r with Ok a => Ok a | Err m => Err (FaultMessage (bs m)) end.
(** [ensure!]. *)
Definition fault_ensure (b : bool) (message : bytes) : result Fault unit :=
  if b then Ok tt else Err (FaultMessage message).

#[export] Instance within_maintenance Env : Within MaintenanceEvent Env := λ A m, lifted MKernel m.

Section maintenance.
Context {Env : Type} `{Os Env} `{FileOs Env} `{MaintenanceHost Env} `{UuidLib}.
Context (sha256 : bytes -> bytes) (to_string_lossy : bytes -> bytes) (room : nat -> bool) (fs : RootedFs).

Definition mkernel {A} (m : Sys Env A) : Mt Env A := lifted MKernel m.
Definition mio {A} (m : Io Env A) : MtRes Env A := do r <- mkernel m; ret (fault_io r).

Definition is_cancelled : Mt Env bool := syscall mh_cancelled Cancelled.
Definition expired_upload_session_matches expired : MtRes Env bool :=
  do r <- syscall (mh_expired_matches expired) (ExpiredMatches expired); ret (fault_store r).
Definition claim_entry key : Mt Env bool := syscall (mh_claim key) (ClaimEntry key).
Definition unclaim_entry key : Mt Env unit := syscall (mh_unclaim key) (λ _, UnclaimEntry key).
Definition schedule_purge entry : Mt Env bool := syscall (mh_schedule entry) (SchedulePurge entry).

(** The claim is given up when its holder returns. *)
Definition under_claim {A} (key : RootedEntryKey) (m : Mt Env A) : Mt Env A :=
  do a <- m; do _ <- unclaim_entry key; ret a.

(** ** Expired upload sessions *)

Definition remove_expired_upload_record (expired : ExpiredUploadSession) (stage_removed : bool)
    : MtRes Env (option bool) :=
  do r <- syscall (mh_remove_expired expired) (RemoveExpired expired);
  ret (removed ← fault_store r; Ok (if removed : bool then Some stage_removed else None)).

Definition stored_identity_matches (expected : StoredFileIdentity) (entry : TrashEntry) : bool :=
  let actual := te_identity entry in
  negb (di_is_directory actual) && (di_device actual =? StoreModel.fi_device expected) &&
  (di_inode actual =? StoreModel.fi_inode expected).

Definition purge_single_file (entry : TrashEntry) : MtRes Env unit :=
  do gate <- syscall mh_run_purge RunPurge;
  do purged <- mkernel (purge_slice sha256 room gate entry 1);
  ret (match purged with
       | Ok RootedPurge.Complete => Ok tt
       | Ok (Pending _) =>
           Err (FaultMessage (bs "Upload artifact cleanup did not complete within its bounded slice"))
       | Err error => Err (FaultIo (tpe_source error))
       end).

(** The kinds for which the stage is taken to be gone. *)
Definition is_gone (e : IoError) : bool :=
  match io_kind e with NotFound | NotADirectory | InvalidData => true | _ => false end.

Definition cleanup_expired_running_upload (expired : ExpiredUploadSession) (stage_path : bytes)
    : MtRes Env (option bool) :=
  let finish (stage : option TrashEntry) : MtRes Env (option bool) :=
    attempt stage_removed <-
      (match stage with
       | Some stage => attempt _ <- purge_single_file stage; ok true
       | None => ok false
       end);
    attempt _ <-
      (match upload_stage_directory stage_path with
       | Some _ => attempt _ <- mio (remove_empty_upload_stage_directory fs stage_path); ok tt
       | None => ok tt
       end);
    remove_expired_upload_record expired stage_removed in
  match us_stage_identity (eu_session expired) with
  | None => remove_expired_upload_record expired false
  | Some expected_stage =>
      do captured <- mkernel (capture_entry_for_purge sha256 fs stage_path false);
      match captured with
      | Ok (Some entry) =>
          if stored_identity_matches expected_stage entry then finish (Some entry)
          else remove_expired_upload_record expired false
      | Ok None => finish None
      | Err error => if is_gone error then remove_expired_upload_record expired false else fail (FaultIo error)
      end
  end.

(** What a batch did with one session, and the batch. *)
Abbreviation Cleaned := (Mt Env (result Fault (option bool) * UploadSessionCleanupBatch)).
Definition with_batch (batch : UploadSessionCleanupBatch) (m : MtRes Env (option bool)) : Cleaned :=
  do r <- m; ret (r, batch).

(** The stage of a session that may still own it. *)
Definition cleanup_stage (expired : ExpiredUploadSession) (stage_path : bytes)
    (batch : UploadSessionCleanupBatch) : Cleaned :=
  do found <- mkernel (entry_key_blocking fs stage_path);
  match found with
  | Err error =>
      if missing_kind error then with_batch batch (remove_expired_upload_record expired false)
      else ret (Err (FaultIo error), batch)
  | Ok stage_key =>
      do claimed <- claim_entry stage_key;
      if negb claimed then ret (Ok None, batch)
      else
        with_batch (protect_entry batch stage_key) (under_claim stage_key (
          attempt current <- expired_upload_session_matches expired;
          if negb current then ok None else cleanup_expired_running_upload expired stage_path))
  end.

(** Both stored paths are the ones the session's target and id give. *)
Definition paths_are_canonical (session : StoredUploadSession) (target_path stage_path : bytes)
    (stage_mapping_is_valid : bool) : result Fault bool :=
  if negb stage_mapping_is_valid then Ok false
  else
    target ← fault_io (relative_path fs target_path);
    if negb (path_eqb target (us_target_path session)) then Ok false
    else
      stage ← fault_io (relative_path fs stage_path);
      Ok (path_eqb stage (us_stage_path session)).

Definition cleanup_expired_upload_session (expired : ExpiredUploadSession) (batch : UploadSessionCleanupBatch)
    : Cleaned :=
  let session := eu_session expired in
  let upload_id := key_id (us_key session) in
  let discard := with_batch (skip_untracked batch) (remove_expired_upload_record expired false) in
  match resolve_stored_path fs (us_target_path session), resolve_stored_path fs (us_stage_path session) with
  | Ok target_path, Ok stage_path =>
      match is_upload_temp_path sha256 to_string_lossy target_path upload_id stage_path with
      | Err _ => discard
      | Ok stage_mapping_is_valid =>
          match paths_are_canonical session target_path stage_path stage_mapping_is_valid with
          | Err error => ret (Err error, batch)
          | Ok false => discard
          | Ok true =>
              do current <- expired_upload_session_matches expired;
              match current with
              | Err error => ret (Err error, batch)
              | Ok false => ret (Ok None, batch)
              | Ok true =>
                  let retire := with_batch batch (remove_expired_upload_record expired false) in
                  match us_state session, us_stage_identity session with
                  | UCommitted, _ | UUnknown, _ => retire
                  | URejected, None => retire
                  | UCommitStarted, _ => ret (Ok None, batch)
                  | _, _ => cleanup_stage expired stage_path batch
                  end
              end
          end
      end
  | _, _ => discard
  end.

(** [batch.examined += 1]. *)
Definition examine (b : UploadSessionCleanupBatch) : UploadSessionCleanupBatch :=
  mkBatch (cb_examined b + 1) (cb_removed_records b) (cb_removed_stages b) (cb_protected_entries b)
    (cb_skip_untracked b) (cb_next_cursor b) (cb_page_complete b).

(** Counts the outcome of one session and moves the cursor past it. *)
Definition note_outcome (r : result Fault (option bool)) (key : UploadSessionKey) (b : UploadSessionCleanupBatch)
    : UploadSessionCleanupBatch :=
  let '(records, stages, skip) :=
    match r with
    | Ok (Some stage_removed) =>
        (cb_removed_records b + 1, cb_removed_stages b + Z.b2z stage_removed, cb_skip_untracked b)
    | Ok None => (cb_removed_records b, cb_removed_stages b, cb_skip_untracked b)
    | Err _ => (cb_removed_records b, cb_removed_stages b, true)
    end in
  mkBatch (cb_examined b) records stages (cb_protected_entries b) skip (Some key) (cb_page_complete b).

Fixpoint cleanup_sessions (sessions : list ExpiredUploadSession) (batch : UploadSessionCleanupBatch)
    : Mt Env UploadSessionCleanupBatch :=
  match sessions with
  | [] => ret batch
  | session :: sessions =>
      do stop <- is_cancelled;
      if stop : bool then ret batch
      else
        do (r, batch) <- cleanup_expired_upload_session session (examine batch);
        cleanup_sessions sessions (note_outcome r (us_key (eu_session session)) batch)
  end.

Definition cleanup_expired_upload_sessions_batch (after : option UploadSessionKey) (limit : Z)
    : MtRes Env UploadSessionCleanupBatch :=
  do page <- syscall (mh_expired_page after limit) (ExpiredPage after limit);
  attempt sessions <- ret (fault_store page);
  let fetched := Z.of_nat (length sessions) in
  do batch <- cleanup_sessions sessions empty_batch;
  ok (mkBatch (cb_examined batch) (cb_removed_records batch) (cb_removed_stages batch)
        (cb_protected_entries batch) (cb_skip_untracked batch) (cb_next_cursor batch)
        ((cb_examined batch =? fetched) && (fetched <? limit))).

(** ** What the store accounts for *)

Definition session_paths_are_canonical (session : StoredUploadSession) (target stage : bytes) : result Fault bool :=
  target_relative ← fault_io (relative_path fs target);
  if negb (path_eqb target_relative (us_target_path session)) then Ok false
  else
    stage_relative ← fault_io (relative_path fs stage);
    if negb (path_eqb stage_relative (us_stage_path session)) then Ok false
    else fault_text (is_upload_temp_path sha256 to_string_lossy target (key_id (us_key session)) stage).

(** The stage of an unfinished session, if it has one on disk. *)
Definition tracked_upload_entry (session : StoredUploadSession) : MtRes Env (option RootedEntryKey) :=
  attempt target <- ret (fault_io (resolve_stored_path fs (us_target_path session)));
  attempt stage <- ret (fault_io (resolve_stored_path fs (us_stage_path session)));
  attempt canonical <- ret (session_paths_are_canonical session target stage);
  attempt _ <- ret (fault_ensure canonical (bs "tracked upload paths are not canonical"));
  do found <- mkernel (metadata_nofollow fs stage);
  match found with
  | Err error => if missing_kind error then ok None else fail (FaultIo error)
  | Ok metadata =>
      attempt identity <-
        ret (ok_or (us_stage_identity session)
               (FaultMessage (bs "tracked upload has a named stage without a durable identity")));
      attempt _ <-
        ret (fault_ensure (is_stage metadata identity)
               (bs "tracked upload stage does not match its durable identity"));
      attempt key <- mio (entry_key_blocking fs stage);
      ok (Some key)
  end.

Fixpoint tracked_upload_entries (sessions : list StoredUploadSession) (entries : list RootedEntryKey)
    : MtRes Env (list RootedEntryKey) :=
  match sessions with
  | [] => ok entries
  | session :: sessions =>
      if is_terminal (us_state session) then tracked_upload_entries sessions entries
      else
        attempt entry <- tracked_upload_entry session;
        tracked_upload_entries sessions (entries ++ from_option (λ key, [key]) [] entry)
  end.

Definition tracked_upload_entries_page (after : option UploadSessionKey)
    : MtRes Env (list RootedEntryKey * option UploadSessionKey * bool) :=
  do page <- syscall (mh_sessions_page after UPLOAD_SESSION_SNAPSHOT_PAGE)
    (SessionsPage after UPLOAD_SESSION_SNAPSHOT_PAGE);
  attempt sessions <- ret (fault_store page);
  let complete := Z.of_nat (length sessions) <? UPLOAD_SESSION_SNAPSHOT_PAGE in
  let next := us_key <$> last sessions in
  attempt entries <- tracked_upload_entries sessions [];
  ok (entries, next, complete).

Definition load_tracked_upload_snapshot_page (state : MaintenanceScanState) : Mt Env MaintenanceScanState :=
  do page <- tracked_upload_entries_page (ms_snapshot_cursor state);
  ret (match page with
       | Ok (entries, next, complete) =>
           set_snapshot state complete next (ms_protected_uploads state ∪ list_to_set entries)
             (ms_skip_uploads state)
       | Err _ => set_snapshot state true (ms_snapshot_cursor state) (ms_protected_uploads state) true
       end).

Fixpoint tracked_trash_entries (jobs : list StoredPurgeJob) (entries : gset RootedEntryKey)
    : MtRes Env (gset RootedEntryKey) :=
  match jobs with
  | [] => ok entries
  | job :: jobs =>
      attempt path <- ret (fault_io (resolve_stored_path fs (pj_trash_path job)));
      attempt relative <- ret (fault_io (relative_path fs path));
      attempt _ <- ret (fault_ensure (path_eqb relative (pj_trash_path job))
                          (bs "tracked purge trash path is not canonical"));
      attempt _ <- ret (fault_ensure
          (match path_file_name path with
           | Some name => is_utf8 name && bool_decide (classify_internal_name name = Some DeleteTrash)
           | None => false
           end) (bs "tracked purge trash path is not a canonical delete-trash name"));
      attempt key <- mio (entry_key_blocking fs path);
      tracked_trash_entries jobs ({[key]} ∪ entries)
  end.

Definition tracked_purge_trash_entries : MtRes Env (gset RootedEntryKey) :=
  do jobs <- syscall (mh_purge_jobs PURGE_JOB_SNAPSHOT_LIMIT) (PurgeJobs PURGE_JOB_SNAPSHOT_LIMIT);
  attempt jobs <- ret (fault_store jobs);
  tracked_trash_entries jobs ∅.

Definition load_tracked_purge_snapshot (state : MaintenanceScanState) : Mt Env MaintenanceScanState :=
  do tracked <- tracked_purge_trash_entries;
  ret (match tracked with
       | Ok entries => set_purge_snapshot state entries (ms_skip_trash state)
       | Err _ => set_purge_snapshot state (ms_protected_trash state) true
       end).

(** ** The scan *)

(** In doubt the entry stays. *)
Definition should_preserve_stale_state_path (path : bytes) : Mt Env bool :=
  match relative_path fs path with
  | Err _ => ret true
  | Ok state_path =>
      do bound <- syscall (mh_bound state_path) (StatePathBound state_path);
      ret (match bound with Ok bound => bound | Err _ => true end)
  end.

Definition nanos (t : Z * Z) : Z := t.1 * 1000000000 + t.2.

Definition maintenance_entry_age (metadata : Metadata) (now : Z) (is_trash : bool) : Z :=
  let modified := nanos (md_mtime metadata) in
  let '(seconds, nanoseconds) := md_ctime metadata in
  let newest_change :=
    if is_trash && (0 <=? seconds) && (0 <=? nanoseconds) && (nanoseconds <? 1000000000)
    then Z.max modified (nanos (seconds, nanoseconds)) else modified in
  Z.max 0 (now - newest_change).

(** What one batch works on; [sc_late] and [sc_cancelled] are what it has seen of
    its deadline and of the shutdown. *)
Record ScanCells := mkCells {
  sc_removed : list bytes;
  sc_scheduled : list bytes;
  sc_examined : Z;
  sc_descend : option bytes;
  sc_pending_purge : option PendingMaintenancePurge;
  sc_late : bool;
  sc_cancelled : bool
}.

Definition set_stop (c : ScanCells) late cancelled : ScanCells :=
  mkCells (sc_removed c) (sc_scheduled c) (sc_examined c) (sc_descend c) (sc_pending_purge c) late cancelled.
Definition set_examined (c : ScanCells) examined : ScanCells :=
  mkCells (sc_removed c) (sc_scheduled c) examined (sc_descend c) (sc_pending_purge c) (sc_late c) (sc_cancelled c).
Definition set_descend (c : ScanCells) path : ScanCells :=
  mkCells (sc_removed c) (sc_scheduled c) (sc_examined c) (Some path) (sc_pending_purge c) (sc_late c) (sc_cancelled c).
Definition add_removed (c : ScanCells) path : ScanCells :=
  mkCells (sc_removed c ++ [path]) (sc_scheduled c) (sc_examined c) (sc_descend c) (sc_pending_purge c) (sc_late c)
    (sc_cancelled c).
Definition add_scheduled (c : ScanCells) path : ScanCells :=
  mkCells (sc_removed c) (sc_scheduled c ++ [path]) (sc_examined c) (sc_descend c) (sc_pending_purge c) (sc_late c)
    (sc_cancelled c).
Definition set_pending (c : ScanCells) pending : ScanCells :=
  mkCells (sc_removed c) (sc_scheduled c) (sc_examined c) (sc_descend c) (Some pending) (sc_late c) (sc_cancelled c).
(** [let mut descend = None; let mut pending_purge = None]. *)
Definition fresh_round (c : ScanCells) : ScanCells :=
  mkCells (sc_removed c) (sc_scheduled c) (sc_examined c) None None (sc_late c) (sc_cancelled c).

(** [StdInstant::now() >= deadline || shutdown.is_cancelled()]. *)
Definition must_stop (c : ScanCells) : Mt Env (bool * ScanCells) :=
  do late <- syscall mh_deadline BatchDeadline;
  if late || sc_late c then ret (true, set_stop c true (sc_cancelled c))
  else
    do cancelled <- is_cancelled;
    let cancelled := cancelled || sc_cancelled c in
    ret (cancelled, set_stop c false cancelled).

Section batch.
Context (options : MaintenanceBatchOptions).

Definition scan_budget (path : bytes) (c : ScanCells) : Mt Env (bool * ScanCells) :=
  if bo_max_entries options <=? sc_examined c then ret (false, c)
  else
    do (stop, c) <- must_stop c;
    if stop : bool then ret (false, c) else ret (true, set_examined c (sc_examined c + 1)).

(** The answer of the visitor: an error, or whether to go on. *)
Abbreviation Visited := (Mt Env (result IoError bool * ScanCells)).
Definition go_on (c : ScanCells) : Visited := ret (Ok true, c).

(** An entry that vanished is skipped. *)
Definition with_entry_key (path : bytes) (c : ScanCells) (k : RootedEntryKey -> Visited) : Visited :=
  do found <- mkernel (entry_key_blocking fs path);
  match found with
  | Ok key => k key
  | Err error => if missing_kind error then go_on c else ret (Err error, c)
  end.

Definition visit_stale_trash (state : MaintenanceScanState) (path : bytes) (is_dir : bool) (c : ScanCells) : Visited :=
  if ms_skip_trash state then go_on c
  else with_entry_key path c (λ entry_key,
    if bool_decide (entry_key ∈ ms_protected_trash state) then go_on c
    else
      do preserve <- should_preserve_stale_state_path path;
      if preserve : bool then go_on c
      else
        do captured <- mkernel (capture_entry_for_purge sha256 fs path is_dir);
        match captured with
        | Ok (Some purge) =>
            do accepted <- schedule_purge purge;
            if accepted : bool then go_on (add_scheduled c path)
            else ret (Ok false, set_pending c (mkPendingPurge path purge))
        | _ => go_on c
        end).

Definition visit_stale_upload (state : MaintenanceScanState) (path : bytes) (is_upload_stage : bool) (c : ScanCells)
    : Visited :=
  if ms_skip_uploads state && is_upload_stage then go_on c
  else with_entry_key path c (λ entry_key,
    if bool_decide (entry_key ∈ ms_protected_uploads state) then go_on c
    else
      do claimed <- claim_entry entry_key;
      if negb claimed then go_on c
      else under_claim entry_key (
        do preserve <- should_preserve_stale_state_path path;
        if preserve : bool then go_on c
        else
          do removed <- mkernel (remove_file_entry_blocking fs path);
          match removed with
          | Ok true => go_on (add_removed c path)
          | _ => go_on c
          end)).

(** Directories are scanned later, other files are passed over. *)
Definition enter_if (is_dir : bool) (path : bytes) (c : ScanCells) : Visited :=
  if is_dir then ret (Ok false, set_descend c path) else go_on c.

Definition visit_internal (state : MaintenanceScanState) (internal_name : option InternalEntryName)
    (is_upload_stage : bool) (entry : RootedDirEntry) (c : ScanCells) : Visited :=
  let is_dir := md_is_dir (de_metadata entry) in
  if bool_decide (internal_name = Some Quarantine) then go_on c
  else if bool_decide (internal_name = Some StageDirectory) then enter_if is_dir (de_path entry) c
  else
    let is_trash := bool_decide (internal_name = Some DeleteTrash) in
    if is_dir && negb is_trash then go_on c
    else
      let age := maintenance_entry_age (de_metadata entry) (bo_now options) is_trash in
      let ttl := if is_trash then ms_trash_ttl state else bo_upload_ttl options in
      if age <? ttl then go_on c
      else if is_trash then visit_stale_trash state (de_path entry) is_dir c
      else visit_stale_upload state (de_path entry) is_upload_stage c.

Definition scan_visitor (state : MaintenanceScanState) (scanning_upload_stage_directory : bool)
    (entry : RootedDirEntry) (c : ScanCells) : Visited :=
  let is_dir := md_is_dir (de_metadata entry) in
  let name := de_file_name entry in
  if de_is_symlink entry then go_on c
  else if negb (is_utf8 name) then enter_if is_dir (de_path entry) c
  else
    let internal_name := classify_internal_name name in
    let is_upload_stage := scanning_upload_stage_directory && is_upload_stage_name name in
    if bool_decide (internal_name = None) && negb is_upload_stage then enter_if is_dir (de_path entry) c
    else visit_internal state internal_name is_upload_stage entry c.

(** The name of the scanned directory. *)
Definition is_stage_directory (directory : bytes) : bool :=
  match path_file_name directory with
  | Some name => is_utf8 name && beqb name UPLOAD_STAGE_DIRECTORY
  | None => false
  end.

Definition names_stage_directory (directory : bytes) : bool :=
  match path_file_name directory with
  | Some name => is_utf8 name && bool_decide (classify_internal_name name = Some StageDirectory)
  | None => false
  end.

(** The end of a round on the directory at the top of the stack. *)
Definition after_round (state : MaintenanceScanState) (directory : MaintenanceDirectory)
    (rest : list MaintenanceDirectory) (progress : result IoError DirectoryVisitProgress) : Mt Env MaintenanceScanState :=
  match progress with
  | Ok DirectoryWalk.Complete =>
      do _ <-
        (if names_stage_directory (mdir_path directory)
         then do _ <- mkernel (remove_empty_upload_stage_directory_blocking fs (mdir_path directory)); ret tt
         else ret tt);
      ret (set_directories state rest)
  | Ok (Paused cursor) => ret (set_directories state (mkDirectory (mdir_path directory) cursor :: rest))
  | Err _ => ret (set_directories state rest)
  end.

(** [None] would be out of fuel. *)
Fixpoint scan_loop (fuel : nat) (state : MaintenanceScanState) (c : ScanCells)
    : Mt Env (option (MaintenanceScanState * ScanCells)) :=
  match fuel with
  | O => ret None
  | S fuel =>
      match ms_directories state with
      | [] => ret (Some (state, c))
      | directory :: rest =>
          if bo_max_entries options <=? sc_examined c then ret (Some (state, c))
          else
            do (stop, c) <- must_stop c;
            if stop : bool then ret (Some (state, c))
            else
              do (progress, c) <-
                visit_dir_blocking_chunk fs scan_budget
                  (scan_visitor state (is_stage_directory (mdir_path directory)))
                  (mdir_path directory) (mdir_cursor directory) (fresh_round c);
              do state <- after_round state directory rest progress;
              match sc_pending_purge c with
              | Some purge => ret (Some (set_pending_purge state (Some purge), c))
              | None =>
                  let state :=
                    match sc_descend c with
                    | Some path => set_directories state (mkDirectory path 0 :: ms_directories state)
                    | None => state
                    end in
                  scan_loop fuel state c
              end
      end
  end.

(** A round ends the batch, closes a directory, or examines an entry. *)
Definition scan_fuel (state : MaintenanceScanState) : nat :=
  Z.to_nat (2 * bo_max_entries options) + length (ms_directories state) + 2.

(** The purge a saturated queue refused last time. *)
Definition offer_pending (state : MaintenanceScanState) : Mt Env (MaintenanceScanState * list bytes) :=
  match ms_pending_purge state with
  | None => ret (state, [])
  | Some pending =>
      let state := set_pending_purge state None in
      do preserve <- should_preserve_stale_state_path (pm_path pending);
      if preserve : bool then ret (state, [])
      else
        do accepted <- schedule_purge (pm_entry pending);
        ret (state, if accepted : bool then [pm_path pending] else [])
  end.

Definition collect_stale_internal_files_batch (state : MaintenanceScanState)
    : Mt Env (option (MaintenanceScanState * ScanCells * bool)) :=
  do (state, scheduled) <- offer_pending state;
  do r <- scan_loop (scan_fuel state) state (mkCells [] scheduled 0 None None false false);
  ret (match r with
       | None => None
       | Some (state, c) =>
           Some (state, c, match ms_directories state, ms_pending_purge state with [], None => true | _, _ => false end)
       end).
End batch.

(** ** The loop *)

Fixpoint sync_removed (paths : list bytes) : Mt Env unit :=
  match paths with
  | [] => ret tt
  | path :: paths => do _ <- mkernel (sync_parent fs path); sync_removed paths
  end.

(** The page of expired sessions that is due. *)
Definition clean_sessions (state : MaintenanceScanState) : Mt Env MaintenanceScanState :=
  if ms_cleanup_complete state then ret state
  else
    do cleaned <- cleanup_expired_upload_sessions_batch (ms_cleanup_cursor state) UPLOAD_SESSION_CLEANUP_BATCH;
    ret (match cleaned with
         | Ok batch =>
             set_cleanup state (negb (should_continue batch)) (cb_next_cursor batch)
               (ms_protected_uploads state ∪ list_to_set (cb_protected_entries batch))
               (ms_skip_uploads state || cb_skip_untracked batch)
         | Err _ => set_cleanup state true (ms_cleanup_cursor state) (ms_protected_uploads state) true
         end).

Definition cleanup_stale_internal_files (state : MaintenanceScanState) : MtRes Env (MaintenanceScanState * bool) :=
  do state <- clean_sessions state;
  if negb (ms_cleanup_complete state) then ok (state, false)
  else
    do state <- (if ms_snapshot_complete state then ret state else load_tracked_upload_snapshot_page state);
    if negb (ms_snapshot_complete state) then ok (state, false)
    else
      do state <- (if ms_purge_snapshot_complete state then ret state else load_tracked_purge_snapshot state);
      do refused <- syscall mh_run_batch RunBatch;
      match refused with
      | Some error => fail error
      | None =>
          do now <- syscall mh_now SystemNow;
          do batch <- collect_stale_internal_files_batch (mkBatchOptions now UPLOAD_SESSION_TTL MAINTENANCE_ENTRY_BUDGET)
            state;
          match batch with
          | None => fail (FaultMessage (bs "out of fuel"))
          | Some (state, c, complete) =>
              do _ <- sync_removed (sc_removed c);
              ok (state, complete && ms_cleanup_complete state)
          end
      end.

(** One round of [run_storage_maintenance]; [None] is its end. *)
Definition maintenance_round (serve_path : bytes) (scan : MaintenanceScanState) : Mt Env (option MaintenanceScanState) :=
  do cleaned <- cleanup_stale_internal_files scan;
  let '(next, delay) :=
    match cleaned with
    | Ok (next, false) => (next, MAINTENANCE_CONTINUATION_DELAY)
    | Ok (_, true) => (new_scan serve_path TRASH_ENTRY_TTL, MAINTENANCE_INTERVAL)
    | Err _ => (new_scan serve_path TRASH_ENTRY_TTL, MAINTENANCE_CONTINUATION_DELAY)
    end in
  do shutdown <- syscall (mh_sleep delay) (Sleep delay);
  ret (if shutdown : bool then None else Some next).

(** The first [n] rounds. *)
Fixpoint run_storage_maintenance (serve_path : bytes) (n : nat) (scan : MaintenanceScanState)
    : Mt Env (option MaintenanceScanState) :=
  match n with
  | O => ret (Some scan)
  | S n =>
      do next <- maintenance_round serve_path scan;
      match next with Some scan => run_storage_maintenance serve_path n scan | None => ret None end
  end.
End maintenance.
