(* ===== verification/MaintenanceFacts.v ===== *)
(** What the storage maintenance removes: the stage of an expired session only
    while it is the inode the session recorded, and a stale internal file only
    when neither the store, nor a snapshot of it, nor a running upload accounts
    for it.  One batch of the scan comes to an end within its budget. *)

From S2P Require Import Prelude Bytes StdPath Utils StoreModel UuidText InternalNames Problem Revisions Listing PathKeys RootedOs RootedFs RootedFsSafety StageFiles RootedPurge RootedPurgeFacts DirectoryWalk UploadHost UploadRecords ActiveFiles Maintenance.
From stdpp Require Import base numbers list strings sets gmap.

Local Open Scope Z_scope.

(** ** Purging one file *)

(** Every file is unlinked right after its name was seen to be what [anchor]
    pins. *)
Definition checked (anchor : Fd) (l : list SysCall) : Prop :=
  forall before dir name removedir answer after,
    l = before ++ Unlinkat dir name removedir answer :: after ->
    removedir = false /\ exists earlier pinned named,
      before = earlier ++ [Fstat anchor (Ok pinned); Statat dir name (Ok named)] /\
      replacement_target_identity pinned = replacement_target_identity named.

Lemma unlinks_none l c : unlinks l = 0 -> c ∈ l -> is_unlink c = false.
Proof.
  induction l as [|c' l IH]; [set_solver|]. rewrite unlinks_cons. intros Hu.
  assert (0 <= unlinks l) by (unfold unlinks; lia).
  intros [->|Hc]%elem_of_cons; [destruct (is_unlink c'); [lia|done]|]. apply IH; [|done]. destruct (is_unlink c'); lia.
Qed.

Lemma checked_none anchor l : unlinks l = 0 -> checked anchor l.
Proof.
  intros Hu before dir name rd answer after E. exfalso.
  assert (is_unlink (Unlinkat dir name rd answer) = false) as [=] by (apply (unlinks_none l); [done|set_solver]).
Qed.

Lemma checked_app anchor l k : checked anchor l -> checked anchor k -> checked anchor (l ++ k).
Proof.
  intros Hl Hk before dir name rd answer after E. apply app_eq_inv in E as [(m & -> & E)|(m & -> & E)].
  - destruct m as [|c m]; cbn in E.
    + subst k. destruct (Hk [] dir name rd answer after) as (? & [|] & ? & ? & E & _); done.
    + injection E as <- ->. by eapply Hl.
  - subst k. destruct (Hk m dir name rd answer after) as (? & earlier & pinned & named & -> & Hid); [done|].
    split; [done|]. exists (l ++ earlier), pinned, named. by rewrite app_assoc.
Qed.

Lemma checked_reads anchor l : Forall reads l -> checked anchor l.
Proof. intros Hl. by apply checked_none, unlinks_reads. Qed.

Lemma checked_read anchor c l : reads c -> checked anchor l -> checked anchor (c :: l).
Proof. intros Hc Hl. apply (checked_app anchor [c]); [|done]. by apply checked_reads; repeat constructor. Qed.

Section file.
Context {Env : Type} `{Os Env} `{UuidLib} (sha256 : bytes -> bytes) (room : nat -> bool).

(** The last calls saw that [name] is what [anchor] pins. *)
Definition seen (anchor dir : Fd) (name : bytes) (c : list SysCall) : Prop :=
  exists earlier pinned named,
    c = earlier ++ [Fstat anchor (Ok pinned); Statat dir name (Ok named)] /\
    replacement_target_identity pinned = replacement_target_identity named.

Lemma isolate_seen attempts parent name anchor description :
  spec (isolate attempts parent name anchor description : Sys Env _) (λ p c,
    unlinks c = 0 /\ (p.1 = Ok true -> seen anchor parent p.2 c)).
Proof.
  induction attempts as [|n IH]; cbn [isolate]; [by apply spec_ret|].
  unfold sys_new_uuid, sys_renameat, sys_fstat, sys_statat. apply spec_bind_call. intros id.
  apply spec_bind_call. intros [[]|e].
  - repeat spec_step; (split; [by rewrite ?unlinks_cons|]); try done.
    intros _. bool_prop. by eexists [_; _], a0, a2.
  - repeat spec_step; try (by split; [rewrite ?unlinks_cons|]).
    eapply spec_weaken; [apply IH|]. intros p c [Hu Hr]. rewrite !unlinks_cons. split; [by rewrite Hu|].
    intros E. destruct (Hr E) as (earlier & pinned & named & -> & Hid). by eexists (_ :: _ :: earlier), pinned, named.
Qed.

Lemma remove_self_checked te description :
  pspec (remove_self false description : Purge Env bool) te (λ _ _ c, checked (te_root_anchor te) c).
Proof.
  unfold remove_self, isolate_self.
  eapply (pspec_bind _ _ _ (λ r te' c, unlinks c = 0 /\ te_parent te' = te_parent te /\
    (r = Ok true -> seen (te_root_anchor te) (te_parent te') (te_name te') c))).
  - unfold pspec. eapply spec_bind; [apply isolate_seen|]. intros [r name] c [Hu Hr].
    apply spec_ret. by rewrite app_nil_r.
  - intros [] te1 c (Hu & Hp & Hr); cbn [negb].
    + destruct (Hr eq_refl) as (earlier & pinned & named & -> & Hid).
      assert (Hone : forall answer after, Forall reads after ->
        checked (te_root_anchor te) ((earlier ++ [Fstat (te_root_anchor te) (Ok pinned);
          Statat (te_parent te1) (te_name te1) (Ok named)]) ++ Unlinkat (te_parent te1) (te_name te1) false answer :: after)).
      { intros answer after Ha before dir name rd answer' after' E.
        apply app_eq_inv in E as [(m & E1 & E2)|(m & -> & E2)].
        - destruct m as [|x m].
          + rewrite app_nil_r in E1. subst before. cbn in E2. injection E2 as <- <- <- <- <-.
            split; [done|]. by exists earlier, pinned, named.
          + injection E2 as <- E2. exfalso.
            assert (is_unlink (Unlinkat dir name rd answer') = false) as [=].
            { eapply unlinks_none; [exact Hu|]. rewrite E1. set_solver. }
        - destruct m as [|x m]; cbn in E2.
          + injection E2 as <- <- <- <- <-. rewrite app_nil_r. split; [done|]. by exists earlier, pinned, named.
          + injection E2 as <- E2. exfalso. rewrite Forall_forall in Ha.
            assert (reads (Unlinkat dir name rd answer')) as [=] by (apply Ha; rewrite E2; set_solver). }
      apply pspec_bind_get. eapply pspec_bind; [apply unlink_isolated_spec| |].
      * intros [] te2 c2 [-> [answer ->]]. eapply pspec_weaken; [apply sync_spec'|].
        intros r te2 c2 [_ Hc2]. cbn [app]. by apply Hone.
      * intros e te2 c2 [-> [answer ->]]. by apply Hone.
    + eapply pspec_weaken; [apply sync_spec'|]. intros r te2 c2 [_ Hc2].
      apply checked_app; [by apply checked_none|by apply checked_reads].
  - intros e te1 c (Hu & _). by apply checked_none.
Qed.

Lemma sync_checked anchor te : pspec (sync_and_finish : Purge Env bool) te (λ _ _ c, checked anchor c).
Proof. eapply pspec_weaken; [apply sync_spec'|]. intros r te' c [_ Hc]. by apply checked_reads. Qed.

Lemma purge_file_checked te :
  pspec (purge_file sha256 : Purge Env bool) te (λ _ _ c, checked (te_root_anchor te) c).
Proof.
  unfold purge_file, sys_interrupted, sys_deadline, sys_fstat, sys_statat.
  repeat pstep; intros; try (by apply checked_reads; repeat constructor);
    (eapply pspec_weaken; [apply remove_self_checked || apply (sync_checked (te_root_anchor te))|]);
    intros; repeat (apply checked_read; [done|]); done.
Qed.

Lemma purge_slice_checked gate te max_entries :
  te_is_dir te = false ->
  spec (purge_slice sha256 room gate te max_entries : Sys Env _) (λ _ c, checked (te_root_anchor te) c).
Proof.
  intros Hd. unfold purge_slice. destruct gate as [e|]; [apply spec_ret; by apply checked_reads|].
  eapply (spec_bind _ _ (λ _ c, checked (te_root_anchor te) c)).
  2: { intros [r te'] c Hc. apply spec_ret. by rewrite app_nil_r. }
  unfold slice_worker. eapply (spec_bind _ _ (λ _ c, checked (te_root_anchor te) c)).
  - change (pspec (purge_slice_blocking sha256 room (Z.max max_entries 1)) te (λ _ _ c, checked (te_root_anchor te) c)).
    unfold purge_slice_blocking. apply pspec_bind_get. rewrite Hd. cbn [negb].
    eapply pspec_bind; [apply purge_file_checked| |done]. intros complete te' c Hc. apply pspec_ret. by rewrite app_nil_r.
  - intros [[o|e] te'] c Hc; [apply spec_ret; by rewrite app_nil_r|].
    case_bool_decide; [|apply spec_ret; by rewrite app_nil_r].
    assert (Hq : forall c', unlinks c' = 0 -> checked (te_root_anchor te) (c ++ c')).
    { intros c' Hu. apply checked_app; [done|by apply checked_none]. }
    change (pspec (step _ <- quarantine_after_identity_error_blocking; pfail e : Purge Env (option bool)) te'
      (λ _ _ c', checked (te_root_anchor te) (c ++ c'))).
    eapply pspec_bind; [apply (quarantine_spec sha256)| |].
    + intros [] te'' c' (_ & Hu & _). apply pspec_fail. rewrite app_nil_r. by apply Hq.
    + intros e' te'' c' (_ & Hu & _). by apply Hq.
Qed.
End file.

(** ** Names *)

Section names.
Context {Env : Type} `{Os Env} `{FileOs Env} `{UuidLib} (sha256 : bytes -> bytes) (fs : RootedFs).

(** [name] is what the rooted file system calls the last component of [path]. *)
Definition entry_name (path name : bytes) : Prop :=
  exists relative, relative_path fs path = Ok relative /\ path_file_name relative = Some name.

Lemma entry_name_inj path n n' : entry_name path n -> entry_name path n' -> n = n'.
Proof. intros (r & E & Hn) (r' & E' & Hn'). congruence. Qed.

Lemma open_parent_named path :
  spec (open_parent_blocking fs path false : Io Env _) (λ r c,
    Forall reads c /\ forall parent, r = Ok parent -> entry_name path (op_name parent)).
Proof.
  apply spec_and; [apply open_parent_reads|]. unfold open_parent_blocking, open_parent_with, sys_dup.
  apply spec_attempt_ret; [intros relative Hr|done]. apply spec_attempt_ret; [intros name Hn|done].
  assert (path_file_name relative = Some name) as Hn' by (destruct (path_file_name relative); cbn in Hn; congruence).
  apply spec_attempt_call; [intros current|done].
  eapply (spec_bind_ok _ _ (λ _ _, True)); [|intros [current' created] c _|done].
  - eapply spec_weaken; [apply open_ancestors_reads; intros; apply emits_ret|done].
  - apply spec_ret. intros parent [= <-]. by exists relative.
Qed.

Lemma entry_key_named path :
  spec (entry_key_blocking fs path : Io Env _) (λ r c,
    Forall reads c /\ forall key, r = Ok key -> entry_name path (ek_name key)).
Proof.
  unfold entry_key_blocking, sys_dup, sys_file_metadata. eapply spec_bind_ok; [apply open_parent_named| |by intros e c [? _]].
  intros parent c [Hc Hn]. specialize (Hn _ eq_refl). apply spec_attempt_call; [intros file|intros e].
  - unfold bind_ok. apply spec_bind_call. intros [m|e]; apply spec_ret; (split; [|intros key [= <-]; done]);
      apply Forall_app; (split; [done|by repeat constructor]).
  - split; [|done]. apply Forall_app. split; [done|by repeat constructor].
Qed.

(** At most one file is unlinked, the one at this path. *)
Lemma remove_file_spec path :
  spec (remove_file_entry_blocking fs path : Io Env _) (λ _ c,
    Forall reads c \/ exists looks dir name answer,
      c = looks ++ [Unlinkat dir name false answer] /\ Forall reads looks /\ entry_name path name /\
      entry_at fs looks dir name path).
Proof.
  unfold remove_file_entry_blocking, sys_unlinkat.
  eapply spec_bind; [apply spec_and; [apply open_parent_named|apply open_parent_at]|].
  intros [parent|error] c [[Hc Hn] [_ Ha]].
  - apply spec_bind_call. intros answer. assert (Hend : forall r : result IoError bool,
      spec (ret r : Io Env bool) (λ _ c0, Forall reads (c ++ Unlinkat (op_fd parent) (op_name parent) false answer :: c0) \/
        exists looks dir name answer0, c ++ Unlinkat (op_fd parent) (op_name parent) false answer :: c0 =
          looks ++ [Unlinkat dir name false answer0] /\ Forall reads looks /\ entry_name path name /\
          entry_at fs looks dir name path)).
    { intros r. apply spec_ret. right. exists c, (op_fd parent), (op_name parent), answer. split_and!; [done|done| |].
      - by apply Hn.
      - by apply Ha. }
    destruct answer as [[]|e]; [apply Hend|]. case_match; apply Hend.
  - case_match; apply spec_ret; left; by rewrite app_nil_r.
Qed.

(** At most one directory is removed, the stage directory of this name. *)
Definition stage_directory_only (directory : bytes) (call : SysCall) : Prop :=
  reads call \/ exists dir name answer, call = Unlinkat dir name true answer /\
    is_stage_directory directory = true /\ entry_name directory name.

Lemma classify_stage_directory name : classify_internal_name name = Some StageDirectory -> name = UPLOAD_STAGE_DIRECTORY.
Proof.
  unfold classify_internal_name. destruct (beqb name UPLOAD_STAGE_DIRECTORY) eqn:E; [intros _; by apply beqb_true|].
  repeat case_match; done.
Qed.

Lemma remove_stage_directory_spec directory :
  emits (stage_directory_only directory) (remove_empty_upload_stage_directory_blocking fs directory : Io Env _).
Proof.
  assert (Hreads : forall c, Forall reads c -> Forall (stage_directory_only directory) c).
  { intros c Hc. eapply Forall_impl; [exact Hc|]. by left. }
  unfold remove_empty_upload_stage_directory_blocking. apply spec_attempt_ret; [intros relative _|done].
  destruct (negb _) eqn:Hname; [by apply spec_ret|]. apply negb_false_iff in Hname.
  assert (Hstage : is_stage_directory directory = true).
  { unfold is_stage_directory. destruct (path_file_name directory) as [name|]; [|done].
    apply andb_true_iff in Hname as [-> Hname%bool_decide_eq_true]. apply classify_stage_directory in Hname as ->.
    by rewrite beqb_refl. }
  eapply spec_bind; [apply open_parent_named|]. intros [parent|error] c [Hc Hn].
  2: { destruct (missing_kind error); apply spec_ret; rewrite app_nil_r; by apply Hreads. }
  specialize (Hn _ eq_refl). eapply spec_weaken; [|intros r c' Hc'; apply Forall_app; split; [by apply Hreads|exact Hc']].
  match goal with |- spec ?m _ => change (emits (stage_directory_only directory) m) end.
  unfold open_private_upload_stage_directory_at, open_upload_stage_directory_at, sys_openat, sys_fstat, sys_statat,
    sys_unlinkat, sys_fsync, sys_fchmod. cbn [andb].
  repeat emits_step; try (by left). right. by eexists _, _, _.
Qed.
End names.

(** ** Expired sessions *)

Definition is_kernel_change (e : MaintenanceEvent) : bool := match e with MKernel c => mutates c | _ => false end.

Section expired.
Context {Env : Type} `{Os Env} `{FileOs Env} `{MaintenanceHost Env} `{UuidLib}.
Context (sha256 : bytes -> bytes) (to_string_lossy : bytes -> bytes) (room : nat -> bool) (fs : RootedFs).

(** A change of the tree on behalf of the stage that [expired] recorded: the
    entry is set aside, its inode is unlinked, or the empty directory of stages
    is removed. *)
Definition allowed (expired : ExpiredUploadSession) (before : list MaintenanceEvent) (c : SysCall) : Prop :=
  match c with
  | Renameat from _ to new_name noreplace _ => from = to /\ noreplace = true /\ exists id, new_name = quarantine_name id
  | Unlinkat _ name true _ => exists directory, is_stage_directory directory = true /\ entry_name fs directory name
  | Unlinkat dir name false _ =>
      exists identity anchor opened earlier pinned named,
        us_stage_identity (eu_session expired) = Some identity /\
        MKernel (Fstat anchor (Ok opened)) ∈ before /\
        st_dev opened = StoreModel.fi_device identity /\ st_ino opened = StoreModel.fi_inode identity /\
        before = earlier ++ [MKernel (Fstat anchor (Ok pinned)); MKernel (Statat dir name (Ok named))] /\
        replacement_target_identity pinned = replacement_target_identity named
  | _ => False
  end.

(** The events of the work on one stage. *)
Definition acts (expired : ExpiredUploadSession) (l : list MaintenanceEvent) : Prop :=
  (forall before c after, l = before ++ MKernel c :: after -> mutates c = true -> allowed expired before c) /\
  (forall e answer, RemoveExpired e answer ∈ l -> e = expired) /\
  (forall key, UnclaimEntry key ∉ l).

Lemma tidy_changes l c : tidy l -> c ∈ l -> mutates c = true ->
  is_unlink c = true \/ exists dir old id answer, c = Renameat dir old dir (quarantine_name id) true answer.
Proof.
  induction 1 as [|c' l Hc Hl IH|dir old id answer l Hl IH|dir old id anchor pinned named rd answer l Hid Hl IH].
  - set_solver.
  - intros [->|Hin]%elem_of_cons Hm; [unfold reads in Hc; congruence|auto].
  - intros [->|Hin]%elem_of_cons Hm; [right; eauto|auto].
  - rewrite !elem_of_cons. intros [->|[->|[->|[->|Hin]]]] Hm; [right; eauto|done|done|by left|auto].
Qed.

Lemma acts_quiet expired l :
  (forall e, e ∈ l -> is_kernel_change e = false /\ (forall x a, e = RemoveExpired x a -> x = expired) /\
    (forall key, e <> UnclaimEntry key)) -> acts expired l.
Proof.
  intros Hl. split_and!.
  - intros before c after -> Hm. destruct (Hl (MKernel c)) as [Hc _]; [set_solver|]. cbn in Hc. congruence.
  - intros e answer Hin. by destruct (Hl _ Hin) as (_ & Hr & _); eapply Hr.
  - intros key Hin. by destruct (Hl _ Hin) as (_ & _ & Hu); eapply Hu.
Qed.

Lemma acts_app expired l k :
  acts expired l ->
  (forall before c after, k = before ++ MKernel c :: after -> mutates c = true -> allowed expired (l ++ before) c) ->
  (forall e answer, RemoveExpired e answer ∈ k -> e = expired) -> (forall key, UnclaimEntry key ∉ k) ->
  acts expired (l ++ k).
Proof.
  intros (Hl & Hr & Hu) Hk Hr' Hu'. split_and!.
  - intros before c after E Hm. apply app_eq_inv in E as [(m & -> & E)|(m & -> & E)].
    + destruct m as [|x m]; cbn in E.
      * subst k. specialize (Hk [] c after eq_refl Hm). rewrite !app_nil_r in *. exact Hk.
      * injection E as <- ->. by eapply Hl.
    + subst k. by eapply Hk.
  - intros e answer [?|?]%elem_of_app; eauto.
  - intros key [?|?]%elem_of_app; [by eapply Hu|by eapply Hu'].
Qed.

Lemma kernel_split l before c after :
  map MKernel l = before ++ MKernel c :: after ->
  exists b a, l = b ++ c :: a /\ before = map MKernel b /\ after = map MKernel a.
Proof.
  revert before. induction l as [|x l IH]; intros [|e before] E; try done; cbn in E.
  - injection E as -> <-. by exists [], l.
  - injection E as <- E. destruct (IH _ E) as (b & a & -> & -> & ->). by exists (x :: b), a.
Qed.

Lemma acts_reads expired l calls :
  acts expired l -> Forall reads calls -> acts expired (l ++ map MKernel calls).
Proof.
  intros Hl Hc. apply acts_app; [done| | |].
  - intros before c after (b & a & -> & _)%kernel_split Hm. apply Forall_app in Hc as [_ [Hc _]%Forall_cons].
    unfold reads in Hc. congruence.
  - intros e answer (? & ? & ?)%list_elem_of_fmap. done.
  - intros key (? & ? & ?)%list_elem_of_fmap. done.
Qed.

(** An event that is no system call. *)
Lemma acts_event expired l e :
  acts expired l -> match e with MKernel _ | UnclaimEntry _ => False | RemoveExpired x _ => x = expired | _ => True end ->
  acts expired (l ++ [e]).
Proof.
  intros Hl He. apply acts_app; [done| | |].
  - intros before c after E. destruct before as [|x before]; [by injection E as ->|]. by destruct before.
  - intros x answer <-%list_elem_of_singleton. done.
  - intros key <-%list_elem_of_singleton. done.
Qed.

Lemma acts_stage_directory expired directory l calls :
  acts expired l -> Forall (stage_directory_only fs directory) calls -> acts expired (l ++ map MKernel calls).
Proof.
  intros Hl Hc. apply acts_app; [done| | |].
  - intros before c after (b & a & -> & _)%kernel_split Hm. apply Forall_app in Hc as [_ [Hc _]%Forall_cons].
    destruct Hc as [Hc|(dir & name & answer & -> & Hs & Hn)]; [unfold reads in Hc; congruence|]. by exists directory.
  - intros e answer (? & ? & ?)%list_elem_of_fmap. done.
  - intros key (? & ? & ?)%list_elem_of_fmap. done.
Qed.

(** The purge of a file that was captured with the recorded identity. *)
Lemma acts_purge expired identity anchor opened l calls :
  acts expired l -> us_stage_identity (eu_session expired) = Some identity ->
  MKernel (Fstat anchor (Ok opened)) ∈ l ->
  st_dev opened = StoreModel.fi_device identity -> st_ino opened = StoreModel.fi_inode identity ->
  tidy calls -> checked anchor calls -> acts expired (l ++ map MKernel calls).
Proof.
  intros Hl Hid Hin Hd Hi Ht Hch. apply acts_app; [done| | |].
  - intros before c after (b & a & -> & -> & _)%kernel_split Hm.
    destruct (tidy_changes _ c Ht) as [Hu|(dir & old & id & answer & ->)]; [set_solver|done| |by cbn; eauto].
    destruct c as [| | | | | |dir name rd answer| | | | | | | | | | | | | | | | |]; try done.
    destruct (Hch b dir name rd answer a eq_refl) as (-> & earlier & pinned & named & -> & E).
    exists identity, anchor, opened, (l ++ map MKernel earlier), pinned, named. split_and!; try done.
    + apply elem_of_app. by left.
    + by rewrite map_app, app_assoc.
  - intros e answer (? & ? & ?)%list_elem_of_fmap. done.
  - intros key (? & ? & ?)%list_elem_of_fmap. done.
Qed.

Lemma capture_file_spec path :
  spec (capture_entry_for_purge sha256 fs path false : Io Env _) (λ r c,
    Forall reads c /\ forall te, r = Ok (Some te) ->
      te_is_dir te = false /\ exists opened,
        Fstat (te_root_anchor te) (Ok opened) ∈ c /\ te_identity te = delete_identity_from_stat opened).
Proof.
  unfold capture_entry_for_purge, capture_entry_for_purge_with_type_blocking, sys_openat, sys_fstat, sys_statat.
  eapply spec_bind; [apply open_parent_named|]. intros [parent|error] c [Hc _].
  2: { destruct (missing_kind error); apply spec_ret; by rewrite app_nil_r. }
  assert (Hk : forall c', Forall reads c' -> Forall reads (c ++ c')) by (intros; by apply Forall_app).
  apply spec_bind_call. intros [anchor|e]; [|destruct (e =? NOENT); apply spec_ret; (split; [|done]); apply Hk; by repeat constructor].
  apply spec_attempt_call; [intros opened|intros e; (split; [|done]); apply Hk; by repeat constructor].
  apply spec_bind_call. intros [named|e];
    [|destruct (e =? NOENT); apply spec_ret; (split; [|done]); apply Hk; by repeat constructor].
  destruct (negb _); [apply spec_ret; (split; [|done]); apply Hk; by repeat constructor|].
  destruct (negb (Bool.eqb _ _)) eqn:Hdir; [apply spec_ret; (split; [|done]); apply Hk; by repeat constructor|].
  apply spec_ret. split; [apply Hk; by repeat constructor|]. intros te [= <-].
  split; [by apply negb_false_iff, Bool.eqb_prop in Hdir|]. exists opened. split; [set_solver|done].
Qed.

Lemma remove_record_acts expired h stage_removed :
  acts expired h -> spec (remove_expired_upload_record expired stage_removed : MtRes Env _) (λ _ l, acts expired (h ++ l)).
Proof. intros Hh. apply spec_bind_call. intros r. apply spec_ret. by apply acts_event. Qed.

(** After the stage, its directory and the record. *)
Lemma finish_acts expired h stage_path stage_removed :
  acts expired h ->
  spec (attempt _ <-
          (match upload_stage_directory stage_path with
           | Some _ => attempt _ <- mio (remove_empty_upload_stage_directory fs stage_path); ok tt
           | None => ok tt
           end);
        remove_expired_upload_record expired stage_removed : MtRes Env _) (λ _ l, acts expired (h ++ l)).
Proof.
  intros Hh. eapply (spec_bind_ok _ _ (λ _ l, acts expired (h ++ l))); [|intros [] l Hl|done].
  2: { eapply spec_weaken; [by apply remove_record_acts|]. intros r k. by rewrite app_assoc. }
  destruct (upload_stage_directory stage_path); [|apply spec_ret; by rewrite app_nil_r].
  unfold mio. apply spec_bind_assoc.
  eapply (spec_bind_lifted _ _ _ (λ _ c, exists directory, Forall (stage_directory_only fs directory) c)).
  - unfold remove_empty_upload_stage_directory. apply spec_attempt_ret; [|intros; by exists []].
    intros [directory name] _. eapply spec_weaken; [apply remove_stage_directory_spec|].
    intros r c Hc. by exists directory.
  - intros r calls [directory Hc]. apply spec_bind_ret. destruct r; apply spec_ret; rewrite app_nil_r;
      by eapply acts_stage_directory.
Qed.

Lemma running_acts expired h stage_path :
  acts expired h ->
  spec (cleanup_expired_running_upload sha256 room fs expired stage_path : MtRes Env _) (λ _ l, acts expired (h ++ l)).
Proof.
  intros Hh. unfold cleanup_expired_running_upload. destruct (us_stage_identity (eu_session expired)) as [identity|] eqn:Hid;
    [|by apply remove_record_acts].
  eapply spec_bind_lifted; [apply capture_file_spec|]. intros captured calls [Hc Hte].
  pose proof (acts_reads expired h calls Hh Hc) as Hh'.
  assert (Hgo : forall (m : MtRes Env (option bool)),
    (forall k, acts expired k -> spec m (λ _ l, acts expired (k ++ l))) ->
    spec m (λ _ l, acts expired (h ++ map MKernel calls ++ l))).
  { intros m Hm. eapply spec_weaken; [apply (Hm _ Hh')|]. intros r l Hl. by rewrite app_assoc. }
  destruct captured as [[entry|]|error].
  - destruct (stored_identity_matches identity entry) eqn:Hmatch; [|apply Hgo; intros; by apply remove_record_acts].
    destruct (Hte _ eq_refl) as (Hdir & opened & Hin & Hident). unfold stored_identity_matches in Hmatch.
    rewrite Hident in Hmatch. cbn in Hmatch. bool_prop.
    assert (Hseen : MKernel (Fstat (te_root_anchor entry) (Ok opened)) ∈ h ++ map MKernel calls).
    { apply elem_of_app. right. apply list_elem_of_fmap. eauto. }
    eapply (spec_bind_ok _ _ (λ _ l, acts expired ((h ++ map MKernel calls) ++ l))).
    + unfold purge_single_file. apply spec_bind_assoc, spec_bind_call. intros gate. apply spec_bind_assoc.
      eapply spec_bind_lifted; [apply spec_and; [apply purge_slice_tidy|by apply purge_slice_checked]|].
      intros purged purges [Ht Hch]. apply spec_bind_ret.
      assert (Hend : acts expired ((h ++ map MKernel calls) ++ RunPurge gate :: map MKernel purges)).
      { rewrite (app_assoc _ [RunPurge gate] (map MKernel purges)). eapply acts_purge; try done; [by apply acts_event|].
        apply elem_of_app. by left. }
      destruct purged as [[|pending]|error]; apply spec_ret; by rewrite app_nil_r.
    + intros stage_removed l Hl. eapply spec_weaken; [by apply finish_acts|]. intros r k. by rewrite <-!app_assoc.
    + intros e l Hl. by rewrite app_assoc.
  - apply Hgo. intros k Hk. apply (finish_acts expired k stage_path false Hk).
  - destruct (is_gone error); [apply Hgo; intros; by apply remove_record_acts|]. apply spec_ret. by rewrite app_nil_r.
Qed.

(** The states in which a session may still own its stage. *)
Definition owns_stage (state : StoredUploadState) : bool :=
  match state with URunning | URejected | UAwaitingConfirmation => true | _ => false end.

(** The change is made for [expired], under a claim on its stage, after the
    store confirmed that the session is still the one that expired. *)
Definition permitted (expired : ExpiredUploadSession) (before : list MaintenanceEvent) (c : SysCall) : Prop :=
  owns_stage (us_state (eu_session expired)) = true /\ allowed expired before c /\
  exists earlier key later,
    before = earlier ++ ClaimEntry key true :: ExpiredMatches expired (Ok true) :: later /\
    UnclaimEntry key ∉ later.

Lemma allowed_later expired l before c : allowed expired before c -> allowed expired (l ++ before) c.
Proof.
  destruct c as [| | | | | |dir name [] answer| | | | | | | | | | | | | | | | |]; try done.
  intros (identity & anchor & opened & earlier & pinned & named & Hid & Hin & Hd & Hi & -> & E).
  exists identity, anchor, opened, (l ++ earlier), pinned, named. split_and!; try done; [|by rewrite app_assoc].
  apply elem_of_app. by right.
Qed.

Lemma permitted_later expired l before c : permitted expired before c -> permitted expired (l ++ before) c.
Proof.
  intros (Hs & Ha & earlier & key & later & -> & Hn). split; [done|]. split; [by apply allowed_later|].
  exists (l ++ earlier), key, later. by rewrite app_assoc.
Qed.

(** What the cleanup of some of [sessions] does. *)
Definition retires (sessions : list ExpiredUploadSession) (l : list MaintenanceEvent) : Prop :=
  (forall before c after, l = before ++ MKernel c :: after -> mutates c = true ->
    exists expired, expired ∈ sessions /\ permitted expired before c) /\
  (forall e answer, RemoveExpired e answer ∈ l -> e ∈ sessions).

Lemma retires_app sessions l k : retires sessions l -> retires sessions k -> retires sessions (l ++ k).
Proof.
  intros [Hl Hr] [Hk Hr']. split; [|intros e answer [?|?]%elem_of_app; eauto].
  intros before c after E Hm. apply app_eq_inv in E as [(m & -> & E)|(m & -> & E)].
  - destruct m as [|x m]; cbn in E; [|injection E as <- ->; by eapply Hl].
    subst k. destruct (Hk [] c after eq_refl Hm) as (x & Hx & Hp). exists x. split; [done|].
    rewrite app_nil_r in *. rewrite <-(app_nil_r before). by apply permitted_later.
  - subst k. destruct (Hk m c after eq_refl Hm) as (x & Hx & Hp). exists x. split; [done|]. by apply permitted_later.
Qed.

Lemma retires_mono sessions sessions' l : sessions ⊆ sessions' -> retires sessions l -> retires sessions' l.
Proof.
  intros Hsub [Hl Hr]. split; [|intros e answer He; by eapply Hsub, Hr].
  intros before c after E Hm. destruct (Hl before c after E Hm) as (x & Hx & Hp). exists x. split; [by apply Hsub|done].
Qed.

Lemma retires_reads sessions calls : Forall reads calls -> retires sessions (map MKernel calls).
Proof.
  intros Hc. split; [|intros e answer (? & ? & ?)%list_elem_of_fmap; done].
  intros before c after (b & a & -> & _)%kernel_split Hm. apply Forall_app in Hc as [_ [Hc _]%Forall_cons].
  unfold reads in Hc. congruence.
Qed.

Lemma retires_event sessions e :
  match e with MKernel _ => False | RemoveExpired x _ => x ∈ sessions | _ => True end -> retires sessions [e].
Proof.
  intros He. split; [|intros x answer <-%list_elem_of_singleton; done].
  intros before c after E. destruct before as [|x before]; [by injection E as ->|]. by destruct before.
Qed.
Lemma retires_nil sessions : retires sessions [].
Proof. apply (retires_reads sessions []). constructor. Qed.

(** The work under a claim. *)
Lemma retires_claimed sessions expired key l :
  expired ∈ sessions -> owns_stage (us_state (eu_session expired)) = true -> acts expired l ->
  retires sessions (ClaimEntry key true :: ExpiredMatches expired (Ok true) :: l).
Proof.
  intros Hin Hown (Ha & Hr & Hu). split.
  - intros before c after E Hm. destruct before as [|e1 [|e2 before]]; [done..|].
    injection E as <- <- E. exists expired. split; [done|]. split; [done|]. split.
    + apply (allowed_later expired [_; _]). by eapply Ha.
    + exists [], key, before. split; [done|]. intros Hk. apply (Hu key). rewrite E. set_solver.
  - intros e answer Hin'. assert (RemoveExpired e answer ∈ l) as Hl by set_solver. by rewrite (Hr _ _ Hl).
Qed.

Lemma remove_record_retires sessions expired stage_removed :
  expired ∈ sessions ->
  spec (remove_expired_upload_record expired stage_removed : MtRes Env _) (λ _ l, retires sessions l).
Proof. intros Hin. apply spec_bind_call. intros r. apply spec_ret. by apply retires_event. Qed.

Lemma cleanup_stage_retires sessions expired stage_path batch :
  expired ∈ sessions -> owns_stage (us_state (eu_session expired)) = true ->
  spec (cleanup_stage sha256 room fs expired stage_path batch : Mt Env _) (λ _ l, retires sessions l).
Proof.
  intros Hin Hown. unfold cleanup_stage, with_batch, under_claim, claim_entry, unclaim_entry, expired_upload_session_matches.
  eapply spec_bind_lifted; [apply entry_key_named|]. intros found calls [Hc%(retires_reads sessions) _].
  destruct found as [key|error].
  - apply spec_bind_call. intros []; cbn [negb].
    2: { apply spec_ret. apply retires_app; [done|by apply retires_event]. }
    apply spec_bind_assoc, spec_bind_assoc, spec_bind_assoc, spec_bind_call. intros current. apply spec_bind_ret.
    assert (Hleave : forall l, retires sessions (ClaimEntry key true :: ExpiredMatches expired current :: l) ->
      retires sessions (map MKernel calls ++ ClaimEntry key true :: ExpiredMatches expired current :: l ++ [UnclaimEntry key])).
    { intros l Hl. apply retires_app; [done|]. apply (retires_app sessions (_ :: _ :: l)); [done|by apply retires_event]. }
    assert (Hquiet : retires sessions [ClaimEntry key true; ExpiredMatches expired current]).
    { apply (retires_app sessions [_] [_]); by apply retires_event. }
    destruct current as [[]|m]; cbn [fault_store negb].
    + eapply spec_bind; [by apply (running_acts expired []), acts_quiet; set_solver|]. intros r l Hl. cbn [app] in Hl.
      apply spec_bind_assoc, spec_bind_call. intros []. apply spec_bind_ret, spec_ret. by apply Hleave, retires_claimed.
    + apply spec_bind_ret, spec_bind_assoc, spec_bind_call. intros []. apply spec_bind_ret, spec_ret. by apply (Hleave []).
    + apply spec_bind_ret, spec_bind_assoc, spec_bind_call. intros []. apply spec_bind_ret, spec_ret. by apply (Hleave []).
  - destruct (missing_kind error).
    + eapply spec_bind; [by apply remove_record_retires|]. intros r l Hl. apply spec_ret. rewrite app_nil_r.
      by apply retires_app.
    + apply spec_ret. by rewrite app_nil_r.
Qed.

Lemma session_retires sessions expired batch :
  expired ∈ sessions ->
  spec (cleanup_expired_upload_session sha256 to_string_lossy room fs expired batch : Mt Env _) (λ _ l, retires sessions l).
Proof.
  intros Hin. assert (Hdiscard : forall b, spec (with_batch b (remove_expired_upload_record expired false) : Mt Env _)
    (λ _ l, retires sessions l)).
  { intros b. eapply spec_bind; [by apply remove_record_retires|]. intros r l Hl. apply spec_ret. by rewrite app_nil_r. }
  unfold cleanup_expired_upload_session, expired_upload_session_matches.
  destruct (resolve_stored_path fs (us_target_path (eu_session expired))) as [target|]; [|apply Hdiscard].
  destruct (resolve_stored_path fs (us_stage_path (eu_session expired))) as [stage|]; [|apply Hdiscard].
  destruct (is_upload_temp_path _ _ _ _ _) as [valid|]; [|apply Hdiscard].
  destruct (paths_are_canonical _ _ _ _ _) as [[]|e]; [|apply Hdiscard|apply spec_ret, retires_nil].
  apply spec_bind_assoc, spec_bind_call. intros current. apply spec_bind_ret.
  assert (Hev : retires sessions [ExpiredMatches expired current]) by by apply retires_event.
  assert (Hgo : forall A (m : Mt Env A), spec m (λ _ l, retires sessions l) ->
    spec m (λ _ l, retires sessions (ExpiredMatches expired current :: l))).
  { intros A m Hm. eapply spec_weaken; [exact Hm|]. intros r l Hl. by apply (retires_app sessions [_]). }
  destruct current as [[]|m]; cbn [fault_store]; [|by apply spec_ret..].
  destruct (us_state (eu_session expired)) eqn:Hs;
    try (destruct (us_stage_identity (eu_session expired))); try (by apply Hgo, Hdiscard); try (by apply spec_ret);
    apply Hgo, cleanup_stage_retires; rewrite ?Hs; done.
Qed.

(** C17: A page of expired sessions is cleaned up without touching anything else:
    every change of the tree is made for one of its sessions that may still own
    its stage, never one that is committing or whose outcome is settled, under a
    claim that no upload shares, and after the store confirmed the session once
    more; a file is unlinked only under a quarantine name and right after it was
    seen to be the inode that the session recorded as its stage.  Only records
    of the page are removed. *)
Theorem expired_cleanup_is_identity_safe after limit :
  spec (cleanup_expired_upload_sessions_batch sha256 to_string_lossy room fs after limit : MtRes Env _) (λ _ l,
    exists page l', l = ExpiredPage after limit page :: l' /\
      retires (match page with Ok sessions => sessions | Err _ => [] end) l').
Proof.
  unfold cleanup_expired_upload_sessions_batch. apply spec_bind_call. intros page.
  apply spec_attempt_ret; [intros sessions Hpage|intros e _; eexists _, []; split; [done|apply retires_nil]].
  destruct page as [page|]; [injection Hpage as ->|done].
  eapply (spec_bind _ _ (λ _ l, retires sessions l)).
  2: { intros batch l Hl. apply spec_ret. rewrite app_nil_r. by eexists _, l. }
  assert (Hsub : sessions ⊆ sessions) by done. revert Hsub. generalize empty_batch. generalize sessions at 1 3 as todo.
  induction todo as [|session todo IH]; intros batch Hsub; cbn [cleanup_sessions]; [apply spec_ret, retires_nil|].
  unfold is_cancelled. apply spec_bind_call. intros []; [apply spec_ret; by apply retires_event|].
  eapply spec_bind; [apply (session_retires sessions); set_solver|]. intros [r batch'] l Hl.
  eapply spec_weaken; [apply IH; set_solver|]. intros b k Hk.
  apply (retires_app sessions [_]); [by apply retires_event|by apply retires_app].
Qed.
End expired.
