(* ===== verification/MaintenanceScan.v ===== *)
(** One batch of the maintenance scan: what it removes, and that it ends. *)

From S2P Require Import Prelude Bytes StdPath Utils StoreModel UuidText InternalNames Problem Revisions Listing PathKeys RootedOs RootedFs RootedFsSafety StageFiles RootedPurge RootedPurgeFacts DirectoryWalk UploadHost UploadRecords ActiveFiles Maintenance MaintenanceFacts.
From stdpp Require Import base numbers list strings sets gmap.

Local Open Scope Z_scope.

(** ** Visiting a directory inside a larger program *)

Section visit_rule.
Context {Env : Type} `{Os Env} (fs : RootedFs) {S : Type}.
Context (budget : bytes -> S -> Mt Env (bool * S)).
Context (visitor : RootedDirEntry -> S -> Mt Env (result IoError bool * S)).
(** Over the state and everything logged so far: [I] holds between entries, [J]
    after an entry was admitted, [F] at the end. *)
Context (I J : S -> list MaintenanceEvent -> Prop).
Context (F : result IoError DirectoryVisitProgress -> S -> list MaintenanceEvent -> Prop).
Context (HI : forall s h calls, I s h -> Forall reads calls -> I s (h ++ map MKernel calls)).
Context (HJ : forall s h calls, J s h -> Forall reads calls -> J s (h ++ map MKernel calls)).
Context (Hbudget : forall p s h, I s h -> spec (budget p s) (λ '(wanted, s') l,
  if wanted : bool then J s' (h ++ l) else forall c, F (Ok (Paused c)) s' (h ++ l))).
Context (Hvisitor : forall e s h fd, J s h -> MKernel (FileMetadata fd (Ok (de_metadata e))) ∈ h ->
  spec (visitor e s) (λ '(r, s') l,
    match r with
    | Ok true => I s' (h ++ l)
    | Ok false => forall c, F (Ok (Paused c)) s' (h ++ l)
    | Err e => F (Err e) s' (h ++ l)
    end)).
Context (Hskip : forall s h, J s h -> I s h) (Hend : forall s h, I s h -> F (Ok DirectoryWalk.Complete) s h).
Context (Herr : forall e s h, I s h -> F (Err e) s h).

Lemma resolve_entry_looks relative is_symlink :
  spec (resolve_entry fs relative is_symlink : Io Env _) (λ r c,
    Forall reads c /\ forall m, r = Ok (Some m) -> exists fd, FileMetadata fd (Ok m) ∈ c).
Proof.
  apply spec_and.
  - match goal with |- spec ?m _ => change (emits reads m) end.
    unfold resolve_entry, sys_openat, sys_file_metadata. repeat emits_step.
  - unfold resolve_entry, sys_openat, sys_file_metadata, bind_ok. apply spec_bind_call. intros [target|e].
    + apply spec_bind_call. intros [m|e]; apply spec_ret; [|done]. intros m' [= <-]. exists target. set_solver.
    + destruct (e =? XDEV); [by apply spec_ret|]. destruct (_ && is_symlink); [|by apply spec_ret].
      unfold io_of. apply spec_bind_assoc, spec_bind_call. intros [target|e']; apply spec_bind_ret; [|by apply spec_ret].
      apply spec_bind_call. intros [m|e']; apply spec_ret; [|done]. intros m' [= <-]. exists target. set_solver.
Qed.

Lemma visit_entries_spec directory relative entries cursor s h :
  I s h ->
  spec (visit_entries fs budget visitor directory relative entries cursor s) (λ '(r, s') l, F r s' (h ++ l)).
Proof.
  revert cursor s h. induction entries as [|[entry|e] entries IH]; intros cursor s h Hs; cbn [visit_entries];
    [apply spec_ret; rewrite app_nil_r; by apply Hend| |apply spec_ret; rewrite app_nil_r; by apply Herr].
  cbv zeta. destruct (_ || _); [by apply IH|].
  assert (Hnext : forall s' k, I s' (h ++ k) -> spec (visit_entries fs budget visitor directory relative entries
    (dr_offset entry) s') (λ '(r, s') l, F r s' (h ++ k ++ l))).
  { intros s' k Hs'. eapply spec_weaken; [by apply IH|]. intros [r s''] l. by rewrite <-app_assoc. }
  eapply spec_bind; [by apply Hbudget|]. intros [wanted s1] l1 H1. destruct wanted; cbn [negb].
  2: { apply spec_ret. rewrite app_nil_r. apply H1. }
  unfold sys_statat at 1. unfold within, within_maintenance.
  eapply (spec_bind_lifted _ _ _ (λ _, Forall reads)); [by apply spec_call; repeat constructor|]. intros nofollow c1 Hc1.
  pose proof (HJ _ _ _ H1 Hc1) as H2. rewrite <-app_assoc in H2.
  destruct nofollow as [nofollow|e]; [|apply spec_ret; rewrite app_nil_r; by apply Herr, Hskip].
  eapply spec_bind_lifted; [apply resolve_entry_looks|]. intros resolved c2 [Hc2 Hm].
  pose proof (HJ _ _ _ H2 Hc2) as H3. rewrite <-!app_assoc in H3.
  destruct resolved as [[metadata|]|e].
  - destruct (Hm _ eq_refl) as [fd Hfd].
    eapply spec_bind; [eapply (Hvisitor _ _ _ fd); [exact H3|]|].
    { cbn. rewrite !elem_of_app. right. right. right. apply list_elem_of_fmap. eauto. }
    intros [[[]|e] s2] l3 Hr; rewrite <-!app_assoc in Hr.
    + eapply spec_weaken; [by apply (Hnext s2 (l1 ++ map MKernel c1 ++ map MKernel c2 ++ l3))|].
      intros [r s'] l. by rewrite <-!app_assoc.
    + apply spec_ret. rewrite app_nil_r. apply Hr.
    + apply spec_ret. rewrite app_nil_r. apply Hr.
  - eapply spec_weaken; [by apply (Hnext s1 (l1 ++ map MKernel c1 ++ map MKernel c2)), Hskip|].
    intros [r s'] l. by rewrite <-!app_assoc.
  - apply spec_ret. rewrite app_nil_r. by apply Herr, Hskip.
Qed.

Lemma visit_chunk_spec path cursor s h :
  I s h -> spec (visit_dir_blocking_chunk fs budget visitor path cursor s) (λ '(r, s') l, F r s' (h ++ l)).
Proof.
  intros Hs. unfold visit_dir_blocking_chunk. destruct (relative_path_or_dot fs path) as [relative|e].
  2: { apply spec_ret. rewrite app_nil_r. by apply Herr. }
  unfold within, within_maintenance.
  eapply (spec_bind_lifted _ _ _ (λ _, Forall reads)).
  { match goal with |- spec ?m _ => change (emits reads m) end. unfold open_directory_from_root, sys_openat. repeat emits_step. }
  intros opened c1 Hc1. pose proof (HI _ _ _ Hs Hc1) as H1.
  destruct opened as [directory|e]; [|apply spec_ret; rewrite app_nil_r; by apply Herr].
  unfold sys_read_dir. eapply (spec_bind_lifted _ _ _ (λ _, Forall reads)); [by apply spec_call; repeat constructor|].
  intros entries c2 Hc2. pose proof (HI _ _ _ H1 Hc2) as H2. rewrite <-app_assoc in H2.
  destruct entries as [entries|e]; [|apply spec_ret; rewrite app_nil_r; by apply Herr].
  eapply spec_weaken; [by apply visit_entries_spec|]. intros [r s'] l. by rewrite <-!app_assoc.
Qed.
End visit_rule.

(** ** What a batch may do *)

Section batch.
Context {Env : Type} `{Os Env} `{FileOs Env} `{MaintenanceHost Env} `{UuidLib}.
Context (sha256 : bytes -> bytes) (fs : RootedFs) (options : MaintenanceBatchOptions).
(** What the snapshots of the store protect. *)
Context (protected : gset RootedEntryKey) (skip_uploads : bool).

(** Nobody accounts for the file [name] of [dir]: it was seen as a regular internal
    file that is older than a session may be, its key is not protected, this scan
    holds the claim on it, and the store has just denied that a session or a
    purge job is bound to its path. *)
Definition stale (before : list MaintenanceEvent) (dir : Fd) (name : bytes) : Prop :=
  exists e fd earlier key state_path looks,
    before = earlier ++ ClaimEntry key true :: StatePathBound state_path (Ok false) :: map MKernel looks /\
    Forall reads looks /\ entry_at fs looks dir name (de_path e) /\
    ek_name key = name /\ entry_name fs (de_path e) name /\ relative_path fs (de_path e) = Ok state_path /\
    ~ key ∈ protected /\
    MKernel (FileMetadata fd (Ok (de_metadata e))) ∈ earlier /\
    de_is_symlink e = false /\ md_is_dir (de_metadata e) = false /\
    (classify_internal_name (de_file_name e) = Some Readiness \/
     is_upload_stage_name (de_file_name e) = true /\ skip_uploads = false) /\
    bo_upload_ttl options <= maintenance_entry_age (de_metadata e) (bo_now options) false.

(** The entry that was refused last time. *)
Context (pending : option PendingMaintenancePurge).

(** Trash that is handed over: the store has just denied that a session or a purge
    job is bound to its path, and the entry was captured at that very path - after
    the denial, or in the batch that could not hand it over. *)
Definition unbound (before : list MaintenanceEvent) (entry : TrashEntry) : Prop :=
  exists earlier path state_path looks,
    before = earlier ++ StatePathBound state_path (Ok false) :: map MKernel looks /\ Forall reads looks /\
    relative_path fs path = Ok state_path /\
    (captured fs path entry looks \/ looks = [] /\ pending = Some (mkPendingPurge path entry)).

Definition justified (before : list MaintenanceEvent) (e : MaintenanceEvent) : Prop :=
  match e with
  | MKernel (Unlinkat _ name true _) =>
      exists directory, is_stage_directory directory = true /\ entry_name fs directory name
  | MKernel (Unlinkat dir name false _) => stale before dir name
  | MKernel c => reads c
  | SchedulePurge entry _ => unbound before entry
  | _ => True
  end.

Definition careful (l : list MaintenanceEvent) : Prop :=
  forall before e after, l = before ++ e :: after -> justified before e.

Lemma careful_nil : careful [].
Proof. intros [|] e after E; done. Qed.

Lemma careful_snoc l e : careful l -> justified l e -> careful (l ++ [e]).
Proof.
  intros Hl He before e' after E. destruct after as [|x after _] using rev_ind.
  - apply app_inj_tail in E as [<- <-]. done.
  - rewrite app_comm_cons, app_assoc in E. apply app_inj_tail in E as [-> _]. by eapply Hl.
Qed.

(** Events that need no justification. *)
Definition harmless (e : MaintenanceEvent) : Prop :=
  match e with MKernel c => reads c | SchedulePurge _ _ => False | _ => True end.

Lemma harmless_justified l e : harmless e -> justified l e.
Proof.
  destruct e as [c| | | | | | | | | | | | | | |]; try done. cbn. intros Hc.
  destruct c as [| | | | | |dir name [] answer| | | | | | | | | | | | | | | | |]; try done.
Qed.

Lemma careful_app l k : careful l -> Forall harmless k -> careful (l ++ k).
Proof.
  intros Hl Hk. induction k as [|e k IH] using rev_ind; [by rewrite app_nil_r|].
  apply Forall_app in Hk as [Hk He]. apply Forall_cons in He as [He _]. rewrite app_assoc.
  apply careful_snoc; [by apply IH|]. by apply harmless_justified.
Qed.

Lemma careful_reads l calls : careful l -> Forall reads calls -> careful (l ++ map MKernel calls).
Proof. intros Hl Hc. apply careful_app; [done|]. by apply Forall_map. Qed.

Lemma careful_stage_directory directory l calls :
  careful l -> Forall (stage_directory_only fs directory) calls -> careful (l ++ map MKernel calls).
Proof.
  intros Hl Hc. induction calls as [|c calls IH] using rev_ind; [by rewrite app_nil_r|].
  apply Forall_app in Hc as [Hc Hx]. apply Forall_cons in Hx as [Hx _].
  rewrite map_app, app_assoc. apply careful_snoc; [by apply IH|].
  destruct Hx as [Hx|(dir & name & answer & -> & Hs & Hn)]; [by apply harmless_justified|]. by exists directory.
Qed.

(** The check of the store. *)
Lemma preserve_spec path h :
  careful h ->
  spec (should_preserve_stale_state_path fs path : Mt Env bool) (λ preserve l,
    careful (h ++ l) /\
    (preserve = false -> exists state_path, relative_path fs path = Ok state_path /\
       l = [StatePathBound state_path (Ok false)])).
Proof.
  intros Hh. unfold should_preserve_stale_state_path. destruct (relative_path fs path) as [state_path|e].
  2: { apply spec_ret. rewrite app_nil_r. done. }
  apply spec_bind_call. intros bound. apply spec_ret. split; [by apply careful_app; [|repeat constructor]|].
  destruct bound as [[]|m]; [done| |done]. intros _. by exists state_path.
Qed.

(** An entry that waits for the next batch was captured at its path in this one. *)
Definition pinned (h : list MaintenanceEvent) (p : PendingMaintenancePurge) : Prop :=
  exists before looks after, h = before ++ map MKernel looks ++ after /\ captured fs (pm_path p) (pm_entry p) looks.

Lemma pinned_app h l p : pinned h p -> pinned (h ++ l) p.
Proof. intros (b & looks & a & -> & Hc). exists b, looks, (a ++ l). by rewrite <-!app_assoc. Qed.

(** ** The state of a round *)

(** The batch will stop at the next occasion. *)
Definition exhausted (c : ScanCells) : Prop :=
  bo_max_entries options <= sc_examined c \/ sc_late c = true \/ sc_cancelled c = true.

(** Between entries of the round that started with [n] entries examined. *)
Definition between (n : Z) (c : ScanCells) (h : list MaintenanceEvent) : Prop :=
  careful h /\ sc_descend c = None /\ sc_pending_purge c = None /\
  n <= sc_examined c /\ (n < sc_examined c -> sc_examined c <= bo_max_entries options).
Definition admitted (n : Z) (c : ScanCells) (h : list MaintenanceEvent) : Prop :=
  between n c h /\ n + 1 <= sc_examined c.

Definition round_end (n : Z) (r : result IoError DirectoryVisitProgress) (c : ScanCells) (h : list MaintenanceEvent) : Prop :=
  careful h /\ n <= sc_examined c /\ (n < sc_examined c -> sc_examined c <= bo_max_entries options) /\
  match r with
  | Ok (Paused _) =>
      (sc_descend c = None /\ sc_pending_purge c = None /\ exhausted c) \/ (exists p, sc_pending_purge c = Some p /\ pinned h p) \/
      (is_Some (sc_descend c) /\ sc_pending_purge c = None /\ n + 1 <= sc_examined c)
  | _ => sc_descend c = None /\ sc_pending_purge c = None
  end.

Lemma between_reads n c h calls : between n c h -> Forall reads calls -> between n c (h ++ map MKernel calls).
Proof. intros (Hh & Hrest) Hc. split; [by apply careful_reads|done]. Qed.
Lemma admitted_reads n c h calls : admitted n c h -> Forall reads calls -> admitted n c (h ++ map MKernel calls).
Proof. intros [Hb Hn] Hc. split; [by apply between_reads|done]. Qed.

Lemma must_stop_spec c :
  spec (must_stop c : Mt Env _) (λ '(stop, c') l, Forall harmless l /\
    (exists late cancelled, c' = set_stop c late cancelled /\ (stop = true -> late = true \/ cancelled = true)) /\
    (sc_late c = true \/ sc_cancelled c = true -> stop = true)).
Proof.
  unfold must_stop, is_cancelled. apply spec_bind_call. intros late. destruct (late || sc_late c) eqn:El.
  - apply spec_ret. split; [by repeat constructor|]. split; [|done]. exists true, (sc_cancelled c). auto.
  - apply orb_false_iff in El as [-> Hl]. apply spec_bind_call. intros cancelled. apply spec_ret.
    split; [by repeat constructor|]. split.
    + exists false, (cancelled || sc_cancelled c). split; [done|]. auto.
    + intros [?|E]; [congruence|]. rewrite E. apply orb_true_r.
Qed.

Lemma budget_spec n p c h :
  between n c h ->
  spec (scan_budget options p c : Mt Env _) (λ '(wanted, c') l,
    if wanted : bool then admitted n c' (h ++ l) else forall k, round_end n (Ok (Paused k)) c' (h ++ l)).
Proof.
  intros Hb. destruct Hb as (Hh & Hd & Hp & Hn & Hmax). unfold scan_budget.
  destruct (Z.leb_spec (bo_max_entries options) (sc_examined c)).
  { apply spec_ret. intros k. rewrite app_nil_r. split_and!; try done. left. split_and!; try done. by left. }
  eapply spec_bind; [apply must_stop_spec|]. intros [stop c'] l (Hl & (late & cancelled & -> & Hstop) & _).
  assert (Hh' : careful (h ++ l)) by by apply careful_app. destruct stop; apply spec_ret; rewrite app_nil_r.
  - intros k. split_and!; try done. left. split_and!; try done. right. cbn. by apply Hstop.
  - split; [split_and!; cbn; try done; lia|cbn; lia].
Qed.

(** The entry is passed over. *)
Definition goes_on (n : Z) (h : list MaintenanceEvent) (p : result IoError bool * ScanCells) (l : list MaintenanceEvent) : Prop :=
  match p.1 with
  | Ok true => between n p.2 (h ++ l)
  | Ok false => forall k, round_end n (Ok (Paused k)) p.2 (h ++ l)
  | Err e => round_end n (Err e) p.2 (h ++ l)
  end.

Lemma go_on_spec n c h l : admitted n c (h ++ l) -> spec (go_on c : Mt Env _) (λ p l', goes_on n h p (l ++ l')).
Proof. intros [Hb _]. apply spec_ret. cbn. by rewrite app_nil_r. Qed.

Lemma with_key_spec n path c h k :
  admitted n c h ->
  (forall key l, entry_name fs path (ek_name key) -> Forall reads l ->
    spec (k key) (λ p l', goes_on n h p (map MKernel l ++ l'))) ->
  spec (with_entry_key fs path c k : Mt Env _) (goes_on n h).
Proof.
  intros Ha Hk. unfold with_entry_key. eapply spec_bind_lifted; [apply entry_key_named|].
  intros found calls [Hc Hn]. destruct found as [key|e]; [by apply Hk; [apply Hn|]|].
  pose proof (admitted_reads n c h calls Ha Hc) as Ha'.
  destruct (missing_kind e); [by apply go_on_spec|]. apply spec_ret. cbn. rewrite app_nil_r.
  destruct Ha' as [(Hh & Hd & Hp & Hn' & Hmax) _]. by split_and!.
Qed.

Lemma goes_on_after n h (m : Mt Env (result IoError bool * ScanCells)) l k :
  spec m (λ p l', goes_on n h p ((l ++ k) ++ l')) -> spec m (λ p l', goes_on n h p (l ++ k ++ l')).
Proof. intros Hm. eapply spec_weaken; [exact Hm|]. cbn. intros p l'. by rewrite <-app_assoc. Qed.

Lemma admitted_app n c h l : admitted n c h -> careful (h ++ l) -> admitted n c (h ++ l).
Proof. intros [(_ & Hrest) Hn] Hl. split; [|done]. by split. Qed.
Lemma admitted_careful n c h : admitted n c h -> careful h.
Proof. by intros [[Hh _] _]. Qed.

Lemma enter_if_spec n is_dir path c h :
  admitted n c h -> spec (enter_if is_dir path c : Mt Env _) (goes_on n h).
Proof.
  intros Ha. unfold enter_if. destruct is_dir; [|apply (go_on_spec n c h []); by rewrite app_nil_r].
  destruct Ha as [(Hh & Hd & Hp & Hn & Hmax) Hone]. apply spec_ret. intros k. rewrite app_nil_r.
  split_and!; try done. right. right. by cbn.
Qed.

Lemma stale_trash_spec n state path is_dir c h :
  admitted n c h -> spec (visit_stale_trash sha256 fs state path is_dir c : Mt Env _) (goes_on n h).
Proof.
  intros Ha. assert (Hstay : forall l, careful (h ++ l) -> spec (go_on c : Mt Env _) (λ p l', goes_on n h p (l ++ l'))).
  { intros l Hl. by apply go_on_spec, admitted_app. }
  unfold visit_stale_trash. destruct (ms_skip_trash state); [apply (Hstay []); rewrite app_nil_r; by eapply admitted_careful|].
  apply with_key_spec; [done|]. intros key l Hkey Hl.
  assert (Hc1 : careful (h ++ map MKernel l)) by (apply careful_reads; [by eapply admitted_careful|done]).
  destruct (bool_decide _); [by apply Hstay|].
  eapply spec_bind; [by apply preserve_spec|]. intros preserve l1 [Hc2 Hp]. rewrite <-app_assoc in Hc2.
  destruct preserve.
  { by apply goes_on_after, Hstay. }
  destruct (Hp eq_refl) as (state_path & Hrel & ->). unfold mkernel, schedule_purge.
  eapply spec_bind_lifted; [apply (capture_at fs sha256 path is_dir)|].
  intros found calls [Hcalls Hcap]. pose proof (careful_reads _ calls Hc2 Hcalls) as Hc3. rewrite <-!app_assoc in Hc3.
  assert (Hskip : spec (go_on c : Mt Env _) (λ p l',
    goes_on n h p (map MKernel l ++ [StatePathBound state_path (Ok false)] ++ map MKernel calls ++ l'))).
  { eapply spec_weaken; [apply (Hstay _ Hc3)|]. cbn beta. intros p l'. by rewrite <-!app_assoc. }
  destruct found as [[purge|]|e]; [|exact Hskip..]. destruct (Hcap _ eq_refl) as [Hat _].
  apply spec_bind_call. intros accepted.
  assert (Hc4 : careful (h ++ map MKernel l ++ [StatePathBound state_path (Ok false)] ++ map MKernel calls ++
    [SchedulePurge purge accepted])).
  { pose proof (careful_snoc _ (SchedulePurge purge accepted) Hc3) as Hs. rewrite <-!app_assoc in Hs. apply Hs.
    exists (h ++ map MKernel l), path, state_path, calls. rewrite <-app_assoc. split_and!; [done..|by left]. }
  destruct Ha as [(Hh & Hd & Hpend & Hn & Hmax) Hone]. destruct accepted; apply spec_ret.
  - by split_and!.
  - intros k. split_and!; try done. right. left. eexists. split; [reflexivity|].
    exists (h ++ map MKernel l ++ [StatePathBound state_path (Ok false)]), calls, [SchedulePurge purge false].
    split; [by rewrite <-!app_assoc|done].
Qed.

Lemma stale_upload_spec n state e is_upload_stage c h fd :
  admitted n c h -> ms_protected_uploads state = protected -> ms_skip_uploads state = skip_uploads ->
  MKernel (FileMetadata fd (Ok (de_metadata e))) ∈ h ->
  de_is_symlink e = false -> md_is_dir (de_metadata e) = false ->
  (classify_internal_name (de_file_name e) = Some Readiness \/
   (is_upload_stage_name (de_file_name e) = true /\ is_upload_stage = true)) ->
  bo_upload_ttl options <= maintenance_entry_age (de_metadata e) (bo_now options) false ->
  spec (visit_stale_upload fs state (de_path e) is_upload_stage c : Mt Env _) (goes_on n h).
Proof.
  intros Ha Hprot Hskip Hfd Hlink Hdir Hname Hage.
  assert (Hstay : forall l, careful (h ++ l) -> spec (go_on c : Mt Env _) (λ p l', goes_on n h p (l ++ l'))).
  { intros l Hl. by apply go_on_spec, admitted_app. }
  unfold visit_stale_upload. destruct (ms_skip_uploads state && is_upload_stage) eqn:Hsk;
    [apply (Hstay []); rewrite app_nil_r; by eapply admitted_careful|].
  apply with_key_spec; [done|]. intros key l Hkey Hl.
  assert (Hc1 : careful (h ++ map MKernel l)) by (apply careful_reads; [by eapply admitted_careful|done]).
  case_bool_decide as Hfree; [by apply Hstay|]. unfold claim_entry, under_claim, unclaim_entry, mkernel.
  apply spec_bind_call. intros claimed.
  assert (Hc2 : careful (h ++ map MKernel l ++ [ClaimEntry key claimed])).
  { rewrite app_assoc. by apply careful_snoc. }
  destruct claimed; cbn [negb].
  2: { by apply (goes_on_after _ _ _ _ [ClaimEntry key false]), Hstay. }
  (** The end of the claim. *)
  assert (Hend : forall p k, careful (h ++ map MKernel l ++ ClaimEntry key true :: k) -> admitted n p.2 h -> p.1 = Ok true ->
    spec (do _ <- syscall (mh_unclaim key) (λ _, UnclaimEntry key); ret p : Mt Env _)
      (λ p l', goes_on n h p (map MKernel l ++ ClaimEntry key true :: k ++ l'))).
  { intros p k Hk Hp Ep. apply spec_bind_call. intros []. apply spec_ret. unfold goes_on. rewrite Ep.
    destruct (admitted_app n p.2 h (map MKernel l ++ ClaimEntry key true :: k ++ [UnclaimEntry key]) Hp) as [Hb _]; [|done].
    rewrite (app_comm_cons k), !app_assoc. apply careful_snoc; [|done]. by rewrite <-app_assoc. }
  apply spec_bind_assoc. eapply spec_bind; [by apply preserve_spec|]. intros preserve l1 [Hc3 Hp].
  rewrite <-!app_assoc in Hc3. cbn [app] in Hc3. destruct preserve.
  { apply spec_bind_ret. eapply spec_weaken; [by apply (Hend (Ok true, c) l1)|]. done. }
  destruct (Hp eq_refl) as (state_path & Hrel & ->). apply spec_bind_assoc.
  eapply spec_bind_lifted; [apply remove_file_spec|]. intros removed calls Hcalls.
  assert (Hc4 : careful (h ++ map MKernel l ++ ClaimEntry key true :: StatePathBound state_path (Ok false) :: map MKernel calls)).
  { destruct Hcalls as [Hr|(looks & dir & name & answer & -> & Hlooks & Hn & Hat)].
    - pose proof (careful_reads _ calls Hc3 Hr) as Hs. by rewrite <-!app_assoc in Hs.
    - pose proof (careful_reads _ looks Hc3 Hlooks) as Hs. rewrite <-!app_assoc in Hs. cbn [app] in Hs.
      pose proof (careful_snoc _ (MKernel (Unlinkat dir name false answer)) Hs) as Hs'.
      rewrite map_app. rewrite <-!app_assoc in Hs'. apply Hs'.
      exists e, fd, (h ++ map MKernel l), key, state_path, looks. rewrite <-app_assoc. split_and!; try done.
      + by eapply entry_name_inj.
      + by rewrite <-Hprot.
      + apply elem_of_app. by left.
      + destruct Hname as [?|[Hst ->]]; [by left|right]. split; [done|]. rewrite <-Hskip. by rewrite andb_true_r in Hsk. }
  assert (Hgo : forall c', admitted n c' h -> spec (do a <- go_on c'; do _ <- syscall (mh_unclaim key) (λ _, UnclaimEntry key); ret a
    : Mt Env _) (λ p l', goes_on n h p (map MKernel l ++ ClaimEntry key true :: [StatePathBound state_path (Ok false)] ++
      map MKernel calls ++ l'))).
  { intros c' Hc'. apply spec_bind_ret. by apply (Hend (Ok true, c') (StatePathBound state_path (Ok false) :: map MKernel calls)). }
  destruct removed as [[]|]; apply Hgo; [|done..]. 
  destruct Ha as [(Hh & Hd & Hpend & Hn & Hmax) Hone]. split; [by split_and!|done].
Qed.

Lemma visitor_spec n state scanning e c h fd :
  admitted n c h -> ms_protected_uploads state = protected -> ms_skip_uploads state = skip_uploads ->
  MKernel (FileMetadata fd (Ok (de_metadata e))) ∈ h ->
  spec (scan_visitor sha256 fs options state scanning e c : Mt Env _) (goes_on n h).
Proof.
  intros Ha Hprot Hskip Hfd.
  assert (Hstay : spec (go_on c : Mt Env _) (goes_on n h)).
  { apply (go_on_spec n c h []). by rewrite app_nil_r. }
  unfold scan_visitor. cbv zeta. destruct (de_is_symlink e) eqn:Hlink; [exact Hstay|].
  destruct (negb (is_utf8 _)); [by apply enter_if_spec|].
  destruct (bool_decide (classify_internal_name (de_file_name e) = None) && _) eqn:Hplain; [by apply enter_if_spec|].
  assert (Hstage : classify_internal_name (de_file_name e) = None ->
    is_upload_stage_name (de_file_name e) = true /\ scanning && is_upload_stage_name (de_file_name e) = true).
  { intros E. rewrite bool_decide_eq_true_2 in Hplain by done. cbn in Hplain.
    apply negb_false_iff in Hplain as Hs. split; [|done]. by apply andb_true_iff in Hs as [_ Hs]. }
  clear Hplain. unfold visit_internal. cbv zeta. case_bool_decide as Hq; [exact Hstay|]. case_bool_decide as Hs; [by apply enter_if_spec|].
  destruct (md_is_dir (de_metadata e) && _) eqn:Hd; [exact Hstay|].
  match goal with |- context [if ?a <? ?b then _ else _] => destruct (Z.ltb_spec a b) as [|Hage]; [exact Hstay|] end.
  case_bool_decide as Ht; [by apply stale_trash_spec|].
  eapply stale_upload_spec; try done.
  - by rewrite andb_true_r in Hd.
  - destruct (classify_internal_name (de_file_name e)) as [[]|]; try done; [by left|]. right. by apply Hstage.
Qed.

(** ** The loop *)

Lemma chunk_spec n state scanning path cursor c h :
  careful h -> sc_examined c = n ->
  ms_protected_uploads state = protected -> ms_skip_uploads state = skip_uploads ->
  spec (visit_dir_blocking_chunk fs (scan_budget options) (scan_visitor sha256 fs options state scanning) path cursor
          (fresh_round c) : Mt Env _) (λ '(r, c') l, round_end n r c' (h ++ l)).
Proof.
  intros Hh Hn Hprot Hskip.
  apply (visit_chunk_spec fs _ _ (between n) (admitted n) (round_end n)).
  - intros. by apply between_reads.
  - intros. by apply admitted_reads.
  - intros p s k Hs. by apply budget_spec.
  - intros e s k fd Ha Hfd. eapply spec_weaken; [by eapply visitor_spec|]. by intros [r s'] l.
  - by intros s k [Hb _].
  - intros s k (Hk & Hd & Hp & Hle & Hmax). by split_and!.
  - intros e s k (Hk & Hd & Hp & Hle & Hmax). by split_and!.
  - split_and!; cbn; try done; lia.
Qed.

(** Enough rounds: each ends the batch, closes a directory or examines an entry. *)
Definition enough (fuel : nat) (state : MaintenanceScanState) (c : ScanCells) : Prop :=
  Z.of_nat fuel >= 1 /\
  (exhausted c \/
   Z.of_nat fuel >= 2 * (bo_max_entries options - sc_examined c) + Z.of_nat (length (ms_directories state)) + 2).

(** Everything but the stack and the pending purge is as before. *)
Definition same_view (s s' : MaintenanceScanState) : Prop :=
  ms_protected_uploads s' = ms_protected_uploads s /\ ms_skip_uploads s' = ms_skip_uploads s /\
  ms_pending_purge s' = ms_pending_purge s.

Lemma after_round_spec state directory rest progress h :
  careful h ->
  spec (after_round fs state directory rest progress : Mt Env _) (λ state' l,
    careful (h ++ l) /\ same_view state state' /\
    length (ms_directories state') =
      match progress with Ok (Paused _) => S (length rest) | _ => length rest end).
Proof.
  intros Hh. unfold after_round. destruct progress as [[|cursor]|e].
  2,3: apply spec_ret; rewrite app_nil_r; split; [done|]; by repeat split.
  eapply (spec_bind _ _ (λ _ l, careful (h ++ l))); [|intros [] l Hl; apply spec_ret; rewrite app_nil_r; split; [done|]; by repeat split].
  destruct (names_stage_directory _); [|apply spec_ret; by rewrite app_nil_r].
  eapply spec_bind_lifted; [apply (remove_stage_directory_spec fs)|]. intros r calls Hc. apply spec_ret.
  rewrite app_nil_r. apply (careful_stage_directory (mdir_path directory)); [done|exact Hc].
Qed.

(** What a batch hands on, if anything, is pinned. *)
Definition hands_on (state : MaintenanceScanState) (h : list MaintenanceEvent) : Prop :=
  forall p, ms_pending_purge state = Some p -> pinned h p.

Lemma scan_loop_spec fuel state c h :
  careful h -> enough fuel state c ->
  ms_protected_uploads state = protected -> ms_skip_uploads state = skip_uploads -> ms_pending_purge state = None ->
  sc_examined c <= Z.max 0 (bo_max_entries options) ->
  spec (scan_loop sha256 fs options fuel state c : Mt Env _) (λ r l,
    careful (h ++ l) /\ exists state' c', r = Some (state', c') /\ sc_examined c' <= Z.max 0 (bo_max_entries options) /\
      hands_on state' (h ++ l)).
Proof.
  revert state c h. induction fuel as [|fuel IH]; intros state c h Hh [Hfuel Henough] Hprot Hskip Hnone Hmax; [lia|].
  assert (Hstop : forall state' c' k, careful (h ++ k) -> sc_examined c' <= Z.max 0 (bo_max_entries options) ->
    hands_on state' (h ++ k) ->
    spec (ret (Some (state', c')) : Mt Env (option (MaintenanceScanState * ScanCells))) (λ r l, careful (h ++ k ++ l) /\
      exists s x, r = Some (s, x) /\ sc_examined x <= Z.max 0 (bo_max_entries options) /\ hands_on s (h ++ k ++ l))).
  { intros state' c' k Hk Hx Hp. apply spec_ret. rewrite app_nil_r. split; [done|]. by exists state', c'. }
  assert (Hidle : forall k, hands_on state k) by (intros k p; by rewrite Hnone).
  cbn [scan_loop]. destruct (ms_directories state) as [|directory rest] eqn:Edirs.
  { apply (Hstop state c []); [by rewrite app_nil_r|done|done]. }
  destruct (Z.leb_spec (bo_max_entries options) (sc_examined c)) as [|Hlt].
  { apply (Hstop state c []); [by rewrite app_nil_r|done|done]. }
  eapply spec_bind; [apply must_stop_spec|]. intros [stop c1] l1 (Hl1 & (late & cancelled & -> & Hst) & Hforce).
  assert (Hc1 : careful (h ++ l1)) by by apply careful_app. destruct stop; [by apply Hstop|].
  assert (Hmore : Z.of_nat (S fuel) >= 2 * (bo_max_entries options - sc_examined c) + Z.of_nat (S (length rest)) + 2).
  { destruct Henough as [[?|Hx]|Hx]; [lia|by specialize (Hforce Hx)|done]. }
  eapply spec_bind; [by apply (chunk_spec (sc_examined c))|]. intros [progress c2] l2 (Hc2 & Hn & Hle & Hend).
  eapply spec_bind; [by apply after_round_spec|]. intros state' l3 (Hc3 & (Hv1 & Hv2 & Hv3) & Hlen).
  rewrite <-!app_assoc in Hc3.
  assert (Hex : sc_examined c2 <= Z.max 0 (bo_max_entries options)) by lia.
  destruct (sc_pending_purge c2) as [purge|] eqn:Ep.
  { eapply spec_weaken; [apply (Hstop (set_pending_purge state' (Some purge)) c2 (l1 ++ l2 ++ l3)); [done|done|]|].
    2: { cbn beta. intros r l. by rewrite <-!app_assoc. }
    intros p [= <-]. rewrite !app_assoc. apply pinned_app. rewrite <-app_assoc.
    destruct progress as [[|cursor]|e]; [by destruct Hend|destruct Hend as [(_ & ? & _)|[(p & [= <-] & Hp)|(_ & ? & _)]]|by destruct Hend];
      [done| |done]. by rewrite app_assoc. }
  set (state'' := match sc_descend c2 with Some path => set_directories state' (mkDirectory path 0 :: ms_directories state')
                  | None => state' end).
  assert (Hview : ms_protected_uploads state'' = protected /\ ms_skip_uploads state'' = skip_uploads /\
    ms_pending_purge state'' = None).
  { unfold state''. destruct (sc_descend c2); cbn; split_and!; congruence. }
  eapply spec_weaken; [apply (IH state'' c2 (h ++ l1 ++ l2 ++ l3)); [done| |apply Hview|apply Hview|apply Hview|done]|].
  2: { cbn beta. intros r l. by rewrite <-!app_assoc. }
  split; [lia|]. unfold state''. destruct progress as [[|cursor]|e].
  - destruct Hend as [-> _]. right. rewrite Hlen. lia.
  - destruct Hend as [(-> & _ & Hx)|[(? & ? & ?)|([path Ed] & _ & Hone)]]; [by left|done|].
    rewrite Ed. right. cbn [ms_directories set_directories length]. rewrite Hlen. lia.
  - destruct Hend as [-> _]. right. rewrite Hlen. lia.
Qed.

Lemma offer_pending_spec state :
  ms_pending_purge state = pending ->
  spec (offer_pending fs state : Mt Env _) (λ '(state', _) l, careful l /\
    ms_protected_uploads state' = ms_protected_uploads state /\ ms_skip_uploads state' = ms_skip_uploads state /\
    ms_pending_purge state' = None /\ ms_directories state' = ms_directories state).
Proof.
  intros Hpend. unfold offer_pending. destruct (ms_pending_purge state) as [[path entry]|] eqn:Eq;
    [|apply spec_ret; split; [apply careful_nil|]; by repeat split].
  eapply spec_bind; [apply (preserve_spec _ []), careful_nil|]. intros preserve l [Hl Hp]. cbn [app] in Hl.
  destruct preserve; [apply spec_ret; rewrite app_nil_r; split; [done|]; by repeat split|].
  destruct (Hp eq_refl) as (state_path & Hrel & ->). unfold schedule_purge. apply spec_bind_call. intros accepted. apply spec_ret.
  split; [|by repeat split].
  apply (careful_snoc [StatePathBound state_path (Ok false)] (SchedulePurge entry accepted)); [done|].
  exists [], path, state_path, []. split_and!; [done..|right; by rewrite <-Hpend].
Qed.
End batch.

(** ** The theorems *)

Section theorems.
Context {Env : Type} `{Os Env} `{FileOs Env} `{MaintenanceHost Env} `{UuidLib}.
Context (sha256 : bytes -> bytes) (fs : RootedFs) (options : MaintenanceBatchOptions).

Lemma batch_spec state :
  spec (collect_stale_internal_files_batch sha256 fs options state : Mt Env _) (λ r l,
    careful fs options (ms_protected_uploads state) (ms_skip_uploads state) (ms_pending_purge state) l /\
    exists state' c complete, r = Some (state', c, complete) /\ sc_examined c <= Z.max 0 (bo_max_entries options) /\
      hands_on fs state' l).
Proof.
  unfold collect_stale_internal_files_batch.
  eapply spec_bind; [by apply (offer_pending_spec fs options (ms_protected_uploads state) (ms_skip_uploads state)
    (ms_pending_purge state))|].
  intros [state1 scheduled] l (Hl & Hv1 & Hv2 & Hv3 & Hdirs).
  eapply spec_bind; [apply (scan_loop_spec sha256 fs options (ms_protected_uploads state) (ms_skip_uploads state)
    (ms_pending_purge state) _ _ _ l); [done| |done|done|done|cbn; lia]|].
  - split; [unfold scan_fuel; lia|]. right. unfold scan_fuel. cbn [sc_examined]. lia.
  - intros r k (Hk & state' & c & -> & Hc & Hp). apply spec_ret. rewrite app_nil_r. split; [done|]. by eexists _, _, _.
Qed.


(** C40: A batch comes to an end, whatever it meets: its loop never uses up its fuel,
    and it examines no more entries than its budget allows. *)
Theorem scan_batch_ends state :
  spec (collect_stale_internal_files_batch sha256 fs options state : Mt Env _) (λ r _,
    exists state' c complete, r = Some (state', c, complete) /\ sc_examined c <= Z.max 0 (bo_max_entries options)).
Proof. eapply spec_weaken; [apply batch_spec|]. intros r l (_ & state' & c & complete & -> & Hc & _). by eexists _, _, _. Qed.
End theorems.
