(* ===== verification/MutationProgress.v ===== *)
(** The cancellation boundary of a mutation request
    ([MutationProgress] of [src/src/server/router/request.rs]): one atomic byte
    that the handler and the HTTP deadline race for.

    Each operation is one atomic instruction, so an execution of any number of
    tasks is a sequence of operations with the answers they got. *)

From S2P Require Import Prelude UploadHost UploadAnswers.
From stdpp Require Import base numbers list sets.

Local Open Scope Z_scope.

Module MutationProgress.

Definition PREFLIGHT : Z := 0.
Definition RESERVED : Z := 1.
Definition DETACHED_COMMIT : Z := 2.
Definition CANCELLED_BEFORE_UPLOAD_MUTATION : Z := 3.

(** [AtomicU8::compare_exchange]: the previous value, and the new one. *)
Definition compare_exchange (current new cell : Z) : result Z Z * Z :=
  if cell =? current then (Ok cell, new) else (Err cell, cell).

Definition mark_reserved (cell : Z) : Z := (compare_exchange PREFLIGHT RESERVED cell).2.
Definition mark_detached_commit (cell : Z) : Z := DETACHED_COMMIT.

Definition begin_upload_mutation (cell : Z) : bool * Z :=
  match compare_exchange PREFLIGHT DETACHED_COMMIT cell with
  | (Ok _, cell) => (true, cell)
  | (Err previous, cell) => (previous =? DETACHED_COMMIT, cell)
  end.

Definition cancel_upload_before_mutation (cell : Z) : bool * Z :=
  match compare_exchange PREFLIGHT CANCELLED_BEFORE_UPLOAD_MUTATION cell with
  | (Ok _, cell) => (true, cell)
  | (Err _, cell) => (false, cell)
  end.

Definition outcome_can_be_unknown (cell : Z) : bool := cell =? DETACHED_COMMIT.

(** One atomic operation and its answer. *)
Inductive Step :=
| MarkReserved
| MarkDetachedCommit
| BeginUploadMutation (answer : bool)
| CancelUploadBeforeMutation (answer : bool)
| OutcomeCanBeUnknown (answer : bool).

Inductive step : Z -> Step -> Z -> Prop :=
| step_reserved cell : step cell MarkReserved (mark_reserved cell)
| step_detached cell : step cell MarkDetachedCommit (mark_detached_commit cell)
| step_begin cell answer cell' :
    begin_upload_mutation cell = (answer, cell') -> step cell (BeginUploadMutation answer) cell'
| step_cancel cell answer cell' :
    cancel_upload_before_mutation cell = (answer, cell') -> step cell (CancelUploadBeforeMutation answer) cell'
| step_outcome cell : step cell (OutcomeCanBeUnknown (outcome_can_be_unknown cell)) cell.

Inductive execution : Z -> list Step -> Z -> Prop :=
| execution_nil cell : execution cell [] cell
| execution_cons cell s cell' l cell'' :
    step cell s cell' -> execution cell' l cell'' -> execution cell (s :: l) cell''.

Lemma execution_app cell l k cell'' :
  execution cell (l ++ k) cell'' <-> exists cell', execution cell l cell' /\ execution cell' k cell''.
Proof.
  revert cell. induction l as [|s l IH]; intros cell; cbn.
  - split; [intros E; exists cell; split; [constructor|done]|].
    intros (cell' & E1 & E2). by inversion E1; subst.
  - split.
    + intros E. inversion E as [|? ? c1 ? ? Hs Hl]; subst. apply IH in Hl as (c2 & H1 & H2).
      exists c2. split; [by econstructor|done].
    + intros (c2 & E1 & E2). inversion E1 as [|? ? c1 ? ? Hs Hl]; subst. econstructor; [done|]. apply IH. eauto.
Qed.

(** A step an upload or its deadline takes; the others belong to tracked
    operations. *)
Definition upload_step (s : Step) : bool :=
  match s with MarkReserved | MarkDetachedCommit => false | _ => true end.

Lemma step_detached_stays cell s cell' :
  step cell s cell' -> cell = DETACHED_COMMIT ->
  cell' = DETACHED_COMMIT /\
  s <> BeginUploadMutation false /\ s <> OutcomeCanBeUnknown false /\ s <> CancelUploadBeforeMutation true.
Proof. intros [|?|? ? ? E|? ? ? E|?] ->; try (cbv in E; injection E as <- <-); by split_and!. Qed.

Lemma detached_stays cell l cell' :
  execution cell l cell' -> cell = DETACHED_COMMIT ->
  (BeginUploadMutation false ∉ l) /\ (OutcomeCanBeUnknown false ∉ l) /\ (CancelUploadBeforeMutation true ∉ l).
Proof.
  induction 1 as [|cell s c1 l c2 Hs _ IH]; intros E; [set_solver|].
  destruct (step_detached_stays _ _ _ Hs E) as (E1 & ? & ? & ?). specialize (IH E1). set_solver.
Qed.

Lemma step_cancelled_stays cell s cell' :
  step cell s cell' -> upload_step s = true -> cell = CANCELLED_BEFORE_UPLOAD_MUTATION ->
  cell' = CANCELLED_BEFORE_UPLOAD_MUTATION /\ s <> BeginUploadMutation true /\ s <> OutcomeCanBeUnknown true.
Proof. intros [|?|? ? ? E|? ? ? E|?] Hu ->; try (cbv in E; injection E as <- <-); by split_and!. Qed.

Lemma cancelled_stays cell l cell' :
  execution cell l cell' -> Forall (λ s, upload_step s = true) l -> cell = CANCELLED_BEFORE_UPLOAD_MUTATION ->
  (BeginUploadMutation true ∉ l) /\ (OutcomeCanBeUnknown true ∉ l).
Proof.
  induction 1 as [|cell s c1 l c2 Hs _ IH]; intros Hu E; [set_solver|].
  apply Forall_cons in Hu as [Hu Hl].
  destruct (step_cancelled_stays _ _ _ Hs Hu E) as (E1 & ? & ?). specialize (IH Hl E1). set_solver.
Qed.

Lemma begun_for_good l cell before after :
  execution PREFLIGHT l cell -> l = before ++ BeginUploadMutation true :: after ->
  (BeginUploadMutation false ∉ after) /\ (OutcomeCanBeUnknown false ∉ after) /\
  (CancelUploadBeforeMutation true ∉ after).
Proof.
  intros Hl ->. apply execution_app in Hl as (c1 & _ & H1). inversion H1 as [|? ? c2 ? ? Hs H2]; subst.
  apply (detached_stays _ _ _ H2). inversion Hs as [| |? ? ? Hb| |]; subst. revert Hb.
  unfold begin_upload_mutation, compare_exchange. destruct (c1 =? PREFLIGHT); [by intros [= <-]|].
  intros [= E <-]. by apply Z.eqb_eq in E.
Qed.

(** C14: However the tasks of a request interleave, the boundary is crossed one way
    only: once a mutation has begun, it stays begun for every later reader and
    the deadline cannot close it any more; and once the deadline has closed it,
    the upload has not begun and never begins. *)
Theorem boundary_is_one_way l cell before after :
  execution PREFLIGHT l cell ->
  (l = before ++ BeginUploadMutation true :: after ->
     (BeginUploadMutation false ∉ after) /\ (OutcomeCanBeUnknown false ∉ after) /\
     (CancelUploadBeforeMutation true ∉ after)) /\
  (l = before ++ CancelUploadBeforeMutation true :: after -> Forall (λ s, upload_step s = true) l ->
     (BeginUploadMutation true ∉ before) /\ (BeginUploadMutation true ∉ after) /\ (OutcomeCanBeUnknown true ∉ after)).
Proof.
  intros Hl. split; [by apply begun_for_good with (cell := cell)|]. intros -> Hu. split.
  - intros (b1 & b2 & ->)%list_elem_of_split.
    destruct (begun_for_good _ _ b1 (b2 ++ CancelUploadBeforeMutation true :: after) Hl) as (_ & _ & Hn);
      [by rewrite <-app_assoc|]. set_solver.
  - apply Forall_app in Hu as [_ Hu]. apply Forall_cons in Hu as [_ Hu].
    apply execution_app in Hl as (c1 & _ & H1). inversion H1 as [|? ? c2 ? ? Hs H2]; subst.
    apply (cancelled_stays _ _ _ H2 Hu). inversion Hs as [| | |? ? ? Hc|]; subst. revert Hc.
    unfold cancel_upload_before_mutation, compare_exchange. by destruct (c1 =? PREFLIGHT); intros [= <-].
Qed.

Lemma boundary_is_one_way_witness :
  let l := [CancelUploadBeforeMutation true; BeginUploadMutation false; OutcomeCanBeUnknown false] in
  execution PREFLIGHT l CANCELLED_BEFORE_UPLOAD_MUTATION /\ (BeginUploadMutation true ∉ l).
Proof.
  intros l. assert (Hl : execution PREFLIGHT l CANCELLED_BEFORE_UPLOAD_MUTATION).
  { eapply execution_cons; [by apply step_cancel|]. eapply execution_cons; [by apply step_begin|].
    eapply execution_cons; [apply step_outcome|]. apply execution_nil. }
  split; [exact Hl|].
  destruct (proj2 (boundary_is_one_way l _ [] [BeginUploadMutation false; OutcomeCanBeUnknown false] Hl) eq_refl)
    as (_ & H1 & _); [by repeat constructor|]. set_solver.
Defined.

(** The operations of an upload, in its log. *)
Definition upload_steps : list UploadEvent -> list Step := omap (λ e,
  match e with
  | BeginMutation answer => Some (BeginUploadMutation answer)
  | MutationBegun answer => Some (OutcomeCanBeUnknown answer)
  | _ => None
  end).

(** An upload whose operations are part of an execution of the cell finds the
    boundary crossed one way only, as the truthfulness of its answers needs it. *)
Lemma upload_log_one_way h l cell :
  execution PREFLIGHT l cell -> sublist (upload_steps h) l -> one_way h.
Proof.
  intros Hl Hsub before after ->. unfold upload_steps in Hsub. rewrite omap_app in Hsub. cbn in Hsub.
  apply sublist_app_l in Hsub as (l1 & l2 & -> & _ & Hsub). apply sublist_cons_l in Hsub as (l3 & l4 & -> & Hsub).
  destruct (begun_for_good _ _ (l1 ++ l3) l4 Hl) as (H1 & H2 & _); [by rewrite <-app_assoc|].
  assert (Hin : forall e s, e ∈ after -> upload_steps [e] = [s] -> s ∈ l4).
  { intros e s He Es. eapply elem_of_submseteq; [|by apply sublist_submseteq].
    apply list_elem_of_omap. exists e. split; [done|]. destruct e; cbn in *; by simplify_eq. }
  split; intros He; [apply H1|apply H2]; by eapply Hin.
Qed.
End MutationProgress.
