(* ===== verification/Lifecycle.v ===== *)
(** The life of a server: admission of requests, the tasks they leave behind and
    the shutdown that waits for all of them ([ServerLifecycle], [ServerRuntime]
    and [start_maintenance] of [src/src/server.rs]).

    The processes are the requests, the tasks of the two trackers and any number
    of calls of [ServerRuntime::shutdown], each of which may be dropped while it
    waits.  Every point at which a process can be suspended separates two
    actions.  The gate is a read-write lock: its readers are the requests that
    hold a guard, its writer is the shutdown that drains.  The queue of the lock
    is left open: a waiting reader may overtake a waiting writer.

    A task spawns others only on the tracker of the background work; requests
    spawn on both.  A tracker accepts tasks after it was closed. *)

From S2P Require Import Prelude.
From stdpp Require Import base numbers list gmap sets.

Module Lifecycle.

Record TaskTracker := mkTracker { tt_closed : bool; tt_tasks : gset nat }.

Definition new_tracker : TaskTracker := mkTracker false ∅.
Definition close (t : TaskTracker) : TaskTracker := mkTracker true (tt_tasks t).
Definition spawn (task : nat) (t : TaskTracker) : TaskTracker := mkTracker (tt_closed t) ({[task]} ∪ tt_tasks t).
Definition ended (task : nat) (t : TaskTracker) : TaskTracker := mkTracker (tt_closed t) (tt_tasks t ∖ {[task]}).
(** whether [wait] is done *)
Definition drained (t : TaskTracker) : bool := tt_closed t && bool_decide (tt_tasks t = ∅).

(** A request is in the [select!] of [enter_request], holds a guard and is about
    to look at the token again, or has been let in. *)
Inductive RequestPhase := Selecting | Granted | Inside.

(** A shutdown waits for the gate, for the background work, for the commits or
    for the store. *)
Inductive ShutdownPhase := AtGate | DrainWork | DrainCommits | ClosingStore.

#[export] Instance RequestPhase_eq_dec : EqDecision RequestPhase.
Proof. solve_decision. Defined.
#[export] Instance ShutdownPhase_eq_dec : EqDecision ShutdownPhase.
Proof. solve_decision. Defined.

(** [store_open]: whether [StateStore::close] has not returned yet. *)
Record ServerLifecycle := mkLifecycle {
  running : bool;
  work_tasks : TaskTracker;
  commit_tasks : TaskTracker;
  shutdown : bool;
  force_shutdown : bool;
  requests : gmap nat RequestPhase;
  shutdowns : gmap nat ShutdownPhase;
  store_open : bool
}.

(** [ServerLifecycle::new]. *)
Definition new_lifecycle : ServerLifecycle :=
  mkLifecycle true new_tracker new_tracker false false ∅ ∅ true.

Definition set_work (s : ServerLifecycle) (t : TaskTracker) : ServerLifecycle :=
  mkLifecycle (running s) t (commit_tasks s) (shutdown s) (force_shutdown s) (requests s) (shutdowns s) (store_open s).
Definition set_commits (s : ServerLifecycle) (t : TaskTracker) : ServerLifecycle :=
  mkLifecycle (running s) (work_tasks s) t (shutdown s) (force_shutdown s) (requests s) (shutdowns s) (store_open s).
Definition set_requests (s : ServerLifecycle) (r : gmap nat RequestPhase) : ServerLifecycle :=
  mkLifecycle (running s) (work_tasks s) (commit_tasks s) (shutdown s) (force_shutdown s) r (shutdowns s) (store_open s).
Definition set_shutdowns (s : ServerLifecycle) (j : gmap nat ShutdownPhase) : ServerLifecycle :=
  mkLifecycle (running s) (work_tasks s) (commit_tasks s) (shutdown s) (force_shutdown s) (requests s) j (store_open s).
Definition cancel_shutdown (s : ServerLifecycle) : ServerLifecycle :=
  mkLifecycle (running s) (work_tasks s) (commit_tasks s) true (force_shutdown s) (requests s) (shutdowns s) (store_open s).
Definition cancel_force (s : ServerLifecycle) : ServerLifecycle :=
  mkLifecycle (running s) (work_tasks s) (commit_tasks s) (shutdown s) true (requests s) (shutdowns s) (store_open s).
Definition stop_running (s : ServerLifecycle) : ServerLifecycle :=
  mkLifecycle false (work_tasks s) (commit_tasks s) (shutdown s) (force_shutdown s) (requests s) (shutdowns s) (store_open s).
Definition close_store (s : ServerLifecycle) : ServerLifecycle :=
  mkLifecycle (running s) (work_tasks s) (commit_tasks s) (shutdown s) (force_shutdown s) (requests s) (shutdowns s) false.

(** The purge worker, the reconciler of prepared purges and the storage
    maintenance. *)
Definition start_maintenance (s : ServerLifecycle) : ServerLifecycle :=
  set_work s (spawn 2 (spawn 1 (spawn 0 (work_tasks s)))).

Definition request_force_shutdown (s : ServerLifecycle) : ServerLifecycle :=
  cancel_force (cancel_shutdown (stop_running s)).

(** ** The gate *)

Definition reads (p : RequestPhase) : bool := match p with Selecting => false | _ => true end.
Definition writes (p : ShutdownPhase) : bool := match p with AtGate => false | _ => true end.

Definition no_writer (s : ServerLifecycle) : bool :=
  bool_decide (map_Forall (λ _ p, writes p = false) (shutdowns s)).
Definition no_reader (s : ServerLifecycle) : bool :=
  bool_decide (map_Forall (λ _ p, reads p = false) (requests s)).

(** The end of [enter_request]: the guard is kept unless the token is cancelled. *)
Definition check_entry (shutdown : bool) : option RequestPhase :=
  if negb shutdown then Some Inside else None.

(** ** Actions *)

Inductive Action :=
(** [enter_request] is called; its [select!] sees the token or gets a guard; it
    looks at the token again; the request ends or is dropped *)
| Arrive (i : nat)
| SeeShutdown (i : nat)
| TakeGuard (i : nat)
| CheckEntry (i : nat)
| Leave (i : nat)
(** a request, or a task of the background work, spawns a task; a task ends *)
| SpawnWork (i task : nat)
| SpawnCommit (i task : nat)
| SpawnFrom (parent task : nat)
| WorkEnds (task : nat)
| CommitEnds (task : nat)
(** [request_force_shutdown], and whoever holds [shutdown_token] *)
| ForceShutdown
| CancelToken
(** [ServerRuntime::shutdown]; [Abandon]: its future is dropped *)
| BeginShutdown (j : nat)
| AcquireGate (j : nat)
| WorkDrained (j : nat)
| CommitsDrained (j : nat)
| StoreClosed (j : nat)
| Abandon (j : nat).

Definition request_in (s : ServerLifecycle) (i : nat) (p : RequestPhase) : bool := bool_decide (requests s !! i = Some p).
Definition shutdown_in (s : ServerLifecycle) (j : nat) (p : ShutdownPhase) : bool :=
  bool_decide (shutdowns s !! j = Some p).
Definition put_request (s : ServerLifecycle) (i : nat) (p : option RequestPhase) : ServerLifecycle :=
  set_requests s (partial_alter (λ _, p) i (requests s)).
Definition put_shutdown (s : ServerLifecycle) (j : nat) (p : option ShutdownPhase) : ServerLifecycle :=
  set_shutdowns s (partial_alter (λ _, p) j (shutdowns s)).

Definition act (a : Action) (s : ServerLifecycle) : option ServerLifecycle :=
  let allowed (b : bool) s' := if b then Some s' else None in
  match a with
  | Arrive i => allowed (bool_decide (requests s !! i = None)) (put_request s i (Some Selecting))
  | SeeShutdown i => allowed (request_in s i Selecting && shutdown s) (put_request s i None)
  | TakeGuard i => allowed (request_in s i Selecting && no_writer s) (put_request s i (Some Granted))
  | CheckEntry i => allowed (request_in s i Granted) (put_request s i (check_entry (shutdown s)))
  | Leave i => allowed (bool_decide (is_Some (requests s !! i))) (put_request s i None)
  | SpawnWork i task => allowed (request_in s i Inside) (set_work s (spawn task (work_tasks s)))
  | SpawnCommit i task => allowed (request_in s i Inside) (set_commits s (spawn task (commit_tasks s)))
  | SpawnFrom parent task =>
      allowed (bool_decide (parent ∈ tt_tasks (work_tasks s))) (set_work s (spawn task (work_tasks s)))
  | WorkEnds task =>
      allowed (bool_decide (task ∈ tt_tasks (work_tasks s))) (set_work s (ended task (work_tasks s)))
  | CommitEnds task =>
      allowed (bool_decide (task ∈ tt_tasks (commit_tasks s))) (set_commits s (ended task (commit_tasks s)))
  | ForceShutdown => Some (request_force_shutdown s)
  | CancelToken => Some (cancel_shutdown s)
  | BeginShutdown j =>
      allowed (bool_decide (shutdowns s !! j = None)) (put_shutdown (cancel_shutdown s) j (Some AtGate))
  | AcquireGate j =>
      allowed (shutdown_in s j AtGate && no_reader s && no_writer s)
        (set_work (put_shutdown s j (Some DrainWork)) (close (work_tasks s)))
  | WorkDrained j =>
      allowed (shutdown_in s j DrainWork && drained (work_tasks s))
        (set_commits (put_shutdown s j (Some DrainCommits)) (close (commit_tasks s)))
  | CommitsDrained j =>
      allowed (shutdown_in s j DrainCommits && drained (commit_tasks s)) (put_shutdown s j (Some ClosingStore))
  | StoreClosed j =>
      allowed (shutdown_in s j ClosingStore) (stop_running (close_store (put_shutdown s j None)))
  | Abandon j => allowed (bool_decide (is_Some (shutdowns s !! j))) (put_shutdown s j None)
  end.

Fixpoint run (actions : list Action) (s : ServerLifecycle) : option ServerLifecycle :=
  match actions with
  | [] => Some s
  | a :: actions => s ← act a s; run actions s
  end.

(** [ServerBuilder::build]. *)
Definition build : ServerLifecycle := start_maintenance new_lifecycle.

Definition reachable (s : ServerLifecycle) : Prop := exists actions, run actions build = Some s.

(** ** The shutdown *)

Definition nobody_inside (s : ServerLifecycle) : Prop := forall i, requests s !! i <> Some Inside.

(** Nobody is left that uses the store. *)
Definition quiet (s : ServerLifecycle) : Prop :=
  nobody_inside s /\ tt_tasks (work_tasks s) = ∅ /\ tt_tasks (commit_tasks s) = ∅.

(** What a shutdown has established when it is in a phase. *)
Definition established (s : ServerLifecycle) (p : ShutdownPhase) : Prop :=
  shutdown s = true /\
  match p with
  | AtGate => True
  | DrainWork => nobody_inside s /\ tt_closed (work_tasks s) = true
  | DrainCommits => nobody_inside s /\ tt_tasks (work_tasks s) = ∅ /\ tt_closed (commit_tasks s) = true
  | ClosingStore => quiet s
  end.

Ltac lifecycle_step :=
  repeat first
    [ progress cbn in *
    | progress simplify_option_eq
    | match goal with
      | H : bool_decide _ = true |- _ => apply bool_decide_eq_true in H
      | H : _ && _ = true |- _ => apply andb_true_iff in H as [? ?]
      | H : (if ?b then Some _ else None) = Some _ |- _ => destruct b eqn:?; [|discriminate H]
      | H : Some _ = Some _ |- _ => injection H as <-
      end ].

(** With the token cancelled nobody is let in. *)
Lemma nobody_enters a s s' i :
  act a s = Some s' -> shutdown s = true -> requests s' !! i = Some Inside -> requests s !! i = Some Inside.
Proof.
  intros Ha Hs Hi. destruct a; unfold act, put_request in Ha; rewrite ?Hs in Ha; lifecycle_step; try done;
    (destruct (decide (i0 = i)) as [->|];
    [rewrite lookup_partial_alter_eq in Hi|rewrite lookup_partial_alter_ne in Hi by done]; done).
Qed.

Lemma token_stays a s s' : act a s = Some s' -> shutdown s = true -> shutdown s' = true.
Proof. intros Ha Hs. destruct a; unfold act in Ha; lifecycle_step; done. Qed.

Lemma nobody_inside_stable a s s' :
  act a s = Some s' -> shutdown s = true -> nobody_inside s -> nobody_inside s'.
Proof. intros Ha Hs Hn i Hi. by apply (Hn i), (nobody_enters a s s' i). Qed.

(** A tracker without tasks gets none from tasks. *)
Lemma work_stays_empty a s s' :
  act a s = Some s' -> nobody_inside s -> tt_tasks (work_tasks s) = ∅ -> tt_tasks (work_tasks s') = ∅.
Proof.
  intros Ha Hn He. destruct a; unfold act, request_in in Ha; lifecycle_step; try set_solver; by destruct (Hn i).
Qed.

Lemma commits_stay_empty a s s' :
  act a s = Some s' -> nobody_inside s -> tt_tasks (commit_tasks s) = ∅ -> tt_tasks (commit_tasks s') = ∅.
Proof.
  intros Ha Hn He. destruct a; unfold act, request_in in Ha; lifecycle_step; try set_solver; by destruct (Hn i).
Qed.

Lemma trackers_stay_closed a s s' :
  act a s = Some s' ->
  (tt_closed (work_tasks s) = true -> tt_closed (work_tasks s') = true) /\
  (tt_closed (commit_tasks s) = true -> tt_closed (commit_tasks s') = true).
Proof. intros Ha. destruct a; unfold act in Ha; lifecycle_step; done. Qed.

(** What a shutdown has established nobody takes back. *)
Lemma established_stable a s s' p : act a s = Some s' -> established s p -> established s' p.
Proof.
  intros Ha [Hs Hp]. split; [by eapply token_stays|].
  pose proof (nobody_inside_stable a s s' Ha Hs) as Hn. pose proof (work_stays_empty a s s' Ha) as Hw.
  pose proof (commits_stay_empty a s s' Ha) as Hc. pose proof (trackers_stay_closed a s s' Ha) as [Hcw Hcc].
  unfold quiet in *. destruct p; naive_solver.
Qed.

Definition inv (s : ServerLifecycle) : Prop :=
  (forall j p, shutdowns s !! j = Some p -> established s p) /\
  (store_open s = false -> established s ClosingStore).

Lemma drained_spec t : drained t = true <-> tt_closed t = true /\ tt_tasks t = ∅.
Proof. unfold drained. by rewrite andb_true_iff, bool_decide_eq_true. Qed.

Lemma no_reader_nobody s : no_reader s = true -> nobody_inside s.
Proof. unfold no_reader. intros H%bool_decide_eq_true i Hi. by specialize (H i _ Hi). Qed.

(** A shutdown reaches a phase only when it has established it. *)
Lemma phase_established a s s' j p :
  act a s = Some s' -> inv s -> shutdowns s' !! j = Some p -> established s' p.
Proof.
  intros Ha [Hi Hst] Hj. destruct (decide (shutdowns s !! j = Some p)) as [|Hne];
    [by eapply established_stable; [exact Ha|]; apply (Hi j)|].
  assert (forall q, shutdowns s !! j = Some q -> established s' q) as Hold by (intros; by eapply established_stable; [|eapply Hi]).
  destruct a; unfold act, shutdown_in, put_shutdown in Ha; lifecycle_step; try done.
  all: destruct (decide (j0 = j)) as [->|];
    [rewrite lookup_partial_alter_eq in Hj|by rewrite lookup_partial_alter_ne in Hj].
  all: simplify_eq; try (pose proof (Hold _ ltac:(eassumption)) as [? ?]); split; cbn in *; try done.
  1: by split; [apply no_reader_nobody|].
  all: match goal with H : drained _ = true |- _ => apply drained_spec in H as [? ?] end; unfold quiet; naive_solver.
Qed.

Lemma act_inv a s s' : act a s = Some s' -> inv s -> inv s'.
Proof.
  intros Ha Hi. split; [intros; by eapply phase_established|]. intros Ho.
  destruct (store_open s) eqn:E; [|by eapply established_stable; [|apply Hi]].
  destruct a; unfold act, shutdown_in in Ha; lifecycle_step; try congruence.
  by apply (proj1 Hi j).
Qed.

Lemma run_ind (P : ServerLifecycle -> Prop) actions s s' :
  (forall a s s', act a s = Some s' -> P s -> P s') -> run actions s = Some s' -> P s -> P s'.
Proof.
  intros Hstep. revert s. induction actions as [|a actions IH]; intros s; cbn; [by intros [= ->]|].
  destruct (act a s) as [s1|] eqn:E; [|done]. cbn. intros Hr Hs. by eapply IH, Hstep.
Qed.

Lemma build_inv : inv build.
Proof. split; [|done]. intros j p. cbn. by rewrite lookup_empty. Qed.

Lemma reachable_inv s : reachable s -> inv s.
Proof. intros [actions Hr]. eapply run_ind; [apply act_inv|exact Hr|apply build_inv]. Qed.

(** C7: The store is closed last.  Once the token is cancelled no request is let in
    any more, whichever of its steps it had taken by then; and from the moment a
    shutdown begins to close the store, in every later state, no request is
    inside and no task of either tracker is left that could use it. *)
Theorem store_closes_last s :
  reachable s ->
  (shutdown s = true -> forall later s' i,
     run later s = Some s' -> requests s' !! i = Some Inside -> requests s !! i = Some Inside) /\
  (store_open s = false \/ (exists j, shutdowns s !! j = Some ClosingStore) -> forall later s',
     run later s = Some s' -> quiet s').
Proof.
  intros Hr%reachable_inv. split.
  - intros Hs later s' i Hrun.
    assert (shutdown s' = true /\ (requests s' !! i = Some Inside -> requests s !! i = Some Inside)) as [_ ?]; [|done].
    eapply (run_ind (λ t, shutdown t = true /\ (requests t !! i = Some Inside -> requests s !! i = Some Inside)));
      [|exact Hrun|done].
    intros a t t' Ha [Ht Hi]. split; [by eapply token_stays|]. intros Hin. by apply Hi, (nobody_enters a t t' i).
  - intros Hc later s' Hrun.
    assert (established s ClosingStore) as He by (destruct Hc as [?|[j ?]]; [by apply Hr|by apply (proj1 Hr j)]).
    eapply (run_ind (λ t, established t ClosingStore)) in Hrun; [apply Hrun| |exact He].
    intros a t t' Ha. by eapply established_stable.
Qed.

(** ** The shutdown comes to an end *)

(** A request or a task ends, or a shutdown goes on. *)
Definition ending (a : Action) : bool :=
  match a with
  | Leave _ | WorkEnds _ | CommitEnds _ | AcquireGate _ | WorkDrained _ | CommitsDrained _ | StoreClosed _ => true
  | _ => false
  end.

(** A run of such actions. *)
Definition ends_in (s s' : ServerLifecycle) : Prop :=
  exists actions, forallb ending actions = true /\ run actions s = Some s'.

Lemma ends_in_refl s : ends_in s s.
Proof. by exists []. Qed.

Lemma ends_in_step a s s1 s2 : ending a = true -> act a s = Some s1 -> ends_in s1 s2 -> ends_in s s2.
Proof. intros He Ha (l & Hl & Hr). exists (a :: l). cbn. by rewrite He, Ha. Qed.

Lemma ends_in_trans s1 s2 s3 : ends_in s1 s2 -> ends_in s2 s3 -> ends_in s1 s3.
Proof.
  intros (l & Hl & Hr) H. revert s1 Hr. induction l as [|a l IH]; intros s1; cbn; [by intros [= ->]|].
  cbn in Hl. apply andb_true_iff in Hl as [Ha Hl]. destruct (act a s1) as [s|] eqn:E; [|done]. cbn. intros Hr.
  eapply ends_in_step; [done..|]. by apply IH.
Qed.

Lemma ends_in_inv s s' : ends_in s s' -> inv s -> inv s'.
Proof. intros (l & _ & Hr). eapply run_ind; [apply act_inv|done]. Qed.

Lemma requests_leave s : ends_in s (set_requests s ∅).
Proof.
  remember (requests s) as m eqn:E. revert s E.
  induction m as [|i p m Hm IH] using map_ind; intros s E; [destruct s; cbn in *; subst; apply ends_in_refl|].
  eapply (ends_in_step (Leave i)); [done|cbn; by rewrite <- E, lookup_insert_eq|].
  unfold put_request. rewrite <- E. change (partial_alter _ i (<[i := p]> m)) with (delete i (<[i := p]> m)).
  rewrite delete_insert_id by done. by apply (IH (set_requests s m)).
Qed.

Lemma work_ends s : ends_in s (set_work s (mkTracker (tt_closed (work_tasks s)) ∅)).
Proof.
  remember (tt_tasks (work_tasks s)) as X eqn:E. revert s E.
  induction X as [|t X Ht IH] using set_ind_L; intros s E;
    [destruct s as [? []]; cbn in *; subst; apply ends_in_refl|].
  eapply (ends_in_step (WorkEnds t)); [done|cbn; rewrite <- E; by rewrite bool_decide_true by set_solver|].
  apply (IH (set_work s (ended t (work_tasks s)))). cbn. rewrite <- E. set_solver.
Qed.

Lemma commits_end s : ends_in s (set_commits s (mkTracker (tt_closed (commit_tasks s)) ∅)).
Proof.
  remember (tt_tasks (commit_tasks s)) as X eqn:E. revert s E.
  induction X as [|t X Ht IH] using set_ind_L; intros s E;
    [destruct s as [? ? []]; cbn in *; subst; apply ends_in_refl|].
  eapply (ends_in_step (CommitEnds t)); [done|cbn; rewrite <- E; by rewrite bool_decide_true by set_solver|].
  apply (IH (set_commits s (ended t (commit_tasks s)))). cbn. rewrite <- E. set_solver.
Qed.

(** Everybody but the shutdowns is gone. *)
Definition deserted (s : ServerLifecycle) : Prop :=
  requests s = ∅ /\ tt_tasks (work_tasks s) = ∅ /\ tt_tasks (commit_tasks s) = ∅.

Lemma everybody_leaves s : exists s', ends_in s s' /\ deserted s' /\ shutdowns s' = shutdowns s.
Proof.
  eexists. split; [|split].
  - eapply ends_in_trans; [apply requests_leave|]. eapply ends_in_trans; [apply work_ends|apply commits_end].
  - done.
  - done.
Qed.

(** The shutdown goes through. *)
Definition finishes (s : ServerLifecycle) (k : nat) : Prop :=
  exists s', ends_in s s' /\ deserted s' /\ shutdowns s' = delete k (shutdowns s) /\ store_open s' = false.

Lemma finishes_step a s s' k p :
  ending a = true -> act a s = Some s' -> shutdowns s' = <[k := p]> (shutdowns s) -> finishes s' k -> finishes s k.
Proof.
  intros He Ha Hk (s2 & Hs & Hd & E & Ho). exists s2. split; [by eapply ends_in_step|]. split; [done|].
  split; [|done]. by rewrite E, Hk, delete_insert_eq.
Qed.

Lemma writer_finishes s k p :
  inv s -> deserted s -> shutdowns s !! k = Some p -> writes p = true -> finishes s k.
Proof.
  assert (forall s, deserted s -> shutdowns s !! k = Some ClosingStore -> finishes s k) as Hclose.
  { intros t Hd Hk. exists (stop_running (close_store (put_shutdown t k None))). split; [|split; [exact Hd|done]].
    eapply (ends_in_step (StoreClosed k)); [done| |apply ends_in_refl].
    cbn. unfold shutdown_in. by rewrite bool_decide_true. }
  assert (forall s, inv s -> deserted s -> shutdowns s !! k = Some DrainCommits -> finishes s k) as Hcommits.
  { intros t Hi (Hr & Hw & Hc) Hk. destruct (proj1 Hi _ _ Hk) as (_ & _ & _ & Hcl).
    apply (finishes_step (CommitsDrained k) t (put_shutdown t k (Some ClosingStore)) k ClosingStore); [done| |done|].
    - cbn. unfold shutdown_in, drained. by rewrite bool_decide_true, Hcl, bool_decide_true by done.
    - apply Hclose; [done|apply lookup_insert_eq]. }
  intros Hi Hd Hk Hw. destruct p; [done| |by apply Hcommits|by apply Hclose].
  pose proof (proj1 Hi _ _ Hk) as (_ & _ & Hcl). pose proof Hd as (Hr & Hwk & Hc).
  assert (act (WorkDrained k) s = Some (set_commits (put_shutdown s k (Some DrainCommits)) (close (commit_tasks s)))) as Ha.
  { cbn. unfold shutdown_in, drained. by rewrite bool_decide_true, Hcl, bool_decide_true by done. }
  eapply (finishes_step (WorkDrained k)); [done|exact Ha|reflexivity|].
  apply Hcommits; [by eapply act_inv|done|apply lookup_insert_eq].
Qed.

Lemma first_finishes s k :
  inv s -> deserted s -> shutdowns s !! k = Some AtGate -> no_writer s = true -> finishes s k.
Proof.
  intros Hi (Hr & Hw & Hc) Hk Hn.
  assert (act (AcquireGate k) s = Some (set_work (put_shutdown s k (Some DrainWork)) (close (work_tasks s)))) as Ha.
  { cbn. unfold shutdown_in, no_reader. rewrite bool_decide_true, Hn, Hr by done. cbn.
    by rewrite bool_decide_true by apply map_Forall_empty. }
  eapply (finishes_step (AcquireGate k)); [done|exact Ha|reflexivity|].
  eapply writer_finishes; [by eapply act_inv|done|apply lookup_insert_eq|done].
Qed.

Lemma writer_or_none s : no_writer s = true \/ exists k p, shutdowns s !! k = Some p /\ writes p = true.
Proof.
  unfold no_writer. case_bool_decide as H; [by left|]. right.
  apply map_not_Forall in H as (k & p & ? & Hp); [|apply _]. exists k, p. split; [done|]. by destruct (writes p).
Qed.

Lemma size_delete_lt {A} (m : gmap nat A) k x : m !! k = Some x -> (size (delete k m) < size m)%nat.
Proof.
  intros Hk. rewrite map_size_delete_Some by done.
  assert (size m <> 0%nat); [|lia]. intros ->%map_size_empty_inv. by rewrite lookup_empty in Hk.
Qed.

(** One after the other, the shutdowns that hold the gate go through, then the
    one in question. *)
Lemma deserted_finishes n s j :
  size (shutdowns s) = n -> inv s -> deserted s -> is_Some (shutdowns s !! j) ->
  exists s', ends_in s s' /\ shutdowns s' !! j = None /\ store_open s' = false.
Proof.
  revert s. induction n as [n IH] using lt_wf_ind. intros s Hn Hi Hd [p Hj].
  assert (finishes s j -> exists s', ends_in s s' /\ shutdowns s' !! j = None /\ store_open s' = false) as Hf.
  { intros (s' & ? & _ & E & ?). exists s'. split; [done|]. by rewrite E, lookup_delete_eq. }
  destruct (writer_or_none s) as [Hw|(k & q & Hk & Hq)].
  - apply Hf. destruct (writes p) eqn:Hp; [by eapply writer_finishes|]. apply first_finishes; try done. by destruct p.
  - destruct (decide (k = j)) as [->|Hne]; [by eapply Hf, writer_finishes|].
    destruct (writer_finishes s k q Hi Hd Hk Hq) as (s1 & Hs1 & Hd1 & E & _).
    assert (size (shutdowns s1) < n)%nat as Hlt by (rewrite E; subst n; by eapply size_delete_lt).
    destruct (IH _ Hlt s1) as (s' & ? & ?); [done|by eapply ends_in_inv|done|rewrite E, lookup_delete_ne by done; by eexists|].
    exists s'. split; [by eapply ends_in_trans|done].
Qed.

(** C26: Nothing but requests and tasks that do not end can keep a shutdown waiting:
    from every reachable state it goes through once those there are have ended,
    and closes the store, however many other shutdowns wait with it. *)
Theorem shutdown_completes s j :
  reachable s -> is_Some (shutdowns s !! j) ->
  exists actions s', forallb ending actions = true /\ run actions s = Some s' /\
    shutdowns s' !! j = None /\ store_open s' = false.
Proof.
  intros Hr%reachable_inv Hj. destruct (everybody_leaves s) as (s1 & Hs1 & Hd & E).
  destruct (deserted_finishes _ s1 j eq_refl) as (s' & Hs' & ?); [by eapply ends_in_inv|done|by rewrite E|].
  destruct (ends_in_trans _ _ _ Hs1 Hs') as (actions & ? & ?). by exists actions, s'.
Qed.

(** ** Examples *)

(** A request is inside and has left a commit behind when two shutdowns begin; a
    second request is overtaken by the token. *)
Definition busy : list Action :=
  [Arrive 0; TakeGuard 0; Arrive 1; TakeGuard 1; CheckEntry 0; SpawnCommit 0 7; BeginShutdown 0; CheckEntry 1;
   BeginShutdown 1; Leave 0; AcquireGate 1]%nat.

Definition busy_state : ServerLifecycle := default build (run busy build).

Lemma busy_reachable : reachable busy_state.
Proof. exists busy. vm_compute. reflexivity. Qed.

Lemma shutdown_completes_witness :
  is_Some (shutdowns busy_state !! 0%nat) /\
  exists actions s', forallb ending actions = true /\ run actions busy_state = Some s' /\
    shutdowns s' !! 0%nat = None /\ store_open s' = false.
Proof.
  split; [vm_compute; by eexists|]. apply (shutdown_completes busy_state 0); [apply busy_reachable|vm_compute; by eexists].
Defined.

Definition closing : list Action :=
  (busy ++ [WorkEnds 0; WorkEnds 1; WorkEnds 2; WorkDrained 1; CommitEnds 7; CommitsDrained 1])%nat.
Definition closing_state : ServerLifecycle := default build (run closing build).

Lemma store_closes_last_witness :
  shutdowns closing_state !! 1%nat = Some ClosingStore /\ quiet closing_state.
Proof.
  split; [vm_compute; reflexivity|].
  refine (proj2 (store_closes_last closing_state _) _ [] closing_state eq_refl);
    [by exists closing; vm_compute|right; exists 1%nat; vm_compute; reflexivity].
Defined.

Example the_commit_is_waited_for : run (busy ++ [WorkEnds 0; WorkEnds 1; WorkEnds 2; WorkDrained 1; CommitsDrained 1])%nat build = None.
Proof. vm_compute. reflexivity. Qed.
End Lifecycle.

(** * The thread of the state store

    [StateStoreInner::close_blocking] ([src/src/server/state_store.rs]), called by
    any number of threads: the steps are the critical sections of the mutex, the
    wait, and what is done in between. *)
Module StoreThread.

(** Where a closer is: about to take the mutex, waiting on the condition variable,
    stopping the thread with the handle it took or none, joining it, about to
    record the end ([join_result.is_ok()]), returned ([Ok] or not). *)
Inductive Closer :=
| Entering | Waiting | Stopping (handle : bool) | Joining (handle control_ok : bool)
| Recording (control_ok join_ok : bool) | Returned (ok : bool).

#[export] Instance Closer_eq_dec : EqDecision Closer.
Proof. solve_decision. Defined.

(** [ThreadLifecycle], the health flag, the thread ([Some] when it has exited,
    with whether it did so without a panic), and the closers. *)
Record StateStoreInner := mkInner {
  handle : bool; closing : bool; closed : bool; healthy : bool;
  exit : option bool; closers : gmap nat Closer
}.

(** After [StateStore::start]. *)
Definition new_store : StateStoreInner := mkInner true false false true None ∅.

Definition set_closer (s : StateStoreInner) (j : nat) (c : Closer) : StateStoreInner :=
  mkInner (handle s) (closing s) (closed s) (healthy s) (exit s) (<[j := c]> (closers s)).

(** With the mutex: wait, return, or take the handle. *)
Definition lock (j : nat) (s : StateStoreInner) : StateStoreInner :=
  if closing s && negb (closed s) then set_closer s j Waiting
  else if closed s then set_closer s j (Returned true)
  else mkInner false true (closed s) (healthy s) (exit s) (<[j := Stopping (handle s)]> (closers s)).

(** [notify_all] *)
Definition wake (c : Closer) : Closer := match c with Waiting => Entering | _ => c end.

Definition close_result (control_ok join_ok : bool) : bool :=
  if negb control_ok && join_ok then true else join_ok.

(** [lifecycle.closed = true; lifecycle.closing = false; notify_all()] *)
Definition record_closed (j : nat) (r : bool) (s : StateStoreInner) : StateStoreInner :=
  mkInner (handle s) false true (healthy s) (exit s) (<[j := Returned r]> (wake <$> closers s)).

(** A wait may end without a notification; sending [Shutdown] may fail; a caller
    that could not send or was not answered clears the health flag. *)
Inductive Step :=
| Close (j : nat) | Lock (j : nat) | WakeUp (j : nat) | Stop_ (j : nat) (control_ok : bool)
| Join (j : nat) | Record_ (j : nat) | Unhealthy | ThreadExits (clean : bool).

Definition step (a : Step) (s : StateStoreInner) : option StateStoreInner :=
  match a with
  | Close j => match closers s !! j with None => Some (set_closer s j Entering) | Some _ => None end
  | Lock j => match closers s !! j with Some Entering => Some (lock j s) | _ => None end
  | WakeUp j => match closers s !! j with Some Waiting => Some (set_closer s j Entering) | _ => None end
  | Stop_ j control_ok =>
      match closers s !! j with
      | Some (Stopping h) =>
          Some (mkInner (handle s) (closing s) (closed s) false (exit s) (<[j := Joining h control_ok]> (closers s)))
      | _ => None
      end
  | Join j =>
      match closers s !! j with
      | Some (Joining true control_ok) => e ← exit s; Some (set_closer s j (Recording control_ok e))
      | Some (Joining false control_ok) => Some (set_closer s j (Recording control_ok true))
      | _ => None
      end
  | Record_ j =>
      match closers s !! j with
      | Some (Recording control_ok join_ok) => Some (record_closed j (close_result control_ok join_ok) s)
      | _ => None
      end
  | Unhealthy => Some (mkInner (handle s) (closing s) (closed s) false (exit s) (closers s))
  (** told to, or because it panicked; [HealthOnExit] is dropped *)
  | ThreadExits clean =>
      match exit s with
      | None => Some (mkInner (handle s) (closing s) (closed s) false (Some clean) (closers s))
      | Some _ => None
      end
  end.

Fixpoint steps (l : list Step) (s : StateStoreInner) : option StateStoreInner :=
  match l with [] => Some s | a :: l => s ← step a s; steps l s end.

(** The lifecycle as one of three stages. *)
Inductive Stage := Open | Shutting (j : nat) | Shut.

(** What a closer may be doing in a stage: at work only as the one that took the
    handle, with the handle until it has joined; waiting only while one is at work;
    returned only when the end is recorded. *)
Definition closer_ok (g : Stage) (e : option bool) (h : bool) (j : nat) (c : Closer) : Prop :=
  match c with
  | Entering => True
  | Waiting => exists i, g = Shutting i /\ i <> j
  | Stopping taken => g = Shutting j /\ taken = true
  | Joining taken _ => g = Shutting j /\ taken = true /\ h = false
  | Recording _ ok => g = Shutting j /\ e = Some ok /\ h = false
  | Returned ok => g = Shut /\ (ok = false -> e = Some false)
  end.

(** Between the two critical sections. *)
Definition at_work (c : Closer) : bool :=
  match c with Stopping _ | Joining _ _ | Recording _ _ => true | _ => false end.

Definition stage_ok (g : Stage) (s : StateStoreInner) : Prop :=
  match g with
  | Open => handle s = true /\ closing s = false /\ closed s = false
  | Shutting j =>
      handle s = false /\ closing s = true /\ closed s = false /\
      exists c, closers s !! j = Some c /\ at_work c = true
  | Shut => handle s = false /\ closing s = false /\ closed s = true /\ healthy s = false /\ exit s <> None
  end.

Definition close_inv (s : StateStoreInner) : Prop :=
  exists g, stage_ok g s /\ map_Forall (closer_ok g (exit s) (healthy s)) (closers s).

Lemma new_store_inv : close_inv new_store.
Proof. exists Open. split; [done|apply map_Forall_empty]. Qed.

(** The closer that moves is the only one to check when the rest of the state stays
    or changes in favour of the others. *)
Lemma closers_move g g' e e' h h' j c (m : gmap nat Closer) :
  map_Forall (closer_ok g e h) m -> closer_ok g' e' h' j c ->
  (forall i d, i <> j -> closer_ok g e h i d -> closer_ok g' e' h' i d) ->
  map_Forall (closer_ok g' e' h') (<[j := c]> m).
Proof.
  intros F C K i d. destruct (decide (i = j)) as [->|N].
  - rewrite lookup_insert_eq. by intros [= <-].
  - rewrite lookup_insert_ne by done. intros L. apply K, F, L. done.
Qed.

Lemma stage_move g s j c c0 :
  stage_ok g s -> closers s !! j = Some c0 -> (at_work c0 = true -> at_work c = true) -> stage_ok g (set_closer s j c).
Proof.
  destruct g as [|i|]; simpl; [done| |done]. intros (? & ? & ? & d & L & W) L0 K. split_and!; try done.
  destruct (decide (i = j)) as [->|].
  - exists c. simpl. rewrite lookup_insert_eq. simplify_eq. auto.
  - exists d. simpl. by rewrite lookup_insert_ne.
Qed.

Lemma at_work_stage g e h j c : closer_ok g e h j c -> at_work c = true -> g = Shutting j.
Proof. destruct c; simpl; naive_solver. Qed.

Lemma lock_inv j s : closers s !! j = Some Entering -> close_inv s -> close_inv (lock j s).
Proof.
  intros L (g & G & F). unfold lock. destruct g as [|i|]; simpl in G.
  - destruct G as (-> & -> & ->). exists (Shutting j). split.
    + split_and!; try done. exists (Stopping true). simpl. by rewrite lookup_insert_eq.
    + eapply closers_move; [exact F|done|]. intros i d N. destruct d; simpl; naive_solver.
  - destruct G as (H & E & C & d & Ld & W). rewrite E, C. simpl. exists (Shutting i). split.
    + eapply (stage_move (Shutting i)); [by repeat split; eauto|exact L|done].
    + eapply closers_move; [exact F| |done]. exists i. split; [done|]. intros ->. by simplify_eq.
  - destruct G as (H & E & C & W & X). rewrite E, C. exists Shut. split; [done|].
    eapply closers_move; [exact F|done|done].
Qed.

Lemma record_inv j c ok s :
  closers s !! j = Some (Recording c ok) -> close_inv s -> close_inv (record_closed j (close_result c ok) s).
Proof.
  intros L (g & G & F). destruct (F _ _ L) as (-> & E & W). destruct G as (H & _ & _ & _). exists Shut. split.
  - split_and!; try done. simpl. by rewrite E.
  - simpl. intros i d. destruct (decide (i = j)) as [->|N].
    + rewrite lookup_insert_eq. intros [= <-]. split; [done|]. rewrite E. by destruct c, ok.
    + rewrite lookup_insert_ne, lookup_fmap by done. destruct (closers s !! i) as [d'|] eqn:Li; [|done].
      intros [= <-]. specialize (F _ _ Li). destruct d'; simpl in *; naive_solver.
Qed.

Lemma step_inv a s s' : step a s = Some s' -> close_inv s -> close_inv s'.
Proof.
  intros E I. destruct a as [j|j|j|j ok|j|j| |clean]; simpl in E.
  - destruct (closers s !! j) eqn:L; simplify_eq. destruct I as (g & G & F). exists g. split.
    + destruct g as [|i|]; simpl in *; [done| |done]. destruct G as (? & ? & ? & d & Ld & W). split_and!; try done.
      exists d. rewrite lookup_insert_ne; [done|congruence].
    + by eapply closers_move.
  - destruct (closers s !! j) as [[]|] eqn:L; simplify_eq. by apply lock_inv.
  - destruct (closers s !! j) as [[]|] eqn:L; simplify_eq. destruct I as (g & G & F). exists g. split.
    + by eapply stage_move.
    + by eapply closers_move.
  - destruct (closers s !! j) as [[]|] eqn:L; simplify_eq. destruct I as (g & G & F).
    destruct (F _ _ L) as [-> ->]. exists (Shutting j). split.
    + by apply (stage_move (Shutting j) s j (Joining true ok)) in L.
    + eapply closers_move; [exact F|done|]. intros i d N. destruct d; simpl; naive_solver.
  - destruct (closers s !! j) as [[| |  |[] c| |]|] eqn:L; simplify_eq; destruct I as (g & G & F);
      destruct (F _ _ L) as (-> & T & W); [|done].
    destruct (exit s) as [e|] eqn:X; simplify_eq/=. exists (Shutting j). split.
    + by eapply stage_move.
    + simpl. rewrite X, W. rewrite W in F. by eapply closers_move.
  - destruct (closers s !! j) as [[]|] eqn:L; simplify_eq. by apply record_inv.
  - simplify_eq. destruct I as (g & G & F). exists g. split; [by destruct g; simpl in *; naive_solver|].
    intros i d L. specialize (F _ _ L). destruct d; simpl in *; naive_solver.
  - destruct (exit s) eqn:X; simplify_eq. destruct I as (g & G & F). rewrite X in F. exists g. split.
    + by destruct g; simpl in *; naive_solver.
    + intros i d L. specialize (F _ _ L). destruct d; simpl in *; naive_solver.
Qed.

Lemma steps_inv l : forall s s', steps l s = Some s' -> close_inv s -> close_inv s'.
Proof.
  induction l as [|a l IH]; simpl; intros s s' E I; [by simplify_eq|].
  destruct (step a s) as [s1|] eqn:E1; simpl in E; [|done]. eapply IH, step_inv; eauto.
Qed.

(** A step of a closer that is not waiting moves it on. *)
Definition enabled (s : StateStoreInner) (j : nat) : Prop :=
  exists a, (a = Lock j \/ (exists ok, a = Stop_ j ok) \/ a = Join j \/ a = Record_ j) /\ is_Some (step a s).

Lemma moves_on s j c :
  close_inv s -> closers s !! j = Some c -> exit s <> None -> c <> Waiting -> (forall ok, c <> Returned ok) -> enabled s j.
Proof.
  intros (g & _ & F) L X W R. specialize (F _ _ L). destruct (exit s) as [e|] eqn:Xe; [|done].
  destruct c as [| |h|h o|o r|r]; [| done | | | |by destruct (R r)]; unfold enabled.
  - exists (Lock j). simpl. rewrite L. eauto.
  - exists (Stop_ j true). simpl. rewrite L. eauto 6.
  - exists (Join j). simpl in *. destruct F as (_ & -> & _). rewrite L, Xe. simpl. eauto 6.
  - exists (Record_ j). simpl. rewrite L. eauto 6.
Qed.

(** However the calls interleave: one closer at a time is at work; a call that
    returned finds the end recorded, the store unhealthy and the thread gone, and it
    fails only when the thread panicked; and once the thread has exited no call is
    stranded, for one that has not returned can move, or waits for one that can. *)
Theorem store_thread_closes l s :
  steps l new_store = Some s ->
  (forall i j c d, closers s !! i = Some c -> closers s !! j = Some d ->
     at_work c = true -> at_work d = true -> i = j) /\
  (forall j ok, closers s !! j = Some (Returned ok) ->
     closed s = true /\ healthy s = false /\ exit s <> None /\ (ok = false -> exit s = Some false)) /\
  (exit s <> None -> forall j c, closers s !! j = Some c -> (forall ok, c <> Returned ok) ->
     enabled s j \/ c = Waiting /\ exists i, i <> j /\ enabled s i).
Proof.
  intros E. pose proof (steps_inv _ _ _ E new_store_inv) as I. pose proof I as (g & G & F). split_and!.
  - intros i j c d Li Lj Wc Wd. apply F in Li, Lj. apply at_work_stage in Li, Lj; congruence.
  - intros j ok L. destruct (F _ _ L) as [-> K]. simpl in G. naive_solver.
  - intros X j c L R. destruct (decide (c = Waiting)) as [->|W]; [|left; by eapply moves_on].
    right. split; [done|]. destruct (F _ _ L) as (i & -> & N). exists i. split; [done|].
    destruct G as (_ & _ & _ & d & Ld & Wd). eapply moves_on; [done|done|done| |]; by destruct d.
Qed.

(** Two calls at once: the second waits and both return. *)
Example two_closers :
  (fun s => (closed s, healthy s, closers s !! 0%nat, closers s !! 1%nat)) <$>
  steps [Close 0; Close 1; Lock 0; Lock 1; Stop_ 0 true; ThreadExits true; Join 0; Record_ 0; Lock 1] new_store
  = Some (true, false, Some (Returned true), Some (Returned true)).
Proof. reflexivity. Qed.
End StoreThread.
