(* ===== verification/LogText.v ===== *)
(** The text of log records: escaping of control characters, quoting of values
    and the bound on the length of a record ([src/src/logger.rs] and the
    sanitizing functions of [src/src/http_logger.rs]).

    A text is a UTF-8 string.  Its control characters are the bytes below 32,
    the byte 127 and the two-byte encodings of U+0080 to U+009F, which begin with
    the byte 194; no other character has an encoding with this byte in it. *)

From S2P Require Import Prelude Bytes Utils.
From stdpp Require Import base numbers list strings.
From Stdlib Require Import Ascii.

Local Open Scope Z_scope.

Definition backslash : ascii := byte_chr 92.
Definition double_quote : ascii := byte_chr 34.

(** [char::is_control] of an ASCII character, and of the other ones. *)
Definition is_control (c : ascii) : bool := (byte_val c <? 32) || (byte_val c =? 127).
Definition is_control_pair (c d : ascii) : bool := (byte_val c =? 194) && in_range 128 159 (byte_val d).

(** [{:x}] of the code of a control character. *)
Definition lower_hex (z : Z) : bytes :=
  if z <? 16 then [hex_digit z] else [hex_digit (z / 16); hex_digit (z mod 16)].
Definition unicode_escape (code : Z) : bytes := bs "\u{" ++ lower_hex code ++ bs "}".

(** The escape of an ASCII character, if it has one; [quoting]: of a value. *)
Definition escape_ascii (quoting : bool) (c : ascii) : option bytes :=
  if quoting && bool_decide (c = backslash) then Some (bs "\\")
  else if quoting && bool_decide (c = double_quote) then Some [backslash; double_quote]
  else if byte_val c =? 10 then Some (bs "\n")
  else if byte_val c =? 13 then Some (bs "\r")
  else if byte_val c =? 9 then Some (bs "\t")
  else if is_control c then Some (unicode_escape (byte_val c))
  else None.

Fixpoint sanitize (quoting : bool) (s : bytes) : bytes :=
  match s with
  | [] => []
  | c :: rest =>
      match escape_ascii quoting c with
      | Some e => e ++ sanitize quoting rest
      | None =>
          match rest with
          | d :: rest' =>
              if is_control_pair c d then unicode_escape (byte_val d) ++ sanitize quoting rest'
              else c :: sanitize quoting rest
          | [] => [c]
          end
      end
  end.

Definition sanitize_log_line (value : bytes) : bytes := sanitize false value.
Definition sanitize_log_value (value : bytes) : bytes := sanitize true value.

(** ** The length of a record *)

Definition MAX_LOG_ENTRY_BYTES : Z := 16 * 1024.
Definition LOG_TRUNCATION_SUFFIX : bytes := bs "...[truncated]".

(** [str::is_char_boundary] *)
Definition is_char_boundary (s : bytes) (index : nat) : bool :=
  match s !! index with
  | Some c => bool_decide (index = 0%nat) || negb (utf8_cont c)
  | None => bool_decide (index = length s)
  end.

(** The loop [while !value.is_char_boundary(end) { end -= 1 }]. *)
Fixpoint floor_boundary (s : bytes) (end_ : nat) : nat :=
  if is_char_boundary s end_ then end_
  else match end_ with O => O | S n => floor_boundary s n end.

Definition truncate_log_entry (value : bytes) : bytes :=
  if blen value <=? MAX_LOG_ENTRY_BYTES then value
  else
    let end_ := floor_boundary value (Z.to_nat (MAX_LOG_ENTRY_BYTES - blen LOG_TRUNCATION_SUFFIX)) in
    take end_ value ++ LOG_TRUNCATION_SUFFIX.

Record BoundedLogLine := mkLine { bl_value : bytes; bl_truncated : bool }.

Definition new_line : BoundedLogLine := mkLine [] false.

Definition push_str (line : BoundedLogLine) (value : bytes) : BoundedLogLine :=
  if bl_truncated line then line
  else if blen value <=? u64_saturating_sub MAX_LOG_ENTRY_BYTES (blen (bl_value line))
  then mkLine (bl_value line ++ value) false
  else
    let content_limit := Z.to_nat (MAX_LOG_ENTRY_BYTES - blen LOG_TRUNCATION_SUFFIX) in
    let own :=
      if (content_limit <? length (bl_value line))%nat
      then take (floor_boundary (bl_value line) content_limit) (bl_value line)
      else bl_value line in
    let end_ := floor_boundary value (Nat.min (length value) (content_limit - length own)) in
    mkLine (own ++ take end_ value ++ LOG_TRUNCATION_SUFFIX) true.

Definition finish (line : BoundedLogLine) : bytes := bl_value line.

(** [str::chars]: a byte with the bytes that continue it. *)
Fixpoint chars (s : bytes) : list bytes :=
  match s with
  | [] => []
  | c :: rest =>
      match chars rest with
      | (d :: ds) :: others => if utf8_cont d then (c :: d :: ds) :: others else [c] :: (d :: ds) :: others
      | others => [c] :: others
      end
  end.

Fixpoint append_chars (line : BoundedLogLine) (l : list bytes) : BoundedLogLine :=
  match l with
  | [] => line
  | ch :: l => if bl_truncated line then line else append_chars (push_str line (sanitize true ch)) l
  end.
Definition append_sanitized_log_value (line : BoundedLogLine) (value : bytes) : BoundedLogLine :=
  append_chars line (chars value).

(** ** One physical line *)

Fixpoint has_control (s : bytes) : bool :=
  match s with
  | [] => false
  | c :: rest =>
      is_control c || match rest with d :: _ => is_control_pair c d | [] => false end || has_control rest
  end.

(** Reading an escaped value back. *)
Definition of_code (code : Z) : bytes := if code <? 128 then [byte_chr code] else [byte_chr 194; byte_chr code].
Definition nibble (c : ascii) : Z := default 0 (hex_nibble c).

Fixpoint unescape (s : bytes) : bytes :=
  match s with
  | [] => []
  | c :: rest =>
      if bool_decide (c = backslash) then
        match rest with
        | [] => []
        | d :: rest =>
            if byte_val d =? 110 then byte_chr 10 :: unescape rest
            else if byte_val d =? 114 then byte_chr 13 :: unescape rest
            else if byte_val d =? 116 then byte_chr 9 :: unescape rest
            else if byte_val d =? 117 then
              match rest with
              | _ :: x :: y :: rest =>
                  if byte_val y =? 125 then of_code (nibble x) ++ unescape rest
                  else match rest with
                       | _ :: rest => of_code (nibble x * 16 + nibble y) ++ unescape rest
                       | [] => []
                       end
              | _ => []
              end
            else d :: unescape rest
        end
      else c :: unescape rest
  end.

Example escaped_value :
  sanitize_log_value (bs "a" ++ [byte_chr 10; double_quote; backslash; byte_chr 127; byte_chr 194; byte_chr 133]) =
  bs "a\n\" ++ [double_quote] ++ bs "\\\u{7f}\u{85}".
Proof. vm_compute. reflexivity. Qed.

(** A fact of each of the 256 bytes. *)
Ltac every_byte c := destruct c as [[] [] [] [] [] [] [] []].

Lemma unescape_ascii c e t : escape_ascii true c = Some e -> unescape (e ++ t) = c :: unescape t.
Proof. every_byte c; try discriminate; intros [= <-]; reflexivity. Qed.

Lemma unescape_pair c d t :
  is_control_pair c d = true -> unescape (unicode_escape (byte_val d) ++ t) = c :: d :: unescape t.
Proof.
  unfold is_control_pair. intros [Hc%Z.eqb_eq Hd]%andb_true_iff.
  assert (c = byte_chr 194) as -> by (apply byte_val_inj; by rewrite byte_val_chr).
  revert Hd. every_byte d; try discriminate; intros _; reflexivity.
Qed.

Lemma unescape_raw c t : escape_ascii true c = None -> unescape (c :: t) = c :: unescape t.
Proof. intros Hc. cbn [unescape]. rewrite bool_decide_false; [done|]. by intros ->. Qed.

(** C39: Removing the escapes of a sanitized value gives the value back, so no two
    values are logged as the same text. *)
Lemma unescape_sanitize s : unescape (sanitize_log_value s) = s.
Proof.
  unfold sanitize_log_value. remember (length s) as n eqn:Hn. revert s Hn.
  induction n as [n IH] using lt_wf_ind. intros [|c rest] ->; [done|]. cbn [sanitize].
  destruct (escape_ascii true c) as [e|] eqn:Hc.
  { rewrite (unescape_ascii c) by done. f_equal. apply (IH (length rest)); [cbn; lia|done]. }
  destruct rest as [|d rest]; [by rewrite unescape_raw|].
  destruct (is_control_pair c d) eqn:Hp.
  - rewrite (unescape_pair c) by done. do 2 f_equal. apply (IH (length rest)); [cbn; lia|done].
  - rewrite unescape_raw by done. f_equal. eapply (IH (length (d :: rest))); [cbn; lia|reflexivity].
Qed.

(** An escape ends a character. *)
Lemma has_control_escape q c e t : escape_ascii q c = Some e -> has_control (e ++ t) = has_control t.
Proof. destruct q, t; every_byte c; try discriminate; intros [= <-]; reflexivity. Qed.

Lemma has_control_pair c d t :
  is_control_pair c d = true -> has_control (unicode_escape (byte_val d) ++ t) = has_control t.
Proof. intros [_ Hd]%andb_true_iff. revert Hd. destruct t; every_byte d; try discriminate; intros _; reflexivity. Qed.

Lemma escape_head q c e : escape_ascii q c = Some e -> exists t, e = backslash :: t.
Proof. destruct q; every_byte c; try discriminate; intros [= <-]; eexists; reflexivity. Qed.

Lemma sanitize_head q d rest : exists e t, sanitize q (d :: rest) = e :: t /\ (e = d \/ e = backslash).
Proof.
  cbn [sanitize]. destruct (escape_ascii q d) as [x|] eqn:Hd.
  { destruct (escape_head _ _ _ Hd) as [t ->]. by do 2 eexists; split; [reflexivity|right]. }
  destruct rest as [|d' rest]; [by do 2 eexists; split; [reflexivity|left]|].
  destruct (is_control_pair d d'); do 2 eexists; (split; [reflexivity|]); [by right|by left].
Qed.

Lemma sanitize_no_control q s : has_control (sanitize q s) = false.
Proof.
  remember (length s) as n eqn:Hn. revert s Hn.
  induction n as [n IH] using lt_wf_ind. intros [|c rest] ->; [done|]. cbn [sanitize].
  destruct (escape_ascii q c) as [e|] eqn:Hc.
  { rewrite (has_control_escape q c) by done. apply (IH (length rest)); [cbn; lia|done]. }
  assert (is_control c = false) as Hcc.
  { revert Hc. unfold escape_ascii. destruct (is_control c); [|done]. by repeat case_match. }
  destruct rest as [|d rest]; [cbn; by rewrite Hcc|].
  destruct (is_control_pair c d) eqn:Hp.
  - rewrite (has_control_pair c) by done. apply (IH (length rest)); [cbn; lia|done].
  - assert (has_control (sanitize q (d :: rest)) = false) as Hr 
      by (apply (IH (length (d :: rest))); [cbn; lia|done]).
    destruct (sanitize_head q d rest) as (e & t & E & He). rewrite E in *. cbn [has_control] in *.
    rewrite Hcc, Hr. destruct He as [-> | ->]; [by rewrite Hp|]. unfold is_control_pair. by rewrite andb_false_r.
Qed.

Lemma has_control_take n s : has_control s = false -> has_control (take n s) = false.
Proof.
  revert s. induction n as [|n IH]; intros [|c s]; cbn; try done.
  intros [[-> Hd]%orb_false_iff Hr]%orb_false_iff. rewrite IH by done. destruct s, n; cbn in *; try done. by rewrite Hd.
Qed.

Lemma has_control_app a b c t :
  b = c :: t -> in_range 128 159 (byte_val c) = false ->
  has_control a = false -> has_control b = false -> has_control (a ++ b) = false.
Proof.
  intros -> Hc. revert t. induction a as [|x a IH]; intros t Ha Hb; [done|]. cbn in Ha |- *.
  apply orb_false_iff in Ha as [[-> Hx]%orb_false_iff Ha]. rewrite IH by done.
  destruct a; cbn in *; [|by rewrite Hx]. unfold is_control_pair. by rewrite Hc, andb_false_r.
Qed.

Lemma floor_boundary_le s n : (floor_boundary s n <= n)%nat.
Proof. induction n as [|n IH]; cbn; case_match; lia. Qed.

(** A truncated record is still one line, and not longer than allowed. *)
Lemma truncate_no_control s : has_control s = false -> has_control (truncate_log_entry s) = false.
Proof.
  intros Hs. unfold truncate_log_entry. case_match; [done|].
  eapply has_control_app; [reflexivity|reflexivity| |reflexivity]. by apply has_control_take.
Qed.

Lemma truncate_bounded s : blen (truncate_log_entry s) <= MAX_LOG_ENTRY_BYTES.
Proof.
  unfold truncate_log_entry. destruct (blen s <=? _) eqn:E; bool_prop; [done|].
  set (limit := Z.to_nat (MAX_LOG_ENTRY_BYTES - _)). pose proof (floor_boundary_le s limit).
  assert (Z.of_nat limit + 14 = MAX_LOG_ENTRY_BYTES) by reflexivity.
  unfold blen in *. rewrite length_app, length_take. change (length LOG_TRUNCATION_SUFFIX) with 14%nat. lia.
Qed.

(** A line that is built up stays within the bound. *)
Lemma push_str_bounded line value :
  blen (bl_value line) <= MAX_LOG_ENTRY_BYTES -> blen (bl_value (push_str line value)) <= MAX_LOG_ENTRY_BYTES.
Proof.
  intros Hl. unfold push_str. destruct (bl_truncated line); [done|].
  destruct (blen value <=? _) eqn:E; cbn [bl_value].
  { apply Z.leb_le in E. unfold u64_saturating_sub, blen in *. rewrite length_app. lia. }
  set (limit := Z.to_nat (MAX_LOG_ENTRY_BYTES - _)). set (own := if (_ <? _)%nat then _ else _).
  assert (length own <= limit)%nat as Ho.
  { unfold own. destruct (Nat.ltb_spec limit (length (bl_value line))); [|lia].
    rewrite length_take. pose proof (floor_boundary_le (bl_value line) limit). lia. }
  pose proof (floor_boundary_le value (Nat.min (length value) (limit - length own))) as Hf.
  assert (Z.of_nat limit + 14 = MAX_LOG_ENTRY_BYTES) as Hlim by reflexivity.
  unfold blen in *. rewrite !length_app, length_take. change (length LOG_TRUNCATION_SUFFIX) with 14%nat. lia.
Qed.

Lemma append_bounded line value :
  blen (bl_value line) <= MAX_LOG_ENTRY_BYTES ->
  blen (bl_value (append_sanitized_log_value line value)) <= MAX_LOG_ENTRY_BYTES.
Proof.
  unfold append_sanitized_log_value. revert line. induction (chars value) as [|ch l IH]; intros line Hl; cbn; [done|].
  destruct (bl_truncated line); [done|]. by apply IH, push_str_bounded.
Qed.
