(* ===== verification/LogWriter.v ===== *)
(** The log of the process ([src/src/logger.rs]): the records, the bounded queue
    in front of the writer thread, the writer's loop and the file it opens.

    The writer's answers - what it receives, the time, the number of dropped
    records it takes off the shared counter, whether a line could be written -
    are those of a parameter, and every interaction is logged.  [Instant]s are
    milliseconds. *)

From S2P Require Import Prelude Bytes Revisions Problem RootedOs LogText.
From stdpp Require Import base numbers list strings.
From Stdlib Require Import Ascii.

Local Open Scope Z_scope.

Definition LOG_QUEUE_CAPACITY : Z := 4096.
Definition LOG_FLUSH_INTERVAL : Z := 250.
Definition LOG_FLUSH_DEADLINE : Z := 5000.
Definition LOG_DROP_REPORT_INTERVAL : Z := 1000.

(** ** Records *)

Inductive Level := Error_ | Warn | Info | Debug_ | Trace.

Definition level_name (level : Level) : bytes :=
  match level with
  | Error_ => bs "ERROR" | Warn => bs "WARN" | Info => bs "INFO" | Debug_ => bs "DEBUG" | Trace => bs "TRACE"
  end.

Definition enabled (level : Level) : bool := match level with Error_ | Warn | Info => true | _ => false end.

(** The text of a record; [now] is the timestamp. *)
Definition entry_text (target : bytes) (level : Level) (now args : bytes) : bytes :=
  let message := sanitize_log_line args in
  truncate_log_entry
    (if beqb target (bs "http_access") then message
     else now ++ bs " " ++ level_name level ++ bs " " ++ message).

(** ** The queue *)

Inductive WriterCommand := Entry (text : bytes) | Flush (reply : nat).

(** [SyncSender::try_send] on the queue of the writer. *)
Record LogQueue := mkQueue { lq_commands : list WriterCommand; lq_dropped : Z }.

Definition try_send (command : WriterCommand) (queue : LogQueue) : option LogQueue :=
  if Z.of_nat (length (lq_commands queue)) <? LOG_QUEUE_CAPACITY
  then Some (mkQueue (lq_commands queue ++ [command]) (lq_dropped queue)) else None.

(** [AsyncLogger::log]: a full queue drops the newest record. *)
Definition log (target : bytes) (level : Level) (now args : bytes) (queue : LogQueue) : LogQueue :=
  if negb (enabled level) then queue
  else
    match try_send (Entry (entry_text target level now args)) queue with
    | Some queue => queue
    | None => mkQueue (lq_commands queue) (u64_wrapping_add (lq_dropped queue) 1)
    end.

(** Whatever is logged becomes one line of bounded length. *)
Lemma entry_is_one_line target level now args :
  has_control now = false ->
  has_control (entry_text target level now args) = false /\ blen (entry_text target level now args) <= MAX_LOG_ENTRY_BYTES.
Proof.
  intros Hn. split; [|apply truncate_bounded]. apply truncate_no_control.
  pose proof (sanitize_no_control false args) as Ha. fold (sanitize_log_line args) in Ha.
  destruct (beqb _ _); [done|].
  eapply has_control_app; [reflexivity|reflexivity|done|].
  change (bs " " ++ level_name level ++ bs " " ++ sanitize_log_line args)
    with ((bs " " ++ level_name level) ++ (bs " " ++ sanitize_log_line args)).
  eapply has_control_app; [reflexivity|reflexivity|by destruct level|].
  destruct (sanitize_log_line args) as [|c l] eqn:E; [done|]. cbn in Ha |- *. by rewrite Ha.
Qed.

(** ** The writer *)

Inductive Received := Got (command : WriterCommand) | TimedOut_ | Disconnected.

(** A line of the log, or the warning that a number of records were dropped. *)
Inductive Line := EntryLine (text : bytes) | DropWarning (count : Z).

Inductive LogEvent :=
| Receive (timeout : Z) (answer : Received)
| Now (answer : Z)
(** [dropped.swap(0)] and [dropped.fetch_add] *)
| SwapDropped (answer : Z)
| AddDropped (count : Z)
| WriteLine (line : Line) (answer : result IoError unit)
| FlushOutput (answer : result IoError unit)
(** [report_internal_log_error], to the standard error *)
| InternalError (event : bytes) (error : IoError)
| Acknowledge (reply : nat).

Class LogHost (Env : Type) := {
  lh_receive : Z -> Env -> Received * Env;
  lh_now : Env -> Z * Env;
  lh_swap : Env -> Z * Env;
  lh_add : Z -> Env -> unit * Env;
  lh_write : Line -> Env -> result IoError unit * Env;
  lh_flush : Env -> result IoError unit * Env;
  lh_internal : bytes -> IoError -> Env -> unit * Env;
  lh_acknowledge : nat -> Env -> unit * Env
}.

Abbreviation Log := (Prog LogEvent).

(** The variables of [writer_loop]. *)
Record Writer := mkWriter { wr_dirty : bool; wr_next_flush : Z; wr_last_report : Z }.

Section writer.
Context {Env : Type} `{LogHost Env}.

Definition now : Log Env Z := syscall lh_now Now.
Definition write_line line : Log Env (result IoError unit) := syscall (lh_write line) (WriteLine line).
Definition report_internal_log_error event error : Log Env unit :=
  syscall (lh_internal event error) (λ _, InternalError event error).

(** Whether the warning was written. *)
Definition report_dropped : Log Env bool :=
  do count <- syscall lh_swap SwapDropped;
  if count =? 0 then ret false
  else
    do written <- write_line (DropWarning count);
    match written with
    | Ok _ => ret true
    | Err _ => do _ <- syscall (lh_add count) (λ _, AddDropped count); ret false
    end.

(** Whether a warning was written, and the time of the last one. *)
Definition report_dropped_if_due (last_report now : Z) (force : bool) : Log Env (bool * Z) :=
  if negb force && (u64_saturating_sub now last_report <? LOG_DROP_REPORT_INTERVAL) then ret (false, last_report)
  else
    do reported <- report_dropped;
    ret (reported, if reported : bool then now else last_report).

Definition flush_if_dirty (dirty : bool) : Log Env (result IoError unit * bool) :=
  if negb dirty then ret (Ok tt, dirty)
  else
    do flushed <- syscall lh_flush FlushOutput;
    ret (flushed, match flushed with Ok _ => false | Err _ => dirty end).

(** [report_dropped_if_due] at the time it is called, then
    [flush_if_dirty]. *)
Definition report_now (w : Writer) (force : bool) : Log Env Writer :=
  do t <- now;
  do (reported, last) <- report_dropped_if_due (wr_last_report w) t force;
  ret (mkWriter (wr_dirty w || reported) (wr_next_flush w) last).

Definition flush_now (w : Writer) : Log Env Writer :=
  do (flushed, dirty) <- flush_if_dirty (wr_dirty w);
  do _ <- match flushed with
          | Ok _ => ret tt
          | Err error => report_internal_log_error (bs "log_flush_error") error
          end;
  do t <- now;
  ret (mkWriter dirty (t + LOG_FLUSH_INTERVAL) (wr_last_report w)).

Definition write_entry (w : Writer) (text : bytes) : Log Env Writer :=
  do written <- write_line (EntryLine text);
  match written with
  | Ok _ => ret (mkWriter true (wr_next_flush w) (wr_last_report w))
  | Err error => do _ <- report_internal_log_error (bs "log_writer_error") error; ret w
  end.

(** One round of [writer_loop]; [None]: the senders are gone. *)
Definition writer_round (w : Writer) : Log Env (option Writer) :=
  do t <- now;
  let wait := u64_saturating_sub (wr_next_flush w) t in
  do received <- syscall (lh_receive wait) (Receive wait);
  let continue w : Log Env (option Writer) :=
    do t <- now;
    if wr_next_flush w <=? t then
      do w <- report_now w false;
      do w <- flush_now w;
      ret (Some w)
    else ret (Some w) in
  match received with
  | Got (Entry text) =>
      do w <- report_now w false;
      do w <- write_entry w text;
      continue w
  | Got (Flush reply) =>
      do w <- report_now w true;
      do w <- flush_now w;
      do _ <- syscall (lh_acknowledge reply) (λ _, Acknowledge reply);
      continue w
  | TimedOut_ => continue w
  | Disconnected => ret None
  end.

Definition initial_writer : Log Env Writer :=
  do t <- now;
  do t' <- now;
  do last <- (if t' <? LOG_DROP_REPORT_INTERVAL then now else ret (t' - LOG_DROP_REPORT_INTERVAL));
  ret (mkWriter false (t + LOG_FLUSH_INTERVAL) last).

(** After the loop. *)
Definition writer_end : Log Env unit :=
  do _ <- report_dropped;
  do _ <- syscall lh_flush FlushOutput;
  ret tt.

(** At most [n] rounds; whether the loop ended. *)
Fixpoint writer_rounds (n : nat) (w : Writer) : Log Env bool :=
  match n with
  | O => ret false
  | S n =>
      do next <- writer_round w;
      match next with
      | Some w => writer_rounds n w
      | None => do _ <- writer_end; ret true
      end
  end.

Definition writer_loop (n : nat) : Log Env bool := do w <- initial_writer; writer_rounds n w.
End writer.

(** ** Nothing gets lost on the way *)

Definition received_entry (e : LogEvent) : list bytes :=
  match e with Receive _ (Got (Entry text)) => [text] | _ => [] end.
Definition attempted_entry (e : LogEvent) : list bytes :=
  match e with WriteLine (EntryLine text) _ => [text] | _ => [] end.
Definition taken_drops (e : LogEvent) : Z := match e with SwapDropped n => n | _ => 0 end.
(** warned of, or put back *)
Definition accounted_drops (e : LogEvent) : Z :=
  match e with WriteLine (DropWarning n) (Ok _) => n | AddDropped n => n | _ => 0 end.
(** lines that failed, and complaints about them *)
Definition failed_entry (e : LogEvent) : list IoError :=
  match e with WriteLine (EntryLine _) (Err error) => [error] | _ => [] end.
Definition complained (e : LogEvent) : list IoError :=
  match e with InternalError event error => if beqb event (bs "log_writer_error") then [error] else [] | _ => [] end.

Definition total (f : LogEvent -> Z) (l : list LogEvent) : Z := foldr (λ e n, f e + n) 0 l.
Definition gathered {A} (f : LogEvent -> list A) (l : list LogEvent) : list A := concat (map f l).

Lemma log_total_app f l l' : total f (l ++ l') = total f l + total f l'.
Proof. unfold total. induction l as [|e l IH]; cbn; [done|]. rewrite IH. lia. Qed.
Lemma gathered_app {A} (f : LogEvent -> list A) l l' : gathered f (l ++ l') = gathered f l ++ gathered f l'.
Proof. unfold gathered. by rewrite map_app, concat_app. Qed.

(** The events account for the entries [received] and [attempted]. *)
Definition accounts (received attempted : list bytes) (l : list LogEvent) : Prop :=
  gathered received_entry l = received /\ gathered attempted_entry l = attempted /\
  gathered failed_entry l = gathered complained l /\ total taken_drops l = total accounted_drops l.

Lemma accounts_nil : accounts [] [] [].
Proof. done. Qed.

Lemma accounts_app r a r' a' l l' : accounts r a l -> accounts r' a' l' -> accounts (r ++ r') (a ++ a') (l ++ l').
Proof.
  intros (Hr & Ha & Hf & Hd) (Hr' & Ha' & Hf' & Hd'). unfold accounts.
  rewrite !gathered_app, !log_total_app. repeat split; congruence.
Qed.

Section facts.
Context {Env : Type} `{LogHost Env}.

(** A step that concerns no entry. *)
Definition idle {A} (m : Log Env A) : Prop := spec m (λ _, accounts [] []).

Lemma idle_ret {A} (a : A) : idle (ret a).
Proof. by apply spec_ret. Qed.

Lemma idle_bind {A B} (m : Log Env A) (k : A -> Log Env B) : idle m -> (forall a, idle (k a)) -> idle (bind m k).
Proof.
  intros Hm Hk. eapply spec_bind; [exact Hm|]. intros a l Hl. eapply spec_weaken; [apply Hk|].
  intros b l' Hl'. by apply (accounts_app [] [] [] []).
Qed.

Lemma idle_call {A} (run : Env -> A * Env) (event : A -> LogEvent) :
  (forall a, accounts [] [] [event a]) -> idle (syscall run event).
Proof. intros He. by apply spec_call. Qed.

Lemma report_dropped_idle : idle report_dropped.
Proof.
  unfold report_dropped. apply spec_bind_call. intros count.
  destruct (Z.eqb_spec count 0) as [->|Hc]; [by apply spec_ret|].
  apply spec_bind_call. intros [[]|e].
  - by apply spec_ret.
  - apply spec_bind_call. intros _. by apply spec_ret.
Qed.

Lemma report_now_idle w force : idle (report_now w force).
Proof.
  unfold report_now, report_dropped_if_due. apply idle_bind; [by apply idle_call|]. intros t.
  apply idle_bind; [|intros []; apply idle_ret].
  destruct (_ && _); [apply idle_ret|]. apply idle_bind; [apply report_dropped_idle|intros; apply idle_ret].
Qed.

Lemma flush_now_idle w : idle (flush_now w).
Proof.
  unfold flush_now, flush_if_dirty. apply idle_bind.
  { destruct (negb _); [apply idle_ret|]. apply idle_bind; [by apply idle_call|intros; apply idle_ret]. }
  intros [flushed dirty]. apply idle_bind; [destruct flushed; [apply idle_ret|by apply idle_call]|]. intros _.
  apply idle_bind; [by apply idle_call|intros; apply idle_ret].
Qed.

Lemma write_entry_accounts w text : spec (write_entry w text) (λ _, accounts [] [text]).
Proof.
  unfold write_entry. apply spec_bind_call. intros [[]|e]; [by apply spec_ret|].
  apply spec_bind_call. intros _. by apply spec_ret.
Qed.

(** What is written is what was received. *)
Definition faithful (l : list LogEvent) : Prop := exists texts, accounts texts texts l.

Lemma faithful_app l l' : faithful l -> faithful l' -> faithful (l ++ l').
Proof. intros [t Ht] [t' Ht']. exists (t ++ t'). by apply accounts_app. Qed.

Lemma faithful_cons e l : accounts [] [] [e] -> faithful l -> faithful (e :: l).
Proof. intros He Hl. apply (faithful_app [e]); [by exists []|done]. Qed.

Lemma idle_faithful {A} (m : Log Env A) : idle m -> spec m (λ _, faithful).
Proof. intros Hm. eapply spec_weaken; [exact Hm|]. intros ? l Hl. by exists []. Qed.

Lemma writer_round_faithful w : spec (writer_round w) (λ _, faithful).
Proof.
  unfold writer_round. apply spec_bind_call. intros t. cbv zeta.
  assert (forall w, idle (do t <- now; if wr_next_flush w <=? t
            then do w <- report_now w false; do w <- flush_now w; ret (Some w) else ret (Some w))) as Hcont.
  { intros v. apply idle_bind; [by apply idle_call|]. intros u. destruct (_ <=? _); [|apply idle_ret].
    apply idle_bind; [apply report_now_idle|]. intros. apply idle_bind; [apply flush_now_idle|]. intros. apply idle_ret. }
  apply spec_bind_call. intros [[text|reply]| |].
  - eapply spec_bind; [apply report_now_idle|]. intros v l Hl. eapply spec_bind; [apply write_entry_accounts|].
    intros v' l' Hl'. eapply spec_weaken; [apply Hcont|]. intros ? l'' Hl''. exists [text].
    change ([text]) with (([] ++ [text]) ++ [] ++ [] ++ ([] : list bytes)) at 1.
    apply (accounts_app [] [] ([text]) ([text]) [Now t]); [done|].
    apply (accounts_app [text] [] [] [text] [Receive _ _]); [done|].
    apply (accounts_app [] [] [] [text]); [done|]. by apply (accounts_app [] [text] [] []).
  - eapply spec_weaken; [apply idle_faithful, (idle_bind (report_now w true)); [apply report_now_idle|]|].
    { intros v. apply idle_bind; [apply flush_now_idle|]. intros v'. apply idle_bind; [by apply idle_call|]. intros _.
      apply Hcont. }
    intros ? l Hl. by do 2 (apply faithful_cons; [done|]).
  - eapply spec_weaken; [apply idle_faithful, Hcont|]. intros ? l Hl. by do 2 (apply faithful_cons; [done|]).
  - apply spec_ret. by exists [].
Qed.
End facts.

Section account.
Context {Env : Type} `{LogHost Env}.

Lemma writer_rounds_faithful n w : spec (writer_rounds n w) (λ _, faithful).
Proof.
  revert w. induction n as [|n IH]; intros w; cbn [writer_rounds]; [apply spec_ret; by exists []|].
  eapply spec_bind; [apply writer_round_faithful|]. intros [v|] l Hl.
  - eapply spec_weaken; [apply IH|]. intros ? l' Hl'. by apply faithful_app.
  - unfold writer_end. eapply spec_weaken.
    { apply idle_faithful, (idle_bind (A := unit)); [|intros; apply idle_ret].
      apply idle_bind; [apply report_dropped_idle|]. intros _. apply idle_bind; [by apply idle_call|].
      intros. apply idle_ret. }
    intros ? l' Hl'. by apply faithful_app.
Qed.

(** For as long as the writer runs it attempts to write exactly the records it
    received, each once and in their order, it complains on the standard error
    about every line it could not write, and every dropped record it takes off
    the counter is either warned of in the log or put back. *)
Theorem writer_accounts_for_everything n :
  spec (writer_loop n) (λ _ events,
    gathered received_entry events = gathered attempted_entry events /\
    gathered failed_entry events = gathered complained events /\
    total taken_drops events = total accounted_drops events).
Proof.
  eapply (spec_weaken _ (λ _, faithful)); [|intros ? l (texts & -> & -> & ? & ?); done].
  unfold writer_loop. eapply spec_bind; [|intros w l Hl; eapply spec_weaken; [apply writer_rounds_faithful|]].
  - apply idle_faithful. unfold initial_writer. do 2 (apply idle_bind; [by apply idle_call|]; intros ?).
    apply idle_bind; [destruct (_ <? _); [by apply idle_call|apply idle_ret]|]. intros. apply idle_ret.
  - intros ? l' Hl'. by apply faithful_app.
Qed.
End account.
