(* ===== verification/StartupHost.v ===== *)
(** What the program asks of the operating system before it serves: paths are
    resolved by the kernel, not beneath a root.

    As for the requests, the answers are those of a parameter, and every call is
    logged.  The program runs under the effective user and group the parameter
    names. *)

From S2P Require Import Prelude Bytes StdPath Problem Revisions RootedOs.
From stdpp Require Import base numbers list strings.

Local Open Scope Z_scope.

Definition NODATA : Errno := 61.
Definition NOTSUP : Errno := 95.

Inductive OpenFlag := ReadOnly | WriteOnly | Append | NoFollow | NonBlock | CloExec | Create | Excl.

Inductive StartupCall :=
| CurrentDir (answer : result IoError bytes)
| PathExists (path : bytes) (answer : bool)
| Canonicalize (path : bytes) (answer : result IoError bytes)
(** following a final symbolic link, or not *)
| PathMetadata (path : bytes) (answer : result IoError Stat)
| SymlinkMetadata (path : bytes) (answer : result IoError Stat)
| Open (path : bytes) (flags : list OpenFlag) (mode : Z) (answer : result Errno Fd)
| FdStat (fd : Fd) (answer : result IoError Stat)
| FdChmod (fd : Fd) (mode : Z) (answer : result IoError unit)
| FdXattr (fd : Fd) (name : bytes) (answer : result Errno unit)
(** [take(limit).read_to_end] *)
| FdRead (fd : Fd) (limit : Z) (answer : result IoError bytes)
(** whether the monotonic clock can represent this many seconds from now *)
| ClockReaches (seconds : Z) (answer : bool).

Class StartupOs (Env : Type) := {
  su_current_dir : Env -> result IoError bytes * Env;
  su_exists : bytes -> Env -> bool * Env;
  su_canonicalize : bytes -> Env -> result IoError bytes * Env;
  su_metadata : bytes -> Env -> result IoError Stat * Env;
  su_symlink_metadata : bytes -> Env -> result IoError Stat * Env;
  su_open : bytes -> list OpenFlag -> Z -> Env -> result Errno Fd * Env;
  su_fstat : Fd -> Env -> result IoError Stat * Env;
  su_fchmod : Fd -> Z -> Env -> result IoError unit * Env;
  su_fgetxattr : Fd -> bytes -> Env -> result Errno unit * Env;
  su_read : Fd -> Z -> Env -> result IoError bytes * Env;
  su_clock_reaches : Z -> Env -> bool * Env;
  su_geteuid : Z;
  su_getegid : Z;
  (** [Path::display] *)
  su_display : bytes -> bytes
}.

Abbreviation Startup Env A := (Prog StartupCall Env (result bytes A)).

(** [with_context]: the message that is shown. *)
Definition context {E A} (r : result E A) (message : bytes) : result bytes A :=
  match r with Ok a => Ok a | Err _ => Err message end.

Section calls.
Context {Env : Type} `{StartupOs Env}.

Definition current_dir : Prog StartupCall Env (result IoError bytes) := syscall su_current_dir CurrentDir.
Definition canonicalize path : Prog StartupCall Env (result IoError bytes) :=
  syscall (su_canonicalize path) (Canonicalize path).
Definition path_metadata path : Prog StartupCall Env (result IoError Stat) :=
  syscall (su_metadata path) (PathMetadata path).
Definition symlink_metadata path : Prog StartupCall Env (result IoError Stat) :=
  syscall (su_symlink_metadata path) (SymlinkMetadata path).
Definition open_path path flags mode : Prog StartupCall Env (result Errno Fd) :=
  syscall (su_open path flags mode) (Open path flags mode).
Definition fd_stat fd : Prog StartupCall Env (result IoError Stat) := syscall (su_fstat fd) (FdStat fd).

(** [bail!] unless the condition holds. *)
Definition require (b : bool) (message : bytes) : Startup Env unit := ret (ensure b message).

Definition shown (path : bytes) : bytes := bs "`" ++ su_display path ++ bs "`".
Definition quoted (path : bytes) : bytes := bs "'" ++ su_display path ++ bs "'".
End calls.

Definition is_regular (m : Stat) : bool := Z.land (st_mode m) 61440 =? 32768.
Definition is_directory (m : Stat) : bool := Z.land (st_mode m) 61440 =? 16384.
Definition is_symlink (m : Stat) : bool := Z.land (st_mode m) 61440 =? 40960.
(** [Mode::from_raw_mode] *)
Definition permission_bits (m : Stat) : Z := Z.land (st_mode m) 4095.

(** ** The log file ([open_log_file] of [src/src/logger.rs]) *)

Section log_file.
Context {Env : Type} `{StartupOs Env}.

Definition common_flags : list OpenFlag := [WriteOnly; Append; NoFollow; NonBlock; CloExec].
(** [RUSR | WUSR] *)
Definition private_mode : Z := 384.

(** The file is one the service owns alone. *)
Definition is_private_log (m : Stat) (expected_owner : Z) : bool :=
  is_regular m && (st_nlink m =? 1) && (st_uid m =? expected_owner) && (permission_bits m =? private_mode).

Definition open_or_create (path : bytes) : Startup Env (Fd * bool) :=
  do created <- open_path path (common_flags ++ [Create; Excl]) private_mode;
  match created with
  | Ok fd => ok (fd, true)
  | Err e =>
      if e =? EXIST then
        do opened <- open_path path common_flags 0;
        ret (fd ← context opened (bs "Failed to securely open log file " ++ quoted path); Ok (fd, false))
      else fail (bs "Failed to securely create log file " ++ quoted path)
  end.

Definition open_log_file_for_owner (path : bytes) (expected_owner : Z) : Startup Env Fd :=
  attempt (fd, created) <- open_or_create path;
  do found <- fd_stat fd;
  attempt metadata <- ret (context found (bs "Failed to inspect log file " ++ quoted path));
  attempt _ <- require (is_regular metadata) (bs "Log file " ++ quoted path ++ bs " must be a regular file");
  attempt _ <- require (st_nlink metadata =? 1) (bs "Log file " ++ quoted path ++ bs " must have exactly one hard link");
  attempt _ <- require (st_uid metadata =? expected_owner)
    (bs "Log file " ++ quoted path ++ bs " must be owned by the effective service user");
  attempt _ <-
    (if created : bool then
       do changed <- syscall (su_fchmod fd private_mode) (FdChmod fd private_mode);
       ret (context changed (bs "Failed to set private log permissions on " ++ quoted path))
     else
       require (permission_bits metadata =? private_mode)
         (bs "Existing log file " ++ quoted path ++
          bs " must already have permissions 0600; refusing to change insecure permissions after opening it"));
  do found <- fd_stat fd;
  attempt verified <- ret (context found (bs "Failed to verify log file " ++ quoted path));
  attempt _ <- require (is_private_log verified expected_owner)
    (bs "Log file " ++ quoted path ++ bs " changed while its security properties were being verified");
  ok fd.

Definition open_log_file (path : bytes) : Startup Env Fd := open_log_file_for_owner path su_geteuid.
End log_file.

(** ** Programs that return *)

Section returning.
Context {Ev Env E : Type}.

(** Whatever [m] returns satisfies [P], together with the calls it made. *)
Definition returns {A} (m : Prog Ev Env (result E A)) (P : A -> list Ev -> Prop) : Prop :=
  spec m (λ r l, forall a, r = Ok a -> P a l).

Lemma returns_weaken {A} (m : Prog Ev Env (result E A)) (P Q : A -> list Ev -> Prop) :
  returns m P -> (forall a l, P a l -> Q a l) -> returns m Q.
Proof. intros Hm HQ. eapply spec_weaken; [exact Hm|]. cbn. eauto. Qed.

Lemma returns_ok {A} (a : A) (P : A -> list Ev -> Prop) : P a [] -> returns (ok a) P.
Proof. intros HP. apply spec_ret. by intros ? [= <-]. Qed.

Lemma returns_fail {A} e (P : A -> list Ev -> Prop) : returns (fail e) P.
Proof. by apply spec_ret. Qed.

Lemma returns_ret {A} (r : result E A) (P : A -> list Ev -> Prop) :
  (forall a, r = Ok a -> P a []) -> returns (ret r) P.
Proof. intros HP. by apply spec_ret. Qed.

Lemma returns_bind {A B} (m : Prog Ev Env (result E A)) (k : A -> Prog Ev Env (result E B)) P Q :
  returns m P -> (forall a l, P a l -> returns (k a) (λ b l', Q b (l ++ l'))) -> returns (bind_ok m k) Q.
Proof.
  intros Hm Hk. eapply spec_bind_ok; [exact Hm| |]; cbn.
  - intros a l Ha. by apply Hk, Ha.
  - intros e l _ a. done.
Qed.

Lemma returns_attempt {A B} (r : result E A) (k : A -> Prog Ev Env (result E B)) Q :
  (forall a, r = Ok a -> returns (k a) Q) -> returns (bind_ok (ret r) k) Q.
Proof. intros Hk. destruct r as [a|e]; [by apply Hk|apply returns_fail]. Qed.

Lemma returns_call {A B} (run : Env -> A * Env) (event : A -> Ev) (k : A -> Prog Ev Env (result E B)) Q :
  (forall a, returns (k a) (λ b l, Q b (event a :: l))) -> returns (bind (syscall run event) k) Q.
Proof. intros Hk. apply spec_bind_call. intros a. apply Hk. Qed.
End returning.

Lemma context_Ok {E A} (r : result E A) message a : context r message = Ok a <-> r = Ok a.
Proof. destruct r; cbn; naive_solver. Qed.
