(* ===== verification/Download.v ===== *)
(** Sending a file to the client ([src/src/server/download.rs], with
    [set_content_disposition] of [src/src/server.rs]).

    [handle_send_file] opens the target beneath the root, takes its metadata,
    evaluates the conditions of the request and chooses between the whole file,
    one range of it and the answers without a body.  The body is a stream that
    reads the open file in bounded pieces ([next_chunk], [file_body]).

    The header types of the [headers] crate, the table of [mime_guess] and
    SHA-256 are parameters. *)

From S2P Require Import Prelude Bytes StdPath Utils Http Problem Revisions Listing RootedOs RootedFs ServerHost UploadProtocol.
From stdpp Require Import base numbers list strings sets.
From Stdlib Require Import Ascii.

Local Open Scope Z_scope.

(** ** The header types *)

Class TypedHeaders `{HttpTypes} := {
  ETag : Type;
  LastModified : Type;
  (** [str::parse::<ETag>] and its value in [typed_insert] *)
  etag_parse : bytes -> option ETag;
  etag_value : ETag -> bytes;
  (** [LastModified::from], of a time in milliseconds since the epoch *)
  last_modified_from : Z -> LastModified;
  last_modified_value : LastModified -> bytes;
  (** [typed_get::<IfMatch>] with [precondition_passes], and so on *)
  if_match : HeaderMap -> option (ETag -> bool);
  if_unmodified_since : HeaderMap -> option (LastModified -> bool);
  if_none_match : HeaderMap -> option (ETag -> bool);
  if_modified_since : HeaderMap -> option (LastModified -> bool);
  (** the values of [CacheControl::new().with_private().with_no_store()] and of
      [AcceptRanges::bytes()] *)
  cache_control_private_no_store : bytes;
  accept_ranges_bytes : bytes;
  (** [mime_guess::from_path(path).first_or_octet_stream().to_string()] *)
  mime_from_path : bytes -> bytes
}.

Definition CACHE_CONTROL : bytes := bs "cache-control".
Definition LAST_MODIFIED : bytes := bs "last-modified".
Definition ETAG : bytes := bs "etag".
Definition ACCEPT_RANGES : bytes := bs "accept-ranges".
Definition CONTENT_DISPOSITION : bytes := bs "content-disposition".
Definition CONTENT_LENGTH : bytes := bs "content-length".
Definition CONTENT_RANGE : bytes := bs "content-range".
Definition RANGE : bytes := bs "range".
Definition IF_RANGE : bytes := bs "if-range".

(** ** Reading the open file *)

Definition BUF_SIZE : Z := 65536.
(** in seconds *)
Definition DOWNLOAD_READ_IDLE_TIMEOUT : Z := 30.

Record DownloadReadState := mkReadState {
  drs_file : Fd;
  drs_offset : Z;
  drs_remaining : Z;
  drs_idle_timeout : Z
}.

Inductive DownloadEvent :=
| DownloadCall (call : SysCall)
(** admission to the blocking pool for [File::metadata] *)
| AdmitRead (answer : result IoError unit)
(** [read_at] in the blocking pool; [None] when the idle deadline passed first *)
| ReadAt (file : Fd) (offset size timeout : Z) (answer : option (result IoError bytes)).

Class DownloadHost (Env : Type) := {
  dl_admit : Env -> result IoError unit * Env;
  dl_read_at : Fd -> Z -> Z -> Z -> Env -> option (result IoError bytes) * Env
}.

(** [read_at] fills at most the buffer it is given. *)
Class DownloadHostLaws (Env : Type) `{DownloadHost Env} : Prop := {
  read_at_bounded file offset size timeout env data :
    0 <= size -> (dl_read_at file offset size timeout env).1 = Some (Ok data) -> Z.of_nat (length data) <= size
}.

Abbreviation Dl := (Prog DownloadEvent).

Section download.
Context {Env : Type} `{Os Env} `{DownloadHost Env}.

Definition read_at file offset size timeout : Dl Env (option (result IoError bytes)) :=
  syscall (dl_read_at file offset size timeout) (ReadAt file offset size timeout).

(** What the stream of [gated_file_body] does when it is polled. *)
Definition next_chunk (state : DownloadReadState)
    : Dl Env (result IoError (option (bytes * DownloadReadState))) :=
  if drs_remaining state =? 0 then ok None
  else
    let chunk_size := Z.min (drs_remaining state) BUF_SIZE in
    do read <- read_at (drs_file state) (drs_offset state) chunk_size (drs_idle_timeout state);
    match read with
    | None =>
        fail (io_new TimedOut
          (bs "download response body produced no file data before the read idle deadline"))
    | Some (Err e) => fail e
    | Some (Ok buffer) =>
        let read := Z.of_nat (length buffer) in
        if read =? 0 then
          fail (io_new UnexpectedEof (bs "download file ended before its advertised length"))
        else ok (Some (buffer, mkReadState (drs_file state) (drs_offset state + read)
                               (drs_remaining state - read) (drs_idle_timeout state)))
    end.

(** A client that takes every chunk: what it received and how the stream ended. *)
Fixpoint poll_body (fuel : nat) (state : DownloadReadState) (received : list bytes)
    : Dl Env (option (list bytes * result IoError unit)) :=
  match fuel with
  | O => ret None
  | S fuel =>
      do r <- next_chunk state;
      match r with
      | Err e => ret (Some (received, Err e))
      | Ok None => ret (Some (received, Ok tt))
      | Ok (Some (chunk, state)) => poll_body fuel state (received ++ [chunk])
      end
  end.
End download.

Definition gated_file_body (file : Fd) (offset remaining idle_timeout : Z) : DownloadReadState :=
  mkReadState file offset remaining idle_timeout.

(** ** The name in [Content-Disposition] *)

Definition space_byte : ascii := byte_chr 32.
Definition percent_byte : ascii := byte_chr 37.

(** [u8::is_ascii_alphanumeric]. *)
Definition is_ascii_alphanumeric (c : ascii) : bool :=
  is_ascii_digit c || in_range 65 90 (byte_val c) || in_range 97 122 (byte_val c).

(** [{:X}] of a value below 16. *)
Definition upper_hex (n : Z) : ascii := byte_chr (if n <? 10 then 48 + n else 55 + n).

(** The bytes [!], [#], [$], [&], [+], [-], [.], [^], [_], [`], [|] and [~]. *)
Definition plain_disposition_byte (c : ascii) : bool :=
  is_ascii_alphanumeric c ||
  existsb (λ v, byte_val c =? v) [33; 35; 36; 38; 43; 45; 46; 94; 95; 96; 124; 126].

Definition encode_disposition_byte (c : ascii) : bytes :=
  if plain_disposition_byte c then [c]
  else [percent_byte; upper_hex (Z.shiftr (byte_val c) 4); upper_hex (Z.land (byte_val c) 15)].

Definition encode_content_disposition_filename (filename : bytes) : bytes :=
  concat (map encode_disposition_byte filename).

(** Each control character of a UTF-8 string replaced by a space
    ([char::is_control]: U+0000 to U+001F, U+007F, and U+0080 to U+009F, whose
    encodings are the byte 194 followed by 128 to 159). *)
Fixpoint replace_controls (s : bytes) : bytes :=
  match s with
  | [] => []
  | c :: rest =>
      if (byte_val c <? 32) || (byte_val c =? 127) then space_byte :: replace_controls rest
      else match rest with
           | d :: rest' =>
               if (byte_val c =? 194) && in_range 128 159 (byte_val d)
               then space_byte :: replace_controls rest'
               else c :: replace_controls rest
           | [] => [c]
           end
  end.

Definition disposition (filename : bytes) : bytes :=
  bs "attachment; filename=" ++ [byte_chr 34] ++ bs "download" ++ [byte_chr 34] ++
  bs "; filename*=UTF-8''" ++ encode_content_disposition_filename (replace_controls filename).

(** ** The response *)

(** [i64::to_le_bytes] and [u64::to_le_bytes]. *)
Definition u64_to_le_bytes (z : Z) : bytes := reverse (u64_to_be_bytes z).
Definition i64_to_le_bytes (z : Z) : bytes := reverse (i64_to_be_bytes z).

Section send.
Context {Env : Type} `{Os Env} `{DownloadHost Env} `{HttpTypes} `{TypedHeaders} (sha256 : bytes -> bytes).

Definition insert_value (res : Response) (name value : bytes) : result HandlerError Response :=
  match from_str value with
  | Some value => Ok (with_header res name value)
  | None => failed (bs "failed to parse header value")
  end.

Definition set_content_disposition (res : Response) (filename : bytes) : result HandlerError Response :=
  insert_value res CONTENT_DISPOSITION (disposition filename).

Definition status_not_found (res : Response) : Response :=
  with_body (with_status res 404) (BytesBody (bs "Not Found")).

(** What [extract_cache_headers] digests. *)
Definition validator_input (meta : Metadata) : bytes :=
  u64_to_le_bytes (md_dev meta) ++ u64_to_le_bytes (md_ino meta) ++ u64_to_le_bytes (md_len meta) ++
  i64_to_le_bytes (md_mtime meta).1 ++ i64_to_le_bytes (md_mtime meta).2 ++
  i64_to_le_bytes (md_ctime meta).1 ++ i64_to_le_bytes (md_ctime meta).2.

Definition extract_cache_headers (meta : Metadata) : option (ETag * LastModified) :=
  mtime ← md_timestamp meta;
  let validator := encode_hex (sha256 (validator_input meta)) in
  etag ← etag_parse (bs "W/" ++ [byte_chr 34] ++ validator ++ [byte_chr 34]);
  Some (etag, last_modified_from mtime).

Definition get_content_type (path : bytes) : bytes := mime_from_path path.

(** The preconditions of a request: the status that answers it when one fails. *)
Definition preconditions (headers : HeaderMap) (etag : ETag) (last_modified : LastModified) : option Z :=
  let modified :=
    match if_none_match headers with
    | Some passes => if passes etag then None else Some 304
    | None =>
        match if_modified_since headers with
        | Some is_modified => if is_modified last_modified then None else Some 304
        | None => None
        end
    end in
  match if_match headers with
  | Some passes => if passes etag then modified else Some 412
  | None =>
      match if_unmodified_since headers with
      | Some passes => if passes last_modified then modified else Some 412
      | None => modified
      end
  end.

Definition contains_key (headers : HeaderMap) (name : bytes) : bool :=
  match get_all headers name with [] => false | _ :: _ => true end.

(** The range asked for, when ranges are used. *)
Definition requested_range (headers : HeaderMap) (size : Z) : option ParsedRange :=
  match get_all headers RANGE with
  | [] => None
  | range :: others =>
      let parsed := match to_str range with Some range => parse_range range size | None => Unsatisfiable end in
      Some (match parsed with
            | Ignore => Ignore
            | _ => match others with [] => parsed | _ :: _ => Unsatisfiable end
            end)
  end.

(** The part of [send_open_file_with_gate] that follows the preconditions. *)
Definition send_representation (path : bytes) (size : Z) (headers : HeaderMap) (use_range head_only : bool)
    (res : Response) : result HandlerError Response :=
  let range := if use_range then requested_range headers size else None in
  res ← insert_value res CONTENT_TYPE (get_content_type path);
  filename ← match try_get_file_name path with Ok n => Ok n | Err m => failed (bs m) end;
  res ← set_content_disposition res filename;
  let res := with_header res ACCEPT_RANGES accept_ranges_bytes in
  match range with
  | Some (Satisfiable start end_) =>
      let range_size := end_ - start + 1 in
      let res := with_status res 206 in
      res ← insert_value res CONTENT_RANGE
              (bs "bytes " ++ u64_to_string start ++ bs "-" ++ u64_to_string end_ ++ bs "/" ++ u64_to_string size);
      res ← insert_value res CONTENT_LENGTH (u64_to_string range_size);
      if head_only then Ok res else Ok (with_body res (FileBody start range_size))
  | Some Unsatisfiable =>
      insert_value (with_status res 416) CONTENT_RANGE (bs "bytes */" ++ u64_to_string size)
  | None | Some Ignore =>
      res ← insert_value res CONTENT_LENGTH (u64_to_string size);
      if head_only then Ok res else Ok (with_body res (FileBody 0 size))
  end.

(** [send_open_file_with_gate] with the metadata it took. *)
Definition send_with_metadata (path : bytes) (meta : Metadata) (headers : HeaderMap) (head_only : bool)
    (res : Response) : result HandlerError Response :=
  if negb (md_is_file meta) then Ok (status_not_found res)
  else
    let size := md_len meta in
    let res := with_header res CACHE_CONTROL cache_control_private_no_store in
    match extract_cache_headers meta with
    | Some (etag, last_modified) =>
        let res := with_header (with_header res LAST_MODIFIED (last_modified_value last_modified))
                     ETAG (etag_value etag) in
        match preconditions headers etag last_modified with
        | Some status => Ok (with_status res status)
        | None =>
            send_representation path size headers
              (negb head_only && contains_key headers RANGE && negb (contains_key headers IF_RANGE)) head_only res
        end
    | None => send_representation path size headers (negb head_only) head_only res
    end.

Definition send_open_file_with_gate (path : bytes) (file : Fd) (headers : HeaderMap) (head_only : bool)
    (res : Response) : Dl Env (result HandlerError Response) :=
  do admitted <- syscall dl_admit AdmitRead;
  match admitted with
  | Err e => fail (HandlerIo e)
  | Ok _ =>
      do meta <- lifted DownloadCall (sys_file_metadata file);
      match meta with
      | Err e => fail (HandlerIo e)
      | Ok meta => ret (send_with_metadata path meta headers head_only res)
      end
  end.

(** The file that is open afterwards belongs to the body of the response. *)
Definition handle_send_file (fs : RootedFs) (path : bytes) (headers : HeaderMap) (head_only : bool)
    (res : Response) : Dl Env (result HandlerError (option Fd * Response)) :=
  do opened <- lifted DownloadCall (open_read fs path);
  match opened with
  | Ok file =>
      attempt res <- send_open_file_with_gate path file headers head_only res;
      ok (Some file, res)
  | Err e =>
      match io_kind e with
      | NotFound | NotADirectory => ok (None, status_not_found res)
      | _ => fail (HandlerIo e)
      end
  end.
End send.

(** ** Facts about names *)

Lemma upper_hex_nibble n : 0 <= n < 16 -> hex_nibble (upper_hex n) = Some n.
Proof. revert n. apply nibble_cases. by repeat constructor. Qed.

Lemma upper_hex_visible n : 0 <= n < 16 -> is_visible_ascii (upper_hex n) = true.
Proof. revert n. apply nibble_cases. by repeat constructor. Qed.

Lemma plain_disposition_visible c : plain_disposition_byte c = true -> is_visible_ascii c = true /\ byte_val c <> 37.
Proof.
  unfold plain_disposition_byte, is_ascii_alphanumeric, is_ascii_digit, is_visible_ascii, in_range. cbn [existsb].
  lia.
Qed.

Lemma encode_disposition_visible s : forallb is_visible_ascii (encode_content_disposition_filename s) = true.
Proof.
  unfold encode_content_disposition_filename. induction s as [|c s IH]; [done|]. cbn [map concat].
  rewrite forallb_app, IH, andb_true_r. unfold encode_disposition_byte.
  destruct (plain_disposition_byte c) eqn:Hc; cbn [forallb]; rewrite andb_true_r.
  - by apply plain_disposition_visible.
  - destruct (byte_nibbles c) as (Hh & Hl & _). rewrite !upper_hex_visible by done. done.
Qed.

Lemma disposition_visible s : forallb is_visible_ascii (disposition s) = true.
Proof. unfold disposition. rewrite !forallb_app, encode_disposition_visible. done. Qed.

(** A percent decoder recovers the encoded name. *)
Lemma decode_encode_disposition s : PctModel.dec (encode_content_disposition_filename s) = s.
Proof.
  unfold encode_content_disposition_filename. induction s as [|c s IH]; [done|]. cbn [map concat].
  unfold encode_disposition_byte at 1. destruct (plain_disposition_byte c) eqn:Hc.
  - cbn [app PctModel.dec]. rewrite bool_decide_eq_false_2, IH; [done|].
    intros ->. by apply plain_disposition_visible in Hc as [_ []].
  - destruct (byte_nibbles c) as (Hh & Hl & Hv).
    assert (forall x y t, PctModel.dec (percent_byte :: x :: y :: t) =
      match hex_nibble x, hex_nibble y with
      | Some h, Some l => byte_chr (Z.lor (Z.shiftl h 4) l) :: PctModel.dec t
      | _, _ => percent_byte :: PctModel.dec (x :: y :: t)
      end) as Hd by done.
    cbn [app]. rewrite Hd, !upper_hex_nibble, Hv, byte_chr_val, IH by done. done.
Qed.

(** ** The headers of a response *)

Section headers.
Context `{HttpTypesLaws}.

Lemma header_with_header res name value : header (with_header res name value) name = [value].
Proof. apply get_all_insert. Qed.

Lemma header_with_header_ne res name name' value :
  name' <> name -> header (with_header res name' value) name = header res name.
Proof. intros Hne. by apply get_all_insert_ne. Qed.

Lemma header_with_body res body name : header (with_body res body) name = header res name.
Proof. done. Qed.

Lemma header_with_status res status name : header (with_status res status) name = header res name.
Proof. done. Qed.

Lemma insert_visible res name value :
  forallb is_visible_ascii value = true -> insert_value res name value = Ok (with_header res name value).
Proof. intros Hv. unfold insert_value. by rewrite from_str_visible. Qed.
End headers.

(** Reads the headers off a response built by successive insertions. *)
Ltac read_headers :=
  repeat first
    [ rewrite header_with_header
    | rewrite header_with_header_ne by (vm_compute; congruence)
    | rewrite header_with_body | rewrite header_with_status ].

(** ** How a response is framed *)

Section framing.
Context `{HttpTypesLaws} `{!TypedHeaders} (sha256 : bytes -> bytes).

Definition content_range (start size : Z) (n : Z) : bytes :=
  bs "bytes " ++ u64_to_string start ++ bs "-" ++ u64_to_string (start + n - 1) ++ bs "/" ++ u64_to_string size.

(** The status, the lengths announced and the body agree. *)
Inductive framed (size : Z) (headers : HeaderMap) : bool -> Response -> Prop :=
| framed_head res :
    res_status res = 200 -> header res CONTENT_LENGTH = [u64_to_string size] ->
    header res CONTENT_RANGE = [] -> res_body res = EmptyBody -> framed size headers true res
| framed_whole res :
    res_status res = 200 -> header res CONTENT_LENGTH = [u64_to_string size] ->
    header res CONTENT_RANGE = [] -> res_body res = FileBody 0 size -> framed size headers false res
| framed_part res start n :
    res_status res = 206 -> 0 <= start -> 0 < n -> start + n <= size ->
    requested_range headers size = Some (Satisfiable start (start + n - 1)) ->
    header res CONTENT_LENGTH = [u64_to_string n] ->
    header res CONTENT_RANGE = [content_range start size n] ->
    res_body res = FileBody start n -> framed size headers false res
| framed_unsatisfiable res :
    res_status res = 416 -> requested_range headers size = Some Unsatisfiable ->
    header res CONTENT_LENGTH = [] -> header res CONTENT_RANGE = [bs "bytes */" ++ u64_to_string size] ->
    res_body res = EmptyBody -> framed size headers false res
| framed_condition head_only res :
    res_status res = 304 \/ res_status res = 412 ->
    header res CONTENT_LENGTH = [] -> header res CONTENT_RANGE = [] ->
    res_body res = EmptyBody -> framed size headers head_only res.

Lemma requested_range_bounds headers size start end_ :
  0 <= size -> requested_range headers size = Some (Satisfiable start end_) ->
  0 <= start <= end_ /\ end_ < size.
Proof.
  unfold requested_range. intros Hs. destruct (get_all headers RANGE) as [|range others]; [done|].
  destruct (to_str range) as [r|]; [|by destruct others]. destruct (parse_range r size) eqn:E; destruct others; try done.
  intros [= -> ->]. apply (parse_range_in_bounds r) in E; [lia|done].
Qed.

Lemma framed_representation path size headers use_range head_only res filename :
  forallb is_visible_ascii (get_content_type path) = true -> try_get_file_name path = Ok filename ->
  0 <= size <= u64_max -> (head_only = true -> use_range = false) ->
  res_status res = 200 -> res_body res = EmptyBody ->
  header res CONTENT_LENGTH = [] -> header res CONTENT_RANGE = [] ->
  exists res', send_representation path size headers use_range head_only res = Ok res' /\
    framed size headers head_only res' /\ header res' CACHE_CONTROL = header res CACHE_CONTROL /\
    header res' CONTENT_DISPOSITION = [disposition filename] /\ header res' ETAG = header res ETAG /\
    res_status res' ∈ (if use_range then [200; 206; 416] else [200]).
Proof.
  intros Hmime Hname Hsize Hhead Hstatus Hbody Hlen Hrange. unfold send_representation.
  rewrite (insert_visible res), Hname by done. cbn [mbind result_bind]. unfold set_content_disposition.
  rewrite insert_visible by apply disposition_visible. cbn [mbind result_bind].
  set (r := with_header _ ACCEPT_RANGES _).
  assert (Hr : res_status r = 200 /\ res_body r = EmptyBody /\ header r CONTENT_LENGTH = [] /\
    header r CONTENT_RANGE = [] /\ header r CACHE_CONTROL = header res CACHE_CONTROL /\
    header r CONTENT_DISPOSITION = [disposition filename] /\ header r ETAG = header res ETAG).
  { unfold r. read_headers. done. }
  destruct Hr as (Hs & Hb & Hl & Hc & Hcc & Hd & He). clearbody r.
  assert (Hwhole : exists res', (res0 ← insert_value r CONTENT_LENGTH (u64_to_string size);
      if head_only then Ok res0 else Ok (with_body res0 (FileBody 0 size))) = Ok res' /\
    framed size headers head_only res' /\ header res' CACHE_CONTROL = header res CACHE_CONTROL /\
    header res' CONTENT_DISPOSITION = [disposition filename] /\ header res' ETAG = header res ETAG /\
    res_status res' ∈ (if use_range then [200; 206; 416] else [200])).
  { rewrite insert_visible by by apply u64_to_string_visible. cbn [mbind result_bind].
    destruct head_only; eexists; (split; [done|]); read_headers; (split; [once (constructor; by read_headers)|]);
      (repeat split; try done); cbn; rewrite Hs; destruct use_range; set_solver. }
  destruct use_range; [|exact Hwhole]. destruct head_only; [by specialize (Hhead eq_refl)|].
  destruct (requested_range headers size) as [[|start end_|]|] eqn:Er; try exact Hwhole.
  - destruct (requested_range_bounds _ _ _ _ (proj1 Hsize) Er) as [? ?].
    rewrite insert_visible by (rewrite !forallb_app, !u64_to_string_visible by (unfold u64_range; lia); done).
    cbn [mbind result_bind].
    rewrite insert_visible by (apply u64_to_string_visible; unfold u64_range; lia).
    eexists. split; [done|]. read_headers. split; [|repeat split; try done; cbn; set_solver].
    apply (framed_part _ _ _ start (end_ - start + 1)); try done; try lia; read_headers; unfold content_range;
      replace (start + (end_ - start + 1) - 1) with end_ by lia; done.
  - rewrite insert_visible by (rewrite forallb_app, u64_to_string_visible by done; done).
    eexists. split; [done|]. read_headers. split; [|repeat split; try done; cbn; set_solver].
    apply framed_unsatisfiable; by read_headers.
Qed.

Lemma preconditions_status headers etag last_modified status :
  preconditions headers etag last_modified = Some status -> status = 304 \/ status = 412.
Proof. unfold preconditions. intros. repeat case_match; naive_solver. Qed.

(** What the validators of the file decide about the answer. *)
Definition conditions_respected (meta : Metadata) (headers : HeaderMap) (res : Response) : Prop :=
  match extract_cache_headers sha256 meta with
  | Some (etag, last_modified) =>
      header res ETAG = [etag_value etag] /\
      match preconditions headers etag last_modified with
      | Some status => res_status res = status
      | None => res_status res ∈ [200; 206; 416] /\
                (contains_key headers IF_RANGE = true -> res_status res = 200)
      end
  | None => res_status res ∈ [200; 206; 416]
  end.

Lemma send_framed path meta headers head_only filename :
  md_is_file meta = true -> 0 <= md_len meta <= u64_max ->
  forallb is_visible_ascii (get_content_type path) = true -> try_get_file_name path = Ok filename ->
  exists res, send_with_metadata sha256 path meta headers head_only default_response = Ok res /\
    framed (md_len meta) headers head_only res /\
    header res CACHE_CONTROL = [cache_control_private_no_store] /\
    conditions_respected meta headers res.
Proof.
  intros Hfile Hlen Hmime Hname. unfold send_with_metadata, conditions_respected. rewrite Hfile. cbn [negb].
  assert (Hnone : forall k, header default_response k = []) by (intros k; apply get_all_empty).
  destruct (extract_cache_headers sha256 meta) as [[etag lm]|].
  - destruct (preconditions headers etag lm) as [status|] eqn:Hp.
    + eexists. split; [done|]. read_headers.
      split; [|done]. apply framed_condition; try (read_headers; rewrite ?Hnone; done).
      by apply preconditions_status in Hp.
    + set (use := negb head_only && _ && _).
      edestruct (framed_representation path (md_len meta) headers use head_only) as
        (res & -> & Hf & Hc & _ & He & Hs); try done; try (read_headers; by rewrite ?Hnone).
      { unfold use. by intros ->. }
      exists res. split; [done|]. split; [done|]. rewrite Hc, He. read_headers. repeat split; try done.
      * destruct use; set_solver.
      * unfold use in Hs. intros Hi. rewrite Hi, andb_false_r in Hs. set_solver.
  - edestruct (framed_representation path (md_len meta) headers (negb head_only) head_only) as
      (res & -> & Hf & Hc & _ & _ & Hs); try done; try (read_headers; by rewrite ?Hnone).
    { by intros ->. }
    exists res. split; [done|]. split; [done|]. rewrite Hc. read_headers. split; [done|].
    destruct (negb head_only); set_solver.
Qed.
End framing.

(** C32: The answer to a request for a regular file is well framed: whatever the
    conditions and the [Range] headers of the request, the response is either
    complete with the length of the file, one range inside the file with
    matching [Content-Length], [Content-Range] and body, a refusal of the range
    that names the length, or the bodiless answer to a failed precondition;
    a [HEAD] request never gets a body nor a range.  It is never stored by a
    shared cache, a failed precondition decides the status, and with [If-Range]
    the whole file is sent. *)
Theorem file_responses_are_framed `{HttpTypesLaws} `{!TypedHeaders} sha256 path meta headers head_only filename :
  md_is_file meta = true -> 0 <= md_len meta <= u64_max ->
  forallb is_visible_ascii (get_content_type path) = true -> try_get_file_name path = Ok filename ->
  exists res, send_with_metadata sha256 path meta headers head_only default_response = Ok res /\
    framed (md_len meta) headers head_only res /\
    header res CACHE_CONTROL = [cache_control_private_no_store] /\
    conditions_respected sha256 meta headers res.
Proof. apply send_framed. Qed.

(** ** What a body delivers *)

(** Successive reads from [offset] on, of [remaining] bytes at most, with the
    chunks they deliver and the end of the stream. *)
Inductive delivery (file timeout : Z) : Z -> Z -> list bytes -> result IoError unit -> list DownloadEvent -> Prop :=
| delivered_all offset : delivery file timeout offset 0 [] (Ok tt) []
| delivery_failed offset remaining answer e :
    0 < remaining -> match answer with Some (Ok data) => data = [] | _ => True end ->
    delivery file timeout offset remaining [] (Err e)
      [ReadAt file offset (Z.min remaining BUF_SIZE) timeout answer]
| delivery_chunk offset remaining data chunks fin events :
    0 < blen data <= Z.min remaining BUF_SIZE ->
    delivery file timeout (offset + blen data) (remaining - blen data) chunks fin events ->
    delivery file timeout offset remaining (data :: chunks) fin
      (ReadAt file offset (Z.min remaining BUF_SIZE) timeout (Some (Ok data)) :: events).

(** The reads of [events] saw a file with this content. *)
Definition saw_content (content : bytes) (event : DownloadEvent) : Prop :=
  match event with
  | ReadAt _ offset _ _ (Some (Ok data)) => data = take (length data) (drop (Z.to_nat offset) content)
  | _ => True
  end.

Section body.
Context {Env : Type} `{DownloadHostLaws Env}.

Lemma spec_read_at file offset size timeout : 0 <= size ->
  spec (read_at file offset size timeout : Dl Env _) (λ a events,
    events = [ReadAt file offset size timeout a] /\
    forall data, a = Some (Ok data) -> blen data <= size).
Proof.
  intros Hs w. unfold read_at, syscall.
  destruct (dl_read_at file offset size timeout (w_env w)) as [a env] eqn:E. eexists. split; [done|]. split; [done|].
  cbn. intros data Ha. eapply (read_at_bounded file offset size timeout); [done|]. by rewrite E.
Qed.

Lemma poll_body_spec file timeout fuel : forall offset remaining received,
  0 <= remaining < Z.of_nat fuel ->
  spec (poll_body fuel (mkReadState file offset remaining timeout) received : Dl Env _) (λ r events,
    exists chunks fin, r = Some (received ++ chunks, fin) /\ delivery file timeout offset remaining chunks fin events).
Proof.
  induction fuel as [|fuel IH]; intros offset remaining received Hr; [lia|].
  cbn [poll_body]. unfold next_chunk. cbn [drs_remaining drs_file drs_offset drs_idle_timeout].
  destruct (Z.eqb_spec remaining 0) as [->|Hne].
  { apply spec_ret. exists [], (Ok tt). rewrite app_nil_r. split; [done|]. constructor. }
  apply spec_bind_assoc. eapply spec_bind; [apply spec_read_at; unfold BUF_SIZE; lia|]. intros [[data|e]|] events [-> Hb].
  - destruct (Z.eqb_spec (Z.of_nat (length data)) 0) as [Hz|Hz].
    + apply spec_ret. eexists [], _. rewrite app_nil_r. split; [done|]. apply delivery_failed; [lia|].
      destruct data; [done|cbn in Hz; lia].
    + specialize (Hb data eq_refl). unfold blen in *. apply spec_bind_ret.
      eapply spec_weaken; [apply IH; lia|]. cbn beta. intros r events (chunks & fin & -> & Hd).
      exists (data :: chunks), fin. rewrite <- app_assoc. split; [done|]. apply delivery_chunk; [unfold blen; lia|done].
  - apply spec_ret. eexists [], _. rewrite app_nil_r. split; [done|]. apply delivery_failed; [lia|done].
  - apply spec_ret. eexists [], _. rewrite app_nil_r. split; [done|]. apply delivery_failed; [lia|done].
Qed.
End body.

Lemma delivery_total file timeout offset remaining chunks fin events :
  delivery file timeout offset remaining chunks fin events ->
  match fin with Ok _ => blen (concat chunks) = remaining | Err _ => blen (concat chunks) < remaining end.
Proof.
  induction 1 as [| |offset remaining data chunks fin events Hd _ IH]; [done|done|].
  cbn [concat]. unfold blen in *. rewrite length_app. destruct fin; lia.
Qed.

Lemma delivery_bounded file timeout offset remaining chunks fin events :
  delivery file timeout offset remaining chunks fin events -> Forall (λ c, 0 < blen c <= BUF_SIZE) chunks.
Proof. induction 1; constructor; [lia|done]. Qed.

Lemma delivery_content file timeout offset remaining chunks fin events content :
  delivery file timeout offset remaining chunks fin events -> 0 <= offset ->
  Forall (saw_content content) events ->
  concat chunks = take (length (concat chunks)) (drop (Z.to_nat offset) content).
Proof.
  induction 1 as [| |offset remaining data chunks fin events Hd _ IH]; intros Ho Hc; [done|done|].
  apply Forall_cons in Hc as [H1 H2]. cbn [saw_content] in H1. cbn [concat]. unfold blen in *.
  rewrite length_app, <- (take_take_drop _ (length data)), <- H1. f_equal.
  rewrite drop_drop, IH at 1 by (done || lia). f_equal. f_equal. lia.
Qed.

(** C33: Streaming a body ends, and it delivers the announced slice of the file or
    breaks off: the chunks are at most 64 KiB, they are as long as announced
    exactly when the stream ends without an error and shorter otherwise, and
    when the file keeps its content while it is read, they are, one after the
    other, the bytes of the file from the offset on. *)
Theorem body_delivers_the_slice `{DownloadHostLaws} file offset remaining :
  0 <= offset -> 0 <= remaining ->
  spec (poll_body (S (Z.to_nat remaining))
          (gated_file_body file offset remaining DOWNLOAD_READ_IDLE_TIMEOUT) []) (λ r events,
    exists chunks fin, r = Some (chunks, fin) /\
      match fin with Ok _ => blen (concat chunks) = remaining | Err _ => blen (concat chunks) < remaining end /\
      Forall (λ chunk, 0 < blen chunk <= BUF_SIZE) chunks /\
      forall content, Forall (saw_content content) events ->
        concat chunks = take (length (concat chunks)) (drop (Z.to_nat offset) content)).
Proof.
  intros Ho Hr. eapply spec_weaken; [apply poll_body_spec; lia|]. cbn beta.
  intros r events (chunks & fin & -> & Hd). exists chunks, fin. split; [done|].
  split; [by eapply delivery_total|]. split; [by eapply delivery_bounded|]. intros content. by eapply delivery_content.
Qed.

(** ** Examples *)

Module DownloadExamples.
#[local] Existing Instance list_http.
#[local] Existing Instance list_http_laws.

(** Every [ETag] is accepted, the conditions compare texts. *)
#[local] Instance plain_headers : TypedHeaders := {|
  ETag := bytes;
  LastModified := Z;
  etag_parse := Some;
  etag_value := id;
  last_modified_from := λ ms, ms / 1000;
  last_modified_value := u64_to_string;
  if_match := λ h, match get_all h (bs "if-match") with [] => None | v :: _ => Some (beqb v) end;
  if_unmodified_since := λ _, None;
  if_none_match := λ h,
    match get_all h (bs "if-none-match") with [] => None | v :: _ => Some (λ e, negb (beqb v e)) end;
  if_modified_since := λ _, None;
  cache_control_private_no_store := bs "no-store, private";
  accept_ranges_bytes := bs "bytes";
  mime_from_path := λ _, bs "text/plain"
|}.

Definition notes : bytes := bs "the notes of one afternoon".

(** A file that always holds [notes], read ten bytes at a time. *)
#[local] Instance notes_host : DownloadHost unit := {|
  dl_admit := λ env, (Ok tt, env);
  dl_read_at := λ _ offset size _ env,
    (Some (Ok (take (Z.to_nat (Z.min size 10)) (drop (Z.to_nat offset) notes))), env)
|}.

#[local] Instance notes_host_laws : DownloadHostLaws unit.
Proof. constructor. intros file offset size timeout env data. cbn. intros ? [= <-]. rewrite length_take. lia. Qed.

Definition notes_meta : Metadata := mkMetadata false 26 (Some 5000) 1 7 (5, 0) (5, 0) true 1.
Definition ranged : HeaderMap := [(RANGE, bs "bytes=4-8")].

Example ranged_download :
  exists res, send_with_metadata (λ b, b) (bs "/srv/notes.txt") notes_meta ranged false default_response = Ok res /\
    res_status res = 206 /\ res_body res = FileBody 4 5 /\
    header res CONTENT_RANGE = [bs "bytes 4-8/26"] /\ header res CONTENT_LENGTH = [bs "5"].
Proof. eexists. split; [vm_compute; reflexivity|]. by vm_compute. Qed.

Lemma file_responses_are_framed_witness :
  md_is_file notes_meta = true /\
  exists res, send_with_metadata (λ b, b) (bs "/srv/notes.txt") notes_meta ranged false default_response = Ok res /\
    framed 26 ranged false res /\
    header res CACHE_CONTROL = [cache_control_private_no_store] /\
    conditions_respected (λ b, b) notes_meta ranged res.
Proof.
  split; [reflexivity|].
  apply (file_responses_are_framed (λ b, b) (bs "/srv/notes.txt") notes_meta ranged false (bs "notes.txt"));
    [reflexivity|vm_compute; split; discriminate|reflexivity|vm_compute; reflexivity].
Defined.

Lemma body_delivers_the_slice_witness :
  0 <= 4 /\
  spec (poll_body (Env := unit) (S (Z.to_nat 22)) (gated_file_body 3 4 22 DOWNLOAD_READ_IDLE_TIMEOUT) []) (λ r events,
    exists chunks fin, r = Some (chunks, fin) /\
      match fin with Ok _ => blen (concat chunks) = 22 | Err _ => blen (concat chunks) < 22 end /\
      Forall (λ chunk, 0 < blen chunk <= BUF_SIZE) chunks /\
      forall content, Forall (saw_content content) events ->
        concat chunks = take (length (concat chunks)) (drop (Z.to_nat 4) content)).
Proof. split; [lia|]. apply (body_delivers_the_slice 3 4 22); lia. Defined.

Example notes_arrive :
  (poll_body (Env := unit) 23 (gated_file_body 3 4 22 DOWNLOAD_READ_IDLE_TIMEOUT) [] (mkWorld tt [])).1 =
  Some ([bs "notes of o"; bs "ne afterno"; bs "on"], Ok tt).
Proof. vm_compute. reflexivity. Qed.
End DownloadExamples.
