(* ===== verification/AccessLog.v ===== *)
(** The access log: the format of a line, what of a request goes into it, and the
    record that is written when a response body is done
    ([src/src/http_logger.rs], [RequestContext] of [src/src/request_context.rs]
    and [attach_access_log] of [src/src/server/router.rs]).

    Header names come from the [http] crate and clocks from [chrono]; both are
    parameters, as is [char::is_alphanumeric] beyond ASCII. *)

From S2P Require Import Prelude Bytes Utils Http UploadProtocol Problem Registry LogText Download.
From stdpp Require Import base numbers list gmap strings.
From Stdlib Require Import Ascii.

Local Open Scope Z_scope.

Definition MAX_LOG_FORMAT_BYTES : Z := 4096.
Definition MAX_LOG_FORMAT_ELEMENTS : Z := 128.
Definition DEFAULT_LOG_FORMAT : bytes :=
  bs "$time_iso8601 $log_level - $remote_addr " ++ [double_quote] ++ bs "$request" ++ [double_quote] ++
  bs " $status operation_id=$operation_id operation_state=$operation_state".

(** ** The format *)

Inductive LogElement :=
| Variable_ (name : bytes)
| Header (name : bytes) (sensitive : bool)
| Literal (text : bytes).

#[export] Instance LogElement_eq_dec : EqDecision LogElement.
Proof. solve_decision. Defined.

(** The bits of [LogNeeds], as the set of the variables a format refers to. *)
Definition variable_flags : list (bytes * Z) :=
  [(bs "request", 1); (bs "request_method", 2); (bs "request_uri", 4); (bs "remote_user", 8);
   (bs "time_local", 16); (bs "time_iso8601", 32); (bs "msec", 64); (bs "remote_addr", 128);
   (bs "status", 256); (bs "operation_id", 512); (bs "operation_state", 1024); (bs "log_level", 0)].

Definition variable_flag (name : bytes) : option Z :=
  snd <$> List.find (λ entry, beqb entry.1 name) variable_flags.
Definition supports (name : bytes) : bool := match variable_flag name with Some _ => true | None => false end.
Definition record (needs : Z) (name : bytes) : Z := Z.lor needs (default 0 (variable_flag name)).
Definition needs_contains (needs flag : Z) : bool := negb (Z.land needs flag =? 0).

Record HttpLogger := mkHttpLogger { hl_elements : list LogElement; hl_needs : Z }.

Definition is_sensitive_header (name : bytes) : bool :=
  bool_decide (name ∈ [bs "authorization"; bs "proxy-authorization"; bs "cookie"; bs "x-csrf-token"]).

(** [HeaderName::from_bytes], and [char::is_alphanumeric]. *)
Class LogLib := {
  header_name_from_bytes : bytes -> option bytes;
  is_alphanumeric : bytes -> bool
}.

Definition dollar : bytes := bs "$".
Definition underscore_to_hyphen (c : ascii) : ascii := if byte_val c =? 95 then byte_chr 45 else c.

Section parsing.
Context `{LogLib}.

(** The end of a variable: what it adds to the elements. *)
Definition end_variable (cache : bytes) : result bytes (list LogElement) :=
  match str_strip_prefix (bs "$http_") cache with
  | Some value =>
      let normalized := underscore_to_hyphen <$> (to_ascii_lowercase <$> value) in
      match header_name_from_bytes normalized with
      | Some name => Ok [Header name (is_sensitive_header name)]
      | None => Err (bs "Invalid HTTP request header log variable `" ++ cache ++ bs "`")
      end
  | None =>
      match str_strip_prefix dollar cache with
      | Some value =>
          if supports value then Ok [Variable_ value]
          else Err (bs "Unknown HTTP log variable `$" ++ value ++ bs "`")
      | None => Ok []
      end
  end.

Fixpoint parse_chars (l : list bytes) (elements : list LogElement) (is_var : bool) (cache : bytes)
    : result bytes (list LogElement * bytes) :=
  match l with
  | [] => Ok (elements, cache)
  | c :: l =>
      if beqb c dollar then
        parse_chars l (if beqb cache [] then elements else elements ++ [Literal cache]) true c
      else if is_var && negb (is_alphanumeric c || beqb c (bs "_")) then
        added ← end_variable cache;
        parse_chars l (elements ++ added) false c
      else parse_chars l elements is_var (cache ++ c)
  end.

Definition parse_format (s : bytes) : result bytes HttpLogger :=
  if MAX_LOG_FORMAT_BYTES <? blen s then Err (bs "HTTP log format exceeds the 4096-byte limit")
  else
    '(elements, cache) ← parse_chars (chars (s ++ bs " ")) [] false [];
    let elements := if beqb (trim cache) [] then elements else elements ++ [Literal (trim cache)] in
    if MAX_LOG_FORMAT_ELEMENTS <? Z.of_nat (length elements)
    then Err (bs "HTTP log format exceeds the 128-element limit")
    else
      let needs := foldl (λ needs e, match e with Variable_ name => record needs name | _ => needs end) 0 elements in
      Ok (mkHttpLogger elements needs).
End parsing.

(** ** What of a request is logged *)

Section request.
Context `{HttpTypes} `{PercentEncoding}.

(** The request as the logger sees it: the texts of its method, of its URI and
    of its version. *)
Record LoggedRequest := mkLogged { lr_method : bytes; lr_uri : bytes; lr_version : bytes; lr_headers : HeaderMap }.

Definition format_request_line (method uri version : bytes) : bytes :=
  method ++ bs " " ++ sanitize_log_value uri ++ bs " " ++ version.

Definition sanitize_request_uri (uri : bytes) : bytes :=
  match decode_uri uri with
  | None => sanitize_log_value uri
  | Some decoded => sanitize_log_value decoded
  end.

Definition log_header (headers : HeaderMap) (data : gmap bytes bytes) (element : LogElement) : gmap bytes bytes :=
  match element with
  | Header name true => if contains_key headers name then <[name := bs "[REDACTED]"]> data else data
  | Header name false =>
      match get_all headers name with
      | value :: _ =>
          match to_str value with
          | Some value => <[name := sanitize_log_value value]> data
          | None => data
          end
      | [] => data
      end
  | _ => data
  end.

Definition insert_if (b : bool) (name value : bytes) (data : gmap bytes bytes) : gmap bytes bytes :=
  if b then <[name := value]> data else data.

Definition log_data (logger : HttpLogger) (req : LoggedRequest) : gmap bytes bytes :=
  let needs := needs_contains (hl_needs logger) in
  let data := insert_if (needs 1) (bs "request")
                (format_request_line (lr_method req) (lr_uri req) (lr_version req)) ∅ in
  let data := insert_if (needs 4) (bs "request_uri") (sanitize_request_uri (lr_uri req)) data in
  let data := insert_if (needs 2) (bs "request_method") (lr_method req) data in
  foldl (log_header (lr_headers req)) data (hl_elements logger).

Definition set_authenticated_user (logger : HttpLogger) (user : bytes) (data : gmap bytes bytes) : gmap bytes bytes :=
  insert_if (needs_contains (hl_needs logger) 8) (bs "remote_user") (sanitize_log_value user) data.

(** The flag of a field set at run time. *)
Definition runtime_flag (name : bytes) : Z :=
  if bool_decide (name ∈ [bs "remote_addr"; bs "status"; bs "operation_id"; bs "operation_state"])
  then default 0 (variable_flag name) else 0.
Definition set_runtime_value (logger : HttpLogger) (name value : bytes) (data : gmap bytes bytes) : gmap bytes bytes :=
  insert_if (needs_contains (hl_needs logger) (runtime_flag name)) name value data.

(** [RequestContext::new]: the access log of a request when it comes in. *)
Definition new_context (logger : HttpLogger) (req : LoggedRequest) (peer : bytes) : gmap bytes bytes :=
  set_runtime_value logger (bs "remote_addr") peer (log_data logger req).
End request.

(** ** A line *)

(** The clocks, as they would be printed. *)
Record Clock := mkClock { ck_local : bytes; ck_iso8601 : bytes; ck_msec : bytes }.

Definition render_element (logger : HttpLogger) (clock : Clock) (failed : bool) (data : gmap bytes bytes)
    (element : LogElement) : bytes :=
  match element with
  | Literal text => text
  | Variable_ name =>
      let needs flag value := if needs_contains (hl_needs logger) flag then Some value else None in
      let resolved :=
        if beqb name (bs "time_local") then needs 16 (ck_local clock)
        else if beqb name (bs "time_iso8601") then needs 32 (ck_iso8601 clock)
        else if beqb name (bs "msec") then needs 64 (ck_msec clock)
        else if beqb name (bs "log_level") then Some (if failed then bs "ERROR" else bs "INFO")
        else None in
      match resolved with Some value => value | None => default (bs "-") (data !! name) end
  | Header name _ => default (bs "-") (data !! name)
  end.

Definition render (logger : HttpLogger) (clock : Clock) (data : gmap bytes bytes) (err : option bytes) : bytes :=
  let failed := match err with Some _ => true | None => false end in
  let output := foldl (λ line e, push_str line (render_element logger clock failed data e)) new_line (hl_elements logger) in
  finish (match err with
          | Some err => append_sanitized_log_value (push_str output (bs " ")) err
          | None => output
          end).

(** ** The end of a response *)

Definition body_length_error (expected : option Z) (produced : Z) : option bytes :=
  match expected with
  | Some expected =>
      if negb (expected =? produced)
      then Some (bs "response body produced " ++ u64_to_string produced ++ bs " bytes but declared " ++
                 u64_to_string expected ++ bs " bytes")
      else None
  | None => None
  end.

Definition combine_response_errors (handler_error body_error : option bytes) : option bytes :=
  match handler_error, body_error with
  | Some handler, Some body => Some (handler ++ bs "; " ++ body)
  | Some error, None | None, Some error => Some error
  | None, None => None
  end.

(** The records of a response: what was logged, with the error. *)
Definition log_completion (handler_error : option bytes) (omit_success : bool) (body_error : option bytes)
    : list (option bytes) :=
  let error := combine_response_errors handler_error body_error in
  if negb omit_success || match error with Some _ => true | None => false end then [error] else [].

(** [ab_pending]: whether the completion has not been called yet. *)
Record AccessLogBody := mkBodyLog {
  ab_expected : option Z;
  ab_produced : Z;
  ab_pending : bool
}.

Definition new_body (expected : option Z) : AccessLogBody := mkBodyLog expected 0 true.

(** What the body underneath answers: data, other frames, an error, the end. *)
Inductive Polled := Data (len : Z) | Other | Failed_ (error : bytes) | Ended | NotReady.

Section body.
(** the records the completion writes *)
Context (completion : option bytes -> list (option bytes)).

Definition complete (body : AccessLogBody) (error : option bytes) : list (option bytes) * AccessLogBody :=
  if ab_pending body then (completion error, mkBodyLog (ab_expected body) (ab_produced body) false) else ([], body).

Definition u64_saturating_add (a b : Z) : Z := Z.min u64_max (a + b).

Definition poll_frame (polled : Polled) (body : AccessLogBody) : list (option bytes) * AccessLogBody :=
  match polled with
  | Data len => ([], mkBodyLog (ab_expected body) (u64_saturating_add (ab_produced body) len) (ab_pending body))
  | Other | NotReady => ([], body)
  | Failed_ error => complete body (Some (bs "response body stream failed: " ++ error))
  | Ended => complete body (body_length_error (ab_expected body) (ab_produced body))
  end.

Definition drop_body (body : AccessLogBody) : list (option bytes) :=
  let error :=
    match body_length_error (ab_expected body) (ab_produced body) with
    | Some error => Some error
    | None => match ab_expected body with
              | Some _ => None
              | None => Some (bs "response body was dropped before stream completion")
              end
    end in
  (complete body error).1.

(** A body that is polled a number of times and then dropped. *)
Fixpoint body_records (polls : list Polled) (body : AccessLogBody) : list (option bytes) :=
  match polls with
  | [] => drop_body body
  | polled :: polls => let '(records, body) := poll_frame polled body in records ++ body_records polls body
  end.
End body.

(** [log_response_body]: [hint] is the exact size hint of the body, [ended]
    whether it is at its end already. *)
Definition log_response_body (logger : HttpLogger) (expected hint : option Z) (ended : bool)
    (handler_error : option bytes) (omit_success : bool) (polls : list Polled) : list (option bytes) :=
  let expected := match expected with Some n => Some n | None => hint end in
  let completion := log_completion handler_error omit_success in
  match hl_elements logger with
  | [] => []
  | _ => if ended then completion (body_length_error expected 0)
         else body_records completion polls (new_body expected)
  end.

(** [attach_access_log]: the fields of the line, and the records. *)
Definition attach_access_log `{HttpTypes} (logger : HttpLogger) (head_request : bool) (data : gmap bytes bytes)
    (res : Response) (error : option bytes) (omit_success : bool) (hint : option Z) (ended : bool)
    (polls : list Polled) : gmap bytes bytes * list (option bytes) :=
  let first name := match get_all (res_headers res) name with v :: _ => to_str v | [] => None end in
  let data := set_runtime_value logger (bs "status") (u64_to_string (res_status res)) data in
  let data := match first OPERATION_STATE_HEADER with
              | Some state => set_runtime_value logger (bs "operation_state") state data
              | None => data
              end in
  let expected :=
    if head_request || in_range 100 199 (res_status res) || (res_status res =? 204) || (res_status res =? 304)
    then Some 0
    else first CONTENT_LENGTH ≫= u64_parse in
  (data, log_response_body logger expected hint ended error omit_success polls).

(** ** The lines of a request *)

(** What becomes of a request after it was read: the account the platform named,
    the operation its headers name, the response, and how its body went out. *)
Record LoggedOutcome `{HttpTypes} := mkOutcome {
  lo_account : option bytes;
  lo_operation : option bytes;
  lo_response : Response;
  lo_error : option bytes;
  lo_omit_success : bool;
  lo_hint : option Z;
  lo_ended : bool;
  lo_polls : list Polled;
  lo_clock : Clock
}.

(** The access log of a request in [Server::call]: the fields that are set on the
    way, and the lines that are written in the end. *)
Definition access_lines `{HttpTypes} `{PercentEncoding} (logger : HttpLogger) (req : LoggedRequest) (peer : bytes)
    (outcome : LoggedOutcome) : list bytes :=
  let data := new_context logger req peer in
  let data := match lo_operation outcome with
              | Some id => set_runtime_value logger (bs "operation_id") id data
              | None => data
              end in
  let data := match lo_account outcome with
              | Some user => set_authenticated_user logger user data
              | None => data
              end in
  let '(data, records) := attach_access_log logger (beqb (lr_method req) (bs "HEAD")) data (lo_response outcome)
    (lo_error outcome) (lo_omit_success outcome) (lo_hint outcome) (lo_ended outcome) (lo_polls outcome) in
  map (render logger (lo_clock outcome) data) records.

(** ** Every response is logged once *)

(** The bytes of the data frames before the stream ended or failed, and how it
    ended. *)
Fixpoint produced (polls : list Polled) : Z :=
  match polls with
  | Data len :: polls => len + produced polls
  | Other :: polls | NotReady :: polls => produced polls
  | _ => 0
  end.
Fixpoint stream_end (polls : list Polled) : option Polled :=
  match polls with
  | Data _ :: polls | Other :: polls | NotReady :: polls => stream_end polls
  | polled :: _ => Some polled
  | [] => None
  end.

(** The whole body went out: as many bytes as declared, or, where nothing was
    declared, up to its end. *)
Definition delivered (expected : option Z) (ended : bool) (polls : list Polled) : Prop :=
  if ended then expected = None \/ expected = Some 0
  else match stream_end polls with
       | Some Ended => expected = None \/ expected = Some (produced polls)
       | Some _ => False
       | None => expected = Some (produced polls)
       end.

Definition valid_poll (p : Polled) : Prop := match p with Data len => 0 <= len | _ => True end.

Lemma body_length_error_None expected n :
  body_length_error expected n = None <-> expected = None \/ expected = Some n.
Proof.
  destruct expected as [m|]; cbn [body_length_error]; [|split; auto].
  destruct (Z.eqb_spec m n) as [->|]; cbn [negb]; split; auto; [done|]. by intros [|[= ?]].
Qed.

Lemma produced_nonneg polls : Forall valid_poll polls -> 0 <= produced polls.
Proof. induction 1 as [|[] polls Hp _ IH]; cbn in *; lia. Qed.

(** Once the completion was called, nothing more is written. *)
Lemma completed_is_silent completion polls expected n : body_records completion polls (mkBodyLog expected n false) = [].
Proof. revert n. induction polls as [|[] polls IH]; intros n; cbn; try done; apply IH. Qed.

Lemma body_records_spec completion polls expected n :
  Forall valid_poll polls -> 0 <= n -> n + produced polls <= u64_max ->
  exists error, body_records completion polls (mkBodyLog expected n true) = completion error /\
    (error = None <-> match stream_end polls with
                      | Some Ended => expected = None \/ expected = Some (n + produced polls)
                      | Some _ => False
                      | None => expected = Some (n + produced polls)
                      end).
Proof.
  intros Hv. revert n. induction Hv as [|p polls Hp Hv IH]; intros n Hn Hs; cbn in Hs |- *.
  - eexists. split; [reflexivity|]. rewrite Z.add_0_r. pose proof (body_length_error_None expected n) as Hl.
    cbn [ab_expected ab_produced]. destruct (body_length_error expected n) as [e|].
    + split; [done|]. intros ->. destruct Hl as [_ Hl]. by rewrite Hl by (by right).
    + destruct (proj1 Hl eq_refl) as [-> | ->]; done.
  - pose proof (produced_nonneg _ Hv).
    destruct p as [len| |error| |]; cbn in Hp, Hs |- *; [|by apply IH| | |by apply IH].
    + unfold u64_saturating_add. rewrite Z.min_r by lia.
      destruct (IH (n + len) ltac:(lia) ltac:(lia)) as (error & -> & He). exists error. split; [done|].
      by rewrite Z.add_assoc.
    + rewrite completed_is_silent, app_nil_r. by eexists.
    + rewrite completed_is_silent, app_nil_r. eexists. split; [reflexivity|]. rewrite Z.add_0_r.
      apply body_length_error_None.
Qed.

(** However the body of a response is polled, and whether it ends, fails or is
    dropped half way, exactly one record is written, or none where successes are
    omitted; and it is a success exactly when the handler succeeded and the whole
    body went out. *)
Theorem responses_are_logged_once logger expected hint ended handler_error omit_success polls :
  hl_elements logger <> [] -> Forall valid_poll polls -> produced polls <= u64_max ->
  exists error,
    log_response_body logger expected hint ended handler_error omit_success polls =
      (if omit_success && bool_decide (error = None) then [] else [error]) /\
    (error = None <->
       handler_error = None /\ delivered (match expected with Some n => Some n | None => hint end) ended polls).
Proof.
  intros He Hv Hs. unfold log_response_body, delivered. set (declared := match expected with Some _ => _ | None => _ end).
  destruct (hl_elements logger) as [|e l]; [done|].
  assert (forall body_error, exists error,
    log_completion handler_error omit_success body_error =
      (if omit_success && bool_decide (error = None) then [] else [error]) /\
    (error = None <-> handler_error = None /\ body_error = None)) as Hc.
  { intros body_error. exists (combine_response_errors handler_error body_error). unfold log_completion.
    split; [by destruct omit_success, (combine_response_errors _ _)|].
    destruct handler_error, body_error; cbn; naive_solver. }
  destruct ended.
  - destruct (Hc (body_length_error declared 0)) as (error & -> & Hi). exists error. split; [done|].
    by rewrite Hi, body_length_error_None.
  - destruct (body_records_spec (log_completion handler_error omit_success) polls declared 0) as (b & E & Hb); [done..|].
    unfold new_body. rewrite E. destruct (Hc b) as (error & -> & Hi). exists error. split; [done|]. by rewrite Hi, Hb.
Qed.

(** ** Credentials *)

Definition flagged (e : LogElement) : Prop :=
  match e with Header name sensitive => sensitive = is_sensitive_header name | _ => True end.

Lemma parse_chars_flagged `{LogLib} l elements is_var cache elements' cache' :
  Forall flagged elements -> parse_chars l elements is_var cache = Ok (elements', cache') -> Forall flagged elements'.
Proof.
  revert elements is_var cache. induction l as [|c l IH]; intros elements is_var cache He; cbn [parse_chars];
    [by intros [= <- <-]|].
  destruct (beqb c dollar); [apply IH; destruct (beqb cache []); [done|apply Forall_app; by repeat constructor]|].
  destruct (is_var && _); [|by apply IH]. destruct (end_variable cache) as [added|] eqn:Ea; [|done]. cbn [mbind result_bind].
  apply IH, Forall_app. split; [done|]. unfold end_variable in Ea. repeat case_match; simplify_eq; repeat constructor.
Qed.

Lemma parse_format_flagged `{LogLib} s logger : parse_format s = Ok logger -> Forall flagged (hl_elements logger).
Proof.
  unfold parse_format. destruct (_ <? blen s); [done|].
  destruct (parse_chars _ _ _ _) as [[elements cache]|] eqn:E; [|done]. cbn [mbind result_bind].
  apply parse_chars_flagged in E; [|constructor].
  destruct (beqb (trim cache) []); (destruct (_ <? _); [done|]); intros [= <-]; cbn; [done|].
  apply Forall_app. by repeat constructor.
Qed.

(** Headers that differ at most in the values of credentials. *)
Definition same_but_credentials `{HttpTypes} (h h' : HeaderMap) : Prop :=
  forall name, if is_sensitive_header name then contains_key h name = contains_key h' name
               else get_all h name = get_all h' name.

Lemma context_without_credentials `{HttpTypes} `{PercentEncoding} logger method uri version peer h h' :
  Forall flagged (hl_elements logger) -> same_but_credentials h h' ->
  new_context logger (mkLogged method uri version h) peer = new_context logger (mkLogged method uri version h') peer.
Proof.
  intros Hf Hh. unfold new_context. f_equal. unfold log_data. cbn.
  set (data := insert_if _ _ _ _). generalize data. induction Hf as [|e l He _ IH]; intros d; cbn; [done|].
  assert (log_header h d e = log_header h' d e) as ->; [|apply IH].
  destruct e as [|name sensitive|]; try done. cbn in He. subst sensitive. specialize (Hh name). cbn.
  destruct (is_sensitive_header name); by rewrite Hh.
Qed.

(** C38: Whatever format is configured, the values of the credentials a request
    carries do not reach its access log: take two requests that differ only in the
    values of their [Authorization], [Proxy-Authorization], [Cookie] and
    [X-CSRF-Token] headers, the same of them present.  If they come to the same
    outcome - the account they are authenticated as, the operation, the response
    and the way its body is sent - then the lines written for them are the same.
    What credentials change in the log, they change through that outcome only. *)
Theorem credentials_are_not_logged `{HttpTypes} `{PercentEncoding} `{LogLib} format logger method uri version peer h h' outcome :
  parse_format format = Ok logger -> same_but_credentials h h' ->
  access_lines logger (mkLogged method uri version h) peer outcome =
  access_lines logger (mkLogged method uri version h') peer outcome.
Proof.
  intros Hf%parse_format_flagged Hh. unfold access_lines.
  by rewrite (context_without_credentials logger method uri version peer h h').
Qed.

(** ** Examples *)

Module AccessLogExamples.
(** Header names of letters and hyphens. *)
#[local] Instance ascii_lib : LogLib := {|
  header_name_from_bytes := λ s,
    if negb (beqb s []) && forallb (λ c, in_range 97 122 (byte_val c) || (byte_val c =? 45)) s then Some s else None;
  is_alphanumeric := λ ch,
    match ch with
    | [c] => in_range 97 122 (byte_val c) || in_range 65 90 (byte_val c) || is_ascii_digit c
    | _ => false
    end
|}.
#[local] Existing Instance list_http.
#[local] Instance no_percent : PercentEncoding := {| utf8_percent_encode := id; percent_decode := id |}.

Definition demo_format : bytes := bs "$status $http_Cookie $http_user_agent".
Definition demo_logger : HttpLogger := match parse_format demo_format with Ok l => l | Err _ => mkHttpLogger [] 0 end.

Example demo_elements :
  hl_elements demo_logger =
    [Variable_ (bs "status"); Literal (bs " "); Header (bs "cookie") true; Literal (bs " "); Header (bs "user-agent") false].
Proof. vm_compute. reflexivity. Qed.

Definition secret (value : bytes) : HeaderMap := [(bs "cookie", value); (bs "user-agent", bs "curl")].

Definition demo_outcome : LoggedOutcome :=
  mkOutcome _ (Some (bs "ada")) None default_response None false (Some 5) false [Data 5] (mkClock [] [] []).

Example demo_lines :
  access_lines demo_logger (mkLogged (bs "GET") (bs "/") (bs "HTTP/1.1") (secret (bs "a"))) (bs "::1") demo_outcome =
    [bs "200 [REDACTED] curl"].
Proof. vm_compute. reflexivity. Qed.

Lemma credentials_are_not_logged_witness :
  parse_format demo_format = Ok demo_logger /\
  access_lines demo_logger (mkLogged (bs "GET") (bs "/") (bs "HTTP/1.1") (secret (bs "a"))) (bs "::1") demo_outcome =
  access_lines demo_logger (mkLogged (bs "GET") (bs "/") (bs "HTTP/1.1") (secret (bs "b"))) (bs "::1") demo_outcome.
Proof.
  split; [vm_compute; reflexivity|].
  apply (credentials_are_not_logged demo_format demo_logger (bs "GET") (bs "/") (bs "HTTP/1.1") (bs "::1"));
    [vm_compute; reflexivity|].
  intros name. unfold is_sensitive_header. case_bool_decide as Hn.
  - unfold contains_key. cbn. unfold pair_named. cbn. by destruct (beqb _ name), (beqb _ name).
  - cbn. unfold pair_named. cbn [fst]. assert (beqb (bs "cookie") name = false) as Hc; [|cbn in Hc; by rewrite Hc].
    apply bool_decide_eq_false. intros <-. apply Hn. set_solver.
Defined.

Lemma responses_are_logged_once_witness :
  exists error,
    log_response_body demo_logger (Some 5) None false None false [Data 3; NotReady; Data 2] = [error] /\
    error = None.
Proof.
  destruct (responses_are_logged_once demo_logger (Some 5) None false None false [Data 3; NotReady; Data 2])
    as (error & E & Hi); [by vm_compute|by repeat constructor|by vm_compute|].
  exists error. split; [exact E|]. apply Hi. split; reflexivity.
Defined.

(** A variable that follows another one immediately ends it without its being
    recognized. *)
Example adjacent_variables_are_text :
  match parse_format (bs "$remote_addr$status") with
  | Ok logger => hl_elements logger = [Literal (bs "$remote_addr"); Variable_ (bs "status")]
  | Err _ => False
  end.
Proof. vm_compute. reflexivity. Qed.

(** The text after the last variable loses its blanks on both sides. *)
Example trailing_text_is_trimmed :
  match parse_format (bs "$status done") with
  | Ok logger => hl_elements logger = [Variable_ (bs "status"); Literal (bs "done")]
  | Err _ => False
  end.
Proof. vm_compute. reflexivity. Qed.
End AccessLogExamples.
