(* ===== verification/WebPages.v ===== *)
(** The answers of the web front end that need no file system: the embedded
    assets ([src/src/server/assets.rs]), the login page, the redirection to it
    and the security headers ([src/src/server/administrator_web.rs]), the
    directory page ([send_index] of [src/src/server/listing.rs]) and the health
    endpoints of [src/src/server.rs].

    The texts of the pages and assets are those of files next to the code, and
    the serializers of [serde_json] and [base64] and the error envelope of the
    administration platform are code of other crates: all are parameters. *)

From S2P Require Import Prelude Bytes StdPath Utils Http UploadProtocol Problem Registry Listing ListApi ServerHost Download.
From stdpp Require Import base numbers list strings.
From Stdlib Require Import Ascii.

Local Open Scope Z_scope.

Definition LOCATION : bytes := bs "location".
Definition ACCEPT : bytes := bs "accept".
Definition CONTENT_TYPE_OPTIONS : bytes := bs "x-content-type-options".

(** [str::replace] of a nonempty pattern. *)
Fixpoint replace_from (fuel : nat) (pattern by_ s : bytes) : bytes :=
  match fuel with
  | O => s
  | S fuel =>
      match str_strip_prefix pattern s, s with
      | Some rest, _ => by_ ++ replace_from fuel pattern by_ rest
      | None, c :: s => c :: replace_from fuel pattern by_ s
      | None, [] => []
      end
  end.
Definition str_replace (pattern by_ s : bytes) : bytes := replace_from (length s) pattern by_ s.

(** ** Assets *)

Record EmbeddedAsset := mkAsset { ea_name : bytes; ea_contents : bytes; ea_content_type : bytes }.

Section pages.
Context `{HttpTypes} (sha256 : bytes -> bytes) (embedded_assets : list EmbeddedAsset).

Definition embedded_asset (name : bytes) : option EmbeddedAsset :=
  List.find (λ a, beqb (ea_name a) name) embedded_assets.

Definition sized (b : bytes) : bytes := u64_to_be_bytes (blen b) ++ b.
Definition embedded_assets_prefix : bytes :=
  bs "__dufs_assets_" ++
  encode_hex (sha256 (concat (map (λ a, sized (ea_name a) ++ sized (ea_content_type a) ++ sized (ea_contents a))
                               embedded_assets))) ++ bs "/".

Context (assets_prefix : bytes).

Definition is_public_asset_path (req_path : bytes) : bool :=
  match str_strip_prefix assets_prefix req_path with
  | Some name => match embedded_asset name with Some _ => true | None => false end
  | None => false
  end.

(** [true] when the path belongs to the assets, with the response. *)
Definition handle_internal (req_path : bytes) (head_only : bool) (res : Response) : bool * Response :=
  match str_strip_prefix assets_prefix req_path with
  | None => (false, res)
  | Some name =>
      match embedded_asset name with
      | None => (true, with_header (status_not_found res) CONTENT_TYPE_OPTIONS (bs "nosniff"))
      | Some asset =>
          let res := with_header res CONTENT_LENGTH (u64_to_string (blen (ea_contents asset))) in
          let res := if head_only then res else with_body res (BytesBody (ea_contents asset)) in
          let res := with_header res CONTENT_TYPE (ea_content_type asset) in
          let res := with_header res CACHE_CONTROL (bs "public, max-age=31536000, immutable") in
          (true, with_header res CONTENT_TYPE_OPTIONS (bs "nosniff"))
      end
  end.

(** ** Security headers *)

Definition private_security_headers : list (bytes * bytes) :=
  [(bs "cache-control", bs "private, no-store");
   (bs "x-content-type-options", bs "nosniff");
   (bs "x-frame-options", bs "DENY");
   (bs "referrer-policy", bs "no-referrer");
   (bs "permissions-policy", bs "camera=(), microphone=(), geolocation=(), payment=(), usb=()");
   (bs "content-security-policy",
    bs "default-src 'none'; script-src 'self'; style-src 'self'; font-src 'self'; connect-src 'self'; form-action 'self'; base-uri 'none'; frame-ancestors 'none'")].

Definition with_all_headers (res : Response) (l : list (bytes * bytes)) : Response :=
  foldl (λ res '(name, value), with_header res name value) res l.

Definition add_private_security_headers (res : Response) : Response :=
  with_all_headers res private_security_headers.

Definition set_private_no_store (res : Response) : Response :=
  with_header res CACHE_CONTROL (bs "private, no-store").

(** ** The login page *)

Definition LOGIN_PATH : bytes := bs "__dufs__/login".

Definition send_login_page_for_get (login_html : bytes) (min_password max_password : Z) (res : Response) : Response :=
  let output :=
    str_replace (bs "__MAX_PASSWORD_BYTES__") (u64_to_string max_password)
      (str_replace (bs "__MIN_PASSWORD_BYTES__") (u64_to_string min_password)
         (str_replace (bs "__ASSETS_PREFIX__") assets_prefix login_html)) in
  let res := with_header res CONTENT_TYPE (bs "text/html; charset=utf-8") in
  let res := with_header res CONTENT_LENGTH (u64_to_string (blen output)) in
  add_private_security_headers (with_body (with_status res 200) (BytesBody output)).

(** The weight of one parameter of a media range: absent, or whether it is
    positive; [None]: the media range is ignored. *)
Fixpoint quality_of (fields : list bytes) (quality : option bool) : option (option bool) :=
  match fields with
  | [] => Some quality
  | field :: fields =>
      match split_once equals_byte field with
      | None => None
      | Some (name, value) =>
          if eq_ignore_ascii_case (trim name) (bs "q") then
            match quality with
            | Some _ => None
            | None =>
                let '(whole, fraction) := default (trim value, []) (split_once (byte_chr 46) (trim value)) in
                if (3 <? blen fraction) || negb (forallb is_ascii_digit fraction) then None
                else quality_of fields
                  (Some (if beqb whole (bs "0") then existsb (λ c, negb (byte_val c =? 48)) fraction
                         else if beqb whole (bs "1") then forallb (λ c, byte_val c =? 48) fraction
                         else false))
            end
          else quality_of fields quality
      end
  end.

Definition media_accepts_html (item : bytes) : bool :=
  match split_on (byte_chr 59) item with
  | [] => false
  | media :: fields =>
      if negb (eq_ignore_ascii_case (trim media) (bs "text/html")) then false
      else match quality_of fields None with
           | None => false
           | Some quality => default true quality
           end
  end.

Definition accepts_html (headers : HeaderMap) : bool :=
  existsb (λ value, match to_str value with
                    | Some value => existsb media_accepts_html (split_on comma_byte value)
                    | None => false
                    end) (get_all headers ACCEPT).

(** [reads]: the method is [GET] or [HEAD]. *)
Definition redirect_unauthenticated_page (reads : bool) (headers : HeaderMap) (api : bool) (res : Response)
    : Response :=
  if (res_status res =? 401) && negb api && reads && accepts_html headers then
    let res := with_body (with_status res 303) (BytesBody []) in
    let res := with_headers res (remove_header (res_headers res) CONTENT_LENGTH) in
    with_header res LOCATION (bs "/__dufs__/login")
  else res.

(** [envelope]: the serialized [ErrorEnvelope] of a code and of whether the
    request may be retried. *)
Definition render_administrator_auth_error (envelope : bytes -> bool -> result Failure bytes)
    (res : Response) (status : Z) (code : bytes) (retryable : bool) (retry_after : option Z)
    : result Failure Response :=
  body ← envelope code retryable;
  let res := with_body (with_status res status) (BytesBody body) in
  let res := with_header res CONTENT_TYPE (bs "application/json") in
  res ← match retry_after with
        | Some seconds =>
            headers ← try (set_header (res_headers res) RETRY_AFTER (u64_to_string seconds));
            Ok (with_headers res headers)
        | None => Ok res
        end;
  Ok (add_private_security_headers res).

(** ** The directory page *)

Definition index_security_headers : list (bytes * bytes) :=
  [(bs "x-content-type-options", bs "nosniff");
   (bs "x-frame-options", bs "DENY");
   (bs "referrer-policy", bs "no-referrer");
   (bs "permissions-policy", bs "camera=(), microphone=(), geolocation=(), payment=(), usb=()");
   (bs "content-security-policy",
    bs "default-src 'none'; script-src 'self'; style-src 'self'; font-src 'self'; img-src 'self'; connect-src 'self'; form-action 'self'; base-uri 'none'; frame-ancestors 'none'")].

(** [Display for ListingError]. *)
Definition listing_error_text (e : ListingError) : bytes :=
  bs "directory operation failed operation=" ++ le_operation e ++ bs " path=" ++ [byte_chr 34] ++
  le_relative_path e ++ [byte_chr 34] ++ bs " reason=" ++ le_reason e.

Context `{!TypedHeaders} (base64 : bytes -> bytes) (index_json : bytes -> bool -> bytes)
  (index_html serve_path : bytes).

(** [index_json]: the serialized [IndexData]. *)
Definition send_index (path : bytes) (exist head_only : bool) (res : Response) : result HandlerError Response :=
  let res := with_header res CONTENT_TYPE (bs "text/html; charset=utf-8") in
  let res := with_header res CACHE_CONTROL cache_control_private_no_store in
  let res := with_all_headers res index_security_headers in
  if head_only then Ok res
  else
    relative ← match strict_relative_path path serve_path (bs "directory_page_path") serve_path with
               | Ok r => Ok r
               | Err e => failed (listing_error_text e)
               end;
    let index_data := base64 (index_json (slash :: relative) exist) in
    let output := str_replace (bs "__INDEX_DATA__") index_data
                    (str_replace (bs "__ASSETS_PREFIX__") (slash :: assets_prefix) index_html) in
    let res := with_header res CONTENT_LENGTH (u64_to_string (blen output)) in
    Ok (with_body res (BytesBody output)).

Definition handle_ls_dir (path : bytes) (exist head_only : bool) (res : Response) : result HandlerError Response :=
  send_index path exist head_only res.

(** Lowercasing a text does not change whether it is empty. *)
Definition handle_search_dir (path : bytes) (q : option bytes) (head_only : bool) (res : Response)
    : result HandlerError Response :=
  match q with
  | None => failed (bs "invalid q")
  | Some q => if beqb q [] then handle_ls_dir path true head_only res else send_index path true head_only res
  end.

(** ** Health *)

Definition send_liveness (head_only : bool) (res : Response) : Response :=
  let res := with_header res CONTENT_TYPE (bs "application/json") in
  let res := with_header res CACHE_CONTROL (bs "no-store") in
  if head_only then res else with_body res (JsonBody (JObject [("status"%string, JString (bs "OK"))])).

Inductive ReadinessStatus := Ready | NotReady | Busy.

Definition render_readiness (res : Response) (head_only : bool) (status : ReadinessStatus) : Response :=
  let ready := match status with Ready => true | _ => false end in
  let res := with_header res CONTENT_TYPE (bs "application/json") in
  let res := with_header res CACHE_CONTROL (bs "no-store") in
  let res := match status with
             | Busy => with_header res RETRY_AFTER (bs "1")
             | _ => with_headers res (remove_header (res_headers res) RETRY_AFTER)
             end in
  let res := with_status res (if ready then 200 else 503) in
  if head_only then res
  else with_body res (JsonBody (JObject
         [("status"%string, JString (if ready then bs "ready" else bs "not_ready"))])).

(** What the probes of the root, of the disk and of the store answered. *)
Record Probes := mkProbes {
  root_probe : result IoError unit;
  (** whether the minimum of free space could be reserved *)
  disk_probe : result IoError bool;
  state_probe : result bytes unit
}.

Definition is_ok {E A} (r : result E A) : bool := match r with Ok _ => true | Err _ => false end.

(** [probes]: nothing when the slot is taken, an error when the task failed. *)
Definition send_readiness (probes : option (result bytes Probes)) (healthy shutdown force_shutdown : bool)
    (head_only : bool) (res : Response) : Response :=
  match probes with
  | None => render_readiness res head_only Busy
  | Some probes =>
      let probes_ready :=
        match probes with
        | Ok p => is_ok (root_probe p) && match disk_probe p with Ok b => b | Err _ => false end
                  && is_ok (state_probe p)
        | Err _ => false
        end in
      let ready := probes_ready && healthy && negb shutdown && negb force_shutdown in
      render_readiness res head_only (if ready then Ready else NotReady)
  end.
End pages.
