(* ===== verification/Router.v ===== *)
(** The boundary of a request ([src/src/server/router.rs] and [RequestProfile] of
    [src/src/server/router/request.rs]).

    [call] classifies a request once, refuses it when the server is stopping,
    runs its handler under the time budget and turns what comes of it, a
    response, an error or nothing in time, into the response that is sent.
    The access log, which takes no part in the answer, is left out, and so is
    the body it wraps.  The handler itself is that of [Dispatch]. *)

From S2P Require Import Prelude Bytes StdPath UuidText Http UploadProtocol Problem Registry UploadHost UploadPipeline.
From S2P Require Import Download WebPages MutationProgress.
From stdpp Require Import base numbers list strings.
Import ErrorCode.

Local Open Scope Z_scope.

(** ** The classification of a request *)

Inductive Method := GET | HEAD | POST | PUT | PATCH | DELETE | OtherMethod (name : bytes).

#[export] Instance Method_eq_dec : EqDecision Method.
Proof. solve_decision. Defined.

Definition BROWSER_API_PREFIX : bytes := bs "__dufs__/api/".
Definition LIST_API_PATH : bytes := bs "__dufs__/api/list".
Definition JOB_STATUS_PREFIX : bytes := bs "__dufs__/api/jobs/".
Definition UPLOAD_PREFLIGHT_API_PATH : bytes := bs "__dufs__/api/upload/preflight".
Definition UPLOAD_DISCARD_API_PATH : bytes := bs "__dufs__/api/upload/discard".

Definition starts_with (p s : bytes) : bool :=
  match str_strip_prefix p s with Some _ => true | None => false end.

Definition is_tracked_browser_mutation (path : bytes) : bool :=
  existsb (beqb path) [bs "__dufs__/api/mkdir"; bs "__dufs__/api/move"; bs "__dufs__/api/rename"].

Definition is_browser_api_endpoint (path : bytes) : bool :=
  is_tracked_browser_mutation path ||
  existsb (beqb path) [UPLOAD_PREFLIGHT_API_PATH; UPLOAD_DISCARD_API_PATH].

Record UploadRequestContext := mkUploadRequestContext {
  urc_id : bytes;
  urc_length : Z;
  urc_offset : option Z
}.

Record RequestProfile := mkProfile {
  rp_public_asset : bool;
  rp_omit_success_log : bool;
  rp_upload : bool;
  rp_internal_api : bool;
  rp_administrator_auth_api : bool;
  rp_upload_context : option UploadRequestContext;
  rp_operation_id : option bytes
}.

(** [.ok().flatten()]. *)
Definition ok_flatten {E A} (r : result E (option A)) : option A :=
  match r with Ok a => a | Err _ => None end.

Section router.
Context `{UuidLib} `{HttpTypes}.
(** [HyperAdministratorRouter::owns_path], and the serialized [ErrorEnvelope] of
    a code and of whether the request may be retried. *)
Context (owns_path : bytes -> bool) (envelope : bytes -> bool -> result Failure bytes).

Definition new_profile (method : Method) (request_path : bytes) (headers : HeaderMap)
    (relative_path : option bytes) (public_asset : bool) : RequestProfile :=
  let upload := bool_decide (method = PUT \/ method = PATCH) in
  let upload_status := bool_decide (method = HEAD) && contains_key headers (bs "x-dufs-upload-id") in
  let tracked_operation :=
    bool_decide (method = DELETE) ||
    (bool_decide (method = POST) &&
     match relative_path with Some path => is_tracked_browser_mutation path | None => false end) in
  let administrator_auth_api := owns_path request_path in
  let internal_api :=
    match relative_path with
    | Some path =>
        beqb path LIST_API_PATH || starts_with BROWSER_API_PREFIX path ||
        starts_with JOB_STATUS_PREFIX path || upload || upload_status || bool_decide (method = DELETE)
    | None => false
    end || administrator_auth_api in
  let upload_context :=
    if upload then
      match ok_flatten (parse_upload_id headers), ok_flatten (parse_upload_length headers) with
      | Some id, Some length =>
          Some (mkUploadRequestContext id length (ok_flatten (parse_upload_offset headers)))
      | _, _ => None
      end
    else None in
  let operation_id := if tracked_operation then ok_flatten (parse_operation_id headers) else None in
  mkProfile public_asset (bool_decide (method = GET) && public_asset) upload internal_api
    administrator_auth_api upload_context operation_id.

(** ** Answers of last resort *)

Definition apply_app_error (res : Response) (error : AppError) : Response :=
  let res := with_status res (app_status error) in
  if beqb (app_public_message error) [] then res else with_body res (BytesBody (app_public_message error)).

Definition status_error (res : Response) (status : Z) (body : bytes) : Response :=
  apply_app_error res (app_public status body).

Definition apply_operation_rejected (res : Response) (id : bytes) (status : Z) (code : ErrorCode)
    (detail : bytes) (recovery : RecoveryAdvice) : result Failure Response :=
  res ← set_operation_headers res id OpRejected;
  render_problem res (operation_problem status code detail recovery id OpRejected None).

Definition apply_operation_failure_before_commit (res : Response) (id : bytes) : result Failure Response :=
  apply_operation_rejected res id 500 OPERATION_NOT_COMMITTED
    (bs "Request failed before filesystem commit; retrying with the same operation ID is safe") Retry.

(** [cell]: the request's [MutationProgress] when it is read. *)
Definition apply_operation_timeout (res : Response) (id : bytes) (cell : Z) : result Failure Response :=
  if MutationProgress.outcome_can_be_unknown cell then
    apply_unknown res id 504 OPERATION_RESULT_UNKNOWN
      (bs "Request timed out after commit dispatch; query the operation status before retrying")
  else
    apply_operation_rejected res id 504 REQUEST_TIMEOUT
      (bs "Request timed out before filesystem commit; retrying with the same operation ID is safe") Retry.

Definition render_upload_problem (res : Response) (status : Z) (code : ErrorCode) (detail : bytes)
    (recovery : RecoveryAdvice) (upload_id : bytes) (upload_length : Z) (upload_offset : option Z)
    (state : UploadPublicState) : result Failure Response :=
  apply_upload_problem (mkErrorContext upload_id state (Some upload_length) upload_offset)
    status code detail recovery res.

Definition api_error_from_app_error (error : AppError) : ApiError :=
  let status := app_status error in
  let code :=
    if status =? 400 then INVALID_REQUEST
    else if status =? 403 then REQUEST_FORBIDDEN
    else if status =? 404 then REQUEST_NOT_FOUND
    else if status =? 409 then REQUEST_CONFLICT
    else if status =? 504 then FILESYSTEM_TIMEOUT
    else if status =? 507 then INSUFFICIENT_STORAGE
    else INTERNAL_ERROR in
  let recovery := if (status =? 504) || (status =? 503) then Retry else NoAdvice in
  with_recovery (new_api_error status code (app_public_message error)) recovery.

(** ** The responses of [call] *)

Definition stopping_text : bytes := bs "Server is shutting down".

Definition stopping_response (profile : RequestProfile) : result Failure Response :=
  let res := default_response in
  match rp_operation_id profile, rp_upload_context profile with
  | Some id, _ =>
      expect (apply_operation_rejected res id 503 SERVER_STOPPING stopping_text (RetryAfterSeconds 1))
  | None, Some upload =>
      expect (apply_upload_problem
        (mkErrorContext (urc_id upload) NotStarted (Some (urc_length upload)) (urc_offset upload))
        503 SERVER_STOPPING stopping_text (RetryAfterSeconds 1) res)
  | None, None =>
      if rp_administrator_auth_api profile then
        expect (render_administrator_auth_error envelope res 503 (bs "service_unavailable") true (Some 1))
      else if rp_internal_api profile then
        expect (render_problem res
          (with_recovery (new_api_error 503 SERVER_STOPPING stopping_text) (RetryAfterSeconds 1)))
      else Ok (status_error res 503 stopping_text)
  end.

Definition timeout_response (profile : RequestProfile) (cell : Z) : result Failure Response :=
  let res := default_response in
  match rp_operation_id profile with
  | Some id => expect (apply_operation_timeout res id cell)
  | None =>
      if rp_administrator_auth_api profile then
        expect (render_administrator_auth_error envelope res 504 (bs "request_timeout") true None)
      else if rp_internal_api profile then
        expect (render_problem res
          (with_recovery (new_api_error 504 REQUEST_TIMEOUT (bs "Request timed out")) Retry))
      else Ok (status_error res 504 (bs "Request timed out"))
  end.

Definition finished_response (profile : RequestProfile) (cell : Z) (res : Response) : result Failure Response :=
  match rp_operation_id profile with
  | Some id =>
      if contains_key (res_headers res) OPERATION_ID_HEADER then Ok res
      else set_operation_headers res id
        (if is_success (res_status res) then OpSucceeded
         else if MutationProgress.outcome_can_be_unknown cell then OpUnknown else OpRejected)
  | None => Ok res
  end.

Definition error_response (profile : RequestProfile) (cell : Z) (source : list Cause) : result Failure Response :=
  let res := default_response in
  let error := from_anyhow source in
  let timed_out := app_status error =? 504 in
  match rp_operation_id profile, rp_upload_context profile with
  | Some id, _ =>
      expect (if MutationProgress.outcome_can_be_unknown cell
              then apply_operation_outcome res id uncertain false
              else apply_operation_failure_before_commit res id)
  | None, Some upload =>
      let respond status code detail recovery state :=
        expect (render_upload_problem res status code detail recovery
          (urc_id upload) (urc_length upload) (urc_offset upload) state) in
      if MutationProgress.outcome_can_be_unknown cell then
        respond (if timed_out then 504 else 500) UPLOAD_RESULT_UNKNOWN
          (bs "Upload result could not be confirmed") QueryUpload Unknown
      else
        respond (if timed_out then 408 else 503) (if timed_out then REQUEST_TIMEOUT else UPLOAD_PRECOMMIT_FAILED)
          (bs "Upload stopped before any upload mutation") Retry NotStarted
  | None, None =>
      if rp_administrator_auth_api profile then
        expect (if timed_out
                then render_administrator_auth_error envelope res 504 (bs "request_timeout") true None
                else render_administrator_auth_error envelope res 500 (bs "internal_error") false None)
      else if rp_internal_api profile then
        expect (render_problem res (api_error_from_app_error error))
      else Ok (apply_app_error res error)
  end.

(** How the handler of a request ends; the time budget does not apply to
    uploads, which have a deadline of their own. *)
Inductive Handled :=
| NotEntered
| OutOfTime
| Handled_ (r : result (list Cause) Response).

Definition run_handler (profile : RequestProfile) (entered out_of_time : bool)
    (r : result (list Cause) Response) : Handled :=
  if negb entered then NotEntered
  else if rp_upload profile then Handled_ r
  else if out_of_time then OutOfTime else Handled_ r.

Definition call (profile : RequestProfile) (handled : Handled) (cell : Z) : result Failure Response :=
  match handled with
  | NotEntered => res ← stopping_response profile; Ok (set_private_no_store res)
  | OutOfTime => res ← timeout_response profile cell; Ok (set_private_no_store res)
  | Handled_ (Ok res) =>
      res ← finished_response profile cell res;
      if rp_public_asset profile && (res_status res =? 200) then Ok res else Ok (set_private_no_store res)
  | Handled_ (Err source) => res ← error_response profile cell source; Ok (set_private_no_store res)
  end.
End router.

(** ** Facts *)

(** No shared cache may store the response. *)
Definition private `{HttpTypes} (res : Response) : Prop := header res CACHE_CONTROL = [bs "private, no-store"].

Section facts.
Context `{UuidLaws} `{HttpTypesLaws} (owns_path : bytes -> bool) (envelope : bytes -> bool -> result Failure bytes).

Lemma no_store_private res : private (set_private_no_store res).
Proof. apply header_with_header. Qed.

Lemma no_store_identifies res id state : identifies res id state -> identifies (set_private_no_store res) id state.
Proof.
  unfold identifies, parse_operation_id, set_private_no_store, header. cbn.
  by rewrite !get_all_insert_ne by (vm_compute; congruence).
Qed.

Lemma expect_Ok {E A} (r : result E A) a : r = Ok a -> expect r = Ok a.
Proof. by intros ->. Qed.

(** The identifiers of a profile are canonical. *)
Lemma operation_id_length headers id : ok_flatten (parse_operation_id headers) = Some id -> blen id = 16.
Proof.
  unfold parse_operation_id. destruct (get_all headers _) as [|v [|]]; try done.
  destruct (to_str v) as [s|]; [|done]. cbn. destruct (parse_canonical_operation_id s) as [i|] eqn:E; [|done].
  intros [= <-]. unfold parse_canonical_operation_id in E. destruct (uuid_parse_str s) as [i'|] eqn:Ep; [|done].
  cbn in E. destruct (beqb _ _); [|done]. injection E as <-. by eapply uuid_parse_length.
Qed.

Lemma upload_id_length headers id : ok_flatten (parse_upload_id headers) = Some id -> blen id = 16.
Proof.
  unfold parse_upload_id, unique_upload_header. destruct (get_all headers _) as [|v [|]]; try done. cbn.
  destruct (to_str v) as [s|]; [|done]. cbn. destruct (_ || _); [done|].
  destruct (uuid_parse_str s) as [i|] eqn:E; [|done]. intros [= <-]. by eapply uuid_parse_length.
Qed.

Lemma upload_number_range headers name :
  number_in_range (ok_flatten (parse_upload_number headers name)).
Proof.
  destruct (parse_upload_number headers name) as [[n|]|] eqn:E; cbn; try done.
  apply parse_upload_number_Ok in E as (v & _ & _ & ?). done.
Qed.

(** A rejected operation, identified. *)
Lemma rejected_identifies res id status code detail recovery :
  blen id = 16 -> (forall s, retry_after_seconds recovery = Some s -> u64_range s) ->
  exists res', apply_operation_rejected res id status code detail recovery = Ok res' /\ identifies res' id OpRejected.
Proof.
  intros Hid Hs. destruct (problem_response res id OpRejected status code detail recovery None Hid Hs)
    as (res' & ? & _ & ?). eauto.
Qed.

(** The response tells the client which upload it is about and its state. *)
Definition tells_upload (res : Response) (id : bytes) (state : UploadPublicState) : Prop :=
  parse_upload_id (res_headers res) = Ok (Some id) /\
  header res OPERATION_STATE_HEADER = [wire_name state].

Lemma no_store_tells res id state : tells_upload res id state -> tells_upload (set_private_no_store res) id state.
Proof.
  unfold tells_upload, parse_upload_id, unique_upload_header, set_private_no_store, header. cbn.
  by rewrite !get_all_insert_ne by (vm_compute; congruence).
Qed.

Lemma upload_problem_tells context status code detail recovery :
  blen (ec_upload_id context) = 16 -> number_in_range (ec_upload_length context) ->
  number_in_range (ec_upload_offset context) ->
  (forall s, retry_after_seconds recovery = Some s -> u64_range s) ->
  exists res, apply_upload_problem context status code detail recovery default_response = Ok res /\
    tells_upload res (ec_upload_id context) (ec_state context).
Proof.
  intros Hid Hl Ho Hs. unfold apply_upload_problem. set (e := with_upload _ _).
  destruct (render_problem_ok default_response e) as (r & document & -> & _ & _ & _ & Hk & _);
    [unfold e; auto with dufs|exact Hs|]. cbn [mbind result_bind].
  edestruct (upload_record_headers_roundtrip (res_headers r)) as (h & -> & Hi & _ & _ & Hst);
    [exact Hid|exact Hl|exact Ho|..].
  1-2: change (get_all (res_headers r) ?k) with (header r k); rewrite Hk by (vm_compute; congruence);
    apply get_all_empty.
  eexists. split; [done|]. split; [exact Hi|exact Hst].
Qed.

Lemma auth_error_renders res status code retryable retry_after :
  (forall code retryable, exists body, envelope code retryable = Ok body) -> number_in_range retry_after ->
  exists res', render_administrator_auth_error envelope res status code retryable retry_after = Ok res'.
Proof.
  intros He Hr. unfold render_administrator_auth_error. destruct (He code retryable) as [body ->]. cbn.
  destruct retry_after as [n|]; [|by eexists]. rewrite set_header_visible by by apply u64_to_string_visible.
  by eexists.
Qed.

Lemma problem_renders res e :
  built e -> (forall s, retry_after_seconds (ae_recovery e) = Some s -> u64_range s) ->
  exists res', render_problem res e = Ok res'.
Proof. intros Hb Hs. destruct (render_problem_ok res e Hb Hs) as (res' & _ & ? & _). eauto. Qed.

(** What an operation is told, and when it may be told so. *)
Definition honest (handled : Handled) (cell : Z) (state : OperationPublicState) : Prop :=
  match state with
  | OpSucceeded => exists r, handled = Handled_ (Ok r) /\ is_success (res_status r) = true
  | OpUnknown => cell = MutationProgress.DETACHED_COMMIT
  | OpRejected => handled = NotEntered \/ cell <> MutationProgress.DETACHED_COMMIT
  | _ => False
  end.

Lemma outcome_cases cell :
  if MutationProgress.outcome_can_be_unknown cell
  then cell = MutationProgress.DETACHED_COMMIT else cell <> MutationProgress.DETACHED_COMMIT.
Proof. unfold MutationProgress.outcome_can_be_unknown. by destruct (Z.eqb_spec cell MutationProgress.DETACHED_COMMIT). Qed.

Lemma settled (m : result Failure Response) id state handled cell :
  (exists res, m = Ok res /\ identifies res id state) -> honest handled cell state ->
  exists res, (res ← expect m; Ok (set_private_no_store res)) = Ok res /\
    (True -> exists state, identifies res id state /\ honest handled cell state).
Proof.
  intros (res & -> & Hi) Hh. eexists. split; [done|]. intros _. exists state. split; [by apply no_store_identifies|done].
Qed.

Lemma operation_answered profile handled cell id :
  rp_operation_id profile = Some id -> blen id = 16 ->
  exists res, call envelope profile handled cell = Ok res /\
    (match handled with
     | Handled_ (Ok r) => contains_key (res_headers r) OPERATION_ID_HEADER = false
     | _ => True
     end -> exists state, identifies res id state /\ honest handled cell state).
Proof.
  intros Hp Hid. pose proof (outcome_cases cell) as Hc. unfold call, stopping_response, timeout_response,
    finished_response, error_response, apply_operation_timeout, apply_operation_failure_before_commit. rewrite Hp.
  destruct handled as [| |[r|source]].
  - eapply settled; [apply rejected_identifies; [done|apply retry_one]|by left].
  - destruct (MutationProgress.outcome_can_be_unknown cell).
    + eapply (settled _ _ OpUnknown); [|done]. unfold apply_unknown.
      edestruct (problem_response default_response id OpUnknown) as (res & -> & _ & Hi); [done|done|eauto].
    + eapply settled; [by apply rejected_identifies|by right].
  - destruct (contains_key _ _) eqn:Ek; [cbn; by destruct (_ && _); eexists|].
    set (st := if is_success (res_status r) then OpSucceeded else _).
    destruct (set_operation_headers_ok r id st Hid) as (res & -> & Hs & _ & Hi & Hst). cbn [mbind result_bind].
    assert (Hid' : identifies res id st) by by apply identifies_headers.
    assert (Hh : honest (Handled_ (Ok r)) cell st).
    { unfold st. destruct (is_success (res_status r)) eqn:Es; [by exists r|].
      destruct (MutationProgress.outcome_can_be_unknown cell); [done|by right]. }
    destruct (_ && _); eexists; (split; [done|]); intros _; exists st;
      (split; [|done]); [done|by apply no_store_identifies].
  - destruct (MutationProgress.outcome_can_be_unknown cell).
    + eapply (settled _ _ OpUnknown); [|done].
      destruct (apply_operation_outcome_ok default_response id uncertain false Hid) as (res & -> & _ & Hi). eauto.
    + eapply settled; [by apply rejected_identifies|by right].
Qed.

(** Uploads that fail before or outside their pipeline. *)
Lemma upload_answered profile handled cell u :
  rp_operation_id profile = None -> rp_upload_context profile = Some u -> rp_upload profile = true ->
  blen (urc_id u) = 16 -> u64_range (urc_length u) -> number_in_range (urc_offset u) ->
  match handled with NotEntered => True | OutOfTime => False | Handled_ r => exists source, r = Err source end ->
  exists res state, call envelope profile handled cell = Ok res /\ tells_upload res (urc_id u) state /\
    match state with
    | NotStarted => handled = NotEntered \/ cell <> MutationProgress.DETACHED_COMMIT
    | Unknown => cell = MutationProgress.DETACHED_COMMIT
    | _ => False
    end.
Proof.
  intros Ho Hu Hup Hid Hl Hoff Hh. pose proof (outcome_cases cell) as Hc.
  assert (Htell : forall state status code detail recovery,
    (forall s, retry_after_seconds recovery = Some s -> u64_range s) ->
    exists res, (res ← expect (apply_upload_problem (mkErrorContext (urc_id u) state (Some (urc_length u))
        (urc_offset u)) status code detail recovery default_response); Ok (set_private_no_store res)) = Ok res /\
      tells_upload res (urc_id u) state).
  { intros. edestruct upload_problem_tells as (res & -> & Ht); [| | | |]; try done. cbn.
    eexists. split; [done|]. by apply no_store_tells. }
  unfold call, stopping_response, error_response, render_upload_problem. rewrite Ho, Hu.
  destruct handled as [| |r]; [|done|destruct Hh as [source ->]].
  - edestruct (Htell NotStarted) as (res & -> & Ht); [apply retry_one|]. exists res, NotStarted. eauto.
  - destruct (MutationProgress.outcome_can_be_unknown cell).
    + edestruct (Htell Unknown) as (res & -> & Ht); [|exists res, Unknown; eauto]. done.
    + edestruct (Htell NotStarted) as (res & -> & Ht); [|exists res, NotStarted; eauto]. done.
Qed.

(** Any other request is answered, too. *)
Lemma plain_answered profile handled cell :
  (forall code retryable, exists body, envelope code retryable = Ok body) ->
  rp_operation_id profile = None ->
  (rp_upload_context profile = None \/ exists r, handled = OutOfTime \/ handled = Handled_ (Ok r)) ->
  exists res, call envelope profile handled cell = Ok res.
Proof.
  intros He Ho Hu. unfold call, stopping_response, timeout_response, finished_response, error_response.
  rewrite Ho.
  assert (Hauth : forall status code retryable retry_after, number_in_range retry_after ->
    exists res, (res ← expect (render_administrator_auth_error envelope default_response status code retryable
      retry_after); Ok (set_private_no_store res)) = Ok res).
  { intros st code b ra Hr. destruct (auth_error_renders default_response st code b ra He Hr) as [res ->]. by eexists. }
  assert (Hprob : forall e, built e -> (forall s, retry_after_seconds (ae_recovery e) = Some s -> u64_range s) ->
    exists res, (res ← expect (render_problem default_response e); Ok (set_private_no_store res)) = Ok res).
  { intros e Hb Hs. destruct (problem_renders default_response e Hb Hs) as [res ->]. by eexists. }
  destruct handled as [| |[r|source]].
  - destruct Hu as [->|(? & [?|?])]; [|done..].
    destruct (rp_administrator_auth_api profile); [by apply Hauth|].
    destruct (rp_internal_api profile); [|by eexists]. apply Hprob; [auto with dufs|apply retry_one].
  - destruct (rp_administrator_auth_api profile); [by apply Hauth|].
    destruct (rp_internal_api profile); [|by eexists]. apply Hprob; [auto with dufs|done].
  - cbn. destruct (_ && _); by eexists.
  - destruct Hu as [->|(? & [?|?])]; [|done..].
    destruct (rp_administrator_auth_api profile); [destruct (_ =? 504); by apply Hauth|].
    destruct (rp_internal_api profile); [|by eexists]. apply Hprob; unfold api_error_from_app_error; [auto with dufs|].
    cbn. by destruct (_ || _).
Qed.

Lemma call_private profile handled cell res :
  call envelope profile handled cell = Ok res ->
  private res \/ exists r, handled = Handled_ (Ok r) /\ res_status res = 200 /\ rp_public_asset profile = true.
Proof.
  unfold call. destruct handled as [| |[r|source]]; intros H3; apply bind_Ok in H3 as (x & Hx & E).
  1, 2, 4: injection E as <-; left; apply no_store_private.
  destruct (rp_public_asset profile && _) eqn:Eb; injection E as <-; [right|left; apply no_store_private].
  apply andb_true_iff in Eb as [? ?%Z.eqb_eq]. eauto.
Qed.

(** A response that the handler labelled itself is passed on. *)
Lemma call_forwards profile r cell res :
  call envelope profile (Handled_ (Ok r)) cell = Ok res ->
  rp_operation_id profile = None \/ contains_key (res_headers r) OPERATION_ID_HEADER = true ->
  res = r \/ res = set_private_no_store r.
Proof.
  intros Hc Hr. assert (finished_response profile cell r = Ok r) as Hf.
  { unfold finished_response. destruct (rp_operation_id profile); [|done]. destruct Hr as [|Hr]; [done|by rewrite Hr]. }
  unfold call in Hc. rewrite Hf in Hc. cbn in Hc. destruct (_ && _); injection Hc as <-; auto.
Qed.

Lemma profile_operation method request_path headers relative_path public_asset id :
  rp_operation_id (new_profile owns_path method request_path headers relative_path public_asset) = Some id ->
  blen id = 16.
Proof. cbn. destruct (_ || _); [apply operation_id_length|done]. Qed.

Lemma profile_upload method request_path headers relative_path public_asset u :
  let profile := new_profile owns_path method request_path headers relative_path public_asset in
  rp_upload_context profile = Some u ->
  rp_operation_id profile = None /\ rp_upload profile = true /\ blen (urc_id u) = 16 /\
  u64_range (urc_length u) /\ number_in_range (urc_offset u).
Proof.
  cbn. case_bool_decide as Hm; [|done].
  pose proof (upload_number_range headers UPLOAD_LENGTH_HEADER) as Hl.
  pose proof (upload_number_range headers UPLOAD_OFFSET_HEADER) as Ho.
  destruct (ok_flatten (parse_upload_id headers)) as [id|] eqn:Ei; [|done].
  unfold parse_upload_length. destruct (ok_flatten (parse_upload_number headers UPLOAD_LENGTH_HEADER)) as [n|]; [|done].
  intros [= <-]. split; [by destruct Hm as [-> | ->]|]. split; [done|]. split; [by eapply upload_id_length|]. done.
Qed.
End facts.

(** C16: Every request is answered, and what the router itself says about an
    operation or an upload claims no more than the router knows.  A response may
    be stored by shared caches only when it is an embedded asset.  A tracked
    operation whose handler did not label its response with the identifier - it
    failed, ran out of time, never ran, or left the label to the router - learns
    its identifier and its state from the headers: [succeeded] only with the
    success status of its handler, [unknown] only when a commit may be under way,
    and [rejected], after which a retry is promised to be safe, only when the
    server never let the request in or its commit had not been dispatched.  An
    upload whose handler fails or never runs learns in the same way whether its
    mutation was never started or is unknown.  Any other response of a handler - a
    labelled one, the response of an upload that ended in good order, or that of a
    request that is not tracked - is passed on as it is, but for the header that
    keeps it out of shared caches: its state is the handler's claim. *)
Theorem requests_are_answered_honestly `{UuidLaws} `{HttpTypesLaws} owns_path envelope
    method request_path headers relative_path public_asset entered out_of_time r cell :
  (forall code retryable, exists body, envelope code retryable = Ok body) ->
  let profile := new_profile owns_path method request_path headers relative_path public_asset in
  let handled := run_handler profile entered out_of_time r in
  exists res, call envelope profile handled cell = Ok res /\
    (private res \/ exists r, handled = Handled_ (Ok r) /\ res_status res = 200 /\ public_asset = true) /\
    (forall id, rp_operation_id profile = Some id ->
       match handled with
       | Handled_ (Ok r) => contains_key (res_headers r) OPERATION_ID_HEADER = false
       | _ => True
       end ->
       exists state, identifies res id state /\ honest handled cell state) /\
    (forall upload, rp_upload_context profile = Some upload ->
       match handled with Handled_ (Ok _) => False | _ => True end ->
       exists state, tells_upload res (urc_id upload) state /\
         match state with
         | NotStarted => handled = NotEntered \/ cell <> MutationProgress.DETACHED_COMMIT
         | Unknown => cell = MutationProgress.DETACHED_COMMIT
         | _ => False
         end) /\
    (forall r, handled = Handled_ (Ok r) ->
       rp_operation_id profile = None \/ contains_key (res_headers r) OPERATION_ID_HEADER = true ->
       res = r \/ res = set_private_no_store r).
Proof.
  intros He profile handled.
  pose proof (profile_operation owns_path method request_path headers relative_path public_asset) as Hop.
  pose proof (profile_upload owns_path method request_path headers relative_path public_asset) as Hup.
  fold profile in Hop, Hup. cbv zeta in Hup.
  assert (Hpriv : forall res, call envelope profile handled cell = Ok res ->
    private res \/ exists r, handled = Handled_ (Ok r) /\ res_status res = 200 /\ public_asset = true).
  { intros res. apply (call_private envelope profile). }
  assert (Hfw : forall res, call envelope profile handled cell = Ok res -> forall r, handled = Handled_ (Ok r) ->
    rp_operation_id profile = None \/ contains_key (res_headers r) OPERATION_ID_HEADER = true ->
    res = r \/ res = set_private_no_store r).
  { intros res Hc x Hx. rewrite Hx in Hc. by apply (call_forwards envelope profile x cell). }
  clearbody profile.
  destruct (rp_operation_id profile) as [id|] eqn:Eop.
  - destruct (operation_answered envelope profile handled cell id Eop (Hop id eq_refl)) as (res & Hres & Hid).
    exists res. split; [done|]. split; [by apply Hpriv|]. split; [by intros ? [= <-]|].
    split; [intros u Hu; destruct (Hup u Hu); congruence|by apply Hfw].
  - destruct (rp_upload_context profile) as [u|] eqn:Eu.
    + destruct (Hup u eq_refl) as (_ & Hupl & Hid & Hl & Ho).
      assert (handled = OutOfTime -> False) as Hno.
      { unfold handled, run_handler. rewrite Hupl. by destruct (negb entered). }
      destruct handled as [| |[x|source]] eqn:Eh.
      2: by destruct Hno.
      2: { destruct (plain_answered envelope profile (Handled_ (Ok x)) cell) as [res Hres]; [done|done|eauto|].
           exists res. split; [done|]. split; [by apply Hpriv|]. split; [done|]. split; [by intros|by apply Hfw]. }
      all: match goal with |- context [call _ _ ?h _] =>
             destruct (upload_answered envelope profile h cell u) as (res & st & Hres & Ht & Hst); [eauto..|] end;
        exists res; (split; [exact Hres|]); (split; [by apply Hpriv|]); (split; [done|]); (split; [intros ? [= <-] _; by exists st|by apply Hfw]).
    + destruct (plain_answered envelope profile handled cell) as [res Hres]; [done|done|by left|].
      exists res. split; [done|]. split; [by apply Hpriv|]. split; [done|]. split; [done|by apply Hfw].
Qed.

Lemma requests_are_answered_honestly_witness :
  exists res,
    @call hex_uuid list_http (λ _ _, Ok [])
      (@new_profile hex_uuid list_http (λ _, false) DELETE (bs "/notes")
         [(OPERATION_ID_HEADER, @uuid_to_string hex_uuid (be_bytes 16 5))] (Some (bs "notes")) false)
      OutOfTime MutationProgress.DETACHED_COMMIT = Ok res /\
    @header list_http res OPERATION_STATE_HEADER = [bs "unknown"].
Proof.
  edestruct (@requests_are_answered_honestly hex_uuid hex_uuid_laws list_http list_http_laws (λ _, false)
    (λ _ _, Ok []) DELETE (bs "/notes") [(OPERATION_ID_HEADER, @uuid_to_string hex_uuid (be_bytes 16 5))]
    (Some (bs "notes")) false true true (Err []) MutationProgress.DETACHED_COMMIT) as (res & Hr & _ & Ho & _).
  - intros code retryable. exists []. reflexivity.
  - exists res. split; [exact Hr|]. vm_compute in Hr. injection Hr as <-. reflexivity.
Defined.
