(* ===== verification/RequestHost.v ===== *)
(** What the request dispatcher works with: the handlers' interactions, the
    administration platform that authenticates a request, the slots and the
    deadline of an upload, and the caches of the listing.

    As for the handlers, the answers are those of a parameter and every
    interaction is logged.  Slots and leases that a request owns are given up
    when it ends; the releases of path leases are logged where a handler does
    them itself. *)

From S2P Require Import Prelude Bytes StoreModel Http UuidText Problem Registry Revisions Listing ListSnapshots ListApi RootedOs RootedFs.
From S2P Require Import ServerHost UploadHost Download WebPages.
From stdpp Require Import base numbers list strings.

Local Open Scope Z_scope.

Inductive RequestEvent :=
| OfServer (event : ServerEvent)
| OfUpload (event : UploadEvent)
| OfDownload (event : DownloadEvent)
(** [HyperAdministratorRouter::handle_incoming] *)
| Administrate
(** [authenticate_request]: the name of the account *)
| Authenticate (account : option bytes)
(** [readiness_probe_slots], and what is asked besides the root: whether the
    minimum of free space can be reserved, whether the state store can be written
    ([StateStore::probe_readiness]), whether the task of the probes failed, and
    whether the server is healthy or shutting down *)
| ReadinessSlot (answer : bool)
| ProbeSpace (answer : result IoError bool)
| ProbeStore (answer : result bytes unit)
| ProbesJoined (answer : option bytes)
| ServerHealth (healthy shutdown force_shutdown : bool)
(** [OperationRegistry::status] *)
| QueryStatus (key : OperationKey) (answer : result bytes OperationStatus)
(** the snapshot cache of the listing, taken and put back *)
| TakeListing
| PutListing
(** [upload_preflight_slots] and [upload_slots] *)
| PreflightSlot (answer : bool)
| UploadSlot (answer : bool)
(** [acquire_request_path_lease] of an upload; [None]: its deadline passed *)
| UploadLease (path : bytes) (answer : option (option Z))
(** whether the target was inspected before the deadline *)
| InspectedInTime (answer : bool)
(** [has_persisted_path_descendant]; [None]: the deadline passed *)
| ScanDescendants (path : bytes) (answer : option (result bytes bool))
(** [MutationProgress::mark_reserved] *)
| MarkReserved
(** whether the upload's task ended before the deadline, and
    [cancel_upload_before_mutation] when it did not *)
| UploadInTime (answer : bool)
| CancelUpload (answer : bool).

(** What a listing request finds: a free slot, the clock, randomness and the
    error of a failed worker. *)
Record ListingInput := mkListingInput {
  li_slot_free : bool;
  li_now : Z;
  li_randoms : list (option (bytes * bytes));
  li_join_error : bytes;
  li_store : ListSnapshotStore
}.

Class RequestHost `{HttpTypes} (Env : Type) := {
  rh_administrate : Env -> result Failure Response * Env;
  (** the account, or the response of the platform *)
  rh_authenticate : Env -> result (result Failure Response) bytes * Env;
  rh_readiness_slot : Env -> bool * Env;
  rh_probe_space : Env -> result IoError bool * Env;
  rh_probe_store : Env -> result bytes unit * Env;
  rh_probes_joined : Env -> option bytes * Env;
  rh_health : Env -> (bool * bool * bool) * Env;
  rh_status : OperationKey -> Env -> result bytes OperationStatus * Env;
  rh_take_listing : Env -> ListingInput * Env;
  rh_put_listing : ListSnapshotStore -> Env -> unit * Env;
  rh_preflight_slot : Env -> bool * Env;
  rh_upload_slot : Env -> bool * Env;
  rh_upload_lease : bytes -> Env -> option (option Z) * Env;
  rh_inspected_in_time : Env -> bool * Env;
  rh_scan_descendants : bytes -> Env -> option (result bytes bool) * Env;
  rh_mark_reserved : Env -> unit * Env;
  rh_upload_in_time : Env -> bool * Env;
  rh_cancel_upload : Env -> bool * Env
}.

Abbreviation Req := (Prog RequestEvent).

Inductive RequestError :=
| ReqHandler (error : HandlerError)
| ReqUpload (error : UploadError)
| ReqList (error : ApiFailure).

Definition req_fail {A} (r : result Failure A) : result RequestError A :=
  match r with Ok a => Ok a | Err f => Err (ReqHandler (HandlerFail f)) end.
Definition req_io {A} (r : result IoError A) : result RequestError A :=
  match r with Ok a => Ok a | Err e => Err (ReqHandler (HandlerIo e)) end.
Definition req_handler {A} (r : result HandlerError A) : result RequestError A :=
  match r with Ok a => Ok a | Err e => Err (ReqHandler e) end.

Section host.
Context `{HttpTypes} {Env : Type} `{Os Env} `{Host Env} `{UploadHost Env} `{DownloadHost Env} `{!RequestHost Env}.

(** The parts of a request. *)
Definition server {A} (m : Srv Env A) : Req Env A := lifted OfServer m.
Definition upload {A} (m : Up Env A) : Req Env A := lifted OfUpload m.
Definition download {A} (m : Dl Env A) : Req Env A := lifted OfDownload m.
Definition req_kernel {A} (m : Sys Env A) : Req Env A := server (kernel m).

(** A handler of an upload, as a request that writes the response. *)
Definition upload_handler {A} (m : Handler Env A) (res : Response) : Req Env (result RequestError Response) :=
  do (r, res) <- upload (m res);
  ret (match r with Ok _ => Ok res | Err e => Err (ReqUpload e) end).
End host.

(** ** Phases *)

(** A phase of the dispatcher answers the request or lets it go on.  The
    response is untouched while it goes on. *)
Inductive Phase `{HttpTypes} (A : Type) := Complete (res : Response) | Continue (a : A).
Arguments Complete {_ A}.
Arguments Continue {_ A}.

Section phases.
Context `{HttpTypes} {Env : Type}.

Abbreviation Step A := (Req Env (result RequestError (Phase A))).

Definition then_phase {A B} (m : Step A) (k : A -> Step B) : Step B :=
  attempt p <- m;
  match p with Complete res => ok (Complete res) | Continue a => k a end.

(** The response of a request that is answered. *)
Definition answer {A} (r : result Failure Response) : Step A :=
  ret (match req_fail r with Ok res => Ok (Complete res) | Err e => Err e end).
Definition answered_by {A} (m : Req Env (result RequestError Response)) : Step A :=
  attempt res <- m; ok (Complete res).
Definition go {A} (a : A) : Step A := ok (Continue a).
End phases.

Notation "'phase' x <- m ; k" := (then_phase m (λ x, k))
  (at level 100, x pattern, m at level 100, k at level 200, right associativity) : os_scope.

(** ** Facts *)

Section facts.
Context `{HttpTypes} {Env : Type}.

Lemma emits_then_phase P {A B} (m : Req Env (result RequestError (Phase A))) (k : A -> Req Env (result RequestError (Phase B))) :
  emits P m -> (forall a, emits P (k a)) -> emits P (then_phase m k).
Proof. intros Hm Hk. apply emits_bind_ok; [done|]. intros [res|a]; [apply emits_ret|apply Hk]. Qed.

Lemma spec_then_phase {A B} (m : Req Env (result RequestError (Phase A))) (k : A -> Req Env (result RequestError (Phase B))) P Q :
  spec m P ->
  (forall a l, P (Ok (Continue a)) l -> spec (k a) (λ r l', Q r (l ++ l'))) ->
  (forall res l, P (Ok (Complete res)) l -> Q (Ok (Complete res)) l) ->
  (forall e l, P (Err e) l -> Q (Err e) l) ->
  spec (then_phase m k) Q.
Proof.
  intros Hm Hk Hc He. eapply spec_bind_ok; [exact Hm| |done]. intros [res|a] l Hl; [|by apply Hk].
  apply spec_ret. rewrite app_nil_r. auto.
Qed.
End facts.
