(* ===== verification/UploadApi.v ===== *)
(** The two upload endpoints of the browser API
    ([src/src/server/browser_api.rs]: [handle_upload_preflight] and
    [handle_upload_discard]) with the probes of a target they share with the
    dispatcher ([route_metadata] of [src/src/server.rs]). *)

From S2P Require Import Prelude Bytes StdPath StoreModel UuidText InternalNames PathPolicy Http UploadProtocol Problem Registry Revisions Listing.
From S2P Require Import RootedOs RootedFs RootedFsSafety ServerHost BrowserApi BrowserApiFacts UploadHost UploadPrepare Download RequestHost.
From stdpp Require Import base numbers list strings sets.
Import ErrorCode.

Local Open Scope Z_scope.

Definition API_BODY_LIMIT : Z := 16 * 1024.
Definition UPLOAD_PREFLIGHT_BODY_LIMIT : Z := 2 * 1024 * 1024.
Definition UPLOAD_PREFLIGHT_PATH_LIMIT : Z := 512.
Definition UPLOAD_PREFLIGHT_PATH_BYTES_LIMIT : Z := 256 * 1024.
Definition NAMETOOLONG : Errno := 36.

Record UploadPreflightTarget := mkPreflightTarget {
  pt_path : bytes;
  pt_exists : bool;
  pt_revision : option bytes;
  pt_replaceable : bool
}.

Record UploadDiscardRequest := mkDiscard { ds_path : bytes; ds_upload_id : bytes }.

(** [serde_json]. *)
Class UploadCodec := {
  preflight_of_json : bytes -> option (list bytes);
  discard_of_json : bytes -> option UploadDiscardRequest
}.

Definition raw_error (e : IoError) (code : Errno) : bool := bool_decide (io_raw_os_error e = Some code).

Definition is_invalid_preflight_path_error (e : IoError) : bool := raw_error e LOOP || raw_error e NAMETOOLONG.

(** ** Probes *)

Section probes.
Context {Env : Type} `{Os Env} (fs : RootedFs) (serve_path : bytes).

(** [route_metadata]: what a path leads to, without leaving the tree. *)
Definition route_metadata (path : bytes) : Io Env (option Metadata) :=
  do found <- metadata_blocking fs path;
  match found with
  | Ok metadata => ok (Some metadata)
  | Err error =>
      if bool_decide (io_kind error = NotFound) || raw_error error LOOP then
        do fallback <- metadata_nofollow fs path;
        match fallback with
        | Ok metadata => ok (Some metadata)
        | Err fallback => if missing_kind fallback then ok None else fail fallback
        end
      else if raw_error error XDEV then ok None
      else if bool_decide (io_kind error = NotADirectory) then ok None
      else fail error
  end.

Definition missing_or_loop (e : IoError) : bool := missing_kind e || raw_error e LOOP.

(** The ancestors of a path, nearest first, until one decides. *)
Fixpoint untraversable_ancestor (fuel : nat) (ancestor : option bytes) : Io Env bool :=
  match fuel, ancestor with
  | S fuel, Some current =>
      let next := if path_eqb current serve_path then ok true
                  else untraversable_ancestor fuel (path_parent current) in
      do found <- metadata_blocking fs current;
      match found with
      | Ok metadata => ok (negb (md_is_dir metadata))
      | Err error =>
          if missing_or_loop error then
            do fallback <- metadata_nofollow fs current;
            match fallback with
            | Ok _ => ok true
            | Err fallback =>
                if missing_or_loop fallback then next
                else if raw_error fallback XDEV then ok true
                else fail fallback
            end
          else if raw_error error XDEV then ok true
          else fail error
      end
  | _, _ => ok true
  end.

(** One more than the number of ancestors. *)
Definition upload_preflight_has_untraversable_ancestor (path : bytes) : Io Env bool :=
  untraversable_ancestor (S (length path)) (path_parent path).
End probes.

(** ** The endpoints *)

Section endpoints.
Context `{HttpTypes} {Env : Type} `{Os Env} `{FileOs Env} `{Host Env} `{UploadHost Env} `{!RequestHost Env}.
Context `{UuidLib} `{RequestCodec} `{UploadCodec} (json_text : Json -> bytes).
Context (sha256 : bytes -> bytes) (to_string_lossy : bytes -> bytes) (room : nat -> bool) (fs : RootedFs)
  (policy : PathPolicy) (cleanup : option IoError).

Definition status_problem (res : Response) (status : Z) (code : ErrorCode) (message : string) : result Failure Response :=
  status_api_error res status code (bs message) None.

(** [collect_untracked_api_body]. *)
Definition collect_untracked_api_body (headers : HeaderMap) (body : BodyRead) : result (result Failure Response) bytes :=
  let res := default_response in
  if negb (request_content_type_is headers (bs "application/json")) then
    Err (status_problem res 415 UNSUPPORTED_MEDIA_TYPE "Content-Type must be application/json")
  else
    match body with
    | BodyBytes b => Ok b
    | BodyTooLarge => Err (status_problem res 413 REQUEST_BODY_TOO_LARGE "Request body too large")
    | BodyBroken => Err (status_problem res 400 INVALID_REQUEST_BODY "Invalid request body")
    end.

Definition write_json_response (res : Response) (value : Json) : Response :=
  let res := with_header res CONTENT_TYPE (bs "application/json") in
  let res := with_header res CONTENT_LENGTH (u64_to_string (blen (json_text value))) in
  let res := with_header res CACHE_CONTROL (bs "no-store") in
  with_body res (JsonBody value).

Definition target_json (t : UploadPreflightTarget) : Json :=
  JObject [("path"%string, JString (pt_path t)); ("exists"%string, JBool (pt_exists t));
           ("revision"%string, match pt_revision t with Some r => JString r | None => JNull end);
           ("replaceable"%string, JBool (pt_replaceable t))].

(** The loop over the paths before anything is touched: the error, if any. *)
Fixpoint check_paths (total : Z) (seen paths : list bytes) : option (Z * ErrorCode * string) :=
  match paths with
  | [] => None
  | path :: paths =>
      let total := total + blen path in
      if UPLOAD_PREFLIGHT_PATH_BYTES_LIMIT <? total
      then Some (413, REQUEST_BODY_TOO_LARGE, "Upload preflight paths exceed the 256 KiB limit"%string)
      else if bool_decide (path ∈ seen)
      then Some (400, INVALID_REQUEST, "Upload preflight paths must be unique"%string)
      else check_paths total (path :: seen) paths
  end.

Definition preflight_invalid {A} : Req Env (result RequestError (Phase A)) :=
  answer (status_problem default_response 400 INVALID_PATH "Upload preflight contains an invalid path").

(** A probe whose symlink loops and overlong names are [fallback]. *)
Definition or_invalid {A} (r : result IoError A) (fallback : A) : result IoError A :=
  match r with
  | Ok a => Ok a
  | Err e => if is_invalid_preflight_path_error e then Ok fallback else Err e
  end.

Definition preflight_target (owner logical_path : bytes) : Req Env (result RequestError (Phase UploadPreflightTarget)) :=
  match parse_browser_target policy logical_path with
  | None => preflight_invalid
  | Some path =>
      do found <- req_kernel (route_metadata fs path);
      match found with
      | Err e => if is_invalid_preflight_path_error e then preflight_invalid else fail (ReqHandler (HandlerIo e))
      | Ok metadata =>
          let target_exists := match metadata with Some _ => true | None => false end in
          do untraversable <- req_kernel
            (upload_preflight_has_untraversable_ancestor fs (root policy) path);
          attempt untraversable <- ret (req_io (or_invalid untraversable true));
          attempt escapes <-
            (if target_exists then ok false
             else do escapes <- req_kernel (guard_root_contained fs path);
                  ret (req_io (or_invalid escapes true)));
          if (untraversable || escapes)%bool then preflight_invalid
          else
            do inspected <- upload (inspect_upload_target sha256 fs owner path);
            match inspected with
            | Err e => fail (ReqUpload e)
            | Ok inspection =>
                go (mkPreflightTarget logical_path (ti_exists inspection) (revision_encode <$> ti_revision inspection)
                      (ti_replaceable inspection))
            end
      end
  end.

Fixpoint preflight_targets (owner : bytes) (paths : list bytes) (targets : list UploadPreflightTarget)
    : Req Env (result RequestError (Phase (list UploadPreflightTarget))) :=
  match paths with
  | [] => go targets
  | path :: paths =>
      phase target <- preflight_target owner path;
      preflight_targets owner paths (targets ++ [target])
  end.

Definition handle_upload_preflight_paths (owner : bytes) (paths : list bytes)
    : Req Env (result RequestError (Phase unit)) :=
  let res := default_response in
  if (Z.of_nat (length paths) =? 0) || (UPLOAD_PREFLIGHT_PATH_LIMIT <? Z.of_nat (length paths)) then
    answer (status_problem res 413 REQUEST_BODY_TOO_LARGE "Upload preflight must contain between 1 and 512 paths")
  else
    match check_paths 0 [] paths with
    | Some (status, code, message) => answer (status_problem res status code message)
    | None =>
        do slot <- syscall rh_preflight_slot PreflightSlot;
        if negb slot then
          answer (render_problem res (with_recovery
            (new_api_error 429 UPLOAD_PREFLIGHT_CONCURRENCY_LIMIT
               (bs "Too many upload preflight requests are running")) (RetryAfterSeconds 1)))
        else
          phase targets <- preflight_targets owner paths [];
          answer (Ok (write_json_response res
            (JObject [("targets"%string, JArray (target_json <$> targets))])))
    end.

Definition handle_upload_preflight (owner : bytes) (headers : HeaderMap) (body : BodyRead)
    : Req Env (result RequestError (Phase unit)) :=
  match collect_untracked_api_body headers body with
  | Err r => answer r
  | Ok body =>
      match preflight_of_json body with
      | None => answer (status_problem default_response 400 INVALID_JSON "Invalid upload preflight JSON")
      | Some paths => handle_upload_preflight_paths owner paths
      end
  end.

Definition handle_upload_discard (owner : bytes) (headers : HeaderMap) (body : BodyRead)
    : Req Env (result RequestError (Phase unit)) :=
  let res := default_response in
  let invalid := answer (status_problem res 400 INVALID_PATH "Staged-upload discard path is invalid") in
  match collect_untracked_api_body headers body with
  | Err r => answer r
  | Ok body =>
      match discard_of_json body with
      | None => answer (status_problem res 400 INVALID_JSON "Invalid staged-upload discard JSON")
      | Some request =>
          match parse_canonical_operation_id (ds_upload_id request) with
          | None => answer (status_problem res 400 INVALID_UPLOAD_ID "Upload ID must be a canonical UUID")
          | Some upload_id =>
              match parse_browser_target policy (ds_path request) with
              | None => invalid
              | Some path =>
                  do escapes <- req_kernel (guard_root_contained fs path);
                  match escapes with
                  | Err e => fail (ReqHandler (HandlerIo e))
                  | Ok true => invalid
                  | Ok false =>
                      do lease <- server (srv_acquire [path]);
                      match lease with
                      | None => answer (render_path_wait_limit res None)
                      | Some lease =>
                          do r <- upload_handler
                            (discard_awaiting_upload sha256 to_string_lossy room fs cleanup path owner upload_id) res;
                          do _ <- server (srv_release lease);
                          answered_by (ret r)
                      end
                  end
              end
          end
      end
  end.
End endpoints.

(** ** The walk over the ancestors ends *)

Definition pieces_total (ws : list bytes) : nat := sum_list_with (λ w, S (length w)) ws.

Lemma join_length c ws : ws <> [] -> S (length (join_with [c] ws)) = pieces_total ws.
Proof.
  induction ws as [|w ws IH]; [done|]. intros _. unfold pieces_total in *. cbn [sum_list_with foldr].
  destruct ws as [|v ws]; [cbn; lia|]. cbn [join_with]. rewrite !length_app. cbn [length].
  specialize (IH ltac:(done)). cbn [join_with] in IH. cbn. cbn in IH. lia.
Qed.

Lemma drop_skipped_total rooted ws : (pieces_total (drop_skipped rooted ws) <= pieces_total ws)%nat.
Proof.
  unfold pieces_total. induction ws as [|w ws IH]; cbn [drop_skipped]; [done|].
  destruct (piece_component _ w); [done|]. cbn. lia.
Qed.

Lemma drop_skipped_head rooted ws w rest :
  drop_skipped rooted ws = w :: rest -> w <> [].
Proof.
  induction ws as [|v ws IH]; cbn [drop_skipped]; [done|].
  destruct (piece_component _ v) eqn:E; [|done]. intros [= -> ->]. by intros ->.
Qed.

Lemma pieces_total_reverse ws : pieces_total (reverse ws) = pieces_total ws.
Proof. unfold pieces_total. by rewrite (reverse_Permutation ws). Qed.

Lemma path_parent_shorter p q : path_parent p = Some q -> (length q < length p)%nat.
Proof.
  unfold path_parent. destruct (drop_skipped _ _) as [|w ws] eqn:E; [done|]. intros [= <-].
  assert (Hp : (length p = (if has_root p then 1 else 0) + length (join_with [slash] (body_pieces p)))%nat).
  { unfold body_pieces. destruct (has_root p) eqn:Hr; rewrite join_split; [|done]. by destruct p. }
  pose proof (join_length slash (body_pieces p)) as Hj.
  assert (body_pieces p <> []) as Hne by (unfold body_pieces; destruct (has_root p); apply split_on_not_nil).
  specialize (Hj Hne).
  pose proof (drop_skipped_total (has_root p) (reverse (body_pieces p))) as H1. rewrite E, pieces_total_reverse in H1.
  pose proof (drop_skipped_head _ _ _ _ E) as Hw.
  pose proof (drop_skipped_total (has_root p) ws) as H2.
  set (kept := drop_skipped (has_root p) ws) in *.
  assert (length (join_with [slash] (reverse kept)) <= pieces_total kept)%nat as H3.
  { destruct (decide (reverse kept = [])) as [->|Hk]; [cbn; lia|].
    pose proof (join_length slash _ Hk) as Hl. rewrite pieces_total_reverse in Hl. lia. }
  unfold pieces_total in H1 at 1. cbn in H1. fold (pieces_total ws) in H1.
  rewrite length_app, Hp. destruct w; [done|]. cbn in H1. destruct (has_root p); cbn [length]; lia.
Qed.

(** More fuel than the length of the path changes nothing. *)
Lemma untraversable_fuel {Env} `{Os Env} fs serve_path fuel fuel' ancestor w :
  (forall a, ancestor = Some a -> length a < fuel /\ length a < fuel')%nat ->
  untraversable_ancestor fs serve_path fuel ancestor w =
  untraversable_ancestor (Env := Env) fs serve_path fuel' ancestor w.
Proof.
  revert fuel' ancestor w. induction fuel as [|fuel IH]; intros [|fuel'] [a|] w Hf; try done;
    try (destruct (Hf a eq_refl); lia).
  cbn [untraversable_ancestor]. unfold bind. destruct (metadata_blocking fs a w) as [[md|e] w']; [done|].
  destruct (missing_or_loop e); [|done]. unfold bind. destruct (metadata_nofollow fs a w') as [[md|e'] w'']; [done|].
  destruct (missing_or_loop e'); [|done]. destruct (path_eqb a serve_path); [done|]. apply IH.
  intros b Hb%path_parent_shorter. destruct (Hf a eq_refl). lia.
Qed.
