(* ===== verification/BlockingGate.v ===== *)
(** The gate in front of blocking work ([src/src/server/blocking_io.rs]): every
    call of [run_guarded] in any interleaving, with callers that stop waiting.

    A call is a task with a guard of its caller.  It waits for a permit of the
    semaphore; with the permit it starts a worker that owns permit and guard, and
    waits for the worker.  The future can be dropped at any time. *)

From S2P Require Import Prelude.
From stdpp Require Import base numbers gmap fin_maps.

Local Open Scope Z_scope.

Definition BLOCKING_IO_CAPACITY : Z := 64.

(** A call: queued in its future, or in a worker, with or without someone who
    waits for it. *)
Inductive BlockingCall := Queued | Working (awaited : bool).

#[export] Instance BlockingCall_eq_dec : EqDecision BlockingCall.
Proof. solve_decision. Defined.

Record BlockingIoGate := mkGate { slots : Z; calls : gmap nat BlockingCall; started : gset nat }.

Definition new_gate (capacity : Z) : BlockingIoGate := mkGate capacity ∅ ∅.

Definition set_call (g : BlockingIoGate) (i : nat) (c : option BlockingCall) : gmap nat BlockingCall :=
  partial_alter (λ _, c) i (calls g).

Inductive GateAction :=
(** [run_guarded] is called; it gets a permit and spawns the worker; the worker
    exits; the future is dropped *)
| Submit (i : nat) | Admit (i : nat) | WorkerExits (i : nat) | DropFuture (i : nat).

Definition gate_act (a : GateAction) (g : BlockingIoGate) : option BlockingIoGate :=
  match a with
  | Submit i =>
      if bool_decide (calls g !! i = None /\ i ∉ started g)
      then Some (mkGate (slots g) (set_call g i (Some Queued)) (started g)) else None
  | Admit i =>
      if bool_decide (calls g !! i = Some Queued) && (0 <? slots g)
      then Some (mkGate (slots g - 1) (set_call g i (Some (Working true))) ({[i]} ∪ started g)) else None
  | WorkerExits i =>
      match calls g !! i with
      | Some (Working _) => Some (mkGate (slots g + 1) (set_call g i None) (started g))
      | _ => None
      end
  | DropFuture i =>
      match calls g !! i with
      | Some Queued => Some (mkGate (slots g) (set_call g i None) (started g))
      | Some (Working _) => Some (mkGate (slots g) (set_call g i (Some (Working false))) (started g))
      | None => None
      end
  end.

Fixpoint gate_run (actions : list GateAction) (g : BlockingIoGate) : option BlockingIoGate :=
  match actions with [] => Some g | a :: actions => g ← gate_act a g; gate_run actions g end.

(** The calls that hold a permit. *)
Definition is_working (c : nat * BlockingCall) : Prop := match c.2 with Working _ => True | Queued => False end.
#[local] Instance is_working_dec c : Decision (is_working c).
Proof. unfold is_working. destruct c.2; apply _. Defined.
Definition working (g : BlockingIoGate) : Z := Z.of_nat (size (filter is_working (calls g))).

Definition gate_inv (capacity : Z) (g : BlockingIoGate) : Prop :=
  0 <= slots g /\ slots g + working g = capacity /\
  (forall i, calls g !! i = Some Queued -> i ∉ started g).

Definition weight (c : option BlockingCall) : Z := match c with Some (Working _) => 1 | _ => 0 end.

Lemma working_set g i c :
  Z.of_nat (size (filter is_working (set_call g i c))) = working g - weight (calls g !! i) + weight c.
Proof.
  unfold working. assert (Hdel : forall m : gmap nat BlockingCall,
    Z.of_nat (size (filter is_working m)) = Z.of_nat (size (filter is_working (delete i m))) + weight (m !! i)).
  { intros m. destruct (m !! i) as [x|] eqn:Hi.
    - rewrite <-(insert_delete_id m i x Hi) at 1. rewrite map_filter_insert.
      destruct x as [|b]; cbn [weight].
      { rewrite decide_False, delete_delete_eq by (by intros []). lia. }
      rewrite decide_True by done. rewrite map_size_insert_None; [lia|]. apply map_lookup_filter_None. left. apply lookup_delete_eq.
    - rewrite delete_id by done. cbn [weight]. lia. }
  rewrite (Hdel (set_call g i c)), (Hdel (calls g)). unfold set_call. rewrite lookup_partial_alter_eq.
  replace (delete i (partial_alter (λ _, c) i (calls g))) with (delete i (calls g)); [lia|].
  apply map_eq. intros j. destruct (decide (j = i)) as [->|]; [by rewrite !lookup_delete_eq|].
  by rewrite !lookup_delete_ne, lookup_partial_alter_ne by done.
Qed.

Lemma working_ge g : 0 <= working g.
Proof. unfold working. lia. Qed.

Lemma gate_act_inv capacity a g g' : gate_act a g = Some g' -> gate_inv capacity g -> gate_inv capacity g'.
Proof.
  intros Ha (Hs & Hsum & Hq). pose proof (λ i c, working_set g i c) as Hw. unfold gate_inv.
  destruct a as [i|i|i|i]; cbn in Ha.
  - case_bool_decide as Hc; [|done]. injection Ha as <-. destruct Hc as [Hnone Hfresh].
    unfold working at 1. cbn. rewrite Hw, Hnone. cbn. split_and!; [done|lia|].
    intros j. unfold set_call. destruct (decide (j = i)) as [->|]; [done|]. rewrite lookup_partial_alter_ne by done. auto.
  - destruct (bool_decide _) eqn:Hc; [|done]. apply bool_decide_eq_true in Hc. destruct (Z.ltb_spec 0 (slots g)); [|done].
    injection Ha as <-. unfold working at 1. cbn. rewrite Hw, Hc. cbn. split_and!; [lia|lia|].
    intros j. unfold set_call. destruct (decide (j = i)) as [->|]; [by rewrite lookup_partial_alter_eq|].
    rewrite lookup_partial_alter_ne by done. intros Hj%Hq. set_solver.
  - destruct (calls g !! i) as [[|b]|] eqn:Hc; try done. injection Ha as <-. unfold working at 1. cbn. rewrite Hw, Hc. cbn.
    split_and!; [lia|lia|]. intros j. unfold set_call. destruct (decide (j = i)) as [->|]; [by rewrite lookup_partial_alter_eq|].
    rewrite lookup_partial_alter_ne by done. auto.
  - destruct (calls g !! i) as [[|b]|] eqn:Hc; try done; injection Ha as <-; unfold working at 1; cbn; rewrite Hw, Hc; cbn.
    all: split_and!; [lia|lia|]; intros j; unfold set_call; destruct (decide (j = i)) as [->|];
      [by rewrite lookup_partial_alter_eq|]; rewrite lookup_partial_alter_ne by done; auto.
Qed.

Lemma gate_run_inv capacity actions g g' : gate_run actions g = Some g' -> gate_inv capacity g -> gate_inv capacity g'.
Proof.
  revert g. induction actions as [|a actions IH]; intros g; cbn; [by intros [= <-]|].
  destruct (gate_act a g) as [g1|] eqn:Ha; [|done]. cbn. intros Hr Hi. eapply IH; [exact Hr|]. by eapply gate_act_inv.
Qed.

(** However calls arrive, are dropped and end: never more blocking work runs than
    the gate has capacity, abandoned work included; nothing of a queued call has
    started; and a queued call can start whenever less is running than the gate
    allows, so no permit is lost. *)
Theorem blocking_work_is_bounded capacity actions g :
  0 <= capacity -> gate_run actions (new_gate capacity) = Some g ->
  0 <= working g <= capacity /\
  (forall i, calls g !! i = Some Queued -> (i ∉ started g) /\ (is_Some (gate_act (Admit i) g) <-> working g < capacity)).
Proof.
  intros Hcap Hrun. destruct (gate_run_inv capacity actions (new_gate capacity) g Hrun) as (Hs & Hsum & Hq).
  { split_and!; [done| |done]. unfold working. cbn. rewrite map_filter_empty, map_size_empty. lia. }
  pose proof (working_ge g). split; [lia|]. intros i Hi. split; [auto|]. cbn. rewrite bool_decide_eq_true_2 by done. cbn.
  destruct (Z.ltb_spec 0 (slots g)); split; intros Hx; try lia; [done|by destruct Hx].
Qed.

(** ** Witness *)
Module GateExamples.
(** One slot: the first call is abandoned while it works, the second waits. *)
Definition abandoned : list GateAction := [Submit 1; Submit 2; Admit 1; DropFuture 1].
Definition abandoned_gate : BlockingIoGate := default (new_gate 1) (gate_run abandoned (new_gate 1)).

Lemma blocking_work_is_bounded_witness :
  gate_run abandoned (new_gate 1) = Some abandoned_gate /\ calls abandoned_gate !! 2%nat = Some Queued /\
  working abandoned_gate = 1 /\ gate_act (Admit 2) abandoned_gate = None /\ working abandoned_gate <= 1.
Proof.
  assert (Hrun : gate_run abandoned (new_gate 1) = Some abandoned_gate) by (vm_compute; reflexivity).
  split_and!; [exact Hrun|vm_compute; reflexivity|vm_compute; reflexivity|vm_compute; reflexivity|].
  apply (blocking_work_is_bounded 1 abandoned abandoned_gate); [lia|exact Hrun].
Defined.
End GateExamples.
