(* ===== verification/SchemaText.v ===== *)
(** The schema of the state database as it is compared
    ([src/src/server/state_store/database.rs]): the canonical form of the text of a
    statement, and the snapshot of a schema that is compared with the current one.

    Texts are bytes: the code looks at characters one by one, but only ASCII ones
    are told apart or changed.  Nesting depth is unbounded here; the 32-bit counter
    of the code cannot overflow on a text that is shorter than the 1 GiB a state
    database may have. *)

From S2P Require Import Prelude Bytes Paging.
From stdpp Require Import base numbers list strings sorting.
From Stdlib Require Import Ascii.

Local Open Scope Z_scope.

Definition quote_byte : ascii := byte_chr 39.
Definition double_quote_byte : ascii := byte_chr 34.
Definition open_byte : ascii := byte_chr 40.
Definition close_byte : ascii := byte_chr 41.
Definition comma_byte : ascii := byte_chr 44.
Definition semicolon_byte : ascii := byte_chr 59.

Definition is_ascii_whitespace (c : ascii) : bool := bool_decide (byte_val c ∈ [9; 10; 12; 13; 32]).
Definition is_ascii_text (s : bytes) : bool := forallb (λ c, byte_val c <? 128) s.

(** ** Compaction *)

(** Where the scan is: in a statement, in a string literal or in a quoted
    identifier. *)
Inductive Region := InStatement | InLiteral | InIdentifier.

(** White space is dropped, text outside literals is lowered, quotes around
    identifiers are dropped and literals are kept as they are. *)
Fixpoint compact (region : Region) (s : bytes) : result bytes bytes :=
  match s with
  | [] =>
      match region with
      | InStatement => Ok []
      | InLiteral => Err (bs "SQLite schema contains an unterminated string literal")
      | InIdentifier => Err (bs "SQLite schema contains an unterminated identifier")
      end
  | c :: s' =>
      match region with
      | InStatement =>
          if is_ascii_whitespace c then compact InStatement s'
          else if bool_decide (c = quote_byte) then rest ← compact InLiteral s'; Ok (c :: rest)
          else if bool_decide (c = double_quote_byte) then compact InIdentifier s'
          else rest ← compact InStatement s'; Ok (to_ascii_lowercase c :: rest)
      | InLiteral =>
          if bool_decide (c = quote_byte) then
            match s' with
            | c2 :: s'' =>
                if bool_decide (c2 = quote_byte) then rest ← compact InLiteral s''; Ok (c :: c2 :: rest)
                else rest ← compact InStatement s'; Ok (c :: rest)
            | [] => rest ← compact InStatement s'; Ok (c :: rest)
            end
          else rest ← compact InLiteral s'; Ok (c :: rest)
      | InIdentifier =>
          if bool_decide (c = double_quote_byte) then
            match s' with
            | c2 :: s'' =>
                if bool_decide (c2 = double_quote_byte) then rest ← compact InIdentifier s''; Ok (c :: rest)
                else compact InStatement s'
            | [] => compact InStatement s'
            end
          else rest ← compact InIdentifier s'; Ok (to_ascii_lowercase c :: rest)
      end
  end.

(** [while compact.ends_with(';')] *)
Fixpoint drop_semicolons (reversed : bytes) : bytes :=
  match reversed with
  | c :: s => if bool_decide (c = semicolon_byte) then drop_semicolons s else reversed
  | [] => []
  end.
Definition without_semicolons (s : bytes) : bytes := reverse (drop_semicolons (reverse s)).

(** ** Clauses *)

Definition unbalanced : bytes := bs "SQLite table definition has unbalanced parentheses".

(** From the opening parenthesis on: what lies between it and the one that closes
    it, and what follows. *)
Fixpoint find_close (depth : Z) (in_string : bool) (s : bytes) : result bytes (bytes * bytes) :=
  match s with
  | [] => if in_string then Err (bs "SQLite table definition has an unterminated string") else Err unbalanced
  | c :: s' =>
      let go depth in_string := found ← find_close depth in_string s'; Ok (c :: found.1, found.2) in
      if bool_decide (c = quote_byte) then
        match s' with
        | c2 :: s'' =>
            if in_string && bool_decide (c2 = quote_byte)
            then found ← find_close depth in_string s''; Ok (c :: c2 :: found.1, found.2)
            else go depth (negb in_string)
        | [] => go depth (negb in_string)
        end
      else if bool_decide (c = open_byte) && negb in_string then go (depth + 1) in_string
      else if bool_decide (c = close_byte) && negb in_string then
        if depth <=? 0 then Err unbalanced
        else if depth =? 1 then Ok ([], s')
        else go (depth - 1) in_string
      else go depth in_string
  end.

(** The clauses of a body; [clause]: what has been read of the current one. *)
Fixpoint split_clauses (depth : Z) (in_string : bool) (clause s : bytes) : result bytes (list bytes) :=
  match s with
  | [] => if negb in_string && (depth =? 0) then Ok [clause]
          else Err (bs "SQLite table clause has invalid quoting or parentheses")
  | c :: s' =>
      let go depth in_string := split_clauses depth in_string (clause ++ [c]) s' in
      if bool_decide (c = quote_byte) then
        match s' with
        | c2 :: s'' =>
            if in_string && bool_decide (c2 = quote_byte)
            then split_clauses depth in_string (clause ++ [c; c2]) s''
            else go depth (negb in_string)
        | [] => go depth (negb in_string)
        end
      else if bool_decide (c = open_byte) && negb in_string then go (depth + 1) in_string
      else if bool_decide (c = close_byte) && negb in_string then
        if depth <=? 0 then Err (bs "SQLite table clause has unbalanced parentheses") else go (depth - 1) in_string
      else if bool_decide (c = comma_byte) && negb in_string && (depth =? 0) then
        clauses ← split_clauses depth in_string [] s'; Ok (clause :: clauses)
      else go depth in_string
  end.

(** [sort_unstable]: equal clauses are indistinguishable. *)
Definition sort_clauses (clauses : list bytes) : list bytes := order_by bytes_cmp id clauses.

Definition canonical_create_table_sql (text : bytes) : result bytes bytes :=
  _ ← ensure (is_ascii_text text) (bs "SQLite project table definitions must use ASCII syntax");
  match split_once open_byte text with
  | None => Err (bs "SQLite table definition is missing its column list")
  | Some (head, rest) =>
      found ← find_close 1 false rest;
      clauses ← split_clauses 0 false [] found.1;
      _ ← ensure (forallb (λ clause, negb (bool_decide (clause = []))) clauses)
            (bs "SQLite table definition contains an empty clause");
      Ok (head ++ [open_byte] ++ join_with [comma_byte] (sort_clauses clauses) ++ [close_byte] ++ found.2)
  end.

Definition canonical_schema_sql (sql : bytes) : result bytes bytes :=
  text ← compact InStatement sql;
  let text := without_semicolons text in
  if bool_decide (bs "createtable" `prefix_of` text) then canonical_create_table_sql text else Ok text.

Example canonical_table :
  let dq := [double_quote_byte] in
  canonical_schema_sql (bs "CREATE TABLE " ++ dq ++ bs "T" ++ dq ++ bs " ( b TEXT CHECK(b IN ('X,y', 'it''s')), a INT ) STRICT;") =
  Ok (bs "createtablet(aint,btextcheck(bin('X,y','it''s')))strict").
Proof. vm_compute. reflexivity. Qed.

(** ** What a canonical definition determines *)

(** A clause: strings are terminated, parentheses match, and no comma separates. *)
Fixpoint balanced (depth : Z) (in_string : bool) (s : bytes) : bool :=
  match s with
  | [] => negb in_string && (depth =? 0)
  | c :: s' =>
      if bool_decide (c = quote_byte) then
        match s' with
        | c2 :: s'' =>
            if in_string && bool_decide (c2 = quote_byte) then balanced depth in_string s''
            else balanced depth (negb in_string) s'
        | [] => balanced depth (negb in_string) s'
        end
      else if bool_decide (c = open_byte) && negb in_string then balanced (depth + 1) in_string s'
      else if bool_decide (c = close_byte) && negb in_string then (0 <? depth) && balanced (depth - 1) in_string s'
      else if bool_decide (c = comma_byte) && negb in_string && (depth =? 0) then false
      else balanced depth in_string s'
  end.

(** The definition of a table, taken apart. *)
Record Definition_ := mkDefinition { def_head : bytes; def_clauses : list bytes; def_tail : bytes }.

Definition definition_text (t : Definition_) : bytes :=
  def_head t ++ [open_byte] ++ join_with [comma_byte] (def_clauses t) ++ [close_byte] ++ def_tail t.

Definition well_formed (t : Definition_) : Prop :=
  (open_byte ∉ def_head t) /\ def_clauses t <> [] /\
  Forall (λ c, c <> [] /\ balanced 0 false c = true) (def_clauses t) /\ is_ascii_text (definition_text t) = true.

(** What follows a clause. *)
Definition no_quote_first (x : bytes) : Prop := match x with c :: _ => c <> quote_byte | [] => True end.

(** Scans look one character ahead. *)
Lemma lookahead_ind (P : bytes -> Prop) :
  P [] -> (forall c s, P s -> (forall c2 s', s = c2 :: s' -> P s') -> P (c :: s)) -> forall s, P s.
Proof.
  intros Hnil Hcons s. assert (H : P s /\ forall c s', s = c :: s' -> P s').
  { induction s as [|c s [IH IH']]; split; [done|by intros|auto|]. by intros ? ? [= <- <-]. }
  apply H.
Qed.

Lemma find_close_balanced s : forall depth in_string x,
  0 <= depth -> balanced depth in_string s = true -> no_quote_first x ->
  find_close (depth + 1) in_string (s ++ x) = (found ← find_close 1 false x; Ok (s ++ found.1, found.2)).
Proof.
  induction s as [|c s IH IH2] using lookahead_ind; intros depth in_string x Hd Hb Hx.
  { cbn in Hb. destruct in_string; [done|]. apply Z.eqb_eq in Hb as ->. cbn [app].
    change (0 + 1) with 1. by destruct (find_close 1 false x) as [[? ?]|]. }
  assert (Hgo : forall d i, 0 <= d -> balanced d i s = true ->
    (found ← find_close (d + 1) i (s ++ x); Ok (c :: found.1, found.2)) =
    (found ← find_close 1 false x; Ok ((c :: s) ++ found.1, found.2)) :> result bytes (bytes * bytes)).
  { intros d i Hd' Hb'. rewrite IH by done. by destruct (find_close 1 false x) as [[? ?]|]. }
  cbn [app find_close]. cbn [balanced] in Hb.
  destruct (bool_decide (c = quote_byte)) eqn:Hq.
  { destruct s as [|c2 s''].
    - cbn [app]. destruct x as [|c2 x].
      + by apply Hgo.
      + rewrite (bool_decide_eq_false_2 (c2 = quote_byte)), andb_false_r by done. by apply Hgo.
    - cbn [app]. destruct (in_string && bool_decide (c2 = quote_byte)) eqn:H2; [|by apply Hgo].
      rewrite (IH2 c2 s'') by done. by destruct (find_close 1 false x) as [[? ?]|]. }
  destruct (bool_decide (c = open_byte) && negb in_string) eqn:Ho; [by apply Hgo; [lia|]|].
  destruct (bool_decide (c = close_byte) && negb in_string) eqn:Hc.
  { apply andb_true_iff in Hb as [Hpos Hb]. rewrite (proj2 (Z.leb_gt (depth + 1) 0)) by lia.
    rewrite (proj2 (Z.eqb_neq (depth + 1) 1)) by lia. replace (depth + 1 - 1) with (depth - 1 + 1) by lia.
    apply Hgo; [lia|done]. }
  destruct (bool_decide (c = comma_byte) && negb in_string && (depth =? 0)); [done|by apply Hgo].
Qed.

Lemma split_balanced s : forall depth in_string clause x,
  balanced depth in_string s = true -> no_quote_first x ->
  split_clauses depth in_string clause (s ++ x) = split_clauses 0 false (clause ++ s) x.
Proof.
  induction s as [|c s IH IH2] using lookahead_ind; intros depth in_string clause x Hb Hx.
  { cbn in Hb. destruct in_string; [done|]. apply Z.eqb_eq in Hb as ->. by rewrite app_nil_r. }
  assert (Hgo : forall d i, balanced d i s = true ->
    split_clauses d i (clause ++ [c]) (s ++ x) = split_clauses 0 false (clause ++ c :: s) x).
  { intros d i Hb'. rewrite IH by done. by rewrite <-app_assoc. }
  cbn [app split_clauses]. cbn [balanced] in Hb.
  destruct (bool_decide (c = quote_byte)) eqn:Hq.
  { destruct s as [|c2 s''].
    - cbn [app]. destruct x as [|c2 x].
      + by apply Hgo.
      + rewrite (bool_decide_eq_false_2 (c2 = quote_byte)), andb_false_r by done. by apply Hgo.
    - cbn [app]. destruct (in_string && bool_decide (c2 = quote_byte)) eqn:H2; [|by apply Hgo].
      rewrite (IH2 c2 s'') by done. by rewrite <-app_assoc. }
  destruct (bool_decide (c = open_byte) && negb in_string) eqn:Ho; [by apply Hgo|].
  destruct (bool_decide (c = close_byte) && negb in_string) eqn:Hc.
  { apply andb_true_iff in Hb as [Hpos Hb]. rewrite (proj2 (Z.leb_gt depth 0)) by lia. by apply Hgo. }
  destruct (bool_decide (c = comma_byte) && negb in_string && (depth =? 0)); [done|by apply Hgo].
Qed.

Definition good_clauses (cs : list bytes) : Prop := Forall (λ c, c <> [] /\ balanced 0 false c = true) cs.

Lemma find_close_end tail : find_close 1 false (close_byte :: tail) = Ok ([], tail).
Proof. reflexivity. Qed.
Lemma find_close_comma s :
  find_close 1 false (comma_byte :: s) = (found ← find_close 1 false s; Ok (comma_byte :: found.1, found.2)).
Proof. reflexivity. Qed.
Lemma split_clauses_comma clause s :
  split_clauses 0 false clause (comma_byte :: s) = (clauses ← split_clauses 0 false [] s; Ok (clause :: clauses)).
Proof. reflexivity. Qed.
Lemma join_clauses c c' cs :
  join_with [comma_byte] (c :: c' :: cs) = c ++ comma_byte :: join_with [comma_byte] (c' :: cs).
Proof. reflexivity. Qed.

Lemma find_close_clauses cs tail :
  good_clauses cs ->
  find_close 1 false (join_with [comma_byte] cs ++ close_byte :: tail) = Ok (join_with [comma_byte] cs, tail).
Proof.
  intros Hcs. induction Hcs as [|c cs [_ Hc] Hcs IH]; [done|].
  pose proof (find_close_balanced c 0 false) as Hf. change (0 + 1) with 1 in Hf.
  destruct cs as [|c' cs].
  - cbn [join_with]. rewrite Hf, find_close_end by done. cbn. by rewrite app_nil_r.
  - rewrite join_clauses, <-app_assoc. cbn [app]. rewrite Hf, find_close_comma, IH by done. done.
Qed.

Lemma split_join_clauses cs : cs <> [] -> good_clauses cs -> split_clauses 0 false [] (join_with [comma_byte] cs) = Ok cs.
Proof.
  intros Hne Hcs. induction Hcs as [|c cs [_ Hc] Hcs IH]; [done|]. destruct cs as [|c' cs].
  - cbn [join_with]. pose proof (split_balanced c 0 false [] [] Hc I) as Hs. rewrite app_nil_r in Hs. by rewrite Hs.
  - rewrite join_clauses, (split_balanced c), split_clauses_comma, IH by done. done.
Qed.

Lemma split_once_head head rest : open_byte ∉ head -> split_once open_byte (head ++ open_byte :: rest) = Some (head, rest).
Proof.
  induction head as [|c head IH]; intros Hh; cbn [app split_once]; [by rewrite bool_decide_eq_true_2|].
  apply not_elem_of_cons in Hh as [? ?]. rewrite bool_decide_eq_false_2 by done. by rewrite IH.
Qed.

Definition sorted_definition (t : Definition_) : Definition_ :=
  mkDefinition (def_head t) (sort_clauses (def_clauses t)) (def_tail t).

Lemma sort_clauses_perm cs : sort_clauses cs ≡ₚ cs.
Proof. apply order_by_perm. Qed.

Lemma canonical_definition t : well_formed t -> canonical_create_table_sql (definition_text t) = Ok (definition_text (sorted_definition t)).
Proof.
  intros (Hh & Hne & Hcs & Ha). unfold canonical_create_table_sql. rewrite Ha. cbn [ensure result_bind].
  unfold definition_text at 1. cbn [app]. rewrite split_once_head by done.
  rewrite find_close_clauses by done. cbn -[split_clauses join_with sort_clauses]. rewrite split_join_clauses by done.
  cbn -[join_with sort_clauses]. rewrite (proj2 (forallb_Forall_true _ _)); [done|].
  eapply Forall_impl; [exact Hcs|]. intros c [Hc _]. by rewrite bool_decide_eq_false_2.
Qed.

Lemma definition_text_inj t1 t2 :
  open_byte ∉ def_head t1 -> open_byte ∉ def_head t2 -> def_clauses t1 <> [] -> def_clauses t2 <> [] ->
  good_clauses (def_clauses t1) -> good_clauses (def_clauses t2) ->
  definition_text t1 = definition_text t2 -> t1 = t2.
Proof.
  intros H1 H2 N1 N2 C1 C2 Heq. destruct t1 as [h1 c1 l1], t2 as [h2 c2 l2].
  unfold definition_text in Heq. cbn [def_head def_clauses def_tail app] in *.
  pose proof (split_once_head h1 (join_with [comma_byte] c1 ++ close_byte :: l1) H1) as E1.
  pose proof (split_once_head h2 (join_with [comma_byte] c2 ++ close_byte :: l2) H2) as E2.
  rewrite Heq, E2 in E1. injection E1 as -> E1.
  pose proof (find_close_clauses c1 l1 C1) as F1. pose proof (find_close_clauses c2 l2 C2) as F2.
  rewrite <-E1, F2 in F1. injection F1 as Ej ->.
  pose proof (split_join_clauses c1 N1 C1) as S1. rewrite <-Ej, (split_join_clauses c2 N2 C2) in S1. by injection S1 as ->.
Qed.

Lemma sorted_perm cs cs' : cs ≡ₚ cs' -> sort_clauses cs = sort_clauses cs'.
Proof.
  intros Hp. assert (Hs : StronglySorted (row_le bytes_cmp id) (sort_clauses cs)) by apply order_by_sorted, _.
  assert (Hs' : StronglySorted (row_le bytes_cmp id) (sort_clauses cs')) by apply order_by_sorted, _.
  assert (Ha : AntiSymm (=) (row_le bytes_cmp (@id bytes))).
  { intros x y Hxy Hyx. unfold row_le in *. cbn in *. rewrite (bytes_cmp_antisym x y) in Hyx.
    destruct (bytes_cmp x y) eqn:E; [by apply bytes_cmp_eq in E|done..]. }
  apply (StronglySorted_unique (row_le bytes_cmp id)); [done..|]. by rewrite !sort_clauses_perm.
Qed.

(** C37: The canonical form of a table's definition is exact: two definitions have the
    same one precisely when they have the same head and options and the same
    clauses, in whatever order. *)
Theorem canonical_definitions_agree t1 t2 :
  well_formed t1 -> well_formed t2 ->
  canonical_create_table_sql (definition_text t1) = canonical_create_table_sql (definition_text t2) <->
  def_head t1 = def_head t2 /\ def_clauses t1 ≡ₚ def_clauses t2 /\ def_tail t1 = def_tail t2.
Proof.
  intros W1 W2. rewrite (canonical_definition t1 W1), (canonical_definition t2 W2).
  destruct W1 as (Hh1 & Hn1 & Hc1 & _), W2 as (Hh2 & Hn2 & Hc2 & _).
  assert (Hsort : forall cs, cs <> [] -> good_clauses cs -> sort_clauses cs <> [] /\ good_clauses (sort_clauses cs)).
  { intros cs Hn Hc. split; [|unfold good_clauses; by rewrite sort_clauses_perm].
    intros He. apply Hn. apply Permutation_nil. by rewrite <-He, sort_clauses_perm. }
  split.
  - intros [= Heq]. apply definition_text_inj in Heq; [|done|done|apply Hsort; done..].
    injection Heq as Hh Hc Ht. split_and!; [done| |done].
    by rewrite <-(sort_clauses_perm (def_clauses t1)), Hc, sort_clauses_perm.
  - intros (Hh & Hp & Ht). unfold sorted_definition. by rewrite Hh, Ht, (sorted_perm _ _ Hp).
Qed.

(** ** Witness *)
Module SchemaExamples.
Definition first : Definition_ :=
  mkDefinition (bs "createtablet") [bs "aint"; bs "btextcheck(bin('X,y','it''s'))"] (bs "strict").
Definition second : Definition_ :=
  mkDefinition (bs "createtablet") [bs "btextcheck(bin('X,y','it''s'))"; bs "aint"] (bs "strict").

Lemma canonical_definitions_agree_witness :
  well_formed first /\ well_formed second /\ def_clauses first <> def_clauses second /\
  canonical_create_table_sql (definition_text first) = canonical_create_table_sql (definition_text second).
Proof.
  assert (W1 : well_formed first).
  { split; [by apply (bool_decide_unpack _); vm_compute|]. split; [done|]. split; [|by vm_compute].
    repeat constructor; done. }
  assert (W2 : well_formed second).
  { split; [by apply (bool_decide_unpack _); vm_compute|]. split; [done|]. split; [|by vm_compute].
    repeat constructor; done. }
  split_and!; [exact W1|exact W2|done|].
  apply (canonical_definitions_agree first second W1 W2). split_and!; [done|apply Permutation_swap|done].
Defined.
End SchemaExamples.
