(* ===== verification/DatabaseFile.v ===== *)
(** Opening the state database ([src/src/server/state_store/database.rs]): the
    guards on the database file and its sidecars, the validation of private copies,
    the comparison of the schema, and the order in which a database is trusted,
    changed and recovered.

    SQLite and the kernel answer as they like; every interaction is logged.  The
    statements that read a schema are one interaction that answers with the rows of
    all of them, and [recover_database], which [Recovery] models on the tables, is
    one as well.  Private copies live in a temporary directory that is removed when
    its handle is dropped; that removal is not logged.  Error messages leave out the
    path they name. *)

From S2P Require Import Prelude Bytes StdPath Paging Problem Revisions RootedOs StartupHost SchemaText.
From stdpp Require Import base numbers list strings sets sorting.
From Stdlib Require Import Ascii.

Local Open Scope Z_scope.

Definition MAX_RAW_DATABASE_SNAPSHOT_BYTES : Z := 1024 * 1024 * 1024.
(** milliseconds *)
Definition BUSY_TIMEOUT : Z := 5000.
Definition APPLICATION : bytes := bs "dufs-ram".
Definition CURRENT_SCHEMA_REVISION : Z := 1.
Definition SQLITE_SIDECAR_SUFFIXES : list bytes := [bs "-journal"; bs "-wal"; bs "-shm"].

Record RootIdentity := mkRoot { root_device : Z; root_inode : Z }.

(** ** The schema *)

(** The rows SQLite answers with. *)
Record ObjectRow := mkObjectRow { or_type : bytes; or_name : bytes; or_table : bytes; or_sql : option bytes }.
Record ColumnRow := mkColumnRow {
  cr_name : bytes; cr_type : bytes; cr_not_null : Z; cr_default : option bytes; cr_primary_key : Z; cr_hidden : Z
}.
Record IndexColumnRow := mkIndexColumnRow {
  icr_position : Z; icr_name : option bytes; icr_descending : Z; icr_collation : option bytes
}.
Record IndexRow := mkIndexRow {
  ir_name : bytes; ir_unique : Z; ir_origin : bytes; ir_partial : Z; ir_key_columns : list IndexColumnRow
}.
Record TableRow := mkTableRow {
  tr_column_count : Z; tr_without_rowid : Z; tr_strict : Z;
  tr_columns : list ColumnRow; tr_indexes : list IndexRow; tr_foreign_key_count : Z
}.
(** [None]: a statement about a table finds no row or fails. *)
Record SchemaRows := mkSchemaRows { sr_objects : list ObjectRow; sr_table : bytes -> option TableRow }.

(** The snapshots that are compared; rows and snapshots of indexes and their
    columns coincide. *)
Record TableSchemaSnapshot := mkTableSnapshot { ts_name : bytes; ts_table : TableRow }.
Record SchemaSnapshot := mkSchemaSnapshot { ss_objects : list ObjectRow; ss_tables : list TableSchemaSnapshot }.

#[export] Instance ObjectRow_eq_dec : EqDecision ObjectRow.
Proof. solve_decision. Defined.
#[export] Instance ColumnRow_eq_dec : EqDecision ColumnRow.
Proof. solve_decision. Defined.
#[export] Instance IndexColumnRow_eq_dec : EqDecision IndexColumnRow.
Proof. solve_decision. Defined.
#[export] Instance IndexRow_eq_dec : EqDecision IndexRow.
Proof. solve_decision. Defined.
#[export] Instance TableRow_eq_dec : EqDecision TableRow.
Proof. solve_decision. Defined.
#[export] Instance TableSchemaSnapshot_eq_dec : EqDecision TableSchemaSnapshot.
Proof. solve_decision. Defined.
#[export] Instance SchemaSnapshot_eq_dec : EqDecision SchemaSnapshot.
Proof. solve_decision. Defined.

(** The derived orders. *)
Definition option_cmp {A} (cmp : A -> A -> comparison) (a b : option A) : comparison :=
  match a, b with None, None => Eq | None, Some _ => Lt | Some _, None => Gt | Some x, Some y => cmp x y end.
Fixpoint list_cmp {A} (cmp : A -> A -> comparison) (a b : list A) : comparison :=
  match a, b with
  | [], [] => Eq
  | [], _ :: _ => Lt
  | _ :: _, [] => Gt
  | x :: a, y :: b => match cmp x y with Eq => list_cmp cmp a b | other => other end
  end.

Definition column_key (c : ColumnRow) :=
  (cr_name c, (cr_type c, (cr_not_null c, (cr_default c, (cr_primary_key c, cr_hidden c))))).
Definition column_cmp :=
  lex_cmp bytes_cmp (lex_cmp bytes_cmp (lex_cmp Z.compare (lex_cmp (option_cmp bytes_cmp) (lex_cmp Z.compare Z.compare)))).
Definition index_column_key (c : IndexColumnRow) := (icr_position c, (icr_name c, (icr_descending c, icr_collation c))).
Definition index_column_cmp :=
  lex_cmp Z.compare (lex_cmp (option_cmp bytes_cmp) (lex_cmp Z.compare (option_cmp bytes_cmp))).
Definition index_key (i : IndexRow) :=
  (ir_name i, (ir_unique i, (ir_origin i, (ir_partial i, index_column_key <$> ir_key_columns i)))).
Definition index_cmp :=
  lex_cmp bytes_cmp (lex_cmp Z.compare (lex_cmp bytes_cmp (lex_cmp Z.compare (list_cmp index_column_cmp)))).

Definition to_ascii_uppercase (c : ascii) : ascii := if in_range 97 122 (byte_val c) then byte_chr (byte_val c - 32) else c.

(** [map(..).transpose()] *)
Definition transposed {A B E} (f : A -> result E B) (o : option A) : result E (option B) :=
  match o with None => Ok None | Some a => b ← f a; Ok (Some b) end.

Fixpoint collect {A B E} (f : A -> result E B) (l : list A) : result E (list B) :=
  match l with [] => Ok [] | a :: l => b ← f a; bs ← collect f l; Ok (b :: bs) end.

Definition column_snapshot (c : ColumnRow) : result bytes ColumnRow :=
  default_value ← transposed canonical_schema_sql (cr_default c);
  Ok (mkColumnRow (cr_name c) (map to_ascii_uppercase (cr_type c)) (cr_not_null c) default_value (cr_primary_key c) (cr_hidden c)).

Definition inspect_table_schema (rows : SchemaRows) (name : bytes) : result bytes TableSchemaSnapshot :=
  match sr_table rows name with
  | None => Err (bs "Query returned no rows")
  | Some t =>
      columns ← collect column_snapshot (tr_columns t);
      Ok (mkTableSnapshot name
            (mkTableRow (tr_column_count t) (tr_without_rowid t) (tr_strict t)
               (order_by column_cmp column_key columns) (order_by index_cmp index_key (tr_indexes t))
               (tr_foreign_key_count t)))
  end.

Definition object_snapshot (o : ObjectRow) : result bytes ObjectRow :=
  sql ← transposed canonical_schema_sql (or_sql o);
  Ok (mkObjectRow (or_type o) (or_name o) (or_table o) sql).

Definition inspect_schema (rows : SchemaRows) : result bytes SchemaSnapshot :=
  objects ← collect object_snapshot (sr_objects rows);
  let table_names := order_by bytes_cmp id (or_name <$> filter (λ o, or_type o = bs "table") objects) in
  tables ← collect (inspect_table_schema rows) table_names;
  Ok (mkSchemaSnapshot objects tables).

(** ** Files *)

(** [SidecarMetadataSnapshot] *)
Record FileSnapshot := mkFileSnapshot {
  fs_device : Z; fs_inode : Z; fs_mode : Z; fs_links : Z; fs_uid : Z; fs_gid : Z; fs_size : Z;
  fs_modified : Z * Z; fs_changed : Z * Z
}.

#[export] Instance FileSnapshot_eq_dec : EqDecision FileSnapshot.
Proof. solve_decision. Defined.

Definition file_snapshot (m : Stat) : FileSnapshot :=
  mkFileSnapshot (st_dev m) (st_ino m) (st_mode m) (st_nlink m) (st_uid m) (st_gid m) (st_size m)
    (st_mtime m, st_mtime_nsec m) (st_ctime m, st_ctime_nsec m).

Definition sqlite_sidecar_path (database_path suffix : bytes) : bytes := database_path ++ suffix.

(** [validate_main_database_metadata] and [validate_sidecar_metadata] *)
Definition validate_file_metadata (what : string) (m : Stat) : result bytes unit :=
  _ ← ensure (negb (is_symlink m)) (bs what ++ bs " cannot be a symbolic link");
  _ ← ensure (is_regular m) (bs what ++ bs " must be a regular file");
  ensure (st_nlink m =? 1) (bs what ++ bs " cannot have multiple hard links").

Record MainDatabaseGuard := mkMain { mg_path : bytes; mg_file : Fd; mg_snapshot : FileSnapshot }.
Inductive SqliteSidecarState := Absent | Present (file : Fd) (snapshot : FileSnapshot).
Record SqliteSidecarEntry := mkSidecar { se_suffix : bytes; se_path : bytes; se_state : SqliteSidecarState }.
Abbreviation SqliteSidecarGuard := (list SqliteSidecarEntry).

Definition is_present (e : SqliteSidecarEntry) : bool := match se_state e with Present _ _ => true | Absent => false end.
Definition has_present_sidecar (guard : SqliteSidecarGuard) : bool := existsb is_present guard.

(** [find_map] *)
Fixpoint rollback_journal (guard : SqliteSidecarGuard) : option (bytes * Fd * FileSnapshot) :=
  match guard with
  | [] => None
  | e :: guard =>
      match bool_decide (se_suffix e = bs "-journal"), se_state e with
      | true, Present file snapshot => Some (se_path e, file, snapshot)
      | _, _ => rollback_journal guard
      end
  end.

(** ** The host *)

(** A connection of SQLite. *)
Abbreviation Conn := Z.

(** [ProductMetadataRow] and [SchemaRow] of the platform. *)
Record ProductMetadataRow := mkMetadataRow {
  pm_singleton : Z; pm_application : bytes; pm_version : bytes; pm_revision : Z; pm_sha256 : bytes
}.
Abbreviation SchemaRow := (bytes * bytes * bytes * bytes)%type.
(** [SchemaIdentity] *)
Record SchemaIdentity := mkSchemaIdentity { si_application : bytes; si_version : bytes; si_revision : Z; si_sha256 : bytes }.

(** The platform's contract for the identity of a schema, and the version the
    program was built as. *)
Class Foundation := {
  validate_product_metadata_ddl : bytes -> bool;
  foundation_schema_fingerprint : list SchemaRow -> option bytes;
  is_schema_identity : SchemaIdentity -> bool;
  verify_current_schema : list ProductMetadataRow -> list SchemaRow -> SchemaIdentity -> bool;
  CARGO_PKG_VERSION : bytes
}.

Inductive DbEvent :=
(** files *)
| LinkStat (path : bytes) (answer : result IoError Stat)
| PathStat (path : bytes) (answer : result IoError Stat)
(** to read, [O_NONBLOCK | O_NOFOLLOW] *)
| OpenRead (path : bytes) (answer : result IoError Fd)
| FileStat (fd : Fd) (answer : result IoError Stat)
(** [create_new], mode 0600 *)
| CreateNew (path : bytes) (answer : result IoError Fd)
| FileChmod (fd : Fd) (mode : Z) (answer : result IoError unit)
| FileSync (fd : Fd) (answer : result IoError unit)
| SyncDirectory (path : bytes) (answer : result IoError unit)
| PathChmod (path : bytes) (mode : Z) (answer : result IoError unit)
| TempDir (prefix : bytes) (answer : result IoError bytes)
| CloneFd (fd : Fd) (answer : result IoError Fd)
| SeekStart (fd : Fd) (answer : result IoError unit)
| CopyFd (source destination : Fd) (limit : Z) (answer : result IoError Z)
(** connections *)
| OpenSqlite (path : bytes) (read_write : bool) (answer : result bytes Conn)
| SetBusyTimeout (conn : Conn) (timeout : Z) (answer : result bytes unit)
| SetDbConfig (conn : Conn) (name : bytes) (value : bool) (answer : result bytes bool)
| SetPragma (conn : Conn) (name value : bytes) (answer : result bytes unit)
| QueryPragma (conn : Conn) (name : bytes) (answer : result bytes Z)
| CountObjects (conn : Conn) (answer : result bytes Z)
| ReadSchema (conn : Conn) (answer : result bytes SchemaRows)
| CurrentSchemaRows (answer : result bytes SchemaRows)
| MetadataDdl (conn : Conn) (answer : result bytes bytes)
| MetadataRows (conn : Conn) (answer : result bytes (list ProductMetadataRow))
| FoundationRows (conn : Conn) (answer : result bytes (list SchemaRow))
| CurrentFoundationRows (answer : result bytes (list SchemaRow))
| LoadMeta (conn : Conn) (key : bytes) (answer : result bytes (option bytes))
| QuickCheck (conn : Conn) (answer : result bytes bytes)
(** what changes the database *)
| SetJournalMode (conn : Conn) (answer : result bytes bytes)
| BeginImmediate (conn : Conn) (answer : result bytes unit)
| CreateSchema (conn : Conn) (answer : result bytes unit)
| InsertMetadata (conn : Conn) (row : ProductMetadataRow) (answer : result bytes unit)
| InsertRoot (conn : Conn) (device inode : bytes) (answer : result bytes unit)
| Commit (conn : Conn) (answer : result bytes unit)
| RecoverDatabase (conn : Conn) (answer : result bytes unit)
(** the readiness probe *)
| CountMeta (conn : Conn) (answer : result bytes Z)
| UpsertProbe (conn : Conn) (answer : result bytes unit)
| Rollback (conn : Conn) (answer : result bytes unit).

Class DbHost (Env : Type) := {
  dh_link_stat : bytes -> Env -> result IoError Stat * Env;
  dh_path_stat : bytes -> Env -> result IoError Stat * Env;
  dh_open : bytes -> Env -> result IoError Fd * Env;
  dh_fstat : Fd -> Env -> result IoError Stat * Env;
  dh_create_new : bytes -> Env -> result IoError Fd * Env;
  dh_fchmod : Fd -> Z -> Env -> result IoError unit * Env;
  dh_fsync : Fd -> Env -> result IoError unit * Env;
  dh_sync_directory : bytes -> Env -> result IoError unit * Env;
  dh_chmod : bytes -> Z -> Env -> result IoError unit * Env;
  dh_temp_dir : bytes -> Env -> result IoError bytes * Env;
  dh_clone : Fd -> Env -> result IoError Fd * Env;
  dh_seek : Fd -> Env -> result IoError unit * Env;
  dh_copy : Fd -> Fd -> Z -> Env -> result IoError Z * Env;
  dh_sqlite : bytes -> bool -> Env -> result bytes Conn * Env;
  dh_busy_timeout : Conn -> Z -> Env -> result bytes unit * Env;
  dh_db_config : Conn -> bytes -> bool -> Env -> result bytes bool * Env;
  dh_pragma : Conn -> bytes -> bytes -> Env -> result bytes unit * Env;
  dh_query_pragma : Conn -> bytes -> Env -> result bytes Z * Env;
  dh_count_objects : Conn -> Env -> result bytes Z * Env;
  dh_schema : Conn -> Env -> result bytes SchemaRows * Env;
  (** of a database in memory with the current schema *)
  dh_current_schema : Env -> result bytes SchemaRows * Env;
  dh_metadata_ddl : Conn -> Env -> result bytes bytes * Env;
  dh_metadata_rows : Conn -> Env -> result bytes (list ProductMetadataRow) * Env;
  dh_foundation_rows : Conn -> Env -> result bytes (list SchemaRow) * Env;
  dh_current_rows : Env -> result bytes (list SchemaRow) * Env;
  dh_load_meta : Conn -> bytes -> Env -> result bytes (option bytes) * Env;
  dh_quick_check : Conn -> Env -> result bytes bytes * Env;
  dh_journal_mode : Conn -> Env -> result bytes bytes * Env;
  dh_begin : Conn -> Env -> result bytes unit * Env;
  dh_create_schema : Conn -> Env -> result bytes unit * Env;
  dh_insert_metadata : Conn -> ProductMetadataRow -> Env -> result bytes unit * Env;
  dh_insert_root : Conn -> bytes -> bytes -> Env -> result bytes unit * Env;
  dh_commit : Conn -> Env -> result bytes unit * Env;
  dh_recover : Conn -> Env -> result bytes unit * Env;
  dh_count_meta : Conn -> Env -> result bytes Z * Env;
  dh_upsert_probe : Conn -> Env -> result bytes unit * Env;
  dh_rollback : Conn -> Env -> result bytes unit * Env
}.

Abbreviation Db Env A := (Prog DbEvent Env (result bytes A)).

Section database.
Context {Env : Type} `{DbHost Env} `{Foundation}.

Definition io {A} (run : Env -> result IoError A * Env) (event : result IoError A -> DbEvent) (message : string) : Db Env A :=
  do r <- syscall run event; ret (context r (bs message)).
Definition sql {A} (run : Env -> result bytes A * Env) (event : result bytes A -> DbEvent) : Db Env A := syscall run event.
Definition check (b : bool) (message : string) : Db Env unit := ret (ensure b (bs message)).

(** *** Guards *)

Section guards.
Context (what : string).

(** A regular file with one link: looked at, opened, and found to be the same. *)
Definition inspect_file (path : bytes) (found : Stat) : Db Env (Fd * FileSnapshot) :=
  attempt _ <- ret (validate_file_metadata what found);
  attempt fd <- io (dh_open path) (OpenRead path) "Failed to safely open the file";
  attempt opened <- io (dh_fstat fd) (FileStat fd) "Failed to inspect the opened file";
  attempt _ <- ret (validate_file_metadata what opened);
  attempt _ <- check (bool_decide (file_snapshot found = file_snapshot opened)) "replaced while it was being inspected";
  ok (fd, file_snapshot opened).

(** The descriptor and the path still lead to that file, unchanged. *)
Definition revalidate_file (path : bytes) (fd : Fd) (snapshot : FileSnapshot) : Db Env unit :=
  attempt opened <- io (dh_fstat fd) (FileStat fd) "Failed to re-inspect the opened file";
  attempt _ <- ret (validate_file_metadata what opened);
  attempt _ <- check (bool_decide (file_snapshot opened = snapshot)) "changed identity or metadata";
  attempt named <- io (dh_link_stat path) (LinkStat path) "disappeared or was replaced after validation";
  attempt _ <- ret (validate_file_metadata what named);
  check (bool_decide (file_snapshot named = snapshot)) "was replaced after validation".
End guards.

(** [MainDatabaseGuard] *)
Definition inspect_main (path : bytes) : Db Env MainDatabaseGuard :=
  attempt found <- io (dh_link_stat path) (LinkStat path) "Failed to inspect state database";
  attempt (fd, snapshot) <- inspect_file "State database" path found;
  ok (mkMain path fd snapshot).
Definition revalidate_main (g : MainDatabaseGuard) : Db Env unit :=
  revalidate_file "State database" (mg_path g) (mg_file g) (mg_snapshot g).

(** [SqliteSidecarGuard] *)
Definition revalidate_sidecar (e : SqliteSidecarEntry) : Db Env unit :=
  match se_state e with
  | Absent =>
      do found <- syscall (dh_link_stat (se_path e)) (LinkStat (se_path e));
      match found with
      | Err error => if bool_decide (io_kind error = NotFound) then ok tt
                     else fail (bs "Failed to re-inspect absent SQLite sidecar")
      | Ok _ => fail (bs "SQLite sidecar appeared or was replaced after validation")
      end
  | Present fd snapshot => revalidate_file "SQLite sidecar" (se_path e) fd snapshot
  end.
Fixpoint revalidate_sidecars (guard : SqliteSidecarGuard) : Db Env unit :=
  match guard with
  | [] => ok tt
  | e :: guard => attempt _ <- revalidate_sidecar e; revalidate_sidecars guard
  end.

Definition inspect_sidecar (database_path suffix : bytes) : Db Env SqliteSidecarEntry :=
  let path := sqlite_sidecar_path database_path suffix in
  do found <- syscall (dh_link_stat path) (LinkStat path);
  match found with
  | Ok metadata =>
      attempt (fd, snapshot) <- inspect_file "SQLite sidecar" path metadata;
      ok (mkSidecar suffix path (Present fd snapshot))
  | Err error => if bool_decide (io_kind error = NotFound) then ok (mkSidecar suffix path Absent)
                 else fail (bs "Failed to inspect SQLite sidecar")
  end.
Fixpoint inspect_suffixes (database_path : bytes) (suffixes : list bytes) : Db Env SqliteSidecarGuard :=
  match suffixes with
  | [] => ok []
  | suffix :: suffixes =>
      attempt e <- inspect_sidecar database_path suffix;
      attempt guard <- inspect_suffixes database_path suffixes;
      ok (e :: guard)
  end.
Definition inspect_sidecars (database_path : bytes) : Db Env SqliteSidecarGuard :=
  attempt guard <- inspect_suffixes database_path SQLITE_SIDECAR_SUFFIXES;
  attempt _ <- revalidate_sidecars guard;
  ok guard.

(** [main_database.revalidate()?; sidecars.revalidate()?] *)
Definition revalidate_all (main : MainDatabaseGuard) (sidecars : SqliteSidecarGuard) : Db Env unit :=
  attempt _ <- revalidate_main main; revalidate_sidecars sidecars.

(** *** Validation *)

Definition validate_exact_schema (conn : Conn) : Db Env unit :=
  attempt rows <- sql (dh_schema conn) (ReadSchema conn);
  attempt actual <- ret (inspect_schema rows);
  attempt rows <- sql dh_current_schema CurrentSchemaRows;
  attempt expected <- ret (inspect_schema rows);
  check (bool_decide (actual = expected)) "State database does not exactly match the current DUFS schema".

Definition expected_schema_fingerprint : Db Env bytes :=
  attempt rows <- sql dh_current_rows CurrentFoundationRows;
  match foundation_schema_fingerprint rows with
  | Some fingerprint => ok fingerprint
  | None => fail (bs "Foundation schema fingerprint rejected the SQLite schema rows")
  end.

Definition expected_schema_identity : Db Env SchemaIdentity :=
  attempt fingerprint <- expected_schema_fingerprint;
  let identity := mkSchemaIdentity APPLICATION CARGO_PKG_VERSION CURRENT_SCHEMA_REVISION fingerprint in
  attempt _ <- check (0 <=? CURRENT_SCHEMA_REVISION) "Current schema revision cannot be represented as u64";
  attempt _ <- check (is_schema_identity identity) "Compiled DUFS schema identity violates the Foundation contract";
  ok identity.

Definition validate_product_metadata (conn : Conn) : Db Env unit :=
  attempt _ <- validate_exact_schema conn;
  attempt ddl <- sql (dh_metadata_ddl conn) (MetadataDdl conn);
  attempt _ <- check (validate_product_metadata_ddl ddl)
    "State database product_metadata DDL violates the Foundation contract";
  attempt metadata_rows <- sql (dh_metadata_rows conn) (MetadataRows conn);
  attempt schema_rows <- sql (dh_foundation_rows conn) (FoundationRows conn);
  attempt expected <- expected_schema_identity;
  check (verify_current_schema metadata_rows schema_rows expected)
    "State database metadata or schema fingerprint is not exactly current".

Definition ROOT_DEVICE : bytes := bs "root-device-be".
Definition ROOT_INODE : bytes := bs "root-inode-be".

Definition load_meta (conn : Conn) (key : bytes) : Db Env bytes :=
  attempt value <- sql (dh_load_meta conn key) (LoadMeta conn key);
  match value with Some value => ok value | None => fail (bs "State database metadata is missing") end.

Definition verify_root_identity (conn : Conn) (expected : RootIdentity) : Db Env unit :=
  attempt device <- load_meta conn ROOT_DEVICE;
  attempt inode <- load_meta conn ROOT_INODE;
  attempt _ <- check (bool_decide (device = u64_to_be_bytes (root_device expected)))
    "The state database is bound to a different shared root device";
  check (bool_decide (inode = u64_to_be_bytes (root_inode expected)))
    "The state database is bound to a different shared root inode".

Definition persistent_object_count (conn : Conn) : Db Env Z := sql (dh_count_objects conn) (CountObjects conn).

Definition validate_integrity (conn : Conn) : Db Env unit :=
  attempt quick_check <- sql (dh_quick_check conn) (QuickCheck conn);
  check (eq_ignore_ascii_case quick_check (bs "ok")) "State database integrity check failed".

Definition validate_database_before_mutation (conn : Conn) (root : RootIdentity) : Db Env unit :=
  attempt count <- persistent_object_count conn;
  if count =? 0 then validate_integrity conn
  else
    attempt _ <- validate_product_metadata conn;
    attempt _ <- verify_root_identity conn root;
    validate_integrity conn.

Definition harden_connection (conn : Conn) : Db Env unit :=
  attempt _ <- sql (dh_busy_timeout conn BUSY_TIMEOUT) (SetBusyTimeout conn BUSY_TIMEOUT);
  attempt defensive <- sql (dh_db_config conn (bs "DEFENSIVE") true) (SetDbConfig conn (bs "DEFENSIVE") true);
  attempt _ <- check defensive "SQLite defensive mode could not be enabled";
  attempt trusted <- sql (dh_db_config conn (bs "TRUSTED_SCHEMA") false) (SetDbConfig conn (bs "TRUSTED_SCHEMA") false);
  attempt _ <- check (negb trusted) "SQLite trusted schema mode could not be disabled";
  attempt _ <- sql (dh_pragma conn (bs "trusted_schema") (bs "0")) (SetPragma conn (bs "trusted_schema") (bs "0"));
  attempt _ <- sql (dh_pragma conn (bs "foreign_keys") (bs "1")) (SetPragma conn (bs "foreign_keys") (bs "1"));
  attempt _ <- sql (dh_pragma conn (bs "mmap_size") (bs "0")) (SetPragma conn (bs "mmap_size") (bs "0"));
  sql (dh_pragma conn (bs "temp_store") (bs "MEMORY")) (SetPragma conn (bs "temp_store") (bs "MEMORY")).

(** *** Private copies *)

(** [copy_raw_main_database_snapshot] and [copy_rollback_journal_snapshot] *)
Definition copy_snapshot (file : Fd) (snapshot : FileSnapshot) (destination : Fd) (max_bytes : Z) : Db Env unit :=
  attempt _ <- check (fs_size snapshot <=? max_bytes) "exceeds the validation snapshot limit";
  attempt _ <- check (max_bytes + 1 <=? u64_max) "Snapshot limit cannot be incremented";
  attempt source <- io (dh_clone file) (CloneFd file) "Failed to duplicate the validation handle";
  attempt _ <- io (dh_seek source) (SeekStart source) "Failed to rewind the validation handle";
  attempt copied <- io (dh_copy source destination (max_bytes + 1)) (CopyFd source destination (max_bytes + 1))
    "Failed to copy the validation snapshot";
  attempt _ <- check (copied <=? max_bytes) "grew beyond the validation snapshot limit while it was being copied";
  check (copied =? fs_size snapshot) "changed size while its validation snapshot was being copied".

(** A private copy of the main database; its path. *)
Definition copy_main (prefix : string) (main : MainDatabaseGuard) : Db Env bytes :=
  attempt directory <- io (dh_temp_dir (bs prefix)) (TempDir (bs prefix)) "Failed to create a private validation directory";
  let snapshot_path := path_push directory (bs "state.sqlite3") in
  attempt destination <- io (dh_create_new snapshot_path) (CreateNew snapshot_path) "Failed to create a private snapshot";
  attempt _ <- copy_snapshot (mg_file main) (mg_snapshot main) destination MAX_RAW_DATABASE_SNAPSHOT_BYTES;
  ok snapshot_path.

Definition validate_raw_main_database (main : MainDatabaseGuard) (sidecars : SqliteSidecarGuard) (root : RootIdentity)
    : Db Env unit :=
  attempt snapshot_path <- copy_main "dufs-state-baseline-" main;
  attempt _ <- revalidate_all main sidecars;
  attempt conn <- sql (dh_sqlite snapshot_path false) (OpenSqlite snapshot_path false);
  attempt _ <- harden_connection conn;
  attempt object_count <- persistent_object_count conn;
  attempt _ <- check (negb (object_count =? 0) || negb (has_present_sidecar sidecars))
    "Refusing to initialize an empty main state database from SQLite sidecar contents";
  attempt _ <- validate_database_before_mutation conn root;
  revalidate_all main sidecars.

(** Whether there is a rollback journal, whose recovery was tried on copies. *)
Definition validate_private_rollback_journal_recovery (main : MainDatabaseGuard) (sidecars : SqliteSidecarGuard)
    (root : RootIdentity) : Db Env bool :=
  match rollback_journal sidecars with
  | None => ok false
  | Some (_, journal, journal_snapshot) =>
      attempt snapshot_path <- copy_main "dufs-state-rollback-" main;
      let journal_path := sqlite_sidecar_path snapshot_path (bs "-journal") in
      attempt destination <- io (dh_create_new journal_path) (CreateNew journal_path)
        "Failed to create a private rollback-journal snapshot";
      attempt _ <- copy_snapshot journal journal_snapshot destination MAX_RAW_DATABASE_SNAPSHOT_BYTES;
      attempt _ <- revalidate_all main sidecars;
      attempt conn <- sql (dh_sqlite snapshot_path true) (OpenSqlite snapshot_path true);
      attempt _ <- harden_connection conn;
      attempt _ <- validate_database_before_mutation conn root;
      attempt _ <- revalidate_all main sidecars;
      ok true
  end.

(** *** Opening *)

(** The database as the guards see it is one to trust. *)
Definition guarded (path : bytes) (root : RootIdentity) : Db Env (MainDatabaseGuard * SqliteSidecarGuard) :=
  attempt sidecars <- inspect_sidecars path;
  attempt main <- inspect_main path;
  attempt _ <- revalidate_all main sidecars;
  attempt _ <- validate_raw_main_database main sidecars root;
  attempt _ <- revalidate_all main sidecars;
  ok (main, sidecars).

(** SQLite opens the path, which is still the same file afterwards. *)
Definition open_guarded (path : bytes) (main : MainDatabaseGuard) (sidecars : SqliteSidecarGuard) (read_write : bool)
    : Db Env Conn :=
  attempt conn <- sql (dh_sqlite path read_write) (OpenSqlite path read_write);
  attempt _ <- revalidate_all main sidecars;
  attempt _ <- harden_connection conn;
  ok conn.

Definition open_connection (path : bytes) (root : RootIdentity) : Db Env Conn :=
  attempt (main, sidecars) <- guarded path root;
  open_guarded path main sidecars true.

Definition open_existing_database_for_preflight (path : bytes) (root : RootIdentity) : Db Env Conn :=
  attempt (main, sidecars) <- guarded path root;
  attempt recover_rollback_journal <- validate_private_rollback_journal_recovery main sidecars root;
  attempt _ <- revalidate_all main sidecars;
  open_guarded path main sidecars recover_rollback_journal.

Definition preflight_existing_database (path : bytes) (root : RootIdentity) : Db Env unit :=
  attempt conn <- open_existing_database_for_preflight path root;
  validate_database_before_mutation conn root.

(** 0600 *)
Definition DATABASE_MODE : Z := 384.

(** A database file that is already there. *)
Definition adopt_database (path : bytes) (root : RootIdentity) : Db Env unit :=
  attempt metadata <- io (dh_link_stat path) (LinkStat path) "Failed to inspect state database";
  attempt _ <- ret (validate_file_metadata "State database" metadata);
  attempt _ <- preflight_existing_database path root;
  io (dh_chmod path DATABASE_MODE) (PathChmod path DATABASE_MODE) "Failed to set state database permissions".

(** One that was just created. *)
Definition publish_new_database (parent : bytes) (fd : Fd) : Db Env unit :=
  attempt _ <- io (dh_fchmod fd DATABASE_MODE) (FileChmod fd DATABASE_MODE) "Failed to set state database permissions";
  attempt _ <- io (dh_fsync fd) (FileSync fd) "Failed to synchronize new state database";
  io (dh_sync_directory parent) (SyncDirectory parent) "Failed to synchronize state database directory".

Definition refuse_orphaned_sidecars (path : bytes) (sidecars : SqliteSidecarGuard) : Db Env unit :=
  if has_present_sidecar sidecars then
    do found <- syscall (dh_link_stat path) (LinkStat path);
    match found with
    | Ok _ => ok tt
    | Err error =>
        if bool_decide (io_kind error = NotFound)
        then fail (bs "Refusing to create state database while a SQLite sidecar already exists")
        else fail (bs "Failed to inspect state database")
    end
  else ok tt.

Definition database_parent (path : bytes) : bytes :=
  match path_parent path with Some ((_ :: _) as parent) => parent | _ => bs "." end.

Definition prepare_database_file (path : bytes) (root : RootIdentity) : Db Env unit :=
  attempt _ <- check (bool_decide (is_Some (path_file_name path))) "State database path must name a file";
  attempt sidecars <- inspect_sidecars path;
  attempt _ <- refuse_orphaned_sidecars path sidecars;
  attempt parent_metadata <- io (dh_path_stat (database_parent path)) (PathStat (database_parent path))
    "Failed to inspect state database directory";
  attempt _ <- check (is_directory parent_metadata) "State database parent is not a directory";
  do created <- syscall (dh_create_new path) (CreateNew path);
  match created with
  | Ok fd => publish_new_database (database_parent path) fd
  | Err error =>
      if bool_decide (io_kind error = AlreadyExists) then adopt_database path root
      else fail (bs "Failed to create state database")
  end.

(** *** Initialization *)

Definition configure_validated_connection (conn : Conn) : Db Env unit :=
  attempt mode <- sql (dh_journal_mode conn) (SetJournalMode conn);
  attempt _ <- check (eq_ignore_ascii_case mode (bs "delete")) "SQLite refused rollback DELETE journal mode";
  attempt _ <- sql (dh_pragma conn (bs "synchronous") (bs "EXTRA")) (SetPragma conn (bs "synchronous") (bs "EXTRA"));
  attempt synchronous <- sql (dh_query_pragma conn (bs "synchronous")) (QueryPragma conn (bs "synchronous"));
  attempt foreign_keys <- sql (dh_query_pragma conn (bs "foreign_keys")) (QueryPragma conn (bs "foreign_keys"));
  attempt trusted_schema <- sql (dh_query_pragma conn (bs "trusted_schema")) (QueryPragma conn (bs "trusted_schema"));
  attempt mmap_size <- sql (dh_query_pragma conn (bs "mmap_size")) (QueryPragma conn (bs "mmap_size"));
  attempt _ <- check (synchronous =? 3) "SQLite synchronous mode is not EXTRA";
  attempt _ <- check (foreign_keys =? 1) "SQLite foreign key enforcement is disabled";
  attempt _ <- check (trusted_schema =? 0) "SQLite trusted schema mode is enabled";
  check (mmap_size =? 0) "SQLite memory-mapped I/O is enabled".

(** The transaction that creates the schema. *)
Definition create_database (conn : Conn) (root : RootIdentity) : Db Env unit :=
  attempt expected_fingerprint <- expected_schema_fingerprint;
  attempt _ <- sql (dh_begin conn) (BeginImmediate conn);
  attempt _ <- sql (dh_create_schema conn) (CreateSchema conn);
  attempt rows <- sql (dh_foundation_rows conn) (FoundationRows conn);
  attempt _ <- check (bool_decide (foundation_schema_fingerprint rows = Some expected_fingerprint))
    "The compiled state schema fingerprint is inconsistent";
  let row := mkMetadataRow 1 APPLICATION CARGO_PKG_VERSION CURRENT_SCHEMA_REVISION expected_fingerprint in
  attempt _ <- sql (dh_insert_metadata conn row) (InsertMetadata conn row);
  let device := u64_to_be_bytes (root_device root) in
  let inode := u64_to_be_bytes (root_inode root) in
  attempt _ <- sql (dh_insert_root conn device inode) (InsertRoot conn device inode);
  attempt _ <- validate_product_metadata conn;
  attempt _ <- verify_root_identity conn root;
  sql (dh_commit conn) (Commit conn).

Definition initialize_schema (conn : Conn) (root : RootIdentity) : Db Env unit :=
  attempt count <- persistent_object_count conn;
  if negb (count =? 0) then
    attempt _ <- validate_product_metadata conn;
    verify_root_identity conn root
  else create_database conn root.

Definition initialize_database (conn : Conn) (root : RootIdentity) : Db Env unit :=
  attempt _ <- validate_database_before_mutation conn root;
  attempt _ <- configure_validated_connection conn;
  attempt _ <- initialize_schema conn root;
  sql (dh_recover conn) (RecoverDatabase conn).

Definition open_initialized_connection (path : bytes) (root : RootIdentity) : Db Env Conn :=
  attempt conn <- open_connection path root;
  attempt _ <- initialize_database conn root;
  ok conn.

(** What the opening of the store does: the file is prepared, then the worker
    opens it. *)
Definition open_state_database (path : bytes) (root : RootIdentity) : Db Env Conn :=
  attempt _ <- prepare_database_file path root;
  open_initialized_connection path root.

(** [StateStoreActor::probe_readiness] ([actor.rs]): a transaction that is dropped
    before [rollback] is rolled back too. *)
Definition probe_readiness (conn : Conn) : Db Env unit :=
  attempt _ <- validate_product_metadata conn;
  attempt _ <- sql (dh_begin conn) (BeginImmediate conn);
  do probed <-
    (attempt metadata_rows <- sql (dh_count_meta conn) (CountMeta conn);
     attempt _ <- check (2 <=? metadata_rows) "State database metadata is incomplete";
     sql (dh_upsert_probe conn) (UpsertProbe conn));
  do rolled_back <- sql (dh_rollback conn) (Rollback conn);
  attempt _ <- ret probed;
  ret rolled_back.
End database.

(** * A state database is trusted before it is changed *)


Section trust.
Context {Env : Type} `{DbHost Env} `{Foundation} (path : bytes) (root : RootIdentity).

(** ** What is known of a database *)

(** The schema a connection reports is exactly the current one. *)
Definition exact_schema (conn : Conn) (l : list DbEvent) : Prop :=
  exists actual current snapshot,
    ReadSchema conn (Ok actual) ∈ l /\ CurrentSchemaRows (Ok current) ∈ l /\
    inspect_schema actual = Ok snapshot /\ inspect_schema current = Ok snapshot.

(** Its metadata is that of this program and version. *)
Definition current_metadata (conn : Conn) (l : list DbEvent) : Prop :=
  exists rows schema fingerprint,
    MetadataRows conn (Ok rows) ∈ l /\ FoundationRows conn (Ok schema) ∈ l /\
    verify_current_schema rows schema
      (mkSchemaIdentity APPLICATION CARGO_PKG_VERSION CURRENT_SCHEMA_REVISION fingerprint) = true.

(** It belongs to the shared root. *)
Definition bound_to_root (conn : Conn) (l : list DbEvent) : Prop :=
  LoadMeta conn ROOT_DEVICE (Ok (Some (u64_to_be_bytes (root_device root)))) ∈ l /\
  LoadMeta conn ROOT_INODE (Ok (Some (u64_to_be_bytes (root_inode root)))) ∈ l.

(** A database that is empty or the program's own, and intact. *)
Definition vouched (conn : Conn) (l : list DbEvent) : Prop :=
  (exists text, QuickCheck conn (Ok text) ∈ l /\ eq_ignore_ascii_case text (bs "ok") = true) /\
  (CountObjects conn (Ok 0) ∈ l \/ (exact_schema conn l /\ current_metadata conn l /\ bound_to_root conn l)).

(** A private, complete copy of what was opened at the path is such a database. *)
Definition copy_vouched (l : list DbEvent) : Prop :=
  exists fd source destination copy conn limit m,
    OpenRead path (Ok fd) ∈ l /\ FileStat fd (Ok m) ∈ l /\ CloneFd fd (Ok source) ∈ l /\
    CreateNew copy (Ok destination) ∈ l /\ CopyFd source destination limit (Ok (st_size m)) ∈ l /\ OpenSqlite copy false (Ok conn) ∈ l /\ vouched conn l.

Lemma vouched_mono conn l l' : l ⊆ l' -> vouched conn l -> vouched conn l'.
Proof.
  intros Hl [(text & Ht & ?) Hv]. split; [exists text; auto|].
  destruct Hv as [?|((a & c & s & ? & ? & ?) & (r & sc & f & ? & ? & ?) & ? & ?)]; [left; auto|right].
  split; [exists a, c, s; auto|]. split; [exists r, sc, f; auto|]. split; auto.
Qed.

Lemma copy_vouched_mono l l' : l ⊆ l' -> copy_vouched l -> copy_vouched l'.
Proof.
  intros Hl (fd & s & d & c & conn & n & m & ? & ? & ? & ? & ? & ? & Hv). exists fd, s, d, c, conn, n, m.
  split_and!; [auto..|]. by eapply vouched_mono.
Qed.

(** ** What changes a database *)

(** The connection a statement changes the database through. *)
Definition changed_through (e : DbEvent) : option Conn :=
  match e with
  | SetJournalMode conn _ | BeginImmediate conn _ | CreateSchema conn _ | InsertMetadata conn _ _
  | InsertRoot conn _ _ _ | Commit conn _ | RecoverDatabase conn _ | UpsertProbe conn _ | Rollback conn _ => Some conn
  | _ => None
  end.

(** What can change the file at the path: its permissions are changed, SQLite may
    write to it, or a statement changes a database. *)
Definition writes (e : DbEvent) : bool :=
  match e with
  | PathChmod p _ _ => true
  | OpenSqlite p read_write _ => read_write && bool_decide (p = path)
  | _ => bool_decide (is_Some (changed_through e))
  end.

(** By then the file has been vouched for, and so has the connection. *)
Definition earned (before : list DbEvent) (e : DbEvent) : Prop :=
  copy_vouched before /\ forall conn, changed_through e = Some conn -> vouched conn before.

Definition careful (before l : list DbEvent) : Prop :=
  forall l1 e l2, l = l1 ++ e :: l2 -> writes e = true -> earned (before ++ l1) e.

Lemma careful_quiet before l : Forall (λ e, writes e = false) l -> careful before l.
Proof.
  intros Hl l1 e l2 -> He. apply Forall_app in Hl as [_ Hl]. apply Forall_cons in Hl as [? _]. congruence.
Qed.

Lemma db_careful_app before l l' : careful before l -> careful (before ++ l) l' -> careful before (l ++ l').
Proof.
  intros H1 H2 l1 e l2 Heq He. apply app_eq_app in Heq as (k & [[-> Hk]|[-> ->]]).
  - destruct k as [|e' k]; cbn in Hk.
    + rewrite app_nil_r in *. specialize (H2 [] e l2 (eq_sym Hk) He). by rewrite app_nil_r in H2.
    + injection Hk as -> ->. by eapply H1.
  - specialize (H2 k e l2 eq_refl He). by rewrite app_assoc.
Qed.

(** Programs that leave the database alone. *)
Abbreviation quiet m := (emits (λ e, writes e = false) m).

Lemma quiet_careful {A} before (m : Db Env A) : quiet m -> spec m (λ _ l, careful before l).
Proof. intros Hm. eapply spec_weaken; [exact Hm|]. intros ? l. apply careful_quiet. Qed.

(** A program is careful if its parts are, given what the earlier ones
    established. *)
Lemma careful_bind {A B} before (m : Db Env A) (k : A -> Db Env B) P :
  spec m (λ _ l, careful before l) -> returns m P ->
  (forall a l, P a l -> spec (k a) (λ _ l', careful (before ++ l) l')) ->
  spec (bind_ok m k) (λ _ l, careful before l).
Proof.
  intros Hm Hp Hk. eapply spec_bind_ok; [apply (spec_and _ _ _ Hm Hp)| |].
  - intros a l [Hc Ha]. eapply spec_weaken; [by apply Hk, Ha|]. intros b l' Hl'. cbn in *. by apply db_careful_app.
  - by intros e l [Hc _].
Qed.

Lemma careful_earned before l :
  copy_vouched before -> Forall (λ e, forall conn, changed_through e = Some conn -> vouched conn before) l -> careful before l.
Proof.
  intros Hc Hl l1 e l2 -> _. apply Forall_app in Hl as [_ Hl]. apply Forall_cons in Hl as [He _]. split.
  - eapply copy_vouched_mono; [|exact Hc]. set_solver.
  - intros conn Hconn. eapply vouched_mono; [|by apply He]. set_solver.
Qed.

(** ** Calls *)

Lemma returns_sql {A} (run : Env -> result bytes A * Env) event : returns (sql run event) (λ a l, l = [event (Ok a)]).
Proof. apply spec_call. by intros r a ->. Qed.

Lemma returns_io {A} (run : Env -> result IoError A * Env) event message :
  returns (io run event message) (λ a l, l = [event (Ok a)]).
Proof. unfold io. apply spec_bind_call. intros r. apply spec_ret. by intros a ->%context_Ok. Qed.

Lemma returns_check b message : returns (check b message : Db Env unit) (λ _ l, l = [] /\ b = true).
Proof. apply spec_ret. by intros a ->%ensure_Ok. Qed.

(** A step whose answer is kept. *)
Local Ltac db_step :=
  cbv beta zeta;
  match goal with
  | |- returns (bind_ok (sql _ _) _) _ => eapply returns_bind; [apply returns_sql|]; intros ? ? ->
  | |- returns (bind_ok (io _ _ _) _) _ => eapply returns_bind; [apply returns_io|]; intros ? ? ->
  | |- returns (bind_ok (check _ _) _) _ => eapply returns_bind; [apply returns_check|]; intros ? ? [-> ?]
  | |- returns (bind_ok (ret _) _) _ => apply returns_attempt; intros ? ?
  | |- returns (check _ _) _ => eapply returns_weaken; [apply returns_check|]; intros ? ? [-> ?]
  | |- returns (fail _) _ => apply returns_fail
  | |- returns (ok _) _ => apply returns_ok
  end.

Lemma exact_schema_returns conn : returns (validate_exact_schema conn) (λ _ l, exact_schema conn l).
Proof.
  unfold validate_exact_schema. repeat db_step. bool_prop. subst. exists a, a1, a2. split_and!; [set_solver..|done|done].
Qed.

Lemma expected_identity_returns :
  returns expected_schema_identity (λ identity _, exists fingerprint,
    identity = mkSchemaIdentity APPLICATION CARGO_PKG_VERSION CURRENT_SCHEMA_REVISION fingerprint).
Proof.
  unfold expected_schema_identity. eapply (returns_bind _ _ (λ _ _, True)).
  { unfold expected_schema_fingerprint. db_step. destruct (foundation_schema_fingerprint _); by db_step. }
  intros fingerprint l _. repeat db_step. by exists fingerprint.
Qed.

Lemma product_metadata_returns conn :
  returns (validate_product_metadata conn) (λ _ l, exact_schema conn l /\ current_metadata conn l).
Proof.
  unfold validate_product_metadata. eapply returns_bind; [apply exact_schema_returns|]. intros _ l (a & c & s & ? & ? & ?).
  do 4 db_step. eapply returns_bind; [apply expected_identity_returns|]. intros identity l' [fingerprint ->]. db_step.
  split; [exists a, c, s; set_solver|]. exists a2, a3, fingerprint. split_and!; [set_solver..|done].
Qed.

Lemma load_meta_returns conn key : returns (load_meta conn key) (λ value l, l = [LoadMeta conn key (Ok (Some value))]).
Proof. unfold load_meta. db_step. destruct a; by db_step. Qed.

Lemma root_identity_returns conn : returns (verify_root_identity conn root) (λ _ l, bound_to_root conn l).
Proof.
  unfold verify_root_identity. eapply returns_bind; [apply load_meta_returns|]. intros device ? ->.
  eapply returns_bind; [apply load_meta_returns|]. intros inode ? ->. repeat db_step. bool_prop. subst.
  split; set_solver.
Qed.

Lemma integrity_returns conn :
  returns (validate_integrity conn) (λ _ l, exists text, QuickCheck conn (Ok text) ∈ l /\ eq_ignore_ascii_case text (bs "ok") = true).
Proof. unfold validate_integrity. repeat db_step. exists a. split; [set_solver|done]. Qed.

(** The validation vouches for its connection. *)
Lemma validation_returns conn : returns (validate_database_before_mutation conn root) (λ _ l, vouched conn l).
Proof.
  unfold validate_database_before_mutation, persistent_object_count. db_step. destruct (Z.eqb_spec a 0) as [->|].
  - eapply returns_weaken; [apply integrity_returns|]. intros _ l (text & ? & ?).
    split; [exists text; set_solver|left; set_solver].
  - eapply returns_bind; [apply product_metadata_returns|]. intros _ l1 ((x & c & s & ? & ? & ?) & (r & sc & f & ? & ? & ?)).
    eapply returns_bind; [apply root_identity_returns|]. intros _ l2 [? ?].
    eapply returns_weaken; [apply integrity_returns|]. intros _ l3 (text & ? & ?).
    split; [exists text; set_solver|right].
    split; [exists x, c, s; set_solver|]. split; [exists r, sc, f; set_solver|]. split; set_solver.
Qed.

(** ** Programs that only look *)

Local Ltac looks :=
  repeat (cbv beta zeta; match goal with
  | |- emits _ (bind_ok _ _) => apply emits_bind_ok; [|intros ?]
  | |- emits _ (bind _ _) => apply emits_bind; [|intros ?]
  | |- emits _ (io _ _ _) => unfold io
  | |- emits _ (sql _ _) => apply emits_call; intros ?; reflexivity
  | |- emits _ (syscall _ _) => apply emits_call; intros ?; reflexivity
  | |- emits _ (check _ _) => apply emits_ret
  | |- emits _ (ret _) => apply emits_ret
  | |- emits _ (ok _) => apply emits_ret
  | |- emits _ (fail _) => apply emits_ret
  | |- emits _ (match ?x with _ => _ end) => destruct x
  | |- emits _ _ => solve [eauto with looks nocore]
  end).

Create HintDb looks discriminated.

Lemma inspect_file_looks what p found : quiet (inspect_file what p found).
Proof. unfold inspect_file. looks. Qed.
Lemma revalidate_file_looks what p fd snapshot : quiet (revalidate_file what p fd snapshot).
Proof. unfold revalidate_file. looks. Qed.
#[local] Hint Resolve inspect_file_looks revalidate_file_looks : looks.

Lemma inspect_main_looks p : quiet (inspect_main p).
Proof. unfold inspect_main. looks. Qed.
Lemma revalidate_sidecars_looks guard : quiet (revalidate_sidecars guard).
Proof. induction guard; cbn [revalidate_sidecars]; unfold revalidate_sidecar; looks. Qed.
#[local] Hint Resolve inspect_main_looks revalidate_sidecars_looks : looks.

Lemma revalidate_all_looks main sidecars : quiet (revalidate_all main sidecars).
Proof. unfold revalidate_all, revalidate_main. looks. Qed.
Lemma inspect_suffixes_looks p suffixes : quiet (inspect_suffixes p suffixes).
Proof. induction suffixes; cbn [inspect_suffixes]; unfold inspect_sidecar; looks. Qed.
#[local] Hint Resolve revalidate_all_looks inspect_suffixes_looks : looks.

Lemma inspect_sidecars_looks p : quiet (inspect_sidecars p).
Proof. unfold inspect_sidecars. looks. Qed.
Lemma fingerprint_looks : quiet expected_schema_fingerprint.
Proof. unfold expected_schema_fingerprint. looks. Qed.
#[local] Hint Resolve inspect_sidecars_looks fingerprint_looks : looks.

Lemma product_metadata_looks conn : quiet (validate_product_metadata conn).
Proof. unfold validate_product_metadata, validate_exact_schema, expected_schema_identity. looks. Qed.
Lemma root_identity_looks conn : quiet (verify_root_identity conn root).
Proof. unfold verify_root_identity, load_meta. looks. Qed.
#[local] Hint Resolve product_metadata_looks root_identity_looks : looks.

Lemma validation_looks conn : quiet (validate_database_before_mutation conn root).
Proof. unfold validate_database_before_mutation, persistent_object_count, validate_integrity. looks. Qed.
Lemma harden_looks conn : quiet (harden_connection conn).
Proof. unfold harden_connection. looks. Qed.
Lemma copy_snapshot_looks file snapshot destination max : quiet (copy_snapshot file snapshot destination max).
Proof. unfold copy_snapshot. looks. Qed.
#[local] Hint Resolve validation_looks harden_looks copy_snapshot_looks : looks.

Lemma copy_main_looks prefix main : quiet (copy_main prefix main).
Proof. unfold copy_main. looks. Qed.
#[local] Hint Resolve copy_main_looks : looks.

Lemma raw_main_looks main sidecars : quiet (validate_raw_main_database main sidecars root).
Proof. unfold validate_raw_main_database, persistent_object_count. looks. Qed.
#[local] Hint Resolve raw_main_looks : looks.

Lemma guarded_looks : quiet (guarded path root).
Proof. unfold guarded. looks. Qed.

Lemma db_returns_any {A} (m : Db Env A) Q : spec m Q -> returns m (λ _ _, True).
Proof. intros Hm. by eapply spec_weaken. Qed.
Lemma looks_return {A} (m : Db Env A) : quiet m -> returns m (λ _ _, True).
Proof. apply db_returns_any. Qed.

(** ** What the guards establish *)

Lemma inspect_main_returns :
  returns (inspect_main path) (λ main l, OpenRead path (Ok (mg_file main)) ∈ l /\
    exists m, FileStat (mg_file main) (Ok m) ∈ l /\ mg_snapshot main = file_snapshot m).
Proof.
  unfold inspect_main, inspect_file. db_step.
  eapply (returns_bind _ _ (λ r l, OpenRead path (Ok r.1) ∈ l /\
    exists m, FileStat r.1 (Ok m) ∈ l /\ r.2 = file_snapshot m)).
  - repeat db_step. cbn. split; [set_solver|]. eexists. split; [|done]. set_solver.
  - intros [fd snapshot] l (? & m & ? & ?). db_step. cbn in *. split; [set_solver|]. exists m. set_solver.
Qed.

Lemma copy_main_returns prefix main :
  returns (copy_main prefix main) (λ copy l, exists source destination limit,
    CloneFd (mg_file main) (Ok source) ∈ l /\ CreateNew copy (Ok destination) ∈ l /\
    CopyFd source destination limit (Ok (fs_size (mg_snapshot main))) ∈ l).
Proof.
  unfold copy_main. do 2 db_step.
  eapply (returns_bind _ _ (λ _ l, exists source limit,
    CloneFd (mg_file main) (Ok source) ∈ l /\ CopyFd source a0 limit (Ok (fs_size (mg_snapshot main))) ∈ l)).
  - unfold copy_snapshot. repeat db_step. bool_prop. subst. exists a3, (MAX_RAW_DATABASE_SNAPSHOT_BYTES + 1). set_solver.
  - intros _ l (source & limit & ? & ?). db_step. exists source, a0, limit. set_solver.
Qed.

Lemma raw_main_returns main sidecars m :
  mg_snapshot main = file_snapshot m ->
  returns (validate_raw_main_database main sidecars root) (λ _ l,
    exists source destination copy conn limit,
      CloneFd (mg_file main) (Ok source) ∈ l /\ CreateNew copy (Ok destination) ∈ l /\
      CopyFd source destination limit (Ok (st_size m)) ∈ l /\ OpenSqlite copy false (Ok conn) ∈ l /\ vouched conn l).
Proof.
  intros Hm. unfold validate_raw_main_database. eapply returns_bind; [apply copy_main_returns|].
  intros copy l1 (source & destination & limit & ? & ? & Hcopy). rewrite Hm in Hcopy.
  eapply returns_bind; [apply looks_return, revalidate_all_looks|]. intros ? l2 _. db_step.
  eapply returns_bind; [apply looks_return, harden_looks|]. intros ? l3 _. unfold persistent_object_count. do 2 db_step.
  eapply returns_bind; [apply validation_returns|]. intros ? l4 Hv.
  eapply returns_weaken; [apply looks_return, revalidate_all_looks|]. intros ? l5 _.
  exists source, destination, copy, a0, limit. split_and!; [set_solver..|]. eapply vouched_mono; [|exact Hv]. set_solver.
Qed.

(** Once the guards stand, a copy has been vouched for. *)
Lemma guarded_returns : returns (guarded path root) (λ _ l, copy_vouched l).
Proof.
  unfold guarded. eapply returns_bind; [apply looks_return, inspect_sidecars_looks|]. intros sidecars l1 _.
  eapply returns_bind; [apply inspect_main_returns|]. intros main l2 (? & m & ? & Hm).
  eapply returns_bind; [apply looks_return, revalidate_all_looks|]. intros ? l3 _.
  eapply returns_bind; [by apply raw_main_returns|]. intros ? l4 (source & destination & copy & conn & limit & ? & ? & ? & ? & Hv).
  eapply returns_bind; [apply looks_return, revalidate_all_looks|]. intros ? l5 _. db_step.
  exists (mg_file main), source, destination, copy, conn, limit, m. split_and!; [set_solver..|].
  eapply vouched_mono; [|exact Hv]. set_solver.
Qed.

(** ** After the guards *)

(** Statements change databases only through [conn]. *)
Definition only_through (conn : option Conn) (e : DbEvent) : Prop :=
  changed_through e = None \/ changed_through e = conn.

Lemma quiet_only_through conn e : writes e = false -> only_through conn e.
Proof. left. destruct e; try done; cbn in *; by apply bool_decide_eq_false in H1. Qed.

Lemma quiet_emits conn {A} (m : Db Env A) : quiet m -> emits (only_through conn) m.
Proof. intros Hm. eapply emits_impl; [|exact Hm]. intros e. apply quiet_only_through. Qed.

(** As [looks], for programs that may let SQLite write. *)
Local Ltac through :=
  repeat (cbv beta zeta; match goal with
  | |- emits _ (bind_ok _ _) => apply emits_bind_ok; [|intros ?]
  | |- emits _ (bind _ _) => apply emits_bind; [|intros ?]
  | |- emits _ (io _ _ _) => unfold io
  | |- emits _ (sql _ _) => apply emits_call; intros ?; first [by left|by right]
  | |- emits _ (syscall _ _) => apply emits_call; intros ?; first [by left|by right]
  | |- emits _ (check _ _) => apply emits_ret
  | |- emits _ (ret _) => apply emits_ret
  | |- emits _ (ok _) => apply emits_ret
  | |- emits _ (fail _) => apply emits_ret
  | |- emits _ (match ?x with _ => _ end) => destruct x
  | |- emits _ _ => apply quiet_emits; solve [eauto with looks nocore]
  end).

Lemma rollback_through conn main sidecars :
  emits (only_through conn) (validate_private_rollback_journal_recovery main sidecars root).
Proof. unfold validate_private_rollback_journal_recovery. through. Qed.

Lemma open_guarded_through conn main sidecars read_write : emits (only_through conn) (open_guarded path main sidecars read_write).
Proof. unfold open_guarded. through. Qed.

(** With a vouched copy, and a vouched connection for the statements. *)
Lemma earned_careful {A} before conn (m : Db Env A) :
  copy_vouched before -> (forall c, conn = Some c -> vouched c before) -> emits (only_through conn) m ->
  spec m (λ _ l, careful before l).
Proof.
  intros Hc Hv Hm. eapply spec_weaken; [exact Hm|]. intros ? l Hl. apply careful_earned; [done|].
  eapply Forall_impl; [exact Hl|]. intros e [He|He] c; rewrite He; [done|apply Hv].
Qed.

Lemma copy_vouched_after l l' : copy_vouched l -> copy_vouched (l ++ l').
Proof. apply copy_vouched_mono. set_solver. Qed.
Lemma copy_vouched_before l l' : copy_vouched l' -> copy_vouched (l ++ l').
Proof. apply copy_vouched_mono. set_solver. Qed.

(** What runs behind the guards. *)
Lemma guarded_careful {A} before (k : MainDatabaseGuard * SqliteSidecarGuard -> Db Env A) :
  (forall g, emits (only_through None) (k g)) ->
  spec (bind_ok (guarded path root) k) (λ _ l, careful before l) /\
  returns (bind_ok (guarded path root) k) (λ _ l, copy_vouched l).
Proof.
  intros Hk. split.
  - eapply careful_bind; [apply quiet_careful, guarded_looks|apply guarded_returns|]. intros g l Hl.
    apply (earned_careful _ None); [by apply copy_vouched_before|done|apply Hk].
  - eapply returns_bind; [apply guarded_returns|]. intros g l Hl. eapply spec_weaken; [apply Hk|].
    intros r l' _ a _. by apply copy_vouched_after.
Qed.

Lemma preflight_careful before :
  spec (preflight_existing_database path root) (λ _ l, careful before l) /\
  returns (preflight_existing_database path root) (λ _ l, copy_vouched l).
Proof.
  assert (Hk : forall g : MainDatabaseGuard * SqliteSidecarGuard, emits (only_through None)
    (let '(main, sidecars) := g in
     attempt recover_rollback_journal <- validate_private_rollback_journal_recovery main sidecars root;
     attempt _ <- revalidate_all main sidecars;
     open_guarded path main sidecars recover_rollback_journal)).
  { intros [main sidecars]. apply emits_bind_ok; [apply rollback_through|]. intros recover.
    apply emits_bind_ok; [apply quiet_emits, revalidate_all_looks|]. intros _. apply open_guarded_through. }
  destruct (guarded_careful before _ Hk) as [Hc Hr]. split.
  - eapply careful_bind; [exact Hc|exact Hr|]. intros conn l Hl. apply quiet_careful, validation_looks.
  - eapply returns_bind; [exact Hr|]. intros conn l Hl. eapply returns_weaken; [apply looks_return, validation_looks|].
    intros ? l' _. by apply copy_vouched_after.
Qed.

Lemma careful_look {A B} before (m : Db Env A) (k : A -> Db Env B) :
  quiet m -> (forall a before, spec (k a) (λ _ l, careful before l)) -> spec (bind_ok m k) (λ _ l, careful before l).
Proof. intros Hm Hk. eapply careful_bind; [by apply quiet_careful|by apply looks_return|]. intros a l _. apply Hk. Qed.

Lemma adopt_careful before : spec (adopt_database path root) (λ _ l, careful before l).
Proof.
  unfold adopt_database. apply careful_look; [looks|]. intros m b. apply careful_look; [looks|]. intros _ b'.
  destruct (preflight_careful b') as [Hc Hr]. eapply careful_bind; [exact Hc|exact Hr|]. intros ? l Hl.
  apply (earned_careful _ None); [by apply copy_vouched_before|done|through].
Qed.

Lemma prepare_careful before : spec (prepare_database_file path root) (λ _ l, careful before l).
Proof.
  unfold prepare_database_file. apply careful_look; [looks|]. intros _ b1. apply careful_look; [looks|]. intros sidecars b2.
  apply careful_look; [unfold refuse_orphaned_sidecars; looks|]. intros _ b3. apply careful_look; [looks|]. intros m b4.
  apply careful_look; [looks|]. intros _ b5. apply spec_bind_call. intros created.
  assert (Hafter : forall l, careful (b5 ++ [CreateNew path created]) l -> careful b5 (CreateNew path created :: l)).
  { intros l Hl. apply (db_careful_app b5 [_] l); [|done]. apply careful_quiet. by constructor. }
  eapply spec_weaken; [|intros r l; apply Hafter]. cbv beta. destruct created as [fd|error].
  - apply quiet_careful. unfold publish_new_database. looks.
  - destruct (bool_decide _); [apply adopt_careful|]. apply quiet_careful. looks.
Qed.

Lemma initialize_through conn : emits (only_through (Some conn))
  (attempt _ <- configure_validated_connection conn;
   attempt _ <- initialize_schema conn root;
   sql (dh_recover conn) (RecoverDatabase conn)).
Proof. unfold configure_validated_connection, initialize_schema, create_database, persistent_object_count. through. Qed.

Lemma open_initialized_careful before : spec (open_initialized_connection path root) (λ _ l, careful before l).
Proof.
  unfold open_initialized_connection, open_connection.
  destruct (guarded_careful before (λ '(main, sidecars), open_guarded path main sidecars true)) as [Hc Hr].
  { intros [main sidecars]. apply open_guarded_through. }
  eapply careful_bind; [exact Hc|exact Hr|]. intros conn l Hl.
  assert (Hinit : spec (initialize_database conn root) (λ _ l', careful (before ++ l) l')).
  { unfold initialize_database.
    eapply careful_bind; [apply quiet_careful, validation_looks|apply validation_returns|]. intros ? l' Hv.
    apply (earned_careful _ (Some conn)); [..|apply initialize_through].
    - apply copy_vouched_after. by apply copy_vouched_before.
    - intros c [= <-]. eapply vouched_mono; [|exact Hv]. set_solver. }
  eapply careful_bind; [exact Hinit|by apply (db_returns_any _ _ Hinit)|]. intros ? l' _. apply quiet_careful, emits_ret.
Qed.

(** C6: Whatever SQLite and the kernel answer, by the time anything can change a state
    database - its permissions, SQLite opening it to write, a persistent setting,
    the schema, the recovery of its records - a private and complete copy of the
    file has been found to be empty or to have exactly the current schema, the
    metadata of this version and the identity of the shared root, and to be intact;
    and a statement that changes it runs on a connection for which the same was
    found. *)
Theorem database_is_trusted_before_it_changes :
  spec (open_state_database path root) (λ _ events, forall l1 e l2,
    events = l1 ++ e :: l2 -> writes e = true ->
    copy_vouched l1 /\ forall conn, changed_through e = Some conn -> vouched conn l1).
Proof.
  change (spec (open_state_database path root) (λ _ l, careful [] l)). unfold open_state_database.
  eapply careful_bind; [apply prepare_careful|by eapply db_returns_any, (prepare_careful [])|].
  intros ? l _. apply open_initialized_careful.
Qed.

(** The readiness probe of the store never commits: it only looks, until it begins
    a transaction; and a transaction it began ends with a rollback. *)
Theorem readiness_probe_is_rolled_back conn :
  spec (probe_readiness conn) (λ _ events, exists looked rest, events = looked ++ rest /\
    Forall (λ e, writes e = false) looked /\
    (rest = [] \/ (exists m, rest = [BeginImmediate conn (Err m)]) \/
     exists middle answer, rest = BeginImmediate conn (Ok tt) :: middle ++ [Rollback conn answer] /\
       forall c r, Commit c r ∉ middle)).
Proof.
  unfold probe_readiness. eapply spec_bind_ok; [apply product_metadata_looks| |].
  2: { intros e l Hl. exists l, []. split_and!; [by rewrite app_nil_r|done|by left]. }
  intros [] looked Hl.
  eapply (spec_bind_ok _ _ (λ r l, l = [BeginImmediate conn r])); [by apply spec_call| |].
  2: { intros m ? ->. exists looked, [BeginImmediate conn (Err m)]. split_and!; [done|done|]. right; left. by exists m. }
  intros [] ? ->.
  eapply (spec_bind _ _ (λ _ l, forall c r, Commit c r ∉ l)).
  { match goal with |- spec ?m _ => assert (emits (λ e, match e with Commit _ _ => False | _ => True end) m) as Hm end.
    { repeat (apply emits_bind_ok; [|intros ?]); [by apply emits_call|apply emits_ret|by apply emits_call]. }
    eapply spec_weaken; [exact Hm|]. intros x l Hn c r Hin. by apply (proj1 (Forall_forall _ _) Hn) in Hin. }
  intros probed middle Hmid. apply spec_bind_call. intros answer.
  apply spec_attempt_ret; [intros [] _; apply spec_ret|intros e _].
  all: exists looked, (BeginImmediate conn (Ok tt) :: middle ++ [Rollback conn answer]).
  all: (split; [done|]); (split; [done|]); right; right; by exists middle, answer.
Qed.
End trust.

(** ** A database that opens *)
Module DatabaseExamples.
Definition db_file : Stat := mkStat 1 7 33152 1 0 0 0 0 0 0 0.
Definition db_directory : Stat := mkStat 1 2 16832 2 0 0 0 0 0 0 0.
Definition gone : IoError := mkIoError NotFound (Some 2) [].
Definition there : IoError := mkIoError AlreadyExists (Some 17) [].
Definition db_path : bytes := bs "/s/state.sqlite3".
Definition root : RootIdentity := mkRoot 1 2.
Definition no_rows : SchemaRows := mkSchemaRows [] (λ _, None).

#[local] Instance foundation : Foundation := {
  validate_product_metadata_ddl _ := true;
  foundation_schema_fingerprint _ := Some (bs "f");
  is_schema_identity _ := true;
  verify_current_schema _ _ _ := true;
  CARGO_PKG_VERSION := bs "1"
}.

(** A host with an empty database file of the service; [objects] is what the
    database answers when its objects are counted. *)
#[local] Instance db_host : DbHost Z := {
  dh_link_stat p env := (if bool_decide (p = db_path) then Ok db_file else Err gone, env);
  dh_path_stat _ env := (Ok db_directory, env);
  dh_open _ env := (Ok 3, env);
  dh_fstat _ env := (Ok db_file, env);
  dh_create_new p env := (if bool_decide (p = db_path) then Err there else Ok 4, env);
  dh_fchmod _ _ env := (Ok tt, env);
  dh_fsync _ env := (Ok tt, env);
  dh_sync_directory _ env := (Ok tt, env);
  dh_chmod _ _ env := (Ok tt, env);
  dh_temp_dir _ env := (Ok (bs "/tmp/x"), env);
  dh_clone _ env := (Ok 5, env);
  dh_seek _ env := (Ok tt, env);
  dh_copy _ _ _ env := (Ok 0, env);
  dh_sqlite _ _ env := (Ok 9, env);
  dh_busy_timeout _ _ env := (Ok tt, env);
  dh_db_config _ _ value env := (Ok value, env);
  dh_pragma _ _ _ env := (Ok tt, env);
  dh_query_pragma _ name env :=
    (Ok (if bool_decide (name = bs "synchronous") then 3 else if bool_decide (name = bs "foreign_keys") then 1 else 0), env);
  dh_count_objects _ env := (Ok env, env);
  dh_schema _ env := (Ok no_rows, env);
  dh_current_schema env := (Ok no_rows, env);
  dh_metadata_ddl _ env := (Ok [], env);
  dh_metadata_rows _ env := (Ok [], env);
  dh_foundation_rows _ env := (Ok [], env);
  dh_current_rows env := (Ok [], env);
  dh_load_meta _ key env := (Ok (Some (u64_to_be_bytes (if bool_decide (key = ROOT_DEVICE) then 1 else 2))), env);
  dh_quick_check _ env := (Ok (bs "ok"), env);
  dh_journal_mode _ env := (Ok (bs "delete"), env);
  dh_begin _ env := (Ok tt, env);
  dh_create_schema _ env := (Ok tt, env);
  dh_insert_metadata _ _ env := (Ok tt, env);
  dh_insert_root _ _ _ env := (Ok tt, env);
  dh_commit _ env := (Ok tt, env);
  dh_recover _ env := (Ok tt, env);
  dh_count_meta _ env := (Ok 4, env);
  dh_upsert_probe _ env := (Ok tt, env);
  dh_rollback _ env := (Ok tt, env)
}.

(** An empty database is initialized, one of the program is recovered, and one
    that belongs to another root is left alone. *)
Example databases_open :
  let opened objects root := open_state_database db_path root (mkWorld objects []) in
  let changes objects root := omap changed_through (w_log (opened objects root).2) in
  (opened 0 root).1 = Ok 9 /\ changes 0 root = [9; 9; 9; 9; 9; 9; 9] /\
  (opened 5 root).1 = Ok 9 /\ changes 5 root = [9; 9] /\
  (opened 5 (mkRoot 1 3)).1 = Err (bs "The state database is bound to a different shared root inode") /\
  existsb (writes db_path) (w_log (opened 5 (mkRoot 1 3)).2) = false.
Proof. vm_compute. auto 10. Qed.
End DatabaseExamples.
