(* ===== verification/Config.v ===== *)
(** The configuration: accounts, settings, the checks they pass before the
    server is built, and the file they are read from ([src/src/args.rs],
    [src/src/auth.rs]).

    The command line is what [clap] parsed, the YAML reader of the file and the
    checks of user names and password hashes by the administration platform are
    parameters.  Loops over the ancestors of a path use the path's length as fuel:
    a parent is shorter. *)

From S2P Require Import Prelude Bytes StdPath Utils Problem Revisions RootedOs LogText AccessLog StartupHost UploadApi.
From stdpp Require Import base numbers list gmap strings sorting.
From Stdlib Require Import Ascii.

Local Open Scope Z_scope.

Definition DEFAULT_MAX_UPLOAD_SIZE : Z := 100 * 1024 * 1024 * 1024.
Definition DEFAULT_UPLOAD_IDLE_TIMEOUT : Z := 60.
Definition DEFAULT_UPLOAD_TOTAL_TIMEOUT : Z := 24 * 60 * 60.
Definition DEFAULT_MAX_CONCURRENT_UPLOADS : Z := 4.
Definition DEFAULT_MIN_FREE_SPACE : Z := 1024 * 1024 * 1024.
Definition DEFAULT_MAX_CONNECTIONS : Z := 256.
Definition DEFAULT_MAX_SEARCH_ENTRIES : Z := 10000.
Definition MAX_SEARCH_ENTRIES : Z := 100000.
Definition DEFAULT_MAX_CONCURRENT_SEARCHES : Z := 2.
Definition DEFAULT_REQUEST_TIMEOUT : Z := 300.
Definition MAX_TIMEOUT_SECONDS : Z := 365 * 24 * 60 * 60.
Definition MAX_CONFIG_BYTES : Z := 1024 * 1024.
Definition CONFIG_FILE_TYPE_MASK : Z := 61440.
Definition CONFIG_REGULAR_FILE_TYPE : Z := 32768.
Definition CONFIG_PERMISSION_MASK : Z := 4095.
Definition CONFIG_POSIX_ACL_XATTR : bytes := bs "system.posix_acl_access".
Definition MAX_BIND_ADDRESSES : Z := 128.
Definition STATE_DATABASE_FILE_NAME : bytes := bs "state.sqlite3".
(** [tokio::sync::Semaphore::MAX_PERMITS] on a 64-bit platform *)
Definition MAX_PERMITS : Z := 2 ^ 61 - 1.

(** ** Addresses *)

(** [std::net::IpAddr]: the address as a number. *)
Inductive IpAddr := V4 (address : Z) | V6 (address : Z).

#[export] Instance IpAddr_eq_dec : EqDecision IpAddr.
Proof. solve_decision. Defined.

Definition is_loopback (ip : IpAddr) : bool :=
  match ip with V4 a => Z.shiftr a 24 =? 127 | V6 a => a =? 1 end.

Definition ip_leb (a b : IpAddr) : bool :=
  match a, b with V4 x, V4 y | V6 x, V6 y => x <=? y | V4 _, V6 _ => true | V6 _, V4 _ => false end.

Fixpoint insert_ip (ip : IpAddr) (l : list IpAddr) : list IpAddr :=
  match l with
  | [] => [ip]
  | x :: l' => if ip_leb ip x then ip :: l else x :: insert_ip ip l'
  end.
(** [sort_unstable]; equal addresses are indistinguishable. *)
Definition sort_ips (l : list IpAddr) : list IpAddr := foldr insert_ip [] l.

(** [windows(2).any(|pair| pair[0] == pair[1])] *)
Fixpoint has_adjacent_pair (l : list IpAddr) : bool :=
  match l with
  | a :: (b :: _) as l' => bool_decide (a = b) || has_adjacent_pair l'
  | _ => false
  end.

(** ** Accounts *)

(** [STATIC_ADMINISTRATORS_MAX], [require_canonical_administrator_username] and
    [require_current_password_hash] of the platform. *)
Class AdminLib := {
  STATIC_ADMINISTRATORS_MAX : Z;
  is_canonical_username : bytes -> bool;
  is_current_password_hash : bytes -> bool
}.

Abbreviation AuthConfig := (gmap bytes bytes).

Section accounts.
Context `{AdminLib}.

Definition numbered (before : string) (number : Z) (after : string) : bytes :=
  bs before ++ u64_to_string number ++ bs after.

Definition colon : ascii := byte_chr 58.

Fixpoint add_accounts (index : Z) (accounts : list bytes) (users : AuthConfig) : result bytes AuthConfig :=
  match accounts with
  | [] => Ok users
  | account :: accounts =>
      let number := index + 1 in
      '(user, password) ← ok_or (split_once colon account)
        (numbered "Invalid auth account #" number ": expected `username:<argon2id PHC>`");
      _ ← ensure (negb (beqb user [] || beqb password []))
        (numbered "Invalid auth account #" number
           ": administrator username and Argon2id PHC must not be empty");
      _ ← ensure (is_canonical_username user)
        (numbered "Invalid administrator username in auth account #" number "");
      _ ← ensure (bool_decide (users !! user = None))
        (numbered "Invalid auth account #" number ": duplicate administrator username");
      _ ← ensure (is_current_password_hash password) (numbered "Invalid Argon2id PHC in auth account #" number "");
      add_accounts number accounts (<[user := password]> users)
  end.

(** [AuthConfig::new]. *)
Definition new_auth (raw_accounts : list bytes) : result bytes AuthConfig :=
  _ ← ensure (negb (STATIC_ADMINISTRATORS_MAX <? Z.of_nat (length raw_accounts)))
    (bs "Static account capacity exceeds the Foundation profile");
  add_accounts 0 raw_accounts ∅.

Definition has_users (auth : AuthConfig) : bool := negb (bool_decide (auth = ∅)).
End accounts.

(** ** Settings *)

Record Args := mkArgs {
  development : bool;
  serve_path : bytes;
  state_dir : option bytes;
  addrs : list IpAddr;
  port : Z;
  auth : AuthConfig;
  http_logger : HttpLogger;
  log_file : option bytes;
  max_upload_size : Z;
  upload_idle_timeout : Z;
  upload_total_timeout : Z;
  max_concurrent_uploads : Z;
  min_free_space : Z;
  max_connections : Z;
  max_search_entries : Z;
  max_concurrent_searches : Z;
  request_timeout : Z
}.

Definition default_serve_path : bytes := bs ".".
Definition default_addrs : list IpAddr := [V4 (127 * 2 ^ 24 + 1)].
Definition default_port : Z := 5000.

(** [Args::default]; its logger is that of [DEFAULT_LOG_FORMAT]. *)
Definition default_args (default_logger : HttpLogger) : Args :=
  mkArgs false default_serve_path None default_addrs default_port ∅ default_logger None DEFAULT_MAX_UPLOAD_SIZE
    DEFAULT_UPLOAD_IDLE_TIMEOUT DEFAULT_UPLOAD_TOTAL_TIMEOUT DEFAULT_MAX_CONCURRENT_UPLOADS DEFAULT_MIN_FREE_SPACE
    DEFAULT_MAX_CONNECTIONS DEFAULT_MAX_SEARCH_ENTRIES DEFAULT_MAX_CONCURRENT_SEARCHES DEFAULT_REQUEST_TIMEOUT.

(** [state_database_path] of the settings, and of validated ones. *)
Definition state_database_path (args : Args) : option bytes :=
  (λ dir, path_push dir STATE_DATABASE_FILE_NAME) <$> state_dir args.

(** [parse_bind_addrs]; [parse_ip] is [str::parse::<IpAddr>]. *)
Definition parse_bind_addrs (parse_ip : bytes -> option IpAddr) (texts : list bytes) : result bytes (list IpAddr) :=
  collect ((λ text, ok_or (parse_ip text)
    (bs "Invalid bind address `" ++ text ++ bs "`: expected an IP address")) <$> texts).

(** ** Identities of paths *)

Record ObjectIdentity := mkObject { oi_device : Z; oi_inode : Z }.
Record EntryIdentity := mkEntry { ei_parent : ObjectIdentity; ei_name : bytes }.
Record PathIdentity := mkIdentity {
  pi_entry_path : bytes;
  pi_resolved_path : option bytes;
  pi_entry : EntryIdentity;
  pi_object : option ObjectIdentity;
  pi_links : option Z
}.

#[export] Instance ObjectIdentity_eq_dec : EqDecision ObjectIdentity.
Proof. solve_decision. Defined.
#[export] Instance EntryIdentity_eq_dec : EqDecision EntryIdentity.
Proof. solve_decision. Defined.

Definition from_metadata (m : Stat) : ObjectIdentity := mkObject (st_dev m) (st_ino m).

Definition shares_entry_or_object_with (a b : PathIdentity) : bool :=
  bool_decide (pi_entry a = pi_entry b) ||
  match pi_object a, pi_object b with Some x, Some y => bool_decide (x = y) | _, _ => false end.

(** The parents of a path, nearest first. *)
Fixpoint parents_from (fuel : nat) (p : bytes) : list bytes :=
  match fuel with
  | O => []
  | S fuel => match path_parent p with Some q => q :: parents_from fuel q | None => [] end
  end.
Definition parents (p : bytes) : list bytes := parents_from (length p) p.

Section identities.
Context {Env : Type} `{StartupOs Env}.

(** A path made absolute by the current directory. *)
Definition absolute_path (path : bytes) : Startup Env bytes :=
  if has_root path then ok path
  else
    do dir <- current_dir;
    ret (dir ← context dir (bs "Failed to determine the current directory"); Ok (path_push dir path)).

Definition resolve_object (entry_path name : bytes) : Startup Env (option (ObjectIdentity * Z * bytes)) :=
  do found <- path_metadata entry_path;
  match found with
  | Err e =>
      if bool_decide (io_kind e = NotFound) then ok None
      else fail (bs "Failed to inspect " ++ name ++ bs " path " ++ shown entry_path)
  | Ok metadata =>
      do resolved <- canonicalize entry_path;
      attempt resolved_path <- ret (context resolved (bs "Failed to resolve " ++ name ++ bs " path " ++ shown entry_path));
      do found <- path_metadata resolved_path;
      attempt resolved_metadata <-
        ret (context found (bs "Failed to verify resolved " ++ name ++ bs " path " ++ shown resolved_path));
      attempt _ <- require (bool_decide (from_metadata resolved_metadata = from_metadata metadata))
        (name ++ bs " path " ++ shown entry_path ++ bs " changed while its identity was being inspected");
      ok (Some (from_metadata metadata, st_nlink resolved_metadata, resolved_path))
  end.

Definition inspect_with_expected_object (path name : bytes) (expected : option ObjectIdentity)
    : Startup Env PathIdentity :=
  attempt absolute <- absolute_path path;
  attempt file_name <- ret (ok_or (path_file_name absolute) (name ++ bs " path " ++ shown path ++ bs " must name a file"));
  attempt parent <- ret (ok_or (path_parent absolute)
    (name ++ bs " path " ++ shown path ++ bs " must have a parent directory"));
  do canonical <- canonicalize parent;
  attempt parent <- ret (context canonical
    (bs "Failed to access " ++ name ++ bs " parent directory " ++ shown parent));
  do found <- path_metadata parent;
  attempt parent_metadata <- ret (context found
    (bs "Failed to inspect " ++ name ++ bs " parent directory " ++ shown parent));
  attempt _ <- require (is_directory parent_metadata) (name ++ bs " parent " ++ shown parent ++ bs " must be a directory");
  let entry_path := path_push parent file_name in
  attempt object <- resolve_object entry_path name;
  attempt _ <- require (negb (match expected with
                              | Some e => bool_decide (Some e <> (fst ∘ fst) <$> object)
                              | None => false
                              end))
    (name ++ bs " path " ++ shown entry_path ++ bs " changed after it was securely read");
  ok (mkIdentity entry_path (snd <$> object) (mkEntry (from_metadata parent_metadata) file_name)
        ((fst ∘ fst) <$> object) ((snd ∘ fst) <$> object)).

Definition inspect (path name : bytes) : Startup Env PathIdentity := inspect_with_expected_object path name None.

Fixpoint any_ancestor_is (shared_root_object : ObjectIdentity) (ancestors : list bytes) : Startup Env bool :=
  match ancestors with
  | [] => ok false
  | path :: ancestors =>
      do found <- path_metadata path;
      attempt metadata <- ret (context found
        (bs "Failed to inspect ancestor " ++ shown path ++ bs " while checking the shared-path boundary"));
      if bool_decide (from_metadata metadata = shared_root_object) then ok true
      else any_ancestor_is shared_root_object ancestors
  end.

Definition resolves_within_shared_root (i : PathIdentity) (shared_root : bytes) (object : ObjectIdentity)
    : Startup Env bool :=
  if path_starts_with (pi_entry_path i) shared_root ||
     match pi_resolved_path i with Some path => path_starts_with path shared_root | None => false end ||
     bool_decide (pi_object i = Some object)
  then ok true
  else any_ancestor_is object (parents (pi_entry_path i)).

Definition ensure_outside_shared_root (i : PathIdentity) (name shared_root : bytes) : Startup Env unit :=
  do found <- path_metadata shared_root;
  attempt metadata <- ret (context found
    (bs "Failed to inspect shared path " ++ shown shared_root ++ bs " while validating " ++ name));
  attempt inside <- resolves_within_shared_root i shared_root (from_metadata metadata);
  require (negb inside)
    (name ++ bs " " ++ shown (pi_entry_path i) ++ bs " must not be inside or resolve into shared path " ++
     shown shared_root).

Definition ensure_distinct_path_identities (l : PathIdentity) (left_name : bytes) (r : PathIdentity)
    (right_name : bytes) : Startup Env unit :=
  require (negb (shares_entry_or_object_with l r))
    (left_name ++ bs " " ++ shown (pi_entry_path l) ++ bs " conflicts by entry or object identity with " ++
     right_name ++ bs " " ++ shown (pi_entry_path r)).
End identities.

(** ** Directories and files of the service *)

Section validation.
Context {Env : Type} `{StartupOs Env}.

Definition sanitize_path (path : bytes) : Startup Env bytes :=
  do found <- syscall (su_exists path) (PathExists path);
  if negb found then fail (bs "Path " ++ shown path ++ bs " doesn't exist")
  else
    do dir <- current_dir;
    match dir with
    | Err _ => fail (bs "Failed to access path " ++ shown path)
    | Ok dir =>
        do resolved <- canonicalize (path_push dir path);
        ret (context resolved (bs "Failed to access path " ++ shown path))
    end.

Definition sanitize_state_db_path (path serve_path : bytes) : Startup Env bytes :=
  attempt absolute <- absolute_path path;
  attempt file_name <- ret (ok_or (path_file_name absolute)
    (bs "State database path " ++ shown path ++ bs " must name a file"));
  attempt parent <- ret (ok_or (path_parent absolute)
    (bs "State database path " ++ shown path ++ bs " must have a parent directory"));
  do canonical <- canonicalize parent;
  attempt parent <- ret (context canonical
    (bs "Failed to access state database parent directory " ++ shown parent));
  do found <- path_metadata parent;
  attempt metadata <- ret (context found
    (bs "Failed to inspect state database parent directory " ++ shown parent));
  attempt _ <- require (is_directory metadata) (bs "State database parent " ++ shown parent ++ bs " must be a directory");
  let state_db := path_push parent file_name in
  attempt _ <- require (negb (path_starts_with state_db serve_path))
    (bs "State database " ++ shown state_db ++ bs " must not be inside shared path " ++ shown serve_path);
  do found <- symlink_metadata state_db;
  match found with
  | Ok metadata =>
      attempt _ <- require (negb (is_symlink metadata))
        (bs "State database " ++ shown state_db ++ bs " must not be a symbolic link");
      attempt _ <- require (is_regular metadata)
        (bs "State database " ++ shown state_db ++ bs " must be a regular file");
      ok state_db
  | Err e =>
      if bool_decide (io_kind e = NotFound) then ok state_db
      else fail (bs "Failed to inspect state database " ++ shown state_db)
  end.

Definition trusted_owner (uid : Z) : bool := (uid =? 0) || (uid =? su_geteuid).

(** The loop of [validate_state_dir_ancestor_chain] over the remaining
    ancestors, given the metadata of the child. *)
Fixpoint check_ancestors (child : Stat) (ancestors : list bytes) : Startup Env unit :=
  match ancestors with
  | [] => ok tt
  | parent :: ancestors =>
      do found <- path_metadata parent;
      attempt metadata <- ret (context found (bs "Failed to inspect state directory ancestor " ++ shown parent));
      attempt _ <- require (is_directory metadata)
        (bs "State directory ancestor " ++ shown parent ++ bs " must be a directory");
      attempt _ <- require (trusted_owner (st_uid metadata))
        (bs "State directory ancestor " ++ shown parent ++ bs " must be owned by root or the effective service user");
      attempt _ <-
        (if Z.land (permission_bits metadata) 18 =? 0 then ok tt
         else require (negb (Z.land (permission_bits metadata) 512 =? 0) && trusted_owner (st_uid child))
           (bs "State directory ancestor " ++ shown parent ++ bs " can be renamed by untrusted local users; group/other-writable ancestors require sticky-bit protection for a root- or service-owned child"));
      check_ancestors metadata ancestors
  end.

Definition validate_state_dir_ancestor_chain (dir : bytes) : Startup Env unit :=
  do found <- path_metadata dir;
  attempt metadata <- ret (context found
    (bs "Failed to inspect state directory " ++ shown dir ++ bs " while validating its ancestor chain"));
  check_ancestors metadata (parents dir).

(** [components().collect::<PathBuf>()] *)
Definition without_dots (path : bytes) : bytes := foldl path_push [] (component_bytes <$> components path).

Definition sanitize_state_dir_path (path serve_path : bytes) : Startup Env bytes :=
  attempt absolute <- absolute_path path;
  let absolute := without_dots absolute in
  do found <- symlink_metadata absolute;
  attempt metadata <- ret (context found (bs "Failed to inspect state directory " ++ shown path));
  attempt _ <- require (negb (is_symlink metadata))
    (bs "State directory " ++ shown path ++ bs " must not be a symbolic link");
  attempt _ <- require (is_directory metadata) (bs "State directory " ++ shown path ++ bs " must be a directory");
  do canonical <- canonicalize absolute;
  attempt dir <- ret (context canonical (bs "Failed to access state directory " ++ shown path));
  do found <- path_metadata dir;
  attempt metadata <- ret (context found (bs "Failed to inspect state directory " ++ shown dir));
  attempt _ <- require (st_uid metadata =? su_geteuid)
    (bs "State directory " ++ shown dir ++ bs " must be owned by the effective service user");
  attempt _ <- require (permission_bits metadata =? 448)
    (bs "State directory " ++ shown dir ++ bs " must have permissions 0700");
  attempt _ <- validate_state_dir_ancestor_chain dir;
  attempt _ <- require (negb (path_starts_with dir serve_path || path_starts_with serve_path dir))
    (bs "State directory " ++ shown dir ++ bs " must not overlap shared path " ++ shown serve_path);
  attempt _ <- sanitize_state_db_path (path_push dir STATE_DATABASE_FILE_NAME) serve_path;
  ok dir.

(** The database and the files SQLite keeps beside it. *)
Definition database_files (state_db : bytes) : list bytes :=
  state_db :: ((λ suffix, state_db ++ suffix) <$> [bs "-journal"; bs "-wal"; bs "-shm"]).

Fixpoint ensure_no_conflict (state_db : bytes) (files : list bytes) (other : PathIdentity) (other_name : bytes)
    : Startup Env unit :=
  match files with
  | [] => ok tt
  | file :: files =>
      attempt identity <- inspect file (bs "SQLite state database or sidecar file");
      attempt _ <- require (negb (shares_entry_or_object_with other identity))
        (other_name ++ bs " " ++ shown (pi_entry_path other) ++ bs " conflicts with SQLite state database " ++
         shown state_db ++ bs " or one of its sidecar files by entry or object identity");
      ensure_no_conflict state_db files other other_name
  end.
Definition ensure_no_state_db_identity_conflict (state_db : bytes) (other : PathIdentity) (other_name : bytes)
    : Startup Env unit := ensure_no_conflict state_db (database_files state_db) other other_name.

Definition validate_timeout (name : bytes) (seconds : Z) : Startup Env unit :=
  attempt _ <- require (negb (seconds =? 0)) (name ++ bs " must be greater than 0");
  attempt _ <- require (seconds <=? MAX_TIMEOUT_SECONDS) (name ++ bs " must not exceed 31536000 seconds");
  do reached <- syscall (su_clock_reaches seconds) (ClockReaches seconds);
  require reached (name ++ bs " cannot be represented by the platform monotonic clock").

(** ** The checks of the settings *)

Definition set_paths (args : Args) (serve : bytes) (state log : option bytes) : Args :=
  mkArgs (development args) serve state (addrs args) (port args) (auth args) (http_logger args) log
    (max_upload_size args) (upload_idle_timeout args) (upload_total_timeout args) (max_concurrent_uploads args)
    (min_free_space args) (max_connections args) (max_search_entries args) (max_concurrent_searches args)
    (request_timeout args).

Definition validate_log_file (log : option bytes) (serve : bytes) : Startup Env (option PathIdentity) :=
  match log with
  | None => ok None
  | Some file =>
      attempt identity <- inspect file (bs "Log file");
      attempt _ <- ensure_outside_shared_root identity (bs "Log file") serve;
      attempt _ <- require (match pi_links identity with Some n => n =? 1 | None => true end)
        (bs "Existing log file " ++ shown (pi_entry_path identity) ++ bs " must have exactly one hard link");
      ok (Some identity)
  end.

(** The checks [bail!] one after the other. *)
Fixpoint check_all (checks : list (bool * bytes)) : result bytes unit :=
  match checks with
  | [] => Ok tt
  | (b, message) :: checks => _ ← ensure b message; check_all checks
  end.

Definition positive (name : string) (value : Z) : bool * bytes := (negb (value =? 0), bs name ++ bs " must be greater than 0").
Definition permitted (name : string) (value : Z) : bool * bytes :=
  (value <=? MAX_PERMITS, bs name ++ bs " must not exceed " ++ u64_to_string MAX_PERMITS).

Definition check_limits (args : Args) : result bytes unit :=
  check_all
    [(upload_idle_timeout args <=? upload_total_timeout args,
      bs "upload-total-timeout must be greater than or equal to upload-idle-timeout");
     positive "max-concurrent-uploads" (max_concurrent_uploads args);
     positive "max-connections" (max_connections args);
     positive "max-search-entries" (max_search_entries args);
     positive "max-concurrent-searches" (max_concurrent_searches args);
     (negb (bool_decide (addrs args = [])), bs "bind must contain at least one IP address");
     (negb (development args && existsb (λ ip, negb (is_loopback ip)) (addrs args)),
      bs "development mode requires exclusively loopback bind addresses");
     (Z.of_nat (length (addrs args)) <=? MAX_BIND_ADDRESSES, bs "bind must not contain more than 128 IP addresses");
     (negb (has_adjacent_pair (sort_ips (addrs args))), bs "bind must not contain duplicate IP addresses");
     (max_search_entries args <=? MAX_SEARCH_ENTRIES, bs "max-search-entries must not exceed 100000");
     permitted "max-connections" (max_connections args);
     permitted "max-concurrent-uploads" (max_concurrent_uploads args);
     permitted "max-concurrent-searches" (max_concurrent_searches args)].

Definition check_presence (args : Args) : result bytes unit :=
  check_all
    [(has_users (auth args),
      bs "At least one administrator username account is required; generate a hash with `dufs hash-password`, add it under `auth:` in a protected YAML file, then start with `--config <file>`");
     (match state_dir args with Some _ => true | None => false end,
      bs "A persistent SQLite state directory is required; use `--state-dir <dir>` or set `state-dir` in the configuration file")].

Definition validate (args : Args) : Startup Env Args :=
  attempt serve <- sanitize_path (serve_path args);
  do found <- path_metadata serve;
  attempt metadata <- ret (context found (bs "Failed to inspect shared path " ++ shown serve));
  attempt _ <- require (is_directory metadata) (bs "Shared path " ++ shown serve ++ bs " must be a directory");
  attempt log_identity <- validate_log_file (log_file args) serve;
  attempt state <- match state_dir args with
                   | Some dir => attempt dir <- sanitize_state_dir_path dir serve; ok (Some dir)
                   | None => ok None
                   end;
  let args := set_paths args serve state (pi_entry_path <$> log_identity) in
  attempt _ <- match state_database_path args, log_identity with
               | Some state_db, Some identity => ensure_no_state_db_identity_conflict state_db identity (bs "Log file")
               | _, _ => ok tt
               end;
  attempt _ <- validate_timeout (bs "upload-idle-timeout") (upload_idle_timeout args);
  attempt _ <- validate_timeout (bs "upload-total-timeout") (upload_total_timeout args);
  attempt _ <- ret (check_limits args);
  attempt _ <- validate_timeout (bs "request-timeout") (request_timeout args);
  attempt _ <- ret (check_presence args);
  ok args.
End validation.

(** ** The configuration file *)

Record ConfigFileSnapshot := mkSnapshot {
  cs_device : Z;
  cs_inode : Z;
  cs_mode : Z;
  cs_links : Z;
  cs_uid : Z;
  cs_gid : Z;
  cs_size : Z;
  cs_modified : Z * Z;
  cs_changed : Z * Z
}.

#[export] Instance ConfigFileSnapshot_eq_dec : EqDecision ConfigFileSnapshot.
Proof. solve_decision. Defined.

Definition snapshot_from_stat (m : Stat) : ConfigFileSnapshot :=
  mkSnapshot (st_dev m) (st_ino m) (st_mode m) (st_nlink m) (st_uid m) (st_gid m) (st_size m)
    (st_mtime m, st_mtime_nsec m) (st_ctime m, st_ctime_nsec m).

Record ReadConfig := mkReadConfig { rc_contents : bytes; rc_object : ObjectIdentity }.

Section config_file.
Context {Env : Type} `{StartupOs Env} (path : bytes).

Local Abbreviation at_path := (bs "Config at " ++ su_display path).

Definition ensure_config_snapshot_stable (before after : ConfigFileSnapshot) (operation : string) : Startup Env unit :=
  require (bool_decide (before = after)) (at_path ++ bs " changed " ++ bs operation).

Definition validate_config_security (s : ConfigFileSnapshot) (has_extended_acl : bool) (expected_uid expected_gid : Z)
    : Startup Env unit :=
  let permissions := Z.land (cs_mode s) CONFIG_PERMISSION_MASK in
  ret (check_all
    [(Z.land (cs_mode s) CONFIG_FILE_TYPE_MASK =? CONFIG_REGULAR_FILE_TYPE, at_path ++ bs " must be a regular file");
     (cs_links s =? 1, at_path ++ bs " must have exactly one hard link");
     ((cs_uid s =? 0) || (cs_uid s =? expected_uid),
      at_path ++ bs " must be owned by root (uid 0) or the effective service user (uid " ++
      u64_to_string expected_uid ++ bs ")");
     (bool_decide (permissions ∈ [256; 288; 384; 416]), at_path ++ bs " must have permissions 0400, 0440, 0600, or 0640");
     ((Z.land permissions 32 =? 0) || (cs_gid s =? expected_gid),
      at_path ++ bs " with group-read permissions must belong to the effective service group (gid " ++
      u64_to_string expected_gid ++ bs ")");
     (negb has_extended_acl, at_path ++ bs " must not have an extended POSIX access ACL");
     (cs_size s <=? MAX_CONFIG_BYTES, at_path ++ bs " exceeds the 1048576-byte limit")]).

Definition snapshot_open_config (fd : Fd) : Startup Env ConfigFileSnapshot :=
  do found <- fd_stat fd;
  ret (m ← context found (bs "Failed to inspect config at " ++ su_display path); Ok (snapshot_from_stat m)).

Definition config_has_extended_acl (fd : Fd) : Startup Env bool :=
  do found <- syscall (su_fgetxattr fd CONFIG_POSIX_ACL_XATTR) (FdXattr fd CONFIG_POSIX_ACL_XATTR);
  match found with
  | Ok _ => ok true
  | Err e => if (e =? NODATA) || (e =? NOTSUP) then ok false
             else fail (bs "Failed to inspect the POSIX access ACL on config at " ++ su_display path)
  end.

Definition inspect_open_config (fd : Fd) : Startup Env ConfigFileSnapshot :=
  attempt before_acl <- snapshot_open_config fd;
  attempt has_extended_acl <- config_has_extended_acl fd;
  attempt _ <- validate_config_security before_acl has_extended_acl su_geteuid su_getegid;
  attempt after_acl <- snapshot_open_config fd;
  attempt _ <- ensure_config_snapshot_stable before_acl after_acl "while its security properties were being verified";
  ok after_acl.

Definition read_open_config (fd : Fd) : Startup Env ReadConfig :=
  attempt before <- inspect_open_config fd;
  do read <- syscall (su_read fd (MAX_CONFIG_BYTES + 1)) (FdRead fd (MAX_CONFIG_BYTES + 1));
  attempt contents <- ret (context read (bs "Failed to read config at " ++ su_display path));
  attempt _ <- require (blen contents <=? MAX_CONFIG_BYTES) (at_path ++ bs " exceeds the 1048576-byte limit");
  attempt after <- inspect_open_config fd;
  attempt _ <- ensure_config_snapshot_stable before after "while it was being read";
  attempt _ <- require (is_utf8 contents) (at_path ++ bs " is not valid UTF-8");
  ok (mkReadConfig contents (mkObject (cs_device after) (cs_inode after))).

Definition read_config : Startup Env ReadConfig :=
  do opened <- open_path path [ReadOnly; NonBlock; NoFollow; CloExec] 0;
  attempt fd <- ret (context opened (bs "Failed to read config at " ++ su_display path));
  read_open_config fd.
End config_file.

(** ** The command line *)

(** What [clap] found. *)
Record ArgMatches := mkMatches {
  am_config : option bytes;
  am_serve_path : option bytes;
  am_state_dir : option bytes;
  am_port : option Z;
  am_development : bool;
  am_bind : option (list IpAddr);
  am_log_format : option bytes;
  am_log_file : option bytes;
  am_max_upload_size : option Z;
  am_upload_idle_timeout : option Z;
  am_upload_total_timeout : option Z;
  am_max_concurrent_uploads : option Z;
  am_min_free_space : option Z;
  am_max_connections : option Z;
  am_max_search_entries : option Z;
  am_max_concurrent_searches : option Z;
  am_request_timeout : option Z
}.

Section parsing.
Context {Env : Type} `{StartupOs Env} `{LogLib}.
(** [serde_yaml::from_str::<Args>]. *)
Context (yaml : bytes -> result bytes Args) (default_logger : HttpLogger).

(** The command line overrides the file. *)
Definition merge (args : Args) (m : ArgMatches) : result bytes Args :=
  logger ← match am_log_format m with Some format => parse_format format | None => Ok (http_logger args) end;
  let or_else {A} (o : option A) (a : A) := default a o in
  Ok (mkArgs
    (am_development m || development args)
    (or_else (am_serve_path m) (serve_path args))
    (match am_state_dir m with Some dir => Some dir | None => state_dir args end)
    (or_else (am_bind m) (addrs args))
    (or_else (am_port m) (port args))
    (auth args)
    logger
    (match am_log_file m with Some file => Some file | None => log_file args end)
    (or_else (am_max_upload_size m) (max_upload_size args))
    (or_else (am_upload_idle_timeout m) (upload_idle_timeout args))
    (or_else (am_upload_total_timeout m) (upload_total_timeout args))
    (or_else (am_max_concurrent_uploads m) (max_concurrent_uploads args))
    (or_else (am_min_free_space m) (min_free_space args))
    (or_else (am_max_connections m) (max_connections args))
    (or_else (am_max_search_entries m) (max_search_entries args))
    (or_else (am_max_concurrent_searches m) (max_concurrent_searches args))
    (or_else (am_request_timeout m) (request_timeout args))).

(** The settings of the file, and what the file was. *)
Definition load_config (config : option bytes) : Startup Env (Args * option PathIdentity) :=
  match config with
  | None => ok (default_args default_logger, None)
  | Some path =>
      attempt read <- read_config path;
      attempt identity <- inspect_with_expected_object path (bs "Configuration file") (Some (rc_object read));
      attempt args <- ret (context (yaml (rc_contents read)) (bs "Failed to load config at " ++ su_display path));
      ok (args, Some identity)
  end.

(** The file is neither shared nor written to. *)
Definition check_config_identity (args : Args) (identity : PathIdentity) : Startup Env unit :=
  attempt _ <- ensure_outside_shared_root identity (bs "Configuration file") (serve_path args);
  attempt _ <- match log_file args with
               | Some file =>
                   attempt log_identity <- inspect file (bs "Log file");
                   ensure_distinct_path_identities identity (bs "Configuration file") log_identity (bs "log file")
               | None => ok tt
               end;
  match state_database_path args with
  | Some state_db => ensure_no_state_db_identity_conflict state_db identity (bs "Configuration file")
  | None => ok tt
  end.

Definition parse (m : ArgMatches) : Startup Env Args :=
  attempt (args, identity) <- load_config (am_config m);
  attempt args <- ret (merge args m);
  attempt args <- validate args;
  attempt _ <- match identity with Some identity => check_config_identity args identity | None => ok tt end;
  ok args.
End parsing.

(** * What holds of checked settings, of the file they come from and of the log file *)


(** One step of a program; what a check found is kept. *)
Ltac startup_step :=
  cbv beta zeta;
  match goal with
  | |- returns (bind_ok (ret (context _ _)) _) _ => apply returns_attempt; intros ? ?%context_Ok; subst
  | |- returns (bind_ok (require _ _) _) _ => apply returns_attempt; intros [] ?%ensure_Ok
  | |- returns (bind_ok (ret _) _) _ => apply returns_attempt; intros ? ?
  | |- returns (bind (syscall _ _) _) _ => apply returns_call; intros ?
  | |- returns (bind (path_metadata _) _) _ => apply returns_call; intros ?
  | |- returns (bind (symlink_metadata _) _) _ => apply returns_call; intros ?
  | |- returns (bind (canonicalize _) _) _ => apply returns_call; intros ?
  | |- returns (bind (fd_stat _) _) _ => apply returns_call; intros ?
  | |- returns (bind (open_path _ _ _) _) _ => apply returns_call; intros ?
  | |- returns (bind current_dir _) _ => apply returns_call; intros ?
  | |- returns (fail _) _ => apply returns_fail
  end.

(** A program that does nothing but make calls. *)
Ltac startup_logs :=
  repeat (cbv beta zeta; match goal with
  | |- returns (bind_ok _ _) _ => apply (returns_bind _ _ (λ _ _, True)); [|intros ? ? _]
  | |- returns (bind (syscall _ _) _) _ => apply returns_call; intros ?
  | |- returns (bind (path_metadata _) _) _ => apply returns_call; intros ?
  | |- returns (bind (symlink_metadata _) _) _ => apply returns_call; intros ?
  | |- returns (bind (canonicalize _) _) _ => apply returns_call; intros ?
  | |- returns (bind (fd_stat _) _) _ => apply returns_call; intros ?
  | |- returns (bind current_dir _) _ => apply returns_call; intros ?
  | |- returns (fail _) _ => apply returns_fail
  | |- returns (ok _) _ => by apply returns_ok
  | |- returns (ret _) _ => by apply returns_ret
  | |- returns (require _ _) _ => by apply returns_ret
  | |- returns (match ?x with _ => _ end) _ => destruct x
  | |- returns ?m _ => solve [eauto with startup]
  end).

Create HintDb startup discriminated.

Ltac startup_emits :=
  cbv beta zeta;
  match goal with
  | |- emits _ (bind_ok _ _) => apply emits_bind_ok; [|intros ?]
  | |- emits _ (bind _ _) => apply emits_bind; [|intros ?]
  | |- emits _ (syscall _ _) => by apply emits_call
  | |- emits _ (fd_stat _) => by apply emits_call
  | |- emits _ (require _ _) => apply emits_ret
  | |- emits _ (ok _) => apply emits_ret
  | |- emits _ (ret _) => apply emits_ret
  | |- emits _ (if ?b then _ else _) => destruct b
  end.

(** ** Addresses *)

Lemma insert_ip_perm ip l : insert_ip ip l ≡ₚ ip :: l.
Proof.
  induction l as [|x l IH]; cbn; [done|]. destruct (ip_leb ip x); [done|]. rewrite IH. apply Permutation_swap.
Qed.
Lemma sort_ips_perm l : sort_ips l ≡ₚ l.
Proof. induction l as [|x l IH]; cbn; [done|]. by rewrite insert_ip_perm, IH. Qed.

Definition ip_le (a b : IpAddr) : Prop := ip_leb a b = true.

#[export] Instance ip_le_total : Total ip_le.
Proof. intros [a|a] [b|b]; unfold ip_le; cbn; auto; rewrite !Z.leb_le; lia. Qed.
#[export] Instance ip_le_trans : Transitive ip_le.
Proof. intros [a|a] [b|b] [c|c]; unfold ip_le; cbn; try done; rewrite !Z.leb_le; lia. Qed.
#[export] Instance ip_le_antisymm : AntiSymm (=) ip_le.
Proof. intros [a|a] [b|b]; unfold ip_le; cbn; try done; rewrite !Z.leb_le; intros; f_equal; lia. Qed.

Lemma insert_ip_sorted ip l : StronglySorted ip_le l -> StronglySorted ip_le (insert_ip ip l).
Proof.
  induction 1 as [|x l Hl IH Hx]; cbn; [repeat constructor|].
  destruct (ip_leb ip x) eqn:E.
  - constructor; [by constructor|]. constructor; [done|]. eapply Forall_impl; [exact Hx|]. intros y. by transitivity x.
  - constructor; [done|]. rewrite insert_ip_perm. constructor; [|done].
    destruct (total ip_le x ip) as [|H]; [done|]. unfold ip_le in H. congruence.
Qed.
Lemma sort_ips_sorted l : StronglySorted ip_le (sort_ips l).
Proof. induction l; cbn; [constructor|by apply insert_ip_sorted]. Qed.

Lemma sorted_no_pair l : StronglySorted ip_le l -> has_adjacent_pair l = false <-> NoDup l.
Proof.
  induction 1 as [|a l Hl IH Ha]; [by split; [constructor|]|].
  destruct l as [|b l]; [split; [intros; apply NoDup_singleton|done]|].
  cbn [has_adjacent_pair]. rewrite orb_false_iff, IH, (NoDup_cons a), bool_decide_eq_false.
  split; intros [H1 H2]; (split; [|done]); [|by intros ->; apply H1; left].
  intros [->|Hin]%elem_of_cons; [done|]. apply H1.
  apply StronglySorted_inv in Hl as [_ Hb]. rewrite Forall_forall in Hb. apply (anti_symm ip_le); [by inversion Ha|auto].
Qed.

(** The test for duplicates is exact. *)
Lemma duplicates_found l : has_adjacent_pair (sort_ips l) = false <-> NoDup l.
Proof. rewrite sorted_no_pair by apply sort_ips_sorted. by rewrite sort_ips_perm. Qed.

(** ** Ancestors *)

(** [parents] has all of them: the last one has no parent. *)
Lemma parents_from_end n p : (length p <= n)%nat -> exists q, last (p :: parents_from n p) = Some q /\ path_parent q = None.
Proof.
  revert p. induction n as [|n IH]; intros p Hn; cbn [parents_from].
  - exists p. split; [done|]. destruct (path_parent p) as [q|] eqn:E; [|done]. apply path_parent_shorter in E. lia.
  - destruct (path_parent p) as [q|] eqn:E; [|by exists p]. pose proof (path_parent_shorter _ _ E).
    destruct (IH q) as (r & Hr & ?); [lia|]. exists r. split; [|done]. by rewrite <- Hr.
Qed.

(** ** The state directory *)

Section validated.
Context {Env : Type} `{StartupOs Env}.

(** What is known of a directory above the state directory. *)
Definition safe_ancestor (m : Stat) : Prop :=
  is_directory m = true /\ trusted_owner m.(st_uid) = true /\
  (Z.land (permission_bits m) 18 = 0 \/ Z.land (permission_bits m) 512 <> 0).

(** A call that found [m] at a path. *)
Definition observed (l : list StartupCall) (path : bytes) (P : Stat -> Prop) : Prop :=
  exists m, PathMetadata path (Ok m) ∈ l /\ P m.

Lemma observed_mono l l' path (P : Stat -> Prop) : l ⊆ l' -> observed l path P -> observed l' path P.
Proof. intros Hl (m & Hm & HP). exists m. auto. Qed.

Lemma check_ancestors_returns child ancestors :
  returns (check_ancestors child ancestors) (λ _ l, Forall (λ p, observed l p safe_ancestor) ancestors).
Proof.
  revert child. induction ancestors as [|p ancestors IH]; intros child; cbn [check_ancestors]; [by apply returns_ok|].
  repeat startup_step.
  eapply (returns_bind _ _ (λ _ l, l = [] /\ (Z.land (permission_bits a0) 18 = 0 \/ Z.land (permission_bits a0) 512 <> 0))).
  - destruct (Z.eqb_spec (Z.land (permission_bits a0) 18) 0); [by apply returns_ok; auto|].
    apply returns_ret. intros ? Hc%ensure_Ok. bool_prop. split; [done|]. by right.
  - intros ? l [-> Hw]. eapply returns_weaken; [apply IH|]. intros ? l Hl. constructor.
    + exists a0. split; [left|done].
    + eapply Forall_impl; [exact Hl|]. intros q. apply observed_mono. set_solver.
Qed.

(** The directory is the service's own, nobody else can replace it, and it does
    not overlap the shared tree. *)
Definition private_state_dir (dir serve : bytes) (l : list StartupCall) : Prop :=
  observed l dir (λ m, st_uid m = su_geteuid /\ permission_bits m = 448) /\
  Forall (λ p, observed l p safe_ancestor) (parents dir) /\
  path_starts_with dir serve = false /\ path_starts_with serve dir = false.

Lemma private_state_dir_mono dir serve l l' : l ⊆ l' -> private_state_dir dir serve l -> private_state_dir dir serve l'.
Proof.
  intros Hl (H1 & H2 & ?). split; [by eapply observed_mono|]. split; [|done].
  eapply Forall_impl; [exact H2|]. intros p. by apply observed_mono.
Qed.

Lemma absolute_path_logs path : returns (absolute_path path) (λ _ _, True).
Proof. unfold absolute_path. startup_logs. Qed.

Lemma resolve_object_logs path name : returns (resolve_object path name) (λ _ _, True).
Proof. unfold resolve_object. startup_logs. Qed.

#[local] Hint Resolve absolute_path_logs resolve_object_logs : startup.

Lemma inspect_logs path name expected : returns (inspect_with_expected_object path name expected) (λ _ _, True).
Proof. unfold inspect_with_expected_object. startup_logs. Qed.

Lemma inspect_plain_logs path name : returns (inspect path name) (λ _ _, True).
Proof. apply inspect_logs. Qed.

#[local] Hint Resolve inspect_logs inspect_plain_logs : startup.

Lemma any_ancestor_is_logs object ancestors : returns (any_ancestor_is object ancestors) (λ _ _, True).
Proof. induction ancestors; cbn [any_ancestor_is]; startup_logs. Qed.

Lemma ensure_no_conflict_logs db files other name : returns (ensure_no_conflict db files other name) (λ _ _, True).
Proof. induction files; cbn [ensure_no_conflict]; startup_logs. Qed.

Lemma state_db_logs path serve : returns (sanitize_state_db_path path serve) (λ _ _, True).
Proof. unfold sanitize_state_db_path. startup_logs. Qed.

#[local] Hint Resolve any_ancestor_is_logs ensure_no_conflict_logs state_db_logs : startup.

Lemma sanitize_state_dir_returns path serve :
  returns (sanitize_state_dir_path path serve) (λ dir l, private_state_dir dir serve l).
Proof.
  unfold sanitize_state_dir_path. eapply returns_bind; [apply absolute_path_logs|]. intros absolute l0 _.
  repeat startup_step.
  apply (returns_bind _ _ (λ _ l, Forall (λ p, observed l p safe_ancestor) (parents a1))).
  { unfold validate_state_dir_ancestor_chain. repeat startup_step. eapply returns_weaken; [apply check_ancestors_returns|].
    intros ? l Hl. eapply Forall_impl; [exact Hl|]. intros p. apply observed_mono. set_solver. }
  intros _ l Hl. startup_step. eapply returns_bind; [apply state_db_logs|]. intros _ l' _. apply returns_ok.
  bool_prop. split; [exists a2; split; [set_solver|done]|]. split; [|done].
  eapply Forall_impl; [exact Hl|]. intros p. apply observed_mono. set_solver.
Qed.

(** ** The log file of the settings *)

(** Neither the entry nor what it leads to lies in the shared tree. *)
Definition outside (identity : PathIdentity) (serve : bytes) : Prop :=
  path_starts_with (pi_entry_path identity) serve = false /\
  match pi_resolved_path identity with Some path => path_starts_with path serve = false | None => True end.

Lemma ensure_outside_returns identity name serve :
  returns (ensure_outside_shared_root identity name serve) (λ _ _, outside identity serve).
Proof.
  unfold ensure_outside_shared_root. repeat startup_step.
  apply (returns_bind _ _ (λ inside _, inside = false -> outside identity serve)).
  - unfold resolves_within_shared_root. destruct (path_starts_with (pi_entry_path identity) serve) eqn:E1; cbn [orb];
      [by apply returns_ok|].
    destruct (pi_resolved_path identity) as [p|] eqn:Ep;
      [destruct (path_starts_with p serve) eqn:E2; cbn [orb]; [by apply returns_ok|]|cbn [orb]].
    all: destruct (bool_decide _); [by apply returns_ok|].
    all: eapply returns_weaken; [apply any_ancestor_is_logs|]; intros inside l _ _; split; [done|by rewrite Ep].
  - intros inside l Hi. apply returns_ret. intros [] Hb%ensure_Ok. bool_prop. by apply Hi.
Qed.

Lemma validate_log_file_returns log serve :
  returns (validate_log_file log serve) (λ identity _,
    match log, identity with
    | Some _, Some identity => outside identity serve /\ match pi_links identity with Some n => n = 1 | None => True end
    | None, None => True
    | _, _ => False
    end).
Proof.
  unfold validate_log_file. destruct log as [file|]; [|by apply returns_ok].
  eapply returns_bind; [apply inspect_plain_logs|]. intros identity l _.
  eapply returns_bind; [apply ensure_outside_returns|]. intros ? l' Ho. startup_step. apply returns_ok.
  split; [done|]. destruct (pi_links identity); [by bool_prop|done].
Qed.

(** ** The settings *)

(** The numbers of the settings are unsigned. *)
Definition unsigned (args : Args) : Prop :=
  0 <= upload_idle_timeout args /\ 0 <= upload_total_timeout args /\ 0 <= max_concurrent_uploads args /\
  0 <= max_connections args /\ 0 <= max_search_entries args /\ 0 <= max_concurrent_searches args /\
  0 <= request_timeout args.

(** What the runtime relies on: semaphores have permits and not too many of them,
    deadlines can be computed, the addresses can be bound one after the other. *)
Record sound (args : Args) : Prop := {
  sound_idle : 1 <= upload_idle_timeout args <= upload_total_timeout args;
  sound_total : upload_total_timeout args <= MAX_TIMEOUT_SECONDS;
  sound_request : 1 <= request_timeout args <= MAX_TIMEOUT_SECONDS;
  sound_uploads : 1 <= max_concurrent_uploads args <= MAX_PERMITS;
  sound_connections : 1 <= max_connections args <= MAX_PERMITS;
  sound_searches : 1 <= max_concurrent_searches args <= MAX_PERMITS;
  sound_entries : 1 <= max_search_entries args <= MAX_SEARCH_ENTRIES;
  sound_addrs : addrs args <> [] /\ NoDup (addrs args) /\ Z.of_nat (length (addrs args)) <= MAX_BIND_ADDRESSES;
  sound_development : development args = true -> Forall (λ ip, is_loopback ip = true) (addrs args);
  sound_users : auth args <> ∅
}.

Lemma check_all_Ok checks u : check_all checks = Ok u -> Forall (λ c, c.1 = true) checks.
Proof.
  induction checks as [|[b m] checks IH]; cbn; [by constructor|]. intros Hc.
  apply bind_Ok in Hc as ([] & ->%ensure_Ok & Hc). constructor; [done|auto].
Qed.

Lemma validate_timeout_returns name seconds :
  returns (validate_timeout name seconds : Startup Env unit) (λ _ _, seconds <> 0 /\ seconds <= MAX_TIMEOUT_SECONDS).
Proof.
  unfold validate_timeout. repeat startup_step. apply returns_ret. intros _ _. by bool_prop.
Qed.

Lemma checked_is_sound args :
  unsigned args -> upload_idle_timeout args <> 0 -> upload_total_timeout args <= MAX_TIMEOUT_SECONDS ->
  request_timeout args <> 0 -> request_timeout args <= MAX_TIMEOUT_SECONDS ->
  check_limits args = Ok tt -> check_presence args = Ok tt -> sound args /\ is_Some (state_dir args).
Proof.
  intros (?&?&?&?&?&?&?) ? ? ? ? Hl%check_all_Ok Hp%check_all_Ok.
  repeat match goal with H : Forall _ (_ :: _) |- _ => apply Forall_cons in H as [? H] end. cbn in *. bool_prop.
  split; [|by destruct (state_dir args)].
  assert (development args = true -> Forall (λ ip, is_loopback ip = true) (addrs args)) as Hdev.
  { intros Hd. apply Forall_forall. intros ip Hip. destruct (is_loopback ip) eqn:E; [done|].
    match goal with H : _ \/ existsb _ _ = false |- _ => destruct H as [?|He]; [congruence|] end.
    rewrite <- not_true_iff_false, existsb_exists in He. destruct He. exists ip. split; [by apply list_elem_of_In|by rewrite E]. }
  match goal with H : has_adjacent_pair _ = false |- _ => apply duplicates_found in H end.
  match goal with H : has_users _ = true |- _ => unfold has_users in H end. bool_prop.
  constructor; try done; lia.
Qed.

Lemma sanitize_path_logs path : returns (sanitize_path path) (λ _ _, True).
Proof. unfold sanitize_path. startup_logs. Qed.

Lemma unsigned_paths args serve state log : unsigned args -> unsigned (set_paths args serve state log).
Proof. done. Qed.

(** C15: Settings that pass the checks are sound: every limit lies in the range the
    runtime relies on, the addresses are distinct and in development mode all of
    loopback, there is an account.  The shared path was a directory when it was
    looked at.  The state directory was the service's own with permissions 0700,
    below directories nobody else can rename it in, and it neither contains the
    shared tree nor lies in it; and the log file is not, and does not lead, into
    the shared tree. *)
Theorem validated_settings_are_sound args :
  unsigned args ->
  spec (validate args) (λ r calls, forall args', r = Ok args' ->
    sound args' /\
    observed calls (serve_path args') (λ m, is_directory m = true) /\
    (exists dir, state_dir args' = Some dir /\ private_state_dir dir (serve_path args') calls) /\
    (forall file, log_file args' = Some file -> path_starts_with file (serve_path args') = false)).
Proof.
  intros Hu. change (returns (validate args) (λ args' calls,
    sound args' /\ observed calls (serve_path args') (λ m, is_directory m = true) /\
    (exists dir, state_dir args' = Some dir /\ private_state_dir dir (serve_path args') calls) /\
    (forall file, log_file args' = Some file -> path_starts_with file (serve_path args') = false))).
  unfold validate. eapply returns_bind; [apply sanitize_path_logs|]. intros serve l0 _. repeat startup_step.
  eapply returns_bind; [apply validate_log_file_returns|]. intros log l1 Hlog.
  apply (returns_bind _ _ (λ state l, forall dir, state = Some dir -> private_state_dir dir serve l)).
  { destruct (state_dir args) as [dir|]; [|by apply returns_ok].
    eapply returns_bind; [apply sanitize_state_dir_returns|]. intros d l Hd. apply returns_ok.
    rewrite app_nil_r. by intros ? [= <-]. }
  intros state l2 Hstate. cbv zeta. set (checked := set_paths args serve state _).
  apply (returns_bind _ _ (λ _ _, True)).
  { destruct (state_database_path checked), log; try by apply returns_ok. apply ensure_no_conflict_logs. }
  intros _ l3 _. eapply returns_bind; [apply validate_timeout_returns|]. intros ? l4 [Hi _].
  eapply returns_bind; [apply validate_timeout_returns|]. intros ? l5 [_ Ht]. startup_step.
  eapply returns_bind; [apply validate_timeout_returns|]. intros ? l6 [Hr1 Hr2]. startup_step. apply returns_ok.
  destruct a2, a4.
  destruct (checked_is_sound checked) as [Hs [dir Hdir]]; [by apply unsigned_paths|done..|].
  split; [done|]. split; [exists a0; split; [set_solver|done]|]. split.
  - exists dir. split; [done|]. eapply private_state_dir_mono; [|by apply Hstate]. set_solver.
  - intros file Hf. cbn in Hf. destruct log as [identity|]; [|done]. injection Hf as <-.
    destruct (log_file args); [by apply Hlog|done].
Qed.
End validated.

(** ** The configuration file *)

(** The descriptor was that of a file only root and the service can write and
    nobody else can read. *)
Definition secure_config `{StartupOs} (s : ConfigFileSnapshot) : Prop :=
  Z.land (cs_mode s) CONFIG_FILE_TYPE_MASK = CONFIG_REGULAR_FILE_TYPE /\ cs_links s = 1 /\
  (cs_uid s = 0 \/ cs_uid s = su_geteuid) /\
  Z.land (cs_mode s) CONFIG_PERMISSION_MASK ∈ [256; 288; 384; 416] /\
  (Z.land (Z.land (cs_mode s) CONFIG_PERMISSION_MASK) 32 = 0 \/ cs_gid s = su_getegid).

(** All that was seen of the descriptor is [s], and it has no access list. *)
Definition only_saw (fd : Fd) (s : ConfigFileSnapshot) (c : StartupCall) : Prop :=
  match c with
  | FdStat fd' r => fd' = fd /\ exists m, r = Ok m /\ snapshot_from_stat m = s
  | FdXattr fd' name r => fd' = fd /\ name = CONFIG_POSIX_ACL_XATTR /\ (r = Err NODATA \/ r = Err NOTSUP)
  | FdRead fd' _ _ => fd' = fd
  | _ => False
  end.

Section config_file.
Context {Env : Type} `{StartupOs Env} (path : bytes).

Lemma snapshot_returns fd :
  returns (snapshot_open_config path fd) (λ s l, exists m, snapshot_from_stat m = s /\ l = [FdStat fd (Ok m)]).
Proof.
  unfold snapshot_open_config. startup_step. apply returns_ret. intros s. destruct a as [m|]; [|done].
  intros [= <-]. by exists m.
Qed.

Lemma acl_returns fd :
  returns (config_has_extended_acl path fd) (λ acl l, exists r, l = [FdXattr fd CONFIG_POSIX_ACL_XATTR r] /\
    (acl = false -> r = Err NODATA \/ r = Err NOTSUP)).
Proof.
  unfold config_has_extended_acl. startup_step. destruct a as [[]|e]; [apply returns_ok; by eexists|].
  destruct (_ || _) eqn:E; [|apply returns_fail]. apply returns_ok. eexists. split; [done|]. intros _.
  bool_prop. destruct E as [E|E]; bool_prop; subst; auto.
Qed.

Lemma inspect_open_config_returns fd :
  returns (inspect_open_config path fd) (λ s l, secure_config s /\ cs_size s <= MAX_CONFIG_BYTES /\ Forall (only_saw fd s) l).
Proof.
  unfold inspect_open_config. eapply returns_bind; [apply snapshot_returns|]. intros s ? (m & Em & ->).
  eapply returns_bind; [apply acl_returns|]. intros acl ? (r & -> & Hacl).
  unfold validate_config_security. startup_step. rename H0 into Hc. apply check_all_Ok in Hc.
  repeat match goal with H : Forall _ (_ :: _) |- _ => apply Forall_cons in H as [? H] end. cbn [fst] in *.
  eapply returns_bind; [apply snapshot_returns|]. intros s' ? (m' & Em' & ->).
  unfold ensure_config_snapshot_stable. startup_step. apply returns_ok.
  bool_prop. assert (s' = s) as Es by done. rewrite Es in *. split; [|split; [done|]].
  - unfold secure_config. repeat match goal with H : _ \/ _ |- _ => rewrite !Z.eqb_eq in H end. auto.
  - constructor; [split; [done|by exists m]|]. constructor; [split; [done|split; [done|by apply Hacl]]|].
    constructor; [split; [done|by exists m']|constructor].
Qed.

(** A configuration file is only used when it was opened without following a
    symbolic link and everything that was seen of the descriptor, before the
    file was read, while it was read and after, shows one unchanging, regular,
    singly linked file that only root or the service can write and no one beyond
    the service's group can read. *)
Theorem config_is_read_securely :
  spec (read_config path) (λ r calls, forall config, r = Ok config ->
    exists fd s rest,
      calls = Open path [ReadOnly; NonBlock; NoFollow; CloExec] 0 (Ok fd) :: rest /\
      Forall (only_saw fd s) rest /\ secure_config s /\
      rc_object config = mkObject (cs_device s) (cs_inode s) /\
      FdRead fd (MAX_CONFIG_BYTES + 1) (Ok (rc_contents config)) ∈ rest /\
      blen (rc_contents config) <= MAX_CONFIG_BYTES /\ is_utf8 (rc_contents config) = true).
Proof.
  change (returns (read_config path) (λ config calls,
    exists fd s rest, calls = Open path [ReadOnly; NonBlock; NoFollow; CloExec] 0 (Ok fd) :: rest /\
      Forall (only_saw fd s) rest /\ secure_config s /\ rc_object config = mkObject (cs_device s) (cs_inode s) /\
      FdRead fd (MAX_CONFIG_BYTES + 1) (Ok (rc_contents config)) ∈ rest /\
      blen (rc_contents config) <= MAX_CONFIG_BYTES /\ is_utf8 (rc_contents config) = true)).
  unfold read_config, read_open_config. repeat startup_step. rename a0 into fd.
  eapply returns_bind; [apply inspect_open_config_returns|]. intros before l1 (Hs & _ & Hl1). repeat startup_step.
  rename a0 into contents.
  eapply returns_bind; [apply inspect_open_config_returns|]. intros after l2 (_ & _ & Hl2).
  unfold ensure_config_snapshot_stable. repeat startup_step.
  apply returns_ok. bool_prop. subst after. exists fd, before. eexists. split; [reflexivity|]. cbn.
  split; [|split; [done|split; [done|split; [set_solver|done]]]].
  rewrite app_nil_r. apply Forall_app. split; [done|]. by constructor.
Qed.
End config_file.

(** ** The log file *)

Section log_file.
Context {Env : Type} `{StartupOs Env}.

(** A change of permissions is one of a file this very program has created. *)
Definition changes_only_new (path : bytes) (calls : list StartupCall) : Prop :=
  forall fd mode r, FdChmod fd mode r ∈ calls -> Open path (common_flags ++ [Create; Excl]) private_mode (Ok fd) ∈ calls.

Lemma open_or_create_spec path :
  spec (open_or_create path) (λ r calls,
    (forall fd mode c, FdChmod fd mode c ∉ calls) /\
    (forall fd, r = Ok (fd, true) -> Open path (common_flags ++ [Create; Excl]) private_mode (Ok fd) ∈ calls)).
Proof.
  unfold open_or_create. apply spec_bind_call. intros [fd|e].
  { apply spec_ret. split; [set_solver|]. intros ? [= <-]. left. }
  destruct (e =? EXIST); [|apply spec_ret; split; [set_solver|done]].
  apply spec_bind_call. intros [fd|e']; apply spec_ret; split; try set_solver; by intros ? [=].
Qed.

(** The log is only written to a file that, when it was looked at last, was a
    regular file with one link, owned by the service, with permissions 0600; and
    the permissions of a file that existed are never changed. *)
Theorem log_file_is_private path :
  spec (open_log_file path) (λ r calls,
    changes_only_new path calls /\
    forall fd, r = Ok fd -> exists m, last calls = Some (FdStat fd (Ok m)) /\ is_private_log m su_geteuid = true).
Proof.
  apply spec_and.
  - unfold open_log_file, open_log_file_for_owner.
    eapply spec_bind_ok; [apply open_or_create_spec| |intros e l [Hn _] ? ? ? Hin; by destruct (Hn _ _ _ Hin)].
    intros [fd created] l [Hn Ho].
    eapply (spec_weaken _ (λ _, Forall (λ c, match c with FdChmod fd' _ _ => fd' = fd /\ created = true | _ => True end))).
    { change (spec ?m (λ _, Forall ?P)) with (emits P m). repeat startup_emits. }
    intros r l' Hl fd' mode c [Hin|Hin]%elem_of_app; [by destruct (Hn _ _ _ Hin)|].
    rewrite Forall_forall in Hl. destruct (Hl _ Hin) as [-> ->]. apply elem_of_app. left. by apply Ho.
  - change (returns (open_log_file path) (λ fd calls,
      exists m, last calls = Some (FdStat fd (Ok m)) /\ is_private_log m su_geteuid = true)).
    unfold open_log_file, open_log_file_for_owner.
    apply (returns_bind _ _ (λ _ _, True)); [eapply spec_weaken; [apply open_or_create_spec|done]|].
    intros [fd created] l _. repeat startup_step. apply (returns_bind _ _ (λ _ _, True)); [startup_logs|].
    intros ? l' _. repeat startup_step. apply returns_ok. exists a2. split; [|done].
    rewrite app_comm_cons, app_assoc. by rewrite last_snoc.
Qed.
End log_file.

(** ** Examples *)

(** A host whose directories belong to root, but for the state directory, which
    belongs to user 1000. *)
Module ConfigExamples.
Definition directory (mode uid : Z) : Stat := mkStat 1 uid mode 2 0 uid uid 0 0 0 0.
Definition missing : IoError := io_new NotFound (bs "missing").
Definition srv : bytes := bs "/srv".
Definition var : bytes := bs "/var/dufs".

#[local] Instance demo_startup : StartupOs unit := {|
  su_current_dir env := (Ok (bs "/"), env);
  su_exists _ env := (true, env);
  su_canonicalize p env := (Ok p, env);
  su_metadata p env := (Ok (if beqb p var then directory 16832 1000 else directory 16877 0), env);
  su_symlink_metadata p env := (if beqb p var then Ok (directory 16832 1000) else Err missing, env);
  su_open _ _ _ env := (Err NOENT, env);
  su_fstat _ env := (Err missing, env);
  su_fchmod _ _ env := (Err missing, env);
  su_fgetxattr _ _ env := (Err NODATA, env);
  su_read _ _ env := (Err missing, env);
  su_clock_reaches _ env := (true, env);
  su_geteuid := 1000;
  su_getegid := 1000;
  su_display p := p
|}.

Definition demo_args : Args :=
  mkArgs true srv (Some var) default_addrs default_port {[ bs "ada" := bs "hash" ]} (mkHttpLogger [] 0) None 1000
    60 3600 4 0 256 10000 2 300.

Example demo_args_pass : (validate demo_args (mkWorld tt [])).1 = Ok demo_args.
Proof. vm_compute. reflexivity. Qed.

Lemma validated_settings_are_sound_witness :
  unsigned demo_args /\ sound demo_args /\
  path_starts_with var srv = false /\ path_starts_with srv var = false.
Proof.
  assert (Hu : unsigned demo_args) by (unfold unsigned; cbn; lia). split; [exact Hu|].
  destruct (validated_settings_are_sound demo_args Hu (mkWorld tt [])) as (calls & _ & Hs).
  destruct (Hs demo_args) as (? & _ & (dir & [= <-] & _ & _ & ? & ?) & _); [vm_compute; reflexivity|]. auto.
Defined.
End ConfigExamples.
