(* ===== verification/Connections.v ===== *)
(** The process around the server ([src/src/main.rs]): the listeners and the
    permits of their connections, the back-off after failed accepts, the idle
    timeout of response writes, and the shutdown of the process.

    Sockets, signals, timers and the server runtime answer as they like; every
    interaction is logged.  Durations are milliseconds. *)

From S2P Require Import Prelude Bytes Problem RootedOs Config.
From stdpp Require Import base numbers list strings.

Local Open Scope Z_scope.

Definition ACCEPT_BACKOFF_INITIAL : Z := 50.
Definition ACCEPT_BACKOFF_MAX : Z := 1000.
Definition SHUTDOWN_GRACE_PERIOD : Z := 30000.
Definition FORCED_SHUTDOWN_PERIOD : Z := 10000.
Definition RESPONSE_WRITE_IDLE_TIMEOUT : Z := 30000.

(** ** Back-off *)

Record AcceptBackoff := mkBackoff { next_delay : Z }.

Definition default_backoff : AcceptBackoff := mkBackoff ACCEPT_BACKOFF_INITIAL.
Definition failure_delay (b : AcceptBackoff) : Z * AcceptBackoff :=
  (next_delay b, mkBackoff (Z.min (next_delay b * 2) ACCEPT_BACKOFF_MAX)).
Definition reset_backoff (b : AcceptBackoff) : AcceptBackoff := mkBackoff ACCEPT_BACKOFF_INITIAL.

(** [io::ErrorKind], as far as errors of sockets are told apart. *)
Inductive ErrorKind :=
| KInterrupted | KWouldBlock | KTimedOut | KConnectionAborted | KConnectionReset | KPermissionDenied
| KAddrNotAvailable | KNotConnected | KBrokenPipe | KUnexpectedEof | KOutOfMemory | KOther.

Record AcceptError := mkAcceptError { xe_kind : ErrorKind; xe_raw : option Z }.

Definition is_resource_exhaustion (e : AcceptError) : bool :=
  match xe_kind e with
  | KOutOfMemory => true
  | _ => match xe_raw e with Some code => bool_decide (code ∈ [12; 23; 24; 105]) | None => false end
  end.

Definition classify_accept_error (e : AcceptError) : bytes :=
  if is_resource_exhaustion e then bs "resource"
  else match xe_kind e with
       | KInterrupted => bs "interrupted"
       | KWouldBlock | KTimedOut => bs "transient"
       | KConnectionAborted | KConnectionReset => bs "connection"
       | KPermissionDenied => bs "permission"
       | KAddrNotAvailable | KNotConnected => bs "listener"
       | _ => bs "io"
       end.

(** ** Accepting *)

(** How [select!] ends: the token was cancelled, or the future is ready. *)
Inductive Selected (A : Type) := Cancelled | Selected_ (a : A).
Arguments Cancelled {A}.
Arguments Selected_ {A}.

Inductive AcceptEvent :=
| Readable (answer : Selected (option AcceptError))
(** [listener_is_readable]: the level state of the kernel *)
| PollListener (answer : result AcceptError bool)
| ClearReady
| AcquirePermit (answer : Selected unit)
(** the permit is dropped, with the connection if there is one *)
| DropPermit
| IsCancelled (answer : bool)
(** [try_io] with [accept]; [None]: it would block *)
| Accept (answer : option (result AcceptError Z))
| SetNonblocking (socket : Z) (answer : option AcceptError)
| FromStd (socket : Z) (answer : option AcceptError)
| Backoff (delay : Z) (category : bytes) (answer : Selected unit)
(** a task that owns the permit serves the connection *)
| SpawnConnection (socket : Z).

Class AcceptHost (Env : Type) := {
  ah_readable : Env -> Selected (option AcceptError) * Env;
  ah_poll : Env -> result AcceptError bool * Env;
  ah_clear_ready : Env -> unit * Env;
  ah_acquire : Env -> Selected unit * Env;
  ah_drop_permit : Env -> unit * Env;
  ah_is_cancelled : Env -> bool * Env;
  ah_accept : Env -> option (result AcceptError Z) * Env;
  ah_set_nonblocking : Z -> Env -> option AcceptError * Env;
  ah_from_std : Z -> Env -> option AcceptError * Env;
  ah_backoff : Z -> bytes -> Env -> Selected unit * Env;
  ah_spawn : Z -> Env -> unit * Env
}.

Abbreviation Accepting := (Prog AcceptEvent).

(** What a round of the loop comes to. *)
Inductive Round := Stop | Again (backoff : AcceptBackoff) | Serve (socket : Z) (backoff : AcceptBackoff).

Section accepting.
Context {Env : Type} `{AcceptHost Env}.

(** Whether to go on. *)
Definition wait_after_accept_error (backoff : AcceptBackoff) (e : AcceptError) : Accepting Env Round :=
  let '(delay, backoff) := failure_delay backoff in
  do slept <- syscall (ah_backoff delay (classify_accept_error e)) (Backoff delay (classify_accept_error e));
  ret (match slept with Cancelled => Stop | Selected_ _ => Again backoff end).

Definition drop_permit : Accepting Env unit := syscall ah_drop_permit (λ _, DropPermit).
Definition is_cancelled : Accepting Env bool := syscall ah_is_cancelled IsCancelled.

(** An accepted socket, with the permit in hand. *)
Definition prepare_socket (socket : Z) (backoff : AcceptBackoff) : Accepting Env Round :=
  do nonblocking <- syscall (ah_set_nonblocking socket) (SetNonblocking socket);
  match nonblocking with
  | Some e => do _ <- drop_permit; wait_after_accept_error backoff e
  | None =>
      do stream <- syscall (ah_from_std socket) (FromStd socket);
      match stream with
      | Some e => do _ <- drop_permit; wait_after_accept_error backoff e
      | None =>
          let backoff := reset_backoff backoff in
          do cancelled <- is_cancelled;
          if cancelled : bool then do _ <- drop_permit; ret Stop else ret (Serve socket backoff)
      end
  end.

(** One round of [accept_with_backoff]. *)
Definition accept_round (backoff : AcceptBackoff) : Accepting Env Round :=
  do readiness <- syscall ah_readable Readable;
  match readiness with
  | Cancelled => ret Stop
  | Selected_ (Some e) => wait_after_accept_error backoff e
  | Selected_ None =>
      do readable <- syscall ah_poll PollListener;
      match readable with
      | Err e => wait_after_accept_error backoff e
      | Ok false => do _ <- syscall ah_clear_ready (λ _, ClearReady); ret (Again backoff)
      | Ok true =>
          do permit <- syscall ah_acquire AcquirePermit;
          match permit with
          | Cancelled => ret Stop
          | Selected_ _ =>
              do cancelled <- is_cancelled;
              if cancelled : bool then do _ <- drop_permit; ret Stop
              else
                do accepted <- syscall ah_accept Accept;
                match accepted with
                | None => do _ <- drop_permit; ret (Again backoff)
                | Some (Err e) => do _ <- drop_permit; wait_after_accept_error backoff e
                | Some (Ok socket) => prepare_socket socket backoff
                end
          end
      end
  end.

(** [accept_with_backoff] for at most [n] rounds; [None]: still waiting. *)
Fixpoint accept_with_backoff (n : nat) (backoff : AcceptBackoff) : Accepting Env (option (option Z * AcceptBackoff)) :=
  match n with
  | O => ret None
  | S n =>
      do round <- accept_round backoff;
      match round with
      | Stop => ret (Some (None, backoff))
      | Again backoff => accept_with_backoff n backoff
      | Serve socket backoff => ret (Some (Some socket, backoff))
      end
  end.

(** The connections of a listener, at most [m], with at most [n] rounds for
    each; whether the listener ended. *)
Fixpoint serve_connections (m n : nat) (backoff : AcceptBackoff) : Accepting Env bool :=
  match m with
  | O => ret false
  | S m =>
      do accepted <- accept_with_backoff n backoff;
      match accepted with
      | None => ret false
      | Some (None, _) => ret true
      | Some (Some socket, backoff) =>
          do _ <- syscall (ah_spawn socket) (λ _, SpawnConnection socket);
          serve_connections m n backoff
      end
  end.
Definition serve_tcp_listener (m n : nat) : Accepting Env bool := serve_connections m n default_backoff.
End accepting.

(** ** Writing *)

(** [WriteIdleTimeout]: when the timer was started, if it is running. *)
Record WriteIdleTimeout := mkIdle { wi_timeout : Z; wi_timer : option Z }.

Definition new_idle (timeout : Z) : WriteIdleTimeout := mkIdle timeout None.
Definition clear_timer (w : WriteIdleTimeout) : WriteIdleTimeout := mkIdle (wi_timeout w) None.

Definition write_is_timed_out (now : Z) (w : WriteIdleTimeout) : bool * WriteIdleTimeout :=
  let started := default now (wi_timer w) in
  (started + wi_timeout w <=? now, mkIdle (wi_timeout w) (Some started)).

(** [Poll] of a write, a flush or a shutdown of the stream underneath. *)
Inductive Poll (A : Type) := Ready (a : A) | Pending.
Arguments Ready {A}.
Arguments Pending {A}.

(** [poll_write], [poll_write_vectored], [poll_flush] and [poll_shutdown];
    [Ready None]: the timeout. *)
Definition poll_progress {A} (now : Z) (inner : Poll A) (w : WriteIdleTimeout) : Poll (option A) * WriteIdleTimeout :=
  match inner with
  | Ready a => (Ready (Some a), clear_timer w)
  | Pending =>
      let '(timed_out, w) := write_is_timed_out now w in
      (if timed_out then Ready None else Pending, w)
  end.

(** ** A connection *)

(** [hyper::Error], by what it says of itself. *)
Record HyperError := mkHyperError {
  is_parse : bool; is_timeout : bool; is_user : bool; is_body_write_aborted : bool;
  is_incomplete_message : bool; is_canceled : bool; is_closed : bool
}.

(** An error, by the type behind [dyn Error]. *)
Inductive ErrorNode := HyperNode (e : HyperError) | IoNode (kind : ErrorKind) | OtherNode.

(** An error is followed by its sources. *)
Fixpoint find_io_error (chain : list ErrorNode) : option ErrorKind :=
  match chain with
  | [] => None
  | IoNode kind :: _ => Some kind
  | _ :: sources => find_io_error sources
  end.
Definition downcast_hyper (chain : list ErrorNode) : option HyperError :=
  match chain with HyperNode e :: _ => Some e | _ => None end.

Definition is_disconnect (kind : ErrorKind) : bool :=
  match kind with
  | KConnectionReset | KConnectionAborted | KBrokenPipe | KUnexpectedEof | KNotConnected => true
  | _ => false
  end.
Definition is_timed_out (kind : ErrorKind) : bool := match kind with KTimedOut => true | _ => false end.

(** [is_some_and] *)
Definition holds_of {A} (f : A -> bool) (o : option A) : bool := match o with Some a => f a | None => false end.

Inductive ConnectionLog := LogNothing | LogInfo (category : bytes) | LogWarn (category : bytes).

Definition connection_category (hyper : option HyperError) (io : option ErrorKind) : bytes :=
  if holds_of is_parse hyper then bs "protocol"
  else if holds_of is_timeout hyper || holds_of is_timed_out io then bs "timeout"
  else if holds_of (λ e, is_user e || is_body_write_aborted e) hyper then bs "service"
  else if holds_of (λ e, is_incomplete_message e || is_canceled e || is_closed e) hyper || holds_of is_disconnect io
  then bs "disconnect"
  else if bool_decide (is_Some io) then bs "io"
  else if bool_decide (is_Some hyper) then bs "hyper"
  else bs "unknown".

Definition log_connection_error (request_seen : bool) (chain : list ErrorNode) : ConnectionLog :=
  let hyper := downcast_hyper chain in
  let io := find_io_error chain in
  let benign_probe_close := holds_of is_incomplete_message hyper || holds_of is_disconnect io in
  if negb request_seen && benign_probe_close then LogNothing
  else
    let category := connection_category hyper io in
    if bool_decide (category = bs "disconnect") then LogInfo category else LogWarn category.

(** Who wins a [select!] over a connection. *)
Inductive ConnectionRace := ForceWins | ShutdownWins | ConnectionEnds (result : option (list ErrorNode)).

Inductive ConnectionEvent :=
| ServeRace (answer : ConnectionRace)
| GracefulShutdown
| DrainRace (answer : option (option (list ErrorNode)))
| RequestSeen (answer : bool)
| ConnectionLogged (entry : ConnectionLog).

Class ConnectionHost (Env : Type) := {
  ch_race : Env -> ConnectionRace * Env;
  ch_graceful_shutdown : Env -> unit * Env;
  (** [None]: forced *)
  ch_drain : Env -> option (option (list ErrorNode)) * Env;
  ch_request_seen : Env -> bool * Env;
  ch_log : ConnectionLog -> Env -> unit * Env
}.

Section connection.
Context {Env : Type} `{ConnectionHost Env}.

Definition connection_ended (result : option (list ErrorNode)) : Prog ConnectionEvent Env unit :=
  match result with
  | None => ret tt
  | Some chain =>
      do seen <- syscall ch_request_seen RequestSeen;
      let entry := log_connection_error seen chain in
      syscall (ch_log entry) (λ _, ConnectionLogged entry)
  end.

Definition handle_stream : Prog ConnectionEvent Env unit :=
  do race <- syscall ch_race ServeRace;
  match race with
  | ForceWins => ret tt
  | ShutdownWins =>
      do _ <- syscall ch_graceful_shutdown (λ _, GracefulShutdown);
      do drained <- syscall ch_drain DrainRace;
      match drained with None => ret tt | Some result => connection_ended result end
  | ConnectionEnds result => connection_ended result
  end.
End connection.

(** ** Permits *)

(** A monitor of a listener: whether it holds a permit, and [None] when an event
    comes at the wrong time.  A listener acquires one permit at a time, accepts
    only with the permit in hand, sleeps without one and only for as long as the
    back-off allows, and gives its permit to the connection it spawns. *)
Definition permit_step (held : bool) (e : AcceptEvent) : option bool :=
  match e, held with
  | AcquirePermit (Selected_ _), false => Some true
  | AcquirePermit Cancelled, false => Some false
  | DropPermit, true => Some false
  | SpawnConnection _, true => Some false
  | (Accept _ | SetNonblocking _ _ | FromStd _ _ | IsCancelled _), true => Some true
  | (Readable _ | PollListener _ | ClearReady), false => Some false
  | Backoff delay _ _, false =>
      if (ACCEPT_BACKOFF_INITIAL <=? delay) && (delay <=? ACCEPT_BACKOFF_MAX) then Some false else None
  | _, _ => None
  end.

Fixpoint permits (held : bool) (l : list AcceptEvent) : option bool :=
  match l with
  | [] => Some held
  | e :: l => held ← permit_step held e; permits held l
  end.

Lemma permits_app held l l' : permits held (l ++ l') = held' ← permits held l; permits held' l'.
Proof.
  revert held. induction l as [|e l IH]; intros held; [done|]. cbn.
  destruct (permit_step held e) as [h|]; [apply IH|done].
Qed.

Definition bounded_backoff (b : AcceptBackoff) : Prop := ACCEPT_BACKOFF_INITIAL <= next_delay b <= ACCEPT_BACKOFF_MAX.

Lemma failure_delay_bounded b : bounded_backoff b -> bounded_backoff (failure_delay b).2.
Proof. unfold bounded_backoff, failure_delay, ACCEPT_BACKOFF_INITIAL, ACCEPT_BACKOFF_MAX. cbn. lia. Qed.

Lemma default_backoff_bounded : bounded_backoff default_backoff.
Proof. by unfold bounded_backoff. Qed.

Section permit_facts.
Context {Env : Type} `{AcceptHost Env}.

(** A round that starts without a permit ends with one exactly when there is a
    connection to serve. *)
Definition round_ok (r : Round) (held : option bool) : Prop :=
  match r with
  | Stop => held = Some false
  | Again b => held = Some false /\ bounded_backoff b
  | Serve _ b => held = Some true /\ bounded_backoff b
  end.

Lemma wait_permits backoff e :
  bounded_backoff backoff -> spec (wait_after_accept_error backoff e) (λ r l, round_ok r (permits false l)).
Proof.
  intros Hb. unfold wait_after_accept_error. destruct (failure_delay backoff) as [delay b'] eqn:Hd.
  pose proof (failure_delay_bounded _ Hb) as Hb'. rewrite Hd in Hb'. cbn in Hb'.
  assert (delay = next_delay backoff) as -> by (unfold failure_delay in Hd; congruence).
  assert (Hw : ((ACCEPT_BACKOFF_INITIAL <=? next_delay backoff) && (next_delay backoff <=? ACCEPT_BACKOFF_MAX)) = true).
  { unfold bounded_backoff in Hb. apply andb_true_iff. lia. }
  repeat spec_step. cbn. rewrite Hw. by destruct a.
Qed.

Lemma accept_round_permits backoff :
  bounded_backoff backoff -> spec (accept_round backoff) (λ r l, round_ok r (permits false l)).
Proof.
  intros Hb. unfold accept_round, prepare_socket, drop_permit, is_cancelled.
  repeat spec_step;
    try (intros; eapply spec_weaken; [by apply wait_permits|]; intros ? ?; by cbn);
    cbn; first [reflexivity|split; [reflexivity|first [exact Hb|apply default_backoff_bounded]]].
Qed.

Lemma accept_permits n backoff :
  bounded_backoff backoff ->
  spec (accept_with_backoff n backoff) (λ r l,
    match r with
    | Some (Some _, b) => permits false l = Some true /\ bounded_backoff b
    | _ => permits false l = Some false
    end).
Proof.
  revert backoff. induction n as [|n IH]; intros backoff Hb; cbn [accept_with_backoff]; [by apply spec_ret|].
  eapply spec_bind; [by apply accept_round_permits|]. intros [|b|socket b] l Hl; cbn in Hl.
  - apply spec_ret. by rewrite app_nil_r.
  - destruct Hl as [Hl Hb']. eapply spec_weaken; [by apply IH|]. intros r l'. by rewrite permits_app, Hl.
  - apply spec_ret. by rewrite app_nil_r.
Qed.

Lemma serve_connections_permits m n backoff :
  bounded_backoff backoff -> spec (serve_connections m n backoff) (λ _ l, permits false l = Some false).
Proof.
  revert backoff. induction m as [|m IH]; intros backoff Hb; cbn [serve_connections]; [by apply spec_ret|].
  eapply spec_bind; [by apply accept_permits|]. intros [[[socket|] b]|] l Hl; cbn in Hl.
  - destruct Hl as [Hl Hb']. apply spec_bind_call. intros _. eapply spec_weaken; [by apply IH|].
    intros ? l' Hl'. by rewrite permits_app, Hl.
  - apply spec_ret. by rewrite app_nil_r.
  - apply spec_ret. by rewrite app_nil_r.
Qed.

Lemma serve_tcp_listener_permits m n : spec (serve_tcp_listener m n) (λ _ l, permits false l = Some false).
Proof. apply serve_connections_permits, default_backoff_bounded. Qed.
End permit_facts.

(** ** The process's connections *)

(** What happens to the connections of all listeners together: a listener acts,
    or a connection ends and drops its permit. *)
Inductive Happening := Listener (i : nat) (e : AcceptEvent) | ConnectionOver.

(** The semaphore and the connections that are open. *)
Record Slots := mkSlots { available : Z; connections : Z }.

(** [Semaphore]: a permit is given out only when there is one. *)
Definition slots_step (h : Happening) (s : Slots) : option Slots :=
  match h with
  | Listener _ (AcquirePermit (Selected_ _)) =>
      if 0 <? available s then Some (mkSlots (available s - 1) (connections s)) else None
  | Listener _ DropPermit => Some (mkSlots (available s + 1) (connections s))
  | Listener _ (SpawnConnection _) => Some (mkSlots (available s) (connections s + 1))
  | Listener _ _ => Some s
  | ConnectionOver => if 0 <? connections s then Some (mkSlots (available s + 1) (connections s - 1)) else None
  end.

Fixpoint slots_run (happenings : list Happening) (s : Slots) : option Slots :=
  match happenings with [] => Some s | h :: hs => s ← slots_step h s; slots_run hs s end.

Definition new_slots (max_connections : Z) : Slots := mkSlots max_connections 0.

(** What one listener does. *)
Definition of_listener (i : nat) (happenings : list Happening) : list AcceptEvent :=
  omap (λ h, match h with Listener j e => if Nat.eqb i j then Some e else None | ConnectionOver => None end) happenings.

(** Each happening is by one of [k] listeners, and each of them runs
    [serve_tcp_listener], as far as it has come. *)
Definition by_listeners {Env} `{AcceptHost Env} (k : nat) (happenings : list Happening) : Prop :=
  Forall (λ h, match h with Listener i _ => (i < k)%nat | ConnectionOver => True end) happenings /\
  forall i, (i < k)%nat -> exists m n env,
    of_listener i happenings `prefix_of` w_log (serve_tcp_listener m n (mkWorld env [])).2.

(** The permits the listeners have in hand. *)
Fixpoint in_hand (k : nat) (held : nat -> bool) : Z :=
  match k with O => 0 | S k => (if held k then 1 else 0) + in_hand k held end.

Definition set_held (held : nat -> bool) (i : nat) (b : bool) : nat -> bool := λ j, if Nat.eqb j i then b else held j.

Lemma in_hand_ge k held : 0 <= in_hand k held.
Proof. induction k as [|k IH]; cbn; [done|]. destruct (held k); lia. Qed.

Lemma in_hand_other k held i b : (k <= i)%nat -> in_hand k (set_held held i b) = in_hand k held.
Proof.
  induction k as [|k IH]; intros Hk; cbn; [done|]. rewrite IH by lia. unfold set_held.
  by rewrite (proj2 (Nat.eqb_neq k i)) by lia.
Qed.

Lemma in_hand_set k held i b :
  (i < k)%nat -> in_hand k (set_held held i b) + (if held i then 1 else 0) = in_hand k held + (if b then 1 else 0).
Proof.
  induction k as [|k IH]; intros Hk; cbn; [lia|]. destruct (decide (i = k)) as [->|Hne].
  - rewrite in_hand_other by lia. unfold set_held. rewrite Nat.eqb_refl. lia.
  - specialize (IH ltac:(lia)). unfold set_held at 1. rewrite (proj2 (Nat.eqb_neq k i)) by lia. lia.
Qed.

(** Every permit is at the semaphore, with a listener or with a connection. *)
Lemma slots_balance k happenings s s' held :
  Forall (λ h, match h with Listener i _ => (i < k)%nat | ConnectionOver => True end) happenings ->
  (forall i, (i < k)%nat -> exists b, permits (held i) (of_listener i happenings) = Some b) ->
  slots_run happenings s = Some s' -> 0 <= available s -> 0 <= connections s ->
  0 <= available s' /\ 0 <= connections s' /\
  exists held', (forall i, (i < k)%nat -> permits (held i) (of_listener i happenings) = Some (held' i)) /\
    available s' + connections s' + in_hand k held' = available s + connections s + in_hand k held.
Proof.
  revert s held. induction happenings as [|h hs IH]; intros s held Hk Hp Hrun Ha Hc.
  { injection Hrun as <-. eauto 6. }
  apply Forall_cons_1 in Hk as [Hi Hk]. cbn in Hrun. destruct (slots_step h s) as [s1|] eqn:Hs; [|done]. cbn in Hrun.
  destruct h as [i e|].
  - destruct (Hp i Hi) as [b Hb]. cbn in Hb. rewrite Nat.eqb_refl in Hb. cbn in Hb.
    destruct (permit_step (held i) e) as [h1|] eqn:He; [|done]. cbn in Hb.
    destruct (IH s1 (set_held held i h1) Hk) as (? & ? & held' & Hheld & Hsum); [|done| | |].
    + intros j Hj. destruct (Hp j Hj) as [b' Hb']. unfold set_held. destruct (decide (j = i)) as [->|Hne].
      * rewrite Nat.eqb_refl. by exists b.
      * rewrite (proj2 (Nat.eqb_neq j i)) by done. cbn in Hb'. rewrite (proj2 (Nat.eqb_neq j i)) in Hb' by done. by exists b'.
    + clear -Hs Ha. destruct e as [| | |[|]| | | | | | |]; cbn in Hs; repeat case_match; simplify_eq; cbn; lia.
    + clear -Hs Hc. destruct e as [| | |[|]| | | | | | |]; cbn in Hs; repeat case_match; simplify_eq; cbn; lia.
    + split_and!; [done..|]. exists held'. split.
      { intros j Hj. specialize (Hheld j Hj). unfold set_held in Hheld. cbn. destruct (decide (j = i)) as [->|Hne].
        - rewrite Nat.eqb_refl in *. cbn. by rewrite He.
        - by rewrite (proj2 (Nat.eqb_neq j i)) in * by done. }
      rewrite Hsum. pose proof (in_hand_set k held i h1 Hi) as Hset.
      clear -Hs He Hset. destruct e as [| | |[|]| | | | | | |]; destruct (held i); cbn in Hs, He; repeat case_match; simplify_eq; cbn; lia.
  - destruct (IH s1 held Hk Hp Hrun) as (? & ? & held' & Hheld & Hsum).
    1, 2: cbn in Hs; case_match; simplify_eq; cbn; lia.
    split_and!; [done..|]. exists held'. split; [done|]. rewrite Hsum. cbn in Hs. case_match; simplify_eq. cbn. lia.
Qed.

Lemma permits_prefix l l' held b :
  l `prefix_of` l' -> permits held l' = Some b -> exists b', permits held l = Some b'.
Proof.
  intros [rest ->]. rewrite permits_app. destruct (permits held l) as [h|]; [eauto|done].
Qed.

Lemma in_hand_none k : in_hand k (λ _, false) = 0.
Proof. by induction k. Qed.

(** The listeners that hold a permit after what they did. *)
Definition holding (happenings : list Happening) (i : nat) : bool :=
  bool_decide (permits false (of_listener i happenings) = Some true).

Lemma in_hand_ext k held held' : (forall i, (i < k)%nat -> held i = held' i) -> in_hand k held = in_hand k held'.
Proof. induction k as [|k IH]; intros He; cbn; [done|]. rewrite (He k), IH; [done|auto with lia|lia]. Qed.

(** C27: However the listeners interleave, and whatever their sockets, timers and
    cancellations answer, the process never has more than [max_connections]
    connections open, and every permit that is neither with an open connection nor
    with a listener that is just accepting one is back at the semaphore. *)
Theorem connections_are_bounded {Env} `{AcceptHost Env} k max_connections happenings s :
  0 <= max_connections -> by_listeners k happenings -> slots_run happenings (new_slots max_connections) = Some s ->
  0 <= connections s <= max_connections /\
  available s = max_connections - connections s - in_hand k (holding happenings).
Proof.
  intros Hmax [Hk Hp] Hrun. destruct (slots_balance k happenings (new_slots max_connections) s (λ _, false) Hk)
    as (Ha & Hc & held & Hheld & Hsum); [|done..|].
  - intros i Hi. destruct (Hp i Hi) as (m & n & env & Hpre).
    destruct (serve_tcp_listener_permits m n (mkWorld env [])) as (l & Hl & Hok).
    rewrite Hl in Hpre. by eapply permits_prefix.
  - rewrite in_hand_none in Hsum. cbn in Hsum. pose proof (in_hand_ge k held).
    rewrite (in_hand_ext k (holding happenings) held); [lia|]. intros i Hi. unfold holding. rewrite (Hheld i Hi).
    destruct (held i); [by apply bool_decide_eq_true|by apply bool_decide_eq_false].
Qed.

(** ** Stalled writes *)

(** The polls of a response: when, and what the stream underneath answered. *)
Fixpoint poll_all {A} (polls : list (Z * Poll A)) (w : WriteIdleTimeout) : list (Poll (option A)) * WriteIdleTimeout :=
  match polls with
  | [] => ([], w)
  | (now, inner) :: polls =>
      let '(answer, w) := poll_progress now inner w in
      let '(answers, w) := poll_all polls w in
      (answer :: answers, w)
  end.

(** Since when the stream has been without progress, by the polls, latest first. *)
Fixpoint stalled_since {A} (polls : list (Z * Poll A)) : option Z :=
  match polls with
  | [] => None
  | (_, Ready _) :: _ => None
  | (now, Pending) :: earlier => Some (default now (stalled_since earlier))
  end.

Lemma poll_all_app {A} (l l' : list (Z * Poll A)) w :
  poll_all (l ++ l') w =
  ((poll_all l w).1 ++ (poll_all l' (poll_all l w).2).1, (poll_all l' (poll_all l w).2).2).
Proof.
  revert w. induction l as [|[now inner] l IH]; intros w; [by apply surjective_pairing|]. cbn [poll_all app].
  destruct (poll_progress now inner w) as [answer w1]. rewrite IH. by destruct (poll_all l w1).
Qed.

Lemma timer_is_stall {A} (polls : list (Z * Poll A)) timeout :
  (poll_all polls (new_idle timeout)).2 = mkIdle timeout (stalled_since (reverse polls)).
Proof.
  induction polls as [|[now inner] polls IH] using rev_ind; [done|].
  rewrite poll_all_app, IH, reverse_snoc. cbn. by destruct inner.
Qed.

(** A response fails for a stalled peer exactly when the stream underneath has
    made no progress for the whole timeout, counted from the first poll it left
    pending since it last made progress; every other answer is the stream's own,
    and no progress is ever lost to the timer. *)
Theorem stalled_writes_time_out {A} (polls : list (Z * Poll A)) now inner timeout :
  last (poll_all (polls ++ [(now, inner)]) (new_idle timeout)).1 =
  Some (match inner with
        | Ready a => Ready (Some a)
        | Pending =>
            match stalled_since (reverse (polls ++ [(now, inner)])) with
            | Some since => if since + timeout <=? now then Ready None else Pending
            | None => Pending
            end
        end).
Proof.
  rewrite poll_all_app, timer_is_stall, reverse_snoc. cbn.
  destruct inner as [a|]; cbn; rewrite last_snoc; [done|]. by destruct (_ <=? _).
Qed.

(** ** Witness *)
Module ConnectionExamples.
(** A host on which a connection is always ready. *)
#[local] Instance ready_host : AcceptHost unit := {
  ah_readable env := (Selected_ None, env);
  ah_poll env := (Ok true, env);
  ah_clear_ready env := (tt, env);
  ah_acquire env := (Selected_ tt, env);
  ah_drop_permit env := (tt, env);
  ah_is_cancelled env := (false, env);
  ah_accept env := (Some (Ok 7), env);
  ah_set_nonblocking _ env := (None, env);
  ah_from_std _ env := (None, env);
  ah_backoff _ _ env := (Selected_ tt, env);
  ah_spawn _ env := (tt, env)
}.

Definition round_log : list AcceptEvent := w_log (serve_tcp_listener 1 1 (mkWorld tt [])).2.
(** Two listeners accept in turn, and one of the connections ends. *)
Definition two_listeners : list Happening :=
  map (Listener 0) (take 6 round_log) ++ map (Listener 1) round_log ++ map (Listener 0) (drop 6 round_log) ++
  [ConnectionOver].

Lemma connections_are_bounded_witness :
  by_listeners 2 two_listeners /\ slots_run two_listeners (new_slots 2) = Some (mkSlots 1 1) /\ 1 <= 2.
Proof.
  assert (Hby : by_listeners 2 two_listeners).
  { split; [repeat constructor|]. intros [|[|i]] Hi; [| |lia].
    all: exists 1%nat, 1%nat, tt; vm_compute; exists []; reflexivity. }
  assert (Hrun : slots_run two_listeners (new_slots 2) = Some (mkSlots 1 1)) by (vm_compute; reflexivity).
  split_and!; [exact Hby|exact Hrun|].
  apply (connections_are_bounded 2 2 two_listeners (mkSlots 1 1)); [lia|exact Hby|exact Hrun].
Defined.
End ConnectionExamples.
