(* ===== verification/Process.v ===== *)
(** The life of the process ([src/src/main.rs]): [run_server] from the signal
    handlers to the exit code - binding the listeners, building the server,
    waiting for a signal, the graceful shutdown with its two deadlines, and the
    final flush of the log.

    Sockets, signals, timers, task trackers and the server runtime (whose own
    shutdown is [Lifecycle]) answer as they like; every interaction is logged.
    When a signal arrives before the server is built, what the abandoned startup
    thread still does is not part of the log.  Times are milliseconds. *)

From S2P Require Import Prelude Bytes Utils Problem RootedOs Config Connections.
From stdpp Require Import base numbers list strings sets.

Local Open Scope Z_scope.

(** ** The listening addresses *)

Definition newline : bytes := [Ascii.ascii_of_nat 10].

(** [Display] of [Ipv4Addr] and [Ipv6Addr] *)
Definition octets (a : Z) : list Z := map (λ k, Z.land (Z.shiftr a (8 * k)) 255) [3; 2; 1; 0].
Definition show_ipv4 (a : Z) : bytes := join_with (bs ".") (map u64_to_string (octets a)).

Definition segments (a : Z) : list Z := map (λ k, Z.land (Z.shiftr a (16 * k)) 65535) [7; 6; 5; 4; 3; 2; 1; 0].

(** [{:x}] of a segment *)
Fixpoint show_hex_digits (n : nat) (v : Z) : bytes :=
  match n with
  | O => []
  | S n => (if 16 <=? v then show_hex_digits n (Z.shiftr v 4) else []) ++ [hex_digit (Z.land v 15)]
  end.
Definition show_segments (l : list Z) : bytes := join_with (bs ":") (map (show_hex_digits 4) l).

(** The first longest run of zero segments, as its start and length. *)
Fixpoint longest_zeros (i : nat) (l : list Z) (current longest : nat * nat) : nat * nat :=
  match l with
  | [] => longest
  | v :: l =>
      if v =? 0 then
        let current := (if Nat.eqb current.2 0 then i else current.1, S current.2) in
        longest_zeros (S i) l current (if Nat.ltb longest.2 current.2 then current else longest)
      else longest_zeros (S i) l (0, 0)%nat longest
  end.

Definition show_ipv6 (a : Z) : bytes :=
  if Z.shiftr a 32 =? 65535 then bs "::ffff:" ++ show_ipv4 (Z.land a (2 ^ 32 - 1))
  else
    let s := segments a in
    let '(start, len) := longest_zeros 0 s (0, 0)%nat (0, 0)%nat in
    if Nat.ltb 1 len then show_segments (take start s) ++ bs "::" ++ show_segments (drop (start + len) s)
    else show_segments s.

Definition listening_url (port : Z) (addr : IpAddr) : bytes :=
  let addr := match addr with
              | V4 a => show_ipv4 a ++ bs ":" ++ u64_to_string port
              | V6 a => bs "[" ++ show_ipv6 a ++ bs "]:" ++ u64_to_string port
              end in
  bs "http://" ++ addr ++ bs "/".

Definition print_listening (print_addrs : list IpAddr) (port : Z) : bytes :=
  match map (listening_url port) print_addrs with
  | [url] => bs "Listening on " ++ url
  | urls => bs "Listening on:" ++ newline ++ join_with newline (map (λ v, bs "  " ++ v) urls) ++ newline
  end.

Example print_listening_single :
  print_listening [V6 1] 5000 = bs "Listening on http://[::1]:5000/" /\
  print_listening [V4 2130706433] 80 = bs "Listening on http://127.0.0.1:80/" /\
  show_ipv6 (Z.shiftl 8193 112 + Z.shiftl 3512 96 + 16 * 16) = bs "2001:db8::100".
Proof. vm_compute. auto. Qed.

(** ** The process and its host *)

(** [ShutdownSignals::recv]: the name of the signal, or a closed stream. *)
Inductive Signal := SIGINT | SIGTERM.

(** Why [run_server] fails. *)
Inductive ProcessError :=
| SignalHandler | SignalStreamClosed | BindFailed (ip : IpAddr) (port : Z) | PortUnknown | BuildFailed | StartupTaskFailed.

(** How a process ends without reaching the end of [run_server]. *)
Inductive Halt := Exited (code : Z) | Failed (e : ProcessError).

(** A [select!] with the signals first: the signal, the future, or the deadline. *)
Inductive Race := SignalFirst (answer : option Signal) | Done | DeadlinePassed.

Inductive ProcessEvent :=
| InstallSignals (answer : bool)
| StartupRace (answer : option (option Signal))
| StartupJoined (answer : bool)
(** [create_listener]: the calls on the socket *)
| NewSocket (ip : IpAddr) (answer : option Z)
| SetOnlyV6 (fd : Z) (answer : bool)
| SetReuseAddress (fd : Z) (answer : bool)
| BindSocket (fd : Z) (port : Z) (answer : bool)
| ListenSocket (fd : Z) (backlog : Z) (answer : bool)
| SetListenerNonblocking (fd : Z) (answer : bool)
| RegisterListener (fd : Z) (answer : bool)
| LocalPort (fd : Z) (answer : option Z)
| BuildServer (answer : bool)
| SpawnListener (fd : Z)
| CloseListeners
| WriteListening (text : bytes) (answer : bool)
(** a signal, or all listener tasks ended *)
| ServingRace (answer : option (option Signal))
| CancelShutdown
| WaitListeners
| CloseConnections
| Clock (answer : Z)
(** the connection tasks *)
| ConnectionsRace (deadline : Z) (answer : Race)
| RequestForceShutdown
(** [ServerRuntime::shutdown] *)
| RuntimeRace (deadline : Z) (answer : Race)
| SpawnFlush (answer : bool)
(** a signal, or whether the flush was acknowledged *)
| FlushRace (answer : option Signal + bool)
(** [error!("Server failed")] and [log::logger().flush()] *)
| LogFailure (error : ProcessError)
| FlushLog
| Exit (code : Z).

Class ProcessHost (Env : Type) := {
  ph_install : Env -> bool * Env;
  ph_startup_race : Env -> option (option Signal) * Env;
  ph_startup_joined : Env -> bool * Env;
  ph_socket : IpAddr -> Env -> option Z * Env;
  ph_only_v6 : Z -> Env -> bool * Env;
  ph_reuse : Z -> Env -> bool * Env;
  ph_bind : Z -> Z -> Env -> bool * Env;
  ph_listen : Z -> Z -> Env -> bool * Env;
  ph_nonblocking : Z -> Env -> bool * Env;
  ph_register : Z -> Env -> bool * Env;
  ph_local_port : Z -> Env -> option Z * Env;
  ph_build : Env -> bool * Env;
  ph_spawn : Z -> Env -> unit * Env;
  ph_close_listeners : Env -> unit * Env;
  ph_write_listening : bytes -> Env -> bool * Env;
  ph_serving_race : Env -> option (option Signal) * Env;
  ph_cancel : Env -> unit * Env;
  ph_wait_listeners : Env -> unit * Env;
  ph_close_connections : Env -> unit * Env;
  ph_clock : Env -> Z * Env;
  ph_connections_race : Z -> Env -> Race * Env;
  ph_force : Env -> unit * Env;
  ph_runtime_race : Z -> Env -> Race * Env;
  ph_spawn_flush : Env -> bool * Env;
  ph_flush_race : Env -> (option Signal + bool) * Env;
  ph_log_failure : ProcessError -> Env -> unit * Env;
  ph_flush : Env -> unit * Env;
  ph_exit : Z -> Env -> unit * Env
}.

Section process.
Context {Env : Type} `{ProcessHost Env}.
Abbreviation Proc A := (Prog ProcessEvent Env (result Halt A)).
Abbreviation Startup A := (Prog ProcessEvent Env (result ProcessError A)).

Definition failed {A} (e : ProcessError) : Proc A := fail (Failed e).

(** [bool] as [io::Result<()>] with the error it becomes. *)
Definition checked (e : ProcessError) (run : Env -> bool * Env) (event : bool -> ProcessEvent) : Startup unit :=
  do done <- syscall run event; if done : bool then ok tt else fail e.

(** [?] on what can only fail. *)
Definition started {A} (m : Startup A) : Proc A :=
  do r <- m; match r with Ok a => ok a | Err e => failed e end.

Definition exit {A} (code : Z) : Proc A :=
  do _ <- syscall (ph_exit code) (λ _, Exit code); fail (Exited code).

Definition force_exit {A} (signal : Signal) : Proc A := exit (match signal with SIGTERM => 143 | SIGINT => 130 end).
Definition hard_deadline_exit {A} : Proc A := exit 1.

(** [force_exit(signal?)] *)
Definition signalled {A} (answer : option Signal) : Proc A :=
  match answer with Some signal => force_exit signal | None => failed SignalStreamClosed end.

(** *** Startup *)

Definition is_ipv6 (ip : IpAddr) : bool := match ip with V6 _ => true | V4 _ => false end.

Definition create_listener (ip : IpAddr) (port : Z) : Startup Z :=
  let error := BindFailed ip port in
  do socket <- syscall (ph_socket ip) (NewSocket ip);
  match socket with
  | None => fail error
  | Some fd =>
      attempt _ <- (if is_ipv6 ip then checked error (ph_only_v6 fd) (SetOnlyV6 fd) else ok tt);
      attempt _ <- checked error (ph_reuse fd) (SetReuseAddress fd);
      attempt _ <- checked error (ph_bind fd port) (BindSocket fd port);
      attempt _ <- checked error (ph_listen fd 1024) (ListenSocket fd 1024);
      attempt _ <- checked error (ph_nonblocking fd) (SetListenerNonblocking fd);
      attempt _ <- checked error (ph_register fd) (RegisterListener fd);
      ok fd
  end.

(** The loop of [serve] over the addresses: the listeners and the port. *)
Fixpoint bind_addresses (addrs : list IpAddr) (port : Z) (listeners : list Z) : Startup (Z * list Z) :=
  match addrs with
  | [] => ok (port, listeners)
  | ip :: addrs =>
      attempt fd <- create_listener ip port;
      attempt port <- (if port =? 0
                       then do local <- syscall (ph_local_port fd) (LocalPort fd);
                            match local with Some port => ok port | None => fail PortUnknown end
                       else ok port);
      bind_addresses addrs port (listeners ++ [fd])
  end.

Fixpoint spawn_listeners (listeners : list Z) : Startup unit :=
  match listeners with
  | [] => ok tt
  | fd :: listeners => do _ <- syscall (ph_spawn fd) (λ _, SpawnListener fd); spawn_listeners listeners
  end.

(** The port of [Serving]. *)
Definition serve (addrs : list IpAddr) (port : Z) : Startup Z :=
  attempt bound <- bind_addresses addrs port [];
  attempt _ <- checked BuildFailed ph_build BuildServer;
  attempt _ <- spawn_listeners bound.2;
  do _ <- syscall ph_close_listeners (λ _, CloseListeners);
  ok bound.1.

(** *** Shutdown *)

(** The connections did not drain in time: the forced deadline. *)
Definition force_connections : Proc Z :=
  do _ <- syscall ph_force (λ _, RequestForceShutdown);
  do now <- syscall ph_clock Clock;
  let deadline := now + FORCED_SHUTDOWN_PERIOD in
  do race <- syscall (ph_connections_race deadline) (ConnectionsRace deadline);
  match race with
  | SignalFirst answer => signalled answer
  | Done => ok deadline
  | DeadlinePassed => hard_deadline_exit
  end.

(** A last wait for the runtime. *)
Definition last_wait (deadline : Z) : Proc unit :=
  do race <- syscall (ph_runtime_race deadline) (RuntimeRace deadline);
  match race with
  | SignalFirst answer => signalled answer
  | Done => ok tt
  | DeadlinePassed => hard_deadline_exit
  end.

(** The connections drained: the runtime has what is left of the grace period. *)
Definition drain_runtime (deadline : Z) : Proc unit :=
  do race <- syscall (ph_runtime_race deadline) (RuntimeRace deadline);
  match race with
  | SignalFirst answer => signalled answer
  | Done => ok tt
  | DeadlinePassed =>
      do _ <- syscall ph_force (λ _, RequestForceShutdown);
      do now <- syscall ph_clock Clock;
      last_wait (now + FORCED_SHUTDOWN_PERIOD)
  end.

Definition shutdown : Proc unit :=
  do _ <- syscall ph_cancel (λ _, CancelShutdown);
  do _ <- syscall ph_wait_listeners (λ _, WaitListeners);
  do _ <- syscall ph_close_connections (λ _, CloseConnections);
  do now <- syscall ph_clock Clock;
  let deadline := now + SHUTDOWN_GRACE_PERIOD in
  do race <- syscall (ph_connections_race deadline) (ConnectionsRace deadline);
  match race with
  | SignalFirst answer => signalled answer
  | Done => drain_runtime deadline
  | DeadlinePassed => attempt forced_deadline <- force_connections; last_wait forced_deadline
  end.

(** *** The process *)

Definition graceful_exit : Proc unit :=
  do spawned <- syscall ph_spawn_flush SpawnFlush;
  if spawned : bool then
    do race <- syscall ph_flush_race FlushRace;
    match race with
    | inl answer => signalled answer
    | inr _ => exit 0
    end
  else exit 1.

Definition run_server (addrs : list IpAddr) (port : Z) : Proc unit :=
  attempt _ <- started (checked SignalHandler ph_install InstallSignals);
  do early <- syscall ph_startup_race StartupRace;
  match early with
  | Some None => failed SignalStreamClosed
  | Some (Some _) => graceful_exit
  | None =>
      attempt _ <- started (checked StartupTaskFailed ph_startup_joined StartupJoined);
      attempt port <- started (serve addrs port);
      let listening := print_listening addrs port in
      do _ <- syscall (ph_write_listening listening) (WriteListening listening);
      do reason <- syscall ph_serving_race ServingRace;
      match reason with
      | Some None => failed SignalStreamClosed
      | _ => attempt _ <- shutdown; graceful_exit
      end
  end.

(** [run] from [run_server] on, with the exit code of the process: an error that
    [main] returns is code 1. *)
Definition run (addrs : list IpAddr) (port : Z) : Prog ProcessEvent Env Z :=
  do result <- run_server addrs port;
  match result with
  | Ok _ => ret 0
  | Err (Exited code) => ret code
  | Err (Failed error) =>
      do _ <- syscall (ph_log_failure error) (λ _, LogFailure error);
      do _ <- syscall ph_flush (λ _, FlushLog);
      ret 1
  end.
End process.

(** ** What an exit code tells *)

(** No [q] before the first [p]. *)
Fixpoint no_before (p q : ProcessEvent -> bool) (l : list ProcessEvent) : bool :=
  match l with [] => true | e :: l => if p e then true else negb (q e) && no_before p q l end.

Definition built (e : ProcessEvent) : bool := match e with BuildServer true => true | _ => false end.
Definition serves (e : ProcessEvent) : bool := match e with SpawnListener _ | ServingRace _ => true | _ => false end.
Definition listeners_gone (e : ProcessEvent) : bool := match e with WaitListeners => true | _ => false end.
Definition waits_connections (e : ProcessEvent) : bool := match e with ConnectionsRace _ _ => true | _ => false end.
Definition connections_drained (e : ProcessEvent) : bool :=
  match e with ConnectionsRace _ Done => true | _ => false end.
Definition waits_runtime (e : ProcessEvent) : bool := match e with RuntimeRace _ _ => true | _ => false end.
Definition runtime_down (e : ProcessEvent) : bool := match e with RuntimeRace _ Done => true | _ => false end.
Definition deadline_passed (e : ProcessEvent) : bool :=
  match e with ConnectionsRace _ DeadlinePassed | RuntimeRace _ DeadlinePassed => true | _ => false end.
Definition forces (e : ProcessEvent) : bool := match e with RequestForceShutdown => true | _ => false end.
Definition early_signal (e : ProcessEvent) : bool := match e with StartupRace (Some (Some _)) => true | _ => false end.
(** The thread that flushes the log has ended; whether it acknowledged is ignored. *)
Definition flush_ended (e : ProcessEvent) : bool := match e with FlushRace (inr _) => true | _ => false end.

(** The server is built before anything is served, the connections are waited for
    after the listeners are gone, the runtime is shut down after the connections
    have drained, and work is cancelled only after a deadline has passed. *)
Definition orderly (l : list ProcessEvent) : Prop :=
  no_before built serves l = true /\ no_before listeners_gone waits_connections l = true /\
  no_before connections_drained waits_runtime l = true /\ no_before deadline_passed forces l = true.

Definition interrupts (signal : Signal) (e : ProcessEvent) : Prop :=
  match e with
  | ConnectionsRace _ (SignalFirst (Some s)) | RuntimeRace _ (SignalFirst (Some s)) | FlushRace (inl (Some s)) => s = signal
  | _ => False
  end.

(** What a way to end tells about the run. *)
Definition told (h : Halt) (l : list ProcessEvent) : Prop :=
  match h with
  | Failed _ => forall code, Exit code ∉ l
  | Exited code =>
      exists before e, l = before ++ [e; Exit code] /\
      ((code = 0 /\ flush_ended e = true /\ (existsb early_signal l = true \/ existsb runtime_down l = true)) \/
       (code = 1 /\ (e = SpawnFlush false \/ (deadline_passed e = true /\ existsb forces before = true))) \/
       (code = 130 /\ interrupts SIGINT e) \/ (code = 143 /\ interrupts SIGTERM e))
  end.

(** The deadlines that were set: the grace period from the first reading of the
    clock, the forced period from the second. *)
Definition deadlines (l : list ProcessEvent) : list Z :=
  omap (λ e, match e with ConnectionsRace d _ | RuntimeRace d _ => Some d | _ => None end) l.
Definition clocks (l : list ProcessEvent) : list Z := omap (λ e, match e with Clock t => Some t | _ => None end) l.

Definition bounded_waits (l : list ProcessEvent) : Prop :=
  match clocks l with
  | [] => deadlines l = []
  | [t0] => Forall (λ d, d = t0 + SHUTDOWN_GRACE_PERIOD) (deadlines l)
  | [t0; t1] => Forall (λ d, d = t0 + SHUTDOWN_GRACE_PERIOD \/ d = t1 + FORCED_SHUTDOWN_PERIOD) (deadlines l)
  | _ => False
  end.

(** Events of the startup. *)
Definition starts (e : ProcessEvent) : bool :=
  match e with
  | NewSocket _ _ | SetOnlyV6 _ _ | SetReuseAddress _ _ | BindSocket _ _ _ | ListenSocket _ _ _
  | SetListenerNonblocking _ _ | RegisterListener _ _ | LocalPort _ _ | BuildServer _ | SpawnListener _ | CloseListeners => true
  | _ => false
  end.

Section facts.
Context {Env : Type} `{ProcessHost Env}.

Lemma create_listener_emits ip port :
  emits (λ e, starts e = true /\ serves e = false) (create_listener ip port).
Proof. unfold create_listener, checked. repeat emits_step; by split. Qed.

Lemma bind_addresses_emits addrs port listeners :
  emits (λ e, starts e = true /\ serves e = false) (bind_addresses addrs port listeners).
Proof.
  revert port listeners. induction addrs as [|ip addrs IH]; intros port listeners; cbn [bind_addresses]; [apply emits_ret|].
  apply emits_bind_ok; [apply create_listener_emits|]. intros fd.
  apply emits_bind_ok; [|intros; apply IH]. repeat emits_step; by split.
Qed.

Lemma spawn_listeners_emits listeners : emits (λ e, starts e = true) (spawn_listeners listeners).
Proof. induction listeners as [|fd l IH]; cbn [spawn_listeners]; emits_auto. Qed.

Lemma no_before_skip p q l l' :
  Forall (λ e, q e = false) l -> no_before p q l' = true -> no_before p q (l ++ l') = true.
Proof. induction 1 as [|e l He _ IH]; intros Hl'; cbn; [done|]. destruct (p e); [done|]. by rewrite He, IH. Qed.

Lemma no_before_absent p q l : Forall (λ e, q e = false) l -> no_before p q l = true.
Proof. intros Hl. rewrite <-(app_nil_r l). by apply no_before_skip. Qed.

Lemma serve_spec addrs port :
  spec (serve addrs port) (λ r l,
    Forall (λ e, starts e = true) l /\ no_before built serves l = true /\
    (forall p, r = Ok p -> forall l', no_before built serves (l ++ l') = true)).
Proof.
  unfold serve. eapply spec_bind_ok; [apply bind_addresses_emits| |].
  - intros [p fds] l1 Hl1. apply Forall_and in Hl1 as [Hs Hq].
    unfold checked. eapply spec_bind_ok with (P := λ r l, l = [BuildServer (match r with Ok _ => true | Err _ => false end)]).
    { repeat spec_step; done. }
    + intros _ l2 ->. eapply spec_bind_ok; [apply spawn_listeners_emits| |].
      * intros ? l3 Hl3. repeat spec_step.
        assert (Hb : forall l', no_before built serves (l1 ++ BuildServer true :: l') = true) by (intros; by apply no_before_skip).
        split_and!; [|apply Hb|intros ?? l'; rewrite <-!app_assoc; apply Hb].
        apply Forall_app; split; [done|]. constructor; [done|]. apply Forall_app; split; [done|]. by repeat constructor.
      * intros e l3 Hl3. split_and!; [|by apply no_before_skip|done].
        apply Forall_app; split; [done|]. by constructor.
    + intros e l2 ->. split_and!; [|by apply no_before_skip|done]. apply Forall_app; split; [done|]. by repeat constructor.
  - intros e l1 Hl1. apply Forall_and in Hl1 as [Hs Hq]. split_and!; [done|by apply no_before_absent|done].
Qed.

(** Paths through nested programs. *)
Local Ltac walk :=
  repeat (spec_step ||
    (intros; cbv beta zeta; match goal with
    | |- spec (bind_ok _ _) _ => unfold bind_ok
    | |- spec (bind (bind _ _) _) _ => apply spec_bind_assoc
    | |- spec (bind (ret _) _) _ => apply spec_bind_ret
    | |- spec (bind (ok _) _) _ => apply spec_bind_ret
    | |- spec (bind (fail _) _) _ => apply spec_bind_ret
    | |- spec (bind (match ?x with _ => _ end) _) _ => destruct x eqn:?
    end)).

(** [Forall] over an explicit list. *)
Local Ltac each := repeat first [apply Forall_nil_2|apply Forall_cons_2; [auto|]].

(** What the shutdown establishes. *)
Definition shut_down (r : result Halt unit) (l : list ProcessEvent) : Prop :=
  orderly l /\ bounded_waits l /\
  match r with
  | Ok _ => existsb runtime_down l = true /\ (forall code, Exit code ∉ l)
  | Err h => told h l
  end.

(** The last two events of an explicit log. *)
Local Ltac last_two :=
  match goal with
  | |- exists b e, ?l = b ++ [e; _] /\ _ =>
      let n := eval cbv in (length l - 2)%nat in
      exists (take n l); let e := eval cbv in (l !! n) in
      match e with Some ?e => exists e end; split; [reflexivity|]
  end.

Local Ltac settle_path :=
  cbn; simplify_eq;
  first [ split; [reflexivity|set_solver]
        | set_solver
        | last_two; cbn; naive_solver ].

Lemma shutdown_spec : spec shutdown shut_down.
Proof.
  unfold shutdown, drain_runtime, force_connections, last_wait, hard_deadline_exit, signalled, force_exit, exit, failed.
  walk. all: try match goal with s : Signal |- _ => destruct s end.
  all: intros; unfold shut_down; split; [by repeat split|];
    split; [cbn; each|]; settle_path.
Qed.

(** Events that no order and no deadline is about. *)
Definition plain (e : ProcessEvent) : bool :=
  negb (waits_connections e || waits_runtime e || forces e || match e with Clock _ => true | _ => false end).

Lemma plain_absent l :
  Forall (λ e, plain e = true) l ->
  Forall (λ e, waits_connections e = false) l /\ Forall (λ e, waits_runtime e = false) l /\
  Forall (λ e, forces e = false) l /\ deadlines l = [] /\ clocks l = [].
Proof.
  induction 1 as [|e l He _ (H1 & H2 & H3 & H4 & H5)]; [by split_and!; try constructor|].
  split_and!; [by constructor; [destruct e|]..| |]; by destruct e.
Qed.

Lemma starts_plain e : starts e = true -> plain e = true.
Proof. by destruct e. Qed.

Lemma bounded_waits_around l1 l l2 :
  Forall (λ e, plain e = true) l1 -> Forall (λ e, plain e = true) l2 ->
  bounded_waits l -> bounded_waits (l1 ++ l ++ l2).
Proof.
  intros (_ & _ & _ & Hd & Hc)%plain_absent (_ & _ & _ & Hd' & Hc')%plain_absent.
  unfold bounded_waits, deadlines, clocks in *. by rewrite !omap_app, Hd, Hc, Hd', Hc', !app_nil_r.
Qed.

Lemma no_before_more p q l l' :
  no_before p q l = true -> Forall (λ e, q e = false) l' -> no_before p q (l ++ l') = true.
Proof.
  intros Hl Hl'. induction l as [|e l IH]; cbn in *; [by apply no_before_absent|].
  destruct (p e); [done|]. apply andb_true_iff in Hl as [-> ?]. by apply IH.
Qed.

Lemma orderly_around l1 l l2 :
  Forall (λ e, plain e = true) l1 -> Forall (λ e, plain e = true) l2 ->
  no_before built serves (l1 ++ l ++ l2) = true -> orderly l -> orderly (l1 ++ l ++ l2).
Proof.
  intros (A1 & A2 & A3 & _)%plain_absent (B1 & B2 & B3 & _)%plain_absent Hb (_ & O1 & O2 & O3).
  split_and!; [done| | |]; apply no_before_skip, no_before_more; done.
Qed.

Lemma waits_after l1 l :
  Forall (λ e, plain e = true) l1 -> no_before built serves (l1 ++ l) = true -> orderly l -> bounded_waits l ->
  orderly (l1 ++ l) /\ bounded_waits (l1 ++ l).
Proof.
  intros Hl Hb Ho Hw. pose proof (orderly_around l1 l [] Hl) as Ho'. pose proof (bounded_waits_around l1 l [] Hl) as Hw'.
  rewrite !app_nil_r in *. split; [apply Ho'|apply Hw']; done || each.
Qed.

Lemma existsb_after (f : ProcessEvent -> bool) l1 l : existsb f l = true -> existsb f (l1 ++ l) = true.
Proof. intros Hl. by rewrite existsb_app, Hl, orb_true_r. Qed.

Lemma told_after l1 l h : (forall code, Exit code ∉ l1) -> told h l -> told h (l1 ++ l).
Proof.
  intros Hx. destruct h as [code|e]; cbn.
  - intros (before & e & -> & Ht). exists (l1 ++ before), e. split; [by rewrite app_assoc|].
    naive_solver (auto using existsb_after).
  - intros Hl code. rewrite elem_of_app. intros [?|?]; [by eapply Hx|by eapply Hl].
Qed.

(** How [run_server] ends. *)
Definition honest (r : result Halt unit) (l : list ProcessEvent) : Prop :=
  orderly l /\ bounded_waits l /\ match r with Ok _ => False | Err h => told h l end.

(** The final flush, after what let it begin. *)
Lemma graceful_exit_spec before :
  orderly before -> bounded_waits before -> (forall code, Exit code ∉ before) ->
  existsb early_signal before = true \/ existsb runtime_down before = true ->
  spec graceful_exit (λ r l, honest r (before ++ l)).
Proof.
  intros Ho Hb Hx Hw. unfold graceful_exit, signalled, force_exit, exit, failed.
  walk; intros. all: try match goal with s : Signal |- _ => destruct s end.
  all: split; [apply (orderly_around [] before); [each|each| |done]; apply (no_before_more _ _ before); [apply Ho|each]|].
  all: split; [by apply (bounded_waits_around [] before); [each|each|]|].
  all: try (apply told_after; [done|]; cbn; set_solver).
  all: match goal with |- told _ (_ ++ [SpawnFlush ?b; ?e; _]) => exists (before ++ [SpawnFlush b]), e
       | |- told _ (_ ++ [?e; _]) => exists before, e end; (split; [by rewrite <-?app_assoc|]).
  all: cbn; rewrite ?existsb_app, ?orb_true_iff; naive_solver.
Qed.

Lemma starts_no_exit l : Forall (λ e, starts e = true) l -> forall code, Exit code ∉ l.
Proof. intros Hl code Hin. by specialize (proj1 (Forall_forall _ _) Hl _ Hin). Qed.

(** A startup that fails. *)
Lemma failed_startup e l :
  Forall (λ e, plain e = true) l -> no_before built serves l = true -> (forall code, Exit code ∉ l) ->
  honest (Err (Failed e)) l.
Proof.
  intros Hl Hb Hx. pose proof (waits_after l [] Hl) as Hw. rewrite !app_nil_r in Hw.
  destruct Hw as [? ?]; [done|done|done|]. by split_and!.
Qed.

(** Once the server is built, it serves until it is told to stop, shuts down and
    flushes the log. *)
Lemma serving_spec before :
  Forall (λ e, plain e = true) before -> (forall l, no_before built serves (before ++ l) = true) ->
  (forall code, Exit code ∉ before) ->
  spec (attempt _ <- shutdown; graceful_exit) (λ r l, honest r (before ++ l)).
Proof.
  intros Hp Hb Hx. eapply spec_bind_ok; [apply shutdown_spec| |].
  - intros _ l (Ho & Hw & Hdown & Hnone). destruct (waits_after before l) as [? ?]; [done..|].
    eapply spec_weaken; [apply (graceful_exit_spec (before ++ l))|intros r l'; by rewrite app_assoc]; [done..| |].
    + intros code. rewrite elem_of_app. intros [?|?]; [by eapply Hx|by eapply Hnone].
    + right. by apply existsb_after.
  - intros h l (Ho & Hw & Ht). destruct (waits_after before l) as [? ?]; [done..|].
    split_and!; [done..|by apply told_after].
Qed.

(** From a complete startup to the end. *)
Lemma built_spec before text :
  Forall (λ e, plain e = true) before -> (forall l, no_before built serves (before ++ l) = true) ->
  (forall code, Exit code ∉ before) ->
  spec (do _ <- syscall (ph_write_listening text) (WriteListening text);
        do reason <- syscall ph_serving_race ServingRace;
        match reason with
        | Some None => failed SignalStreamClosed
        | _ => attempt _ <- shutdown; graceful_exit
        end) (λ r l, honest r (before ++ l)).
Proof.
  intros Hp Hb Hx. apply spec_bind_call. intros written. apply spec_bind_call. intros reason.
  set (now := before ++ [WriteListening text written; ServingRace reason]).
  assert (Hp' : Forall (λ e, plain e = true) now) by (apply Forall_app; split; [done|each]).
  assert (Hb' : forall l, no_before built serves (now ++ l) = true) by (intros l; unfold now; by rewrite <-app_assoc).
  assert (Hx' : forall code, Exit code ∉ now) by (intros code; specialize (Hx code); set_solver).
  destruct reason as [[signal|]|].
  1, 3: eapply spec_weaken; [by apply (serving_spec now)|]; intros r l; unfold now; by rewrite <-app_assoc.
  apply spec_ret. apply failed_startup; [done|by rewrite <-(app_nil_r (before ++ _))|done].
Qed.

Lemma run_server_honest addrs port : spec (run_server addrs port) honest.
Proof.
  unfold run_server, started, checked, failed. walk.
  all: try (apply failed_startup; [each|reflexivity|set_solver]).
  - apply (graceful_exit_spec [_; _]); [done|done|set_solver|by left].
  - set (startup := [InstallSignals true; StartupRace None; StartupJoined true]).
    eapply spec_bind; [apply serve_spec|]. intros [p|e] l (Hs & Hb & Hok).
    all: assert (Hp : Forall (λ e, plain e = true) (startup ++ l))
      by (apply Forall_app; split; [each|by eapply Forall_impl; [|apply starts_plain]]).
    all: assert (Hx : forall code, Exit code ∉ startup ++ l)
      by (intros code; pose proof (starts_no_exit l Hs code); set_solver).
    + eapply spec_weaken; [apply (built_spec (startup ++ l)); [done| |done]|intros r c Hc; exact Hc].
      intros l'. rewrite <-app_assoc. apply no_before_skip; [each|by apply (Hok p)].
    + walk. apply failed_startup; rewrite ?app_nil_r; [done| |done]. apply (no_before_skip _ _ startup); [each|done].
Qed.

(** What the exit code of the process tells about its run. *)
Definition code_told (code : Z) (l : list ProcessEvent) : Prop :=
  (exists before e, l = before ++ [e; Exit code] /\
    ((code = 0 /\ flush_ended e = true /\ (existsb early_signal l = true \/ existsb runtime_down l = true)) \/
     (code = 1 /\ (e = SpawnFlush false \/ (deadline_passed e = true /\ existsb forces before = true))) \/
     (code = 130 /\ interrupts SIGINT e) \/ (code = 143 /\ interrupts SIGTERM e))) \/
  (exists before e, l = before ++ [LogFailure e; FlushLog] /\ code = 1 /\ forall other, Exit other ∉ before).

End facts.
