(* ===== verification/Dispatch.v ===== *)
(** The request dispatcher ([src/src/server/router/dispatch.rs] with
    [run_tracked_upload] of [src/src/server.rs]).

    One definition per phase: the public routes, authentication, the
    authenticated API, and for everything else the headers of a mutation, the
    admission to its target, the target's inspection and the handler of the
    method.  A tracked upload runs in a task of its own; its events and those of
    the request that waits for it are logged one after the other, although they
    interleave (see [MutationProgress]). *)

From S2P Require Import Prelude Bytes StdPath StoreModel Utils UuidText InternalNames PathPolicy Http UploadProtocol Problem Registry.
From S2P Require Import Revisions ListingSort Listing ListSnapshots ListApi RootedOs RootedFs StageFiles ServerHost BrowserApi Delete UploadHost UploadPipeline UploadPrepare.
From S2P Require Import Download WebPages Router RequestHost UploadApi.
From stdpp Require Import base numbers list gmap strings.
From Stdlib Require Import Ascii.
Import ErrorCode.

Local Open Scope Z_scope.

Definition HEALTH_CHECK_PATH : bytes := bs "__dufs__/health".
Definition READINESS_CHECK_PATH : bytes := bs "__dufs__/ready".
Definition ALLOW : bytes := bs "allow".
Definition IF_MATCH : bytes := bs "if-match".

(** ** What the headers of a mutation say *)

Record UploadRequest := mkUploadRequest {
  ur_id : bytes;
  ur_length : Z;
  ur_mode : UploadMode;
  ur_overwrite : UploadOverwritePolicy
}.

Inductive DeleteCondition := MissingCondition | InvalidCondition | RevisionCondition (revision : bytes).

Record MutationHeaders := mkMutationHeaders {
  mh_delete_operation_id : option bytes;
  mh_delete_condition : DeleteCondition;
  mh_upload : option UploadRequest
}.

(** A request, with its query already parsed and its body read as far as the
    handlers read it. *)
Record Request `{HttpTypes} := mkRequest {
  rq_method : Method;
  rq_path : bytes;
  rq_query : gmap bytes bytes;
  rq_headers : HeaderMap;
  rq_body : BodyRead;
  rq_upload_body : UploadBody;
  rq_body_length : option Z
}.

Inductive DeletePreparation :=
| NotRequested
| StartedDelete (id : bytes) (operation : OperationGuard).

Record PreparedTarget := mkPreparedTarget {
  pt_target : bytes;
  pt_miss_is_hidden : bool;
  pt_is_dir : bool;
  pt_is_file : bool;
  pt_delete_operation : option (bytes * OperationGuard);
  pt_path_lease : option Z
}.

Section headers.
Context `{HttpTypes} `{UuidLib}.

Definition quote : ascii := byte_chr 34.

Definition parse_delete_condition (headers : HeaderMap) : DeleteCondition :=
  match get_all headers IF_MATCH with
  | [] => MissingCondition
  | [value] =>
      match to_str value with
      | None => InvalidCondition
      | Some value =>
          match (inner ← str_strip_prefix [quote] value; str_strip_suffix [quote] inner) with
          | None => InvalidCondition
          | Some value =>
              match revision_parse value with
              | Some revision => RevisionCondition revision
              | None => InvalidCondition
              end
          end
      end
  | _ => InvalidCondition
  end.

Definition render_bad_upload_header (code : ErrorCode) (detail : bytes) : result Failure Response :=
  render_problem default_response (new_api_error 400 code detail).

(** [Err]: the response of a request whose header is missing or malformed. *)
Definition required {A} (r : result bytes (option A)) (code : ErrorCode) (missing : bytes)
    : result (result Failure Response) A :=
  match r with
  | Ok (Some value) => Ok value
  | Ok None => Err (render_bad_upload_header code missing)
  | Err error => Err (render_bad_upload_header code error)
  end.

Definition parse_required_upload_id (headers : HeaderMap) : result (result Failure Response) bytes :=
  required (parse_upload_id headers) INVALID_UPLOAD_ID (bs "The x-dufs-upload-id header is required").
Definition parse_required_upload_length (headers : HeaderMap) : result (result Failure Response) Z :=
  required (parse_upload_length headers) INVALID_UPLOAD_LENGTH (bs "The x-dufs-upload-length header is required").

Definition parse_upload_mode (method : Method) (headers : HeaderMap) : result (result Failure Response) UploadMode :=
  if negb (bool_decide (method = PATCH)) then Ok UploadProtocol.Fresh
  else
    offset ← required (parse_upload_offset headers) INVALID_UPLOAD_OFFSET
               (bs "The x-dufs-upload-offset header is required");
    Ok (Resume offset).

Definition parse_overwrite (headers : HeaderMap) : result (result Failure Response) UploadOverwritePolicy :=
  match parse_upload_overwrite headers with
  | Ok value => Ok value
  | Err (EUploadOverwrite detail) => Err (render_bad_upload_header INVALID_UPLOAD_OVERWRITE detail)
  | Err (ETargetRevision detail) => Err (render_bad_upload_header INVALID_TARGET_REVISION detail)
  end.

Definition parse_mutation_headers (method : Method) (headers : HeaderMap)
    : result (result Failure Response) MutationHeaders :=
  delete_operation_id ←
    (if bool_decide (method = DELETE) then
       match parse_operation_id headers with
       | Ok (Some id) => Ok (Some id)
       | Ok None => Err (apply_invalid_id default_response (bs "The x-dufs-operation-id header is required"))
       | Err message => Err (apply_invalid_id default_response message)
       end
     else Ok None);
  upload ←
    (if bool_decide (method = PUT \/ method = PATCH) then
       id ← parse_required_upload_id headers;
       length ← parse_required_upload_length headers;
       mode ← parse_upload_mode method headers;
       overwrite ← parse_overwrite headers;
       Ok (Some (mkUploadRequest id length mode overwrite))
     else Ok None);
  Ok (mkMutationHeaders delete_operation_id
        (if bool_decide (method = DELETE) then parse_delete_condition headers else MissingCondition) upload).

(** ** Refusals *)

Definition apply_tracked_delete_rejection (id : bytes) (status : Z) (code : ErrorCode) (message : bytes)
    : result Failure Response :=
  res ← set_operation_headers default_response id OpRejected;
  render_problem res (with_operation (new_api_error status code message)
    (mkOperationContext (uuid_to_string id) OpRejected None)).

Definition render_upload_rejection (upload : UploadRequest) (status : Z) (code : ErrorCode) (detail : bytes)
    (recovery : RecoveryAdvice) : result Failure Response :=
  render_upload_problem default_response status code detail recovery (ur_id upload) (ur_length upload)
    (mode_offset (ur_mode upload)) NotStarted.

Definition status_method_not_allowed (res : Response) (allow : bytes) : Response :=
  with_header (with_status res 405) ALLOW allow.

Definition render_api_method_not_allowed (allow : bytes) : result Failure Response :=
  render_problem (status_method_not_allowed default_response allow)
    (new_api_error 405 METHOD_NOT_ALLOWED (bs "Method not allowed for this API endpoint")).
End headers.

(** ** The dispatcher *)

(** The configuration of the server, its pages, the serializers it uses and the
    answers of the blocking pool to the jobs of one request. *)
Record Site := mkSite {
  site_fs : RootedFs;
  site_policy : PathPolicy;
  site_machine : Machine;
  site_max_search_entries : Z;
  site_min_free_space : Z;
  site_max_upload_size : Z;
  site_assets : list EmbeddedAsset;
  site_assets_prefix : bytes;
  site_login_html : bytes;
  site_password_bytes : Z * Z;
  site_index_html : bytes;
  (** [HyperAdministratorRouter::owns_path] *)
  site_owns_path : bytes -> bool;
  (** [serde_json], and [base64::STANDARD] *)
  site_json_text : Json -> bytes;
  site_index_json : bytes -> bool -> bytes;
  site_base64 : bytes -> bytes;
  (** [String::from_utf8_lossy] *)
  site_lossy : bytes -> bytes;
  (** what fits in memory, and the attributes of the file system *)
  site_room : nat -> bool;
  site_attributes : Z -> option Z;
  (** jobs of the blocking pool: removing a stage, publishing it, moving an
      entry to the trash *)
  site_cleanup : option IoError;
  site_publish : result IoError unit;
  site_gate : result IoError unit
}.

Section dispatch.
Context `{HttpTypes} `{TypedHeaders} `{UuidLib} `{RequestCodec} `{UploadCodec} `{TextOrder} `{Crypto}.
Context {Env : Type} `{Os Env} `{FileOs Env} `{Host Env} `{UploadHost Env} `{DownloadHost Env} `{!RequestHost Env}.
Context (site : Site).

Local Abbreviation fs := (site_fs site).
Local Abbreviation policy := (site_policy site).
Local Abbreviation Step A := (Req Env (result RequestError (Phase A))).

Definition respond_with {A} (res : Response) : Step A := answer (Ok res).

Definition reads_only (method : Method) : bool := bool_decide (method = GET \/ method = HEAD).
Definition head_only_for (method : Method) : bool := bool_decide (method = HEAD).

(** ** Public routes *)

Definition dispatch_public_routes (req : Request) (route : bytes) : Step unit :=
  let method := rq_method req in
  let res := default_response in
  if beqb route HEALTH_CHECK_PATH then
    respond_with (if reads_only method then send_liveness (head_only_for method) res
                  else status_method_not_allowed res (bs "GET, HEAD"))
  else if site_owns_path site (rq_path req) then
    do r <- syscall rh_administrate (λ _, Administrate); answer r
  else if beqb route LOGIN_PATH then
    respond_with
      (if bool_decide (method = GET)
       then send_login_page_for_get (site_assets_prefix site) (site_login_html site)
              (site_password_bytes site).1 (site_password_bytes site).2 res
       else status_method_not_allowed res (bs "GET"))
  else if reads_only method then
    match handle_internal (site_assets site) (site_assets_prefix site) route (head_only_for method) res with
    | (true, res) => respond_with res
    | (false, _) => go tt
    end
  else go tt.

(** ** Authentication *)

Definition authenticate (req : Request) (internal_api : bool) : Step bytes :=
  do r <- syscall rh_authenticate (λ r, Authenticate (match r with Ok account => Some account | Err _ => None end));
  match r with
  | Ok account => go account
  | Err response =>
      answer (res ← response;
              Ok (redirect_unauthenticated_page (reads_only (rq_method req)) (rq_headers req) internal_api res))
  end.

(** ** The authenticated API *)

(** The three probes run concurrently in a task of their own; they are logged one
    after the other. *)
Definition dispatch_readiness (method : Method) : Step unit :=
  if reads_only method then
    let send probes healthy shutdown force :=
      respond_with (send_readiness probes healthy shutdown force (head_only_for method) default_response) in
    do free <- syscall rh_readiness_slot ReadinessSlot;
    if negb free then send None false false false
    else
      do root <- req_kernel (probe_writable fs);
      do disk <- syscall rh_probe_space ProbeSpace;
      do state <- syscall rh_probe_store ProbeStore;
      do failed_task <- syscall rh_probes_joined ProbesJoined;
      do (healthy, shutdown, force) <-
        syscall rh_health (λ '(healthy, shutdown, force), ServerHealth healthy shutdown force);
      send (Some (match failed_task with None => Ok (mkProbes root disk state) | Some error => Err error end))
        healthy shutdown force
  else respond_with (status_method_not_allowed default_response (bs "GET, HEAD")).

Definition dispatch_job_status (method : Method) (id owner : bytes) : Step unit :=
  if negb (bool_decide (method = GET)) then answer (render_api_method_not_allowed (bs "GET"))
  else
    match parse_canonical_operation_id id with
    | None => answer (apply_invalid_job_id default_response (bs "Job status path must end in a canonical UUID"))
    | Some id =>
        let key := operation_key sha256 owner id in
        do status <- syscall (rh_status key) (QueryStatus key);
        match status with
        | Err message => ret (req_handler (failed message))
        | Ok status => answer (apply_status default_response id status)
        end
    end.

Definition dispatch_list_api (req : Request) (owner : bytes) : Step unit :=
  if bool_decide (rq_method req = GET) then
    do input <- syscall rh_take_listing (λ _, TakeListing);
    do (r, store) <- req_kernel (handle_list_api fs (site_machine site) policy (root policy)
      (site_max_search_entries site) (site_json_text site) owner (rq_query req) (li_slot_free input) (li_now input)
      (li_randoms input) (li_join_error input) (li_store input) default_response);
    do _ <- syscall (rh_put_listing store) (λ _, PutListing);
    match r with Ok res => respond_with res | Err e => fail (ReqList e) end
  else answer (render_api_method_not_allowed (bs "GET")).

(** [handle_browser_api], the upload endpoints first. *)
Definition handle_browser_request (endpoint owner : bytes) (req : Request) : Step unit :=
  if beqb endpoint UPLOAD_PREFLIGHT_API_PATH then
    handle_upload_preflight (site_json_text site) sha256 fs policy owner (rq_headers req) (rq_body req)
  else if beqb endpoint UPLOAD_DISCARD_API_PATH then
    handle_upload_discard sha256 (site_lossy site) (site_room site) fs policy (site_cleanup site) owner
      (rq_headers req) (rq_body req)
  else
    do r <- server (handle_browser_api sha256 fs policy endpoint owner (rq_headers req) (rq_body req) default_response);
    answered_by (ret (req_handler r)).

Definition dispatch_browser_api (req : Request) (route owner : bytes) : Step unit :=
  if bool_decide (rq_method req = POST) then handle_browser_request route owner req
  else if is_browser_api_endpoint route then answer (render_api_method_not_allowed (bs "POST"))
  else answer (render_problem default_response
                 (new_api_error 404 API_ENDPOINT_NOT_FOUND (bs "API endpoint not found"))).

Definition dispatch_authenticated_api (req : Request) (route account : bytes) : Step unit :=
  if beqb route READINESS_CHECK_PATH then dispatch_readiness (rq_method req)
  else
    match str_strip_prefix JOB_STATUS_PREFIX route with
    | Some id => dispatch_job_status (rq_method req) id account
    | None =>
        if beqb route LIST_API_PATH then dispatch_list_api req account
        else if starts_with BROWSER_API_PREFIX route then dispatch_browser_api req route account
        else go tt
    end.

(** ** Content *)

Definition delete_id (headers : MutationHeaders) : result Failure bytes :=
  match mh_delete_operation_id headers with Some id => Ok id | None => Err Panic end.

Definition reject_reserved_target (method : Method) (route : bytes) (headers : MutationHeaders) : Step unit :=
  let reserved := match head (split_on slash route) with
                  | Some part => is_reserved_component policy part
                  | None => false
                  end in
  if negb reserved then go tt
  else
    match mh_upload headers with
    | Some upload =>
        answer (render_upload_rejection upload 404 UPLOAD_TARGET_NOT_FOUND (bs "Upload target not found") NoAdvice)
    | None =>
        if bool_decide (method = DELETE) then
          answer (id ← delete_id headers;
                  apply_tracked_delete_rejection id 404 TARGET_NOT_FOUND (bs "Target not found"))
        else respond_with (Download.status_not_found default_response)
    end.

Definition reject_root_delete (method : Method) (path : bytes) (headers : MutationHeaders) : Step unit :=
  if negb (bool_decide (method = DELETE)) || negb (is_managed_root policy path) then go tt
  else
    answer (id ← delete_id headers;
            apply_tracked_delete_rejection id 403 ROOT_DELETE_FORBIDDEN (bs "Shared root cannot be deleted")).

Definition begin_delete (method : Method) (route owner : bytes) (headers : MutationHeaders) : Step DeletePreparation :=
  if negb (bool_decide (method = DELETE)) then go NotRequested
  else
    match delete_id headers with
    | Err f => fail (ReqHandler (HandlerFail f))
    | Ok id =>
        match mh_delete_condition headers with
        | MissingCondition =>
            answer (apply_tracked_delete_rejection id 428 SOURCE_REVISION_REQUIRED
                      (bs "The If-Match header is required"))
        | InvalidCondition =>
            answer (apply_tracked_delete_rejection id 400 INVALID_SOURCE_REVISION
                      (bs "If-Match must contain one strong quoted target revision"))
        | RevisionCondition revision =>
            do begun <- server (srv_begin (operation_key sha256 owner id)
              (fingerprint sha256 [bs "DELETE"; route; revision]));
            match begun with
            | Err message => ret (req_handler (failed message))
            | Ok (BeginStarted operation) =>
                do _ <- syscall rh_mark_reserved (λ _, MarkReserved);
                go (StartedDelete id operation)
            | Ok other =>
                match apply_begin default_response id other with
                | Some r => answer r
                | None => fail (ReqHandler (HandlerFail Panic))
                end
            end
        end
    end.

(** What a request still owns when it ends early: first its lease, then the
    guard of its operation. *)
Definition let_go {A} (lease : option Z) (operation : option (bytes * OperationGuard)) (m : Step A) : Step A :=
  do _ <- server (match lease with Some lease => srv_release lease | None => ret tt end);
  do _ <- server (drop_operation (snd <$> operation));
  m.

(** The lease and the slot; the lease. *)
Definition acquire_target_admission (method : Method) (path : bytes) (upload : option UploadRequest)
    (operation : option (bytes * OperationGuard)) : Step (option Z) :=
  match upload with
  | Some upload =>
      do lease <- syscall (rh_upload_lease path) (UploadLease path);
      match lease with
      | Some (Some lease) =>
          do slot <- syscall rh_upload_slot UploadSlot;
          if slot : bool then go (Some lease)
          else
            let_go (Some lease) None
              (answer (render_upload_rejection upload 429 UPLOAD_CONCURRENCY_LIMIT
                         (bs "Too many concurrent uploads") (RetryAfterSeconds 1)))
      | Some None =>
          answer (render_upload_rejection upload 429 PATH_WAIT_CONCURRENCY_LIMIT
                    (bs "Too many path-coordinated requests are active") (RetryAfterSeconds 1))
      | None =>
          answer (render_upload_rejection upload 408 UPLOAD_PATH_WAIT_TIMEOUT
                    (bs "Upload timed out while waiting for the target path") Retry)
      end
  | None =>
      if bool_decide (method = DELETE) then
        do lease <- server (srv_acquire [path]);
        match lease with
        | Some lease => go (Some lease)
        | None =>
            let_go None operation (answer (render_path_wait_limit default_response (fst <$> operation)))
        end
      else go None
  end.

(** [route_metadata] and, for a missing target, [guard_root_contained]. *)
Definition probe_target (path : bytes) : Req Env (result IoError (option Metadata * bool)) :=
  do found <- req_kernel (route_metadata fs path);
  match found with
  | Err e => fail e
  | Ok (Some metadata) => ok (Some metadata, false)
  | Ok None =>
      do hidden <- req_kernel (guard_root_contained fs path);
      match hidden with Ok hidden => ok (None, hidden) | Err e => fail e end
  end.

(** An upload probes its target in a tracked task that keeps lease and slot
    when the deadline passes first. *)
Definition inspect_target (path : bytes) (upload : option UploadRequest) (lease : option Z)
    (operation : option (bytes * OperationGuard)) : Step (option Metadata * bool) :=
  do probed <- probe_target path;
  match upload with
  | None =>
      match probed with
      | Ok found => go found
      | Err e => let_go lease operation (fail (ReqHandler (HandlerIo e)))
      end
  | Some upload =>
      do in_time <- syscall rh_inspected_in_time InspectedInTime;
      if in_time : bool then
        match probed with
        | Ok found => go found
        | Err e => let_go lease operation (fail (ReqHandler (HandlerIo e)))
        end
      else
        let_go lease operation
          (answer (render_upload_rejection upload 408 UPLOAD_TARGET_INSPECTION_TIMEOUT
                     (bs "Upload timed out while inspecting the target") Retry))
  end.

Definition prepare_target (method : Method) (route path : bytes) (headers : MutationHeaders) (owner : bytes)
    : Step PreparedTarget :=
  phase preparation <- begin_delete method route owner headers;
  let operation := match preparation with
                   | NotRequested => None
                   | StartedDelete id operation => Some (id, operation)
                   end in
  phase lease <- acquire_target_admission method path (mh_upload headers) operation;
  phase (metadata, hidden) <- inspect_target path (mh_upload headers) lease operation;
  go (match metadata with
      | Some metadata => mkPreparedTarget path false (md_is_dir metadata) (md_is_file metadata) operation lease
      | None => mkPreparedTarget path hidden false false operation lease
      end).

Definition release_target (target : PreparedTarget) : Req Env unit :=
  server (match pt_path_lease target with Some lease => srv_release lease | None => ret tt end).

Definition reject_hidden_target (method : Method) (target : PreparedTarget) (headers : MutationHeaders) : Step unit :=
  if negb (pt_miss_is_hidden target) then go tt
  else if bool_decide (method = DELETE) then
    match pt_delete_operation target with
    | None => fail (ReqHandler (HandlerFail Panic))
    | Some (id, operation) =>
        let outcome := failure 404 TargetNotFound in
        do settled <- server (settle (Some operation) outcome);
        do _ <- release_target target;
        match settled with
        | Err e => fail (ReqHandler e)
        | Ok _ => answer (apply_operation_outcome default_response id outcome false)
        end
    end
  else
    match mh_upload headers with
    | Some upload =>
        do _ <- release_target target;
        answer (render_upload_rejection upload 404 UPLOAD_TARGET_NOT_FOUND (bs "Upload target not found") NoAdvice)
    | None => respond_with (Download.status_not_found default_response)
    end.

Definition dispatch_upload_status (req : Request) (target : PreparedTarget) (owner : bytes) : Step unit :=
  if negb (bool_decide (rq_method req = HEAD)) then go tt
  else
    match parse_upload_id (rq_headers req) with
    | Ok None => go tt
    | Err error => answer (render_bad_upload_header INVALID_UPLOAD_ID error)
    | Ok (Some id) =>
        do lease <- server (srv_acquire [pt_target target]);
        match lease with
        | None =>
            answer (apply_upload_problem (mkErrorContext id Unknown None None) 429 PATH_WAIT_CONCURRENCY_LIMIT
                      (bs "Too many path-coordinated requests are active") (QueryUploadAfterSeconds 1)
                      default_response)
        | Some lease =>
            do r <- upload_handler (handle_upload_status sha256 (site_lossy site) fs (pt_target target) owner id)
              default_response;
            do _ <- server (srv_release lease);
            answered_by (ret r)
        end
    end.

Definition index_page (path : bytes) (exist head_only : bool) : Step unit :=
  answered_by (ret (req_handler (handle_ls_dir (site_assets_prefix site) (site_base64 site) (site_index_json site)
    (site_index_html site) (root policy) path exist head_only default_response))).

Definition dispatch_content_read (req : Request) (target : PreparedTarget) : Step unit :=
  let head_only := head_only_for (rq_method req) in
  let path := pt_target target in
  if pt_is_dir target then
    match rq_query req !! bs "q" with
    | Some q =>
        answered_by (ret (req_handler (handle_search_dir (site_assets_prefix site) (site_base64 site)
          (site_index_json site) (site_index_html site) (root policy) path (Some q) head_only default_response)))
    | None => index_page path true head_only
    end
  else if pt_is_file target then
    do r <- download (handle_send_file sha256 fs path (rq_headers req) head_only default_response);
    match r with
    | Ok (_, res) => respond_with res
    | Err e => fail (ReqHandler e)
    end
  else if match last (rq_path req) with Some c => bool_decide (c = slash) | None => false end
  then index_page path false head_only
  else respond_with (Download.status_not_found default_response).

(** The upload runs in a tracked task that goes on when its deadline passes. *)
Definition run_tracked_upload (req : Request) (target : PreparedTarget) (options : UploadOptions) : Step unit :=
  do (r, res) <- upload (handle_upload sha256 (site_lossy site) (site_room site) fs (site_attributes site)
    (site_min_free_space site) (site_max_upload_size site) (site_cleanup site) (site_publish site)
    (pt_target target) options (rq_body_length req) (rq_upload_body req) default_response);
  do _ <- release_target target;
  do in_time <- syscall rh_upload_in_time UploadInTime;
  if in_time : bool then
    match r with Ok _ => respond_with res | Err e => fail (ReqUpload e) end
  else
    do cancelled <- syscall rh_cancel_upload CancelUpload;
    let context state := mkErrorContext (uo_upload_id options) state (Some (uo_upload_length options))
                           (mode_offset (uo_mode options)) in
    answer
      (if cancelled : bool then
         apply_upload_problem (context NotStarted) 408 REQUEST_TIMEOUT
           (bs "Upload deadline exceeded before any upload mutation") Retry default_response
       else
         apply_upload_problem (context Unknown) 408 UPLOAD_OUTCOME_UNKNOWN
           (bs "Upload deadline exceeded; the final result is unknown") QueryUpload default_response).

Definition run_upload (req : Request) (target : PreparedTarget) (upload_request : UploadRequest) (account : bytes)
    : Step unit :=
  run_tracked_upload req target
    (mkOptions account (ur_mode upload_request) (ur_id upload_request) (ur_length upload_request)
       (ur_overwrite upload_request)).

Definition dispatch_upload (req : Request) (target : PreparedTarget) (headers : MutationHeaders) (account : bytes)
    : Step unit :=
  match mh_upload headers with
  | None => fail (ReqHandler (HandlerFail Panic))
  | Some upload =>
      if bool_decide (rq_method req = PATCH) then run_upload req target upload account
      else
        let refuse status code detail recovery :=
          do _ <- release_target target;
          answer (render_upload_rejection upload status code (bs detail) recovery) in
        do scanned <- syscall (rh_scan_descendants (pt_target target)) (ScanDescendants (pt_target target));
        match scanned with
        | Some (Ok false) => run_upload req target upload account
        | Some (Ok true) =>
            refuse 409 UPLOAD_STATE_CONFLICT
              "Upload target conflicts with an active upload or pending delete"%string RefreshTarget
        | Some (Err _) =>
            refuse 503 UPLOAD_STATE_UNAVAILABLE
              "Upload safety state is temporarily unavailable"%string (RetryAfterSeconds 1)
        | None =>
            refuse 408 REQUEST_TIMEOUT
              "Upload timed out while inspecting durable safety state"%string Retry
        end
  end.

Definition dispatch_delete (target : PreparedTarget) (headers : MutationHeaders) (account : bytes) : Step unit :=
  match pt_delete_operation target, mh_delete_condition headers, pt_path_lease target with
  | Some (id, operation), RevisionCondition expected, Some lease =>
      let break_off e :=
        do _ <- server (drop_operation (Some operation));
        do _ <- server (srv_release lease);
        fail e in
      do observed <- req_kernel (replacement_identity_blocking fs (pt_target target));
      match observed with
      | Err e => break_off (ReqHandler (HandlerIo e))
      | Ok observed =>
          match relative_path fs (pt_target target) with
          | Err e => break_off (ReqHandler (HandlerIo e))
          | Ok relative =>
              let current := target_revision sha256 (owner_persistent sha256 account) relative observed in
              if negb (bool_decide (current = Some expected)) then
                match apply_revision_header default_response SOURCE_REVISION_HEADER current with
                | Err f => break_off (ReqHandler (HandlerFail f))
                | Ok res =>
                    let outcome := failure 412 DeleteTargetChanged in
                    do settled <- server (settle (Some operation) outcome);
                    do _ <- server (srv_release lease);
                    match settled with
                    | Err e => fail (ReqHandler e)
                    | Ok _ => answer (apply_operation_outcome res id outcome false)
                    end
                end
              else
                match delete_identity observed with
                | None => break_off (ReqHandler (HandlerFail Panic))
                | Some found =>
                    do r <- server (handle_delete sha256 fs
                      (mkDelete account (pt_target target) observed found lease id operation)
                      (site_gate site) default_response);
                    answered_by (ret (req_handler r))
                end
          end
      end
  | _, _, _ => fail (ReqHandler (HandlerFail Panic))
  end.

Definition dispatch_target_method (req : Request) (target : PreparedTarget) (headers : MutationHeaders) (account : bytes)
    : Step unit :=
  match rq_method req with
  | GET | HEAD => dispatch_content_read req target
  | PUT | PATCH => dispatch_upload req target headers account
  | DELETE => dispatch_delete target headers account
  | _ => respond_with (status_method_not_allowed default_response (bs "GET, HEAD, PUT, PATCH, DELETE"))
  end.

Definition dispatch_content (req : Request) (route account : bytes) : Step unit :=
  let method := rq_method req in
  match parse_mutation_headers method (rq_headers req) with
  | Err r => answer r
  | Ok headers =>
      phase _ <- reject_reserved_target method route headers;
      let path := resolve_route policy route in
      phase _ <- reject_root_delete method path headers;
      phase target <- prepare_target method route path headers account;
      phase _ <- reject_hidden_target method target headers;
      phase _ <- dispatch_upload_status req target account;
      dispatch_target_method req target headers account
  end.

Definition dispatch (req : Request) (route : bytes) (internal_api : bool) : Step unit :=
  phase _ <- dispatch_public_routes req route;
  phase account <- authenticate req internal_api;
  phase _ <- dispatch_authenticated_api req route account;
  dispatch_content req route account.

Definition handle_inner (req : Request) (route : option bytes) (internal_api : bool) : Step unit :=
  match route with
  | None => respond_with (status_error default_response 400 (bs "Invalid Path"))
  | Some route => dispatch req route internal_api
  end.
End dispatch.
