(* ===== verification/DispatchFacts.v ===== *)
(** What the dispatcher guarantees of a request as a whole: a request for
    reading only looks (but for the readiness probe and the store's own housekeeping), an unauthenticated one does nothing, and a deletion
    happens only to the object the client has seen. *)

From S2P Require Import Prelude Bytes StdPath StoreModel Utils UuidText InternalNames PathPolicy Http UploadProtocol Problem Registry.
From S2P Require Import Revisions ListingSort Listing ListSnapshots ListApi ListApiFacts RootedOs RootedFs RootedFsSafety StageFiles ServerHost BrowserApi BrowserApiFacts.
From S2P Require Import Delete UploadHost UploadRecords UploadPipeline UploadPrepare UploadSafety UploadPublication Download WebPages Router RequestHost UploadApi Dispatch.
From stdpp Require Import base numbers list gmap strings sets.
Import ErrorCode.

Local Open Scope Z_scope.

(** ** Walking through a request *)

Section walking.
Context `{HttpTypes} {Env : Type} `{Os Env} `{FileOs Env} `{Host Env} `{UploadHost Env} `{DownloadHost Env} `{!RequestHost Env}.

Lemma emits_req_kernel P {A} (m : Sys Env A) :
  emits (λ c, P (OfServer (Kernel c))) m -> emits P (req_kernel m).
Proof. intros Hm. by apply emits_lifted, emits_lifted. Qed.

Lemma emits_answer P {A} r : emits P (answer r : Req Env (result RequestError (Phase A))).
Proof. apply emits_ret. Qed.

Lemma emits_phase_go P {A B} (a : A) (k : A -> Req Env (result RequestError (Phase B))) :
  emits P (k a) -> emits P (then_phase (go a) k).
Proof. done. Qed.

Lemma spec_answer {A} r Q :
  (forall x, (forall a, x <> Ok (Continue a)) -> Q x []) ->
  spec (answer r : Req Env (result RequestError (Phase A))) Q.
Proof. intros HQ. apply spec_ret, HQ. intros a. by destruct r. Qed.

Lemma emits_answered_by P {A} (m : Req Env (result RequestError Response)) :
  emits P m -> emits P (answered_by m : Req Env (result RequestError (Phase A))).
Proof. intros Hm. apply emits_bind_ok; [done|]. intros. apply emits_ret. Qed.

Lemma spec_answered_by {A} (m : Req Env (result RequestError Response)) (Q : list RequestEvent -> Prop) :
  spec m (λ _, Q) -> spec (answered_by m : Req Env (result RequestError (Phase A))) (λ _, Q).
Proof.
  intros Hm. eapply spec_bind_ok; [exact Hm| |done]. intros a l Hl. apply spec_ret. by rewrite app_nil_r.
Qed.

Lemma emits_upload_handler P {A} (m : Handler Env A) res :
  emits (λ e, P (OfUpload e)) (m res) -> emits P (upload_handler m res).
Proof. intros Hm. apply emits_bind; [by apply emits_lifted|]. intros [r res']. apply emits_ret. Qed.
End walking.

Ltac request_step :=
  intros; cbv beta zeta;
  match goal with
  | |- emits _ (then_phase _ _) => apply emits_then_phase
  | |- emits _ (answer _) => apply emits_answer
  | |- emits _ (respond_with _) => apply emits_answer
  | |- emits _ (go _) => apply emits_ret
  | |- emits _ (answered_by _) => apply emits_answered_by
  | |- emits _ (req_kernel _) => apply emits_req_kernel
  | |- emits _ (upload_handler _ _) => apply emits_upload_handler
  | |- emits _ (server _) => apply emits_lifted
  | |- emits _ (upload _) => apply emits_lifted
  | |- emits _ (download _) => apply emits_lifted
  end.
Ltac request_auto := repeat (request_step || emits_step || solve [eauto with emits nocore]).

(** ** Requests that only look *)

(** Neither the tree nor the durable state of the server is changed. *)
Definition looks (e : RequestEvent) : Prop :=
  match e with
  | OfServer (Kernel c) | OfUpload (UKernel c) | OfDownload (DownloadCall c) => reads c
  | OfServer (AcquireLease _ _ | ReleaseLease _) | OfUpload (LoadSession _ _) => True
  | OfDownload (AdmitRead _ | ReadAt _ _ _ _ _) => True
  | Authenticate _ | TakeListing | PutListing | PreflightSlot _ => True
  | _ => False
  end.

(** The calls of [probe_writable]: a file with a fresh name of readiness probes is
    created in the root, which fails if the name exists; it is written and
    removed again, and besides that nothing is changed. *)
Definition probe_calls `{UuidLib} (fs : RootedFs) (calls : list SysCall) : Prop :=
  exists id, let name := upload_readiness_probe_name id in
    let create := Openat (rf_root fs) name [RDWR; CREATE; EXCL; NOFOLLOW; CLOEXEC] 384 Plain in
    (exists e, calls = [NewUuid id; create (Err e)]) \/
    exists file written synced removed after,
      calls = NewUuid id :: create (Ok file) :: FileWrite file READINESS_PROBE written :: synced ++
              Unlinkat (rf_root fs) name false removed :: after /\
      Forall reads synced /\ Forall reads after.

(** The events of the readiness check. *)
Definition readiness_check `{UuidLib} (fs : RootedFs) (events : list RequestEvent) : Prop :=
  events = [ReadinessSlot false] \/
  exists calls disk state failed_task healthy shutdown force,
    events = ReadinessSlot true :: map (λ c, OfServer (Kernel c)) calls ++
      [ProbeSpace disk; ProbeStore state; ProbesJoined failed_task; ServerHealth healthy shutdown force] /\
    probe_calls fs calls.

Section looking.
Context `{HttpTypes} {Env : Type} `{Os Env} `{FileOs Env} `{Host Env} `{UploadHost Env} `{DownloadHost Env} `{!RequestHost Env}.
Context `{UuidLib} (sha256 to_string_lossy : bytes -> bytes) (fs : RootedFs).

Lemma emits_looks_ukernel {A} (m : Sys Env A) : emits reads m -> emits (λ e, looks (OfUpload e)) (ukernel m).
Proof. intros Hm. by apply emits_lifted. Qed.

Lemma emits_looks_uio {A} (m : Io Env A) : emits reads m -> emits (λ e, looks (OfUpload e)) (uio m).
Proof. intros Hm. apply emits_bind; [by apply emits_looks_ukernel|]. intros. apply emits_ret. Qed.

Lemma open_flags_read path flags :
  existsb (λ f, match f with CREATE => true | _ => false end) flags = false ->
  emits reads (open_existing fs path flags : Io Env _).
Proof. intros Hf. unfold open_existing, sys_openat. emits_auto. Qed.

Lemma lookup_looks owner id target stage :
  emits (λ e, looks (OfUpload e)) (UploadRecords.lookup sha256 to_string_lossy fs owner id target stage : Upload Env _).
Proof.
  unfold UploadRecords.lookup, classify_stored_session, valid_resumable_stage, load_session, sys_file_metadata.
  repeat (emits_step || apply emits_looks_ukernel || apply emits_looks_uio || (apply open_flags_read; done)).
Qed.

Lemma inspect_looks owner path :
  emits (λ e, looks (OfUpload e)) (inspect_upload_target sha256 fs owner path : Upload Env _).
Proof.
  unfold inspect_upload_target. repeat emits_step. apply emits_looks_uio, replacement_identity_reads.
Qed.

Lemma emits_then_do P {A B} (m : Handler Env A) (k : A -> Handler Env B) res :
  emits P (m res) -> (forall a res, emits P (k a res)) -> emits P (then_do m k res).
Proof. intros Hm Hk. apply emits_bind; [done|]. intros [[a|e] res']; [apply Hk|apply emits_ret]. Qed.

Lemma emits_look P {A} (m : Up Env A) res : emits P m -> emits P (look m res).
Proof. intros Hm. apply emits_bind; [done|]. intros. apply emits_ret. Qed.

Lemma emits_call_handler P {A} (m : Upload Env A) res : emits P m -> emits P (UploadHost.call m res).
Proof. intros Hm. apply emits_bind; [done|]. intros. apply emits_ret. Qed.

Lemma upload_status_looks path owner id res :
  emits (λ e, looks (OfUpload e))
    (handle_upload_status sha256 to_string_lossy fs path owner id res : Up Env _).
Proof.
  unfold handle_upload_status, or_store_problem, apply_upload_record_store_problem, set_record_headers, refuse,
    problem, UploadPrepare.status_not_found.
  repeat (intros; cbv beta zeta;
    match goal with
    | |- emits _ (then_do _ _ _) => apply emits_then_do
    | |- emits _ (look _ _) => apply emits_look
    | |- emits _ (UploadHost.call _ _) => apply emits_call_handler
    | |- emits _ (UploadRecords.lookup _ _ _ _ _ _ _) => apply lookup_looks
    | |- emits _ (inspect_upload_target _ _ _ _) => apply inspect_looks
    | |- emits _ ((match ?x with _ => _ end) _) => destruct x
    | |- emits _ (UploadHost.done _ _) => apply emits_ret
    | |- emits _ (broken _ _) => apply emits_ret
    | |- emits _ (pure _ _) => apply emits_ret
    | |- emits _ (respond _ _) => apply emits_ret
    end).
Qed.
End looking.

Section reading.
Context `{HttpTypes} `{!TypedHeaders} `{UuidLib} `{RequestCodec} `{UploadCodec} `{TextOrderLaws} `{Crypto}.
Context {Env : Type} `{Os Env} `{FileOs Env} `{Host Env} `{UploadHost Env} `{DownloadHost Env} `{!RequestHost Env}.
Context (site : Site).

Local Abbreviation Step A := (Req Env (result RequestError (Phase A))).

Lemma route_metadata_reads path : emits reads (route_metadata (site_fs site) path : Io Env _).
Proof.
  unfold route_metadata. repeat (emits_step || apply metadata_reads || apply metadata_nofollow_reads).
Qed.

Lemma probe_target_looks path : emits looks (probe_target site path : Req Env _).
Proof.
  unfold probe_target. request_auto; [apply route_metadata_reads|apply guard_root_reads].
Qed.

Lemma probe_writable_spec : spec (probe_writable (site_fs site) : Io Env _) (λ _, probe_calls (site_fs site)).
Proof.
  unfold probe_writable, sys_new_uuid, sys_openat, sys_write, sys_fsync, sys_unlinkat.
  apply spec_bind_call. intros id. apply spec_attempt_call; [intros file|intros e; exists id; left; by exists e].
  apply spec_bind_assoc, spec_bind_call. intros written.
  assert (Hrest : forall synced, Forall reads synced -> forall (outcome : result IoError unit),
    spec (do remove_result <- io_of (syscall (os_unlinkat (rf_root (site_fs site)) (upload_readiness_probe_name id) false)
            (Unlinkat (rf_root (site_fs site)) (upload_readiness_probe_name id) false));
          attempt _ <- ret outcome; attempt _ <- ret remove_result;
          io_of (syscall (os_fsync (rf_root (site_fs site))) (Fsync (rf_root (site_fs site)))) : Io Env unit)
      (λ _ l, probe_calls (site_fs site) (NewUuid id :: Openat (rf_root (site_fs site)) (upload_readiness_probe_name id)
         [RDWR; CREATE; EXCL; NOFOLLOW; CLOEXEC] 384 Plain (Ok file) :: FileWrite file READINESS_PROBE written :: synced ++ l))).
  { intros synced Hs outcome. apply spec_bind_assoc, spec_bind_call. intros removed. apply spec_bind_ret.
    match goal with |- spec ?m _ => assert (emits reads m) as Hm by (repeat emits_step) end.
    eapply spec_weaken; [exact Hm|]. intros r after Ha. exists id. right. by exists file, written, synced, removed, after. }
  destruct written as [[]|e]; [|apply spec_bind_ret; by apply (Hrest [])].
  apply spec_bind_assoc, spec_bind_call. intros synced. apply spec_bind_ret. apply (Hrest [_]). by repeat constructor.
Qed.

(** The administration platform answers itself. *)
Lemma public_routes_spec req route :
  spec (dispatch_public_routes site req route : Step _) (λ r events,
    events = [] \/
    site_owns_path site (rq_path req) = true /\ events = [Administrate] /\ forall u, r <> Ok (Continue u)).
Proof.
  unfold dispatch_public_routes. destruct (beqb route HEALTH_CHECK_PATH); [apply spec_ret; by left|].
  destruct (site_owns_path _ _).
  { apply spec_bind_call. intros r. apply spec_ret. right. split_and!; [done..|]. by destruct r. }
  destruct (beqb route LOGIN_PATH); [apply spec_ret; by left|]. destruct (reads_only _); [|apply spec_ret; by left].
  destruct (handle_internal _ _ _ _ _) as [[] res]; apply spec_ret; by left.
Qed.

Lemma authenticate_spec req internal_api :
  spec (authenticate req internal_api : Step _) (λ r events,
    events = [Authenticate None] /\ (forall a, r <> Ok (Continue a)) \/
    exists account, events = [Authenticate (Some account)] /\ r = Ok (Continue account)).
Proof.
  unfold authenticate. apply spec_bind_call. intros [account|response]; apply spec_ret; [right; eauto|left].
  split; [done|]. intros a. by destruct response.
Qed.

(** What a request for reading may change besides: the store drops expired records
    when it is asked for the status of an operation, and the readiness check
    creates and removes its probe. *)
Definition looks_up (route : bytes) (events : list RequestEvent) : Prop :=
  Forall looks events \/
  (is_Some (str_strip_prefix JOB_STATUS_PREFIX route) /\ exists key answer, events = [QueryStatus key answer]) \/
  (route = READINESS_CHECK_PATH /\ readiness_check (site_fs site) events).

Lemma readiness_spec method :
  spec (dispatch_readiness site method : Step unit) (λ r events,
    (events = [] \/ readiness_check (site_fs site) events) /\ forall a, r <> Ok (Continue a)).
Proof.
  unfold dispatch_readiness. destruct (reads_only method); [|apply spec_ret; by split; [left|]].
  apply spec_bind_call. intros []; cbn [negb]; [|apply spec_ret; by split; [right; left|]].
  eapply spec_bind_lifted; [apply spec_lifted, probe_writable_spec|]. intros root l (calls & -> & Hc).
  do 3 (apply spec_bind_call; intros ?). apply spec_bind_call. intros [[healthy shutdown] force]. apply spec_ret.
  split; [|done]. right. right. rewrite map_map. by eexists calls, _, _, _, healthy, shutdown, force.
Qed.

Lemma job_status_spec method id owner :
  spec (dispatch_job_status method id owner : Step unit) (λ r events,
    (events = [] \/ exists key answer, events = [QueryStatus key answer]) /\ forall a, r <> Ok (Continue a)).
Proof.
  unfold dispatch_job_status. case_match; [apply spec_answer; intros; split; [by left|done]|].
  case_match; [|apply spec_answer; intros; split; [by left|done]].
  apply spec_bind_call. intros [status|message].
  - apply spec_answer. intros. split; [right; eauto|done].
  - apply spec_ret. split; [right; eauto|done].
Qed.

Lemma authenticated_api_looks req route account :
  rq_method req = GET \/ rq_method req = HEAD -> 0 <= site_max_search_entries site < usize_max ->
  spec (dispatch_authenticated_api site req route account : Step _) (λ r events,
    looks_up route events /\ forall a, r = Ok (Continue a) -> Forall looks events).
Proof.
  intros Hm Hmax. unfold dispatch_authenticated_api.
  destruct (beqb route READINESS_CHECK_PATH) eqn:Hr.
  { apply beqb_true in Hr as ->. eapply spec_weaken; [apply readiness_spec|]. intros r l [Hl Hn].
    split; [|by intros a E; destruct (Hn a)]. destruct Hl as [->|Hl]; [by left|]. by right; right. }
  destruct (str_strip_prefix JOB_STATUS_PREFIX route) as [id|] eqn:Hj.
  { eapply spec_weaken; [apply job_status_spec|]. intros r l [Hl Hn].
    split; [|by intros a E; destruct (Hn a)]. destruct Hl as [->|Hl]; [by left|]. right; left. by rewrite Hj. }
  match goal with |- spec ?m _ => assert (emits looks m) as Hl end.
  { unfold dispatch_list_api, dispatch_browser_api, handle_list_api.
    rewrite (bool_decide_eq_false_2 (rq_method req = POST)) by (destruct Hm as [-> | ->]; done).
    request_auto. by apply list_request_reads. }
  eapply spec_weaken; [exact Hl|]. intros r l Hlooks. split; [by left|done].
Qed.

Lemma content_looks req route account :
  rq_method req = GET \/ rq_method req = HEAD ->
  emits looks (dispatch_content site req route account : Step _).
Proof.
  intros Hm. unfold dispatch_content, parse_mutation_headers, reject_root_delete, prepare_target, begin_delete,
    reject_reserved_target, reject_hidden_target.
  rewrite (bool_decide_eq_false_2 (rq_method req = DELETE)) by (destruct Hm as [-> | ->]; done).
  rewrite (bool_decide_eq_false_2 (rq_method req = PUT \/ rq_method req = PATCH))
    by (destruct Hm as [-> | ->]; naive_solver). cbn [mbind result_bind mh_upload negb orb].
  request_step; [request_auto|]. intros _. apply emits_phase_go.
  request_step; [|].
  { apply emits_phase_go. unfold acquire_target_admission. cbn [negb].
    rewrite (bool_decide_eq_false_2 (rq_method req = DELETE)) by (destruct Hm as [-> | ->]; done).
    apply emits_phase_go. unfold inspect_target, let_go. cbn [drop_operation fmap option_fmap option_map].
    request_auto. apply probe_target_looks. }
  intros target. request_step; [request_auto|]. intros _. request_step.
  - unfold dispatch_upload_status, srv_acquire, srv_release. request_auto. apply upload_status_looks.
  - intros _. unfold dispatch_target_method.
    assert (emits looks (dispatch_content_read site req target : Step _)) as Hread; [|by destruct Hm as [-> | ->]].
    unfold dispatch_content_read, index_page, handle_send_file, send_open_file_with_gate, sys_file_metadata.
    request_auto; apply emits_lifted; [by apply open_flags_read|]. by apply emits_call.
Qed.

(** C5: A request for reading, [GET] or [HEAD], changes neither the tree nor the
    durable state of the server, whatever its path, its headers and its query are
    and whatever the server finds: it opens, stats and reads, and it may hold the
    lease of the path it asks about.  There are three exceptions.  A path of the
    administration platform is handed to the platform, and nothing else happens.  A
    request for the status of an operation asks the store for it and does nothing
    else; the store drops expired records before it answers.  The readiness check
    asks for free space, has the store write and roll back a probe, creates one
    file under a fresh name of readiness probes in the root - a name that exists
    is never opened - writes to it and removes it again, and changes nothing
    else. *)
Theorem reading_requests_only_look req route internal_api :
  rq_method req = GET \/ rq_method req = HEAD -> 0 <= site_max_search_entries site < usize_max ->
  spec (handle_inner site req route internal_api : Step _) (λ _ events,
    Forall looks events \/
    (site_owns_path site (rq_path req) = true /\ events = [Administrate]) \/
    exists path account rest, route = Some path /\ events = Authenticate (Some account) :: rest /\
      ((is_Some (str_strip_prefix JOB_STATUS_PREFIX path) /\ exists key answer, rest = [QueryStatus key answer]) \/
       (path = READINESS_CHECK_PATH /\ readiness_check (site_fs site) rest))).
Proof.
  intros Hm Hmax. unfold handle_inner, dispatch. destruct route as [route|]; [|apply spec_answer; by left].
  eapply spec_then_phase; [apply public_routes_spec|..]; [|intros x l [->|(? & -> & _)]; eauto..].
  intros [] l [->|(_ & _ & Hc)]; [|by destruct (Hc tt)].
  eapply spec_then_phase; [apply authenticate_spec|..]; [|intros x l [[-> _]|(a & -> & ?)]; left; by repeat constructor..].
  intros account l [[-> Hc]|(a & -> & Ea)]; [by destruct (Hc account)|]. injection Ea as <-.
  assert (Hlooks : forall l, Forall looks l -> Forall looks ([] ++ [Authenticate (Some account)] ++ l)) by (intros; by constructor).
  eapply spec_then_phase; [by apply authenticated_api_looks|..].
  - intros [] l [_ Hl]. specialize (Hl _ eq_refl). eapply spec_weaken; [by apply content_looks|]. intros r l' Hl'.
    left. apply Hlooks. by apply Forall_app_2.
  - intros res l [[Hl|Hl] _]; [left; by apply Hlooks|]. right; right. by exists route, account, l.
  - intros e l [[Hl|Hl] _]; [left; by apply Hlooks|]. right; right. by exists route, account, l.
Qed.
End reading.

(** ** Changes to the tree *)

(** The tree is left alone. *)
Definition calm (e : RequestEvent) : Prop :=
  match e with
  | OfServer e => untouched e
  | OfUpload (UKernel c) | OfDownload (DownloadCall c) => reads c
  | _ => True
  end.

(** No lease is given up. *)
Definition holds (e : RequestEvent) : Prop :=
  match e with OfServer (ReleaseLease _) => False | _ => True end.

Definition calm_and_holds (e : RequestEvent) : Prop := calm e /\ holds e.

Lemma calm_holds l : Forall calm_and_holds l -> Forall calm l /\ Forall holds l.
Proof. intros Hl. split; apply (Forall_impl _ _ _ Hl); by intros e []. Qed.

Lemma looks_calm e : looks e -> calm e.
Proof. destruct e as [[]|[]|[]| | | | | | | | | | | | | | | | | |]; cbn; done. Qed.

Section changing.
Context `{HttpTypes} `{!TypedHeaders} `{UuidLib} `{RequestCodec} `{UploadCodec} `{TextOrder} `{Crypto}.
Context {Env : Type} `{Os Env} `{FileOs Env} `{Host Env} `{UploadHost Env} `{DownloadHost Env} `{!RequestHost Env}.
Context (site : Site).

Local Abbreviation Step A := (Req Env (result RequestError (Phase A))).

Lemma begin_delete_spec method route owner headers :
  spec (begin_delete method route owner headers : Step _) (λ r l, Forall calm_and_holds l /\
    forall p, r = Ok (Continue p) ->
      match p with
      | NotRequested => method <> DELETE
      | StartedDelete id guard => exists revision,
          mh_delete_operation_id headers = Some id /\ mh_delete_condition headers = RevisionCondition revision /\
          OfServer (BeginOp (operation_key sha256 owner id) (fingerprint sha256 [bs "DELETE"; route; revision])
            (Ok (BeginStarted guard))) ∈ l
      end).
Proof.
  unfold begin_delete, Dispatch.delete_id. case_bool_decide as Hm; cbn [negb].
  2: { apply spec_ret. split; [constructor|]. by intros p [= <-]. }
  destruct (mh_delete_operation_id headers) as [id|]; [|by apply spec_ret].
  destruct (mh_delete_condition headers) as [| |revision];
    [apply spec_answer; intros x Hx; (split; [by apply Forall_nil|]); intros p Hp; by destruct (Hx p)..|].
  eapply spec_bind_lifted; [apply (spec_call _ _ (λ b l, l = [BeginOp (operation_key sha256 owner id)
    (fingerprint sha256 [bs "DELETE"; route; revision]) b])); done|].
  intros [[guard| |outcome| | |]|m] l ->; cbn [map].
  1: { apply spec_bind_call. intros []. apply spec_ret. split; [by repeat constructor|]. intros p [= <-].
       exists revision. split; [done|]. split; [done|]. left. }
  6: { apply spec_ret. split; [by repeat constructor|done]. }
  all: cbn [apply_begin]; apply spec_answer; intros x Hx; (split; [by repeat constructor|]); intros p Hp;
    by destruct (Hx p).
Qed.

Lemma let_go_spec {A} lease operation (m : Step A) :
  spec m (λ r l, Forall calm l /\ forall a, r <> Ok (Continue a)) ->
  spec (let_go lease operation m) (λ r l, Forall calm l /\ forall a, r <> Ok (Continue a)).
Proof.
  intros Hm. unfold let_go, srv_release, drop_operation.
  eapply spec_bind; [apply (emits_lifted OfServer calm); by destruct lease; [apply emits_call|apply emits_ret]|].
  intros [] l Hl. eapply spec_bind;
    [apply (emits_lifted OfServer calm); destruct operation as [[id g]|]; cbn; [by apply emits_call|apply emits_ret]|].
  intros [] l' Hl'. eapply spec_weaken; [exact Hm|]. intros r l'' [Hc Hr]. split; [by repeat apply Forall_app_2|done].
Qed.

Lemma refused_spec {A} r : spec (answer r : Step A) (λ r l, Forall calm l /\ forall a, r <> Ok (Continue a)).
Proof. apply spec_answer. intros x Hx. split; [constructor|done]. Qed.

Ltac refuse :=
  eapply spec_weaken; [first [apply refused_spec|apply let_go_spec, refused_spec]|]; cbn beta;
  let Hl := fresh in let Hr := fresh in let x := fresh in let E := fresh in
  intros ? ? [Hl Hr]; split;
    [repeat (apply Forall_cons; split; [done|]); exact Hl|intros x E; by destruct (Hr x)].

Lemma acquire_spec method path upload operation :
  spec (acquire_target_admission method path upload operation : Step _) (λ r l, Forall calm l /\
    forall lease, r = Ok (Continue lease) -> Forall holds l /\
      match upload with
      | Some _ => exists n, lease = Some n /\ UploadLease path (Some (Some n)) ∈ l
      | None => method = DELETE -> exists n, lease = Some n /\ OfServer (AcquireLease [path] (Some n)) ∈ l
      end).
Proof.
  unfold acquire_target_admission. destruct upload as [u|].
  - apply spec_bind_call. intros [[n|]|]; [|refuse..].
    apply spec_bind_call. intros [].
    + apply spec_ret. split; [by repeat constructor|]. intros lease [= <-]. split; [by repeat constructor|].
      exists n. split; [done|]. left.
    + refuse.
  - case_bool_decide as Hm.
    + eapply spec_bind_lifted; [apply (spec_call _ _ (λ a l, l = [AcquireLease [path] a])); done|].
      intros [n|] l ->; cbn [map].
      * apply spec_ret. split; [by repeat constructor|]. intros lease [= <-]. split; [by repeat constructor|].
        intros _. exists n. split; [done|]. left.
      * refuse.
    + apply spec_ret. split; [constructor|]. intros lease [= <-]. split; [constructor|done].
Qed.

Lemma inspect_spec path upload lease operation :
  spec (inspect_target site path upload lease operation : Step _) (λ r l, Forall calm l /\
    forall x, r = Ok (Continue x) -> Forall holds l).
Proof.
  unfold inspect_target.
  assert (emits calm_and_holds (probe_target site path : Req Env _)) as Hprobe.
  { unfold probe_target. request_auto; [eapply emits_impl; [|apply route_metadata_reads]|
      eapply emits_impl; [|apply guard_root_reads]]; done. }
  assert (forall (e : list RequestEvent) e', Forall calm e ->
    spec (let_go lease operation (fail e') : Step (option Metadata * bool)) (λ r l, Forall calm (e ++ l) /\
      forall x, r = Ok (Continue x) -> Forall holds (e ++ l))) as Hfail.
  { intros e e' He. eapply spec_weaken; [apply let_go_spec, spec_ret; by repeat constructor|].
    intros r l [Hl Hr]. split; [by apply Forall_app_2|]. intros x E. by destruct (Hr x). }
  eapply spec_bind; [exact Hprobe|]. intros probed l [Hc Hh]%calm_holds. destruct upload as [u|].
  2: { destruct probed as [found|e]; [|by apply Hfail]. apply spec_ret. by rewrite app_nil_r. }
  apply spec_bind_call. intros [].
  - destruct probed as [found|e].
    + apply spec_ret. split; [by apply Forall_app_2; repeat constructor|]. intros _ _. by apply Forall_app_2; repeat constructor.
    + eapply spec_weaken; [apply (Hfail (l ++ [InspectedInTime true]))|]; [by apply Forall_app_2; repeat constructor|].
      cbn beta. intros r l'. by rewrite <-app_assoc.
  - eapply spec_weaken; [apply let_go_spec, refused_spec|]. intros r l' [Hl' Hr].
    split; [by apply Forall_app_2; [done|constructor]|]. intros x E. by destruct (Hr x).
Qed.

(** What the preparation of a target leaves behind. *)
Record prepared (method : Method) (route path account : bytes) (headers : MutationHeaders) (target : PreparedTarget)
    (l : list RequestEvent) : Prop := {
  prepared_path : pt_target target = path;
  prepared_calm : Forall calm l;
  prepared_holds : Forall holds l;
  prepared_delete : method = DELETE -> mh_upload headers = None -> exists id guard revision lease,
    pt_delete_operation target = Some (id, guard) /\ pt_path_lease target = Some lease /\
    mh_delete_operation_id headers = Some id /\ mh_delete_condition headers = RevisionCondition revision /\
    OfServer (BeginOp (operation_key sha256 account id) (fingerprint sha256 [bs "DELETE"; route; revision])
      (Ok (BeginStarted guard))) ∈ l /\
    OfServer (AcquireLease [path] (Some lease)) ∈ l;
  prepared_upload : forall upload, mh_upload headers = Some upload -> exists lease,
    pt_path_lease target = Some lease /\ UploadLease path (Some (Some lease)) ∈ l
}.

Lemma prepare_target_spec method route path headers account :
  spec (prepare_target site method route path headers account : Step _) (λ r l, Forall calm l /\
    forall target, r = Ok (Continue target) -> prepared method route path account headers target l).
Proof.
  unfold prepare_target. eapply spec_then_phase; [apply begin_delete_spec|..].
  2, 3: intros x l [[Hc _]%calm_holds _]; by split.
  intros preparation l1 [[Hc1 Hh1]%calm_holds Hp]. specialize (Hp _ eq_refl).
  eapply spec_then_phase; [apply acquire_spec|..].
  2, 3: intros x l [Hc _]; split; [by apply Forall_app_2|done].
  intros lease l2 [Hc2 Hl]. destruct (Hl _ eq_refl) as [Hh2 Hlease].
  eapply spec_then_phase; [apply inspect_spec|..].
  2, 3: intros x l [Hc _]; split; [by repeat apply Forall_app_2|done].
  intros [metadata hidden] l3 [Hc3 Hh3]. specialize (Hh3 _ eq_refl). apply spec_ret. rewrite app_nil_r.
  split; [by repeat apply Forall_app_2|]. intros target [= <-].
  constructor; [by destruct metadata|by repeat apply Forall_app_2|by repeat apply Forall_app_2|..].
  - intros Hm Hu. rewrite Hu in Hlease. destruct (Hlease Hm) as (n & -> & Hin).
    destruct preparation as [|id guard]; [done|]. destruct Hp as (revision & Hi & Hr & Hb).
    exists id, guard, revision, n. destruct metadata; set_solver.
  - intros u Hu. rewrite Hu in Hlease. destruct Hlease as (n & -> & Hin). exists n. destruct metadata; set_solver.
Qed.

(** ** Deletions and uploads *)

Local Abbreviation target_of route := (resolve_route (site_policy site) route).

(** The deletion of the very object whose revision the client named, decided
    with the path held for this operation. *)
Definition deletes_confirmed (req : Request) (route account : bytes) (events : list RequestEvent) : Prop :=
  exists id revision relative observed found lease guard before work r,
    parse_operation_id (rq_headers req) = Ok (Some id) /\
    parse_delete_condition (rq_headers req) = RevisionCondition revision /\
    relative_path (site_fs site) (target_of route) = Ok relative /\
    target_revision sha256 (owner_persistent sha256 account) relative observed = Some revision /\
    delete_identity observed = Some found /\
    events = before ++ map OfServer work /\ Forall calm before /\
    OfServer (BeginOp (operation_key sha256 account id) (fingerprint sha256 [bs "DELETE"; route; revision])
      (Ok (BeginStarted guard))) ∈ before /\
    OfServer (AcquireLease [target_of route] (Some lease)) ∈ before /\
    (OfServer (ReleaseLease lease) ∉ before) /\
    deletes_once sha256 (site_fs site) (mkDelete account (target_of route) observed found lease id guard)
      (site_gate site) r work.

(** An upload to the target, with the path held for it. *)
Definition uploads_confirmed (req : Request) (route account : bytes) (events : list RequestEvent) : Prop :=
  exists headers upload lease before work after,
    parse_mutation_headers (rq_method req) (rq_headers req) = Ok headers /\ mh_upload headers = Some upload /\
    events = before ++ map OfUpload work ++ after /\ Forall calm before /\ Forall calm after /\
    UploadLease (target_of route) (Some (Some lease)) ∈ before /\ (OfServer (ReleaseLease lease) ∉ before) /\
    own_work sha256 (site_lossy site) (site_fs site) (target_of route) (ur_id upload) work /\
    (Forall quiet work \/
     exists u, confirmed sha256 (site_lossy site) (site_fs site)
                 (mkOptions account (ur_mode upload) (ur_id upload) (ur_length upload) (ur_overwrite upload))
                 (target_of route) u /\
       publishes (site_publish site) u work).

Lemma holds_no_release lease l : Forall holds l -> OfServer (ReleaseLease lease) ∉ l.
Proof. intros Hl Hin. by apply (proj1 (Forall_forall _ _) Hl) in Hin. Qed.

Lemma server_calm {A} (m : Srv Env A) : emits untouched m -> emits calm (server m).
Proof. intros Hm. by apply (emits_lifted OfServer calm). Qed.

Lemma settle_untouched guard outcome : emits untouched (settle guard outcome : Srv Env _).
Proof. unfold settle, drop_operation. destruct guard as [g|]; [|apply emits_ret]. emits_auto; done. Qed.

Lemma delete_headers h headers :
  parse_mutation_headers DELETE h = Ok headers ->
  mh_upload headers = None /\ mh_delete_condition headers = parse_delete_condition h /\
  forall id, mh_delete_operation_id headers = Some id -> parse_operation_id h = Ok (Some id).
Proof.
  unfold parse_mutation_headers. cbn. destruct (parse_operation_id h) as [[id|]|m]; cbn; try done.
  intros [= <-]. split; [done|]. split; [done|]. by intros ? [= <-].
Qed.

Lemma break_off_calm (operation : option OperationGuard) lease e :
  emits calm (do _ <- server (drop_operation operation); do _ <- server (srv_release lease); fail e : Step unit).
Proof. unfold drop_operation, srv_release. request_auto; done. Qed.

Lemma delete_calm_or_confirmed req route account headers target before :
  parse_mutation_headers DELETE (rq_headers req) = Ok headers ->
  prepared DELETE route (target_of route) account headers target before ->
  spec (dispatch_delete site target headers account : Step _) (λ r l,
    Forall calm (before ++ l) \/ deletes_confirmed req route account (before ++ l)).
Proof.
  intros Hh Hp. destruct (delete_headers _ _ Hh) as (Hu & Hcond & Hid).
  destruct (prepared_delete _ _ _ _ _ _ _ Hp) as (id & guard & revision & lease & Ho & Hl & Hi & Hr & Hb & Ha); [done..|].
  pose proof (prepared_calm _ _ _ _ _ _ _ Hp) as Hc. pose proof (prepared_holds _ _ _ _ _ _ _ Hp) as Hk.
  unfold dispatch_delete. rewrite Ho, Hl, Hr, (prepared_path _ _ _ _ _ _ _ Hp).
  eapply (spec_bind _ _ (λ _, Forall calm_and_holds)).
  { apply emits_req_kernel. eapply emits_impl; [|apply replacement_identity_reads]. done. }
  intros observed looks [Hcl Hkl]%calm_holds.
  assert (forall m : Step unit, emits calm m -> spec m (λ _ l, Forall calm (before ++ looks ++ l) \/
    deletes_confirmed req route account (before ++ looks ++ l))) as Hcalm.
  { intros m Hem. eapply spec_weaken; [exact Hem|]. intros r l Hll. left. by repeat apply Forall_app_2. }
  destruct observed as [observed|e]; [|apply Hcalm, break_off_calm].
  destruct (relative_path _ _) as [relative|e] eqn:Hrel; [|apply Hcalm, break_off_calm].
  case_bool_decide as Hrev; cbn [negb].
  2: { apply Hcalm. destruct (apply_revision_header _ _ _); [|apply break_off_calm].
       unfold srv_release. request_auto. apply settle_untouched. }
  destruct (delete_identity observed) as [found|] eqn:Hfound; [|apply Hcalm, break_off_calm].
  eapply spec_bind_lifted; [apply handle_delete_spec|]. intros r work [_ Hwork].
  apply spec_answered_by, spec_ret. rewrite app_nil_r. destruct Hwork as [Hun|Hdel].
  - left. repeat apply Forall_app_2; [done..|]. by apply Forall_map.
  - right. exists id, revision, relative, observed, found, lease, guard, (before ++ looks), work, r.
    split_and!; [by apply Hid|by rewrite <-Hcond|done..|by rewrite <-app_assoc|by apply Forall_app_2|set_solver|set_solver| |done].
    apply holds_no_release. by apply Forall_app_2.
Qed.

Lemma release_calm target : emits calm (release_target target : Req Env _).
Proof. unfold release_target, srv_release. request_auto. Qed.

Lemma run_upload_confirmed req route account headers upload target before checks :
  parse_mutation_headers (rq_method req) (rq_headers req) = Ok headers -> mh_upload headers = Some upload ->
  prepared (rq_method req) route (target_of route) account headers target before ->
  Forall calm_and_holds checks ->
  spec (run_upload site req target upload account : Step _) (λ r l,
    uploads_confirmed req route account (before ++ checks ++ l)).
Proof.
  intros Hh Hu Hp [Hcc Hch]%calm_holds. destruct (prepared_upload _ _ _ _ _ _ _ Hp upload Hu) as (lease & Hl & Hin).
  pose proof (prepared_calm _ _ _ _ _ _ _ Hp) as Hc. pose proof (prepared_holds _ _ _ _ _ _ _ Hp) as Hk.
  unfold run_upload, run_tracked_upload. rewrite (prepared_path _ _ _ _ _ _ _ Hp). cbv zeta.
  eapply spec_bind_lifted; [apply spec_and; [apply handle_upload_publishes|apply handle_upload_own_work]|].
  intros [r res] work [Hwork Hown]. cbn in Hown.
  match goal with |- spec ?m _ => assert (emits calm m) as Hrest end.
  { repeat first [apply release_calm|request_step|emits_step]. }
  eapply spec_weaken; [exact Hrest|]. intros x after Hafter.
  exists headers, upload, lease, (before ++ checks), work, after.
  split_and!; [done|done|by rewrite <-!app_assoc|by apply Forall_app_2|done|set_solver| |done|done].
  apply holds_no_release. by apply Forall_app_2.
Qed.

Lemma upload_calm_or_confirmed req route account headers target before :
  parse_mutation_headers (rq_method req) (rq_headers req) = Ok headers ->
  prepared (rq_method req) route (target_of route) account headers target before ->
  spec (dispatch_upload site req target headers account : Step _) (λ r l,
    Forall calm (before ++ l) \/ uploads_confirmed req route account (before ++ l)).
Proof.
  intros Hh Hp. pose proof (prepared_calm _ _ _ _ _ _ _ Hp) as Hc.
  unfold dispatch_upload. destruct (mh_upload headers) as [upload|] eqn:Hu.
  2: { apply spec_ret. left. by rewrite app_nil_r. }
  case_bool_decide.
  { eapply spec_weaken; [apply (run_upload_confirmed req route account headers upload target before [] Hh Hu Hp); constructor|].
    by right. }
  cbv zeta. apply spec_bind_call. intros scanned.
  assert (forall status code detail recovery, emits calm
    (do _ <- release_target target; answer (render_upload_rejection upload status code (bs detail) recovery) : Step unit))
    as Hrefuse by (intros; repeat first [apply release_calm|request_step|emits_step]).
  assert (forall m : Step unit, emits calm m -> spec m (λ r l,
    Forall calm (before ++ ScanDescendants (pt_target target) scanned :: l) \/
    uploads_confirmed req route account (before ++ ScanDescendants (pt_target target) scanned :: l))) as Hcalm.
  { intros m Hm. eapply spec_weaken; [exact Hm|]. intros r l Hl. left. by apply Forall_app_2, Forall_cons. }
  destruct scanned as [[[]|m]|]; [by apply Hcalm| |by apply Hcalm..].
  eapply spec_weaken; [apply (run_upload_confirmed req route account headers upload target before
    [ScanDescendants (pt_target target) (Some (Ok false))] Hh Hu Hp); by repeat constructor|]. by right.
Qed.

Lemma reading_content_calm req target : emits calm (dispatch_content_read site req target : Step _).
Proof.
  unfold dispatch_content_read, index_page, handle_send_file, send_open_file_with_gate, sys_file_metadata.
  request_auto; apply emits_lifted; [by apply open_flags_read|]. by apply emits_call.
Qed.

(** A phase that leaves the tree alone and, when the request goes on, has done
    nothing at all. *)
Definition passes {A} (m : Step A) : Prop :=
  spec m (λ r l, Forall calm l /\ forall a, r = Ok (Continue a) -> l = []).

Lemma passes_go {A} (a : A) : passes (go a).
Proof. apply spec_ret. split; [constructor|done]. Qed.

Lemma passes_answer {A} r : passes (answer r : Step A).
Proof. apply spec_answer. intros x Hx. split; [constructor|done]. Qed.

(** A step of a phase that answers the request in the end. *)
Definition ends {A} (m : Step A) : Prop := spec m (λ r l, Forall calm l /\ forall a, r <> Ok (Continue a)).

Lemma ends_passes {A} (m : Step A) : ends m -> passes m.
Proof. intros Hm. eapply spec_weaken; [exact Hm|]. intros r l [Hl Hr]. split; [done|]. intros a E. by destruct (Hr a). Qed.

Lemma ends_bind {A B} (m : Req Env B) (k : B -> Step A) : emits calm m -> (forall b, ends (k b)) -> ends (bind m k).
Proof.
  intros Hm Hk. eapply spec_bind; [exact Hm|]. intros b l Hl. eapply spec_weaken; [apply Hk|].
  intros r l' [Hl' Hr]. split; [by apply Forall_app_2|done].
Qed.

Lemma ends_answered {A} (m : Req Env (result RequestError Response)) :
  emits calm m -> ends (answered_by m : Step A).
Proof.
  intros Hm. eapply spec_bind_ok; [exact Hm| |by intros e l Hl; split].
  intros res l Hl. apply spec_ret. rewrite app_nil_r. by split.
Qed.

Lemma ends_fail {A} e : ends (fail e : Step A).
Proof. apply spec_ret. by split; [constructor|]. Qed.

Lemma passes_then {A B} (m : Step A) (k : A -> Step B) (Q : list RequestEvent -> Prop) before :
  passes m -> (forall l, Forall calm l -> Q (before ++ l)) ->
  (forall a, spec (k a) (λ _ l, Q (before ++ l))) ->
  spec (then_phase m k) (λ _ l, Q (before ++ l)).
Proof.
  intros Hm Hc Hk. eapply spec_then_phase; [exact Hm|..].
  - intros a l [_ Hl]. rewrite (Hl a eq_refl). apply Hk.
  - intros res l [Hl _]. by apply Hc.
  - intros e l [Hl _]. by apply Hc.
Qed.

Lemma hidden_passes method target headers : passes (reject_hidden_target method target headers : Step _).
Proof.
  unfold reject_hidden_target. destruct (negb _); [apply passes_go|]. apply ends_passes.
  case_bool_decide.
  - destruct (pt_delete_operation target) as [[id operation]|]; [|apply ends_fail].
    apply ends_bind; [apply server_calm, settle_untouched|]. intros settled.
    apply ends_bind; [apply release_calm|]. intros _. destruct settled; [apply refused_spec|apply ends_fail].
  - destruct (mh_upload headers); [|apply refused_spec].
    apply ends_bind; [apply release_calm|]. intros _. apply refused_spec.
Qed.

Lemma upload_status_passes req target account : passes (dispatch_upload_status site req target account : Step _).
Proof.
  unfold dispatch_upload_status. destruct (negb _); [apply passes_go|].
  destruct (parse_upload_id _) as [[id|]|e]; [|apply passes_go|apply passes_answer]. apply ends_passes.
  apply ends_bind; [apply server_calm; by apply emits_call|]. intros [lease|]; [|apply refused_spec].
  apply ends_bind.
  - apply emits_upload_handler. eapply emits_impl; [|apply upload_status_looks]. intros e. apply looks_calm.
  - intros r. apply ends_bind; [apply server_calm; by apply emits_call|]. intros _. apply ends_answered, emits_ret.
Qed.

Lemma silent_passes {A} (m : Step A) : (exists x, m = ret x) -> passes m.
Proof. intros [x ->]. apply spec_ret. by split; [constructor|]. Qed.

Lemma content_changes_spec req route account :
  spec (dispatch_content site req route account : Step _) (λ r events,
    Forall calm events \/
    (rq_method req = DELETE /\ deletes_confirmed req route account events) \/
    ((rq_method req = PUT \/ rq_method req = PATCH) /\ uploads_confirmed req route account events)).
Proof.
  unfold dispatch_content. destruct (parse_mutation_headers _ _) as [headers|r] eqn:Hh; [|apply spec_answer; by left].
  set (Q := λ events, Forall calm events \/ _).
  apply (passes_then _ _ Q []); [|by left|intros _].
  { apply silent_passes. unfold reject_reserved_target, answer, go, respond_with, ok. repeat case_match; eauto. }
  apply (passes_then _ _ Q []); [|by left|intros _].
  { apply silent_passes. unfold reject_root_delete, answer, go, ok. repeat case_match; eauto. }
  eapply spec_then_phase; [apply prepare_target_spec|..]; [|intros x l [Hc _]; by left..].
  intros target before [Hc Hp]. specialize (Hp _ eq_refl). cbn [app].
  assert (forall l, Forall calm l -> Q (before ++ l)) as Hcalm by (intros l Hl; left; by apply Forall_app_2).
  apply (passes_then _ _ Q); [apply hidden_passes|done|intros _].
  apply (passes_then _ _ Q); [apply upload_status_passes|done|intros _].
  unfold dispatch_target_method. destruct (rq_method req) eqn:Hm.
  1-2: eapply spec_weaken; [apply reading_content_calm|]; intros r l; apply Hcalm.
  1, 5: eapply spec_weaken; [apply emits_answer|]; intros r l; apply Hcalm.
  3: { eapply spec_weaken; [by apply (delete_calm_or_confirmed req route account headers target before)|].
       intros r l [?|?]; unfold Q; auto. }
  all: eapply spec_weaken; [apply (upload_calm_or_confirmed req route account headers target before); by rewrite Hm|];
    intros r l [?|?]; unfold Q; auto.
Qed.

(** C3: What a request to a path of the tree changes.  It leaves the tree alone; or
    it is a [DELETE] that trashes the very object whose revision its [If-Match]
    header names, as last seen under the lease of the path and for the operation
    its header reserved; or it is an upload to that path that works on its own
    stage only and publishes, under the lease, only over the target its headers
    confirm. *)
Theorem content_changes_are_confirmed req route account :
  spec (dispatch_content site req route account : Step _) (λ r events,
    Forall calm events \/
    (rq_method req = DELETE /\ deletes_confirmed req route account events) \/
    ((rq_method req = PUT \/ rq_method req = PATCH) /\ uploads_confirmed req route account events)).
Proof. apply content_changes_spec. Qed.
End changing.

(** ** The upload endpoints *)

Section upload_endpoints.
Context `{HttpTypes} {Env : Type} `{Os Env} `{FileOs Env} `{Host Env} `{UploadHost Env} `{!RequestHost Env}.
Context `{UuidLib} `{RequestCodec} `{UploadCodec} (json_text : Json -> bytes).
Context (sha256 : bytes -> bytes) (to_string_lossy : bytes -> bytes) (room : nat -> bool) (fs : RootedFs)
  (policy : PathPolicy) (cleanup : option IoError).

Local Abbreviation Step A := (Req Env (result RequestError (Phase A))).

Lemma untraversable_reads serve_path fuel ancestor :
  emits reads (untraversable_ancestor fs serve_path fuel ancestor : Io Env _).
Proof.
  revert ancestor. induction fuel as [|fuel IH]; intros [current|]; cbn [untraversable_ancestor]; try apply emits_ret.
  repeat (emits_step || apply metadata_reads || apply metadata_nofollow_reads || apply IH).
Qed.

Lemma preflight_target_looks owner path : emits looks (preflight_target sha256 fs policy owner path : Step _).
Proof.
  unfold preflight_target, preflight_invalid.
  repeat first
    [ request_step | emits_step
    | apply inspect_looks | apply untraversable_reads | apply guard_root_reads
    | match goal with |- emits _ (route_metadata _ _) => unfold route_metadata end
    | apply metadata_reads | apply metadata_nofollow_reads ].
Qed.

Lemma preflight_targets_look owner paths targets :
  emits looks (preflight_targets sha256 fs policy owner paths targets : Step _).
Proof.
  revert targets. induction paths as [|path paths IH]; intros targets; cbn [preflight_targets]; [apply emits_ret|].
  apply emits_then_phase; [apply preflight_target_looks|]. intros. apply IH.
Qed.

Lemma preflight_looks owner headers body :
  emits looks (handle_upload_preflight json_text sha256 fs policy owner headers body : Step _).
Proof.
  unfold handle_upload_preflight, handle_upload_preflight_paths.
  repeat first [request_step | emits_step | apply preflight_targets_look].
Qed.
End upload_endpoints.

(** ** Authentication *)

Section authentication.
Context `{HttpTypes} `{!TypedHeaders} `{UuidLib} `{RequestCodec} `{UploadCodec} `{TextOrderLaws} `{Crypto}.
Context {Env : Type} `{Os Env} `{FileOs Env} `{Host Env} `{UploadHost Env} `{DownloadHost Env} `{!RequestHost Env}.
Context (site : Site).

Local Abbreviation Step A := (Req Env (result RequestError (Phase A))).

(** Whatever it does, the rest of a request is logged. *)
Definition logged (e : RequestEvent) : Prop := True.

Lemma logged_spec {A} (m : Req Env A) Q : spec m Q -> emits logged m.
Proof. intros Hm. eapply spec_weaken; [exact Hm|]. intros a l _. by apply Forall_true. Qed.

Lemma lifted_logged {Part A} (wrap : Part -> RequestEvent) (m : Prog Part Env A) Q :
  spec m Q -> emits logged (lifted wrap m).
Proof. intros Hm. eapply logged_spec, spec_lifted, Hm. Qed.

Lemma discard_awaiting_quiet path owner id :
  hushed (discard_awaiting_upload sha256 (site_lossy site) (site_room site) (site_fs site) (site_cleanup site)
            path owner id : Handler Env _).
Proof. unfold discard_awaiting_upload, refuse, set_record_headers. hush. Qed.

Lemma discard_logged owner headers body :
  emits logged (handle_upload_discard sha256 (site_lossy site) (site_room site) (site_fs site) (site_policy site)
    (site_cleanup site) owner headers body : Step _).
Proof.
  unfold handle_upload_discard.
  repeat first
    [ match goal with |- emits _ (upload_handler _ _) => apply emits_bind; [|intros [? ?]; apply emits_ret] end
    | request_step | emits_step ].
  - eapply emits_impl; [|apply guard_root_reads]. done.
  - by apply emits_call.
  - eapply emits_impl; [|apply discard_awaiting_quiet]. done.
  - by apply emits_call.
Qed.

Lemma authenticated_api_logged req route account :
  0 <= site_max_search_entries site < usize_max ->
  emits logged (dispatch_authenticated_api site req route account : Step _).
Proof.
  intros Hmax. unfold dispatch_authenticated_api, dispatch_readiness, dispatch_job_status, dispatch_list_api,
    dispatch_browser_api, handle_browser_request, handle_list_api, probe_writable, sys_new_uuid, sys_openat, sys_write,
    sys_fsync, sys_unlinkat.
  repeat first
    [ match goal with
      | |- emits _ (handle_upload_preflight _ _ _ _ _ _ _) => eapply emits_impl; [|apply preflight_looks]; done
      | |- emits _ (handle_upload_discard _ _ _ _ _ _ _ _ _) => apply discard_logged
      | |- emits _ (server (handle_browser_api _ _ _ _ _ _ _ _)) =>
          eapply lifted_logged, mutation_asks_registry_first
      | |- emits _ (list_request _ _ _ _ _ _ _ _ _ _ _ _) => eapply emits_impl; [|by apply list_request_reads]; done
      end
    | request_step | emits_step | exact I ].
Qed.

(** C4: No request does anything before it is authenticated: unless the platform
    named an account, the only thing that happened is that the platform was
    asked - to authenticate the request or to answer a path of its own.  In
    particular no path of the tree is looked at, no lease is taken and nothing is
    recorded. *)
Theorem authentication_comes_first req route internal_api :
  0 <= site_max_search_entries site < usize_max ->
  spec (handle_inner site req route internal_api : Step _) (λ r events,
    events = [] \/ events = [Administrate] \/ events = [Authenticate None] \/
    exists account work, events = Authenticate (Some account) :: work).
Proof.
  intros Hmax. unfold handle_inner, dispatch. destruct route as [route|]; [|apply spec_ret; by left].
  eapply spec_then_phase; [apply public_routes_spec|..].
  2, 3: intros x l [->|(_ & -> & _)]; auto.
  intros [] l [->|(_ & -> & Hc)]; [|by destruct (Hc tt)].
  eapply spec_then_phase; [apply authenticate_spec|..].
  2, 3: intros x l [[-> _]|(a & -> & ?)]; [by auto|done].
  intros account l [[-> Hc]|(a & -> & Ea)]; [by destruct (Hc account)|]. injection Ea as <-.
  assert (emits logged (phase _ <- dispatch_authenticated_api site req route account;
    dispatch_content site req route account : Step unit)) as Hrest.
  { apply emits_then_phase; [by apply authenticated_api_logged|]. intros _.
    eapply logged_spec, content_changes_spec. }
  eapply spec_weaken; [exact Hrest|]. intros r work _. do 3 right. by exists account, work.
Qed.
End authentication.

(** ** Examples *)

(** A server of the small tree [a], [d], [d/b] whose store is unreachable. *)
Module DispatchExamples.
#[local] Existing Instances list_http hex_uuid ascii_text ascii_text_laws toy_crypto.
#[local] Existing Instances DirectoryWalkFacts.demo_os DownloadExamples.plain_headers DownloadExamples.notes_host.

Definition refused : IoError := io_new PermissionDenied (bs "refused").
Definition offline : bytes := bs "offline".

#[local] Instance read_only_files : FileOs unit := {|
  os_write _ _ env := (Err refused, env);
  os_flush _ env := (Err refused, env);
  os_set_len _ _ env := (Err refused, env);
  os_seek _ _ env := (Err refused, env);
  os_fchown _ _ _ env := (Err PERM, env);
  os_list_xattr _ env := (Err PERM, env);
  os_xattr_size _ _ env := (Err PERM, env);
  os_get_xattr _ _ _ env := (Err PERM, env);
  os_set_xattr _ _ _ env := (Err PERM, env);
  os_remove_xattr _ _ env := (Err PERM, env);
  os_euid := 1000
|}.

#[local] Instance offline_host : Host unit := {|
  host_begin _ _ env := (Err offline, env);
  host_mark_started _ env := (Err offline, env);
  host_complete _ _ env := (Err (Failed offline), env);
  host_abandon _ env := (tt, env);
  host_acquire _ env := (Some 1, env);
  host_release _ env := (tt, env);
  host_scan _ env := (Err offline, env);
  host_admit env := (false, env);
  host_prepare_purge _ env := (Err offline, env);
  host_remove_purge _ env := (Err offline, env);
  host_purge_ready _ _ env := (Err offline, env);
  host_wake env := (tt, env);
  host_reconcile _ env := (tt, env)
|}.

#[local] Instance offline_uploads : UploadHost unit := {|
  uh_load _ env := (Err (StoreMessage offline), env);
  uh_save _ env := (Err (StoreMessage offline), env);
  uh_reject _ _ _ env := (Err (StoreMessage offline), env);
  uh_remove _ env := (Err (StoreMessage offline), env);
  uh_reserve _ _ _ _ env := (Err refused, env);
  uh_space _ _ _ env := (Err refused, env);
  uh_consume r _ env := (r, env);
  uh_track _ env := (Err refused, env);
  uh_expired env := (false, env);
  uh_idle_deadline env := (false, env);
  uh_begin_mutation env := (false, env);
  uh_mutation_begun env := (false, env)
|}.

(** The platform knows one account. *)
#[local] Instance one_account : RequestHost unit := {|
  rh_administrate env := (Ok default_response, env);
  rh_authenticate env := (Ok (bs "ada"), env);
  rh_readiness_slot env := (true, env);
  rh_probe_space env := (Ok true, env);
  rh_probe_store env := (Ok tt, env);
  rh_probes_joined env := (None, env);
  rh_health env := (true, false, false, env);
  rh_status _ env := (Err offline, env);
  rh_take_listing env := (mkListingInput true 0 [] [] empty_store, env);
  rh_put_listing _ env := (tt, env);
  rh_preflight_slot env := (true, env);
  rh_upload_slot env := (true, env);
  rh_upload_lease _ env := (Some (Some 2), env);
  rh_inspected_in_time env := (true, env);
  rh_scan_descendants _ env := (Some (Ok false), env);
  rh_mark_reserved env := (tt, env);
  rh_upload_in_time env := (true, env);
  rh_cancel_upload env := (true, env)
|}.

#[local] Instance no_json : RequestCodec := {|
  mkdir_of_json _ := None; move_of_json _ := None; rename_of_json _ := None; mime_essence _ := None
|}.
#[local] Instance no_upload_json : UploadApi.UploadCodec := {| preflight_of_json _ := None; discard_of_json _ := None |}.

Definition demo_site : Site :=
  mkSite DirectoryWalkFacts.demo_fs (mkPolicy (bs "/srv") (bs "__assets__")) ListApiFacts.demo_machine 10 0 1000
    [] (bs "__assets__/") [] (12, 64) [] (λ _, false) (λ _, []) (λ _ _, []) id id (λ _, true) (λ _, None)
    None (Ok tt) (Ok tt).

Definition get_a : Request := mkRequest _ GET (bs "/a") ∅ no_headers BodyBroken (mkBody [] BodyFinished) None.

Example get_a_is_served :
  match (handle_inner demo_site get_a (Some (bs "a")) false (mkWorld tt [])).1 with
  | Ok (Complete res) => res_status res = 200 /\ res_body res = FileBody 0 5
  | _ => False
  end.
Proof. vm_compute. auto. Qed.

(** The demo root cannot create files, so the readiness check fails at its first
    change. *)
Definition get_ready : Request := mkRequest _ GET (bs "/__dufs__/ready") ∅ no_headers BodyBroken (mkBody [] BodyFinished) None.

Example get_ready_is_refused :
  match (handle_inner demo_site get_ready (Some READINESS_CHECK_PATH) false (mkWorld tt [])).1 with
  | Ok (Complete res) => res_status res = 503
  | _ => False
  end.
Proof. vm_compute. auto. Qed.

Lemma reading_requests_only_look_witness :
  rq_method get_a = GET /\
  spec (handle_inner demo_site get_a (Some (bs "a")) false) (λ _ events,
    Forall looks events \/
    (site_owns_path demo_site (rq_path get_a) = true /\ events = [Administrate]) \/
    exists path account rest, Some (bs "a") = Some path /\ events = Authenticate (Some account) :: rest /\
      ((is_Some (str_strip_prefix JOB_STATUS_PREFIX path) /\ exists key answer, rest = [QueryStatus key answer]) \/
       (path = READINESS_CHECK_PATH /\ readiness_check (site_fs demo_site) rest))).
Proof.
  split; [reflexivity|]. apply (reading_requests_only_look demo_site get_a (Some (bs "a")) false); [left; reflexivity|].
  split; [discriminate|reflexivity].
Defined.

Definition delete_a : Request := mkRequest _ DELETE (bs "/a") ∅ no_headers BodyBroken (mkBody [] BodyFinished) None.

Lemma authentication_comes_first_witness :
  0 <= site_max_search_entries demo_site < usize_max /\
  spec (handle_inner demo_site delete_a (Some (bs "a")) false) (λ r events,
    events = [] \/ events = [Administrate] \/ events = [Authenticate None] \/
    exists account work, events = Authenticate (Some account) :: work).
Proof.
  split; [split; [discriminate|reflexivity]|].
  apply (authentication_comes_first demo_site delete_a (Some (bs "a")) false). split; [discriminate|reflexivity].
Defined.
End DispatchExamples.
